(* ===== verification/_CoqProject ===== *)
-Q . S2P
Prelude.v
Floats.v
Rounding.v
Stream.v
Config.v
Workload.v
WorkloadPool.v
RowBlock.v
Localizer.v
Parallel.v
SpMV.v
ThreadPool.v
KVStore.v
AdaGrad.v
Linear.v
BinClass.v
Loss.v
FM.v
FMGrad.v
Minibatch.v
InputSplit.v
SingleFile.v
LibSVM.v
RecordIO.v
CRB.v
CTR.v
ThreadedIter.v
ThreadedParser.v
ThreadedSplit.v
CachedSplit.v
DiskRows.v
Filters.v
Message.v
Transport.v
DataParallel.v
Solver.v
Worker.v
Async.v
LinearWorker.v
Sketch.v
Client.v
Distributed.v
Executor.v
Manager.v
Dump.v
