(* ===== verification/Prelude.v ===== *)
(** * Verification of the DiFacto / wormhole asynchronous learning system

    ** The program

    The repository (src/) trains linear models and factorization machines on
    sparse data with three kinds of processes.  The _scheduler_ makes passes
    over the data: it keeps a pool of the parts of the data files, hands parts
    to the workers that ask for one, and tells the servers to load and to save.
    A _worker_ reads a part in minibatches; for a minibatch it maps the feature
    ids to the sorted list of the distinct ones (localization), pulls the
    model of these keys, evaluates the loss, and pushes the gradient.  A
    _server_ holds a range of the 64-bit keys in a hash map; a push runs the
    update of the learning method on every entry, a pull reads the entries.
    src/dmlc-core has streams, serialization and the containers of sparse rows,
    src/ps-lite the parameter server (messages, key ranges, filters, stores,
    the executor that tracks requests), src/src the applications.

    ** The files of the development

    Foundations:
    - [Prelude] (this file): the [outcome] of code that may fail a [CHECK] or
      touch memory out of range, machine integers with their wrap-around,
      loops, lists; the tactics and the hint database [difacto].
    - [Floats]: the interface [Float] of floating-point arithmetic with its
      instances binary32, binary64 (IEEE) and the exact rationals.
    - [Parallel]: OpenMP regions as interleavings of threads; when threads
      write to different cells, every interleaving has one result.

    Data, from dmlc-core:
    - [Stream]: base/string_stream.h, dmlc/memory_io.h, dmlc/serializer.h; the
      class [Stream] with its laws [StreamLaws].
    - [RowBlock]: dmlc/data.h and data/row_block.h.  Abstraction: lists of rows.
    - [InputSplit]: io/input_split_base.cc, io/line_split.cc; the parts of the
      files of a data set, their chunks and records.
    - [SingleFile]: io/single_file_split.h; the same loops over the standard input.
    - [LibSVM]: data/strtonum.h, data/libsvm_parser.h, data/parser.h; from the
      text of a part to row blocks, over [InputSplit].
    - [RecordIO]: dmlc/recordio.h, recordio.cc, io/recordio_split.cc; records in
      binary files, whole, in parts and in chunks, over [InputSplit].
    - [CRB]: base/compressed_row_block.h, base/crb_parser.h; row blocks in
      records, over [RecordIO] and the interface [LZ4] of the compression.
    - [CTR]: base/criteo_parser.h, base/adfea_parser.h, over any hash function.
    - [ThreadedIter]: dmlc/threadediter.h; the producer thread and the consumer
      as step functions over the members they share, for any producer.
    - [ThreadedParser]: the class of that name in data/parser.h, over
      [ThreadedIter]; it is what the minibatch reader reads from.
    - [ThreadedSplit]: io/threaded_input_split.h, the chunks of [InputSplit] read
      ahead, over [ThreadedIter]; it is what every parser reads from.
    - [CachedSplit]: io/cached_input_split.h, the chunks of the first pass kept in a
      file for the later ones.
    - [DiskRows]: data/basic_row_iter.h, data/disk_row_iter.h, the rows of a parser
      in memory and in pages on the disk, over [ThreadedIter] and [RowBlock].

    The scheduler and the dispatch of data:
    - [Config]: dmlc-core/src/config.cc, base/arg_parser.h, base/match_file.h; the
      options and the files of a job.
    - [Workload], [WorkloadPool]: base/workload.h, base/workload_pool.h.
    - [DataParallel]: solver/data_parallel.h, the messages between scheduler and
      workers as steps of an execution, over the pool.
    - [Solver]: solver/iter_solver.h and the scheduler of
      solver/minibatch_solver.h, over the dispatcher.
    - [Minibatch]: base/minibatch_iter.h over the interface [BlockSource].
    - [Worker]: the worker of solver/minibatch_solver.h as interleaved steps.

    The computation on a worker:
    - [Localizer]: base/localizer.h, base/parallel_sort.h.
    - [SpMV]: base/spmv.h, base/spmm.h over [Parallel].
    - [BinClass]: base/binary_class_evaluation.h.
    - [Loss], [FM], [FMGrad]: difacto/loss.h; [Loss] is the code over any
      [Float], [FM] and [FMGrad] show that over the rationals it is the
      factorization machine and its gradient.

    The servers:
    - [ThreadPool]: base/thread_pool.cc; the workers and the owner as step
      functions over the members they share, for any tasks.
    - [KVStore]: kv/kv_store_sparse_st.h and kv/kv_store_sparse.h over the
      interface of a handle (ps/server.h).
    - [AdaGrad]: the server of difacto/async_sgd.h, an instance of the handle.
    - [Linear]: linear/penalty.h and the servers of linear/async_sgd.h.

    Between workers and servers (ps-lite):
    - [Message]: base/range.h, system/node_assigner.h, system/remote_node.cc,
      system/message.h.
    - [Filters]: filter/fixing_float.h, truncate_float.h, delta_key.h,
      key_caching.h.
    - [Sketch]: base/countmin.h, bloom_filter.h, block_bloom_filter.h, bitmap.h
      and filter/frequency_filter.h.
    - [Client]: kv/kv_cache.h, base/parallel_ordered_match.h.
    - [Executor]: system/executor.cc, the tracker of system/remote_node.h.
    - [Manager]: system/manager.cc and system/postoffice.cc, the managers of all
      nodes and the control messages between them as steps of one system.
    - [Distributed]: no code of its own; puts [Client], [Message] and [KVStore]
      together.

    The application:
    - [Async]: the scheduler and the worker of difacto/async_sgd.h, over all of
      the above.
    - [LinearWorker]: linear/loss.h, the progress, the worker and the scheduler of
      linear/async_sgd.h.
    - [Dump]: difacto/dump.cc, difacto/push.cc, linear/dump.cc, the tools that turn
      a saved model into text.

    ** Conventions

    A [CHECK] that fails is [Fail CheckFailed], an access outside a buffer
    [Fail OutOfRange]; a theorem whose conclusion is [Ok _] says that neither
    happens.  Integers are [Z] or [nat] with the wrap-around of their width
    written out where the code can reach it.  What the code gets from elsewhere
    is an argument: the clock, [rand()], fresh memory, LZ4, CityHash64,
    [std::sort] and [exp] (with their contracts as hypotheses), the order in which threads and
    messages run (always universally quantified).  Definitions are executable
    and the witnesses run them on concrete inputs.

    ** What the theorems show

    - Every part of the data is processed exactly once: the pool
      ([dispatch_exactly_once], [Get_hands_out], [dispatch_completes]), the
      messages ([pass_over_the_data]), the minibatches of a part
      ([minibatches_in_order], [Process_covers_part], [Process_concurrency],
      [Process_returns]), the schedule of passes and saves ([Run_schedule],
      [Run_completes], [load_what_was_saved]).
    - The worker computes what it should: [Localize_correct],
      [RemapIndex_correct], [SpMV_correct], [SpMM_correct], [AUC_correct],
      [Evaluate_correct], [CalcGrad_correct].
    - The servers learn: [Push_gradient_correct], [Push_count_correct],
      [Solve_argmin], [FTRLPush_argmin]; their counters describe the model
      ([counters_track_model], [linear_counters]); a gradient is accepted
      whatever happened since the pull ([gradient_push_accepted]); models are
      saved and loaded ([model_roundtrip]) and exported ([exported_model]).
    - Many servers and many threads are one store: [bucketed_store_refines], for
      any order of the threads, which the pool runs once each ([pool_runs_all],
      [pool_calls_return]),
      [servers_cover], [SliceMessage_partition], [distributed_pull],
      [distributed_push], [callback_runs_once].
    - The nodes start and stop in step: [control_in_step], [control_ends].
    - The filters are transparent up to their stated loss:
      [fixing_float_bound], [key_caching_transparent].
    - Files become rows: the parts of a data set hold every line and every record
      once ([parts_cover_lines], [parts_cover_records], [chunk_readers_cover]),
      what was written is read back ([records_roundtrip], [crb_parts_cover]) and
      parsing text gives the rows that were printed ([text_to_minibatches],
      [criteo_chunk_rows], [adfea_chunk_rows]).
    - Reading ahead in a thread changes nothing: the iterator hands over the items
      in order, each cell has one owner, no wakeup is lost
      ([threaded_iter_sequence], [threaded_iter_calls_return]), and the parser
      that uses it returns the blocks of the parser inside
      ([threaded_parser_blocks]), the splitter the bytes of its part without
      cutting a line ([threaded_split_lines]).  Rows and chunks that are kept in a
      file are read as they were written ([disk_row_iter], [cached_passes]).
    - The sketches that count and filter keys: [CountMin_type],
      [bloom_no_false_negatives], [Bitmap_refines], [frequency_filter_keeps].
    - Options that were printed are read back: [config_roundtrip].
    - Together: [training_step] and [linear_training_step], one step of a worker
      against a server, end to end.
    - Where the code does not do what it says there is a theorem too:
      [early_stop_ignored], [stop_forgotten], [key_caching_confuses],
      [square_hinge_never_learns], [unknown_disconnect_hangs], and the examples near the definitions concerned.

    ** Bounds and fuel

    - [servers_cover] is for 1 to 32 servers: the ranges come from a division in
      80-bit floating point, which is evaluated for each of these counts; the
      code has no bound.
    - Loops that are not structural take fuel: the poll loop of [Solver] (the
      number of polls the inputs give), the minibatch iterator (one more than
      the rows left), the merge sort of [Localizer] (the length of the range), the tokens
      of [Config] (the length of the text),
      the ordered match of [Client] (the sum of the lengths), the growth of the
      hash map and the loading of pairs in [KVStore], the reading of chunks in
      [InputSplit], the lines and features of a chunk in [LibSVM], the parts and
      records of a file in [RecordIO] (the number of its bytes), the blocks of a
      part in [CRB], the memory that a parser looks at in [CTR].  For each there is a lemma that the fuel
      the definitions pass is enough; running out is never a result that a
      theorem allows.
    - Counters and indices are assumed below their width where a theorem says
      so; those hypotheses are met by every input that fits in memory.

    ** Not modelled

    Vendored headers (glog, gflags, protobuf, the OBS SDK, getopt), generated
    protobuf code, the network (the sockets of van.cc, the monitor), file
    systems (local, HDFS, S3, Azure, OBS), job trackers (YARN, Python),
    parameter structures and JSON, logging, printing and timing,
    KVStoreCuckoo (not used), and the process entry points.
    They are I/O, libraries or glue.  The remaining parts of the repository's
    own logic without a model yet are listed in the manifest with the status
    not_modelled: the filters that compress and add noise, the blocking
    queues, which little or nothing uses, and the fields of parameter structures. *)

From stdpp Require Export base tactics decidable option list list_numbers
  numbers sorting strings gmap.
From Stdlib Require Export ZArith Lia.

(** ** Aborting computations

    [CHECK], [CHECK_EQ], [LOG(FATAL)] end the process; an access outside a
    buffer and an integer division by zero are undefined behaviour.  They are
    values of [outcome], so that a theorem can say that none happens.  A model
    of a loop that is given too little fuel ends with [OutOfFuel], which is no
    behaviour of the code: theorems show that it does not happen either. *)

Inductive abort := CheckFailed | OutOfRange | DivByZero | OutOfFuel.

Inductive outcome (A : Type) :=
| Ok (a : A)
| Fail (e : abort).

Arguments Ok {A} a.
Arguments Fail {A} e.

#[export] Instance outcome_ret : MRet outcome := fun A a => Ok a.
#[export] Instance outcome_bind : MBind outcome :=
  fun A B f m => match m with Ok a => f a | Fail e => Fail e end.
#[export] Instance outcome_fmap : FMap outcome :=
  fun A B f m => match m with Ok a => Ok (f a) | Fail e => Fail e end.

#[export] Instance abort_eq_dec : EqDecision abort.
Proof. solve_decision. Defined.

(** [CHECK(b)] *)
Definition check (b : bool) : outcome unit :=
  if b then Ok tt else Fail CheckFailed.

(** [l[i]] on a buffer of known length. *)
Definition read_at {A} (l : list A) (i : nat) : outcome A :=
  match l !! i with Some x => Ok x | None => Fail OutOfRange end.

(** [l[i] = x] on a buffer of known length. *)
Definition write_at {A} (l : list A) (i : nat) (x : A) : outcome (list A) :=
  if decide (i < length l) then Ok (<[i := x]> l) else Fail OutOfRange.

(** A loop whose body may abort. *)
Fixpoint foldM {A S} (f : S -> A -> outcome S) (l : list A) (s : S) : outcome S :=
  match l with
  | [] => Ok s
  | x :: l => s' ← f s x; foldM f l s'
  end.

(** ** Tactics of the development *)

Ltac case_bool :=
  match goal with
  | |- context [if ?b then _ else _] =>
      lazymatch type of b with bool => destruct b eqn:?; simpl in * end
  end.

(** Step through a hypothesis that says a checked computation succeeded. *)
Ltac ok_step :=
  match goal with
  | H : Ok _ = Ok _ |- _ => injection H as H; subst
  | H : Fail _ = Ok _ |- _ => discriminate H
  | H : (match ?e with Ok _ => _ | Fail _ => _ end) = Ok _ |- _ =>
      destruct e eqn:?; [|discriminate H]
  | H : mbind _ ?e = Ok _ |- _ =>
      destruct e eqn:?; simpl in H; [|discriminate H]
  | H : check ?b = Ok _ |- _ =>
      unfold check in H; destruct b eqn:?; [clear H|discriminate H]
  | H : (if decide ?P then _ else _) = Ok _ |- _ =>
      destruct (decide P); simpl in H; try discriminate H
  end.

Ltac ok_inv := repeat (ok_step; simpl in *).

Create HintDb difacto.

(** ** Checked access *)

Lemma read_at_Ok {A} (l : list A) i x : read_at l i = Ok x <-> l !! i = Some x.
Proof. unfold read_at. destruct (l !! i); naive_solver. Qed.

Lemma read_at_lt {A} (l : list A) i : i < length l -> exists x, read_at l i = Ok x.
Proof.
  intros [x Hx]%lookup_lt_is_Some_2. exists x. by apply read_at_Ok.
Qed.

Lemma write_at_lt {A} (l : list A) i x :
  i < length l -> write_at l i x = Ok (<[i := x]> l).
Proof. intros H. unfold write_at. by rewrite decide_True. Qed.

Lemma check_true b : b = true -> check b = Ok tt.
Proof. by intros ->. Qed.

Lemma foldM_app {A S} (f : S -> A -> outcome S) l1 l2 s :
  foldM f (l1 ++ l2) s = (s' ← foldM f l1 s; foldM f l2 s').
Proof.
  revert s; induction l1 as [|x l1 IH]; intros s; simpl; [done|].
  destruct (f s x); simpl; [apply IH|done].
Qed.

(** A loop that never aborts is the pure fold of its body. *)
Lemma foldM_pure {A S} (f : S -> A -> outcome S) (g : S -> A -> S) (I : S -> Prop) l s :
  I s ->
  (forall s x, I s -> x ∈ l -> f s x = Ok (g s x) /\ I (g s x)) ->
  foldM f l s = Ok (foldl g s l) /\ I (foldl g s l).
Proof.
  revert s; induction l as [|x l IH]; intros s Hs Hf; simpl; [done|].
  destruct (Hf s x Hs) as [-> Hs']; [apply list_elem_of_here|]. simpl.
  apply IH; [done|]. intros s' y ? ?; apply Hf; [done|by apply list_elem_of_further].
Qed.

(** Rule of invariants for a loop that may abort. *)
Lemma foldM_inv {A S} (f : S -> A -> outcome S) (I : S -> Prop) l s s' :
  I s ->
  (forall s x s', I s -> x ∈ l -> f s x = Ok s' -> I s') ->
  foldM f l s = Ok s' -> I s'.
Proof.
  revert s; induction l as [|x l IH]; intros s Hs Hf H; simpl in *; ok_inv; [done|].
  eapply IH; [|..|done].
  - eapply Hf; [done|apply list_elem_of_here|done].
  - intros; eapply Hf; [done|by apply list_elem_of_further|done].
Qed.

#[export] Hint Resolve read_at_lt write_at_lt check_true : difacto.

(** ** Machine integers

    A [w]-bit unsigned integer is a [Z] in [[0, 2^w)]; every operation of the
    source that can leave that range is followed by its wrap-around. *)

Definition u8 (x : Z) : Z := Z.land x 255.
Definition u16 (x : Z) : Z := Z.land x 65535.
Definition u32 (x : Z) : Z := Z.land x 4294967295.
Definition u64 (x : Z) : Z := Z.land x 18446744073709551615.

Lemma u32_mod x : u32 x = (x mod 2 ^ 32)%Z.
Proof. unfold u32. change 4294967295%Z with (Z.ones 32). apply Z.land_ones. lia. Qed.

Lemma u64_mod x : u64 x = (x mod 2 ^ 64)%Z.
Proof. unfold u64. change 18446744073709551615%Z with (Z.ones 64). apply Z.land_ones. lia. Qed.

Lemma u32_range x : (0 <= u32 x < 2 ^ 32)%Z.
Proof. rewrite u32_mod. apply Z.mod_pos_bound. lia. Qed.

Lemma u64_range x : (0 <= u64 x < 2 ^ 64)%Z.
Proof. rewrite u64_mod. apply Z.mod_pos_bound. lia. Qed.

Lemma u32_small x : (0 <= x < 2 ^ 32)%Z -> u32 x = x.
Proof. intros. rewrite u32_mod. by apply Z.mod_small. Qed.

Lemma u64_small x : (0 <= x < 2 ^ 64)%Z -> u64 x = x.
Proof. intros. rewrite u64_mod. by apply Z.mod_small. Qed.

(** A fact about the bits below [n] that computation settles. *)
Lemma forall_bits_below (n : nat) (P : Z -> bool) :
  forallb (fun i => P (Z.of_nat i)) (seq 0 n) = true ->
  forall i, (0 <= i < Z.of_nat n)%Z -> P i = true.
Proof.
  intros H i Hi. rewrite forallb_forall in H.
  rewrite <- (Z2Nat.id i) by lia. apply H. apply in_seq. lia.
Qed.

Lemma testbit_above (p n i : Z) :
  (0 <= n < 2 ^ p)%Z -> (p <= i)%Z -> Z.testbit n i = false.
Proof.
  intros Hn Hi. destruct (decide (0 <= p)%Z) as [Hp|Hp].
  - rewrite <- (Z.mod_small n (2 ^ p)) by done. by apply Z.mod_pow2_bits_high.
  - rewrite Z.pow_neg_r in Hn by lia. lia.
Qed.

Lemma lor_range (a b n : Z) :
  (0 <= n)%Z -> (0 <= a < 2 ^ n)%Z -> (0 <= b < 2 ^ n)%Z -> (0 <= Z.lor a b < 2 ^ n)%Z.
Proof.
  intros Hn Ha Hb. assert (0 <= Z.lor a b)%Z by (apply Z.lor_nonneg; lia).
  split; [done|]. destruct (decide (Z.lor a b = 0)%Z) as [->|]; [lia|].
  apply Z.log2_lt_pow2; [lia|]. rewrite Z.log2_lor by lia.
  apply Z.max_lub_lt.
  - destruct (decide (a = 0)%Z) as [->|]; [|apply Z.log2_lt_pow2; lia].
    destruct (decide (n = 0)%Z) as [->|]; [|simpl; lia].
    simpl in *. assert (b = 0)%Z as -> by lia. done.
  - destruct (decide (b = 0)%Z) as [->|]; [|apply Z.log2_lt_pow2; lia].
    destruct (decide (n = 0)%Z) as [->|]; [|simpl; lia].
    simpl in *. assert (a = 0)%Z as -> by lia. done.
Qed.

(** ** Sorted lists *)

(** [std::lower_bound]: the position of the first element that is not less
    than [k], on a range sorted by [<]. *)
Fixpoint lower_bound (l : list Z) (k : Z) : nat :=
  match l with
  | [] => 0
  | x :: l => if (x <? k)%Z then S (lower_bound l k) else 0
  end.

Lemma lower_bound_le l k : lower_bound l k <= length l.
Proof. induction l; simpl; [lia|]. case_bool; lia. Qed.

Lemma lower_bound_take l k : Forall (fun x => x < k)%Z (take (lower_bound l k) l).
Proof.
  induction l as [|x l IH]; simpl; [constructor|].
  destruct (x <? k)%Z eqn:E; simpl; constructor; [lia|done].
Qed.

Lemma lower_bound_drop l k :
  StronglySorted Z.le l -> Forall (fun x => k <= x)%Z (drop (lower_bound l k) l).
Proof.
  induction 1 as [|x l Hl IH Hx]; simpl; [constructor|].
  destruct (x <? k)%Z eqn:E; simpl; [done|].
  constructor; [lia|]. eapply Forall_impl; [exact Hx|]. simpl; lia.
Qed.

Lemma lower_bound_mono l k1 k2 : (k1 <= k2)%Z -> lower_bound l k1 <= lower_bound l k2.
Proof.
  intros Hk. induction l as [|x l IH]; simpl; [lia|].
  destruct (x <? k1)%Z eqn:E1, (x <? k2)%Z eqn:E2; lia.
Qed.

Lemma StronglySorted_drop {A} (R : relation A) n l :
  StronglySorted R l -> StronglySorted R (drop n l).
Proof.
  intros H. revert n. induction H; intros [|n]; simpl; auto; constructor; auto.
Qed.

Lemma StronglySorted_take {A} (R : relation A) n l :
  StronglySorted R l -> StronglySorted R (take n l).
Proof.
  intros H. revert n. induction H; intros [|n]; simpl; try constructor; auto.
  by apply Forall_take.
Qed.

Lemma StronglySorted_lookup {A} (R : relation A) l i j x y :
  StronglySorted R l -> i < j -> l !! i = Some x -> l !! j = Some y -> R x y.
Proof.
  intros H. revert i j. induction H as [|a l Hl IH Ha]; intros [|i] [|j] ? Hx Hy;
    simplify_eq/=; try lia.
  - rewrite Forall_forall in Ha. apply Ha. by eapply list_elem_of_lookup_2.
  - eapply (IH i j); eauto with lia.
Qed.

Lemma StronglySorted_app_1 {A} (R : relation A) l1 l2 :
  StronglySorted R l1 -> StronglySorted R l2 ->
  (forall x y, x ∈ l1 -> y ∈ l2 -> R x y) -> StronglySorted R (l1 ++ l2).
Proof.
  induction 1 as [|a l Hl IH Ha]; intros H2 Hx; simpl; [done|].
  constructor; [apply IH; set_solver|].
  apply Forall_app. split; [done|]. apply Forall_forall. set_solver.
Qed.

Lemma StronglySorted_lt_NoDup l : StronglySorted Z.lt l -> NoDup l.
Proof.
  induction 1 as [|a l Hl IH Ha]; constructor; [|done].
  intros Hin. rewrite Forall_forall in Ha. specialize (Ha _ Hin). lia.
Qed.

Lemma StronglySorted_lt_le l : StronglySorted Z.lt l -> StronglySorted Z.le l.
Proof.
  induction 1 as [|a l Hl IH Ha]; constructor; [done|]. eapply Forall_impl; [exact Ha|]. simpl. lia.
Qed.

Lemma StronglySorted_filter {A} (R : relation A) (P : A -> Prop) `{!forall x, Decision (P x)} l :
  StronglySorted R l -> StronglySorted R (filter P l).
Proof.
  induction 1 as [|a l Hl IH Ha]; [constructor|]. rewrite filter_cons. case_decide; [|done].
  constructor; [done|]. apply Forall_forall. intros x Hx. apply list_elem_of_filter in Hx as [_ Hx].
  rewrite Forall_forall in Ha. by apply Ha.
Qed.

(** ** Segments *)

(** [l[b .. e)] *)
Definition segment {A} (b e : nat) (l : list A) : list A := take (e - b) (drop b l).

Lemma segment_length {A} b e (l : list A) :
  b <= e -> e <= length l -> length (segment b e l) = e - b.
Proof. intros. unfold segment. rewrite length_take, length_drop. lia. Qed.

Lemma segment_lookup {A} b e (l : list A) i :
  i < e - b -> segment b e l !! i = l !! (b + i).
Proof. intros. unfold segment. rewrite lookup_take, lookup_drop by done. by case_decide. Qed.

Lemma segment_app {A} b m e (l : list A) :
  b <= m -> m <= e -> segment b m l ++ segment m e l = segment b e l.
Proof.
  intros. unfold segment.
  replace (e - b) with ((m - b) + (e - m)) by lia.
  rewrite <- take_take_drop, drop_drop. by replace (b + (m - b)) with m by lia.
Qed.

Lemma segment_all {A} (l : list A) : segment 0 (length l) l = l.
Proof. unfold segment. by rewrite drop_0, Nat.sub_0_r, firstn_all. Qed.

Lemma segment_eq {A} b e b' e' (l l' : list A) :
  e - b = e' - b' -> (forall i, i < e - b -> l !! (b + i) = l' !! (b' + i)) ->
  segment b e l = segment b' e' l'.
Proof.
  intros He Hl. apply list_eq. intros i. destruct (decide (i < e - b)).
  - rewrite !segment_lookup by lia. by apply Hl.
  - rewrite !lookup_ge_None_2; [done|..]; unfold segment; rewrite length_take; lia.
Qed.

(** A write outside and a write inside a segment. *)
Lemma segment_insert_out {A} b e i (x : A) l :
  i < b \/ e <= i -> segment b e (<[i := x]> l) = segment b e l.
Proof. intros Hi. apply segment_eq; [done|]. intros j Hj. apply list_lookup_insert_ne. lia. Qed.

Lemma segment_insert_in {A} b e i (x : A) l :
  b <= i < e -> segment b e (<[i := x]> l) = <[i - b := x]> (segment b e l).
Proof.
  intros Hi. unfold segment.
  apply list_eq. intros j. destruct (decide (j < e - b)).
  2: { rewrite !lookup_ge_None_2; [done|rewrite length_insert|]; rewrite length_take; lia. }
  rewrite lookup_take_lt, lookup_drop by done. destruct (decide (j = i - b)) as [->|].
  - replace (b + (i - b)) with i by lia. destruct (decide (i < length l)).
    + rewrite !list_lookup_insert_eq; [done|rewrite length_take, length_drop; lia|done].
    + rewrite !lookup_ge_None_2; [done|rewrite length_insert, length_take, length_drop|rewrite length_insert]; lia.
  - rewrite !list_lookup_insert_ne by lia. by rewrite lookup_take_lt, lookup_drop by done.
Qed.

(** ** Prefix sums: the row pointers of a compressed matrix *)

Fixpoint psums (s : nat) (ls : list nat) : list nat :=
  s :: match ls with [] => [] | l :: ls => psums (s + l) ls end.

Lemma psums_length s ls : length (psums s ls) = S (length ls).
Proof. revert s; induction ls as [|l ls IH]; intros s; simpl; [done|]. by rewrite IH. Qed.

Lemma psums_lookup s ls i :
  i <= length ls -> psums s ls !! i = Some (s + sum_list (take i ls)).
Proof.
  revert s i. induction ls as [|l ls IH]; intros s [|i] Hi; simpl in *; try lia;
    try by rewrite Nat.add_0_r.
  rewrite IH by lia. f_equal. lia.
Qed.

Lemma psums_app s l1 l2 :
  psums s (l1 ++ l2) = psums s l1 ++ tail (psums (s + sum_list l1) l2).
Proof.
  revert s. induction l1 as [|l l1 IH]; intros s; simpl.
  { rewrite Nat.add_0_r. by destruct l2. }
  rewrite IH. do 2 f_equal. by rewrite Nat.add_assoc.
Qed.

Lemma psums_take s ls n : n <= length ls -> take (S n) (psums s ls) = psums s (take n ls).
Proof.
  revert s n. induction ls as [|l ls IH]; intros s [|n] Hn; simpl in *; try lia; try done.
  rewrite <- IH by lia. done.
Qed.

Lemma psums_drop s ls n :
  n <= length ls -> drop n (psums s ls) = psums (s + sum_list (take n ls)) (drop n ls).
Proof.
  revert s n. induction ls as [|l ls IH]; intros s [|n] Hn; simpl in *; try lia;
    try by rewrite Nat.add_0_r.
  rewrite IH by lia. f_equal. lia.
Qed.

Lemma length_concat_sum {A} (ls : list (list A)) : length (concat ls) = sum_list (map length ls).
Proof. induction ls; simpl; [done|]. rewrite length_app. lia. Qed.

(** The [i]-th piece of a concatenation. *)
Lemma segment_concat {A} (ls : list (list A)) i x :
  ls !! i = Some x ->
  segment (sum_list (map length (take i ls))) (sum_list (map length (take i ls)) + length x)
    (concat ls) = x.
Proof.
  intros Hi. unfold segment.
  rewrite <- (take_drop_middle ls i x Hi) at 4. rewrite concat_app. simpl.
  rewrite <- length_concat_sum, drop_app_length, Nat.add_comm, Nat.add_sub.
  by rewrite take_app_length.
Qed.

Lemma sum_list_app l1 l2 : sum_list (l1 ++ l2) = sum_list l1 + sum_list l2.
Proof. induction l1; simpl; lia. Qed.

(** ** Loops that copy or fill an array *)

Lemma foldM_ext {A S} (f g : S -> A -> outcome S) l s :
  (forall s x, x ∈ l -> f s x = g s x) -> foldM f l s = foldM g l s.
Proof.
  revert s. induction l as [|x l IH]; intros s Hf; simpl; [done|].
  rewrite Hf by apply list_elem_of_here. destruct (g s x); simpl; [|done].
  apply IH. intros. apply Hf. by apply list_elem_of_further.
Qed.

(** A loop [for (i = b; i < b + n; ++i)] keeps an invariant indexed by the
    counter. *)
Lemma foldM_seq {St} (f : St -> nat -> outcome St) (I : nat -> St -> Prop) b n s :
  I b s ->
  (forall i s, b <= i < b + n -> I i s -> exists s', f s i = Ok s' /\ I (i + 1) s') ->
  exists s', foldM f (seq b n) s = Ok s' /\ I (b + n) s'.
Proof.
  revert b s. induction n as [|n IH]; intros b s Hs Hf; simpl.
  { exists s. by rewrite Nat.add_0_r. }
  destruct (Hf b s) as (s1 & -> & Hs1); [lia|done|]. simpl.
  destruct (IH (S b) s1) as (s2 & E & Hs2).
  - by rewrite <- Nat.add_1_r.
  - intros i s' Hi. apply Hf. lia.
  - exists s2. split; [done|]. by rewrite Nat.add_succ_r.
Qed.

(** ** Filters that keep everything or nothing *)

Lemma filter_none {A} (P : A -> Prop) `{!forall x, Decision (P x)} l :
  Forall (fun x => ~ P x) l -> filter P l = [].
Proof. induction 1; [done|]. by rewrite filter_cons, decide_False. Qed.

Lemma filter_all {A} (P : A -> Prop) `{!forall x, Decision (P x)} l :
  Forall P l -> filter P l = l.
Proof. induction 1; [done|]. rewrite filter_cons, decide_True by done. by f_equal. Qed.

Lemma filter_ext_in {A} (P Q : A -> Prop) `{!forall x, Decision (P x)} `{!forall x, Decision (Q x)} (l : list A) :
  (forall x, x ∈ l -> P x <-> Q x) -> filter P l = filter Q l.
Proof.
  induction l as [|a l IH]; intros He; [done|]. rewrite !filter_cons.
  assert (filter P l = filter Q l) as -> by (apply IH; intros; apply He; by right).
  specialize (He a ltac:(left)). repeat case_decide; tauto.
Qed.

Lemma length_filter_map {A B} (f : A -> B) (P : B -> Prop) `{!forall x, Decision (P x)}
    `{!forall x, Decision (P (f x))} l :
  length (filter P (map f l)) = length (filter (fun x => P (f x)) l).
Proof.
  induction l as [|a l IH]; simpl; [done|]. rewrite !filter_cons.
  repeat case_decide; simpl; by rewrite ?IH.
Qed.

(** Writing the element after a prefix extends the prefix. *)
Lemma take_S_insert {A} n (x : A) l :
  n < length l -> take (S n) (<[n := x]> l) = take n l ++ [x].
Proof.
  intros Hn. rewrite (take_S_r _ _ x) by by apply list_lookup_insert_eq.
  by rewrite take_insert_ge.
Qed.

Lemma concat_lookup_piece {A} (ls : list (list A)) i x t y :
  ls !! i = Some x -> x !! t = Some y ->
  concat ls !! (sum_list (map length (take i ls)) + t) = Some y.
Proof.
  intros Hi Ht.
  assert (concat ls = concat (take i ls) ++ x ++ concat (drop (S i) ls)) as ->.
  { rewrite <- (take_drop_middle ls i x Hi) at 1. by rewrite concat_app. }
  rewrite <- length_concat_sum, lookup_app_r by lia.
  rewrite Nat.add_comm, Nat.add_sub, lookup_app_l; [done|]. by eapply lookup_lt_Some.
Qed.

(** A loop over positions [b], [b + 1], ... that reads a list is the fold over
    the list. *)
Lemma foldM_seq_foldl {A St} (f : St -> nat -> outcome St) (g : St -> A -> St) b (l : list A) s :
  (forall t x s, l !! t = Some x -> f s (b + t) = Ok (g s x)) ->
  foldM f (seq b (length l)) s = Ok (foldl g s l).
Proof.
  revert b s. induction l as [|x l IH]; intros b s Hf; simpl; [done|].
  pose proof (Hf 0 x s eq_refl) as H0. rewrite Nat.add_0_r in H0. rewrite H0. simpl.
  apply IH. intros t y s' Hy. replace (S b + t) with (b + S t) by lia. by apply Hf.
Qed.

Lemma foldl_gather {A B} (g : A -> list B) (l : list A) acts :
  foldl (fun acts x => acts ++ g x) acts l = acts ++ concat (map g l).
Proof.
  revert acts. induction l as [|x l IH]; intros acts; simpl; [by rewrite app_nil_r|].
  by rewrite IH, app_assoc.
Qed.

(** A loop that appends to a list. *)
Lemma foldM_gather {A B} (f : list B -> nat -> outcome (list B)) (g : A -> list B) b (l : list A) acts :
  (forall t x acts, l !! t = Some x -> f acts (b + t) = Ok (acts ++ g x)) ->
  foldM f (seq b (length l)) acts = Ok (acts ++ concat (map g l)).
Proof.
  intros Hf. rewrite (foldM_seq_foldl f (fun acts x => acts ++ g x)) by done.
  by rewrite foldl_gather.
Qed.

Lemma filter_concat {A} (P : A -> Prop) `{!forall x, Decision (P x)} (ls : list (list A)) :
  filter P (concat ls) = concat (map (filter P) ls).
Proof. induction ls; simpl; [done|]. rewrite filter_app. by f_equal. Qed.

(** ** More on [lower_bound] and segments *)

Lemma lower_bound_skip n l k :
  n <= lower_bound l k -> n + lower_bound (drop n l) k = lower_bound l k.
Proof.
  revert n. induction l as [|x l IH]; intros [|n] Hn; simpl in *; try lia.
  destruct (x <? k)%Z; [|lia]. rewrite IH by lia. done.
Qed.

Lemma lower_bound_lt l k i x : l !! i = Some x -> i < lower_bound l k -> (x < k)%Z.
Proof.
  revert i. induction l as [|y l IH]; intros [|i] Hx Hi; simplify_eq/=.
  - destruct (x <? k)%Z eqn:E; lia.
  - destruct (y <? k)%Z; [|lia]. apply (IH i); [done|lia].
Qed.

Lemma lower_bound_ge l k i x :
  StronglySorted Z.le l -> l !! i = Some x -> lower_bound l k <= i -> (k <= x)%Z.
Proof.
  intros Hs Hx Hi. pose proof (lower_bound_drop l k Hs) as Hf. rewrite Forall_lookup in Hf.
  apply (Hf (i - lower_bound l k)). rewrite lookup_drop. by replace (_ + _) with i by lia.
Qed.

Lemma lower_bound_all l k : Forall (fun x => x < k)%Z l -> lower_bound l k = length l.
Proof.
  induction 1 as [|x l Hx _ IH]; simpl; [done|].
  destruct (Z.ltb_spec x k); [|lia]. by rewrite IH.
Qed.

Lemma lower_bound_none l k : Forall (fun x => k <= x)%Z l -> lower_bound l k = 0.
Proof. destruct 1 as [|x l Hx _]; simpl; [done|]. destruct (Z.ltb_spec x k); [lia|done]. Qed.

(** A filter that selects inside a segment only. *)
Lemma filter_segment {A} (P : A -> Prop) `{!forall x, Decision (P x)} b e (l : list A) :
  b <= e -> (forall i x, l !! i = Some x -> P x -> b <= i < e) ->
  filter P l = filter P (segment b e l).
Proof.
  intros Hbe Hin. unfold segment.
  assert (l = take b l ++ take (e - b) (drop b l) ++ drop e l) as Hl.
  { rewrite <- (take_drop b l) at 1. f_equal. rewrite <- (take_drop (e - b) (drop b l)) at 1.
    f_equal. rewrite drop_drop. f_equal. lia. }
  assert (filter P (take b l) = []) as H1.
  { apply filter_none, Forall_lookup. intros i x Hx HP. apply lookup_take_Some in Hx as [Hx Hi].
    specialize (Hin i x Hx HP). lia. }
  assert (filter P (drop e l) = []) as H2.
  { apply filter_none, Forall_lookup. intros i x Hx HP. rewrite lookup_drop in Hx.
    specialize (Hin _ x Hx HP). lia. }
  rewrite Hl at 1. by rewrite !filter_app, H1, H2, app_nil_r.
Qed.

(** Consecutive segments put together. *)
Lemma segments_tile {A} (pos : nat -> nat) n (l : list A) :
  (forall t, t < n -> pos t <= pos (t + 1)) ->
  concat (map (fun t => segment (pos t) (pos (t + 1)) l) (seq 0 n)) = segment (pos 0) (pos n) l.
Proof.
  induction n as [|n IH]; intros Hm.
  { simpl. unfold segment. by rewrite Nat.sub_diag. }
  assert (pos 0 <= pos n) as H0.
  { clear IH. induction n as [|n IHn]; [done|]. etransitivity; [apply IHn|].
    - intros t Ht. apply Hm. lia.
    - replace (S n) with (n + 1) by lia. apply Hm. lia. }
  rewrite seq_S, map_app, concat_app, IH by (intros; apply Hm; lia). simpl. rewrite app_nil_r.
  rewrite segment_app; [by rewrite Nat.add_1_r|done|]. apply Hm. lia.
Qed.
