(* ===== verification/Floats.v ===== *)
(** * Floating point

    The numeric code of the repository computes with [float] and [double].  Its
    model is generic in an interface [Float] of the operations it uses, so that
    a theorem that needs no law of arithmetic holds of IEEE arithmetic as it
    is.  [binary32] and [binary64] are the two IEEE formats, round to nearest
    even, from the Standard Library's executable specification; the exact
    rationals are an instance as well, for the statements that are about the
    mathematics the code approximates. *)
From S2P Require Import Prelude.
From Stdlib Require Import Floats.SpecFloat.
From Stdlib Require Import QArith Qabs Qminmax.

Class Float (F : Type) := {
  fzero : F;
  fone : F;
  fadd : F -> F -> F;
  fsub : F -> F -> F;
  fmul : F -> F -> F;
  fdiv : F -> F -> F;
  fneg : F -> F;
  fsqrt : F -> F;
  feqb : F -> F -> bool;
  fltb : F -> F -> bool;
  fleb : F -> F -> bool;
  fofZ : Z -> F;
  ftoZ : F -> Z
}.

Declare Scope float_scope.
Delimit Scope float_scope with F.
Infix "+" := fadd : float_scope.
Infix "-" := fsub : float_scope.
Infix "*" := fmul : float_scope.
Infix "/" := fdiv : float_scope.
Infix "=?" := feqb : float_scope.
Infix "<?" := fltb : float_scope.
Infix "<=?" := fleb : float_scope.

(** [static_cast] to an integer type: truncation towards zero.  Infinities and
    NaN, for which the conversion is undefined, give 0. *)
Definition SF_trunc (x : spec_float) : Z :=
  match x with
  | S754_finite s m e =>
      let a := if (0 <=? e)%Z then (Zpos m * 2 ^ e)%Z else (Zpos m / 2 ^ (- e))%Z in
      if s then (- a)%Z else a
  | _ => 0%Z
  end.

Definition SF_float (prec emax : Z) : Float spec_float := {|
  fzero := S754_zero false;
  fone := SFone prec emax;
  fadd := SFadd prec emax;
  fsub := SFsub prec emax;
  fmul := SFmul prec emax;
  fdiv := SFdiv prec emax;
  fneg := SFopp;
  fsqrt := SFsqrt prec emax;
  feqb := SFeqb;
  fltb := SFltb;
  fleb := SFleb;
  fofZ := fun z => binary_normalize prec emax z 0 false;
  ftoZ := SF_trunc
|}.

(** [float] *)
Definition binary32 : Float spec_float := SF_float 24 128.

(** [double] *)
Definition binary64 : Float spec_float := SF_float 53 1024.

(** Exact rationals.  The square root is the integer one of numerator times
    denominator over the denominator; theorems use of it that it is not negative. *)
Definition Qfloat : Float Q := {|
  fzero := 0%Q;
  fone := 1%Q;
  fadd := Qplus;
  fsub := Qminus;
  fmul := Qmult;
  fdiv := Qdiv;
  fneg := Qopp;
  fsqrt := fun q => Qmake (Z.sqrt (Qnum q * Zpos (Qden q))) (Qden q);
  feqb := Qeq_bool;
  fltb := fun x y => negb (Qle_bool y x);
  fleb := Qle_bool;
  fofZ := inject_Z;
  ftoZ := fun q => Z.quot (Qnum q) (Zpos (Qden q))
|}.

(** The largest of two, as [std::max] computes it: [(a < b) ? b : a]. *)
Definition fmax `{Float F} (a b : F) : F := if fltb a b then b else a.
