(* ===== verification/Rounding.v ===== *)
(** * Round to nearest even

    What the executable floating point of the Standard Library computes, in
    integers: the rounding of a positive mantissa to [prec] bits is monotone,
    keeps what fits, and commutes with powers of two; products and quotients of
    normal numbers in the middle of the exponent range are roundings of the
    exact ones.  [Range::Segment] of src/src/base/spmv.h computes the bounds of
    its segments in [double]; the cuts are shown to be in order from this. *)
From S2P Require Import Prelude Floats.
From Stdlib Require Import Floats.SpecFloat.
#[local] Open Scope Z_scope.

Lemma digits2_log2 p : Zdigits2 (Zpos p) = Z.log2 (Zpos p) + 1.
Proof.
  assert (forall p, Zpos (digits2_pos p) = Z.log2 (Zpos p) + 1) as Hd.
  { clear p. induction p as [p IH|p IH|]; [| |done].
    - simpl digits2_pos. rewrite Pos2Z.inj_succ, IH. change (Zpos (xI p)) with (2 * Zpos p + 1).
      rewrite Z.log2_succ_double by lia. lia.
    - simpl digits2_pos. rewrite Pos2Z.inj_succ, IH. change (Zpos (xO p)) with (2 * Zpos p).
      rewrite Z.log2_double by lia. lia. }
  apply Hd.
Qed.

(** Division by [2 ^ k], to nearest, ties to even. *)
Definition rne (m k : Z) : Z :=
  let q := m / 2 ^ k in
  match 2 * (m mod 2 ^ k) ?= 2 ^ k with
  | Lt => q
  | Eq => if Z.even q then q else q + 1
  | Gt => q + 1
  end.

Lemma rne_bounds m k : m / 2 ^ k <= rne m k <= m / 2 ^ k + 1.
Proof. unfold rne. destruct (_ ?= _); [destruct (Z.even _)|..]; lia. Qed.

Lemma rne_mono m m' k : 0 <= k -> m <= m' -> rne m k <= rne m' k.
Proof.
  intros Hk Hm. assert (0 < 2 ^ k) as Hp by (by apply Z.pow_pos_nonneg).
  pose proof (Z.div_le_mono m m' (2 ^ k) Hp Hm) as Hq.
  destruct (Z.eq_dec (m / 2 ^ k) (m' / 2 ^ k)) as [E|E].
  - pose proof (Z.div_mod m (2 ^ k) ltac:(lia)) as D1. pose proof (Z.div_mod m' (2 ^ k) ltac:(lia)) as D2.
    unfold rne. rewrite E in *.
    destruct (2 * (m mod 2 ^ k) ?= 2 ^ k) eqn:E1, (2 * (m' mod 2 ^ k) ?= 2 ^ k) eqn:E2;
      rewrite ?Z.compare_eq_iff, ?Z.compare_lt_iff, ?Z.compare_gt_iff in *; destruct (Z.even (m' / 2 ^ k)); lia.
  - pose proof (rne_bounds m k). pose proof (rne_bounds m' k). lia.
Qed.

Lemma rne_exact m k : 0 <= k -> rne (m * 2 ^ k) k = m.
Proof.
  intros Hk. assert (0 < 2 ^ k) as Hp by (by apply Z.pow_pos_nonneg).
  unfold rne. rewrite Z.div_mul, Z.mod_mul by lia. by rewrite (proj2 (Z.compare_lt_iff _ _)) by lia.
Qed.

Lemma rne_shift m k j : 0 <= k -> 0 <= j -> rne (m * 2 ^ j) (k + j) = rne m k.
Proof.
  intros Hk Hj. assert (0 < 2 ^ k) as Hp by (by apply Z.pow_pos_nonneg).
  assert (0 < 2 ^ j) as Hp' by (by apply Z.pow_pos_nonneg).
  unfold rne. rewrite Z.pow_add_r by done. rewrite Z.div_mul_cancel_r, Z.mul_mod_distr_r by lia.
  destruct (Z.compare_spec (2 * (m mod 2 ^ k)) (2 ^ k)), (Z.compare_spec (2 * (m mod 2 ^ k * 2 ^ j)) (2 ^ k * 2 ^ j)); (done || nia).
Qed.

(** The bits of a shift to the right. *)
Lemma iter_pos_iter {A} (f : A -> A) p x : iter_pos f p x = Nat.iter (Pos.to_nat p) f x.
Proof.
  assert (forall n m (x : A), Nat.iter n f (Nat.iter m f x) = Nat.iter (n + m) f x) as Hadd.
  { intros n m y. induction n as [|n IH]; [done|]. simpl. by rewrite IH. }
  revert x. induction p as [p IH|p IH|]; intros x; simpl iter_pos; rewrite ?IH, ?Hadd; [| |done].
  - change (f x) with (Nat.iter 1 f x). rewrite Hadd. f_equal. lia.
  - f_equal. lia.
Qed.

(** What a record of a shift stands for: [m] is [shr_m] units and a rest, of
    which the bits say how it compares with half a unit. *)
Definition located (m unit : Z) (mrs : shr_record) : Prop :=
  exists rest, m = shr_m mrs * unit + rest /\ 0 <= rest < unit /\
    match shr_r mrs, shr_s mrs with
    | false, false => rest = 0
    | false, true => 0 < rest /\ 2 * rest < unit
    | true, false => 2 * rest = unit
    | true, true => unit < 2 * rest
    end.

Lemma shr_1_located m unit mrs : 0 <= shr_m mrs -> located m unit mrs -> located m (2 * unit) (shr_1 mrs) /\ 0 <= shr_m (shr_1 mrs).
Proof.
  destruct mrs as [q r s]. cbn [shr_m]. intros Hq (rest & Em & Hr & Hb). cbn [shr_m shr_r shr_s] in *.
  assert (r || s = negb (bool_decide (rest = 0))) as Ers.
  { destruct r, s; simpl; [..|by subst; rewrite bool_decide_eq_true_2]; rewrite bool_decide_eq_false_2; (done || lia). }
  assert (forall q' b, q = 2 * q' + Z.b2z b -> 0 <= q' ->
    located m (2 * unit) (Build_shr_record q' b (r || s)) /\ 0 <= q') as Hgo.
  { intros q' b Eq Hq'. split; [|done]. exists (Z.b2z b * unit + rest). cbn [shr_m shr_r shr_s]. rewrite Ers.
    rewrite bool_decide_decide. destruct b, (decide (rest = 0)); cbn [Z.b2z negb] in *; nia. }
  unfold shr_1. destruct q as [|[p|p|]|]; [..|lia].
  - by apply (Hgo 0 false).
  - by apply (Hgo (Zpos p) true).
  - by apply (Hgo (Zpos p) false).
  - by apply (Hgo 0 true).
Qed.

Lemma shr_located m unit mrs e k :
  0 <= k -> 0 <= shr_m mrs -> located m unit mrs ->
  exists mrs', shr mrs e k = (mrs', e + k) /\ located m (unit * 2 ^ k) mrs' /\ 0 <= shr_m mrs'.
Proof.
  intros Hk Hm Hl. destruct k as [|p|]; [|clear Hk|lia].
  { exists mrs. rewrite Z.add_0_r, Z.mul_1_r. done. }
  eexists. split; [reflexivity|]. rewrite iter_pos_iter, <- (positive_nat_Z p). generalize (Pos.to_nat p). intros n.
  induction n as [|n [IH1 IH2]]; [simpl Z.of_nat; rewrite Z.mul_1_r; done|].
  replace (unit * 2 ^ Z.of_nat (S n)) with (2 * (unit * 2 ^ Z.of_nat n))
    by (rewrite Nat2Z.inj_succ, Z.pow_succ_r by lia; lia).
  by apply shr_1_located.
Qed.

(** Rounding a record. *)
Definition rounded (mrs : shr_record) : Z := round_nearest_even (shr_m mrs) (loc_of_shr_record mrs).

Lemma rounded_rne m k mrs : located m (2 ^ k) mrs -> rounded mrs = rne m k.
Proof.
  destruct mrs as [q r s]. intros (rest & Em & Hr & Hb). cbn [shr_m shr_r shr_s] in *.
  assert (m / 2 ^ k = q) as Eq by (symmetry; apply (Z.div_unique_pos _ _ _ rest); lia).
  assert (m mod 2 ^ k = rest) as Er by (symmetry; apply (Z.mod_unique_pos _ _ q); lia).
  unfold rounded, rne. rewrite Eq, Er. cbn [shr_m].
  destruct (Z.compare_spec (2 * rest) (2 ^ k)), r, s; cbn; (done || lia).
Qed.

(** Rounding never adds more than half a unit. *)
Lemma rounded_le m unit mrs : located m unit mrs -> (2 * rounded mrs - 1) * unit <= 2 * m.
Proof.
  destruct mrs as [q r s]. intros (rest & Em & Hr & Hb). cbn [shr_m shr_r shr_s] in *. unfold rounded. cbn [shr_m].
  destruct r, s; cbn; try destruct (Z.even q); nia.
Qed.

Lemma rounded_bounds mrs : shr_m mrs <= rounded mrs <= shr_m mrs + 1.
Proof. destruct mrs as [q [] []]; unfold rounded; cbn; try destruct (Z.even q); lia. Qed.

(** The value of a number of mantissa [m] and exponent [e], truncated. *)
Definition trunc (m e : Z) : Z := if 0 <=? e then m * 2 ^ e else m / 2 ^ (- e).

Lemma trunc_shift m e j : 0 <= j -> trunc (m * 2 ^ j) e = trunc m (e + j).
Proof.
  intros Hj. unfold trunc. destruct (Z.leb_spec 0 e), (Z.leb_spec 0 (e + j)); try lia.
  - by rewrite Z.pow_add_r, <- Z.mul_assoc, (Z.mul_comm (2 ^ j)) by lia.
  - replace j with (e + j + - e) at 1 by lia. rewrite Z.pow_add_r, Z.mul_assoc by lia.
    apply Z.div_mul. apply Z.pow_nonzero; lia.
  - replace (- e) with (- (e + j) + j) by lia. rewrite Z.pow_add_r by lia.
    apply Z.div_mul_cancel_r; apply Z.pow_nonzero; lia.
Qed.

Lemma trunc_mono m m' e : m <= m' -> trunc m e <= trunc m' e.
Proof.
  intros Hm. unfold trunc. destruct (Z.leb_spec 0 e).
  - apply Z.mul_le_mono_nonneg_r; [apply Z.pow_nonneg; lia|done].
  - apply Z.div_le_mono; [apply Z.pow_pos_nonneg; lia|done].
Qed.

Section Format.
Context (prec emax : Z) (Hprec : 1 < prec).

(** The rounding to [prec] bits of a positive integer. *)
Definition excess (m : Z) : Z := Z.max 0 (Z.log2 m + 1 - prec).
Definition rnd (m : Z) : Z := rne m (excess m) * 2 ^ excess m.

Lemma rnd_mono m m' : 0 < m -> m <= m' -> rnd m <= rnd m'.
Proof.
  intros H0 Hm. pose proof (Z.log2_le_mono m m' Hm) as Hlog. unfold rnd, excess.
  destruct (Z.eq_dec (Z.max 0 (Z.log2 m + 1 - prec)) (Z.max 0 (Z.log2 m' + 1 - prec))) as [E|E].
  { rewrite E. apply Z.mul_le_mono_nonneg_r; [apply Z.pow_nonneg; lia|]. apply rne_mono; [lia|done]. }
  set (k := Z.max 0 (Z.log2 m + 1 - prec)) in *. set (k' := Z.max 0 (Z.log2 m' + 1 - prec)) in *.
  assert (k < k') as Hk by lia. assert (0 <= k) by lia.
  assert (rne m k * 2 ^ k <= 2 ^ (k' - 1 + prec)) as H1.
  { transitivity (2 ^ prec * 2 ^ k).
    - apply Z.mul_le_mono_nonneg_r; [apply Z.pow_nonneg; lia|].
      transitivity (rne (2 ^ prec * 2 ^ k) k); [|by rewrite rne_exact].
      apply rne_mono; [done|]. rewrite <- Z.pow_add_r by lia. apply Z.lt_le_incl, Z.log2_lt_pow2; lia.
    - rewrite <- Z.pow_add_r by lia. apply Z.pow_le_mono_r; lia. }
  etransitivity; [exact H1|].
  replace (k' - 1 + prec) with ((prec - 1) + k') by lia. rewrite Z.pow_add_r by lia.
  apply Z.mul_le_mono_nonneg_r; [apply Z.pow_nonneg; lia|].
  rewrite <- (rne_exact (2 ^ (prec - 1)) k') by lia. apply rne_mono; [lia|].
  rewrite <- Z.pow_add_r by lia. apply Z.log2_le_pow2; lia.
Qed.

Lemma rnd_small m : 0 < m -> m < 2 ^ prec -> rnd m = m.
Proof.
  intros H0 Hm. unfold rnd, excess. rewrite Z.max_l.
  - rewrite Z.mul_1_r. rewrite <- (Z.mul_1_r m) at 1. by apply (rne_exact m 0).
  - apply Z.log2_lt_pow2 in Hm; lia.
Qed.

Lemma rnd_shift m j : 0 < m -> 0 <= j -> prec - 1 <= Z.log2 m -> rnd (m * 2 ^ j) = rnd m * 2 ^ j.
Proof.
  intros H0 Hj Hm. unfold rnd, excess. rewrite Z.log2_mul_pow2 by lia. rewrite !Z.max_r by lia.
  replace (j + Z.log2 m + 1 - prec) with (Z.log2 m + 1 - prec + j) by lia.
  rewrite rne_shift, Z.pow_add_r by lia. lia.
Qed.

(** An integer of at most [prec] bits, times a power of two, is kept. *)
Lemma rnd_representable n j : 0 < n -> n < 2 ^ prec -> 0 <= j -> rnd (n * 2 ^ j) = n * 2 ^ j.
Proof.
  intros H0 Hn Hj. pose proof (proj1 (Z.log2_lt_pow2 n prec H0) Hn) as Hlog.
  destruct (Z.le_gt_cases j (prec - 1 - Z.log2 n)) as [Hs|Hs].
  - apply rnd_small; [apply Z.mul_pos_pos; [done|apply Z.pow_pos_nonneg; lia]|].
    apply Z.log2_lt_pow2; [apply Z.mul_pos_pos; [done|apply Z.pow_pos_nonneg; lia]|].
    rewrite Z.log2_mul_pow2 by lia. lia.
  - set (a := prec - 1 - Z.log2 n). replace j with (a + (j - a)) by lia.
    pose proof (Z.pow_pos_nonneg 2 a ltac:(lia) ltac:(lia)) as Ha.
    rewrite Z.pow_add_r, Z.mul_assoc by lia. rewrite rnd_shift; [|nia|lia|rewrite Z.log2_mul_pow2 by lia; lia].
    rewrite rnd_small; [done|nia|]. apply Z.log2_lt_pow2; [nia|]. rewrite Z.log2_mul_pow2 by lia. lia.
Qed.

Lemma fexp_normal d : emin prec emax <= d - prec -> fexp prec emax d = d - prec.
Proof. unfold fexp. lia. Qed.

(** The first step of the rounding: a mantissa of at least [prec] bits, with its
    location, is cut to [prec] bits. *)
Lemma located_digits x unit m k mrs mrs' :
  0 < unit -> 0 < m -> 0 <= k -> Z.log2 m = k + prec - 1 -> shr_m mrs = m ->
  located x unit mrs -> located x (unit * 2 ^ k) mrs' -> 2 ^ (prec - 1) <= shr_m mrs' < 2 ^ prec.
Proof using Hprec.
  intros Hu Hm Hk Hlog Em (r & E1 & Hr & _) (r' & E2 & Hr' & _). rewrite Em in E1.
  pose proof (Z.log2_spec m Hm) as [L1 L2]. rewrite Hlog in L1, L2.
  replace (Z.succ (k + prec - 1)) with (k + prec) in L2 by lia.
  replace (k + prec - 1) with (k + (prec - 1)) in L1 by lia. rewrite Z.pow_add_r in L1, L2 by lia.
  pose proof (Z.pow_pos_nonneg 2 k ltac:(lia) Hk) as Hpk.
  set (P := 2 ^ k) in *. set (q := shr_m mrs') in *. set (a := 2 ^ (prec - 1)) in *. set (b := 2 ^ prec) in *.
  assert (m * unit <= q * (unit * P) + r' < (m + 1) * unit) as [I1 I2] by nia.
  split.
  - apply Z.lt_succ_r. assert (P * a * unit < (q + 1) * (unit * P)) by nia. nia.
  - assert (q * (unit * P) < P * b * unit) by nia. nia.
Qed.

Lemma binary_round_aux_spec x unit m e l :
  let k := Z.log2 m + 1 - prec in
  0 < unit -> 0 < m -> 0 <= k -> emin prec emax <= e + k -> e + k + 1 <= emax - prec ->
  located x unit (shr_record_of_loc m l) ->
  exists mrs m' j, located x (unit * 2 ^ k) mrs /\ 0 <= j /\ rounded mrs = Zpos m' * 2 ^ j /\
    2 ^ (prec - 1) <= Zpos m' < 2 ^ prec /\ j <= 1 /\
    binary_round_aux prec emax false m e l = S754_finite false m' (e + k + j).
Proof using Hprec.
  intros k Hu Hm Hk Hlo Hhi Hl.
  assert (shr_m (shr_record_of_loc m l) = m) as Em by (by destruct l as [|[]]).
  destruct m as [|p|]; [lia| |lia].
  destruct (shr_located x unit (shr_record_of_loc (Zpos p) l) e k Hk ltac:(lia) Hl) as (mrs & Es & Hl' & Hm').
  pose proof (located_digits x unit (Zpos p) k _ _ Hu Hm Hk ltac:(lia) Em Hl Hl') as Hd.
  pose proof (rounded_bounds mrs) as Hr. pose proof (Z.pow_pos_nonneg 2 (prec - 1) ltac:(lia) ltac:(lia)) as Hp.
  unfold binary_round_aux, shr_fexp at 1. rewrite digits2_log2, fexp_normal by lia.
  replace (Z.log2 (Zpos p) + 1 + e - prec - e) with k by lia. rewrite Es. fold (rounded mrs).
  exists mrs. remember (rounded mrs) as c eqn:Erd. clear Erd.
  assert (2 ^ prec = 2 * 2 ^ (prec - 1)) as Epow by (rewrite <- Z.pow_succ_r by lia; f_equal; lia).
  destruct (Z.lt_ge_cases c (2 ^ prec)) as [Hc|Hc].
  - destruct c as [|c|]; [lia| |lia]. exists c, 0. split; [done|]. split; [lia|]. split; [lia|]. split; [lia|]. split; [lia|].
    assert (Z.log2 (Zpos c) = prec - 1) as Elog by (apply Z.log2_unique; [lia|]; replace (Z.succ (prec - 1)) with prec by lia; lia).
    unfold shr_fexp. rewrite digits2_log2, Elog, fexp_normal by lia.
    replace (prec - 1 + 1 + (e + k) - prec - (e + k)) with 0 by lia. cbn [shr shr_record_of_loc shr_m].
    rewrite (proj2 (Z.leb_le _ _)) by lia. by rewrite Z.add_0_r.
  - assert (c = 2 * 2 ^ (prec - 1)) as Ec by lia. set (a0 := 2 ^ (prec - 1)) in *. clearbody a0. destruct a0 as [|a|]; [lia| |lia].
    exists a, 1. split; [done|]. split; [lia|]. split; [lia|]. split; [lia|]. split; [lia|].
    assert (c = Zpos (xO a)) as -> by lia.
    assert (Z.log2 (Zpos (xO a)) = prec) as Elog.
    { change (Zpos (xO a)) with (2 * Zpos a). rewrite <- Epow. apply Z.log2_pow2. lia. }
    unfold shr_fexp. rewrite digits2_log2, Elog, fexp_normal by lia.
    replace (prec + 1 + (e + k) - prec - (e + k)) with 1 by lia. cbn [shr iter_pos shr_record_of_loc shr_1 shr_m].
    rewrite (proj2 (Z.leb_le _ _)) by lia. done.
Qed.

(** A normal mantissa. *)
Definition normal (m : positive) : Prop := 2 ^ (prec - 1) <= Zpos m < 2 ^ prec.

Lemma normal_log2 m : normal m -> Z.log2 (Zpos m) = prec - 1.
Proof using Hprec. intros Hm. apply Z.log2_unique; [lia|]. by replace (Z.succ (prec - 1)) with prec by lia. Qed.

Lemma pow_prec : 2 ^ prec = 2 * 2 ^ (prec - 1) /\ 0 < 2 ^ (prec - 1).
Proof using Hprec. split; [rewrite <- Z.pow_succ_r by lia; f_equal; lia|apply Z.pow_pos_nonneg; lia]. Qed.

Lemma located_exact m : located m 1 (shr_record_of_loc m loc_Exact).
Proof using. exists 0. cbn. lia. Qed.

Context (Hemax : 4 * prec <= emax).

Lemma fofZ_normal z :
  0 < z < 2 ^ prec -> exists m e, fofZ (Float := SF_float prec emax) z = S754_finite false m e /\
    1 - prec <= e <= 0 /\ Zpos m = z * 2 ^ (- e) /\ normal m.
Proof using Hprec Hemax.
  intros [H0 Hz]. pose proof (proj1 (Z.log2_lt_pow2 z prec H0) Hz) as Hlog. pose proof (Z.log2_nonneg z) as Hnn.
  destruct z as [|p|]; [lia| |lia]. set (s := prec - 1 - Z.log2 (Zpos p)).
  assert (emin prec emax = 3 - emax - prec) as Eemin by done.
  assert (exists mz, shl_align p 0 (fexp prec emax (Zpos (digits2_pos p) + 0)) = (mz, - s) /\ Zpos mz = Zpos p * 2 ^ s) as (mz & Ea & Emz).
  { change (Zpos (digits2_pos p)) with (Zdigits2 (Zpos p)). rewrite digits2_log2, Z.add_0_r, fexp_normal by lia.
    unfold shl_align. replace (Z.log2 (Zpos p) + 1 - prec) with (- s) by lia. rewrite Z.sub_0_r.
    assert (0 <= s) as Hs by lia. clearbody s. destruct s as [|d|]; [|..|lia]; cbn [Z.opp].
    - exists p. split; [done|]. lia.
    - eexists. split; [done|]. clear. induction d using Pos.peano_ind; [simpl; lia|].
      rewrite Pos.iter_succ, Pos2Z.inj_succ, Z.pow_succ_r by lia. lia. }
  assert (2 ^ (prec - 1) <= Zpos mz < 2 ^ prec) as Hmz.
  { rewrite Emz. pose proof (Z.log2_spec (Zpos p) ltac:(lia)) as [L1 L2].
    pose proof (Z.pow_pos_nonneg 2 s ltac:(lia) ltac:(lia)).
    assert (2 ^ (prec - 1) = 2 ^ Z.log2 (Zpos p) * 2 ^ s) as -> by (rewrite <- Z.pow_add_r by lia; f_equal; lia).
    assert (2 ^ prec = 2 ^ Z.succ (Z.log2 (Zpos p)) * 2 ^ s) as -> by (rewrite <- Z.pow_add_r by lia; f_equal; lia).
    nia. }
  pose proof (normal_log2 mz Hmz) as Elog.
  destruct (binary_round_aux_spec (Zpos mz) 1 (Zpos mz) (- s) loc_Exact) as (mrs & m & j & Hl & Hj & Er & Hm & Hj1 & Eb);
    rewrite ?Elog; try lia; [apply located_exact|].
  rewrite Elog in Hl, Eb. replace (prec - 1 + 1 - prec) with 0 in Hl, Eb by lia. rewrite Z.mul_1_l in Hl.
  rewrite (rounded_rne (Zpos mz) 0 mrs Hl) in Er.
  assert (rne (Zpos mz) 0 = Zpos mz) as Ex by (rewrite <- (Z.mul_1_r (Zpos mz)) at 1; by apply (rne_exact (Zpos mz) 0)).
  rewrite Ex in Er.
  assert (j = 0) as -> by (destruct (Z.eq_dec j 1) as [->|]; [pose proof pow_prec; lia|lia]).
  exists m, (- s). cbn [fofZ SF_float]. unfold binary_normalize, binary_round. rewrite Ea, Eb. rewrite !Z.add_0_r.
  rewrite Z.opp_involutive. split; [done|]. split; [lia|]. split; [lia|done].
Qed.

(** The product of two normal numbers, truncated. *)
Lemma mul_trunc m1 e1 m2 e2 :
  normal m1 -> normal m2 -> emin prec emax <= e1 + e2 -> e1 + e2 + prec + 1 <= emax - prec ->
  ftoZ (Float := SF_float prec emax) (fmul (Float := SF_float prec emax) (S754_finite false m1 e1) (S754_finite false m2 e2)) =
    trunc (rnd (Zpos m1 * Zpos m2)) (e1 + e2).
Proof using Hprec Hemax.
  intros [A1 A2] [B1 B2] Hlo Hhi. pose proof pow_prec as [Ep Hp]. set (x := Zpos m1 * Zpos m2).
  assert (Z.log2 x = 2 * prec - 2 \/ Z.log2 x = 2 * prec - 1) as Hlog.
  { assert (2 ^ (2 * prec - 2) <= x < 2 ^ (2 * prec)) as [X1 X2].
    { replace (2 * prec - 2) with ((prec - 1) + (prec - 1)) by lia. replace (2 * prec) with (prec + prec) by lia.
      rewrite !Z.pow_add_r by lia. unfold x. nia. }
    apply Z.log2_lt_pow2 in X2; [|lia]. apply Z.log2_le_pow2 in X1; lia. }
  cbn [fmul ftoZ SF_float SFmul xorb]. change (Zpos (m1 * m2)) with x.
  destruct (binary_round_aux_spec x 1 x (e1 + e2) loc_Exact) as (mrs & m & j & Hl & Hj & Er & Hm & Hj1 & ->);
    try lia; [apply located_exact|].
  set (k := Z.log2 x + 1 - prec) in *. rewrite Z.mul_1_l in Hl. rewrite (rounded_rne x k mrs Hl) in Er.
  unfold rnd, excess. rewrite Z.max_r by lia. fold k. rewrite Er, <- Z.mul_assoc, <- Z.pow_add_r by lia.
  rewrite trunc_shift by lia. unfold trunc, SF_trunc. replace (e1 + e2 + (j + k)) with (e1 + e2 + k + j) by lia. done.
Qed.

(** The quotient of two normal numbers exceeds the exact one by at most half a
    unit in the last place. *)
Lemma div_normal m1 e1 m2 e2 :
  normal m1 -> normal m2 -> emin prec emax <= e1 - e2 - prec -> e1 - e2 + 2 <= emax - prec ->
  exists m j, fdiv (Float := SF_float prec emax) (S754_finite false m1 e1) (S754_finite false m2 e2) =
      S754_finite false m (e1 - e2 - prec + j) /\
    0 <= j <= 2 /\ normal m /\ (2 * Zpos m - 1) * 2 ^ j * Zpos m2 <= 2 * (Zpos m1 * 2 ^ prec).
Proof using Hprec Hemax.
  intros Hm1 Hm2 Hlo Hhi. pose proof pow_prec as [Ep Hp]. pose proof (normal_log2 m1 Hm1) as E1. pose proof (normal_log2 m2 Hm2) as E2.
  destruct Hm1 as [A1 A2], Hm2 as [B1 B2]. cbn [fdiv SF_float SFdiv xorb]. unfold SFdiv_core_binary.
  rewrite !digits2_log2, E1, E2. rewrite fexp_normal by lia. rewrite Z.min_l by lia.
  replace (prec - 1 + 1 + e1 - (prec - 1 + 1 + e2) - prec) with (e1 - e2 - prec) by lia.
  replace (e1 - e2 - (e1 - e2 - prec)) with prec by lia.
  assert (match prec with Z0 => Zpos m1 | Zpos _ => Z.shiftl (Zpos m1) prec | Zneg _ => 0 end = Zpos m1 * 2 ^ prec) as ->.
  { rewrite <- Z.shiftl_mul_pow2 by lia. by destruct prec. }
  set (x := Zpos m1 * 2 ^ prec). pose proof (Z.div_mod x (Zpos m2) ltac:(lia)) as Hx. pose proof (Z.mod_pos_bound x (Zpos m2) ltac:(lia)) as Hr.
  unfold Z.div, Z.modulo in Hx, Hr. destruct (Z.div_eucl x (Zpos m2)) as [q r].
  assert (2 ^ (prec - 1) <= q < 2 ^ (prec + 1)) as Hq.
  { rewrite Z.pow_add_r by lia. change (2 ^ 1) with 2. unfold x in Hx. split.
    - apply Z.lt_succ_r. assert (2 ^ (prec - 1) * Zpos m2 < (q + 1) * Zpos m2) by nia. nia.
    - assert (q * Zpos m2 < 2 ^ prec * 2 * Zpos m2) by nia. nia. }
  assert (prec - 1 <= Z.log2 q <= prec) as Hlog.
  { destruct Hq as [Q1 Q2]. apply Z.log2_lt_pow2 in Q2; [|lia]. apply Z.log2_le_pow2 in Q1; lia. }
  assert (located x (Zpos m2) (shr_record_of_loc q (new_location (Zpos m2) r))) as Hl.
  { exists r. unfold new_location, new_location_even, new_location_odd.
    destruct (Z.even (Zpos m2)) eqn:Ev, (Z.eqb_spec r 0); cbn; try lia;
      [destruct (Z.compare_spec (2 * r) (Zpos m2))|destruct (Z.compare_spec (2 * r + 1) (Zpos m2))]; cbn; try lia.
    - assert (2 * r <> Zpos m2); [|lia]. intros E. rewrite <- E, Z.even_mul in Ev. done. }
  destruct (binary_round_aux_spec x (Zpos m2) q (e1 - e2 - prec) (new_location (Zpos m2) r)) as (mrs & m & j & Hl' & Hj & Er & Hm & Hj1 & ->);
    try lia; [done|].
  set (k := Z.log2 q + 1 - prec) in *. exists m, (k + j). rewrite Z.add_assoc. split; [done|]. split; [lia|]. split; [done|].
  pose proof (rounded_le _ _ _ Hl') as Hle. rewrite Er in Hle. rewrite Z.pow_add_r by lia.
  pose proof (Z.pow_pos_nonneg 2 k ltac:(lia) ltac:(lia)). pose proof (Z.pow_pos_nonneg 2 j ltac:(lia) ltac:(lia)).
  assert ((2 * Zpos m - 1) * 2 ^ j <= 2 * (Zpos m * 2 ^ j) - 1) by nia.
  assert ((2 * Zpos m - 1) * 2 ^ j * (Zpos m2 * 2 ^ k) <= (2 * (Zpos m * 2 ^ j) - 1) * (Zpos m2 * 2 ^ k)) by nia. lia.
Qed.

(** [n / nt * t] as the source computes it, for [n] and [nt] that the format
    holds: a rounding of a multiple of one number [mi * 2 ^ ei] that is not so
    large that the last multiple exceeds [n]. *)
Lemma scaled_cuts n nt :
  0 < n < 2 ^ prec -> 1 < nt < 2 ^ prec ->
  exists mi ei, normal mi /\ ei <= 0 /\ Zpos mi * (nt - 1) <= n * 2 ^ (- ei) /\
    forall t, 0 < t < nt ->
      ftoZ (Float := SF_float prec emax) (fmul (Float := SF_float prec emax)
        (fdiv (Float := SF_float prec emax) (fofZ (Float := SF_float prec emax) n) (fofZ (Float := SF_float prec emax) nt))
        (fofZ (Float := SF_float prec emax) t)) = trunc (rnd (Zpos mi * t)) ei.
Proof using Hprec Hemax.
  intros Hn Hnt. assert (emin prec emax = 3 - emax - prec) as Eemin by done. pose proof pow_prec as [Ep Hp].
  destruct (fofZ_normal n Hn) as (m1 & e1 & F1 & R1 & M1 & N1). destruct (fofZ_normal nt ltac:(lia)) as (m2 & e2 & F2 & R2 & M2 & N2).
  destruct (div_normal m1 e1 m2 e2 N1 N2) as (mi & j & Ed & Hj & Ni & Hle); [lia..|].
  set (ei := e1 - e2 - prec + j) in *. exists mi, ei.
  assert (- e2 < prec - 1) as He2.
  { apply (Z.pow_lt_mono_r_iff 2); [lia|lia|]. destruct N2 as [_ N2]. rewrite M2 in N2. pose proof (Z.pow_nonneg 2 (- e2)). nia. }
  split; [done|]. split; [lia|]. split.
  - assert ((2 * Zpos mi - 1) * nt <= 2 * (n * 2 ^ (- ei))) as Hb.
    { pose proof (Z.pow_pos_nonneg 2 (- ei) ltac:(lia) ltac:(lia)). pose proof (Z.pow_pos_nonneg 2 (j - e2) ltac:(lia) ltac:(lia)) as Hjp.
      apply (Z.mul_le_mono_pos_r _ _ (2 ^ (j - e2)) Hjp). rewrite M1, M2 in Hle.
      assert (2 ^ (j - e2) = 2 ^ j * 2 ^ (- e2)) as E1 by (rewrite <- Z.pow_add_r by lia; f_equal; lia).
      assert (2 ^ (- e1) * 2 ^ prec = 2 ^ (- ei) * 2 ^ (j - e2)) as E2 by (rewrite <- !Z.pow_add_r by lia; f_equal; lia).
      rewrite <- (Z.mul_assoc 2), <- (Z.mul_assoc n), <- E2, E1. lia. }
    destruct Ni. nia.
  - intros t Ht. destruct (fofZ_normal t ltac:(lia)) as (mt & et & Ft & Rt & Mt & Nt).
    rewrite F1, F2, Ed, Ft, mul_trunc by (done || lia). rewrite Mt, Z.mul_assoc.
    rewrite rnd_shift; [|nia|lia|].
    + rewrite trunc_shift by lia. f_equal. lia.
    + rewrite <- (normal_log2 mi Ni). apply Z.log2_le_mono. nia.
Qed.

Lemma cuts_in_order n nt :
  0 < n < 2 ^ prec -> 1 < nt < 2 ^ prec ->
  let cut t := ftoZ (Float := SF_float prec emax) (fmul (Float := SF_float prec emax)
    (fdiv (Float := SF_float prec emax) (fofZ (Float := SF_float prec emax) n) (fofZ (Float := SF_float prec emax) nt))
    (fofZ (Float := SF_float prec emax) t)) in
  forall t, 0 < t < nt -> cut t <= n /\ (t + 1 < nt -> cut t <= cut (t + 1)).
Proof using Hprec Hemax.
  intros Hn Hnt cut t Ht. destruct (scaled_cuts n nt Hn Hnt) as (mi & ei & Ni & He & Hle & Hcut). unfold cut. rewrite Hcut by done. split.
  - transitivity (trunc (rnd (n * 2 ^ (- ei))) ei).
    + apply trunc_mono, rnd_mono; [nia|]. nia.
    + rewrite rnd_representable, trunc_shift by lia. unfold trunc. rewrite Z.add_opp_diag_r. cbn. lia.
  - intros Ht'. rewrite Hcut by lia. apply trunc_mono, rnd_mono; nia.
Qed.

End Format.
