(* ===== verification/Stream.v ===== *)
(** * Streams and the serializer

    Models src/src/base/string_stream.h, the two memory streams of
    src/dmlc-core/include/dmlc/memory_io.h and the handlers of
    src/dmlc-core/include/dmlc/serializer.h.  The handlers are written against
    the class [Stream], as the C++ ones are against [dmlc::Stream], and proved
    against [StreamLaws], which every stream here satisfies. *)
From S2P Require Import Prelude.
From coqutil Require Export Word.LittleEndianList Byte.

Abbreviation byte := Init.Byte.byte.


(** ** The interface [dmlc::Stream] *)

(** [Read(ptr, size)] gives the bytes that were copied to [ptr], which may be
    fewer than [size]. *)
Class Stream (S : Type) := {
  Read : nat -> S -> outcome (list byte * S);
  Write : list byte -> S -> outcome S
}.

(** What a stream promises: [unread s] is what is left to read, [room s n] that
    [n] more bytes can be written, [written s] the bytes up to the position the
    next write continues from, [sok s] that the cursor is inside the buffer. *)
Class StreamLaws (S : Type) `{Stream S} := {
  sok : S -> Prop;
  unread : S -> list byte;
  written : S -> list byte;
  room : S -> nat -> Prop;
  Read_full n s :
    sok s -> n <= length (unread s) ->
    exists s', Read n s = Ok (take n (unread s), s') /\
               unread s' = drop n (unread s) /\ sok s';
  Write_append b s n :
    sok s -> room s (length b + n) ->
    exists s', Write b s = Ok s' /\ written s' = written s ++ b /\ room s' n /\ sok s'
}.

(** ** [dmlc::StringStream] *)

Module StringStream.

Record t := mk { buf_ : list byte; pos_ : nat }.

(** [StringStream()] and [StringStream(const std::string&)] *)
Definition empty : t := mk [] 0.
Definition of_string (str : list byte) : t := mk str 0.

Definition Read (size : nat) (s : t) : outcome (list byte * t) :=
  _ ← check (bool_decide (size + s.(pos_) <= length s.(buf_)));
  Ok (take size (drop s.(pos_) s.(buf_)), mk s.(buf_) (s.(pos_) + size)).

Definition Write (data : list byte) (s : t) : outcome t :=
  Ok (mk (s.(buf_) ++ data) s.(pos_)).

Definition str (s : t) : list byte := s.(buf_).

End StringStream.

#[export] Instance StringStream_Stream : Stream StringStream.t := {|
  Read := StringStream.Read;
  Write := StringStream.Write
|}.

(** ** [dmlc::MemoryStringStream] *)

Module MemoryStringStream.

Record t := mk { p_buffer_ : list byte; curr_ptr_ : nat }.

Definition Read (size : nat) (s : t) : outcome (list byte * t) :=
  _ ← check (bool_decide (s.(curr_ptr_) <= length s.(p_buffer_)));
  let nread := Nat.min (length s.(p_buffer_) - s.(curr_ptr_)) size in
  Ok (take nread (drop s.(curr_ptr_) s.(p_buffer_)),
      mk s.(p_buffer_) (s.(curr_ptr_) + nread)).

(** [resize] fills with zero bytes; [memcpy] then overwrites. *)
Definition Write (data : list byte) (s : t) : outcome t :=
  if decide (length data = 0) then Ok s else
  let buf := if decide (length s.(p_buffer_) < s.(curr_ptr_) + length data)
             then resize (s.(curr_ptr_) + length data) Byte.x00 s.(p_buffer_)
             else s.(p_buffer_) in
  Ok (mk (list_inserts s.(curr_ptr_) data buf) (s.(curr_ptr_) + length data)).

Definition Seek (pos : nat) (s : t) : t := mk s.(p_buffer_) pos.
Definition Tell (s : t) : nat := s.(curr_ptr_).

End MemoryStringStream.

#[export] Instance MemoryStringStream_Stream : Stream MemoryStringStream.t := {|
  Read := MemoryStringStream.Read;
  Write := MemoryStringStream.Write
|}.

(** ** [dmlc::MemoryFixedSizeStream] *)

Module MemoryFixedSizeStream.

(** [p_buffer_] and [buffer_size_] are the list and its length. *)
Record t := mk { p_buffer_ : list byte; curr_ptr_ : nat }.

Definition Read (size : nat) (s : t) : outcome (list byte * t) :=
  _ ← check (bool_decide (s.(curr_ptr_) + size <= length s.(p_buffer_)));
  let nread := Nat.min (length s.(p_buffer_) - s.(curr_ptr_)) size in
  Ok (take nread (drop s.(curr_ptr_) s.(p_buffer_)),
      mk s.(p_buffer_) (s.(curr_ptr_) + nread)).

Definition Write (data : list byte) (s : t) : outcome t :=
  if decide (length data = 0) then Ok s else
  _ ← check (bool_decide (s.(curr_ptr_) + length data <= length s.(p_buffer_)));
  Ok (mk (list_inserts s.(curr_ptr_) data s.(p_buffer_))
         (s.(curr_ptr_) + length data)).

Definition Seek (pos : nat) (s : t) : t := mk s.(p_buffer_) pos.
Definition Tell (s : t) : nat := s.(curr_ptr_).

End MemoryFixedSizeStream.

#[export] Instance MemoryFixedSizeStream_Stream : Stream MemoryFixedSizeStream.t := {|
  Read := MemoryFixedSizeStream.Read;
  Write := MemoryFixedSizeStream.Write
|}.

(** ** Plain old data *)

(** The bytes of a value of a POD type in memory. *)
Class Pod (A : Type) := {
  pod_size : nat;
  pod_bytes : A -> list byte;
  pod_of : list byte -> A;
  pod_valid : A -> Prop
}.

Class PodLaws (A : Type) `{Pod A} := {
  pod_bytes_length (a : A) : length (pod_bytes a) = pod_size (A := A);
  pod_of_bytes (a : A) : pod_valid a -> pod_of (pod_bytes a) = a
}.

(** Unsigned integers of [n] bytes, little endian. *)
Definition pod_uint (n : nat) : Pod Z := {|
  pod_size := n;
  pod_bytes z := le_split n z;
  pod_of b := le_combine b;
  pod_valid z := (0 <= z < 2 ^ (Z.of_nat n * 8))%Z
|}.

(** Two's complement integers of [n] bytes, little endian. *)
Definition pod_int (n : nat) : Pod Z := {|
  pod_size := n;
  pod_bytes z := le_split n z;
  pod_of b :=
    let u := le_combine b in
    if (u <? 2 ^ (Z.of_nat n * 8 - 1))%Z then u else (u - 2 ^ (Z.of_nat n * 8))%Z;
  pod_valid z := (- 2 ^ (Z.of_nat n * 8 - 1) <= z < 2 ^ (Z.of_nat n * 8 - 1))%Z
|}.

(** ** The handlers of [dmlc::serializer] *)

(** [Handler<T>]: [Read] gives [None] where the C++ returns [false]. *)
Class Handler (A : Type) := {
  hWrite : forall {T : Type} `{Stream T}, A -> T -> outcome T;
  hRead : forall {T : Type} `{Stream T}, T -> outcome (option A * T)
}.

(** [enc a] is the encoding of [a]; a handler writes it and reads it back. *)
Class HandlerLaws (A : Type) `{Handler A} := {
  enc : A -> list byte;
  valid : A -> Prop;
  hWrite_enc {T} `{StreamLaws T} a (s : T) n :
    sok s -> room s (length (enc a) + n) ->
    exists s', hWrite a s = Ok s' /\ written s' = written s ++ enc a /\
               room s' n /\ sok s';
  hRead_enc {T} `{StreamLaws T} a (s : T) r :
    valid a -> sok s -> unread s = enc a ++ r ->
    exists s', hRead s = Ok (Some a, s') /\ unread s' = r /\ sok s'
}.

(** [PODHandler] *)
Definition PODHandler {A} `{Pod A} : Handler A := {|
  hWrite T _ data strm := Write (pod_bytes data) strm;
  hRead T _ strm :=
    '(b, strm) ← Read (S := T) (pod_size (A := A)) strm;
    Ok (if decide (length b = pod_size (A := A)) then Some (pod_of b) else None, strm)
|}.

(** The elements of a vector whose memory is the given bytes. *)
Fixpoint pod_elems {A} `{Pod A} (n : nat) (b : list byte) : list A :=
  match n with
  | 0 => []
  | S n => pod_of (take (pod_size (A := A)) b) :: pod_elems n (drop (pod_size (A := A)) b)
  end.

Definition pod_memory {A} `{Pod A} (v : list A) : list byte := concat (map pod_bytes v).

(** The [uint64_t] that precedes the elements of a vector or string. *)
Definition len_enc (n : nat) : list byte := le_split 8 (Z.of_nat n).

(** [PODVectorHandler] and [PODStringHandler], which have the same body. *)
Definition PODVectorHandler {A} `{Pod A} : Handler (list A) := {|
  hWrite T _ vec strm :=
    strm ← Write (len_enc (length vec)) strm;
    if decide (length vec = 0) then Ok strm else Write (pod_memory vec) strm;
  hRead T _ strm :=
    '(b, strm) ← Read (S := T) 8 strm;
    if decide (length b = 8) then
      let size := Z.to_nat (le_combine b) in
      if decide (size = 0) then Ok (Some [], strm) else
      '(d, strm) ← Read (S := T) (pod_size (A := A) * size) strm;
      Ok (if decide (length d = pod_size (A := A) * size)
          then Some (pod_elems size d) else None, strm)
    else Ok (None, strm)
|}.

Fixpoint write_each {A T} `{Handler A, Stream T} (vec : list A) (strm : T) : outcome T :=
  match vec with
  | [] => Ok strm
  | a :: vec => strm ← hWrite a strm; write_each vec strm
  end.

Fixpoint read_each {A T} `{Handler A, Stream T} (size : nat) (strm : T)
  : outcome (option (list A) * T) :=
  match size with
  | 0 => Ok (Some [], strm)
  | S size =>
      '(a, strm) ← hRead (T := T) strm;
      match a with
      | None => Ok (None, strm)
      | Some a =>
          '(vec, strm) ← read_each (T := T) size strm;
          Ok (option_map (cons a) vec, strm)
      end
  end.

(** [ComposeVectorHandler] *)
Definition ComposeVectorHandler {A} `{Handler A} : Handler (list A) := {|
  hWrite T _ vec strm :=
    strm ← Write (len_enc (length vec)) strm;
    write_each vec strm;
  hRead T _ strm :=
    '(b, strm) ← Read (S := T) 8 strm;
    if decide (length b = 8) then read_each (Z.to_nat (le_combine b)) strm
    else Ok (None, strm)
|}.

(** [PairHandler] *)
Definition PairHandler {A B} `{Handler A, Handler B} : Handler (A * B) := {|
  hWrite T _ data strm :=
    strm ← hWrite data.1 strm; hWrite data.2 strm;
  hRead T _ strm :=
    '(a, strm) ← hRead (T := T) strm;
    match a with
    | None => Ok (None, strm)
    | Some a =>
        '(b, strm) ← hRead (T := T) strm;
        Ok (option_map (pair a) b, strm)
    end
|}.

(** [CollectionHandler] on a set: the elements as a vector, inserted one by one
    into the emptied container. *)
Definition CollectionHandler {K} `{Countable K, !Handler (list K)} : Handler (gset K) := {|
  hWrite T _ data strm := hWrite (elements data) strm;
  hRead T _ strm :=
    '(vdata, strm) ← hRead (A := list K) (T := T) strm;
    Ok (option_map list_to_set vdata, strm)
|}.

(** ** The streams keep their promises *)

Lemma StringStream_Read_full n s :
  s.(StringStream.pos_) <= length s.(StringStream.buf_) ->
  n <= length (drop s.(StringStream.pos_) s.(StringStream.buf_)) ->
  StringStream.Read n s =
    Ok (take n (drop s.(StringStream.pos_) s.(StringStream.buf_)),
        StringStream.mk s.(StringStream.buf_) (s.(StringStream.pos_) + n)).
Proof.
  rewrite length_drop. intros. unfold StringStream.Read.
  by rewrite check_true by (apply bool_decide_eq_true; lia).
Qed.

#[export] Program Instance StringStream_laws : StreamLaws StringStream.t := {|
  sok s := s.(StringStream.pos_) <= length s.(StringStream.buf_);
  unread s := drop s.(StringStream.pos_) s.(StringStream.buf_);
  written s := s.(StringStream.buf_);
  room _ _ := True
|}.
Next Obligation.
  intros n s Hok Hn. simpl in *. eexists. split; [by apply StringStream_Read_full|].
  rewrite length_drop in Hn. simpl. rewrite drop_drop. split; [done|lia].
Qed.
Next Obligation.
  intros b s n Hok _. eexists. split; [done|]. simpl in *.
  rewrite length_app. repeat split; lia.
Qed.

(** The two memory streams read the same way while the request fits. *)
Lemma memory_read_full n cur (buf : list byte) :
  cur <= length buf -> n <= length (drop cur buf) ->
  take (Nat.min (length buf - cur) n) (drop cur buf) = take n (drop cur buf) /\
  drop (cur + Nat.min (length buf - cur) n) buf = drop n (drop cur buf) /\
  cur + Nat.min (length buf - cur) n <= length buf.
Proof.
  rewrite length_drop. intros. rewrite Nat.min_r by lia. rewrite drop_drop.
  repeat split; lia.
Qed.

(** Overwriting at the cursor extends the part before the cursor. *)
Lemma take_list_inserts {A} i (k l : list A) :
  i + length k <= length l ->
  take (i + length k) (list_inserts i k l) = take i l ++ k.
Proof.
  intros Hi. apply list_eq. intros j.
  destruct (decide (j < i + length k)) as [Hj|Hj].
  - rewrite lookup_take_lt by done.
    destruct (decide (j < i)).
    + rewrite list_lookup_inserts_lt, lookup_app_l, lookup_take_lt by
        (rewrite ?length_take; lia). done.
    + rewrite list_lookup_inserts, lookup_app_r by (rewrite ?length_take; lia).
      rewrite length_take. f_equal. lia.
  - rewrite lookup_take_ge by lia. symmetry. apply lookup_ge_None_2.
    rewrite length_app, length_take. lia.
Qed.

#[export] Program Instance MemoryStringStream_laws : StreamLaws MemoryStringStream.t := {|
  sok s := s.(MemoryStringStream.curr_ptr_) <= length s.(MemoryStringStream.p_buffer_);
  unread s := drop s.(MemoryStringStream.curr_ptr_) s.(MemoryStringStream.p_buffer_);
  written s := take s.(MemoryStringStream.curr_ptr_) s.(MemoryStringStream.p_buffer_);
  room _ _ := True
|}.
Next Obligation.
  intros n [buf cur] Hok Hn. simpl in *. unfold MemoryStringStream.Read. simpl.
  rewrite check_true by (by apply bool_decide_eq_true). simpl.
  destruct (memory_read_full n cur buf Hok Hn) as (-> & <- & ?).
  eexists. split; [done|]. done.
Qed.
Next Obligation.
  intros b [buf cur] n Hok _. simpl in *. unfold MemoryStringStream.Write. simpl.
  case_decide as Hb.
  { destruct b; [|done]. eexists. split; [done|]. by rewrite app_nil_r. }
  eexists. split; [done|]. simpl. rewrite length_inserts.
  case_decide as Hlen.
  - rewrite take_list_inserts by (rewrite length_resize; lia).
    rewrite length_resize. rewrite take_resize_le by lia.
    rewrite resize_le by lia. split; [done|lia].
  - rewrite take_list_inserts by lia. split; [done|lia].
Qed.

#[export] Program Instance MemoryFixedSizeStream_laws : StreamLaws MemoryFixedSizeStream.t := {|
  sok s := s.(MemoryFixedSizeStream.curr_ptr_) <= length s.(MemoryFixedSizeStream.p_buffer_);
  unread s := drop s.(MemoryFixedSizeStream.curr_ptr_) s.(MemoryFixedSizeStream.p_buffer_);
  written s := take s.(MemoryFixedSizeStream.curr_ptr_) s.(MemoryFixedSizeStream.p_buffer_);
  room s n :=
    s.(MemoryFixedSizeStream.curr_ptr_) + n <= length s.(MemoryFixedSizeStream.p_buffer_)
|}.
Next Obligation.
  intros n [buf cur] Hok Hn. simpl in *. unfold MemoryFixedSizeStream.Read. simpl.
  rewrite check_true by (apply bool_decide_eq_true; rewrite length_drop in Hn; lia).
  simpl. destruct (memory_read_full n cur buf Hok Hn) as (-> & <- & ?).
  eexists. split; [done|]. done.
Qed.
Next Obligation.
  intros b [buf cur] n Hok Hr. simpl in *. unfold MemoryFixedSizeStream.Write. simpl.
  case_decide as Hb.
  { destruct b; [|done]. eexists. split; [done|]. rewrite app_nil_r.
    simpl in *. repeat split; lia. }
  rewrite check_true by (apply bool_decide_eq_true; lia).
  eexists. split; [done|]. simpl. rewrite length_inserts.
  rewrite take_list_inserts by lia. repeat split; lia.
Qed.

(** ** The handlers are inverse to each other *)

#[export] Instance pod_uint_laws n : @PodLaws Z (pod_uint n).
Proof.
  split; intros z; simpl; [apply length_le_split|].
  intros Hz. rewrite le_combine_split. by apply Z.mod_small.
Qed.

Lemma pod_int_of_bytes n z :
  0 < n -> pod_valid (Pod := pod_int n) z ->
  pod_of (Pod := pod_int n) (pod_bytes (Pod := pod_int n) z) = z.
Proof.
  simpl. intros Hn Hz. rewrite le_combine_split.
  assert (2 ^ (Z.of_nat n * 8) = 2 * 2 ^ (Z.of_nat n * 8 - 1))%Z as Hp.
  { rewrite <- Z.pow_succ_r by lia. f_equal. lia. }
  rewrite Hp in *. set (m := (2 ^ (Z.of_nat n * 8 - 1))%Z) in *.
  destruct (decide (0 <= z)%Z).
  - rewrite Z.mod_small by lia. destruct (z <? m)%Z eqn:E; lia.
  - rewrite <- (Z.mod_add z 1), Z.mul_1_l, Z.mod_small by lia.
    destruct (z + 2 * m <? m)%Z eqn:E; lia.
Qed.

#[export] Instance pod_int_laws n : @PodLaws Z (pod_int (S n)).
Proof.
  split; intros z; [apply length_le_split|]. apply pod_int_of_bytes. lia.
Qed.

Lemma len_enc_dec n :
  (Z.of_nat n < 2 ^ 64)%Z -> Z.to_nat (le_combine (len_enc n)) = n.
Proof.
  intros. unfold len_enc. rewrite le_combine_split. rewrite Z.mod_small by lia. lia.
Qed.

Lemma len_enc_length n : length (len_enc n) = 8.
Proof. apply length_le_split. Qed.

Section Laws.
#[local] Opaque le_split le_combine len_enc.
Context {A : Type}.

Lemma pod_memory_length `{PodLaws A} (v : list A) :
  length (pod_memory v) = pod_size (A := A) * length v.
Proof.
  induction v as [|a v IH]; simpl; [lia|].
  unfold pod_memory in *. simpl. rewrite length_app, IH, pod_bytes_length. lia.
Qed.

Lemma pod_elems_memory `{PodLaws A} (v : list A) :
  Forall pod_valid v -> pod_elems (length v) (pod_memory v) = v.
Proof.
  induction 1 as [|a v Ha Hv IH]; [done|]. unfold pod_memory in *. simpl.
  rewrite take_app_length', drop_app_length' by (symmetry; apply pod_bytes_length).
  by rewrite IH, pod_of_bytes.
Qed.

(** Reading what was written first, for a chunk of known length. *)
Lemma Read_prefix {T} `{StreamLaws T} (b r : list byte) (s : T) n :
  sok s -> unread s = b ++ r -> n = length b ->
  exists s', Read n s = Ok (b, s') /\ unread s' = r /\ sok s'.
Proof.
  intros Hok Hu ->. destruct (Read_full (length b) s) as (s' & HR & HU & Hok'); [done|..].
  { rewrite Hu, length_app. lia. }
  exists s'. rewrite HR, HU, Hu, take_app_length, drop_app_length. done.
Qed.

#[export] Program Instance PODHandler_laws `{PodLaws A}
  : @HandlerLaws A PODHandler := {|
  enc a := pod_bytes a;
  valid a := pod_valid a
|}.
Next Obligation. intros. simpl. by apply Write_append. Qed.
Next Obligation.
  intros ? ? T ? ? a s r Hv Hok Hu. simpl.
  destruct (Read_prefix _ _ s (pod_size (A := A)) Hok Hu) as (s' & -> & ? & ?);
    [by rewrite pod_bytes_length|].
  simpl. rewrite decide_True by apply pod_bytes_length.
  rewrite pod_of_bytes by done. eauto.
Qed.

#[export] Program Instance PODVectorHandler_laws `{PodLaws A}
  : @HandlerLaws (list A) PODVectorHandler := {|
  enc v := len_enc (length v) ++ pod_memory v;
  valid v := Forall pod_valid v /\ (Z.of_nat (length v) < 2 ^ 64)%Z /\ 0 < pod_size (A := A)
|}.
Next Obligation.
  intros ? ? T ? ? v s n Hok Hr. cbv beta in *. rewrite length_app, <- Nat.add_assoc in Hr.
  destruct (Write_append _ s _ Hok Hr) as (s1 & HW & Hw1 & Hr1 & Hok1).
  simpl. rewrite HW. simpl.
  case_decide as Hlen.
  - destruct v; [|done]. exists s1. rewrite Hw1.
    change (pod_memory []) with (@nil byte). by rewrite app_nil_r.
  - destruct (Write_append _ s1 _ Hok1 Hr1) as (s2 & HW2 & Hw2 & ? & ?).
    exists s2. by rewrite HW2, Hw2, Hw1, app_assoc.
Qed.
Next Obligation.
  intros ? ? T ? ? v s r (Hv & Hlen & Hsz) Hok Hu. simpl. cbv beta in *. rewrite <- app_assoc in Hu.
  destruct (Read_prefix _ _ s 8 Hok Hu) as (s1 & -> & Hu1 & Hok1);
    [by rewrite len_enc_length|].
  simpl. rewrite decide_True by apply len_enc_length. rewrite len_enc_dec by done.
  case_decide as Hz.
  { destruct v; [|done]. exists s1. done. }
  destruct (Read_prefix _ _ s1 (pod_size (A := A) * length v) Hok1 Hu1)
    as (s2 & -> & ? & ?); [by rewrite pod_memory_length|].
  simpl. rewrite decide_True by apply pod_memory_length.
  rewrite pod_elems_memory by done. eauto.
Qed.

Lemma write_each_enc `{HandlerLaws A} {T} `{StreamLaws T} (v : list A) (s : T) n :
  sok s -> room s (length (concat (map enc v)) + n) ->
  exists s', write_each v s = Ok s' /\ written s' = written s ++ (concat (map enc v)) /\
             room s' n /\ sok s'.
Proof.
  revert s. induction v as [|a v IH]; intros s Hok Hr; simpl in *.
  { exists s. by rewrite app_nil_r. }
  rewrite length_app, <- Nat.add_assoc in Hr.
  destruct (hWrite_enc _ s _ Hok Hr) as (s1 & -> & Hw1 & Hr1 & Hok1). simpl.
  destruct (IH s1 Hok1 Hr1) as (s2 & HW2 & Hw2 & ? & ?).
  exists s2. by rewrite HW2, Hw2, Hw1, app_assoc.
Qed.

Lemma read_each_enc `{HandlerLaws A} {T} `{StreamLaws T} (v : list A) (s : T) r :
  Forall valid v -> sok s -> unread s = (concat (map enc v)) ++ r ->
  exists s', read_each (length v) s = Ok (Some v, s') /\ unread s' = r /\ sok s'.
Proof.
  intros Hv. revert s. induction Hv as [|a v Ha Hv IH]; intros s Hok Hu; simpl in *.
  { eauto. }
  rewrite <- app_assoc in Hu.
  destruct (hRead_enc _ s _ Ha Hok Hu) as (s1 & -> & Hu1 & Hok1). simpl.
  destruct (IH s1 Hok1 Hu1) as (s2 & -> & ? & ?). simpl. eauto.
Qed.

#[export] Program Instance ComposeVectorHandler_laws `{HandlerLaws A}
  : @HandlerLaws (list A) ComposeVectorHandler := {|
  enc v := len_enc (length v) ++ (concat (map enc v));
  valid v := Forall valid v /\ (Z.of_nat (length v) < 2 ^ 64)%Z
|}.
Next Obligation.
  intros ? ? T ? ? v s n Hok Hr. cbv beta in *. rewrite length_app, <- Nat.add_assoc in Hr.
  destruct (Write_append _ s _ Hok Hr) as (s1 & HW & Hw1 & Hr1 & Hok1).
  simpl. rewrite HW. simpl.
  destruct (write_each_enc _ s1 _ Hok1 Hr1) as (s2 & HW2 & Hw2 & ? & ?).
  exists s2. by rewrite HW2, Hw2, Hw1, app_assoc.
Qed.
Next Obligation.
  intros ? ? T ? ? v s r (Hv & Hlen) Hok Hu. simpl. cbv beta in *. rewrite <- app_assoc in Hu.
  destruct (Read_prefix _ _ s 8 Hok Hu) as (s1 & -> & Hu1 & Hok1);
    [by rewrite len_enc_length|].
  simpl. rewrite decide_True by apply len_enc_length. rewrite len_enc_dec by done.
  by apply read_each_enc.
Qed.

#[export] Program Instance PairHandler_laws {B} `{HandlerLaws A, HandlerLaws B}
  : @HandlerLaws (A * B) PairHandler := {|
  enc p := enc p.1 ++ enc p.2;
  valid p := valid p.1 /\ valid p.2
|}.
Next Obligation.
  intros B ? ? ? ? T ? ? [a b] s n Hok Hr. cbv beta in *. rewrite length_app, <- Nat.add_assoc in Hr.
  simpl in *. destruct (hWrite_enc _ s _ Hok Hr) as (s1 & -> & Hw1 & Hr1 & Hok1).
  simpl. destruct (hWrite_enc _ s1 _ Hok1 Hr1) as (s2 & HW2 & Hw2 & ? & ?).
  exists s2. by rewrite HW2, Hw2, Hw1, app_assoc.
Qed.
Next Obligation.
  intros B ? ? ? ? T ? ? [a b] s r [Ha Hb] Hok Hu. simpl in *. rewrite <- app_assoc in Hu.
  destruct (hRead_enc _ s _ Ha Hok Hu) as (s1 & -> & Hu1 & Hok1). simpl.
  destruct (hRead_enc _ s1 _ Hb Hok1 Hu1) as (s2 & -> & ? & ?). simpl. eauto.
Qed.

#[export] Program Instance CollectionHandler_laws
  `{Countable A, !Handler (list A), !HandlerLaws (list A)}
  : @HandlerLaws (gset A) CollectionHandler := {|
  enc s := enc (elements s);
  valid s := valid (elements s)
|}.
Next Obligation.
  intros ? ? ? ? T ? ? a s n Hok Hr. simpl.
  apply (hWrite_enc (elements a) s n Hok Hr).
Qed.
Next Obligation.
  intros ? ? ? ? T ? ? a s r Hv Hok Hu. simpl.
  destruct (hRead_enc _ s _ Hv Hok Hu) as (s1 & -> & ? & ?). simpl.
  exists s1. split; [|done]. do 3 f_equal. apply set_eq. set_solver.
Qed.

End Laws.
