(* ===== verification/Config.v ===== *)
(** * Options

    Models src/dmlc-core/src/config.cc and config.h, files of options [key = value];
    src/src/base/arg_parser.h, the options of the applications, and
    src/src/base/match_file.h, which finds the files of a data set.  Parsing the text
    format of protocol buffers, listing a directory and regular expressions are
    arguments. *)
From stdpp Require Import strings.
From Stdlib Require Import Ascii.
From Stdlib Require Strings.String.
From S2P Require Import Prelude.

Abbreviation text := (list ascii).

(** ** The tokenizer *)
Module Tokenizer.

Definition quote : ascii := ascii_of_nat 34.
Definition backslash : ascii := ascii_of_nat 92.
Definition equals : ascii := ascii_of_nat 61.
Definition hash : ascii := ascii_of_nat 35.
Definition newline : ascii := ascii_of_nat 10.
Definition blank : ascii := ascii_of_nat 32.
(** The byte that is [EOF] as a [char]. *)
Definition eof : ascii := ascii_of_nat 255.

Definition is_newline (c : ascii) : bool := bool_decide (c = newline) || bool_decide (c = ascii_of_nat 13).
Definition is_blank (c : ascii) : bool := bool_decide (c = blank) || bool_decide (c = ascii_of_nat 9) || is_newline c.

(** [PeekChar()]: [None] is [EOF]. *)
Definition PeekChar (s : text) : option ascii := match s with c :: _ => if decide (c = eof) then None else Some c | [] => None end.

(** [struct Token]; [enum ParseState] *)
Record Token := mkToken { buf : text; is_string : bool }.
Inductive ParseState := kNone | kToken | kFinish.
#[export] Instance ParseState_dec : EqDecision ParseState.
Proof. solve_decision. Defined.

(** [ParseString(tok)] behind the first quotation mark; [None] is a [TokenizeError]. *)
Fixpoint ParseString (tok : text) (s : text) : option (text * text) :=
  match s with
  | [] => None
  | c :: s =>
      if decide (c = quote) then Some (tok, s)
      else if decide (c = backslash) then
        match s with
        | d :: s => if decide (d = quote) then ParseString (tok ++ [quote]) s else None
        | [] => None
        end
      else if is_newline c || bool_decide (c = eof) then None
      else ParseString (tok ++ [c]) s
  end.

(** [ParseComments()]: also a zero byte ends a comment. *)
Fixpoint ParseComments (s : text) : text :=
  match s with
  | [] => []
  | c :: s' => if bool_decide (c = ascii_of_nat 0) || is_newline c || bool_decide (c = eof) then s else ParseComments s'
  end.

(** The loop of [GetNextToken]; the outer result is about the fuel, the inner one a
    [TokenizeError]. *)
Fixpoint token_loop (fuel : nat) (state : ParseState) (tok : Token) (s : text) : outcome (option (Token * text)) :=
  match fuel with
  | 0 => Fail OutOfFuel
  | S fuel =>
      match PeekChar s with
      | None => Ok (Some (tok, s))
      | Some c =>
          if decide (state = kFinish) then Ok (Some (tok, s))
          else if is_blank c then
            if decide (state = kToken) then token_loop fuel kFinish tok s else token_loop fuel state tok (tail s)
          else if decide (c = quote) then
            match ParseString tok.(buf) (tail s) with
            | Some (b, s) => token_loop fuel kFinish (mkToken b true) s
            | None => Ok None
            end
          else if decide (c = equals) then
            if decide (state <> kToken) then token_loop fuel kFinish (mkToken [equals] tok.(is_string)) (tail s)
            else token_loop fuel kFinish tok s
          else if decide (c = hash) then token_loop fuel state tok (ParseComments s)
          else token_loop fuel kToken (mkToken (tok.(buf) ++ [c]) tok.(is_string)) (tail s)
      end
  end.

(** [GetNextToken(tok)]; what it returns is not used. *)
Definition GetNextToken (s : text) : outcome (option (Token * text)) := token_loop (length s + 2) kNone (mkToken [] false) s.
End Tokenizer.
Import Tokenizer.

(** ** The options *)

(** [struct ConfigValue] *)
Record ConfigValue := mkValue { val : list text; insert_index : list nat; v_string : bool }.

(** [class Config] *)
Record Config := mkConfig { config_map_ : gmap text ConfigValue; order_ : list (text * nat); multi_value_ : bool }.

Definition new_Config (m : bool) : Config := mkConfig ∅ [] m.

(** [Insert(key, value, is_string)] *)
Definition Insert (key value : text) (is_string : bool) (c : Config) : Config :=
  let old := if c.(multi_value_) then default (mkValue [] [] false) (c.(config_map_) !! key) else mkValue [] [] false in
  let cv := mkValue (old.(val) ++ [value]) (old.(insert_index) ++ [length c.(order_)]) is_string in
  mkConfig (<[key := cv]> c.(config_map_)) (c.(order_) ++ [(key, length old.(val))]) c.(multi_value_).

(** The loop of [LoadFromStream]. *)
Fixpoint load_loop (fuel : nat) (s : text) (c : Config) : outcome Config :=
  match fuel with
  | 0 => Fail OutOfFuel
  | S fuel =>
      k ← GetNextToken s;
      match k with
      | None => Ok c
      | Some (key, s) =>
          if decide (length key.(buf) = 0) then Ok c else
          e ← GetNextToken s;
          match e with
          | None => Ok c
          | Some (eqop, s) =>
              v ← GetNextToken s;
              match v with
              | None => Ok c
              | Some (value, s) => load_loop fuel s (Insert key.(buf) value.(buf) value.(is_string) c)
              end
          end
      end
  end.

(** [LoadFromStream(is)]: an error ends it and keeps what was read; a missing [=] is
    only logged. *)
Definition LoadFromStream (s : text) (c : Config) : outcome Config := load_loop (S (length s)) s c.

(** [GetParam(key)], [IsGenuineString(key)] *)
Definition GetParam (key : text) (c : Config) : outcome text :=
  match c.(config_map_) !! key with
  | None => Fail CheckFailed
  | Some cv => read_at cv.(val) (length cv.(val) - 1)
  end.
Definition IsGenuineString (key : text) (c : Config) : outcome bool :=
  match c.(config_map_) !! key with None => Fail CheckFailed | Some cv => Ok cv.(v_string) end.

(** *** The iterator *)

(** [FindNextIndex()] from [index_] on. *)
Fixpoint FindNextIndex (fuel : nat) (index : nat) (c : Config) : outcome nat :=
  match fuel with
  | 0 => Ok index
  | S fuel =>
      if decide (index < length c.(order_)) then
        '(key, val_index) ← read_at c.(order_) index;
        match c.(config_map_) !! key with
        | None => Fail OutOfRange
        | Some cv => i ← read_at cv.(insert_index) val_index; if decide (i = index) then Ok index else FindNextIndex fuel (index + 1) c
        end
      else Ok index
  end.

(** [operator *] *)
Definition deref (index : nat) (c : Config) : outcome (text * text) :=
  '(key, val_index) ← read_at c.(order_) index;
  match c.(config_map_) !! key with
  | None => Fail OutOfRange
  | Some cv => v ← read_at cv.(val) val_index; Ok (key, v)
  end.

(** A loop from [begin()] to [end()]. *)
Fixpoint iterate (fuel : nat) (index : nat) (c : Config) : outcome (list (text * text)) :=
  match fuel with
  | 0 => Fail OutOfFuel
  | S fuel =>
      index ← FindNextIndex (length c.(order_) - index) index c;
      if decide (index = length c.(order_)) then Ok [] else
      e ← deref index c;
      es ← iterate fuel (index + 1) c;
      Ok (e :: es)
  end.
Definition entries (c : Config) : outcome (list (text * text)) := iterate (S (length c.(order_))) 0 c.

(** [MakeProtoStringValue(str)] *)
Definition MakeProtoStringValue (s : text) : text := [quote] ++ concat (map (fun c => if decide (c <> quote) then [c] else [backslash; quote]) s) ++ [quote].

(** [ToProtoString()] *)
Definition ToProtoString (c : Config) : outcome text :=
  es ← entries c;
  foldM (fun out e =>
    q ← IsGenuineString e.1 c;
    Ok (out ++ e.1 ++ [blank; ascii_of_nat 58; blank] ++ (if q : bool then MakeProtoStringValue e.2 else e.2) ++ [newline])) es [].

(** ** The options hold what was inserted *)

(** An option: its key, its value and whether the value was quoted. *)
Record option_line := mkOption { o_key : text; o_val : text; o_quoted : bool }.
Definition insert_option (c : Config) (o : option_line) : Config := Insert o.(o_key) o.(o_val) o.(o_quoted) c.
Definition build (m : bool) (os : list option_line) : Config := foldl insert_option (new_Config m) os.

(** What the documentation says that the iterator gives: all options, or the last
    one of each key. *)
Definition given_again (o : option_line) (os : list option_line) : bool := bool_decide (o.(o_key) ∈ map o_key os).
Fixpoint effective (m : bool) (os : list option_line) : list option_line :=
  match os with
  | [] => []
  | o :: os => if negb m && given_again o os then effective m os else o :: effective m os
  end.
Definition last_of (key : text) (os : list option_line) : option option_line := last (filter (fun o => o.(o_key) = key) os).

(** The positions at which a key is set, from [j] on. *)
Fixpoint positions (j : nat) (key : text) (os : list option_line) : list nat :=
  match os with
  | [] => []
  | o :: os => (if decide (o.(o_key) = key) then [j] else []) ++ positions (j + 1) key os
  end.
Abbreviation with_key key os := (filter (fun o => o.(o_key) = key) os).

Lemma positions_app j key l1 l2 : positions j key (l1 ++ l2) = positions j key l1 ++ positions (j + length l1) key l2.
Proof.
  revert j. induction l1 as [|o l1 IH]; intros j; simpl; [by rewrite Nat.add_0_r|]. rewrite IH, <- app_assoc. do 3 f_equal. lia.
Qed.

Lemma positions_length j key os : length (positions j key os) = length (with_key key os).
Proof.
  revert j. induction os as [|o os IH]; intros j; [done|]. cbn [positions]. rewrite length_app, filter_cons, IH. by case_decide.
Qed.

Lemma positions_above j key os : Forall (fun i => j <= i) (positions j key os).
Proof.
  revert j. induction os as [|o os IH]; intros j; [constructor|]. cbn [positions]. apply Forall_app. split; [case_decide; by repeat constructor|].
  eapply Forall_impl; [apply IH|]. simpl. lia.
Qed.

Lemma positions_none j key os : key ∉ map o_key os <-> positions j key os = [].
Proof.
  revert j. induction os as [|o os IH]; intros j; [split; [done|intros _; apply not_elem_of_nil]|]. cbn [positions]. simpl. rewrite not_elem_of_cons, (IH (j + 1)).
  case_decide; simpl; naive_solver.
Qed.

Lemma with_key_none key os : key ∉ map o_key os <-> with_key key os = [].
Proof. rewrite (positions_none 0), <- !length_zero_iff_nil, positions_length. done. Qed.

Section Options.
Context (m : bool).

(** What a key keeps of a list that grows with it. *)
Definition kept {A} (l : list A) : list A := if m then l else option_list (last l).
Lemma kept_snoc {A} (l : list A) x : kept (l ++ [x]) = (if m then l else []) ++ [x].
Proof. unfold kept. destruct m; [done|]. by rewrite last_snoc. Qed.

(** The options after [os] were inserted. *)
Record config_ok (os : list option_line) (c : Config) : Prop := {
  co_multi : c.(multi_value_) = m;
  co_length : length c.(order_) = length os;
  co_order : forall i o, os !! i = Some o -> c.(order_) !! i = Some (o.(o_key), if m then length (with_key o.(o_key) (take i os)) else 0);
  co_map : forall key, c.(config_map_) !! key = match last_of key os with
             | None => None
             | Some o => Some (mkValue (kept (map o_val (with_key key os))) (kept (positions 0 key os)) o.(o_quoted))
             end
}.

Lemma config_ok_insert os c o : config_ok os c -> config_ok (os ++ [o]) (insert_option c o).
Proof.
  intros [H1 H2 H3 H4]. unfold insert_option, Insert. rewrite H1.
  set (old := if m then _ else _).
  assert (old.(val) = (if m then map o_val (with_key (o_key o) os) else []) /\ old.(insert_index) = (if m then positions 0 (o_key o) os else [])) as [Ev Ei].
  { unfold old. rewrite H4. unfold last_of, kept. destruct m; [|done]. destruct (last (with_key (o_key o) os)) as [o'|] eqn:El; [done|].
    apply last_None in El. rewrite El. split; [done|]. symmetry. apply length_zero_iff_nil. by rewrite positions_length, El. }
  split; cbn [multi_value_ order_ config_map_]; try done.
  - rewrite !length_app, H2. done.
  - intros i o' Hi. destruct (decide (i < length os)) as [Hlt|Hge].
    + rewrite lookup_app_l in Hi by done. rewrite lookup_app_l by lia. rewrite (H3 i o' Hi). rewrite take_app_le by lia. done.
    + assert (i = length os) as -> by (apply lookup_lt_Some in Hi; rewrite length_app in Hi; simpl in Hi; lia).
      rewrite lookup_app_r, Nat.sub_diag in Hi by lia. injection Hi as <-. rewrite lookup_app_r by lia. rewrite H2, Nat.sub_diag, take_app_length, Ev. simpl.
      destruct m; [by rewrite length_map|done].
  - intros key. unfold last_of. rewrite filter_app. rewrite filter_cons, filter_nil. case_decide as Hk.
    + subst key. rewrite last_snoc, lookup_insert_eq, Ev, Ei, H2, map_app, positions_app. cbn [map positions]. rewrite decide_True by done. cbn [app].
      by rewrite !kept_snoc.
    + rewrite app_nil_r, lookup_insert_ne by congruence. rewrite H4. unfold last_of. rewrite positions_app. cbn [positions]. rewrite decide_False by done. by rewrite !app_nil_r.
Qed.

Lemma build_ok os : config_ok os (build m os).
Proof.
  induction os as [|o os IH] using rev_ind; [by split|]. unfold build. rewrite foldl_app. simpl. by apply config_ok_insert.
Qed.

(** The option at a position, and whether it is still in effect. *)
Lemma at_position os c i o : config_ok os c -> os !! i = Some o -> exists vi cv v p,
  c.(order_) !! i = Some (o.(o_key), vi) /\ c.(config_map_) !! o.(o_key) = Some cv /\ cv.(val) !! vi = Some v /\ cv.(insert_index) !! vi = Some p /\
  if negb m && given_again o (drop (S i) os) then p <> i else p = i /\ v = o.(o_val).
Proof.
  intros [H1 H2 H3 H4] Hi. rewrite (H3 i o Hi), (H4 (o_key o)).
  assert (os = take i os ++ o :: drop (S i) os) as Eos by (symmetry; by apply take_drop_middle).
  assert (length (take i os) = i) as Hl by (apply length_take_le; apply lookup_lt_Some in Hi; lia).
  assert (with_key (o_key o) os = with_key (o_key o) (take i os) ++ o :: with_key (o_key o) (drop (S i) os)) as Ew.
  { rewrite Eos at 1. by rewrite filter_app, filter_cons_True. }
  assert (positions 0 (o_key o) os = positions 0 (o_key o) (take i os) ++ i :: positions (i + 1) (o_key o) (drop (S i) os)) as Ep.
  { rewrite Eos at 1. rewrite positions_app, Hl. cbn [positions]. by rewrite decide_True. }
  unfold last_of. destruct (last (with_key (o_key o) os)) as [ol|] eqn:El; [|apply last_None in El; rewrite Ew in El; by destruct (with_key (o_key o) (take i os))].
  unfold kept. destruct m; cbn [negb andb].
  - eexists _, _, (o_val o), i. split; [done|]. split; [done|]. cbn [val insert_index]. split_and!; try done.
    + rewrite Ew, map_app. apply list_lookup_middle. by rewrite length_map.
    + rewrite Ep. apply list_lookup_middle. by rewrite positions_length.
  - destruct (last (positions 0 (o_key o) os)) as [p|] eqn:El'; [|apply last_None in El'; rewrite Ep in El'; by destruct (positions 0 (o_key o) (take i os))].
    unfold given_again. eexists 0, _, (o_val ol), p. split; [done|]. split; [done|]. cbn [val insert_index].
    assert (last (map o_val (with_key (o_key o) os)) = Some (o_val ol)) as -> by (change (map o_val) with (fmap (M := list) o_val); by rewrite fmap_last, El).
    split; [done|]. split; [done|]. rewrite Ep, last_app_cons in El'. destruct (positions (i + 1) (o_key o) (drop (S i) os)) as [|q ps] eqn:Er.
    + rewrite bool_decide_eq_false_2 by (by apply (positions_none (i + 1))). split; [by injection El'|].
      assert (with_key (o_key o) (drop (S i) os) = []) as Ed by (apply with_key_none, (positions_none (i + 1)); done). rewrite Ew, Ed, last_snoc in El. by injection El as <-.
    + rewrite bool_decide_eq_true_2.
      2: { apply dec_stable. intros Hn%(positions_none (i + 1)). congruence. }
      intros ->. rewrite last_cons_cons in El'. apply last_Some_elem_of in El'. pose proof (positions_above (i + 1) (o_key o) (drop (S i) os)) as Hab. rewrite Er, Forall_forall in Hab.
      specialize (Hab i El'). lia.
Qed.

(** The iterator stops at the next option that is in effect. *)
Lemma FindNextIndex_ok os c n i : config_ok os c -> i + n = length os -> exists j, FindNextIndex n i c = Ok j /\ i <= j <= length os /\
  effective m (drop i os) = effective m (drop j os) /\ (j < length os -> exists o, os !! j = Some o /\ negb m && given_again o (drop (S j) os) = false).
Proof.
  intros Hc. revert i. induction n as [|n IH]; intros i Hn; cbn [FindNextIndex]; [exists i; split_and!; try done; lia|].
  rewrite (co_length os c Hc), decide_True by lia. destruct (lookup_lt_is_Some_2 os i) as [o Ho]; [lia|].
  destruct (at_position os c i o Hc Ho) as (vi & cv & v & p & E1 & E2 & E3 & E4 & Hp). unfold read_at. rewrite E1. cbn [mbind outcome_bind]. rewrite E2, E4. cbn [mbind outcome_bind].
  destruct (negb m && given_again o (drop (S i) os)) eqn:Eg.
  - rewrite decide_False by done. destruct (IH (i + 1)) as (j & -> & Hj & He & Hlt); [lia|]. exists j. split; [done|]. split; [lia|]. split; [|done]. rewrite <- He.
    rewrite (drop_S _ _ _ Ho). cbn [effective]. by rewrite Eg, Nat.add_1_r.
  - destruct Hp as [-> _]. rewrite decide_True by done. exists i. split; [done|]. split; [lia|]. split; [done|]. eauto.
Qed.

Lemma iterate_ok os c fuel i : config_ok os c -> i <= length os -> length os - i < fuel ->
  iterate fuel i c = Ok (map (fun o => (o.(o_key), o.(o_val))) (effective m (drop i os))).
Proof.
  intros Hc. revert i. induction fuel as [|fuel IH]; intros i Hi Hf; [lia|]. cbn [iterate]. rewrite (co_length os c Hc).
  destruct (FindNextIndex_ok os c (length os - i) i Hc) as (j & -> & Hj & -> & Hlt); [lia|]. cbn [mbind outcome_bind]. case_decide as Hend.
  - subst j. by rewrite drop_all.
  - destruct Hlt as (o & Ho & Hg); [lia|]. destruct (at_position os c j o Hc Ho) as (vi & cv & v & p & E1 & E2 & E3 & E4 & Hp). rewrite Hg in Hp. destruct Hp as [_ ->].
    unfold deref, read_at. rewrite E1. cbn [mbind outcome_bind]. rewrite E2, E3. cbn [mbind outcome_bind]. rewrite IH by lia. cbn [mbind outcome_bind].
    rewrite (drop_S _ _ _ Ho). cbn [effective]. by rewrite Hg, Nat.add_1_r.
Qed.

Lemma entries_build os : entries (build m os) = Ok (map (fun o => (o.(o_key), o.(o_val))) (effective m os)).
Proof. unfold entries. pose proof (build_ok os) as Hc. rewrite (co_length _ _ Hc). apply (iterate_ok os); [done|lia|lia]. Qed.

Lemma GetParam_build os key : GetParam key (build m os) = match last_of key os with Some o => Ok o.(o_val) | None => Fail CheckFailed end.
Proof.
  unfold GetParam. rewrite (co_map _ _ (build_ok os)). unfold last_of. destruct (last (with_key key os)) as [o|] eqn:El; [|done]. cbn [val].
  apply last_Some in El as (l & El). rewrite El, map_app. cbn [map]. rewrite kept_snoc. unfold read_at. rewrite length_app. cbn [length]. rewrite Nat.add_sub. by rewrite list_lookup_middle.
Qed.

Lemma IsGenuineString_build os key : IsGenuineString key (build m os) = match last_of key os with Some o => Ok o.(o_quoted) | None => Fail CheckFailed end.
Proof. unfold IsGenuineString. rewrite (co_map _ _ (build_ok os)). by destruct (last_of key os). Qed.
End Options.

(** ** Reading what was printed *)

(** The line of an option. *)
Definition print_option (o : option_line) : text :=
  o.(o_key) ++ [blank; equals; blank] ++ (if o.(o_quoted) then MakeProtoStringValue o.(o_val) else o.(o_val)) ++ [newline].

(** The characters of a word, and those of a value in quotation marks. *)
Definition plain (c : ascii) : bool :=
  negb (is_blank c || bool_decide (c = quote) || bool_decide (c = equals) || bool_decide (c = hash) || bool_decide (c = eof)).
Definition quotable (c : ascii) : bool := negb (is_newline c || bool_decide (c = backslash) || bool_decide (c = eof)).
Definition word (w : text) : Prop := w <> [] /\ Forall (fun c => plain c = true) w.
Definition printable (o : option_line) : Prop :=
  word o.(o_key) /\ if o.(o_quoted) then Forall (fun c => quotable c = true) o.(o_val) else word o.(o_val).

Lemma plain_facts c : plain c = true -> is_blank c = false /\ c <> quote /\ c <> equals /\ c <> hash /\ c <> eof.
Proof.
  unfold plain. rewrite negb_true_iff, !orb_false_iff, !bool_decide_eq_false. tauto.
Qed.

Lemma quotable_facts c : quotable c = true -> is_newline c = false /\ c <> backslash /\ c <> eof.
Proof. unfold quotable. rewrite negb_true_iff, !orb_false_iff, !bool_decide_eq_false. tauto. Qed.

Lemma blank_not_eof c : is_blank c = true -> c <> eof.
Proof. intros H ->. by vm_compute in H. Qed.

Lemma PeekChar_cons c s : c <> eof -> PeekChar (c :: s) = Some c.
Proof. intros H. simpl. by rewrite decide_False. Qed.

(** The end of a word. *)
Lemma scan_word fuel w tok c s : Forall (fun c => plain c = true) w -> is_blank c = true -> length w + 2 <= fuel ->
  token_loop fuel kToken tok (w ++ c :: s) = Ok (Some (mkToken (tok.(buf) ++ w) tok.(is_string), c :: s)).
Proof.
  intros Hw Hc. revert fuel tok. induction Hw as [|x w Hx Hw IH]; intros fuel tok Hf.
  - destruct fuel as [|[|fuel]]; [simpl in Hf; lia..|]. cbn [app token_loop]. rewrite PeekChar_cons by (by apply blank_not_eof). rewrite app_nil_r.
    rewrite (decide_False (P := kToken = kFinish)), Hc, !decide_True by done. by destruct tok.
  - destruct fuel as [|fuel]; [simpl in Hf; lia|]. destruct (plain_facts x Hx) as (H1 & H2 & H3 & H4 & H5). cbn [app token_loop]. rewrite PeekChar_cons by done.
    rewrite (decide_False (P := kToken = kFinish)) by done. rewrite H1, !decide_False by done. cbn [tail]. rewrite IH by (simpl in Hf; lia). cbn [buf is_string]. by rewrite <- app_assoc.
Qed.

(** Blanks before a token. *)
Lemma skip_blanks fuel g tok s : Forall (fun c => is_blank c = true) g -> length g <= fuel ->
  token_loop fuel kNone tok (g ++ s) = token_loop (fuel - length g) kNone tok s.
Proof.
  intros Hg. revert fuel. induction Hg as [|c g Hc Hg IH]; intros fuel Hf; [by rewrite Nat.sub_0_r|]. destruct fuel as [|fuel]; [simpl in Hf; lia|].
  cbn [app token_loop]. rewrite PeekChar_cons by (by apply blank_not_eof). rewrite (decide_False (P := kNone = kFinish)) by done.
  rewrite Hc, decide_False by done. cbn [tail]. simpl in Hf. apply IH. lia.
Qed.

Lemma next_word g w c s : Forall (fun c => is_blank c = true) g -> word w -> is_blank c = true ->
  GetNextToken (g ++ w ++ c :: s) = Ok (Some (mkToken w false, c :: s)).
Proof.
  intros Hg [Hne Hw] Hc. unfold GetNextToken. rewrite !length_app. cbn [length]. rewrite skip_blanks by (done || lia).
  destruct w as [|x w]; [done|]. apply Forall_cons in Hw as [Hx Hw]. cbn [length]. match goal with |- token_loop ?f _ _ _ = _ => destruct f as [|fuel] eqn:Ef; [lia|] end.
  destruct (plain_facts x Hx) as (H1 & H2 & H3 & H4 & H5). cbn [app token_loop]. rewrite PeekChar_cons by done. rewrite (decide_False (P := kNone = kFinish)) by done.
  rewrite H1, !decide_False by done. cbn [tail]. rewrite scan_word by (done || lia). done.
Qed.

Lemma next_equals s : GetNextToken (blank :: equals :: s) = Ok (Some (mkToken [equals] false, s)).
Proof. unfold GetNextToken. cbn [length Nat.add token_loop PeekChar]. simpl. destruct s as [|c s]; [done|]. simpl. by destruct (decide (c = eof)). Qed.

Lemma ParseString_quoted v tok s : Forall (fun c => quotable c = true) v ->
  ParseString tok (concat (map (fun c => if decide (c <> quote) then [c] else [backslash; quote]) v) ++ quote :: s) = Some (tok ++ v, s).
Proof.
  intros Hv. revert tok. induction Hv as [|c v Hc Hv IH]; intros tok; [by rewrite app_nil_r|]. destruct (quotable_facts c Hc) as (H1 & H2 & H3). cbn [map concat]. case_decide as Hq.
  - cbn [app ParseString]. rewrite !decide_False by done. rewrite H1, bool_decide_eq_false_2 by done. cbn [orb]. rewrite IH, <- app_assoc. done.
  - assert (c = quote) as -> by (destruct (decide (c = quote)); tauto). cbn [app ParseString]. rewrite (decide_False (P := backslash = quote)) by done. rewrite !decide_True by done.
    rewrite IH, <- app_assoc. done.
Qed.

Lemma next_quoted v s : Forall (fun c => quotable c = true) v -> GetNextToken (blank :: MakeProtoStringValue v ++ newline :: s) = Ok (Some (mkToken v true, newline :: s)).
Proof.
  intros Hv. unfold GetNextToken, MakeProtoStringValue. cbn [length Nat.add app token_loop]. rewrite PeekChar_cons by done. rewrite (decide_False (P := kNone = kFinish)) by done.
  change (is_blank blank) with true. cbn iota. rewrite (decide_False (P := kNone = kToken)) by done. cbn [tail]. rewrite <- app_assoc. cbn [app].
  rewrite Nat.add_succ_r. rewrite Nat.add_succ_r. cbn [token_loop]. rewrite PeekChar_cons by done. rewrite (decide_False (P := kNone = kFinish)) by done. change (is_blank quote) with false. cbn iota.
  rewrite decide_True by done. cbn [tail buf]. rewrite ParseString_quoted by done. rewrite length_app. cbn [length]. rewrite Nat.add_succ_r. cbn [Nat.add token_loop].
  rewrite PeekChar_cons by done. by rewrite decide_True.
Qed.

(** ** Any text is read *)

Lemma ParseString_length tok s b s' : ParseString tok s = Some (b, s') -> length s' < length s.
Proof.
  remember (length s) as n eqn:En. revert tok s En. induction (lt_wf n) as [n _ IH]. intros tok s -> E. destruct s as [|c s]; [done|]. cbn [ParseString] in E. cbn [length] in *.
  case_decide; [by injection E as <- <-; lia|]. case_decide.
  - destruct s as [|d s]; [done|]. case_decide; [|done]. apply (IH (length s)) in E; [simpl; lia|simpl; lia|done].
  - destruct (_ || _); [done|]. apply (IH (length s)) in E; [lia|lia|done].
Qed.

Lemma ParseComments_length s : length (ParseComments s) <= length s.
Proof. induction s as [|c s IH]; [done|]. simpl. destruct (_ || _); simpl in *; lia. Qed.

Lemma ParseComments_hash s : length (ParseComments (hash :: s)) < S (length s).
Proof. change (ParseComments (hash :: s)) with (ParseComments s). pose proof (ParseComments_length s). lia. Qed.

Lemma token_loop_ok fuel state tok s : length s + (if decide (state = kFinish) then 1 else 2) <= fuel ->
  exists r, token_loop fuel state tok s = Ok r /\ forall tok' s', r = Some (tok', s') -> length s' < length s \/ s' = s /\ tok' = tok.
Proof.
  revert state tok s. induction fuel as [|fuel IH]; intros state tok s Hf; [case_decide; lia|]. cbn [token_loop].
  assert (exists r, Ok (Some (tok, s)) = Ok r /\ forall tok' s', r = Some (tok', s') -> length s' < length s \/ s' = s /\ tok' = tok) as Hstop.
  { eexists. split; [done|]. intros tok' s' [= <- <-]. by right. }
  destruct (PeekChar s) as [c|] eqn:Ep; [|done]. destruct s as [|c' s]; [done|]. simpl in Ep. case_decide; [done|]. injection Ep as ->.
  case_decide as Hst; [done|]. cbn [tail]. cbn [length] in Hf.
  assert (forall state' tok' s0, length s0 < S (length s) -> exists r, token_loop fuel state' tok' s0 = Ok r /\
    forall tok'' s', r = Some (tok'', s') -> length s' < length (c :: s) \/ s' = c :: s /\ tok'' = tok) as Hgo.
  { intros state' tok' s0 Hl. destruct (IH state' tok' s0) as (r & E & Hr); [case_decide; lia|]. exists r. split; [done|]. intros tok'' s' E'.
    left. cbn [length]. destruct (Hr _ _ E') as [|[-> _]]; lia. }
  assert (exists r, token_loop fuel kFinish tok (c :: s) = Ok r /\ forall tok' s', r = Some (tok', s') -> length s' < length (c :: s) \/ s' = c :: s /\ tok' = tok) as Hfin.
  { apply IH. rewrite decide_True by done. cbn [length]. lia. }
  destruct (is_blank c); [case_decide; [done|apply Hgo; lia]|]. case_decide.
  { destruct (ParseString (buf tok) s) as [[b s1]|] eqn:Es; [|by eexists]. apply ParseString_length in Es. apply Hgo. lia. }
  case_decide; [case_decide; [apply Hgo; lia|done]|]. case_decide; [subst c; apply Hgo, ParseComments_hash|apply Hgo; lia].
Qed.

Lemma GetNextToken_ok s : exists r, GetNextToken s = Ok r /\ forall tok s', r = Some (tok, s') -> length s' <= length s /\ (tok.(buf) <> [] -> length s' < length s).
Proof.
  destruct (token_loop_ok (length s + 2) kNone (mkToken [] false) s) as (r & E & Hr); [by rewrite decide_False|]. exists r. split; [done|]. intros tok s' E'.
  destruct (Hr tok s' E') as [Hl|[-> ->]]; [lia|]. done.
Qed.

Lemma load_loop_total fuel s m os : length s < fuel -> exists os', load_loop fuel s (build m os) = Ok (build m os').
Proof.
  revert s os. induction fuel as [|fuel IH]; intros s os Hf; [lia|]. cbn [load_loop].
  destruct (GetNextToken_ok s) as ([[key s1]|] & -> & H1); cbn [mbind outcome_bind]; [|by exists os]. destruct (H1 key s1 eq_refl) as [_ Hk].
  case_decide as Hl; [by exists os|]. assert (length s1 < length s) by (apply Hk; intros E; by rewrite E in Hl).
  destruct (GetNextToken_ok s1) as ([[eqop s2]|] & -> & H2); cbn [mbind outcome_bind]; [|by exists os]. destruct (H2 eqop s2 eq_refl) as [H2' _].
  destruct (GetNextToken_ok s2) as ([[value s3]|] & -> & H3); cbn [mbind outcome_bind]; [|by exists os]. destruct (H3 value s3 eq_refl) as [H3' _].
  replace (Insert (buf key) (buf value) (is_string value) (build m os)) with (build m (os ++ [mkOption (buf key) (buf value) (is_string value)]))
    by (unfold build; by rewrite foldl_app). apply IH. lia.
Qed.

Lemma print_length os : length os <= length (concat (map print_option os)).
Proof.
  induction os as [|o os IH]; [done|]. cbn [map concat length]. rewrite length_app.
  assert (0 < length (print_option o)) by (unfold print_option; rewrite !length_app; simpl; lia). lia.
Qed.

Lemma load_loop_printed fuel g os c : Forall printable os -> g = [] \/ g = [newline] -> length os < fuel ->
  load_loop fuel (g ++ concat (map print_option os)) c = Ok (foldl insert_option c os).
Proof.
  intros Hos. revert fuel g c. induction Hos as [|o os [Hk Hv] Hos IH]; intros fuel g c Hg Hf; (destruct fuel as [|fuel]; [lia|]); cbn [load_loop].
  - destruct Hg as [->| ->]; done.
  - assert (Forall (fun c => is_blank c = true) g) as Hb by (destruct Hg as [->| ->]; by repeat constructor).
    cbn [map concat]. unfold print_option at 1. rewrite <- !app_assoc. cbn [app]. rewrite next_word by done. cbn [mbind outcome_bind buf].
    rewrite decide_False by (destruct Hk as [Hk _]; by destruct (o_key o)). rewrite next_equals. cbn [mbind outcome_bind].
    assert (GetNextToken (blank :: (if o_quoted o then MakeProtoStringValue (o_val o) else o_val o) ++ newline :: concat (map print_option os)) =
      Ok (Some (mkToken (o_val o) (o_quoted o), newline :: concat (map print_option os)))) as ->.
    { destruct (o_quoted o); [by apply next_quoted|]. apply (next_word [blank]); [by repeat constructor|done|done]. }
    cbn [mbind outcome_bind buf is_string]. rewrite (IH fuel [newline]) by first [by right|simpl in Hf; lia]. done.
Qed.

(** C33: options that were printed one to a line are read back, for every text.
    [LoadFromStream] ends on every text, and what it makes is what inserting some
    options makes; on the lines of options, words or quoted text, it is these
    options.  Then the iterator gives all of them in order, or with one value for a
    key the last one of each key in the order in which they were set; [GetParam]
    gives the last value of a key and fails its [CHECK] when there is none; and the
    text for protocol buffers has a line for each option that the iterator gives,
    quoted when the last value of its key was. *)
Theorem config_roundtrip m :
  (forall s, exists os, LoadFromStream s (new_Config m) = Ok (build m os)) /\
  (forall os, Forall printable os -> LoadFromStream (concat (map print_option os)) (new_Config m) = Ok (build m os)) /\
  forall os,
    entries (build m os) = Ok (map (fun o => (o.(o_key), o.(o_val))) (effective m os)) /\
    (forall key, GetParam key (build m os) = match last_of key os with Some o => Ok o.(o_val) | None => Fail CheckFailed end) /\
    exists quoted, (forall key o, last_of key os = Some o -> quoted key = o.(o_quoted)) /\
      ToProtoString (build m os) = Ok (concat (map (fun o => o.(o_key) ++ [blank; ascii_of_nat 58; blank] ++
        (if quoted o.(o_key) : bool then MakeProtoStringValue o.(o_val) else o.(o_val)) ++ [newline]) (effective m os))).
Proof.
  split; [intros s; apply (load_loop_total _ s m []); lia|]. split.
  { intros os Hos. unfold LoadFromStream. apply (load_loop_printed _ []); [done|by left|]. pose proof (print_length os). lia. }
  intros os. split; [apply entries_build|]. split; [apply GetParam_build|].
  exists (fun key => match last_of key os with Some o => o.(o_quoted) | None => false end). split; [by intros key o ->|].
  unfold ToProtoString. rewrite entries_build. cbn [mbind outcome_bind].
  assert (forall o, o ∈ effective m os -> is_Some (last_of o.(o_key) os)) as Hin.
  { intros o Ho. unfold last_of. apply last_is_Some. intros En%with_key_none. apply En. apply list_elem_of_fmap_2. clear En.
    induction os as [|o' os IH]; [done|]. cbn [effective] in Ho. destruct (_ && _); [by right; apply IH|]. apply elem_of_cons in Ho as [->|Ho]; [by left|right; by apply IH]. }
  set (f := fun out e => _). assert (forall es out, (forall o, o ∈ es -> is_Some (last_of o.(o_key) os)) ->
    foldM f (map (fun o => (o.(o_key), o.(o_val))) es) out = Ok (out ++ concat (map (fun o => o.(o_key) ++ [blank; ascii_of_nat 58; blank] ++
      (if match last_of o.(o_key) os with Some o => o.(o_quoted) | None => false end then MakeProtoStringValue o.(o_val) else o.(o_val)) ++ [newline]) es))) as Hall.
  { induction es as [|o es IH]; intros out He; [by rewrite app_nil_r|]. cbn [map foldM]. destruct (He o) as [o' Eo]; [by left|].
    assert (f out (o_key o, o_val o) = Ok (out ++ o.(o_key) ++ [blank; ascii_of_nat 58; blank] ++
      (if o_quoted o' then MakeProtoStringValue o.(o_val) else o.(o_val)) ++ [newline])) as -> by (unfold f; cbn [fst snd]; by rewrite IsGenuineString_build, Eo).
    cbn [mbind outcome_bind]. rewrite IH by (intros; apply He; by right). cbn [concat]. rewrite Eo. by rewrite <- !app_assoc. }
  rewrite Hall by done. done.
Qed.

(** ** The options of the applications *)
Module ArgParser.

Record ArgParser := mkArgs { file_ : text; args_ : text }.
Definition new_ArgParser : ArgParser := mkArgs [] [].

(** The loop of [ReadFile]; [got] is how many of the bytes that are left a stream
    gives. *)
Fixpoint read_file (fuel : nat) (got : nat -> nat) (rest : text) (acc : text) : outcome text :=
  match fuel with
  | 0 => Fail OutOfFuel
  | S fuel =>
      let r := Nat.min 1000 (got (length rest)) in
      let acc := acc ++ take r rest in
      if decide (length (take r rest) = 0) then Ok acc else read_file fuel got (drop r rest) acc
  end.

(** [ReadFile(filename)] *)
Definition ReadFile (got : nat -> nat) (content : text) (p : ArgParser) : outcome ArgParser :=
  f ← read_file (S (length content)) got content p.(file_);
  _ ← check (bool_decide (length f <> 0));
  Ok (mkArgs f p.(args_)).

(** [ReadArgs(argc, argv)] *)
Definition ReadArgs (argv : list text) (p : ArgParser) : ArgParser :=
  mkArgs p.(file_) (foldl (fun a arg => a ++ arg ++ [blank]) p.(args_) argv).

(** [ReplaceStr(str)] *)
Definition colon : ascii := ascii_of_nat 58.
Definition is_quote (c : ascii) : bool := bool_decide (c = quote) || bool_decide (c = ascii_of_nat 39).
Fixpoint replace_from (in_quote : bool) (s : text) : text :=
  match s with
  | [] => []
  | c :: s =>
      (if bool_decide (c = equals) && negb in_quote then colon else c) :: replace_from (if is_quote c then negb in_quote else in_quote) s
  end.
Definition ReplaceStr (s : text) : text := replace_from false s.

(** [ParseToProto(proto)], over the two functions of [TextFormat]. *)
Definition ParseToProto {Proto : Type} (ParseFromString MergeFromString : text -> Proto -> option Proto) (p : ArgParser) (proto : Proto) : outcome Proto :=
  let run f s proto := if decide (length s = 0) then Ok proto else match f (ReplaceStr s) proto with Some proto => Ok proto | None => Fail CheckFailed end in
  proto ← run ParseFromString p.(file_) proto;
  run MergeFromString p.(args_) proto.

Lemma read_file_ok fuel got rest acc : (forall n, 0 < n -> 0 < got n <= n) -> length rest < fuel -> read_file fuel got rest acc = Ok (acc ++ rest).
Proof.
  intros Hgot. revert rest acc. induction fuel as [|fuel IH]; intros rest acc Hf; [lia|]. cbn [read_file]. destruct rest as [|c rest].
  { by rewrite take_nil, !app_nil_r. }
  destruct (Hgot (length (c :: rest))) as [H1 H2]; [simpl; lia|]. set (r := Nat.min _ _). assert (0 < r) by lia.
  rewrite length_take, decide_False by (simpl in *; lia). rewrite IH by (rewrite length_drop; simpl in *; lia). by rewrite <- app_assoc, take_drop.
Qed.

(** The whole file is read, behind what was read before. *)
Lemma ReadFile_ok got content p : (forall n, 0 < n -> 0 < got n <= n) -> content <> [] -> ReadFile got content p = Ok (mkArgs (p.(file_) ++ content) p.(args_)).
Proof.
  intros Hgot Hc. unfold ReadFile. rewrite read_file_ok by (done || lia). cbn [mbind outcome_bind]. rewrite bool_decide_eq_true_2; [done|].
  rewrite length_app. destruct content; [done|simpl; lia].
Qed.

(** An [=] becomes a colon when the quotation marks before it are even in number,
    and nothing else changes. *)
Definition quotes (s : text) : nat := length (filter (fun c => is_quote c = true) s).
Lemma replace_lookup q s i : replace_from q s !! i = (fun c => if bool_decide (c = equals) && (Nat.even (quotes (take i s)) && negb q || negb (Nat.even (quotes (take i s))) && q) then colon else c) <$> s !! i.
Proof.
  revert q i. induction s as [|c s IH]; intros q [|i]; try done.
  - simpl. by destruct (bool_decide (c = equals)), q.
  - cbn [replace_from lookup list_lookup take]. change (replace_from (if is_quote c then negb q else q) s !! i = (fun c0 => if bool_decide (c0 = equals) &&
      (Nat.even (quotes (c :: take i s)) && negb q || negb (Nat.even (quotes (c :: take i s))) && q) then colon else c0) <$> s !! i). rewrite IH.
    unfold quotes at 3 4. rewrite filter_cons. destruct (is_quote c) eqn:Eq.
    + rewrite decide_True by done. cbn [length]. change (length (filter _ (take i s))) with (quotes (take i s)). rewrite Nat.even_succ, <- Nat.negb_even. by destruct (Nat.even _), q.
    + rewrite decide_False by done. done.
Qed.
End ArgParser.

(** ** Finding files *)
Module MatchFile.
Section Files.
(** What a directory holds; whether a regular expression, when it is one, is found
    in a path. *)
Context (ListDirectory : text -> list text) (regex : text -> option (text -> bool)).

(** [split(s, delim)] *)
Fixpoint split_from (delim : ascii) (item : text) (s : text) : list text :=
  match s with
  | [] => match item with [] => [] | _ => [item] end
  | c :: s => if decide (c = delim) then item :: split_from delim [] s else split_from delim (item ++ [c]) s
  end.

(** [pattern.find_last_of]: what is before and behind the last separator. *)
Fixpoint split_last (s : text) : option (text * text) :=
  match s with
  | [] => None
  | c :: s' =>
      match split_last s' with
      | Some (p, f) => Some (c :: p, f)
      | None => if decide (c = ascii_of_nat 47 \/ c = backslash) then Some ([], s') else None
      end
  end.

(** [MatchFile_single(pattern, matched)] *)
Definition MatchFile_single (matched : list text) (pattern : text) : outcome (list text) :=
  let '(path, file) := default ([ascii_of_nat 46; ascii_of_nat 47], pattern) (split_last pattern) in
  match regex ([ascii_of_nat 46; ascii_of_nat 42] ++ file) with
  | None => Fail CheckFailed
  | Some found => Ok (matched ++ filter (fun f => found f = true) (ListDirectory path))
  end.

(** [MatchFile(pattern, matched)] *)
Definition MatchFile (pattern : text) (matched : list text) : outcome (list text) :=
  foldM MatchFile_single (split_from (ascii_of_nat 59) [] pattern) matched.

(** Splitting the patterns that were joined. *)
Lemma split_joined delim ps : Forall (fun p => p <> [] /\ delim ∉ p) ps -> split_from delim [] (concat (map (fun p => p ++ [delim]) ps)) = ps.
Proof.
  intros Hps. induction Hps as [|p ps [Hne Hp] Hps IH]; [done|]. cbn [map concat]. rewrite <- app_assoc. cbn [app].
  assert (forall item, split_from delim item (p ++ delim :: concat (map (fun p => p ++ [delim]) ps)) = (item ++ p) :: ps) as H; [|apply (H [])].
  clear Hne. induction p as [|c p IHp]; intros item; cbn [app split_from].
  - by rewrite decide_True, IH, app_nil_r by done.
  - apply not_elem_of_cons in Hp as [Hc Hp]. rewrite decide_False by done. rewrite IHp by done. by rewrite <- app_assoc.
Qed.
End Files.
End MatchFile.

(** ** Examples *)
Module ConfigExample.
Definition txt (s : string) : text := String.list_ascii_of_string s.
Definition file : text := txt "a = 1 # a number" ++ [newline] ++ txt "b= '2" ++ [newline] ++ txt "a = " ++ [quote] ++ txt "x y" ++ [quote].
Definition shown (m : bool) : outcome (list (text * text)) := c ← LoadFromStream file (new_Config m); entries c.

Example all_values : shown true = Ok [(txt "a", txt "1"); (txt "b", txt "'2"); (txt "a", txt "x y")].
Proof. vm_compute. reflexivity. Qed.
Example last_values : shown false = Ok [(txt "b", txt "'2"); (txt "a", txt "x y")].
Proof. vm_compute. reflexivity. Qed.

(** With several values for a key, the last one decides whether all are quoted. *)
Example number_quoted : (c ← LoadFromStream file (new_Config true); ToProtoString c) =
  Ok (txt "a : " ++ [quote] ++ txt "1" ++ [quote; newline] ++ txt "b : '2" ++ [newline] ++ txt "a : " ++ [quote] ++ txt "x y" ++ [quote; newline]).
Proof. vm_compute. reflexivity. Qed.

(** A missing [=] takes the next key for the value. *)
Example misread : (c ← LoadFromStream (txt "a 1 b = 2 ") (new_Config true); entries c) = Ok [(txt "a", txt "b"); (txt "=", [])].
Proof. vm_compute. reflexivity. Qed.

Example replaced : ArgParser.ReplaceStr (txt "k=1 s='a=b' t=2") = txt "k:1 s:'a=b' t:2".
Proof. vm_compute. reflexivity. Qed.
End ConfigExample.
