(* ===== verification/Workload.v ===== *)
(** * Workloads

    Models src/src/base/workload.h: the message the scheduler sends to a worker,
    with the binary form [Save] writes and [Load] reads, and the command words
    of src/src/solver/data_parallel.h and src/src/solver/iter_solver.h that
    travel beside it. *)
From S2P Require Import Prelude Stream.

(** ** Reading and writing the raw bytes of a variable *)

(** [fo->Write(&x, sizeof(x))] *)
Definition write_pod {A T} `{Stream T} (P : Pod A) (x : A) (fo : T) : outcome T :=
  Write (pod_bytes x) fo.

(** [fi->Read(&x, sizeof(x))] with the count ignored: after a short read [x]
    holds indeterminate bytes. *)
Definition read_pod {A T} `{Stream T} (P : Pod A) (fi : T) : outcome (A * T) :=
  '(b, fi) ← Read (S := T) (pod_size (A := A)) fi;
  if decide (length b = pod_size (A := A)) then Ok (pod_of b, fi) else Fail OutOfRange.

Definition pod_byte : Pod byte := {|
  pod_size := 1;
  pod_bytes b := [b];
  pod_of b := hd Byte.x00 b;
  pod_valid _ := True
|}.

#[export] Instance pod_byte_laws : @PodLaws byte pod_byte.
Proof. split; [done|]. intros a _. done. Qed.

(** [fo->Write(s)] and [fi->Read(&s)] on a [std::string]. *)
Definition write_string {T} `{Stream T} (s : string) (fo : T) : outcome T :=
  hWrite (Handler := PODVectorHandler (H := pod_byte)) (String.list_byte_of_string s) fo.

Definition read_string {T} `{Stream T} (fi : T) : outcome (string * T) :=
  '(o, fi) ← hRead (Handler := PODVectorHandler (H := pod_byte)) (T := T) fi;
  match o with
  | Some b => Ok (String.string_of_list_byte b, fi)
  | None => Fail OutOfRange
  end.

Module Workload.

(** [enum Type] *)
Inductive Type_ := TRAIN | VAL | PRED.

#[export] Instance Type_eq_dec : EqDecision Type_.
Proof. solve_decision. Defined.

Definition Type_to_int (t : Type_) : Z :=
  match t with TRAIN => 0 | VAL => 1 | PRED => 2 end.

(** A word that is none of the three is not a value of the enumeration. *)
Definition Type_of_int (z : Z) : outcome Type_ :=
  if decide (z = 0)%Z then Ok TRAIN else
  if decide (z = 1)%Z then Ok VAL else
  if decide (z = 2)%Z then Ok PRED else Fail OutOfRange.

(** [struct File], with its default part [0] of [1]. *)
Record File := mkFile { filename : string; format : string; n : Z; k : Z }.

Definition File_default : File := mkFile "" "" 1 0.

Record t := mk { type : Type_; data_pass : Z; file : list File }.

(** [Empty()] *)
Definition Empty (wl : t) : bool := bool_decide (length wl.(file) = 0).

Definition Save_file {T} `{Stream T} (fo : T) (f : File) : outcome T :=
  fo ← write_string f.(filename) fo;
  fo ← write_string f.(format) fo;
  fo ← write_pod (pod_int 4) f.(n) fo;
  write_pod (pod_int 4) f.(k) fo.

(** [Save(Stream *fo)] *)
Definition Save {T} `{Stream T} (wl : t) (fo : T) : outcome T :=
  fo ← write_pod (pod_int 4) (Type_to_int wl.(type)) fo;
  fo ← write_pod (pod_int 4) wl.(data_pass) fo;
  fo ← write_pod (pod_uint 8) (Z.of_nat (length wl.(file))) fo;
  foldM Save_file wl.(file) fo.

Definition Load_file {T} `{Stream T} (fi : T) : outcome (File * T) :=
  '(fname, fi) ← read_string (T := T) fi;
  '(fmt, fi) ← read_string (T := T) fi;
  '(n, fi) ← read_pod (T := T) (pod_int 4) fi;
  '(k, fi) ← read_pod (T := T) (pod_int 4) fi;
  Ok (mkFile fname fmt n k, fi).

Fixpoint Load_files {T} `{Stream T} (num : nat) (files : list File) (fi : T)
  : outcome (list File * T) :=
  match num with
  | 0 => Ok (files, fi)
  | S num => '(f, fi) ← Load_file fi; Load_files num (files ++ [f]) fi
  end.

(** [Load(Stream *fi)]: the files are appended to those [wl] has. *)
Definition Load {T} `{Stream T} (wl : t) (fi : T) : outcome (t * T) :=
  '(ty, fi) ← read_pod (T := T) (pod_int 4) fi;
  ty ← Type_of_int ty;
  '(pass, fi) ← read_pod (T := T) (pod_int 4) fi;
  '(num, fi) ← read_pod (T := T) (pod_uint 8) fi;
  '(files, fi) ← Load_files (Z.to_nat num) wl.(file) fi;
  Ok (mk ty pass files, fi).

(** The values a workload of the program can hold: [int] fields in range and
    sizes that fit [size_t]. *)
Definition int32 (z : Z) : Prop := (- 2 ^ 31 <= z < 2 ^ 31)%Z.

Definition string_ok (s : string) : Prop :=
  (Z.of_nat (length (String.list_byte_of_string s)) < 2 ^ 64)%Z.

Definition File_ok (f : File) : Prop :=
  string_ok f.(filename) /\ string_ok f.(format) /\ int32 f.(n) /\ int32 f.(k).

Definition wf (wl : t) : Prop :=
  int32 wl.(data_pass) /\ Forall File_ok wl.(file) /\
  (Z.of_nat (length wl.(file)) < 2 ^ 64)%Z.

End Workload.

(** ** [DataParCmd] and [IterCmd] *)

Module Cmd.

(** [cmd] is an [int]; [(iter+1) << 16] is its bits 16 to 31. *)
Definition set_process (cmd : Z) : Z := Z.lor cmd 1.
Definition process (cmd : Z) : bool := negb (Z.land cmd 1 =? 0)%Z.
Definition set_iter (iter cmd : Z) : Z := Z.lor cmd (Z.shiftl (iter + 1) 16).
Definition set_load_model (cmd : Z) : Z := Z.lor cmd (Z.shiftl 1 1).
Definition set_save_model (cmd : Z) : Z := Z.lor cmd (Z.shiftl 1 2).
Definition load_model (cmd : Z) : bool := negb (Z.land cmd (Z.shiftl 1 1) =? 0)%Z.
Definition save_model (cmd : Z) : bool := negb (Z.land cmd (Z.shiftl 1 2) =? 0)%Z.
Definition iter (cmd : Z) : Z := (Z.shiftr cmd 16 - 1)%Z.

End Cmd.

(** ** The binary form is read back *)

Section RoundTrip.
Context {T : Type} `{StreamLaws T}.

Lemma write_pod_spec {A} (P : Pod A) (a : A) (s : T) n :
  sok s -> room s (length (pod_bytes a) + n) ->
  exists s', write_pod P a s = Ok s' /\ written s' = written s ++ pod_bytes a /\
             room s' n /\ sok s'.
Proof. intros. by apply Write_append. Qed.

Lemma read_pod_spec {A} (P : Pod A) (a : A) (s : T) r :
  @PodLaws A P -> pod_valid a -> sok s -> unread s = pod_bytes a ++ r ->
  exists s', read_pod P s = Ok (a, s') /\ unread s' = r /\ sok s'.
Proof.
  intros HP Ha Hok Hu. unfold read_pod.
  destruct (Read_prefix _ _ s (pod_size (A := A)) Hok Hu) as (s' & -> & ? & ?);
    [by rewrite pod_bytes_length|].
  simpl. rewrite decide_True by apply pod_bytes_length.
  rewrite pod_of_bytes by done. eauto.
Qed.

Definition string_enc (s : string) : list byte :=
  enc (HandlerLaws := PODVectorHandler_laws (H := pod_byte)) (String.list_byte_of_string s).

Lemma write_string_spec (str : string) (s : T) n :
  sok s -> room s (length (string_enc str) + n) ->
  exists s', write_string str s = Ok s' /\ written s' = written s ++ string_enc str /\
             room s' n /\ sok s'.
Proof.
  intros. by apply (hWrite_enc (HandlerLaws := PODVectorHandler_laws (H := pod_byte))).
Qed.

Lemma read_string_spec (str : string) (s : T) r :
  Workload.string_ok str -> sok s -> unread s = string_enc str ++ r ->
  exists s', read_string s = Ok (str, s') /\ unread s' = r /\ sok s'.
Proof.
  intros Hs Hok Hu. unfold read_string.
  destruct (hRead_enc (HandlerLaws := PODVectorHandler_laws (H := pod_byte))
              (String.list_byte_of_string str) s r) as (s' & -> & ? & ?); [|done..|].
  { simpl. split; [|split; [done|lia]]. by apply Forall_true. }
  simpl. rewrite String.string_of_list_byte_of_string. eauto.
Qed.

Definition File_enc (f : Workload.File) : list byte :=
  string_enc f.(Workload.filename) ++ string_enc f.(Workload.format) ++
  le_split 4 f.(Workload.n) ++ le_split 4 f.(Workload.k).

Definition Workload_enc (wl : Workload.t) : list byte :=
  le_split 4 (Workload.Type_to_int wl.(Workload.type)) ++
  le_split 4 wl.(Workload.data_pass) ++
  le_split 8 (Z.of_nat (length wl.(Workload.file))) ++
  concat (map File_enc wl.(Workload.file)).

#[local] Opaque le_split le_combine len_enc string_enc.

(** Chain two writes: the encodings are concatenated. *)
Ltac write_next tac :=
  let s := fresh "s" in
  let HW := fresh "HW" in let Hw := fresh "Hw" in
  let Hr := fresh "Hr" in let Hok := fresh "Hok" in
  edestruct tac as (s & HW & Hw & Hr & Hok);
  [eassumption|rewrite ?length_app, <- ?Nat.add_assoc in *; eassumption|];
  rewrite HW; simpl; clear HW.

Lemma Save_file_spec f (s : T) n :
  sok s -> room s (length (File_enc f) + n) ->
  exists s', Workload.Save_file s f = Ok s' /\ written s' = written s ++ File_enc f /\
             room s' n /\ sok s'.
Proof.
  unfold File_enc, Workload.Save_file. intros Hok Hr.
  rewrite !length_app, <- !Nat.add_assoc in Hr.
  write_next write_string_spec. write_next write_string_spec.
  write_next (write_pod_spec (pod_int 4)). write_next (write_pod_spec (pod_int 4)).
  eexists. split; [done|]. split; [|done]. simpl in *.
  by rewrite Hw2, Hw1, Hw0, Hw, <- !app_assoc.
Qed.

Lemma Save_files_spec fs (s : T) n :
  sok s -> room s (length (concat (map File_enc fs)) + n) ->
  exists s', foldM Workload.Save_file fs s = Ok s' /\
             written s' = written s ++ concat (map File_enc fs) /\ room s' n /\ sok s'.
Proof.
  revert s. induction fs as [|f fs IH]; intros s Hok Hr; simpl in *.
  { exists s. by rewrite app_nil_r. }
  rewrite length_app, <- Nat.add_assoc in Hr. write_next Save_file_spec.
  destruct (IH s0) as (s' & HW & Hw' & ? & ?); [done..|].
  exists s'. by rewrite HW, Hw', Hw, app_assoc.
Qed.

Lemma Save_spec wl (s : T) n :
  sok s -> room s (length (Workload_enc wl) + n) ->
  exists s', Workload.Save wl s = Ok s' /\ written s' = written s ++ Workload_enc wl /\
             room s' n /\ sok s'.
Proof.
  unfold Workload_enc, Workload.Save. intros Hok Hr.
  rewrite !length_app, <- !Nat.add_assoc in Hr.
  write_next (write_pod_spec (pod_int 4)). write_next (write_pod_spec (pod_int 4)).
  write_next (write_pod_spec (pod_uint 8)).
  destruct (Save_files_spec (Workload.file wl) s2 n) as (s' & HW & Hw' & ? & ?); [done..|].
  exists s'. rewrite HW, Hw'. simpl in *. by rewrite Hw1, Hw0, Hw, <- !app_assoc.
Qed.

Lemma Load_file_spec f (s : T) r :
  Workload.File_ok f -> sok s -> unread s = File_enc f ++ r ->
  exists s', Workload.Load_file s = Ok (f, s') /\ unread s' = r /\ sok s'.
Proof.
  intros (H1 & H2 & H3 & H4) Hok Hu. unfold File_enc in Hu. rewrite <- !app_assoc in Hu.
  unfold Workload.Load_file.
  destruct (read_string_spec _ s _ H1 Hok Hu) as (s1 & -> & Hu1 & Hok1). simpl.
  destruct (read_string_spec _ s1 _ H2 Hok1 Hu1) as (s2 & -> & Hu2 & Hok2). simpl.
  destruct (read_pod_spec (pod_int 4) f.(Workload.n) s2 _ _ H3 Hok2 Hu2)
    as (s3 & -> & Hu3 & Hok3). simpl.
  destruct (read_pod_spec (pod_int 4) f.(Workload.k) s3 _ _ H4 Hok3 Hu3)
    as (s4 & -> & Hu4 & Hok4). simpl.
  exists s4. by destruct f.
Qed.

Lemma Load_files_spec fs fs0 (s : T) r :
  Forall Workload.File_ok fs -> sok s -> unread s = concat (map File_enc fs) ++ r ->
  exists s', Workload.Load_files (length fs) fs0 s = Ok (fs0 ++ fs, s') /\
             unread s' = r /\ sok s'.
Proof.
  intros Hfs. revert fs0 s. induction Hfs as [|f fs Hf Hfs IH]; intros fs0 s Hok Hu;
    simpl in *.
  { exists s. by rewrite app_nil_r. }
  rewrite <- app_assoc in Hu.
  destruct (Load_file_spec f s _ Hf Hok Hu) as (s1 & -> & Hu1 & Hok1). simpl.
  destruct (IH (fs0 ++ [f]) s1 Hok1 Hu1) as (s2 & -> & ? & ?).
  exists s2. by rewrite <- app_assoc.
Qed.

Lemma Load_spec wl wl0 (s : T) r :
  Workload.wf wl -> sok s -> unread s = Workload_enc wl ++ r ->
  exists s', Workload.Load wl0 s =
               Ok (Workload.mk wl.(Workload.type) wl.(Workload.data_pass)
                     (wl0.(Workload.file) ++ wl.(Workload.file)), s') /\
             unread s' = r /\ sok s'.
Proof.
  intros (Hp & Hfs & Hn) Hok Hu. unfold Workload_enc in Hu. rewrite <- !app_assoc in Hu.
  unfold Workload.Load.
  assert (pod_valid (Pod := pod_int 4) (Workload.Type_to_int wl.(Workload.type))) as Ht
    by by destruct (Workload.type wl).
  destruct (read_pod_spec (pod_int 4) _ s _ _ Ht Hok Hu) as (s1 & -> & Hu1 & Hok1). simpl.
  assert (Workload.Type_of_int (Workload.Type_to_int (Workload.type wl)) =
          Ok (Workload.type wl)) as -> by by destruct (Workload.type wl). simpl.
  destruct (read_pod_spec (pod_int 4) wl.(Workload.data_pass) s1 _ _ Hp Hok1 Hu1)
    as (s2 & -> & Hu2 & Hok2). simpl.
  assert (pod_valid (Pod := pod_uint 8) (Z.of_nat (length wl.(Workload.file)))) as Hl
    by (simpl; lia).
  destruct (read_pod_spec (pod_uint 8) _ s2 _ _ Hl Hok2 Hu2) as (s3 & -> & Hu3 & Hok3).
  simpl. rewrite Nat2Z.id.
  destruct (Load_files_spec wl.(Workload.file) wl0.(Workload.file) s3 _ Hfs Hok3 Hu3)
    as (s4 & -> & Hu4 & Hok4). simpl. eauto.
Qed.

End RoundTrip.

(** A workload the scheduler serializes into a [StringStream] is the one a
    worker loads from the received string, whatever the sender's files are, and
    the message is consumed to its last byte. *)
Theorem Workload_roundtrip (wl : Workload.t) (ty : Workload.Type_) (pass : Z) :
  Workload.wf wl ->
  exists ss fi,
    Workload.Save wl StringStream.empty = Ok ss /\
    Workload.Load (Workload.mk ty pass []) (StringStream.of_string (StringStream.str ss)) =
      Ok (wl, fi) /\
    unread fi = [].
Proof.
  intros Hwf.
  destruct (Save_spec wl StringStream.empty 0) as (ss & HS & Hw & _); [simpl; lia|done|].
  destruct (Load_spec wl (Workload.mk ty pass [])
              (StringStream.of_string (StringStream.str ss)) []) as (fi & HL & Hu & _);
    [done|simpl; lia|simpl in *; by rewrite drop_0, app_nil_r|].
  exists ss, fi. rewrite HS, HL. by destruct wl.
Qed.

Definition Workload_example : Workload.t :=
  Workload.mk Workload.VAL 3 [Workload.mkFile "part-00" "libsvm" 10 4].

Lemma Workload_roundtrip_witness :
  exists ss fi,
    Workload.Save Workload_example StringStream.empty = Ok ss /\
    Workload.Load (Workload.mk Workload.TRAIN 0 []) (StringStream.of_string (StringStream.str ss))
      = Ok (Workload_example, fi) /\ unread fi = [].
Proof.
  apply (Workload_roundtrip Workload_example Workload.TRAIN 0).
  split; [done|]. split; [|done]. repeat constructor; done.
Defined.

(** ** Command words *)

Lemma iter_set_iter cmd i :
  (0 <= cmd < 2 ^ 16)%Z -> Cmd.iter (Cmd.set_iter i cmd) = i.
Proof.
  intros Hc. unfold Cmd.iter, Cmd.set_iter.
  rewrite Z.shiftr_lor, Z.shiftr_shiftl_l by lia.
  rewrite (Z.shiftr_div_pow2 cmd 16) by lia. rewrite (Z.div_small cmd) by lia.
  rewrite Z.lor_0_l, Z.sub_diag, Z.shiftl_0_r. lia.
Qed.

Lemma land_set_iter cmd i j :
  (0 <= j < 16)%Z ->
  Z.land (Cmd.set_iter i cmd) (Z.shiftl 1 j) = Z.land cmd (Z.shiftl 1 j).
Proof.
  intros Hj. apply Z.bits_inj'. intros b Hb. unfold Cmd.set_iter.
  rewrite !Z.land_spec, Z.lor_spec, !Z.shiftl_spec by lia.
  destruct (decide (b = j)) as [->|].
  - rewrite (Z.testbit_neg_r (i + 1)) by lia. by rewrite orb_false_r.
  - assert (Z.testbit 1 (b - j) = false) as ->; [|by rewrite !andb_false_r].
    destruct (decide (b < j)%Z); [apply Z.testbit_neg_r; lia|].
    apply Z.bits_above_log2; simpl; lia.
Qed.

(** The command word [LoadModel] and [SaveModel] build carries both the
    operation and the iteration ([-1] is the last model) to the server, which
    decodes exactly them, and it is an [int] for every iteration below
    [2^15 - 1]. *)
Theorem IterCmd_roundtrip (i : Z) (save : bool) :
  (-1 <= i < 2 ^ 15 - 1)%Z ->
  let cmd := Cmd.set_iter i (if save then Cmd.set_save_model 0 else Cmd.set_load_model 0) in
  Workload.int32 cmd /\ Cmd.iter cmd = i /\
  Cmd.save_model cmd = save /\ Cmd.load_model cmd = negb save /\ Cmd.process cmd = false.
Proof.
  intros Hi cmd. subst cmd.
  rewrite iter_set_iter by by destruct save.
  unfold Cmd.save_model, Cmd.load_model, Cmd.process.
  rewrite !land_set_iter, (land_set_iter _ _ 0) by lia.
  split; [|by destruct save].
  assert (0 <= Z.shiftl (i + 1) 16 < 2 ^ 31)%Z.
  { rewrite Z.shiftl_mul_pow2 by lia. lia. }
  unfold Workload.int32, Cmd.set_iter.
  split; [|apply lor_range; [lia| |done]; by destruct save].
  assert (0 <= Z.lor (if save then Cmd.set_save_model 0 else Cmd.set_load_model 0)
                 (Z.shiftl (i + 1) 16))%Z; [|lia].
  apply Z.lor_nonneg. split; [by destruct save|lia].
Qed.

Lemma IterCmd_roundtrip_witness :
  let cmd := Cmd.set_iter 7 (Cmd.set_save_model 0) in
  Workload.int32 cmd /\ Cmd.iter cmd = 7%Z /\
  Cmd.save_model cmd = true /\ Cmd.load_model cmd = negb true /\ Cmd.process cmd = false.
Proof. apply (IterCmd_roundtrip 7 true). lia. Defined.
