(* ===== verification/WorkloadPool.v ===== *)
(** * The workload pool

    Models src/src/base/workload_pool.h: the scheduler's table of file parts,
    which of them are handed to which worker, and the thread that takes parts
    back from stragglers.  Every public operation holds the pool's mutex, so an
    execution is a sequence of the operations below, in any order. *)
From S2P Require Import Prelude Floats Workload.

Module WorkloadPool.

(** [struct Task]: the capable nodes, and per part 0: available, 1: assigned,
    2: done. *)
Record Task := mkTask { node : gset string; track : list Z; done : nat }.

(** The pool reads clocks ([GetTime]) and keeps times as [double]s. *)
Section Pool.
Context {D : Type} `{Float D}.

(** [struct Assigned] *)
Record Assigned := mkAssigned {
  a_filename : string; a_node : string; a_n : Z; a_k : nat; a_start : D }.

Record t := mk {
  task_ : gmap string Task;
  assigned_ : list Assigned;
  inited_ : bool;
  shuffle_ : bool;
  time_ : list D;
  num_finished_ : Z;
  num_file_per_wl_ : nat
}.

Definition set_task m p := mk m p.(assigned_) p.(inited_) p.(shuffle_) p.(time_) p.(num_finished_) p.(num_file_per_wl_).
Definition set_assigned l p := mk p.(task_) l p.(inited_) p.(shuffle_) p.(time_) p.(num_finished_) p.(num_file_per_wl_).
Definition set_inited b p := mk p.(task_) p.(assigned_) b p.(shuffle_) p.(time_) p.(num_finished_) p.(num_file_per_wl_).
Definition set_time l p := mk p.(task_) p.(assigned_) p.(inited_) p.(shuffle_) l p.(num_finished_) p.(num_file_per_wl_).
Definition set_num_finished z p := mk p.(task_) p.(assigned_) p.(inited_) p.(shuffle_) p.(time_) z p.(num_file_per_wl_).

(** [Assigned::Get()] *)
Definition Assigned_Get (a : Assigned) : Workload.File :=
  Workload.mkFile a.(a_filename) "" a.(a_n) (Z.of_nat a.(a_k)).

(** One iteration of the loop of [Add]: [task_[f.filename]] creates the entry,
    an empty track gets [npart] zeros. *)
Definition Add_file (npart : nat) (id : string) (p : t) (f : Workload.File) : outcome t :=
  let fn := f.(Workload.filename) in
  let t := default (mkTask ∅ [] 0) (p.(task_) !! fn) in
  let track := match t.(track) with [] => replicate npart 0%Z | _ => t.(track) end in
  _ ← check (bool_decide (length track = npart));
  let node := if decide (id = "") then t.(node) else {[ id ]} ∪ t.(node) in
  Ok (set_task (<[ fn := mkTask node track t.(done) ]> p.(task_)) p).

(** [Add(files, npart, id)] *)
Definition Add (files : list Workload.File) (npart : nat) (id : string) (p : t) : outcome t :=
  foldM (Add_file npart id) files (set_inited true p).

(** [Clear()] *)
Definition Clear (p : t) : t :=
  mk ∅ [] false p.(shuffle_) [] 0 p.(num_file_per_wl_).

(** [ClearRemain()] *)
Definition ClearRemain (p : t) : t := set_task ∅ p.

(** [Mark(filename, k, mark)] *)
Definition Mark (filename : string) (k : nat) (mark : Z) (p : t) : outcome t :=
  match p.(task_) !! filename with
  | None => Ok p
  | Some t =>
      _ ← check (bool_decide (k < length t.(track)));
      tk ← read_at t.(track) k;
      let fin := bool_decide (mark = 2%Z) && negb (bool_decide (tk = 2%Z)) in
      let num := if fin then (p.(num_finished_) + 1)%Z else p.(num_finished_) in
      let dn := if fin then S t.(done) else t.(done) in
      let t := mkTask t.(node) (<[ k := mark ]> t.(track)) dn in
      let p := set_num_finished num p in
      Ok (if decide (dn = length t.(track))
          then set_task (delete filename p.(task_)) p
          else set_task (<[ filename := t ]> p.(task_)) p)
  end.

(** The loop of [Set(id, del)]; [now a] is what [GetTime()] returns when the
    entry [a] is processed. *)
Fixpoint Set_loop (id : string) (del : bool) (now : Assigned -> D)
    (it : list Assigned) (p : t) : outcome (list Assigned * t) :=
  match it with
  | [] => Ok ([], p)
  | a :: it =>
      if decide (a.(a_node) = id) then
        p ← (if negb del then Mark a.(a_filename) a.(a_k) 0 p
             else Mark a.(a_filename) a.(a_k) 2
                    (set_time (p.(time_) ++ [fsub (now a) a.(a_start)]) p));
        Set_loop id del now it p
      else
        '(kept, p) ← Set_loop id del now it p;
        Ok (a :: kept, p)
  end.

Definition Set_ (id : string) (del : bool) (now : Assigned -> D) (p : t) : outcome t :=
  '(kept, p) ← Set_loop id del now p.(assigned_) p;
  Ok (set_assigned kept p).

(** [Reset(id)]: node [id] died. *)
Definition Reset (id : string) (now : Assigned -> D) (p : t) : outcome t := Set_ id false now p.

(** [Finish(id)]: node [id] finished the workload it got before. *)
Definition Finish (id : string) (now : Assigned -> D) (p : t) : outcome t := Set_ id true now p.

(** [IsFinished()], [num_finished()], [num_assigned()] *)
Definition IsFinished (p : t) : bool :=
  p.(inited_) && bool_decide (p.(task_) = ∅) && bool_decide (length p.(assigned_) = 0).
Definition num_finished (p : t) : Z := p.(num_finished_).
Definition num_assigned (p : t) : nat := length p.(assigned_).

(** The two [continue] guards both loops of [GetOne] start with. *)
Definition skip (id : string) (t : Task) : bool :=
  (negb (bool_decide (t.(node) = ∅)) && negb (bool_decide (id ∈ t.(node)))) ||
  bool_decide (t.(done) = length t.(track)).

(** First loop of [GetOne]: the number of parts [id] may get. *)
Definition count_available (id : string) (its : list (string * Task)) : nat :=
  foldl (fun n it =>
    if skip id it.2 then n
    else foldl (fun n v => if decide (v = 0%Z) then S n else n) n it.2.(track)) 0 its.

(** Inner loop of the second one: the [pick]-th available part, counting the
    available ones from [i], or the count reached at the end of the track. *)
Fixpoint scan_track (pick i k : nat) (tr : list Z) : nat + nat :=
  match tr with
  | [] => inr i
  | v :: tr =>
      if decide (v = 0%Z) then
        if decide (i < pick) then scan_track pick (S i) (S k) tr else inl k
      else scan_track pick i (S k) tr
  end.

Fixpoint scan_tasks (id : string) (pick i : nat) (its : list (string * Task))
  : option (string * nat * Task) :=
  match its with
  | [] => None
  | (f, t) :: its =>
      if skip id t then scan_tasks id pick i its else
      match scan_track pick i 0 t.(track) with
      | inl k => Some (f, k, t)
      | inr i => scan_tasks id pick i its
      end
  end.

(** [std::unordered_map] gives no promise on the order of an iteration. *)
Variable order : gmap string Task -> list (string * Task).

(** [GetOne(id, wl)]; [rand] is the value [rand()] returns and [now] the one
    [GetTime()] returns. *)
Definition GetOne (id : string) (rand : nat) (now : D) (wl : list Workload.File) (p : t)
  : list Workload.File * t :=
  let its := order p.(task_) in
  let n := count_available id its in
  if p.(shuffle_) && bool_decide (n = 0) then (wl, p) else
  let pick := if p.(shuffle_) then rand mod n else 0 in
  match scan_tasks id pick 0 its with
  | None => (wl, p)
  | Some (f, k, t) =>
      let a := mkAssigned f id (Z.of_nat (length t.(track))) k now in
      (wl ++ [Assigned_Get a],
       set_task (<[ f := mkTask t.(node) (<[ k := 1%Z ]> t.(track)) t.(done) ]> p.(task_))
         (set_assigned (p.(assigned_) ++ [a]) p))
  end.

(** [Get(id, wl)]: one call of [GetOne] per file of a workload; [rands] and
    [nows] give the random number and the time of each. *)
Fixpoint Get_loop (id : string) (rands : nat -> nat) (nows : nat -> D) (i : nat)
    (wl : list Workload.File) (p : t) : list Workload.File * t :=
  match i with
  | 0 => (wl, p)
  | S i => let '(wl, p) := GetOne id (rands i) (nows i) wl p in Get_loop id rands nows i wl p
  end.

Definition Get (id : string) (rands : nat -> nat) (nows : nat -> D) (p : t)
  : list Workload.File * t :=
  Get_loop id rands nows p.(num_file_per_wl_) [] p.

(** The loop of [RemoveStraggler] at time [cur_t] with threshold [limit]. *)
Fixpoint RemoveStraggler_loop (cur_t limit : D) (it : list Assigned) (p : t)
  : outcome (list Assigned * t) :=
  match it with
  | [] => Ok ([], p)
  | a :: it =>
      if fltb limit (fsub cur_t a.(a_start)) then
        p ← Mark a.(a_filename) a.(a_k) 0 p;
        RemoveStraggler_loop cur_t limit it p
      else
        '(kept, p) ← RemoveStraggler_loop cur_t limit it p;
        Ok (a :: kept, p)
  end.

(** [RemoveStraggler()] *)
Definition RemoveStraggler (cur_t : D) (p : t) : outcome t :=
  if decide (length p.(time_) < 10) then Ok p else
  let mean := fdiv (foldl fadd fzero p.(time_)) (fofZ (Z.of_nat (length p.(time_)))) in
  let limit := fmax (fmul mean (fofZ 2)) (fofZ 5) in
  '(kept, p) ← RemoveStraggler_loop cur_t limit p.(assigned_) p;
  Ok (set_assigned kept p).

(** ** The invariant *)

(** The part an entry of [assigned_] is about. *)
Definition part (a : Assigned) : string * nat := (a.(a_filename), a.(a_k)).

(** Number of finished parts of a track. *)
Definition count2 (tr : list Z) : nat := length (filter (fun v => v = 2%Z) tr).

Definition track_ok (t : Task) : Prop :=
  Forall (fun v => v = 0 \/ v = 1 \/ v = 2)%Z t.(track) /\
  t.(done) = count2 t.(track) /\ t.(done) < length t.(track).

(** The table [m] and the list [l] of parts on the way agree: [done] counts the
    finished parts, no task in the table is complete, the parts marked 1 are
    those of [l] and no part is in [l] twice. *)
Record agree (l : list Assigned) (m : gmap string Task) : Prop := {
  agree_track : forall f t, m !! f = Some t -> track_ok t;
  agree_one : forall a t, a ∈ l -> m !! a.(a_filename) = Some t ->
    t.(track) !! a.(a_k) = Some 1%Z;
  agree_nodup : NoDup (map part l);
  agree_cover : forall f t k, m !! f = Some t -> t.(track) !! k = Some 1%Z ->
    exists a, a ∈ l /\ part a = (f, k)
}.

Definition inv (p : t) : Prop := agree p.(assigned_) p.(task_).

Lemma count2_insert tr k v w :
  tr !! k = Some v ->
  count2 (<[k := w]> tr) + (if decide (v = 2%Z) then 1 else 0) =
  count2 tr + (if decide (w = 2%Z) then 1 else 0).
Proof.
  unfold count2. revert k. induction tr as [|x tr IH]; intros [|k] Hk; simplify_eq/=.
  - rewrite !filter_cons. repeat case_decide; simpl; lia.
  - rewrite !filter_cons. specialize (IH k Hk). repeat case_decide; simpl in *; lia.
Qed.

Lemma count2_full tr : count2 tr = length tr -> Forall (fun v => v = 2%Z) tr.
Proof.
  unfold count2. induction tr as [|x tr IH]; simpl; [constructor|].
  rewrite filter_cons. case_decide; simpl; intros Hl.
  - constructor; [done|]. apply IH. lia.
  - pose proof (length_filter (fun v => v = 2%Z) tr). lia.
Qed.

Lemma track_ok_insert t k v w :
  track_ok t -> t.(track) !! k = Some v -> v <> 2%Z -> w = 0%Z \/ w = 1%Z ->
  track_ok (mkTask t.(node) (<[k := w]> t.(track)) t.(done)).
Proof.
  intros (Hv & Hd & Hl) Hk Hne Hw. split; [|split]; simpl.
  - apply Forall_insert; [done|]. tauto.
  - pose proof (count2_insert _ _ _ w Hk). destruct Hw; repeat case_decide; lia.
  - by rewrite length_insert.
Qed.

Lemma track_ok_insert2 t k v :
  track_ok t -> t.(track) !! k = Some v -> v <> 2%Z -> S t.(done) <> length t.(track) ->
  track_ok (mkTask t.(node) (<[k := 2%Z]> t.(track)) (S t.(done))).
Proof.
  intros (Hv & Hd & Hl) Hk Hne Hw. split; [|split]; simpl.
  - apply Forall_insert; [done|]. tauto.
  - pose proof (count2_insert _ _ _ 2%Z Hk). repeat case_decide; lia.
  - rewrite length_insert. lia.
Qed.

Lemma agree_perm l1 l2 m : l1 ≡ₚ l2 -> agree l1 m -> agree l2 m.
Proof.
  intros Hp [H1 H2 H3 H4]. split; [done|..].
  - intros a t Ha. apply H2. by rewrite Hp.
  - by rewrite <- Hp.
  - intros f t k Hf Hk. destruct (H4 f t k Hf Hk) as (a & Ha & ?).
    exists a. by rewrite <- Hp.
Qed.

(** Replacing the track value of the part of [a], taken off the list. *)
Lemma agree_set a l m t w d :
  agree (a :: l) m -> m !! a.(a_filename) = Some t -> w <> 1%Z ->
  track_ok (mkTask t.(node) (<[a.(a_k) := w]> t.(track)) d) ->
  agree l (<[a.(a_filename) := mkTask t.(node) (<[a.(a_k) := w]> t.(track)) d]> m).
Proof.
  intros [H1 H2 H3 H4] Ht Hw Hok. simpl in H3. apply NoDup_cons in H3 as [Hn H3].
  assert (forall b, b ∈ l -> part b <> part a) as Hne.
  { intros b Hb E. apply Hn. rewrite <- E. apply list_elem_of_In. apply in_map.
    by apply list_elem_of_In. }
  split; [|..|done|].
  - intros f t'. rewrite lookup_insert. case_decide; [by intros [= <-]|apply H1].
  - intros b t' Hb. rewrite lookup_insert. case_decide as E; [|by apply H2; right].
    intros [= <-]. simpl. rewrite list_lookup_insert_ne.
    + apply H2; [by right|congruence].
    + intros Ek. apply (Hne b Hb). unfold part. congruence.
  - intros f t' k. rewrite lookup_insert. case_decide as E.
    + intros [= <-] Hk. simpl in Hk.
      destruct (decide (k = a.(a_k))) as [->|Hk'].
      * rewrite list_lookup_insert in Hk. case_decide; [congruence|].
        rewrite lookup_ge_None_2 in Hk by lia. done.
      * rewrite list_lookup_insert_ne in Hk by done.
        destruct (H4 _ _ _ Ht Hk) as (b & Hb & Eb). exists b. split; [|by subst].
        apply elem_of_cons in Hb as [->|]; [|done]. unfold part in Eb. congruence.
    + intros Hf Hk. destruct (H4 _ _ _ Hf Hk) as (b & Hb & Eb). exists b.
      split; [|done]. apply elem_of_cons in Hb as [->|]; [|done].
      unfold part in Eb. congruence.
Qed.

(** Dropping a task whose parts are no longer on the way. *)
Lemma agree_delete a l m t :
  agree (a :: l) m -> m !! a.(a_filename) = Some t -> S t.(done) = length t.(track) ->
  agree l (delete a.(a_filename) m).
Proof.
  intros [H1 H2 H3 H4] Ht Hd. simpl in H3. apply NoDup_cons in H3 as [Hn H3].
  split; [|..|done|].
  - intros f t'. rewrite lookup_delete. case_decide; [done|apply H1].
  - intros b t' Hb. rewrite lookup_delete. case_decide as E; [done|].
    intros. apply H2; [by right|done].
  - intros f t' k. rewrite lookup_delete. case_decide as E; [done|]. intros Hf Hk.
    destruct (H4 _ _ _ Hf Hk) as (b & Hb & Eb). exists b. split; [|done].
    apply elem_of_cons in Hb as [->|]; [|done]. unfold part in Eb. congruence.
Qed.

Lemma agree_orphan a l m :
  agree (a :: l) m -> m !! a.(a_filename) = None -> agree l m.
Proof.
  intros [H1 H2 H3 H4] Ht. simpl in H3. apply NoDup_cons in H3 as [Hn H3].
  split; [done|..|done|].
  - intros b t' Hb. apply H2. by right.
  - intros f t' k Hf Hk. destruct (H4 _ _ _ Hf Hk) as (b & Hb & Eb). exists b.
    split; [|done]. apply elem_of_cons in Hb as [->|]; [|done].
    unfold part in Eb. congruence.
Qed.

(** What [Mark] does to the table for a part on the way. *)
Definition mark_map (a : Assigned) (mark : Z) (m : gmap string Task) : gmap string Task :=
  match m !! a.(a_filename) with
  | None => m
  | Some t =>
      let tr := <[ a.(a_k) := mark ]> t.(track) in
      if decide (mark = 2%Z) then
        if decide (S t.(done) = length t.(track)) then delete a.(a_filename) m
        else <[ a.(a_filename) := mkTask t.(node) tr (S t.(done)) ]> m
      else <[ a.(a_filename) := mkTask t.(node) tr t.(done) ]> m
  end.

Definition mark_num (a : Assigned) (mark : Z) (m : gmap string Task) : Z :=
  match m !! a.(a_filename) with
  | None => 0
  | Some _ => if decide (mark = 2%Z) then 1 else 0
  end.

Lemma Mark_on_way a l p mark :
  agree (a :: l) p.(task_) -> mark = 0%Z \/ mark = 2%Z ->
  Mark a.(a_filename) a.(a_k) mark p =
    Ok (set_task (mark_map a mark p.(task_))
          (set_num_finished (p.(num_finished_) + mark_num a mark p.(task_)) p)) /\
  agree l (mark_map a mark p.(task_)).
Proof.
  intros Hag Hmark. unfold Mark, mark_map, mark_num.
  destruct (task_ p !! a_filename a) as [t|] eqn:Ht.
  2:{ split; [|by eapply agree_orphan]. rewrite Z.add_0_r. by destruct p. }
  assert (t.(track) !! a.(a_k) = Some 1%Z) as Hk
    by (eapply agree_one; [done|by left|done]).
  pose proof (agree_track _ _ Hag _ _ Ht) as Hok.
  pose proof (lookup_lt_Some _ _ _ Hk) as Hlt.
  rewrite check_true by (by apply bool_decide_eq_true). simpl.
  rewrite (proj2 (read_at_Ok _ _ _) Hk). simpl. rewrite length_insert.
  destruct Hmark as [->| ->]; simpl.
  - rewrite decide_False by (destruct Hok as (_ & _ & ?); lia). rewrite Z.add_0_r.
    split; [done|]. apply agree_set; [done..|].
    by eapply track_ok_insert; [..|left].
  - case_decide as Hd.
    + split; [done|]. by eapply agree_delete.
    + split; [done|]. apply agree_set; [done..|]. by eapply track_ok_insert2.
Qed.

(** ** Which parts finish: the history of a dispatch *)

(** [covers cap all fin l m]: of the parts [all] of a dispatch, those in [fin] are
    finished and the others are in the table, available or on the way; [cap f]
    are the nodes that may work on file [f], all of them when it is empty. *)
Record covers (cap : string -> gset string) (all : gset (string * nat)) (fin : list (string * nat))
    (l : list Assigned) (m : gmap string Task) : Prop := {
  cov_nodup : NoDup fin;
  cov_fin : forall f k, (f, k) ∈ fin -> (f, k) ∈ all;
  cov_table : forall f t k v, m !! f = Some t -> t.(track) !! k = Some v ->
    (f, k) ∈ all /\ (v = 2%Z <-> (f, k) ∈ fin);
  cov_all : forall f k, (f, k) ∈ all -> (f, k) ∉ fin ->
    exists t, m !! f = Some t /\ k < length t.(track);
  cov_task : forall a, a ∈ l -> is_Some (m !! a.(a_filename));
  cov_node : forall f t, m !! f = Some t -> t.(node) = cap f
}.

(** The parts [l] finishes: those its entries are about. *)
Lemma covers_mark0 cap all fin a l m :
  agree (a :: l) m -> covers cap all fin (a :: l) m -> covers cap all fin l (mark_map a 0 m).
Proof.
  intros Hag [H1 H2 H3 H4 H5 H6]. unfold mark_map.
  destruct (H5 a) as [t Ht]; [by left|]. rewrite Ht. rewrite decide_False by done.
  assert (t.(track) !! a.(a_k) = Some 1%Z) as Hk
    by (eapply agree_one; [done|by left|done]).
  pose proof (lookup_lt_Some _ _ _ Hk) as Hlt.
  split; [done|done|..].
  - intros f t' k v. rewrite lookup_insert. case_decide as E; [|apply H3].
    intros [= <-]. simpl. rewrite list_lookup_insert. case_decide as E2; [|subst; by apply H3].
    intros [= <-]. destruct E2 as [<- _]. subst f.
    destruct (H3 _ _ _ _ Ht Hk) as [? Hf]. split; [done|]. split; [done|].
    intros ?%Hf. done.
  - intros f k Ha Hf. destruct (H4 f k Ha Hf) as (t' & Ht' & Hl).
    rewrite lookup_insert. case_decide as E; [|eauto].
    eexists. split; [done|]. simpl. rewrite length_insert. congruence.
  - intros b Hb. rewrite lookup_insert. case_decide; [eauto|]. apply H5. by right.
  - intros f t'. rewrite lookup_insert. case_decide as E; [|apply H6].
    intros [= <-]. simpl. subst f. apply (H6 _ _ Ht).
Qed.

Lemma covers_mark2 cap all fin a l m :
  agree (a :: l) m -> covers cap all fin (a :: l) m ->
  covers cap all (part a :: fin) l (mark_map a 2 m).
Proof.
  intros Hag [H1 H2 H3 H4 H5 H6]. unfold mark_map.
  destruct (H5 a) as [t Ht]; [by left|]. rewrite Ht. rewrite decide_True by done.
  assert (t.(track) !! a.(a_k) = Some 1%Z) as Hk
    by (eapply agree_one; [done|by left|done]).
  pose proof (lookup_lt_Some _ _ _ Hk) as Hlt.
  destruct (H3 _ _ _ _ Ht Hk) as [Hall Hnf].
  assert (part a ∉ fin) as Hn by (intros Hin; apply Hnf in Hin; done).
  pose proof (agree_track _ _ Hag _ _ Ht) as (Htv & Hd & Hdl).
  assert (NoDup (part a :: fin)) by by constructor.
  assert (forall f k, (f, k) ∈ part a :: fin -> (f, k) ∈ all).
  { intros f k [E|?]%elem_of_cons; [by rewrite E|by apply H2]. }
  case_decide as Hdone.
  - (* the last part: the task leaves the table *)
    assert (forall k v, k <> a.(a_k) -> t.(track) !! k = Some v -> v = 2%Z) as Hrest.
    { intros k v Hne Hv.
      assert (Forall (fun v => v = 2%Z) (<[a.(a_k) := 2%Z]> t.(track))) as Hall2.
      { apply count2_full. rewrite length_insert.
        pose proof (count2_insert _ _ _ 2%Z Hk) as Hc.
        rewrite decide_False, decide_True in Hc by done. lia. }
      rewrite Forall_lookup in Hall2. apply (Hall2 k).
      by rewrite list_lookup_insert_ne. }
    split; [done|done|..].
    + intros f t' k v. rewrite lookup_delete. case_decide as E; [done|]. intros Ht' Hv.
      destruct (H3 _ _ _ _ Ht' Hv) as [? Hv2]. split; [done|]. rewrite Hv2.
      rewrite elem_of_cons. split; [by right|]. intros [E2|]; [|done].
      unfold part in E2. congruence.
    + intros f k Ha Hf. apply not_elem_of_cons in Hf as [Hne Hf].
      destruct (H4 f k Ha Hf) as (t' & Ht' & Hl).
      rewrite lookup_delete. case_decide as E; [|eauto].
      subst f. assert (t' = t) as -> by congruence.
      destruct (lookup_lt_is_Some_2 _ _ Hl) as [v Hv].
      destruct Hf. apply (H3 _ _ _ _ Ht Hv). apply (Hrest k); [|done].
      intros ->. by apply Hne.
    + intros b Hb. rewrite lookup_delete. case_decide as E; [|apply H5; by right].
      exfalso. assert (t.(track) !! b.(a_k) = Some 1%Z) as Hb1.
      { eapply agree_one; [done|by right|congruence]. }
      pose proof (agree_nodup _ _ Hag) as Hnd. simpl in Hnd.
      apply NoDup_cons in Hnd as [Hnd _].
      destruct (decide (b.(a_k) = a.(a_k))) as [Ek|Ek].
      * apply Hnd. replace (part a) with (part b) by (unfold part; congruence).
        apply list_elem_of_In, in_map. by apply list_elem_of_In.
      * specialize (Hrest _ _ Ek Hb1). done.
    + intros f t'. rewrite lookup_delete. case_decide; [done|apply H6].
  - split; [done|done|..].
    + intros f t' k v. rewrite lookup_insert. case_decide as E.
      * intros [= <-]. simpl. subst f. rewrite list_lookup_insert.
        case_decide as E2.
        -- intros [= <-]. destruct E2 as [<- _]. split; [done|].
           split; [intros _; by left|done].
        -- intros Hv. destruct (H3 _ _ _ _ Ht Hv) as [? Hv2]. split; [done|]. rewrite Hv2.
           rewrite elem_of_cons. split; [by right|]. intros [E3|]; [|done].
           unfold part in E3. destruct E2. split; [congruence|].
           by eapply lookup_lt_Some.
      * intros Ht' Hv. destruct (H3 _ _ _ _ Ht' Hv) as [? Hv2]. split; [done|]. rewrite Hv2.
        rewrite elem_of_cons. split; [by right|]. intros [E3|]; [|done].
        unfold part in E3. congruence.
    + intros f k Ha Hf. apply not_elem_of_cons in Hf as [Hne Hf].
      destruct (H4 f k Ha Hf) as (t' & Ht' & Hl).
      rewrite lookup_insert. case_decide as E; [|eauto].
      eexists. split; [done|]. simpl. rewrite length_insert. congruence.
    + intros b Hb. rewrite lookup_insert. case_decide; [eauto|]. apply H5. by right.
    + intros f t'. rewrite lookup_insert. case_decide as E; [|apply H6].
      intros [= <-]. simpl. subst f. apply (H6 _ _ Ht).
Qed.

(** ** The loops over [assigned_] *)

(** The history, extended with the parts of [l]. *)
Definition finish_all (fin : list (string * nat)) (l : list Assigned) : list (string * nat) :=
  foldl (fun fin a => part a :: fin) fin l.

(** The configuration of a pool, which no operation but [Add] and [Clear]
    changes. *)
Definition same_config (p p' : t) : Prop :=
  p'.(inited_) = p.(inited_) /\ p'.(shuffle_) = p.(shuffle_) /\
  p'.(num_file_per_wl_) = p.(num_file_per_wl_).

(** A pool that agrees with its history. *)
Record tracked (cap : string -> gset string) (all : gset (string * nat)) (fin : list (string * nat))
    (l : list Assigned) (p : t) : Prop := {
  tr_agree : agree l p.(task_);
  tr_covers : covers cap all fin l p.(task_);
  tr_num : p.(num_finished_) = Z.of_nat (length fin)
}.

Lemma covers_perm cap all fin l1 l2 m : l1 ≡ₚ l2 -> covers cap all fin l1 m -> covers cap all fin l2 m.
Proof.
  intros Hp [H1 H2 H3 H4 H5 H6]. split; [done..| |done]. intros a Ha. apply H5. by rewrite Hp.
Qed.

Lemma tracked_perm cap all fin l1 l2 p : l1 ≡ₚ l2 -> tracked cap all fin l1 p -> tracked cap all fin l2 p.
Proof.
  intros Hp [H1 H2 H3]. split; [by eapply agree_perm|by eapply covers_perm|done].
Qed.

Lemma Mark_tracked cap all fin a l p mark :
  tracked cap all fin (a :: l) p -> mark = 0%Z \/ mark = 2%Z ->
  exists p', Mark a.(a_filename) a.(a_k) mark p = Ok p' /\
    tracked cap all (if decide (mark = 2%Z) then part a :: fin else fin) l p' /\
    same_config p p'.
Proof.
  intros [Hag Hcov Hnum] Hm. destruct (Mark_on_way a l p mark Hag Hm) as [-> Hag'].
  eexists. split; [done|]. split; [|done]. destruct (cov_task _ _ _ _ _ Hcov a) as [t Ht]; [by left|].
  split; [done|..]; simpl.
  - destruct Hm as [->| ->]; simpl; [by apply covers_mark0|by apply covers_mark2].
  - unfold mark_num. rewrite Ht. case_decide; simpl; lia.
Qed.

Lemma Set_loop_tracked cap all fin id del now it pre p :
  tracked cap all fin (it ++ pre) p ->
  exists p', Set_loop id del now it p = Ok (filter (fun a => a.(a_node) <> id) it, p') /\
    tracked cap all (if del then finish_all fin (filter (fun a => a.(a_node) = id) it) else fin)
      (filter (fun a => a.(a_node) <> id) it ++ pre) p' /\
    same_config p p'.
Proof.
  revert fin pre p. induction it as [|a it IH]; intros fin pre p Htr; simpl.
  { exists p. split; [done|]. by destruct del. }
  rewrite !filter_cons. destruct (decide (a.(a_node) = id)) as [E|E].
  - rewrite (decide_False (P := _ <> _)) by tauto.
    assert (tracked cap all fin (a :: (it ++ pre))
      (if del then set_time (p.(time_) ++ [fsub (now a) a.(a_start)]) p else p)) as Htr'.
    { destruct Htr. by destruct del. }
    destruct (Mark_tracked _ _ _ _ _ _ (if del then 2 else 0)%Z Htr') as (p1 & E1 & Htr1 & Hc1);
      [destruct del; auto|].
    destruct (IH _ pre p1 Htr1) as (p2 & E2 & Htr2 & Hc2).
    exists p2. split; [|split].
    + destruct del; simpl in *; rewrite E1; simpl; exact E2.
    + by destruct del.
    + destruct del; destruct Hc1 as (?&?&?), Hc2 as (?&?&?); repeat split; simpl in *; congruence.
  - rewrite (decide_True (P := _ <> _)) by done.
    destruct (IH fin (a :: pre) p) as (p2 & E2 & Htr2 & Hc2).
    { eapply tracked_perm; [|exact Htr]. simpl. by rewrite Permutation_middle. }
    exists p2. split; [by rewrite E2|]. split; [|done].
    eapply tracked_perm; [|exact Htr2]. simpl. by rewrite Permutation_middle.
Qed.

Lemma RemoveStraggler_loop_tracked cap all fin cur limit it pre p :
  tracked cap all fin (it ++ pre) p ->
  exists kept p', RemoveStraggler_loop cur limit it p = Ok (kept, p') /\
    tracked cap all fin (kept ++ pre) p' /\ same_config p p'.
Proof.
  revert pre p. induction it as [|a it IH]; intros pre p Htr; simpl.
  { by exists [], p. }
  destruct (fltb _ _).
  - destruct (Mark_tracked _ _ _ a (it ++ pre) p 0 Htr) as (p1 & -> & Htr1 & Hc1); [auto|].
    destruct (IH pre p1 Htr1) as (kept & p2 & E2 & Htr2 & Hc2).
    exists kept, p2. split; [done|]. split; [done|].
    destruct Hc1 as (?&?&?), Hc2 as (?&?&?); repeat split; congruence.
  - destruct (IH (a :: pre) p) as (kept & p2 & E2 & Htr2 & Hc2).
    { eapply tracked_perm; [|exact Htr]. simpl. by rewrite Permutation_middle. }
    exists (a :: kept), p2. split; [by rewrite E2|]. split; [|done].
    eapply tracked_perm; [|exact Htr2]. simpl. by rewrite Permutation_middle.
Qed.

(** A pool between two operations. *)
Definition live (cap : string -> gset string) (all : gset (string * nat)) (fin : list (string * nat)) (p : t) : Prop :=
  tracked cap all fin p.(assigned_) p.

Lemma Set_live cap all fin id del now p :
  live cap all fin p ->
  exists p', Set_ id del now p = Ok p' /\
    live cap all (if del then finish_all fin (filter (fun a => a.(a_node) = id) p.(assigned_))
              else fin) p' /\
    p'.(assigned_) = filter (fun a => a.(a_node) <> id) p.(assigned_) /\ same_config p p'.
Proof.
  intros Htr. destruct (Set_loop_tracked cap all fin id del now p.(assigned_) [] p)
    as (p' & E & Htr' & Hc); [by rewrite app_nil_r|].
  rewrite app_nil_r in Htr'. unfold Set_. rewrite E. simpl.
  eexists. split; [done|]. split; [|done]. destruct Htr'. by split.
Qed.

Lemma RemoveStraggler_live cap all fin cur p :
  live cap all fin p ->
  exists p', RemoveStraggler cur p = Ok p' /\ live cap all fin p' /\ same_config p p'.
Proof.
  intros Htr. unfold RemoveStraggler. case_decide; [by exists p|].
  match goal with |- context [RemoveStraggler_loop _ ?l _ _] => set (limit := l) end.
  destruct (RemoveStraggler_loop_tracked cap all fin cur limit p.(assigned_) [] p)
    as (kept & p' & E & Htr' & Hc); [by rewrite app_nil_r|].
  rewrite app_nil_r in Htr'. rewrite E. simpl.
  eexists. split; [done|]. split; [|done]. destruct Htr'. by split.
Qed.

(** ** Handing out parts *)

Hypothesis order_perm : forall m, order m ≡ₚ map_to_list m.

(** Node [id] may work on task [t]. *)
Definition eligible (id : string) (t : Task) : Prop := t.(node) = ∅ \/ id ∈ t.(node).

Definition avail (t : Task) : nat := length (filter (fun v => v = 0%Z) t.(track)).

Lemma scan_track_inl pick i k tr k' :
  scan_track pick i k tr = inl k' -> exists j, k' = k + j /\ tr !! j = Some 0%Z.
Proof.
  revert i k. induction tr as [|v tr IH]; intros i k Hs; simpl in Hs; [done|].
  repeat case_decide.
  - apply IH in Hs as (j & -> & ?). exists (S j). split; [lia|done].
  - simplify_eq. exists 0. split; [lia|done].
  - apply IH in Hs as (j & -> & ?). exists (S j). split; [lia|done].
Qed.

Lemma scan_track_inr pick i k tr i' :
  scan_track pick i k tr = inr i' -> i <= pick ->
  i' = i + length (filter (fun v => v = 0%Z) tr) /\ i' <= pick.
Proof.
  revert i k. induction tr as [|v tr IH]; intros i k Hs Hi; simpl in Hs.
  { simplify_eq. simpl. lia. }
  rewrite filter_cons. repeat case_decide; simpl; try done.
  - apply IH in Hs as [-> ?]; lia.
  - apply IH in Hs as [-> ?]; lia.
Qed.

Lemma scan_tasks_some id pick i its f k t :
  scan_tasks id pick i its = Some (f, k, t) ->
  (f, t) ∈ its /\ t.(track) !! k = Some 0%Z /\ skip id t = false.
Proof.
  revert i. induction its as [|[f' t'] its IH]; intros i Hs; simpl in Hs; [done|].
  destruct (skip id t') eqn:Esk.
  { apply IH in Hs as (? & ? & ?). split; [by right|done]. }
  destruct (scan_track pick i 0 (track t')) eqn:Et.
  - simplify_eq. apply scan_track_inl in Et as (j & -> & Hj).
    split; [by left|]. done.
  - apply IH in Hs as (? & ? & ?). split; [by right|done].
Qed.

Lemma count_zero_acc n tr :
  foldl (fun n v => if decide (v = 0%Z) then S n else n) n tr =
  n + length (filter (fun v => v = 0%Z) tr).
Proof.
  revert n. induction tr as [|v tr IH]; intros n; simpl; [lia|].
  rewrite IH, filter_cons. case_decide; simpl; lia.
Qed.

(** The first loop of [GetOne] counts the parts the second one passes. *)
Lemma count_available_sum id its :
  count_available id its = sum_list (map (fun it => if skip id it.2 then 0 else avail it.2) its).
Proof.
  unfold count_available. change (sum_list ?l) with (0 + sum_list l).
  set (g := fun it : string * Task => _).
  enough (forall n, foldl (fun n it => if skip id it.2 then n else foldl
      (fun n v => if decide (v = 0%Z) then S n else n) n it.2.(track)) n its
    = n + sum_list (map g its)) as Hn by apply Hn.
  induction its as [|it its IH]; intros n; simpl; [lia|].
  rewrite IH. unfold g at 2. destruct (skip id it.2); [lia|].
  rewrite count_zero_acc. unfold avail. lia.
Qed.

Lemma scan_tasks_none id pick i its :
  scan_tasks id pick i its = None -> i <= pick -> i + count_available id its <= pick.
Proof.
  rewrite count_available_sum. revert i.
  induction its as [|[f t] its IH]; intros i Hs Hi; simpl in *; [lia|].
  case_bool; [by apply IH|].
  destruct (scan_track pick i 0 (track t)) eqn:Et; [done|].
  apply scan_track_inr in Et as [-> ?]; [|done].
  apply IH in Hs; [|done]. unfold avail in *. lia.
Qed.

(** The entry [GetOne] appends for the part [(f, k)] of task [t]. *)
Lemma tracked_assign cap all fin l p f k t id now :
  tracked cap all fin l p -> p.(task_) !! f = Some t -> t.(track) !! k = Some 0%Z ->
  let a := mkAssigned f id (Z.of_nat (length t.(track))) k now in
  tracked cap all fin (l ++ [a])
    (set_task (<[ f := mkTask t.(node) (<[ k := 1%Z ]> t.(track)) t.(done) ]> p.(task_))
       (set_assigned (p.(assigned_) ++ [a]) p)).
Proof.
  intros [[A1 A2 A3 A4] [C1 C2 C3 C4 C5 C6] Hnum] Ht Hk a.
  pose proof (lookup_lt_Some _ _ _ Hk) as Hlt.
  assert (forall b, b ∈ l -> part b <> (f, k)) as Hfresh.
  { intros b Hb [= E1 E2]. specialize (A2 b t Hb). rewrite E1, E2, Hk in A2.
    specialize (A2 Ht). done. }
  split; [split|split|done]; simpl.
  - intros f' t'. rewrite lookup_insert. case_decide; [|apply A1]. intros [= <-].
    eapply track_ok_insert; [by eapply A1|done|done|by right].
  - intros b t' Hb. rewrite lookup_insert. apply elem_of_app in Hb as [Hb|Hb].
    + case_decide as E; [|by apply A2]. intros [= <-]. simpl.
      rewrite list_lookup_insert_ne; [apply A2; [done|congruence]|].
      intros Ek. apply (Hfresh b Hb). unfold part. congruence.
    + apply list_elem_of_singleton in Hb as ->. simpl. rewrite decide_True by done.
      intros [= <-]. simpl. by rewrite list_lookup_insert_eq.
  - rewrite map_app. apply NoDup_app. split; [done|]. split; [|apply NoDup_singleton].
    intros x Hx Hx2. apply list_elem_of_singleton in Hx2 as ->.
    apply list_elem_of_In, in_map_iff in Hx as (b & Eb & Hb).
    apply (Hfresh b); [by apply list_elem_of_In|done].
  - intros f' t' k'. rewrite lookup_insert. case_decide as E.
    + intros [= <-]. simpl. rewrite list_lookup_insert. case_decide as E2.
      * intros _. exists a. split; [apply elem_of_app; right; by left|].
        unfold part; simpl. destruct E2. congruence.
      * intros Hk'. destruct (A4 _ _ _ Ht Hk') as (b & Hb & Eb). subst f'.
        exists b. split; [apply elem_of_app; by left|done].
    + intros Hf Hk'. destruct (A4 _ _ _ Hf Hk') as (b & Hb & Eb).
      exists b. split; [apply elem_of_app; by left|done].
  - done.
  - done.
  - intros f' t' k' v. rewrite lookup_insert. case_decide as E; [|apply C3].
    intros [= <-]. simpl. subst f'. rewrite list_lookup_insert.
    case_decide as E2; [|by apply C3].
    intros [= <-]. destruct E2 as [<- _]. destruct (C3 _ _ _ _ Ht Hk) as [? Hf].
    split; [done|]. split; [done|]. intros ?%Hf. done.
  - intros f' k' Ha Hf. destruct (C4 f' k' Ha Hf) as (t' & Ht' & Hl).
    rewrite lookup_insert. case_decide as E; [|eauto].
    eexists. split; [done|]. simpl. rewrite length_insert. congruence.
  - intros b Hb. rewrite lookup_insert. case_decide; [eauto|].
    apply elem_of_app in Hb as [Hb|Hb]; [by apply C5|].
    apply list_elem_of_singleton in Hb as ->. done.
  - intros f' t'. rewrite lookup_insert. case_decide as E; [|apply C6].
    intros [= <-]. simpl. subst f'. apply (C6 _ _ Ht).
Qed.

(** [GetOne] hands out one available part the node may work on, or finds that
    there is none. *)
Lemma GetOne_live cap all fin id rand now wl p :
  live cap all fin p ->
  (GetOne id rand now wl p = (wl, p) /\ count_available id (order p.(task_)) = 0) \/
  exists f t k p',
    let a := mkAssigned f id (Z.of_nat (length t.(track))) k now in
    GetOne id rand now wl p = (wl ++ [Assigned_Get a], p') /\
    p.(task_) !! f = Some t /\ eligible id t /\ t.(track) !! k = Some 0%Z /\
    p'.(assigned_) = p.(assigned_) ++ [a] /\ live cap all fin p' /\ same_config p p'.
Proof.
  intros Hl. unfold GetOne.
  set (n := count_available id (order p.(task_))).
  destruct (p.(shuffle_) && bool_decide (n = 0)) eqn:Eb.
  { left. split; [done|]. apply andb_true_iff in Eb as [_ Eb]. by apply bool_decide_eq_true in Eb. }
  set (pick := if p.(shuffle_) then rand mod n else 0).
  assert (n <> 0 -> pick < n) as Hpick.
  { intros Hn. subst pick. destruct (shuffle_ p); [apply Nat.mod_upper_bound; lia|lia]. }
  destruct (scan_tasks id pick 0 (order (task_ p))) as [[[f k] t]|] eqn:Es.
  - right. apply scan_tasks_some in Es as (Hin & Hk & Hsk).
    rewrite order_perm in Hin. apply elem_of_map_to_list in Hin.
    exists f, t, k. eexists. split; [reflexivity|]. split; [done|]. split; [|split; [done|]].
    { unfold skip in Hsk. apply orb_false_iff in Hsk as [Hsk _].
      unfold eligible. repeat case_bool_decide; simpl in Hsk; try done; tauto. }
    split; [done|]. split; [|done]. by apply tracked_assign.
  - left. split; [done|]. apply scan_tasks_none in Es; [|lia]. lia.
Qed.

Lemma same_config_trans p1 p2 p3 :
  same_config p1 p2 -> same_config p2 p3 -> same_config p1 p3.
Proof. intros (?&?&?) (?&?&?). repeat split; congruence. Qed.

(** What a call of [Get] adds to [assigned_] is what it writes to the
    workload. *)
Lemma Get_loop_live cap all fin id rands nows i wl p :
  live cap all fin p ->
  exists new p', Get_loop id rands nows i wl p = (wl ++ map Assigned_Get new, p') /\
    p'.(assigned_) = p.(assigned_) ++ new /\
    Forall (fun a => a.(a_node) = id) new /\
    Forall (fun a => cap a.(a_filename) = ∅ \/ id ∈ cap a.(a_filename)) new /\
    (0 < i -> 0 < count_available id (order p.(task_)) -> new <> []) /\
    live cap all fin p' /\ same_config p p'.
Proof.
  revert wl p. induction i as [|i IH]; intros wl p Hl; simpl.
  { exists [], p. rewrite !app_nil_r. split_and!; try done; lia. }
  destruct (GetOne_live cap all fin id (rands i) (nows i) wl p Hl)
    as [[E Hc]|(f & t & k & p1 & E & Ht & Hel & Hk & Has & Hl1 & Hc1)].
  - rewrite E. destruct (IH wl p Hl) as (new & p' & E' & H1 & H2 & H3 & H4 & H5).
    exists new, p'. split_and!; try done; try apply H5; lia.
  - simpl in E. rewrite E.
    destruct (IH (wl ++ [Assigned_Get (mkAssigned f id (Z.of_nat (length t.(track))) k (nows i))])
                p1 Hl1) as (new & p' & E' & H1 & H2 & H3 & H4 & H5 & H6).
    eexists (_ :: new), p'. split; [rewrite E', <- app_assoc; reflexivity|].
    split; [by rewrite H1, Has, <- app_assoc|].
    split; [by constructor|]. split.
    { constructor; [|done]. simpl. rewrite <- (cov_node _ _ _ _ _ (tr_covers _ _ _ _ _ Hl) _ _ Ht). done. }
    split; [done|]. split; [done|]. by eapply same_config_trans.
Qed.

(** ** Executions *)

(** The operations the scheduler and the straggler thread apply to a pool, with
    the values the clock and the random number generator give. *)
Inductive op :=
| OpGet (id : string) (rands : nat -> nat) (nows : nat -> D)
| OpFinish (id : string) (now : Assigned -> D)
| OpReset (id : string) (now : Assigned -> D)
| OpRemoveStraggler (cur_t : D).

(** A step, with the parts that have finished so far beside the pool. *)
Definition step (s : list (string * nat) * t) (o : op) : outcome (list (string * nat) * t) :=
  let '(fin, p) := s in
  match o with
  | OpGet id rands nows => Ok (fin, (Get id rands nows p).2)
  | OpFinish id now =>
      p' ← Finish id now p;
      Ok (finish_all fin (filter (fun a => a.(a_node) = id) p.(assigned_)), p')
  | OpReset id now => p' ← Reset id now p; Ok (fin, p')
  | OpRemoveStraggler cur_t => p' ← RemoveStraggler cur_t p; Ok (fin, p')
  end.

Definition run (ops : list op) (s : list (string * nat) * t) : outcome (list (string * nat) * t) :=
  foldM step ops s.

Lemma step_live cap all fin p o :
  live cap all fin p ->
  exists fin' p', step (fin, p) o = Ok (fin', p') /\ live cap all fin' p' /\ same_config p p'.
Proof.
  intros Hl. destruct o as [id rands nows|id now|id now|cur]; simpl.
  - unfold Get. destruct (Get_loop_live cap all fin id rands nows p.(num_file_per_wl_) [] p Hl)
      as (new & p' & -> & _ & _ & _ & _ & H5 & H6). by exists fin, p'.
  - destruct (Set_live cap all fin id true now p Hl) as (p' & E & H1 & _ & H2).
    unfold Finish. rewrite E. simpl. by eexists _, p'.
  - destruct (Set_live cap all fin id false now p Hl) as (p' & E & H1 & _ & H2).
    unfold Reset. rewrite E. simpl. by exists fin, p'.
  - destruct (RemoveStraggler_live cap all fin cur p Hl) as (p' & -> & H1 & H2).
    simpl. by exists fin, p'.
Qed.

Lemma run_live cap all ops fin p :
  live cap all fin p ->
  exists fin' p', run ops (fin, p) = Ok (fin', p') /\ live cap all fin' p' /\ same_config p p'.
Proof.
  revert fin p. induction ops as [|o ops IH]; intros fin p Hl; [by exists fin, p|].
  change (run (o :: ops) (fin, p)) with (s ← step (fin, p) o; run ops s).
  destruct (step_live cap all fin p o Hl) as (fin1 & p1 & -> & Hl1 & Hc1). simpl.
  destruct (IH fin1 p1 Hl1) as (fin2 & p2 & E & Hl2 & Hc2).
  exists fin2, p2. split; [exact E|]. split; [done|]. by eapply same_config_trans.
Qed.

(** An unfinished task has a part that is not marked 2. *)
Lemma track_ok_open t : track_ok t -> exists k v, t.(track) !! k = Some v /\ v <> 2%Z.
Proof.
  intros (_ & Hd & Hl). rewrite Hd in Hl. clear Hd. unfold count2 in Hl.
  induction (track t) as [|v tr IH]; simpl in *; [lia|].
  rewrite filter_cons in Hl. case_decide.
  - simpl in Hl. destruct IH as (k & v' & ? & ?); [lia|]. by exists (S k), v'.
  - by exists 0, v.
Qed.

(** A dispatch is complete exactly when every part has finished. *)
Lemma live_finished cap all fin p :
  live cap all fin p -> p.(inited_) = true ->
  (IsFinished p = true <-> fin ≡ₚ elements all).
Proof.
  intros [Hag Hcov _] Hi. unfold IsFinished. rewrite Hi. simpl. split.
  - rewrite andb_true_iff, !bool_decide_eq_true. intros [Hm _].
    apply NoDup_Permutation; [apply Hcov|apply NoDup_elements|]. intros [f k].
    rewrite elem_of_elements. split; [apply Hcov|]. intros Hin.
    destruct (decide ((f, k) ∈ fin)); [done|].
    destruct (cov_all _ _ _ _ _ Hcov f k) as (t & Ht & _); [done..|].
    rewrite Hm in Ht. done.
  - intros Hp. assert (p.(task_) = ∅) as Hm.
    { apply map_eq. intros f. rewrite lookup_empty.
      destruct (task_ p !! f) as [t|] eqn:Ht; [|done]. exfalso.
      destruct (track_ok_open t) as (k & v & Hk & Hv); [by eapply agree_track|].
      destruct (cov_table _ _ _ _ _ Hcov _ _ _ _ Ht Hk) as [Hin Hf].
      apply Hv, Hf. rewrite Hp. by apply elem_of_elements. }
    rewrite andb_true_iff, !bool_decide_eq_true. split; [done|].
    destruct (assigned_ p) as [|a l]; [done|].
    destruct (cov_task _ _ _ _ _ Hcov a) as [t Ht]; [by left|].
    rewrite Hm in Ht. done.
Qed.

(** ** The start of a dispatch *)

(** The scheduler clears the pool and adds the files each worker reports, with
    the worker's id, or all files with the empty id. *)
Definition dispatch (npart : nat) (adds : list (list Workload.File * string)) (p : t) : outcome t :=
  foldM (fun p fi => Add fi.1 npart fi.2 p) adds (Clear p).

(** The pairs of a file name and an id that were added. *)
Definition added (adds : list (list Workload.File * string)) : list (string * string) :=
  mjoin (map (fun fi => map (fun f => (f.(Workload.filename), fi.2)) fi.1) adds).

(** The parts of a dispatch, and the nodes that may work on a file. *)
Definition parts (npart : nat) (ad : list (string * string)) : gset (string * nat) :=
  list_to_set (mjoin (map (fun x => map (fun k => (x.1, k)) (seq 0 npart)) ad)).
Definition capable (ad : list (string * string)) (f : string) : gset string :=
  list_to_set (map snd (filter (fun x => x.1 = f /\ x.2 <> "") ad)).

Record fresh (npart : nat) (ad : list (string * string)) (p : t) : Prop := {
  fr_task : forall f t, p.(task_) !! f = Some t ->
    t = mkTask (capable ad f) (replicate npart 0%Z) 0;
  fr_dom : forall f, is_Some (p.(task_) !! f) <-> exists id, (f, id) ∈ ad;
  fr_assigned : p.(assigned_) = [];
  fr_num : p.(num_finished_) = 0%Z
}.

Lemma elem_of_parts npart ad f k :
  (f, k) ∈ parts npart ad <-> (exists id, (f, id) ∈ ad) /\ k < npart.
Proof.
  unfold parts. rewrite elem_of_list_to_set. induction ad as [|[g i] ad IH]; simpl.
  { split; [by intros ?%elem_of_nil|]. intros [[id Hid] _]. by apply elem_of_nil in Hid. }
  rewrite elem_of_app, IH, list_elem_of_In, in_map_iff. split.
  - intros [(k' & [= -> ->] & Hk)|[[id Hid] Hk]].
    + apply in_seq in Hk. split; [|lia]. exists i. by left.
    + split; [|done]. exists id. by right.
  - intros [[id Hid] Hk]. apply elem_of_cons in Hid as [[= -> ->]|Hid]; [|eauto].
    left. exists k. split; [done|]. apply in_seq. lia.
Qed.

Lemma capable_app ad f g id :
  capable (ad ++ [(g, id)]) f =
  if decide (g = f /\ id <> "") then {[ id ]} ∪ capable ad f else capable ad f.
Proof.
  apply leibniz_equiv. unfold capable. rewrite filter_app, map_app, filter_cons, filter_nil.
  simpl. case_decide; set_solver.
Qed.

Lemma capable_none ad f : (~ exists id, (f, id) ∈ ad) -> capable ad f = ∅.
Proof.
  intros Hn. apply leibniz_equiv. intros id. unfold capable.
  rewrite elem_of_list_to_set, list_elem_of_In, in_map_iff. split; [|done].
  intros ([g i] & <- & Hin%list_elem_of_In). apply list_elem_of_filter in Hin as [[<- _] Hin].
  destruct Hn. by exists i.
Qed.

Lemma Add_file_fresh npart id ad p f :
  0 < npart -> fresh npart ad p ->
  exists p', Add_file npart id p f = Ok p' /\ fresh npart (ad ++ [(f.(Workload.filename), id)]) p' /\
    same_config p p'.
Proof.
  intros Hn [H1 H2 H3 H4]. unfold Add_file. set (fn := Workload.filename f).
  assert (default (mkTask ∅ [] 0) (p.(task_) !! fn) = mkTask (capable ad fn)
     (if p.(task_) !! fn then replicate npart 0%Z else []) 0) as ->.
  { destruct (task_ p !! fn) as [t|] eqn:Ht; simpl; [by apply H1|].
    rewrite capable_none; [done|]. rewrite <- H2, Ht. by intros [? ?]. }
  simpl. set (tr := if task_ p !! fn then replicate npart 0%Z else []).
  assert (match tr with [] => replicate npart 0%Z | _ => tr end = replicate npart 0%Z) as ->.
  { subst tr. destruct (task_ p !! fn), npart; (lia || done). }
  rewrite length_replicate, check_true by by apply bool_decide_eq_true. simpl.
  eexists. split; [done|]. split; [|done]. split; simpl; [| |done..].
  - intros g t. rewrite capable_app, lookup_insert.
    destruct (decide (fn = g)) as [<-|Hne]; simpl.
    + intros [= <-]. f_equal. repeat case_decide; tauto.
    + rewrite decide_False by tauto. apply H1.
  - intros g. rewrite lookup_insert. case_decide as E.
    + split; [|done]. intros _. exists id. subst g. set_solver.
    + rewrite H2. split; intros [i Hi]; exists i; set_solver.
Qed.

Lemma Add_fresh npart id files ad p :
  0 < npart -> fresh npart ad p ->
  exists p', Add files npart id p = Ok p' /\
    fresh npart (ad ++ map (fun f => (f.(Workload.filename), id)) files) p' /\
    p'.(inited_) = true /\ p'.(num_file_per_wl_) = p.(num_file_per_wl_).
Proof.
  intros Hn Hf. unfold Add.
  assert (fresh npart ad (set_inited true p)) as Hf' by by destruct Hf.
  change (p.(num_file_per_wl_)) with ((set_inited true p).(num_file_per_wl_)).
  assert ((set_inited true p).(inited_) = true) as Hi by done. revert Hf' Hi.
  generalize (set_inited true p). clear Hf. revert ad.
  induction files as [|f files IH]; intros ad q Hf Hi; simpl.
  { exists q. rewrite app_nil_r. done. }
  destruct (Add_file_fresh npart id ad q f Hn Hf) as (p1 & -> & Hf1 & Hc1 & _ & Hc2). simpl.
  destruct (IH _ p1 Hf1) as (p2 & -> & Hf2 & Hi2 & Hc); [congruence|].
  exists p2. split; [done|]. rewrite <- app_assoc in Hf2. simpl in Hf2.
  split; [done|]. split; [done|congruence].
Qed.

Lemma dispatch_fresh npart adds p :
  0 < npart ->
  exists p', dispatch npart adds p = Ok p' /\ fresh npart (added adds) p' /\
    (adds <> [] -> p'.(inited_) = true) /\ p'.(num_file_per_wl_) = p.(num_file_per_wl_).
Proof.
  intros Hn. unfold dispatch.
  enough (forall ad q, fresh npart ad q -> exists p',
    foldM (fun p fi => Add fi.1 npart fi.2 p) adds q = Ok p' /\
    fresh npart (ad ++ added adds) p' /\ (adds <> [] \/ q.(inited_) = true -> p'.(inited_) = true) /\
    p'.(num_file_per_wl_) = q.(num_file_per_wl_)) as Hgen.
  { destruct (Hgen [] (Clear p)) as (p' & ? & ? & ? & ?); [|exists p'; split_and!; auto].
    split; simpl; try done. intros f. rewrite lookup_empty. split; [by intros [? ?]|].
    intros [id Hid]. by apply elem_of_nil in Hid. }
  induction adds as [|[files id] adds IH]; intros ad q Hf; simpl.
  { exists q. rewrite app_nil_r. split_and!; try done. by intros [|]. }
  destruct (Add_fresh npart id files ad q Hn Hf) as (p1 & -> & Hf1 & Hi & Hc). simpl.
  destruct (IH _ p1 Hf1) as (p2 & -> & Hf2 & Hi2 & Hc2).
  exists p2. rewrite <- app_assoc in Hf2. split_and!; try done; [|congruence].
  intros _. apply Hi2. by right.
Qed.

Lemma fresh_live npart ad p :
  0 < npart -> fresh npart ad p -> live (capable ad) (parts npart ad) [] p.
Proof.
  intros Hn [H1 H2 H3 H4]. unfold live. rewrite H3.
  assert (forall f t k v, p.(task_) !! f = Some t -> t.(track) !! k = Some v ->
    v = 0%Z /\ k < npart) as Hz.
  { intros f t k v ->%H1 Hv. simpl in Hv. by apply lookup_replicate in Hv. }
  split; [split|split|done]; try done.
  - intros f t ->%H1. unfold track_ok, count2. simpl. rewrite length_replicate.
    split; [apply Forall_replicate; auto|]. split; [|lia]. clear. induction npart; [done|].
    simpl. by rewrite filter_cons.
  - intros a t Ha. by apply elem_of_nil in Ha.
  - constructor.
  - intros f t k Ht Hk. by destruct (Hz f t k 1%Z Ht Hk).
  - constructor.
  - intros f k Hk. by apply elem_of_nil in Hk.
  - intros f t k v Ht Hk. destruct (Hz f t k v Ht Hk) as [-> ?]. split.
    + apply elem_of_parts. split; [|done]. apply H2. eauto.
    + split; [done|]. by intros ?%elem_of_nil.
  - intros f k [Hid Hk]%elem_of_parts _. apply H2 in Hid as [t Ht].
    exists t. split; [done|]. rewrite (H1 _ _ Ht). simpl. by rewrite length_replicate.
  - intros a Ha. by apply elem_of_nil in Ha.
  - intros f t ->%H1. done.
Qed.

(** ** Progress *)

Lemma avail_pos t k : t.(track) !! k = Some 0%Z -> 0 < avail t.
Proof.
  intros Hk. unfold avail. apply list_elem_of_lookup_2 in Hk.
  assert (0%Z ∈ filter (fun v => v = 0%Z) t.(track)) as Hin by by apply list_elem_of_filter.
  destruct (filter _ _); [by apply elem_of_nil in Hin|simpl; lia].
Qed.

Lemma sum_list_elem (n : nat) l : n ∈ l -> n <= sum_list l.
Proof. induction 1; simpl; lia. Qed.

(** A part that is neither finished nor on the way can be handed to a node that
    may work on its file. *)
Lemma live_available cap all fin p id f k :
  live cap all fin p -> (f, k) ∈ all -> (f, k) ∉ fin -> (f, k) ∉ map part p.(assigned_) ->
  cap f = ∅ \/ id ∈ cap f ->
  0 < count_available id (order p.(task_)).
Proof.
  intros [Hag Hcov _] Ha Hf Hw Hc.
  destruct (cov_all _ _ _ _ _ Hcov f k Ha Hf) as (t & Ht & Hl).
  destruct (lookup_lt_is_Some_2 _ _ Hl) as [v Hv].
  pose proof (agree_track _ _ Hag _ _ Ht) as Hok.
  assert (v = 0%Z) as ->.
  { destruct Hok as (Hall & _). rewrite Forall_lookup in Hall.
    destruct (Hall _ _ Hv) as [|[->| ->]]; [done|..]; exfalso.
    - destruct (agree_cover _ _ Hag _ _ _ Ht Hv) as (a & Hin & Ea).
      apply Hw. rewrite <- Ea. apply list_elem_of_In, in_map. by apply list_elem_of_In.
    - by apply Hf, (cov_table _ _ _ _ _ Hcov _ _ _ _ Ht Hv). }
  rewrite count_available_sum. apply avail_pos in Hv.
  assert (skip id t = false) as Hsk.
  { unfold skip. rewrite (cov_node _ _ _ _ _ Hcov _ _ Ht).
    destruct Hok as (_ & _ & ?). repeat case_bool_decide; simpl; try done; try lia; tauto. }
  eapply Nat.lt_le_trans; [exact Hv|]. apply sum_list_elem.
  apply list_elem_of_In, in_map_iff. exists (f, t). simpl. rewrite Hsk. split; [done|].
  apply list_elem_of_In. rewrite order_perm. by apply elem_of_map_to_list.
Qed.

Lemma finish_all_length fin l : length (finish_all fin l) = length fin + length l.
Proof.
  unfold finish_all. revert fin. induction l as [|a l IH]; intros fin; simpl; [lia|].
  rewrite IH. simpl. lia.
Qed.

Lemma live_length cap all fin p : live cap all fin p -> length fin <= size all.
Proof.
  intros [_ Hcov _]. rewrite <- (size_list_to_set (C := gset (string * nat)) fin) by apply Hcov.
  apply subseteq_size. intros [f k]. rewrite elem_of_list_to_set. apply Hcov.
Qed.

(** One node that asks for work and finishes it, [n] times. *)
Definition rounds (id : string) (rands : nat -> nat) (nows : nat -> D) (now : Assigned -> D)
    (n : nat) : list op :=
  mjoin (replicate n [OpGet id rands nows; OpFinish id now]).

Lemma round_live cap all fin p id rands nows now :
  live cap all fin p -> p.(assigned_) = [] -> 0 < p.(num_file_per_wl_) ->
  (forall f k, (f, k) ∈ all -> cap f = ∅ \/ id ∈ cap f) ->
  exists fin' p', run [OpGet id rands nows; OpFinish id now] (fin, p) = Ok (fin', p') /\
    live cap all fin' p' /\ same_config p p' /\ p'.(assigned_) = [] /\
    size all `min` S (length fin) <= length fin'.
Proof.
  intros Hl Has Hnum Hcap. unfold run. simpl. unfold Get.
  destruct (Get_loop_live cap all fin id rands nows p.(num_file_per_wl_) [] p Hl)
    as (new & p1 & -> & Ha1 & Hid & _ & Hne & Hl1 & Hc1).
  destruct (Set_live cap all fin id true now p1 Hl1) as (p2 & E & H1 & Ha2 & H2).
  unfold Finish. simpl. rewrite E. simpl. eexists _, p2. split; [done|]. split; [done|].
  rewrite Has in Ha1. simpl in Ha1. subst new.
  assert (filter (fun a => a.(a_node) = id) (assigned_ p1) = assigned_ p1) as Hall.
  { by apply filter_all. }
  split; [by eapply same_config_trans|]. split.
  { rewrite Ha2. apply filter_none. eapply Forall_impl; [exact Hid|]. by intros a Ha Hn. }
  rewrite Hall, finish_all_length.
  destruct (decide (size all <= length fin)); [lia|].
  assert (exists x, x ∈ all /\ x ∉ fin) as ([f k] & Hin & Hnf).
  { destruct (set_choose_or_empty (all ∖ list_to_set fin)) as [[x Hx]|Hs].
    - apply elem_of_difference in Hx as [? Hx]. exists x. by rewrite elem_of_list_to_set in Hx.
    - assert (all ⊆ list_to_set fin) as Hsub by set_solver.
      apply subseteq_size in Hsub. rewrite size_list_to_set in Hsub by apply Hl. lia. }
  assert (assigned_ p1 <> []); [|destruct (assigned_ p1); [done|simpl; lia]].
  apply Hne; [done|]. eapply live_available; try done; [|by eapply Hcap].
  rewrite Has. simpl. by intros ?%elem_of_nil.
Qed.

Lemma rounds_live cap all fin p id rands nows now n :
  live cap all fin p -> p.(assigned_) = [] -> 0 < p.(num_file_per_wl_) ->
  (forall f k, (f, k) ∈ all -> cap f = ∅ \/ id ∈ cap f) ->
  exists fin' p', run (rounds id rands nows now n) (fin, p) = Ok (fin', p') /\
    live cap all fin' p' /\ same_config p p' /\
    size all `min` (n + length fin) <= length fin'.
Proof.
  revert fin p. induction n as [|n IH]; intros fin p Hl Has Hnum Hcap.
  { exists fin, p. split_and!; try done. lia. }
  destruct (round_live cap all fin p id rands nows now) as (fin1 & p1 & E1 & Hl1 & Hc1 & Ha1 & Hm1);
    [done..|].
  destruct (IH fin1 p1) as (fin2 & p2 & E2 & Hl2 & Hc2 & Hm2); [done..|by destruct Hc1 as (_&_&->)|done|].
  exists fin2, p2. split; [|split_and!; [done|by eapply same_config_trans|lia]].
  unfold rounds, run in *.
  change (mjoin (replicate (S n) ?l)) with (l ++ mjoin (replicate n l)).
  rewrite foldM_app, E1. exact E2.
Qed.

(** ** Properties *)

(** C3: whatever sequence of [Get], [Finish], [Reset] and straggler sweeps
    follows the start of a dispatch, no operation aborts, no part finishes
    twice and no part is on the way twice or after it finished,
    [num_finished()] counts the finished parts, and [IsFinished()] holds
    exactly when every part of every file has finished. *)
Theorem dispatch_exactly_once npart adds p0 ops :
  0 < npart -> adds <> [] ->
  exists p fin p', dispatch npart adds p0 = Ok p /\ run ops ([], p) = Ok (fin, p') /\
    NoDup (fin ++ map part p'.(assigned_)) /\
    (forall x, x ∈ fin ++ map part p'.(assigned_) -> x ∈ parts npart (added adds)) /\
    num_finished p' = Z.of_nat (length fin) /\
    (IsFinished p' = true <-> fin ≡ₚ elements (parts npart (added adds))).
Proof.
  intros Hn Hne. destruct (dispatch_fresh npart adds p0 Hn) as (p & E & Hf & Hi & _).
  destruct (run_live _ _ ops [] p (fresh_live _ _ _ Hn Hf)) as (fin & p' & Er & Hl & Hc).
  exists p, fin, p'. split; [done|]. split; [done|].
  destruct Hl as [Hag Hcov Hnum]. pose proof Hag as [A1 A2 A3 A4].
  assert (forall f k, (f, k) ∈ map part (assigned_ p') ->
    (f, k) ∈ parts npart (added adds) /\ (f, k) ∉ fin) as Hway.
  { intros f k Hin. apply list_elem_of_In, in_map_iff in Hin as (a & [= <- <-] & Ha%list_elem_of_In).
    destruct (cov_task _ _ _ _ _ Hcov a Ha) as [t Ht].
    destruct (cov_table _ _ _ _ _ Hcov _ _ _ _ Ht (A2 _ _ Ha Ht)) as [? Hf2].
    split; [done|]. intros ?%Hf2. done. }
  split_and!.
  - apply NoDup_app. split_and!; [apply Hcov| |done]. intros [f k] Hx Hw. by apply (Hway f k).
  - intros [f k] [Hx|Hx]%elem_of_app; [by apply Hcov|by apply Hway].
  - done.
  - apply live_finished with (cap := capable (added adds)); [by split|].
    destruct Hc as (-> & _ & _). by apply Hi.
Qed.

(** In a dispatch under way, a call of [Get] hands out parts that exist,
    that are neither finished nor on the way and that the node may work on,
    each one once; and it hands out at least one when there is such a part. *)
Theorem Get_hands_out npart adds p0 ops p fin p' id rands nows wl p'' :
  0 < npart -> dispatch npart adds p0 = Ok p -> run ops ([], p) = Ok (fin, p') ->
  Get id rands nows p' = (wl, p'') ->
  let free x := x ∈ parts npart (added adds) /\ x ∉ fin /\ x ∉ map part p'.(assigned_) /\
    (capable (added adds) x.1 = ∅ \/ id ∈ capable (added adds) x.1) in
  let got := map (fun f => (f.(Workload.filename), Z.to_nat f.(Workload.k))) wl in
  NoDup got /\ Forall free got /\
  (0 < p'.(num_file_per_wl_) -> (exists x, free x) -> wl <> []).
Proof.
  intros Hn Ed Er Eg free got.
  destruct (dispatch_fresh npart adds p0 Hn) as (q & E & Hf & Hi & _).
  assert (q = p) as -> by congruence. clear E.
  destruct (run_live _ _ ops [] p (fresh_live _ _ _ Hn Hf)) as (fin1 & p1 & Er1 & Hl & Hc).
  rewrite Er1 in Er. injection Er as -> ->.
  destruct (Get_loop_live _ _ fin id rands nows p'.(num_file_per_wl_) [] p' Hl)
    as (new & p2 & E2 & Ha & Hid & Hcap & Hne & Hl2 & _).
  unfold Get in Eg. rewrite E2 in Eg. injection Eg as <- ->. simpl in got.
  assert (got = map part new) as ->.
  { subst got. rewrite map_map. apply map_ext. intros a. unfold part, Assigned_Get. simpl.
    by rewrite Nat2Z.id. }
  destruct Hl2 as [Hag2 Hcov2 _]. pose proof (agree_nodup _ _ Hag2) as Hnd.
  rewrite Ha, map_app in Hnd. apply NoDup_app in Hnd as (_ & Hdis & Hnd).
  split; [done|]. split.
  - apply Forall_forall. intros x Hx. pose proof Hx as Hx0.
    apply list_elem_of_In, in_map_iff in Hx as (a & <- & Hin%list_elem_of_In).
    assert (a ∈ assigned_ p'') as Hin2 by (rewrite Ha; apply elem_of_app; by right).
    destruct (cov_task _ _ _ _ _ Hcov2 a Hin2) as [t Ht].
    destruct (cov_table _ _ _ _ _ Hcov2 _ _ _ _ Ht (agree_one _ _ Hag2 _ _ Hin2 Ht)) as [? Hf2].
    split; [done|]. split; [intros ?%Hf2; done|]. split.
    + intros Hold. by apply (Hdis _ Hold).
    + rewrite Forall_forall in Hcap. by apply Hcap.
  - intros Hpos ([f k] & Hin & Hnf & Hnw & Hel). intros Hnil. apply map_eq_nil in Hnil as ->.
    apply Hne; [done| |done]. by eapply live_available.
Qed.

(** C39: a dispatch never gets stuck: when nothing is on the way, one node that
    may work on every file and keeps asking for work and finishing it completes
    the dispatch after as many rounds as there are parts. *)
Theorem dispatch_completes npart adds p0 ops p fin p' id rands nows now :
  0 < npart -> adds <> [] -> 0 < p0.(num_file_per_wl_) ->
  dispatch npart adds p0 = Ok p -> run ops ([], p) = Ok (fin, p') ->
  p'.(assigned_) = [] ->
  (forall f, capable (added adds) f = ∅ \/ id ∈ capable (added adds) f) ->
  exists fin' p'', run (rounds id rands nows now (size (parts npart (added adds)))) (fin, p')
      = Ok (fin', p'') /\
    IsFinished p'' = true /\ num_finished p'' = Z.of_nat (size (parts npart (added adds))).
Proof.
  intros Hn Hne Hpos Ed Er Has Hcap.
  destruct (dispatch_fresh npart adds p0 Hn) as (q & E & Hf & Hi & Hnw).
  assert (q = p) as -> by congruence. clear E.
  destruct (run_live _ _ ops [] p (fresh_live _ _ _ Hn Hf)) as (fin1 & p1 & Er1 & Hl & Hc).
  rewrite Er1 in Er. injection Er as -> ->. destruct Hc as (Hc1 & _ & Hc3).
  destruct (rounds_live _ _ fin p' id rands nows now (size (parts npart (added adds))) Hl)
    as (fin2 & p2 & E2 & Hl2 & (Hi2 & _) & Hm); [done|congruence|by intros|].
  pose proof (live_length _ _ _ _ Hl2) as Hle.
  exists fin2, p2. split; [done|]. split.
  - eapply live_finished; [done|rewrite Hi2, Hc1; by apply Hi|].
    destruct Hl2 as [_ Hcov _].
    apply submseteq_length_Permutation.
    + apply NoDup_submseteq; [apply Hcov|]. intros [f k] Hin. apply elem_of_elements. by apply Hcov.
    + change (length (elements ?X)) with (size X). lia.
  - unfold num_finished. rewrite (tr_num _ _ _ _ _ Hl2). lia.
Qed.

End Pool.

(** ** A concrete dispatch: a file for all workers and one of worker W1, two
    parts each; W0 takes a part and dies, W1 takes two and finishes them. *)
Definition demo_pool : t (D := SpecFloat.spec_float) :=
  mk ∅ [] false false [] 0 1.
Definition demo_file (f : string) : Workload.File := Workload.mkFile f "" 0 0.
Definition demo_adds : list (list Workload.File * string) :=
  [([demo_file "a"], ""); ([demo_file "b"], "W1")].
Definition demo_ops : list (op (D := SpecFloat.spec_float)) :=
  let z := SpecFloat.S754_zero false in
  [OpGet "W0" (fun _ => 0) (fun _ => z); OpGet "W1" (fun _ => 0) (fun _ => z);
   OpReset "W0" (fun _ => z); OpGet "W1" (fun _ => 0) (fun _ => z); OpFinish "W1" (fun _ => z)].
Definition demo_start := default demo_pool
  (match @dispatch _ 2 demo_adds demo_pool with Ok p => Some p | Fail _ => None end).
Definition demo_mid :=
  default ([], demo_pool)
    (match @run _ binary64 map_to_list demo_ops ([], demo_start) with Ok s => Some s | Fail _ => None end).

Lemma dispatch_exactly_once_witness :
  exists p fin p', dispatch 2 demo_adds demo_pool = Ok p /\
    @run _ binary64 map_to_list demo_ops ([], p) = Ok (fin, p') /\
    NoDup (fin ++ map part p'.(assigned_)) /\
    (forall x, x ∈ fin ++ map part p'.(assigned_) -> x ∈ parts 2 (added demo_adds)) /\
    num_finished p' = Z.of_nat (length fin) /\
    (IsFinished p' = true <-> fin ≡ₚ elements (parts 2 (added demo_adds))).
Proof.
  apply (@dispatch_exactly_once _ binary64 map_to_list (fun m => reflexivity _) 2 demo_adds
    demo_pool demo_ops); [lia|discriminate].
Defined.

Lemma Get_hands_out_witness :
  let '(wl, p) := @Get _ map_to_list "W2" (fun _ => 0) (fun _ => SpecFloat.S754_zero false) demo_mid.2 in
  let free x := x ∈ parts 2 (added demo_adds) /\ x ∉ demo_mid.1 /\
    x ∉ map part demo_mid.2.(assigned_) /\
    (capable (added demo_adds) x.1 = ∅ \/ "W2" ∈ capable (added demo_adds) x.1) in
  let got := map (fun f => (f.(Workload.filename), Z.to_nat f.(Workload.k))) wl in
  NoDup got /\ Forall free got /\
  (0 < demo_mid.2.(num_file_per_wl_) -> (exists x, free x) -> wl <> []).
Proof.
  destruct (Get _ _ _ _ _) as [wl p] eqn:E.
  apply (@Get_hands_out _ binary64 map_to_list (fun m => reflexivity _) 2 demo_adds
    demo_pool demo_ops demo_start demo_mid.1 demo_mid.2 "W2" (fun _ => 0)
    (fun _ => SpecFloat.S754_zero false) wl p); [lia|vm_compute; reflexivity..|exact E].
Defined.

Lemma dispatch_completes_witness :
  let z := SpecFloat.S754_zero false in
  exists fin' p', @run _ binary64 map_to_list
      (rounds "W1" (fun _ => 0) (fun _ => z) (fun _ => z) (size (parts 2 (added demo_adds))))
      (demo_mid.1, demo_mid.2)
      = Ok (fin', p') /\
    IsFinished p' = true /\ num_finished p' = Z.of_nat (size (parts 2 (added demo_adds))).
Proof.
  apply (@dispatch_completes _ binary64 map_to_list (fun m => reflexivity _) 2 demo_adds
    demo_pool demo_ops demo_start demo_mid.1 demo_mid.2 "W1");
    [lia|discriminate|simpl; lia|vm_compute; reflexivity..|].
  intros f. unfold capable, added. simpl. rewrite filter_cons, filter_cons, filter_nil.
  simpl. repeat case_decide; simpl; set_solver.
Defined.

End WorkloadPool.
