(* ===== verification/RowBlock.v ===== *)
(** * Blocks of sparse rows

    Models [Row] and [RowBlock] of src/dmlc-core/include/dmlc/data.h and
    [RowBlockContainer] of src/dmlc-core/src/data/row_block.h: a sparse matrix
    in compressed row form, as a view of memory owned elsewhere (the block) or
    as growing vectors (the container). *)
From S2P Require Import Prelude Floats Stream Workload.
From Stdlib Require QArith_base.

(** ** Pointers

    A [const T*] is the part of its array from the element it points to on, or
    [NULL]. *)
Definition ptr (A : Type) := option (list A).
Definition ptr_add {A} (p : ptr A) (n : nat) : ptr A := option_map (drop n) p.
Definition ptr_at {A} (p : ptr A) (i : nat) : outcome A := read_at (default [] p) i.

(** [memcpy] of [n] elements from [p]. *)
Definition ptr_read {A} (p : ptr A) (n : nat) : outcome (list A) :=
  if decide (n <= length (default [] p)) then Ok (take n (default [] p)) else Fail OutOfRange.

(** [BeginPtr(vec)] *)
Definition BeginPtr {A} (v : list A) : ptr A := match v with [] => None | _ => Some v end.

Section Blocks.
Context {F : Type} `{Float F}.

(** [struct Row] *)
Record Row := mkRow {
  r_label : F; r_weight : F; r_length : nat; r_index : ptr Z; r_value : ptr F }.

(** [Row::get_index], [Row::get_value] *)
Definition get_index (r : Row) (i : nat) : outcome Z := ptr_at r.(r_index) i.
Definition get_value (r : Row) (i : nat) : outcome F :=
  match r.(r_value) with None => Ok fone | Some _ => ptr_at r.(r_value) i end.

(** [Row::SDot(weight, size)] *)
Definition SDot (r : Row) (weight : list F) (size : nat) : outcome F :=
  foldM (fun sum i =>
    ix ← ptr_at r.(r_index) i;
    _ ← check (ix <? Z.of_nat size)%Z;
    w ← read_at weight (Z.to_nat ix);
    match r.(r_value) with
    | None => Ok (fadd sum w)
    | Some _ => v ← ptr_at r.(r_value) i; Ok (fadd sum (fmul w v))
    end) (seq 0 r.(r_length)) fzero.

(** [struct RowBlock] *)
Record RowBlock := mkBlock {
  b_size : nat; b_offset : list nat; b_label : ptr F; b_weight : ptr F;
  b_index : ptr Z; b_value : ptr F }.

(** [RowBlock::operator[](rowid)] *)
Definition block_at (b : RowBlock) (rowid : nat) : outcome Row :=
  _ ← check (bool_decide (rowid < b.(b_size)));
  label ← ptr_at b.(b_label) rowid;
  weight ← match b.(b_weight) with
           | Some _ => ptr_at b.(b_weight) rowid
           | None => Ok fone
           end;
  o ← read_at b.(b_offset) rowid;
  o' ← read_at b.(b_offset) (rowid + 1);
  Ok (mkRow label weight (o' - o) (ptr_add b.(b_index) o)
        (match b.(b_value) with None => None | Some _ => ptr_add b.(b_value) o end)).

(** [RowBlock::MemCostBytes()], with [real_t] of 4 bytes and an index type of
    [isz]. *)
Definition MemCostBytes (isz : nat) (b : RowBlock) : outcome nat :=
  let cost := b.(b_size) * (8 + 4) in
  let cost := match b.(b_weight) with Some _ => cost + b.(b_size) * 4 | None => cost end in
  o' ← read_at b.(b_offset) b.(b_size);
  o ← read_at b.(b_offset) 0;
  let ndata := o' - o in
  let cost := match b.(b_index) with Some _ => cost + ndata * isz | None => cost end in
  Ok (match b.(b_value) with Some _ => cost + ndata * 4 | None => cost end).

(** [RowBlock::Slice(begin, end)] *)
Definition Slice (b : RowBlock) (bg ed : nat) : outcome RowBlock :=
  _ ← check (bool_decide (bg <= ed) && bool_decide (ed < b.(b_size)));
  Ok (mkBlock (ed - bg) (drop bg b.(b_offset)) (ptr_add b.(b_label) bg)
        (match b.(b_weight) with Some _ => ptr_add b.(b_weight) bg | None => None end)
        b.(b_index) b.(b_value)).

(** [struct RowBlockContainer] *)
Record Container := mkCont {
  offset : list nat; label : list F; weight : list F; index : list Z; value : list F;
  max_index : Z }.

(** [Clear()] *)
Definition Clear : Container := mkCont [0] [] [] [] [] 0.

(** [Size()], the memory estimate *)
Definition Size (c : Container) : nat := length c.(offset) - 1.
Definition ContMemCostBytes (isz : nat) (c : Container) : nat :=
  length c.(offset) * 8 + length c.(label) * 4 + length c.(weight) * 4 +
  length c.(index) * isz + length c.(value) * 4.

(** The largest value of the index type. *)
Variable imax : Z.

(** Copy of [n] indices with their range check, and the running maximum. *)
Definition copy_index (p : ptr Z) (n : nat) (st : list Z * Z) : outcome (list Z * Z) :=
  foldM (fun st i =>
    ix ← ptr_at p i;
    _ ← check (ix <=? imax)%Z;
    Ok (st.1 ++ [ix], Z.max st.2 ix)) (seq 0 n) st.

(** [Push(Row)] *)
Definition Push_row (row : Row) (c : Container) : outcome Container :=
  '(ix, mx) ← copy_index row.(r_index) row.(r_length) (c.(index), c.(max_index));
  vs ← match row.(r_value) with
       | None => Ok []
       | Some _ => ptr_read row.(r_value) row.(r_length)
       end;
  Ok (mkCont (c.(offset) ++ [length ix]) (c.(label) ++ [row.(r_label)])
        (c.(weight) ++ [row.(r_weight)]) ix (c.(value) ++ vs) mx).

(** The loop of [Push(RowBlock)] that writes [ihead[i]], with
    [ihead = BeginPtr(index) + at]. *)
Definition fill_index (p : ptr Z) (n at_ : nat) (st : list Z * Z) : outcome (list Z * Z) :=
  foldM (fun st i =>
    ix ← ptr_at p i;
    _ ← check (ix <=? imax)%Z;
    ixs ← write_at st.1 (at_ + i) ix;
    Ok (ixs, Z.max st.2 ix)) (seq 0 n) st.

(** The last loop of [Push(RowBlock)]: [ohead[i] = shift + batch.offset[i+1] -
    batch.offset[0]]. *)
Definition fill_offset (b : RowBlock) (shift o0 at_ : nat) (off : list nat) : outcome (list nat) :=
  foldM (fun off i =>
    o ← read_at b.(b_offset) (i + 1);
    write_at off (at_ + i) (shift + o - o0)) (seq 0 b.(b_size)) off.

(** [Push(RowBlock)] *)
Definition Push_block (b : RowBlock) (c : Container) : outcome Container :=
  let size := length c.(label) in
  lb ← ptr_read b.(b_label) b.(b_size);
  wt ← match b.(b_weight) with None => Ok [] | Some _ => ptr_read b.(b_weight) b.(b_size) end;
  o' ← read_at b.(b_offset) b.(b_size);
  o ← read_at b.(b_offset) 0;
  let ndata := o' - o in
  back ← read_at c.(offset) (length c.(offset) - 1);
  '(ix, mx) ← fill_index b.(b_index) ndata back
                (c.(index) ++ replicate ndata 0%Z, c.(max_index));
  vs ← match b.(b_value) with None => Ok [] | Some _ => ptr_read b.(b_value) ndata end;
  shift ← read_at c.(offset) size;
  off ← fill_offset b shift o (size + 1) (c.(offset) ++ replicate b.(b_size) 0);
  Ok (mkCont off (c.(label) ++ lb) (c.(weight) ++ wt) ix (c.(value) ++ vs) mx).

(** [GetBlock()] *)
Definition GetBlock (c : Container) : outcome RowBlock :=
  _ ← check (bool_decide (length c.(label) + 1 = length c.(offset)));
  back ← read_at c.(offset) (length c.(offset) - 1);
  _ ← check (bool_decide (back = length c.(index)));
  _ ← check (bool_decide (back = length c.(value)) || bool_decide (length c.(value) = 0));
  Ok (mkBlock (length c.(offset) - 1) c.(offset) (BeginPtr c.(label)) (BeginPtr c.(weight))
        (BeginPtr c.(index)) (BeginPtr c.(value))).

(** ** What a container and a block hold *)

(** A row as data: its label, its weight if it has one, its features and their
    values if they have some. *)
Record arow := mkArow {
  a_label : F; a_weight : list F; a_index : list Z; a_value : list F }.

Definition nfeat (r : arow) : nat := length r.(a_index).

(** The container [c] holds exactly the rows [rs]. *)
Record holds (c : Container) (rs : list arow) : Prop := {
  h_offset : c.(offset) = psums 0 (map nfeat rs);
  h_label : c.(label) = map a_label rs;
  h_weight : c.(weight) = concat (map a_weight rs);
  h_index : c.(index) = concat (map a_index rs);
  h_value : c.(value) = concat (map a_value rs)
}.

(** The block [b] shows the rows [rs]: its row pointers start at [o0], its
    features and values are found [d] elements after the pointers it has. *)
Record shows (o0 d : nat) (b : RowBlock) (rs : list arow) : Prop := {
  s_size : b.(b_size) = length rs;
  s_offset : take (S (length rs)) b.(b_offset) = psums o0 (map nfeat rs);
  s_label : take (length rs) (default [] b.(b_label)) = map a_label rs;
  s_weight : match b.(b_weight) with
             | None => Forall (fun r => r.(a_weight) = []) rs
             | Some w => Forall (fun r => length r.(a_weight) = 1) rs /\
                         take (length rs) w = concat (map a_weight rs)
             end;
  s_index : take (sum_list (map nfeat rs)) (drop d (default [] b.(b_index))) =
            concat (map a_index rs);
  s_value : match b.(b_value) with
            | None => Forall (fun r => r.(a_value) = []) rs
            | Some v => Forall (fun r => length r.(a_value) = nfeat r) rs /\
                        take (sum_list (map nfeat rs)) (drop d v) = concat (map a_value rs)
            end
}.

(** Every row has values or none has; the same for weights. *)
Definition uniform (rs : list arow) : Prop :=
  (Forall (fun r => r.(a_value) = []) rs \/ Forall (fun r => length r.(a_value) = nfeat r) rs) /\
  (Forall (fun r => r.(a_weight) = []) rs \/ Forall (fun r => length r.(a_weight) = 1) rs).

Definition in_range (rs : list arow) : Prop :=
  Forall (fun r => Forall (fun ix => ix <= imax)%Z r.(a_index)) rs.

Lemma map_length_nfeat (f : arow -> list F) rs :
  Forall (fun r => length (f r) = nfeat r) rs -> map length (map f rs) = map nfeat rs.
Proof. induction 1; simpl; congruence. Qed.

Lemma length_a_index rs : length (concat (map a_index rs)) = sum_list (map nfeat rs).
Proof. rewrite length_concat_sum, map_map. done. Qed.

Lemma length_a_value rs :
  Forall (fun r => length r.(a_value) = nfeat r) rs ->
  length (concat (map a_value rs)) = sum_list (map nfeat rs).
Proof. intros Hv. by rewrite length_concat_sum, (map_length_nfeat a_value). Qed.

Lemma concat_nil (f : arow -> list F) rs :
  Forall (fun r => f r = []) rs -> concat (map f rs) = [].
Proof. induction 1 as [|r rs E]; simpl; [done|]. by rewrite E. Qed.

Lemma length_a_weight rs :
  Forall (fun r => length r.(a_weight) = 1) rs -> length (concat (map a_weight rs)) = length rs.
Proof. induction 1; simpl; [done|]. rewrite length_app. lia. Qed.

Lemma holds_sizes c rs :
  holds c rs ->
  length c.(offset) = S (length rs) /\ length c.(label) = length rs /\
  c.(offset) !! length rs = Some (length c.(index)) /\
  length c.(index) = sum_list (map nfeat rs).
Proof.
  intros [-> -> _ -> _]. rewrite psums_length, !length_map, length_a_index.
  split_and!; try done. rewrite psums_lookup by by rewrite length_map.
  by rewrite firstn_all2 by by rewrite length_map.
Qed.

Lemma holds_Clear : holds Clear [].
Proof. by split. Qed.

(** Reading the elements of an array one after the other. *)
Lemma copy_index_spec p n st l :
  take n (default [] p) = l -> length l = n -> Forall (fun ix => ix <= imax)%Z l ->
  copy_index p n st = Ok (st.1 ++ l, foldl Z.max st.2 l).
Proof.
  intros Hl Hn Hm. unfold copy_index.
  destruct (foldM_seq (fun st i => ix ← ptr_at p i; _ ← check (ix <=? imax)%Z;
      Ok (st.1 ++ [ix], Z.max st.2 ix))
    (fun i s => s = (st.1 ++ take i l, foldl Z.max st.2 (take i l))) 0 n st) as (s' & -> & ->).
  - simpl. rewrite app_nil_r. by destruct st.
  - intros i s Hi ->. destruct (lookup_lt_is_Some_2 l i) as [x Hx]; [lia|].
    exists (st.1 ++ take (i + 1) l, foldl Z.max st.2 (take (i + 1) l)).
    unfold ptr_at, read_at. pose proof Hx as Hx2. rewrite <- Hl, lookup_take in Hx2 by lia.
    case_decide; [|lia]. rewrite Hx2. simpl.
    rewrite Forall_lookup in Hm. specialize (Hm _ _ Hx). rewrite check_true by lia. simpl.
    rewrite Nat.add_1_r, (take_S_r _ _ _ Hx), app_assoc, foldl_app. done.
  - rewrite Nat.add_0_l, firstn_all2 by lia. done.
Qed.

Lemma fill_index_spec p n ixs mx l :
  take n (default [] p) = l -> length l = n -> Forall (fun ix => ix <= imax)%Z l ->
  fill_index p n (length ixs) (ixs ++ replicate n 0%Z, mx) = Ok (ixs ++ l, foldl Z.max mx l).
Proof.
  intros Hl Hn Hm. unfold fill_index.
  destruct (foldM_seq (fun st i => ix ← ptr_at p i; _ ← check (ix <=? imax)%Z;
      ixs' ← write_at st.1 (length ixs + i) ix; Ok (ixs', Z.max st.2 ix))
    (fun i s => s = (ixs ++ take i l ++ replicate (n - i) 0%Z, foldl Z.max mx (take i l)))
    0 n (ixs ++ replicate n 0%Z, mx)) as (s' & -> & ->).
  - simpl. by rewrite Nat.sub_0_r.
  - intros i s Hi ->. destruct (lookup_lt_is_Some_2 l i) as [x Hx]; [lia|].
    eexists. split.
    + unfold ptr_at, read_at. pose proof Hx as Hx2. rewrite <- Hl, lookup_take in Hx2 by lia.
      case_decide; [|lia]. rewrite Hx2. simpl.
      rewrite Forall_lookup in Hm. specialize (Hm _ _ Hx). rewrite check_true by lia. simpl.
      rewrite write_at_lt by (rewrite !length_app, length_take, length_replicate; lia).
      reflexivity.
    + assert (length (take i l) = i) as Hti by (rewrite length_take; lia).
      rewrite Nat.add_1_r, (take_S_r _ _ _ Hx), foldl_app. simpl. f_equal.
      rewrite insert_app_r, <- app_assoc. f_equal.
      replace i with (length (take i l) + 0) at 1 by lia. rewrite insert_app_r. f_equal.
      by replace (n - i) with (S (n - S i)) by lia.
  - rewrite Nat.add_0_l, firstn_all2, Nat.sub_diag, app_nil_r by lia. done.
Qed.

Lemma in_range_concat rs :
  in_range rs -> Forall (fun ix => ix <= imax)%Z (concat (map a_index rs)).
Proof. induction 1; simpl; [constructor|]. by apply Forall_app. Qed.

Lemma ptr_read_spec {A} (p : ptr A) n l :
  take n (default [] p) = l -> length l = n -> ptr_read p n = Ok l.
Proof.
  intros <- Hn. unfold ptr_read. rewrite decide_True; [done|].
  rewrite length_take in Hn. lia.
Qed.

Lemma read_take {A} n (l1 l2 : list A) i x :
  take n l1 = l2 -> i < n -> l2 !! i = Some x -> read_at l1 i = Ok x.
Proof.
  intros <- Hi Hx. apply read_at_Ok. rewrite lookup_take in Hx by done.
  case_decide; [done|lia].
Qed.

Lemma psums_first s ls : psums s ls !! 0 = Some s.
Proof. by destruct ls. Qed.

Lemma psums_last s ls : psums s ls !! length ls = Some (s + sum_list ls).
Proof. rewrite psums_lookup by done. by rewrite firstn_all. Qed.

Lemma take_lookup {A} n (l1 l2 : list A) i :
  take n l1 = l2 -> i < n -> l1 !! i = l2 !! i.
Proof. intros <- Hi. rewrite lookup_take by done. by case_decide. Qed.

(** The row pointers [Push(RowBlock)] appends. *)
Lemma fill_offset_spec b rs o0 off shift :
  b.(b_size) = length rs ->
  take (S (length rs)) b.(b_offset) = psums o0 (map nfeat rs) ->
  fill_offset b shift o0 (length off) (off ++ replicate (length rs) 0) =
  Ok (off ++ tail (psums shift (map nfeat rs))).
Proof.
  intros Hs Ho. unfold fill_offset. rewrite Hs. set (n := length rs) in *.
  set (new := tail (psums shift (map nfeat rs))).
  assert (forall i, i < n -> new !! i = Some (shift + sum_list (take (i + 1) (map nfeat rs)))) as Hnew.
  { intros i Hi. subst new. rewrite lookup_tail, <- Nat.add_1_r, psums_lookup; [done|].
    rewrite length_map. lia. }
  assert (length new = n) as Hln.
  { pose proof (psums_length shift (map nfeat rs)) as Hp. rewrite length_map in Hp.
    subst new. destruct (psums shift (map nfeat rs)); simpl in *; lia. }
  destruct (foldM_seq (fun l i => o ← read_at (b_offset b) (i + 1);
      write_at l (length off + i) (shift + o - o0))
    (fun i s => s = off ++ take i new ++ replicate (n - i) 0) 0 n
    (off ++ replicate n 0)) as (s' & -> & ->).
  - simpl. by rewrite Nat.sub_0_r.
  - intros i s Hi ->. eexists. split.
    + unfold read_at. rewrite (take_lookup _ _ _ (i + 1) Ho) by lia.
      rewrite psums_lookup by (rewrite length_map; lia). simpl.
      rewrite write_at_lt by (rewrite !length_app, length_take, length_replicate; lia).
      reflexivity.
    + assert (length (take i new) = i) as Hti by (rewrite length_take; lia).
      rewrite insert_app_r. f_equal.
      rewrite (Nat.add_1_r i), (take_S_r _ _ _ (Hnew i ltac:(lia))), <- app_assoc.
      replace i with (length (take i new) + 0) at 1 by lia. rewrite insert_app_r. f_equal.
      replace (n - i) with (S (n - S i)) by lia. simpl. f_equal. rewrite Nat.add_1_r. lia.
  - rewrite Nat.add_0_l, firstn_all2, Nat.sub_diag, app_nil_r by lia. done.
Qed.

Lemma holds_app_offset c rs rs' :
  holds c rs ->
  c.(offset) ++ tail (psums (length c.(index)) (map nfeat rs')) = psums 0 (map nfeat (rs ++ rs')).
Proof.
  intros Hh. destruct (holds_sizes _ _ Hh) as (_ & _ & _ & ->).
  rewrite (h_offset _ _ Hh), map_app, psums_app. done.
Qed.

Lemma Push_block_adds b c rs rs' o0 :
  holds c rs -> shows o0 0 b rs' -> in_range rs' ->
  exists c', Push_block b c = Ok c' /\ holds c' (rs ++ rs') /\
    c'.(max_index) = foldl Z.max c.(max_index) (concat (map a_index rs')).
Proof.
  intros Hh [Hs Ho Hl Hw Hi Hv] Hr.
  destruct (holds_sizes _ _ Hh) as (E1 & E2 & E3 & E4).
  unfold Push_block. rewrite Hs.
  rewrite (ptr_read_spec _ _ _ Hl) by apply length_map. simpl.
  assert (exists wt, match b.(b_weight) with None => Ok [] | Some _ => ptr_read b.(b_weight) (length rs') end
    = Ok wt /\ wt = concat (map a_weight rs')) as (wt & -> & ->).
  { destruct (b_weight b) as [w|] eqn:Ew.
    - destruct Hw as [Hw1 Hw2]. exists (concat (map a_weight rs')). split; [|done].
      apply ptr_read_spec; [exact Hw2|by apply length_a_weight].
    - exists []. split; [done|]. by rewrite concat_nil. }
  simpl. pose proof (psums_last o0 (map nfeat rs')) as Hlast. rewrite length_map in Hlast.
  rewrite (read_take _ _ _ _ _ Ho (Nat.lt_succ_diag_r _) Hlast). simpl.
  rewrite (read_take _ _ _ 0 _ Ho (Nat.lt_0_succ _) (psums_first _ _)). simpl.
  rewrite (Nat.add_comm o0), Nat.add_sub.
  replace (length c.(offset) - 1) with (length rs) by lia.
  rewrite (proj2 (read_at_Ok _ _ _) E3). simpl.
  rewrite drop_0 in Hi.
  rewrite (fill_index_spec _ _ _ _ _ Hi) by (apply length_a_index || by apply in_range_concat).
  simpl.
  assert (exists vs, match b.(b_value) with None => Ok [] | Some _ =>
     ptr_read b.(b_value) (sum_list (map nfeat rs')) end
    = Ok vs /\ vs = concat (map a_value rs')) as (vs & -> & ->).
  { destruct (b_value b) as [v|] eqn:Ev.
    - destruct Hv as [Hv1 Hv2]. exists (concat (map a_value rs')). split; [|done].
      apply ptr_read_spec; [exact Hv2|by apply length_a_value].
    - exists []. split; [done|]. by rewrite concat_nil. }
  simpl. rewrite E2, (proj2 (read_at_Ok _ _ _) E3). simpl.
  replace (length rs + 1) with (length c.(offset)) by lia.
  rewrite (fill_offset_spec b rs' o0) by done. simpl.
  rewrite (holds_app_offset _ _ _ Hh). eexists. split; [done|].
  split; [|done]. split; simpl; [done|..]; rewrite map_app, ?concat_app; f_equal; apply Hh.
Qed.

Lemma Push_block_holds b c rs rs' o0 :
  holds c rs -> shows o0 0 b rs' -> in_range rs' ->
  exists c', Push_block b c = Ok c' /\ holds c' (rs ++ rs').
Proof. intros Hc Hb Hr. destruct (Push_block_adds b c rs rs' o0 Hc Hb Hr) as (c' & E & Hc' & _). by exists c'. Qed.

(** A row of a block. *)
Record row_shows (row : Row) (r : arow) : Prop := {
  rs_label : row.(r_label) = r.(a_label);
  rs_weight : row.(r_weight) = match r.(a_weight) with [] => fone | w :: _ => w end;
  rs_length : row.(r_length) = nfeat r;
  rs_index : take (nfeat r) (default [] row.(r_index)) = r.(a_index);
  rs_value : match row.(r_value) with
             | None => r.(a_value) = []
             | Some v => length r.(a_value) = nfeat r /\ take (nfeat r) v = r.(a_value)
             end
}.

(** The row as [Push(Row)] stores it: with its weight, which is 1 when the
    block had none. *)
Definition with_weight (r : arow) : arow :=
  mkArow r.(a_label) [match r.(a_weight) with [] => fone | w :: _ => w end] r.(a_index) r.(a_value).

Lemma Push_row_holds row r c rs :
  holds c rs -> row_shows row r -> in_range [r] ->
  exists c', Push_row row c = Ok c' /\ holds c' (rs ++ [with_weight r]).
Proof.
  intros Hh [H1 H2 H3 H4 H5] Hr. unfold Push_row. rewrite H3.
  assert (Forall (fun ix => ix <= imax)%Z r.(a_index)) as Hr' by by inversion Hr.
  rewrite (copy_index_spec _ _ _ _ H4) by done. simpl.
  assert (exists vs, match row.(r_value) with None => Ok [] | Some _ =>
     ptr_read row.(r_value) (nfeat r) end = Ok vs /\ vs = r.(a_value)) as (vs & -> & ->).
  { destruct (r_value row) as [v|].
    - destruct H5 as [H5 H6]. exists r.(a_value). split; [|done]. by apply ptr_read_spec.
    - by exists []. }
  simpl. eexists. split; [done|].
  pose proof (holds_app_offset c rs [with_weight r] Hh) as Ho. simpl in Ho.
  split; simpl; [rewrite <- Ho; do 2 f_equal; by rewrite length_app|..];
    rewrite map_app, ?concat_app; simpl; rewrite ?app_nil_r.
  - rewrite H1. f_equal. apply Hh.
  - rewrite H2. f_equal. apply Hh.
  - f_equal. apply Hh.
  - f_equal. apply Hh.
Qed.

Lemma BeginPtr_default {A} (v : list A) : default [] (BeginPtr v) = v.
Proof. by destruct v. Qed.

Lemma take_all {A} n (l : list A) : length l = n -> take n l = l.
Proof. intros <-. apply firstn_all. Qed.

Lemma GetBlock_shows c rs :
  holds c rs -> uniform rs -> exists b, GetBlock c = Ok b /\ shows 0 0 b rs.
Proof.
  intros Hh [Huv Huw]. destruct (holds_sizes _ _ Hh) as (E1 & E2 & E3 & E4).
  unfold GetBlock. rewrite check_true by (apply bool_decide_eq_true; lia). simpl.
  replace (length (offset c) - 1) with (length rs) by lia.
  rewrite (proj2 (read_at_Ok _ _ _) E3). simpl.
  rewrite (check_true (bool_decide (length (index c) = length (index c))))
    by by apply bool_decide_eq_true.
  simpl. assert (length (value c) = length (index c) \/ length (value c) = 0) as Hlv.
  { rewrite (h_value _ _ Hh), E4. destruct Huv as [Hu|Hu].
    - rewrite concat_nil by done. by right.
    - rewrite length_a_value by done. by left. }
  rewrite check_true. 2:{ apply orb_true_iff. rewrite !bool_decide_eq_true.
    destruct Hlv; [left|right]; lia. }
  simpl. eexists. split; [done|]. split; simpl; rewrite ?BeginPtr_default, ?drop_0.
  - done.
  - rewrite take_all by lia. apply Hh.
  - rewrite take_all by lia. apply Hh.
  - pose proof (h_weight _ _ Hh) as Hw. destruct (weight c) as [|w ws]; simpl.
    + destruct Huw as [Hu|Hu]; [done|]. apply length_a_weight in Hu. rewrite <- Hw in Hu.
      destruct rs; [constructor|done].
    + destruct Huw as [Hu|Hu]; [apply concat_nil in Hu; congruence|].
      split; [done|]. rewrite take_all; [done|]. rewrite Hw. by apply length_a_weight.
  - rewrite take_all by done. apply Hh.
  - pose proof (h_value _ _ Hh) as Hv. destruct (value c) as [|w ws]; simpl.
    + destruct Huv as [Hu|Hu]; [done|]. apply length_a_value in Hu as Hu2.
      rewrite <- Hv in Hu2. simpl in Hu2.
      eapply Forall_impl; [apply Forall_and; split; [exact Hu|apply Forall_forall; intros x Hx; exact Hx]|].
      intros r [Hr Hin]. apply list_elem_of_lookup in Hin as [j Hj].
      apply nil_length_inv. rewrite Hr.
      assert (nfeat r <= sum_list (map nfeat rs)); [|lia].
      clear -Hj. revert j Hj. induction rs as [|x rs IH]; intros [|j] Hj; simplify_eq/=; [lia|].
      specialize (IH _ Hj). lia.
    + destruct Huv as [Hu|Hu]; [apply concat_nil in Hu; congruence|].
      split; [done|]. rewrite take_all; [done|]. rewrite Hv. by apply length_a_value.
Qed.

Lemma concat_piece {A} (f : arow -> list A) rs i r d l n :
  rs !! i = Some r -> map length (map f rs) = map nfeat rs ->
  take n (drop d l) = concat (map f rs) -> n = sum_list (map nfeat rs) ->
  take (nfeat r) (drop (d + sum_list (take i (map nfeat rs))) l) = f r.
Proof.
  intros Hi Hl Ht ->.
  assert (map f rs !! i = Some (f r)) as Hfi by (rewrite list_lookup_fmap, Hi; done).
  pose proof (segment_concat _ _ _ Hfi) as Hseg.
  assert (length (f r) = nfeat r) as Hn.
  { assert (map length (map f rs) !! i = Some (length (f r))) as Hx
      by (rewrite list_lookup_fmap, Hfi; done).
    rewrite Hl, list_lookup_fmap, Hi in Hx. by injection Hx. }
  rewrite <- !firstn_map, Hl in Hseg. unfold segment in Hseg.
  rewrite (Nat.add_comm _ (length _)), Nat.add_sub, Hn, <- Ht in Hseg.
  rewrite <- Hseg, <- drop_drop.
  rewrite skipn_firstn_comm, firstn_firstn. f_equal.
  assert (sum_list (take i (map nfeat rs)) + nfeat r <= sum_list (map nfeat rs)); [|lia].
  clear -Hi. revert i Hi. induction rs as [|x rs IH]; intros [|i] Hi; simplify_eq/=; [lia|].
  specialize (IH _ Hi). lia.
Qed.

Lemma concat_weight_lookup rs i r :
  Forall (fun r => length r.(a_weight) = 1) rs -> rs !! i = Some r ->
  exists w, r.(a_weight) = [w] /\ concat (map a_weight rs) !! i = Some w.
Proof.
  intros Hf. revert i. induction Hf as [|x rs Hx Hf IH]; intros [|i] Hi; simplify_eq/=.
  - destruct (a_weight r) as [|w [|]]; try done. by exists w.
  - destruct (IH _ Hi) as (w & ? & ?). exists w. split; [done|].
    destruct (a_weight x) as [|y [|]]; done.
Qed.

Lemma block_at_shows o0 b rs i r :
  shows o0 o0 b rs -> rs !! i = Some r ->
  exists row, block_at b i = Ok row /\ row_shows row r.
Proof.
  intros [Hs Ho Hl Hw Hi Hv] Hr. pose proof (lookup_lt_Some _ _ _ Hr) as Hlt.
  unfold block_at. rewrite check_true by (apply bool_decide_eq_true; lia). simpl.
  assert (read_at (default [] (b_label b)) i = Ok r.(a_label)) as Hlab.
  { eapply read_take; [exact Hl|lia|]. rewrite list_lookup_fmap, Hr. done. }
  unfold ptr_at. rewrite Hlab. simpl.
  assert (exists w, match b.(b_weight) with Some _ => read_at (default [] (b_weight b)) i
     | None => Ok fone end = Ok w /\ w = match r.(a_weight) with [] => fone | w :: _ => w end)
    as (w & -> & ->).
  { destruct (b_weight b) as [ws|].
    - destruct Hw as [Hw1 Hw2]. destruct (concat_weight_lookup _ _ _ Hw1 Hr) as (w & -> & Hx).
      exists w. split; [|done]. eapply read_take; [exact Hw2|lia|done].
    - rewrite Forall_lookup in Hw. rewrite (Hw _ _ Hr). by exists fone. }
  simpl.
  assert (map nfeat rs !! i = Some (nfeat r)) as Hni by (rewrite list_lookup_fmap, Hr; done).
  assert (forall j, j <= length rs ->
    read_at (b_offset b) j = Ok (o0 + sum_list (take j (map nfeat rs)))) as Hoff.
  { intros j Hj. eapply read_take; [exact Ho|lia|]. apply psums_lookup. by rewrite length_map. }
  rewrite !Hoff by lia. simpl.
  simpl. rewrite (Nat.add_1_r i), (take_S_r _ _ _ Hni), sum_list_app. simpl.
  eexists. split; [done|]. split; simpl; try done.
  - lia.
  - unfold ptr_add. assert (forall p : ptr Z, default [] (option_map (drop
      (o0 + sum_list (take i (map nfeat rs)))) p) = drop (o0 + sum_list (take i (map nfeat rs))) (default [] p)) as ->.
    { intros [p|]; simpl; [done|]. by rewrite drop_nil. }
    eapply (concat_piece a_index); [done| |exact Hi|done]. by rewrite map_map.
  - destruct (b_value b) as [v|]; simpl.
    + destruct Hv as [Hv1 Hv2]. split.
      * rewrite Forall_lookup in Hv1. by apply (Hv1 i).
      * eapply (concat_piece a_value); [done|by apply map_length_nfeat|exact Hv2|done].
    + rewrite Forall_lookup in Hv. by apply (Hv i).
Qed.

Lemma take_take_min {A} n m (l : list A) k :
  n <= m -> take m l = k -> take n l = take n k.
Proof. intros Hn <-. rewrite firstn_firstn. by rewrite Nat.min_l. Qed.

Lemma take_drop_piece {A} (l : list A) k n bg m :
  take n l = k -> bg + m <= n -> take m (drop bg l) = take m (drop bg k).
Proof.
  intros <- Hn. rewrite skipn_firstn_comm, firstn_firstn. by rewrite Nat.min_l by lia.
Qed.

Lemma default_ptr_add {A} (p : ptr A) n : default [] (ptr_add p n) = drop n (default [] p).
Proof. destruct p; simpl; [done|]. by rewrite drop_nil. Qed.

Lemma concat_segment {A} (ls : list (list A)) bg m :
  bg <= length ls ->
  concat (take m (drop bg ls)) =
  take (sum_list (map length (take m (drop bg ls))))
    (drop (sum_list (map length (take bg ls))) (concat ls)).
Proof.
  intros Hb.
  assert (concat ls = concat (take bg ls) ++ concat (take m (drop bg ls)) ++
    concat (drop m (drop bg ls))) as ->.
  { by rewrite <- !concat_app, !take_drop. }
  by rewrite <- !length_concat_sum, drop_app_length, take_app_length.
Qed.

Lemma concat_weight_map rs :
  Forall (fun r => length r.(a_weight) = 1) rs ->
  concat (map a_weight rs) = map (fun r => hd fone r.(a_weight)) rs.
Proof.
  induction 1 as [|r rs Hr _ IH]; simpl; [done|].
  destruct (a_weight r) as [|w [|]]; simpl in *; [lia| |lia]. by rewrite IH.
Qed.

(** A part of a block shows its rows, with row pointers and features counted
    from the same place. *)
Lemma part_shows b rs bg ed :
  shows 0 0 b rs -> bg <= ed -> ed <= length rs ->
  shows (sum_list (take bg (map nfeat rs))) (sum_list (take bg (map nfeat rs)))
    (mkBlock (ed - bg) (drop bg b.(b_offset)) (ptr_add b.(b_label) bg)
       (match b.(b_weight) with Some _ => ptr_add b.(b_weight) bg | None => None end) b.(b_index) b.(b_value))
    (segment bg ed rs).
Proof.
  intros [Hs Ho Hl Hw Hi Hv] Hbe He.
  assert (length (segment bg ed rs) = ed - bg) as Hseg by (apply segment_length; lia).
  assert (forall {A} (f : arow -> list A) l, map length (map f rs) = map nfeat rs ->
    take (sum_list (map nfeat rs)) (drop 0 l) = concat (map f rs) ->
    take (sum_list (map nfeat (segment bg ed rs))) (drop (sum_list (take bg (map nfeat rs))) l)
    = concat (map f (segment bg ed rs))) as Hpiece.
  { intros A f l Hf Hc. rewrite drop_0 in Hc. unfold segment.
    rewrite <- !firstn_map, <- !skipn_map, concat_segment by (rewrite length_map; lia).
    rewrite <- !firstn_map, <- !skipn_map, Hf. eapply take_drop_piece; [exact Hc|].
    rewrite <- sum_list_app. rewrite <- (take_drop bg (map nfeat rs)) at 3.
    rewrite sum_list_app, sum_list_app. apply Nat.add_le_mono_l.
    rewrite <- (take_drop (ed - bg) (drop bg (map nfeat rs))) at 2. rewrite sum_list_app. lia. }
  split; simpl; rewrite ?Hseg, ?default_ptr_add; try done.
  - rewrite (take_drop_piece _ _ _ bg _ Ho) by lia.
    rewrite psums_drop, psums_take; rewrite ?length_drop, ?length_map; try lia.
    unfold segment. rewrite <- firstn_map, <- skipn_map. done.
  - rewrite (take_drop_piece _ _ _ bg _ Hl) by lia. unfold segment.
    by rewrite <- firstn_map, <- skipn_map.
  - destruct (b_weight b) as [w|]; simpl.
    + destruct Hw as [Hw1 Hw2]. split; [by apply Forall_take, Forall_drop|].
      rewrite (take_drop_piece _ _ _ bg _ Hw2) by lia.
      rewrite !concat_weight_map by (done || by apply Forall_take, Forall_drop).
      unfold segment. by rewrite <- firstn_map, <- skipn_map.
    + by apply Forall_take, Forall_drop.
  - by apply (Hpiece _ a_index); [rewrite map_map|].
  - destruct (b_value b) as [v|]; simpl.
    + destruct Hv as [Hv1 Hv2]. split; [by apply Forall_take, Forall_drop|].
      apply (Hpiece _ a_value); [by apply map_length_nfeat|done].
    + by apply Forall_take, Forall_drop.
Qed.

Lemma Slice_shows b rs bg ed :
  shows 0 0 b rs -> bg <= ed -> ed < length rs ->
  exists b', Slice b bg ed = Ok b' /\
    shows (sum_list (take bg (map nfeat rs))) (sum_list (take bg (map nfeat rs))) b' (segment bg ed rs).
Proof.
  intros Hsh Hbe He. unfold Slice. rewrite (s_size _ _ _ _ Hsh).
  rewrite check_true by (apply andb_true_iff; rewrite !bool_decide_eq_true; lia). simpl.
  eexists. split; [done|]. apply part_shows; [done|lia..].
Qed.

End Blocks.

(** ** The binary form of a container *)

Section Serialize.
Context {F : Type} `{Float F} (PF : Pod F) (isz : nat).

Definition vec {A} (P : Pod A) : Handler (list A) := PODVectorHandler (H := P).

(** [Save(Stream *fo)] *)
Definition Save {T} `{Stream T} (c : Container (F := F)) (fo : T) : outcome T :=
  fo ← hWrite (Handler := vec (pod_uint 8)) (map Z.of_nat c.(offset)) fo;
  fo ← hWrite (Handler := vec PF) c.(label) fo;
  fo ← hWrite (Handler := vec PF) c.(weight) fo;
  fo ← hWrite (Handler := vec (pod_uint isz)) c.(index) fo;
  fo ← hWrite (Handler := vec PF) c.(value) fo;
  write_pod (pod_uint isz) c.(max_index) fo.

(** A read inside [CHECK]. *)
Definition checked_read {A T} `{Stream T} (h : Handler A) (fi : T) : outcome (A * T) :=
  '(o, fi) ← hRead (Handler := h) (T := T) fi;
  match o with Some a => Ok (a, fi) | None => Fail CheckFailed end.

(** [Load(Stream *fi)]: [None] at the end of the file.  The last [CHECK] is on
    the number of bytes read. *)
Definition Load {T} `{Stream T} (fi : T) : outcome (option (Container (F := F)) * T) :=
  '(off, fi) ← hRead (Handler := vec (pod_uint 8)) (T := T) fi;
  match off with
  | None => Ok (None, fi)
  | Some off =>
      '(lb, fi) ← checked_read (T := T) (vec PF) fi;
      '(wt, fi) ← checked_read (T := T) (vec PF) fi;
      '(ix, fi) ← checked_read (T := T) (vec (pod_uint isz)) fi;
      '(vl, fi) ← checked_read (T := T) (vec PF) fi;
      '(b, fi) ← Read (S := T) isz fi;
      _ ← check (negb (bool_decide (length b = 0)));
      if decide (length b = isz) then
        Ok (Some (mkCont (map Z.to_nat off) lb wt ix vl (le_combine b)), fi)
      else Fail OutOfRange
  end.

(** A container whose numbers fit their types. *)
Definition fits (c : Container (F := F)) : Prop :=
  Forall (fun o => Z.of_nat o < 2 ^ 64)%Z c.(offset) /\
  Forall pod_valid c.(label) /\ Forall pod_valid c.(weight) /\
  Forall (fun i => 0 <= i < 2 ^ (Z.of_nat isz * 8))%Z c.(index) /\
  Forall pod_valid c.(value) /\ (0 <= c.(max_index) < 2 ^ (Z.of_nat isz * 8))%Z /\
  (Z.of_nat (length c.(offset)) < 2 ^ 61)%Z /\
  (Z.of_nat (length c.(label)) < 2 ^ 61)%Z /\ (Z.of_nat (length c.(weight)) < 2 ^ 61)%Z /\
  (Z.of_nat (length c.(index)) < 2 ^ 61)%Z /\ (Z.of_nat (length c.(value)) < 2 ^ 61)%Z.

Context (HPF : @PodLaws F PF) (Hpf : 0 < pod_size (A := F)) (Hisz : 0 < isz).

Definition vec_enc {A} (P : Pod A) (v : list A) : list byte := len_enc (length v) ++ pod_memory v.

Definition Container_enc (c : Container (F := F)) : list byte :=
  vec_enc (pod_uint 8) (map Z.of_nat c.(offset)) ++ vec_enc PF c.(label) ++
  vec_enc PF c.(weight) ++ vec_enc (pod_uint isz) c.(index) ++ vec_enc PF c.(value) ++
  le_split isz c.(max_index).

Lemma vec_write {A} (P : Pod A) {T} `{StreamLaws T} (v : list A) (s : T) n :
  @PodLaws A P -> sok s -> room s (length (vec_enc P v) + n) ->
  exists s', hWrite (Handler := vec P) v s = Ok s' /\ written s' = written s ++ vec_enc P v /\
             room s' n /\ sok s'.
Proof.
  intros HP Hok Hr. by apply (hWrite_enc (HandlerLaws := PODVectorHandler_laws (H := P))).
Qed.

Lemma vec_read {A} (P : Pod A) {T} `{StreamLaws T} (v : list A) (s : T) r :
  @PodLaws A P -> Forall pod_valid v -> (Z.of_nat (length v) < 2 ^ 61)%Z ->
  0 < pod_size (A := A) -> sok s -> unread s = vec_enc P v ++ r ->
  exists s', hRead (Handler := vec P) s = Ok (Some v, s') /\ unread s' = r /\ sok s'.
Proof.
  intros HP Hv Hl Hs Hok Hu.
  apply (hRead_enc (HandlerLaws := PODVectorHandler_laws (H := P))); [|done..].
  split; [done|]. split; [lia|done].
Qed.

#[local] Opaque le_split le_combine len_enc vec_enc vec.

Lemma Save_container_spec {T} `{StreamLaws T} c (s : T) n :
  sok s -> room s (length (Container_enc c) + n) ->
  exists s', Save c s = Ok s' /\ written s' = written s ++ Container_enc c /\ room s' n /\ sok s'.
Proof.
  unfold Container_enc, Save. intros Hok Hr.
  rewrite !length_app, <- !Nat.add_assoc in Hr.
  destruct (vec_write (pod_uint 8) _ s _ _ Hok Hr) as (s1 & -> & Hw1 & Hr1 & Hok1). simpl.
  destruct (vec_write PF _ s1 _ _ Hok1 Hr1) as (s2 & -> & Hw2 & Hr2 & Hok2). simpl.
  destruct (vec_write PF _ s2 _ _ Hok2 Hr2) as (s3 & -> & Hw3 & Hr3 & Hok3). simpl.
  destruct (vec_write (pod_uint isz) _ s3 _ _ Hok3 Hr3) as (s4 & -> & Hw4 & Hr4 & Hok4). simpl.
  destruct (vec_write PF _ s4 _ _ Hok4 Hr4) as (s5 & -> & Hw5 & Hr5 & Hok5). simpl.
  destruct (write_pod_spec (pod_uint isz) c.(max_index) s5 n Hok5 Hr5) as (s6 & E & Hw6 & Hr6 & Hok6).
  exists s6. split; [exact E|]. split; [|done].
  rewrite Hw6, Hw5, Hw4, Hw3, Hw2, Hw1, <- !app_assoc. done.
Qed.

Lemma map_to_of_nat (l : list nat) : map Z.to_nat (map Z.of_nat l) = l.
Proof. induction l; simpl; [done|]. by rewrite Nat2Z.id, IHl. Qed.

Lemma Load_container_spec {T} `{StreamLaws T} c (s : T) r :
  fits c -> sok s -> unread s = Container_enc c ++ r ->
  exists s', Load s = Ok (Some c, s') /\ unread s' = r /\ sok s'.
Proof.
  unfold Container_enc, Load.
  intros (F1 & F2 & F3 & F4 & F5 & F6 & L1 & L2 & L3 & L4 & L5) Hok Hu.
  rewrite <- !app_assoc in Hu.
  assert (Forall (pod_valid (Pod := pod_uint 8)) (map Z.of_nat c.(offset))) as Fo.
  { apply Forall_map. eapply Forall_impl; [exact F1|]. intros o Ho. simpl in *. lia. }
  destruct (vec_read (pod_uint 8) (map Z.of_nat c.(offset)) s _ _ Fo
    ltac:(by rewrite length_map) ltac:(simpl; lia) Hok Hu) as (s1 & -> & Hu1 & Hok1). simpl.
  unfold checked_read.
  destruct (vec_read PF c.(label) s1 _ _ F2 L2 Hpf Hok1 Hu1) as (s2 & -> & Hu2 & Hok2). simpl.
  destruct (vec_read PF c.(weight) s2 _ _ F3 L3 Hpf Hok2 Hu2) as (s3 & -> & Hu3 & Hok3). simpl.
  destruct (vec_read (pod_uint isz) c.(index) s3 _ _ F4 L4 Hisz Hok3 Hu3) as (s4 & -> & Hu4 & Hok4). simpl.
  destruct (vec_read PF c.(value) s4 _ _ F5 L5 Hpf Hok4 Hu4) as (s5 & -> & Hu5 & Hok5). simpl.
  destruct (Read_prefix _ _ s5 isz Hok5 Hu5) as (s6 & -> & Hu6 & Hok6);
    [by rewrite length_le_split|]. simpl.
  rewrite length_le_split, check_true by (rewrite bool_decide_eq_false_2 by lia; done). simpl.
  rewrite decide_True by done. rewrite le_combine_split, map_to_of_nat.
  rewrite Z.mod_small by done. exists s6. by destruct c.
Qed.

End Serialize.
Arguments Row F : clear implicits.
Arguments RowBlock F : clear implicits.
Arguments Container F : clear implicits.

(** ** Properties *)

#[local] Opaque Container_enc.

(** What is pushed is what is read: after a block is pushed to a container
    that holds rows of the same shape, [GetBlock] passes its consistency
    checks and [operator[]] gives back every row, the old ones and the new
    ones, in order. *)
Theorem RowBlock_push_read {F} `{Float F} imax (c : Container F) rs b rs' o0 :
  holds c rs -> shows o0 0 b rs' -> in_range imax rs' -> uniform (rs ++ rs') ->
  exists c' b', Push_block imax b c = Ok c' /\ GetBlock c' = Ok b' /\
    b'.(b_size) = length rs + length rs' /\
    forall i r, (rs ++ rs') !! i = Some r -> exists row, block_at b' i = Ok row /\ row_shows row r.
Proof.
  intros Hc Hb Hr Hu. destruct (Push_block_holds imax b c rs rs' o0 Hc Hb Hr) as (c' & E & Hc').
  destruct (GetBlock_shows c' _ Hc' Hu) as (b' & E' & Hb').
  exists c', b'. split; [done|]. split; [done|].
  split; [by rewrite (s_size _ _ _ _ Hb'), length_app|].
  intros i r Hi. by eapply block_at_shows.
Qed.

Definition q (z : Z) : QArith_base.Q := QArith_base.inject_Z z.
Definition demo_cont : Container QArith_base.Q := mkCont [0; 2] [(q 1)] [] [4; 9]%Z [(q 1); (q 3)] 9.
Definition demo_block : RowBlock QArith_base.Q :=
  mkBlock 2 [7; 8; 10] (Some [(q 0); (q 1)]) None (Some [2; 5; 6]%Z) (Some [(q 1); (q 2); (q 3)]).
Definition demo_rows : list (arow (F := QArith_base.Q)) := [mkArow (q 1) [] [4; 9]%Z [(q 1); (q 3)]].
Definition demo_rows' : list (arow (F := QArith_base.Q)) :=
  [mkArow (q 0) [] [2]%Z [(q 1)]; mkArow (q 1) [] [5; 6]%Z [(q 2); (q 3)]].

Lemma RowBlock_push_read_witness :
  exists c' b', Push_block 4294967295 demo_block demo_cont = Ok c' /\ GetBlock c' = Ok b' /\
    b'.(b_size) = 3 /\
    forall i r, (demo_rows ++ demo_rows') !! i = Some r ->
      exists row, @block_at _ Qfloat b' i = Ok row /\ @row_shows _ Qfloat row r.
Proof.
  apply (@RowBlock_push_read _ Qfloat 4294967295 demo_cont demo_rows demo_block demo_rows' 7).
  - by split.
  - split; try done; repeat constructor.
  - repeat constructor; lia.
  - split; [right|left]; repeat constructor.
Defined.

(** A container saved to a memory stream and loaded from where it was
    written is the same container, whatever surrounds it in the stream. *)
Theorem Container_roundtrip {F} (PF : Pod F) isz (c : Container F) (fo : MemoryStringStream.t) :
  @PodLaws F PF -> 0 < pod_size (A := F) -> 0 < isz -> fits PF isz c -> sok fo ->
  exists fo' fi, Save PF isz c fo = Ok fo' /\
    Load PF isz (MemoryStringStream.Seek (MemoryStringStream.Tell fo) fo') = Ok (Some c, fi) /\
    unread fi = unread fo'.
Proof.
  intros HP Hs Hi Hf Hok.
  destruct (Save_container_spec PF isz HP c fo 0 Hok I) as (fo' & E & Hw & _ & Hok').
  set (fs := MemoryStringStream.Seek (MemoryStringStream.Tell fo) fo').
  assert (length (Container_enc PF isz c) + fo.(MemoryStringStream.curr_ptr_) =
    fo'.(MemoryStringStream.curr_ptr_)) as Hlen.
  { apply (f_equal length) in Hw. simpl in *. rewrite length_app, !length_take in Hw. lia. }
  assert (unread fs = Container_enc PF isz c ++
    drop fo'.(MemoryStringStream.curr_ptr_) fo'.(MemoryStringStream.p_buffer_)) as Hu.
  { subst fs. destruct fo as [buf cur], fo' as [buf' cur']. simpl in *.
    rewrite <- (take_drop cur' buf') at 1. rewrite Hw, <- app_assoc.
    rewrite <- (length_take_le buf cur) at 1 by done. by rewrite drop_app_length. }
  destruct (Load_container_spec PF isz HP Hs Hi c fs (unread fo') Hf) as (fi & E2 & Hu2 & Hok2);
    [subst fs; unfold MemoryStringStream.Seek, MemoryStringStream.Tell; simpl in *; lia|exact Hu|].
  exists fo', fi. done.
Qed.

Lemma Container_roundtrip_witness :
  let c := mkCont [0; 2] [3%Z] [] [4; 9]%Z [1%Z; 3%Z] 9 in
  let fo := MemoryStringStream.mk [Byte.x41; Byte.x42; Byte.x43] 1 in
  exists fo' fi, Save (pod_uint 4) 4 c fo = Ok fo' /\
    Load (pod_uint 4) 4 (MemoryStringStream.Seek (MemoryStringStream.Tell fo) fo') = Ok (Some c, fi) /\
    unread fi = unread fo'.
Proof.
  apply (Container_roundtrip (pod_uint 4) 4); [apply _|simpl; lia|lia| |simpl; lia].
  unfold fits; simpl. split_and!; repeat constructor; simpl; lia.
Defined.

(** [Slice] and [Push] disagree on where the features of a block start: the
    block [Slice] gives shows the rows asked for through [operator[]], but
    pushing it stores the features of the first rows of the original block. *)
Theorem Slice_push_mismatch :
  let b := mkBlock 3 [0; 1; 2; 3] (Some [0%Z; 0%Z; 0%Z]) None (Some [10; 20; 30]%Z) None in
  exists s c, Slice b 1 2 = Ok s /\ Push_block 100 s Clear = Ok c /\
    c.(index) = [10%Z] /\ b.(b_index) = Some [10; 20; 30]%Z /\
    forall (fl : Float Z) row, @block_at _ fl s 0 = Ok row ->
      row.(r_length) = 1 /\ get_index row 0 = Ok 20%Z.
Proof.
  intros b. eexists _, _. split; [reflexivity|]. split; [vm_compute; reflexivity|].
  split; [reflexivity|]. split; [reflexivity|]. intros fl row [= <-]. done.
Qed.
