(* ===== verification/Localizer.v ===== *)
(** * The localizer

    Models src/src/base/parallel_sort.h and src/src/base/localizer.h: a worker
    maps the 64-bit feature ids of a minibatch to positions 0, 1, ... in the
    sorted list of the distinct (scrambled) ids, which is the list of keys it
    pulls from the servers. *)
From S2P Require Import Prelude Floats RowBlock.

(** ** [ReverseBytes] *)

Definition ReverseBytes (x : Z) : Z :=
  let x := u64 (Z.lor (Z.shiftl x 32) (Z.shiftr x 32)) in
  let x := u64 (Z.lor (Z.shiftl (Z.land x 0x0000FFFF0000FFFF) 16)
                      (Z.shiftr (Z.land x 0xFFFF0000FFFF0000) 16)) in
  let x := u64 (Z.lor (Z.shiftl (Z.land x 0x00FF00FF00FF00FF) 8)
                      (Z.shiftr (Z.land x 0xFF00FF00FF00FF00) 8)) in
  u64 (Z.lor (Z.shiftl (Z.land x 0x0F0F0F0F0F0F0F0F) 4)
             (Z.shiftr (Z.land x 0xF0F0F0F0F0F0F0F0) 4)).

(** ** Parallel sort *)

Module ParallelSort.
Section Sort.
Context {A : Type} (cmp : A -> A -> bool).

(** [std::sort] orders its range; which of the orders with equal elements
    permuted it gives is left open. *)
Variable sort : list A -> list A.

(** [std::inplace_merge]: stable, the left run goes first among equals. *)
Fixpoint merge (l1 : list A) : list A -> list A :=
  match l1 with
  | [] => fun l2 => l2
  | a :: l1' =>
      fix go (l2 : list A) : list A :=
        match l2 with
        | [] => a :: l1'
        | b :: l2' => if cmp b a then b :: go l2' else a :: merge l1' l2
        end
  end.

(** [ParallelSort_(data, len, grainsize, cmp)]: the two halves are sorted by two
    threads on disjoint ranges and merged after the join.  [None]: the
    recursion is deeper than [fuel]. *)
Fixpoint ParallelSort_ (fuel : nat) (data : list A) (grainsize : nat) : option (list A) :=
  let len := length data in
  if decide (len <= grainsize) then Some (sort data) else
  match fuel with
  | 0 => None
  | S fuel =>
      left ← ParallelSort_ fuel (take (len / 2) data) grainsize;
      right ← ParallelSort_ fuel (drop (len / 2) data) grainsize;
      Some (merge left right)
  end.

(** [ParallelSort(arr, num_threads, cmp)] *)
Definition ParallelSort (arr : list A) (num_threads : nat) : outcome (option (list A)) :=
  _ ← check (bool_decide (0 < num_threads));
  let grainsize := Nat.max (length arr / num_threads + 5) (Z.to_nat (1024 * 16)) in
  Ok (ParallelSort_ (length arr) arr grainsize).

End Sort.
End ParallelSort.

(** ** [Localizer<I>] *)

Module Localizer.

(** [struct Pair] *)
Record Pair := mkPair { k : Z; i : nat }.

Definition pair_lt (a b : Pair) : bool := (a.(k) <? b.(k))%Z.

Section Localizer.
Context {F : Type} `{Float F}.

(** The index type [I]: its size in bytes, its largest value. *)
Variable isz : nat.
Variable imax : Z.
(** [ps::FLAGS_max_key] *)
Variable FLAGS_max_key : Z.
Variable nt_ : nat.
(** [std::sort] of the pairs *)
Variable sort : list Pair -> list Pair.
(** The count type [C]: whether it is integral, its largest value as an
    [unsigned], and the conversion to it. *)
Context {C : Type}.
Variable int_cnt : bool.
Variable cnt_max : Z.
Variable to_C : Z -> C.

(** What the three loops of [CountUniqIndex] make of a feature id, and how they
    compute it: the remainder by zero is undefined. *)
Definition key (ix : Z) : Z :=
  if (FLAGS_max_key <? imax)%Z then (ix mod FLAGS_max_key)%Z
  else if decide (isz = 8) then ReverseBytes ix
  else ix.
Definition key_at (ix : Z) : outcome Z :=
  if (FLAGS_max_key <? imax)%Z && (FLAGS_max_key =? 0)%Z then Fail DivByZero else Ok (key ix).

(** [idx_frq->push_back(...)] *)
Definition frq_of (cnt : nat) : C :=
  to_C (if int_cnt then Z.min (Z.of_nat cnt) cnt_max else Z.of_nat cnt).

(** The loop over the sorted pairs; the state is [curr], [cnt], [uniq_idx] and
    [idx_frq]. *)
Definition count_step (st : Z * nat * list Z * list C) (v : Pair) : Z * nat * list Z * list C :=
  let '(curr, cnt, uniq, frq) := st in
  if decide (v.(k) = curr) then (curr, S cnt, uniq, frq)
  else (v.(k), 1, uniq ++ [curr], frq ++ [frq_of cnt]).

(** [CountUniqIndex(blk, uniq_idx, idx_frq)] gives [pair_], [uniq_idx] and
    [idx_frq], which keep their values for an empty block. *)
Definition CountUniqIndex (blk : RowBlock F) (pair_ : list Pair) (uniq_idx : list Z) (idx_frq : list C)
  : outcome (list Pair * list Z * list C) :=
  if decide (blk.(b_size) = 0) then Ok (pair_, uniq_idx, idx_frq) else
  idx_size ← read_at blk.(b_offset) blk.(b_size);
  _ ← check (Z.of_nat idx_size <? 4294967295)%Z;
  pair_ ← foldM (fun ps i =>
            ix ← ptr_at blk.(b_index) i;
            k ← key_at ix;
            Ok (ps ++ [mkPair k i])) (seq 0 idx_size) [];
  sorted ← ParallelSort.ParallelSort pair_lt sort pair_ nt_;
  match sorted with
  | None => Fail OutOfRange
  | Some pair_ =>
      p0 ← read_at pair_ 0;
      let '(curr, cnt, uniq, frq) := foldl count_step (p0.(k), 0, [], []) pair_ in
      Ok (pair_, uniq ++ [curr], frq ++ [frq_of cnt])
  end.

(** The loop that builds [remapped_idx] walks the dictionary and the sorted
    pairs together; [pos] is [cur_dict - idx_dict.cbegin()]. *)
Fixpoint match_dict (dict : list Z) (pos : nat) : list Pair -> list nat * nat -> outcome (list nat * nat) :=
  match dict with
  | [] => fun _ st => Ok st
  | d :: dict =>
      fix go (ps : list Pair) (st : list nat * nat) : outcome (list nat * nat) :=
        match ps with
        | [] => Ok st
        | p :: ps' =>
            if (d <? p.(k))%Z then match_dict dict (S pos) (p :: ps') st
            else if (d =? p.(k))%Z then
              r ← write_at st.1 p.(i) (pos + 1);
              go ps' (r, S st.2)
            else go ps' st
        end
  end.

(** The loop over the features of a row. *)
Definition remap_feature (blk : RowBlock F) (remapped : list nat)
    (st : list Z * list F * nat * nat) (j : nat) : outcome (list Z * list F * nat * nat) :=
  let '(oix, ovl, kk, n) := st in
  r ← read_at remapped j;
  if decide (r = 0) then Ok st else
  ovl ← match blk.(b_value) with
        | Some _ => v ← ptr_at blk.(b_value) j; write_at ovl kk v
        | None => Ok ovl
        end;
  oix ← write_at oix kk (Z.of_nat (r - 1));
  Ok (oix, ovl, S kk, S n).

(** The loop over the rows. *)
Definition remap_row (blk : RowBlock F) (remapped : list nat)
    (st : list nat * list Z * list F * nat) (i : nat) : outcome (list nat * list Z * list F * nat) :=
  let '(off, oix, ovl, kk) := st in
  b ← read_at blk.(b_offset) i;
  e ← read_at blk.(b_offset) (i + 1);
  '(oix, ovl, kk, n) ← foldM (remap_feature blk remapped) (seq b (e - b)) (oix, ovl, kk, 0);
  o ← read_at off i;
  off ← write_at off (i + 1) (o + n);
  Ok (off, oix, ovl, kk).

(** [RemapIndex(blk, idx_dict, localized)] *)
Definition RemapIndex (blk : RowBlock F) (idx_dict : list Z) (pair_ : list Pair)
    (o : Container F) : outcome (Container F) :=
  if decide (blk.(b_size) = 0 \/ idx_dict = []) then Ok o else
  _ ← check (Z.of_nat (length idx_dict) <? 4294967295)%Z;
  idx_size ← read_at blk.(b_offset) blk.(b_size);
  _ ← check (bool_decide (idx_size = length pair_));
  '(remapped, matched) ← match_dict idx_dict 0 pair_ (replicate (length pair_) 0, 0);
  off ← write_at (resize (blk.(b_size) + 1) 0 o.(offset)) 0 0;
  let oix := resize matched 0%Z o.(index) in
  let ovl := match blk.(b_value) with Some _ => resize matched fzero o.(value) | None => o.(value) end in
  '(off, oix, ovl, kk) ← foldM (remap_row blk remapped) (seq 0 blk.(b_size)) (off, oix, ovl, 0);
  _ ← check (bool_decide (kk = matched));
  lb ← match blk.(b_label) with
       | Some _ => ptr_read blk.(b_label) blk.(b_size)
       | None => Ok o.(label)
       end;
  Ok (mkCont off lb o.(weight) oix ovl (Z.of_nat (length idx_dict) - 1)).

(** [Localize(blk, localized, uniq_idx, idx_frq)] *)
Definition Localize (blk : RowBlock F) (o : Container F) (uniq_idx : list Z) (idx_frq : list C)
  : outcome (Container F * list Z * list C) :=
  '(pair_, uniq, frq) ← CountUniqIndex blk [] uniq_idx idx_frq;
  o ← RemapIndex blk uniq pair_ o;
  Ok (o, uniq, frq).

End Localizer.
End Localizer.

(** ** [ReverseBytes] permutes the bits *)

(** One stage: the bits under [lo] go up by [s], those under [hi] down. *)
Definition swap_stage (s lo hi x : Z) : Z :=
  u64 (Z.lor (Z.shiftl (Z.land x lo) s) (Z.shiftr (Z.land x hi) s)).

Lemma u64_testbit x i : (0 <= i < 64)%Z -> Z.testbit (u64 x) i = Z.testbit x i.
Proof.
  intros Hi. unfold u64. change 18446744073709551615%Z with (Z.ones 64).
  rewrite Z.land_spec, Z.ones_spec_low by lia. apply andb_true_r.
Qed.

(** The masks of a stage exchange bit [i] with bit [i xor s]. *)
Definition stage_ok (s lo hi i : Z) : bool :=
  (Z.testbit lo (i - s) && negb (Z.testbit hi (i + s)) && (i - s =? Z.lxor i s) ||
   negb (Z.testbit lo (i - s)) && Z.testbit hi (i + s) && (i + s =? Z.lxor i s))%Z.

Lemma swap_stage_testbit s lo hi x i :
  (0 <= s)%Z -> stage_ok s lo hi i = true -> (0 <= i < 64)%Z ->
  Z.testbit (swap_stage s lo hi x) i = Z.testbit x (Z.lxor i s).
Proof.
  intros Hs Hok Hi. unfold swap_stage. rewrite u64_testbit by done.
  rewrite Z.lor_spec, Z.shiftl_spec, Z.shiftr_spec, !Z.land_spec by lia.
  unfold stage_ok in Hok. apply orb_true_iff in Hok as [Hok|Hok];
    apply andb_true_iff in Hok as [Hok <-%Z.eqb_eq]; apply andb_true_iff in Hok as [H1 H2].
  - rewrite H1. apply negb_true_iff in H2. rewrite H2, andb_true_r, andb_false_r. apply orb_false_r.
  - rewrite H2. apply negb_true_iff in H1. rewrite H1, andb_false_r, andb_true_r. done.
Qed.

Lemma ReverseBytes_testbit x i :
  (0 <= x < 2 ^ 64)%Z -> (0 <= i < 64)%Z ->
  Z.testbit (ReverseBytes x) i = Z.testbit x (Z.lxor i 60).
Proof.
  intros Hx Hi.
  pose proof (forall_bits_below 64 (fun i => (Z.lxor i 4 <? 64) && (0 <=? Z.lxor i 4) &&
    (Z.lxor (Z.lxor i 4) 8 <? 64) && (0 <=? Z.lxor (Z.lxor i 4) 8) &&
    (Z.lxor (Z.lxor (Z.lxor i 4) 8) 16 <? 64) && (0 <=? Z.lxor (Z.lxor (Z.lxor i 4) 8) 16) &&
    (Z.lxor i 60 =? Z.lxor (Z.lxor (Z.lxor (Z.lxor i 4) 8) 16) 32))%Z eq_refl i Hi) as Hc.
  cbv beta in Hc. rewrite !andb_true_iff, !Z.ltb_lt, !Z.leb_le, Z.eqb_eq in Hc.
  destruct Hc as ((((((H1 & H2) & H3) & H4) & H5) & H6) & ->).
  change (ReverseBytes x) with
    (swap_stage 4 0x0F0F0F0F0F0F0F0F 0xF0F0F0F0F0F0F0F0
      (swap_stage 8 0x00FF00FF00FF00FF 0xFF00FF00FF00FF00
        (swap_stage 16 0x0000FFFF0000FFFF 0xFFFF0000FFFF0000
          (u64 (Z.lor (Z.shiftl x 32) (Z.shiftr x 32)))))).
  do 3 (rewrite swap_stage_testbit; [|lia| |done];
    [|by apply (forall_bits_below 64 (stage_ok _ _ _)); [vm_compute|]]).
  rewrite u64_testbit, Z.lor_spec, Z.shiftl_spec, Z.shiftr_spec by lia.
  set (j := Z.lxor (Z.lxor (Z.lxor i 4) 8) 16) in *.
  pose proof (forall_bits_below 64 (fun j => if (j <? 32)%Z then (Z.lxor j 32 =? j + 32)%Z
    else (Z.lxor j 32 =? j - 32)%Z) eq_refl j ltac:(lia)) as Hc. cbv beta in Hc.
  destruct (Z.ltb_spec j 32); apply Z.eqb_eq in Hc; rewrite Hc.
  - rewrite Z.testbit_neg_r by lia. done.
  - rewrite (testbit_above 64 x (j + 32)) by lia. apply orb_false_r.
Qed.

Lemma ReverseBytes_range x : (0 <= ReverseBytes x < 2 ^ 64)%Z.
Proof. apply u64_range. Qed.

Lemma ReverseBytes_twice x : (0 <= x < 2 ^ 64)%Z -> ReverseBytes (ReverseBytes x) = x.
Proof.
  intros Hx. apply Z.bits_inj'. intros i Hi.
  destruct (decide (i < 64)%Z) as [Hlt|Hge].
  - pose proof (forall_bits_below 64 (fun i => (Z.lxor i 60 <? 64) && (0 <=? Z.lxor i 60) &&
      (Z.lxor (Z.lxor i 60) 60 =? i))%Z eq_refl i ltac:(lia)) as Hc.
    cbv beta in Hc. rewrite !andb_true_iff, Z.ltb_lt, Z.leb_le, Z.eqb_eq in Hc.
    destruct Hc as ((H1 & H2) & H3).
    rewrite !ReverseBytes_testbit by (lia || apply ReverseBytes_range). by rewrite H3.
  - rewrite !(testbit_above 64) by (lia || apply ReverseBytes_range). done.
Qed.

(** ** The parallel sort sorts *)

Section SortProofs.
Context {A : Type} (cmp : A -> A -> bool) (sort : list A -> list A).

(** [cmp] is a strict weak order; [not_after a b]: [a] may stand before [b]. *)
Definition not_after (a b : A) : Prop := cmp b a = false.

Hypothesis cmp_asym : forall a b, cmp a b = true -> not_after a b.
Hypothesis not_after_trans : forall a b c, not_after a b -> not_after b c -> not_after a c.
Hypothesis sort_spec : forall l, sort l ≡ₚ l /\ StronglySorted not_after (sort l).

Lemma merge_perm l1 l2 : ParallelSort.merge cmp l1 l2 ≡ₚ l1 ++ l2.
Proof.
  revert l2. induction l1 as [|a l1 IH1]; intros l2; [done|].
  induction l2 as [|b l2 IH2]; simpl; [by rewrite app_nil_r|].
  destruct (cmp b a).
  - change (b :: ParallelSort.merge cmp (a :: l1) l2 ≡ₚ a :: l1 ++ b :: l2).
    rewrite IH2. simpl. rewrite <- Permutation_middle. apply Permutation_swap.
  - by rewrite IH1.
Qed.

Lemma merge_sorted l1 l2 :
  StronglySorted not_after l1 -> StronglySorted not_after l2 ->
  StronglySorted not_after (ParallelSort.merge cmp l1 l2).
Proof.
  intros H1. revert l2. induction H1 as [|a l1 H1 IH1 Ha]; intros l2 H2; [done|].
  induction H2 as [|b l2 H2 IH2 Hb]; simpl; [by constructor|].
  destruct (cmp b a) eqn:E.
  - change (StronglySorted not_after (b :: ParallelSort.merge cmp (a :: l1) l2)).
    constructor; [done|]. rewrite merge_perm. apply Forall_app. split; [|done].
    assert (not_after b a) by by apply cmp_asym.
    constructor; [done|]. eapply Forall_impl; [exact Ha|]. eauto.
  - constructor; [apply IH1; by constructor|]. rewrite merge_perm. apply Forall_app.
    split; [done|]. constructor; [done|]. eapply Forall_impl; [exact Hb|]. eauto.
Qed.

Lemma ParallelSort__spec fuel data grainsize :
  0 < grainsize -> length data <= fuel ->
  exists out, ParallelSort.ParallelSort_ cmp sort fuel data grainsize = Some out /\
    out ≡ₚ data /\ StronglySorted not_after out.
Proof.
  intros Hg. revert data. induction fuel as [|fuel IH]; intros data Hf;
    cbn [ParallelSort.ParallelSort_].
  - rewrite decide_True by lia. eexists. split; [done|]. apply sort_spec.
  - case_decide; [eexists; split; [done|]; apply sort_spec|].
    assert (length data / 2 < length data) by (apply Nat.div_lt; lia).
    assert (1 <= length data / 2) by (apply Nat.div_le_lower_bound; lia).
    destruct (IH (take (length data / 2) data)) as (o1 & -> & Hp1 & Hs1);
      [rewrite length_take; lia|].
    destruct (IH (drop (length data / 2) data)) as (o2 & -> & Hp2 & Hs2);
      [rewrite length_drop; lia|].
    simpl. eexists. split; [done|]. split; [|by apply merge_sorted].
    by rewrite merge_perm, Hp1, Hp2, take_drop.
Qed.

Lemma ParallelSort_spec arr num_threads :
  0 < num_threads ->
  exists out, ParallelSort.ParallelSort cmp sort arr num_threads = Ok (Some out) /\
    out ≡ₚ arr /\ StronglySorted not_after out.
Proof.
  intros Hn. unfold ParallelSort.ParallelSort.
  rewrite check_true by by apply bool_decide_eq_true. simpl.
  destruct (ParallelSort__spec (length arr) arr
    (Nat.max (length arr / num_threads + 5) (Z.to_nat (1024 * 16)))) as (out & -> & ? & ?);
    [lia|lia|]. eauto.
Qed.

End SortProofs.

(** ** Counting distinct keys *)

Section Count.
Context {C : Type} (int_cnt : bool) (cnt_max : Z) (to_C : Z -> C).

Definition pair_le (a b : Localizer.Pair) : Prop := (a.(Localizer.k) <= b.(Localizer.k))%Z.

(** Number of pairs with a given key. *)
Definition cntk (l : list Localizer.Pair) (z : Z) : nat :=
  length (filter (fun p => p.(Localizer.k) = z) l).

Record count_inv (l : list Localizer.Pair) (curr : Z) (cnt : nat) (uniq : list Z) (frq : list C) : Prop := {
  ci_sorted : StronglySorted Z.lt (uniq ++ [curr]);
  ci_elem : forall z, z ∈ uniq ++ [curr] <-> z ∈ map Localizer.k l;
  ci_frq : frq = map (fun z => Localizer.frq_of int_cnt cnt_max to_C (cntk l z)) uniq;
  ci_cnt : cnt = cntk l curr
}.

Lemma cntk_app l p z : cntk (l ++ [p]) z = cntk l z + (if decide (p.(Localizer.k) = z) then 1 else 0).
Proof.
  unfold cntk. rewrite filter_app, length_app, filter_cons, filter_nil. by case_decide.
Qed.

Lemma StronglySorted_snoc_lt (l : list Z) x y :
  StronglySorted Z.lt (l ++ [x]) -> (x < y)%Z -> StronglySorted Z.lt ((l ++ [x]) ++ [y]).
Proof.
  intros Hs Hxy. apply StronglySorted_app_1; [done|by repeat constructor|].
  intros a b Ha Hb. apply list_elem_of_singleton in Hb as ->.
  apply elem_of_app in Ha as [Ha|Ha]; [|by apply list_elem_of_singleton in Ha as ->].
  apply list_elem_of_lookup in Ha as [j Hj].
  assert (a < x)%Z; [|lia].
  eapply (StronglySorted_lookup Z.lt (l ++ [x]) j (length l)); [done|..].
  - by eapply lookup_lt_Some.
  - by rewrite lookup_app_l by by eapply lookup_lt_Some.
  - by rewrite lookup_app_r, Nat.sub_diag by lia.
Qed.

Lemma count_step_inv l v curr cnt uniq frq :
  count_inv l curr cnt uniq frq -> Forall (fun p => pair_le p v) l ->
  let '(curr', cnt', uniq', frq') :=
    Localizer.count_step int_cnt cnt_max to_C (curr, cnt, uniq, frq) v in
  count_inv (l ++ [v]) curr' cnt' uniq' frq'.
Proof.
  intros [Hs He Hf Hc] Hle. unfold Localizer.count_step.
  assert (Localizer.k v = curr \/ curr < Localizer.k v)%Z as Hcmp.
  { assert (curr ∈ map Localizer.k l) as Hin by (apply He; set_solver).
    apply list_elem_of_In, in_map_iff in Hin as (p & <- & Hin%list_elem_of_In).
    rewrite Forall_forall in Hle. specialize (Hle p Hin). unfold pair_le in Hle. lia. }
  assert (forall z, z ∈ map Localizer.k (l ++ [v]) <-> z ∈ map Localizer.k l \/ z = Localizer.k v) as Hmap.
  { intros z. rewrite map_app, elem_of_app. simpl. by rewrite list_elem_of_singleton. }
  assert (forall z, z ∈ uniq -> z < curr)%Z as Hlt.
  { intros z Hz. apply list_elem_of_lookup in Hz as [j Hj].
    eapply (StronglySorted_lookup Z.lt (uniq ++ [curr]) j (length uniq)); [done|..].
    - by eapply lookup_lt_Some.
    - by rewrite lookup_app_l by by eapply lookup_lt_Some.
    - by rewrite lookup_app_r, Nat.sub_diag by lia. }
  case_decide as E; split.
  - done.
  - intros z. rewrite Hmap, <- He. subst curr. set_solver.
  - rewrite Hf. apply map_ext_in. intros z Hz%list_elem_of_In%Hlt.
    rewrite cntk_app, decide_False by lia. by rewrite Nat.add_0_r.
  - rewrite cntk_app, decide_True by done. lia.
  - apply StronglySorted_snoc_lt; [done|lia].
  - intros z. rewrite elem_of_app, He, Hmap, list_elem_of_singleton. done.
  - rewrite map_app. simpl. f_equal.
    + rewrite Hf. apply map_ext_in. intros z Hz%list_elem_of_In%Hlt.
      rewrite cntk_app, decide_False by lia. by rewrite Nat.add_0_r.
    + rewrite cntk_app, decide_False, Hc, Nat.add_0_r by done. done.
  - rewrite cntk_app, decide_True by done. destruct Hcmp as [|Hcmp]; [done|].
    assert (cntk l (Localizer.k v) = 0) as ->; [|done].
    unfold cntk. rewrite filter_none; [done|].
    apply Forall_forall. intros p Hp Hk.
    assert (Localizer.k p ∈ uniq ++ [curr]) as Hin.
    { apply He. apply list_elem_of_In, in_map. by apply list_elem_of_In. }
    apply elem_of_app in Hin as [Hin%Hlt|Hin%list_elem_of_singleton]; lia.
Qed.

Lemma count_loop_inv l l' curr cnt uniq frq :
  count_inv l curr cnt uniq frq -> StronglySorted pair_le (l ++ l') ->
  let '(curr', cnt', uniq', frq') :=
    foldl (Localizer.count_step int_cnt cnt_max to_C) (curr, cnt, uniq, frq) l' in
  count_inv (l ++ l') curr' cnt' uniq' frq'.
Proof.
  revert l curr cnt uniq frq. induction l' as [|v l' IH]; intros l curr cnt uniq frq Hi Hs;
    cbn [foldl].
  { by rewrite app_nil_r. }
  assert (Forall (fun p => pair_le p v) l) as Hle.
  { apply Forall_forall. intros p Hp. apply list_elem_of_lookup in Hp as [j Hj].
    eapply (StronglySorted_lookup pair_le _ j (length l)); [done|..].
    - by eapply lookup_lt_Some.
    - by rewrite lookup_app_l by by eapply lookup_lt_Some.
    - by rewrite lookup_app_r, Nat.sub_diag by lia. }
  pose proof (count_step_inv l v curr cnt uniq frq Hi Hle) as Hi'.
  destruct (Localizer.count_step _ _ _ _ v) as [[[c1 n1] u1] f1].
  replace (l ++ v :: l') with ((l ++ [v]) ++ l') in * by by rewrite <- app_assoc.
  by apply IH.
Qed.

(** The loop gives the sorted distinct keys and how often each occurs. *)
Lemma count_loop_spec p ps :
  StronglySorted pair_le (p :: ps) ->
  let '(curr, cnt, uniq, frq) :=
    foldl (Localizer.count_step int_cnt cnt_max to_C) (p.(Localizer.k), 0, [], []) (p :: ps) in
  StronglySorted Z.lt (uniq ++ [curr]) /\
  (forall z, z ∈ uniq ++ [curr] <-> z ∈ map Localizer.k (p :: ps)) /\
  frq ++ [Localizer.frq_of int_cnt cnt_max to_C cnt] =
    map (fun z => Localizer.frq_of int_cnt cnt_max to_C (cntk (p :: ps) z)) (uniq ++ [curr]).
Proof.
  intros Hs. simpl. rewrite decide_True by done.
  pose proof (count_loop_inv [p] ps p.(Localizer.k) 1 [] []) as Hi. simpl in Hi.
  destruct (foldl _ _ ps) as [[[curr cnt] uniq] frq].
  destruct Hi as [H1 H2 H3 H4]; [|done|].
  - split; simpl; [by repeat constructor|done|done|].
    unfold cntk. rewrite filter_cons, decide_True by done. done.
  - split; [done|]. split; [done|]. rewrite map_app. simpl. by rewrite <- H3, <- H4.
Qed.

End Count.

(** ** Matching against a dictionary *)

(** Position of a key in the dictionary. *)
Fixpoint dict_pos (dict : list Z) (z : Z) : option nat :=
  match dict with
  | [] => None
  | d :: dict => if decide (d = z) then Some 0 else option_map S (dict_pos dict z)
  end.

Lemma dict_pos_Some dict z j : dict_pos dict z = Some j -> dict !! j = Some z.
Proof.
  revert j. induction dict as [|d dict IH]; intros j Hj; simpl in *; [done|].
  case_decide; [by simplify_eq|]. destruct (dict_pos dict z) as [j'|]; [|done].
  simplify_eq/=. by apply IH.
Qed.

Lemma dict_pos_elem dict z : is_Some (dict_pos dict z) <-> z ∈ dict.
Proof.
  induction dict as [|d dict IH]; simpl.
  { split; [by intros [? ?]|]. by intros ?%elem_of_nil. }
  rewrite elem_of_cons, <- IH. case_decide as E; [naive_solver|].
  destruct (dict_pos dict z); simpl; [naive_solver|].
  split; [by intros [? ?]|]. intros [?|[? ?]]; [by subst|done].
Qed.

Lemma dict_pos_below dict d z : Forall (fun x => d < x)%Z dict -> (z <= d)%Z -> dict_pos dict z = None.
Proof.
  intros Hf Hz. destruct (dict_pos dict z) as [j|] eqn:E; [|done].
  apply dict_pos_Some in E. rewrite Forall_lookup in Hf. specialize (Hf _ _ E). lia.
Qed.

(** The reference: look up every pair by itself. *)
Definition match_one (dict : list Z) (pos : nat) (st : list nat * nat) (p : Localizer.Pair)
  : outcome (list nat * nat) :=
  match dict_pos dict p.(Localizer.k) with
  | None => Ok st
  | Some j => r ← write_at st.1 p.(Localizer.i) (pos + j + 1); Ok (r, S st.2)
  end.

Lemma match_one_skip d dict pos ps st :
  Forall (fun p => d < p.(Localizer.k))%Z ps ->
  foldM (match_one (d :: dict) pos) ps st = foldM (match_one dict (S pos)) ps st.
Proof.
  intros Hp. apply foldM_ext. intros s p Hin. rewrite Forall_forall in Hp.
  specialize (Hp _ Hin). unfold match_one. simpl. rewrite decide_False by lia.
  destruct (dict_pos dict _); simpl; [|done].
  by replace (pos + S n + 1) with (S (pos + n + 1)) by lia.
Qed.

(** Walking both sequences at once gives the same as one lookup per pair. *)
Lemma match_dict_eq dict pos ps st :
  StronglySorted Z.lt dict -> StronglySorted pair_le ps ->
  Localizer.match_dict dict pos ps st = foldM (match_one dict pos) ps st.
Proof.
  intros Hd. revert pos ps st. induction Hd as [|d dict Hd IH Hlt]; intros pos ps st Hs.
  { simpl. revert st. clear Hs. induction ps; intros st; [done|]. simpl. apply IHps. }
  revert st. induction Hs as [|p ps Hs IHp Hle]; intros st; [done|].
  cbn [Localizer.match_dict]. destruct (Z.ltb_spec d p.(Localizer.k)) as [Hk|Hk].
  - rewrite match_one_skip. 2:{ constructor; [done|]. eapply Forall_impl; [exact Hle|].
      unfold pair_le. intros; lia. }
    apply IH. by constructor.
  - change (foldM (match_one (d :: dict) pos) (p :: ps) st) with
      (s ← match_one (d :: dict) pos st p; foldM (match_one (d :: dict) pos) ps s).
    destruct (Z.eqb_spec d p.(Localizer.k)) as [E|E].
    + assert (match_one (d :: dict) pos st p =
        (r ← write_at st.1 p.(Localizer.i) (pos + 1); Ok (r, S st.2))) as ->.
      { unfold match_one. simpl. rewrite decide_True by done. by rewrite Nat.add_0_r. }
      destruct (write_at _ _ _); [|done]. apply IHp.
    + assert (match_one (d :: dict) pos st p = Ok st) as ->.
      { unfold match_one. simpl. rewrite decide_False by done.
        by rewrite (dict_pos_below dict d) by (done || lia). }
      apply IHp.
Qed.

(** [code dict z]: what [remapped_idx] holds for a feature with key [z]. *)
Definition code (dict : list Z) (z : Z) : nat :=
  match dict_pos dict z with None => 0 | Some j => j + 1 end.

Lemma match_one_loop dict ps r m :
  NoDup (map Localizer.i ps) -> Forall (fun p => p.(Localizer.i) < length r) ps ->
  exists r', foldM (match_one dict 0) ps (r, m) =
      Ok (r', m + length (filter (fun p => is_Some (dict_pos dict p.(Localizer.k))) ps)) /\
    length r' = length r /\
    (forall j, (forall p, p ∈ ps -> p.(Localizer.i) <> j) -> r' !! j = r !! j) /\
    (forall p, p ∈ ps -> is_Some (dict_pos dict p.(Localizer.k)) ->
       r' !! p.(Localizer.i) = Some (code dict p.(Localizer.k))) /\
    (forall p, p ∈ ps -> dict_pos dict p.(Localizer.k) = None -> r' !! p.(Localizer.i) = r !! p.(Localizer.i)).
Proof.
  revert r m. induction ps as [|p ps IH]; intros r m Hnd Hb; cbn [foldM map] in *.
  { exists r. simpl. rewrite Nat.add_0_r. split_and!; try done; by intros p ?%elem_of_nil. }
  apply NoDup_cons in Hnd as [Hn Hnd]. apply Forall_cons in Hb as [Hp Hb].
  assert (forall q, q ∈ ps -> q.(Localizer.i) <> p.(Localizer.i)) as Hne.
  { intros q Hq E. apply Hn. rewrite <- E. apply list_elem_of_In, in_map. by apply list_elem_of_In. }
  rewrite filter_cons. destruct (dict_pos dict (Localizer.k p)) as [j|] eqn:Ej.
  - assert (match_one dict 0 (r, m) p = Ok (<[Localizer.i p := j + 1]> r, S m)) as ->.
    { unfold match_one. rewrite Ej. simpl. by rewrite write_at_lt. }
    simpl.
    destruct (IH (<[Localizer.i p := j + 1]> r) (S m)) as (r' & -> & L & H1 & H2 & H3); [done|..].
    { by rewrite length_insert. }
    rewrite length_insert in L. exists r'. split; [f_equal; f_equal; lia|]. split; [done|].
    split_and!.
    + intros i Hi. rewrite H1 by (intros q Hq; apply Hi; by right).
      apply list_lookup_insert_ne. apply Hi. by left.
    + intros q [->|Hq]%elem_of_cons Hs; [|by apply H2].
      rewrite H1 by done. rewrite list_lookup_insert_eq by done. unfold code. by rewrite Ej.
    + intros q [->|Hq]%elem_of_cons Hs; [congruence|].
      rewrite H3 by done. apply list_lookup_insert_ne. intros E. by apply (Hne q Hq).
  - assert (match_one dict 0 (r, m) p = Ok (r, m)) as -> by (unfold match_one; by rewrite Ej).
    simpl. destruct (IH r m) as (r' & -> & L & H1 & H2 & H3); [done..|].
    exists r'. split; [done|]. split; [done|]. split_and!.
    + intros i Hi. apply H1. intros q Hq. apply Hi. by right.
    + intros q [->|Hq]%elem_of_cons Hs; [rewrite Ej in Hs; by destruct Hs|by apply H2].
    + intros q [->|Hq]%elem_of_cons Hs; [by apply H1|by apply H3].
Qed.

(** The pairs of a feature list. *)
Definition pairs_of (key : Z -> Z) (ixs : list Z) : list Localizer.Pair :=
  imap (fun j ix => Localizer.mkPair (key ix) j) ixs.

Lemma pairs_of_i key ixs : map Localizer.i (pairs_of key ixs) = seq 0 (length ixs).
Proof.
  unfold pairs_of. apply list_eq. intros j. rewrite list_lookup_fmap, list_lookup_imap.
  destruct (decide (j < length ixs)) as [Hj|Hj].
  - destruct (lookup_lt_is_Some_2 _ _ Hj) as [x ->]. simpl. by rewrite lookup_seq_lt.
  - rewrite (proj2 (lookup_ge_None ixs j)) by lia. simpl. symmetry. apply lookup_seq_ge. lia.
Qed.

Lemma pairs_of_length key ixs : length (pairs_of key ixs) = length ixs.
Proof. apply length_imap. Qed.

Lemma pairs_of_k key ixs : map Localizer.k (pairs_of key ixs) = map key ixs.
Proof.
  unfold pairs_of. apply list_eq. intros j. rewrite !list_lookup_fmap, list_lookup_imap.
  by destruct (ixs !! j).
Qed.

(** [remapped_idx] after the loop. *)
Lemma remapped_spec key dict ixs ps :
  StronglySorted Z.lt dict -> StronglySorted pair_le ps -> ps ≡ₚ pairs_of key ixs ->
  Localizer.match_dict dict 0 ps (replicate (length ps) 0, 0) =
    Ok (map (fun ix => code dict (key ix)) ixs,
        length (filter (fun ix => is_Some (dict_pos dict (key ix))) ixs)).
Proof.
  intros Hd Hs Hp. rewrite match_dict_eq by done.
  assert (length ps = length ixs) as Hl by by rewrite Hp, pairs_of_length.
  destruct (match_one_loop dict ps (replicate (length ps) 0) 0) as (r' & -> & L & H1 & H2 & H3).
  { rewrite Hp, pairs_of_i. apply NoDup_seq. }
  { rewrite length_replicate. apply Forall_forall. intros p Hin.
    assert (p.(Localizer.i) ∈ map Localizer.i (pairs_of key ixs)) as Hin2.
    { rewrite <- Hp. apply list_elem_of_In, in_map. by apply list_elem_of_In. }
    rewrite pairs_of_i in Hin2. apply elem_of_seq in Hin2. lia. }
  f_equal. f_equal.
  - rewrite length_replicate in L. apply list_eq. intros j. rewrite list_lookup_fmap.
    destruct (ixs !! j) as [x|] eqn:Ex; simpl.
    2:{ apply lookup_ge_None in Ex. apply lookup_ge_None. lia. }
    assert (Localizer.mkPair (key x) j ∈ ps) as Hin.
    { rewrite Hp. apply list_elem_of_lookup. exists j. unfold pairs_of.
      by rewrite list_lookup_imap, Ex. }
    destruct (dict_pos dict (key x)) as [q|] eqn:Eq.
    + apply (H2 _ Hin). simpl. by rewrite Eq.
    + specialize (H3 _ Hin Eq). simpl in H3. rewrite H3. unfold code. rewrite Eq.
      apply lookup_replicate_2. rewrite Hl. by eapply lookup_lt_Some.
  - rewrite Nat.add_0_l, Hp.
    etransitivity; [symmetry; apply (length_filter_map Localizer.k (fun z => is_Some (dict_pos dict z)))|].
    rewrite pairs_of_k. apply (length_filter_map key (fun z => is_Some (dict_pos dict z))).
Qed.

(** ** The remapped rows *)

Section Remap.
Context {F : Type} `{Float F} (key : Z -> Z) (dict : list Z).

(** What is left of the features and of the values of a row: those whose key is
    in the dictionary, the features as positions in it. *)
Definition sel (ixs : list Z) : list Z :=
  omap (fun ix => option_map Z.of_nat (dict_pos dict (key ix))) ixs.
Definition selv (ixs : list Z) (vs : list F) : list F :=
  map snd (filter (fun iv => is_Some (dict_pos dict (key iv.1))) (zip ixs vs)).
Definition local_row (r : arow (F := F)) : arow :=
  mkArow r.(a_label) [] (sel r.(a_index)) (selv r.(a_index) r.(a_value)).

Lemma sel_length ixs : length (sel ixs) = length (filter (fun ix => is_Some (dict_pos dict (key ix))) ixs).
Proof.
  induction ixs as [|x ixs IH]; [done|]. unfold sel in *. rewrite filter_cons. simpl.
  destruct (dict_pos dict (key x)); simpl; [f_equal|]; exact IH.
Qed.

Lemma selv_length ixs vs : length vs = length ixs -> length (selv ixs vs) = length (sel ixs).
Proof.
  unfold selv, sel. revert vs. induction ixs as [|x ixs IH]; intros [|v vs] Hl; simplify_eq/=; try done.
  rewrite filter_cons. simpl. specialize (IH vs). destruct (dict_pos dict (key x)); simpl; [f_equal|]; by apply IH.
Qed.

Lemma sel_app l1 l2 : sel (l1 ++ l2) = sel l1 ++ sel l2.
Proof. apply omap_app. Qed.

Lemma selv_app l1 l2 v1 v2 :
  length v1 = length l1 -> selv (l1 ++ l2) (v1 ++ v2) = selv l1 v1 ++ selv l2 v2.
Proof.
  intros Hl. unfold selv. rewrite zip_with_app by done. by rewrite filter_app, map_app.
Qed.

Lemma sel_one ix : sel [ix] = match dict_pos dict (key ix) with Some j => [Z.of_nat j] | None => [] end.
Proof. unfold sel. simpl. by destruct (dict_pos dict (key ix)). Qed.

Lemma selv_one ix v : selv [ix] [v] = match dict_pos dict (key ix) with Some _ => [v] | None => [] end.
Proof.
  unfold selv. simpl. rewrite filter_cons. simpl. by destruct (dict_pos dict (key ix)).
Qed.

(** The state of the feature loop after [t] features of row [r]. *)
Definition feat_inv (blk : RowBlock F) (r : arow) (oix0 : list Z) (ovl0 : list F) (kk0 t : nat)
    (st : list Z * list F * nat * nat) : Prop :=
  let '(oix, ovl, kk, n) := st in
  n = length (sel (take t r.(a_index))) /\ kk = kk0 + n /\ length oix = length oix0 /\
  take kk oix = take kk0 oix0 ++ sel (take t r.(a_index)) /\
  match blk.(b_value) with
  | None => ovl = ovl0
  | Some _ => length ovl = length ovl0 /\
      take kk ovl = take kk0 ovl0 ++ selv (take t r.(a_index)) (take t r.(a_value))
  end.

(** The arrays give the features of row [r] from position [b] on. *)
Definition row_at (blk : RowBlock F) (remapped : list nat) (b : nat) (r : arow) : Prop :=
  (forall t ix, r.(a_index) !! t = Some ix -> remapped !! (b + t) = Some (code dict (key ix))) /\
  match blk.(b_value) with
  | None => r.(a_value) = []
  | Some _ => length r.(a_value) = nfeat r /\
      forall t v, r.(a_value) !! t = Some v -> ptr_at blk.(b_value) (b + t) = Ok v
  end.

Lemma remap_feature_step blk remapped b r oix0 ovl0 kk0 t st :
  row_at blk remapped b r -> t < nfeat r ->
  kk0 + length (sel r.(a_index)) <= length oix0 ->
  (is_Some blk.(b_value) -> kk0 + length (sel r.(a_index)) <= length ovl0) ->
  feat_inv blk r oix0 ovl0 kk0 t st ->
  exists st', Localizer.remap_feature blk remapped st (b + t) = Ok st' /\
    feat_inv blk r oix0 ovl0 kk0 (S t) st'.
Proof.
  intros [Hrow Hval] Ht Hm Hmv. destruct st as [[[oix ovl] kk] n].
  intros (-> & -> & Hlo & Hto & Hv). unfold Localizer.remap_feature.
  destruct (lookup_lt_is_Some_2 _ _ Ht) as [ix Hix].
  rewrite (proj2 (read_at_Ok _ _ _) (Hrow t ix Hix)). simpl.
  assert (take (S t) r.(a_index) = take t r.(a_index) ++ [ix]) as Hts by by apply take_S_r.
  unfold feat_inv. rewrite Hts, !sel_app, sel_one. unfold code.
  destruct (dict_pos dict (key ix)) as [q|] eqn:Eq.
  2:{ rewrite decide_True by done. eexists. split; [done|]. cbv zeta. rewrite app_nil_r.
      split_and!; try done. destruct (b_value blk) as [bv|]; [|done]. destruct Hv as [? Hv].
      split; [done|]. destruct Hval as [Hl _].
      destruct (lookup_lt_is_Some_2 r.(a_value) t) as [v Hvt]; [by rewrite Hl|].
      rewrite (take_S_r _ _ _ Hvt), selv_app, selv_one, Eq, app_nil_r; [done|].
      rewrite !length_take. unfold nfeat in *. lia. }
  rewrite decide_False by lia.
  assert (length (sel (take t r.(a_index))) < length (sel r.(a_index))) as Hlt.
  { rewrite <- (take_drop (S t) r.(a_index)) at 2. rewrite Hts, !sel_app, sel_one, Eq, !length_app.
    simpl. lia. }
  set (kk := kk0 + length (sel (take t r.(a_index)))) in *.
  rewrite Nat.add_sub, length_app. simpl.
  destruct (b_value blk) as [bv|] eqn:Ebv.
  - destruct Hval as [Hl Hval]. destruct Hv as [Hlv Htv].
    destruct (lookup_lt_is_Some_2 r.(a_value) t) as [v Hvt]; [by rewrite Hl|].
    rewrite (Hval t v Hvt). simpl. specialize (Hmv ltac:(eauto)).
    rewrite write_at_lt by lia. simpl. rewrite write_at_lt by lia. simpl.
    eexists. split; [done|]. cbv beta iota zeta. rewrite !length_insert.
    rewrite !take_S_insert, Hto, Htv, <- !app_assoc by lia.
    split_and!; try done; try lia.
    rewrite (take_S_r _ _ _ Hvt), selv_app, selv_one, Eq; [done|].
    rewrite !length_take. unfold nfeat in *. lia.
  - simpl. rewrite write_at_lt by lia. simpl. eexists. split; [done|]. cbv beta iota zeta. rewrite !length_insert.
    rewrite !take_S_insert, Hto, <- !app_assoc by lia. split_and!; try done; lia.
Qed.

Lemma remap_features blk remapped b r oix0 ovl0 kk0 :
  row_at blk remapped b r -> kk0 + length (sel r.(a_index)) <= length oix0 ->
  (is_Some blk.(b_value) -> kk0 + length (sel r.(a_index)) <= length ovl0) ->
  exists st, foldM (Localizer.remap_feature blk remapped) (seq b (nfeat r)) (oix0, ovl0, kk0, 0) = Ok st /\
    feat_inv blk r oix0 ovl0 kk0 (nfeat r) st.
Proof.
  intros Hr H1 H2.
  destruct (foldM_seq (Localizer.remap_feature blk remapped)
    (fun j st => feat_inv blk r oix0 ovl0 kk0 (j - b) st) b (nfeat r) (oix0, ovl0, kk0, 0))
    as (st & E & Hst).
  - rewrite Nat.sub_diag. simpl. rewrite Nat.add_0_r, !app_nil_r.
    split_and!; try done. by destruct (b_value blk).
  - intros j st Hj Hst.
    destruct (remap_feature_step blk remapped b r oix0 ovl0 kk0 (j - b) st) as (s' & E & Hs');
      try done; [lia|].
    replace (b + (j - b)) with j in E by lia. replace (j + 1 - b) with (S (j - b)) by lia. eauto.
  - exists st. split; [done|]. by replace (b + nfeat r - b) with (nfeat r) in Hst by lia.
Qed.

(** ** The whole block *)

Lemma shows_row_at blk rs i r :
  shows 0 0 blk rs -> rs !! i = Some r ->
  row_at blk (map (fun ix => code dict (key ix)) (concat (map a_index rs)))
    (sum_list (take i (map nfeat rs))) r.
Proof.
  intros [Hs Ho Hl Hw Hix Hv] Hr.
  assert (map a_index rs !! i = Some r.(a_index)) as Hai by (rewrite list_lookup_fmap, Hr; done).
  assert (sum_list (take i (map nfeat rs)) = sum_list (map length (take i (map a_index rs)))) as Esum.
  { by rewrite <- !firstn_map, map_map. }
  split.
  - intros t ix Ht. rewrite list_lookup_fmap, Esum.
    by rewrite (concat_lookup_piece _ _ _ _ _ Hai Ht).
  - destruct (b_value blk) as [v|] eqn:Ev.
    + destruct Hv as [Hv1 Hv2]. split; [rewrite Forall_lookup in Hv1; by apply (Hv1 i)|].
      intros t x Hx. apply read_at_Ok. simpl. rewrite drop_0 in Hv2.
      assert (map a_value rs !! i = Some r.(a_value)) as Hav by (rewrite list_lookup_fmap, Hr; done).
      pose proof (concat_lookup_piece _ _ _ _ _ Hav Hx) as Hc.
      rewrite <- Hv2 in Hc. rewrite <- firstn_map, map_length_nfeat in Hc by done.
      rewrite lookup_take in Hc by (pose proof (lookup_lt_Some _ _ _ Hc) as Hlt;
        rewrite length_take in Hlt; lia). by case_decide.
    + rewrite Forall_lookup in Hv. by apply (Hv i).
Qed.

(** The state of the row loop after [i] rows. *)
Definition rows_inv (blk : RowBlock F) (rs : list arow) (M i : nat)
    (st : list nat * list Z * list F * nat) : Prop :=
  let '(off, oix, ovl, kk) := st in
  let done := map local_row (take i rs) in
  length off = S (length rs) /\ take (S i) off = psums 0 (map nfeat done) /\
  kk = sum_list (map nfeat done) /\ length oix = M /\
  take kk oix = concat (map a_index done) /\
  match blk.(b_value) with
  | None => ovl = []
  | Some _ => length ovl = M /\ take kk ovl = concat (map a_value done)
  end.

Lemma remap_row_step blk rs i st :
  let M := sum_list (map nfeat (map local_row rs)) in
  shows 0 0 blk rs -> i < length rs -> rows_inv blk rs M i st ->
  exists st', Localizer.remap_row blk
      (map (fun ix => code dict (key ix)) (concat (map a_index rs))) st i = Ok st' /\
    rows_inv blk rs M (S i) st'.
Proof.
  intros M Hsh Hi. destruct st as [[[off oix] ovl] kk].
  intros (Hlo & Hto & -> & Hlx & Htx & Hv). unfold Localizer.remap_row.
  destruct (lookup_lt_is_Some_2 _ _ Hi) as [r Hr].
  pose proof Hsh as [Hs Ho _ _ _ _].
  assert (forall j, j <= length rs ->
    read_at (b_offset blk) j = Ok (0 + sum_list (take j (map nfeat rs)))) as Hoff.
  { intros j Hj. eapply read_take; [exact Ho|lia|]. apply psums_lookup. by rewrite length_map. }
  assert (map nfeat rs !! i = Some (nfeat r)) as Hni by (rewrite list_lookup_fmap, Hr; done).
  rewrite !Hoff by lia. simpl. rewrite (Nat.add_1_r i), (take_S_r _ _ _ Hni), sum_list_app. simpl.
  replace (_ + (nfeat r + 0) - _) with (nfeat r) by lia.
  assert (map local_row (take (S i) rs) = map local_row (take i rs) ++ [local_row r]) as Hd.
  { by rewrite (take_S_r _ _ _ Hr), map_app. }
  assert (sum_list (map nfeat (map local_row (take i rs))) + length (sel r.(a_index)) <= M) as HM.
  { subst M. rewrite <- (take_drop (S i) rs) at 2. rewrite map_app, Hd, !map_app, !sum_list_app.
    simpl. change (nfeat (local_row r)) with (length (sel r.(a_index))). lia. }
  destruct (remap_features blk (map (fun ix => code dict (key ix)) (concat (map a_index rs)))
    (sum_list (take i (map nfeat rs))) r oix ovl (sum_list (map nfeat (map local_row (take i rs)))))
    as ([[[oix' ovl'] kk'] n'] & -> & Hf).
  { by apply shows_row_at. }
  { lia. }
  { intros [bv Ebv]. rewrite Ebv in Hv. lia. }
  simpl. destruct Hf as (-> & -> & Hlx' & Htx' & Hv').
  rewrite !(firstn_all2 (n := nfeat r) r.(a_index)) in * by (unfold nfeat; lia).
  assert (read_at off i = Ok (sum_list (map nfeat (map local_row (take i rs))))) as ->.
  { eapply read_take; [exact Hto|lia|].
    pose proof (psums_last 0 (map nfeat (map local_row (take i rs)))) as Hpl.
    rewrite !length_map, length_take, Nat.min_l in Hpl by lia. exact Hpl. }
  simpl. rewrite write_at_lt by lia. simpl. eexists. split; [done|].
  unfold rows_inv. rewrite Hd, !map_app, sum_list_app, !concat_app. cbv zeta.
  assert (sum_list (map nfeat [local_row r]) = length (sel r.(a_index))) as ->.
  { simpl. unfold nfeat. simpl. lia. }
  split_and!; try done.
  - by rewrite length_insert.
  - rewrite take_S_insert, psums_app, Hto by lia. done.
  - lia.
  - rewrite Htx', Htx. simpl. by rewrite app_nil_r.
  - destruct (b_value blk) as [bv|] eqn:Ebv; [|congruence]. destruct Hv' as [Hl' Ht'], Hv as [Hl Ht].
    split; [lia|]. rewrite Ht', Ht. simpl. rewrite app_nil_r.
    destruct Hsh as [_ _ _ _ _ Hval]. rewrite Ebv in Hval. destruct Hval as [Hval _].
    rewrite Forall_lookup in Hval. by rewrite (firstn_all2 r.(a_value)) by (rewrite (Hval i) by done; lia).
Qed.

(** [RemapIndex] on a fresh container. *)
Lemma RemapIndex_spec blk rs ps :
  shows 0 0 blk rs -> rs <> [] -> dict <> [] -> (Z.of_nat (length dict) < 4294967295)%Z ->
  StronglySorted Z.lt dict -> StronglySorted pair_le ps ->
  ps ≡ₚ pairs_of key (concat (map a_index rs)) ->
  exists c, Localizer.RemapIndex blk dict ps Clear = Ok c /\
    holds c (map local_row rs) /\ c.(max_index) = (Z.of_nat (length dict) - 1)%Z.
Proof.
  intros Hsh Hrs Hd Hdl Hds Hps Hp. pose proof Hsh as [Hs Ho Hl Hw Hix Hv].
  unfold Localizer.RemapIndex. rewrite Hs.
  rewrite decide_False by (intros [?%nil_length_inv|?]; done).
  rewrite check_true by lia. simpl.
  assert (length ps = length (concat (map a_index rs))) as Hlen by by rewrite Hp, pairs_of_length.
  pose proof (psums_last 0 (map nfeat rs)) as Hlast. rewrite length_map in Hlast.
  rewrite (read_take _ _ _ _ _ Ho (Nat.lt_succ_diag_r _) Hlast). simpl.
  rewrite check_true by (apply bool_decide_eq_true; by rewrite Hlen, length_a_index). simpl.
  rewrite (remapped_spec key dict _ ps Hds Hps Hp). simpl.
  set (remapped := map (fun ix => code dict (key ix)) (concat (map a_index rs))).
  assert (length (filter (fun ix => is_Some (dict_pos dict (key ix))) (concat (map a_index rs)))
    = sum_list (map nfeat (map local_row rs))) as ->.
  { rewrite <- sel_length. clear. induction rs as [|r rs IH]; [done|]. simpl.
    rewrite sel_app, length_app, IH. done. }
  set (M := sum_list (map nfeat (map local_row rs))).
  rewrite write_at_lt by (rewrite length_resize; lia). simpl.
  destruct (foldM_seq (Localizer.remap_row blk remapped) (rows_inv blk rs M) 0 (length rs)
    (<[0:=0]> (resize (length rs + 1) 0 [0]), resize M 0%Z [],
     match blk.(b_value) with Some _ => resize M fzero [] | None => [] end, 0))
    as ([[[off oix] ovl] kk] & E & Hinv).
  - unfold rows_inv. simpl. rewrite length_insert, !length_resize.
    split_and!; try done; try lia.
    + rewrite Nat.add_1_r. done.
    + destruct (b_value blk); [|done]. by rewrite length_resize.
  - intros j st Hj Hst. rewrite Nat.add_1_r. apply remap_row_step; [done|lia|done].
  - rewrite E. simpl. unfold rows_inv in Hinv.
    rewrite Nat.add_0_l, (firstn_all2 rs) in Hinv by lia.
    destruct Hinv as (Hlo & Hto & -> & Hlx & Htx & Hvv).
    rewrite check_true by by apply bool_decide_eq_true. simpl.
    assert (exists l, blk.(b_label) = Some l) as [l Hlab].
    { destruct (b_label blk) as [l|]; [eauto|]. simpl in Hl. rewrite take_nil in Hl.
      destruct rs; done. }
    rewrite Hlab in *. rewrite (ptr_read_spec (Some l) (length rs) _ Hl) by apply length_map. simpl.
    eexists. split; [done|]. split; [|done]. split; simpl.
    + rewrite <- Hto. by rewrite firstn_all2 by lia.
    + by rewrite map_map.
    + clear. by induction rs.
    + rewrite <- Htx. by rewrite firstn_all2 by lia.
    + destruct (b_value blk) as [bv|].
      * destruct Hvv as [Hlv <-]. by rewrite firstn_all2 by lia.
      * subst ovl. clear -Hv. induction Hv as [|r rs Er _ IH]; [done|].
        simpl. rewrite <- IH, Er, app_nil_r. unfold selv. by rewrite zip_with_nil_r.
Qed.

End Remap.

(** ** Localizing a block *)

(** Every feature of the block has its key in the dictionary: nothing is
    dropped. *)
Lemma local_row_all {F} `{Float F} (key : Z -> Z) uniq (r : arow (F := F)) :
  (forall ix, ix ∈ r.(a_index) -> key ix ∈ uniq) ->
  Forall2 (fun ix j => (0 <= j)%Z /\ uniq !! Z.to_nat j = Some (key ix))
    r.(a_index) (local_row key uniq r).(a_index) /\
  (length r.(a_value) = nfeat r -> (local_row key uniq r).(a_value) = r.(a_value)).
Proof.
  simpl. unfold selv, nfeat. generalize r.(a_value).
  induction (a_index r) as [|ix ixs IH]; intros vs Hall; simpl.
  { split; [constructor|]. by destruct vs. }
  assert (is_Some (dict_pos uniq (key ix))) as [j Hj] by (apply dict_pos_elem, Hall; set_solver).
  unfold sel. simpl. rewrite Hj. simpl. destruct (IH (tail vs)) as [H1 H2]; [set_solver|].
  split.
  - constructor; [|exact H1]. split; [lia|]. rewrite Nat2Z.id. by apply dict_pos_Some.
  - destruct vs as [|v vs]; [done|]. simpl. intros Hl. rewrite filter_cons. simpl.
    rewrite Hj. simpl. f_equal. apply H2. simpl in *. lia.
Qed.


Section LocalizeProofs.
Context {F : Type} `{Float F} (isz : nat) (imax FLAGS_max_key : Z) (nt_ : nat).
Context (sort : list Localizer.Pair -> list Localizer.Pair).
Context {C : Type} (int_cnt : bool) (cnt_max : Z) (to_C : Z -> C).

(** The contract of [std::sort] for the comparison of the keys. *)
Hypothesis sort_sorts :
  forall l, sort l ≡ₚ l /\ StronglySorted (not_after Localizer.pair_lt) (sort l).

Let key := Localizer.key isz imax FLAGS_max_key.
Let key_at := Localizer.key_at isz imax FLAGS_max_key.

Lemma key_at_ok ix : FLAGS_max_key <> 0%Z -> key_at ix = Ok (key ix).
Proof. intros Hk. unfold key_at, Localizer.key_at. destruct (Z.eqb_spec FLAGS_max_key 0); [done|]. by rewrite andb_false_r. Qed.

Lemma not_after_pair_le a b : not_after Localizer.pair_lt a b <-> pair_le a b.
Proof. unfold not_after, Localizer.pair_lt, pair_le. rewrite Z.ltb_ge. done. Qed.

Lemma build_pairs p n l :
  FLAGS_max_key <> 0%Z -> take n (default [] p) = l -> length l = n ->
  foldM (fun ps i => ix ← ptr_at p i; k ← key_at ix; Ok (ps ++ [Localizer.mkPair k i])) (seq 0 n) []
  = Ok (pairs_of key l).
Proof.
  intros Hk Hl Hn.
  destruct (foldM_seq (fun ps i => ix ← ptr_at p i; k ← key_at ix; Ok (ps ++ [Localizer.mkPair k i]))
    (fun i s => s = take i (pairs_of key l)) 0 n []) as (s' & -> & ->).
  - done.
  - intros j s Hj ->. destruct (lookup_lt_is_Some_2 l j) as [x Hx]; [lia|].
    eexists. split; [|done]. unfold ptr_at. rewrite (read_take n _ l j x) by (done || lia). cbn [mbind outcome_bind]. rewrite key_at_ok by done. cbn [mbind outcome_bind].
    rewrite Nat.add_1_r, (take_S_r _ _ (Localizer.mkPair (key x) j)); [done|].
    unfold pairs_of. by rewrite list_lookup_imap, Hx.
  - rewrite Nat.add_0_l, firstn_all2; [done|]. rewrite pairs_of_length. lia.
Qed.

(** Occurrences of a key among the features. *)
Definition occurrences (ixs : list Z) (z : Z) : nat := length (filter (fun ix => key ix = z) ixs).

Lemma cntk_occurrences ps ixs z : ps ≡ₚ pairs_of key ixs -> cntk ps z = occurrences ixs z.
Proof.
  intros Hp. unfold cntk, occurrences. rewrite Hp.
  etransitivity; [symmetry; apply (length_filter_map Localizer.k (fun x => x = z))|].
  rewrite pairs_of_k. apply (length_filter_map key (fun x => x = z)).
Qed.

Lemma CountUniqIndex_spec blk rs u0 f0 :
  let ixs := concat (map a_index rs) in
  FLAGS_max_key <> 0%Z -> shows (F := F) 0 0 blk rs -> 0 < nt_ -> ixs <> [] -> (Z.of_nat (length ixs) < 4294967295)%Z ->
  exists ps uniq, Localizer.CountUniqIndex isz imax FLAGS_max_key nt_ sort int_cnt cnt_max to_C
      blk [] u0 f0 =
    Ok (ps, uniq, map (fun z => Localizer.frq_of int_cnt cnt_max to_C (occurrences ixs z)) uniq) /\
    ps ≡ₚ pairs_of key ixs /\ StronglySorted pair_le ps /\ StronglySorted Z.lt uniq /\
    (forall z, z ∈ uniq <-> z ∈ map key ixs).
Proof.
  intros ixs Hk Hsh Hnt Hne Hlt. pose proof Hsh as [Hs Ho Hl Hw Hix Hv].
  unfold Localizer.CountUniqIndex. rewrite Hs.
  rewrite decide_False by (intros ?%nil_length_inv; subst rs; done).
  pose proof (psums_last 0 (map nfeat rs)) as Hlast. rewrite length_map in Hlast.
  rewrite (read_take _ _ _ _ _ Ho (Nat.lt_succ_diag_r _) Hlast). simpl.
  rewrite <- length_a_index. fold ixs. rewrite check_true by lia. simpl.
  rewrite drop_0, <- length_a_index in Hix.
  pose proof (build_pairs _ _ _ Hk Hix eq_refl) as Hbp. fold ixs in Hbp. unfold key, key_at in Hbp.
  rewrite Hbp. simpl. fold key.
  destruct (ParallelSort_spec Localizer.pair_lt sort) with (arr := pairs_of key ixs) (num_threads := nt_)
    as (ps & -> & Hp & Hsort); try done.
  { intros a b Hab. apply not_after_pair_le. unfold Localizer.pair_lt, pair_le in *. lia. }
  { intros a b c. rewrite !not_after_pair_le. unfold pair_le. lia. }
  assert (StronglySorted pair_le ps) as Hps.
  { clear -Hsort. induction Hsort as [|a l Hl IH Ha]; constructor; [done|].
    eapply Forall_impl; [exact Ha|]. intros b. apply not_after_pair_le. }
  simpl. destruct ps as [|p ps].
  { apply Permutation_nil_l in Hp. apply (f_equal length) in Hp.
    rewrite pairs_of_length in Hp. by destruct ixs. }
  change (read_at (p :: ps) 0) with (Ok p). unfold mbind, outcome_bind at 1.
  pose proof (count_loop_spec int_cnt cnt_max to_C p ps Hps) as Hc.
  destruct (foldl _ _ (p :: ps)) as [[[curr cnt] uniq] frq]. destruct Hc as (Hc1 & Hc2 & Hc3).
  exists (p :: ps), (uniq ++ [curr]). split; [|split_and!; try done].
  - rewrite Hc3. do 2 f_equal. apply map_ext. intros z. by rewrite (cntk_occurrences _ ixs).
  - intros z. by rewrite Hc2, Hp, pairs_of_k.
Qed.

Lemma Localize_zero blk rs u0 f0 o :
  FLAGS_max_key = 0%Z -> (0 < imax)%Z -> shows (F := F) 0 0 blk rs -> concat (map a_index rs) <> [] -> (Z.of_nat (length (concat (map a_index rs))) < 4294967295)%Z ->
  Localizer.Localize isz imax FLAGS_max_key nt_ sort int_cnt cnt_max to_C blk o u0 f0 = Fail DivByZero.
Proof.
  intros Hk Hi Hsh Hne Hlt. pose proof Hsh as [Hs Ho Hl Hw Hix Hv]. unfold Localizer.Localize, Localizer.CountUniqIndex. rewrite Hs.
  rewrite decide_False by (intros ?%nil_length_inv; subst rs; done).
  pose proof (psums_last 0 (map nfeat rs)) as Hlast. rewrite length_map in Hlast.
  rewrite (read_take _ _ _ _ _ Ho (Nat.lt_succ_diag_r _) Hlast). cbn [mbind outcome_bind]. rewrite Nat.add_0_l, <- length_a_index. rewrite check_true by lia. cbn [mbind outcome_bind].
  rewrite drop_0, <- length_a_index in Hix. destruct (concat (map a_index rs)) as [|ix ixs]; [done|]. cbn [length seq foldM]. unfold ptr_at.
  rewrite (read_take _ _ _ 0 ix Hix) by (done || simpl; lia). cbn [mbind outcome_bind]. unfold Localizer.key_at. rewrite Hk. by destruct (Z.ltb_spec 0 imax); [|lia].
Qed.

End LocalizeProofs.

(** ** Properties *)

Lemma local_uniform {F} `{Float F} (key : Z -> Z) uniq blk (rs : list (arow (F := F))) :
  shows 0 0 blk rs ->
  Forall2 (fun r r' => r'.(a_value) = r.(a_value) /\ nfeat r' = nfeat r) rs (map (local_row key uniq) rs) ->
  uniform (map (local_row key uniq) rs).
Proof.
  intros Hsh Hrs. split; [|left; apply Forall_map, Forall_forall; done].
  pose proof (s_value _ _ _ _ Hsh) as Hv. destruct (b_value blk).
  - right. destruct Hv as [Hv _]. apply Forall_lookup. intros i r' Hr'.
    destruct (Forall2_lookup_r _ _ _ _ _ Hrs Hr') as (r & Hr & -> & ->). rewrite Forall_lookup in Hv. by eapply Hv.
  - left. apply Forall_lookup. intros i r' Hr'. destruct (Forall2_lookup_r _ _ _ _ _ Hrs Hr') as (r & Hr & -> & _).
    simpl in Hv. rewrite Forall_lookup in Hv. by eapply Hv.
Qed.

Lemma Localize_ok {F} `{Float F} isz imax FLAGS_max_key nt_ sort
    {C} int_cnt cnt_max (to_C : Z -> C) blk (rs : list (arow (F := F))) u0 f0 :
  FLAGS_max_key <> 0%Z -> (forall l, sort l ≡ₚ l /\ StronglySorted (not_after Localizer.pair_lt) (sort l)) ->
  shows 0 0 blk rs -> 0 < nt_ -> concat (map a_index rs) <> [] ->
  (Z.of_nat (length (concat (map a_index rs))) < 4294967295)%Z ->
  let key := Localizer.key isz imax FLAGS_max_key in
  exists c uniq,
    Localizer.Localize isz imax FLAGS_max_key nt_ sort int_cnt cnt_max to_C blk Clear u0 f0 =
      Ok (c, uniq, map (fun z => Localizer.frq_of int_cnt cnt_max to_C
            (occurrences isz imax FLAGS_max_key (concat (map a_index rs)) z)) uniq) /\
    StronglySorted Z.lt uniq /\
    (forall z, z ∈ uniq <-> z ∈ map key (concat (map a_index rs))) /\
    holds c (map (local_row key uniq) rs) /\ uniform (map (local_row key uniq) rs) /\
    Forall2 (fun r r' => r'.(a_label) = r.(a_label) /\ r'.(a_value) = r.(a_value) /\
      Forall2 (fun ix j => (0 <= j)%Z /\ uniq !! Z.to_nat j = Some (key ix))
        r.(a_index) r'.(a_index)) rs (map (local_row key uniq) rs).
Proof.
  intros Hk Hsort Hsh Hnt Hne Hlt key.
  destruct (CountUniqIndex_spec isz imax FLAGS_max_key nt_ sort int_cnt cnt_max to_C Hsort
    blk rs u0 f0 Hk Hsh Hnt Hne Hlt) as (ps & uniq & E & Hp & Hps & Hu & Hin).
  fold key in Hp, Hin. unfold Localizer.Localize. rewrite E. simpl.
  assert (Z.of_nat (length uniq) < 4294967295)%Z as Hul.
  { assert (length uniq <= length (concat (map a_index rs))); [|lia].
    rewrite <- (length_map key (concat _)). apply submseteq_length, NoDup_submseteq.
    - by apply StronglySorted_lt_NoDup.
    - intros z Hz. by apply Hin. }
  destruct (RemapIndex_spec key uniq blk rs ps Hsh) as (c & -> & Hc & _); try done.
  { intros ->. done. }
  { intros ->. destruct (concat (map a_index rs)) as [|x l]; [done|].
    apply (not_elem_of_nil (key x)), Hin. simpl. by left. }
  simpl. exists c, uniq.
  assert (Forall2 (fun r r' => r'.(a_label) = r.(a_label) /\ r'.(a_value) = r.(a_value) /\
      Forall2 (fun ix j => (0 <= j)%Z /\ uniq !! Z.to_nat j = Some (key ix))
        r.(a_index) r'.(a_index)) rs (map (local_row key uniq) rs)) as Hrows; cycle 1.
  { split_and!; try done. apply (local_uniform key uniq blk rs); [done|]. eapply Forall2_impl; [exact Hrows|].
    intros r r' (_ & Hv & Hi). split; [done|]. unfold nfeat. symmetry. by eapply Forall2_length. }
  apply Forall2_fmap_r, Forall_Forall2_diag, Forall_forall. intros r Hr.
  destruct (local_row_all key uniq r) as [H1 H2].
  { intros ix Hix. apply Hin. apply list_elem_of_In, in_map, list_elem_of_In.
    apply list_elem_of_In, in_concat. exists r.(a_index).
    split; [apply in_map; by apply list_elem_of_In|by apply list_elem_of_In]. }
  split; [done|]. split; [|done].
  pose proof (s_value _ _ _ _ Hsh) as Hv. destruct (b_value blk).
  - destruct Hv as [Hv _]. rewrite Forall_forall in Hv. by apply H2, Hv.
  - rewrite Forall_forall in Hv. simpl. rewrite (Hv r Hr). unfold selv. by rewrite zip_with_nil_r.
Qed.

(** C9: localizing a block gives the sorted distinct keys of its features with
    their numbers of occurrences, and a block with the labels and values of the rows
    in which every feature is the position of its key in that list; no feature is
    dropped and no access leaves its array.  Weights of rows are dropped.  With
    [FLAGS_max_key] 0 the first key is a division by zero. *)
Theorem Localize_correct {F} `{Float F} isz imax FLAGS_max_key nt_ sort
    {C} int_cnt cnt_max (to_C : Z -> C) blk (rs : list (arow (F := F))) u0 f0 :
  (forall l, sort l ≡ₚ l /\ StronglySorted (not_after Localizer.pair_lt) (sort l)) ->
  shows 0 0 blk rs -> 0 < nt_ -> concat (map a_index rs) <> [] ->
  (Z.of_nat (length (concat (map a_index rs))) < 4294967295)%Z ->
  let key := Localizer.key isz imax FLAGS_max_key in
  (FLAGS_max_key <> 0%Z -> exists c uniq rs',
    Localizer.Localize isz imax FLAGS_max_key nt_ sort int_cnt cnt_max to_C blk Clear u0 f0 =
      Ok (c, uniq, map (fun z => Localizer.frq_of int_cnt cnt_max to_C
            (occurrences isz imax FLAGS_max_key (concat (map a_index rs)) z)) uniq) /\
    StronglySorted Z.lt uniq /\
    (forall z, z ∈ uniq <-> z ∈ map key (concat (map a_index rs))) /\
    holds c rs' /\
    Forall2 (fun r r' => r'.(a_label) = r.(a_label) /\ r'.(a_value) = r.(a_value) /\ r'.(a_weight) = [] /\
      Forall2 (fun ix j => (0 <= j)%Z /\ uniq !! Z.to_nat j = Some (key ix))
        r.(a_index) r'.(a_index)) rs rs') /\
  (FLAGS_max_key = 0%Z -> (0 < imax)%Z ->
    Localizer.Localize isz imax FLAGS_max_key nt_ sort int_cnt cnt_max to_C blk Clear u0 f0 = Fail DivByZero).
Proof.
  intros Hsort Hsh Hnt Hne Hlt key. split; [|intros Hk Hi; by apply (Localize_zero _ _ _ _ _ _ _ _ blk rs)]. intros Hk.
  destruct (Localize_ok isz imax FLAGS_max_key nt_ sort int_cnt cnt_max to_C blk rs u0 f0 Hk Hsort Hsh Hnt Hne Hlt)
    as (c & uniq & E & Hs & Hin & Hh & _ & Hr).
  exists c, uniq, (map (local_row key uniq) rs). split_and!; try done. apply Forall2_fmap_r. apply Forall2_fmap_r in Hr.
  eapply Forall2_impl; [exact Hr|]. intros r1 r2 (H1 & H2 & H3). by split_and!.
Qed.

(** A sorting function, to run the model with. *)
#[export] Instance pair_le_dec a b : Decision (pair_le a b).
Proof. unfold pair_le. apply _. Defined.
#[export] Instance pair_le_trans : Transitive pair_le.
Proof. intros a b c. unfold pair_le. lia. Qed.
#[export] Instance pair_le_total : Total pair_le.
Proof. intros a b. unfold pair_le. lia. Qed.

Definition demo_sort : list Localizer.Pair -> list Localizer.Pair := merge_sort pair_le.

Lemma demo_sort_ok l :
  demo_sort l ≡ₚ l /\ StronglySorted (not_after Localizer.pair_lt) (demo_sort l).
Proof.
  split; [apply merge_sort_Permutation|].
  pose proof (StronglySorted_merge_sort pair_le l) as Hs. fold demo_sort in Hs.
  induction Hs as [|a l' Hl IH Ha]; constructor; [done|].
  eapply Forall_impl; [exact Ha|]. intros b. apply not_after_pair_le.
Qed.

Definition demo_blk : RowBlock QArith_base.Q :=
  mkBlock 2 [0; 2; 5] (Some [q 1; q 0]) None (Some [7; 3; 3; 9; 7]%Z) None.
Definition demo_blk_rows : list (arow (F := QArith_base.Q)) :=
  [mkArow (q 1) [] [7; 3]%Z []; mkArow (q 0) [] [3; 9; 7]%Z []].

Lemma demo_blk_shows : shows 0 0 demo_blk demo_blk_rows.
Proof. split; try done; repeat constructor. Qed.

Lemma Localize_correct_witness :
  let ixs := concat (map a_index demo_blk_rows) in
  (exists c uniq rs',
    @Localizer.Localize _ Qfloat 8 (2 ^ 64 - 1) (2 ^ 64 - 1) 2 demo_sort _ true 255 (fun z => z)
        demo_blk Clear [] [] =
      Ok (c, uniq, map (fun z => Localizer.frq_of true 255 (fun z => z)
            (occurrences 8 (2 ^ 64 - 1) (2 ^ 64 - 1) ixs z)) uniq) /\
    StronglySorted Z.lt uniq /\
    (forall z, z ∈ uniq <-> z ∈ map (Localizer.key 8 (2 ^ 64 - 1) (2 ^ 64 - 1)) ixs) /\
    holds c rs' /\
    Forall2 (fun r r' => r'.(a_label) = r.(a_label) /\ r'.(a_value) = r.(a_value) /\ r'.(a_weight) = [] /\
      Forall2 (fun ix j => (0 <= j)%Z /\ uniq !! Z.to_nat j =
          Some (Localizer.key 8 (2 ^ 64 - 1) (2 ^ 64 - 1) ix))
        r.(a_index) r'.(a_index)) demo_blk_rows rs') /\
  @Localizer.Localize _ Qfloat 8 (2 ^ 64 - 1) 0 2 demo_sort _ true 255 (fun z => z) demo_blk Clear [] [] = Fail DivByZero.
Proof.
  split.
  - apply (@Localize_correct _ Qfloat 8 (2 ^ 64 - 1) (2 ^ 64 - 1) 2 demo_sort _ true 255 (fun z => z)
      demo_blk demo_blk_rows [] [] demo_sort_ok demo_blk_shows); [lia|discriminate|simpl; lia|lia].
  - apply (@Localize_correct _ Qfloat 8 (2 ^ 64 - 1) 0 2 demo_sort _ true 255 (fun z => z)
      demo_blk demo_blk_rows [] [] demo_sort_ok demo_blk_shows); [lia|discriminate|simpl; lia|done|lia].
Defined.

(** With a dictionary that may lack keys of the block (a tail-filtered one),
    [RemapIndex] keeps exactly the features whose key is in it, in order, as
    their positions, with their values, and its two-pointer walk agrees with a
    lookup per feature. *)
Theorem RemapIndex_correct {F} `{Float F} (key : Z -> Z) dict blk (rs : list (arow (F := F))) ps :
  shows 0 0 blk rs -> rs <> [] -> dict <> [] -> (Z.of_nat (length dict) < 4294967295)%Z ->
  StronglySorted Z.lt dict -> StronglySorted pair_le ps ->
  ps ≡ₚ pairs_of key (concat (map a_index rs)) ->
  exists c, Localizer.RemapIndex blk dict ps Clear = Ok c /\
    holds c (map (fun r => mkArow r.(a_label) []
        (omap (fun ix => option_map Z.of_nat (dict_pos dict (key ix))) r.(a_index))
        (map snd (filter (fun iv => is_Some (dict_pos dict (key iv.1)))
                    (zip r.(a_index) r.(a_value))))) rs) /\
    c.(max_index) = (Z.of_nat (length dict) - 1)%Z.
Proof. intros. by apply RemapIndex_spec. Qed.

Lemma RemapIndex_correct_witness :
  let ps := [Localizer.mkPair 3 1; Localizer.mkPair 3 2; Localizer.mkPair 7 0;
             Localizer.mkPair 7 4; Localizer.mkPair 9 3] in
  exists c, @Localizer.RemapIndex _ Qfloat demo_blk [3; 9]%Z ps Clear = Ok c /\
    holds c (map (fun r => mkArow r.(a_label) []
        (omap (fun ix => option_map Z.of_nat (dict_pos [3; 9]%Z ix)) r.(a_index))
        (map snd (filter (fun iv => is_Some (dict_pos [3; 9]%Z iv.1))
                    (zip r.(a_index) r.(a_value))))) demo_blk_rows) /\
    c.(max_index) = (Z.of_nat (length [3; 9]%Z) - 1)%Z.
Proof.
  intros ps. apply (@RemapIndex_correct _ Qfloat (fun z => z) [3; 9]%Z demo_blk demo_blk_rows ps
    demo_blk_shows); try done.
  - repeat constructor; lia.
  - unfold ps. repeat constructor; unfold pair_le; simpl; lia.
  - unfold ps, pairs_of. simpl. apply NoDup_Permutation.
    + repeat constructor; set_solver.
    + repeat constructor; set_solver.
    + set_solver.
Defined.

(** [ReverseBytes] moves bit [i] to bit [i xor 60] -- it reverses the order
    of the sixteen hexadecimal digits, not of the bytes its comment names --
    and applying it twice gives the id back, so the keys a worker sends
    determine the feature ids. *)
Theorem ReverseBytes_correct (x : Z) :
  (0 <= x < 2 ^ 64)%Z ->
  (forall i, (0 <= i < 64)%Z -> Z.testbit (ReverseBytes x) i = Z.testbit x (Z.lxor i 60)) /\
  (0 <= ReverseBytes x < 2 ^ 64)%Z /\ ReverseBytes (ReverseBytes x) = x.
Proof.
  intros Hx. split; [intros; by apply ReverseBytes_testbit|].
  split; [apply ReverseBytes_range|by apply ReverseBytes_twice].
Qed.

Lemma ReverseBytes_correct_witness :
  (forall i, (0 <= i < 64)%Z -> Z.testbit (ReverseBytes 0x123456789ABCDEF0) i =
     Z.testbit 0x123456789ABCDEF0 (Z.lxor i 60)) /\
  (0 <= ReverseBytes 0x123456789ABCDEF0 < 2 ^ 64)%Z /\
  ReverseBytes (ReverseBytes 0x123456789ABCDEF0) = 0x123456789ABCDEF0%Z.
Proof. apply (ReverseBytes_correct 0x123456789ABCDEF0). lia. Defined.

(** [ParallelSort] terminates with a sorted permutation of its input for
    every number of threads, whatever order [std::sort] gives equal elements. *)
Theorem ParallelSort_correct {A} (cmp : A -> A -> bool) sort arr num_threads :
  (forall a b, cmp a b = true -> cmp b a = false) ->
  (forall a b c, cmp b a = false -> cmp c b = false -> cmp c a = false) ->
  (forall l, sort l ≡ₚ l /\ StronglySorted (fun a b => cmp b a = false) (sort l)) ->
  0 < num_threads ->
  exists out, ParallelSort.ParallelSort cmp sort arr num_threads = Ok (Some out) /\
    out ≡ₚ arr /\ StronglySorted (fun a b => cmp b a = false) out.
Proof. intros H1 H2 H3 H4. by apply (ParallelSort_spec cmp sort H1 H2 H3). Qed.

Lemma ParallelSort_correct_witness :
  let arr := [Localizer.mkPair 9 0; Localizer.mkPair 2 1; Localizer.mkPair 9 2] in
  exists out, ParallelSort.ParallelSort Localizer.pair_lt demo_sort arr 4 = Ok (Some out) /\
    out ≡ₚ arr /\ StronglySorted (fun a b => Localizer.pair_lt b a = false) out.
Proof.
  intros arr. apply (ParallelSort_correct Localizer.pair_lt demo_sort arr 4).
  - unfold Localizer.pair_lt. intros. lia.
  - unfold Localizer.pair_lt. intros. lia.
  - apply demo_sort_ok.
  - lia.
Defined.
