(* ===== verification/Parallel.v ===== *)
(** * Parallel regions

    An OpenMP region is a list of threads, each a list of updates of cells of
    shared memory; an execution is any interleaving of the threads.  When the
    threads write to different cells, every interleaving has the effect of
    running the updates of each cell in the order of the one thread that has
    them. *)
From S2P Require Import Prelude.

(** [interleave ts tr]: [tr] is an execution of the threads [ts]. *)
Inductive interleave {A} : list (list A) -> list A -> Prop :=
| il_done ts : Forall (fun t => t = []) ts -> interleave ts []
| il_step ts i a t tr :
    ts !! i = Some (a :: t) -> interleave (<[i := t]> ts) tr -> interleave ts (a :: tr).

(** An update of a cell. *)
Notation action V := (nat * (V -> V))%type (only parsing).

(** [y[k] = f(y[k])] *)
Definition apply_action {V} (y : list V) (a : action V) : outcome (list V) :=
  v ← read_at y a.1; write_at y a.1 (a.2 v).

Definition run_actions {V} (tr : list (action V)) (y : list V) : outcome (list V) :=
  foldM apply_action tr y.

(** The updates of cell [k]. *)
Definition at_cell {V} (k : nat) (tr : list (action V)) : list (action V) :=
  filter (fun a => a.1 = k) tr.

(** What the updates [tr] do to the cell [k] that holds [v]. *)
Definition cell_value {V} (k : nat) (tr : list (action V)) (v : V) : V :=
  foldl (fun v a => a.2 v) v (at_cell k tr).

(** The reference result: cell by cell. *)
Definition cells {V} (tr : list (action V)) (y : list V) : list V :=
  imap (fun k v => cell_value k tr v) y.

Lemma run_actions_cells {V} (tr : list (action V)) y :
  Forall (fun a => a.1 < length y) tr -> run_actions tr y = Ok (cells tr y).
Proof.
  unfold run_actions. revert y. induction tr as [|[k f] tr IH]; intros y Hb; cbn [foldM].
  { f_equal. unfold cells, cell_value, at_cell. apply list_eq. intros i.
    rewrite list_lookup_imap. by destruct (y !! i). }
  apply Forall_cons in Hb as [Hk Hb]. simpl in Hk.
  destruct (lookup_lt_is_Some_2 _ _ Hk) as [v Hv].
  assert (apply_action y (k, f) = Ok (<[k := f v]> y)) as ->.
  { unfold apply_action. simpl. rewrite (proj2 (read_at_Ok _ _ _) Hv). simpl.
    by apply write_at_lt. }
  simpl. rewrite IH by by rewrite length_insert.
  f_equal. unfold cells, cell_value, at_cell. apply list_eq. intros i.
  rewrite !list_lookup_imap, list_lookup_insert, filter_cons. simpl.
  destruct (decide (k = i)) as [->|Hne].
  - rewrite decide_True by done. rewrite Hv. done.
  - rewrite decide_False by tauto. done.
Qed.

Lemma cells_ext {V} (tr1 tr2 : list (action V)) y :
  (forall k, k < length y -> at_cell k tr1 = at_cell k tr2) -> cells tr1 y = cells tr2 y.
Proof.
  intros He. unfold cells. apply list_eq. intros i. rewrite !list_lookup_imap.
  destruct (y !! i) eqn:Ey; simpl; [|done]. unfold cell_value.
  by rewrite He by by eapply lookup_lt_Some.
Qed.

(** In an interleaving, what one thread alone does keeps its order. *)
Lemma interleave_filter {A} (P : A -> Prop) `{!forall x, Decision (P x)} ts tr o :
  interleave ts tr ->
  (forall i t, i <> o -> ts !! i = Some t -> Forall (fun a => ~ P a) t) ->
  filter P tr = filter P (default [] (ts !! o)).
Proof.
  induction 1 as [ts Hf|ts i a t tr Hi Hil IH]; intros Ho; simpl.
  - destruct (ts !! o) as [t|] eqn:E; simpl; [|done].
    rewrite Forall_lookup in Hf. by rewrite (Hf _ _ E).
  - rewrite filter_cons. rewrite IH.
    2:{ intros j t' Hj. rewrite list_lookup_insert. case_decide as E.
        - destruct E as [<- _]. intros [= <-]. specialize (Ho i _ Hj Hi).
          by inversion Ho.
        - by apply Ho. }
    rewrite list_lookup_insert. case_decide as Hd.
    + case_decide as E.
      * destruct E as [-> _]. rewrite Hi. simpl. by rewrite filter_cons, decide_True.
      * destruct (decide (i = o)) as [->|Hne].
        { destruct E. split; [done|]. by eapply lookup_lt_Some. }
        exfalso. specialize (Ho i _ Hne Hi). inversion Ho. done.
    + case_decide as E.
      * destruct E as [-> _]. rewrite Hi. simpl. by rewrite filter_cons, decide_False.
      * done.
Qed.

Lemma interleave_Forall {A} (P : A -> Prop) ts tr :
  interleave ts tr -> Forall (Forall P) ts -> Forall P tr.
Proof.
  induction 1 as [ts Hf|ts i a t tr Hi Hil IH]; intros Hts; [constructor|].
  assert (Forall P (a :: t)) as Hat by (rewrite Forall_lookup in Hts; by eapply Hts).
  apply Forall_cons in Hat as [Ha Ht]. constructor; [done|]. apply IH. by apply Forall_insert.
Qed.

(** The threads' programs one after the other is one of the executions, so the
    statements about interleavings are about something. *)
Lemma interleave_concat {A} (ts : list (list A)) : interleave ts (concat ts).
Proof.
  assert (forall n t (ts' : list (list A)), interleave (replicate n [] ++ t :: ts') (t ++ concat ts')) as Hgen.
  { intros n t ts'. revert n t. induction ts' as [|t' ts' IH]; intros n t.
    - induction t as [|a t IHt]; simpl.
      + apply il_done. apply Forall_app. split; [by apply Forall_replicate|by repeat constructor].
      + eapply (il_step _ n).
        * rewrite lookup_app_r, length_replicate, Nat.sub_diag by (rewrite length_replicate; lia). done.
        * replace n with (length (replicate n (@nil A)) + 0) at 1 by (rewrite length_replicate; lia).
          rewrite insert_app_r. exact IHt.
    - induction t as [|a t IHt]; simpl.
      + specialize (IH (S n) t'). rewrite replicate_S_end, <- app_assoc in IH. exact IH.
      + eapply (il_step _ n).
        * rewrite lookup_app_r, length_replicate, Nat.sub_diag by (rewrite length_replicate; lia). done.
        * replace n with (length (replicate n (@nil A)) + 0) at 1 by (rewrite length_replicate; lia).
          rewrite insert_app_r. exact IHt. }
  destruct ts as [|t ts]; [by apply il_done|]. apply (Hgen 0).
Qed.

(** ** Threads that own ranges of cells *)

(** Thread [t] owns the cells [c t], ..., [c (t + 1) - 1]. *)
Definition owner (cut : nat -> nat) (k t : nat) : Prop := cut t <= k < cut (t + 1).

Lemma cuts_mono cut n a b :
  (forall t, t < n -> cut t <= cut (t + 1)) -> a <= b -> b <= n -> cut a <= cut b.
Proof.
  intros Hm Hab Hb. induction Hab as [|b Hab IH]; [lia|].
  specialize (Hm b ltac:(lia)). rewrite Nat.add_1_r in Hm. specialize (IH ltac:(lia)). lia.
Qed.

Lemma cut_owner cut n k :
  (forall t, t < n -> cut t <= cut (t + 1)) -> cut 0 <= k -> k < cut n ->
  exists o, o < n /\ owner cut k o /\ forall t, t < n -> t <> o -> ~ owner cut k t.
Proof.
  intros Hm H0 Hk.
  pose proof (fun a b => cuts_mono cut n a b Hm) as Hmono.
  assert (exists o, o < n /\ owner cut k o) as (o & Ho & Hown).
  { clear Hmono. induction n as [|n IH]; [lia|].
    destruct (decide (k < cut n)) as [Hlt|Hge].
    - destruct IH as (o & ? & ?); [intros; apply Hm; lia|done|]. exists o. split; [lia|done].
    - exists n. split; [lia|]. unfold owner. rewrite Nat.add_1_r. lia. }
  exists o. split; [done|]. split; [done|]. intros t Ht Hne [H1 H2]. destruct Hown as [H3 H4].
  destruct (decide (t < o)).
  - specialize (Hmono (t + 1) o ltac:(lia) ltac:(lia)). lia.
  - specialize (Hmono (o + 1) t ltac:(lia) ltac:(lia)). lia.
Qed.

(** A parallel region in which every thread updates its own cells only, and
    does to them what the sequential program [ref] does, computes [ref]. *)
Lemma region_refines {V} (cut : nat -> nat) (ts : list (list (action V))) tr ref y :
  cut 0 = 0 -> cut (length ts) = length y ->
  (forall t, t < length ts -> cut t <= cut (t + 1)) ->
  (forall t p, ts !! t = Some p -> Forall (fun a => owner cut a.1 t) p) ->
  (forall t p k, ts !! t = Some p -> owner cut k t -> at_cell k p = at_cell k ref) ->
  Forall (fun a => a.1 < length y) ref ->
  interleave ts tr -> run_actions tr y = run_actions ref y.
Proof.
  intros H0 Hn Hm Hown Hsame Href Hil.
  pose proof (fun a b => cuts_mono cut (length ts) a b Hm) as Hmono.
  rewrite !run_actions_cells; [|done|].
  - f_equal. apply cells_ext. intros k Hk.
    destruct (cut_owner cut (length ts) k) as (o & Ho & Hko & Hno); [done|lia|lia|].
    destruct (lookup_lt_is_Some_2 _ _ Ho) as [p Hp].
    rewrite <- (Hsame o p k Hp Hko). unfold at_cell.
    rewrite (interleave_filter (fun a => a.1 = k) ts tr o Hil); [by rewrite Hp|].
    intros i t Hi Ht. eapply Forall_impl; [by apply (Hown i t)|]. intros a Ha Hak.
    simpl in *. subst k. apply (Hno i); [by eapply lookup_lt_Some|done|done].
  - eapply interleave_Forall; [done|]. apply Forall_lookup. intros i t Ht.
    eapply Forall_impl; [by apply (Hown i t)|]. intros a [_ Ha]. simpl in *.
    pose proof (lookup_lt_Some _ _ _ Ht).
    specialize (Hmono (i + 1) (length ts) ltac:(lia) ltac:(lia)). lia.
Qed.
