(* ===== verification/SpMV.v ===== *)
(** * Sparse matrix products

    Models src/src/base/spmv.h and src/src/base/spmm.h: products of a row block
    with a dense vector or a dense matrix of [dim] columns, each computed by a
    parallel region whose threads own segments of the rows (or of the columns,
    for the transpose). *)
From S2P Require Import Prelude Floats Rounding RowBlock Parallel.

(** ** [Range] *)

Module Range.
Record t := mk { begin : nat; end_ : nat }.

Section Range.
Context {D : Type} `{Float D}.

(** The double [begin + itv * idx] as a [size_t]. *)
Definition cut (r : t) (nparts idx : nat) : nat :=
  let itv := fdiv (fofZ (Z.of_nat (r.(end_) - r.(begin)))) (fofZ (Z.of_nat nparts)) in
  Z.to_nat (ftoZ (fadd (fofZ (Z.of_nat r.(begin))) (fmul itv (fofZ (Z.of_nat idx))))).

(** [Segment(idx, nparts)] *)
Definition Segment (r : t) (idx nparts : nat) : outcome t :=
  _ ← check (bool_decide (r.(begin) <= r.(end_)));
  _ ← check (bool_decide (0 < nparts));
  _ ← check (bool_decide (idx < nparts));
  Ok (mk (cut r nparts idx)
         (if decide (idx = nparts - 1) then r.(end_) else cut r nparts (idx + 1))).

End Range.

(** [Has(i)] *)
Definition Has (r : t) (i : nat) : bool := bool_decide (r.(begin) <= i) && bool_decide (i < r.(end_)).
End Range.

Section Products.
Context {V : Type} `{Float V} {D : Type} `{FD : Float D}.

(** [y_i += x * value[j]], or [y_i += x] in a block without values. *)
Definition scaled (M : RowBlock V) (x : V) (j : nat) : outcome V :=
  match M.(b_value) with
  | Some _ => v ← ptr_at M.(b_value) j; Ok (fmul x v)
  | None => Ok x
  end.

(** [memset] of a range of cells. *)
Definition clear_cells (b e : nat) : list (action V) :=
  map (fun k => (k, fun _ => fzero)) (seq b (e - b)).

(** The loops over the features [offset[i], ..., offset[i+1] - 1] of a row. *)
Definition row_loop {S} (M : RowBlock V) (i : nat) (f : S -> nat -> outcome S) (s : S) : outcome S :=
  b ← read_at M.(b_offset) i;
  e ← read_at M.(b_offset) (i + 1);
  if decide (b = e) then Ok s else foldM f (seq b (e - b)) s.

(** *** [SpMV] *)

(** The inner loop of [Times]: the inner product of a row. *)
Definition spmv_dot (M : RowBlock V) (x : list V) (y_i : V) (j : nat) : outcome V :=
  ix ← ptr_at M.(b_index) j;
  xv ← read_at x (Z.to_nat ix);
  s ← scaled M xv j;
  Ok (fadd y_i s).

(** One row of [SpMV::Times]: no write for an empty row. *)
Definition spmv_row (M : RowBlock V) (x : list V) (acts : list (action V)) (i : nat)
  : outcome (list (action V)) :=
  b ← read_at M.(b_offset) i;
  e ← read_at M.(b_offset) (i + 1);
  if decide (b = e) then Ok acts else
  y_i ← foldM (spmv_dot M x) (seq b (e - b)) fzero;
  Ok (acts ++ [(i, fun _ => y_i)]).

(** The body of the region of [SpMV::Times] for one thread. *)
Definition spmv_thread (M : RowBlock V) (x : list V) (nt t : nat) : outcome (list (action V)) :=
  rg ← Range.Segment (D := D) (Range.mk 0 M.(b_size)) t nt;
  foldM (spmv_row M x) (seq rg.(Range.begin) (rg.(Range.end_) - rg.(Range.begin))) [].

(** The inner loop of [TransTimes]. *)
Definition spmtv_feature (M : RowBlock V) (rg : Range.t) (x_i : V) (acts : list (action V)) (j : nat)
  : outcome (list (action V)) :=
  k ← ptr_at M.(b_index) j;
  if Range.Has rg (Z.to_nat k) then
    s ← scaled M x_i j;
    Ok (acts ++ [(Z.to_nat k, fun y => fadd y s)])
  else Ok acts.

(** The body of the region of [SpMV::TransTimes] for one thread. *)
Definition spmtv_thread (M : RowBlock V) (x : list V) (y_size nt t : nat)
  : outcome (list (action V)) :=
  rg ← Range.Segment (D := D) (Range.mk 0 y_size) t nt;
  foldM (fun acts i =>
      b ← read_at M.(b_offset) i;
      e ← read_at M.(b_offset) (i + 1);
      if decide (b = e) then Ok acts else
      x_i ← read_at x i;
      foldM (spmtv_feature M rg x_i) (seq b (e - b)) acts)
    (seq 0 M.(b_size)) (clear_cells rg.(Range.begin) rg.(Range.end_)).

(** *** [SpMM] *)

(** [for (k = 0; k < dim; ++k) y[at + k] += x[xat + k] * v] *)
Definition spmm_axpy (M : RowBlock V) (x : list V) (dim xat yat j : nat) (acts : list (action V))
  : outcome (list (action V)) :=
  foldM (fun acts k =>
    xk ← read_at x (xat + k);
    s ← scaled M xk j;
    Ok (acts ++ [(yat + k, fun y => fadd y s)])) (seq 0 dim) acts.

(** The body of the region of [SpMM::Times] for one thread. *)
Definition spmm_thread (M : RowBlock V) (x : list V) (dim nt t : nat) : outcome (list (action V)) :=
  rg ← Range.Segment (D := D) (Range.mk 0 M.(b_size)) t nt;
  foldM (fun acts i =>
      row_loop M i (fun acts j =>
        ix ← ptr_at M.(b_index) j;
        spmm_axpy M x dim (Z.to_nat ix * dim) (i * dim) j acts) acts)
    (seq rg.(Range.begin) (rg.(Range.end_) - rg.(Range.begin))) [].

(** The body of the region of [SpMM::TransTimes] for one thread. *)
Definition spmtm_thread (M : RowBlock V) (x : list V) (dim rows nt t : nat) : outcome (list (action V)) :=
  rg ← Range.Segment (D := D) (Range.mk 0 rows) t nt;
  foldM (fun acts i =>
      row_loop M i (fun acts j =>
        e ← ptr_at M.(b_index) j;
        if Range.Has rg (Z.to_nat e) then
          spmm_axpy M x dim (i * dim) (Z.to_nat e * dim) j acts
        else Ok acts) acts)
    (seq 0 M.(b_size)) [].

(** The programs of all the threads of a region. *)
Definition region (nt : nat) (thread : nat -> outcome (list (action V)))
  : outcome (list (list (action V))) :=
  foldM (fun ts t => p ← thread t; Ok (ts ++ [p])) (seq 0 nt) [].

(** [SpMV::Times(D, x, y, nthreads)] for the interleaving [sched] picks. *)
Definition SpMV_Times (sched : list (list (action V)) -> list (action V))
    (M : RowBlock V) (x y : list V) (nt : nat) : outcome (list V) :=
  _ ← check (bool_decide (length y = M.(b_size)));
  ts ← region nt (spmv_thread M x nt);
  run_actions (sched ts) y.

(** [SpMV::TransTimes(D, x, y, nthreads)] *)
Definition SpMV_TransTimes (sched : list (list (action V)) -> list (action V))
    (M : RowBlock V) (x y : list V) (nt : nat) : outcome (list V) :=
  _ ← check (bool_decide (length x = M.(b_size)));
  ts ← region nt (spmtv_thread M x (length y) nt);
  run_actions (sched ts) y.

(** [SpMM::Times(D, x, y, nt)]; [y->size() / D.size] with an empty [D] is a
    division by zero. *)
Definition SpMM_Times (sched : list (list (action V)) -> list (action V))
    (M : RowBlock V) (x y : list V) (nt : nat) : outcome (list V) :=
  if decide (x = []) then Ok y else
  _ ← (if decide (M.(b_size) = 0) then Fail OutOfRange else Ok tt);
  let dim := length y / M.(b_size) in
  y ← run_actions (clear_cells 0 (M.(b_size) * dim)) y;
  ts ← region nt (spmm_thread M x dim nt);
  run_actions (sched ts) y.

(** [SpMM::TransTimes(D, x, p, z, y, nt)] *)
Definition SpMM_TransTimes (sched : list (list (action V)) -> list (action V))
    (M : RowBlock V) (x : list V) (p : V) (z y : list V) (nt : nat) : outcome (list V) :=
  if decide (x = []) then Ok y else
  _ ← (if decide (M.(b_size) = 0) then Fail OutOfRange else Ok tt);
  let dim := length x / M.(b_size) in
  y ← (if bool_decide (length z = length y) && negb (feqb p fzero)
       then foldM (fun y i => zi ← read_at z i; write_at y i (fmul zi p)) (seq 0 (length y)) y
       else run_actions (clear_cells 0 (length y)) y);
  _ ← (if decide (dim = 0) then Fail OutOfRange else Ok tt);
  ts ← region nt (spmtm_thread M x dim (length y / dim) nt);
  run_actions (sched ts) y.

End Products.

(** ** Reference products *)

Section Reference.
Context {V : Type} `{Float V}.

(** The features of a row: column, and value if the block has values. *)
Definition feats (r : arow (F := V)) : list (nat * option V) :=
  match r.(a_value) with
  | [] => map (fun ix => (Z.to_nat ix, None)) r.(a_index)
  | _ => zip (map Z.to_nat r.(a_index)) (map Some r.(a_value))
  end.

Definition scale (ov : option V) (x : V) : V :=
  match ov with Some v => fmul x v | None => x end.

(** Inner product of a row with a vector, summed in the order of the features. *)
Definition dot (x : list V) (r : arow (F := V)) : V :=
  foldl (fun s f => fadd s (scale f.2 (nth f.1 x fzero))) fzero (feats r).

(** [y = D x]; the entry of an empty row keeps its value. *)
Definition Times_ref (rs : list arow) (x y : list V) : list V :=
  zip_with (fun r y_i => if decide (nfeat r = 0) then y_i else dot x r) rs y.

(** The terms of column [k] of [D^T x], in the order of the rows. *)
Definition column (rs : list arow) (x : list V) (k : nat) : list V :=
  concat (zip_with (fun r x_i => map (fun f => scale f.2 x_i) (filter (fun f => f.1 = k) (feats r)))
            rs x).

Definition TransTimes_ref (rs : list arow) (x : list V) (n : nat) : list V :=
  map (fun k => foldl fadd fzero (column rs x k)) (seq 0 n).

(** The same with a matrix of [dim] columns, in row order, in place of the
    vector: entry [k] is row [k / dim], column [k mod dim]. *)
Definition MM_ref (rs : list arow) (x : list V) (dim : nat) : list V :=
  concat (map (fun r => map (fun c =>
    foldl (fun s f => fadd s (scale f.2 (nth (f.1 * dim + c) x fzero))) fzero (feats r))
    (seq 0 dim)) rs).

Definition column_of (rs : list arow) (x : list V) (dim e c : nat) : list V :=
  concat (imap (fun i r => map (fun f => scale f.2 (nth (i * dim + c) x fzero))
                             (filter (fun f => f.1 = e) (feats r))) rs).

Definition TransMM_ref (rs : list arow) (x : list V) (dim : nat) (y0 : list V) : list V :=
  imap (fun k v => foldl fadd v (column_of rs x dim (k / dim) (k mod dim))) y0.

(** Every feature is a column below [n]. *)
Definition columns_below (n : nat) (rs : list (arow (F := V))) : Prop :=
  Forall (fun r => Forall (fun f => f.1 < n) (feats r)) rs.

Lemma feats_access M rs i r :
  shows 0 0 M rs -> rs !! i = Some r ->
  exists o, read_at M.(b_offset) i = Ok o /\ read_at M.(b_offset) (i + 1) = Ok (o + nfeat r) /\
    length (feats r) = nfeat r /\
    forall t f, feats r !! t = Some f ->
      exists ix, ptr_at M.(b_index) (o + t) = Ok ix /\ Z.to_nat ix = f.1 /\
        forall x, scaled M x (o + t) = Ok (scale f.2 x).
Proof.
  intros Hsh Hr. pose proof (lookup_lt_Some _ _ _ Hr) as Hlt.
  destruct (block_at_shows 0 M rs i r Hsh Hr) as (row & Hrow & Hrs).
  destruct Hsh as [Hs Ho Hl Hw Hi Hv].
  assert (map nfeat rs !! i = Some (nfeat r)) as Hni by (rewrite list_lookup_fmap, Hr; done).
  set (o := sum_list (take i (map nfeat rs))). exists o.
  assert (forall j, j <= length rs ->
    read_at (b_offset M) j = Ok (0 + sum_list (take j (map nfeat rs)))) as Hoff.
  { intros j Hj. eapply read_take; [exact Ho|lia|]. apply psums_lookup. by rewrite length_map. }
  rewrite !Hoff by lia. simpl. rewrite Nat.add_1_r, (take_S_r _ _ _ Hni), sum_list_app. fold o. simpl.
  rewrite Nat.add_0_r. split; [done|]. split; [done|].
  unfold block_at in Hrow. rewrite check_true in Hrow by (apply bool_decide_eq_true; lia).
  simpl in Hrow. rewrite !Hoff in Hrow by lia. fold o in Hrow. simpl in Hrow.
  assert (row.(r_index) = ptr_add M.(b_index) o /\
    row.(r_value) = match M.(b_value) with None => None | Some _ => ptr_add M.(b_value) o end) as [E1 E2].
  { ok_inv. done. }
  clear Hrow. destruct Hrs as [_ _ _ R4 R5]. rewrite E1, default_ptr_add in R4. rewrite E2 in R5.
  assert (forall t ix, r.(a_index) !! t = Some ix -> ptr_at M.(b_index) (o + t) = Ok ix) as Hix.
  { intros t ix Ht. pose proof (lookup_lt_Some _ _ _ Ht). apply read_at_Ok.
    rewrite <- lookup_drop. rewrite (take_lookup _ _ _ t R4); [done|done]. }
  unfold feats, scaled. destruct (b_value M) as [vs|].
  - simpl in R5. destruct R5 as [R5 R6].
    assert (forall t v, r.(a_value) !! t = Some v -> ptr_at (Some vs) (o + t) = Ok v) as Hvs.
    { intros t v Ht. pose proof (lookup_lt_Some _ _ _ Ht). apply read_at_Ok. simpl.
      rewrite <- lookup_drop. rewrite (take_lookup _ _ _ t R6); [done|lia]. }
    destruct (a_value r) as [|v0 vs0] eqn:Ev.
    + assert (a_index r = []) as -> by (apply nil_length_inv; unfold nfeat in R5; simpl in R5; lia).
      split; [done|]. intros t f Ht. done.
    + rewrite <- Ev in *. split; [rewrite length_zip_with, !length_map; unfold nfeat in *; lia|].
      intros t [c ov] Ht. apply lookup_zip_Some in Ht. rewrite !list_lookup_fmap_Some in Ht.
      destruct Ht as [(ix & E3 & Hx) (v & E4 & Hy)]. exists ix. split; [by apply Hix|].
      split; [by simpl; rewrite E3|]. intros x. simpl. rewrite E4. simpl. by rewrite (Hvs t v).
  - rewrite R5. split; [by rewrite length_map|]. intros t f Ht.
    apply list_lookup_fmap_Some in Ht as (ix & -> & Ht). exists ix. split; [by apply Hix|]. done.
Qed.

End Reference.

(** ** The segments *)

Section Cuts.
Context {D : Type} `{FD : Float D}.

(** Where the segment of thread [t] starts; the last one ends at [n]. *)
Definition cut_at (n nt t : nat) : nat :=
  if decide (t = nt) then n else Range.cut (D := D) (Range.mk 0 n) nt t.

(** What the region needs of the double arithmetic of [Segment]: the first
    segment starts at 0 and the starts do not decrease. *)
Definition good_cuts (n nt : nat) : Prop :=
  0 < nt /\ cut_at n nt 0 = 0 /\ forall t, t < nt -> cut_at n nt t <= cut_at n nt (t + 1).

Lemma cut_at_last n nt : cut_at n nt nt = n.
Proof. unfold cut_at. by rewrite decide_True. Qed.

Lemma good_cuts_le n nt t : good_cuts n nt -> t <= nt -> cut_at n nt t <= n.
Proof.
  intros (_ & _ & Hm) Ht. rewrite <- (cut_at_last n nt) at 2. by apply (cuts_mono _ nt).
Qed.

Lemma Segment_cuts n nt t :
  t < nt -> Range.Segment (D := D) (Range.mk 0 n) t nt =
            Ok (Range.mk (cut_at n nt t) (cut_at n nt (t + 1))).
Proof.
  intros Ht. unfold Range.Segment, cut_at. simpl.
  rewrite !check_true by (apply bool_decide_eq_true; lia). simpl.
  rewrite (decide_False (P := t = nt)) by lia. do 2 f_equal.
  destruct (decide (t = nt - 1)), (decide (t + 1 = nt)); (lia || done).
Qed.

End Cuts.

(** Exact arithmetic cuts well; in floating point it is a condition on the two
    numbers that can be evaluated. *)
Lemma good_cuts_exact n nt : 0 < nt -> good_cuts (FD := Qfloat) n nt.
Proof.
  intros Hnt.
  assert (forall t, t < nt -> cut_at (FD := Qfloat) n nt t = n * t / nt) as Hcut.
  { intros t Ht. unfold cut_at. rewrite decide_False by lia. unfold Range.cut. simpl.
    destruct nt as [|m]; [lia|]. set (rhs := n * t / S m). simpl.
    rewrite !Z.mul_1_r, ?Pos.mul_1_r, !Pos.mul_1_l, Z.mul_0_l, Z.add_0_l, Nat.sub_0_r.
    rewrite Z.quot_div_nonneg by lia.
    rewrite <- Nat2Z.inj_mul. change (Z.pos (Pos.of_succ_nat m)) with (Z.of_nat (S m)).
    rewrite <- Nat2Z.inj_div. by rewrite Nat2Z.id. }
  split; [done|]. split.
  - rewrite Hcut by done. rewrite Nat.mul_0_r. apply Nat.Div0.div_0_l.
  - intros t Ht. rewrite (Hcut t) by done. destruct (decide (t + 1 = nt)) as [E|E].
    + unfold cut_at. rewrite decide_True by done.
      transitivity (n * nt / nt); [apply Nat.Div0.div_le_mono; nia|]. rewrite Nat.div_mul by lia. done.
    + rewrite Hcut by lia. apply Nat.Div0.div_le_mono. nia.
Qed.

(** So does the [double] of the source, for all the sizes a machine can hold. *)
Lemma good_cuts_double n nt :
  0 < nt -> (Z.of_nat nt < 2 ^ 53)%Z -> (Z.of_nat n < 2 ^ 53)%Z -> good_cuts (FD := binary64) n nt.
Proof.
  intros Hnt Hnt' Hn.
  assert (forall t, t < nt -> cut_at (FD := binary64) n nt t =
    Z.to_nat (ftoZ (Float := binary64) (fmul (Float := binary64)
      (fdiv (Float := binary64) (fofZ (Float := binary64) (Z.of_nat n)) (fofZ (Float := binary64) (Z.of_nat nt)))
      (fofZ (Float := binary64) (Z.of_nat t))))) as Hcut.
  { intros t Ht. unfold cut_at. rewrite decide_False by lia. unfold Range.cut. cbn [Range.begin Range.end_].
    rewrite Nat.sub_0_r. set (v := fmul _ _). by destruct v as [[]| | |]. }
  assert (cut_at (FD := binary64) n nt 0 = 0) as H0.
  { rewrite Hcut by done. set (v := fdiv _ _). destruct v as [[]|[]| |[]]; reflexivity. }
  split; [done|]. split; [done|]. intros t Ht.
  destruct t as [|t]; [lia|]. destruct (decide (n = 0)) as [->|Hn0].
  { rewrite Hcut by done. change (fofZ (Z.of_nat 0)) with (SpecFloat.S754_zero false).
    destruct (fofZ_normal 53 1024 ltac:(lia) ltac:(lia) (Z.of_nat nt) ltac:(lia)) as (m & e & Em & _).
    destruct (fofZ_normal 53 1024 ltac:(lia) ltac:(lia) (Z.of_nat (S t)) ltac:(lia)) as (m' & e' & Em' & _).
    unfold binary64. rewrite Em, Em'. simpl. lia. }
  destruct (cuts_in_order 53 1024 ltac:(lia) ltac:(lia) (Z.of_nat n) (Z.of_nat nt) ltac:(lia) ltac:(lia) (Z.of_nat (S t)) ltac:(lia)) as [Hle Hmono].
  rewrite (Hcut (S t)) by done. destruct (decide (S t + 1 = nt)) as [E|E].
  - rewrite E, cut_at_last. unfold binary64. lia.
  - rewrite (Hcut (S t + 1)) by lia. unfold binary64.
    replace (Z.of_nat (S t + 1)) with (Z.of_nat (S t) + 1)%Z by lia. specialize (Hmono ltac:(lia)). lia.
Qed.

Section Region.
Context {V : Type}.

Lemma region_spec nt (thread : nat -> outcome (list (action V))) (prog : nat -> list (action V)) :
  (forall t, t < nt -> thread t = Ok (prog t)) ->
  region nt thread = Ok (map prog (seq 0 nt)).
Proof.
  intros Ht. unfold region.
  destruct (foldM_seq (fun ts t => p ← thread t; Ok (ts ++ [p]))
    (fun i ts => ts = map prog (seq 0 i)) 0 nt []) as (ts & -> & ->); [done| |done].
  intros i s Hi ->. rewrite Ht by lia. simpl. eexists. split; [done|].
  by rewrite seq_app, map_app.
Qed.

Lemma map_seq_lookup {B} (f : nat -> B) n i x :
  map f (seq 0 n) !! i = Some x <-> i < n /\ x = f i.
Proof.
  rewrite list_lookup_fmap_Some. split.
  - intros (j & -> & Hj). apply lookup_seq in Hj as [-> ?]. done.
  - intros [Hi ->]. exists i. split; [done|]. by apply lookup_seq.
Qed.

(** [region_refines] for the threads of a [Segment] of the cells, in blocks of
    [dim]. *)
Lemma cuts_region_refines {D} `{FD : Float D} n nt dim (prog : nat -> list (action V)) ref y tr :
  0 < dim -> good_cuts (D := D) n nt -> length y = n * dim ->
  (forall t, t < nt -> Forall (fun a => cut_at (D := D) n nt t <= a.1 / dim < cut_at (D := D) n nt (t + 1)) (prog t)) ->
  (forall t k, t < nt -> cut_at (D := D) n nt t <= k / dim < cut_at (D := D) n nt (t + 1) ->
     at_cell k (prog t) = at_cell k ref) ->
  Forall (fun a => a.1 < length y) ref ->
  interleave (map prog (seq 0 nt)) tr -> run_actions tr y = run_actions ref y.
Proof.
  intros Hd (Hnt & H0 & Hm) Hy Hown Hsame Href Hil.
  assert (forall k t, owner (fun t => cut_at (D := D) n nt t * dim) k t <->
    cut_at (D := D) n nt t <= k / dim < cut_at (D := D) n nt (t + 1)) as Hiff.
  { intros k t. unfold owner. split.
    - intros [H1 H2]. split; [apply Nat.div_le_lower_bound; lia|apply Nat.Div0.div_lt_upper_bound; lia].
    - intros [H1 H2]. pose proof (Nat.Div0.mul_div_le k dim).
      pose proof (Nat.mul_succ_div_gt k dim ltac:(lia)). nia. }
  eapply (region_refines (fun t => cut_at (D := D) n nt t * dim)); [| | | | |done|exact Hil].
  - by rewrite H0.
  - rewrite length_map, length_seq. unfold cut_at. by rewrite decide_True.
  - rewrite length_map, length_seq. intros t Ht. specialize (Hm t Ht). nia.
  - intros t p [Ht ->]%map_seq_lookup. eapply Forall_impl; [by apply Hown|].
    intros a Ha. by apply Hiff.
  - intros t p k [Ht ->]%map_seq_lookup Hk. apply Hsame; [done|]. by apply Hiff.
Qed.

End Region.

(** ** The updates of one cell *)

Section AtCell.
Context {V : Type}.

Lemma at_cell_app k (l1 l2 : list (action V)) : at_cell k (l1 ++ l2) = at_cell k l1 ++ at_cell k l2.
Proof. apply filter_app. Qed.

Lemma at_cell_single k j (h : V -> V) : at_cell k [(j, h)] = if decide (j = k) then [(j, h)] else [].
Proof. unfold at_cell. rewrite filter_cons, filter_nil. simpl. by case_decide. Qed.

Lemma at_cell_concat {B} k (g : B -> list (action V)) l :
  at_cell k (concat (map g l)) = concat (map (fun b => at_cell k (g b)) l).
Proof. unfold at_cell. by rewrite filter_concat, map_map. Qed.

(** Loops over consecutive items of which only one touches the cell. *)
Lemma concat_only {B} (g : nat -> list B) b m j :
  (forall i, i <> j -> g i = []) ->
  concat (map g (seq b m)) = if decide (b <= j < b + m) then g j else [].
Proof.
  intros Hg. revert b. induction m as [|m IH]; intros b; simpl.
  { rewrite decide_False by lia. done. }
  rewrite IH. destruct (decide (b = j)) as [->|Hne].
  - rewrite (decide_False (P := S j <= j < S j + m)), decide_True by lia. apply app_nil_r.
  - rewrite Hg by done. simpl. repeat case_decide; (lia || done).
Qed.

Lemma concat_none {B C} (g : B -> list C) l : (forall b, b ∈ l -> g b = []) -> concat (map g l) = [].
Proof.
  induction l as [|b l IH]; intros Hg; simpl; [done|].
  rewrite Hg, IH; [done| |by left]. intros. apply Hg. by right.
Qed.

Lemma at_cell_seq dim k (g : nat -> list (action V)) b m :
  (forall i, Forall (fun a => a.1 / dim = i) (g i)) ->
  at_cell k (concat (map g (seq b m))) =
  if decide (b <= k / dim < b + m) then at_cell k (g (k / dim)) else [].
Proof.
  intros Hg. rewrite at_cell_concat. apply (concat_only (fun i => at_cell k (g i))).
  intros i Hi. apply filter_none. eapply Forall_impl; [apply Hg|]. intros a Ha Hk. simpl in *.
  subst. done.
Qed.

Lemma concat_seq_Forall dim (g : nat -> list (action V)) b m :
  (forall i, Forall (fun a => a.1 / dim = i) (g i)) ->
  Forall (fun a => b <= a.1 / dim < b + m) (concat (map g (seq b m))).
Proof.
  intros Hg. apply Forall_concat, Forall_map, Forall_forall. intros i Hi%elem_of_seq.
  eapply Forall_impl; [apply Hg|]. intros a Ha. simpl in *. lia.
Qed.

Lemma map_singleton_concat {B C} (g : B -> C) l : concat (map (fun b => [g b]) l) = map g l.
Proof. induction l; simpl; [done|]. by f_equal. Qed.

Lemma at_cell_clear `{Float V} k b e :
  at_cell k (clear_cells b e) = if decide (b <= k < e) then [(k, fun _ => fzero)] else [].
Proof.
  unfold clear_cells. rewrite <- (map_singleton_concat (fun k => (k, fun _ : V => fzero))).
  rewrite (at_cell_seq 1 k (fun i => [(i, fun _ => fzero)])).
  2:{ intros i. repeat constructor. simpl. apply Nat.div_1_r. }
  rewrite Nat.div_1_r, at_cell_single.
  rewrite (decide_True (P := k = k)) by done. repeat case_decide; (lia || done).
Qed.

(** The [dim] cells of item [i], one update each. *)
Definition block_actions (dim i : nat) (h : nat -> V -> V) : list (action V) :=
  map (fun c => (i * dim + c, h c)) (seq 0 dim).

Lemma block_actions_div dim i h : 0 < dim -> Forall (fun a => a.1 / dim = i) (block_actions dim i h).
Proof.
  intros Hd. unfold block_actions. apply Forall_map, Forall_forall. intros c Hc.
  apply elem_of_seq in Hc. simpl. rewrite Nat.div_add_l by lia. rewrite Nat.div_small by lia. lia.
Qed.

Lemma at_cell_block dim i h k :
  0 < dim -> at_cell k (block_actions dim i h) =
  if decide (k / dim = i) then [(k, h (k mod dim))] else [].
Proof.
  intros Hd. pose proof (Nat.div_mod_eq k dim) as Hk. pose proof (Nat.mod_upper_bound k dim ltac:(lia)).
  unfold block_actions. rewrite <- (map_singleton_concat (fun c => (i * dim + c, h c))), at_cell_concat.
  destruct (decide (k / dim = i)) as [<-|Hne].
  - rewrite (concat_only (fun b => at_cell k [(k / dim * dim + b, h b)]) 0 dim (k mod dim)).
    + rewrite decide_True by lia. rewrite at_cell_single, decide_True by lia. do 2 f_equal. lia.
    + intros c Hc. rewrite at_cell_single, decide_False by lia. done.
  - apply concat_none. intros c Hc%elem_of_seq.
    rewrite at_cell_single, decide_False; [done|]. intros E. apply Hne. rewrite <- E.
    rewrite Nat.div_add_l by lia. rewrite Nat.div_small by lia. lia.
Qed.

End AtCell.

(** ** The products compute their references *)

Section Correct.
Context {V : Type} `{Float V} {D : Type} `{FD : Float D}.
Context (sched : list (list (action V)) -> list (action V)).
Hypothesis sched_ok : forall ts, interleave ts (sched ts).

Section Block.
Context (M : RowBlock V) (rs : list (arow (F := V))) (Hsh : shows 0 0 M rs).

(** The rows as a total function. *)
Definition row (i : nat) : arow := default (mkArow fzero [] [] []) (rs !! i).

Lemma row_lookup i : i < length rs -> rs !! i = Some (row i).
Proof. intros Hi. unfold row. by destruct (lookup_lt_is_Some_2 _ _ Hi) as [r ->]. Qed.

Lemma feats_empty (r : arow (F := V)) : length (feats r) = nfeat r -> nfeat r = 0 -> feats r = [].
Proof. intros Hl Hn. apply nil_length_inv. lia. Qed.

(** A loop over the features of a row that reads only the feature. *)
Lemma feature_loop {S} (f : S -> nat -> outcome S) (g : S -> nat * option V -> S) i s :
  i < length rs ->
  (forall j fe s, (exists ix, ptr_at M.(b_index) j = Ok ix /\ Z.to_nat ix = fe.1 /\
       forall x, scaled M x j = Ok (scale fe.2 x)) -> fe ∈ feats (row i) -> f s j = Ok (g s fe)) ->
  exists b e, read_at M.(b_offset) i = Ok b /\ read_at M.(b_offset) (i + 1) = Ok e /\
    (b = e <-> nfeat (row i) = 0) /\
    foldM f (seq b (e - b)) s = Ok (foldl g s (feats (row i))).
Proof.
  intros Hi Hf. destruct (feats_access M rs i (row i) Hsh (row_lookup i Hi)) as (o & -> & -> & Hl & Hacc).
  exists o, (o + nfeat (row i)). split; [done|]. split; [done|]. split; [lia|].
  replace (o + nfeat (row i) - o) with (length (feats (row i))) by lia.
  apply foldM_seq_foldl. intros t fe s' Ht. apply Hf; [by apply Hacc|].
  by eapply list_elem_of_lookup_2.
Qed.

Lemma row_loop_spec {S} (f : S -> nat -> outcome S) (g : S -> nat * option V -> S) i s :
  i < length rs ->
  (forall j fe s, (exists ix, ptr_at M.(b_index) j = Ok ix /\ Z.to_nat ix = fe.1 /\
       forall x, scaled M x j = Ok (scale fe.2 x)) -> fe ∈ feats (row i) -> f s j = Ok (g s fe)) ->
  row_loop M i f s = Ok (foldl g s (feats (row i))).
Proof.
  intros Hi Hf. destruct (feature_loop f g i s Hi Hf) as (b & e & E1 & E2 & Hz & E3).
  unfold row_loop. rewrite E1. simpl. rewrite E2. simpl. case_decide as Hd; [|done].
  subst e. rewrite Nat.sub_diag in E3. done.
Qed.

(** *** [SpMV::Times] *)

Definition times_row (x : list V) (i : nat) : list (action V) :=
  if decide (nfeat (row i) = 0) then [] else [(i, fun _ => dot x (row i))].

Lemma nth_read (x : list V) k : k < length x -> read_at x k = Ok (nth k x fzero).
Proof. intros Hk. apply read_at_Ok. rewrite nth_lookup. by destruct (lookup_lt_is_Some_2 _ _ Hk) as [v ->]. Qed.

Lemma columns_row n i fe : columns_below n rs -> i < length rs -> fe ∈ feats (row i) -> fe.1 < n.
Proof.
  intros Hc Hi Hfe. unfold columns_below in Hc. rewrite Forall_lookup in Hc.
  specialize (Hc _ _ (row_lookup i Hi)). rewrite Forall_forall in Hc. by apply Hc.
Qed.

Lemma spmv_row_spec x acts i :
  columns_below (length x) rs -> i < length rs -> spmv_row M x acts i = Ok (acts ++ times_row x i).
Proof.
  intros Hc Hi.
  destruct (feature_loop (spmv_dot M x) (fun s f => fadd s (scale f.2 (nth f.1 x fzero))) i fzero Hi)
    as (b & e & E1 & E2 & Hz & E3).
  { intros j fe s (ix & Eix & Ek & Hsc) Hfe. unfold spmv_dot. rewrite Eix. simpl. rewrite Ek.
    rewrite nth_read by by eapply columns_row. simpl. by rewrite Hsc. }
  unfold spmv_row, times_row. rewrite E1. simpl. rewrite E2. simpl.
  destruct (decide (b = e)) as [Hd|Hd].
  - rewrite decide_True by by apply Hz. by rewrite app_nil_r.
  - rewrite E3. simpl. rewrite decide_False by by rewrite <- Hz. done.
Qed.

Lemma times_row_div x i : Forall (fun a => a.1 / 1 = i) (times_row x i).
Proof.
  unfold times_row. case_decide; [constructor|]. repeat constructor. simpl. apply Nat.div_1_r.
Qed.

Lemma SpMV_Times_spec x y nt :
  columns_below (length x) rs -> length y = length rs -> good_cuts (D := D) (length rs) nt ->
  SpMV_Times (D := D) sched M x y nt = Ok (Times_ref rs x y).
Proof.
  intros Hc Hy Hcut. pose proof (s_size _ _ _ _ Hsh) as Hsz. unfold SpMV_Times.
  rewrite check_true by (apply bool_decide_eq_true; lia). simpl.
  set (n := length rs) in *. set (c := cut_at (D := D) n nt).
  set (prog := fun t => concat (map (times_row x) (seq (c t) (c (t + 1) - c t)))).
  rewrite (region_spec nt _ prog). 2:{
    intros t Ht. unfold spmv_thread. rewrite Hsz, Segment_cuts by done. fold n c. simpl.
    pose proof (good_cuts_le n nt (t + 1) Hcut ltac:(lia)) as Hle. fold c in Hle.
    rewrite <- (length_seq (c (t + 1) - c t) (c t)) at 1.
    rewrite (foldM_gather _ (times_row x)); [done|].
    intros j i acts [-> Hj]%lookup_seq. apply spmv_row_spec; [done|]. fold n. lia. }
  simpl. set (ref := concat (map (times_row x) (seq 0 n))).
  assert (forall k, at_cell k ref = if decide (k < n) then times_row x k else []) as Hat.
  { intros k. unfold ref. rewrite (at_cell_seq 1) by apply times_row_div. rewrite Nat.div_1_r.
    assert (at_cell k (times_row x k) = times_row x k) as ->.
    { unfold times_row. case_decide; [done|]. by rewrite at_cell_single, decide_True. }
    repeat case_decide; (lia || done). }
  rewrite (cuts_region_refines n nt 1 prog ref y (sched (map prog (seq 0 nt)))); [|lia|done|lia|..|apply sched_ok].
  - rewrite run_actions_cells. 2:{ eapply Forall_impl; [apply concat_seq_Forall, times_row_div|].
      intros a. cbv beta. rewrite Nat.div_1_r. lia. }
    f_equal. unfold cells, Times_ref. apply list_eq. intros k. rewrite list_lookup_imap.
    rewrite lookup_zip_with. destruct (y !! k) as [v|] eqn:Ev; simpl.
    2:{ by destruct (rs !! k). }
    pose proof (lookup_lt_Some _ _ _ Ev) as Hk. rewrite row_lookup by (fold n; lia). simpl.
    unfold cell_value. rewrite Hat, decide_True by lia. unfold times_row.
    case_decide; done.
  - intros t Ht. eapply Forall_impl; [apply concat_seq_Forall, times_row_div|].
    intros a. cbv beta. destruct Hcut as (_ & _ & Hm). specialize (Hm t Ht). fold c in Hm |- *. lia.
  - intros t k Ht Hk. rewrite Hat. unfold prog. rewrite (at_cell_seq 1) by apply times_row_div.
    fold c in Hk. pose proof (good_cuts_le n nt (t + 1) Hcut ltac:(lia)) as Hle. fold c in Hle.
    rewrite decide_True by lia. rewrite Nat.div_1_r in *. rewrite decide_True by lia.
    unfold times_row. case_decide; [done|]. by rewrite at_cell_single, decide_True.
  - eapply Forall_impl; [apply concat_seq_Forall, times_row_div|].
    intros a. cbv beta. rewrite Nat.div_1_r. lia.
Qed.

(** *** [SpMV::TransTimes] *)

Definition add_action (x_i : V) (f : nat * option V) : action V :=
  (f.1, fun y => fadd y (scale f.2 x_i)).

Definition trans_row (P : nat -> bool) (x : list V) (i : nat) : list (action V) :=
  map (add_action (nth i x fzero)) (filter (fun f => P f.1 = true) (feats (row i))).

(** Dropping the features outside a range that has [k] does not change what
    happens to cell [k]. *)
Lemma at_cell_trans_row P x i k :
  P k = true -> at_cell k (trans_row P x i) =
  map (add_action (nth i x fzero)) (filter (fun f => f.1 = k) (feats (row i))).
Proof.
  intros HP. unfold trans_row, at_cell.
  induction (feats (row i)) as [|f fs IH]; [done|]. rewrite !filter_cons.
  destruct (decide (P f.1 = true)) as [Hf|Hf]; simpl.
  - rewrite filter_cons. simpl. rewrite IH. case_decide; done.
  - rewrite IH. rewrite decide_False by congruence. done.
Qed.

Lemma trans_row_spec rg x acts i :
  i < length rs -> i < length x ->
  (b ← read_at M.(b_offset) i;
   e ← read_at M.(b_offset) (i + 1);
   if decide (b = e) then Ok acts else
   x_i ← read_at x i;
   foldM (spmtv_feature M rg x_i) (seq b (e - b)) acts) = Ok (acts ++ trans_row (Range.Has rg) x i).
Proof.
  intros Hi Hx.
  destruct (feature_loop (spmtv_feature M rg (nth i x fzero))
    (fun acts f => acts ++ (if Range.Has rg f.1 then [add_action (nth i x fzero) f] else [])) i acts Hi)
    as (b & e & E1 & E2 & Hz & E3).
  { intros j fe s (ix & Eix & Ek & Hsc) Hfe. unfold spmtv_feature. rewrite Eix. simpl. rewrite Ek.
    destruct (Range.Has rg fe.1); [|by rewrite app_nil_r]. rewrite Hsc. done. }
  rewrite E1. simpl. rewrite E2. simpl.
  assert (forall l, concat (map (fun f => if Range.Has rg f.1 then [add_action (nth i x fzero) f] else []) l)
    = map (add_action (nth i x fzero)) (filter (fun f => Range.Has rg f.1 = true) l)) as Hfil.
  { induction l as [|f l IH]; [done|]. rewrite filter_cons. simpl. rewrite IH.
    destruct (Range.Has rg f.1); [rewrite decide_True by done|rewrite decide_False by done]; done. }
  rewrite foldl_gather, Hfil in E3. fold (trans_row (Range.Has rg) x i) in E3.
  destruct (decide (b = e)) as [Hd|Hd].
  - subst e. rewrite Nat.sub_diag in E3. done.
  - rewrite nth_read by done. simpl. exact E3.
Qed.

Lemma foldl_add_actions (v : V) (l : list (nat * option V)) x_i :
  foldl (fun v a => a.2 v) v (map (add_action x_i) l) = foldl fadd v (map (fun f => scale f.2 x_i) l).
Proof. revert v. induction l as [|f l IH]; intros v; simpl; [done|]. apply IH. Qed.

Lemma foldl_terms (v : V) (x_ : nat -> V) (sel : nat -> list (nat * option V)) l :
  foldl (fun v a => a.2 v) v (concat (map (fun i => map (add_action (x_ i)) (sel i)) l)) =
  foldl fadd v (concat (map (fun i => map (fun f => scale f.2 (x_ i)) (sel i)) l)).
Proof.
  revert v. induction l as [|i l IH]; intros v; simpl; [done|].
  by rewrite !foldl_app, foldl_add_actions, IH.
Qed.

Lemma column_seq x k :
  length x = length rs ->
  column rs x k = concat (map (fun i => map (fun f => scale f.2 (nth i x fzero))
    (filter (fun f => f.1 = k) (feats (row i)))) (seq 0 (length rs))).
Proof.
  intros Hx. unfold column. f_equal. apply list_eq. intros i. rewrite lookup_zip_with, list_lookup_fmap.
  destruct (decide (i < length rs)) as [Hi|Hi].
  - rewrite row_lookup by done. rewrite lookup_seq_lt by done. simpl.
    destruct (lookup_lt_is_Some_2 x i) as [v Hv]; [lia|]. rewrite Hv. simpl.
    rewrite nth_lookup, Hv. done.
  - rewrite (proj2 (lookup_ge_None rs i)) by lia. rewrite lookup_seq_ge by lia. done.
Qed.

Lemma SpMV_TransTimes_spec x y nt :
  columns_below (length y) rs -> length x = length rs -> good_cuts (D := D) (length y) nt ->
  SpMV_TransTimes (D := D) sched M x y nt = Ok (TransTimes_ref rs x (length y)).
Proof.
  intros Hc Hx Hcut. pose proof (s_size _ _ _ _ Hsh) as Hsz. unfold SpMV_TransTimes.
  rewrite check_true by (apply bool_decide_eq_true; lia). simpl.
  set (n := length rs) in *. set (m := length y) in *. set (c := cut_at (D := D) m nt).
  set (body := fun P => concat (map (trans_row P x) (seq 0 n))).
  set (prog := fun t => clear_cells (c t) (c (t + 1)) ++ body (Range.Has (Range.mk (c t) (c (t + 1))))).
  rewrite (region_spec nt _ prog). 2:{
    intros t Ht. unfold spmtv_thread. rewrite Hsz, Segment_cuts by done. fold m c n. simpl.
    rewrite <- (length_seq n 0) at 1.
    rewrite (foldM_gather _ (trans_row (Range.Has (Range.mk (c t) (c (t + 1)))) x)); [done|].
    intros j i acts [-> Hj]%lookup_seq. apply trans_row_spec; fold n; lia. }
  simpl. set (ref := clear_cells 0 m ++ body (fun _ => true)).
  assert (forall k P, P k = true -> at_cell k (body P) = concat (map (fun i =>
     map (add_action (nth i x fzero)) (filter (fun f => f.1 = k) (feats (row i)))) (seq 0 n))) as Hbody.
  { intros k P HP. unfold body. rewrite at_cell_concat. f_equal. apply map_ext. intros i.
    by apply at_cell_trans_row. }
  assert (forall P, Forall (fun a => a.1 < m /\ P a.1 = true) (body P)) as Hin.
  { intros P. unfold body. apply Forall_concat, Forall_map, Forall_forall. intros i Hi%elem_of_seq.
    unfold trans_row. apply Forall_map, Forall_forall. intros f [HP Hf]%list_elem_of_filter. simpl.
    split; [|done]. eapply columns_row; [done| |done]. fold n. lia. }
  assert (forall b e, Forall (fun a : action V => b <= a.1 < e) (clear_cells b e)) as Hcl.
  { intros b e. unfold clear_cells. apply Forall_map, Forall_forall. intros i Hi%elem_of_seq. simpl. lia. }
  assert (Forall (fun a => a.1 < m) ref) as Href.
  { apply Forall_app. split.
    - eapply Forall_impl; [apply Hcl|]. intros a Ha. simpl in *. lia.
    - eapply Forall_impl; [apply Hin|]. intros a Ha. simpl in *. tauto. }
  rewrite (cuts_region_refines m nt 1 prog ref y (sched (map prog (seq 0 nt))));
    [|lia|done|fold m; lia|..|done|apply sched_ok].
  - rewrite run_actions_cells by done. f_equal. unfold cells, TransTimes_ref. apply list_eq. intros k.
    rewrite list_lookup_imap, list_lookup_fmap.
    destruct (decide (k < m)) as [Hk|Hk].
    2:{ rewrite (proj2 (lookup_ge_None y k)) by (fold m; lia). by rewrite lookup_seq_ge by (fold m; lia). }
    destruct (lookup_lt_is_Some_2 y k Hk) as [v ->]. rewrite lookup_seq_lt by done. simpl. f_equal.
    unfold cell_value, ref. rewrite at_cell_app, at_cell_clear, decide_True by lia.
    rewrite Hbody by done. rewrite column_seq by done. fold n.
    apply (foldl_terms _ (fun i => nth i x fzero)).
  - intros t Ht. unfold prog. apply Forall_app. split.
    + eapply Forall_impl; [apply Hcl|]. intros a Ha. cbv beta in *. rewrite Nat.div_1_r. done.
    + eapply Forall_impl; [apply Hin|]. intros a [_ Ha]. cbv beta in *. rewrite Nat.div_1_r.
      unfold Range.Has in Ha. simpl in Ha. rewrite andb_true_iff, !bool_decide_eq_true in Ha. done.
  - intros t k Ht Hk. rewrite Nat.div_1_r in Hk. fold c in Hk. unfold prog, ref.
    pose proof (good_cuts_le m nt (t + 1) Hcut ltac:(lia)) as Hle. fold c in Hle.
    rewrite !at_cell_app, !at_cell_clear, !decide_True by lia. f_equal.
    rewrite (Hbody k (fun _ => true)) by done. apply Hbody.
    unfold Range.Has. simpl. rewrite andb_true_iff, !bool_decide_eq_true. done.
Qed.

(** *** [SpMM] *)

Lemma spmm_axpy_spec x dim xat i j fe acts :
  (forall v, scaled M v j = Ok (scale fe v)) -> xat + dim <= length x ->
  spmm_axpy M x dim xat (i * dim) j acts =
  Ok (acts ++ block_actions dim i (fun c y => fadd y (scale fe (nth (xat + c) x fzero)))).
Proof.
  intros Hsc Hx. unfold spmm_axpy. rewrite <- (length_seq dim 0) at 1.
  rewrite (foldM_gather _ (fun c => [(i * dim + c, fun y => fadd y (scale fe (nth (xat + c) x fzero)))])).
  - unfold block_actions. by rewrite map_singleton_concat.
  - intros t c acts' [-> Ht]%lookup_seq. simpl. rewrite nth_read by lia. simpl. by rewrite Hsc.
Qed.

Definition mm_row (x : list V) (dim i : nat) : list (action V) :=
  concat (map (fun f => block_actions dim i
    (fun c y => fadd y (scale f.2 (nth (f.1 * dim + c) x fzero)))) (feats (row i))).

Lemma mm_row_div x dim i : 0 < dim -> Forall (fun a => a.1 / dim = i) (mm_row x dim i).
Proof.
  intros Hd. unfold mm_row. apply Forall_concat, Forall_map, Forall_forall. intros f _.
  by apply block_actions_div.
Qed.

Lemma foldl_single_actions {B} (g : B -> V -> V) k v (l : list B) :
  foldl (fun v (a : action V) => a.2 v) v (concat (map (fun b => [(k, g b)]) l)) =
  foldl (fun v b => g b v) v l.
Proof. revert v. induction l as [|b l IH]; intros v; simpl; [done|]. apply IH. Qed.

Lemma mm_row_cell x dim k v :
  0 < dim ->
  foldl (fun v a => a.2 v) v (at_cell k (mm_row x dim (k / dim))) =
  foldl (fun s f => fadd s (scale f.2 (nth (f.1 * dim + k mod dim) x fzero))) v (feats (row (k / dim))).
Proof.
  intros Hd. unfold mm_row. rewrite at_cell_concat.
  rewrite (map_ext _ (fun f => [(k, fun y => fadd y (scale f.2 (nth (f.1 * dim + k mod dim) x fzero)))])).
  - by rewrite foldl_single_actions.
  - intros f. rewrite at_cell_block, decide_True by done. done.
Qed.

Lemma concat_lookup_dim {A B} (g : A -> list B) dim l k :
  0 < dim -> (forall a, length (g a) = dim) ->
  concat (map g l) !! k = (a ← l !! (k / dim); g a !! (k mod dim)).
Proof.
  intros Hd Hg. revert k. induction l as [|a l IH]; intros k; simpl.
  { by rewrite lookup_nil. }
  destruct (decide (k < dim)) as [Hk|Hk].
  - rewrite lookup_app_l by by rewrite Hg. rewrite Nat.div_small, Nat.mod_small by done. done.
  - rewrite lookup_app_r, Hg, IH by (rewrite Hg; lia).
    assert (k = (k - dim) + 1 * dim) as Ek by lia.
    assert (k / dim = S ((k - dim) / dim)) as ->.
    { rewrite Ek at 1. rewrite Nat.div_add by lia. lia. }
    assert (k mod dim = (k - dim) mod dim) as -> by (rewrite Ek at 1; apply Nat.Div0.mod_add).
    done.
Qed.

Lemma clear_cells_run (y : list V) m :
  length y = m -> run_actions (clear_cells 0 m) y = Ok (replicate m fzero).
Proof.
  intros Hm. rewrite run_actions_cells.
  - f_equal. unfold cells. apply list_eq. intros k. rewrite list_lookup_imap.
    destruct (y !! k) as [v|] eqn:Ek; simpl.
    + pose proof (lookup_lt_Some _ _ _ Ek). unfold cell_value.
      rewrite at_cell_clear, decide_True by lia. simpl. symmetry. apply lookup_replicate_2. lia.
    + apply lookup_ge_None in Ek. symmetry. apply lookup_replicate_None. lia.
  - unfold clear_cells. apply Forall_map, Forall_forall. intros i Hi%elem_of_seq. simpl. lia.
Qed.

Lemma SpMM_Times_spec x y nt dim ncol :
  0 < dim -> 0 < length rs -> x <> [] -> columns_below ncol rs -> ncol * dim <= length x ->
  length y = length rs * dim -> good_cuts (D := D) (length rs) nt ->
  SpMM_Times (D := D) sched M x y nt = Ok (MM_ref rs x dim).
Proof.
  intros Hd Hn Hx Hc Hlx Hy Hcut. pose proof (s_size _ _ _ _ Hsh) as Hsz. unfold SpMM_Times.
  rewrite decide_False by done. rewrite Hsz, decide_False by lia. cbn [mbind outcome_bind].
  assert (length y / length rs = dim) as -> by (rewrite Hy, Nat.mul_comm; apply Nat.div_mul; lia).
  rewrite clear_cells_run by done. cbn [mbind outcome_bind].
  set (n := length rs) in *. set (c := cut_at (D := D) n nt).
  set (prog := fun t => concat (map (mm_row x dim) (seq (c t) (c (t + 1) - c t)))).
  rewrite (region_spec nt _ prog). 2:{
    intros t Ht. unfold spmm_thread. rewrite Hsz, Segment_cuts by done. fold n c. simpl.
    pose proof (good_cuts_le n nt (t + 1) Hcut ltac:(lia)) as Hle. fold c in Hle.
    rewrite <- (length_seq (c (t + 1) - c t) (c t)) at 1.
    rewrite (foldM_gather _ (mm_row x dim)); [done|].
    intros j i acts [-> Hj]%lookup_seq.
    rewrite (row_loop_spec _ (fun acts f => acts ++ block_actions dim (c t + j)
      (fun c y => fadd y (scale f.2 (nth (f.1 * dim + c) x fzero))))).
    - by rewrite foldl_gather.
    - fold n. lia.
    - intros j' fe s (ix & Eix & Ek & Hsc) Hfe. rewrite Eix. simpl. rewrite Ek.
      apply spmm_axpy_spec; [done|].
      assert (fe.1 < ncol) by (eapply columns_row; [done| |done]; fold n; lia). nia. }
  cbn [mbind outcome_bind]. set (ref := concat (map (mm_row x dim) (seq 0 n))).
  assert (forall i, Forall (fun a => a.1 / dim = i) (mm_row x dim i)) as Hdiv
    by (intros; by apply mm_row_div).
  assert (Forall (fun a => a.1 < length (replicate (n * dim) (fzero (F := V)))) ref) as Href.
  { eapply Forall_impl; [apply (concat_seq_Forall dim), Hdiv|]. intros a Ha. cbv beta in *.
    rewrite length_replicate. pose proof (Nat.mul_succ_div_gt a.1 dim ltac:(lia)). nia. }
  rewrite (cuts_region_refines n nt dim prog ref _ (sched (map prog (seq 0 nt))));
    [|done|done|by rewrite length_replicate|..|done|apply sched_ok].
  - rewrite run_actions_cells by done. f_equal. unfold cells, MM_ref. apply list_eq. intros k.
    rewrite list_lookup_imap, (concat_lookup_dim _ dim) by (done || (intros; by rewrite length_map, length_seq)).
    destruct (decide (k < n * dim)) as [Hk|Hk].
    + rewrite lookup_replicate_2 by done. simpl.
      assert (k / dim < n) as Hkn by (apply Nat.Div0.div_lt_upper_bound; lia).
      rewrite row_lookup by done. simpl. rewrite list_lookup_fmap, lookup_seq_lt
        by (apply Nat.mod_upper_bound; lia). simpl.
      unfold cell_value, ref. rewrite (at_cell_seq dim) by done. rewrite decide_True by lia.
      by rewrite mm_row_cell.
    + rewrite lookup_ge_None_2 by (rewrite length_replicate; lia). simpl.
      rewrite (proj2 (lookup_ge_None rs _)); [done|]. apply Nat.div_le_lower_bound; fold n; lia.
  - intros t Ht. eapply Forall_impl; [apply (concat_seq_Forall dim), Hdiv|].
    intros a. cbv beta. destruct Hcut as (_ & _ & Hm). specialize (Hm t Ht). fold c in Hm |- *. lia.
  - intros t k Ht Hk. unfold prog, ref. rewrite !(at_cell_seq dim) by done.
    fold c in Hk. pose proof (good_cuts_le n nt (t + 1) Hcut ltac:(lia)) as Hle. fold c in Hle.
    rewrite !decide_True by lia. done.
Qed.

(** The updates of row [i] for the features in a range. *)
Definition tmm_feat (x : list V) (dim i : nat) (f : nat * option V) : list (action V) :=
  block_actions dim f.1 (fun c y => fadd y (scale f.2 (nth (i * dim + c) x fzero))).
Definition tmm_row (P : nat -> bool) (x : list V) (dim i : nat) : list (action V) :=
  concat (map (fun f => if P f.1 then tmm_feat x dim i f else []) (feats (row i))).

Lemma at_cell_tmm_row P x dim i k :
  0 < dim -> P (k / dim) = true -> at_cell k (tmm_row P x dim i) =
  concat (map (fun f => [(k, fun y => fadd y (scale f.2 (nth (i * dim + k mod dim) x fzero)))])
    (filter (fun f => f.1 = k / dim) (feats (row i)))).
Proof.
  intros Hd HP. unfold tmm_row. rewrite at_cell_concat.
  induction (feats (row i)) as [|f fs IH]; [done|]. rewrite filter_cons. simpl. rewrite IH.
  destruct (decide (f.1 = k / dim)) as [E|E].
  - rewrite E, HP. unfold tmm_feat. rewrite E, at_cell_block, decide_True by done. done.
  - destruct (P f.1); [|done]. unfold tmm_feat. rewrite at_cell_block, decide_False by congruence. done.
Qed.

Lemma foldl_tmm x dim k v l :
  foldl (fun v (a : action V) => a.2 v) v (concat (map (fun i =>
    concat (map (fun f => [(k, fun y => fadd y (scale f.2 (nth (i * dim + k mod dim) x fzero)))])
      (filter (fun f => f.1 = k / dim) (feats (row i))))) l)) =
  foldl fadd v (concat (map (fun i => map (fun f => scale f.2 (nth (i * dim + k mod dim) x fzero))
      (filter (fun f => f.1 = k / dim) (feats (row i)))) l)).
Proof.
  revert v. induction l as [|i l IH]; intros v; simpl; [done|].
  rewrite !foldl_app, foldl_single_actions, IH. f_equal. clear IH.
  generalize (filter (fun f => f.1 = k / dim) (feats (row i))). intros fs.
  revert v. induction fs as [|f fs IH]; intros v; simpl; [done|]. apply IH.
Qed.

Lemma column_of_seq x dim e c :
  column_of rs x dim e c = concat (map (fun i => map (fun f => scale f.2 (nth (i * dim + c) x fzero))
      (filter (fun f => f.1 = e) (feats (row i)))) (seq 0 (length rs))).
Proof.
  unfold column_of. f_equal. apply list_eq. intros i. rewrite list_lookup_imap, list_lookup_fmap.
  destruct (decide (i < length rs)) as [Hi|Hi].
  - rewrite row_lookup by done. by rewrite lookup_seq_lt by done.
  - rewrite (proj2 (lookup_ge_None rs i)) by lia. by rewrite lookup_seq_ge by lia.
Qed.

Lemma init_spec (p : V) (z y : list V) :
  (if bool_decide (length z = length y) && negb (feqb p fzero)
   then foldM (fun y i => zi ← read_at z i; write_at y i (fmul zi p)) (seq 0 (length y)) y
   else run_actions (clear_cells 0 (length y)) y) =
  Ok (if bool_decide (length z = length y) && negb (feqb p fzero)
      then map (fun zi => fmul zi p) z else replicate (length y) fzero).
Proof.
  destruct (bool_decide (length z = length y) && negb (feqb p fzero)) eqn:Eb; [|by apply clear_cells_run].
  apply andb_true_iff in Eb as [Hl%bool_decide_eq_true _].
  destruct (foldM_seq (fun y i => zi ← read_at z i; write_at y i (fmul zi p))
    (fun i s => length s = length y /\ take i s = map (fun zi => fmul zi p) (take i z)) 0 (length y) y)
    as (s & -> & Hs1 & Hs2).
  - done.
  - intros i s Hi [Hs1 Hs2]. destruct (lookup_lt_is_Some_2 z i) as [zi Hz]; [lia|].
    rewrite (proj2 (read_at_Ok _ _ _) Hz). simpl. rewrite write_at_lt by lia. eexists. split; [done|].
    rewrite length_insert, Nat.add_1_r, take_S_insert, (take_S_r _ _ _ Hz), map_app, Hs2 by lia. done.
  - rewrite Nat.add_0_l, !firstn_all2 in Hs2 by lia. by rewrite Hs2.
Qed.

Lemma SpMM_TransTimes_spec x p z y nt dim m :
  0 < dim -> 0 < length rs -> length x = length rs * dim -> columns_below m rs ->
  length y = m * dim -> good_cuts (D := D) m nt ->
  SpMM_TransTimes (D := D) sched M x p z y nt =
  Ok (TransMM_ref rs x dim
        (if bool_decide (length z = length y) && negb (feqb p fzero)
         then map (fun zi => fmul zi p) z else replicate (length y) fzero)).
Proof.
  intros Hd Hn Hx Hc Hy Hcut. pose proof (s_size _ _ _ _ Hsh) as Hsz. unfold SpMM_TransTimes.
  rewrite decide_False by (intros ->; simpl in Hx; nia).
  rewrite Hsz, (decide_False (P := length rs = 0)) by lia. cbn [mbind outcome_bind].
  assert (length x / length rs = dim) as -> by (rewrite Hx, Nat.mul_comm; apply Nat.div_mul; lia).
  rewrite init_spec. cbn [mbind outcome_bind].
  set (y0 := if bool_decide _ && _ then _ else _).
  assert (length y0 = m * dim) as Hy0.
  { subst y0. destruct (bool_decide (length z = length y)) eqn:Ez; simpl; [|by rewrite length_replicate].
    apply bool_decide_eq_true in Ez. destruct (feqb p fzero); simpl; [by rewrite length_replicate|].
    rewrite length_map. lia. }
  clearbody y0. rewrite decide_False by lia. cbn [mbind outcome_bind].
  rewrite Hy0, Nat.div_mul by lia.
  set (n := length rs) in *. set (c := cut_at (D := D) m nt).
  set (body := fun P => concat (map (tmm_row P x dim) (seq 0 n))).
  set (prog := fun t => body (Range.Has (Range.mk (c t) (c (t + 1))))).
  rewrite (region_spec nt _ prog). 2:{
    intros t Ht. unfold spmtm_thread. rewrite Segment_cuts by done. fold c. simpl.
    rewrite Hsz, <- (length_seq n 0) at 1.
    rewrite (foldM_gather _ (tmm_row (Range.Has (Range.mk (c t) (c (t + 1)))) x dim)); [done|].
    intros j i acts [-> Hj]%lookup_seq. simpl.
    rewrite (row_loop_spec _ (fun acts f => acts ++
      (if Range.Has (Range.mk (c t) (c (t + 1))) f.1 then tmm_feat x dim j f else []))).
    - by rewrite foldl_gather.
    - fold n. lia.
    - intros j' fe s (ix & Eix & Ek & Hsc) Hfe. rewrite Eix. simpl. rewrite Ek.
      destruct (Range.Has _ fe.1); [|by rewrite app_nil_r].
      apply spmm_axpy_spec; [done|]. nia. }
  cbn [mbind outcome_bind]. set (ref := body (fun _ => true)).
  assert (forall P, Forall (fun a => a.1 / dim < m /\ P (a.1 / dim) = true) (body P)) as Hin.
  { intros P. unfold body. apply Forall_concat, Forall_map, Forall_forall. intros i Hi%elem_of_seq.
    unfold tmm_row. apply Forall_concat, Forall_map, Forall_forall. intros f Hf.
    destruct (P f.1) eqn:EP; [|constructor].
    eapply Forall_impl; [by apply block_actions_div|]. intros a Ha. cbv beta in *. rewrite Ha.
    split; [|done]. eapply columns_row; [done| |done]. fold n. lia. }
  assert (forall k P, P (k / dim) = true -> at_cell k (body P) = concat (map (fun i =>
    concat (map (fun f => [(k, fun y => fadd y (scale f.2 (nth (i * dim + k mod dim) x fzero)))])
      (filter (fun f => f.1 = k / dim) (feats (row i))))) (seq 0 n))) as Hbody.
  { intros k P HP. unfold body. rewrite at_cell_concat. f_equal. apply map_ext. intros i.
    by apply at_cell_tmm_row. }
  assert (Forall (fun a => a.1 < length y0) ref) as Href.
  { eapply Forall_impl; [apply Hin|]. intros a [Ha _]. rewrite Hy0.
    pose proof (Nat.mul_succ_div_gt a.1 dim ltac:(lia)). nia. }
  rewrite (cuts_region_refines m nt dim prog ref _ (sched (map prog (seq 0 nt))));
    [|done|done|done|..|done|apply sched_ok].
  - rewrite run_actions_cells by done. f_equal. unfold cells, TransMM_ref. apply list_eq. intros k.
    rewrite !list_lookup_imap. destruct (y0 !! k) as [v|]; simpl; [|done]. f_equal.
    unfold cell_value, ref. rewrite Hbody by done. rewrite foldl_tmm, column_of_seq. done.
  - intros t Ht. eapply Forall_impl; [apply Hin|]. intros a [_ Ha]. cbv beta in *.
    unfold Range.Has in Ha. simpl in Ha. rewrite andb_true_iff, !bool_decide_eq_true in Ha. done.
  - intros t k Ht Hk. unfold prog, ref. fold c in Hk.
    rewrite (Hbody k (fun _ => true)) by done. apply Hbody.
    unfold Range.Has. simpl. rewrite andb_true_iff, !bool_decide_eq_true. done.
Qed.

End Block.
End Correct.

(** ** Properties *)

(** What [SpMV::Times] leaves in [y]. *)
Lemma Times_ref_lookup {V} `{Float V} (rs : list arow) x y i r :
  length y = length rs -> rs !! i = Some r ->
  Times_ref rs x y !! i = if decide (nfeat r = 0) then y !! i else Some (dot x r).
Proof.
  intros Hl Hr. destruct (lookup_lt_is_Some_2 y i) as [v Hv]; [rewrite Hl; by eapply lookup_lt_Some|].
  unfold Times_ref. rewrite lookup_zip_with, Hr, Hv. simpl. by destruct (decide (nfeat r = 0)).
Qed.

Lemma dot_empty {V} `{Float V} x (r : arow (F := V)) : nfeat r = 0 -> dot x r = fzero.
Proof. unfold nfeat, dot, feats. intros ->%nil_length_inv. by destruct (a_value r). Qed.

(** It is the product exactly when [y] was zero at the empty rows. *)
Lemma Times_ref_product {V} `{Float V} (rs : list arow) x y :
  length y = length rs ->
  Times_ref rs x y = map (dot x) rs <-> (forall i r, rs !! i = Some r -> nfeat r = 0 -> y !! i = Some fzero).
Proof.
  intros Hl. assert (length (Times_ref rs x y) = length rs) as Hlt by (unfold Times_ref; rewrite length_zip_with; lia). split.
  - intros E i r Hr H0. pose proof (Times_ref_lookup rs x y i r Hl Hr) as Ht. rewrite decide_True in Ht by done.
    rewrite <- Ht, E, list_lookup_fmap, Hr. simpl. by rewrite dot_empty.
  - intros Hz. apply list_eq. intros i. rewrite list_lookup_fmap. destruct (rs !! i) as [r|] eqn:Hr.
    + rewrite (Times_ref_lookup rs x y i r Hl Hr). simpl. destruct (decide (nfeat r = 0)) as [E|]; [|done].
      rewrite (Hz i r Hr E). by rewrite dot_empty.
    + apply lookup_ge_None in Hr. apply lookup_ge_None. lia.
Qed.

(** C12: for every number of threads, every interleaving of them and the
    segments that [Range::Segment] computes in [double], [SpMV::Times] writes at
    every row that has a feature its inner product with [x] -- bit for bit the
    sum of the sequential loop -- and leaves the entry of an empty row as it
    was: [y] is the product [D * x] exactly when it was zero at the empty rows
    before.  [SpMV::TransTimes] computes the transposed product whatever [y]
    held. *)
Theorem SpMV_correct {V} `{Float V} sched M (rs : list (arow (F := V))) x y u w nt :
  (forall ts, interleave ts (sched ts)) -> shows 0 0 M rs -> 0 < nt -> (Z.of_nat nt < 2 ^ 31)%Z ->
  columns_below (length x) rs -> length y = length rs -> (Z.of_nat (length rs) < 2 ^ 53)%Z ->
  length u = length rs -> columns_below (length w) rs -> (Z.of_nat (length w) < 2 ^ 53)%Z ->
  (exists y', SpMV_Times (FD := binary64) sched M x y nt = Ok y' /\ length y' = length rs /\
    (forall i r, rs !! i = Some r -> y' !! i = if decide (nfeat r = 0) then y !! i else Some (dot x r)) /\
    (y' = map (dot x) rs <-> (forall i r, rs !! i = Some r -> nfeat r = 0 -> y !! i = Some fzero))) /\
  SpMV_TransTimes (FD := binary64) sched M u w nt =
    Ok (map (fun k => foldl fadd fzero (column rs u k)) (seq 0 (length w))).
Proof.
  intros Hs Hsh Hnt Hnt' Hx Hy Hn Hu Hw Hm. split.
  - exists (Times_ref rs x y). split; [|split; [|split]].
    + apply SpMV_Times_spec; try done. apply good_cuts_double; (done || lia).
    + unfold Times_ref. rewrite length_zip_with. lia.
    + intros i r Hr. by apply Times_ref_lookup.
    + by apply Times_ref_product.
  - apply SpMV_TransTimes_spec; try done. apply good_cuts_double; (done || lia).
Qed.

Definition demo_mat : RowBlock QArith_base.Q :=
  mkBlock 3 [0; 2; 2; 3] (Some [q 1; q 0; q 1]) None (Some [0; 2; 1]%Z) (Some [q 5; q 3; q 7]).
Definition demo_mat_rows : list (arow (F := QArith_base.Q)) :=
  [mkArow (q 1) [] [0; 2]%Z [q 5; q 3]; mkArow (q 0) [] [] []; mkArow (q 1) [] [1]%Z [q 7]].

Lemma demo_mat_shows : shows 0 0 demo_mat demo_mat_rows.
Proof. split; try done; repeat constructor. Qed.

Lemma SpMV_correct_witness :
  (exists y', @SpMV_Times _ Qfloat _ binary64 (@concat _) demo_mat [q 1; q 2; q 4] [q 0; q 9; q 0] 2 = Ok y' /\
    y' !! 1 = Some (q 9) /\ y' <> map (@dot _ Qfloat [q 1; q 2; q 4]) demo_mat_rows) /\
  @SpMV_TransTimes _ Qfloat _ binary64 (@concat _) demo_mat [q 1; q 2; q 4] [q 9; q 9; q 9] 2 =
    Ok (map (fun k => foldl (@fadd _ Qfloat) (@fzero _ Qfloat) (@column _ Qfloat demo_mat_rows [q 1; q 2; q 4] k)) (seq 0 3)).
Proof.
  destruct (@SpMV_correct _ Qfloat (@concat _) demo_mat demo_mat_rows
    [q 1; q 2; q 4] [q 0; q 9; q 0] [q 1; q 2; q 4] [q 9; q 9; q 9] 2) as [(y' & E & _ & Hrow & Hd) Ht].
  - apply interleave_concat.
  - apply demo_mat_shows.
  - lia.
  - done.
  - repeat constructor.
  - done.
  - done.
  - done.
  - repeat constructor.
  - done.
  - split; [|exact Ht]. exists y'. split; [exact E|]. split; [by rewrite (Hrow 1 _ eq_refl)|].
    intros Hp. pose proof (proj1 Hd Hp 1 _ eq_refl eq_refl) as Hz. discriminate Hz.
Defined.

(** The same for the products with a matrix of [dim] columns: [SpMM::Times]
    overwrites [y] with the product, [SpMM::TransTimes] adds the transposed
    product to [p * z], or to zero when [z] is not given or [p] is zero. *)
Theorem SpMM_correct {V} `{Float V} sched M (rs : list (arow (F := V)))
    x y nt dim ncol u p z w m :
  (forall ts, interleave ts (sched ts)) -> shows 0 0 M rs -> 0 < nt -> (Z.of_nat nt < 2 ^ 31)%Z -> 0 < dim -> 0 < length rs ->
  x <> [] -> columns_below ncol rs -> ncol * dim <= length x ->
  length y = length rs * dim -> (Z.of_nat (length rs) < 2 ^ 53)%Z ->
  length u = length rs * dim -> columns_below m rs -> length w = m * dim -> (Z.of_nat m < 2 ^ 53)%Z ->
  SpMM_Times (FD := binary64) sched M x y nt = Ok (MM_ref rs x dim) /\
  SpMM_TransTimes (FD := binary64) sched M u p z w nt =
    Ok (TransMM_ref rs u dim
          (if bool_decide (length z = length w) && negb (feqb p fzero)
           then map (fun zi => fmul zi p) z else replicate (length w) fzero)).
Proof.
  intros Hs Hsh Hnt Hnt' Hd Hn Hx Hc Hlx Hy Hcut Hu Hcm Hw Hcutm. split.
  - apply (SpMM_Times_spec sched Hs M rs Hsh x y nt dim ncol); try done. apply good_cuts_double; (done || lia).
  - apply (SpMM_TransTimes_spec sched Hs M rs Hsh u p z w nt dim m); try done. apply good_cuts_double; (done || lia).
Qed.

Lemma SpMM_correct_witness :
  let x := [q 1; q 2; q 4; q 1; q 0; q 3] in
  @SpMM_Times _ Qfloat _ binary64 (@concat _) demo_mat x x 2 = Ok (@MM_ref _ Qfloat demo_mat_rows x 2) /\
  @SpMM_TransTimes _ Qfloat _ binary64 (@concat _) demo_mat x (q 2) x x 2 =
    Ok (@TransMM_ref _ Qfloat demo_mat_rows x 2
          (if bool_decide (length x = length x) && negb (@feqb _ Qfloat (q 2) (@fzero _ Qfloat))
           then map (fun zi => @fmul _ Qfloat zi (q 2)) x else replicate (length x) (@fzero _ Qfloat))).
Proof.
  intros x. apply (@SpMM_correct _ Qfloat (@concat _) demo_mat demo_mat_rows x x 2 2 3
    x (q 2) x x 3).
  - apply interleave_concat.
  - apply demo_mat_shows.
  - lia.
  - done.
  - lia.
  - simpl. lia.
  - done.
  - repeat constructor.
  - done.
  - done.
  - done.
  - done.
  - repeat constructor.
  - done.
  - done.
Defined.
