(* ===== verification/ThreadPool.v ===== *)
(** * The thread pool

    Models [ThreadPool] of src/ps-lite/src/base/thread_pool.h and thread_pool.cc, on
    which the store with one map per thread runs its pushes and pulls: the owner adds
    tasks and waits, the workers take them from a list.  They share the members under
    a mutex and wait on two condition variables.  A section under the lock is one
    step, and so is a task. *)
From S2P Require Import Prelude.
From stdpp Require Import relations.

Section Pool.
Context {T : Type} (num_workers_ : nat).

(** Where a worker is: before the lock of [GetNextTask], in its wait, notified or
    not, before the task that it took, before [FinishTask], at its end. *)
Inductive wpc := WGet | WSleep (awake : bool) | WRun (task : T) | WFinish | WGone.

(** Where the owner is: not in a call, in the wait of [Wait], notified or not, called
    from outside or from the destructor, before the notification of the destructor,
    joining the workers, behind the destructor. *)
Inductive opc := OIdle | OWait (awake last : bool) | ONotify | OJoin | OGone.

(** The members; [all_workers_] says where each thread is.  [added] are the tasks of
    all calls of [Add], [ran] those that were run, in this order; [waited] says that
    nothing was added since [Wait] returned. *)
Record pool := mkPool {
  tasks_ : list T; num_running_tasks_ : Z; waiting_to_finish_ : bool; started_ : bool; all_workers_ : list wpc;
  at_o : opc; added : list T; ran : list T; waited : bool }.

Definition new_ThreadPool : pool := mkPool [] 0 false false [] OIdle [] [] true.

Definition Done (s : pool) : bool := bool_decide (length s.(tasks_) = 0) && bool_decide (s.(num_running_tasks_) = 0%Z).

(** *** Members that change *)
Definition set_tasks (ts : list T) (n : Z) (s : pool) : pool :=
  mkPool ts n s.(waiting_to_finish_) s.(started_) s.(all_workers_) s.(at_o) s.(added) s.(ran) s.(waited).
Definition set_workers (ws : list wpc) (s : pool) : pool :=
  mkPool s.(tasks_) s.(num_running_tasks_) s.(waiting_to_finish_) s.(started_) ws s.(at_o) s.(added) s.(ran) s.(waited).
Definition set_owner (pc : opc) (s : pool) : pool :=
  mkPool s.(tasks_) s.(num_running_tasks_) s.(waiting_to_finish_) s.(started_) s.(all_workers_) pc s.(added) s.(ran) s.(waited).
Definition set_log (a r : list T) (w : bool) (s : pool) : pool :=
  mkPool s.(tasks_) s.(num_running_tasks_) s.(waiting_to_finish_) s.(started_) s.(all_workers_) s.(at_o) a r w.
Definition set_flags (finish start : bool) (s : pool) : pool :=
  mkPool s.(tasks_) s.(num_running_tasks_) finish start s.(all_workers_) s.(at_o) s.(added) s.(ran) s.(waited).

(** *** Notifications: they reach who is waiting *)
Definition wake_w (w : wpc) : wpc := match w with WSleep _ => WSleep true | _ => w end.
Definition wake_o (pc : opc) : opc := match pc with OWait _ last => OWait true last | _ => pc end.

(** *** The workers *)

(** A step of worker [i]: a round of the loop of [GetNextTask] under the lock, the
    task, [FinishTask].  [None] when it waits or has returned. *)
Definition worker_step (i : nat) (s : pool) : outcome (option pool) :=
  let become w s := set_workers (<[i := w]> s.(all_workers_)) s in
  match s.(all_workers_) !! i with
  | Some WGet | Some (WSleep true) =>
      match s.(tasks_) with
      | task :: ts => Ok (Some (become (WRun task) (set_tasks ts (s.(num_running_tasks_) + 1) s)))
      | [] => Ok (Some (become (if s.(waiting_to_finish_) then WGone else WSleep false) s))
      end
  | Some (WRun task) => Ok (Some (become WFinish (set_log s.(added) (s.(ran) ++ [task]) s.(waited) s)))
  | Some WFinish =>
      let s := set_tasks s.(tasks_) (s.(num_running_tasks_) - 1) s in
      _ ← check (bool_decide (0 <= s.(num_running_tasks_))%Z);
      Ok (Some (become WGet (if Done s then set_owner (wake_o s.(at_o)) s else s)))
  | Some (WSleep false) | Some WGone | None => Ok None
  end.

(** *** The owner *)

(** The calls: [StartWorkers()], [Add(task)], with the sleeping worker that
    [notify_one] reaches, [Wait()], the destructor. *)
Inductive pcall := StartWorkers | Add (task : T) (reached : option nat) | Wait | Destroy.

Definition asleep (w : wpc) : bool := match w with WSleep false => true | _ => false end.

(** Whether [notify_one] may reach the worker [reached]: one that sleeps, unless there
    is none. *)
Definition may_reach (reached : option nat) (ws : list wpc) : bool :=
  match reached with
  | Some i => match ws !! i with Some w => asleep w | None => false end
  | None => forallb (fun w => negb (asleep w)) ws
  end.

(** [Add(task)]; the workers that do not run yet are not notified. *)
Definition add (task : T) (reached : option nat) (s : pool) : option pool :=
  if may_reach reached s.(all_workers_) then
    let s := set_log (s.(added) ++ [task]) s.(ran) false (set_tasks (s.(tasks_) ++ [task]) s.(num_running_tasks_) s) in
    Some (if s.(started_) then set_workers (match reached with Some i => alter wake_w i s.(all_workers_) | None => s.(all_workers_) end) s else s)
  else None.

(** The start of a call; [None] for one that the owner does not make in this state. *)
Definition start_pcall (c : pcall) (s : pool) : option pool :=
  match s.(at_o), c with
  | OIdle, StartWorkers => if s.(started_) then None else Some (set_workers (s.(all_workers_) ++ replicate num_workers_ WGet) (set_flags s.(waiting_to_finish_) true s))
  | OIdle, Add task reached => add task reached s
  | OIdle, Wait => Some (set_owner (OWait true false) s)
  | OIdle, Destroy => if s.(started_) then Some (set_owner ONotify (set_flags true s.(started_) s)) else Some (set_owner OGone s)
  | _, _ => None
  end.

Definition gone (w : wpc) : bool := match w with WGone => true | _ => false end.

(** A step of the owner inside a call; [None] when it waits. *)
Definition owner_step (s : pool) : option pool :=
  match s.(at_o) with
  | OIdle | OGone | OWait false _ => None
  | OWait true last =>
      if Done s then Some (set_log s.(added) s.(ran) true (set_owner (if last then OJoin else OIdle) s)) else Some (set_owner (OWait false last) s)
  | ONotify => Some (set_owner (OWait true true) (set_workers (map wake_w s.(all_workers_)) s))
  | OJoin => if forallb gone (take num_workers_ s.(all_workers_)) then Some (set_owner OGone s) else None
  end.

(** A step of a thread inside what it is doing. *)
Inductive prun : pool -> pool -> Prop :=
| prun_worker i s s' : worker_step i s = Ok (Some s') -> prun s s'
| prun_owner s s' : owner_step s = Some s' -> prun s s'.

(** Any step: also a call, and a thread that wakes up although it was not notified. *)
Inductive pstep : pool -> pool -> Prop :=
| pstep_run s s' : prun s s' -> pstep s s'
| pstep_call c s s' : start_pcall c s = Some s' -> pstep s s'
| pstep_spurious_w i s : pstep s (set_workers (alter wake_w i s.(all_workers_)) s)
| pstep_spurious_o s : pstep s (set_owner (wake_o s.(at_o)) s).

(** ** One worker among many *)

Lemma focus {A} (f : wpc -> list A) (ws : list wpc) i w : ws !! i = Some w ->
  exists rest, concat (map f ws) ≡ₚ f w ++ rest /\ forall w', concat (map f (<[i := w']> ws)) ≡ₚ f w' ++ rest.
Proof.
  intros Hi. exists (concat (map f (take i ws)) ++ concat (map f (drop (S i) ws))). split.
  - rewrite <- (take_drop_middle ws i w Hi) at 1. rewrite map_app, concat_app. simpl. rewrite Permutation_app_swap_app. done.
  - intros w'. rewrite insert_take_drop by (by eapply lookup_lt_Some). rewrite map_app, concat_app. simpl. rewrite Permutation_app_swap_app. done.
Qed.

(** The tasks that were taken and not run; a mark for every worker with a task. *)
Definition taken (w : wpc) : list T := match w with WRun t => [t] | _ => [] end.
Definition busy (w : wpc) : list () := match w with WRun _ | WFinish => [()] | _ => [] end.

(** Workers that can go on. *)
Definition lively (w : wpc) : Prop := match w with WSleep false | WGone => False | _ => True end.

(** Every task is in one place; a thread that sleeps has no reason to go on. *)
Record pinv (s : pool) : Prop := {
  pi_tasks : s.(ran) ++ concat (map taken s.(all_workers_)) ++ s.(tasks_) ≡ₚ s.(added);
  pi_running : s.(num_running_tasks_) = Z.of_nat (length (concat (map busy s.(all_workers_))));
  pi_waited : s.(waited) = true -> Done s = true;
  pi_owner : match s.(at_o) with
             | OWait false last => Done s = false
             | OJoin | OGone => s.(started_) = true -> Done s = true
             | _ => True
             end;
  pi_finish : s.(waiting_to_finish_) = match s.(at_o) with OWait _ true | ONotify | OJoin => true | OGone => s.(started_) | _ => false end;
  pi_started : if s.(started_) then length s.(all_workers_) = num_workers_ else s.(all_workers_) = [] /\ s.(waiting_to_finish_) = false;
  pi_awake : s.(tasks_) <> [] -> 0 < length s.(all_workers_) -> exists w, w ∈ s.(all_workers_) /\ lively w;
  pi_asleep : s.(waiting_to_finish_) = true -> s.(at_o) <> ONotify -> Forall (fun w => asleep w = false) s.(all_workers_);
  pi_gone : s.(waiting_to_finish_) = false -> Forall (fun w => gone w = false) s.(all_workers_)
}.

Ltac pcbn :=
  cbn [set_tasks set_workers set_owner set_log set_flags tasks_ num_running_tasks_ waiting_to_finish_ started_ all_workers_ at_o added ran waited] in *.
Ltac open_pool s := destruct s as [ts n fin st ws ao ad rn wt]; pcbn.

Lemma Done_spec s : Done s = true <-> s.(tasks_) = [] /\ s.(num_running_tasks_) = 0%Z.
Proof. unfold Done. rewrite andb_true_iff, !bool_decide_eq_true, length_zero_iff_nil. done. Qed.

(** What is the same for all workers, when worker [i] goes on. *)
Lemma workers_insert (P : wpc -> Prop) (ws : list wpc) i w : Forall P ws -> P w -> Forall P (<[i := w]> ws).
Proof. intros. by apply Forall_insert. Qed.

Lemma lively_insert (ws : list wpc) i w w' : ws !! i = Some w -> lively w' -> exists w0, w0 ∈ <[i := w']> ws /\ lively w0.
Proof. intros Hi Hl. exists w'. split; [|done]. apply list_elem_of_lookup. exists i. apply list_lookup_insert_eq. by eapply lookup_lt_Some. Qed.

Lemma pinv_init : pinv new_ThreadPool.
Proof. by split. Qed.

(** Taking a task, or finding none. *)
Lemma pinv_get i s w : pinv s -> s.(all_workers_) !! i = Some w -> w = WGet \/ w = WSleep true -> exists s', worker_step i s = Ok (Some s') /\ pinv s'.
Proof.
  intros [H1 H2 H3 H4 H5 H6 H7 H8 H9] Hi Hw. destruct (focus taken _ i w Hi) as (rt & Ht & Ht'). destruct (focus busy _ i w Hi) as (rb & Hb & Hb').
  assert (taken w = [] /\ busy w = [] /\ asleep w = false) as (E1 & E2 & E3) by (by destruct Hw as [->| ->]). rewrite E1 in Ht. rewrite E2 in Hb. cbn [app] in Ht, Hb.
  unfold worker_step. rewrite Hi. open_pool s. destruct ts as [|task ts].
  - exists (mkPool [] n fin st (<[i := if fin then WGone else WSleep false]> ws) ao ad rn wt). split; [by destruct Hw as [->| ->]|].
    split; pcbn; try done.
    + rewrite Ht'. rewrite <- H1, Ht. by destruct fin.
    + rewrite H2, Hb, Hb'. by destruct fin.
    + destruct st; [by rewrite length_insert|]. destruct H6 as [-> _]. done.
    + intros Hf Hn. rewrite Hf. apply workers_insert; [by apply H8|done].
    + intros Hf. rewrite Hf. apply workers_insert; [by apply H9|done].
  - exists (mkPool ts (n + 1) fin st (<[i := WRun task]> ws) ao ad rn wt). split; [by destruct Hw as [->| ->]|].
    assert (Done (mkPool (task :: ts) n fin st ws ao ad rn wt) = false) as Hd by done.
    assert (forall ws', Done (mkPool ts (n + 1) fin st ws' ao ad rn wt) = false) as Hd'.
    { intros ws'. apply not_true_iff_false. rewrite Done_spec. pcbn. intros [_ ?]. lia. }
    split; pcbn; try done.
    + rewrite Ht'. cbn [taken]. rewrite <- H1, Ht. rewrite <- !app_assoc. cbn [app]. f_equiv. by rewrite Permutation_middle.
    + rewrite H2, (Permutation_length (Hb' _)), (Permutation_length Hb). simpl. lia.
    + intros E. by rewrite H3 in Hd.
    + destruct ao as [|[] ?| | |]; try done; intros E; by rewrite H4 in Hd.
    + by destruct st; [rewrite length_insert|destruct H6 as [-> _]].
    + intros _ _. by eapply lively_insert.
    + intros Hf Hn. apply workers_insert; [by apply H8|done].
    + intros Hf. apply workers_insert; [by apply H9|done].
Qed.

(** Running a task. *)
Lemma pinv_task i s t : pinv s -> s.(all_workers_) !! i = Some (WRun t) -> exists s', worker_step i s = Ok (Some s') /\ pinv s'.
Proof.
  intros [H1 H2 H3 H4 H5 H6 H7 H8 H9] Hi. destruct (focus taken _ i _ Hi) as (rt & Ht & Ht'). destruct (focus busy _ i _ Hi) as (rb & Hb & Hb').
  unfold worker_step. rewrite Hi. open_pool s. eexists. split; [done|]. split; pcbn; try done.
  - rewrite Ht'. rewrite <- H1, Ht. cbn [taken app]. by rewrite <- !app_assoc.
  - by rewrite H2, (Permutation_length (Hb' _)), (Permutation_length Hb).
  - by destruct st; [rewrite length_insert|destruct H6 as [-> _]].
  - intros _ _. by eapply lively_insert.
  - intros Hf Hn. apply workers_insert; [by apply H8|done].
  - intros Hf. apply workers_insert; [by apply H9|done].
Qed.

(** [FinishTask]. *)
Lemma pinv_finish i s : pinv s -> s.(all_workers_) !! i = Some WFinish -> exists s', worker_step i s = Ok (Some s') /\ pinv s'.
Proof.
  intros [H1 H2 H3 H4 H5 H6 H7 H8 H9] Hi. destruct (focus taken _ i _ Hi) as (rt & Ht & Ht'). destruct (focus busy _ i _ Hi) as (rb & Hb & Hb').
  unfold worker_step. rewrite Hi. open_pool s. rewrite (Permutation_length Hb) in H2. cbn [busy app length] in H2.
  rewrite bool_decide_eq_true_2 by lia. cbn [check mbind outcome_bind]. eexists. split; [done|].
  assert (Done (mkPool ts n fin st ws ao ad rn wt) = false) as Hd.
  { apply not_true_iff_false. rewrite Done_spec. pcbn. lia. }
  set (d := Done _). assert (wt = false) as -> by (destruct wt; [by rewrite H3 in Hd|done]).
  assert (forall ao' ws', Done (mkPool ts (n - 1) fin st ws' ao' ad rn false) = d) as Hd' by done.
  match goal with |- context [if d then ?a else ?b] => assert (exists ao', (if d then a else b) =
    mkPool ts (n - 1) fin st ws ao' ad rn false /\ (ao' = ao /\ d = false \/ ao' = wake_o ao /\ d = true)) as (ao' & Eao & Hao) by (destruct d; eauto) end.
  rewrite Eao. pcbn.
  assert (match ao' with OWait false _ => d = false | OJoin | OGone => st = true -> d = true | _ => True end /\
    (ao' = ONotify <-> ao = ONotify) /\
    match ao' with OWait _ true | ONotify | OJoin => true | OGone => st | _ => false end = match ao with OWait _ true | ONotify | OJoin => true | OGone => st | _ => false end) as (K1 & K2 & K3).
  { destruct Hao as [[-> Ed]|[-> Ed]]; rewrite Ed; destruct ao as [|[] []| | |]; simpl; split_and!; try done; intros E; by rewrite H4 in Hd. }
  split; pcbn; try done.
  - rewrite Ht'. rewrite <- H1, Ht. done.
  - rewrite H2, (Permutation_length (Hb' _)). cbn [busy app]. lia.
  - by rewrite K3.
  - by destruct st; [rewrite length_insert|destruct H6 as [-> _]].
  - intros _ _. by eapply lively_insert.
  - intros Hf Hn. apply workers_insert; [|done]. apply H8; [done|]. by rewrite <- K2.
  - intros Hf. apply workers_insert; [by apply H9|done].
Qed.

Lemma worker_ok i s : pinv s -> exists o, worker_step i s = Ok o /\ (forall s', o = Some s' -> pinv s') /\
  (o = None -> match s.(all_workers_) !! i with Some w => ~ lively w | None => True end).
Proof.
  intros Hs. destruct (all_workers_ s !! i) as [w|] eqn:Hi; [|exists None; unfold worker_step; rewrite Hi; done].
  assert ((exists s', worker_step i s = Ok (Some s') /\ pinv s') -> exists o, worker_step i s = Ok o /\ (forall s', o = Some s' -> pinv s') /\ (o = None -> ~ lively w)) as Hyes.
  { intros (s' & E & Hs'). exists (Some s'). split_and!; [done|congruence|done]. }
  destruct w as [|[]|t| |].
  - apply Hyes. eapply pinv_get; eauto.
  - apply Hyes. eapply pinv_get; eauto.
  - exists None. unfold worker_step. rewrite Hi. split_and!; auto; done.
  - apply Hyes. by eapply pinv_task.
  - apply Hyes. by eapply pinv_finish.
  - exists None. unfold worker_step. rewrite Hi. split_and!; auto; done.
Qed.

(** Waking workers does not change what they have. *)
Lemma wake_same (f : wpc -> wpc) (ws : list wpc) {A} (g : wpc -> list A) : (forall w, g (f w) = g w) -> map g (map f ws) = map g ws.
Proof. intros H. rewrite map_map. apply map_ext. apply H. Qed.

Lemma alter_same (ws : list wpc) i {A} (g : wpc -> A) : (forall w, g (wake_w w) = g w) -> map g (alter wake_w i ws) = map g ws.
Proof.
  intros H. revert i. induction ws as [|w ws IH]; intros [|i]; simpl; [done|done| |]; f_equal; [apply H|apply IH].
Qed.

Lemma alter_Forall (P : wpc -> Prop) (ws : list wpc) i : (forall w, P w -> P (wake_w w)) -> Forall P ws -> Forall P (alter wake_w i ws).
Proof. intros H Hws. apply Forall_alter; [done|]. intros x Hx Px. by apply H. Qed.

Lemma alter_lively (ws : list wpc) i : (exists w, w ∈ ws /\ lively w) -> exists w, w ∈ alter wake_w i ws /\ lively w.
Proof.
  intros (w & (j & Hj)%list_elem_of_lookup & Hl). destruct (decide (i = j)) as [->|Hne].
  - exists (wake_w w). split; [|by destruct w]. apply list_elem_of_lookup. exists j. by rewrite list_lookup_alter_eq, Hj.
  - exists w. split; [|done]. apply list_elem_of_lookup. exists j. by rewrite list_lookup_alter_ne.
Qed.

Lemma wake_asleep w : asleep (wake_w w) = false.
Proof. by destruct w. Qed.
Lemma wake_gone w : gone w = false -> gone (wake_w w) = false.
Proof. by destruct w. Qed.

Lemma pinv_wake i s : pinv s -> pinv (set_workers (alter wake_w i s.(all_workers_)) s).
Proof.
  intros [H1 H2 H3 H4 H5 H6 H7 H8 H9]. open_pool s. split; pcbn; try done.
  - rewrite (alter_same _ i taken) by (by intros []). done.
  - rewrite (alter_same _ i busy) by (by intros []). done.
  - destruct st; [by rewrite length_alter|]. destruct H6 as [-> ->]. done.
  - intros Ht Hl. rewrite length_alter in Hl. by apply alter_lively, H7.
  - intros Hf Hn. apply alter_Forall; [intros; apply wake_asleep|by apply H8].
  - intros Hf. apply alter_Forall; [apply wake_gone|by apply H9].
Qed.

Lemma pinv_wake_o s : pinv s -> pinv (set_owner (wake_o s.(at_o)) s).
Proof.
  intros [H1 H2 H3 H4 H5 H6 H7 H8 H9]. open_pool s. split; pcbn; try done; destruct ao as [|[] []| | |]; try done; intros E _; by apply H8.
Qed.

Lemma forallb_asleep (ws : list wpc) : forallb (fun w => negb (asleep w)) ws = true -> Forall (fun w => asleep w = false) ws.
Proof. rewrite forallb_forall. intros H. apply Forall_forall. intros w Hw. apply negb_true_iff, H. by apply list_elem_of_In. Qed.

(** A task more, and the workers that are awake then. *)
Lemma pinv_added t ts n st (ws ws' : list wpc) ad rn wt : pinv (mkPool ts n false st ws OIdle ad rn wt) ->
  map taken ws' = map taken ws -> map busy ws' = map busy ws -> (ws' = [] <-> ws = []) -> length ws' = length ws -> Forall (fun w => gone w = false) ws' ->
  (0 < length ws' -> exists w, w ∈ ws' /\ lively w) -> pinv (mkPool (ts ++ [t]) n false st ws' OIdle (ad ++ [t]) rn false).
Proof.
  intros [H1 H2 H3 H4 H5 H6 H7 H8 H9] Et Eb E0 El Hg Hl. pcbn. split; pcbn; try done.
  - by rewrite Et, <- H1, !app_assoc.
  - by rewrite Eb.
  - destruct st; [congruence|]. destruct H6 as [H6 _]. split; [by apply E0|done].
Qed.

Lemma pinv_add t r s s' : pinv s -> s.(at_o) = OIdle -> add t r s = Some s' -> pinv s'.
Proof.
  intros Hs Eo E. unfold add in E. destruct (may_reach r (all_workers_ s)) eqn:Em; [|done]. injection E as <-.
  pose proof (pi_finish s Hs) as Hf. pose proof (pi_started s Hs) as Hst. pose proof (pi_gone s Hs) as Hg. rewrite Eo in Hf. specialize (Hg Hf).
  open_pool s. subst ao fin. destruct st; pcbn.
  - destruct r as [i|]; cbn [may_reach] in Em.
    + destruct (ws !! i) as [w|] eqn:Hi; [|done]. eapply pinv_added; [exact Hs|..].
      * apply alter_same. by intros [].
      * apply alter_same. by intros [].
      * rewrite <- !length_zero_iff_nil, length_alter. done.
      * apply length_alter.
      * apply alter_Forall; [apply wake_gone|done].
      * intros _. exists (wake_w w). split; [|by destruct w as [|[]| | |]]. apply list_elem_of_lookup. exists i. by rewrite list_lookup_alter_eq, Hi.
    + eapply pinv_added; [exact Hs|done..|]. intros Hl. apply forallb_asleep in Em. destruct ws as [|w ws]; [simpl in Hl; lia|]. exists w. split; [by left|].
      apply Forall_cons in Em as [Em _]. apply Forall_cons in Hg as [Hg _]. by destruct w as [|[]| | |].
  - eapply pinv_added; [exact Hs|done..|]. destruct Hst as [-> _]. simpl. lia.
Qed.

Lemma pcall_ok c s s' : pinv s -> start_pcall c s = Some s' -> pinv s'.
Proof.
  intros Hs E. unfold start_pcall in E. destruct (at_o s) eqn:Eo; try done. destruct c as [|t r| |].
  - pose proof Hs as [H1 H2 H3 H4 H5 H6 H7 H8 H9]. open_pool s. subst ao. destruct st; [done|]. injection E as <-. destruct H6 as [-> ->].
    assert (forall A (f : wpc -> list A), f WGet = [] -> concat (map f (replicate num_workers_ WGet)) = []) as Hrep.
    { intros A f Hf. clear - Hf. induction num_workers_ as [|k IH]; [done|]. simpl. by rewrite Hf. }
    split; pcbn; try done; cbn [app].
    + by rewrite Hrep.
    + by rewrite Hrep.
    + by rewrite length_replicate.
    + intros _ Hl. rewrite length_replicate in Hl. exists WGet. split; [|done]. apply elem_of_replicate. split; [done|lia].
    + intros _. by apply Forall_replicate.
  - by eapply pinv_add.
  - injection E as <-. pose proof Hs as [H1 H2 H3 H4 H5 H6 H7 H8 H9]. open_pool s. subst ao fin. by split.
  - pose proof Hs as [H1 H2 H3 H4 H5 H6 H7 H8 H9]. open_pool s. subst ao fin. destruct st; injection E as <-; by split.
Qed.

Lemma owner_ok s s' : pinv s -> owner_step s = Some s' -> pinv s'.
Proof.
  intros Hs E. pose proof Hs as [H1 H2 H3 H4 H5 H6 H7 H8 H9]. unfold owner_step in E. destruct (at_o s) as [|[] last| | |] eqn:Eo; try done.
  - destruct (Done s) eqn:Ed.
    + injection E as <-. open_pool s. subst ao. destruct last; split; pcbn; try done; intros; by apply H8.
    + injection E as <-. open_pool s. subst ao. destruct last; split; pcbn; try done; intros Hf; first [discriminate (H3 Hf)|intros _; by apply H8].
  - injection E as <-. open_pool s. subst ao fin. split; pcbn; try done.
    + rewrite wake_same by (by intros []). done.
    + rewrite wake_same by (by intros []). done.
    + destruct st; [by rewrite length_map|]. by destruct H6.
    + intros Ht Hl. rewrite length_map in Hl. destruct (H7 Ht Hl) as (w & Hw & Hlw). exists (wake_w w). split; [by apply list_elem_of_fmap_2|by destruct w].
    + intros _ _. apply Forall_forall. intros w (w0 & -> & _)%list_elem_of_fmap. apply wake_asleep.
  - destruct (forallb gone _); [|done]. injection E as <-. open_pool s. subst ao fin. destruct st; [|by destruct H6]. split; pcbn; try done; intros; by apply H8.
Qed.

Lemma pinv_step s s' : pinv s -> pstep s s' -> pinv s'.
Proof.
  intros Hs H. destruct H as [s s' [i s1 s2 E|s1 s2 E]|c s s' E|i s|s].
  - destruct (worker_ok i s1 Hs) as (o & E' & Hn & _). apply Hn. congruence.
  - by eapply owner_ok.
  - by eapply pcall_ok.
  - by apply pinv_wake.
  - by apply pinv_wake_o.
Qed.

Definition preachable (s : pool) : Prop := rtc pstep new_ThreadPool s.

Lemma pinv_reachable s : preachable s -> pinv s.
Proof. intros Hr. assert (pinv new_ThreadPool) as Hi by apply pinv_init. induction Hr as [|s1 s2 s3 H12 _ IH]; [done|]. apply IH. by eapply pinv_step. Qed.

(** ** Every task once *)

Lemma busy_taken (ws : list wpc) : concat (map busy ws) = [] -> concat (map taken ws) = [].
Proof. induction ws as [|w ws IH]; [done|]. simpl. intros [E1 E2]%app_eq_nil. rewrite IH by done. by destruct w. Qed.

Lemma done_ran s : pinv s -> Done s = true -> s.(ran) ≡ₚ s.(added).
Proof.
  intros Hs [Et En]%Done_spec. rewrite <- (pi_tasks s Hs), Et. rewrite (pi_running s Hs) in En. rewrite busy_taken by (apply length_zero_iff_nil; lia). by rewrite !app_nil_r.
Qed.

Lemma worker_logs i s s' : worker_step i s = Ok (Some s') -> s'.(added) = s.(added) /\ s.(ran) `prefix_of` s'.(ran).
Proof.
  intros E. unfold worker_step in E. destruct (all_workers_ s !! i) as [[|[]|t| |]|]; try done.
  - destruct (tasks_ s); injection E as <-; done.
  - destruct (tasks_ s); injection E as <-; done.
  - injection E as <-. split; [done|]. by eexists.
  - destruct (check _); [|done]. cbn [mbind outcome_bind] in E. injection E as <-. pcbn. destruct (Done _); done.
Qed.

Lemma pstep_logs s s' : pstep s s' -> s.(added) `prefix_of` s'.(added) /\ s.(ran) `prefix_of` s'.(ran).
Proof.
  intros H. destruct H as [s s' [i s1 s2 E|s1 s2 E]|c s s' E|i s|s]; try done.
  - apply worker_logs in E as [-> ?]. done.
  - unfold owner_step in E. destruct (at_o s1) as [|[]| | |]; try done; repeat case_match; simplify_eq; done.
  - unfold start_pcall in E. destruct (at_o s); try done. destruct c as [|t r| |]; repeat case_match; simplify_eq; try done.
    unfold add in E. destruct (may_reach _ _); [|done]. injection E as <-. destruct (started_ s); pcbn; (split; [by eexists|done]).
Qed.

(** C15: the pool runs every task that is added exactly once.  For every number of
    workers, every interleaving, every choice of the worker that a notification
    reaches and with spurious wakeups: the [CHECK] of [FinishTask] does not fail; a
    task is in the list, taken by one worker, or was run, and nowhere twice; when
    [Wait] has returned, and behind the destructor, everything that was added was
    run, and between two returns of [Wait] exactly the tasks that were added in
    between, in some order. *)
Theorem pool_runs_all s : preachable s ->
  (forall i e, worker_step i s <> Fail e) /\
  s.(ran) ++ concat (map taken s.(all_workers_)) ++ s.(tasks_) ≡ₚ s.(added) /\
  (s.(waited) = true \/ s.(at_o) = OGone /\ s.(started_) = true -> s.(ran) ≡ₚ s.(added)) /\
  forall s', rtc pstep s s' -> s.(waited) = true -> s'.(waited) = true -> exists ts rs, s'.(added) = s.(added) ++ ts /\ s'.(ran) = s.(ran) ++ rs /\ rs ≡ₚ ts.
Proof.
  intros Hr. pose proof (pinv_reachable s Hr) as Hs. split; [|split; [apply Hs|split]].
  - intros i e E. destruct (worker_ok i s Hs) as (o & E' & _). congruence.
  - intros H. apply done_ran; [done|]. destruct H as [H|[Eo Est]]; [by apply (pi_waited s Hs)|]. pose proof (pi_owner s Hs) as Ho. rewrite Eo in Ho. by apply Ho.
  - intros s' Hrr Hw Hw'. assert (pinv s') as Hs' by (apply pinv_reachable; unfold preachable in *; by etrans).
    assert (s.(added) `prefix_of` s'.(added) /\ s.(ran) `prefix_of` s'.(ran)) as [[ts Ea] [rs Er]].
    { clear - Hrr. induction Hrr as [|s1 s2 s3 H12 _ [IH1 IH2]]; [done|]. destruct (pstep_logs _ _ H12). split; by etrans. }
    exists ts, rs. split_and!; try done. pose proof (done_ran s Hs (pi_waited s Hs Hw)) as P1. pose proof (done_ran s' Hs' (pi_waited s' Hs' Hw')) as P2.
    rewrite Ea, Er, P1 in P2. by apply Permutation_app_inv_l in P2.
Qed.

(** ** Calls end *)
Definition wwork (w : wpc) : nat := match w with WGet | WSleep true => 2 | WSleep false | WGone => 0 | WRun _ => 5 | WFinish => 4 end.
Definition owork (pc : opc) (n : nat) : nat :=
  match pc with OIdle | OGone => 0 | OWait a last => (if a then 2 else 1) + (if last then 2 else 0) | ONotify => 5 + 2 * n | OJoin => 1 end.
Definition pwork (s : pool) : nat := 4 * length s.(tasks_) + sum_list (map wwork s.(all_workers_)) + owork s.(at_o) (length s.(all_workers_)).

Lemma sum_insert (ws : list wpc) i w w' : ws !! i = Some w -> sum_list (map wwork (<[i := w']> ws)) + wwork w = sum_list (map wwork ws) + wwork w'.
Proof. revert i. induction ws as [|x ws IH]; intros [|i] Hi; simplify_eq/=; [lia|]. specialize (IH i Hi). lia. Qed.

Lemma sum_wake (ws : list wpc) : sum_list (map wwork (map wake_w ws)) <= sum_list (map wwork ws) + 2 * length ws.
Proof. induction ws as [|w ws IH]; [done|]. simpl. destruct w as [|[]| | |]; simpl; lia. Qed.

Lemma work_worker i s s' : worker_step i s = Ok (Some s') -> pwork s' < pwork s.
Proof.
  intros E. unfold worker_step in E. destruct (all_workers_ s !! i) as [w|] eqn:Hi; [|done]. unfold pwork. pose proof (fun w' => sum_insert _ i w w' Hi) as Hsum.
  destruct w as [|[]|t| |]; try done.
  1, 2: destruct (tasks_ s) as [|t ts] eqn:Et; injection E as <-; pcbn; rewrite length_insert, ?Et; [specialize (Hsum (if waiting_to_finish_ s then WGone else WSleep false))|specialize (Hsum (WRun t))];
    destruct (waiting_to_finish_ s); simpl in *; lia.
  - injection E as <-. pcbn. rewrite length_insert. specialize (Hsum WFinish). simpl in *. lia.
  - destruct (check _); [|done]. cbn [mbind outcome_bind] in E. injection E as <-. pcbn. specialize (Hsum WGet). rewrite length_insert.
    destruct (Done _); pcbn; rewrite ?length_insert; [destruct (at_o s) as [|[] []| | |]|]; simpl in *; lia.
Qed.

Lemma work_owner s s' : owner_step s = Some s' -> pwork s' < pwork s.
Proof.
  intros E. unfold owner_step in E. unfold pwork. destruct (at_o s) as [|[] last| | |]; try done.
  - destruct (Done s); injection E as <-; pcbn; destruct last; simpl; lia.
  - injection E as <-. pcbn. rewrite length_map. pose proof (sum_wake (all_workers_ s)). simpl in *. lia.
  - destruct (forallb gone _); [|done]. injection E as <-. pcbn. simpl. lia.
Qed.

Lemma prun_ends s : sn prun s.
Proof.
  remember (pwork s) as n eqn:En. revert s En. induction (lt_wf n) as [n _ IH]. intros s ->. constructor. intros s' Hr.
  apply (IH (pwork s')); [|done]. destruct Hr as [i s s' E|s s' E]; [by eapply work_worker|by apply work_owner].
Qed.

(** A worker that has something to do can go on. *)
Lemma lively_runs s w : pinv s -> w ∈ s.(all_workers_) -> lively w -> exists s', prun s s'.
Proof.
  intros Hs (i & Hi)%list_elem_of_lookup Hl. destruct (worker_ok i s Hs) as ([s'|] & E & _ & Hn); [exists s'; by eapply prun_worker|].
  specialize (Hn eq_refl). by rewrite Hi in Hn.
Qed.

Lemma busy_lively (ws : list wpc) : concat (map busy ws) <> [] -> exists w, w ∈ ws /\ lively w.
Proof.
  induction ws as [|w ws IH]; [done|]. simpl. intros Hne. destruct (busy w) as [|u us] eqn:Eb.
  - destruct (IH Hne) as (w' & Hw & Hl). exists w'. split; [by right|done].
  - exists w. split; [by left|]. by destruct w.
Qed.

Lemma pool_stuck_done s : pinv s -> 0 < num_workers_ -> s.(started_) = true -> nf prun s -> Done s = true.
Proof.
  intros Hs Hn Hst Hnf. apply Done_spec. pose proof (pi_started s Hs) as Hlen. rewrite Hst in Hlen.
  destruct (decide (tasks_ s = [])) as [Et|Et]; [split; [done|]|].
  - rewrite (pi_running s Hs). destruct (concat (map busy (all_workers_ s))) eqn:Eb; [done|]. exfalso. destruct (busy_lively (all_workers_ s)) as (w & Hw & Hl); [by rewrite Eb|].
    destruct (lively_runs s w Hs Hw Hl) as [s' ?]. apply Hnf. by exists s'.
  - exfalso. destruct (pi_awake s Hs Et) as (w & Hw & Hl); [lia|]. destruct (lively_runs s w Hs Hw Hl) as [s' ?]. apply Hnf. by exists s'.
Qed.

(** C28: no wakeup of the pool is lost.  With at least one worker, started: every
    execution in which no new call is made ends, and where no thread can go on
    every task was run, [Wait] has returned and the destructor has joined all
    workers. *)
Theorem pool_calls_return s : 0 < num_workers_ -> preachable s -> s.(started_) = true ->
  sn prun s /\ forall s', rtc prun s s' -> nf prun s' -> (s'.(at_o) = OIdle \/ s'.(at_o) = OGone) /\ s'.(ran) ≡ₚ s'.(added) /\ s'.(tasks_) = [].
Proof.
  intros Hn Hr Hst. split; [apply prun_ends|]. intros s' Hrun Hnf.
  assert (pinv s' /\ s'.(started_) = true) as [Hs' Hst'].
  { assert (rtc pstep s s') as Hrs by (eapply rtc_subrel; [|exact Hrun]; intros; by constructor). split; [apply pinv_reachable; unfold preachable in *; by etrans|].
    clear - Hrun Hst. induction Hrun as [|s1 s2 s3 H12 _ IH]; [done|]. apply IH. destruct H12 as [i s1 s2 E|s1 s2 E].
    - unfold worker_step in E. destruct (all_workers_ s1 !! i) as [[|[]|t| |]|]; try done; [by destruct (tasks_ s1); injection E as <-..|by injection E as <-|].
      destruct (check _); [|done]. cbn [mbind outcome_bind] in E. injection E as <-. pcbn. by destruct (Done _).
    - unfold owner_step in E. destruct (at_o s1) as [|[]| | |]; try done; repeat case_match; by simplify_eq. }
  pose proof (pool_stuck_done s' Hs' Hn Hst' Hnf) as Hd. split; [|split; [by apply done_ran|by apply Done_spec in Hd as []]].
  pose proof (pi_owner s' Hs') as Ho. pose proof (pi_finish s' Hs') as Hf. pose proof (pi_asleep s' Hs') as Ha. pose proof (pi_started s' Hs') as Hlen. rewrite Hst' in Hlen.
  destruct (at_o s') as [|[] last| | |] eqn:Eo; [by left|..|by right]; exfalso.
  - apply Hnf. unfold owner_step. destruct (Done s') eqn:E; [|done]. eexists. apply prun_owner. unfold owner_step. rewrite Eo, E. done.
  - congruence.
  - apply Hnf. eexists. apply prun_owner. unfold owner_step. rewrite Eo. done.
  - apply Hnf. eexists. apply prun_owner. unfold owner_step. rewrite Eo. rewrite (proj2 (forallb_forall _ _)); [done|]. intros w Hw%list_elem_of_In.
    rewrite <- Hlen, firstn_all in Hw. specialize (Ha Hf ltac:(done)). rewrite Forall_forall in Ha. specialize (Ha w Hw).
    destruct w as [|[]|t| |]; try done; exfalso; (eapply lively_runs in Hw as [s2 ?]; [|done|done]); apply Hnf; by exists s2.
Qed.

(** An execution in which the named thread makes each step. *)
Inductive pactor := Working (i : nat) | Owning | Calling (c : pcall).
Fixpoint play (turns : list pactor) (s : pool) : option pool :=
  match turns with
  | [] => Some s
  | a :: turns =>
      match match a with Working i => worker_step i s | Owning => Ok (owner_step s) | Calling c => Ok (start_pcall c s) end with
      | Ok (Some s) => play turns s
      | _ => None
      end
  end.

Lemma play_psteps turns s s' : play turns s = Some s' -> rtc pstep s s'.
Proof.
  induction turns as [|a turns IH] in s |- *; simpl; [by intros [= ->]|]. intros E.
  destruct a as [i| |c]; [destruct (worker_step i s) as [[s1|]|] eqn:E1|destruct (owner_step s) as [s1|] eqn:E1|destruct (start_pcall c s) as [s1|] eqn:E1]; try done;
    (eapply rtc_l; [|by apply IH]).
  - by eapply pstep_run, prun_worker.
  - by apply pstep_run, prun_owner.
  - by eapply pstep_call.
Qed.
End Pool.

(** ** Examples *)
Module ThreadPoolExample.
(** Two workers: one sleeps and is woken by the first task; the second task is taken
    and finished before the first. *)
Definition turns : list (pactor (T := nat)) :=
  [Calling StartWorkers; Working 0; Calling (Add 10 (Some 0)); Calling (Add 20 None); Calling Wait; Owning; Working 0; Working 1; Working 1; Working 1].

Definition shown (o : option (pool (T := nat))) : option (list nat * list nat * opc * Z) :=
  match o with Some s => Some (tasks_ s, ran s, at_o s, num_running_tasks_ s) | None => None end.

Example sleeps : shown (play 2 turns new_ThreadPool) = Some ([], [20], OWait false false, 1%Z).
Proof. vm_compute. reflexivity. Qed.

Example returns : shown (play 2 (turns ++ [Working 0; Working 0; Owning]) new_ThreadPool) = Some ([], [20; 10], OIdle, 0%Z).
Proof. vm_compute. reflexivity. Qed.

(** The destructor: both workers are told to finish. *)
Example joins : shown (play 2 (turns ++ [Working 0; Working 0; Owning; Working 0; Calling Destroy; Owning; Owning; Working 0; Working 1; Owning]) new_ThreadPool) =
  Some ([], [20; 10], OGone, 0%Z).
Proof. vm_compute. reflexivity. Qed.

Lemma pool_runs_all_witness : exists s, play 2 turns new_ThreadPool = Some s /\ at_o s = OWait false false /\
  ran s ++ concat (map taken (all_workers_ s)) ++ tasks_ s ≡ₚ [10; 20].
Proof.
  destruct (play 2 turns new_ThreadPool) as [s|] eqn:E; [|vm_compute in E; discriminate].
  pose proof (pool_runs_all 2 s (play_psteps 2 _ _ _ E)) as (_ & Hp & _). vm_compute in E. injection E as <-. eexists. split; [done|]. split; [done|exact Hp].
Defined.

Lemma pool_calls_return_witness : exists s, play 2 turns new_ThreadPool = Some s /\ at_o s = OWait false false /\ sn (prun 2) s.
Proof.
  destruct (play 2 turns new_ThreadPool) as [s|] eqn:E; [|vm_compute in E; discriminate].
  assert (started_ s = true) as Hst by (vm_compute in E; by injection E as <-).
  pose proof (pool_calls_return 2 s Nat.lt_0_2 (play_psteps 2 _ _ _ E) Hst) as [Hn _]. vm_compute in E. injection E as <-. eexists. split; [done|]. split; [done|exact Hn].
Defined.
End ThreadPoolExample.
