(* ===== verification/KVStore.v ===== *)
(** * The key-value stores of the servers

    Models src/ps-lite/src/kv/kv_store_sparse_st.h (one hash map) and
    src/ps-lite/src/kv/kv_store_sparse.h (one hash map per thread, keys sliced
    by range) over any handle with the interface of
    src/ps-lite/src/ps/server.h. *)
From S2P Require Import Prelude Stream Workload.

(** What [Pull] leaves in its [Blob]: values written to the buffer it was given
    ([send[0] = ..; send.size = ..]), or a pointer to other memory. *)
Inductive Blob (V : Type) := InPlace (ws : list V) | External (d : list V).
Arguments InPlace {V} ws.
Arguments External {V} d.

Definition blob_data {V} (b : Blob V) : list V := match b with InPlace d | External d => d end.

(** The interface of a handle ([IOnlineHandle]): [E] is the stored value, [V]
    the one that travels, [H] the state of the handle. *)
Class Handle (E V H : Type) := {
  e_default : E;
  v_default : V;
  Start : bool -> Z -> H -> H;
  Finish : H -> H;
  Push : Z -> list V -> E -> H -> outcome (E * H);
  Pull : Z -> E -> nat -> H -> outcome (Blob V)
}.

(** A request: the keys, whether the value lengths vary, the value arrays. *)
Record Message (V : Type) := mkMsg {
  m_cmd : Z; m_key : list Z; m_dyn : bool; m_value : option (list V); m_size : option (list nat) }.
Arguments mkMsg {V}.
Arguments m_cmd {V}.
Arguments m_key {V}.
Arguments m_dyn {V}.
Arguments m_value {V}.
Arguments m_size {V}.

(** [value.size()] *)
Definition value_count {V} (m : Message V) : nat :=
  (if m.(m_value) then 1 else 0) + (if m.(m_size) then 1 else 0).

Section Store.
Context {E V H : Type} `{!Handle E V H}.

(** ** One map: [KVStoreSparseST] *)

Record Store := mkStore { data_ : gmap Z E; handle_ : H; k_ : nat }.

(** [data_[key]] creates the entry. *)
Definition at_ (d : gmap Z E) (key : Z) : E := default e_default (d !! key).

(** [while (val.size() - start < need) val.resize(val.size()*2 + 5)] *)
Fixpoint grow (fuel need start : nat) (val : list V) : option (list V) :=
  if decide (need <= length val - start) then Some val else
  match fuel with
  | 0 => None
  | S fuel => grow fuel need start (resize (length val * 2 + 5) v_default val)
  end.

Definition grow_fuel (need start : nat) : nat := need + start.

(** One iteration of the loop of the dynamic [HandlePull]. *)
Definition pull_dyn_step (k : nat) (h : H) (st : gmap Z E * list V * nat * list nat) (key : Z)
  : outcome (gmap Z E * list V * nat * list nat) :=
  let '(d, val, start, sizes) := st in
  match grow (grow_fuel k start) k start val with
  | None => Fail OutOfRange
  | Some val =>
      let len := length val - start in
      let e := at_ d key in
      let d := <[ key := e ]> d in
      pull ← Pull key e len h;
      match pull with
      | External p =>
          match grow (grow_fuel (length p) start) (length p) start val with
          | None => Fail OutOfRange
          | Some val => Ok (d, list_inserts start p val, start + length p, sizes ++ [length p])
          end
      | InPlace ws =>
          _ ← check (bool_decide (length ws <= len));
          Ok (d, list_inserts start ws val, start + length ws, sizes ++ [length ws])
      end
  end.

(** One iteration of the loop of the static [HandlePull]. *)
Definition pull_step (k : nat) (h : H) (st : gmap Z E * list V) (key : Z) : outcome (gmap Z E * list V) :=
  let e := at_ st.1 key in
  pull ← Pull key e k h;
  _ ← check (bool_decide (length (blob_data pull) = k));
  Ok (<[ key := e ]> st.1, st.2 ++ blob_data pull).

(** [HandlePull(msg)]: the values and, for a dynamic pull, their lengths. *)
Definition HandlePull (s : Store) (m : Message V) : outcome (Store * list V * option (list nat)) :=
  let h := Start false m.(m_cmd) s.(handle_) in
  let n := length m.(m_key) in
  if m.(m_dyn) then
    '(d, val, start, sizes) ← foldM (pull_dyn_step s.(k_) h) m.(m_key)
      (s.(data_), replicate (n * s.(k_)) v_default, 0, []);
    Ok (mkStore d (Finish h) s.(k_), resize start v_default val, Some sizes)
  else
    '(d, val) ← foldM (pull_step s.(k_) h) m.(m_key) (s.(data_), []);
    Ok (mkStore d (Finish h) s.(k_), val, None).

(** One iteration of the loop of the dynamic [HandlePush]. *)
Definition push_dyn_step (st : gmap Z E * H * list V) (kn : Z * nat) : outcome (gmap Z E * H * list V) :=
  let '(d, h, val) := st in
  let '(key, k) := kn in
  if decide (k = 0) then Ok st else
  '(e, h) ← Push key (take k val) (at_ d key) h;
  Ok (<[ key := e ]> d, h, drop k val).

(** One iteration of the loop of the static [HandlePush]. *)
Definition push_step (k : nat) (st : gmap Z E * H * list V) (key : Z) : outcome (gmap Z E * H * list V) :=
  let '(d, h, val) := st in
  '(e, h) ← Push key (take k val) (at_ d key) h;
  Ok (<[ key := e ]> d, h, drop k val).

(** [HandlePush(msg)] *)
Definition HandlePush (s : Store) (m : Message V) : outcome Store :=
  let h := Start true m.(m_cmd) s.(handle_) in
  let n := length m.(m_key) in
  if m.(m_dyn) && negb (bool_decide (n = 0)) then
    match m.(m_value), m.(m_size) with
    | Some val, Some val_size =>
        _ ← check (bool_decide (length val_size = n));
        _ ← check (bool_decide (sum_list val_size = length val));
        '(d, h, _) ← foldM push_dyn_step (zip m.(m_key) val_size) (s.(data_), h, val);
        Ok (mkStore d (Finish h) s.(k_))
    | _, _ => Fail CheckFailed
    end
  else if negb m.(m_dyn) && negb (bool_decide (n = 0)) then
    match m.(m_value), m.(m_size) with
    | Some val, None =>
        let k := length val / n in
        _ ← check (bool_decide (k * n = length val));
        '(d, h, _) ← foldM (push_step k) m.(m_key) (s.(data_), h, val);
        Ok (mkStore d (Finish h) s.(k_))
    | _, _ => Fail CheckFailed
    end
  else Ok (mkStore s.(data_) (Finish h) s.(k_)).

(** [Clear()] *)
Definition Clear (s : Store) : Store := mkStore ∅ s.(handle_) s.(k_).

(** ** One map per thread: [KVStoreSparse] *)

Record BStore := mkBStore {
  buckets : list (gmap Z E); b_handle : H; b_k : nat; nt_ : nat; min_key_ : Z; bucket_size_ : Z }.

(** The constructor, for the key range [[kb, ke)]. *)
Definition new_bstore (kb ke : Z) (h : H) (k nt : nat) : outcome BStore :=
  _ ← check (bool_decide (0 < k));
  _ ← check (bool_decide (0 < nt));
  _ ← check (bool_decide (nt < 30));
  Ok (mkBStore (replicate nt ∅) h k nt kb (u64 (u64 (ke - kb - 1) / Z.of_nat nt + 1))).

(** [SliceKey]: [key_pos_[0 .. nt]]. *)
Fixpoint slice_from (s : BStore) (keys : list Z) (pos : nat) (is_ : list nat) : list nat :=
  match is_ with
  | [] => [length keys]
  | i :: is_ =>
      let k := u64 (s.(min_key_) + u64 (s.(bucket_size_) * Z.of_nat i)) in
      let pos := pos + lower_bound (drop pos keys) k in
      pos :: slice_from s keys pos is_
  end.
Definition SliceKey (s : BStore) (keys : list Z) : list nat :=
  0 :: slice_from s keys 0 (seq 1 (s.(nt_) - 1)).

(** [ThreadPush(key, val, n, k, tid)] on its bucket. *)
Definition ThreadPush (key_pos : list nat) (keys : list Z) (val : list V) (k tid : nat)
    (st : list (gmap Z E) * H) : outcome (list (gmap Z E) * H) :=
  d ← read_at st.1 tid;
  b ← read_at key_pos tid;
  e ← read_at key_pos (tid + 1);
  '(d, h, _) ← foldM (push_step k) (segment b e keys) (d, st.2, drop (b * k) val);
  bs ← write_at st.1 tid d;
  Ok (bs, h).

(** [ThreadPull(key, val, n, k, tid)] on its bucket and its part of [val]. *)
Definition ThreadPull (key_pos : list nat) (keys : list Z) (k tid : nat) (h : H)
    (st : list (gmap Z E) * list (list V)) : outcome (list (gmap Z E) * list (list V)) :=
  d ← read_at st.1 tid;
  b ← read_at key_pos tid;
  e ← read_at key_pos (tid + 1);
  '(d, val) ← foldM (pull_step k h) (segment b e keys) (d, []);
  bs ← write_at st.1 tid d;
  vs ← write_at st.2 tid val;
  Ok (bs, vs).

(** [HandlePush(msg)]: the threads run in the order [order]; a dynamic push
    goes to bucket 0. *)
Definition BHandlePush (order : list nat) (s : BStore) (m : Message V) : outcome BStore :=
  let h := Start true m.(m_cmd) s.(b_handle) in
  let n := length m.(m_key) in
  let with_ bs h := mkBStore bs (Finish h) s.(b_k) s.(nt_) s.(min_key_) s.(bucket_size_) in
  if m.(m_dyn) && negb (bool_decide (n = 0)) then
    match m.(m_value), m.(m_size) with
    | Some val, Some val_size =>
        _ ← check (bool_decide (length val_size = n));
        _ ← check (bool_decide (sum_list val_size = length val));
        d ← read_at s.(buckets) 0;
        '(d, h, _) ← foldM push_dyn_step (zip m.(m_key) val_size) (d, h, val);
        bs ← write_at s.(buckets) 0 d;
        Ok (with_ bs h)
    | _, _ => Fail CheckFailed
    end
  else if negb m.(m_dyn) && negb (bool_decide (n = 0)) then
    match m.(m_value), m.(m_size) with
    | Some val, None =>
        let k := length val / n in
        _ ← check (bool_decide (k * n = length val));
        let key_pos := SliceKey s m.(m_key) in
        '(bs, h) ← foldM (fun st tid => ThreadPush key_pos m.(m_key) val k tid st) order (s.(buckets), h);
        Ok (with_ bs h)
    | _, _ => Fail CheckFailed
    end
  else Ok (with_ s.(buckets) h).

(** [HandlePull(msg)] *)
Definition BHandlePull (order : list nat) (s : BStore) (m : Message V)
  : outcome (BStore * list V * option (list nat)) :=
  let h := Start false m.(m_cmd) s.(b_handle) in
  let n := length m.(m_key) in
  let with_ bs := mkBStore bs (Finish h) s.(b_k) s.(nt_) s.(min_key_) s.(bucket_size_) in
  if m.(m_dyn) then
    d ← read_at s.(buckets) 0;
    '(d, val, start, sizes) ← foldM (pull_dyn_step s.(b_k) h) m.(m_key)
      (d, replicate (n * s.(b_k)) v_default, 0, []);
    bs ← write_at s.(buckets) 0 d;
    Ok (with_ bs, resize start v_default val, Some sizes)
  else
    let key_pos := SliceKey s m.(m_key) in
    '(bs, vs) ← foldM (fun st tid => ThreadPull key_pos m.(m_key) s.(b_k) tid h st) order
                  (s.(buckets), replicate s.(nt_) []);
    Ok (with_ bs, concat vs, None).

(** [GetValue(key)]: the bucket of a key. *)
Definition bucket_of (s : BStore) (key : Z) : nat :=
  Z.to_nat (u64 (key - s.(min_key_)) / s.(bucket_size_)).

(** [Clear()]: the vector of buckets is emptied. *)
Definition BClear (s : BStore) : BStore :=
  mkBStore [] s.(b_handle) s.(b_k) s.(nt_) s.(min_key_) s.(bucket_size_).

(** ** Saving and loading *)

(** What the stored values offer: [Empty()], [Save(fo)] and [Load(fi)], which
    may count in the statistics of the handle. *)
Class EntryIO := {
  eEmpty : E -> bool;
  eSave : forall {T : Type} `{Stream T}, E -> T -> outcome T;
  eLoad : forall {T : Type} `{Stream T}, E -> H -> T -> outcome (E * H * T)
}.
Context `{!EntryIO}.

(** [it] is the order in which the hash map gives its pairs. *)
Definition save_pairs {T} `{Stream T} (it : list (Z * E)) (fo : T) : outcome T :=
  foldM (fun fo kv =>
    if eEmpty kv.2 then Ok fo else
    fo ← write_pod (pod_uint 8) kv.1 fo;
    eSave kv.2 fo) it fo.

(** [Save(fo)]; the handles write nothing. *)
Definition Save {T} `{Stream T} (it : list (Z * E)) (fo : T) : outcome T := save_pairs it fo.

(** [Load(fi)]: [None] when [fuel] iterations were not enough. *)
Fixpoint load_pairs {T} `{Stream T} (fuel : nat) (d : gmap Z E) (h : H) (fi : T)
  : outcome (option (gmap Z E * H)) :=
  match fuel with
  | 0 => Ok None
  | S fuel =>
      '(b, fi) ← Read (S := T) 8 fi;
      if decide (length b = 8) then
        let key := pod_of (Pod := pod_uint 8) b in
        '(e, h, fi) ← eLoad (at_ d key) h fi;
        load_pairs fuel (<[ key := e ]> d) h fi
      else Ok (Some (d, h))
  end.

Definition Load {T} `{Stream T} (fuel : nat) (s : Store) (fi : T) : outcome (option Store) :=
  r ← load_pairs fuel s.(data_) s.(handle_) fi;
  Ok ('(d, h) ← r; Some (mkStore d h s.(k_))).

(** [Save(fo)] of the bucketed store: [its] gives the pairs of every bucket. *)
Definition BSave {T} `{Stream T} (its : list (list (Z * E))) (fo : T) : outcome T :=
  foldM (fun fo it => save_pairs it fo) its fo.

(** [Load(fi)] of the bucketed store: [GetValue] finds the bucket. *)
Fixpoint BLoad {T} `{Stream T} (fuel : nat) (s : BStore) (fi : T) : outcome (option BStore) :=
  match fuel with
  | 0 => Ok None
  | S fuel =>
      '(b, fi) ← Read (S := T) 8 fi;
      if decide (length b = 8) then
        let key := pod_of (Pod := pod_uint 8) b in
        d ← read_at s.(buckets) (bucket_of s key);
        '(e, h, fi) ← eLoad (at_ d key) s.(b_handle) fi;
        bs ← write_at s.(buckets) (bucket_of s key) (<[ key := e ]> d);
        BLoad fuel (mkBStore bs h s.(b_k) s.(nt_) s.(min_key_) s.(bucket_size_)) fi
      else Ok (Some s)
  end.

End Store.
Arguments Store E H : clear implicits.
Arguments BStore E H : clear implicits.
Arguments EntryIO E H : clear implicits.

(** ** The interface of a store: [KVStore] *)

Class KVStore (V S : Type) := {
  kv_pull : S -> Message V -> outcome (S * list V * option (list nat));
  kv_push : S -> Message V -> outcome S
}.

(** [ProcessRequest(request)] with the response, if there is one.  The requests
    about replicas, [SetReplica] and [GetReplica], do nothing. *)
Definition ProcessRequest {V S} `{!KVStore V S} (push replica : bool) (request : Message V) (s : S)
  : outcome (S * option (Message V)) :=
  if replica then Ok (s, if push then None else Some request)
  else if push then s ← kv_push s request; Ok (s, None)
  else
    '(s, val, siz) ← kv_pull s request;
    Ok (s, Some (mkMsg request.(m_cmd) request.(m_key) request.(m_dyn) (Some val) siz)).

(** A server that answers requests one at a time; request [i] is handled by
    [inst i]. *)
Definition serve {V S} (inst : nat -> KVStore V S) (reqs : list (bool * Message V)) (s : S)
  : outcome (nat * S * list (Message V)) :=
  foldM (fun st req =>
    let '(i, s, out) := st in
    '(s, r) ← @ProcessRequest _ _ (inst i) req.1 false req.2 s;
    Ok (i + 1, s, out ++ match r with Some m => [m] | None => [] end)) reqs (0, s, []).

#[export] Instance KVStoreSparseST {E V H} `{!Handle E V H} : KVStore V (Store E H) := {|
  kv_pull := HandlePull; kv_push := HandlePush
|}.

Definition KVStoreSparse {E V H} `{!Handle E V H} (order : list nat) : KVStore V (BStore E H) := {|
  kv_pull := BHandlePull order; kv_push := BHandlePush order
|}.

(** ** The default handle: [IOnlineHandle] over [IVal] *)

(** [IVal]: one value; the handle has no state. *)
#[export] Instance IOnlineHandle : Handle Z Z unit := {|
  e_default := 0%Z;
  v_default := 0%Z;
  Start _ _ h := h;
  Finish h := h;
  Push _ recv_val my_val h := Ok (foldl Z.add my_val recv_val, h);
  Pull _ my_val size _ := Ok (InPlace (replicate size my_val))
|}.

#[export] Instance IVal : EntryIO Z unit := {|
  eEmpty w := (w =? 0)%Z;
  eSave T _ w fo := write_pod (pod_int 8) w fo;
  eLoad T _ _ h fi := '(w, fi) ← read_pod (pod_int 8) fi; Ok (w, h, fi)
|}.

(** ** The buffer of a dynamic pull *)

Section Pulls.
Context {E V H : Type} `{HH : !Handle E V H}.

Lemma grow_spec fuel need start (val : list V) :
  start <= length val -> need + start <= fuel + length val ->
  exists val', grow fuel need start val = Some val' /\ start + need <= length val' /\
    take (length val) val' = val.
Proof.
  revert val. induction fuel as [|fuel IH]; intros val Hs Hf; simpl.
  { rewrite decide_True by lia. exists val. split; [done|]. split; [lia|]. apply firstn_all. }
  case_decide; [exists val; split; [done|]; split; [lia|apply firstn_all]|].
  destruct (IH (resize (length val * 2 + 5) v_default val)) as (val' & -> & Hl & Ht).
  { rewrite length_resize. lia. }
  { rewrite length_resize. lia. }
  exists val'. split; [done|]. split; [done|]. rewrite length_resize in Ht.
  apply (f_equal (take (length val))) in Ht. rewrite take_take, Nat.min_l in Ht by lia.
  rewrite Ht, take_resize_le by lia. by rewrite resize_all.
Qed.

(** What a handle promises about [Pull] of a well-formed entry: given room for
    [k] values it succeeds with values that depend on the entry and the handle
    only. *)
Record pulls (good : E -> Prop) (k : nat) (h : H) (pulled : E -> list V) : Prop := {
  pull_ok key e len : good e -> k <= len ->
    exists b, Pull key e len h = Ok b /\ blob_data b = pulled e /\
      match b with InPlace ws => length ws <= len | External _ => True end
}.

Lemma at_insert (d : gmap Z E) key key' : at_ (<[ key := at_ d key ]> d) key' = at_ d key'.
Proof. unfold at_. rewrite lookup_insert. case_decide; subst; done. Qed.

(** The state of the loop after the keys [done]. *)
Definition pull_inv (pulled : E -> list V) (d0 : gmap Z E) (done : list Z)
    (st : gmap Z E * list V * nat * list nat) : Prop :=
  let '(d, val, start, sizes) := st in
  let out := map (fun key => pulled (at_ d0 key)) done in
  (forall key, at_ d key = at_ d0 key) /\ start = length (concat out) /\
  start <= length val /\ take start val = concat out /\ sizes = map length out.

Lemma list_inserts_prefix start (p val : list V) :
  start + length p <= length val ->
  take (start + length p) (list_inserts start p val) = take start val ++ p.
Proof.
  intros Hl. apply list_eq. intros i.
  destruct (decide (i < start + length p)) as [Hi|Hi].
  - rewrite lookup_take by done. case_decide; [|done].
    destruct (decide (i < start)) as [Hs|Hs].
    + rewrite list_lookup_inserts_lt by done. rewrite lookup_app_l by (rewrite length_take; lia).
      rewrite lookup_take by done. by case_decide.
    + rewrite list_lookup_inserts by lia. rewrite lookup_app_r by (rewrite length_take; lia).
      rewrite length_take. f_equal. lia.
  - rewrite !lookup_ge_None_2; [done|..].
    + rewrite length_app, length_take. lia.
    + rewrite length_take. lia.
Qed.

Lemma pull_dyn_step_inv good k h pulled d0 done st key :
  pulls good k h pulled -> good (at_ d0 key) -> pull_inv pulled d0 done st ->
  exists st', pull_dyn_step k h st key = Ok st' /\ pull_inv pulled d0 (done ++ [key]) st'.
Proof.
  intros [Hp] Hg Hi. destruct st as [[[d val] start] sizes].
  destruct Hi as (Hd & Hst & Hle & Ht & Hsz). unfold pull_dyn_step, grow_fuel.
  destruct (grow_spec (k + start) k start val Hle ltac:(lia)) as (val1 & -> & Hl1 & Ht1).
  assert (length val <= length val1) as Hlv.
  { apply (f_equal length) in Ht1. rewrite length_take in Ht1. lia. }
  assert (take start val1 = take start val) as Htk.
  { rewrite <- Ht1. rewrite take_take, Nat.min_l by lia. done. }
  destruct (Hp key (at_ d key) (length val1 - start) ltac:(by rewrite Hd) ltac:(lia)) as (b & -> & Hb & Hlen). simpl.
  rewrite Hd in Hb.
  assert (forall p val2, blob_data b = p -> take (length val1) val2 = val1 ->
    start + length p <= length val2 ->
    pull_inv pulled d0 (done ++ [key])
      (<[key := at_ d key]> d, list_inserts start p val2, start + length p, sizes ++ [length p])) as Hnext.
  { intros p val2 Ep Ht2 Hl2. unfold pull_inv. rewrite map_app, concat_app, map_app. simpl.
    rewrite app_nil_r, <- Hb, Ep, length_app. split_and!.
    - intros key'. by rewrite at_insert.
    - lia.
    - rewrite length_inserts. lia.
    - rewrite list_inserts_prefix by done. f_equal. rewrite <- Ht, <- Htk. rewrite <- Ht2.
      rewrite take_take, Nat.min_l; [done|].
      apply (f_equal length) in Ht2. rewrite length_take in Ht2. lia.
    - by rewrite Hsz. }
  destruct b as [ws|p]; simpl in Hlen.
  - rewrite check_true by by apply bool_decide_eq_true. simpl. eexists. split; [done|].
    apply Hnext; [done|apply firstn_all|lia].
  - destruct (grow_spec (length p + start) (length p) start val1 ltac:(lia) ltac:(lia))
      as (val2 & -> & Hl2 & Ht2).
    eexists. split; [done|]. by apply Hnext.
Qed.

Lemma HandlePull_dyn_spec good (s : Store E H) (m : Message V) pulled :
  m.(m_dyn) = true -> (forall key, good (at_ s.(data_) key)) -> pulls good s.(k_) (Start false m.(m_cmd) s.(handle_)) pulled ->
  exists d, HandlePull s m = Ok (mkStore d (Finish (Start false m.(m_cmd) s.(handle_))) s.(k_),
      concat (map (fun key => pulled (at_ s.(data_) key)) m.(m_key)),
      Some (map (fun key => length (pulled (at_ s.(data_) key))) m.(m_key))) /\
    forall key, at_ d key = at_ s.(data_) key.
Proof.
  intros Hdyn Hg Hp. unfold HandlePull. rewrite Hdyn.
  set (h := Start false (m_cmd m) (handle_ s)) in *.
  assert (forall keys done st, pull_inv pulled s.(data_) done st ->
    exists st', foldM (pull_dyn_step s.(k_) h) keys st = Ok st' /\
      pull_inv pulled s.(data_) (done ++ keys) st') as Hloop.
  { induction keys as [|key keys IH]; intros done st Hi; simpl.
    - exists st. by rewrite app_nil_r.
    - destruct (pull_dyn_step_inv good (k_ s) h pulled (data_ s) done st key Hp (Hg key) Hi) as (st1 & -> & Hi1).
      destruct (IH _ _ Hi1) as (st2 & E2 & Hi2). exists st2.
      rewrite <- app_assoc in Hi2. split; [exact E2|done]. }
  destruct (Hloop m.(m_key) [] (s.(data_), replicate (length m.(m_key) * s.(k_)) v_default, 0, []))
    as ([[[d val] start] sizes] & -> & Hi).
  { unfold pull_inv. simpl. split_and!; try done. lia. }
  simpl. destruct Hi as (Hd & Hst & Hle & Ht & Hsz). simpl in *.
  exists d. split; [|done]. rewrite resize_le by done. rewrite Ht, Hsz, map_map. done.
Qed.

(** The same for a buffer of exactly [k] values, all of which are filled. *)
Record pulls_all (k : nat) (h : H) (pulled : E -> list V) : Prop := {
  pull_all_ok key e : exists b, Pull key e k h = Ok b /\ blob_data b = pulled e;
  pull_all_len e : length (pulled e) = k
}.

Lemma pull_step_fold k h pulled keys d acc :
  pulls_all k h pulled ->
  exists d', foldM (pull_step k h) keys (d, acc) =
      Ok (d', acc ++ concat (map (fun key => pulled (at_ d key)) keys)) /\
    forall key, at_ d' key = at_ d key.
Proof.
  intros [Hp Hk]. revert d acc. induction keys as [|key keys IH]; intros d acc; cbn [foldM map concat].
  { exists d. by rewrite app_nil_r. }
  assert (pull_step k h (d, acc) key = Ok (<[key:=at_ d key]> d, acc ++ pulled (at_ d key))) as ->.
  { unfold pull_step. simpl.
    destruct (Hp key (at_ d key)) as (b & -> & Hb). simpl.
    rewrite Hb, Hk, check_true by by apply bool_decide_eq_true. done. }
  simpl.
  destruct (IH (<[key:=at_ d key]> d) (acc ++ pulled (at_ d key))) as (d' & Ed & Hd').
  exists d'. split.
  - rewrite <- app_assoc in Ed. etransitivity; [exact Ed|]. do 5 f_equal. apply map_ext. intros key'.
    by rewrite at_insert.
  - intros key'. by rewrite Hd', at_insert.
Qed.

Lemma HandlePull_static_spec (s : Store E H) (m : Message V) pulled :
  m.(m_dyn) = false -> pulls_all s.(k_) (Start false m.(m_cmd) s.(handle_)) pulled ->
  exists d, HandlePull s m = Ok (mkStore d (Finish (Start false m.(m_cmd) s.(handle_))) s.(k_),
      concat (map (fun key => pulled (at_ s.(data_) key)) m.(m_key)), None) /\
    forall key, at_ d key = at_ s.(data_) key.
Proof.
  intros Hdyn Hp. unfold HandlePull. rewrite Hdyn.
  destruct (pull_step_fold _ _ pulled m.(m_key) s.(data_) [] Hp) as (d & -> & Hd).
  exists d. done.
Qed.

End Pulls.

(** ** Pushes *)

Section Pushes.
Context {E V H : Type} `{HH : !Handle E V H}.

(** A handle whose [Push] is a function of the entry and leaves the handle as
    it is. *)
Context (push_fun : Z -> list V -> E -> E).
Hypothesis push_pure : forall key v e (h : H), Push key v e h = Ok (push_fun key v e, h).

(** Value [i] of a static push. *)
Definition chunk (k : nat) (val : list V) (i : nat) : list V := take k (drop (i * k) val).
Definition kvs (k : nat) (keys : list Z) (val : list V) : list (Z * list V) :=
  imap (fun i key => (key, chunk k val i)) keys.

(** The entries after the pairs were pushed in order. *)
Definition push_all (d : gmap Z E) (l : list (Z * list V)) : gmap Z E :=
  foldl (fun d kv => <[ kv.1 := push_fun kv.1 kv.2 (at_ d kv.1) ]> d) d l.

(** The values pushed to a key. *)
Definition values_of (key : Z) (l : list (Z * list V)) : list (list V) :=
  map snd (filter (fun kv => kv.1 = key) l).

Lemma at_push_all d l key :
  at_ (push_all d l) key = foldl (fun e v => push_fun key v e) (at_ d key) (values_of key l).
Proof.
  unfold push_all, values_of. revert d. induction l as [|[k v] l IH]; intros d; simpl; [done|].
  rewrite IH, filter_cons. simpl. unfold at_ at 1. rewrite lookup_insert.
  destruct (decide (k = key)) as [->|Hne]; done.
Qed.

Lemma chunk_drop k val i : chunk k (drop k val) i = chunk k val (S i).
Proof. unfold chunk. rewrite drop_drop. done. Qed.

Lemma push_step_fold k keys d (h : H) val :
  foldM (push_step k) keys (d, h, val) = Ok (push_all d (kvs k keys val), h, drop (length keys * k) val).
Proof.
  revert d val. induction keys as [|key keys IH]; intros d val; [done|].
  cbn [foldM]. assert (push_step k (d, h, val) key =
    Ok (<[key := push_fun key (take k val) (at_ d key)]> d, h, drop k val)) as ->.
  { unfold push_step. by rewrite push_pure. }
  simpl. rewrite IH, drop_drop. do 3 f_equal.
  unfold kvs. change (take k val) with (chunk k val 0). f_equal. apply imap_ext.
  intros i x _. simpl. by rewrite chunk_drop.
Qed.

Lemma kvs_segment k keys val b e :
  kvs k (segment b e keys) (drop (b * k) val) = segment b e (kvs k keys val).
Proof.
  unfold kvs. apply list_eq. intros i. rewrite list_lookup_imap. unfold segment.
  destruct (decide (i < e - b)) as [Hi|Hi].
  - rewrite !lookup_take, !lookup_drop by done. case_decide; [|done]. rewrite list_lookup_imap.
    destruct (keys !! (b + i)); simpl; [|done]. do 2 f_equal. unfold chunk. rewrite drop_drop. do 2 f_equal. lia.
  - rewrite !lookup_ge_None_2; [done| |]; rewrite length_take; lia.
Qed.

(** The keys a store of range [[min, min + size * nt)] is responsible for. *)
Definition in_store (s : BStore E H) (key : Z) : Prop :=
  (s.(min_key_) <= key < s.(min_key_) + s.(bucket_size_) * Z.of_nat s.(nt_) /\ key < 2 ^ 64)%Z.

(** *** Slicing the keys *)

Section Slices.
Context (s : BStore E H) (keys : list Z).
Hypothesis keys_sorted : StronglySorted Z.le keys.
Hypothesis nt_pos : 0 < s.(nt_).
Hypothesis size_pos : (0 < s.(bucket_size_))%Z.
Hypothesis min_nonneg : (0 <= s.(min_key_))%Z.
Hypothesis no_overflow : (s.(min_key_) + s.(bucket_size_) * (Z.of_nat s.(nt_) - 1) < 2 ^ 64)%Z.
Hypothesis keys_in : Forall (in_store s) keys.

Definition threshold (t : nat) : Z := (s.(min_key_) + s.(bucket_size_) * Z.of_nat t)%Z.
Definition pos (t : nat) : nat := lower_bound keys (threshold t).

Lemma threshold_u64 t :
  t < s.(nt_) -> u64 (s.(min_key_) + u64 (s.(bucket_size_) * Z.of_nat t)) = threshold t.
Proof. intros Ht. unfold threshold. rewrite (u64_small (_ * _)), u64_small by nia. done. Qed.

Lemma pos_mono t t' : t <= t' -> pos t <= pos t'.
Proof. intros Ht. apply lower_bound_mono. unfold threshold. nia. Qed.

Lemma pos_0 : pos 0 = 0.
Proof.
  apply lower_bound_none. eapply Forall_impl; [exact keys_in|]. unfold threshold, in_store. intros; simpl in *. lia.
Qed.

Lemma pos_nt : pos s.(nt_) = length keys.
Proof.
  apply lower_bound_all. eapply Forall_impl; [exact keys_in|]. unfold threshold, in_store. intros; simpl in *. lia.
Qed.

Lemma slice_from_spec t m :
  t + m <= s.(nt_) -> 0 < t ->
  slice_from s keys (pos (t - 1)) (seq t m) = map pos (seq t m) ++ [length keys].
Proof.
  revert t. induction m as [|m IH]; intros t Ht Ht0; simpl; [done|].
  rewrite threshold_u64 by lia. fold (pos t).
  rewrite lower_bound_skip by (apply (pos_mono (t - 1) t); lia). fold (pos t).
  f_equal. specialize (IH (S t) ltac:(lia) ltac:(lia)). replace (S t - 1) with t in IH by lia. exact IH.
Qed.

Lemma SliceKey_spec t : t <= s.(nt_) -> SliceKey s keys !! t = Some (pos t).
Proof.
  intros Ht. unfold SliceKey.
  pose proof (slice_from_spec 1 (s.(nt_) - 1) ltac:(lia) ltac:(lia)) as Hs.
  simpl in Hs. rewrite pos_0 in Hs. rewrite Hs.
  destruct t as [|t]; [by rewrite pos_0|]. simpl.
  destruct (decide (t < s.(nt_) - 1)) as [Hl|Hl].
  - rewrite lookup_app_l by (rewrite length_map, length_seq; lia).
    rewrite list_lookup_fmap, lookup_seq_lt by lia. done.
  - rewrite lookup_app_r by (rewrite length_map, length_seq; lia).
    rewrite length_map, length_seq. replace (t - (s.(nt_) - 1)) with 0 by lia. simpl.
    rewrite <- pos_nt. do 2 f_equal. lia.
Qed.

Lemma key_slice i key t :
  keys !! i = Some key -> bucket_of s key = t -> pos t <= i < pos (t + 1).
Proof.
  intros Hk <-. rewrite Forall_lookup in keys_in. specialize (keys_in _ _ Hk). unfold in_store in keys_in.
  unfold bucket_of. rewrite u64_small by lia.
  set (b := ((key - min_key_ s) / bucket_size_ s)%Z).
  assert (bucket_size_ s * b <= key - min_key_ s < bucket_size_ s * (b + 1))%Z as Hb.
  { subst b. pose proof (Z.mul_div_le (key - min_key_ s) (bucket_size_ s) size_pos).
    pose proof (Z.mul_succ_div_gt (key - min_key_ s) (bucket_size_ s) size_pos). lia. }
  assert (0 <= b)%Z by (apply Z.div_pos; lia).
  split.
  - destruct (decide (pos (Z.to_nat b) <= i)); [done|].
    assert (key < threshold (Z.to_nat b))%Z by (eapply lower_bound_lt; [done|]; unfold pos in *; lia).
    unfold threshold in *. lia.
  - destruct (decide (i < pos (Z.to_nat b + 1))); [done|].
    assert (threshold (Z.to_nat b + 1) <= key)%Z by (eapply lower_bound_ge; [done..|]; unfold pos in *; lia).
    unfold threshold in *. lia.
Qed.

Lemma bucket_lt key i : keys !! i = Some key -> bucket_of s key < s.(nt_).
Proof.
  intros Hk. rewrite Forall_lookup in keys_in. specialize (keys_in _ _ Hk). unfold in_store in keys_in.
  unfold bucket_of. rewrite u64_small by lia.
  assert ((key - min_key_ s) / bucket_size_ s < Z.of_nat (nt_ s))%Z; [|lia].
  apply Z.div_lt_upper_bound; lia.
Qed.

End Slices.
(** *** The threads *)

(** The entry of a key in the bucketed store. *)
Definition bview (s : BStore E H) (key : Z) : E :=
  at_ (default ∅ (s.(buckets) !! bucket_of s key)) key.

Lemma ThreadPush_spec s keys k val t bs (h : H) b :
  StronglySorted Z.le keys -> 0 < s.(nt_) -> (0 < s.(bucket_size_))%Z -> (0 <= s.(min_key_))%Z ->
  (s.(min_key_) + s.(bucket_size_) * (Z.of_nat s.(nt_) - 1) < 2 ^ 64)%Z -> Forall (in_store s) keys ->
  t < s.(nt_) -> bs !! t = Some b ->
  ThreadPush (SliceKey s keys) keys val k t (bs, h) =
  Ok (<[t := push_all b (segment (pos s keys t) (pos s keys (t + 1)) (kvs k keys val))]> bs, h).
Proof.
  intros Hs Hnt Hsz Hmin Hov Hin Ht Hb. unfold ThreadPush.
  simpl (fst (bs, h)). simpl (snd (bs, h)).
  rewrite (proj2 (read_at_Ok bs t b) Hb). cbn [mbind outcome_bind].
  rewrite (proj2 (read_at_Ok _ _ _) (SliceKey_spec s keys Hnt Hsz Hmin Hov Hin t ltac:(lia))).
  cbn [mbind outcome_bind].
  rewrite (proj2 (read_at_Ok _ _ _) (SliceKey_spec s keys Hnt Hsz Hmin Hov Hin (t + 1) ltac:(lia))).
  cbn [mbind outcome_bind].
  rewrite push_step_fold. cbn [mbind outcome_bind].
  rewrite write_at_lt by by eapply lookup_lt_Some. cbn [mbind outcome_bind].
  by rewrite kvs_segment.
Qed.

Lemma ThreadPush_all s keys k val order bs (h : H) :
  StronglySorted Z.le keys -> 0 < s.(nt_) -> (0 < s.(bucket_size_))%Z -> (0 <= s.(min_key_))%Z ->
  (s.(min_key_) + s.(bucket_size_) * (Z.of_nat s.(nt_) - 1) < 2 ^ 64)%Z -> Forall (in_store s) keys ->
  NoDup order -> Forall (fun t => t < s.(nt_)) order -> length bs = s.(nt_) ->
  exists bs', foldM (fun st tid => ThreadPush (SliceKey s keys) keys val k tid st) order (bs, h) = Ok (bs', h) /\
    length bs' = s.(nt_) /\
    (forall t, t ∉ order -> bs' !! t = bs !! t) /\
    (forall t b, t ∈ order -> bs !! t = Some b ->
       bs' !! t = Some (push_all b (segment (pos s keys t) (pos s keys (t + 1)) (kvs k keys val)))).
Proof.
  intros Hs Hnt Hsz Hmin Hov Hin Hnd Hlt. revert bs.
  induction Hnd as [|t order Hn Hnd IH]; intros bs Hl.
  { exists bs. split_and!; try done. by intros t b ?%elem_of_nil. }
  apply Forall_cons in Hlt as [Ht Hlt]. cbn [foldM].
  destruct (lookup_lt_is_Some_2 bs t) as [b Hb]; [lia|].
  rewrite (ThreadPush_spec s keys k val t bs h b) by done. cbn [mbind outcome_bind].
  destruct (IH Hlt (<[t := push_all b (segment (pos s keys t) (pos s keys (t + 1)) (kvs k keys val))]> bs))
    as (bs' & Ef & Hl' & H1 & H2); [by rewrite length_insert|].
  exists bs'. split; [exact Ef|]. split; [done|]. split.
  - intros t' [Hne Ht']%not_elem_of_cons. rewrite H1 by done. apply list_lookup_insert_ne. done.
  - intros t' b' [->|Ht']%elem_of_cons Hb'.
    + rewrite H1 by done. rewrite list_lookup_insert_eq by lia. congruence.
    + apply H2; [done|]. rewrite list_lookup_insert_ne; [done|]. intros ->. done.
Qed.

Record bstore_ok (s : BStore E H) : Prop := {
  bo_nt : 0 < s.(nt_);
  bo_size : (0 < s.(bucket_size_))%Z;
  bo_min : (0 <= s.(min_key_))%Z;
  bo_max : (s.(min_key_) + s.(bucket_size_) * (Z.of_nat s.(nt_) - 1) < 2 ^ 64)%Z;
  bo_len : length s.(buckets) = s.(nt_)
}.

Lemma BHandlePush_refines s st m order s1 :
  bstore_ok s -> StronglySorted Z.le m.(m_key) -> Forall (in_store s) m.(m_key) ->
  order ≡ₚ seq 0 s.(nt_) -> m.(m_dyn) = false ->
  st.(handle_) = s.(b_handle) -> (forall key, in_store s key -> bview s key = at_ st.(data_) key) ->
  HandlePush st m = Ok s1 ->
  exists s', BHandlePush order s m = Ok s' /\ bstore_ok s' /\
    s'.(b_handle) = s1.(handle_) /\ s'.(b_k) = s.(b_k) /\ s'.(nt_) = s.(nt_) /\ s1.(k_) = st.(k_) /\
    (forall key, in_store s' key <-> in_store s key) /\
    (forall key, in_store s key -> bview s' key = at_ s1.(data_) key).
Proof.
  intros [Hnt Hsz Hmin Hov Hlen] Hs Hin Hord Hdyn Hh Hview Hp.
  unfold HandlePush in Hp. unfold BHandlePush. rewrite Hdyn in *. rewrite Hh in Hp. simpl in *.
  destruct (bool_decide (length (m_key m) = 0)) eqn:E0; simpl in *.
  { injection Hp as <-. eexists. split; [done|]. by split_and!. }
  destruct (m_value m) as [val|]; [|done]. destruct (m_size m); [done|].
  set (k := length val / length (m_key m)) in *.
  destruct (check (bool_decide (k * length (m_key m) = length val))); [|done]. simpl in *.
  rewrite push_step_fold in Hp. simpl in Hp. injection Hp as <-. simpl.
  destruct (ThreadPush_all s (m_key m) k val order (buckets s) (Start true (m_cmd m) (b_handle s)))
    as (bs' & -> & Hl' & _ & Hbs); try done.
  { rewrite Hord. apply NoDup_seq. }
  { rewrite Hord. apply Forall_forall. intros t Ht%elem_of_seq. lia. }
  simpl. eexists. split; [done|]. split; [by split|]. split_and!; try done.
  intros key Hk. unfold bview. simpl.
  assert (bucket_of s key < nt_ s) as Hb.
  { unfold in_store in Hk. unfold bucket_of. rewrite u64_small by lia.
    assert ((key - min_key_ s) / bucket_size_ s < Z.of_nat (nt_ s))%Z; [|lia].
    apply Z.div_lt_upper_bound; lia. }
  change (bucket_of (mkBStore bs' _ _ _ _ _) key) with (bucket_of s key).
  destruct (lookup_lt_is_Some_2 (buckets s) (bucket_of s key)) as [b Eb]; [lia|].
  rewrite (Hbs _ b) by (done || (rewrite Hord; apply elem_of_seq; lia)). simpl.
  rewrite !at_push_all. specialize (Hview key Hk). unfold bview in Hview. rewrite Eb in Hview. simpl in Hview.
  rewrite Hview. f_equal. unfold values_of. f_equal. symmetry. apply filter_segment.
  - apply pos_mono; (done || lia).
  - intros i [key' v] Hi Ekey. simpl in Ekey. subst key'.
    unfold kvs in Hi. rewrite list_lookup_imap in Hi.
    destruct (m_key m !! i) as [key'|] eqn:Ek; [|done]. simplify_eq/=.
    by eapply key_slice.
Qed.

(** *** The threads of a pull *)

Context (k : nat) (pulled : E -> list V).
Hypothesis pull_pure : forall h : H, pulls_all k h pulled.

Lemma ThreadPull_spec s keys t bs (h : H) vs b :
  bstore_ok s -> StronglySorted Z.le keys -> Forall (in_store s) keys ->
  t < s.(nt_) -> bs !! t = Some b -> length vs = s.(nt_) ->
  exists b', ThreadPull (SliceKey s keys) keys k t h (bs, vs) =
    Ok (<[t := b']> bs,
        <[t := concat (map (fun key => pulled (at_ b key)) (segment (pos s keys t) (pos s keys (t + 1)) keys))]> vs) /\
    forall key, at_ b' key = at_ b key.
Proof.
  intros [Hnt Hsz Hmin Hov Hlen] Hs Hin Ht Hb Hvs. unfold ThreadPull.
  simpl (fst (bs, vs)). simpl (snd (bs, vs)).
  rewrite (proj2 (read_at_Ok bs t b) Hb). cbn [mbind outcome_bind].
  rewrite (proj2 (read_at_Ok _ _ _) (SliceKey_spec s keys Hnt Hsz Hmin Hov Hin t ltac:(lia))).
  cbn [mbind outcome_bind].
  rewrite (proj2 (read_at_Ok _ _ _) (SliceKey_spec s keys Hnt Hsz Hmin Hov Hin (t + 1) ltac:(lia))).
  cbn [mbind outcome_bind].
  destruct (pull_step_fold k h pulled (segment (pos s keys t) (pos s keys (t + 1)) keys) b [] (pull_pure h))
    as (b' & -> & Hb'). cbn [mbind outcome_bind].
  rewrite (write_at_lt bs t b') by by eapply lookup_lt_Some. cbn [mbind outcome_bind].
  rewrite write_at_lt by lia. cbn [mbind outcome_bind]. exists b'. done.
Qed.

Lemma ThreadPull_all s keys order bs (h : H) vs :
  bstore_ok s -> StronglySorted Z.le keys -> Forall (in_store s) keys ->
  NoDup order -> Forall (fun t => t < s.(nt_)) order -> length bs = s.(nt_) -> length vs = s.(nt_) ->
  exists bs' vs',
    foldM (fun st tid => ThreadPull (SliceKey s keys) keys k tid h st) order (bs, vs) = Ok (bs', vs') /\
    length bs' = s.(nt_) /\ length vs' = s.(nt_) /\
    (forall t key, at_ (default ∅ (bs' !! t)) key = at_ (default ∅ (bs !! t)) key) /\
    (forall t, t ∉ order -> vs' !! t = vs !! t) /\
    (forall t, t ∈ order -> vs' !! t =
       Some (concat (map (fun key => pulled (at_ (default ∅ (bs !! t)) key))
                         (segment (pos s keys t) (pos s keys (t + 1)) keys)))).
Proof.
  intros Hok Hs Hin Hnd Hlt. revert bs vs.
  induction Hnd as [|t order Hn Hnd IH]; intros bs vs Hl Hv.
  { exists bs, vs. split_and!; try done. by intros t ?%elem_of_nil. }
  apply Forall_cons in Hlt as [Ht Hlt]. cbn [foldM].
  destruct (lookup_lt_is_Some_2 bs t) as [b Hb]; [lia|].
  destruct (ThreadPull_spec s keys t bs h vs b) as (b' & -> & Hb'); try done. cbn [mbind outcome_bind].
  set (bs1 := <[t:=b']> bs). set (vs1 := <[t:=_]> vs).
  assert (forall t' key, at_ (default ∅ (bs1 !! t')) key = at_ (default ∅ (bs !! t')) key) as Hbs1.
  { intros t' key. subst bs1. destruct (decide (t = t')) as [->|Hne].
    - rewrite list_lookup_insert_eq, Hb by lia. apply Hb'.
    - by rewrite list_lookup_insert_ne. }
  destruct (IH Hlt bs1 vs1) as (bs' & vs' & Ef & Hl' & Hv' & H0 & H1 & H2);
    [by subst bs1; rewrite length_insert|by subst vs1; rewrite length_insert|].
  exists bs', vs'. split; [exact Ef|]. split_and!; try done.
  - intros t' key. by rewrite H0, Hbs1.
  - intros t' [Hne Ht']%not_elem_of_cons. rewrite H1 by done. apply list_lookup_insert_ne. done.
  - intros t' [->|Ht']%elem_of_cons.
    + rewrite H1 by done. subst vs1. rewrite list_lookup_insert_eq by lia. by rewrite Hb.
    + rewrite H2 by done. do 2 f_equal. apply map_ext. intros key. by rewrite Hbs1.
Qed.

(** The keys of slice [t] belong to bucket [t]. *)
Lemma slice_bucket s keys t key :
  bstore_ok s -> StronglySorted Z.le keys -> Forall (in_store s) keys -> t < s.(nt_) ->
  key ∈ segment (pos s keys t) (pos s keys (t + 1)) keys -> bucket_of s key = t.
Proof.
  intros [Hnt Hsz Hmin Hov Hlen] Hs Hin Ht [j Hj]%list_elem_of_lookup.
  assert (j < pos s keys (t + 1) - pos s keys t) as Hlt.
  { apply lookup_lt_Some in Hj. unfold segment in Hj. rewrite length_take in Hj. lia. }
  rewrite segment_lookup in Hj by done.
  pose proof (key_slice s keys Hs Hnt Hsz Hmin Hin _ _ _ Hj eq_refl) as Hb.
  pose proof (bucket_lt s keys Hnt Hsz Hmin Hin _ _ Hj) as Hbl.
  destruct (decide (bucket_of s key = t)); [done|].
  destruct (decide (bucket_of s key < t)).
  - pose proof (pos_mono s keys Hnt Hsz (bucket_of s key + 1) t ltac:(lia)). lia.
  - pose proof (pos_mono s keys Hnt Hsz (t + 1) (bucket_of s key) ltac:(lia)). lia.
Qed.


Lemma BHandlePull_values s keys order (h : H) :
  bstore_ok s -> StronglySorted Z.le keys -> Forall (in_store s) keys -> order ≡ₚ seq 0 s.(nt_) ->
  exists bs' vs',
    foldM (fun st tid => ThreadPull (SliceKey s keys) keys k tid h st) order
      (s.(buckets), replicate s.(nt_) []) = Ok (bs', vs') /\
    length bs' = s.(nt_) /\
    (forall t key, at_ (default ∅ (bs' !! t)) key = at_ (default ∅ (s.(buckets) !! t)) key) /\
    concat vs' = concat (map (fun key => pulled (bview s key)) keys).
Proof.
  intros Hok Hs Hin Hord. pose proof Hok as [Hnt Hsz Hmin Hov Hlen].
  destruct (ThreadPull_all s keys order s.(buckets) h (replicate s.(nt_) [])) as
    (bs' & vs' & Ef & Hl & Hv & Hb & _ & Hvs); try done.
  { rewrite Hord. apply NoDup_seq. }
  { rewrite Hord. apply Forall_forall. intros t Ht%elem_of_seq. lia. }
  { by rewrite length_replicate. }
  exists bs', vs'. split_and!; try done.
  set (piece t := concat (map (fun key => pulled (bview s key)) (segment (pos s keys t) (pos s keys (t + 1)) keys))).
  assert (vs' = map piece (seq 0 (nt_ s))) as ->.
  { apply list_eq. intros t. destruct (decide (t < nt_ s)) as [Ht|Ht].
    - rewrite Hvs by (rewrite Hord; apply elem_of_seq; lia). rewrite list_lookup_fmap, lookup_seq_lt by lia.
      simpl. f_equal. unfold piece. f_equal. apply map_ext_in. intros key Hk%list_elem_of_In.
      unfold bview. by rewrite (slice_bucket s keys t key Hok Hs Hin Ht Hk).
    - rewrite !lookup_ge_None_2; [done|rewrite length_map, length_seq; lia|lia]. }
  assert (keys = concat (map (fun t => segment (pos s keys t) (pos s keys (t + 1)) keys) (seq 0 (nt_ s)))) as Hkeys.
  { rewrite segments_tile by (intros t _; apply pos_mono; (done || lia)).
    rewrite pos_0, pos_nt by done. by rewrite segment_all. }
  rewrite Hkeys at 1. unfold piece. rewrite concat_map, map_map. clear.
  induction (seq 0 (nt_ s)) as [|t l IH]; simpl; [done|]. by rewrite IH, concat_app.
Qed.

(** *** The bucketed store implements the one with a single map *)

Record sim (s : BStore E H) (st : Store E H) : Prop := {
  sim_ok : bstore_ok s;
  sim_handle : s.(b_handle) = st.(handle_);
  sim_k : s.(b_k) = k /\ st.(k_) = k;
  sim_view : forall key, in_store s key -> bview s key = at_ st.(data_) key
}.

Lemma BHandlePull_refines s st m order :
  sim s st -> StronglySorted Z.le m.(m_key) -> Forall (in_store s) m.(m_key) ->
  order ≡ₚ seq 0 s.(nt_) -> m.(m_dyn) = false ->
  exists s' st' val, HandlePull st m = Ok (st', val, None) /\ BHandlePull order s m = Ok (s', val, None) /\
    sim s' st' /\ s'.(nt_) = s.(nt_) /\ (forall key, in_store s' key <-> in_store s key).
Proof.
  intros [Hok Hh [Hk1 Hk2] Hview] Hs Hin Hord Hdyn.
  destruct (HandlePull_static_spec st m pulled Hdyn) as (d & -> & Hd).
  { rewrite Hk2. apply pull_pure. }
  unfold BHandlePull. rewrite Hdyn, Hk1.
  destruct (BHandlePull_values s (m_key m) order (Start false (m_cmd m) (b_handle s)) Hok Hs Hin Hord)
    as (bs' & vs' & -> & Hl & Hb & Hv).
  cbn [mbind outcome_bind]. eexists _, _, _. split; [reflexivity|]. split.
  { do 3 f_equal. rewrite Hv. f_equal. apply map_ext_in. intros key Hk%list_elem_of_In.
    rewrite Hview; [done|]. by eapply Forall_forall in Hin. }
  split; [|done]. destruct Hok. split; simpl; [by split|by rewrite Hh|done|].
  intros key Hk. specialize (Hview key Hk). unfold bview in *. simpl.
  change (bucket_of (mkBStore _ _ _ _ _ _) key) with (bucket_of s key). by rewrite Hb, Hview, Hd.
Qed.

(** A request the two stores answer alike: static, with sorted keys of the
    range. *)
Definition static_request (s : BStore E H) (m : Message V) : Prop :=
  m.(m_dyn) = false /\ StronglySorted Z.le m.(m_key) /\ Forall (in_store s) m.(m_key).

Lemma ProcessRequest_refines s st push m order st' r :
  sim s st -> static_request s m -> order ≡ₚ seq 0 s.(nt_) ->
  ProcessRequest push false m st = Ok (st', r) ->
  exists s', @ProcessRequest _ _ (KVStoreSparse order) push false m s = Ok (s', r) /\
    sim s' st' /\ s'.(nt_) = s.(nt_) /\ (forall key, in_store s' key <-> in_store s key).
Proof.
  intros Hsim (Hdyn & Hs & Hin) Hord. unfold ProcessRequest. simpl. destruct push.
  - destruct (HandlePush st m) as [s1|] eqn:Ep; [|done]. intros [= <- <-].
    pose proof Hsim as [Hok Hh [Hk1 Hk2] Hview].
    destruct (BHandlePush_refines s st m order s1) as (s' & -> & Hok' & Hh' & Hk' & Hn' & Hk1' & Hin' & Hv'); try done.
    exists s'. split; [done|]. split; [|done]. split; [done|done|split; congruence|].
    intros key Hk. apply Hv'. by apply Hin'.
  - destruct (BHandlePull_refines s st m order) as (s' & st1 & val & -> & -> & Hsim' & Hn & Hin'); try done.
    intros [= <- <-]. exists s'. done.
Qed.

Lemma serve_refines inst (orders : nat -> list nat) reqs i s st out j st' out' :
  inst = (fun _ => KVStoreSparseST) -> sim s st -> Forall (fun req => static_request s req.2) reqs ->
  (forall i, orders i ≡ₚ seq 0 s.(nt_)) ->
  foldM (fun st req => let '(i, s, out) := st in
    '(s, r) ← @ProcessRequest _ _ (inst i) req.1 false req.2 s;
    Ok (i + 1, s, out ++ match r with Some m => [m] | None => [] end)) reqs (i, st, out) = Ok (j, st', out') ->
  exists s', foldM (fun st req => let '(i, s, out) := st in
    '(s, r) ← @ProcessRequest _ _ (KVStoreSparse (orders i)) req.1 false req.2 s;
    Ok (i + 1, s, out ++ match r with Some m => [m] | None => [] end)) reqs (i, s, out) = Ok (j, s', out') /\
    sim s' st' /\ (forall key, in_store s' key <-> in_store s key).
Proof.
  intros ->. revert i s st out. induction reqs as [|[push m] reqs IH]; intros i s st out Hsim Hreq Hord Hrun.
  { simpl in *. injection Hrun as <- <- <-. by exists s. }
  apply Forall_cons in Hreq as [Hm Hreq]. cbn [foldM fst snd] in *.
  destruct (ProcessRequest push false m st) as [[st1 r]|] eqn:Ep; cbn [mbind outcome_bind] in *; [|done].
  destruct (ProcessRequest_refines s st push m (orders i) st1 r) as (s1 & Eb & Hsim1 & Hn & Hin1); try done.
  rewrite Eb. cbn [mbind outcome_bind].
  edestruct (IH (i + 1) s1 st1) as (s' & E2 & Hsim' & Hin'); [done| | |exact Hrun|].
  - eapply Forall_impl; [exact Hreq|]. intros [p m'] (Hd & Hs & Hi). split; [done|]. split; [done|].
    eapply Forall_impl; [exact Hi|]. intros key. apply Hin1.
  - intros i'. by rewrite Hn.
  - exists s'. split; [exact E2|]. split; [done|]. intros key. by rewrite Hin', Hin1.
Qed.

End Pushes.

(** ** The stores are correct *)

Lemma new_bstore_ok {E H} kb ke (h : H) k nt (s : BStore E H) :
  (0 <= kb)%Z -> (900 <= ke - kb)%Z -> (ke < 2 ^ 64)%Z -> new_bstore kb ke h k nt = Ok s ->
  bstore_ok s /\ (forall key, (kb <= key < ke)%Z -> in_store s key) /\
  s = mkBStore (replicate nt ∅) h k nt kb s.(bucket_size_).
Proof.
  unfold new_bstore. intros Hb Hk He Hn. ok_inv.
  repeat match goal with H : bool_decide _ = true |- _ => apply bool_decide_eq_true in H end. simpl.
  set (q := (u64 (ke - kb - 1) / Z.of_nat nt)%Z).
  assert (Z.of_nat nt * q <= ke - kb - 1 < Z.of_nat nt * (q + 1))%Z as Hq.
  { subst q. rewrite u64_small by lia.
    pose proof (Z.mul_div_le (ke - kb - 1) (Z.of_nat nt) ltac:(lia)).
    pose proof (Z.mul_succ_div_gt (ke - kb - 1) (Z.of_nat nt) ltac:(lia)). lia. }
  assert (Z.of_nat nt <= q + 1)%Z as Hqn by nia.
  assert (q <= Z.of_nat nt * q)%Z by nia.
  assert (u64 (q + 1) = q + 1)%Z as Hu by (apply u64_small; lia).
  rewrite Hu. split; [split; simpl; [lia|lia|lia|nia|apply length_replicate]|].
  split; [|done]. intros key Hkey. unfold in_store. simpl. split; [split; nia|lia].
Qed.



(** The dynamic requests of the bucketed store use bucket 0 only, while the
    static ones use the bucket of the key: after a static push to a key of
    another bucket a static pull gives the pushed value and a dynamic pull the
    initial one.  After [Clear] a static push accesses a bucket that is not
    there. *)
Theorem bucketed_store_dynamic_mismatch :
  let push := mkMsg 0 [900%Z] false (Some [7%Z]) None in
  exists s s1, new_bstore 0 1000 tt 1 2 = Ok s /\ BHandlePush [0; 1] s push = Ok s1 /\
    (s2 ← BHandlePull [0; 1] s1 (mkMsg 0 [900%Z] false None None); Ok s2.1.2) = Ok [7%Z] /\
    (s2 ← BHandlePull [0; 1] s1 (mkMsg 0 [900%Z] true None None); Ok s2.1.2) = Ok [0%Z] /\
    BHandlePush [0; 1] (BClear s1) push = Fail OutOfRange.
Proof.
  intros push. eexists _, _. split; [reflexivity|]. split; [reflexivity|].
  split; [vm_compute; reflexivity|]. split; vm_compute; reflexivity.
Qed.

(** In a dynamic pull the buffer handed to [Pull] is all that is left of the
    reply, not [pull_val_len] values: the default handle, which fills it,
    answers a dynamic pull of two keys with two and seven values. *)
Theorem dynamic_pull_buffer :
  let s := mkStore (<[1%Z := 5%Z]> (<[2%Z := 6%Z]> ∅)) tt 1 in
  (r ← HandlePull s (mkMsg 0 [1; 2]%Z true None None); Ok (r.1.2, r.2)) =
  Ok ([5; 5; 6; 6; 6; 6; 6; 6; 6]%Z, Some [2; 7]).
Proof. vm_compute. reflexivity. Qed.

(** ** Save and load *)

Section SaveLoad.
Context {E V H : Type} `{HH : !Handle E V H} `{!EntryIO E H}.

(** What the stored values promise: [e_enc e] is what [Save] writes, and [Load]
    into a new value gives [reload e] back and counts it in the handle. *)
Record entry_laws (e_enc : E -> list byte) (e_ok : E -> Prop) (reload : E -> E) (count : E -> H -> H) : Prop := {
  el_save {T} `{StreamLaws T} e (s : T) n : e_ok e -> sok s -> room s (length (e_enc e) + n) ->
    exists s', eSave e s = Ok s' /\ written s' = written s ++ e_enc e /\ room s' n /\ sok s';
  el_load {T} `{StreamLaws T} e (h : H) (s : T) r : e_ok e -> sok s -> unread s = e_enc e ++ r ->
    exists s', eLoad e_default h s = Ok (reload e, count e h, s') /\ unread s' = r /\ sok s'
}.

Context (e_enc : E -> list byte) (e_ok : E -> Prop) (reload : E -> E) (count : E -> H -> H).
Hypothesis laws : entry_laws e_enc e_ok reload count.

Definition pair_ok (kv : Z * E) : Prop := (0 <= kv.1 < 2 ^ 64)%Z /\ e_ok kv.2.
Definition pair_enc (kv : Z * E) : list byte := le_split 8 kv.1 ++ e_enc kv.2.
Definition saved (it : list (Z * E)) : list (Z * E) := filter (fun kv => eEmpty kv.2 = false) it.

Lemma save_pairs_spec {T} `{StreamLaws T} it (s : T) n :
  Forall pair_ok it -> sok s -> room s (length (concat (map pair_enc (saved it))) + n) ->
  exists s', save_pairs it s = Ok s' /\
    written s' = written s ++ concat (map pair_enc (saved it)) /\ room s' n /\ sok s'.
Proof.
  intros Hok. revert s. unfold save_pairs, saved.
  induction Hok as [|[key e] it [Hk He] Hit IH]; intros s Hs Hr; cbn [foldM fst snd].
  { exists s. simpl in *. by rewrite app_nil_r. }
  rewrite filter_cons in *. cbn [fst snd] in *. destruct (eEmpty e).
  - simpl. rewrite decide_False in * by done. by apply IH.
  - rewrite decide_True in * by done. cbn [map concat] in *.
    unfold pair_enc at 1 in Hr. cbn [fst snd] in Hr. rewrite !length_app in Hr.
    unfold write_pod. simpl (pod_bytes _).
    destruct (Write_append (le_split 8 key) s
      (length (e_enc e) + (length (concat (map pair_enc (filter (fun kv => eEmpty kv.2 = false) it))) + n)) Hs)
      as (s1 & -> & Hw1 & Hr1 & Hs1); [by rewrite !Nat.add_assoc in *|]. simpl.
    destruct (el_save _ _ _ _ laws e s1 _ He Hs1 Hr1) as (s2 & -> & Hw2 & Hr2 & Hs2). simpl.
    destruct (IH s2 Hs2 Hr2) as (s3 & E3 & Hw3 & Hr3 & Hs3). exists s3. split; [exact E3|].
    split; [|done]. rewrite Hw3, Hw2, Hw1. unfold pair_enc at 2. simpl. by rewrite <- !app_assoc.
Qed.

(** The end of the stream: a read gives no bytes. *)
Definition at_end {T} `{StreamLaws T} : Prop :=
  forall (s : T), sok s -> unread s = [] -> exists s', Read 8 s = Ok ([], s').

Lemma load_pairs_spec {T} `{StreamLaws T} l fuel (d : gmap Z E) (h : H) (s : T) :
  at_end (T := T) -> Forall pair_ok l -> NoDup l.*1 -> (forall key, key ∈ l.*1 -> d !! key = None) ->
  length l < fuel -> sok s -> unread s = concat (map pair_enc l) ->
  load_pairs fuel d h s =
    Ok (Some (foldl (fun d kv => <[ kv.1 := reload kv.2 ]> d) d l, foldl (fun h kv => count kv.2 h) h l)).
Proof.
  intros Hend Hok. revert fuel d h s.
  induction Hok as [|[key e] l [Hk He] Hl IH]; intros [|fuel] d h s Hnd Hd Hf Hs Hu; simpl in Hf; try lia.
  { simpl. destruct (Hend s Hs Hu) as (s' & ->). simpl. done. }
  simpl in Hnd. apply NoDup_cons in Hnd as [Hn Hnd]. cbn [load_pairs].
  cbn [map concat] in Hu. unfold pair_enc at 1 in Hu. cbn [fst snd] in *. rewrite <- app_assoc in Hu.
  assert (length (le_split 8 key) = 8) as Hlen by apply length_le_split.
  destruct (Read_full 8 s Hs) as (s1 & -> & Hu1 & Hs1).
  { rewrite Hu, length_app. lia. }
  rewrite Hu in *. rewrite (take_app_le _ _ 8), (drop_app_ge _ _ 8) in * by lia.
  rewrite take_ge in * by lia. rewrite Hlen, Nat.sub_diag, drop_0 in Hu1.
  cbn [mbind outcome_bind]. rewrite decide_True by done.
  assert (pod_of (Pod := pod_uint 8) (le_split 8 key) = key) as ->.
  { apply (pod_of_bytes (PodLaws := pod_uint_laws 8)). exact Hk. }
  assert (at_ d key = e_default) as ->.
  { unfold at_. rewrite Hd; [done|]. apply list_elem_of_here. }
  destruct (el_load _ _ _ _ laws e h s1 _ He Hs1 Hu1) as (s2 & -> & Hu2 & Hs2).
  cbn [mbind outcome_bind]. apply IH; try done; [|lia].
  intros key' Hk'. rewrite lookup_insert_ne; [apply Hd; by apply list_elem_of_further|].
  intros ->. done.
Qed.

Lemma foldl_insert_lookup (l : list (Z * E)) (d : gmap Z E) key :
  NoDup l.*1 -> foldl (fun d kv => <[ kv.1 := reload kv.2 ]> d) d l !! key =
    match (list_to_map l : gmap Z E) !! key with Some e => Some (reload e) | None => d !! key end.
Proof.
  revert d. induction l as [|[k e] l IH]; intros d Hnd; simpl; [done|].
  apply NoDup_cons in Hnd as [Hn Hnd]. rewrite IH by done.
  destruct (decide (k = key)) as [->|Hne].
  - rewrite (not_elem_of_list_to_map_1 l key Hn), !lookup_insert_eq. done.
  - by rewrite !lookup_insert_ne.
Qed.

End SaveLoad.

Lemma MemoryStringStream_at_end : at_end (T := MemoryStringStream.t).
Proof.
  intros [buf cur] Hs Hu. simpl in *. unfold MemoryStringStream.Read. simpl.
  rewrite check_true by by apply bool_decide_eq_true. simpl. rewrite Hu, take_nil. by eexists.
Qed.

(** The pairs of a map that are saved, as a list in the order [it]. *)
Lemma saved_lookup {E H} `{!EntryIO E H} (d : gmap Z E) it key :
  it ≡ₚ map_to_list d ->
  NoDup (saved it).*1 /\
  (list_to_map (saved it) : gmap Z E) !! key =
    e ← d !! key; if eEmpty e then None else Some e.
Proof.
  intros Hit.
  assert (NoDup (saved it).*1) as Hnd.
  { assert (NoDup it.*1) as Hn by (rewrite Hit; apply NoDup_fst_map_to_list).
    eapply sublist_NoDup; [exact Hn|]. unfold saved.
    clear. induction it as [|x it IH]; [done|]. rewrite filter_cons. case_decide; simpl; by constructor. }
  split; [done|]. apply option_eq. intros e. rewrite <- elem_of_list_to_map by done.
  unfold saved. rewrite list_elem_of_filter, Hit, elem_of_map_to_list. simpl.
  destruct (d !! key) as [e'|]; simpl; [|naive_solver].
  destruct (eEmpty e') eqn:Ee; naive_solver congruence.
Qed.

(** Saving to any stream and loading from the bytes that were written. *)
Lemma Store_save_load_generic {E V H T} `{HH : !Handle E V H} `{!EntryIO E H} `{StreamLaws T}
    e_enc e_ok reload count (s : Store E H) (h : H) it (fo : T) :
  entry_laws e_enc e_ok reload count -> it ≡ₚ map_to_list s.(data_) -> Forall (pair_ok e_ok) it ->
  sok fo -> written fo = [] -> (forall n, room fo n) ->
  exists fo', Save it fo = Ok fo' /\
    forall fuel, length it < fuel -> exists s',
      Load fuel (mkStore ∅ h s.(k_)) (MemoryStringStream.mk (written fo') 0) = Ok (Some s') /\
      (forall key, s'.(data_) !! key = e ← s.(data_) !! key; if eEmpty e then None else Some (reload e)) /\
      s'.(handle_) = foldl (fun h kv => count kv.2 h) h (saved it).
Proof.
  intros Hlaws Hit Hok Hfo Hw0 Hroom.
  destruct (save_pairs_spec e_enc e_ok reload count Hlaws it fo 0 Hok Hfo (Hroom _))
    as (fo' & Hs & Hw & _ & Hfo').
  exists fo'. split; [exact Hs|]. intros fuel Hf.
  assert (NoDup (saved it).*1) as Hnd by by apply (saved_lookup s.(data_) it 0%Z).
  assert (length (saved it) <= length it) as Hlen by apply length_filter.
  assert (Forall (pair_ok e_ok) (saved it)) as Hoks.
  { apply Forall_forall. intros x [_ Hx]%list_elem_of_filter. by eapply Forall_forall in Hok. }
  unfold Load.
  rewrite (load_pairs_spec e_enc e_ok reload count Hlaws (saved it)); try done; simpl; try lia.
  - eexists. split; [reflexivity|]. simpl. split; [|done]. intros key.
    rewrite foldl_insert_lookup by done.
    destruct (saved_lookup s.(data_) it key Hit) as [_ ->].
    destruct (s.(data_) !! key) as [e|]; simpl; [|done]. by destruct (eEmpty e).
  - apply MemoryStringStream_at_end.
  - by rewrite Hw, Hw0.
Qed.

(** ** Statistics of a store *)

(** The sum of a quantity over the entries of a map. *)
Definition msum {E} (f : E -> Z) (d : gmap Z E) : Z := map_fold (fun _ e a => f e + a)%Z 0%Z d.

Lemma msum_insert {E} (f : E -> Z) (d : gmap Z E) key e :
  msum f (<[ key := e ]> d) = (msum f d + f e - default 0 (f <$> d !! key))%Z.
Proof.
  assert (forall d key e, d !! key = None -> msum f (<[ key := e ]> d) = (f e + msum f d)%Z) as Hn.
  { intros d0 key0 e0 Hd. unfold msum. rewrite map_fold_insert_L; [done| |done]. intros; lia. }
  destruct (d !! key) as [e0|] eqn:Ed; simpl.
  - rewrite <- (insert_delete_id d key e0 Ed) at 2. rewrite <- insert_delete_eq.
    rewrite !Hn by apply lookup_delete_eq. lia.
  - rewrite Hn by done. lia.
Qed.


Section Counting.
Context {E V H : Type} `{HH : !Handle E V H}.

Lemma msum_at_insert (f : E -> Z) (d : gmap Z E) key e :
  f e_default = 0%Z -> msum f (<[ key := e ]> d) = (msum f d + f e - f (at_ d key))%Z.
Proof.
  intros Hf. rewrite msum_insert. f_equal. unfold at_. destruct (d !! key); simpl; [done|]. by rewrite Hf.
Qed.

(** A handle that counts: [cnt] of the handle changes with every push as the
    quantity [val] of the entry does. *)
Record counting (good : E -> Prop) (cnt : H -> Z) (val : E -> Z) : Prop := {
  co_good : good e_default;
  co_zero : val e_default = 0%Z;
  co_Start push cmd h : cnt (Start push cmd h) = cnt h;
  co_Finish h : cnt (Finish h) = cnt h;
  co_Push key v e h e' h' : good e -> Push key v e h = Ok (e', h') ->
    good e' /\ (cnt h' - val e' = cnt h - val e)%Z
}.

Context (good : E -> Prop) (cnt : H -> Z) (val : E -> Z).
Hypothesis counts : counting good cnt val.

Definition counted_in (d : gmap Z E) (h : H) : Prop := map_Forall (fun _ e => good e) d /\ cnt h = msum val d.

Lemma good_at d key : map_Forall (fun _ e => good e) d -> good (at_ d key).
Proof.
  intros Hd. unfold at_. destruct (d !! key) as [e|] eqn:Ee; simpl; [by apply (Hd key)|apply counts].
Qed.

Lemma counted_insert d h key e' h' :
  counted_in d h -> good e' -> (cnt h' - val e' = cnt h - val (at_ d key))%Z ->
  counted_in (<[ key := e' ]> d) h'.
Proof.
  intros [Hd Hc] He Hv. split; [by apply map_Forall_insert_2|].
  rewrite msum_at_insert by apply counts. lia.
Qed.

Lemma push_counted k d h v key d' h' v' :
  counted_in d h -> push_step k (d, h, v) key = Ok (d', h', v') -> counted_in d' h'.
Proof.
  intros Hc. unfold push_step.
  destruct (Push key (take k v) (at_ d key) h) as [[e1 h1]|] eqn:Ep; simpl; [|done]. intros [= <- <- <-].
  destruct (co_Push _ _ _ counts _ _ _ _ _ _ (good_at d key (proj1 Hc)) Ep). by apply (counted_insert d h).
Qed.

Lemma push_dyn_counted d h v kn d' h' v' :
  counted_in d h -> push_dyn_step (d, h, v) kn = Ok (d', h', v') -> counted_in d' h'.
Proof.
  intros Hc. destruct kn as [key k]. unfold push_dyn_step. case_decide; [by intros [= <- <- <-]|].
  by apply push_counted.
Qed.

Lemma HandlePush_counted s m s' :
  counted_in s.(data_) s.(handle_) -> HandlePush s m = Ok s' -> counted_in s'.(data_) s'.(handle_).
Proof.
  intros [Hd Hc]. assert (counted_in s.(data_) (Start true m.(m_cmd) s.(handle_))) as Hs.
  { split; [done|]. by rewrite (co_Start _ _ _ counts). }
  clear Hd Hc. unfold HandlePush.
  set (I := fun st : gmap Z E * H * list V => counted_in st.1.1 st.1.2).
  assert (forall d h, counted_in d h -> counted_in d (Finish h)) as Hfin.
  { intros d h [H1 H2]. split; [done|]. by rewrite (co_Finish _ _ _ counts). }
  case_match; [|case_match].
  - destruct (m_value m) as [v|]; [|done]. destruct (m_size m) as [sz|]; [|done]. intros Hp. ok_inv.
    match goal with a : _ * _ * _ |- _ => destruct a as [[d h] v1] end. ok_inv. apply Hfin.
    change (I (d, h, v1)). eapply (foldM_inv push_dyn_step I); [|clear -counts|eassumption]; [done|].
    intros [[d0 h0] v0] kn [[d1 h1] v2] Hi _ E1. eapply push_dyn_counted; [exact Hi|exact E1].
  - destruct (m_value m) as [v|]; [|done]. destruct (m_size m) as [sz|]; [done|]. intros Hp. ok_inv.
    match goal with a : _ * _ * _ |- _ => destruct a as [[d h] v1] end. ok_inv. apply Hfin.
    change (I (d, h, v1)). eapply (foldM_inv (push_step _) I); [|clear -counts|eassumption]; [done|].
    intros [[d0 h0] v0] kn [[d1 h1] v2] Hi _ E1. eapply push_counted; [exact Hi|exact E1].
  - intros [= <-]. by apply Hfin.
Qed.

End Counting.

(** *** Pulls leave the entries as they are *)

Section PullData.
Context {E V H : Type} `{HH : !Handle E V H}.

Lemma pull_dyn_step_data k h d val start sizes key d' val' start' sizes' :
  pull_dyn_step k h (d, val, start, sizes) key = Ok (d', val', start', sizes') -> d' = <[ key := at_ d key ]> d.
Proof. unfold pull_dyn_step. intros Hp. repeat case_match; ok_inv; repeat case_match; ok_inv; done. Qed.

Lemma pull_step_data k h st key st' : pull_step k h st key = Ok st' -> st'.1 = <[ key := at_ st.1 key ]> st.1.
Proof. unfold pull_step. intros Hp. ok_inv. done. Qed.

Lemma HandlePull_inv (s : Store E H) (m : Message V) s' val siz :
  HandlePull s m = Ok (s', val, siz) ->
  forall (J : gmap Z E -> Prop), J s.(data_) -> (forall d key, J d -> J (<[ key := at_ d key ]> d)) ->
  J s'.(data_) /\ s'.(handle_) = Finish (Start false m.(m_cmd) s.(handle_)) /\ s'.(k_) = s.(k_).
Proof.
  intros Hp J HJ Hs. unfold HandlePull in Hp. destruct (m_dyn m).
  - match type of Hp with (mbind _ ?e = _) => destruct e as [[[[d v] st] sz]|] eqn:Ef end; simpl in Hp; [|done].
    injection Hp as <- <- <-. simpl. split; [|done].
    change ((fun st : gmap Z E * list V * nat * list nat => J st.1.1.1) (d, v, st, sz)).
    eapply (foldM_inv (pull_dyn_step _ _)); [|clear -Hs|exact Ef]; [done|].
    intros [[[d0 v0] st0] sz0] key [[[d1 v1] st1] sz1] H0 _ ->%pull_dyn_step_data. simpl. by apply Hs.
  - match type of Hp with (mbind _ ?e = _) => destruct e as [[d v]|] eqn:Ef end; simpl in Hp; [|done].
    injection Hp as <- <- <-. simpl. split; [|done].
    change ((fun st : gmap Z E * list V => J st.1) (d, v)).
    eapply (foldM_inv (pull_step _ _)); [|clear -Hs|exact Ef]; [done|].
    intros st0 key st1 H0 _ Hp%pull_step_data. rewrite Hp. by apply Hs.
Qed.

(** An invariant of single requests is one of histories. *)
Lemma serve_inv (J : Store E H -> Prop) reqs s n s' out :
  J s -> (forall s push m s' r, J s -> ProcessRequest push false m s = Ok (s', r) -> J s') ->
  serve (fun _ => KVStoreSparseST) reqs s = Ok (n, s', out) -> J s'.
Proof.
  intros HJ Hs Hr.
  change ((fun st : nat * Store E H * list (Message V) => J st.1.2) (n, s', out)).
  eapply foldM_inv; [|clear -Hs|exact Hr]; [done|].
  intros [[i0 s0] o0] [push m] [[i1 s1] o1] H0 _ Eq. cbn [fst snd] in *.
  destruct (ProcessRequest push false m s0) as [[s2 r]|] eqn:Ep; cbn [mbind outcome_bind] in Eq; [|done].
  injection Eq as <- <- <-. eauto.
Qed.

(** A counting handle counts what is in the store, after any requests. *)
Lemma serve_counted good cnt val reqs s n s' out :
  counting good cnt val -> counted_in good cnt val s.(data_) s.(handle_) ->
  serve (fun _ => KVStoreSparseST) reqs s = Ok (n, s', out) ->
  counted_in good cnt val s'.(data_) s'.(handle_).
Proof.
  intros Hco Hc. apply (serve_inv (fun s => counted_in good cnt val s.(data_) s.(handle_))); [done|].
  clear -Hco. intros s push m s' r Hc. unfold ProcessRequest. simpl. destruct push.
  - destruct (HandlePush s m) eqn:Ep; simpl; [|done]. intros [= <- <-]. by eapply HandlePush_counted.
  - destruct (HandlePull s m) as [[[s1 v] sz]|] eqn:Ep; simpl; [|done]. intros [= <- <-].
    destruct (HandlePull_inv s m s1 v sz Ep (fun d => counted_in good cnt val d (handle_ s)) Hc) as ((Hd & Hm) & -> & _).
    + intros d key Hd. eapply counted_insert; [done|done| |done]. by eapply good_at, Hd.
    + split; [done|]. by rewrite (co_Finish _ _ _ Hco), (co_Start _ _ _ Hco).
Qed.

End PullData.
