(* ===== verification/AdaGrad.v ===== *)
(** * The model on the servers

    Models the server side of src/src/difacto/async_sgd.h: the stored value
    [AdaGradEntry], the handles [ISGDHandle] and [AdaGradHandle] and the
    [AsyncServer], on top of the store of KVStore.v. *)
From S2P Require Import Prelude Floats Stream Workload KVStore.

(** ** The configuration (src/src/difacto/config.proto) *)

Record EmbeddingConf (F : Type) := mkEmbConf {
  c_dim : nat; c_threshold : Z; c_lambda_l2 : F; c_lr_eta : option F; c_init_scale : F;
  c_lr_beta : option F; c_dropout : F; c_grad_clipping : F; c_grad_normalization : F }.
Arguments mkEmbConf {F}.
Arguments c_dim {F}.
Arguments c_threshold {F}.
Arguments c_lambda_l2 {F}.
Arguments c_lr_eta {F}.
Arguments c_init_scale {F}.
Arguments c_lr_beta {F}.
Arguments c_dropout {F}.
Arguments c_grad_clipping {F}.
Arguments c_grad_normalization {F}.

Record Config (F : Type) := mkConfig {
  lambda_l1 : F; lambda_l2 : F; lr_eta : F; lr_beta : F; l1_shrk : bool;
  embedding : list (EmbeddingConf F); num_threads : nat;
  early_stop : bool; has_val_data : bool; max_objv : option F; min_objv_decr : F;
  key_cache : bool; msg_compression : bool; fixed_bytes : Z }.
Arguments mkConfig {F}.
Arguments lambda_l1 {F}.
Arguments lambda_l2 {F}.
Arguments lr_eta {F}.
Arguments lr_beta {F}.
Arguments l1_shrk {F}.
Arguments embedding {F}.
Arguments num_threads {F}.
Arguments early_stop {F}.
Arguments has_val_data {F}.
Arguments max_objv {F}.
Arguments min_objv_decr {F}.
Arguments key_cache {F}.
Arguments msg_compression {F}.
Arguments fixed_bytes {F}.

(** ** [AdaGradEntry] *)

(** What the two pointers hold: the floats themselves (with the upper half of
    the pointer [w], which nothing uses), or the arrays, or nothing. *)
Inductive Mem (F : Type) :=
| Inline (w0 : F) (whi : list byte) (cg0 z0 : F)
| Heap (w sqc_grad : list F)
| Null.
Arguments Inline {F}.
Arguments Heap {F}.
Arguments Null {F}.

Record AdaGradEntry (F : Type) := mkEntry { fea_cnt : Z; size : nat; mem : Mem F }.
Arguments mkEntry {F}.
Arguments fea_cnt {F}.
Arguments size {F}.
Arguments mem {F}.

(** ** The handle *)

Record Embedding (F : Type) := mkEmb {
  dim : nat; thr : Z; V_lambda_l2 : F; V_alpha : F; V_beta : F; V_min : F; V_max : F }.
Arguments mkEmb {F}.
Arguments dim {F}.
Arguments thr {F}.
Arguments V_lambda_l2 {F}.
Arguments V_alpha {F}.
Arguments V_beta {F}.
Arguments V_min {F}.
Arguments V_max {F}.

(** The parameters of a handle. *)
Record Params (F : Type) := mkParams {
  h_lambda_l1 : F; h_lambda_l2 : F; alpha : F; beta : F; V : Embedding F; shrk : bool;
  reporter : bool; ns_ : Z }.
Arguments mkParams {F}.
Arguments h_lambda_l1 {F}.
Arguments h_lambda_l2 {F}.
Arguments alpha {F}.
Arguments beta {F}.
Arguments V {F}.
Arguments shrk {F}.
Arguments reporter {F}.
Arguments ns_ {F}.

(** Its state, with the two static counters, the calls of [reporter] so far and
    how often [rand()] was called. *)
Record HState (F : Type) := mkH {
  params : Params F; push_count : bool; new_w : Z; new_V : Z; ct_ : Z;
  reports : list (Z * Z); rands : nat }.
Arguments mkH {F}.
Arguments params {F}.
Arguments push_count {F}.
Arguments new_w {F}.
Arguments new_V {F}.
Arguments ct_ {F}.
Arguments reports {F}.
Arguments rands {F}.

Definition kPushFeaCnt : Z := 1.
Definition RAND_MAX : Z := 2147483647.

Section AdaGrad.
Context {F : Type} `{!Float F} `{PF : !Pod F}.
(** What a new array holds, and the numbers [rand()] gives. *)
Context (junk : F) (rand : nat -> Z).

Definition new_entry : AdaGradEntry F := mkEntry 0 1 (Inline fzero (replicate 4 Byte.x00) fzero fzero).

(** [Clear()] *)
Definition entry_Clear (e : AdaGradEntry F) : AdaGradEntry F := mkEntry e.(fea_cnt) 0 Null.

(** [w_0()], [sqc_grad_0()] and [z_0()]: reading the pointer as a float when it
    is not one is undefined. *)
Definition w_0 (e : AdaGradEntry F) : outcome F :=
  if decide (e.(size) = 1) then
    match e.(mem) with Inline w0 _ _ _ => Ok w0 | _ => Fail OutOfRange end
  else match e.(mem) with Heap w _ => read_at w 0 | _ => Fail OutOfRange end.

Definition sqc_grad_0 (e : AdaGradEntry F) : outcome F :=
  if decide (e.(size) = 1) then
    match e.(mem) with Inline _ _ cg _ => Ok cg | _ => Fail OutOfRange end
  else match e.(mem) with Heap _ cg => read_at cg 0 | _ => Fail OutOfRange end.

Definition z_0 (e : AdaGradEntry F) : outcome F :=
  if decide (e.(size) = 1) then
    match e.(mem) with Inline _ _ _ z => Ok z | _ => Fail OutOfRange end
  else match e.(mem) with Heap _ cg => read_at cg 1 | _ => Fail OutOfRange end.

(** The assignments through them. *)
Definition set_w_0 (x : F) (e : AdaGradEntry F) : outcome (AdaGradEntry F) :=
  match decide (e.(size) = 1), e.(mem) with
  | left _, Inline _ hi cg z => Ok (mkEntry e.(fea_cnt) e.(size) (Inline x hi cg z))
  | right _, Heap w cg => w ← write_at w 0 x; Ok (mkEntry e.(fea_cnt) e.(size) (Heap w cg))
  | _, _ => Fail OutOfRange
  end.

Definition set_sqc_grad_0 (x : F) (e : AdaGradEntry F) : outcome (AdaGradEntry F) :=
  match decide (e.(size) = 1), e.(mem) with
  | left _, Inline w hi _ z => Ok (mkEntry e.(fea_cnt) e.(size) (Inline w hi x z))
  | right _, Heap w cg => cg ← write_at cg 0 x; Ok (mkEntry e.(fea_cnt) e.(size) (Heap w cg))
  | _, _ => Fail OutOfRange
  end.

Definition set_z_0 (x : F) (e : AdaGradEntry F) : outcome (AdaGradEntry F) :=
  match decide (e.(size) = 1), e.(mem) with
  | left _, Inline w hi cg _ => Ok (mkEntry e.(fea_cnt) e.(size) (Inline w hi cg x))
  | right _, Heap w cg => cg ← write_at cg 1 x; Ok (mkEntry e.(fea_cnt) e.(size) (Heap w cg))
  | _, _ => Fail OutOfRange
  end.

(** [memcpy(new, old, n * sizeof(float))] *)
Definition memcpy (n : nat) (old new : list F) : outcome (list F) :=
  if decide (n <= length old /\ n <= length new) then Ok (list_inserts 0 (take n old) new)
  else Fail OutOfRange.

(** [Resize(n)] *)
Definition entry_Resize (n : nat) (e : AdaGradEntry F) : outcome (AdaGradEntry F) :=
  if decide (n < e.(size)) then Ok (mkEntry e.(fea_cnt) n e.(mem)) else
  let new_w := replicate n junk in
  let new_cg := replicate (n + 1) junk in
  if decide (e.(size) = 1) then
    w0 ← w_0 e; new_w ← write_at new_w 0 w0;
    cg0 ← sqc_grad_0 e; new_cg ← write_at new_cg 0 cg0;
    z0 ← z_0 e; new_cg ← write_at new_cg 1 z0;
    Ok (mkEntry e.(fea_cnt) n (Heap new_w new_cg))
  else
    match e.(mem) with
    | Heap w cg =>
        new_w ← memcpy e.(size) w new_w;
        new_cg ← memcpy (e.(size) + 1) cg new_cg;
        Ok (mkEntry (entry_Clear e).(fea_cnt) n (Heap new_w new_cg))
    | _ => Fail OutOfRange
    end.

(** [Empty()] *)
Definition Empty (e : AdaGradEntry F) : outcome bool :=
  w0 ← w_0 e; Ok ((w0 =? fzero)%F && bool_decide (e.(size) = 1)).

(** [Save(fo)] *)
Definition entry_Save {T} `{Stream T} (e : AdaGradEntry F) (fo : T) : outcome T :=
  fo ← write_pod (pod_int 4) (Z.of_nat e.(size)) fo;
  match decide (e.(size) = 1), e.(mem) with
  | left _, Inline w0 hi cg0 z0 =>
      fo ← Write (pod_bytes w0 ++ hi) fo;
      Write (pod_bytes cg0 ++ pod_bytes z0) fo
  | right _, Heap w cg =>
      if decide (e.(size) <= length w /\ e.(size) + 1 <= length cg) then
        fo ← Write (pod_memory (take e.(size) w)) fo;
        Write (pod_memory (take (e.(size) + 1) cg)) fo
      else Fail OutOfRange
  | _, _ => Fail OutOfRange
  end.

(** [fi->Read(p, sizeof(float) * n)], the count ignored. *)
Definition read_floats {T} `{Stream T} (n : nat) (fi : T) : outcome (list F * T) :=
  '(b, fi) ← Read (S := T) (pod_size (A := F) * n) fi;
  if decide (length b = pod_size (A := F) * n) then Ok (pod_elems n b, fi) else Fail OutOfRange.

(** [Load(fi)], with the statistics it updates. *)
Definition entry_Load {T} `{Stream T} (e : AdaGradEntry F) (h : HState F) (fi : T)
  : outcome (AdaGradEntry F * HState F * T) :=
  '(sz, fi) ← read_pod (pod_int 4) fi;
  '(e, nV, fi) ←
    (if decide (sz = 1%Z) then
       '(b1, fi) ← Read (S := T) 8 fi;
       '(b2, fi) ← Read (S := T) 8 fi;
       if decide (length b1 = 8 /\ length b2 = 8) then
         Ok (mkEntry e.(fea_cnt) 1
               (Inline (pod_of (take 4 b1)) (drop 4 b1) (pod_of (take 4 b2)) (pod_of (drop 4 b2))),
             h.(new_V), fi)
       else Fail OutOfRange
     else
       _ ← check (bool_decide (0 <= sz)%Z);
       let n := Z.to_nat sz in
       '(w, fi) ← read_floats n fi;
       '(cg, fi) ← read_floats (n + 1) fi;
       Ok (mkEntry e.(fea_cnt) n (Heap w cg), (h.(new_V) + (sz - 1))%Z, fi));
  w0 ← w_0 e;
  let nw := if negb (w0 =? fzero)%F then (h.(new_w) + 1)%Z else h.(new_w) in
  Ok (e, mkH h.(params) h.(push_count) nw nV h.(ct_) h.(reports) h.(rands), fi).

(** ** [ISGDHandle] *)

(** [Start(push, timestamp, cmd, msg)] *)
Definition Start_ (push : bool) (cmd : Z) (h : HState F) : HState F :=
  mkH h.(params) (push && bool_decide (cmd = kPushFeaCnt)) h.(new_w) h.(new_V) h.(ct_) h.(reports) h.(rands).

(** [Report()] *)
Definition Report (h : HState F) : HState F :=
  let ct := (h.(ct_) + 1)%Z in
  if bool_decide (h.(params).(ns_) <= ct)%Z && h.(params).(reporter) then
    mkH h.(params) h.(push_count) 0 0 0 (h.(reports) ++ [(h.(new_w), h.(new_V))]) h.(rands)
  else mkH h.(params) h.(push_count) h.(new_w) h.(new_V) ct h.(reports) h.(rands).

(** [Finish()] *)
Definition Finish_ (h : HState F) : HState F := Report h.

(** ** [AdaGradHandle] *)

(** One iteration of the loop of [Resize(val)]. *)
Definition init_step (p : Params F) (st : list F * list F * nat) (j : nat) : outcome (list F * list F * nat) :=
  let '(w, cg, r) := st in
  let v := (fofZ (rand r) / fofZ RAND_MAX * (p.(V).(V_max) - p.(V).(V_min)) + p.(V).(V_min))%F in
  w ← write_at w j v;
  cg ← write_at cg (j + 1) fzero;
  Ok (w, cg, r + 1).

(** [Resize(val)] *)
Definition Resize (e : AdaGradEntry F) (h : HState F) : outcome (AdaGradEntry F * HState F) :=
  let p := h.(params) in
  w0 ← w_0 e;
  if bool_decide (p.(V).(thr) < e.(fea_cnt))%Z && bool_decide (e.(size) < p.(V).(dim) + 1)
     && (negb p.(shrk) || negb (w0 =? fzero)%F)
  then
    let old_siz := e.(size) in
    e ← entry_Resize (p.(V).(dim) + 1) e;
    match e.(mem) with
    | Heap w cg =>
        '(w, cg, r) ← foldM (init_step p) (seq old_siz (e.(size) - old_siz)) (w, cg, h.(rands));
        Ok (mkEntry e.(fea_cnt) e.(size) (Heap w cg),
            mkH p h.(push_count) h.(new_w) (h.(new_V) + (Z.of_nat e.(size) - Z.of_nat old_siz))
                h.(ct_) h.(reports) r)
    | _ => Fail OutOfRange
    end
  else Ok (e, h).

(** The new weight of the FTRL update. *)
Definition ftrl (l1 eta z : F) : F :=
  if (z <=? l1)%F && (fneg l1 <=? z)%F then fzero
  else ((if fzero <? z then z - l1 else z + l1) / eta)%F.

(** [UpdateW(val, g)] *)
Definition UpdateW (g : F) (e : AdaGradEntry F) (h : HState F) : outcome (AdaGradEntry F * HState F) :=
  let p := h.(params) in
  w ← w_0 e;
  let g := (g + p.(h_lambda_l2) * w)%F in
  cg ← sqc_grad_0 e;
  let cg_new := fsqrt (cg * cg + g * g)%F in
  e ← set_sqc_grad_0 cg_new e;
  z ← z_0 e;
  e ← set_z_0 (z - (g - (cg_new - cg) / p.(alpha) * w))%F e;
  z ← z_0 e;
  let eta := ((p.(beta) + cg_new) / p.(alpha))%F in
  e ← set_w_0 (ftrl p.(h_lambda_l1) eta z) e;
  w' ← w_0 e;
  if (w =? fzero)%F && negb (w' =? fzero)%F then
    Resize e (mkH p h.(push_count) (h.(new_w) + 1) h.(new_V) h.(ct_) h.(reports) h.(rands))
  else if negb (w =? fzero)%F && (w' =? fzero)%F then
    Ok (e, mkH p h.(push_count) (h.(new_w) - 1) h.(new_V) h.(ct_) h.(reports) h.(rands))
  else Ok (e, h).

(** One iteration of [UpdateV]; [ow] and [ocg] are where [w] and [cg] point. *)
Definition adagrad_step (v : Embedding F) (ow ocg : nat) (g : list F) (st : list F * list F) (i : nat)
  : outcome (list F * list F) :=
  let '(w, cg) := st in
  gi ← read_at g i;
  wi ← read_at w (ow + i);
  ci ← read_at cg (ocg + i);
  let grad := (gi + v.(V_lambda_l2) * wi)%F in
  let ci := fsqrt (ci * ci + grad * grad)%F in
  cg ← write_at cg (ocg + i) ci;
  let eta := (v.(V_alpha) / (ci + v.(V_beta)))%F in
  w ← write_at w (ow + i) (wi - eta * grad)%F;
  Ok (w, cg).

(** [UpdateV(val.w + 1, val.sqc_grad + 2, recv.data + 1, recv.size - 1)] *)
Definition UpdateV (g : list F) (e : AdaGradEntry F) (h : HState F) : outcome (AdaGradEntry F) :=
  match e.(mem) with
  | Heap w cg =>
      '(w, cg) ← foldM (adagrad_step h.(params).(V) 1 2 g) (seq 0 (length g)) (w, cg);
      Ok (mkEntry e.(fea_cnt) e.(size) (Heap w cg))
  | _ => Fail OutOfRange
  end.

(** [(unsigned) x]: undefined when the truncated value does not fit. *)
Definition to_unsigned (x : F) : outcome Z :=
  if decide (0 <= ftoZ x < 2 ^ 32)%Z then Ok (ftoZ x) else Fail OutOfRange.

(** [Push(key, recv, val)]; [recv[0]] is checked. *)
Definition Push_ (key : Z) (recv : list F) (e : AdaGradEntry F) (h : HState F)
  : outcome (AdaGradEntry F * HState F) :=
  if h.(push_count) then
    match recv with
    | [] => Fail CheckFailed
    | c :: _ =>
        c ← to_unsigned c;
        Resize (mkEntry (u32 (e.(fea_cnt) + c)) e.(size) e.(mem)) h
    end
  else
    _ ← check (bool_decide (length recv <= e.(size)));
    match recv with
    | [] => Fail CheckFailed
    | g :: gs =>
        '(e, h) ← UpdateW g e h;
        if decide (1 < length recv) then e ← UpdateV gs e h; Ok (e, h) else Ok (e, h)
    end.

(** [Pull(key, val, send)] *)
Definition Pull_ (key : Z) (e : AdaGradEntry F) (send : nat) (h : HState F) : outcome (Blob F) :=
  w0 ← w_0 e;
  if bool_decide (e.(size) = 1) || (h.(params).(shrk) && (w0 =? fzero)%F) then
    _ ← check (bool_decide (0 < send));
    Ok (InPlace [w0])
  else
    match e.(mem) with
    | Heap w _ => Ok (External (take e.(size) w))
    | _ => Fail OutOfRange
    end.

#[export] Instance AdaGradHandle : Handle (AdaGradEntry F) F (HState F) := {|
  e_default := new_entry;
  v_default := fzero;
  Start := Start_;
  Finish := Finish_;
  Push := Push_;
  Pull := Pull_
|}.

#[export] Instance AdaGradEntryIO : EntryIO (AdaGradEntry F) (HState F) := {|
  eEmpty e := match Empty e with Ok b => b | Fail _ => false end;
  eSave T _ e fo := entry_Save e fo;
  eLoad T _ e h fi := entry_Load e h fi
|}.

(** ** [AsyncServer] *)

(** The parameters the constructor sets. *)
Definition embedding_params (conf : Config F) : Embedding F :=
  match conf.(embedding) with
  | c :: _ =>
      mkEmb c.(c_dim) (u32 c.(c_threshold)) c.(c_lambda_l2)
        (default conf.(lr_eta) c.(c_lr_eta)) (default conf.(lr_beta) c.(c_lr_beta))
        (fneg c.(c_init_scale)) c.(c_init_scale)
  | [] => mkEmb 0 0 fzero fzero fone fzero fzero
  end.

Definition new_handle (conf : Config F) (num_servers : Z) : HState F :=
  mkH (mkParams conf.(lambda_l1) conf.(lambda_l2) conf.(lr_eta) conf.(lr_beta)
         (embedding_params conf) conf.(l1_shrk) true num_servers)
      false 0 0 0 [] 0.

(** [OnlineServer] with one thread and values of length 1. *)
Definition AsyncServer (conf : Config F) (num_servers : Z) : Store (AdaGradEntry F) (HState F) :=
  mkStore ∅ (new_handle conf num_servers) 1.

(** [LoadModel(fi)] *)
Definition LoadModel {T} `{Stream T} (fuel : nat) (s : Store (AdaGradEntry F) (HState F)) (fi : T)
  : outcome (option (Store (AdaGradEntry F) (HState F))) :=
  r ← Load fuel s fi;
  Ok (s ← r; let h := s.(handle_) in
      Some (mkStore s.(data_)
        (mkH h.(params) h.(push_count) 0 0 h.(ct_) (h.(reports) ++ [(h.(new_w), h.(new_V))]) h.(rands))
        s.(k_))).

End AdaGrad.

(** ** The invariant of an entry *)

Section EntryLemmas.
Context {F : Type} `{!Float F}.

(** One value kept in the pointers, or arrays of the lengths [size] says. *)
Definition entry_ok (e : AdaGradEntry F) : Prop :=
  match e.(mem) with
  | Inline _ hi _ _ => e.(size) = 1 /\ length hi = 4
  | Heap w cg => 2 <= e.(size) /\ length w = e.(size) /\ length cg = e.(size) + 1
  | Null => False
  end.

(** The three values every entry has. *)
Definition w_of (e : AdaGradEntry F) : F :=
  match e.(mem) with Inline w _ _ _ => w | Heap w _ => default fzero (w !! 0) | Null => fzero end.
Definition cg_of (e : AdaGradEntry F) : F :=
  match e.(mem) with Inline _ _ cg _ => cg | Heap _ cg => default fzero (cg !! 0) | Null => fzero end.
Definition z_of (e : AdaGradEntry F) : F :=
  match e.(mem) with Inline _ _ _ z => z | Heap _ cg => default fzero (cg !! 1) | Null => fzero end.

(** The embedding of an entry. *)
Definition V_of (e : AdaGradEntry F) : list F :=
  match e.(mem) with Heap w _ => drop 1 w | _ => [] end.

(** The cumulative gradients of the embedding. *)
Definition Vcg_of (e : AdaGradEntry F) : list F :=
  match e.(mem) with Heap _ cg => drop 2 cg | _ => [] end.

Lemma read_at_default (l : list F) i x : i < length l -> read_at l i = Ok (default x (l !! i)).
Proof. intros [y Hy]%lookup_lt_is_Some_2. unfold read_at. by rewrite Hy. Qed.

(** Case analysis on a well-formed entry. *)
Ltac entry_cases e H :=
  destruct e as [fc sz [w0 hi cg0 z0|w cg|]]; unfold entry_ok in H; simpl in H;
  [destruct H as [-> ?]|destruct H as (? & ? & ?)|done].

Lemma w_0_ok e : entry_ok e -> w_0 e = Ok (w_of e).
Proof.
  intros H. entry_cases e H; unfold w_0, w_of; simpl; [done|].
  rewrite decide_False by lia. apply read_at_default. lia.
Qed.

Lemma sqc_grad_0_ok e : entry_ok e -> sqc_grad_0 e = Ok (cg_of e).
Proof.
  intros H. entry_cases e H; unfold sqc_grad_0, cg_of; simpl; [done|].
  rewrite decide_False by lia. apply read_at_default. lia.
Qed.

Lemma z_0_ok e : entry_ok e -> z_0 e = Ok (z_of e).
Proof.
  intros H. entry_cases e H; unfold z_0, z_of; simpl; [done|].
  rewrite decide_False by lia. apply read_at_default. lia.
Qed.

(** An assignment changes one of the three values and nothing else. *)
Definition same_but (e e' : AdaGradEntry F) (w cg z : F) : Prop :=
  entry_ok e' /\ size e' = size e /\ fea_cnt e' = fea_cnt e /\ V_of e' = V_of e /\ Vcg_of e' = Vcg_of e /\
  w_of e' = w /\ cg_of e' = cg /\ z_of e' = z.

Ltac assignment :=
  intros x e H; entry_cases e H; eexists;
  [split; [reflexivity|]
  |split; [unfold set_w_0, set_sqc_grad_0, set_z_0; simpl; rewrite decide_False by lia;
           rewrite write_at_lt by lia; reflexivity|]];
  unfold same_but, entry_ok, w_of, cg_of, z_of, V_of, Vcg_of; simpl;
  rewrite ?length_insert, ?drop_insert_lt, ?list_lookup_insert_eq, ?list_lookup_insert_ne by lia;
  split_and!; (done || lia).

Lemma set_w_0_ok : forall x e, entry_ok e ->
  exists e', set_w_0 x e = Ok e' /\ same_but e e' x (cg_of e) (z_of e).
Proof. assignment. Qed.

Lemma set_sqc_grad_0_ok : forall x e, entry_ok e ->
  exists e', set_sqc_grad_0 x e = Ok e' /\ same_but e e' (w_of e) x (z_of e).
Proof. assignment. Qed.

Lemma set_z_0_ok : forall x e, entry_ok e ->
  exists e', set_z_0 x e = Ok e' /\ same_but e e' (w_of e) (cg_of e) x.
Proof. assignment. Qed.

(** *** Growing an entry *)

Context (junk : F) (rand : nat -> Z).

Lemma memcpy_ok n (old new : list F) :
  n <= length old -> n <= length new -> memcpy n old new = Ok (take n old ++ drop n new).
Proof.
  intros H1 H2. unfold memcpy. rewrite decide_True by done. f_equal.
  apply list_eq. intros i. destruct (decide (i < n)).
  - rewrite list_lookup_inserts by (rewrite ?length_take; lia).
    rewrite lookup_app_l by (rewrite length_take; lia). by rewrite Nat.sub_0_r.
  - rewrite list_lookup_inserts_ge by (rewrite ?length_take; lia).
    rewrite lookup_app_r by (rewrite length_take; lia). rewrite length_take, lookup_drop. f_equal. lia.
Qed.

Lemma entry_Resize_ok n e :
  entry_ok e -> 2 <= n -> e.(size) < n ->
  exists w cg, entry_Resize junk n e = Ok (mkEntry e.(fea_cnt) n (Heap w cg)) /\
    length w = n /\ length cg = n + 1 /\
    take e.(size) w = w_of e :: V_of e /\
    take 2 cg = [cg_of e; z_of e] /\
    (forall w0 cg0, e.(mem) = Heap w0 cg0 -> take (e.(size) + 1) cg = cg0).
Proof.
  intros H Hn Hs. entry_cases e H; unfold entry_Resize; simpl in Hs; simpl (size _); simpl (mem _).
  - rewrite decide_False by lia. rewrite decide_True by done.
    rewrite w_0_ok, sqc_grad_0_ok, z_0_ok by done. cbn [mbind outcome_bind].
    rewrite (write_at_lt (replicate n junk)) by (rewrite length_replicate; lia). cbn [mbind outcome_bind].
    rewrite (write_at_lt (replicate (n + 1) junk)) by (rewrite length_replicate; lia). cbn [mbind outcome_bind].
    rewrite write_at_lt by (rewrite length_insert, length_replicate; lia). cbn [mbind outcome_bind].
    eexists _, _. split; [reflexivity|]. rewrite !length_insert, !length_replicate.
    split_and!; try lia; [| |done].
    + destruct n as [|n]; [lia|]. done.
    + destruct n as [|[|n]]; [lia|lia|]. done.
  - rewrite decide_False by lia. rewrite decide_False by lia.
    rewrite memcpy_ok by (rewrite ?length_replicate; lia). cbn [mbind outcome_bind].
    rewrite memcpy_ok by (rewrite ?length_replicate; lia). cbn [mbind outcome_bind].
    eexists _, _. split; [reflexivity|].
    rewrite !length_app, !length_take, !length_drop, !length_replicate. simpl.
    split_and!; try lia.
    + rewrite take_app_le by (rewrite length_take; lia). rewrite take_take, Nat.min_id, take_ge by lia.
      unfold w_of, V_of. simpl. destruct w; simpl in *; [lia|done].
    + rewrite take_app_le by (rewrite length_take; lia). rewrite take_take, Nat.min_l by lia.
      unfold cg_of, z_of. simpl. destruct cg as [|a [|b cg]]; simpl in *; [lia..|done].
    + intros w0 cg0 [= <- <-]. rewrite take_app_le by (rewrite length_take; lia).
      rewrite take_take, Nat.min_id, take_ge by lia. done.
Qed.

(** The loop that fills the new part. *)
Lemma init_loop p old n (w cg : list F) r :
  old <= n -> length w = n -> length cg = n + 1 ->
  exists w' cg' r', foldM (init_step rand p) (seq old (n - old)) (w, cg, r) = Ok (w', cg', r') /\
    length w' = n /\ length cg' = n + 1 /\ take old w' = take old w /\ take (old + 1) cg' = take (old + 1) cg /\
    r' = r + (n - old).
Proof.
  intros Ho Hw Hc.
  destruct (foldM_seq (init_step rand p) (fun i st => let '(w', cg', r') := st in
    length w' = n /\ length cg' = n + 1 /\ take old w' = take old w /\ take (old + 1) cg' = take (old + 1) cg /\
    r' = r + (i - old)) old (n - old) (w, cg, r)) as ([[w' cg'] r'] & E & H).
  - split_and!; try done. lia.
  - intros i [[w1 cg1] r1] Hi (H1 & H2 & H3 & H4 & H5). unfold init_step.
    rewrite write_at_lt by lia. cbn [mbind outcome_bind]. rewrite write_at_lt by lia. cbn [mbind outcome_bind].
    eexists. split; [reflexivity|]. cbv beta iota. rewrite !length_insert, !take_insert_ge by lia. split_and!; try done. lia.
  - exists w', cg', r'. split; [done|]. destruct H as (H1 & H2 & H3 & H4 & H5). split_and!; try done. lia.
Qed.

(** What no update of the parameters touches. *)
Definition hsame (h h' : HState F) : Prop :=
  params h' = params h /\ push_count h' = push_count h /\ ct_ h' = ct_ h /\ reports h' = reports h.

(** 1 for a weight that is not zero; the length of the embedding. *)
Definition nz (e : AdaGradEntry F) : Z := if (w_of e =? fzero)%F then 0 else 1.
Definition vlen (e : AdaGradEntry F) : Z := Z.of_nat e.(size) - 1.

(** An update that keeps the entry well formed, never shrinks it and counts
    what it does. *)
Record tracked (e : AdaGradEntry F) (h : HState F) (e' : AdaGradEntry F) (h' : HState F) : Prop := {
  tr_ok : entry_ok e';
  tr_size : e.(size) <= e'.(size);
  tr_w : (new_w h' - nz e' = new_w h - nz e)%Z;
  tr_V : (new_V h' - vlen e' = new_V h - vlen e)%Z;
  tr_same : hsame h h'
}.

Lemma tracked_trans e h e1 h1 e2 h2 : tracked e h e1 h1 -> tracked e1 h1 e2 h2 -> tracked e h e2 h2.
Proof.
  intros [A1 A2 A3 A4 (A5 & A6 & A7 & A8)] [B1 B2 B3 B4 (B5 & B6 & B7 & B8)].
  split; [done|lia|lia|lia|]. unfold hsame. split_and!; congruence.
Qed.

(** When [Resize(val)] gives an entry its embedding. *)
Definition grows (p : Params F) (e : AdaGradEntry F) : bool :=
  bool_decide (p.(V).(thr) < e.(fea_cnt))%Z && bool_decide (e.(size) < p.(V).(dim) + 1) &&
  (negb p.(shrk) || negb (w_of e =? fzero)%F).

Lemma Resize_ok e h :
  entry_ok e -> exists e' h', Resize junk rand e h = Ok (e', h') /\
    tracked e h e' h' /\ new_w h' = new_w h /\ fea_cnt e' = fea_cnt e /\
    w_of e' = w_of e /\ cg_of e' = cg_of e /\ z_of e' = z_of e /\
    e'.(size) = (if grows h.(params) e then h.(params).(V).(dim) + 1 else e.(size)) /\
    take (length (V_of e)) (V_of e') = V_of e /\ take (length (Vcg_of e)) (Vcg_of e') = Vcg_of e.
Proof.
  intros He. unfold Resize. rewrite w_0_ok by done. cbn [mbind outcome_bind]. fold (grows h.(params) e).
  destruct (grows (params h) e) eqn:Hg; cycle 1.
  { exists e, h. split; [done|]. split_and!; try done; apply firstn_all. }
  unfold grows in Hg. apply andb_prop in Hg as [[_ Hs]%andb_prop _]. apply bool_decide_eq_true in Hs.
  assert (1 <= e.(size)) as H1 by (entry_cases e He; simpl; lia).
  destruct (entry_Resize_ok (dim (V (params h)) + 1) e He) as (w & cg & -> & Hw & Hc & Htw & Htc & Hcg); [lia..|].
  cbn [mbind outcome_bind mem size].
  destruct (init_loop (params h) (size e) (dim (V (params h)) + 1) w cg (rands h)) as
    (w' & cg' & r' & -> & Hw' & Hc' & Htw' & Htc' & _); [lia..|].
  cbn [mbind outcome_bind].
  assert (take 2 cg' = take 2 cg) as Ht2.
  { apply (f_equal (take 2)) in Htc'. rewrite !take_take, !Nat.min_l in Htc' by lia. done. }
  rewrite Htc in Ht2. rewrite Htw in Htw'.
  assert (w_of (mkEntry (fea_cnt e) (dim (V (params h)) + 1) (Heap w' cg')) = w_of e) as Hwo.
  { unfold w_of at 1. simpl. destruct (size e), w'; simpl in *; try lia; congruence. }
  eexists _, _. split; [reflexivity|]. split_and!; try done.
  - split; simpl; [unfold entry_ok; simpl; lia|lia| | |done].
    + unfold nz. by rewrite Hwo.
    + unfold vlen. simpl. lia.
  - unfold cg_of at 1. simpl. destruct cg' as [|a [|b cg']]; simpl in *; congruence.
  - unfold z_of at 1. simpl. destruct cg' as [|a [|b cg']]; simpl in *; congruence.
  - unfold V_of at 2. simpl. destruct (size e) as [|k]; [lia|]. destruct w' as [|a w']; [done|]. simpl in *.
    injection Htw' as _ Hv. rewrite <- Hv at 2. rewrite <- Hv at 1. rewrite length_take.
    rewrite drop_0. destruct (decide (k <= length w')).
    + by rewrite Nat.min_l.
    + rewrite Nat.min_r by lia. by rewrite firstn_all, take_ge by lia.
  - unfold Vcg_of. simpl. destruct (mem e) as [|w0 cg0|] eqn:Em; [done| |done].
    specialize (Hcg _ _ eq_refl). rewrite <- Hcg, <- Htc'. rewrite skipn_firstn_comm, length_take, length_drop.
    by rewrite Nat.min_l by lia.
Qed.

(** *** The updates *)

(** The gradient with its regulariser, the new cumulative gradient, the new
    [z] and the new weight of [UpdateW]. *)
Definition up_g (p : Params F) (g : F) (e : AdaGradEntry F) : F := (g + p.(h_lambda_l2) * w_of e)%F.
Definition up_cg (p : Params F) (g : F) (e : AdaGradEntry F) : F :=
  fsqrt (cg_of e * cg_of e + up_g p g e * up_g p g e)%F.
Definition up_z (p : Params F) (g : F) (e : AdaGradEntry F) : F :=
  (z_of e - (up_g p g e - (up_cg p g e - cg_of e) / p.(alpha) * w_of e))%F.
Definition up_w (p : Params F) (g : F) (e : AdaGradEntry F) : F :=
  ftrl p.(h_lambda_l1) ((p.(beta) + up_cg p g e) / p.(alpha))%F (up_z p g e).

Lemma UpdateW_ok g e h :
  entry_ok e -> exists e' h', UpdateW junk rand g e h = Ok (e', h') /\ tracked e h e' h' /\
    w_of e' = up_w h.(params) g e /\ cg_of e' = up_cg h.(params) g e /\ z_of e' = up_z h.(params) g e /\
    take (length (V_of e)) (V_of e') = V_of e /\ take (length (Vcg_of e)) (Vcg_of e') = Vcg_of e.
Proof.
  intros He. unfold UpdateW. rewrite w_0_ok, sqc_grad_0_ok by done. cbn [mbind outcome_bind].
  fold (up_g (params h) g e). fold (up_cg (params h) g e).
  destruct (set_sqc_grad_0_ok (up_cg (params h) g e) e He) as (e1 & -> & A1 & A2 & A3 & A4 & A8 & A5 & A6 & A7).
  cbn [mbind outcome_bind]. rewrite z_0_ok, A7 by done. cbn [mbind outcome_bind]. fold (up_z (params h) g e).
  destruct (set_z_0_ok (up_z (params h) g e) e1 A1) as (e2 & -> & B1 & B2 & B3 & B4 & B8 & B5 & B6 & B7).
  cbn [mbind outcome_bind]. rewrite z_0_ok, B7 by done. cbn [mbind outcome_bind]. fold (up_w (params h) g e).
  destruct (set_w_0_ok (up_w (params h) g e) e2 B1) as (e3 & -> & C1 & C2 & C3 & C4 & C8 & C5 & C6 & C7).
  cbn [mbind outcome_bind]. rewrite w_0_ok, C5 by done. cbn [mbind outcome_bind].
  assert (size e3 = size e) as Hsz by congruence. assert (V_of e3 = V_of e) as HV by congruence.
  assert (Vcg_of e3 = Vcg_of e) as HVc by congruence.
  assert (forall h', hsame h h' -> (new_w h' - nz e3 = new_w h - nz e)%Z -> new_V h' = new_V h ->
    tracked e h e3 h') as Htr.
  { intros h' Hh Hw Hv. split; [done|lia|done| |done]. unfold vlen. rewrite Hsz. lia. }
  unfold nz in Htr. rewrite C5 in Htr.
  destruct (w_of e =? fzero)%F eqn:E0, (up_w (params h) g e =? fzero)%F eqn:E1; simpl.
  - exists e3, h. split; [done|]. split; [apply Htr; (done || lia)|]. split_and!; try congruence;
    rewrite ?HV, ?HVc; apply firstn_all.
  - destruct (Resize_ok e3 (mkH (params h) (push_count h) (new_w h + 1) (new_V h) (ct_ h) (reports h) (rands h)) C1)
      as (e4 & h4 & -> & Ht & _ & _ & D1 & D2 & D3 & _ & D4 & D5).
    exists e4, h4. split; [done|]. split.
    + eapply tracked_trans; [|exact Ht]. apply Htr; simpl; (done || lia).
    + split_and!; try congruence.
  - eexists e3, _. split; [reflexivity|]. split; [apply Htr; simpl; (done || lia)|].
    split_and!; try congruence; rewrite ?HV, ?HVc; apply firstn_all.
  - exists e3, h. split; [done|]. split; [apply Htr; (done || lia)|]. split_and!; try congruence;
    rewrite ?HV, ?HVc; apply firstn_all.
Qed.

(** Element [j] of the embedding after [UpdateV] with gradient [g]. *)
Definition ada_cg (v : Embedding F) (g w cg : F) : F :=
  let grad := (g + v.(V_lambda_l2) * w)%F in fsqrt (cg * cg + grad * grad)%F.
Definition ada_w (v : Embedding F) (g w cg : F) : F :=
  (w - v.(V_alpha) / (ada_cg v g w cg + v.(V_beta)) * (g + v.(V_lambda_l2) * w))%F.

(** [f] applied to the elements that have a gradient. *)
Definition with_grad (f : F -> F -> F -> F) (g x w cg : list F) (j : nat) : option F :=
  match g !! j, w !! j, cg !! j with
  | Some gj, Some wj, Some cj => Some (f gj wj cj)
  | _, _, _ => x !! j
  end.

Lemma adagrad_loop v g (w cg : list F) :
  length g + 1 <= length w -> length cg = length w + 1 ->
  exists w' cg', foldM (adagrad_step v 1 2 g) (seq 0 (length g)) (w, cg) = Ok (w', cg') /\
    length w' = length w /\ length cg' = length cg /\ take 1 w' = take 1 w /\ take 2 cg' = take 2 cg /\
    (forall j, drop 1 w' !! j = with_grad (ada_w v) g (drop 1 w) (drop 1 w) (drop 2 cg) j) /\
    (forall j, drop 2 cg' !! j = with_grad (ada_cg v) g (drop 2 cg) (drop 1 w) (drop 2 cg) j).
Proof.
  intros Hw Hc.
  destruct (foldM_seq (adagrad_step v 1 2 g) (fun i st =>
    length st.1 = length w /\ length st.2 = length cg /\ take 1 st.1 = take 1 w /\ take 2 st.2 = take 2 cg /\
    (forall j, drop 1 st.1 !! j = with_grad (ada_w v) (take i g) (drop 1 w) (drop 1 w) (drop 2 cg) j) /\
    (forall j, drop 2 st.2 !! j = with_grad (ada_cg v) (take i g) (drop 2 cg) (drop 1 w) (drop 2 cg) j))
    0 (length g) (w, cg)) as ([w' cg'] & E & H).
  - done.
  - intros i [w1 cg1] Hi (A1 & A2 & A3 & A4 & A5 & A6). cbn [fst snd] in *. unfold adagrad_step.
    destruct (lookup_lt_is_Some_2 g i) as [gi Hgi]; [lia|].
    destruct (lookup_lt_is_Some_2 w (1 + i)) as [wi Hwi]; [lia|].
    destruct (lookup_lt_is_Some_2 cg (2 + i)) as [ci Hci]; [lia|].
    assert (w1 !! (1 + i) = Some wi) as Hw1.
    { specialize (A5 i). rewrite lookup_drop in A5. rewrite A5. unfold with_grad.
      rewrite lookup_take_ge, lookup_drop by lia. done. }
    assert (cg1 !! (2 + i) = Some ci) as Hc1.
    { specialize (A6 i). rewrite lookup_drop in A6. rewrite A6. unfold with_grad.
      rewrite lookup_take_ge, lookup_drop by lia. done. }
    rewrite (proj2 (read_at_Ok g i gi) Hgi). cbn [mbind outcome_bind].
    rewrite (proj2 (read_at_Ok w1 (1 + i) wi) Hw1). cbn [mbind outcome_bind].
    rewrite (proj2 (read_at_Ok cg1 (2 + i) ci) Hc1). cbn [mbind outcome_bind].
    rewrite write_at_lt by lia. cbn [mbind outcome_bind]. rewrite write_at_lt by lia.
    cbn [mbind outcome_bind]. eexists. split; [reflexivity|]. cbn [fst snd].
    rewrite !length_insert, !take_insert_ge by lia.
    assert (forall (f : F -> F -> F -> F) x j, with_grad f (take (i + 1) g) x (drop 1 w) (drop 2 cg) j =
      if decide (j = i) then Some (f gi wi ci) else with_grad f (take i g) x (drop 1 w) (drop 2 cg) j) as Hstep.
    { intros f x j. unfold with_grad. rewrite !lookup_drop. case_decide as Hj.
      - subst j. rewrite lookup_take_lt, Hgi by lia. rewrite Hwi, Hci. done.
      - destruct (decide (j < i)); [by rewrite !lookup_take_lt by lia|]. by rewrite !lookup_take_ge by lia. }
    split_and!; try done.
    + intros j. rewrite Hstep, lookup_drop. case_decide as Hj.
      * subst j. by rewrite list_lookup_insert_eq by lia.
      * rewrite list_lookup_insert_ne by lia. by rewrite <- A5, lookup_drop.
    + intros j. rewrite Hstep, lookup_drop. case_decide as Hj.
      * subst j. by rewrite list_lookup_insert_eq by lia.
      * rewrite list_lookup_insert_ne by lia. by rewrite <- A6, lookup_drop.
  - exists w', cg'. split; [done|]. cbn [fst snd] in H. by rewrite Nat.add_0_l, firstn_all in H.
Qed.

Lemma UpdateV_ok g e h :
  entry_ok e -> g <> [] -> length g + 1 <= e.(size) ->
  exists e', UpdateV g e h = Ok e' /\ entry_ok e' /\ size e' = size e /\ fea_cnt e' = fea_cnt e /\
    w_of e' = w_of e /\ cg_of e' = cg_of e /\ z_of e' = z_of e /\
    (forall j, V_of e' !! j = with_grad (ada_w h.(params).(V)) g (V_of e) (V_of e) (Vcg_of e) j) /\
    (forall j, Vcg_of e' !! j = with_grad (ada_cg h.(params).(V)) g (Vcg_of e) (V_of e) (Vcg_of e) j).
Proof.
  intros He Hg Hs. assert (0 < length g) by (destruct g; simpl in *; [done|lia]).
  unfold UpdateV. entry_cases e He; simpl in Hs; [lia|]. cbn [mem fea_cnt size].
  destruct (adagrad_loop (V (params h)) g w cg) as (w' & cg' & -> & A1 & A2 & A3 & A4 & A5 & A6); [lia..|].
  cbn [mbind outcome_bind]. eexists. split; [reflexivity|].
  unfold entry_ok, w_of, cg_of, z_of, V_of, Vcg_of. simpl (mem _). simpl (size _). simpl (fea_cnt _).
  split; [lia|]. split_and!; try done.
  - destruct w, w'; simpl in *; try lia; congruence.
  - destruct cg as [|? [|? ?]], cg' as [|? [|? ?]]; simpl in *; try lia; congruence.
  - destruct cg as [|? [|? ?]], cg' as [|? [|? ?]]; simpl in *; try lia; congruence.
Qed.

(** What a push may send to an entry. *)
Definition recv_ok (h : HState F) (recv : list F) (n : nat) : Prop :=
  if h.(push_count) then match recv with c :: _ => (0 <= ftoZ c < 2 ^ 32)%Z | [] => False end
  else 0 < length recv <= n.

Lemma Push_ok key recv e h :
  entry_ok e -> recv_ok h recv e.(size) ->
  exists e' h', Push_ junk rand key recv e h = Ok (e', h') /\ tracked e h e' h'.
Proof.
  intros He Hr. unfold Push_, recv_ok in *. destruct (push_count h).
  - destruct recv as [|c recv]; [done|]. unfold to_unsigned. rewrite decide_True by done. cbn [mbind outcome_bind].
    destruct (Resize_ok (mkEntry (u32 (fea_cnt e + ftoZ c)) (size e) (mem e)) h) as (e' & h' & -> & [] & _).
    { exact He. }
    exists e', h'. split; [done|]. by split.
  - rewrite check_true by (apply bool_decide_eq_true; lia). cbn [mbind outcome_bind].
    destruct recv as [|g gs]; simpl in Hr; [lia|].
    destruct (UpdateW_ok g e h He) as (e1 & h1 & -> & Ht & _). cbn [mbind outcome_bind].
    case_decide as Hl; [|by exists e1, h1]. simpl in Hl.
    destruct (UpdateV_ok gs e1 h1) as (e2 & -> & B1 & B2 & B3 & B4 & _).
    { apply Ht. }
    { intros ->. simpl in Hl. lia. }
    { pose proof (tr_size _ _ _ _ Ht). simpl in *. lia. }
    cbn [mbind outcome_bind]. exists e2, h1. split; [done|].
    eapply tracked_trans; [exact Ht|]. split; [done|lia| | |done].
    + unfold nz. by rewrite B4.
    + unfold vlen. by rewrite B2.
Qed.

(** The values a pull sends. *)
Definition sent (p : Params F) (e : AdaGradEntry F) : list F :=
  if bool_decide (e.(size) = 1) || (p.(shrk) && (w_of e =? fzero)%F) then [w_of e] else w_of e :: V_of e.

Lemma Pull_ok key e n h :
  entry_ok e -> 1 <= n ->
  exists b, Pull_ key e n h = Ok b /\ blob_data b = sent h.(params) e /\
    match b with InPlace ws => length ws <= n | External _ => True end.
Proof.
  intros He Hn. unfold Pull_, sent. rewrite w_0_ok by done. cbn [mbind outcome_bind].
  destruct (bool_decide (size e = 1) || _) eqn:Eb.
  - rewrite check_true by (apply bool_decide_eq_true; lia). simpl. eexists. split; [done|]. done.
  - apply orb_false_iff in Eb as [Eb _]. apply bool_decide_eq_false in Eb.
    entry_cases e He; simpl in *; [done|]. eexists. split; [done|]. split; [|done].
    simpl. rewrite take_ge by lia. unfold w_of, V_of. simpl. destruct w; simpl in *; [lia|done].
Qed.

Lemma sent_length p e : entry_ok e -> 0 < length (sent p e) <= e.(size).
Proof.
  intros He. unfold sent, V_of. entry_cases e He; simpl.
  - lia.
  - case_match; simpl; rewrite ?length_drop; lia.
Qed.

End EntryLemmas.

(** ** The statistics of a store *)

Section Server.
Context {F : Type} `{HF : !Float F} (junk : F) (rand : nat -> Z).
#[local] Instance hdl : Handle (AdaGradEntry F) F (HState F) := AdaGradHandle junk rand.
Implicit Types (d : gmap Z (AdaGradEntry F)) (h : HState F) (s : Store (AdaGradEntry F) (HState F)).

(** Comparisons with zero find zero. *)
Hypothesis zero_eq : feqb (fzero (F := F)) fzero = true.

Lemma new_entry_ok : entry_ok (new_entry (F := F)).
Proof. done. Qed.

Lemma nz_new : nz (new_entry (F := F)) = 0%Z.
Proof. unfold nz, w_of. simpl. by rewrite zero_eq. Qed.

Definition store_ok d : Prop := map_Forall (fun _ e => entry_ok e) d.

Lemma at_ok d key : store_ok d -> entry_ok (at_ d key).
Proof.
  intros Hd. unfold at_. destruct (d !! key) as [e|] eqn:Ee; simpl; [|apply new_entry_ok].
  by apply (Hd key).
Qed.

Lemma store_ok_insert d key e : store_ok d -> entry_ok e -> store_ok (<[ key := e ]> d).
Proof. intros. by apply map_Forall_insert_2. Qed.

(** All that was reported so far. *)
Definition reported (h : HState F) : Z * Z :=
  (foldr (fun r a => r.1 + a)%Z 0%Z h.(reports), foldr (fun r a => r.2 + a)%Z 0%Z h.(reports)).

Lemma foldr_snoc_add (f : Z * Z -> Z) l r :
  foldr (fun r a => f r + a)%Z 0%Z (l ++ [r]) = (foldr (fun r a => f r + a)%Z 0%Z l + f r)%Z.
Proof. induction l as [|x l IH]; simpl; [lia|]. rewrite IH. lia. Qed.

(** A push that succeeds was an acceptable one. *)
Lemma Push_Ok_inv key recv e h e' h' :
  entry_ok e -> Push_ junk rand key recv e h = Ok (e', h') -> tracked e h e' h'.
Proof.
  intros He Hp. assert (recv_ok h recv e.(size)) as Hr.
  { unfold Push_, recv_ok in *. destruct (push_count h).
    - destruct recv as [|c recv]; [done|]. unfold to_unsigned in Hp. by case_decide.
    - ok_inv. repeat match goal with H : bool_decide _ = true |- _ => apply bool_decide_eq_true in H end.
      destruct recv; [done|]. simpl in *. lia. }
  destruct (Push_ok junk rand key recv e h He Hr) as (e1 & h1 & Ep & Ht). congruence.
Qed.

(** The two counters count the non-zero weights and the embeddings. *)
Lemma counts_w : counting entry_ok (fun h => fst (reported h) + new_w h)%Z nz.
Proof.
  split; [apply new_entry_ok|apply nz_new|done| |].
  - intros h. simpl. unfold Finish_, Report. case_match; simpl; [|done]. rewrite (foldr_snoc_add fst). simpl. lia.
  - intros key v e h e' h' He Hp. destruct (Push_Ok_inv _ _ _ _ _ _ He Hp) as [? ? ? ? (_ & _ & _ & T8)].
    split; [done|]. unfold reported. rewrite T8. lia.
Qed.

Lemma counts_V : counting entry_ok (fun h => snd (reported h) + new_V h)%Z vlen.
Proof.
  split; [apply new_entry_ok|done|done| |].
  - intros h. simpl. unfold Finish_, Report. case_match; simpl; [|done]. rewrite (foldr_snoc_add snd). simpl. lia.
  - intros key v e h e' h' He Hp. destruct (Push_Ok_inv _ _ _ _ _ _ He Hp) as [? ? ? ? (_ & _ & _ & T8)].
    split; [done|]. unfold reported. rewrite T8. lia.
Qed.

(** *** Entries never shrink *)

Definition larger d d' : Prop := forall key, size (at_ d key) <= size (at_ d' key).

Lemma larger_insert d0 d key e : larger d0 d -> size (at_ d key) <= size e -> larger d0 (<[ key := e ]> d).
Proof.
  intros Hl Hs key'. specialize (Hl key'). unfold at_ at 2. rewrite lookup_insert.
  case_decide; simpl; subst; [lia|done].
Qed.

Lemma HandlePush_larger d0 s m s' :
  store_ok s.(data_) -> larger d0 s.(data_) -> HandlePush s m = Ok s' ->
  store_ok s'.(data_) /\ larger d0 s'.(data_).
Proof.
  intros Hok Hl. unfold HandlePush. simpl (Start _ _ _).
  set (I := fun st : gmap Z (AdaGradEntry F) * HState F * list F => store_ok st.1.1 /\ larger d0 st.1.1).
  assert (forall d h key recv e' h', I (d, h, recv) -> Push_ junk rand key recv (at_ d key) h = Ok (e', h') ->
    store_ok (<[ key := e' ]> d) /\ larger d0 (<[ key := e' ]> d)) as Hstep.
  { intros d h key recv e' h' [H1 H2] Hp. destruct (Push_Ok_inv _ _ _ _ _ _ (at_ok d key H1) Hp).
    split; [by apply store_ok_insert|by apply larger_insert]. }
  case_match; [|case_match].
  - destruct (m_value m) as [val|]; [|done]. destruct (m_size m) as [sz|]; [|done]. intros Hp. ok_inv.
    match goal with a : _ * _ * _ |- _ => destruct a as [[d h] v] end. ok_inv.
    change (I (d, h, v)). eapply (foldM_inv push_dyn_step I); [|clear -Hstep|eassumption]; [done|].
    intros [[d1 h1] v1] [key k] [[d2 h2] v2] Hi _. unfold push_dyn_step. destruct (decide (k = 0)); [by intros [= <- <- <-]|].
    simpl. destruct (Push_ junk rand key (take k v1) (at_ d1 key) h1) as [[e3 h3]|] eqn:Ep; [|done]. simpl.
    intros [= <- <- <-]. eapply Hstep; [|exact Ep]. exact Hi.
  - destruct (m_value m) as [val|]; [|done]. destruct (m_size m) as [sz|]; [done|]. intros Hp. ok_inv.
    match goal with a : _ * _ * _ |- _ => destruct a as [[d h] v] end. ok_inv.
    change (I (d, h, v)). eapply (foldM_inv (push_step _) I); [|clear -Hstep|eassumption]; [done|].
    intros [[d1 h1] v1] key [[d2 h2] v2] Hi _. unfold push_step. simpl.
    destruct (Push_ junk rand key (take _ v1) (at_ d1 key) h1) as [[e3 h3]|] eqn:Ep; [|done]. simpl.
    intros [= <- <- <-]. eapply Hstep; [|exact Ep]. exact Hi.
  - by intros [= <-].
Qed.

Lemma serve_larger d0 reqs s n s' out :
  store_ok s.(data_) -> larger d0 s.(data_) -> serve (fun _ => KVStoreSparseST) reqs s = Ok (n, s', out) ->
  store_ok s'.(data_) /\ larger d0 s'.(data_).
Proof.
  intros Hok Hl. apply (serve_inv (fun s => store_ok s.(data_) /\ larger d0 s.(data_))); [done|].
  clear. intros s push m s' r [Hok Hl]. unfold ProcessRequest. simpl. destruct push.
  - destruct (HandlePush s m) eqn:Ep; simpl; [|done]. intros [= <- <-].
    exact (HandlePush_larger d0 _ _ _ Hok Hl Ep).
  - destruct (HandlePull s m) as [[[s1 v] sz]|] eqn:Ep; simpl; [|done]. intros [= <- <-].
    destruct (HandlePull_inv s m s1 v sz Ep (fun d => store_ok d /\ larger d0 d)) as (Hd & _); try done.
    intros d key [H1 H2]. split; [by apply store_ok_insert, at_ok|by apply larger_insert].
Qed.

(** *** A gradient push for what was pulled *)

Lemma push_dyn_accepts l d h val :
  store_ok d -> push_count h = false -> sum_list l.*2 <= length val ->
  Forall (fun kn => kn.2 <= size (at_ d kn.1)) l ->
  exists st, foldM push_dyn_step l (d, h, val) = Ok st.
Proof.
  revert d h val. induction l as [|[key k] l IH]; intros d h val Hd Hh Hv Hl; [by eexists|].
  apply Forall_cons in Hl as [Hk Hl]. cbn [foldM] in *. simpl in Hk.
  change (k + sum_list l.*2 <= length val) in Hv.
  destruct (decide (k = 0)) as [->|Hk0]; [by apply IH|].
  destruct (Push_ok junk rand key (take k val) (at_ d key) h) as (e' & h' & Ep & Ht).
  { by apply at_ok. }
  { unfold recv_ok. rewrite Hh, length_take. lia. }
  assert (push_dyn_step (d, h, val) (key, k) = Ok (<[ key := e' ]> d, h', drop k val)) as ->.
  { unfold push_dyn_step. rewrite decide_False by done. simpl. by rewrite Ep. }
  cbn [mbind outcome_bind]. destruct Ht as [T1 T2 _ _ (_ & T6 & _)].
  apply IH.
  - by apply store_ok_insert.
  - by rewrite T6.
  - rewrite length_drop. lia.
  - eapply Forall_impl; [exact Hl|]. intros kn Hkn. etransitivity; [exact Hkn|].
    apply (larger_insert d d key e'); [intros ?; lia|lia].
Qed.

Lemma pulls_sent h : pulls entry_ok 1 h (sent h.(params)).
Proof. split. intros key e len He Hl. by apply Pull_ok. Qed.

End Server.

(** ** The servers are correct *)

(** C22: after any sequence of pushes and pulls the counters, added to all that
    was reported to the scheduler, are the number of non-zero weights and the
    total length of the embeddings in the store. *)
Theorem counters_track_model {F} `{HF : !Float F} junk rand (conf : Config F) ns reqs n s out :
  feqb (fzero (F := F)) fzero = true ->
  serve (fun _ => @KVStoreSparseST _ _ _ (AdaGradHandle junk rand)) reqs (AsyncServer conf ns) = Ok (n, s, out) ->
  let h := s.(handle_) in
  (fst (reported h) + new_w h = msum nz s.(data_))%Z /\
  (snd (reported h) + new_V h = msum vlen s.(data_))%Z /\
  forall key e, s.(data_) !! key = Some e -> entry_ok e.
Proof.
  intros Hz Hs.
  destruct (serve_counted _ _ _ reqs (AsyncServer conf ns) n s out (counts_w junk rand Hz)) with (2 := Hs) as [Hok Hw].
  { split; [apply map_Forall_empty|done]. }
  destruct (serve_counted _ _ _ reqs (AsyncServer conf ns) n s out (counts_V junk rand)) with (2 := Hs) as [_ HV].
  { split; [apply map_Forall_empty|done]. }
  done.
Qed.

(** A configuration in IEEE single precision: no regularisers, embeddings of
    length 2 after the second occurrence of a feature. *)
Definition ex_conf : Config SpecFloat.spec_float :=
  let f := fofZ (Float := binary32) in
  mkConfig (f 0%Z) (f 0%Z) (f 1%Z) (f 1%Z) false
    [mkEmbConf 2 1 (f 0%Z) None (f 1%Z) None (f 0%Z) (f 0%Z) (f 0%Z)] 1
    false false None (f 0%Z) false false 0.

Definition ex_handle : Handle _ _ _ := @AdaGradHandle _ binary32 (fofZ (Float := binary32) 7) (fun n => Z.of_nat n * 1000)%Z.

Definition ex_reqs : list (bool * Message SpecFloat.spec_float) :=
  let f := fofZ (Float := binary32) in
  [(true, mkMsg 1 [5; 8]%Z false (Some [f 2%Z; f 1%Z]) None);
   (false, mkMsg 0 [5; 8]%Z true None None);
   (true, mkMsg 0 [5; 8]%Z true (Some [f 1%Z; f 2%Z; f 3%Z; f 1%Z]) (Some [3; 1]))].

Lemma counters_track_model_witness :
  exists n s out,
    serve (fun _ => @KVStoreSparseST _ _ _ ex_handle) ex_reqs (@AsyncServer _ binary32 ex_conf 2) = Ok (n, s, out) /\
    (reports (handle_ s) = [(0, 2)] /\ new_w (handle_ s) = 2 /\ msum (@nz _ binary32) s.(data_) = 2)%Z /\
    (fst (reported (handle_ s)) + new_w (handle_ s) = msum (@nz _ binary32) s.(data_))%Z.
Proof.
  destruct (serve (fun _ => @KVStoreSparseST _ _ _ ex_handle) ex_reqs (@AsyncServer _ binary32 ex_conf 2))
    as [[[n s] out]|] eqn:Es; [|vm_compute in Es; discriminate].
  exists n, s, out. split; [reflexivity|]. split.
  - vm_compute in Es. injection Es as <- <- <-. vm_compute. done.
  - exact (proj1 (counters_track_model (HF := binary32) _ _ ex_conf 2 ex_reqs n s out eq_refl Es)).
Defined.

Lemma push_back_accepted {F} `{HF : !Float F} junk rand
    (s : Store (AdaGradEntry F) (HState F)) cmd keys s1 val sizes reqs n s2 out cmd' g :
  let _ := AdaGradHandle junk rand in
  store_ok s.(data_) -> s.(k_) = 1 ->
  HandlePull s (mkMsg cmd keys true None None) = Ok (s1, val, Some sizes) ->
  serve (fun _ => KVStoreSparseST) reqs s1 = Ok (n, s2, out) ->
  length g = length val -> cmd' <> kPushFeaCnt ->
  exists s3, HandlePush s2 (mkMsg cmd' keys true (Some g) (Some sizes)) = Ok s3.
Proof.
  intros hd Hok Hk Hpull Hserve Hg Hcmd.
  destruct (HandlePull_dyn_spec entry_ok s (mkMsg cmd keys true None None)
    (sent (Start_ false cmd s.(handle_)).(params)) eq_refl) as (d & Ep & Hd).
  { intros key. by apply (at_ok junk rand). }
  { rewrite Hk. apply (pulls_sent junk rand). }
  rewrite Ep in Hpull. simpl in Hpull. injection Hpull as <- <- <-.
  assert (store_ok d) as Hok1.
  { destruct (HandlePull_inv _ _ _ _ _ Ep store_ok Hok) as (Hd1 & _); [|done].
    intros d1 key Hd1. apply store_ok_insert; [done|]. by apply (at_ok junk rand). }
  assert (larger junk rand s.(data_) d) as Hl1 by (intros key; by rewrite Hd).
  destruct (serve_larger junk rand s.(data_) reqs (mkStore d _ _) n s2 out Hok1 Hl1 Hserve) as [Hok2 Hl].
  unfold HandlePush. simpl (m_dyn _). simpl (m_key _). simpl (m_value _). simpl (m_size _).
  rewrite bool_decide_decide. destruct (decide (length keys = 0)) as [H0|H0]; [by eexists|].
  simpl (true && _). cbv iota.
  rewrite (check_true (bool_decide (_ = length keys))) by (apply bool_decide_eq_true; by rewrite length_map). cbn [mbind outcome_bind].
  rewrite check_true by (apply bool_decide_eq_true; rewrite Hg, length_concat_sum, map_map; done).
  cbn [mbind outcome_bind].
  destruct (push_dyn_accepts junk rand (zip keys (map (fun key => length (sent (params (Start_ false cmd (handle_ s))) (at_ (data_ s) key))) keys))
    s2.(data_) (Start_ true cmd' s2.(handle_)) g) as ([[d3 h3] v3] & E3).
  - done.
  - simpl. by rewrite bool_decide_eq_false_2.
  - rewrite snd_zip by (rewrite length_map; lia). rewrite Hg, length_concat_sum, map_map. done.
  - apply Forall_lookup. intros i [key k] Hi. rewrite lookup_zip_with_Some in Hi.
    destruct Hi as (key' & k' & [= <- <-] & Hi1 & Hi2). rewrite list_lookup_fmap, Hi1 in Hi2. simpl in *.
    injection Hi2 as <-. etransitivity; [|apply Hl]. apply sent_length. by apply (at_ok junk rand).
  - match goal with |- exists s3, mbind _ ?e = _ => assert (e = Ok (d3, h3, v3)) as -> by exact E3 end.
    cbn [mbind outcome_bind]. by eexists.
Qed.

(** C4: a worker that pulled weights can always push the gradients for them:
    whatever the server answered in between, the push of as many values per key
    as were pulled passes every check. *)
Theorem gradient_push_accepted {F} `{HF : !Float F} junk rand
    (s : Store (AdaGradEntry F) (HState F)) cmd keys s1 val sizes reqs n s2 out cmd' g :
  let _ := AdaGradHandle junk rand in
  store_ok s.(data_) -> s.(k_) = 1 ->
  HandlePull s (mkMsg cmd keys true None None) = Ok (s1, val, Some sizes) ->
  serve (fun _ => KVStoreSparseST) reqs s1 = Ok (n, s2, out) ->
  length g = length val -> cmd' <> kPushFeaCnt ->
  exists s3, HandlePush s2 (mkMsg cmd' keys true (Some g) (Some sizes)) = Ok s3.
Proof. apply push_back_accepted. Qed.

Lemma gradient_push_accepted_witness :
  let f := fofZ (Float := binary32) in
  let _ := ex_handle in
  exists s s1 val n s2 out s3,
    serve (fun _ => KVStoreSparseST) (take 1 ex_reqs) (@AsyncServer _ binary32 ex_conf 2) = Ok (1, s, []) /\
    HandlePull s (mkMsg 0 [5; 8]%Z true None None) = Ok (s1, val, Some [3; 1]) /\
    serve (fun _ => KVStoreSparseST) ex_reqs s1 = Ok (n, s2, out) /\
    HandlePush s2 (mkMsg 0 [5; 8]%Z true (Some val) (Some [3; 1])) = Ok s3.
Proof.
  intros f hd.
  destruct (serve (fun _ => KVStoreSparseST) (take 1 ex_reqs) (@AsyncServer _ binary32 ex_conf 2))
    as [[[n0 s] o]|] eqn:E0; [|vm_compute in E0; discriminate].
  assert (n0 = 1 /\ o = []) as [-> ->] by (vm_compute in E0; by injection E0 as <- _ <-).
  assert (store_ok s.(data_)) as Hok.
  { apply (serve_larger (HF := binary32) (f 7%Z) (fun n => Z.of_nat n * 1000)%Z ∅ (take 1 ex_reqs)
      (@AsyncServer _ binary32 ex_conf 2) 1 s [] (map_Forall_empty _) ltac:(intros key; apply Nat.le_refl) E0). }
  assert (s.(k_) = 1) as Hk by (vm_compute in E0; by injection E0 as <-).
  destruct (HandlePull s (mkMsg 0 [5; 8]%Z true None None)) as [[[s1 val] sizes]|] eqn:E1;
    [|exfalso; vm_compute in E0; injection E0 as <-; vm_compute in E1; discriminate].
  assert (sizes = Some [3; 1]) as ->.
  { vm_compute in E0; injection E0 as <-; vm_compute in E1; by injection E1 as _ _ <-. }
  destruct (serve (fun _ => KVStoreSparseST) ex_reqs s1) as [[[n s2] out]|] eqn:E2;
    [|exfalso; vm_compute in E0; injection E0 as <-; vm_compute in E1; injection E1 as <- _;
      vm_compute in E2; discriminate].
  destruct (gradient_push_accepted (HF := binary32) (f 7%Z) (fun n => Z.of_nat n * 1000)%Z
    s 0 [5; 8]%Z s1 val [3; 1] ex_reqs n s2 out 0 val Hok Hk E1 E2 eq_refl) as [s3 E3]; [done|].
  exists s, s1, val, n, s2, out, s3. done.
Defined.

(** What a gradient push does to an entry that is large enough: the weight,
    the cumulative gradient and [z] take one FTRL step, every element of the
    embedding that has a gradient one AdaGrad step, and an entry never shrinks. *)
Theorem Push_gradient_correct {F} `{HF : !Float F} junk rand key (g : F) gs e h :
  entry_ok e -> push_count h = false -> length gs < size e ->
  exists e' h', Push_ junk rand key (g :: gs) e h = Ok (e', h') /\
    let p := h.(params) in
    w_of e' = up_w p g e /\ cg_of e' = up_cg p g e /\ z_of e' = up_z p g e /\
    (forall j, j < length gs -> V_of e' !! j = with_grad (ada_w p.(V)) gs [] (V_of e) (Vcg_of e) j) /\
    size e <= size e' /\ entry_ok e'.
Proof.
  intros He Hc Hs. unfold Push_. rewrite Hc.
  rewrite check_true by (apply bool_decide_eq_true; simpl; lia). cbn [mbind outcome_bind].
  destruct (UpdateW_ok junk rand g e h He) as (e1 & h1 & -> & Ht & A1 & A2 & A3 & A4 & A5).
  cbn [mbind outcome_bind]. destruct Ht as [T1 T2 _ _ (T5 & _)].
  case_decide as Hl; simpl in Hl; cycle 1.
  { exists e1, h1. split; [done|]. split_and!; try done. intros j Hj. lia. }
  destruct (UpdateV_ok gs e1 h1 T1) as (e2 & -> & B1 & B2 & B3 & B4 & B5 & B6 & B7 & _).
  { intros ->. simpl in *. lia. }
  { lia. }
  cbn [mbind outcome_bind]. exists e2, h1. split; [done|]. split_and!; try congruence.
  intros j Hj. rewrite B7, T5. unfold with_grad.
  destruct (lookup_lt_is_Some_2 gs j Hj) as [gj ->].
  assert (length gs <= length (V_of e) /\ length gs <= length (Vcg_of e)) as [L1 L2].
  { destruct e as [fc sz [|w cg|]]; unfold entry_ok in He; simpl in *; [lia| |done].
    unfold V_of, Vcg_of. simpl. rewrite !length_drop. lia. }
  rewrite <- A4, <- A5, !lookup_take_lt by (rewrite ?length_take; lia).
  destruct (lookup_lt_is_Some_2 (V_of e1) j) as [v ->]; [|].
  { apply (f_equal length) in A4. rewrite length_take in A4. lia. }
  destruct (lookup_lt_is_Some_2 (Vcg_of e1) j) as [c ->]; [|done].
  apply (f_equal length) in A5. rewrite length_take in A5. lia.
Qed.

Lemma Push_gradient_correct_witness :
  let f := fofZ (Float := binary32) in
  let e := mkEntry 5 3 (Heap [f 1; f 2; f 3] [f 0; f 0; f 0; f 0])%Z in
  let h := @new_handle _ binary32 ex_conf 2 in
  exists e' h', @Push_ _ binary32 (f 0%Z) (fun _ => 0%Z) 9 [f 1; f 4]%Z e h = Ok (e', h') /\
    entry_ok e' /\ size e' = 3 /\ V_of e' !! 0 = Some (@ada_w _ binary32 h.(params).(V) (f 4) (f 2) (f 0))%Z.
Proof.
  intros f e h.
  destruct (Push_gradient_correct (HF := binary32) (f 0%Z) (fun _ => 0%Z) 9 (f 1%Z) [f 4%Z] e h)
    as (e' & h' & Ep & _ & _ & _ & HV & Hs & Hok).
  - unfold entry_ok. simpl. lia.
  - done.
  - simpl. lia.
  - exists e', h'. split; [exact Ep|]. split; [done|].
    split; [|rewrite HV by (simpl; lia); reflexivity].
    vm_compute in Ep. by injection Ep as <- _.
Defined.

(** A push of feature counts gives an entry an embedding exactly when its
    count then exceeds the threshold (an entry that has one keeps it), and with
    [l1_shrk] only if the weight is not zero; weights are not changed. *)
Theorem Push_count_correct {F} `{HF : !Float F} junk rand key (c : F) cs e h :
  entry_ok e -> push_count h = true -> (0 <= ftoZ c < 2 ^ 32)%Z ->
  exists e' h', Push_ junk rand key (c :: cs) e h = Ok (e', h') /\
    let p := h.(params) in
    fea_cnt e' = ((fea_cnt e + ftoZ c) mod 2 ^ 32)%Z /\
    w_of e' = w_of e /\ cg_of e' = cg_of e /\ z_of e' = z_of e /\
    take (length (V_of e)) (V_of e') = V_of e /\
    size e' = (if decide (p.(V).(thr) < fea_cnt e')%Z then
                 if p.(shrk) && (w_of e =? fzero)%F then size e else Nat.max (size e) (p.(V).(dim) + 1)
               else size e) /\
    length (V_of e') = size e' - 1.
Proof.
  intros He Hc Hr. unfold Push_. rewrite Hc. unfold to_unsigned. rewrite decide_True by done.
  cbn [mbind outcome_bind].
  destruct (Resize_ok junk rand (mkEntry (u32 (fea_cnt e + ftoZ c)) (size e) (mem e)) h) as
    (e' & h' & -> & Ht & _ & B1 & B2 & B3 & B4 & B5 & B6 & _); [exact He|].
  exists e', h'. split; [done|]. simpl (fea_cnt _) in *. rewrite <- u32_mod. split_and!; try done.
  - rewrite B5, B1. unfold grows. simpl. change (w_of (mkEntry _ _ (mem e))) with (w_of e).
    rewrite !bool_decide_decide. destruct (decide (thr (V (params h)) < _)%Z); simpl; [|done].
    destruct (decide (size e < _)); destruct (shrk (params h)), (w_of e =? fzero)%F; simpl; try done; lia.
  - destruct Ht as [Hok _ _ _ _]. clear -Hok. destruct e' as [fc sz [|w cg|]]; unfold entry_ok, V_of in *; simpl in *.
    + lia.
    + rewrite length_drop. lia.
    + done.
Qed.

Lemma Push_count_correct_witness :
  let f := fofZ (Float := binary32) in
  let h := Start_ true kPushFeaCnt (@new_handle _ binary32 ex_conf 2) in
  exists e1 h1 e2 h2,
    @Push_ _ binary32 (f 0%Z) (fun _ => 0%Z) 9 [f 1%Z] (@new_entry _ binary32) h = Ok (e1, h1) /\ size e1 = 1 /\
    @Push_ _ binary32 (f 0%Z) (fun _ => 0%Z) 9 [f 1%Z] e1 h1 = Ok (e2, h2) /\ size e2 = 3.
Proof.
  intros f h.
  destruct (Push_count_correct (HF := binary32) (f 0%Z) (fun _ => 0%Z) 9 (f 1%Z) [] (@new_entry _ binary32) h)
    as (e1 & h1 & E1 & C1 & _ & _ & _ & _ & S1 & _).
  - done.
  - done.
  - vm_compute. split; [discriminate|reflexivity].
  - rewrite C1 in S1. assert (size e1 = 1) as Hs1 by (rewrite S1; reflexivity). clear S1.
    assert (entry_ok e1 /\ push_count h1 = true /\ fea_cnt e1 = 1%Z /\ params h1 = params h) as (O1 & P1 & F1 & A1).
    { vm_compute in E1. injection E1 as <- <-. done. }
    destruct (Push_count_correct (HF := binary32) (f 0%Z) (fun _ => 0%Z) 9 (f 1%Z) [] e1 h1)
      as (e2 & h2 & E2 & C2 & _ & _ & _ & _ & S2 & _); [done..|vm_compute; split; [discriminate|reflexivity]|].
    exists e1, h1, e2, h2. split; [exact E1|]. split; [exact Hs1|]. split; [exact E2|].
    rewrite S2, C2, F1, A1, Hs1. reflexivity.
Defined.

(** ** Saving and loading the model *)

Section ModelIO.
Context {F : Type} `{HF : !Float F} `{PF : !Pod F} `{!PodLaws F}.
Hypothesis float_size : pod_size (A := F) = 4.
Context (junk : F) (rand : nat -> Z).
#[local] Instance hdl_io : Handle (AdaGradEntry F) F (HState F) := AdaGradHandle junk rand.

(** An entry that can be saved: well formed, of a size an [int] holds. *)
Definition entry_fits (e : AdaGradEntry F) : Prop :=
  entry_ok e /\ (Z.of_nat (size e) < 2 ^ 31)%Z /\
  match e.(mem) with
  | Inline w _ cg z => pod_valid w /\ pod_valid cg /\ pod_valid z
  | Heap w cg => Forall pod_valid w /\ Forall pod_valid cg
  | Null => False
  end.

Definition entry_enc (e : AdaGradEntry F) : list byte :=
  pod_bytes (Pod := pod_int 4) (Z.of_nat (size e)) ++
  match e.(mem) with
  | Inline w hi cg z => (pod_bytes w ++ hi) ++ pod_bytes cg ++ pod_bytes z
  | Heap w cg => pod_memory w ++ pod_memory cg
  | Null => []
  end.

(** What comes back: all but the count of occurrences. *)
Definition reloaded (e : AdaGradEntry F) : AdaGradEntry F := mkEntry 0 e.(size) e.(mem).

Definition counted (e : AdaGradEntry F) (h : HState F) : HState F :=
  mkH h.(params) h.(push_count) (h.(new_w) + nz e) (h.(new_V) + vlen e) h.(ct_) h.(reports) h.(rands).

Lemma read_floats_spec {T} `{StreamLaws T} (v : list F) (s : T) r :
  Forall pod_valid v -> sok s -> unread s = pod_memory v ++ r ->
  exists s', read_floats (length v) s = Ok (v, s') /\ unread s' = r /\ sok s'.
Proof.
  intros Hv Hs Hu. unfold read_floats.
  destruct (Read_prefix (pod_memory v) r s (pod_size (A := F) * length v) Hs Hu) as (s' & -> & Hu' & Hs').
  { rewrite pod_memory_length. lia. }
  cbn [mbind outcome_bind]. rewrite decide_True by (rewrite pod_memory_length; lia).
  rewrite pod_elems_memory by done. by eexists.
Qed.

Lemma size_read {T} `{StreamLaws T} n (s : T) r :
  (Z.of_nat n < 2 ^ 31)%Z -> sok s -> unread s = pod_bytes (Pod := pod_int 4) (Z.of_nat n) ++ r ->
  exists s', read_pod (pod_int 4) s = Ok (Z.of_nat n, s') /\ unread s' = r /\ sok s'.
Proof.
  intros Hn Hs Hu. apply (read_pod_spec (pod_int 4)); [apply (pod_int_laws 3)| |done|done].
  simpl. lia.
Qed.

Lemma entry_Save_spec {T} `{StreamLaws T} e (s : T) n :
  entry_fits e -> sok s -> room s (length (entry_enc e) + n) ->
  exists s', entry_Save e s = Ok s' /\ written s' = written s ++ entry_enc e /\ room s' n /\ sok s'.
Proof.
  intros (He & Hsz & Hv) Hs Hr. unfold entry_Save, entry_enc in *. rewrite !length_app in Hr.
  rewrite <- Nat.add_assoc in Hr.
  destruct (write_pod_spec (pod_int 4) (Z.of_nat (size e)) s _ Hs Hr) as (s1 & -> & Hw1 & Hr1 & Hs1).
  cbn [mbind outcome_bind].
  destruct e as [fc sz [w hi cg z|w cg|]]; unfold entry_ok in He; simpl in *; [| |done].
  - destruct He as [-> Hhi]. simpl. rewrite !length_app in Hr1.
    destruct (Write_append (pod_bytes w ++ hi) s1 (length (pod_bytes cg) + length (pod_bytes z) + n) Hs1)
      as (s2 & -> & Hw2 & Hr2 & Hs2); [by rewrite length_app, !Nat.add_assoc in *|].
    cbn [mbind outcome_bind].
    destruct (Write_append (pod_bytes cg ++ pod_bytes z) s2 n Hs2) as (s3 & -> & Hw3 & Hr3 & Hs3);
      [by rewrite length_app|].
    exists s3. split; [done|]. split; [|done]. rewrite Hw3, Hw2, Hw1. by rewrite <- !app_assoc.
  - destruct He as (Hz & Hw & Hc). rewrite decide_False by lia. rewrite decide_True by lia.
    rewrite !take_ge by lia. rewrite length_app in Hr1.
    destruct (Write_append (pod_memory w) s1 (length (pod_memory cg) + n) Hs1)
      as (s2 & -> & Hw2 & Hr2 & Hs2); [by rewrite Nat.add_assoc in *|].
    cbn [mbind outcome_bind].
    destruct (Write_append (pod_memory cg) s2 n Hs2 Hr2) as (s3 & -> & Hw3 & Hr3 & Hs3).
    exists s3. split; [done|]. split; [|done]. rewrite Hw3, Hw2, Hw1. by rewrite <- !app_assoc.
Qed.

Lemma entry_Load_spec {T} `{StreamLaws T} e h (s : T) r :
  entry_fits e -> sok s -> unread s = entry_enc e ++ r ->
  exists s', entry_Load (new_entry (F := F)) h s = Ok (reloaded e, counted e h, s') /\ unread s' = r /\ sok s'.
Proof.
  intros (He & Hsz & Hv) Hs Hu. unfold entry_Load, entry_enc in *. rewrite <- app_assoc in Hu.
  destruct (size_read (size e) s _ Hsz Hs Hu) as (s1 & -> & Hu1 & Hs1). cbn [mbind outcome_bind].
  assert (forall e', entry_ok e' -> w_of e' = w_of e ->
    (if negb (w_of e' =? fzero)%F then (new_w h + 1)%Z else new_w h) = (new_w h + nz e)%Z) as Hnw.
  { intros e' _ Ew. unfold nz. rewrite Ew. destruct (_ =? _)%F; simpl; lia. }
  destruct e as [fc sz [w hi cg z|w cg|]]; unfold entry_ok in He; simpl in *; [| |done].
  - destruct He as [-> Hhi]. destruct Hv as (Hv1 & Hv2 & Hv3). simpl. rewrite <- app_assoc in Hu1.
    assert (length (pod_bytes w ++ hi) = 8) as L1 by (rewrite length_app, pod_bytes_length; lia).
    assert (length (pod_bytes cg ++ pod_bytes z) = 8) as L2 by (rewrite length_app, !pod_bytes_length; lia).
    destruct (Read_prefix (pod_bytes w ++ hi) _ s1 8 Hs1 Hu1) as (s2 & -> & Hu2 & Hs2); [done|].
    cbn [mbind outcome_bind].
    destruct (Read_prefix (pod_bytes cg ++ pod_bytes z) r s2 8 Hs2) as (s3 & -> & Hu3 & Hs3); [done|done|].
    cbn [mbind outcome_bind]. rewrite decide_True by done. cbn [mbind outcome_bind].
    rewrite !take_app_length', !drop_app_length' by (rewrite pod_bytes_length; lia).
    rewrite !pod_of_bytes by done.
    exists s3. split; [|done]. unfold w_0. simpl. unfold reloaded, counted, vlen, nz, w_of. simpl.
    do 4 f_equal; [|lia]. destruct (w =? fzero)%F; simpl; lia.
  - destruct He as (Hz & Hw & Hc). destruct Hv as [Hv1 Hv2]. rewrite decide_False by lia.
    rewrite check_true by (apply bool_decide_eq_true; lia). cbn [mbind outcome_bind]. rewrite Nat2Z.id.
    rewrite <- app_assoc in Hu1. subst sz.
    destruct (read_floats_spec w s1 _ Hv1 Hs1 Hu1) as (s2 & -> & Hu2 & Hs2). cbn [mbind outcome_bind].
    rewrite <- Hc.
    destruct (read_floats_spec cg s2 r Hv2 Hs2 Hu2) as (s3 & -> & Hu3 & Hs3). cbn [mbind outcome_bind].
    exists s3. split; [|done]. rewrite w_0_ok by (unfold entry_ok; simpl; lia). cbn [mbind outcome_bind].
    rewrite Hnw; [done|unfold entry_ok; simpl; lia|done].
Qed.

Lemma AdaGradEntry_laws : entry_laws (H := HState F) entry_enc entry_fits reloaded counted.
Proof.
  split.
  - intros T ? ? e s n. apply entry_Save_spec.
  - intros T ? ? e h s r. apply entry_Load_spec.
Qed.

Lemma eEmpty_spec e : entry_ok e ->
  eEmpty (EntryIO := AdaGradEntryIO) e = (w_of e =? fzero)%F && bool_decide (size e = 1).
Proof. intros He. simpl. unfold Empty. by rewrite w_0_ok. Qed.

(** Loading counts what is in the model. *)
Lemma counted_saved (d : gmap Z (AdaGradEntry F)) it h :
  it ≡ₚ map_to_list d -> Forall (pair_ok entry_fits) it ->
  let h' := foldl (fun h kv => counted kv.2 h) h (saved it) in
  new_w h' = (new_w h + msum nz d)%Z /\ new_V h' = (new_V h + msum vlen d)%Z /\
  params h' = params h /\ reports h' = reports h.
Proof.
  intros Hit Hok. assert (forall f, msum f d = foldr (fun kv a => f kv.2 + a)%Z 0%Z it) as Hm.
  { intros f. unfold msum. rewrite map_fold_foldr.
    transitivity (foldr (fun kv a => f kv.2 + a)%Z 0%Z (map_to_list d)).
    { clear. induction (map_to_list d) as [|[k e] l IH]; simpl; [done|]. by rewrite IH. }
    symmetry in Hit. clear -Hit. induction Hit; simpl; lia. }
  rewrite !Hm. clear Hm Hit. revert h. induction Hok as [|[key e] it [_ (He & _)] Hok IH]; intros h.
  { simpl. split_and!; try done; lia. }
  unfold saved in *. rewrite filter_cons. cbn [snd foldr] in *. rewrite eEmpty_spec by done.
  case_decide as Hd; cbn [foldl snd].
  - destruct (IH (counted e h)) as (-> & -> & -> & ->). simpl. split_and!; try done; lia.
  - destruct (IH h) as (-> & -> & -> & ->). apply not_false_is_true, andb_prop in Hd as [Hw Hs].
    apply bool_decide_eq_true in Hs. unfold nz at 2, vlen at 2. rewrite Hw, Hs. split_and!; try done; lia.
Qed.

End ModelIO.

(** C40: a model saved by a server and loaded into a new one has the same
    weights and embeddings with their state, and the new server reports the
    number of non-zero weights and the length of the embeddings.  Entries that
    are empty are not saved, and the counts of occurrences start again at zero. *)
Theorem model_roundtrip {F T} `{HF : !Float F} `{PF : !Pod F} `{!PodLaws F} `{StreamLaws T} junk rand
    (s : Store (AdaGradEntry F) (HState F)) conf ns it (fo : T) :
  let _ := AdaGradHandle junk rand in
  pod_size (A := F) = 4 -> it ≡ₚ map_to_list s.(data_) -> Forall (pair_ok entry_fits) it ->
  sok fo -> written fo = [] -> (forall n, room fo n) ->
  exists fo', Save it fo = Ok fo' /\
    forall fuel, length it < fuel -> exists s',
      LoadModel junk rand fuel (AsyncServer conf ns) (MemoryStringStream.mk (written fo') 0) = Ok (Some s') /\
      (forall key, s'.(data_) !! key =
         e ← s.(data_) !! key; if eEmpty e then None else Some (mkEntry 0 e.(size) e.(mem))) /\
      s'.(handle_).(reports) = [(msum nz s.(data_), msum vlen s.(data_))] /\
      new_w s'.(handle_) = 0%Z /\ new_V s'.(handle_) = 0%Z.
Proof.
  intros hd Hsz Hit Hok Hfo Hw Hr.
  destruct (Store_save_load_generic entry_enc entry_fits reloaded counted (mkStore s.(data_) s.(handle_) 1)
    (new_handle conf ns) it fo (AdaGradEntry_laws Hsz junk rand) Hit Hok Hfo Hw Hr) as (fo' & Es & Hl).
  exists fo'. split; [exact Es|]. intros fuel Hf. destruct (Hl fuel Hf) as (s1 & E1 & Hd & Hh).
  destruct (counted_saved Hsz s.(data_) it (new_handle conf ns) Hit Hok) as (C1 & C2 & C3 & C4).
  rewrite <- Hh in *. unfold LoadModel.
  match goal with |- exists s', mbind _ ?e = _ /\ _ => assert (e = Ok (Some s1)) as -> by exact E1 end.
  eexists. split; [reflexivity|]. simpl. rewrite C1, C2, C4. done.
Qed.

(** Integers in place of floating point, for an example that computes. *)
Definition Zfloat : Float Z := {|
  fzero := 0; fone := 1; fadd := Z.add; fsub := Z.sub; fmul := Z.mul; fdiv := Z.div; fneg := Z.opp;
  fsqrt := Z.sqrt; feqb := Z.eqb; fltb := Z.ltb; fleb := Z.leb; fofZ := fun z => z; ftoZ := fun z => z |}%Z.

Lemma model_roundtrip_witness :
  let _ := Zfloat in let _ := pod_int 4 in let _ := AdaGradHandle 0%Z (fun _ => 0%Z) in
  let it := [(3, mkEntry 9 3 (Heap [5; 6; 7] [1; 2; 3; 4])); (4, mkEntry 2 1 (Inline 0 [Byte.x00; Byte.x00; Byte.x00; Byte.x00] 1 1))]%Z in
  let s := mkStore (list_to_map it) (new_handle (mkConfig 0 0 1 1 false [] 1 false false None 0 false false 0)%Z 1) 1 in
  exists fo', Save it (MemoryStringStream.mk [] 0) = Ok fo' /\
    exists s', LoadModel 0%Z (fun _ => 0%Z) 10 (AsyncServer (mkConfig 0 0 1 1 false [] 1 false false None 0 false false 0)%Z 1)
                 (MemoryStringStream.mk (written fo') 0) = Ok (Some s') /\
      s'.(handle_).(reports) = [(1, 2)]%Z /\ s'.(data_) !! 4%Z = None /\
      s'.(data_) !! 3%Z = Some (mkEntry 0 3 (Heap [5; 6; 7] [1; 2; 3; 4]))%Z.
Proof.
  intros HF PF hd it s.
  destruct (model_roundtrip (HF := HF) (PF := PF) (T := MemoryStringStream.t) (PodLaws0 := pod_int_laws 3)
    0%Z (fun _ => 0%Z) s (mkConfig 0 0 1 1 false [] 1 false false None 0 false false 0)%Z 1 it (MemoryStringStream.mk [] 0))
    as (fo' & Es & Hl).
  - reflexivity.
  - vm_compute. apply Permutation_refl || apply Permutation_swap.
  - repeat constructor; simpl; try lia; unfold entry_ok; simpl; lia.
  - simpl. lia.
  - reflexivity.
  - done.
  - exists fo'. split; [exact Es|]. destruct (Hl 10) as (s' & E' & Hd & Hr & _); [simpl; lia|].
    exists s'. split; [exact E'|]. rewrite !Hd, Hr. split; [reflexivity|]. split; reflexivity.
Defined.
