(* ===== verification/Linear.v ===== *)
(** * Linear methods: the penalty and the servers

    Models src/src/linear/penalty.h and the server side of
    src/src/linear/async_sgd.h: the three updaters (SGD, AdaGrad, FTRL), their
    entries and [AsgdServer].  The optimality theorems are over the exact
    rationals and cover the FTRL step of src/src/difacto/async_sgd.h too. *)
From S2P Require Import Prelude Floats Stream Workload KVStore AdaGrad.
From Stdlib Require Import QArith Qabs Lqa.
Close Scope Q_scope.

(** ** [L1L2] *)

Module L1L2.
Section L1L2.
Context {F : Type} `{!Float F}.

Record t := mk { lambda1_ : F; lambda2_ : F }.

Definition empty : t := mk fzero fzero.

Definition set_lambda1 (lambda1 : F) (p : t) : outcome t :=
  _ ← check (fleb fzero lambda1); Ok (mk lambda1 p.(lambda2_)).

Definition set_lambda2 (lambda2 : F) (p : t) : outcome t :=
  _ ← check (fleb fzero lambda2); Ok (mk p.(lambda1_) lambda2).

(** [Solve(z, eta)]: soft thresholding. *)
Definition Solve (p : t) (z eta : F) : outcome F :=
  _ ← check (fltb fzero eta);
  if fleb z p.(lambda1_) && fleb (fneg p.(lambda1_)) z then Ok fzero
  else Ok ((if fltb fzero z then z - p.(lambda1_) else z + p.(lambda1_)) / (eta + p.(lambda2_)))%F.

End L1L2.
Arguments t F : clear implicits.
End L1L2.

(** ** [ISGDHandle] *)

(** The configuration (src/src/linear/config.proto). *)
Inductive Algo := SGD | ADAGRAD | FTRL.

Record LConfig (F : Type) := mkLConfig {
  l_algo : Algo; l_lambda_l1 : F; l_lambda_l2 : F; l_lr_eta : option F; l_lr_beta : option F }.
Arguments mkLConfig {F}.
Arguments l_algo {F}.
Arguments l_lambda_l1 {F}.
Arguments l_lambda_l2 {F}.
Arguments l_lr_eta {F}.
Arguments l_lr_beta {F}.

(** The handle; [t] and [eta] are the fields of [SGDHandle]. *)
Record LHandle (F : Type) := mkLH {
  penalty : L1L2.t F; l_alpha : F; l_beta : F; l_reporter : bool; l_new_w : Z;
  l_ct : Z; l_ns : Z; l_reports : list Z; t : Z; eta : F }.
Arguments mkLH {F}.
Arguments penalty {F}.
Arguments l_alpha {F}.
Arguments l_beta {F}.
Arguments l_reporter {F}.
Arguments l_new_w {F}.
Arguments l_ct {F}.
Arguments l_ns {F}.
Arguments l_reports {F}.
Arguments t {F}.
Arguments eta {F}.

Record LAdaGradEntry (F : Type) := mkLAda { a_w : F; a_sq_cum_grad : F }.
Arguments mkLAda {F}.
Arguments a_w {F}.
Arguments a_sq_cum_grad {F}.

Record FTRLEntry (F : Type) := mkFTRL { f_w : F; f_z : F; f_sq_cum_grad : F }.
Arguments mkFTRL {F}.
Arguments f_w {F}.
Arguments f_z {F}.
Arguments f_sq_cum_grad {F}.

Section Handles.
Context {F : Type} `{!Float F} `{PF : !Pod F}.

Definition with_new_w (n : Z) (h : LHandle F) : LHandle F :=
  mkLH h.(penalty) h.(l_alpha) h.(l_beta) h.(l_reporter) n h.(l_ct) h.(l_ns) h.(l_reports) h.(t) h.(eta).

(** [Finish()] *)
Definition LFinish (h : LHandle F) : LHandle F :=
  let ct := (h.(l_ct) + 1)%Z in
  if bool_decide (h.(l_ns) <= ct)%Z && h.(l_reporter) then
    mkLH h.(penalty) h.(l_alpha) h.(l_beta) h.(l_reporter) 0 0 h.(l_ns)
         (h.(l_reports) ++ [h.(l_new_w)]) h.(t) h.(eta)
  else
    mkLH h.(penalty) h.(l_alpha) h.(l_beta) h.(l_reporter) h.(l_new_w) ct h.(l_ns) h.(l_reports) h.(t) h.(eta).

(** [Update(cur_w, old_w)] *)
Definition Update (cur_w old_w : F) (h : LHandle F) : LHandle F :=
  if (old_w =? fzero)%F && negb (cur_w =? fzero)%F then with_new_w (h.(l_new_w) + 1) h
  else if negb (old_w =? fzero)%F && (cur_w =? fzero)%F then with_new_w (h.(l_new_w) - 1) h
  else h.

(** [grad[0]], a checked access. *)
Definition head (grad : list F) : outcome F :=
  match grad with g :: _ => Ok g | [] => Fail CheckFailed end.

(** [send[0] = w], which leaves the rest of the buffer as it is. *)
Definition LPull (w : F) (size : nat) : outcome (Blob F) :=
  _ ← check (bool_decide (0 < size)); Ok (InPlace (w :: replicate (size - 1) fzero)).

(** ** [SGDHandle] *)

Definition SGDStart (push : bool) (cmd : Z) (h : LHandle F) : LHandle F :=
  if push then
    mkLH h.(penalty) h.(l_alpha) h.(l_beta) h.(l_reporter) h.(l_new_w) h.(l_ct) h.(l_ns) h.(l_reports)
         (h.(t) + 1) ((h.(l_beta) + fsqrt (fofZ h.(t))) / h.(l_alpha))%F
  else h.

Definition SGDPush (key : Z) (grad : list F) (w : F) (h : LHandle F) : outcome (F * LHandle F) :=
  g ← head grad;
  w' ← L1L2.Solve h.(penalty) (h.(eta) * w - g)%F h.(eta);
  Ok (w', Update w' w h).

Definition SGDHandle : Handle F F (LHandle F) := {|
  e_default := fzero; v_default := fzero; Start := SGDStart; Finish := LFinish;
  Push := SGDPush; Pull _ w size _ := LPull w size |}.

(** ** [AdaGradHandle] *)

Definition LAdaPush (key : Z) (grad : list F) (val : LAdaGradEntry F) (h : LHandle F)
  : outcome (LAdaGradEntry F * LHandle F) :=
  g ← head grad;
  let sqrt_n := val.(a_sq_cum_grad) in
  let sq := fsqrt (sqrt_n * sqrt_n + g * g)%F in
  let eta := ((sq + h.(l_beta)) / h.(l_alpha))%F in
  let old_w := val.(a_w) in
  w ← L1L2.Solve h.(penalty) (eta * old_w - g)%F eta;
  Ok (mkLAda w sq, Update w old_w h).

Definition LAdaGradHandle : Handle (LAdaGradEntry F) F (LHandle F) := {|
  e_default := mkLAda fzero fzero; v_default := fzero; Start _ _ h := h; Finish := LFinish;
  Push := LAdaPush; Pull _ val size _ := LPull val.(a_w) size |}.

(** ** [FTRLHandle] *)

Definition FTRLPush (key : Z) (grad : list F) (val : FTRLEntry F) (h : LHandle F)
  : outcome (FTRLEntry F * LHandle F) :=
  g ← head grad;
  let sqrt_n := val.(f_sq_cum_grad) in
  let sq := fsqrt (sqrt_n * sqrt_n + g * g)%F in
  let old_w := val.(f_w) in
  let sigma := ((sq - sqrt_n) / h.(l_alpha))%F in
  let z := (val.(f_z) + (g - sigma * old_w))%F in
  w ← L1L2.Solve h.(penalty) (fneg z) ((h.(l_beta) + sq) / h.(l_alpha))%F;
  Ok (mkFTRL w z sq, Update w old_w h).

Definition FTRLHandle : Handle (FTRLEntry F) F (LHandle F) := {|
  e_default := mkFTRL fzero fzero fzero; v_default := fzero; Start _ _ h := h; Finish := LFinish;
  Push := FTRLPush; Pull _ val size _ := LPull val.(f_w) size |}.

(** ** Saving and loading the entries *)

(** [CHECK_EQ(fi->Read(&x, sizeof(float)), sizeof(float))] *)
Definition load_float {T} `{Stream T} (fi : T) : outcome (F * T) :=
  '(b, fi) ← Read (S := T) (pod_size (A := F)) fi;
  _ ← check (bool_decide (length b = pod_size (A := F)));
  Ok (pod_of b, fi).

Definition SGDEntryIO : EntryIO F (LHandle F) := {|
  eEmpty w := (w =? fzero)%F;
  eSave T _ w fo := Write (pod_bytes w) fo;
  eLoad T _ _ h fi := '(w, fi) ← load_float fi; Ok (w, Update w fzero h, fi) |}.

Definition LAdaGradEntryIO : EntryIO (LAdaGradEntry F) (LHandle F) := {|
  eEmpty e := (e.(a_w) =? fzero)%F;
  eSave T _ e fo := fo ← Write (pod_bytes e.(a_w)) fo; Write (pod_bytes e.(a_sq_cum_grad)) fo;
  eLoad T _ _ h fi :=
    '(w, fi) ← load_float fi; '(sq, fi) ← load_float fi; Ok (mkLAda w sq, Update w fzero h, fi) |}.

Definition FTRLEntryIO : EntryIO (FTRLEntry F) (LHandle F) := {|
  eEmpty e := (e.(f_w) =? fzero)%F;
  eSave T _ e fo :=
    fo ← Write (pod_bytes e.(f_w)) fo; fo ← Write (pod_bytes e.(f_z)) fo; Write (pod_bytes e.(f_sq_cum_grad)) fo;
  eLoad T _ _ h fi :=
    '(w, fi) ← load_float fi; '(z, fi) ← load_float fi; '(sq, fi) ← load_float fi;
    Ok (mkFTRL w z sq, Update w fzero h, fi) |}.

(** ** [AsgdServer] *)

(** The handle [CreateServer] makes; [tenth] is the default [0.1] of [alpha]. *)
Definition create_handle (tenth : F) (conf : LConfig F) (ns : Z) : outcome (LHandle F) :=
  p ← L1L2.set_lambda1 conf.(l_lambda_l1) L1L2.empty;
  p ← L1L2.set_lambda2 conf.(l_lambda_l2) p;
  Ok (mkLH p (default tenth conf.(l_lr_eta)) (default fone conf.(l_lr_beta)) true 0 0 ns [] 1 fzero).

Inductive AsgdServer :=
| SGDServer (s : Store F (LHandle F))
| AdaServer (s : Store (LAdaGradEntry F) (LHandle F))
| FTRLServer (s : Store (FTRLEntry F) (LHandle F)).

Definition new_AsgdServer (tenth : F) (conf : LConfig F) (ns : Z) : outcome AsgdServer :=
  h ← create_handle tenth conf ns;
  Ok match conf.(l_algo) with
     | SGD => SGDServer (mkStore ∅ h 1)
     | ADAGRAD => AdaServer (mkStore ∅ h 1)
     | FTRL => FTRLServer (mkStore ∅ h 1)
     end.

(** [LoadModel(fi)]: what follows [server_->Load(fi)]. *)
Definition report_loaded {E} (s : Store E (LHandle F)) : Store E (LHandle F) :=
  let h := s.(handle_) in
  mkStore s.(data_)
    (mkLH h.(penalty) h.(l_alpha) h.(l_beta) h.(l_reporter) 0 h.(l_ct) h.(l_ns)
          (h.(l_reports) ++ [h.(l_new_w)]) h.(t) h.(eta)) s.(k_).

Definition LLoadModel {T} `{Stream T} (fuel : nat) (s : AsgdServer) (fi : T) : outcome (option AsgdServer) :=
  match s with
  | SGDServer s =>
      r ← Load (Handle0 := SGDHandle) (H0 := SGDEntryIO) fuel s fi;
      Ok (s ← r; Some (SGDServer (report_loaded s)))
  | AdaServer s =>
      r ← Load (Handle0 := LAdaGradHandle) (H0 := LAdaGradEntryIO) fuel s fi;
      Ok (s ← r; Some (AdaServer (report_loaded s)))
  | FTRLServer s =>
      r ← Load (Handle0 := FTRLHandle) (H0 := FTRLEntryIO) fuel s fi;
      Ok (s ← r; Some (FTRLServer (report_loaded s)))
  end.

End Handles.
Arguments AsgdServer F : clear implicits.

(** ** Soft thresholding solves the proximal problem *)

Section Prox.
#[local] Open Scope Q_scope.

(** [0.5 * eta * (x - z / eta)^2 + l1 * |x| + 0.5 * l2 * x^2] *)
Definition prox (l1 l2 z eta x : Q) : Q :=
  (1 # 2) * eta * (x - z / eta) * (x - z / eta) + l1 * Qabs x + (1 # 2) * l2 * x * x.

Lemma Qsquare_nonneg (y : Q) : 0 <= y * y.
Proof.
  destruct (Qlt_le_dec y 0).
  - assert (y * y == (- y) * (- y)) as -> by ring. apply Qmult_le_0_compat; lra.
  - by apply Qmult_le_0_compat.
Qed.

(** The same up to a constant, without the division. *)
Definition quad (c l1 z x : Q) : Q := (1 # 2) * c * x * x - z * x + l1 * Qabs x.

Lemma prox_quad l1 l2 z eta x : 0 < eta ->
  prox l1 l2 z eta x == quad (eta + l2) l1 z x + (1 # 2) * (z / eta) * z.
Proof. intros He. unfold prox, quad. field. lra. Qed.

Lemma soft_zero c l1 z x : 0 < c -> - l1 <= z -> z <= l1 -> quad c l1 z 0 <= quad c l1 z x.
Proof.
  intros Hc H1 H2. unfold quad. change (Qabs 0) with 0.
  pose proof (Qle_Qabs x) as Hx. pose proof (Qle_Qabs (- x)) as Hx'. rewrite Qabs_opp in Hx'.
  set (a := Qabs x) in *. clearbody a.
  assert (0 <= (l1 - z) * (a + x)) by (apply Qmult_le_0_compat; lra).
  assert (0 <= (l1 + z) * (a - x)) by (apply Qmult_le_0_compat; lra).
  pose proof (Qsquare_nonneg x). assert (0 <= c * (x * x)) by (apply Qmult_le_0_compat; lra). lra.
Qed.

Lemma soft_pos c l1 z w x : 0 < c -> 0 <= l1 -> 0 < w -> c * w == z - l1 -> quad c l1 z w <= quad c l1 z x.
Proof.
  intros Hc Hl Hw Hz. unfold quad. rewrite (Qabs_pos w) by lra.
  pose proof (Qle_Qabs x) as Hx. set (a := Qabs x) in *. clearbody a.
  assert (z == c * w + l1) as -> by lra.
  clear Hz. assert (0 <= l1 * (a - x)) by (apply Qmult_le_0_compat; lra).
  pose proof (Qsquare_nonneg (x - w)).
  assert (0 <= c * ((x - w) * (x - w))) by (apply Qmult_le_0_compat; lra). lra.
Qed.

Lemma quad_opp c l1 z x : quad c l1 (- z) (- x) == quad c l1 z x.
Proof. unfold quad. rewrite Qabs_opp. ring. Qed.

Lemma soft_neg c l1 z w x : 0 < c -> 0 <= l1 -> w < 0 -> c * w == z + l1 -> quad c l1 z w <= quad c l1 z x.
Proof.
  intros Hc Hl Hw Hz. rewrite <- (quad_opp c l1 z w), <- (quad_opp c l1 z x).
  apply soft_pos; try done; lra.
Qed.

(** The value both thresholding functions compute. *)
Lemma soft_spec c l1 z w : 0 < c -> 0 <= l1 ->
  w = (if Qle_bool z l1 && Qle_bool (- l1) z then 0
       else (if negb (Qle_bool z 0) then z - l1 else z + l1) / c) ->
  forall x, quad c l1 z w <= quad c l1 z x.
Proof.
  intros Hc Hl -> x.
  destruct (Qle_bool z l1) eqn:E1; [apply Qle_bool_iff in E1|].
  - destruct (Qle_bool (- l1) z) eqn:E2; simpl; [apply Qle_bool_iff in E2; by apply soft_zero|].
    assert (z < - l1) as H2 by (apply Qnot_le_lt; intros H; apply Qle_bool_iff in H; congruence).
    assert (Qle_bool z 0 = true) as -> by (apply Qle_bool_iff; lra). simpl.
    apply soft_neg; try done; [|field; lra].
    apply Qlt_shift_div_r; [done|]. lra.
  - assert (l1 < z) as H1 by (apply Qnot_le_lt; intros H; apply Qle_bool_iff in H; congruence). simpl.
    assert (Qle_bool z 0 = false) as ->.
    { destruct (Qle_bool z 0) eqn:E0; [|done]. apply Qle_bool_iff in E0. lra. }
    simpl. apply soft_pos; try done; [|field; lra]. apply Qlt_shift_div_l; [done|]. lra.
Qed.

End Prox.

Lemma Solve_min (p : L1L2.t Q) (z eta : Q) :
  (0 < eta)%Q -> (0 <= L1L2.lambda1_ p)%Q -> (0 <= L1L2.lambda2_ p)%Q ->
  exists w, L1L2.Solve (Float0 := Qfloat) p z eta = Ok w /\
    forall x, (prox (L1L2.lambda1_ p) (L1L2.lambda2_ p) z eta w <= prox (L1L2.lambda1_ p) (L1L2.lambda2_ p) z eta x)%Q.
Proof.
  intros He H1 H2. unfold L1L2.Solve.
  assert (check (fltb (Float := Qfloat) fzero eta) = Ok tt) as ->.
  { apply check_true. simpl. apply negb_true_iff. destruct (Qle_bool eta 0) eqn:E; [|done].
    apply Qle_bool_iff in E. lra. }
  cbn [mbind outcome_bind].
  assert (forall w, w = (if Qle_bool z (L1L2.lambda1_ p) && Qle_bool (- L1L2.lambda1_ p) z then 0
       else (if negb (Qle_bool z 0) then z - L1L2.lambda1_ p else z + L1L2.lambda1_ p) / (eta + L1L2.lambda2_ p))%Q ->
    forall x, (prox (L1L2.lambda1_ p) (L1L2.lambda2_ p) z eta w <= prox (L1L2.lambda1_ p) (L1L2.lambda2_ p) z eta x)%Q) as Hs.
  { intros w Hw x. rewrite !prox_quad by done. apply Qplus_le_compat; [|apply Qle_refl].
    apply soft_spec; [lra|done|done]. }
  eexists. split; [|apply Hs; reflexivity]. simpl. by destruct (Qle_bool z _ && _).
Qed.

(** Over the exact rationals [Solve(z, eta)] succeeds for a positive [eta]
    and its result minimises
    [eta / 2 * (x - z / eta)^2 + lambda1 * |x| + lambda2 / 2 * x^2]. *)
Theorem Solve_argmin (p : L1L2.t Q) (z eta : Q) :
  (0 < eta)%Q -> (0 <= L1L2.lambda1_ p)%Q -> (0 <= L1L2.lambda2_ p)%Q ->
  exists w, L1L2.Solve (Float0 := Qfloat) p z eta = Ok w /\
    forall x, (prox (L1L2.lambda1_ p) (L1L2.lambda2_ p) z eta w <= prox (L1L2.lambda1_ p) (L1L2.lambda2_ p) z eta x)%Q.
Proof. apply Solve_min. Qed.

Lemma Solve_argmin_witness :
  exists w, L1L2.Solve (Float0 := Qfloat) (L1L2.mk 1%Q (1 # 2)%Q) 3%Q (3 # 2)%Q = Ok w /\ (w == 1)%Q /\
    (prox 1 (1 # 2) 3 (3 # 2) w <= prox 1 (1 # 2) 3 (3 # 2) (6 # 5))%Q.
Proof.
  destruct (Solve_argmin (L1L2.mk 1%Q (1 # 2)%Q) 3%Q (3 # 2)%Q) as (w & Ew & Hw);
    [reflexivity|discriminate|discriminate|].
  exists w. split; [exact Ew|]. split; [|apply Hw].
  vm_compute in Ew. injection Ew as <-. reflexivity.
Defined.

(** The penalty is documented as [lambda1 * |x| + lambda2 * x^2]; for that
    penalty the result of [Solve] is not the minimiser: with
    [lambda1 = 0, lambda2 = 1, z = 2, eta = 1] it gives 1, and [2/3] is better. *)
Theorem Solve_documented_penalty :
  let documented x := ((1 # 2) * 1 * (x - 2 / 1) * (x - 2 / 1) + 0 * Qabs x + 1 * x * x)%Q in
  exists w, L1L2.Solve (Float0 := Qfloat) (L1L2.mk 0%Q 1%Q) 2%Q 1%Q = Ok w /\ (w == 1)%Q /\
    (documented (2 # 3) < documented w)%Q.
Proof. intros d. eexists. split; [reflexivity|]. split; reflexivity. Qed.

(** ** FTRL *)

(** Over the exact rationals a push of the FTRL updater leaves the weight
    at the minimiser of [z * x + eta / 2 * x^2 + lambda1 * |x| + lambda2 / 2 * x^2]
    for the new [z] and [eta = (beta + sq_cum_grad) / alpha]. *)
Theorem FTRLPush_argmin key (g : Q) gs (val : FTRLEntry Q) (h : LHandle Q) :
  let sq := fsqrt (Float := Qfloat) (val.(f_sq_cum_grad) * val.(f_sq_cum_grad) + g * g)%Q in
  let eta := ((h.(l_beta) + sq) / h.(l_alpha))%Q in
  let l1 := L1L2.lambda1_ h.(penalty) in let l2 := L1L2.lambda2_ h.(penalty) in
  (0 < eta)%Q -> (0 <= l1)%Q -> (0 <= l2)%Q ->
  exists val' h', FTRLPush (Float0 := Qfloat) key (g :: gs) val h = Ok (val', h') /\
    f_sq_cum_grad val' = sq /\
    f_z val' = (val.(f_z) + (g - (sq - val.(f_sq_cum_grad)) / h.(l_alpha) * val.(f_w)))%Q /\
    forall x, (quad (eta + l2) l1 (- f_z val') (f_w val') <= quad (eta + l2) l1 (- f_z val') x)%Q.
Proof.
  intros sq eta l1 l2 He H1 H2. unfold FTRLPush. cbn [head mbind outcome_bind].
  set (z := (val.(f_z) + (g - (sq - val.(f_sq_cum_grad)) / h.(l_alpha) * val.(f_w)))%Q).
  destruct (Solve_min h.(penalty) (- z)%Q eta He H1 H2) as (w & Ew & Hw).
  match goal with |- exists _ _, mbind _ ?e = _ /\ _ => assert (e = Ok w) as -> by exact Ew end.
  eexists _, _. split; [reflexivity|]. cbn [f_sq_cum_grad f_z f_w]. split; [done|]. split; [done|].
  intros x. specialize (Hw x). rewrite !prox_quad in Hw by done. apply Qplus_le_l in Hw. exact Hw.
Qed.

Lemma FTRLPush_argmin_witness :
  let h := mkLH (L1L2.mk 1%Q 0%Q) 1%Q 1%Q false 0 0 1 [] 1 0%Q in
  exists val' h', FTRLPush (Float0 := Qfloat) 7 [3%Q] (mkFTRL 0 0 0)%Q h = Ok (val', h') /\
    (quad 4 1 (- f_z val') (f_w val') <= quad 4 1 (- f_z val') 0)%Q.
Proof.
  intros h. destruct (FTRLPush_argmin 7 3%Q [] (mkFTRL 0 0 0)%Q h) as (val' & h' & E & _ & _ & Hx);
    [reflexivity|discriminate|discriminate|].
  exists val', h'. split; [exact E|]. vm_compute in E. injection E as <- <-. vm_compute. discriminate.
Defined.

(** The weight update of DiFacto is the same rule: over the exact rationals
    [UpdateW] leaves the weight of an entry at the minimiser of
    [eta / 2 * x^2 - z * x + lambda1 * |x|] for the new [z] and
    [eta = (beta + sqc_grad) / alpha]. *)
Theorem UpdateW_argmin junk rand (g : Q) (e : AdaGradEntry Q) (h : HState Q) :
  let p := h.(params) in
  let eta := ((p.(beta) + up_cg (Float0 := Qfloat) p g e) / p.(alpha))%Q in
  entry_ok e -> (0 < eta)%Q -> (0 <= p.(h_lambda_l1))%Q ->
  exists e' h', UpdateW (Float0 := Qfloat) junk rand g e h = Ok (e', h') /\
    cg_of (Float0 := Qfloat) e' = up_cg (Float0 := Qfloat) p g e /\
    forall x, (quad eta p.(h_lambda_l1) (z_of (Float0 := Qfloat) e') (w_of (Float0 := Qfloat) e')
               <= quad eta p.(h_lambda_l1) (z_of (Float0 := Qfloat) e') x)%Q.
Proof.
  intros p eta He Heta Hl.
  destruct (UpdateW_ok (Float0 := Qfloat) junk rand g e h He) as (e' & h' & E & _ & Hw & Hc & Hz & _).
  exists e', h'. split; [exact E|]. split; [exact Hc|].
  apply soft_spec; [done|done|]. rewrite Hw, Hz. unfold up_w, ftrl. simpl.
  by destruct (Qle_bool _ _ && _).
Qed.

Lemma UpdateW_argmin_witness :
  let p := mkParams 1%Q 0%Q 1%Q 1%Q (mkEmb 0 0 0%Q 0%Q 1%Q 0%Q 0%Q) false false 1 in
  let h := mkH p false 0 0 0 [] 0 in
  exists e' h', UpdateW (Float0 := Qfloat) 0%Q (fun _ => 0%Z) 3%Q (new_entry (Float0 := Qfloat)) h = Ok (e', h') /\
    (quad 4 1 (z_of (Float0 := Qfloat) e') (w_of (Float0 := Qfloat) e') <= quad 4 1 (z_of (Float0 := Qfloat) e') 0)%Q.
Proof.
  intros p h.
  destruct (UpdateW_argmin 0%Q (fun _ => 0%Z) 3%Q (new_entry (Float0 := Qfloat)) h) as (e' & h' & E & _ & Hx);
    [done|reflexivity|discriminate|].
  exists e', h'. split; [exact E|]. vm_compute in E. injection E as <- <-. vm_compute. discriminate.
Defined.

(** ** The statistics *)

Section LinearCounts.
Context {F : Type} `{HF : !Float F}.
Hypothesis zero_eq : feqb (fzero (F := F)) fzero = true.

Definition lnz (w : F) : Z := if (w =? fzero)%F then 0 else 1.

Definition lcount (h : LHandle F) : Z := (foldr Z.add 0 h.(l_reports) + h.(l_new_w))%Z.

Lemma lcount_Finish (h : LHandle F) : lcount (LFinish h) = lcount h.
Proof.
  unfold LFinish, lcount. case_match; simpl; [|done]. rewrite foldr_app. simpl.
  clear. induction (l_reports h) as [|x l IH]; simpl; lia.
Qed.

Lemma lcount_Update cur old (h : LHandle F) : (lcount (Update cur old h) - lnz cur = lcount h - lnz old)%Z.
Proof. unfold Update, lnz, lcount. destruct (old =? fzero)%F, (cur =? fzero)%F; simpl; lia. Qed.

Lemma head_Ok (grad : list F) g : head grad = Ok g -> exists gs, grad = g :: gs.
Proof. destruct grad; simpl; [done|]. intros [= <-]. eauto. Qed.

Lemma SGD_counts : @counting F F (LHandle F) SGDHandle (fun _ => True) lcount lnz.
Proof.
  split; [done|unfold lnz; simpl; by rewrite zero_eq|by intros [] | |].
  - intros h. apply lcount_Finish.
  - intros key v e h e' h' _ Hp. split; [done|]. simpl in Hp. unfold SGDPush in Hp. ok_inv. apply lcount_Update.
Qed.

Lemma LAda_counts : @counting _ F (LHandle F) LAdaGradHandle (fun _ => True) lcount (fun e => lnz e.(a_w)).
Proof.
  split; [done|unfold lnz; simpl; by rewrite zero_eq|done| |].
  - intros h. apply lcount_Finish.
  - intros key v e h e' h' _ Hp. split; [done|]. simpl in Hp. unfold LAdaPush in Hp. ok_inv. apply lcount_Update.
Qed.

Lemma FTRL_counts : @counting _ F (LHandle F) FTRLHandle (fun _ => True) lcount (fun e => lnz e.(f_w)).
Proof.
  split; [done|unfold lnz; simpl; by rewrite zero_eq|done| |].
  - intros h. apply lcount_Finish.
  - intros key v e h e' h' _ Hp. split; [done|]. simpl in Hp. unfold FTRLPush in Hp. ok_inv. apply lcount_Update.
Qed.

End LinearCounts.

(** The requests a server answers, by the algorithm it runs. *)
Definition lserve {F} `{HF : !Float F} reqs (s : AsgdServer F) : outcome (AsgdServer F) :=
  match s with
  | SGDServer s => r ← serve (fun _ => @KVStoreSparseST _ _ _ SGDHandle) reqs s; Ok (SGDServer r.1.2)
  | AdaServer s => r ← serve (fun _ => @KVStoreSparseST _ _ _ LAdaGradHandle) reqs s; Ok (AdaServer r.1.2)
  | FTRLServer s => r ← serve (fun _ => @KVStoreSparseST _ _ _ FTRLHandle) reqs s; Ok (FTRLServer r.1.2)
  end.

(** The handle of a server and the number of its non-zero weights. *)
Definition server_stats {F} `{HF : !Float F} (s : AsgdServer F) : LHandle F * Z :=
  match s with
  | SGDServer s => (s.(handle_), msum lnz s.(data_))
  | AdaServer s => (s.(handle_), msum (fun e => lnz e.(a_w)) s.(data_))
  | FTRLServer s => (s.(handle_), msum (fun e => lnz e.(f_w)) s.(data_))
  end.

(** For each of the three algorithms, what the server reported plus what it
    has still to report is the number of non-zero weights it stores. *)
Theorem linear_counters {F} `{HF : !Float F} tenth (conf : LConfig F) ns s reqs s' :
  feqb (fzero (F := F)) fzero = true -> new_AsgdServer tenth conf ns = Ok s -> lserve reqs s = Ok s' ->
  let '(h, nnz) := server_stats s' in (foldr Z.add 0 h.(l_reports) + h.(l_new_w) = nnz)%Z.
Proof.
  intros Hz Hs Hr. unfold new_AsgdServer in Hs.
  destruct (create_handle tenth conf ns) as [h|] eqn:Eh; simpl in Hs; [|done].
  assert (lcount h = 0%Z) as H0. { unfold create_handle in Eh. ok_inv. done. }
  injection Hs as <-. unfold lserve in Hr.
  destruct (l_algo conf); simpl in Hr;
    match type of Hr with (mbind _ ?e = _) => destruct e as [[[n s1] out]|] eqn:Er end; simpl in Hr; try done;
    injection Hr as <-; simpl; fold (lcount (handle_ s1)).
  - eapply serve_counted in Er as [_ ->]; [done|by apply SGD_counts|split; [apply map_Forall_empty|done]].
  - eapply serve_counted in Er as [_ ->]; [done|by apply LAda_counts|split; [apply map_Forall_empty|done]].
  - eapply serve_counted in Er as [_ ->]; [done|by apply FTRL_counts|split; [apply map_Forall_empty|done]].
Qed.

Lemma linear_counters_witness :
  let _ := Zfloat in
  let reqs := [(true, mkMsg 0 [5; 6; 9] false (Some [3; 0; 4]) None); (false, mkMsg 0 [5; 9] false None None)]%Z in
  let conf := mkLConfig FTRL 0%Z 0%Z (Some 1%Z) None in
  exists s s', new_AsgdServer 1%Z conf 2 = Ok s /\ lserve reqs s = Ok s' /\ (server_stats s').2 = 2%Z /\
    (foldr Z.add 0 (l_reports (server_stats s').1) + l_new_w (server_stats s').1)%Z = 2%Z.
Proof.
  intros HF reqs conf.
  destruct (new_AsgdServer 1%Z conf 2) as [s|] eqn:Es; [|discriminate].
  destruct (lserve reqs s) as [s'|] eqn:Er;
    [|exfalso; vm_compute in Es; injection Es as <-; vm_compute in Er; discriminate].
  pose proof (linear_counters (HF := HF) 1%Z conf 2 s reqs s' eq_refl Es Er) as H.
  assert ((server_stats s').2 = 2%Z) as H2.
  { vm_compute in Es. injection Es as <-. vm_compute in Er. injection Er as <-. reflexivity. }
  exists s, s'. split_and!; try done. destruct (server_stats s') as [h nnz]. simpl in *. by rewrite H.
Defined.
