(* ===== verification/BinClass.v ===== *)
(** * Evaluation of binary classifiers

    Models src/src/base/binary_class_evaluation.h.  The sums are OpenMP
    reductions: [sched] lists, thread by thread, the iterations each thread
    runs, and the partial sums are added in that order. *)
From S2P Require Import Prelude Floats.
From Stdlib Require Import QArith Qabs Qminmax Lqa.
Close Scope Q_scope.

Section BinClassEval.
Context {F : Type} `{!Float F}.

(** [double] arithmetic next to [float], with the functions of the C library. *)
Context {D : Type} `{!Float D} (widen : F -> D) (narrow : D -> F) (dexp dlog : D -> D) (tiny : D).

(** The contract of [std::sort] is a hypothesis of the theorems. *)
Context (sort : list (F * F) -> list (F * F)).

Record BinClassEval := mkEval { label_ : list F; predict_ : list F; size_ : nat }.

(** [#pragma omp parallel for reduction(+:x)] with the body [x += term(i)],
    where a thread skips the iterations whose term is [None]. *)
Definition thread_sum (term : nat -> outcome (option (F -> F))) (is_ : list nat) : outcome F :=
  foldM (fun x i => t ← term i; Ok match t with Some f => f x | None => x end) is_ fzero.

Definition reduce (term : nat -> outcome (option (F -> F))) (sched : list (list nat)) : outcome F :=
  foldM (fun x is_ => p ← thread_sum term is_; Ok (x + p)%F) sched fzero.

(** [x += d] for a [double] [d]. *)
Definition add_double (d : D) (x : F) : F := narrow (widen x + d)%F.

(** The entries [AUC] sorts: label and prediction. *)
Definition auc_entries (e : BinClassEval) : outcome (list (F * F)) :=
  foldM (fun buff i => l ← read_at e.(label_) i; p ← read_at e.(predict_) i; Ok (buff ++ [(l, p)]))
    (seq 0 e.(size_)) [].

(** One iteration over the sorted entries. *)
Definition auc_step (st : F * F) (x : F * F) : F * F :=
  if (fzero <? x.1)%F then (st.1, st.2 + fone)%F else (st.1 + st.2, st.2)%F.

Definition half : F := (fone / fofZ 2)%F.

(** [AUC()] *)
Definition AUC (e : BinClassEval) : outcome F :=
  buff ← auc_entries e;
  let '(area, cum_tp) := foldl auc_step (fzero, fzero) (sort buff) in
  let n := fofZ (Z.of_nat e.(size_)) in
  if (cum_tp =? fzero)%F || (cum_tp =? n)%F then Ok fone else
  let area := (area / (cum_tp * (n - cum_tp)))%F in
  Ok (if (area <? half)%F then (fone - area)%F else area).

(** [Accuracy(threshold)] *)
Definition accuracy_term (e : BinClassEval) (threshold : F) (i : nat) : outcome (option (F -> F)) :=
  l ← read_at e.(label_) i; p ← read_at e.(predict_) i;
  Ok (if ((fzero <? l)%F && (threshold <? p)%F) || ((l <=? fzero)%F && (p <=? threshold)%F)
      then Some (fun x => (x + fone)%F) else None).

Definition Accuracy (sched : list (list nat)) (e : BinClassEval) (threshold : F) : outcome F :=
  correct ← reduce (accuracy_term e threshold) sched;
  let acc := (correct / fofZ (Z.of_nat e.(size_)))%F in
  Ok (if (half <? acc)%F then acc else (fone - acc)%F).

(** [LogLoss()] *)
Definition logloss_term (e : BinClassEval) (i : nat) : outcome (option (F -> F)) :=
  l ← read_at e.(label_) i; p ← read_at e.(predict_) i;
  let y := if (fzero <? l)%F then fone else fzero in
  let p := narrow (fone / (fone + dexp (widen (fneg p))))%F in
  let p := narrow (if (widen p <? tiny)%F then tiny else widen p) in
  Ok (Some (add_double (widen y * dlog (widen p) + widen (fone - y)%F * dlog (widen (fone - p)%F))%F)).

Definition LogLoss (sched : list (list nat)) (e : BinClassEval) : outcome F :=
  loss ← reduce (logloss_term e) sched; Ok (fneg loss).

(** [LogitObjv()] *)
Definition logit_term (e : BinClassEval) (i : nat) : outcome (option (F -> F)) :=
  l ← read_at e.(label_) i; p ← read_at e.(predict_) i;
  let y := if (fzero <? l)%F then fone else fneg fone in
  let score := (y * p)%F in
  Ok (if (score <? fofZ (-30))%F then Some (fun x => (x + fneg score)%F)
      else if (score <=? fofZ 30)%F then Some (add_double (dlog (fone + dexp (widen (fneg score))))%F)
      else None).

Definition LogitObjv (sched : list (list nat)) (e : BinClassEval) : outcome F :=
  reduce (logit_term e) sched.

(** [Copc()] *)
Definition clk_term (e : BinClassEval) (i : nat) : outcome (option (F -> F)) :=
  l ← read_at e.(label_) i; Ok (if (fzero <? l)%F then Some (fun x => (x + fone)%F) else None).

Definition clk_exp_term (e : BinClassEval) (i : nat) : outcome (option (F -> F)) :=
  p ← read_at e.(predict_) i; Ok (Some (add_double (fone / (fone + dexp (widen (fneg p))))%F)).

Definition Copc (sched : list (list nat)) (e : BinClassEval) : outcome F :=
  clk ← reduce (clk_term e) sched;
  clk_exp ← reduce (clk_exp_term e) sched;
  Ok (clk / clk_exp)%F.

End BinClassEval.
Arguments BinClassEval F : clear implicits.

(** ** Counting *)

Fixpoint count {A} (p : A -> bool) (l : list A) : nat :=
  match l with [] => 0 | x :: l => (if p x then 1 else 0) + count p l end.

Lemma count_app {A} (p : A -> bool) l1 l2 : count p (l1 ++ l2) = count p l1 + count p l2.
Proof. induction l1 as [|x l1 IH]; simpl; [done|]. rewrite IH. lia. Qed.

Lemma count_perm {A} (p : A -> bool) l1 l2 : l1 ≡ₚ l2 -> count p l1 = count p l2.
Proof. induction 1; simpl; lia. Qed.

Lemma count_ext {A} (p q : A -> bool) l : (forall x, x ∈ l -> p x = q x) -> count p l = count q l.
Proof.
  induction l as [|x l IH]; intros H; simpl; [done|]. rewrite (H x) by apply list_elem_of_here.
  rewrite IH; [done|]. intros y Hy. apply H. by apply list_elem_of_further.
Qed.

Lemma count_le {A} (p : A -> bool) l : count p l <= length l.
Proof. induction l as [|x l IH]; simpl; [lia|]. destruct (p x); lia. Qed.

Lemma sum_list_with_perm {A} (f : A -> nat) l1 l2 : l1 ≡ₚ l2 -> sum_list_with f l1 = sum_list_with f l2.
Proof. induction 1; simpl; lia. Qed.

Lemma sum_list_with_ext {A} (f g : A -> nat) l :
  (forall x, x ∈ l -> f x = g x) -> sum_list_with f l = sum_list_with g l.
Proof.
  induction l as [|x l IH]; intros H; simpl; [done|]. rewrite (H x) by apply list_elem_of_here.
  rewrite IH; [done|]. intros y Hy. apply H. by apply list_elem_of_further.
Qed.

(** ** The area under the curve *)

Definition pos (x : Q * Q) : bool := negb (Qle_bool x.1 0).
Definition below (x y : Q * Q) : bool := negb (Qle_bool y.2 x.2).

(** Pairs of a positive example and a negative one with a larger prediction. *)
Definition inversions (l : list (Q * Q)) : nat :=
  sum_list_with (fun y => if pos y then 0 else count (fun x => pos x && below x y) l) l.

Lemma inversions_perm l1 l2 : l1 ≡ₚ l2 -> inversions l1 = inversions l2.
Proof.
  intros Hp. unfold inversions. rewrite (sum_list_with_perm _ _ _ Hp). apply sum_list_with_ext.
  intros y _. by rewrite (count_perm _ _ _ Hp).
Qed.

Lemma below_lt x y : below x y = true <-> (x.2 < y.2)%Q.
Proof.
  unfold below. rewrite negb_true_iff. split.
  - intros H. apply Qnot_le_lt. intros Hle. apply Qle_bool_iff in Hle. congruence.
  - intros H. destruct (Qle_bool y.2 x.2) eqn:E; [|done]. apply Qle_bool_iff in E. lra.
Qed.

(** Adding an example with the largest prediction. *)
Lemma inversions_snoc l y :
  (forall x, x ∈ l -> (x.2 < y.2)%Q) ->
  inversions (l ++ [y]) = inversions l + (if pos y then 0 else count pos l).
Proof.
  intros Hy. unfold inversions. rewrite sum_list_with_app. simpl. rewrite Nat.add_0_r. f_equal.
  - apply sum_list_with_ext. intros z Hz. destruct (pos z); [done|]. rewrite count_app. simpl.
    assert (below y z = false) as ->; [|rewrite andb_false_r; lia].
    apply not_true_is_false. rewrite below_lt. specialize (Hy z Hz). lra.
  - destruct (pos y) eqn:Ep; [done|]. rewrite count_app. simpl. rewrite Ep. simpl. rewrite Nat.add_0_r.
    apply count_ext. intros x Hx. apply Hy, below_lt in Hx. by rewrite Hx, andb_true_r.
Qed.

Definition q (n : nat) : Q := inject_Z (Z.of_nat n).

Lemma q_add a b : (q a + q b)%Q = q (a + b).
Proof. unfold q, inject_Z, Qplus. simpl. f_equal. lia. Qed.

(** The loop of [AUC] over the exact rationals. *)
Lemma auc_fold l :
  StronglySorted (fun x y => (x.2 < y.2)%Q) l ->
  foldl (auc_step (Float0 := Qfloat)) (0, 0)%Q l = (q (inversions l), q (count pos l)).
Proof.
  induction l as [|y l IH] using rev_ind; intros Hs; [done|].
  rewrite foldl_snoc. rewrite IH.
  2: { rewrite <- (take_app_length l [y]). by apply StronglySorted_take. }
  rewrite inversions_snoc, count_app; cycle 1.
  { intros x [i Hi]%list_elem_of_lookup. eapply (StronglySorted_lookup _ _ i (length l) x y Hs).
    - by eapply lookup_lt_Some.
    - by rewrite lookup_app_l by (by eapply lookup_lt_Some).
    - rewrite lookup_app_r, Nat.sub_diag by lia. done. }
  unfold auc_step. simpl. fold (pos y). destruct (pos y); simpl.
  - change 1%Q with (q 1). rewrite q_add. f_equal; f_equal; lia.
  - rewrite q_add. f_equal; f_equal; lia.
Qed.

Lemma foldM_snoc_all {A} (f : nat -> outcome A) (l : list A) :
  (forall i x, l !! i = Some x -> f i = Ok x) ->
  foldM (fun acc i => x ← f i; Ok (acc ++ [x])) (seq 0 (length l)) [] = Ok l.
Proof.
  intros Hf. rewrite (foldM_gather _ (fun x => [x]) 0 l []); simpl.
  - clear. f_equal. induction l as [|x l IH]; simpl; [done|]. by rewrite IH.
  - intros i x acts Hx. by rewrite (Hf i x Hx).
Qed.

Lemma auc_entries_spec (label predict : list Q) :
  length label = length predict ->
  auc_entries (mkEval label predict (length label)) = Ok (zip label predict).
Proof.
  intros Hl. unfold auc_entries. simpl.
  rewrite <- (foldM_snoc_all (fun i => l ← read_at label i; p ← read_at predict i; Ok (l, p)) (zip label predict)).
  - rewrite length_zip_with, Hl, Nat.min_id. apply foldM_ext. intros acc i _.
    destruct (read_at label i); simpl; [|done]. by destruct (read_at predict i).
  - intros i [l p] Hi. apply lookup_zip_with_Some in Hi as (l' & p' & [= <- <-] & H1 & H2).
    apply read_at_Ok in H1 as ->. simpl. by apply read_at_Ok in H2 as ->.
Qed.

Lemma sorted_strict (l l' : list (Q * Q)) :
  l' ≡ₚ l -> NoDup (map (fun x => Qred x.2) l) ->
  StronglySorted (fun x y => ~ (y.2 < x.2)%Q) l' -> StronglySorted (fun x y => (x.2 < y.2)%Q) l'.
Proof.
  intros Hp Hnd Hs. assert (NoDup (map (fun x => Qred x.2) l')) as Hnd'.
  { by rewrite (Permutation_map _ Hp). }
  clear Hnd Hp. induction Hs as [|x l1 Hs IH Hx]; [constructor|]. simpl in Hnd'.
  apply NoDup_cons in Hnd' as [Hn Hnd']. constructor; [by apply IH|].
  apply Forall_forall. intros y Hy. eapply Forall_forall in Hx; [|exact Hy]. simpl in *.
  apply Qnot_lt_le, Qle_lteq in Hx as [Hx|Hx]; [done|]. exfalso. apply Hn.
  rewrite (Qred_complete _ _ Hx). apply list_elem_of_In, in_map_iff. exists y. split; [done|]. by apply list_elem_of_In.
Qed.

Lemma max_flip (a : Q) : ((if negb (Qle_bool (1 / 2) a) then 1 - a else a) == Qmax a (1 - a))%Q.
Proof.
  destruct (Qle_bool (1 / 2) a) eqn:E; simpl.
  - apply Qle_bool_iff in E. rewrite Q.max_l; [reflexivity|]. change (1 / 2)%Q with (1 # 2)%Q in E. lra.
  - assert (~ (1 / 2 <= a)%Q) as H by (intros H; apply Qle_bool_iff in H; congruence).
    change (1 / 2)%Q with (1 # 2)%Q in H. rewrite Q.max_r; [reflexivity|]. lra.
Qed.

(** For examples with pairwise different predictions and both classes
    present, [AUC] is the larger of [a] and [1 - a], where [a] is the fraction
    of pairs of a positive and a negative example in which the negative one has
    the larger prediction. *)
Theorem AUC_correct (sort : list (Q * Q) -> list (Q * Q)) (label predict : list Q) :
  (forall l, sort l ≡ₚ l /\ StronglySorted (fun x y => ~ (y.2 < x.2)%Q) (sort l)) ->
  length label = length predict -> NoDup (map Qred predict) ->
  let l := zip label predict in
  let P := count pos l in
  0 < P < length label ->
  exists a, AUC (Float0 := Qfloat) sort (mkEval label predict (length label)) = Ok a /\
    let area := (q (inversions l) / (q P * q (length label - P)))%Q in
    (a == Qmax area (1 - area))%Q.
Proof.
  intros Hsort Hlen Hnd l P HP. unfold AUC. rewrite auc_entries_spec by done. fold l. cbn [mbind outcome_bind].
  destruct (Hsort l) as [Hp Hs].
  assert (NoDup (map (fun x => Qred x.2) l)) as Hnd'.
  { subst l. rewrite <- (map_map snd Qred). rewrite snd_zip by lia. done. }
  pose proof (auc_fold (sort l) (sorted_strict _ _ Hp Hnd' Hs)) as Hfold.
  change (fzero (Float := Qfloat)) with 0%Q. rewrite Hfold.
  rewrite (inversions_perm _ _ Hp), (count_perm pos _ _ Hp). fold P. simpl (size_ _).
  assert (forall m, feqb (Float := Qfloat) (q P) (q m) = bool_decide (P = m)) as Heq.
  { intros m. simpl. unfold q, Qeq_bool. simpl. rewrite !Z.mul_1_r. rewrite bool_decide_decide.
    destruct (decide (P = m)) as [->|Hne]; [apply Zbool.Zeq_is_eq_bool; done|].
    apply not_true_is_false. intros E. apply Zbool.Zeq_bool_eq in E. lia. }
  change 0%Q with (q 0).
  change (fofZ (Float := Qfloat) (Z.of_nat (length label))) with (q (length label)).
  rewrite !Heq, !bool_decide_eq_false_2 by lia. simpl orb. cbv iota.
  eexists. split; [reflexivity|]. cbv zeta.
  change (fdiv (Float := Qfloat)) with Qdiv. change (fmul (Float := Qfloat)) with Qmult.
  change (fsub (Float := Qfloat)) with Qminus.
  assert (q (length label) - q P == q (length label - P))%Q as Hsub.
  { unfold q. rewrite Nat2Z.inj_sub by lia. unfold Zminus. rewrite inject_Z_plus, inject_Z_opp. reflexivity. }
  match goal with |- ((if fltb ?x half then _ else _) == _)%Q => transitivity (Qmax x (1 - x))%Q; [apply max_flip|] end.
  rewrite Hsub. reflexivity.
Qed.

(** ** Reductions *)

(** A schedule that runs every iteration of [n] once. *)
Definition schedule (n : nat) (sched : list (list nat)) : Prop := concat sched ≡ₚ seq 0 n.

Lemma reduce_count (p : nat -> bool) n sched (term : nat -> outcome (option (Q -> Q))) :
  schedule n sched ->
  (forall i, i < n -> term i = Ok (if p i then Some (fun x => (x + 1)%Q) else None)) ->
  reduce (Float0 := Qfloat) term sched = Ok (q (count p (seq 0 n))).
Proof.
  intros Hs Ht. rewrite <- (count_perm p _ _ Hs).
  assert (forall is_ c, (forall i, i ∈ is_ -> i < n) ->
    foldM (fun x i => t ← term i; Ok match t with Some f => f x | None => x end) is_ (q c) =
    Ok (q (c + count p is_))) as Hthread.
  { induction is_ as [|i is_ IH]; intros c Hi; simpl; [by rewrite Nat.add_0_r|].
    rewrite Ht by (apply Hi, list_elem_of_here). simpl.
    assert (forall c', foldM (fun x i => t ← term i; Ok match t with Some f => f x | None => x end) is_ (q c') =
      Ok (q (c' + count p is_))) as IH'.
    { intros c'. apply IH. intros j Hj. apply Hi. by apply list_elem_of_further. }
    destruct (p i); [|by rewrite IH'].
    change 1%Q with (q 1). rewrite q_add, IH'. do 2 f_equal. lia. }
  assert (forall i, i ∈ concat sched -> i < n) as Hin.
  { intros i Hi. rewrite Hs in Hi. apply elem_of_seq in Hi. lia. }
  clear Hs. unfold reduce.
  assert (forall c, foldM (fun x is_ => p ← thread_sum (Float0 := Qfloat) term is_; Ok (x + p)%Q) sched (q c) =
    Ok (q (c + count p (concat sched)))) as Hsched; [|apply (Hsched 0)].
  induction sched as [|is_ sched IH]; intros c; [simpl; by rewrite Nat.add_0_r|].
  cbn [foldM concat].
  assert (thread_sum (Float0 := Qfloat) term is_ = Ok (q (count p is_))) as ->.
  { apply (Hthread is_ 0). intros i Hi. apply Hin. simpl. apply elem_of_app. by left. }
  cbn [mbind outcome_bind]. rewrite q_add, IH; cycle 1.
  { intros i Hi. apply Hin. simpl. apply elem_of_app. by right. }
  rewrite count_app. do 2 f_equal. lia.
Qed.

(** The examples [Accuracy] counts. *)
Definition correct (label predict : list Q) (threshold : Q) (i : nat) : bool :=
  match label !! i, predict !! i with
  | Some l, Some p => if Qle_bool l 0 then Qle_bool p threshold else negb (Qle_bool p threshold)
  | _, _ => false
  end.

Lemma Accuracy_value sched (label predict : list Q) n threshold :
  n <= length label -> n <= length predict -> schedule n sched ->
  exists a, Accuracy (Float0 := Qfloat) sched (mkEval label predict n) threshold = Ok a /\
    let c := (q (count (correct label predict threshold) (seq 0 n)) / q n)%Q in
    (a == Qmax c (1 - c))%Q.
Proof.
  intros Hlen Hn Hs. unfold Accuracy.
  rewrite (reduce_count (correct label predict threshold) n sched) by
    (done || (intros i Hi; unfold accuracy_term, correct; simpl;
      destruct (lookup_lt_is_Some_2 label i) as [l El]; [lia|];
      destruct (lookup_lt_is_Some_2 predict i) as [p Ep]; [lia|];
      unfold read_at; rewrite El, Ep; simpl;
      destruct (Qle_bool l 0), (Qle_bool p threshold); done)).
  cbn [mbind outcome_bind]. eexists. split; [reflexivity|]. cbv zeta. simpl (size_ _).
  change (fofZ (Float := Qfloat) (Z.of_nat n)) with (q n).
  change (fdiv (Float := Qfloat)) with Qdiv. change (fsub (Float := Qfloat)) with Qminus.
  set (c := (q _ / q n)%Q). clearbody c. change (fone (Float := Qfloat)) with 1%Q.
  change (half (Float0 := Qfloat)) with (1 / 2)%Q. simpl.
  destruct (Qle_bool c (1 / 2)) eqn:E; simpl; change (1 / 2)%Q with (1 # 2)%Q in E.
  - apply Qle_bool_iff in E. rewrite Q.max_r; [reflexivity|lra].
  - assert (~ (c <= 1 # 2)%Q) as H by (intros H; apply Qle_bool_iff in H; congruence).
    rewrite Q.max_l; [reflexivity|lra].
Qed.

(** [Accuracy] is the larger of [c] and [1 - c], where [c] is the fraction
    of examples on the side of the threshold their label says, for every way the
    threads share the examples. *)
Theorem Accuracy_correct sched (label predict : list Q) threshold :
  let n := length label in
  length predict = n -> schedule n sched ->
  exists a, Accuracy (Float0 := Qfloat) sched (mkEval label predict n) threshold = Ok a /\
    let c := (q (count (correct label predict threshold) (seq 0 n)) / q n)%Q in
    (a == Qmax c (1 - c))%Q.
Proof. intros n Hlen Hs. apply Accuracy_value; [done|lia|done]. Qed.

(** *** Sums of rationals *)

Definition Qsum (l : list Q) : Q := foldr Qplus 0%Q l.

Lemma Qsum_perm l1 l2 : l1 ≡ₚ l2 -> (Qsum l1 == Qsum l2)%Q.
Proof. induction 1; simpl in *; lra. Qed.

Lemma Qsum_app l1 l2 : (Qsum (l1 ++ l2) == Qsum l1 + Qsum l2)%Q.
Proof. induction l1 as [|x l1 IH]; simpl; lra. Qed.

Lemma reduce_sum (t : nat -> Q) n sched (term : nat -> outcome (option (Q -> Q))) :
  schedule n sched ->
  (forall i, i < n -> exists f, term i = Ok f /\
     forall x, (match f with Some f => f x | None => x end == x + t i)%Q) ->
  exists r, reduce (Float0 := Qfloat) term sched = Ok r /\ (r == Qsum (map t (seq 0 n)))%Q.
Proof.
  intros Hs Ht. assert (forall i, i ∈ concat sched -> i < n) as Hin.
  { intros i Hi. rewrite Hs in Hi. apply elem_of_seq in Hi. lia. }
  assert (Qsum (map t (seq 0 n)) == Qsum (map t (concat sched)))%Q as Hq.
  { apply Qsum_perm. by rewrite (Permutation_map t Hs). }
  clear Hs.
  assert (forall is_ x, (forall i, i ∈ is_ -> i < n) -> exists r,
    foldM (fun x i => t ← term i; Ok match t with Some f => f x | None => x end) is_ x = Ok r /\
    (r == x + Qsum (map t is_))%Q) as Hthread.
  { induction is_ as [|i is_ IH]; intros x Hi; simpl.
    { exists x. split; [done|]. lra. }
    destruct (Ht i) as (f & -> & Hf); [apply Hi, list_elem_of_here|]. simpl.
    destruct (IH (match f with Some f => f x | None => x end)) as (r & Er & Hr).
    { intros j Hj. apply Hi. by apply list_elem_of_further. }
    exists r. split; [exact Er|]. rewrite Hr, Hf. lra. }
  unfold reduce.
  assert (forall x, exists r, foldM (fun x is_ => p ← thread_sum (Float0 := Qfloat) term is_; Ok (x + p)%Q) sched x = Ok r /\
    (r == x + Qsum (map t (concat sched)))%Q) as Hsched.
  { clear -Hthread Hin. induction sched as [|is_ sched IH]; intros x; cbn [foldM concat].
    { exists x. split; [done|]. simpl. lra. }
    destruct (Hthread is_ 0%Q) as (p & Ep & Hp).
    { intros i Hi. apply Hin. simpl. apply elem_of_app. by left. }
    assert (thread_sum (Float0 := Qfloat) term is_ = Ok p) as -> by exact Ep. cbn [mbind outcome_bind].
    destruct (IH) with (x := (x + p)%Q) as (r & Er & Hr).
    { intros i Hi. apply Hin. simpl. apply elem_of_app. by right. }
    exists r. split; [exact Er|]. rewrite Hr, map_app, Qsum_app, Hp. lra. }
  destruct (Hsched 0%Q) as (r & Er & Hr). exists r. split; [exact Er|]. rewrite Hr, Hq. lra.
Qed.

(** The loss of one example in [LogitObjv], with its shortcuts for scores
    outside [[-30, 30]]. *)
Definition logit (dexp dlog : Q -> Q) (label predict : list Q) (i : nat) : Q :=
  match label !! i, predict !! i with
  | Some l, Some p =>
      let score := ((if negb (Qle_bool l 0) then 1 else -(1)) * p)%Q in
      if negb (Qle_bool (inject_Z (-30)) score) then (- score)%Q
      else if Qle_bool score (inject_Z 30) then dlog (1 + dexp (- score))%Q else 0%Q
  | _, _ => 0%Q
  end.

Lemma LogitObjv_sum (dexp dlog : Q -> Q) sched (label predict : list Q) n :
  n <= length label -> n <= length predict -> schedule n sched ->
  exists o, LogitObjv (Float0 := Qfloat) (Float1 := Qfloat) id id dexp dlog sched (mkEval label predict n) = Ok o /\
    (o == Qsum (map (logit dexp dlog label predict) (seq 0 n)))%Q.
Proof.
  intros Hl Hp Hs. unfold LogitObjv. apply reduce_sum; [done|]. intros i Hi.
  unfold logit_term, logit. simpl.
  destruct (lookup_lt_is_Some_2 label i) as [l El]; [lia|].
  destruct (lookup_lt_is_Some_2 predict i) as [p Ep]; [lia|].
  unfold read_at. rewrite El, Ep. simpl. eexists. split; [reflexivity|]. intros x.
  destruct (negb (Qle_bool l 0)); simpl;
    (destruct (negb (Qle_bool (inject_Z (-30)) _)); simpl; [reflexivity|]);
    (destruct (Qle_bool _ (inject_Z 30)); unfold add_double; simpl; [reflexivity|lra]).
Qed.

(** Over the exact rationals [LogitObjv] is the sum of the losses of the
    examples, for every way the threads share them. *)
Theorem LogitObjv_correct (dexp dlog : Q -> Q) sched (label predict : list Q) :
  let n := length label in
  length predict = n -> schedule n sched ->
  exists o, LogitObjv (Float0 := Qfloat) (Float1 := Qfloat) id id dexp dlog sched (mkEval label predict n) = Ok o /\
    (o == Qsum (map (logit dexp dlog label predict) (seq 0 n)))%Q.
Proof. intros n Hlen Hs. apply LogitObjv_sum; [done|lia|done]. Qed.

(** ** Examples *)

Definition by_predict (x y : Q * Q) : Prop := (x.2 <= y.2)%Q.
#[local] Instance by_predict_dec x y : Decision (by_predict x y).
Proof. unfold by_predict. destruct (Qlt_le_dec y.2 x.2); [right|by left]. intros H. lra. Defined.
#[local] Instance by_predict_trans : Transitive by_predict.
Proof. intros x y z. unfold by_predict. intros. lra. Qed.
#[local] Instance by_predict_total : Total by_predict.
Proof. intros x y. unfold by_predict. destruct (Qlt_le_dec y.2 x.2); [right|by left]. lra. Qed.

Definition ex_sort : list (Q * Q) -> list (Q * Q) := merge_sort by_predict.

Lemma ex_sort_ok l : ex_sort l ≡ₚ l /\ StronglySorted (fun x y => ~ (y.2 < x.2)%Q) (ex_sort l).
Proof.
  split; [apply merge_sort_Permutation|].
  pose proof (StronglySorted_merge_sort by_predict l) as Hs. fold (ex_sort l) in Hs.
  induction Hs as [|a l' Hl IH Ha]; constructor; [done|].
  eapply Forall_impl; [exact Ha|]. intros b Hb. unfold by_predict in Hb. lra.
Qed.

Lemma AUC_correct_witness :
  exists a, AUC (Float0 := Qfloat) ex_sort (mkEval [1; 0; 1; 0]%Q [9; 5; 3; 1]%Q 4) = Ok a /\ (a == 3 # 4)%Q.
Proof.
  destruct (AUC_correct ex_sort [1; 0; 1; 0]%Q [9; 5; 3; 1]%Q) as (a & E & Ha).
  - apply ex_sort_ok.
  - reflexivity.
  - apply NoDup_ListNoDup. repeat constructor; simpl; intuition discriminate.
  - vm_compute. lia.
  - exists a. split; [exact E|]. rewrite Ha. reflexivity.
Defined.

Lemma Accuracy_correct_witness :
  exists a, Accuracy (Float0 := Qfloat) [[1; 2]; [0; 3]] (mkEval [1; 0; 1; 0]%Q [9; 5; 3; 1]%Q 4) 2%Q = Ok a /\ (a == 3 # 4)%Q.
Proof.
  destruct (Accuracy_correct [[1; 2]; [0; 3]] [1; 0; 1; 0]%Q [9; 5; 3; 1]%Q 2%Q) as (a & E & Ha).
  - reflexivity.
  - unfold schedule. simpl. rewrite (Permutation_swap 0 2 [3]). apply Permutation_swap.
  - exists a. split; [exact E|]. rewrite Ha. reflexivity.
Defined.

Lemma LogitObjv_correct_witness :
  exists o, LogitObjv (Float0 := Qfloat) (Float1 := Qfloat) id id (fun x => x) (fun x => x) [[1]; [0]]
    (mkEval [1; 0]%Q [40; 5]%Q 2) = Ok o /\ (o == 6)%Q.
Proof.
  destruct (LogitObjv_correct (fun x => x) (fun x => x) [[1]; [0]] [1; 0]%Q [40; 5]%Q) as (o & E & Ho).
  - reflexivity.
  - apply Permutation_swap.
  - exists o. split; [exact E|]. rewrite Ho. reflexivity.
Defined.
