(* ===== verification/Loss.v ===== *)
(** * The loss of the factorization machine

    Models src/src/difacto/loss.h: the model a worker pulled is split into the
    weights [w] and the embeddings [V] with the columns that have one, the
    objective is evaluated with the sparse products of SpMV.v and the gradients
    are written back in place of the model. *)
From S2P Require Import Prelude Floats RowBlock Parallel SpMV BinClass AdaGrad.
From Stdlib Require Import QArith.
Close Scope Q_scope.

Section Loss.
Context {F : Type} `{!Float F}.

(** [double] arithmetic next to [float]; [rand] gives the numbers of [rand()]. *)
Context {D : Type} `{FD : !Float D} (widen : F -> D) (narrow : D -> F) (dexp dlog : D -> D) (tiny : D).
Context (sort : list (F * F) -> list (F * F)) (rand : nat -> Z).

(** The interleaving of a parallel region and the shares of a reduction. *)
Context (sched : list (list (action F)) -> list (action F)) (shares : list (list nat)).

(** ** [Loss::Data] *)

Record Data := mkData {
  dim : nat; X : RowBlock F; XX : RowBlock F; weight : list F; pos : list Z; XV : list F;
  dropout : F; grad_clipping : F; grad_normalization : F }.

(** The members of a new [Data]; the row blocks are not initialised. *)
Definition no_block : RowBlock F := mkBlock 0 [] None None None None.
Definition new_data : Data := mkData 0 no_block no_block [] [] [] fzero fzero fzero.

Definition no_pos : Z := 4294967295.

(** The loop over the features of [Load] for [w]. *)
Definition load_w_step (model : list F) (model_siz : list nat) (st : Z * list Z * list F) (i : nat)
  : outcome (Z * list Z * list F) :=
  let '(p, pos, weight) := st in
  s ← read_at model_siz i;
  if decide (s = 0) then pos ← write_at pos i no_pos; Ok (p, pos, weight)
  else
    pos ← write_at pos i p;
    m ← read_at model (Z.to_nat p);
    weight ← write_at weight i m;
    Ok (u32 (p + Z.of_nat s), pos, weight).

(** The loop over the features of [Load] for [V]. *)
Definition load_V_step (dim : nat) (model_siz : list nat) (st : nat * Z * list Z * list nat) (i : nat)
  : outcome (nat * Z * list Z * list nat) :=
  let '(k, p, pos, col_map) := st in
  s ← read_at model_siz i;
  if decide (s = dim + 1) then
    col_map ← write_at col_map i (k + 1);
    Ok (k + 1, u32 (p + Z.of_nat s), pos ++ [u32 (p + 1)], col_map)
  else Ok (k, u32 (p + Z.of_nat s), pos, col_map).

(** [memcpy] of [n] elements of the model from position [p]. *)
Definition read_part (model : list F) (p : Z) (n : nat) : outcome (list F) :=
  if decide (Z.to_nat p + n <= length model) then Ok (segment (Z.to_nat p) (Z.to_nat p + n) model)
  else Fail OutOfRange.

(** The loop over the features of a row that picks those with an embedding. *)
Definition pick_step (data : RowBlock F) (col_map : list nat) (st : list Z * list F) (j : nat)
  : outcome (list Z * list F) :=
  let '(idx, val) := st in
  d ← ptr_at data.(b_index) j;
  k ← read_at col_map (Z.to_nat d);
  if decide (0 < k) then
    val ← match data.(b_value) with
          | Some _ => v ← ptr_at data.(b_value) j; Ok (val ++ [v])
          | None => Ok val
          end;
    Ok (idx ++ [Z.of_nat (k - 1)], val)
  else Ok (idx, val).

Definition pick_row (data : RowBlock F) (col_map : list nat) (st : list nat * list Z * list F) (i : nat)
  : outcome (list nat * list Z * list F) :=
  let '(os, idx, val) := st in
  b ← read_at data.(b_offset) i;
  e ← read_at data.(b_offset) (i + 1);
  '(idx, val) ← foldM (pick_step data col_map) (seq b (e - b)) (idx, val);
  Ok (os ++ [length idx], idx, val).

(** [XX = X .* X] *)
Definition square_block (X : RowBlock F) : outcome (RowBlock F) :=
  match X.(b_value) with
  | None => Ok X
  | Some _ =>
      n ← read_at X.(b_offset) X.(b_size);
      val2 ← foldM (fun val2 i => v ← ptr_at X.(b_value) i; Ok (val2 ++ [(v * v)%F])) (seq 0 n) [];
      Ok (mkBlock X.(b_size) X.(b_offset) X.(b_label) X.(b_weight) X.(b_index) (BeginPtr val2))
  end.

(** [Load(0, data, model, model_siz)] *)
Definition Load_w (data : RowBlock F) (model : list F) (model_siz : list nat) (d : Data) : outcome Data :=
  let n := length model_siz in
  '(p, pos, weight) ← foldM (load_w_step model model_siz) (seq 0 n) (0%Z, replicate n 0%Z, replicate n fzero);
  _ ← check (bool_decide (Z.to_nat p = length model));
  if decide (weight = []) then
    Ok (mkData 0 d.(X) d.(XX) weight pos d.(XV) d.(dropout) d.(grad_clipping) d.(grad_normalization))
  else
    XX ← square_block data;
    Ok (mkData 0 data XX weight pos d.(XV) d.(dropout) d.(grad_clipping) d.(grad_normalization)).

(** [Load(dim, data, model, model_siz)] for [dim >= 1]; [lbl] and [wgt] are the
    label and weight pointers of [X], which are never set. *)
Definition Load_V (lbl wgt : ptr F) (dim : nat) (data : RowBlock F) (model : list F) (model_siz : list nat) (d : Data)
  : outcome Data :=
  let n := length model_siz in
  '(k, p, pos, col_map) ← foldM (load_V_step dim model_siz) (seq 0 n) (0, 0%Z, [], replicate n 0);
  _ ← check (bool_decide (Z.to_nat p = length model));
  weight ← foldM (fun weight q => v ← read_part model q dim; Ok (weight ++ v)) pos [];
  if decide (weight = []) then
    Ok (mkData dim d.(X) d.(XX) weight pos d.(XV) d.(dropout) d.(grad_clipping) d.(grad_normalization))
  else
    '(os, idx, val) ← foldM (pick_row data col_map) (seq 0 data.(b_size)) ([0], [], []);
    let X := mkBlock data.(b_size) os lbl wgt (BeginPtr idx) (BeginPtr val) in
    XX ← square_block X;
    Ok (mkData dim X XX weight pos d.(XV) d.(dropout) d.(grad_clipping) d.(grad_normalization)).

(** [Save(grad)] *)
Definition Save_step (d : Data) (k : nat) (grad : list F) (i : nat) : outcome (list F) :=
  p ← read_at d.(pos) i;
  if decide (p = no_pos) then Ok grad else
  if decide (i * k + k <= length d.(weight) /\ Z.to_nat p + k <= length grad) then
    Ok (list_inserts (Z.to_nat p) (segment (i * k) (i * k + k) d.(weight)) grad)
  else Fail OutOfRange.

Definition Save (d : Data) (grad : list F) : outcome (list F) :=
  if decide (d.(weight) = []) then Ok grad else
  let k := if decide (d.(dim) = 0) then 1 else d.(dim) in
  _ ← check (bool_decide (length d.(weight) = length d.(pos) * k));
  foldM (Save_step d k) (seq 0 (length d.(pos))) grad.

(** ** [Loss] *)

Record Loss := mkLoss { w : Data; V : Data; py_ : list F; nt_ : nat }.

(** The constructor; without an embedding [V] stays empty. *)
Definition new_Loss (lbl wgt : ptr F) (data : RowBlock F) (model : list F) (model_siz : list nat) (conf : Config F)
  : outcome Loss :=
  wd ← Load_w data model model_siz new_data;
  match conf.(embedding) with
  | [] => Ok (mkLoss wd new_data [] conf.(num_threads))
  | cf :: _ =>
      if decide (cf.(c_dim) = 0) then Ok (mkLoss wd new_data [] conf.(num_threads)) else
      Vd ← Load_V lbl wgt cf.(c_dim) data model model_siz new_data;
      Ok (mkLoss wd (mkData Vd.(dim) Vd.(X) Vd.(XX) Vd.(weight) Vd.(pos) Vd.(XV)
                       cf.(c_dropout) cf.(c_grad_clipping) cf.(c_grad_normalization)) [] conf.(num_threads))
  end.

(** What [Evaluate] reports. *)
Record LossProgress := mkProgress { objv_w : F; objv : F; auc : F; new_ex : nat }.

(** [py_[i] += .5 * sum(t .* t - tt)] *)
Definition interaction (dim : nat) (XV xxvv : list F) (py : list F) (i : nat) : outcome (list F) :=
  s ← foldM (fun s j =>
    t ← read_at XV (i * dim + j);
    tt ← read_at xxvv (i * dim + j);
    Ok (s + (t * t - tt))%F) (seq 0 dim) fzero;
  p ← read_at py i;
  write_at py i (narrow (widen p + fone / fofZ 2 * widen s)%F).

(** [Evaluate(prog)]: [py = X w + .5 sum((X V).^2 - (X.*X)(V.*V), 2)] *)
Definition Evaluate (l : Loss) : outcome (Loss * LossProgress) :=
  let n := l.(w).(X).(b_size) in
  py ← SpMV_Times (D := D) sched l.(w).(X) l.(w).(weight) (replicate n fzero) l.(nt_);
  let eval py := mkEval (default [] l.(w).(X).(b_label)) py (length py) in
  ow ← LogitObjv widen narrow dexp dlog shares (eval py);
  '(Vd, py, o) ←
    (if decide (l.(V).(weight) = []) then Ok (l.(V), py, ow) else
     let d := l.(V) in
     let vv := map (fun v => (v * v)%F) d.(weight) in
     _ ← check (bool_decide (length vv = length d.(pos) * d.(dim)));
     xxvv ← SpMM_Times (D := D) sched d.(XX) vv (replicate (d.(X).(b_size) * d.(dim)) fzero) l.(nt_);
     XV ← SpMM_Times (D := D) sched d.(X) d.(weight) (replicate (length xxvv) fzero) l.(nt_);
     py ← foldM (interaction d.(dim) XV xxvv) (seq 0 (length py)) py;
     o ← LogitObjv widen narrow dexp dlog shares (eval py);
     Ok (mkData d.(dim) d.(X) d.(XX) d.(weight) d.(pos) XV d.(dropout) d.(grad_clipping) d.(grad_normalization),
         py, o));
  a ← AUC sort (eval py);
  Ok (mkLoss l.(w) Vd py l.(nt_), mkProgress ow o a n).

(** The derivative of the loss of example [i]: [p = - y / (1 + exp(y * py))] *)
Definition dual (labels : ptr F) (py : list F) (i : nat) : outcome (list F) :=
  lb ← ptr_at labels i;
  p ← read_at py i;
  let y := if (fzero <? lb)%F then fone else fneg fone in
  write_at py i (narrow (widen (fneg y) / (fone + dexp (widen (y * p)%F)))%F).

(** [Normalize(grad)]; [eps] is [1e-10]. *)
Definition Normalize (grad : list F) : list F :=
  let norm := foldl (fun norm g => (norm + g * g)%F) fzero grad in
  if (widen norm <? tiny)%F then grad else
  let norm := fsqrt norm in map (fun g => (g / norm)%F) grad.

Definition clip (gc g : F) : F :=
  if (gc <? g)%F then gc else if (g <? fneg gc)%F then fneg gc else g.

(** Dropout: [rand() / RAND_MAX > 1 - dropout] drops an element. *)
Definition drop_out (rate : F) (r : nat) (grad : list F) : list F :=
  imap (fun i g => if (fone - rate <? fofZ (rand (r + i)) / fofZ RAND_MAX)%F then fzero else g) grad.

(** The gradient of [V], given [p] in [py]. *)
Definition grad_V (d : Data) (py : list F) (nt r : nat) : outcome (list F) :=
  let m := length d.(pos) in
  let n := length py in
  xxp ← SpMM_TransTimes (D := D) sched d.(XX) py fzero [] (replicate m fzero) nt;
  _ ← check (bool_decide (length d.(weight) = d.(dim) * m));
  weight ← foldM (fun weight i =>
    x ← read_at xxp i;
    foldM (fun weight j =>
      v ← read_at weight (i * d.(dim) + j);
      write_at weight (i * d.(dim) + j) (v * fneg x)%F) (seq 0 d.(dim)) weight) (seq 0 m) d.(weight);
  _ ← check (bool_decide (length d.(XV) = n * d.(dim)));
  XV ← foldM (fun XV i =>
    p ← read_at py i;
    foldM (fun XV j =>
      y ← read_at XV (i * d.(dim) + j);
      write_at XV (i * d.(dim) + j) (y * p)%F) (seq 0 d.(dim)) XV) (seq 0 n) d.(XV);
  weight ← SpMM_TransTimes (D := D) sched d.(X) XV fone weight weight nt;
  let weight := if (fzero <? d.(grad_clipping))%F then map (clip d.(grad_clipping)) weight else weight in
  let weight := if (fzero <? d.(dropout))%F then drop_out d.(dropout) r weight else weight in
  Ok (if negb (d.(grad_normalization) =? fzero)%F then Normalize weight else weight).

Definition with_weight (d : Data) (weight : list F) : Data :=
  mkData d.(dim) d.(X) d.(XX) weight d.(pos) d.(XV) d.(dropout) d.(grad_clipping) d.(grad_normalization).

(** [CalcGrad(grad)] *)
Definition CalcGrad (l : Loss) (r : nat) (grad : list F) : outcome (list F) :=
  _ ← check (bool_decide (length l.(py_) = l.(w).(X).(b_size)));
  py ← foldM (dual l.(w).(X).(b_label)) (seq 0 (length l.(py_))) l.(py_);
  gw ← SpMV_TransTimes (D := D) sched l.(w).(X) py l.(w).(weight) l.(nt_);
  grad ← Save (with_weight l.(w) gw) grad;
  if decide (l.(V).(weight) = []) then Save l.(V) grad else
  gV ← grad_V l.(V) py l.(nt_) r;
  Save (with_weight l.(V) gV) grad.

(** [Predict(fo, prob_out)]: the numbers that are printed. *)
Definition Predict (l : Loss) (prob_out : bool) : outcome (list D) :=
  py ← (if decide (l.(py_) = []) then
          SpMV_Times (D := D) sched l.(w).(X) l.(w).(weight) (replicate l.(w).(X).(b_size) fzero) l.(nt_)
        else Ok l.(py_));
  Ok (map (fun p => if prob_out then (fone / (fone + dexp (widen (fneg p))))%F else widen p) py).

End Loss.
Arguments Data F : clear implicits.
Arguments Loss F : clear implicits.

(** ** The model, feature by feature

    The worker pulls [model], the entries of its features one after the other,
    and [model_siz], their lengths. *)

Section LoadSpec.
Context {F : Type} `{!Float F}.
Implicit Types (es : list (list F)).

Definition start (es : list (list F)) (i : nat) : nat := sum_list (map length (take i es)).

Lemma start_S es i e : es !! i = Some e -> start es (S i) = start es i + length e.
Proof.
  intros He. unfold start. rewrite (take_S_r _ _ _ He), map_app, sum_list_app. simpl. lia.
Qed.

Lemma start_le es i : start es i <= length (concat es).
Proof.
  unfold start. rewrite length_concat_sum.
  assert (sum_list (map length es) = sum_list (map length (take i es)) + sum_list (map length (drop i es))) as ->; [|lia].
  by rewrite <- sum_list_app, <- map_app, take_drop.
Qed.

Lemma start_all es : start es (length es) = length (concat es).
Proof. unfold start. by rewrite firstn_all, length_concat_sum. Qed.

(** The weight and the position of a feature; an entry of length 0 has none. *)
Definition w_entry (e : list F) : F := default fzero (e !! 0).
Definition w_pos es (i : nat) : Z :=
  match es !! i with Some [] => no_pos | Some _ => Z.of_nat (start es i) | None => 0 end.

Lemma load_w_loop es :
  (Z.of_nat (length (concat es)) < 2 ^ 32)%Z ->
  foldM (load_w_step (concat es) (map length es)) (seq 0 (length es))
    (0%Z, replicate (length es) 0%Z, replicate (length es) fzero) =
  Ok (Z.of_nat (length (concat es)), map (w_pos es) (seq 0 (length es)), map w_entry es).
Proof.
  intros Hb. set (n := length es).
  destruct (foldM_seq (load_w_step (concat es) (map length es)) (fun i st =>
    st.1.1 = Z.of_nat (start es i) /\ length st.1.2 = n /\ take i st.1.2 = map (w_pos es) (seq 0 i) /\
    length st.2 = n /\ take i st.2 = map w_entry (take i es) /\ drop i st.2 = replicate (n - i) fzero)
    0 n (0%Z, replicate n 0%Z, replicate n fzero)) as ([[p pos] wt] & -> & H1 & H2 & H3 & H4 & H5 & _).
  - simpl. rewrite !length_replicate, drop_0. rewrite Nat.sub_0_r. done.
  - intros i [[p pos] wt] Hi (H1 & H2 & H3 & H4 & H5 & H6). simpl in *. subst p.
    destruct (lookup_lt_is_Some_2 es i) as [e He]; [lia|].
    assert (take (i + 1) es = take i es ++ [e]) as Htk by (rewrite Nat.add_1_r; by apply take_S_r).
    assert (seq 0 (i + 1) = seq 0 i ++ [i]) as Hsq by (rewrite Nat.add_1_r; apply seq_S).
    assert (drop (i + 1) wt = replicate (n - (i + 1)) fzero) as Hdr.
    { rewrite <- drop_drop, H6. rewrite drop_replicate. f_equal. lia. }
    assert (wt !! i = Some fzero) as Hwi.
    { rewrite <- (Nat.add_0_r i), <- lookup_drop, H6. apply lookup_replicate_2. lia. }
    unfold load_w_step. rewrite (proj2 (read_at_Ok (map length es) i (length e))) by
      (by rewrite list_lookup_fmap, He). cbn [mbind outcome_bind].
    pose proof (start_S es i e He) as Hst. pose proof (start_le es (S i)) as Hle.
    rewrite Htk, Hsq, !map_app. simpl.
    destruct (decide (length e = 0)) as [H0|H0].
    + apply nil_length_inv in H0 as ->. rewrite write_at_lt by lia. cbn [mbind outcome_bind].
      eexists. split; [reflexivity|]. simpl. rewrite length_insert, Nat.add_1_r, take_S_insert by lia.
      rewrite H3. unfold w_pos at 3. rewrite He. split_and!; try done.
      * f_equal. simpl in *. lia.
      * rewrite (take_S_r _ _ _ Hwi), H5. done.
      * by rewrite Nat.add_1_r in Hdr.
    + rewrite write_at_lt by lia. cbn [mbind outcome_bind]. rewrite Nat2Z.id.
      destruct e as [|x e]; [done|].
      rewrite (proj2 (read_at_Ok (concat es) (start es i) x)); cycle 1.
      { rewrite <- (Nat.add_0_r (start es i)). by apply (concat_lookup_piece es i (x :: e) 0 x). }
      cbn [mbind outcome_bind]. rewrite write_at_lt by lia. cbn [mbind outcome_bind].
      eexists. split; [reflexivity|]. simpl. rewrite !length_insert, !Nat.add_1_r, !take_S_insert by lia.
      rewrite H3, H5. unfold w_pos at 3. rewrite He. split_and!; try done.
      * simpl in Hst. rewrite u32_small by lia. lia.
      * rewrite drop_insert_lt by lia. by rewrite Nat.add_1_r in Hdr.
  - simpl in *. rewrite H1, start_all.
    rewrite take_ge in H3 by lia. rewrite take_ge in H5 by lia. rewrite take_ge in H5 by (subst n; lia). by rewrite H3, H5.
Qed.
(** *** The features with an embedding *)

Context (dim : nat).

Definition has_V (e : list F) : Prop := length e = dim + 1.
#[local] Instance has_V_dec e : Decision (has_V e).
Proof. unfold has_V. apply _. Defined.

(** How many features before [i] have one. *)
Definition rank es (i : nat) : nat := length (filter has_V (take i es)).

Definition col es (i : nat) : nat :=
  match es !! i with Some e => if decide (has_V e) then rank es i + 1 else 0 | None => 0 end.

Definition V_pos es (i : nat) : list Z :=
  concat (map (fun j => match es !! j with
    | Some e => if decide (has_V e) then [Z.of_nat (start es j + 1)] else []
    | None => [] end) (seq 0 i)).

Lemma rank_S es i e : es !! i = Some e -> rank es (S i) = rank es i + (if decide (has_V e) then 1 else 0).
Proof.
  intros He. unfold rank. rewrite (take_S_r _ _ _ He), filter_app, length_app, filter_cons, filter_nil.
  case_decide; simpl; lia.
Qed.

Lemma V_pos_S es i e :
  es !! i = Some e -> V_pos es (S i) = V_pos es i ++ (if decide (has_V e) then [Z.of_nat (start es i + 1)] else []).
Proof.
  intros He. unfold V_pos. rewrite seq_S, map_app, concat_app. simpl. rewrite He, app_nil_r. done.
Qed.

Lemma load_V_loop es :
  (Z.of_nat (length (concat es)) < 2 ^ 32)%Z ->
  foldM (load_V_step dim (map length es)) (seq 0 (length es)) (0, 0%Z, [], replicate (length es) 0) =
  Ok (rank es (length es), Z.of_nat (length (concat es)), V_pos es (length es), map (col es) (seq 0 (length es))).
Proof.
  intros Hb. set (n := length es).
  destruct (foldM_seq (load_V_step dim (map length es)) (fun i st =>
    st.1.1.1 = rank es i /\ st.1.1.2 = Z.of_nat (start es i) /\ st.1.2 = V_pos es i /\
    length st.2 = n /\ take i st.2 = map (col es) (seq 0 i) /\ drop i st.2 = replicate (n - i) 0)
    0 n (0, 0%Z, [], replicate n 0)) as ([[[k p] pos] cm] & -> & H1 & H2 & H3 & H4 & H5 & _).
  - simpl. rewrite length_replicate, drop_0, Nat.sub_0_r. done.
  - intros i [[[k p] pos] cm] Hi (H1 & H2 & H3 & H4 & H5 & H6). simpl in *. subst k p pos.
    destruct (lookup_lt_is_Some_2 es i) as [e He]; [lia|].
    pose proof (start_S es i e He) as Hst. pose proof (start_le es (S i)) as Hle.
    unfold load_V_step. rewrite (proj2 (read_at_Ok (map length es) i (length e))) by
      (by rewrite list_lookup_fmap, He). cbn [mbind outcome_bind].
    replace (i + 1) with (S i) by lia. rewrite (rank_S es i e He), (V_pos_S es i e He), seq_S, map_app. simpl.
    assert (drop (S i) cm = replicate (n - S i) 0) as Hdr.
    { rewrite <- Nat.add_1_r, <- drop_drop, H6, drop_replicate. f_equal. lia. }
    assert (cm !! i = Some 0) as Hci.
    { rewrite <- (Nat.add_0_r i), <- lookup_drop, H6. apply lookup_replicate_2. lia. }
    unfold col at 2. rewrite He. fold (has_V e).
    destruct (decide (has_V e)) as [HV|HV].
    + rewrite write_at_lt by lia. cbn [mbind outcome_bind]. eexists. split; [reflexivity|]. simpl.
      rewrite length_insert, take_S_insert, drop_insert_lt, H5 by lia. unfold has_V in HV.
      split_and!; try done; [rewrite u32_small; lia|]. f_equal. rewrite u32_small; [f_equal; lia|]. lia.
    + eexists. split; [reflexivity|]. simpl. rewrite (take_S_r _ _ _ Hci), H5, app_nil_r.
      split_and!; try done. rewrite u32_small; lia.
  - simpl in *. rewrite H1, H2, H3, start_all. rewrite take_ge in H5 by lia. by rewrite H5.
Qed.

(** The embeddings, one after the other. *)
Definition V_rows es : list (list F) := map (drop 1) (filter has_V es).

Lemma load_V_weights es :
  foldM (fun weight q => v ← read_part (concat es) q dim; Ok (weight ++ v)) (V_pos es (length es)) [] =
  Ok (concat (V_rows es)).
Proof.
  assert (forall i, i <= length es ->
    foldM (fun weight q => v ← read_part (concat es) q dim; Ok (weight ++ v)) (V_pos es i) [] =
    Ok (concat (V_rows (take i es)))) as H.
  { induction i as [|i IH]; intros Hi; [done|].
    destruct (lookup_lt_is_Some_2 es i) as [e He]; [lia|].
    rewrite (V_pos_S es i e He), foldM_app, IH by lia. cbn [mbind outcome_bind].
    unfold V_rows. rewrite (take_S_r _ _ _ He), filter_app, map_app, concat_app, filter_cons, filter_nil.
    destruct (decide (has_V e)) as [HV|HV]; simpl; [|by rewrite !app_nil_r].
    pose proof (start_S es i e He) as Hst. pose proof (start_le es (S i)) as Hle. unfold has_V in HV.
    unfold read_part. rewrite Nat2Z.id, decide_True by lia. simpl. rewrite !app_nil_r. do 2 f_equal.
    pose proof (segment_concat es i e He) as Hseg. fold (start es i) in Hseg.
    rewrite <- Hseg at 1. unfold segment. rewrite skipn_firstn_comm, drop_drop. f_equal. lia. }
  rewrite H by done. by rewrite firstn_all.
Qed.

Lemma V_rows_length es : Forall (fun v => length v = dim) (V_rows es).
Proof.
  unfold V_rows. apply Forall_map, Forall_forall. intros e [He _]%list_elem_of_filter. simpl.
  unfold has_V in He. rewrite length_drop. lia.
Qed.

Lemma rank_lookup es i e : es !! i = Some e -> has_V e -> V_rows es !! rank es i = Some (drop 1 e).
Proof.
  intros He HV. unfold V_rows, rank. rewrite list_lookup_fmap.
  assert (filter has_V es = filter has_V (take i es) ++ e :: filter has_V (drop (S i) es)) as ->.
  { rewrite <- (take_drop_middle es i e He) at 1. by rewrite filter_app, filter_cons, decide_True. }
  rewrite lookup_app_r, Nat.sub_diag by lia. done.
Qed.

(** *** Picking the columns *)

Lemma feats_value (M : RowBlock F) rs i r o t f :
  shows 0 0 M rs -> rs !! i = Some r -> read_at M.(b_offset) i = Ok o -> feats r !! t = Some f ->
  match M.(b_value) with
  | Some _ => exists v, f.2 = Some v /\ ptr_at M.(b_value) (o + t) = Ok v
  | None => f.2 = None
  end.
Proof.
  intros [Hs Ho Hl Hw Hi Hv] Hr Eo Hf.
  assert (o = sum_list (map nfeat (take i rs))) as ->.
  { pose proof (lookup_lt_Some _ _ _ Hr). apply read_at_Ok in Eo.
    assert (take (S (length rs)) (b_offset M) !! i = Some o) as E.
    { rewrite lookup_take by lia. rewrite decide_True by lia. done. }
    rewrite Ho, psums_lookup in E by (rewrite length_map; lia). injection E as <-.
    by rewrite firstn_map. }
  unfold feats in Hf. destruct (b_value M) as [vs|].
  - destruct Hv as [Hv1 Hv2]. rewrite drop_0 in Hv2.
    assert (length (a_value r) = nfeat r) as Hlen by by apply (Forall_lookup_1 _ _ _ _ Hv1 Hr).
    destruct (a_value r) as [|v0 vs0] eqn:Ev.
    { unfold nfeat in Hlen. destruct (a_index r); [done|discriminate]. }
    rewrite <- Ev in *. destruct f as [c ov]. apply lookup_zip_Some in Hf as [_ Hy].
    apply list_lookup_fmap_Some in Hy as (v & -> & Hy). exists v. split; [done|].
    apply read_at_Ok. simpl.
    assert (concat (map a_value rs) !! (sum_list (map nfeat (take i rs)) + t) = Some v) as E.
    { replace (map nfeat (take i rs)) with (map length (take i (map a_value rs))).
      - eapply concat_lookup_piece; [|exact Hy]. by rewrite list_lookup_fmap, Hr.
      - rewrite firstn_map, map_map. apply map_ext_in. intros x Hx%list_elem_of_In.
        apply (proj1 (Forall_forall _ _) Hv1). by eapply elem_of_take in Hx as (? & ?%list_elem_of_lookup_2 & _). }
    rewrite <- Hv2 in E. by apply lookup_take_Some in E as [E _].
  - assert (a_value r = []) as Ev by by apply (Forall_lookup_1 _ _ _ _ Hv Hr).
    rewrite Ev in Hf. apply list_lookup_fmap_Some in Hf as (ix & -> & _). done.
Qed.

(** The part of a row that has embeddings, with the columns renumbered. *)
Definition picked es (r : arow (F := F)) : list (nat * option F) := filter (fun f => 0 < col es f.1) (feats r).
Definition pick es (r : arow (F := F)) : arow :=
  mkArow fzero [] (map (fun f => Z.of_nat (col es f.1 - 1)) (picked es r)) (omap snd (picked es r)).

Section Pick.
Context (data : RowBlock F) (rs : list (arow (F := F))) (es : list (list F)).
Hypothesis Hsh : shows 0 0 data rs.
Hypothesis Hcols : columns_below (length es) rs.

(** One feature of a row. *)
Definition pick_feat (st : list Z * list F) (f : nat * option F) : list Z * list F :=
  if decide (0 < col es f.1)
  then (st.1 ++ [Z.of_nat (col es f.1 - 1)], st.2 ++ match f.2 with Some v => [v] | None => [] end) else st.

Lemma pick_row_spec i r os idx val :
  rs !! i = Some r ->
  pick_row data (map (col es) (seq 0 (length es))) (os, idx, val) i =
  Ok (os ++ [length idx + nfeat (pick es r)], idx ++ a_index (pick es r), val ++ a_value (pick es r)).
Proof.
  intros Hr. destruct (feats_access data rs i r Hsh Hr) as (o & Eo & Eo' & Hl & Hacc). unfold pick_row.
  rewrite Eo. cbn [mbind outcome_bind]. rewrite Eo'. cbn [mbind outcome_bind].
  replace (o + nfeat r - o) with (length (feats r)) by lia.
  rewrite (foldM_seq_foldl _ pick_feat); cycle 1.
  { intros t f [idx1 val1] Hf. destruct (Hacc t f Hf) as (ix & Eix & Hix & _). unfold pick_step.
    rewrite Eix. cbn [mbind outcome_bind].
    assert (f.1 < length es) as Hlt.
    { eapply Forall_lookup in Hcols; [|exact Hr]. simpl in Hcols. by eapply Forall_lookup in Hcols; [|exact Hf]. }
    rewrite (proj2 (read_at_Ok _ (Z.to_nat ix) (col es f.1))); cycle 1.
    { rewrite Hix, list_lookup_fmap, lookup_seq_lt by done. done. }
    cbn [mbind outcome_bind]. unfold pick_feat. case_decide; [|done].
    pose proof (feats_value data rs i r o t f Hsh Hr Eo Hf) as Hv.
    destruct (b_value data) as [vs|].
    - destruct Hv as (v & -> & Ev). rewrite Ev. done.
    - rewrite Hv. simpl. by rewrite app_nil_r. }
  cbn [mbind outcome_bind].
  assert (forall fs st, foldl pick_feat st fs =
    (st.1 ++ map (fun f => Z.of_nat (col es f.1 - 1)) (filter (fun f => 0 < col es f.1) fs),
     st.2 ++ omap snd (filter (fun f => 0 < col es f.1) fs))) as Hfold.
  { induction fs as [|f fs IH]; intros [ix vl]; simpl; [by rewrite !app_nil_r|].
    rewrite IH, filter_cons. unfold pick_feat. case_decide; simpl; [|done]. rewrite <- !app_assoc. simpl.
    destruct (f.2); done. }
  rewrite Hfold. simpl. unfold picked. rewrite length_app. done.
Qed.

Lemma pick_rows :
  foldM (pick_row data (map (col es) (seq 0 (length es)))) (seq 0 data.(b_size)) ([0], [], []) =
  Ok (psums 0 (map nfeat (map (pick es) rs)), concat (map a_index (map (pick es) rs)),
      concat (map a_value (map (pick es) rs))).
Proof.
  rewrite (s_size _ _ _ _ Hsh).
  destruct (foldM_seq (pick_row data (map (col es) (seq 0 (length es)))) (fun i st =>
    st = (psums 0 (map nfeat (map (pick es) (take i rs))), concat (map a_index (map (pick es) (take i rs))),
          concat (map a_value (map (pick es) (take i rs))))) 0 (length rs) ([0], [], [])) as (st & -> & ->).
  - done.
  - intros i st Hi ->. destruct (lookup_lt_is_Some_2 rs i) as [r Hr]; [lia|].
    rewrite (pick_row_spec i r) by done. eexists. split; [reflexivity|].
    rewrite Nat.add_1_r, (take_S_r _ _ _ Hr), !map_app, !concat_app. simpl. rewrite !app_nil_r.
    rewrite psums_app. simpl. do 4 f_equal. rewrite length_concat_sum, map_map. done.
  - rewrite Nat.add_0_l, firstn_all. done.
Qed.

(** All features of a block have values, or none has. *)
Lemma feats_uniform :
  match data.(b_value) with
  | Some _ => Forall (fun r => Forall (fun f : nat * option F => is_Some f.2) (feats r)) rs
  | None => Forall (fun r => Forall (fun f : nat * option F => f.2 = None) (feats r)) rs
  end.
Proof.
  destruct (b_value data) as [vs|] eqn:Ev; apply Forall_lookup; intros i r Hr; apply Forall_lookup; intros t f Hf;
    destruct (feats_access data rs i r Hsh Hr) as (o & Eo & _);
    pose proof (feats_value data rs i r o t f Hsh Hr Eo Hf) as Hv; rewrite Ev in Hv; [|done].
  destruct Hv as (v & -> & _). by eexists.
Qed.

Lemma omap_snd_some (fs : list (nat * option F)) :
  Forall (fun f => is_Some f.2) fs -> map Some (omap snd fs) = map snd fs.
Proof. induction 1 as [|f fs [v Hv] _ IH]; simpl; [done|]. rewrite Hv. simpl. f_equal. exact IH. Qed.

Lemma omap_snd_none (fs : list (nat * option F)) : Forall (fun f => f.2 = None) fs -> omap snd fs = [].
Proof. induction 1 as [|f fs Hv _ IH]; simpl; [done|]. rewrite Hv. exact IH. Qed.

Lemma picked_Forall (P : nat * option F -> Prop) r : Forall P (feats r) -> Forall P (picked es r).
Proof.
  intros HP. apply Forall_forall. intros f [_ Hf]%list_elem_of_filter. by eapply Forall_forall in HP.
Qed.

Lemma pick_value r :
  r ∈ rs -> (a_value (pick es r) = [] /\ Forall (fun f => f.2 = None) (picked es r)) \/
            map Some (a_value (pick es r)) = map snd (picked es r).
Proof.
  intros Hr. pose proof feats_uniform as Hu. destruct (b_value data).
  - right. apply omap_snd_some, picked_Forall. by eapply Forall_forall in Hu.
  - left. assert (Forall (fun f => f.2 = None) (picked es r)) as Hn.
    { apply picked_Forall. by eapply Forall_forall in Hu. }
    split; [by apply omap_snd_none|done].
Qed.

Lemma feats_pick r : r ∈ rs -> feats (pick es r) = map (fun f => (col es f.1 - 1, f.2)) (picked es r).
Proof.
  intros Hr. assert (map Z.to_nat (a_index (pick es r)) = map (fun f => col es f.1 - 1) (picked es r)) as Hix.
  { simpl. rewrite map_map. apply map_ext. intros f. by rewrite Nat2Z.id. }
  destruct (pick_value r Hr) as [[Hv Hn]|Hv].
  - unfold feats. rewrite Hv. rewrite <- (map_map Z.to_nat (fun c => (c, None))), Hix, map_map.
    apply map_ext_in. intros f Hf%list_elem_of_In. eapply Forall_forall in Hn; [|exact Hf]. by rewrite Hn.
  - assert (forall fs : list (nat * option F), map (fun f => (col es f.1 - 1, f.2)) fs =
      zip (map (fun f => col es f.1 - 1) fs) (map snd fs)) as Hz.
    { induction fs as [|f fs IH]; simpl; [done|]. by rewrite IH. }
    rewrite Hz, <- Hv, <- Hix. unfold feats. destruct (a_value (pick es r)) as [|v vs] eqn:Ev; [|done].
    simpl in Hv. destruct (picked es r) eqn:Ep; [|discriminate]. simpl. by rewrite Ep.
Qed.

Lemma pick_nfeat r : r ∈ rs -> a_value (pick es r) <> [] -> length (a_value (pick es r)) = nfeat (pick es r).
Proof.
  intros Hr Hne. destruct (pick_value r Hr) as [[Hv _]|Hv]; [done|].
  apply (f_equal length) in Hv. rewrite !length_map in Hv. unfold nfeat. simpl. by rewrite length_map.
Qed.

Lemma default_BeginPtr {A} (l : list A) : default [] (BeginPtr l) = l.
Proof. by destruct l. Qed.

(** The block of the picked columns shows the picked rows. *)
Lemma picked_shows :
  shows 0 0 (mkBlock data.(b_size) (psums 0 (map nfeat (map (pick es) rs))) (BeginPtr (map a_label (map (pick es) rs))) None
               (BeginPtr (concat (map a_index (map (pick es) rs)))) (BeginPtr (concat (map a_value (map (pick es) rs)))))
    (map (pick es) rs).
Proof.
  set (rs' := map (pick es) rs). split; cbn [b_size b_offset b_label b_weight b_index b_value].
  - subst rs'. by rewrite (s_size _ _ _ _ Hsh), length_map.
  - apply take_ge. rewrite psums_length, length_map. lia.
  - rewrite default_BeginPtr, take_ge by (by rewrite !length_map). done.
  - subst rs'. apply Forall_map, Forall_true. done.
  - rewrite default_BeginPtr, drop_0, take_ge; [done|]. rewrite length_concat_sum, map_map. done.
  - destruct (concat (map a_value rs')) as [|v vs] eqn:Ec; simpl.
    + apply Forall_forall. intros r Hr. destruct (a_value r) as [|v vs] eqn:Ev; [done|]. exfalso.
      apply list_elem_of_lookup in Hr as [i Hi].
      assert (map a_value rs' !! i = Some (v :: vs)) as Hm by by rewrite list_lookup_fmap, Hi, <- Ev.
      pose proof (concat_lookup_piece (map a_value rs') i (v :: vs) 0 v Hm eq_refl) as Hl. by rewrite Ec in Hl.
    + assert (Forall (fun r => length (a_value r) = nfeat r) rs') as Hf.
      { subst rs'. apply Forall_map, Forall_forall. intros r Hr. simpl.
        destruct (pick_value r Hr) as [[Hv Hn]|Hv].
        - pose proof feats_uniform as Hu. destruct (b_value data) eqn:Ed.
          + destruct (picked es r) as [|f fs] eqn:Ep.
            * unfold nfeat. simpl. by rewrite Ep.
            * exfalso. assert (f ∈ feats r) as Hfr.
              { assert (f ∈ picked es r) as Hfp by (rewrite Ep; apply list_elem_of_here).
                by apply list_elem_of_filter in Hfp as [_ ?]. }
              eapply Forall_forall in Hu; [|exact Hr]. eapply Forall_forall in Hu; [|exact Hfr].
              apply Forall_cons in Hn as [Hn _]. rewrite Hn in Hu. by destruct Hu.
          + exfalso. assert (concat (map a_value (map (pick es) rs)) = []) as E0; [|congruence].
            rewrite map_map. apply concat_none. intros r' Hr'. apply omap_snd_none, picked_Forall.
            by eapply Forall_forall in Hu.
        - apply (f_equal length) in Hv. rewrite !length_map in Hv. unfold nfeat. simpl. by rewrite length_map. }
      split; [done|]. rewrite take_ge; [done|]. rewrite <- Ec, length_concat_sum, map_map.
      apply Nat.eq_le_incl. f_equal. apply map_ext_in. intros r Hr%list_elem_of_In.
      by eapply Forall_forall in Hf.
Qed.

End Pick.

(** Squaring the values. *)
Definition sq_row (r : arow (F := F)) : arow :=
  mkArow r.(a_label) r.(a_weight) r.(a_index) (map (fun v => (v * v)%F) r.(a_value)).

Lemma feats_sq r : feats (sq_row r) = map (fun f => (f.1, option_map (fun v => (v * v)%F) f.2)) (feats r).
Proof.
  assert (forall ixs (l : list F), zip (map Z.to_nat ixs) (map Some (map (fun v => (v * v)%F) l)) =
    map (fun f => (f.1, option_map (fun v => (v * v)%F) f.2)) (zip (map Z.to_nat ixs) (map Some l))) as Hz.
  { induction ixs as [|ix ixs IH]; intros [|x l]; simpl; try done. by rewrite IH. }
  unfold feats, sq_row. cbn [a_value a_index].
  specialize (Hz (a_index r) (a_value r)). destruct (a_value r) as [|v vs]; [simpl; by rewrite map_map|]. exact Hz.
Qed.

Lemma square_block_spec (M : RowBlock F) rs :
  shows 0 0 M rs -> exists XX, square_block M = Ok XX /\ shows 0 0 XX (map sq_row rs) /\ b_size XX = b_size M.
Proof.
  intros Hsh. pose proof Hsh as [Hs Ho Hl Hw Hi Hv]. unfold square_block.
  assert (map nfeat (map sq_row rs) = map nfeat rs) as Hn by by rewrite map_map.
  assert (Forall (fun r => a_value r = []) rs -> map sq_row rs = rs) as Hsame.
  { intros H. rewrite <- (map_id rs) at 2. apply map_ext_in. intros r Hr%list_elem_of_In.
    eapply Forall_forall in H; [|exact Hr]. destruct r. unfold sq_row. simpl in *. by rewrite H. }
  destruct (b_value M) as [vs|] eqn:Ev; cycle 1.
  { exists M. rewrite Hsame by done. done. }
  destruct Hv as [Hv1 Hv2]. rewrite drop_0 in Hv2.
  assert (b_offset M !! b_size M = Some (sum_list (map nfeat rs))) as Hoff.
  { assert (take (S (length rs)) (b_offset M) !! length rs = Some (sum_list (map nfeat rs))) as E.
    { rewrite Ho, psums_lookup by (by rewrite length_map). rewrite <- (length_map nfeat rs) at 1.
      by rewrite firstn_all. }
    rewrite Hs. by apply lookup_take_Some in E as [E _]. }
  rewrite (proj2 (read_at_Ok _ _ _) Hoff). cbn [mbind outcome_bind].
  set (n := sum_list (map nfeat rs)) in *.
  assert (length (concat (map a_value rs)) = n) as Hlen.
  { rewrite length_concat_sum, map_map. subst n. f_equal. apply map_ext_in. intros r Hr%list_elem_of_In.
    by eapply Forall_forall in Hv1. }
  replace (seq 0 n) with (seq 0 (length (concat (map a_value rs)))) by (by rewrite Hlen).
  rewrite (foldM_gather _ (fun v => [(v * v)%F])); cycle 1.
  { intros t v acts Ht. rewrite <- Hv2 in Ht. apply lookup_take_Some in Ht as [Ht _].
    unfold ptr_at. simpl. by rewrite (proj2 (read_at_Ok _ _ _) Ht). }
  cbn [mbind outcome_bind]. rewrite map_singleton_concat. eexists. split; [reflexivity|]. split; [|done].
  assert (concat (map a_value (map sq_row rs)) = map (fun v => (v * v)%F) (concat (map a_value rs))) as Hcv.
  { rewrite map_map, concat_map, map_map. done. }
  split; cbn [b_size b_offset b_label b_weight b_index b_value]; rewrite ?length_map, ?Hn; try done.
  - by rewrite map_map.
  - destruct (b_weight M).
    + destruct Hw as [Hw1 Hw2]. split; [by apply Forall_map|]. by rewrite map_map.
    + by apply Forall_map.
  - by rewrite map_map.
  - fold n. destruct (map (fun v => (v * v)%F) (concat (map a_value rs))) as [|x xs] eqn:Ec; simpl.
    + apply Forall_forall. intros r Hr. destruct (a_value r) as [|v vs'] eqn:E1; [done|]. exfalso.
      apply list_elem_of_lookup in Hr as [i Hr].
      assert (map a_value (map sq_row rs) !! i = Some (v :: vs')) as Hm by by rewrite list_lookup_fmap, Hr, <- E1.
      pose proof (concat_lookup_piece _ i (v :: vs') 0 v Hm eq_refl) as Hl'. by rewrite Hcv in Hl'.
    + split.
      * apply Forall_map. eapply Forall_impl; [exact Hv1|]. intros r Hr. simpl. by rewrite length_map.
      * rewrite Hcv, take_ge; [done|]. rewrite <- Ec, length_map. lia.
Qed.

End LoadSpec.
