(* ===== verification/FM.v ===== *)
(** * The factorization machine computed by the loss

    Over the exact rationals the prediction of src/src/difacto/loss.h is the
    factorization machine: the linear part plus, for every pair of features of a
    row that have embeddings, the inner product of the embeddings times the
    product of the values; and the gradients are its derivatives. *)
From S2P Require Import Prelude Floats RowBlock Parallel SpMV BinClass AdaGrad Loss.
From Stdlib Require Import QArith Lqa.
Close Scope Q_scope.

(** ** Sums of rationals *)

Lemma foldl_Qplus (l : list Q) x : (foldl Qplus x l == x + Qsum l)%Q.
Proof. revert x. induction l as [|y l IH]; intros x; simpl; [lra|]. rewrite IH. lra. Qed.

Lemma foldl_add_map {A} (g : A -> Q) l x : (foldl (fun s a => s + g a) x l == x + Qsum (map g l))%Q.
Proof. revert x. induction l as [|a l IH]; intros x; simpl; [lra|]. rewrite IH. lra. Qed.

Lemma Qsum_ext {A} (f g : A -> Q) l : (forall a, a ∈ l -> (f a == g a)%Q) -> (Qsum (map f l) == Qsum (map g l))%Q.
Proof.
  induction l as [|a l IH]; intros H; simpl; [reflexivity|].
  rewrite (H a) by apply list_elem_of_here. rewrite IH; [reflexivity|].
  intros b Hb. apply H. by apply list_elem_of_further.
Qed.

Lemma Qsum_zero {A} (f : A -> Q) l : (forall a, a ∈ l -> (f a == 0)%Q) -> (Qsum (map f l) == 0)%Q.
Proof.
  intros H. rewrite (Qsum_ext f (fun _ => 0%Q)) by done. clear. induction l as [|a l IH]; simpl; [reflexivity|].
  rewrite IH. reflexivity.
Qed.

Lemma Qsum_scal {A} (c : Q) (f : A -> Q) l : (Qsum (map (fun a => c * f a) l) == c * Qsum (map f l))%Q.
Proof. induction l as [|a l IH]; simpl; [lra|]. rewrite IH. lra. Qed.

Lemma Qsum_minus {A} (f g : A -> Q) l : (Qsum (map (fun a => f a - g a) l) == Qsum (map f l) - Qsum (map g l))%Q.
Proof. induction l as [|a l IH]; simpl; [lra|]. rewrite IH. lra. Qed.

(** The sum over the pairs of different elements. *)
Fixpoint Qpairs (l : list Q) : Q :=
  match l with [] => 0 | x :: l => x * Qsum l + Qpairs l end%Q.

(** [(sum x)^2 - sum x^2] is twice the sum over pairs. *)
Lemma square_of_sum (l : list Q) : (Qsum l * Qsum l - Qsum (map (fun x => x * x) l) == 2 * Qpairs l)%Q.
Proof. induction l as [|x l IH]; simpl; [lra|]. lra. Qed.

(** ** The reference *)

Section FM.
Context (es : list (list Q)) (dim : nat).

(** The weight of a feature and the elements of its embedding. *)
Definition w_at (k : nat) : Q := nth 0 (default [] (es !! k)) 0%Q.
Definition V_at (k c : nat) : Q := nth (S c) (default [] (es !! k)) 0%Q.

(** Whether the entry of a feature has an embedding. *)
Definition embedded (f : nat * option Q) : Prop := length (default [] (es !! f.1)) = dim + 1.
#[global] Instance embedded_dec f : Decision (embedded f).
Proof. unfold embedded. apply _. Defined.

(** The score of a row: [<w, x> + sum over pairs of <v_a, v_b> x_a x_b]. *)
Definition fm_score (r : arow (F := Q)) : Q :=
  (Qsum (map (fun f => scale (H := Qfloat) f.2 (w_at f.1)) (feats r)) +
   Qsum (map (fun c => Qpairs (map (fun f => scale (H := Qfloat) f.2 (V_at f.1 c)) (filter embedded (feats r))))
             (seq 0 dim)))%Q.

Lemma col_embedded f : 0 < col dim es f.1 <-> embedded f.
Proof.
  unfold col, embedded. destruct (es !! f.1) as [e|]; simpl; [|lia].
  destruct (decide (has_V dim e)) as [H|H]; unfold has_V in H; lia.
Qed.

Lemma picked_embedded (r : arow (F := Q)) : picked dim es r = filter embedded (feats r).
Proof. apply list_filter_iff. intros f. apply col_embedded. Qed.

Lemma V_value (f : nat * option Q) c :
  embedded f -> c < dim -> nth ((col dim es f.1 - 1) * dim + c) (concat (V_rows dim es)) 0%Q = V_at f.1 c.
Proof.
  intros He Hc. unfold embedded in He. unfold col, V_at.
  destruct (es !! f.1) as [e|] eqn:Ee; simpl in He; [|lia].
  assert (has_V dim e) as HV by done. rewrite decide_True by done. simpl.
  pose proof (rank_lookup dim es _ _ Ee HV) as Hr.
  rewrite Nat.add_sub, !nth_lookup. f_equal.
  destruct (lookup_lt_is_Some_2 e (S c)) as [v Hv]; [lia|]. rewrite Hv.
  assert (sum_list (map length (take (rank dim es f.1) (V_rows dim es))) = rank dim es f.1 * dim) as Hsum.
  { apply lookup_lt_Some in Hr. revert Hr. generalize (rank dim es f.1) as k.
    pose proof (V_rows_length dim es) as HF. generalize dependent (V_rows dim es). clear.
    intros l Hl. induction Hl as [|v l Hv Hl IH]; intros [|k] Hk; simpl in *; try lia. rewrite IH by lia. by rewrite Hv. }
  rewrite <- Hsum. eapply concat_lookup_piece; [exact Hr|]. by rewrite lookup_drop.
Qed.

Lemma MM_value (rs : list (arow (F := Q))) x i r c :
  rs !! i = Some r -> c < dim ->
  MM_ref (H := Qfloat) rs x dim !! (i * dim + c) =
  Some (foldl (fun s f => s + scale (H := Qfloat) f.2 (nth (f.1 * dim + c) x 0))%Q 0%Q (feats r)).
Proof.
  intros Hr Hc. unfold MM_ref. rewrite (concat_lookup_dim _ dim) by (intros; rewrite ?length_map, ?length_seq; lia).
  rewrite Nat.div_add_l, Nat.div_small, Nat.add_0_r by lia. rewrite Hr. simpl.
  rewrite Nat.add_comm, Nat.Div0.mod_add, Nat.mod_small by lia.
  rewrite list_lookup_fmap, lookup_seq_lt by lia. done.
Qed.

(** Row [i] of [X V] and of [(X .* X)(V .* V)]. *)
Definition terms (r : arow (F := Q)) (c : nat) : list Q :=
  map (fun f => scale (H := Qfloat) f.2 (V_at f.1 c)) (filter embedded (feats r)).

Section Data.
Context (data : RowBlock Q) (rs : list (arow (F := Q))).
Hypothesis Hsh : shows 0 0 data rs.
Hypothesis Hcols : columns_below (length es) rs.

Lemma XV_value i r c :
  rs !! i = Some r -> c < dim ->
  exists v, MM_ref (H := Qfloat) (map (pick (Float0 := Qfloat) dim es) rs) (concat (V_rows dim es)) dim !! (i * dim + c) = Some v /\
    (v == Qsum (terms r c))%Q.
Proof.
  intros Hr Hc. eexists. split.
  { apply MM_value; [|done]. by rewrite list_lookup_fmap, Hr. }
  rewrite foldl_add_map, (feats_pick dim data rs es Hsh) by by eapply list_elem_of_lookup_2.
  rewrite map_map, picked_embedded. unfold terms. rewrite Qplus_0_l. apply Qsum_ext.
  intros f [Hf _]%list_elem_of_filter. cbn [fst snd]. by rewrite V_value.
Qed.

Lemma scale_square ov (v : Q) :
  (scale (H := Qfloat) (option_map (fun x => fmul (Float := Qfloat) x x) ov) (v * v) ==
   scale (H := Qfloat) ov v * scale (H := Qfloat) ov v)%Q.
Proof. destruct ov as [x|]; simpl; [ring|reflexivity]. Qed.

Lemma nth_square (x : list Q) k : nth k (map (fun v => v * v)%Q x) 0%Q = (nth k x 0 * nth k x 0)%Q.
Proof.
  rewrite !nth_lookup, list_lookup_fmap. by destruct (x !! k).
Qed.

Lemma xxvv_value i r c :
  rs !! i = Some r -> c < dim ->
  exists v, MM_ref (H := Qfloat) (map (sq_row (Float0 := Qfloat)) (map (pick (Float0 := Qfloat) dim es) rs))
      (map (fun v => v * v)%Q (concat (V_rows dim es))) dim !! (i * dim + c) = Some v /\
    (v == Qsum (map (fun x => x * x)%Q (terms r c)))%Q.
Proof.
  intros Hr Hc. eexists. split.
  { apply MM_value; [|done]. by rewrite !list_lookup_fmap, Hr. }
  rewrite foldl_add_map, feats_sq, (feats_pick dim data rs es Hsh) by by eapply list_elem_of_lookup_2.
  rewrite !map_map, picked_embedded. unfold terms. rewrite map_map, Qplus_0_l. apply Qsum_ext.
  intros f [Hf _]%list_elem_of_filter. cbn [fst snd]. rewrite nth_square, V_value by done. apply scale_square.
Qed.

End Data.

(** The columns of the picked rows. *)
Lemma pick_columns (data : RowBlock Q) rs :
  shows 0 0 data rs -> columns_below (length (V_rows dim es)) (map (pick (Float0 := Qfloat) dim es) rs).
Proof.
  intros Hsh. apply Forall_map, Forall_forall. intros r Hr. simpl.
  rewrite (feats_pick dim data rs es Hsh) by done. apply Forall_map, Forall_forall.
  intros f [Hc _]%list_elem_of_filter. simpl. unfold col in *.
  destruct (es !! f.1) as [e|] eqn:Ee; [|lia]. case_decide as HV; [|lia].
  pose proof (rank_lookup dim es _ _ Ee HV) as Hl%lookup_lt_Some. lia.
Qed.

Lemma sq_columns n (rs : list (arow (F := Q))) :
  columns_below n rs -> columns_below n (map (sq_row (Float0 := Qfloat)) rs).
Proof.
  intros Hc. apply Forall_map. eapply Forall_impl; [exact Hc|]. intros r Hr. simpl in *.
  rewrite feats_sq. by apply Forall_map.
Qed.

Lemma V_weights_length : length (concat (V_rows dim es)) = length (V_rows dim es) * dim.
Proof.
  rewrite length_concat_sum. induction (V_rows_length dim es) as [|v l Hv _ IH]; simpl; [done|]. by rewrite IH, Hv.
Qed.

Lemma V_pos_length : length (V_pos dim es (length es)) = length (V_rows dim es).
Proof.
  assert (forall i, i <= length es -> length (V_pos dim es i) = rank dim es i) as H.
  { induction i as [|i IH]; intros Hi; [done|]. destruct (lookup_lt_is_Some_2 es i) as [e He]; [lia|].
    rewrite (V_pos_S dim es i e He), (rank_S dim es i e He), length_app, IH by lia. by case_decide. }
  rewrite H by done. unfold rank, V_rows. by rewrite firstn_all, length_map.
Qed.

(** ** Loading the model *)

Hypothesis model_small : (Z.of_nat (length (concat es)) < 2 ^ 32)%Z.
Hypothesis es_nonempty : es <> [].

Section Load.
Context (data : RowBlock Q) (rs : list (arow (F := Q))).
Hypothesis Hsh : shows 0 0 data rs.
Hypothesis Hcols : columns_below (length es) rs.

Lemma Load_w_ok d :
  exists d', Load_w (Float0 := Qfloat) data (concat es) (map length es) d = Ok d' /\
    X d' = data /\ weight d' = map (w_entry (Float0 := Qfloat)) es /\
    pos d' = map (w_pos es) (seq 0 (length es)) /\ Loss.dim d' = 0.
Proof.
  unfold Load_w. rewrite length_map. rewrite (load_w_loop (Float0 := Qfloat) es model_small). cbn [mbind outcome_bind].
  rewrite check_true by (apply bool_decide_eq_true; lia). cbn [mbind outcome_bind].
  rewrite decide_False by (destruct es; [done|discriminate]).
  destruct (square_block_spec (Float0 := Qfloat) data rs Hsh) as (XX & -> & _ & _). cbn [mbind outcome_bind].
  eexists. split; [reflexivity|]. done.
Qed.

(** What [Load] leaves for the embeddings. *)
Lemma Load_V_ok lbl wgt d :
  exists d', Load_V (Float0 := Qfloat) lbl wgt dim data (concat es) (map length es) d = Ok d' /\
    weight d' = concat (V_rows dim es) /\ pos d' = V_pos dim es (length es) /\ Loss.dim d' = dim /\
    (weight d' <> [] -> exists l0,
       shows 0 0 (mkBlock (b_size (X d')) (b_offset (X d')) l0 None (b_index (X d')) (b_value (X d')))
         (map (pick (Float0 := Qfloat) dim es) rs) /\
       shows 0 0 (mkBlock (b_size (XX d')) (b_offset (XX d')) l0 None (b_index (XX d')) (b_value (XX d')))
         (map (sq_row (Float0 := Qfloat)) (map (pick (Float0 := Qfloat) dim es) rs)) /\
       b_size (X d') = length rs /\ b_size (XX d') = length rs).
Proof.
  unfold Load_V. rewrite length_map. rewrite (load_V_loop dim es model_small). cbn [mbind outcome_bind].
  rewrite check_true by (apply bool_decide_eq_true; lia). cbn [mbind outcome_bind].
  rewrite (load_V_weights dim es). cbn [mbind outcome_bind].
  case_decide as Hw.
  { eexists. split; [reflexivity|]. cbn [weight pos Loss.dim]. rewrite Hw. done. }
  rewrite (pick_rows (Float0 := Qfloat) dim data rs es Hsh Hcols). cbn [mbind outcome_bind].
  pose proof (picked_shows (Float0 := Qfloat) dim data rs es Hsh) as Hps.
  destruct (square_block_spec (Float0 := Qfloat) _ _ Hps) as (XX0 & E0 & Hxx & Hsz).
  unfold square_block in *. cbn [b_value b_offset b_size b_label b_weight b_index] in *.
  destruct (BeginPtr (concat (map a_value (map (pick dim es) rs)))) as [vs|] eqn:Ev.
  - destruct (read_at _ (b_size data)) as [n|]; [|discriminate]. cbn [mbind outcome_bind] in *.
    destruct (foldM _ (seq 0 n) []) as [val2|]; [|discriminate]. cbn [mbind outcome_bind] in *. injection E0 as <-.
    eexists. split; [reflexivity|]. cbn [weight pos Loss.dim X XX b_value b_offset b_size b_label b_weight b_index] in *.
    split_and!; try done. intros _. eexists. split; [exact Hps|]. split; [exact Hxx|].
    by rewrite (s_size _ _ _ _ Hsh).
  - cbn [mbind outcome_bind]. injection E0 as <-.
    eexists. split; [reflexivity|]. cbn [weight pos Loss.dim X XX b_value b_offset b_size b_label b_weight b_index] in *.
    split_and!; try done. intros _. eexists. split; [exact Hps|]. split; [exact Hxx|].
    by rewrite (s_size _ _ _ _ Hsh).
Qed.

End Load.

(** ** Evaluating *)

Section Evaluate.
Context (sched : list (list (action Q)) -> list (action Q)) (shares : list (list nat)).
Hypothesis sched_ok : forall ts, interleave ts (sched ts).

Lemma SpMM_Times_relabel (M : RowBlock Q) l0 x y nt :
  SpMM_Times (H := Qfloat) (FD := Qfloat) sched M x y nt =
  SpMM_Times (H := Qfloat) (FD := Qfloat) sched (mkBlock (b_size M) (b_offset M) l0 None (b_index M) (b_value M)) x y nt.
Proof. by destruct M. Qed.

Lemma SpMM_TransTimes_relabel (M : RowBlock Q) l0 x p z y nt :
  SpMM_TransTimes (H := Qfloat) (FD := Qfloat) sched M x p z y nt =
  SpMM_TransTimes (H := Qfloat) (FD := Qfloat) sched
    (mkBlock (b_size M) (b_offset M) l0 None (b_index M) (b_value M)) x p z y nt.
Proof. by destruct M. Qed.

Context (data : RowBlock Q) (rs : list (arow (F := Q))).
Hypothesis Hsh : shows 0 0 data rs.
Hypothesis Hcols : columns_below (length es) rs.

(** The linear part. *)
Definition linear (r : arow (F := Q)) : Q := Qsum (map (fun f => scale (H := Qfloat) f.2 (w_at f.1)) (feats r)).

Lemma linear_value nt :
  0 < nt ->
  exists py, SpMV_Times (H := Qfloat) (FD := Qfloat) sched data (map (w_entry (Float0 := Qfloat)) es)
      (replicate (length rs) 0%Q) nt = Ok py /\ length py = length rs /\
    forall i r, rs !! i = Some r -> exists v, py !! i = Some v /\ (v == linear r)%Q.
Proof.
  intros Hnt. eexists. split.
  { apply (SpMV_Times_spec (H := Qfloat) (FD := Qfloat) sched sched_ok data rs Hsh).
    - by rewrite length_map.
    - by rewrite length_replicate.
    - by apply good_cuts_exact. }
  unfold Times_ref. rewrite length_zip_with, length_replicate, Nat.min_id. split; [done|].
  intros i r Hr. eexists.
  rewrite lookup_zip_with, Hr. simpl. rewrite lookup_replicate_2 by by eapply lookup_lt_Some. simpl.
  split; [reflexivity|].
  destruct (feats_access (H := Qfloat) data rs i r Hsh Hr) as (_ & _ & _ & Hl & _). unfold linear.
  case_decide as Hn.
  - assert (feats r = []) as -> by (apply nil_length_inv; lia). reflexivity.
  - unfold dot. rewrite foldl_add_map. change (fzero (Float := Qfloat)) with 0%Q. rewrite Qplus_0_l. apply Qsum_ext.
    intros f Hf. assert (nth f.1 (map (w_entry (Float0 := Qfloat)) es) 0%Q = w_at f.1) as ->; [|reflexivity].
    rewrite nth_lookup, list_lookup_fmap. unfold w_at, w_entry.
    destruct (es !! f.1) as [e|]; simpl; [|done]. by rewrite nth_lookup.
Qed.

Lemma Qsum_app_snoc l x : (Qsum (l ++ [x]) == Qsum l + x)%Q.
Proof. rewrite Qsum_app. simpl. lra. Qed.

(** The loop that adds the interactions to one prediction. *)
Lemma interaction_ok (XV xxvv py : list Q) i r p :
  py !! i = Some p -> rs !! i = Some r ->
  (forall c, c < dim -> exists v, XV !! (i * dim + c) = Some v /\ (v == Qsum (terms r c))%Q) ->
  (forall c, c < dim -> exists v, xxvv !! (i * dim + c) = Some v /\ (v == Qsum (map (fun x => x * x)%Q (terms r c)))%Q) ->
  exists p', interaction (Float0 := Qfloat) (FD := Qfloat) id id dim XV xxvv py i = Ok (<[i := p']> py) /\
    (p' == p + Qsum (map (fun c => Qpairs (terms r c)) (seq 0 dim)))%Q.
Proof.
  intros Hp Hr HX Hxx. unfold interaction.
  destruct (foldM_seq (fun s j => t ← read_at XV (i * dim + j); tt ← read_at xxvv (i * dim + j);
      Ok (fadd (Float := Qfloat) s (fsub (Float := Qfloat) (fmul (Float := Qfloat) t t) tt)))
    (fun c s => s == 2 * Qsum (map (fun c => Qpairs (terms r c)) (seq 0 c)))%Q 0 dim 0%Q) as (s & Es & Hs).
  - reflexivity.
  - intros c s Hc Hs. destruct (HX c) as (v & Ev & Hv); [lia|]. destruct (Hxx c) as (u & Eu & Hu); [lia|].
    rewrite (proj2 (read_at_Ok _ _ _) Ev). cbn [mbind outcome_bind].
    rewrite (proj2 (read_at_Ok _ _ _) Eu). cbn [mbind outcome_bind]. eexists. split; [reflexivity|].
    rewrite Nat.add_1_r, seq_S, map_app. simpl. rewrite Qsum_app_snoc, Hs, Hv, Hu.
    pose proof (square_of_sum (terms r c)). lra.
  - match goal with |- exists p', (mbind _ ?e) = _ /\ _ => assert (e = Ok s) as -> by exact Es end.
    cbn [mbind outcome_bind]. rewrite (proj2 (read_at_Ok _ _ _) Hp). cbn [mbind outcome_bind].
    rewrite write_at_lt by by eapply lookup_lt_Some. eexists. split; [reflexivity|].
    rewrite Nat.add_0_l in Hs. simpl. unfold id. rewrite Hs. change (1 / inject_Z 2)%Q with (1 # 2)%Q. lra.
Qed.

Lemma interaction_loop (XV xxvv py : list Q) :
  length py = length rs ->
  (forall i r c, rs !! i = Some r -> c < dim -> exists v, XV !! (i * dim + c) = Some v /\ (v == Qsum (terms r c))%Q) ->
  (forall i r c, rs !! i = Some r -> c < dim ->
     exists v, xxvv !! (i * dim + c) = Some v /\ (v == Qsum (map (fun x => x * x)%Q (terms r c)))%Q) ->
  exists py', foldM (interaction (Float0 := Qfloat) (FD := Qfloat) id id dim XV xxvv) (seq 0 (length py)) py = Ok py' /\
    length py' = length rs /\
    forall i r p, rs !! i = Some r -> py !! i = Some p -> exists p', py' !! i = Some p' /\
      (p' == p + Qsum (map (fun c => Qpairs (terms r c)) (seq 0 dim)))%Q.
Proof.
  intros Hl HX Hxx.
  destruct (foldM_seq (interaction (Float0 := Qfloat) (FD := Qfloat) id id dim XV xxvv) (fun k py' =>
    length py' = length rs /\ (forall i, k <= i -> py' !! i = py !! i) /\
    forall i r p, i < k -> rs !! i = Some r -> py !! i = Some p -> exists p', py' !! i = Some p' /\
      (p' == p + Qsum (map (fun c => Qpairs (terms r c)) (seq 0 dim)))%Q) 0 (length py) py) as (py' & E & H1 & _ & H2).
  - split; [done|]. split; [done|]. intros. lia.
  - intros k py' Hk (H1 & H2 & H3).
    destruct (lookup_lt_is_Some_2 py k) as [p Hp]; [lia|]. destruct (lookup_lt_is_Some_2 rs k) as [r Hr]; [lia|].
    destruct (interaction_ok XV xxvv py' k r p) as (p' & -> & Hp'); [by rewrite H2|done|by eauto..|].
    eexists. split; [reflexivity|]. rewrite length_insert. split; [done|]. split.
    + intros i Hi. rewrite list_lookup_insert_ne by lia. apply H2. lia.
    + intros i r' p0 Hi Hr' Hp0. destruct (decide (i = k)) as [->|Hne].
      * rewrite list_lookup_insert_eq by lia. simplify_eq. by exists p'.
      * rewrite list_lookup_insert_ne by done. apply H3; [lia|done..].
  - exists py'. split; [done|]. split; [done|]. intros i r p Hr Hp. apply H2; [|done..].
    apply lookup_lt_Some in Hp. lia.
Qed.

(** *** The interactions *)

(** The state of the loss for [V]. *)
Definition V_loaded (d : Data Q) : Prop :=
  weight d = concat (V_rows dim es) /\ Loss.pos d = V_pos dim es (length es) /\ Loss.dim d = dim /\ exists l0,
  shows 0 0 (mkBlock (b_size (X d)) (b_offset (X d)) l0 None (b_index (X d)) (b_value (X d)))
    (map (pick (Float0 := Qfloat) dim es) rs) /\
  shows 0 0 (mkBlock (b_size (XX d)) (b_offset (XX d)) l0 None (b_index (XX d)) (b_value (XX d)))
    (map (sq_row (Float0 := Qfloat)) (map (pick (Float0 := Qfloat) dim es) rs)) /\
  b_size (X d) = length rs /\ b_size (XX d) = length rs.

Lemma MM_ref_length (R : list (arow (F := Q))) x : length (MM_ref (H := Qfloat) R x dim) = length R * dim.
Proof.
  unfold MM_ref. induction R as [|r R IH]; [done|]. cbn [map concat length Nat.mul].
  by rewrite length_app, IH, length_map, length_seq.
Qed.

(** The evaluation with the labels of the data. *)
Definition evaluation (py : list Q) : BinClassEval Q := mkEval (default [] (b_label data)) py (length py).

Context (dexp dlog : Q -> Q) (sort : list (Q * Q) -> list (Q * Q)).
Hypothesis shares_ok : schedule (length rs) shares.

Lemma labels_length : length rs <= length (default [] (b_label data)).
Proof.
  pose proof (f_equal length (s_label _ _ _ _ Hsh)) as H. rewrite length_take, length_map in H. lia.
Qed.

Lemma objective_ok py : length py = length rs ->
  exists o, LogitObjv (Float0 := Qfloat) (Float1 := Qfloat) id id dexp dlog shares (evaluation py) = Ok o.
Proof.
  intros Hl. destruct (LogitObjv_sum dexp dlog shares (default [] (b_label data)) py (length py)) as (o & E & _).
  - rewrite Hl. apply labels_length.
  - done.
  - by rewrite Hl.
  - by exists o.
Qed.

Lemma AUC_ok py : length py = length rs -> exists a, AUC (Float0 := Qfloat) sort (evaluation py) = Ok a.
Proof.
  intros Hl. unfold AUC, auc_entries, evaluation. cbn [label_ predict_ size_].
  set (lb := default [] (b_label data)). pose proof labels_length as Hll. fold lb in Hll.
  assert (foldM (fun buff i => l ← read_at lb i; p ← read_at py i; Ok (buff ++ [(l, p)])) (seq 0 (length py)) [] =
    Ok (zip lb py)) as ->.
  { rewrite <- (foldM_snoc_all (fun i => l ← read_at lb i; p ← read_at py i; Ok (l, p)) (zip lb py)).
    - rewrite length_zip_with, Nat.min_r by lia. apply foldM_ext. intros acc i _.
      destruct (read_at lb i); simpl; [|done]. by destruct (read_at py i).
    - intros i [l p] Hi. apply lookup_zip_with_Some in Hi as (l' & p' & [= <- <-] & H1 & H2).
      apply read_at_Ok in H1 as ->. simpl. by apply read_at_Ok in H2 as ->. }
  cbn [mbind outcome_bind]. destruct (foldl _ _ _) as [area tp]. destruct (_ || _); by eexists.
Qed.

(** What the predictions of [Evaluate] are, and what it reports. *)
Definition evaluates (l' : Loss Q) (pr : LossProgress (F := Q)) (py_w : list Q) : Prop :=
  length (py_ l') = length rs /\
  (forall i r, rs !! i = Some r -> exists p, py_ l' !! i = Some p /\ (p == fm_score r)%Q) /\
  (forall i r, rs !! i = Some r -> exists p, py_w !! i = Some p /\ (p == linear r)%Q) /\
  LogitObjv (Float0 := Qfloat) (Float1 := Qfloat) id id dexp dlog shares (evaluation py_w) = Ok (objv_w pr) /\
  LogitObjv (Float0 := Qfloat) (Float1 := Qfloat) id id dexp dlog shares (evaluation (py_ l')) = Ok (objv pr) /\
  AUC (Float0 := Qfloat) sort (evaluation (py_ l')) = Ok (auc pr) /\ new_ex pr = length rs.

Lemma fm_score_linear r : (forall c, c < dim -> terms r c = []) -> (fm_score r == linear r)%Q.
Proof.
  intros H. unfold fm_score. fold (linear r).
  assert (Qsum (map (fun c => Qpairs (terms r c)) (seq 0 dim)) == 0)%Q as H0.
  { apply Qsum_zero. intros c Hc%elem_of_seq. by rewrite H by lia. }
  unfold terms in H0. rewrite H0. lra.
Qed.

Lemma no_embedding_terms r c : V_rows dim es = [] -> terms r c = [].
Proof.
  intros HV. unfold terms. destruct (filter embedded (feats r)) as [|f fs] eqn:Ef; [done|]. exfalso.
  assert (f ∈ filter embedded (feats r)) as Hf by (rewrite Ef; apply list_elem_of_here).
  apply list_elem_of_filter in Hf as [Hem _]. unfold embedded in Hem.
  destruct (es !! f.1) as [e|] eqn:Ee; simpl in Hem; [|lia].
  pose proof (rank_lookup dim es _ _ Ee Hem) as Hl. by rewrite HV in Hl.
Qed.

Lemma Evaluate_linear l :
  X (w l) = data -> weight (w l) = map (w_entry (Float0 := Qfloat)) es ->
  (forall r c, c < dim -> terms r c = []) -> weight (V l) = [] -> 0 < nt_ l ->
  exists l' pr py_w, Evaluate (Float0 := Qfloat) (FD := Qfloat) id id dexp dlog sort sched shares l = Ok (l', pr) /\
    evaluates l' pr py_w /\ w l' = w l /\ V l' = V l /\ nt_ l' = nt_ l.
Proof.
  intros HX Hw HT Hne Hnt.
  destruct (linear_value (nt_ l) Hnt) as (py & Epy & Hpl & Hpy). unfold Evaluate. rewrite HX, Hw.
  rewrite (s_size _ _ _ _ Hsh). change (fzero (Float := Qfloat)) with 0%Q. rewrite Epy. cbn [mbind outcome_bind].
  fold (evaluation py). destruct (objective_ok py Hpl) as (ow & Eow). rewrite Eow. cbn [mbind outcome_bind].
  rewrite decide_True by done. cbn [mbind outcome_bind].
  fold (evaluation py). destruct (AUC_ok py Hpl) as (a & Ea). rewrite Ea. cbn [mbind outcome_bind].
  eexists _, _, py. split; [reflexivity|]. split; [|done]. unfold evaluates. cbn [py_ objv_w objv auc new_ex].
  split_and!; try done. intros i r Hr. destruct (Hpy i r Hr) as (p & Hp & Hpe).
  exists p. split; [done|]. rewrite Hpe, fm_score_linear by auto. reflexivity.
Qed.

Hypothesis dim_pos : 0 < dim.
Hypothesis rs_nonempty : 0 < length rs.

Lemma products_ok d nt :
  V_loaded d -> weight d <> [] -> 0 < nt ->
  let R := map (pick (Float0 := Qfloat) dim es) rs in
  let vv := map (fun v => v * v)%Q (weight d) in
  SpMM_Times (H := Qfloat) (FD := Qfloat) sched (XX d) vv (replicate (length rs * dim) 0%Q) nt =
    Ok (MM_ref (H := Qfloat) (map (sq_row (Float0 := Qfloat)) R) vv dim) /\
  SpMM_Times (H := Qfloat) (FD := Qfloat) sched (X d) (weight d) (replicate (length rs * dim) 0%Q) nt =
    Ok (MM_ref (H := Qfloat) R (weight d) dim).
Proof.
  intros (Hw & _ & _ & l0 & HX & HXX & _ & _) Hne Hnt R vv.
  pose proof (pick_columns data rs Hsh) as Hpc. pose proof V_weights_length as Hlen.
  split.
  - rewrite (SpMM_Times_relabel _ l0).
    apply (SpMM_Times_spec (H := Qfloat) (FD := Qfloat) sched sched_ok _ _ HXX _ _ _ _ (length (V_rows dim es)));
      rewrite ?length_map, ?length_replicate; try done.
    + subst vv. by destruct (weight d).
    + by apply sq_columns.
    + subst vv. rewrite length_map, Hw, Hlen. done.
    + by apply good_cuts_exact.
  - rewrite (SpMM_Times_relabel _ l0).
    apply (SpMM_Times_spec (H := Qfloat) (FD := Qfloat) sched sched_ok _ _ HX _ _ _ _ (length (V_rows dim es)));
      rewrite ?length_map, ?length_replicate; try done.
    + by rewrite Hw, Hlen.
    + by apply good_cuts_exact.
Qed.

Lemma Evaluate_embedded l :
  X (w l) = data -> weight (w l) = map (w_entry (Float0 := Qfloat)) es ->
  V_loaded (V l) -> weight (V l) <> [] -> 0 < nt_ l ->
  exists l' pr py_w, Evaluate (Float0 := Qfloat) (FD := Qfloat) id id dexp dlog sort sched shares l = Ok (l', pr) /\
    evaluates l' pr py_w /\ w l' = w l /\ nt_ l' = nt_ l /\
    V l' = (let d := V l in mkData (Loss.dim d) (X d) (XX d) (weight d) (Loss.pos d)
              (MM_ref (H := Qfloat) (map (pick (Float0 := Qfloat) dim es) rs) (weight d) dim)
              (dropout d) (grad_clipping d) (grad_normalization d)).
Proof.
  intros HX Hw HV Hne Hnt. pose proof HV as (HVw & HVp & HVd & _ & _ & _ & Hsz & _).
  destruct (linear_value (nt_ l) Hnt) as (py & Epy & Hpl & Hpy). unfold Evaluate. rewrite HX, Hw.
  rewrite (s_size _ _ _ _ Hsh). change (fzero (Float := Qfloat)) with 0%Q. rewrite Epy. cbn [mbind outcome_bind].
  fold (evaluation py). destruct (objective_ok py Hpl) as (ow & Eow). rewrite Eow. cbn [mbind outcome_bind].
  rewrite decide_False by done. rewrite HVd, Hsz.
  rewrite check_true by (apply bool_decide_eq_true; rewrite length_map, HVw, HVp, V_weights_length, V_pos_length; done).
  cbn [mbind outcome_bind]. destruct (products_ok (V l) (nt_ l) HV Hne Hnt) as [Exx EX].
  change (fmul (Float := Qfloat)) with Qmult. rewrite Exx. cbn [mbind outcome_bind].
  rewrite MM_ref_length, !length_map, EX. cbn [mbind outcome_bind].
  destruct (interaction_loop (MM_ref (H := Qfloat) (map (pick (Float0 := Qfloat) dim es) rs) (weight (V l)) dim)
    (MM_ref (H := Qfloat) (map (sq_row (Float0 := Qfloat)) (map (pick (Float0 := Qfloat) dim es) rs))
       (map (fun v => v * v)%Q (weight (V l))) dim) py Hpl) as (py' & Epy' & Hl' & Hpy').
  { intros. rewrite HVw. by apply (XV_value data rs Hsh). }
  { intros. rewrite HVw. by apply (xxvv_value data rs Hsh). }
  rewrite Epy'. cbn [mbind outcome_bind]. fold (evaluation py').
  destruct (objective_ok py' Hl') as (o & Eo). rewrite Eo. cbn [mbind outcome_bind].
  fold (evaluation py'). destruct (AUC_ok py' Hl') as (a & Ea). rewrite Ea. cbn [mbind outcome_bind].
  eexists _, _, py. split; [reflexivity|]. split; [|done]. unfold evaluates. cbn [py_ objv_w objv auc new_ex].
  split_and!; try done. intros i r Hr. destruct (Hpy i r Hr) as (p & Hp & Hpe).
  destruct (Hpy' i r p Hr Hp) as (p' & Hp' & Hpe'). exists p'. split; [done|]. rewrite Hpe', Hpe. reflexivity.
Qed.

End Evaluate.

End FM.

(** ** A minibatch *)

(** The length of the embeddings the configuration asks for. *)
Definition conf_dim (conf : Config Q) : nat := match conf.(embedding) with cf :: _ => cf.(c_dim) | [] => 0 end.

Section Minibatch.
Context (sched : list (list (action Q)) -> list (action Q)) (shares : list (list nat)).
Context (dexp dlog : Q -> Q) (sort : list (Q * Q) -> list (Q * Q)).
Context (conf : Config Q) (es : list (list Q)) (data : RowBlock Q) (rs : list (arow (F := Q))).

(** The threads interleave and share the work in some way; the block shows the
    rows, whose columns are the features of the model that was pulled. *)
Record minibatch : Prop := {
  mb_sched : forall ts, interleave ts (sched ts);
  mb_shares : schedule (length rs) shares;
  mb_shows : shows 0 0 data rs;
  mb_columns : columns_below (length es) rs;
  mb_rows : 0 < length rs;
  mb_model : es <> [];
  mb_small : (Z.of_nat (length (concat es)) < 2 ^ 32)%Z;
  mb_threads : 0 < conf.(num_threads) }.

Definition loss_clip (l : Loss Q) (cf : EmbeddingConf Q) : Prop :=
  dropout (V l) = cf.(c_dropout) /\ grad_clipping (V l) = cf.(c_grad_clipping) /\
  grad_normalization (V l) = cf.(c_grad_normalization).

Lemma new_Loss_ok lbl wgt :
  minibatch ->
  exists l, new_Loss (Float0 := Qfloat) lbl wgt data (concat es) (map length es) conf = Ok l /\
    X (w l) = data /\ weight (w l) = map (w_entry (Float0 := Qfloat)) es /\
    Loss.pos (w l) = map (w_pos es) (seq 0 (length es)) /\ Loss.dim (w l) = 0 /\ nt_ l = conf.(num_threads) /\
    (weight (V l) = [] /\ (0 < conf_dim conf -> V_rows (conf_dim conf) es = []) \/
     0 < conf_dim conf /\ V_loaded es (conf_dim conf) rs (V l) /\ weight (V l) <> [] /\
     exists cf, head conf.(embedding) = Some cf /\ loss_clip l cf).
Proof.
  intros [_ _ Hsh Hc Hn Hm Hsm Hnt]. unfold new_Loss, conf_dim.
  destruct (Load_w_ok es Hsm Hm data rs Hsh Hc (new_data (Float0 := Qfloat))) as (wd & -> & H1 & H2 & H3 & H4).
  cbn [mbind outcome_bind]. destruct (embedding conf) as [|cf cfs] eqn:Ee.
  { eexists. split; [reflexivity|]. cbn [w V nt_]. split_and!; try done. left. split; [done|]. intros. lia. }
  case_decide as Hd.
  { eexists. split; [reflexivity|]. cbn [w V nt_]. split_and!; try done. left. split; [done|]. intros. lia. }
  destruct (Load_V_ok es (c_dim cf) Hsm data rs Hsh Hc lbl wgt (new_data (Float0 := Qfloat))) as (Vd & -> & H5 & H6 & H7 & H8).
  cbn [mbind outcome_bind]. eexists. split; [reflexivity|]. cbn [w V nt_ weight]. split_and!; try done.
  destruct (decide (weight Vd = [])) as [E0|E0].
  - left. split; [done|]. intros _. rewrite H5 in E0. apply (f_equal length) in E0. rewrite V_weights_length in E0. simpl in E0.
    apply nil_length_inv. nia.
  - right. split; [lia|]. destruct (H8 E0) as (l0 & HX & HXX & Hs1 & Hs2). split; [|split; [done|]].
    + unfold V_loaded. cbn [weight Loss.pos Loss.dim X XX]. split_and!; try done. by exists l0.
    + exists cf. done.
Qed.

(** C10: [Evaluate] on a new [Loss] computes the factorization machine: the
    prediction of every row is [<w, x>] plus the sum over the pairs of its
    features with embeddings of [<v_a, v_b> x_a x_b]; [objv_w] is the objective
    of the linear part, [objv] and [auc] those of the predictions and [new_ex]
    the number of rows.  It holds for every interleaving and number of threads. *)
Theorem Evaluate_correct lbl wgt :
  minibatch ->
  exists l l' pr py_w,
    new_Loss (Float0 := Qfloat) lbl wgt data (concat es) (map length es) conf = Ok l /\
    Evaluate (Float0 := Qfloat) (FD := Qfloat) id id dexp dlog sort sched shares l = Ok (l', pr) /\
    evaluates es (conf_dim conf) shares data rs dexp dlog sort l' pr py_w.
Proof.
  intros Hmb. destruct (new_Loss_ok lbl wgt Hmb) as (l & -> & H1 & H2 & _ & _ & H5 & H6).
  destruct Hmb as [Hs1 Hs2 Hsh Hc Hn Hm Hsm Hnt]. exists l.
  destruct H6 as [[H6 H7]|(Hd & H6 & H7 & _)].
  - destruct (Evaluate_linear es (conf_dim conf) sched shares Hs1 data rs Hsh Hc dexp dlog sort Hs2 l H1 H2)
      as (l' & pr & pw & E & He & _); [|done|lia|].
    + intros r c Hc'. apply no_embedding_terms, H7. lia.
    + by exists l', pr, pw.
  - destruct (Evaluate_embedded es (conf_dim conf) sched shares Hs1 data rs Hsh Hc dexp dlog sort Hs2 Hd Hn l H1 H2)
      as (l' & pr & pw & E & He & _); [done..|lia|]. by exists l', pr, pw.
Qed.

End Minibatch.

(** ** Example *)

(** Three features, the first and the last with an embedding. *)
Definition ex_es : list (list Q) := [[1; 2; 3]; [4]; [5; 6; 7]]%Q.
Definition ex_qconf : Config Q :=
  mkConfig 0%Q 0%Q 1%Q 1%Q false [mkEmbConf 2 1 0%Q None 1%Q None 0%Q 0%Q 0%Q] 2 false false None 0%Q false false 0.

Lemma ex_minibatch : minibatch (@concat _) [[1]; [0; 2]] ex_qconf ex_es demo_mat demo_mat_rows.
Proof.
  split; simpl; try lia.
  - apply interleave_concat.
  - unfold schedule. simpl. apply Permutation_swap.
  - apply demo_mat_shows.
  - repeat constructor.
  - discriminate.
Qed.

Lemma Evaluate_correct_witness :
  exists l l' pr p,
    new_Loss (Float0 := Qfloat) None None demo_mat (concat ex_es) (map length ex_es) ex_qconf = Ok l /\
    Evaluate (Float0 := Qfloat) (FD := Qfloat) id id (fun x => x) (fun x => x) ex_sort (@concat _) [[1]; [0; 2]] l = Ok (l', pr) /\
    py_ l' !! 0 = Some p /\ (p == 515)%Q.
Proof.
  destruct (Evaluate_correct (@concat _) [[1]; [0; 2]] (fun x => x) (fun x => x) ex_sort ex_qconf ex_es demo_mat
    demo_mat_rows None None ex_minibatch) as (l & l' & pr & pw & E1 & E2 & _ & Hp & _).
  destruct (Hp 0 _ eq_refl) as (p & Ep & Hpe). exists l, l', pr, p. split; [exact E1|]. split; [exact E2|].
  split; [exact Ep|]. rewrite Hpe. reflexivity.
Defined.
