(* ===== verification/FMGrad.v ===== *)
(** * The gradients of the factorization machine

    [CalcGrad] of src/src/difacto/loss.h over the exact rationals: the cell of
    the gradient of a weight or of an element of an embedding is the sum over
    the rows of the derivative of the loss times the derivative of the score of
    the row. *)
From S2P Require Import Prelude Floats RowBlock Parallel SpMV BinClass AdaGrad Loss FM.
From Stdlib Require Import QArith Qminmax Lqa.
Close Scope Q_scope.

(** ** Writing the gradient *)

Section Save.
Context (d : Data Q) (k : nat) (grad : list Q).
Hypothesis k_pos : 0 < k.
Hypothesis weights : length (weight d) = length (Loss.pos d) * k.

(** Feature [i] has its gradient at [p]. *)
Definition placed (i : nat) (p : Z) : Prop := Loss.pos d !! i = Some p /\ p <> no_pos.

Hypothesis fits : forall i p, placed i p -> Z.to_nat p + k <= length grad.
Hypothesis apart : forall i j p q, i < j -> placed i p -> placed j q -> Z.to_nat p + k <= Z.to_nat q.

Lemma Save_loop :
  exists g, foldM (Save_step d k) (seq 0 (length (Loss.pos d))) grad = Ok g /\ length g = length grad /\
    (forall i p c, placed i p -> c < k -> g !! (Z.to_nat p + c) = weight d !! (i * k + c)) /\
    (forall n, (forall i p, placed i p -> ~ (Z.to_nat p <= n < Z.to_nat p + k)) -> g !! n = grad !! n).
Proof.
  destruct (foldM_seq (Save_step d k) (fun m g => length g = length grad /\
    (forall i p c, i < m -> placed i p -> c < k -> g !! (Z.to_nat p + c) = weight d !! (i * k + c)) /\
    (forall n, (forall i p, placed i p -> ~ (Z.to_nat p <= n < Z.to_nat p + k)) -> g !! n = grad !! n))
    0 (length (Loss.pos d)) grad) as (g & E & H1 & H2 & H3).
  - split_and!; try done. intros. lia.
  - intros m g Hm (H1 & H2 & H3). destruct (lookup_lt_is_Some_2 (Loss.pos d) m) as [p Hp]; [lia|].
    unfold Save_step. rewrite (proj2 (read_at_Ok _ _ _) Hp). cbn [mbind outcome_bind]. case_decide as Hno.
    { exists g. split_and!; try done. intros i q c Hi Hq Hc. apply H2; [|done..].
      destruct (decide (i = m)) as [->|]; [|lia]. destruct Hq as [Hq Hq']. congruence. }
    assert (placed m p) as Hpm by done. pose proof (fits m p Hpm) as Hf.
    assert (m * k + k <= length (weight d)) as Hw by (rewrite weights; nia).
    rewrite decide_True by lia. eexists. split; [reflexivity|]. rewrite length_inserts. split; [done|].
    assert (length (segment (m * k) (m * k + k) (weight d)) = k) as Hsl by (rewrite segment_length; lia).
    split.
    + intros i q c Hi Hq Hc. destruct (decide (i = m)) as [->|Hne].
      * destruct Hq as [Hq _]. rewrite Hp in Hq. injection Hq as <-.
        rewrite list_lookup_inserts by lia. replace (Z.to_nat p + c - Z.to_nat p) with c by lia.
        rewrite segment_lookup by lia. done.
      * pose proof (apart i m q p ltac:(lia) Hq Hpm). rewrite list_lookup_inserts_lt by lia. apply H2; [lia|done..].
    + intros n Hn. pose proof (Hn m p Hpm). destruct (decide (n < Z.to_nat p)) as [Hlt|Hge].
      * rewrite list_lookup_inserts_lt by lia. by apply H3.
      * rewrite list_lookup_inserts_ge by lia. by apply H3.
  - exists g. split_and!; try done. intros i p c Hp Hc. apply H2; [|done..].
    destruct Hp as [Hp _]. by apply lookup_lt_Some in Hp.
Qed.

End Save.

(** ** Scaling the rows of a matrix *)

Lemma scale_rows (g : Q -> Q -> Q) (xs l : list Q) m dim :
  0 < dim -> length xs = m -> length l = m * dim ->
  foldM (fun l i => x ← read_at xs i;
    foldM (fun l j => v ← read_at l (i * dim + j); write_at l (i * dim + j) (g v x)) (seq 0 dim) l) (seq 0 m) l =
  Ok (imap (fun k v => g v (nth (k / dim) xs 0%Q)) l).
Proof.
  intros Hd Hx Hl. set (h := fun k v => g v (nth (k / dim) xs 0%Q)).
  set (done_upto := fun (b : nat) (l' : list Q) => length l' = length l /\
    forall k, l' !! k = (if decide (k < b) then h k else id) <$> l !! k).
  destruct (foldM_seq (fun l i => x ← read_at xs i;
    foldM (fun l j => v ← read_at l (i * dim + j); write_at l (i * dim + j) (g v x)) (seq 0 dim) l)
    (fun i => done_upto (i * dim)) 0 m l) as (l' & -> & Hl' & H').
  - split; [done|]. intros k. rewrite decide_False by lia. by rewrite option_fmap_id.
  - intros i l1 Hi Hl1. destruct (lookup_lt_is_Some_2 xs i) as [x Ex]; [lia|].
    rewrite (proj2 (read_at_Ok _ _ _) Ex). cbn [mbind outcome_bind].
    destruct (foldM_seq (fun l j => v ← read_at l (i * dim + j); write_at l (i * dim + j) (g v x))
      (fun j => done_upto (i * dim + j)) 0 dim l1) as (l2 & -> & Hl2).
    + by rewrite Nat.add_0_r.
    + intros j l2 Hj [Hl2 H2]. destruct (lookup_lt_is_Some_2 l (i * dim + j)) as [v Ev]; [nia|].
      assert (l2 !! (i * dim + j) = Some v) as Ev2 by (rewrite H2, Ev, decide_False by lia; done).
      rewrite (proj2 (read_at_Ok _ _ _) Ev2). cbn [mbind outcome_bind].
      rewrite write_at_lt by by eapply lookup_lt_Some. eexists. split; [reflexivity|]. split; [by rewrite length_insert|].
      intros k. destruct (decide (k = i * dim + j)) as [->|Hne].
      * rewrite list_lookup_insert_eq by by eapply lookup_lt_Some. rewrite Ev, decide_True by lia. simpl. unfold h.
        rewrite Nat.div_add_l, Nat.div_small, Nat.add_0_r by lia. by rewrite nth_lookup, Ex.
      * rewrite list_lookup_insert_ne by done. rewrite H2.
        destruct (decide (k < i * dim + j)), (decide (k < i * dim + (j + 1))); try done; lia.
    + eexists. split; [reflexivity|]. rewrite Nat.add_0_l in Hl2. by replace ((i + 1) * dim) with (i * dim + dim) by lia.
  - f_equal. apply list_eq. intros k. rewrite H', list_lookup_imap, Nat.add_0_l.
    destruct (l !! k) as [v|] eqn:Ev; [|done]. apply lookup_lt_Some in Ev. simpl. rewrite decide_True by lia. done.
Qed.

(** ** Sums over the rows *)

(** [sum_i p_i g(r_i)] *)
Definition over_rows (rs : list (arow (F := Q))) (ps : list Q) (g : arow (F := Q) -> Q) : Q :=
  Qsum (zip_with (fun r p => p * g r)%Q rs ps).

Lemma Qsum_cons x l : Qsum (x :: l) = (x + Qsum l)%Q.
Proof. done. Qed.

Lemma Qsum_concat ls : (Qsum (concat ls) == Qsum (map Qsum ls))%Q.
Proof. induction ls as [|l ls IH]; simpl; [reflexivity|]. rewrite Qsum_app, IH. reflexivity. Qed.

Lemma over_rows_imap {B} (conv : arow (F := Q) -> B) (F : nat -> B -> list Q) rs ps (g : arow (F := Q) -> Q) :
  length rs = length ps ->
  (forall i r p, rs !! i = Some r -> ps !! i = Some p -> (Qsum (F i (conv r)) == p * g r)%Q) ->
  (Qsum (concat (imap F (map conv rs))) == over_rows rs ps g)%Q.
Proof.
  revert ps F. induction rs as [|r rs IH]; intros [|p ps] F Hl HF; try discriminate; [reflexivity|].
  cbn [map]. rewrite imap_cons. cbn [concat]. rewrite Qsum_app. unfold over_rows. cbn [zip_with]. rewrite !Qsum_cons.
  rewrite (HF 0 r p eq_refl eq_refl). rewrite (IH ps (F ∘ S)).
  - reflexivity.
  - by injection Hl.
  - intros i r' p' Hr Hp. by apply (HF (S i)).
Qed.

Lemma over_rows_plus rs ps f g :
  (over_rows rs ps f + over_rows rs ps g == over_rows rs ps (fun r => f r + g r))%Q.
Proof.
  revert ps. induction rs as [|r rs IH]; intros [|p ps]; try reflexivity. unfold over_rows in *.
  cbn [zip_with]. rewrite !Qsum_cons. pose proof (IH ps). lra.
Qed.

Lemma over_rows_scal rs ps c g : (c * over_rows rs ps g == over_rows rs ps (fun r => c * g r))%Q.
Proof.
  unfold over_rows. revert ps. induction rs as [|r rs IH]; intros [|p ps]; cbn [zip_with]; rewrite ?Qsum_cons;
    [simpl; lra..|]. pose proof (IH ps). lra.
Qed.

Lemma over_rows_ext rs ps f g : (forall r, (f r == g r)%Q) -> (over_rows rs ps f == over_rows rs ps g)%Q.
Proof.
  intros H. revert ps. induction rs as [|r rs IH]; intros [|p ps]; try reflexivity. unfold over_rows in *.
  cbn [zip_with]. rewrite !Qsum_cons. rewrite H, (IH ps). reflexivity.
Qed.

Lemma scale_linear ov (a b : Q) :
  (scale (H := Qfloat) ov (a * b) == a * scale (H := Qfloat) ov b)%Q.
Proof. destruct ov; simpl; [ring|reflexivity]. Qed.

Lemma scale_minus ov (a b : Q) :
  (scale (H := Qfloat) ov (a - b) == scale (H := Qfloat) ov a - scale (H := Qfloat) ov b)%Q.
Proof. destruct ov; simpl; [ring|reflexivity]. Qed.

#[local] Instance scale_proper ov : Proper (Qeq ==> Qeq) (scale (H := Qfloat) ov).
Proof. intros a b Hab. destruct ov; simpl; [by rewrite Hab|done]. Qed.

(** ** The derivatives of the score *)

(** Shifting every term [t a] by [h * d a]. *)
Lemma Qsum_shift {A} (t d : A -> Q) h l :
  (Qsum (map (fun a => t a + h * d a) l) == Qsum (map t l) + h * Qsum (map d l))%Q.
Proof. induction l as [|a l IH]; cbn [map]; rewrite ?Qsum_cons; [simpl; lra|]. rewrite IH. ring. Qed.

Lemma Qpairs_shift {A} (t d : A -> Q) h l :
  (Qpairs (map (fun a => t a + h * d a) l) ==
   Qpairs (map t l) + h * Qsum (map (fun a => d a * (Qsum (map t l) - t a)) l) + h * h * Qpairs (map d l))%Q.
Proof.
  assert (forall l s, Qsum (map (fun a => d a * (s - t a)) l) ==
    s * Qsum (map d l) - Qsum (map (fun a => d a * t a) l))%Q as Hd.
  { clear. intros l s. induction l as [|a l IH]; cbn [map]; rewrite ?Qsum_cons; [simpl; lra|]. rewrite IH. ring. }
  rewrite Hd. induction l as [|a l IH]; [simpl; lra|]. cbn [map Qpairs]. rewrite !Qsum_cons, Qsum_shift, IH. ring.
Qed.

Lemma Qpairs_ext {A} (f g : A -> Q) l : (forall a, a ∈ l -> (f a == g a)%Q) -> (Qpairs (map f l) == Qpairs (map g l))%Q.
Proof.
  induction l as [|a l IH]; intros H; cbn [map Qpairs]; [reflexivity|].
  rewrite (H a) by apply list_elem_of_here. rewrite (Qsum_ext f g), IH; [reflexivity|..];
    intros b Hb; apply H; by apply list_elem_of_further.
Qed.

Lemma Qsum_single (F G : nat -> Q) c b n :
  b <= c < b + n -> (forall j, (F j == G j + (if decide (j = c) then F c - G c else 0))%Q) ->
  (Qsum (map F (seq b n)) == Qsum (map G (seq b n)) + (F c - G c))%Q.
Proof.
  intros Hc HF. revert b Hc. induction n as [|n IH]; intros b Hc; [lia|]. cbn [seq map]. rewrite !Qsum_cons.
  destruct (decide (b = c)) as [->|Hne].
  - rewrite (Qsum_ext F G); [lra|]. intros j Hj%elem_of_seq. rewrite HF, decide_False by lia. lra.
  - rewrite IH by lia. pose proof (HF b) as Hb. rewrite decide_False in Hb by done. lra.
Qed.

Section Derivative.
Context (es : list (list Q)) (dim : nat).

(** The occurrences of feature [k] in a row. *)
Definition occ (k : nat) (r : arow (F := Q)) : list (nat * option Q) := filter (fun f => f.1 = k) (feats r).

(** The derivatives of the score of a row by [w_k] and by [V_kc]. *)
Definition fm_dw (r : arow (F := Q)) (k : nat) : Q := Qsum (map (fun f => scale (H := Qfloat) f.2 1%Q) (occ k r)).
Definition fm_dV (r : arow (F := Q)) (k c : nat) : Q :=
  Qsum (map (fun f => scale (H := Qfloat) f.2 (Qsum (terms es dim r c) - scale (H := Qfloat) f.2 (V_at es k c))%Q) (occ k r)).

(** The model with [h] added to element [j] of the entry of feature [k]. *)
Definition nudge (h : Q) (k j : nat) : list (list Q) := alter (alter (Qplus h) j) k es.

Lemma nudge_lookup h k j i x e :
  es !! i = Some e -> e !! x = Some (nth x e 0%Q) ->
  nth x (default [] (nudge h k j !! i)) 0%Q = (if decide (i = k /\ x = j) then h + nth x e 0 else nth x e 0)%Q.
Proof.
  intros He Hx. unfold nudge. destruct (decide (i = k)) as [->|Hne].
  - rewrite list_lookup_alter_eq, He. simpl. rewrite nth_lookup. destruct (decide (x = j)) as [->|Hne].
    + rewrite list_lookup_alter_eq, Hx, decide_True by done. done.
    + rewrite list_lookup_alter_ne, Hx, decide_False by naive_solver. done.
  - rewrite list_lookup_alter_ne, He, decide_False by naive_solver. done.
Qed.

Lemma nudge_at h k j i x :
  x < length (default [] (es !! k)) \/ i <> k \/ x <> j ->
  (nth x (default [] (nudge h k j !! i)) 0 ==
   nth x (default [] (es !! i)) 0 + (if decide (i = k /\ x = j) then h else 0))%Q.
Proof.
  intros Hok. destruct (es !! i) as [e|] eqn:He.
  - destruct (decide (x < length e)) as [Hx|Hx].
    + rewrite (nudge_lookup h k j i x e); [|done|]; cycle 1.
      { destruct (lookup_lt_is_Some_2 e x Hx) as [v Hv]. by rewrite nth_lookup, Hv. }
      simpl. destruct (decide (i = k /\ x = j)); lra.
    + rewrite decide_False by (intros [-> ->]; rewrite He in Hok; simpl in Hok; destruct Hok as [|[|]]; congruence || lia).
      rewrite !nth_overflow; [lra|simpl; lia|]. unfold nudge.
      destruct (decide (i = k)) as [->|Hne]; [rewrite list_lookup_alter_eq|rewrite list_lookup_alter_ne by done];
        rewrite He; simpl; rewrite ?length_alter; lia.
  - rewrite decide_False by (intros [-> ->]; rewrite He in Hok; simpl in Hok; destruct Hok as [|[|]]; congruence || lia).
    assert (nudge h k j !! i = None) as ->; [|simpl; destruct x; lra].
    unfold nudge. apply lookup_ge_None. rewrite length_alter. by apply lookup_ge_None.
Qed.

Lemma nudge_embedded h k j f : embedded (nudge h k j) dim f <-> embedded es dim f.
Proof.
  unfold embedded, nudge. destruct (decide (f.1 = k)) as [->|Hne];
    [rewrite list_lookup_alter_eq|by rewrite list_lookup_alter_ne by done].
  destruct (es !! k); simpl; [by rewrite length_alter|done].
Qed.

Lemma occ_embedded k r :
  embedded es dim (k, None) -> filter (fun f => f.1 = k) (filter (embedded es dim) (feats r)) = occ k r.
Proof.
  intros Hk. rewrite list_filter_filter. apply list_filter_iff. intros f. split; [naive_solver|].
  intros Hf. split; [done|]. unfold embedded in *. simpl in Hk. by rewrite Hf.
Qed.

Lemma Qsum_filter_if (P : nat * option Q -> Prop) `{!forall f, Decision (P f)} (g : nat * option Q -> Q) l :
  (Qsum (map (fun f => if decide (P f) then g f else 0) l) == Qsum (map g (filter P l)))%Q.
Proof.
  induction l as [|f l IH]; [reflexivity|]. rewrite filter_cons. cbn [map].
  rewrite Qsum_cons, IH. case_decide; cbn [map]; rewrite ?Qsum_cons; lra.
Qed.

Lemma Qpairs_filter_if (P : nat * option Q -> Prop) `{!forall f, Decision (P f)} (g : nat * option Q -> Q) l :
  (Qpairs (map (fun f => if decide (P f) then g f else 0) l) == Qpairs (map g (filter P l)))%Q.
Proof.
  induction l as [|f l IH]; [reflexivity|]. rewrite filter_cons. cbn [map Qpairs].
  rewrite Qsum_filter_if, IH. case_decide; cbn [map Qpairs]; lra.
Qed.

Lemma fm_dw_derivative h k r :
  0 < length (default [] (es !! k)) ->
  (fm_score (nudge h k 0) dim r == fm_score es dim r + h * fm_dw r k)%Q.
Proof.
  intros Hk. unfold fm_score.
  assert (Qsum (map (fun c => Qpairs (map (fun f => scale (H := Qfloat) f.2 (V_at (nudge h k 0) f.1 c))
      (filter (embedded (nudge h k 0) dim) (feats r)))) (seq 0 dim)) ==
    Qsum (map (fun c => Qpairs (map (fun f => scale (H := Qfloat) f.2 (V_at es f.1 c))
      (filter (embedded es dim) (feats r)))) (seq 0 dim)))%Q as ->.
  { apply Qsum_ext. intros c _. rewrite (list_filter_iff _ _ _ (nudge_embedded h k 0)). apply Qpairs_ext.
    intros f _. unfold V_at. rewrite nudge_at by (right; right; done). rewrite decide_False by naive_solver.
    by rewrite Qplus_0_r. }
  assert (Qsum (map (fun f => scale (H := Qfloat) f.2 (w_at (nudge h k 0) f.1)) (feats r)) ==
    Qsum (map (fun f => scale (H := Qfloat) f.2 (w_at es f.1)) (feats r)) + h * fm_dw r k)%Q as ->; [|lra].
  unfold fm_dw, occ. rewrite <- (Qsum_filter_if (fun f => f.1 = k)), <- Qsum_shift. apply Qsum_ext.
  intros f _. unfold w_at. rewrite nudge_at by (destruct (decide (f.1 = k)); auto).
  destruct (decide (f.1 = k)) as [E|E].
  - rewrite decide_True by done. destruct (f.2); simpl; ring.
  - rewrite decide_False by naive_solver. rewrite Qplus_0_r, Qmult_0_r, Qplus_0_r. reflexivity.
Qed.

Lemma fm_dV_derivative h k c r :
  embedded es dim (k, None) -> c < dim ->
  (fm_score (nudge h k (S c)) dim r ==
   fm_score es dim r + h * fm_dV r k c +
   h * h * Qpairs (map (fun f => scale (H := Qfloat) f.2 1%Q) (occ k r)))%Q.
Proof.
  intros Hk Hc. unfold fm_score.
  assert (Qsum (map (fun f => scale (H := Qfloat) f.2 (w_at (nudge h k (S c)) f.1)) (feats r)) ==
    Qsum (map (fun f => scale (H := Qfloat) f.2 (w_at es f.1)) (feats r)))%Q as ->.
  { apply Qsum_ext. intros f _. unfold w_at. rewrite nudge_at by (right; right; done).
    rewrite decide_False by naive_solver. by rewrite Qplus_0_r. }
  set (F := fun es c => Qpairs (map (fun f => scale (H := Qfloat) f.2 (V_at es f.1 c)) (filter (embedded es dim) (feats r)))).
  set (d := fun f : nat * option Q => if decide (f.1 = k) then scale (H := Qfloat) f.2 1%Q else 0%Q).
  assert (forall j, F (nudge h k (S c)) j == F es j +
    (if decide (j = c) then h * Qsum (map (fun f => d f * (Qsum (terms es dim r c) -
       scale (H := Qfloat) f.2 (V_at es f.1 c))) (filter (embedded es dim) (feats r))) +
       h * h * Qpairs (map d (filter (embedded es dim) (feats r))) else 0))%Q as HF.
  { intros j. unfold F. rewrite (list_filter_iff _ _ _ (nudge_embedded h k (S c))). case_decide as Hj.
    - subst j. unfold terms. rewrite Qplus_assoc, <- Qpairs_shift. apply Qpairs_ext.
      intros f [Hf _]%list_elem_of_filter. unfold V_at, d. rewrite nudge_at by
        (destruct (decide (f.1 = k)); [left; unfold embedded in Hk; simpl in Hk; lia|auto]).
      destruct (decide (f.1 = k)) as [E|E].
      + rewrite decide_True by done. destruct (f.2); simpl; ring.
      + rewrite decide_False by naive_solver. rewrite Qplus_0_r, Qmult_0_r, Qplus_0_r. reflexivity.
    - rewrite Qplus_0_r. apply Qpairs_ext. intros f _. unfold V_at. rewrite nudge_at by (right; right; congruence).
      rewrite decide_False by naive_solver. by rewrite Qplus_0_r. }
  match goal with |- (_ + ?b == (_ + ?b') + _ + _)%Q =>
    change b with (Qsum (map (F (nudge h k (S c))) (seq 0 dim))); change b' with (Qsum (map (F es) (seq 0 dim))) end.
  rewrite (Qsum_single (F (nudge h k (S c))) (F es) c); [|lia|]; cycle 1.
  { intros j. pose proof (HF j) as Hj. pose proof (HF c) as Hc'. rewrite (decide_True (P := c = c)) in Hc' by done.
    destruct (decide (j = c)) as [->|]; lra. }
  pose proof (HF c) as Hc'. rewrite (decide_True (P := c = c)) in Hc' by done.
  assert (Qsum (map (fun f => d f * (Qsum (terms es dim r c) - scale (H := Qfloat) f.2 (V_at es f.1 c)))
    (filter (embedded es dim) (feats r))) == fm_dV r k c)%Q as HV.
  { unfold fm_dV. rewrite <- (occ_embedded k r Hk), <- (Qsum_filter_if (fun f => f.1 = k)). apply Qsum_ext.
    intros f _. unfold d. destruct (decide (f.1 = k)) as [->|]; [|lra]. destruct (f.2); simpl; ring. }
  assert (Qpairs (map d (filter (embedded es dim) (feats r))) ==
    Qpairs (map (fun f => scale (H := Qfloat) f.2 1%Q) (occ k r)))%Q as HP.
  { rewrite <- (occ_embedded k r Hk). unfold d. apply Qpairs_filter_if. }
  rewrite HV, HP in Hc'. lra.
Qed.

End Derivative.

(** ** The products of [CalcGrad] *)

Section CalcGrad.
Context (es : list (list Q)) (dim : nat) (data : RowBlock Q) (rs : list (arow (F := Q))).
Hypothesis Hsh : shows 0 0 data rs.

Lemma rank_mono i j : i <= j -> j <= length es -> rank dim es i <= rank dim es j.
Proof using.
  intros Hij Hj. induction Hij as [|j Hij IH]; [done|].
  destruct (lookup_lt_is_Some_2 es j) as [e He]; [lia|]. rewrite (rank_S dim es j e He).
  specialize (IH ltac:(lia)). lia.
Qed.

Lemma col_inj k k' : embedded es dim (k, None) -> 0 < col dim es k' -> col dim es k' - 1 = rank dim es k -> k' = k.
Proof using.
  unfold embedded, col. simpl. intros Hk Hc Hr.
  destruct (es !! k) as [e|] eqn:Ek; simpl in Hk; [|lia].
  destruct (es !! k') as [e'|] eqn:Ek'; [|lia]. destruct (decide (has_V dim e')) as [HV|HV]; [|lia].
  apply lookup_lt_Some in Ek as Hlk. apply lookup_lt_Some in Ek' as Hlk'.
  destruct (decide (k' < k)) as [Hlt|]; [|destruct (decide (k < k')) as [Hlt|]; [|lia]]; exfalso.
  - pose proof (rank_mono (S k') k ltac:(lia) ltac:(lia)) as Hm. rewrite (rank_S dim es k' e' Ek'), decide_True in Hm by done. lia.
  - pose proof (rank_mono (S k) k' ltac:(lia) ltac:(lia)) as Hm. rewrite (rank_S dim es k e Ek), decide_True in Hm by done. lia.
Qed.

(** The picked column of an embedded feature has its occurrences. *)
Lemma occ_pick k r :
  r ∈ rs -> embedded es dim (k, None) ->
  map snd (filter (fun f => f.1 = rank dim es k) (feats (pick (Float0 := Qfloat) dim es r))) = map snd (occ k r).
Proof.
  intros Hr Hk. rewrite (feats_pick dim data rs es Hsh) by done. unfold picked, occ.
  assert (0 < col dim es k /\ col dim es k - 1 = rank dim es k) as [Hck Hrk].
  { unfold embedded in Hk. simpl in Hk. unfold col. destruct (es !! k) as [e|]; simpl in Hk; [|lia].
    rewrite decide_True by done. lia. }
  induction (feats r) as [|f fs IH]; [done|]. rewrite !filter_cons.
  destruct (decide (f.1 = k)) as [E|E].
  - rewrite E, decide_True by done. cbn [map]. rewrite filter_cons. cbn [fst]. rewrite E, decide_True by done.
    cbn [map snd]. by rewrite IH.
  - case_decide as Hc; [|exact IH]. cbn [map]. rewrite filter_cons. cbn [fst].
    rewrite decide_False; [exact IH|]. intros Hcol. apply E. by apply col_inj.
Qed.

Lemma Qsum_occ_pick (g : option Q -> Q) k r :
  r ∈ rs -> embedded es dim (k, None) ->
  Qsum (map (fun f => g f.2) (filter (fun f => f.1 = rank dim es k) (feats (pick (Float0 := Qfloat) dim es r)))) =
  Qsum (map (fun f => g f.2) (occ k r)).
Proof. intros Hr Hk. by rewrite <- !(map_map snd g), occ_pick. Qed.

Lemma rank_bound k : embedded es dim (k, None) -> rank dim es k < length (V_rows dim es).
Proof using.
  unfold embedded. simpl. intros Hk. destruct (es !! k) as [e|] eqn:Ek; simpl in Hk; [|lia].
  by pose proof (rank_lookup dim es _ _ Ek Hk) as H%lookup_lt_Some.
Qed.

Context (ps : list Q).
Hypothesis ps_length : length ps = length rs.

(** [grad_w = X' p] *)
Lemma grad_w_value k :
  k < length es ->
  exists v, TransTimes_ref (H := Qfloat) rs ps (length es) !! k = Some v /\ (v == over_rows rs ps (fun r => fm_dw r k))%Q.
Proof.
  intros Hk. eexists. split.
  { unfold TransTimes_ref. rewrite list_lookup_fmap, lookup_seq_lt by done. reflexivity. }
  change (fadd (Float := Qfloat)) with Qplus. rewrite foldl_Qplus. change (fzero (Float := Qfloat)) with 0%Q.
  rewrite Qplus_0_l. unfold column, over_rows. rewrite Nat.add_0_l.
  clear Hsh ps_length. revert ps. induction rs as [|r rs' IH]; intros [|p ps']; try reflexivity.
  cbn [zip_with concat]. rewrite Qsum_app, Qsum_cons, IH. unfold fm_dw, occ. rewrite <- Qsum_scal.
  apply Qplus_inj_r. apply Qsum_ext. intros f _. destruct (f.2); simpl; ring.
Qed.

(** The diagonal of [(X.*X)' p]. *)
Definition sq_occ (k : nat) (r : arow (F := Q)) : Q :=
  Qsum (map (fun f => scale (H := Qfloat) f.2 (scale (H := Qfloat) f.2 1%Q)) (occ k r)).

Definition xxp_ref : list Q :=
  TransMM_ref (H := Qfloat) (map (sq_row (Float0 := Qfloat)) (map (pick (Float0 := Qfloat) dim es) rs)) ps 1
    (replicate (length (V_rows dim es)) 0%Q).

Lemma xxp_value k :
  embedded es dim (k, None) -> (nth (rank dim es k) xxp_ref 0 == over_rows rs ps (sq_occ k))%Q.
Proof.
  intros Hk. pose proof (rank_bound k Hk) as Hb. unfold xxp_ref, TransMM_ref.
  rewrite nth_lookup, list_lookup_imap, lookup_replicate_2 by done. cbn [fmap option_fmap option_map default].
  change (fadd (Float := Qfloat)) with Qplus. rewrite foldl_Qplus, Qplus_0_l, Nat.div_1_r, Nat.mod_1_r.
  unfold column_of. rewrite map_map. apply over_rows_imap; [done|].
  intros i r p Hr Hp. rewrite feats_sq. unfold sq_occ.
  rewrite <- Qsum_scal. replace (i * 1 + 0) with i by lia. rewrite nth_lookup, Hp. cbn [default].
  rewrite <- (Qsum_occ_pick (fun ov => p * scale (H := Qfloat) ov (scale (H := Qfloat) ov 1%Q))%Q k r) by
    (done || by eapply list_elem_of_lookup_2).
  induction (feats (pick dim es r)) as [|f fs IH]; [reflexivity|]. cbn [map]. rewrite !filter_cons. cbn [fst].
  case_decide; [|exact IH]. cbn [map]. rewrite !Qsum_cons, IH. cbn [snd]. destruct (f.2); simpl; [ring|lra].
Qed.

(** [V = X' diag(p) X V - diag((X.*X)' p) V] *)
Definition V_ref : list Q :=
  let R := map (pick (Float0 := Qfloat) dim es) rs in
  TransMM_ref (H := Qfloat) R
    (imap (fun k y => y * nth (k / dim) ps 0)%Q (MM_ref (H := Qfloat) R (concat (V_rows dim es)) dim)) dim
    (map (fun z => z * 1)%Q (imap (fun k v => v * - nth (k / dim) xxp_ref 0)%Q (concat (V_rows dim es)))).

Lemma V_ref_value k c :
  embedded es dim (k, None) -> c < dim ->
  exists v, V_ref !! (rank dim es k * dim + c) = Some v /\ (v == over_rows rs ps (fun r => fm_dV es dim r k c))%Q.
Proof.
  intros Hk Hc. pose proof (rank_bound k Hk) as Hb. set (j := rank dim es k) in *.
  assert ((j * dim + c) / dim = j) as Hdiv by (rewrite Nat.div_add_l, Nat.div_small by lia; lia).
  assert ((j * dim + c) mod dim = c) as Hmod by (rewrite Nat.add_comm, Nat.Div0.mod_add, Nat.mod_small by lia; lia).
  assert (concat (V_rows dim es) !! (j * dim + c) = Some (V_at es k c)) as HV.
  { assert (0 < col dim es k /\ col dim es k - 1 = j) as [Hck Hrk].
    { unfold embedded in Hk. simpl in Hk. unfold j, col. destruct (es !! k) as [e|]; simpl in Hk; [|lia].
      rewrite decide_True by done. lia. }
    pose proof (V_value es dim (k, None) c Hk Hc) as HV. cbn [fst] in HV. rewrite Hrk in HV.
    destruct (lookup_lt_is_Some_2 (concat (V_rows dim es)) (j * dim + c)) as [v Hv].
    { rewrite V_weights_length. nia. }
    rewrite nth_lookup, Hv in HV. simpl in HV. by rewrite Hv, HV. }
  eexists. split.
  { unfold V_ref, TransMM_ref. rewrite list_lookup_imap, list_lookup_fmap, list_lookup_imap, HV. reflexivity. }
  rewrite Hdiv, Hmod. change (fadd (Float := Qfloat)) with Qplus. rewrite foldl_Qplus. unfold column_of.
  rewrite (over_rows_imap _ _ rs ps (fun r => Qsum (map (fun f => scale (H := Qfloat) f.2 (Qsum (terms es dim r c))) (occ k r))));
    [|done|].
  - rewrite Qmult_1_r. change (j) with (rank dim es k). rewrite (xxp_value k Hk).
    transitivity (over_rows rs ps (fun r => - V_at es k c * sq_occ k r) +
      over_rows rs ps (fun r => Qsum (map (fun f => scale (H := Qfloat) f.2 (Qsum (terms es dim r c))) (occ k r))))%Q.
    { rewrite <- over_rows_scal. ring. }
    rewrite over_rows_plus. apply over_rows_ext. intros r. unfold sq_occ, fm_dV.
    rewrite <- Qsum_scal. induction (occ k r) as [|f fs IH]; [reflexivity|]. cbn [map]. rewrite !Qsum_cons.
    rewrite scale_minus, <- IH. destruct (f.2); simpl; ring.
  - intros i r p Hr Hp. rewrite nth_lookup, list_lookup_imap.
    destruct (XV_value es dim data rs Hsh i r c Hr Hc) as (v & -> & Hv). cbn [fmap option_fmap option_map default].
    rewrite Nat.div_add_l, Nat.div_small, Nat.add_0_r by lia. rewrite nth_lookup, Hp. cbn [default].
    unfold j. cbn [from_option id]. rewrite (Qsum_occ_pick (fun ov => scale (H := Qfloat) ov (v * p)%Q)) by (done || by eapply list_elem_of_lookup_2).
    rewrite <- Qsum_scal. apply Qsum_ext. intros f _. rewrite Hv. destruct (f.2); simpl; ring.
Qed.

End CalcGrad.

(** ** The positions of the gradients *)

Section Positions.
Context (es : list (list Q)) (dim : nat).
Lemma start_mono i j : i <= j -> j <= length es -> start es i <= start es j.
Proof using.
  intros Hij Hj. induction Hij as [|j Hij IH]; [done|].
  destruct (lookup_lt_is_Some_2 es j) as [e He]; [lia|]. rewrite (start_S es j e He). specialize (IH ltac:(lia)). lia.
Qed.

Lemma start_next i j e : es !! i = Some e -> i < j -> j <= length es -> start es i + length e <= start es j.
Proof using. intros He Hij Hj. rewrite <- (start_S es i e He). apply start_mono; lia. Qed.

Lemma V_pos_lookup n i p :
  n <= length es -> V_pos dim es n !! i = Some p ->
  exists k, k < n /\ embedded es dim (k, None) /\ rank dim es k = i /\ p = Z.of_nat (start es k + 1).
Proof using.
  revert i. induction n as [|n IH]; intros i Hn Hi; [done|].
  destruct (lookup_lt_is_Some_2 es n) as [e He]; [lia|]. rewrite (V_pos_S dim es n e He) in Hi.
  apply lookup_app_Some in Hi as [Hi|[Hge Hi]].
  - destruct (IH i ltac:(lia) Hi) as (k & Hk & H). exists k. split; [lia|done].
  - destruct (decide (has_V dim e)) as [HV|HV]; [|done]. destruct (i - _) as [|m] eqn:Em; [|done].
    injection Hi as <-. exists n. split; [lia|]. split; [unfold embedded; simpl; by rewrite He|]. split; [|done].
    assert (length (V_pos dim es n) = rank dim es n) as Hr; [|lia]. clear -Hn.
    assert (n <= length es) as Hn' by lia. clear Hn. induction n as [|n IH]; [done|].
    destruct (lookup_lt_is_Some_2 es n) as [e He]; [lia|].
    rewrite (V_pos_S dim es n e He), (rank_S dim es n e He), length_app, IH by lia. by case_decide.
Qed.

Lemma V_pos_rank k :
  embedded es dim (k, None) -> V_pos dim es (length es) !! rank dim es k = Some (Z.of_nat (start es k + 1)).
Proof using.
  intros Hk. pose proof (rank_bound es dim k Hk) as Hb. rewrite <- (V_pos_length es dim) in Hb.
  destruct (lookup_lt_is_Some_2 _ _ Hb) as [p Hp]. rewrite Hp.
  destruct (V_pos_lookup _ _ _ (le_n _) Hp) as (k' & Hk' & He & Hr & ->).
  assert (k' = k) as ->; [|done].
  apply (col_inj es dim k k' Hk).
  - unfold embedded in He. simpl in He. unfold col. destruct (es !! k') as [e|]; simpl in He; [|lia].
    rewrite decide_True by done. lia.
  - unfold embedded in He. simpl in He. unfold col. destruct (es !! k') as [e|]; simpl in He; [|lia].
    rewrite decide_True by done. lia.
Qed.

Lemma embedded_entry k : embedded es dim (k, None) -> exists e, es !! k = Some e /\ length e = dim + 1.
Proof using. unfold embedded. simpl. destruct (es !! k) as [e|]; simpl; [by exists e|lia]. Qed.

Hypothesis model_small : (Z.of_nat (length (concat es)) < 2 ^ 32)%Z.

Lemma w_placed d k p :
  Loss.pos d = map (w_pos es) (seq 0 (length es)) ->
  placed d k p <-> exists e, es !! k = Some e /\ e <> [] /\ p = Z.of_nat (start es k).
Proof.
  intros Hd. unfold placed. rewrite Hd, list_lookup_fmap. split.
  - intros [Hp Hne]. destruct (decide (k < length es)) as [Hk|Hk]; [|by rewrite lookup_seq_ge in Hp by lia].
    rewrite lookup_seq_lt in Hp by done. injection Hp as <-. simpl in *. unfold w_pos in *.
    destruct (lookup_lt_is_Some_2 es k Hk) as [e He]. rewrite He in *. exists e. by destruct e.
  - intros (e & He & Hne & ->). pose proof (lookup_lt_Some _ _ _ He) as Hk. rewrite lookup_seq_lt by done.
    simpl. unfold w_pos. rewrite He. destruct e as [|x e]; [done|]. split; [done|].
    pose proof (start_next k (S k) _ He ltac:(lia) ltac:(lia)) as Hs. pose proof (start_le es (S k)) as Hl.
    simpl in Hs. unfold no_pos. lia.
Qed.

Lemma V_placed d i p :
  0 < dim -> Loss.pos d = V_pos dim es (length es) ->
  placed d i p <-> exists k, embedded es dim (k, None) /\ rank dim es k = i /\ p = Z.of_nat (start es k + 1).
Proof.
  intros Hdim Hd. unfold placed. rewrite Hd. split.
  - intros [Hp _]. destruct (V_pos_lookup _ _ _ (le_n _) Hp) as (k & _ & H). by exists k.
  - intros (k & Hk & <- & ->). split; [by apply V_pos_rank|].
    destruct (embedded_entry k Hk) as (e & He & Hl). pose proof (lookup_lt_Some _ _ _ He).
    pose proof (start_next k (S k) _ He ltac:(lia) ltac:(lia)) as Hs. pose proof (start_le es (S k)). unfold no_pos. lia.
Qed.

(** The gradient of [w] goes to the first cell of each entry. *)
Lemma Save_w d (gw grad : list Q) :
  Loss.pos d = map (w_pos es) (seq 0 (length es)) -> Loss.dim d = 0 -> length gw = length es -> gw <> [] ->
  length grad = length (concat es) ->
  exists g, Save (with_weight d gw) grad = Ok g /\ length g = length grad /\
    (forall k e, es !! k = Some e -> e <> [] -> g !! start es k = gw !! k) /\
    (forall n, (forall k e, es !! k = Some e -> e <> [] -> n <> start es k) -> g !! n = grad !! n).
Proof.
  intros Hd Hdim Hl Hne Hg. unfold Save. cbn [with_weight weight Loss.pos Loss.dim].
  rewrite decide_False by done. rewrite Hdim, decide_True by done.
  assert (length (Loss.pos d) = length es) as Hlp by (rewrite Hd, length_map, length_seq; done).
  rewrite check_true by (apply bool_decide_eq_true; lia). cbn [mbind outcome_bind].
  pose proof (w_placed (with_weight d gw)) as Hw. cbn [with_weight Loss.pos] in Hw.
  destruct (Save_loop (with_weight d gw) 1 grad) as (g & E & H1 & H2 & H3); cbn [with_weight weight Loss.pos] in *.
  - lia.
  - lia.
  - intros i p (e & He & Hne' & ->)%Hw; [|done]. rewrite Nat2Z.id, Hg.
    pose proof (lookup_lt_Some _ _ _ He). pose proof (start_next i (S i) _ He ltac:(lia) ltac:(lia)).
    pose proof (start_le es (S i)). destruct e; [done|]. simpl in *. lia.
  - intros i j p q Hij (e & He & Hne' & ->)%Hw (e' & He' & _ & ->)%Hw; [|done..]. rewrite !Nat2Z.id.
    pose proof (lookup_lt_Some _ _ _ He'). pose proof (start_next i j _ He Hij ltac:(lia)).
    destruct e; [done|]. simpl in *. lia.
  - exists g. split; [exact E|]. split; [done|]. split.
    + intros k e He Hne'. pose proof (H2 k (Z.of_nat (start es k)) 0) as H.
      rewrite Nat2Z.id, Nat.add_0_r, Nat.mul_1_r, Nat.add_0_r in H. apply H; [|lia]. apply Hw; [done|]. by exists e.
    + intros n Hn. apply H3. intros i p (e & He & Hne' & ->)%Hw; [|done]. rewrite Nat2Z.id.
      specialize (Hn i e He Hne'). lia.
Qed.

(** The gradient of an embedding goes to the rest of its entry. *)
Lemma Save_V d (gV grad : list Q) :
  0 < dim -> Loss.pos d = V_pos dim es (length es) -> Loss.dim d = dim ->
  length gV = length (V_rows dim es) * dim -> gV <> [] -> length grad = length (concat es) ->
  exists g, Save (with_weight d gV) grad = Ok g /\ length g = length grad /\
    (forall k c, embedded es dim (k, None) -> c < dim -> g !! (start es k + 1 + c) = gV !! (rank dim es k * dim + c)) /\
    (forall k e, es !! k = Some e -> e <> [] -> g !! start es k = grad !! start es k).
Proof.
  intros Hdim Hd Hdd Hl Hne Hg. unfold Save. cbn [with_weight weight Loss.pos Loss.dim].
  rewrite decide_False by done. rewrite Hdd, decide_False by lia.
  assert (length (Loss.pos d) = length (V_rows dim es)) as Hlp by (rewrite Hd; apply V_pos_length).
  rewrite check_true by (apply bool_decide_eq_true; lia). cbn [mbind outcome_bind].
  pose proof (fun i p => V_placed (with_weight d gV) i p Hdim) as HV. cbn [with_weight Loss.pos] in HV.
  destruct (Save_loop (with_weight d gV) dim grad) as (g & E & H1 & H2 & H3); cbn [with_weight weight Loss.pos] in *.
  - lia.
  - lia.
  - intros i p (k & Hk & _ & ->)%HV; [|done]. rewrite Nat2Z.id, Hg.
    destruct (embedded_entry k Hk) as (e & He & Hle). pose proof (lookup_lt_Some _ _ _ He).
    pose proof (start_next k (S k) _ He ltac:(lia) ltac:(lia)). pose proof (start_le es (S k)). lia.
  - intros i j p q Hij (k & Hk & <- & ->)%HV (k' & Hk' & <- & ->)%HV; [|done..]. rewrite !Nat2Z.id.
    destruct (embedded_entry k Hk) as (e & He & Hle). destruct (embedded_entry k' Hk') as (e' & He' & Hle').
    pose proof (lookup_lt_Some _ _ _ He). pose proof (lookup_lt_Some _ _ _ He').
    destruct (decide (k < k')) as [Hlt|Hge]; [pose proof (start_next k k' _ He Hlt ltac:(lia)); lia|].
    pose proof (rank_mono es dim k' k ltac:(lia) ltac:(lia)). lia.
  - exists g. split; [exact E|]. split; [done|]. split.
    + intros k c Hk Hc. pose proof (H2 (rank dim es k) (Z.of_nat (start es k + 1)) c) as H.
      rewrite Nat2Z.id in H. apply H; [|done]. apply HV; [done|]. by exists k.
    + intros k e He Hne'. apply H3. intros i p (k' & Hk' & _ & ->)%HV; [|done]. rewrite Nat2Z.id.
      destruct (embedded_entry k' Hk') as (e' & He' & Hle').
      pose proof (lookup_lt_Some _ _ _ He). pose proof (lookup_lt_Some _ _ _ He').
      destruct (decide (k' < k)) as [Hlt|Hge]; [pose proof (start_next k' k _ He' Hlt ltac:(lia)); lia|].
      pose proof (start_mono k k' ltac:(lia) ltac:(lia)). lia.
Qed.

End Positions.

(** ** The gradient of the embeddings *)

Lemma clip_value (gc g : Q) : (0 < gc)%Q -> (clip (Float0 := Qfloat) gc g == Qmax (- gc) (Qmin gc g))%Q.
Proof.
  intros Hgc. unfold clip. simpl.
  destruct (Qle_bool g gc) eqn:E1; simpl.
  - apply Qle_bool_iff in E1. rewrite Q.min_r by done. destruct (Qle_bool (- gc) g) eqn:E2; simpl.
    + apply Qle_bool_iff in E2. by rewrite Q.max_r.
    + assert (~ (- gc <= g)%Q) as H by (intros H; apply Qle_bool_iff in H; congruence).
      rewrite Q.max_l; [reflexivity|lra].
  - assert (~ (g <= gc)%Q) as H by (intros H; apply Qle_bool_iff in H; congruence).
    rewrite Q.min_l, Q.max_r; [reflexivity|lra..].
Qed.

(** The gradient after clipping with [gc]; no clipping unless [gc] is positive. *)
Definition clipped (gc g : Q) : Q := if Qle_bool gc 0 then g else Qmax (- gc) (Qmin gc g).

#[local] Instance clipped_proper gc : Proper (Qeq ==> Qeq) (clipped gc).
Proof. intros a b Hab. unfold clipped. destruct (Qle_bool gc 0); [done|]. by rewrite Hab. Qed.

Section GradV.
Context (sched : list (list (action Q)) -> list (action Q)) (tiny : Q) (rand : nat -> Z).
Hypothesis sched_ok : forall ts, interleave ts (sched ts).
Context (es : list (list Q)) (dim : nat) (data : RowBlock Q) (rs : list (arow (F := Q))).
Hypothesis Hsh : shows 0 0 data rs.
Hypothesis dim_pos : 0 < dim.
Hypothesis rs_nonempty : 0 < length rs.
Context (ps : list Q).
Hypothesis ps_length : length ps = length rs.

Lemma V_ref_length : length (V_ref es dim rs ps) = length (V_rows dim es) * dim.
Proof. unfold V_ref, TransMM_ref. rewrite length_imap, length_map, length_imap. apply V_weights_length. Qed.

Lemma grad_V_ok d nt r :
  V_loaded es dim rs d -> weight d <> [] -> 0 < nt ->
  XV d = MM_ref (H := Qfloat) (map (pick (Float0 := Qfloat) dim es) rs) (weight d) dim ->
  grad_V (Float0 := Qfloat) (FD := Qfloat) id tiny rand sched d ps nt r =
  Ok (let gV := if Qle_bool (grad_clipping d) 0 then V_ref es dim rs ps
                else map (clip (Float0 := Qfloat) (grad_clipping d)) (V_ref es dim rs ps) in
      let gV := if Qle_bool (dropout d) 0 then gV else drop_out (Float0 := Qfloat) rand (dropout d) r gV in
      if Qeq_bool (grad_normalization d) 0 then gV else Normalize (Float0 := Qfloat) (FD := Qfloat) id tiny gV).
Proof.
  intros (Hw & Hp & Hd & l0 & HX & HXX & _ & _) Hne Hnt HXV. unfold grad_V.
  pose proof (pick_columns es dim data rs Hsh) as Hpc. pose proof (V_weights_length es dim) as Hlen.
  assert (length (Loss.pos d) = length (V_rows dim es)) as Hlp by (rewrite Hp; apply V_pos_length).
  rewrite Hlp, Hd, ps_length. rewrite (SpMM_TransTimes_relabel sched _ l0).
  rewrite (SpMM_TransTimes_spec (H := Qfloat) (FD := Qfloat) sched sched_ok _ _ HXX ps _ [] _ nt 1 (length (V_rows dim es)));
    [|rewrite ?length_map, ?length_replicate; (lia || done || by apply sq_columns || by apply good_cuts_exact)..].
  change (feqb (Float := Qfloat) (fzero (Float := Qfloat)) (fzero (Float := Qfloat))) with true.
  rewrite andb_false_r, length_replicate. cbn [mbind outcome_bind].
  change (fzero (Float := Qfloat)) with 0%Q. fold (xxp_ref es dim rs ps).
  rewrite (check_true (bool_decide (length (weight d) = dim * length (V_rows dim es)))) by
    (apply bool_decide_eq_true; rewrite Hw, Hlen; lia). cbn [mbind outcome_bind].
  pose proof (scale_rows (fun v x => v * - x)%Q (xxp_ref es dim rs ps) (weight d) (length (V_rows dim es)) dim dim_pos) as E1.
  match goal with |- mbind _ ?e = _ => assert (e = Ok (imap (fun k v => v * - nth (k / dim) (xxp_ref es dim rs ps) 0)%Q
    (concat (V_rows dim es)))) as -> end.
  { rewrite <- Hw. apply E1; [|by rewrite Hw, Hlen]. unfold xxp_ref, TransMM_ref. by rewrite length_imap, length_replicate. }
  cbn [mbind outcome_bind].
  assert (length (XV d) = length rs * dim) as HXVl by (rewrite HXV, MM_ref_length, length_map; done).
  rewrite check_true by (apply bool_decide_eq_true; lia). cbn [mbind outcome_bind].
  pose proof (scale_rows Qmult ps (XV d) (length rs) dim dim_pos ps_length HXVl) as E2.
  match goal with |- mbind _ ?e = _ => assert (e = Ok (imap (fun k y => y * nth (k / dim) ps 0)%Q (XV d))) as -> by exact E2 end.
  cbn [mbind outcome_bind]. rewrite (SpMM_TransTimes_relabel sched _ l0).
  rewrite (SpMM_TransTimes_spec (H := Qfloat) (FD := Qfloat) sched sched_ok _ _ HX _ _ _ _ nt dim (length (V_rows dim es)));
    [|rewrite ?length_map, ?length_imap; (lia || done || by apply good_cuts_exact)..].
  rewrite bool_decide_eq_true_2 by done.
  change (negb (feqb (Float := Qfloat) (fone (Float := Qfloat)) (fzero (Float := Qfloat)))) with true.
  cbn [mbind outcome_bind andb]. rewrite HXV, Hw.
  match goal with |- context [TransMM_ref ?R ?x dim ?y] => change (TransMM_ref R x dim y) with (V_ref es dim rs ps) end.
  simpl fltb. simpl feqb. cbv zeta.
  by destruct (Qle_bool (grad_clipping d) 0), (Qle_bool (dropout d) 0), (Qeq_bool (grad_normalization d) 0).
Qed.

End GradV.

(** ** [CalcGrad] *)

(** The derivative of the loss of an example with label [y] and prediction [p]. *)
Definition dual_of (dexp : Q -> Q) (lb p : Q) : Q :=
  let y := (if negb (Qle_bool lb 0) then 1 else - (1))%Q in (- y / (1 + dexp (y * p)))%Q.

Lemma dual_loop dexp (labels : ptr Q) (py : list Q) :
  length py <= length (default [] labels) ->
  foldM (dual (Float0 := Qfloat) (FD := Qfloat) id id dexp labels) (seq 0 (length py)) py =
  Ok (zip_with (dual_of dexp) (default [] labels) py).
Proof.
  intros Hl. set (lb := default [] labels) in *.
  destruct (foldM_seq (dual (Float0 := Qfloat) (FD := Qfloat) id id dexp labels) (fun i l =>
    length l = length py /\ take i l = take i (zip_with (dual_of dexp) lb py) /\ drop i l = drop i py)
    0 (length py) py) as (l & -> & H1 & H2 & _).
  - done.
  - intros i l Hi (H1 & H2 & H3).
    destruct (lookup_lt_is_Some_2 py i) as [p Hp]; [lia|]. destruct (lookup_lt_is_Some_2 lb i) as [b Hb]; [lia|].
    assert (l !! i = Some p) as Hp' by (rewrite <- (Nat.add_0_r i), <- lookup_drop, H3, lookup_drop, Nat.add_0_r; done).
    unfold dual, ptr_at. fold lb. rewrite (proj2 (read_at_Ok _ _ _) Hb). cbn [mbind outcome_bind].
    rewrite (proj2 (read_at_Ok _ _ _) Hp'). cbn [mbind outcome_bind]. rewrite write_at_lt by lia.
    eexists. split; [reflexivity|]. rewrite length_insert. split; [done|].
    rewrite Nat.add_1_r. split.
    + rewrite take_S_insert by lia. rewrite H2. symmetry. apply take_S_r.
      rewrite lookup_zip_with, Hb. simpl. by rewrite Hp.
    + rewrite drop_insert_lt by lia. rewrite <- Nat.add_1_r, <- !drop_drop, H3. done.
  - rewrite Nat.add_0_l in H2. rewrite take_ge in H2 by lia. rewrite take_ge in H2; [by rewrite H2|].
    rewrite length_zip_with. lia.
Qed.

Section Gradient.
Context (sched : list (list (action Q)) -> list (action Q)) (shares : list (list nat)).
Context (dexp dlog : Q -> Q) (sort : list (Q * Q) -> list (Q * Q)) (tiny : Q) (rand : nat -> Z).
Context (conf : Config Q) (es : list (list Q)) (data : RowBlock Q) (rs : list (arow (F := Q))).

(** The configured clipping of the gradient of the embeddings. *)
Definition conf_clipping : Q := match conf.(embedding) with cf :: _ => cf.(c_grad_clipping) | [] => 0%Q end.

(** The configured dropout: whether the [i]-th cell of the embeddings is dropped,
    when [r] numbers were drawn before. *)
Definition conf_dropout : Q := match conf.(embedding) with cf :: _ => cf.(c_dropout) | [] => 0%Q end.
Definition dropped (r i : nat) : bool :=
  negb (Qle_bool conf_dropout 0) && negb (Qle_bool (inject_Z (rand (r + i)) / inject_Z RAND_MAX) (1 - conf_dropout)).

(** The number the cells are divided by: their norm if normalization is
    configured and it is not too small. *)
Definition conf_normalizes : bool := match conf.(embedding) with cf :: _ => negb (Qeq_bool cf.(c_grad_normalization) 0) | [] => false end.
Definition norm_of (cells : list Q) : Q :=
  let sq := foldl (fun s g => s + g * g)%Q 0%Q cells in
  if conf_normalizes && Qle_bool tiny sq then fsqrt (Float := Qfloat) sq else 1%Q.

(** What the gradient holds, for the derivatives [ps] of the loss: the cells of
    the embeddings, of which [rank k * dim + c] belongs to [V_kc], are clipped,
    some are dropped, and all are divided by their norm. *)
Definition gradient_at (r : nat) (ps g : list Q) : Prop :=
  (forall k e, es !! k = Some e -> e <> [] -> exists v, g !! start es k = Some v /\
     (v == over_rows rs ps (fun r => fm_dw r k))%Q) /\
  (exists cells, length cells = length (V_rows (conf_dim conf) es) * conf_dim conf /\
     forall k c, embedded es (conf_dim conf) (k, None) -> c < conf_dim conf ->
     let i := rank (conf_dim conf) es k * conf_dim conf + c in
     exists u v, cells !! i = Some u /\
       (u == if dropped r i then 0 else clipped conf_clipping (over_rows rs ps (fun r => fm_dV es (conf_dim conf) r k c)))%Q /\
       g !! (start es k + 1 + c) = Some v /\ (v == u / norm_of cells)%Q).

(** Without dropout and normalization. *)
Definition plain_gradient : Prop :=
  Forall (fun cf => (cf.(c_dropout) <= 0)%Q /\ (cf.(c_grad_normalization) == 0)%Q) conf.(embedding).

Lemma gradient_at_plain r ps g : plain_gradient -> gradient_at r ps g ->
  forall k c, embedded es (conf_dim conf) (k, None) -> c < conf_dim conf ->
    exists v, g !! (start es k + 1 + c) = Some v /\
      (v == clipped conf_clipping (over_rows rs ps (fun r => fm_dV es (conf_dim conf) r k c)))%Q.
Proof.
  intros Hpl [_ (cells & _ & Hc)] k c Hk Hcd. destruct (Hc k c Hk Hcd) as (u & v & _ & Hu & Hg & Hv). exists v. split; [done|].
  assert (dropped r (rank (conf_dim conf) es k * conf_dim conf + c) = false /\ conf_normalizes = false) as [Hd Hn].
  { unfold dropped, conf_dropout, conf_normalizes, plain_gradient in *. destruct (embedding conf) as [|cf cfs]; [done|].
    apply Forall_cons in Hpl as [[H1 H2] _]. apply Qle_bool_iff in H1. apply Qeq_bool_iff in H2. by rewrite H1, H2. }
  rewrite Hd in Hu. unfold norm_of in Hv. rewrite Hn in Hv. rewrite Hv, Hu. cbn. field.
Qed.

Lemma gradient_w l l' grad ps :
  minibatch sched shares conf es data rs ->
  X (w l) = data -> weight (w l) = map (w_entry (Float0 := Qfloat)) es ->
  Loss.pos (w l) = map (w_pos es) (seq 0 (length es)) -> Loss.dim (w l) = 0 -> nt_ l = conf.(num_threads) ->
  w l' = w l -> nt_ l' = nt_ l -> length ps = length rs -> length grad = length (concat es) ->
  exists g, (gw ← SpMV_TransTimes (H := Qfloat) (FD := Qfloat) sched (X (w l')) ps (weight (w l')) (nt_ l');
             Save (with_weight (w l') gw) grad) = Ok g /\ length g = length grad /\
    (forall k e, es !! k = Some e -> e <> [] -> exists v, g !! start es k = Some v /\
       (v == over_rows rs ps (fun r => fm_dw r k))%Q).
Proof.
  intros [Hs1 Hs2 Hsh Hc Hn Hm Hsm Hnt] HX Hw Hp Hd Ht El Et Hps Hg. rewrite El, Et, HX, Hw, Ht.
  rewrite (SpMV_TransTimes_spec (H := Qfloat) (FD := Qfloat) sched Hs1 data rs Hsh);
    [|rewrite length_map; done|done|by apply good_cuts_exact].
  cbn [mbind outcome_bind]. rewrite length_map.
  assert (length (TransTimes_ref (H := Qfloat) rs ps (length es)) = length es) as Hlt.
  { unfold TransTimes_ref. by rewrite length_map, length_seq. }
  destruct (Save_w es Hsm (w l) (TransTimes_ref (H := Qfloat) rs ps (length es)) grad Hp Hd Hlt) as (g & E & H1 & H2 & _).
  - intros E0. rewrite E0 in Hlt. by destruct es.
  - done.
  - exists g. split; [exact E|]. split; [done|]. intros k e He Hne. rewrite (H2 k e He Hne).
    apply grad_w_value. by eapply lookup_lt_Some.
Qed.

(** [CalcGrad] up to the embeddings. *)
Lemma CalcGrad_split l l' r grad :
  minibatch sched shares conf es data rs ->
  X (w l) = data -> weight (w l) = map (w_entry (Float0 := Qfloat)) es ->
  Loss.pos (w l) = map (w_pos es) (seq 0 (length es)) -> Loss.dim (w l) = 0 -> nt_ l = conf.(num_threads) ->
  w l' = w l -> nt_ l' = nt_ l -> length (py_ l') = length rs -> length grad = length (concat es) ->
  let ps := zip_with (dual_of dexp) (default [] (b_label data)) (py_ l') in
  length ps = length rs /\ exists g1, length g1 = length grad /\
  (forall k e, es !! k = Some e -> e <> [] -> exists v, g1 !! start es k = Some v /\
     (v == over_rows rs ps (fun r => fm_dw r k))%Q) /\
  CalcGrad (Float0 := Qfloat) (FD := Qfloat) id id dexp tiny rand sched l' r grad =
    (if decide (weight (V l') = []) then Save (V l') g1 else
     gV ← grad_V (Float0 := Qfloat) (FD := Qfloat) id tiny rand sched (V l') ps (nt_ l') r;
     Save (with_weight (V l') gV) g1).
Proof.
  intros Hmb H1 H2 H3 H4 H5 Hw' Hn' Hpy Hg ps. pose proof (mb_shows _ _ _ _ _ _ Hmb) as Hsh.
  pose proof (labels_length es data rs Hsh) as Hll.
  assert (length ps = length rs) as Hps by (unfold ps; rewrite length_zip_with; lia).
  split; [done|]. destruct (gradient_w l l' grad ps Hmb H1 H2 H3 H4 H5 Hw' Hn' Hps Hg) as (g1 & Eg & Hl1 & Hv1).
  exists g1. split; [done|]. split; [done|]. unfold CalcGrad.
  rewrite (check_true (bool_decide (length (py_ l') = b_size (X (w l'))))) by
    (apply bool_decide_eq_true; rewrite Hw', H1, (s_size _ _ _ _ Hsh); done).
  cbn [mbind outcome_bind]. rewrite Hw' at 1. rewrite H1, dual_loop by lia. fold ps. cbn [mbind outcome_bind].
  destruct (SpMV_TransTimes sched (X (w l')) ps (weight (w l')) (nt_ l')) as [gw|]; [|discriminate].
  cbn [mbind outcome_bind] in *. rewrite Eg. done.
Qed.

(** The embeddings. *)
Lemma gradient_V (l : Loss Q) (d : Data Q) r (ps g1 : list Q) cf :
  minibatch sched shares conf es data rs -> 0 < conf_dim conf ->
  V_loaded es (conf_dim conf) rs d -> weight d <> [] -> 0 < nt_ l ->
  XV d = MM_ref (H := Qfloat) (map (pick (Float0 := Qfloat) (conf_dim conf) es) rs) (weight d) (conf_dim conf) ->
  head conf.(embedding) = Some cf -> dropout d = cf.(c_dropout) -> grad_clipping d = cf.(c_grad_clipping) ->
  grad_normalization d = cf.(c_grad_normalization) ->
  length ps = length rs -> length g1 = length (concat es) ->
  exists g, (gV ← grad_V (Float0 := Qfloat) (FD := Qfloat) id tiny rand sched d ps (nt_ l) r;
             Save (with_weight d gV) g1) = Ok g /\ length g = length g1 /\
    (forall k e, es !! k = Some e -> e <> [] -> g !! start es k = g1 !! start es k) /\
    exists cells, length cells = length (V_rows (conf_dim conf) es) * conf_dim conf /\
      forall k c, embedded es (conf_dim conf) (k, None) -> c < conf_dim conf ->
      let i := rank (conf_dim conf) es k * conf_dim conf + c in
      exists u v, cells !! i = Some u /\
        (u == if dropped r i then 0 else clipped conf_clipping (over_rows rs ps (fun r => fm_dV es (conf_dim conf) r k c)))%Q /\
        g !! (start es k + 1 + c) = Some v /\ (v == u / norm_of cells)%Q.
Proof.
  intros [Hs1 _ Hsh _ Hn _ Hsm _] Hd HV Hne Hnt HXV Hcf Hdr Hcl Hno Hps Hl1.
  assert (conf_clipping = grad_clipping d /\ conf_dropout = dropout d /\ conf_normalizes = negb (Qeq_bool (grad_normalization d) 0)) as (Ecl & Edr & Eno).
  { unfold conf_clipping, conf_dropout, conf_normalizes in *. destruct (embedding conf) as [|cf' cfs]; [discriminate|].
    injection Hcf as ->. by rewrite Hcl, Hdr, Hno. }
  rewrite (grad_V_ok sched tiny rand Hs1 es (conf_dim conf) data rs Hsh Hd Hn ps Hps d (nt_ l) r HV Hne Hnt HXV).
  rewrite <- Ecl, <- Edr. cbn [mbind outcome_bind].
  set (clp := if Qle_bool conf_clipping 0 then _ else _). set (cells := if Qle_bool conf_dropout 0 then clp else _).
  set (gV := if Qeq_bool (grad_normalization d) 0 then cells else _).
  pose proof (V_ref_length es (conf_dim conf) rs ps) as HlV. pose proof HV as (Hw6 & Hp6 & Hd6 & _).
  assert (length cells = length (V_rows (conf_dim conf) es) * conf_dim conf) as Hlc.
  { subst cells clp. destruct (Qle_bool conf_dropout 0), (Qle_bool conf_clipping 0); unfold drop_out; rewrite ?length_imap, ?length_map; done. }
  assert (gV = map (fun u => u / norm_of cells)%Q cells \/ (gV = cells /\ norm_of cells = 1%Q)) as HgV'.
  { subst gV. unfold norm_of. rewrite Eno. destruct (Qeq_bool (grad_normalization d) 0); [by right|]. cbn [negb andb].
    unfold Normalize. simpl fltb. change (fzero (Float := Qfloat)) with 0%Q. change (fadd (Float := Qfloat)) with Qplus. change (fmul (Float := Qfloat)) with Qmult.
    cbv zeta. unfold id. destruct (Qle_bool tiny _); [by left|by right]. }
  assert (length gV = length cells) as HlgV by (destruct HgV' as [-> |[-> _]]; by rewrite ?length_map).
  destruct (Save_V es (conf_dim conf) Hsm d gV g1) as (g & Es & Hlg & HgV & Hgw); try done; [by rewrite HlgV| |].
  { intros E0. rewrite E0 in HlgV. apply Hne. rewrite Hw6. apply nil_length_inv. rewrite V_weights_length. simpl in HlgV. lia. }
  exists g. split; [exact Es|]. split; [done|]. split; [done|]. exists cells. split; [done|].
  intros k c Hk Hc'. cbv zeta. rewrite (HgV k c Hk Hc').
  destruct (V_ref_value es (conf_dim conf) data rs Hsh ps Hps k c Hk Hc') as (v & Ev & Hv).
  assert (exists u1, clp !! (rank (conf_dim conf) es k * conf_dim conf + c) = Some u1 /\
    (u1 == clipped conf_clipping (over_rows rs ps (fun r => fm_dV es (conf_dim conf) r k c)))%Q) as (u1 & Eu1 & Hu1).
  { subst clp. unfold clipped. destruct (Qle_bool conf_clipping 0) eqn:Eb; [by exists v|].
    exists (clip (Float0 := Qfloat) conf_clipping v). rewrite list_lookup_fmap, Ev. split; [done|].
    rewrite clip_value; [by rewrite Hv|]. apply Qnot_le_lt. intros Hle. apply Qle_bool_iff in Hle. congruence. }
  set (i := rank (conf_dim conf) es k * conf_dim conf + c) in *.
  assert (exists u, cells !! i = Some u /\ (u == if dropped r i then 0 else clipped conf_clipping (over_rows rs ps (fun r => fm_dV es (conf_dim conf) r k c)))%Q)
    as (u & Eu & Hu).
  { subst cells. unfold dropped. destruct (Qle_bool conf_dropout 0); cbn [negb andb]; [by exists u1|].
    eexists. unfold drop_out. rewrite list_lookup_imap, Eu1. split; [reflexivity|]. simpl fltb.
    change (fofZ (Float := Qfloat)) with inject_Z. change (fdiv (Float := Qfloat)) with Qdiv. change (fsub (Float := Qfloat)) with Qminus.
    change (fone (Float := Qfloat)) with 1%Q. change (fzero (Float := Qfloat)) with 0%Q.
    destruct (Qle_bool (inject_Z (rand (r + i)) / inject_Z RAND_MAX) (1 - conf_dropout)); [exact Hu1|reflexivity]. }
  destruct HgV' as [-> |[-> E1]]; [exists u, (u / norm_of cells)%Q|exists u, u]; rewrite ?list_lookup_fmap, Eu; split_and!; try done.
  rewrite E1. field.
Qed.

Lemma CalcGrad_ok lbl wgt r grad :
  minibatch sched shares conf es data rs -> length grad = length (concat es) ->
  exists l l' pr g py_w,
    new_Loss (Float0 := Qfloat) lbl wgt data (concat es) (map length es) conf = Ok l /\
    Evaluate (Float0 := Qfloat) (FD := Qfloat) id id dexp dlog sort sched shares l = Ok (l', pr) /\
    CalcGrad (Float0 := Qfloat) (FD := Qfloat) id id dexp tiny rand sched l' r grad = Ok g /\
    length g = length grad /\
    gradient_at r (zip_with (dual_of dexp) (default [] (b_label data)) (py_ l')) g /\
    evaluates es (conf_dim conf) shares data rs dexp dlog sort l' pr py_w.
Proof.
  intros Hmb Hg. destruct (new_Loss_ok sched shares conf es data rs lbl wgt Hmb) as (l & El & H1 & H2 & H3 & H4 & H5 & H6).
  pose proof Hmb as [Hs1 Hs2 Hsh Hc Hn Hm Hsm Hnt]. exists l.
  destruct H6 as [[H6 H7]|(Hd & H6 & H7 & cf & Hcf & Hdr & Hcl & Hno)].
  - destruct (Evaluate_linear es (conf_dim conf) sched shares Hs1 data rs Hsh Hc dexp dlog sort Hs2 l H1 H2)
      as (l' & pr & pw & E & He & Ew & EV & En); [|done|lia|].
    { intros x c Hc'. apply no_embedding_terms, H7. lia. }
    destruct (CalcGrad_split l l' r grad Hmb H1 H2 H3 H4 H5 Ew En (proj1 He) Hg) as (Hps & g1 & Hl1 & Hv1 & Ec).
    exists l', pr, g1, pw. split; [done|]. split; [done|]. rewrite Ec, EV, decide_True by done. unfold Save.
    rewrite decide_True by done. split; [done|]. split; [done|]. split; [|exact He]. split; [done|].
    exists (replicate (length (V_rows (conf_dim conf) es) * conf_dim conf) 0%Q). split; [apply length_replicate|].
    intros k c Hk Hc'. exfalso. pose proof (rank_bound es (conf_dim conf) k Hk) as Hb. rewrite H7 in Hb by lia. simpl in Hb. lia.
  - destruct (Evaluate_embedded es (conf_dim conf) sched shares Hs1 data rs Hsh Hc dexp dlog sort Hs2 Hd Hn l H1 H2)
      as (l' & pr & pw & E & He & Ew & En & EV); [done..|lia|].
    destruct (CalcGrad_split l l' r grad Hmb H1 H2 H3 H4 H5 Ew En (proj1 He) Hg) as (Hps & g1 & Hl1 & Hv1 & Ec).
    set (ps := zip_with (dual_of dexp) (default [] (b_label data)) (py_ l')) in *.
    destruct (gradient_V l' (V l') r ps g1 cf Hmb Hd) as (g & Eg & Hlg & Hgw & HgV);
      [rewrite ?EV, ?Hl1; (exact H6 || exact H7 || done || lia)..|].
    exists l', pr, g, pw. split; [done|]. split; [done|]. rewrite Ec, decide_False by (rewrite EV; exact H7).
    split; [exact Eg|]. split; [lia|]. split; [|exact He]. split; [|done].
    intros k e Hke Hnk. rewrite (Hgw k e Hke Hnk). by apply (Hv1 k e).
Qed.

(** C11: in exact arithmetic, after [Evaluate], [CalcGrad] succeeds and leaves
    the gradient of the objective in the layout of the model: the first cell of
    the entry of feature [k] is [sum_i p_i * dscore_i/dw_k], where [p_i] is the
    derivative of the loss of example [i]; the cells of the embeddings are
    [sum_i p_i * dscore_i/dV_kc], clipped to the configured bound, 0 where dropout
    drops them, and divided by their norm if normalization is configured and the
    norm is not too small.  [fm_dw] and [fm_dV] are these derivatives: changing
    [w_k] by [h] changes the score by exactly [h * fm_dw], changing [V_kc] by
    [h * fm_dV] plus a term of second order. *)
Theorem CalcGrad_correct lbl wgt r grad :
  minibatch sched shares conf es data rs -> length grad = length (concat es) ->
  (exists l l' pr g,
    new_Loss (Float0 := Qfloat) lbl wgt data (concat es) (map length es) conf = Ok l /\
    Evaluate (Float0 := Qfloat) (FD := Qfloat) id id dexp dlog sort sched shares l = Ok (l', pr) /\
    CalcGrad (Float0 := Qfloat) (FD := Qfloat) id id dexp tiny rand sched l' r grad = Ok g /\
    length g = length grad /\
    gradient_at r (zip_with (dual_of dexp) (default [] (b_label data)) (py_ l')) g) /\
  (forall k row h, 0 < length (default [] (es !! k)) ->
    (fm_score (nudge es h k 0) (conf_dim conf) row == fm_score es (conf_dim conf) row + h * fm_dw row k)%Q) /\
  (forall k c row, embedded es (conf_dim conf) (k, None) -> c < conf_dim conf ->
    exists e2, forall h, (fm_score (nudge es h k (S c)) (conf_dim conf) row ==
      fm_score es (conf_dim conf) row + h * fm_dV es (conf_dim conf) row k c + h * h * e2)%Q).
Proof.
  intros Hmb Hg. split.
  { destruct (CalcGrad_ok lbl wgt r grad Hmb Hg) as (l & l' & pr & g & pw & E1 & E2 & E3 & E4 & E5 & _). by exists l, l', pr, g. }
  split.
  - intros k row h Hk. by apply fm_dw_derivative.
  - intros k c row Hk Hc. eexists. intros h. by apply fm_dV_derivative.
Qed.

End Gradient.

(** ** Example *)

Lemma CalcGrad_correct_witness :
  exists l l' pr g v,
    new_Loss (Float0 := Qfloat) None None demo_mat (concat ex_es) (map length ex_es) ex_qconf = Ok l /\
    Evaluate (Float0 := Qfloat) (FD := Qfloat) id id (fun x => x) (fun x => x) ex_sort (@concat _) [[1]; [0; 2]] l = Ok (l', pr) /\
    CalcGrad (Float0 := Qfloat) (FD := Qfloat) id id (fun x => x) 0%Q (fun _ => 0%Z) (@concat _) l' 0 (concat ex_es) = Ok g /\
    g !! 1 = Some v /\ (v == - (90 # 516))%Q.
Proof.
  destruct (CalcGrad_correct (@concat _) [[1]; [0; 2]] (fun x => x) (fun x => x) ex_sort 0%Q (fun _ => 0%Z) ex_qconf ex_es
    demo_mat demo_mat_rows None None 0 (concat ex_es) ex_minibatch) as [(l & l' & pr & g & E1 & E2 & E3 & _ & Hga) _].
  - reflexivity.
  - assert (plain_gradient ex_qconf) as Hpl by (repeat constructor; discriminate).
    destruct (gradient_at_plain _ _ _ _ _ _ _ _ Hpl Hga 0 0) as (v & Ev & Hv); [reflexivity|vm_compute; lia|].
    exists l, l', pr, g, v. split; [exact E1|]. split; [exact E2|]. split; [exact E3|]. split; [exact Ev|].
    rewrite Hv. vm_compute in E1. injection E1 as <-. vm_compute in E2. injection E2 as <- _. reflexivity.
Defined.
