(* ===== verification/Minibatch.v ===== *)
(** * Reading minibatches

    Models [MinibatchIter] of src/src/base/minibatch_iter.h: an iterator that
    cuts the blocks of a parser into minibatches of a fixed size and, when asked
    to, picks their rows at random from the minibatches of a second iterator.
    Where it reads its blocks from is the interface [BlockSource], which the
    parsers implement and the iterator itself does. *)
From S2P Require Import Prelude Floats Stream Workload RowBlock.
From Stdlib Require QArith_base.

Definition RAND_MAX : Z := 2147483647.

Section Minibatch.
Context {F : Type} `{HF : !Float F}.

(** The largest value of the index type; the numbers of [rand()] and the
    permutations of [std::random_shuffle], by how often they were drawn. *)
Context (imax : Z) (rand : nat -> Z) (random_shuffle : nat -> list nat -> list nat).

(** [Next()] with [Value()], and [BeforeFirst()]; [None] when a loop ran out of
    fuel. *)
Class BlockSource (Src : Type) := {
  src_next : Src -> outcome (option (option (RowBlock F) * Src));
  src_before_first : Src -> Src
}.

(** A parser: the blocks it will give and, for [BeforeFirst], all of them. *)
Record ParserImpl := mkParser { p_left : list (RowBlock F); p_all : list (RowBlock F) }.

#[global] Instance ParserImpl_source : BlockSource ParserImpl := {|
  src_next p := match p.(p_left) with
                | [] => Ok (Some (None, p))
                | b :: bs => Ok (Some (Some b, mkParser bs p.(p_all)))
                end;
  src_before_first p := mkParser p.(p_all) p.(p_all)
|}.

(** [class MinibatchIter]; [source] is [parser_], or [buf_reader_] if
    [shuf_buf_] is not 0. *)
Record MinibatchIter (Src : Type) := mkIter {
  mb_size_ : nat; shuf_buf_ : nat; negative_sampling_ : F; start_ : nat; end_ : nat;
  in_blk_ : RowBlock F; mb_ : Container F; out_blk_ : RowBlock F; rdp_ : list nat;
  draws : nat; source : Src }.
Arguments mkIter {Src}.
Arguments mb_size_ {Src}.
Arguments shuf_buf_ {Src}.
Arguments negative_sampling_ {Src}.
Arguments start_ {Src}.
Arguments end_ {Src}.
Arguments in_blk_ {Src}.
Arguments mb_ {Src}.
Arguments out_blk_ {Src}.
Arguments rdp_ {Src}.
Arguments draws {Src}.
Arguments source {Src}.

(** The constructor, without and with a shuffle buffer. *)
Definition empty_block : RowBlock F := mkBlock 0 [] None None None None.
Definition new_iter {Src} (src : Src) (minibatch_size shuf_buf : nat) (negative_sampling : F) : MinibatchIter Src :=
  mkIter minibatch_size shuf_buf negative_sampling 0 0 empty_block Clear empty_block [] 0 src.

Definition new_MinibatchIter (parser : ParserImpl) (minibatch_size : nat) (negative_sampling : F)
  : MinibatchIter ParserImpl := new_iter parser minibatch_size 0 negative_sampling.

Definition new_shuffled (parser : ParserImpl) (minibatch_size shuf_buf : nat) (negative_sampling : F)
  : outcome (MinibatchIter (MinibatchIter ParserImpl)) :=
  _ ← check (bool_decide (minibatch_size < shuf_buf));
  Ok (new_iter (new_MinibatchIter parser shuf_buf fone) minibatch_size shuf_buf negative_sampling).

Section Next.
Context {Src : Type} `{!BlockSource Src}.

Definition BeforeFirst (it : MinibatchIter Src) : MinibatchIter Src :=
  mkIter it.(mb_size_) it.(shuf_buf_) it.(negative_sampling_) it.(start_) it.(end_) it.(in_blk_) it.(mb_)
    it.(out_blk_) it.(rdp_) it.(draws) (src_before_first it.(source)).

Definition with_batch (mb : Container F) (n draws : nat) (it : MinibatchIter Src) : MinibatchIter Src :=
  mkIter it.(mb_size_) it.(shuf_buf_) it.(negative_sampling_) (it.(start_) + n) it.(end_) it.(in_blk_) mb
    it.(out_blk_) it.(rdp_) draws it.(source).

(** [Push(pos, len)]: the rows as one slice, without their weights. *)
Definition Push (it : MinibatchIter Src) (pos len : nat) : outcome (Container F) :=
  if decide (len = 0) then Ok it.(mb_) else
  let b := it.(in_blk_) in
  _ ← check (bool_decide (pos + len <= b.(b_size)));
  o ← read_at b.(b_offset) pos;
  let slice := mkBlock len (drop pos b.(b_offset)) (ptr_add b.(b_label) pos) None (ptr_add b.(b_index) o)
                 (match b.(b_value) with Some _ => ptr_add b.(b_value) o | None => None end) in
  Push_block imax slice it.(mb_).

(** One iteration of the loop over the picked rows: a negative example may be
    left out. *)
Definition pick_step (it : MinibatchIter Src) (st : Container F * nat) (i : nat) : outcome (Container F * nat) :=
  let '(mb, dr) := st in
  j ← read_at it.(rdp_) i;
  '(skip, dr) ←
    (if (it.(negative_sampling_) <? fone)%F then
       l ← ptr_at it.(in_blk_).(b_label) j;
       if (l <=? fzero)%F then
         Ok ((fone - it.(negative_sampling_) <? fofZ (rand dr) / fofZ RAND_MAX)%F, dr + 1)
       else Ok (false, dr)
     else Ok (false, dr));
  if skip : bool then Ok (mb, dr) else
  row ← block_at it.(in_blk_) j;
  mb ← Push_row imax row mb;
  Ok (mb, dr).

(** The next block of the source, shuffled when there is a buffer; [false] when
    there is none. *)
Definition refill (it : MinibatchIter Src) : outcome (option (bool * MinibatchIter Src)) :=
  r ← src_next it.(source);
  match r with
  | None => Ok None
  | Some (None, src) =>
      Ok (Some (false, mkIter it.(mb_size_) it.(shuf_buf_) it.(negative_sampling_) it.(start_) it.(end_) it.(in_blk_)
                         it.(mb_) it.(out_blk_) it.(rdp_) it.(draws) src))
  | Some (Some b, src) =>
      let '(rdp, dr) :=
        if decide (it.(shuf_buf_) = 0) then (it.(rdp_), it.(draws)) else
        let rdp := if decide (length it.(rdp_) = b.(b_size)) then it.(rdp_) else seq 0 b.(b_size) in
        (random_shuffle it.(draws) rdp, it.(draws) + 1) in
      Ok (Some (true, mkIter it.(mb_size_) it.(shuf_buf_) it.(negative_sampling_) 0 b.(b_size) b it.(mb_)
                        it.(out_blk_) rdp dr src))
  end.

(** [mb_size_ + 1], an [unsigned]. *)
Definition capacity (it : MinibatchIter Src) : nat := Z.to_nat (u32 (Z.of_nat it.(mb_size_) + 1)).

(** The rows of the current block that still fit. *)
Definition take_rows (it : MinibatchIter Src) : outcome (MinibatchIter Src) :=
  let len := Nat.min (it.(end_) - it.(start_)) (capacity it - length it.(mb_).(offset)) in
  if decide (it.(shuf_buf_) = 0) then
    mb ← Push it it.(start_) len; Ok (with_batch mb len it.(draws) it)
  else
    '(mb, dr) ← foldM (pick_step it) (seq it.(start_) len) (it.(mb_), it.(draws));
    Ok (with_batch mb len dr it).

(** The loop of [Next()]; [None] when the fuel does not suffice.  If the source
    is exhausted the loop is left with what there is. *)
Fixpoint fill (fuel : nat) (it : MinibatchIter Src) : outcome (option (MinibatchIter Src)) :=
  match fuel with
  | 0 => Ok None
  | S fuel =>
      if decide (length it.(mb_).(offset) < capacity it) then
        r ← (if decide (it.(start_) = it.(end_)) then refill it else Ok (Some (true, it)));
        match r with
        | None => Ok None
        | Some (false, it) => Ok (Some it)
        | Some (true, it) => it ← take_rows it; fill fuel it
        end
      else Ok (Some it)
  end.

(** Values that are all 1 are dropped. *)
Definition drop_binary (c : Container F) : Container F :=
  if forallb (fun f => (f =? fone)%F) c.(value)
  then mkCont c.(offset) c.(label) c.(weight) c.(index) [] c.(max_index) else c.

(** [Next()] *)
Definition Next (fuel : nat) (it : MinibatchIter Src) : outcome (option (bool * MinibatchIter Src)) :=
  r ← fill fuel (mkIter it.(mb_size_) it.(shuf_buf_) it.(negative_sampling_) it.(start_) it.(end_) it.(in_blk_)
                   Clear it.(out_blk_) it.(rdp_) it.(draws) it.(source));
  match r with
  | None => Ok None
  | Some it =>
      let mb := drop_binary it.(mb_) in
      out ← GetBlock mb;
      Ok (Some (bool_decide (0 < out.(b_size)),
                mkIter it.(mb_size_) it.(shuf_buf_) it.(negative_sampling_) it.(start_) it.(end_) it.(in_blk_) mb
                  out it.(rdp_) it.(draws) it.(source)))
  end.

(** The loop of a worker over the minibatches. *)
Fixpoint batches (fuel calls : nat) (it : MinibatchIter Src) : outcome (option (list (RowBlock F))) :=
  match calls with
  | 0 => Ok None
  | S calls =>
      r ← Next fuel it;
      match r with
      | None => Ok None
      | Some (false, _) => Ok (Some [])
      | Some (true, it) =>
          r ← batches fuel calls it;
          Ok (match r with Some bs => Some (it.(out_blk_) :: bs) | None => None end)
      end
  end.

End Next.

(** The iterator as the source of another one. *)
Definition reader_next {Src} `{!BlockSource Src} (fuel : nat) (it : MinibatchIter Src)
  : outcome (option (option (RowBlock F) * MinibatchIter Src)) :=
  r ← Next fuel it;
  Ok (match r with
      | None => None
      | Some (true, it) => Some (Some it.(out_blk_), it)
      | Some (false, it) => Some (None, it)
      end).

Definition Reader_source {Src} `{!BlockSource Src} (fuel : nat) : BlockSource (MinibatchIter Src) := {|
  src_next := reader_next fuel;
  src_before_first := BeforeFirst
|}.

End Minibatch.
Arguments MinibatchIter F Src : clear implicits.
Arguments ParserImpl F : clear implicits.
Arguments mkIter {F Src}.
Arguments mb_size_ {F Src}.
Arguments shuf_buf_ {F Src}.
Arguments negative_sampling_ {F Src}.
Arguments start_ {F Src}.
Arguments end_ {F Src}.
Arguments in_blk_ {F Src}.
Arguments mb_ {F Src}.
Arguments out_blk_ {F Src}.
Arguments rdp_ {F Src}.
Arguments draws {F Src}.
Arguments source {F Src}.

(** ** What a source will deliver *)

Section Spec.
Context {F : Type} `{HF : !Float F}.
Implicit Types (rs : list (arow (F := F))).

(** [src_rows s bs]: the blocks to come show the rows [bs]. *)
Class SourceLaws (Src : Type) `{!BlockSource (F := F) Src} := {
  src_rows : Src -> list (list (arow (F := F))) -> Prop;
  src_next_some s rs bs : src_rows s (rs :: bs) ->
    exists b s', src_next s = Ok (Some (Some b, s')) /\ shows 0 0 b rs /\ src_rows s' bs;
  src_next_none s : src_rows s [] -> exists s', src_next s = Ok (Some (None, s')) /\ src_rows s' []
}.

#[export, program] Instance ParserImpl_laws : SourceLaws (ParserImpl F) := {|
  src_rows p bs := Forall2 (shows 0 0) p.(p_left) bs
|}.
Next Obligation.
  intros [l a] rs bs Hb. simpl in *. inversion Hb as [|b ? bs' ? H1 H2]; subst. by exists b, (mkParser bs' a).
Qed.
Next Obligation.
  intros [l a] Hb. simpl in *. inversion Hb; subst. by exists (mkParser [] a).
Qed.

(** Every row has its values or none has. *)
Definition values_uniform rs : Prop :=
  Forall (fun r => r.(a_value) = []) rs \/ Forall (fun r => length r.(a_value) = nfeat r) rs.

Lemma values_uniform_app rs1 rs2 : values_uniform (rs1 ++ rs2) -> values_uniform rs1 /\ values_uniform rs2.
Proof. unfold values_uniform. rewrite !Forall_app. naive_solver. Qed.

Lemma values_uniform_perm rs1 rs2 : rs1 ≡ₚ rs2 -> values_uniform rs1 -> values_uniform rs2.
Proof. intros Hp. unfold values_uniform. by rewrite Hp. Qed.

(** A row as a minibatch stores it: without weight, or with the weight 1 that a
    row without one has. *)
Definition no_weight (r : arow (F := F)) : arow := mkArow r.(a_label) [] r.(a_index) r.(a_value).
Definition no_value (r : arow (F := F)) : arow := mkArow r.(a_label) r.(a_weight) r.(a_index) [].

(** A minibatch of these rows: values that are all 1 are left out. *)
Definition finish rs : list arow :=
  if forallb (fun f => (f =? fone)%F) (concat (map a_value rs)) then map no_value rs else rs.

Lemma drop_binary_holds c rs : holds c rs -> holds (drop_binary c) (finish rs).
Proof.
  intros [H1 H2 H3 H4 H5]. unfold drop_binary, finish. rewrite H5. case_match; [|by split].
  split; simpl; rewrite ?map_map; try done. symmetry. apply (concat_nil (fun r => a_value (no_value r))), Forall_true. done.
Qed.

Lemma finish_length rs : length (finish rs) = length rs.
Proof. unfold finish. case_match; [by rewrite length_map|done]. Qed.

Lemma finish_uniform rs :
  values_uniform rs -> (Forall (fun r => r.(a_weight) = []) rs \/ Forall (fun r => length r.(a_weight) = 1) rs) ->
  uniform (finish rs).
Proof.
  intros Hv Hw. unfold finish. case_match; [|by split]. split.
  - left. by apply Forall_map, Forall_true.
  - destruct Hw as [Hw|Hw]; [left|right]; by apply Forall_map.
Qed.

(** The rows picked by a permutation of their positions. *)
Lemma omap_lookup_seq {A} (l : list A) : omap (fun j => l !! j) (seq 0 (length l)) = l.
Proof.
  induction l as [|x l IH]; simpl; [done|]. f_equal. rewrite <- fmap_S_seq. etransitivity; [|exact IH].
  clear IH. induction (seq 0 (length l)) as [|j js IH]; [done|]. cbn. destruct (l !! j); [f_equal|]; exact IH.
Qed.

Lemma pick_all rs (rdp : list nat) :
  rdp ≡ₚ seq 0 (length rs) -> exists cur, Forall2 (fun j r => rs !! j = Some r) rdp cur /\ rs ≡ₚ cur.
Proof.
  intros Hp. exists (omap (fun j => rs !! j) rdp). split.
  - assert (Forall (fun j => is_Some (rs !! j)) rdp) as Hf.
    { rewrite Hp. apply Forall_forall. intros j Hj%elem_of_seq. apply lookup_lt_is_Some. lia. }
    clear Hp. induction Hf as [|j l [r Hr] _ IH]; simpl; [constructor|]. rewrite Hr. by constructor.
  - rewrite Hp. by rewrite omap_lookup_seq.
Qed.

(** ** One call of [Next] *)

Context (imax : Z) (rand : nat -> Z) (random_shuffle : nat -> list nat -> list nat).
Hypothesis shuffle_perm : forall n l, random_shuffle n l ≡ₚ l.

Section Iter.
Context {Src : Type} `{!BlockSource (F := F) Src, !SourceLaws Src}.
Implicit Types (it : MinibatchIter F Src).

(** The rows are stored without weights unless they are picked one by one. *)
Definition pushed it (r : arow (F := F)) : arow := if decide (it.(shuf_buf_) = 0) then no_weight r else with_weight r.

(** The iterator keeps the order of the rows unless it shuffles. *)
Definition deliver it : relation (list (arow (F := F))) := if decide (it.(shuf_buf_) = 0) then eq else (≡ₚ).

Lemma deliver_refl it rs : deliver it rs rs.
Proof. unfold deliver. by case_decide. Qed.

Lemma deliver_perm it rs1 rs2 : deliver it rs1 rs2 -> rs1 ≡ₚ rs2.
Proof. unfold deliver. case_decide; [by intros ->|done]. Qed.

Lemma deliver_trans it rs1 rs2 rs3 : deliver it rs1 rs2 -> deliver it rs2 rs3 -> deliver it rs1 rs3.
Proof. unfold deliver. case_decide; [congruence|]. intros Hp1 Hp2. by rewrite Hp1. Qed.

Lemma deliver_app it rs1 rs2 rs : deliver it rs1 rs2 -> deliver it (rs ++ rs1) (rs ++ rs2).
Proof. unfold deliver. case_decide; [congruence|]. intros Hp. by rewrite Hp. Qed.

(** The rows of the current block in the order they are taken. *)
Definition current it (cur : list (arow (F := F))) : Prop :=
  it.(end_) = length cur /\
  if decide (it.(shuf_buf_) = 0) then shows 0 0 it.(in_blk_) cur
  else exists rs, shows 0 0 it.(in_blk_) rs /\ it.(rdp_) ≡ₚ seq 0 (length rs) /\
    Forall2 (fun j r => rs !! j = Some r) it.(rdp_) cur.

(** The rows left of the current block and the blocks to come. *)
Record pending it (left_ : list (arow (F := F))) (blocks : list (list (arow (F := F)))) : Prop := {
  pe_source : src_rows it.(source) blocks;
  pe_le : it.(start_) <= it.(end_);
  pe_left : it.(end_) - it.(start_) = length left_;
  pe_current : left_ <> [] -> exists cur, current it cur /\ left_ = drop it.(start_) cur;
  pe_rdp : it.(rdp_) ≡ₚ seq 0 (length it.(rdp_))
}.

(** The sizes are in range and negative examples are not sampled. *)
Definition settings it : Prop :=
  (Z.of_nat it.(mb_size_) + 1 < 2 ^ 32)%Z /\ (it.(shuf_buf_) <> 0 -> (it.(negative_sampling_) <? fone)%F = false).

Lemma capacity_settings it : settings it -> capacity it = it.(mb_size_) + 1.
Proof. intros [H _]. unfold capacity. rewrite u32_small by lia. lia. Qed.

Lemma refill_some it rs blocks :
  pending it [] (rs :: blocks) ->
  exists it' cur, refill random_shuffle it = Ok (Some (true, it')) /\
    deliver it rs cur /\ current it' cur /\ pending it' cur blocks /\ start_ it' = 0 /\
    mb_ it' = mb_ it /\ mb_size_ it' = mb_size_ it /\ shuf_buf_ it' = shuf_buf_ it /\
    negative_sampling_ it' = negative_sampling_ it /\ length cur = length rs.
Proof.
  intros [H1 _ _ _ H5]. destruct (src_next_some _ _ _ H1) as (b & s' & E & Hsh & Hs'). unfold refill. rewrite E.
  cbn [mbind outcome_bind]. pose proof (s_size _ _ _ _ Hsh) as Hsz. unfold deliver, current.
  destruct (decide (shuf_buf_ it = 0)) as [Hs|Hs].
  - eexists _, rs. split; [reflexivity|]. simpl. rewrite decide_True by done. rewrite Hsz.
    split_and!; try done. split; simpl; rewrite ?Hsz; try done; try lia.
    intros _. exists rs. split; [|done]. split; simpl; [done|]. by rewrite decide_True by done.
  - set (rdp := if decide (length (rdp_ it) = b_size b) then rdp_ it else seq 0 (b_size b)).
    assert (random_shuffle (draws it) rdp ≡ₚ seq 0 (length rs)) as Hp.
    { rewrite shuffle_perm, <- Hsz. subst rdp. case_decide as Hl; [|done]. rewrite H5 at 1. by rewrite Hl. }
    set (rdp' := random_shuffle (draws it) rdp) in *.
    destruct (pick_all rs rdp' Hp) as (cur & Hcur & Hperm).
    pose proof (Permutation_length Hperm) as Hlen. pose proof (Permutation_length Hp) as Hlr. rewrite length_seq in Hlr.
    eexists _, cur. split; [reflexivity|]. simpl. rewrite decide_False by done.
    split_and!; try done; try (by rewrite Hsz); [by exists rs|].
    split; simpl; rewrite ?Hsz, ?Hlr; try done; try lia.
    intros _. exists cur. split; [|done]. split; simpl; [lia|]. rewrite decide_False by done. by exists rs.
Qed.

Lemma slice_shows (b : RowBlock F) rs p len :
  shows 0 0 b rs -> p + len <= length rs -> 
  exists o, read_at b.(b_offset) p = Ok o /\
    shows o 0 (mkBlock len (drop p b.(b_offset)) (ptr_add b.(b_label) p) None (ptr_add b.(b_index) o)
                 (match b.(b_value) with Some _ => ptr_add b.(b_value) o | None => None end))
      (map no_weight (segment p (p + len) rs)).
Proof.
  intros Hsh Hp. exists (sum_list (take p (map nfeat rs))). split.
  { apply (read_take (S (length rs)) _ (psums 0 (map nfeat rs))); [apply (s_offset _ _ _ _ Hsh)|lia|].
    rewrite psums_lookup by (rewrite length_map; lia). done. }
  destruct (part_shows b rs p (p + len) Hsh) as [Hs Ho Hl Hw Hi Hv]; [lia..|].
  set (o := sum_list (take p (map nfeat rs))) in *. set (seg := segment p (p + len) rs) in *.
  assert (map nfeat (map no_weight seg) = map nfeat seg) as Hn by by rewrite map_map.
  cbn [b_size b_offset b_label b_weight b_index b_value] in *.
  split; cbn [b_size b_offset b_label b_weight b_index b_value]; rewrite ?length_map, ?Hn, ?drop_0; try done.
  - lia.
  - by rewrite map_map.
  - by apply Forall_map, Forall_true.
  - rewrite default_ptr_add, map_map. exact Hi.
  - destruct (b_value b) as [v|]; cbn [ptr_add option_map].
    + destruct Hv as [Hv1 Hv2]. split; [by apply Forall_map|]. by rewrite drop_0, map_map.
    + by apply Forall_map.
Qed.

(** The picked rows are pushed one after the other. *)
Lemma pick_rows_holds it rs cur mb done n :
  shows 0 0 it.(in_blk_) rs -> Forall2 (fun j r => rs !! j = Some r) it.(rdp_) cur ->
  (it.(negative_sampling_) <? fone)%F = false -> it.(start_) + n <= length cur ->
  in_range imax (drop it.(start_) cur) -> holds mb done ->
  exists mb' dr, foldM (pick_step imax rand it) (seq it.(start_) n) (mb, it.(draws)) = Ok (mb', dr) /\
    holds mb' (done ++ map with_weight (segment it.(start_) (it.(start_) + n) cur)).
Proof.
  intros Hsh Hcur Hns Hn Hir Hmb.
  destruct (foldM_seq (pick_step imax rand it) (fun i st =>
    holds st.1 (done ++ map with_weight (segment it.(start_) i cur))) it.(start_) n (mb, it.(draws))) as ([mb' dr] & E & Hmb').
  - simpl. unfold segment. by rewrite Nat.sub_diag, app_nil_r.
  - intros i [mb1 dr1] Hi Hmb1. cbn [fst] in Hmb1.
    destruct (lookup_lt_is_Some_2 cur i) as [r Hr]; [lia|].
    destruct (Forall2_lookup_r _ _ _ _ _ Hcur Hr) as (j & Hj & Hjr).
    unfold pick_step. rewrite (proj2 (read_at_Ok _ _ _) Hj). cbn [mbind outcome_bind]. rewrite Hns. cbn [mbind outcome_bind].
    destruct (block_at_shows 0 _ _ _ _ Hsh Hjr) as (row & -> & Hrow). cbn [mbind outcome_bind].
    destruct (Push_row_holds imax row r mb1 _ Hmb1 Hrow) as (mb2 & -> & Hmb2).
    { apply Forall_singleton. apply (Forall_lookup_1 _ _ (i - start_ it) _ Hir). rewrite lookup_drop.
      by replace (start_ it + (i - start_ it)) with i by lia. }
    cbn [mbind outcome_bind]. eexists. split; [reflexivity|]. cbn [fst].
    replace (segment (start_ it) (i + 1) cur) with (segment (start_ it) i cur ++ [r]).
    + by rewrite map_app, app_assoc.
    + rewrite <- (segment_app (start_ it) i (i + 1)) by lia. f_equal. unfold segment.
      replace (i + 1 - i) with 1 by lia. rewrite (drop_S _ _ _ Hr). done.
  - by exists mb', dr.
Qed.

Lemma take_rows_spec it left_ blocks done :
  settings it -> pending it left_ blocks -> holds (mb_ it) (map (pushed it) done) ->
  length done <= mb_size_ it -> in_range imax left_ ->
  let len := Nat.min (length left_) (mb_size_ it - length done) in
  exists it', take_rows imax rand it = Ok it' /\ pending it' (drop len left_) blocks /\
    holds (mb_ it') (map (pushed it) (done ++ take len left_)) /\ settings it' /\
    mb_size_ it' = mb_size_ it /\ shuf_buf_ it' = shuf_buf_ it.
Proof.
  intros Hset Hpe Hmb Hd Hir len. pose proof (capacity_settings it Hset) as Hcap.
  destruct (holds_sizes _ _ Hmb) as (Hlo & _). rewrite length_map in Hlo.
  pose proof Hpe as [H1 H2 H3 H4 H5]. unfold take_rows. rewrite Hcap, Hlo, H3.
  replace (Nat.min (length left_) (mb_size_ it + 1 - S (length done))) with len by (subst len; lia).
  assert (forall mb dr, holds mb (map (pushed it) (done ++ take len left_)) ->
    let it' := with_batch mb len dr it in
    pending it' (drop len left_) blocks /\ holds (mb_ it') (map (pushed it) (done ++ take len left_)) /\
    settings it' /\ mb_size_ it' = mb_size_ it /\ shuf_buf_ it' = shuf_buf_ it) as Hgoal.
  { intros mb dr Hmb' it'. split; [|done]. split; simpl; try done.
    - subst len. lia.
    - rewrite length_drop. subst len. lia.
    - intros Hne. destruct H4 as (cur & Hcur & ->); [intros ->; by rewrite drop_nil in Hne|].
      exists cur. split; [exact Hcur|]. by rewrite drop_drop. }
  destruct (decide (len = 0)) as [Hl0|Hl0].
  { rewrite Hl0 in *. rewrite take_0, app_nil_r in Hgoal. unfold Push. rewrite (decide_True (P := 0 = 0)) by done.
    simpl seq. cbn [mbind outcome_bind foldM]. rewrite take_0, app_nil_r.
    destruct (decide (shuf_buf_ it = 0)); (eexists; split; [reflexivity|]; by apply Hgoal). }
  destruct H4 as (cur & [Hec Hcur] & Hleft); [intros ->; subst len; simpl in Hl0; lia|].
  assert (take len left_ = segment (start_ it) (start_ it + len) cur) as Htk.
  { rewrite Hleft. unfold segment. f_equal. lia. }
  unfold pushed in Hmb, Hgoal |- *. destruct (decide (shuf_buf_ it = 0)) as [Hs|Hs].
  - unfold Push. rewrite decide_False by done.
    assert (start_ it + len <= length cur) as Hle by (subst len; lia).
    rewrite check_true by (apply bool_decide_eq_true; rewrite (s_size _ _ _ _ Hcur); lia). cbn [mbind outcome_bind].
    destruct (slice_shows (in_blk_ it) cur (start_ it) len Hcur Hle) as (o & -> & Hsl). cbn [mbind outcome_bind].
    rewrite <- Htk in Hsl. destruct (Push_block_holds imax _ _ _ _ _ Hmb Hsl) as (mb' & -> & Hmb').
    { apply Forall_map. eapply Forall_impl; [by apply Forall_take|]. done. }
    cbn [mbind outcome_bind]. eexists. split; [reflexivity|]. apply Hgoal. by rewrite map_app.
  - destruct Hcur as (rs & Hsh & Hp & Hf2).
    destruct (pick_rows_holds it rs (cur) (mb_ it) (map with_weight done) len) as (mb' & dr & E & Hmb'); try done.
    { by apply Hset. }
    { subst len. lia. }
    { by rewrite <- Hleft. }
    rewrite E. cbn [mbind outcome_bind]. eexists. split; [reflexivity|]. apply Hgoal. by rewrite map_app, Htk.
Qed.

(** [res] is [it] with the minibatch filled up from the rows pending, as far as
    they go. *)
Definition filled it (done left_ : list (arow (F := F))) blocks (res : outcome (option (MinibatchIter F Src))) : Prop :=
  exists it' taken left' blocks', res = Ok (Some it') /\
    settings it' /\ pending it' left' blocks' /\ holds (mb_ it') (map (pushed it) (done ++ taken)) /\
    mb_size_ it' = mb_size_ it /\ shuf_buf_ it' = shuf_buf_ it /\
    deliver it (left_ ++ concat blocks) (taken ++ left' ++ concat blocks') /\
    length done + length taken <= mb_size_ it /\ length blocks' <= length blocks /\
    (length done + length taken = mb_size_ it \/ (left' = [] /\ blocks' = [])).

(** The iterations the loop needs. *)
Definition enough fuel it (done : list (arow (F := F))) (blocks : list (list (arow (F := F)))) : Prop :=
  (length done = mb_size_ it /\ 1 <= fuel) \/
  length blocks + 1 + (if decide (start_ it = end_ it) then 0 else 1) <= fuel.

Definition fill_ok fuel : Prop := forall it done left_ blocks,
  settings it -> pending it left_ blocks -> holds (mb_ it) (map (pushed it) done) ->
  length done <= mb_size_ it -> in_range imax (left_ ++ concat blocks) -> enough fuel it done blocks ->
  filled it done left_ blocks (fill imax rand random_shuffle fuel it).

(** One iteration with a block. *)
Lemma fill_take fuel it dn left_ blocks it1 left1 blocks1 :
  fill_ok fuel -> in_range imax (left_ ++ concat blocks) -> holds (mb_ it) (map (pushed it) dn) ->
  S (length dn) < mb_size_ it + 1 ->
  settings it1 -> pending it1 left1 blocks1 -> mb_ it1 = mb_ it ->
  mb_size_ it1 = mb_size_ it -> shuf_buf_ it1 = shuf_buf_ it -> length blocks1 + 1 <= fuel -> length blocks1 <= length blocks ->
  deliver it (left_ ++ concat blocks) (left1 ++ concat blocks1) ->
  filled it dn left_ blocks (it2 ← take_rows imax rand it1; fill imax rand random_shuffle fuel it2).
Proof.
  intros IH Hir Hmb Hlt Hset1 Hpe1 Em Es Eb Hf1 Hb1 Hdel.
  assert (pushed it1 = pushed it) as Epush by (unfold pushed; by rewrite Eb).
  assert (in_range imax (left1 ++ concat blocks1)) as Hir1.
  { unfold in_range. by rewrite <- (deliver_perm _ _ _ Hdel). }
  rewrite <- Em, <- Epush in Hmb. unfold filled. rewrite <- Es in Hlt |- *.
  destruct (take_rows_spec it1 left1 blocks1 dn Hset1 Hpe1 Hmb ltac:(lia) (proj1 (proj1 (Forall_app _ _ _) Hir1)))
    as (it2 & -> & Hpe2 & Hmb2 & Hset2 & Es2 & Eb2). cbn [mbind outcome_bind].
  set (len := Nat.min (length left1) (mb_size_ it1 - length dn)) in *.
  assert (pushed it2 = pushed it1) as Epush2 by (unfold pushed; by rewrite Eb2).
  rewrite <- Epush2 in Hmb2.
  assert (length (take len left1) = len) as Hlt1 by (rewrite length_take; subst len; lia).
  destruct (IH it2 (dn ++ take len left1) (drop len left1) blocks1 Hset2 Hpe2 Hmb2)
    as (it' & taken & left' & blocks' & E & H1 & H2 & H3 & H4 & H5 & H6 & H7 & H8 & H9).
  - rewrite length_app, Hlt1, Es2. subst len. lia.
  - apply Forall_app in Hir1 as [Ha Hb]. apply Forall_app. split; [by apply Forall_drop|done].
  - unfold enough. rewrite length_app, Hlt1, Es2. pose proof (pe_left _ _ _ Hpe2) as Hp2. rewrite length_drop in Hp2.
    pose proof (pe_le _ _ _ Hpe2). subst len. destruct (decide (start_ it2 = end_ it2)); lia.
  - exists it', (take len left1 ++ taken), left', blocks'. rewrite length_app in *. rewrite Hlt1 in *.
    rewrite <- Epush, <- Epush2. split; [done|]. split_and!; try done; try congruence; try lia.
    + by rewrite app_assoc.
    + eapply deliver_trans; [exact Hdel|]. rewrite <- (take_drop len left1) at 1. rewrite <- !app_assoc.
      apply deliver_app. unfold deliver in *. by rewrite Eb2, Eb in H6.
    + destruct H9 as [H9|H9]; [left; lia|by right].
Qed.

(** The loop takes rows until the minibatch is full or the source is exhausted. *)
Lemma fill_spec fuel : fill_ok fuel.
Proof.
  induction fuel as [|fuel IH]; intros it dn left_ blocks Hset Hpe Hmb Hd Hir Hfuel; [unfold enough in Hfuel; lia|]. simpl.
  pose proof (capacity_settings it Hset) as Hcap. destruct (holds_sizes _ _ Hmb) as (Hlo & _). rewrite length_map in Hlo.
  rewrite Hcap, Hlo. destruct (decide (S (length dn) < mb_size_ it + 1)) as [Hlt|Hge].
  2:{ exists it, [], left_, blocks. rewrite app_nil_r. split_and!; try done; [apply deliver_refl|simpl; lia..]. }
  destruct Hfuel as [Hfuel|Hfuel]; [lia|].
  destruct (decide (start_ it = end_ it)) as [He|He].
  - assert (left_ = []) as -> by (apply nil_length_inv; rewrite <- (pe_left _ _ _ Hpe); lia).
    destruct blocks as [|rs blocks].
    + destruct (src_next_none _ (pe_source _ _ _ Hpe)) as (s' & E & Hs'). unfold refill. rewrite E.
      cbn [mbind outcome_bind]. eexists _, [], [], []. split; [reflexivity|]. rewrite app_nil_r. simpl.
      split_and!; try done; [|apply deliver_refl|lia|by right].
      destruct Hpe as [_ P2 P3 P4 P5]. by split.
    + destruct (refill_some it rs blocks Hpe) as (it1 & cur & -> & Hdel & _ & Hpe1 & _ & Em & Es & Eb & En & Hlc).
      cbn [mbind outcome_bind]. apply (fill_take fuel it dn [] (rs :: blocks) it1 cur blocks); try done.
      * unfold settings. by rewrite Es, Eb, En.
      * simpl in *. lia.
      * simpl. lia.
      * simpl. unfold deliver in *. destruct (decide (shuf_buf_ it = 0)); [by rewrite Hdel|]. by rewrite Hdel.
  - cbn [mbind outcome_bind]. apply (fill_take fuel it dn left_ blocks it left_ blocks); try done; [lia|apply deliver_refl].
Qed.

Lemma pushed_value it r : a_value (pushed it r) = a_value r.
Proof. unfold pushed. by case_decide. Qed.

Lemma pushed_uniform it rs : values_uniform rs -> uniform (finish (map (pushed it) rs)).
Proof.
  intros Hv. apply finish_uniform.
  - unfold values_uniform in *. rewrite !Forall_map. unfold pushed.
    destruct (decide (shuf_buf_ it = 0)); simpl; exact Hv.
  - unfold pushed. destruct (decide (shuf_buf_ it = 0)); [left|right]; by apply Forall_map, Forall_true.
Qed.

Lemma Next_spec fuel it left_ blocks :
  settings it -> pending it left_ blocks -> in_range imax (left_ ++ concat blocks) ->
  values_uniform (left_ ++ concat blocks) -> length blocks + 2 <= fuel ->
  exists it' taken left' blocks',
    Next imax rand random_shuffle fuel it = Ok (Some (bool_decide (0 < length taken), it')) /\
    settings it' /\ pending it' left' blocks' /\ shows 0 0 (out_blk_ it') (finish (map (pushed it) taken)) /\
    mb_size_ it' = mb_size_ it /\ shuf_buf_ it' = shuf_buf_ it /\
    deliver it (left_ ++ concat blocks) (taken ++ left' ++ concat blocks') /\
    length taken <= mb_size_ it /\ length blocks' <= length blocks /\
    (length taken = mb_size_ it \/ (left' = [] /\ blocks' = [])).
Proof.
  intros Hset Hpe Hir Hvu Hfuel. unfold Next.
  set (it0 := mkIter _ _ _ _ _ _ _ _ _ _ _).
  destruct (fill_spec fuel it0 [] left_ blocks) as
    (it1 & taken & left' & blocks' & -> & H1 & H2 & H3 & H4 & H5 & H6 & H7 & H8 & H9); try done.
  - destruct Hpe as [P1 P2 P3 P4 P5]. by split.
  - simpl. lia.
  - right. simpl. case_decide; lia.
  - cbn [mbind outcome_bind]. simpl in H3, H7, H9.
    destruct (GetBlock_shows _ _ (drop_binary_holds _ _ H3)) as (out & -> & Hout).
    { apply pushed_uniform. apply (values_uniform_perm _ _ (deliver_perm _ _ _ H6)) in Hvu.
      by apply values_uniform_app in Hvu as [? _]. }
    cbn [mbind outcome_bind]. eexists _, taken, left', blocks'. split.
    { rewrite (s_size _ _ _ _ Hout), finish_length, length_map. reflexivity. }
    split_and!; try done. destruct H2 as [P1 P2 P3 P4 P5]. by split.
Qed.

(** ** A pass over the data *)

(** Minibatches of at most [n] rows: none is empty, all but the last are full. *)
Definition sized (n : nat) (ts : list (list (arow (F := F)))) : Prop :=
  Forall (fun t => 0 < length t <= n) ts /\
  forall i t, ts !! i = Some t -> S i < length ts -> length t = n.

Lemma batches_spec fuel calls : forall it left_ blocks,
  settings it -> pending it left_ blocks -> in_range imax (left_ ++ concat blocks) ->
  values_uniform (left_ ++ concat blocks) -> length blocks + 2 <= fuel ->
  0 < mb_size_ it -> length (left_ ++ concat blocks) < calls ->
  exists bs ts, batches imax rand random_shuffle fuel calls it = Ok (Some bs) /\
    Forall2 (fun b t => shows 0 0 b (finish (map (pushed it) t))) bs ts /\
    deliver it (left_ ++ concat blocks) (concat ts) /\ sized (mb_size_ it) ts.
Proof.
  induction calls as [|calls IH]; intros it left_ blocks Hset Hpe Hir Hvu Hfuel Hmb Hcalls; [lia|]. simpl.
  destruct (Next_spec fuel it left_ blocks Hset Hpe Hir Hvu Hfuel) as
    (it' & taken & left' & blocks' & -> & H1 & H2 & H3 & H4 & H5 & H6 & H7 & H8 & H9). cbn [mbind outcome_bind].
  pose proof (deliver_perm _ _ _ H6) as Hp. destruct taken as [|r taken].
  - exists [], []. destruct H9 as [H9|[-> ->]]; [simpl in H9; lia|]. simpl in *. split; [done|].
    split; [constructor|]. split; [exact H6|]. split; [constructor|]. intros i t Ht. by rewrite lookup_nil in Ht.
  - rewrite bool_decide_eq_true_2 by (simpl; lia). unfold in_range in Hir. rewrite Hp in Hir.
    apply (values_uniform_perm _ _ Hp), values_uniform_app in Hvu as [_ Hvu].
    apply Forall_app in Hir as [_ Hir]. apply Permutation_length in Hp. rewrite (length_app (r :: taken)) in Hp. simpl in Hp.
    destruct (IH it' left' blocks' H1 H2 Hir Hvu) as (bs & ts & -> & Hbs & Hdel & Hall & Hfull); [lia..|].
    cbn [mbind outcome_bind]. exists (out_blk_ it' :: bs), ((r :: taken) :: ts). split; [done|].
    assert (pushed it' = pushed it) as Epush by (unfold pushed; by rewrite H5). rewrite Epush in Hbs. rewrite H4 in *.
    split; [by constructor|]. split.
    + eapply deliver_trans; [exact H6|]. simpl. change (r :: taken ++ left' ++ concat blocks') with ((r :: taken) ++ left' ++ concat blocks').
      change (r :: taken ++ concat ts) with ((r :: taken) ++ concat ts). apply deliver_app.
      unfold deliver in *. by rewrite H5 in Hdel.
    + split; [constructor; [simpl in *; lia|done]|]. intros [|i] t Ht Hi; [|apply (Hfull i t Ht); simpl in Hi; lia].
      injection Ht as <-. destruct H9 as [H9|[-> ->]]; [done|]. simpl in Hi, Hdel.
      apply deliver_perm, Permutation_length in Hdel. destruct ts as [|t' ts]; [simpl in Hi; lia|].
      apply Forall_cons in Hall as [Ht' _]. simpl in Hdel. rewrite length_app in Hdel. lia.
Qed.

End Iter.

(** ** The iterator as a source *)

(** [rs] cut into pieces of [n]. *)
Inductive cut (n : nat) : list (arow (F := F)) -> list (list (arow (F := F))) -> Prop :=
| cut_nil : cut n [] []
| cut_cons rs ts : rs <> [] -> cut n (drop n rs) ts -> cut n rs (take n rs :: ts).

Lemma cut_concat n rs ts : cut n rs ts -> concat ts = rs.
Proof. induction 1 as [|rs ts _ _ IH]; simpl; [done|]. by rewrite IH, take_drop. Qed.

Lemma cut_count n rs ts : 0 < n -> cut n rs ts -> length ts <= length rs.
Proof.
  intros Hn. induction 1 as [|rs ts Hne _ IH]; simpl; [done|]. rewrite length_drop in IH.
  destruct rs; [done|]. simpl in *. lia.
Qed.

Lemma cut_exists n : 0 < n -> forall k rs, length rs <= k -> exists ts, cut n rs ts.
Proof.
  intros Hn. induction k as [|k IH]; intros [|r rs] Hk; simpl in Hk; try lia; try (by exists []; constructor).
  destruct (IH (drop n (r :: rs))) as [ts Hts].
  { rewrite length_drop. simpl. lia. }
  eexists. by constructor; [|exact Hts].
Qed.

Section Reader.
Context {Src : Type} `{!BlockSource (F := F) Src, !SourceLaws Src} (fuel : nat).

Definition reader_rows (it : MinibatchIter F Src) (bs : list (list (arow (F := F)))) : Prop :=
  shuf_buf_ it = 0 /\ settings it /\ 0 < mb_size_ it /\ exists left_ blocks ts,
    pending it left_ blocks /\ in_range imax (left_ ++ concat blocks) /\ values_uniform (left_ ++ concat blocks) /\
    length blocks + 2 <= fuel /\ cut (mb_size_ it) (left_ ++ concat blocks) ts /\
    bs = map (fun t => finish (map no_weight t)) ts.

(** A call of [Next] without shuffling. *)
Lemma reader_step it bs :
  reader_rows it bs ->
  exists it', Next imax rand random_shuffle fuel it = Ok (Some (bool_decide (0 < length bs), it')) /\
    reader_rows it' (tail bs) /\ forall rs, head bs = Some rs -> shows 0 0 (out_blk_ it') rs.
Proof.
  intros (Hs & Hset & Hmb & left_ & blocks & ts & Hpe & Hir & Hvu & Hf & Hcut & ->).
  destruct (Next_spec fuel it left_ blocks Hset Hpe Hir Hvu Hf) as
    (it' & taken & left' & blocks' & -> & H1 & H2 & H3 & H4 & H5 & H6 & H7 & H8 & H9).
  unfold deliver in H6. rewrite decide_True in H6 by done.
  assert (pushed it = no_weight) as Ep by (unfold pushed; by rewrite Hs). rewrite Ep in H3.
  rewrite H6 in Hir, Hvu, Hcut. apply Forall_app in Hir as [_ Hir]. apply values_uniform_app in Hvu as [_ Hvu].
  exists it'. inversion Hcut as [E1 E2|rs' ts' Hne Hrest E1 E2].
  - symmetry in E1. apply app_nil in E1 as [-> Hnil]. simpl. split; [done|]. split; [|done].
    split; [by rewrite H5|]. split; [done|]. split; [by rewrite H4|]. exists left', blocks', []. rewrite Hnil in *.
    split_and!; try done; [lia|constructor].
  - assert (take (mb_size_ it) (taken ++ left' ++ concat blocks') = taken /\
      drop (mb_size_ it) (taken ++ left' ++ concat blocks') = left' ++ concat blocks') as [Et Ed].
    { destruct H9 as [H9|[-> ->]].
      - rewrite <- H9. by rewrite take_app_length, drop_app_length.
      - simpl. rewrite app_nil_r, take_ge, drop_ge by lia. done. }
    rewrite Ed in Hrest. rewrite Et. assert (0 < length taken) as Hpos.
    { destruct H9 as [H9|[-> ->]]; [lia|]. destruct taken; [done|simpl; lia]. }
    split; [rewrite !bool_decide_eq_true_2; [done|simpl; lia|done]|]. split.
    + split; [by rewrite H5|]. split; [done|]. split; [by rewrite H4|]. exists left', blocks', ts'.
      split_and!; try done; [lia|by rewrite H4].
    + intros rs [= <-]. done.
Qed.

#[local] Instance reader_source : BlockSource (MinibatchIter F Src) := Reader_source imax rand random_shuffle fuel.

#[local, program] Instance Reader_laws : SourceLaws (MinibatchIter F Src) := {| src_rows := reader_rows |}.
Next Obligation.
  intros it rs bs Hr. destruct (reader_step it _ Hr) as (it' & E & Hr' & Hsh).
  exists (out_blk_ it'), it'. split; [|by split; [apply Hsh|]]. simpl. unfold reader_next. rewrite E. done.
Qed.
Next Obligation.
  intros it Hr. destruct (reader_step it _ Hr) as (it' & E & Hr' & _).
  exists it'. split; [|done]. simpl. unfold reader_next. rewrite E. done.
Qed.

End Reader.

(** ** What the minibatches hold *)

(** [r'] is [r] with the weight [w] in place of its own: [[]] for none.  Values
    that are all 1 may be left out. *)
Definition reweighted (w : list F) (r r' : arow (F := F)) : Prop :=
  a_label r' = a_label r /\ a_weight r' = w /\ a_index r' = a_index r /\
  (a_value r' = a_value r \/ (a_value r' = [] /\ Forall (fun f => (f =? fone)%F = true) (a_value r))).

Lemma reweighted_trans w1 w2 r1 r2 r3 : reweighted w1 r1 r2 -> reweighted w2 r2 r3 -> reweighted w2 r1 r3.
Proof.
  intros (A1 & _ & B1 & C1) (A2 & W2 & B2 & C2). split; [congruence|]. split; [done|]. split; [congruence|].
  destruct C1 as [C1|[C1 C1']]; destruct C2 as [C2|[C2 C2']]; rewrite ?C1 in *; auto.
Qed.

Lemma finish_same (g : arow (F := F) -> arow) w rs :
  Forall (fun r => a_label (g r) = a_label r /\ a_weight (g r) = w /\ a_index (g r) = a_index r /\ a_value (g r) = a_value r) rs ->
  Forall2 (reweighted w) rs (finish (map g rs)).
Proof.
  intros Hg. rewrite Forall_forall in Hg. unfold finish. destruct (forallb _ _) eqn:Eb.
  - rewrite map_map. apply Forall2_fmap_r, Forall_Forall2_diag, Forall_forall. intros r Hr.
    destruct (Hg r Hr) as (H1 & Hw & H2 & H3). split; [done|]. split; [done|]. split; [done|]. right. split; [done|].
    apply Forall_forall. intros f Hf. rewrite forallb_forall in Eb. apply Eb. apply list_elem_of_In.
    apply list_elem_of_In, in_concat. exists (a_value (g r)). split; [|rewrite H3; by apply list_elem_of_In].
    rewrite map_map. apply in_map_iff. exists r. split; [done|by apply list_elem_of_In].
  - apply Forall2_fmap_r, Forall_Forall2_diag, Forall_forall. intros r Hr. destruct (Hg r Hr) as (H1 & Hw & H2 & H3).
    split; [done|]. split; [done|]. split; [done|]. by left.
Qed.

Lemma finish_same_all (g : arow (F := F) -> arow) w ts :
  Forall (fun r => a_label (g r) = a_label r /\ a_weight (g r) = w /\ a_index (g r) = a_index r /\ a_value (g r) = a_value r) (concat ts) ->
  Forall2 (reweighted w) (concat ts) (concat (map (fun t => finish (map g t)) ts)).
Proof.
  induction ts as [|t ts IH]; simpl; [constructor|]. intros [Hg1 Hg2]%Forall_app. apply Forall2_app; [|by apply IH]. by apply finish_same.
Qed.

Lemma no_weight_same (rs : list (arow (F := F))) :
  Forall (fun r => a_label (no_weight r) = a_label r /\ a_weight (no_weight r) = [] /\
    a_index (no_weight r) = a_index r /\ a_value (no_weight r) = a_value r) rs.
Proof. by apply Forall_true. Qed.

Lemma sized_map n (g : arow (F := F) -> arow) ts :
  sized n ts -> sized n (map (fun t => finish (map g t)) ts).
Proof.
  assert (forall t, length (finish (map g t)) = length t) as Hl by (intros t; by rewrite finish_length, length_map).
  intros [Ha Hf]. split.
  - apply Forall_map. eapply Forall_impl; [exact Ha|]. intros t Ht. simpl. by rewrite Hl.
  - intros i t Ht Hi. rewrite length_map in Hi. apply list_lookup_fmap_Some in Ht as (t0 & -> & Ht0).
    rewrite Hl. by apply (Hf i).
Qed.

End Spec.

(** ** The passes over the data *)

Section Passes.
Context {F : Type} `{HF : !Float F} (imax : Z) (rand : nat -> Z) (random_shuffle : nat -> list nat -> list nat).
Hypothesis shuffle_perm : forall n l, random_shuffle n l ≡ₚ l.
Lemma new_pending {Src} `{!BlockSource (F := F) Src, !SourceLaws Src} (src : Src) blocks n m (ns : F) :
  src_rows src blocks -> pending (new_iter src n m ns) [] blocks.
Proof. intros Hs. by split. Qed.

(** A pass without shuffling over any source. *)
Lemma pass_over_source {Src} `{!BlockSource (F := F) Src, !SourceLaws Src} (src : Src) rss mb_size (ns : F) fuel calls :
  src_rows src rss -> in_range imax (concat rss) -> values_uniform (concat rss) ->
  0 < mb_size -> (Z.of_nat mb_size + 1 < 2 ^ 32)%Z -> length rss + 2 <= fuel -> length (concat rss) < calls ->
  exists bs outs, batches imax rand random_shuffle fuel calls (new_iter src mb_size 0 ns) = Ok (Some bs) /\
    Forall2 (shows 0 0) bs outs /\ Forall2 (reweighted []) (concat rss) (concat outs) /\ sized mb_size outs.
Proof.
  intros Hsrc Hr Hu Hmb Hsm Hf Hc. set (it := new_iter src mb_size 0 ns).
  destruct (batches_spec imax rand random_shuffle shuffle_perm fuel calls it [] rss) as (bs & ts & E & Hbs & Hdel & Hsz);
    try done.
  exists bs, (map (fun t => finish (map no_weight t)) ts). split; [done|]. split.
  - apply Forall2_fmap_r. exact Hbs.
  - split; [|by apply sized_map]. simpl in Hdel. unfold deliver in Hdel. simpl in Hdel. rewrite Hdel.
    apply finish_same_all, no_weight_same.
Qed.

Context (parser : ParserImpl F) (rss : list (list (arow (F := F)))).

(** The blocks of the parser show the rows [rss], in which all features have
    values or none has. *)
Hypothesis parser_rows : Forall2 (shows 0 0) parser.(p_left) rss.
Hypothesis rows_in_range : in_range imax (concat rss).
Hypothesis rows_uniform : values_uniform (concat rss).

Lemma pass_in_order mb_size (ns : F) fuel calls :
  0 < mb_size -> (Z.of_nat mb_size + 1 < 2 ^ 32)%Z -> length rss + 2 <= fuel -> length (concat rss) < calls ->
  exists bs outs, batches imax rand random_shuffle fuel calls (new_MinibatchIter parser mb_size ns) = Ok (Some bs) /\
    Forall2 (shows 0 0) bs outs /\ Forall2 (reweighted []) (concat rss) (concat outs) /\ sized mb_size outs.
Proof.
  intros Hmb Hsm Hf Hc. by apply pass_over_source.
Qed.

(** A pass without shuffling gives every row once and in order, in
    minibatches of the size asked for, of which only the last may be smaller.  A
    row keeps its label and features; its weight is dropped, and its values are
    if all values of the minibatch are 1. *)
Theorem minibatches_in_order mb_size (ns : F) fuel calls :
  0 < mb_size -> (Z.of_nat mb_size + 1 < 2 ^ 32)%Z -> length rss + 2 <= fuel -> length (concat rss) < calls ->
  exists bs outs, batches imax rand random_shuffle fuel calls (new_MinibatchIter parser mb_size ns) = Ok (Some bs) /\
    Forall2 (shows 0 0) bs outs /\ Forall2 (reweighted []) (concat rss) (concat outs) /\ sized mb_size outs.
Proof.
  apply pass_in_order.
Qed.

Definition buffers (n : nat) (bufs : list (list (arow (F := F)))) : Prop :=
  exists ts, cut n (concat rss) ts /\ bufs = map (fun t => finish (map no_weight t)) ts.

Lemma shuffled_source mb_size shuf_buf fuel :
  mb_size < shuf_buf -> (Z.of_nat shuf_buf + 1 < 2 ^ 32)%Z -> length rss + 2 <= fuel ->
  exists bufs, buffers shuf_buf bufs /\ length (concat bufs) = length (concat rss) /\ length bufs <= length (concat rss) /\
    Forall2 (reweighted []) (concat rss) (concat bufs) /\
    reader_rows imax fuel (new_MinibatchIter parser shuf_buf fone) bufs.
Proof.
  intros Hmb Hsm Hf. destruct (cut_exists shuf_buf ltac:(lia) _ (concat rss) (le_n _)) as [ts Hts].
  pose proof (cut_concat _ _ _ Hts) as Hcc.
  assert (Forall2 (reweighted []) (concat rss) (concat (map (fun t => finish (map no_weight t)) ts))) as Hsame.
  { rewrite <- Hcc. apply finish_same_all, no_weight_same. }
  eexists. split; [by exists ts|]. split; [by rewrite (Forall2_length _ _ _ Hsame)|].
  split; [rewrite length_map; by apply (cut_count shuf_buf); [lia|]|]. split; [done|].
  split; [done|]. split; [done|]. split; [simpl; lia|]. exists [], rss, ts. split_and!; done.
Qed.

(** A pass with a shuffle buffer and no sampling gives the rows once each, in
    an order that depends on the shuffles, in minibatches of the size asked
    for, provided that the buffers agree on whether they have values.  The
    weights are dropped when the buffers are filled, and every row gets the
    weight 1. *)
Theorem minibatches_shuffled mb_size shuf_buf (ns : F) fuel1 fuel2 calls :
  let _ := Reader_source imax rand random_shuffle fuel1 in
  0 < mb_size -> mb_size < shuf_buf -> (Z.of_nat shuf_buf + 1 < 2 ^ 32)%Z -> (ns <? fone)%F = false ->
  length rss + 2 <= fuel1 -> length (concat rss) + 2 <= fuel2 -> length (concat rss) < calls ->
  (forall bufs, buffers shuf_buf bufs -> values_uniform (concat bufs)) ->
  exists it bs rows outs, new_shuffled parser mb_size shuf_buf ns = Ok it /\
    batches imax rand random_shuffle fuel2 calls it = Ok (Some bs) /\
    Forall2 (shows 0 0) bs outs /\ rows ≡ₚ concat rss /\ Forall2 (reweighted [fone]) rows (concat outs) /\ sized mb_size outs.
Proof.
  intros src Hmb Hsh Hsm Hns Hf1 Hf2 Hc Hvu. unfold new_shuffled.
  rewrite check_true by (apply bool_decide_eq_true; lia). cbn [mbind outcome_bind].
  set (it := new_iter _ _ _ _). exists it.
  destruct (shuffled_source mb_size shuf_buf fuel1 Hsh Hsm Hf1) as (bufs & Hb & Hl & Hn & Hsame & Hrd).
  destruct (batches_spec (SourceLaws0 := Reader_laws imax rand random_shuffle shuffle_perm fuel1)
    imax rand random_shuffle shuffle_perm fuel2 calls it [] bufs) as (bs & ts & E & Hbs & Hdel & Hsz).
  - split; simpl; [lia|done].
  - by apply (new_pending (SourceLaws0 := Reader_laws imax rand random_shuffle shuffle_perm fuel1)).
  - simpl. unfold in_range in *. apply Forall_lookup. intros i r' Hr'.
    destruct (Forall2_lookup_r _ _ _ _ _ Hsame Hr') as (r & Hr & _ & _ & -> & _).
    by apply (Forall_lookup_1 _ _ _ _ rows_in_range Hr).
  - by apply Hvu.
  - lia.
  - simpl. lia.
  - simpl. lia.
  - apply deliver_perm in Hdel. apply Forall2_flip in Hsame.
    destruct (Permutation_Forall2 (P := flip (reweighted [])) Hdel Hsame) as (rows & Hp & Hrows).
    exists bs, rows, (map (fun t => finish (map with_weight t)) ts). split; [done|]. split; [done|].
    assert (pushed it = with_weight) as Ep.
    { unfold pushed. subst it. cbn [shuf_buf_ new_iter]. destruct (decide (shuf_buf = 0)); [lia|done]. }
    rewrite Ep in Hbs. split; [by apply Forall2_fmap_r|]. split; [done|]. split; [|by apply sized_map].
    apply Forall2_flip in Hrows. eapply Forall2_trans; [|exact Hrows|apply (finish_same_all with_weight)].
    + intros r1 r2 r3. apply reweighted_trans.
    + apply Forall_lookup. intros i r Hi. destruct (Forall2_lookup_r _ _ _ _ _ Hrows Hi) as (r0 & _ & _ & Hw & _).
      unfold with_weight. simpl. by rewrite Hw.
Qed.

End Passes.

(** ** Examples *)

(** A row with one feature. *)
Definition ex_row (l : Z) (ix : Z) (v : list QArith_base.Q) : arow (F := QArith_base.Q) := mkArow (q l) [] [ix] v.
Definition ex_block (n : nat) (ix : list Z) (v : list QArith_base.Q) : RowBlock QArith_base.Q :=
  mkBlock n (seq 0 (S n)) (BeginPtr (replicate n (q 1))) None (BeginPtr ix) (BeginPtr v).
Definition ex_parser : ParserImpl QArith_base.Q :=
  let bs := [ex_block 2 [4; 7]%Z [q 1; q 2]; ex_block 1 [5]%Z [q 1]] in mkParser bs bs.
Definition ex_rss : list (list (arow (F := QArith_base.Q))) :=
  [[ex_row 1 4 [q 1]; ex_row 1 7 [q 2]]; [ex_row 1 5 [q 1]]].

Lemma ex_parser_rows : Forall2 (shows 0 0) (p_left ex_parser) ex_rss.
Proof. repeat constructor. Qed.

Lemma minibatches_in_order_witness :
  exists bs outs, batches (HF := Qfloat) 4294967295 (fun _ => 0%Z) (fun _ l => l) 9 9 (new_MinibatchIter ex_parser 2 (q 1)) =
      Ok (Some bs) /\
    Forall2 (shows 0 0) bs outs /\ Forall2 (reweighted (HF := Qfloat) []) (concat ex_rss) (concat outs) /\ sized 2 outs.
Proof.
  apply (minibatches_in_order (HF := Qfloat) 4294967295 (fun _ => 0%Z) (fun _ l => l) (fun _ l => Permutation_refl l)
    ex_parser ex_rss ex_parser_rows); simpl; try lia.
  - repeat constructor; discriminate.
  - right. repeat constructor.
Defined.

Lemma ex_buffers bufs :
  buffers (HF := Qfloat) ex_rss 3 bufs -> values_uniform (concat bufs).
Proof.
  intros (ts & Hcut & ->). assert (ts = [concat ex_rss]) as ->.
  { inversion Hcut as [|rs ts' _ Hrest]; subst. f_equal. by inversion Hrest. }
  right. repeat constructor.
Qed.

Lemma minibatches_shuffled_witness :
  let rev_shuffle := fun (_ : nat) (l : list nat) => reverse l in
  let _ := Reader_source (HF := Qfloat) 4294967295 (fun _ => 0%Z) rev_shuffle 9 in
  exists it bs rows outs, new_shuffled (HF := Qfloat) ex_parser 2 3 (q 1) = Ok it /\
    batches (HF := Qfloat) 4294967295 (fun _ => 0%Z) rev_shuffle 9 9 it = Ok (Some bs) /\
    Forall2 (shows 0 0) bs outs /\ rows ≡ₚ concat ex_rss /\
    Forall2 (reweighted (HF := Qfloat) [q 1]) rows (concat outs) /\ sized 2 outs.
Proof.
  intros rs src.
  apply (minibatches_shuffled (HF := Qfloat) 4294967295 (fun _ => 0%Z) rs (fun _ l => reverse_Permutation l)
    ex_parser ex_rss ex_parser_rows); simpl; try lia; try done.
  - repeat constructor; discriminate.
  - right. repeat constructor.
  - apply ex_buffers.
Defined.

(** With a shuffle buffer, values of 1 can stop the program: the reader
    drops the values of a buffer whose values are all 1, and a minibatch that
    takes rows from such a buffer and from the next one has values for some of
    its features only, which [GetBlock] refuses. *)
Theorem mixed_buffers_abort :
  let bs := [ex_block 4 [1; 2; 3; 4]%Z [q 1; q 1; q 1; q 2]] in
  let run it := let _ := Reader_source (HF := Qfloat) 4294967295 (fun _ => 0%Z) (fun _ l => l) 9 in
    batches (HF := Qfloat) 4294967295 (fun _ => 0%Z) (fun _ l => l) 9 9 it in
  exists it, new_shuffled (HF := Qfloat) (mkParser bs bs) 2 3 (q 1) = Ok it /\ run it = Fail CheckFailed /\
    exists bs', batches (HF := Qfloat) 4294967295 (fun _ => 0%Z) (fun _ l => l) 9 9
      (new_MinibatchIter (mkParser bs bs) 2 (q 1)) = Ok (Some bs').
Proof. eexists. split; [reflexivity|]. split; [vm_compute; reflexivity|]. eexists. vm_compute. reflexivity. Qed.
