(* ===== verification/InputSplit.v ===== *)
(** * Reading files in parts

    Models src/dmlc-core/src/io/input_split_base.cc, input_split_base.h and
    line_split.cc: the bytes of a list of files are cut into as many parts as
    there are workers, at the beginnings of records, and the bytes of a part are
    read in chunks that end where a record ends.  What a record is is up to the
    interface [Splitter]; the lines of a text are one instance. *)
From S2P Require Import Prelude Stream.

(** [memcpy] of [b] to the position [at_] of a buffer. *)
Definition copy_to (buf : list byte) (at_ : nat) (b : list byte) : outcome (list byte) :=
  if decide (at_ + length b <= length buf) then Ok (list_inserts at_ b buf) else Fail OutOfRange.

(** [std::upper_bound]: the position of the first element above [k]. *)
Fixpoint upper_bound (l : list nat) (k : nat) : nat :=
  match l with
  | [] => 0
  | x :: l => if decide (k < x) then 0 else S (upper_bound l k)
  end.

(** The virtual methods of [InputSplitBase]: [SeekRecordBegin] on what is left
    of a stream, [FindLastRecordBegin] as an offset into its range. *)
Class Splitter := {
  SeekRecordBegin : list byte -> outcome nat;
  FindLastRecordBegin : list byte -> outcome nat
}.

(** [struct Chunk]: [data] as bytes, [begin] and [end] as offsets into it. *)
Record Chunk := mkChunk { c_begin : nat; c_end : nat; data : list byte }.

(** [class InputSplitBase]; a file is its content, [fs_pos] the position of the
    open stream in the file [file_ptr_]. *)
Record InputSplitBase := mkSplit {
  files_ : list (list byte); file_ptr_ : nat; fs_pos : nat; offset_curr_ : nat;
  offset_begin_ : nat; offset_end_ : nat; tmp_chunk_ : Chunk; buffer_size_ : nat;
  overflow_ : list byte }.

(** [InputSplit::Blob]: the memory from [dptr] on, and the size. *)
Record Blob := mkBlob { dptr : list byte; bsize : nat }.

Definition file_offset_ (files : list (list byte)) : list nat := psums 0 (map length files).

Definition set_chunk (c : Chunk) (s : InputSplitBase) : InputSplitBase :=
  mkSplit s.(files_) s.(file_ptr_) s.(fs_pos) s.(offset_curr_) s.(offset_begin_) s.(offset_end_) c
    s.(buffer_size_) s.(overflow_).
Definition set_overflow (o : list byte) (s : InputSplitBase) : InputSplitBase :=
  mkSplit s.(files_) s.(file_ptr_) s.(fs_pos) s.(offset_curr_) s.(offset_begin_) s.(offset_end_)
    s.(tmp_chunk_) s.(buffer_size_) o.
Definition set_cursor (fp pos curr : nat) (s : InputSplitBase) : InputSplitBase :=
  mkSplit s.(files_) fp pos curr s.(offset_begin_) s.(offset_end_) s.(tmp_chunk_) s.(buffer_size_)
    s.(overflow_).

(** [sizeof(size_t)] *)
Definition word_size : nat := 8.

Section Split.
Context `{Sp : Splitter}.

(** [kBufferSize], in words; how many of the [n] bytes asked for a stream at
    position [pos] of file [f] gives. *)
Context (kBufferSize : nat) (got : nat -> nat -> nat -> nat).

(** [InitInputFileInfo]: what is found under the paths, less the empty files. *)
Definition InitInputFileInfo (found : list (list byte)) : list (list byte) :=
  filter (fun f => length f <> 0) found.

Definition BeforeFirst (s : InputSplitBase) : outcome InputSplitBase :=
  if decide (s.(offset_end_) <= s.(offset_begin_)) then Ok s else
  let fp := upper_bound (file_offset_ s.(files_)) s.(offset_begin_) - 1 in
  o ← read_at (file_offset_ s.(files_)) fp;
  _ ← read_at s.(files_) fp;
  Ok (mkSplit s.(files_) fp (s.(offset_begin_) - o) s.(offset_begin_) s.(offset_begin_) s.(offset_end_)
        (mkChunk 0 0 s.(tmp_chunk_).(data)) s.(buffer_size_) []).

(** One of the two offsets moved to the beginning of a record, unless it is the
    beginning of a file. *)
Definition seek_offset (files : list (list byte)) (x : nat) : outcome nat :=
  let fp := upper_bound (file_offset_ files) x - 1 in
  o ← read_at (file_offset_ files) fp;
  if decide (x = o) then Ok x else
  _ ← check (bool_decide (o < x));
  f ← (match files !! fp with Some f => Ok f | None => Fail CheckFailed end);
  n ← SeekRecordBegin (drop (x - o) f);
  Ok (x + n).

(** [Init], with the constructor before it. *)
Definition Init (found : list (list byte)) (rank nsplit align_bytes : nat) : outcome InputSplitBase :=
  let files := InitInputFileInfo found in
  _ ← check (forallb (fun f => bool_decide (length f mod align_bytes = 0)) files);
  let ntotal := sum_list (map length files) in
  if decide (nsplit = 0) then Fail DivByZero else
  let nstep := (ntotal + nsplit - 1) / nsplit in
  let nstep := (nstep + align_bytes - 1) / align_bytes * align_bytes in
  let b := Nat.min (nstep * rank) ntotal in
  let e := Nat.min (nstep * (rank + 1)) ntotal in
  let mk b e := mkSplit files 0 0 b b e (mkChunk 0 0 (replicate (word_size * (kBufferSize + 1)) Byte.x00))
                  kBufferSize [] in
  if decide (b = e) then Ok (mk b e) else
  e ← seek_offset files e;
  b ← seek_offset files b;
  BeforeFirst (mk b e).

(** The loop of [Read]. *)
Fixpoint read_loop (fuel : nat) (s : InputSplitBase) (nleft : nat) (buf : list byte)
  : outcome (list byte * InputSplitBase) :=
  match fuel with
  | 0 => Fail OutOfFuel
  | S fuel =>
      f ← read_at s.(files_) s.(file_ptr_);
      let b := take (got s.(file_ptr_) s.(fs_pos) nleft) (drop s.(fs_pos) f) in
      let n := length b in
      let nleft := nleft - n in
      let buf := buf ++ b in
      let s := set_cursor s.(file_ptr_) (s.(fs_pos) + n) (s.(offset_curr_) + n) s in
      if decide (nleft = 0) then Ok (buf, s) else
      if decide (n = 0) then
        o ← read_at (file_offset_ s.(files_)) (s.(file_ptr_) + 1);
        _ ← check (bool_decide (s.(offset_curr_) = o));
        if decide (length s.(files_) <= s.(file_ptr_) + 1) then Ok (buf, s) else
        read_loop fuel (set_cursor (s.(file_ptr_) + 1) 0 s.(offset_curr_) s) nleft buf
      else read_loop fuel s nleft buf
  end.

Definition Read (s : InputSplitBase) (size : nat) : outcome (list byte * InputSplitBase) :=
  if decide (s.(offset_end_) <= s.(offset_begin_)) then Ok ([], s) else
  let size := if decide (s.(offset_end_) < s.(offset_curr_) + size)
              then s.(offset_end_) - s.(offset_curr_) else size in
  if decide (size = 0) then Ok ([], s) else
  read_loop (size + length s.(files_) + 1) s size [].

(** [ReadChunk(buf, &size)]: the result, the new size, the buffer. *)
Definition ReadChunk (s : InputSplitBase) (buf : list byte) (max_size : nat)
  : outcome (bool * nat * list byte * InputSplitBase) :=
  let olen := length s.(overflow_) in
  if decide (max_size <= olen) then Ok (true, 0, buf, s) else
  buf ← copy_to buf 0 s.(overflow_);
  '(b, s) ← Read (set_overflow [] s) (max_size - olen);
  buf ← copy_to buf olen b;
  let nread := length b + olen in
  if decide (nread = 0) then Ok (false, max_size, buf, s) else
  if decide (nread <> max_size) then Ok (true, nread, buf, s) else
  bend ← FindLastRecordBegin (take max_size buf);
  Ok (true, bend, buf, set_overflow (segment bend max_size buf) s).

(** The loop of [Chunk::Load], which doubles the buffer until a record fits. *)
Fixpoint load_loop (fuel : nat) (s : InputSplitBase) (c : Chunk) : outcome (bool * Chunk * InputSplitBase) :=
  match fuel with
  | 0 => Fail OutOfFuel
  | S fuel =>
      let size := length c.(data) - word_size in
      data ← copy_to c.(data) size (replicate word_size Byte.x00);
      '(r, size, data, s) ← ReadChunk s data size;
      if (r : bool) then
        if decide (size = 0) then
          load_loop fuel s (mkChunk c.(c_begin) c.(c_end) (resize (length data * 2) Byte.x00 data))
        else Ok (true, mkChunk 0 size data, s)
      else Ok (false, mkChunk c.(c_begin) c.(c_end) data, s)
  end.

Definition Load (s : InputSplitBase) (c : Chunk) (buffer_size : nat) : outcome (bool * Chunk * InputSplitBase) :=
  let len := word_size * (buffer_size + 1) in
  let c := if decide (length c.(data) < len) then mkChunk c.(c_begin) c.(c_end) (resize len Byte.x00 c.(data)) else c in
  load_loop (s.(offset_end_) - s.(offset_curr_) + length s.(overflow_) + 2) s c.

Definition ExtractNextChunk (c : Chunk) : option (Blob * Chunk) :=
  if decide (c.(c_begin) = c.(c_end)) then None else
  Some (mkBlob (drop c.(c_begin) c.(data)) (c.(c_end) - c.(c_begin)), mkChunk c.(c_end) c.(c_end) c.(data)).

(** The loop of [NextChunk] and of [NextRecord], over what they extract. *)
Fixpoint next_loop (extract : Chunk -> outcome (option (Blob * Chunk))) (fuel : nat) (s : InputSplitBase)
  : outcome (option Blob * InputSplitBase) :=
  match fuel with
  | 0 => Fail OutOfFuel
  | S fuel =>
      r ← extract s.(tmp_chunk_);
      match r with
      | Some (blob, c) => Ok (Some blob, set_chunk c s)
      | None =>
          '(r, c, s) ← Load s s.(tmp_chunk_) s.(buffer_size_);
          if (r : bool) then next_loop extract fuel (set_chunk c s) else Ok (None, set_chunk c s)
      end
  end.

Definition NextChunk (s : InputSplitBase) : outcome (option Blob * InputSplitBase) :=
  next_loop (fun c => Ok (ExtractNextChunk c)) 2 s.

Definition HintChunkSize (chunk_size : nat) (s : InputSplitBase) : InputSplitBase :=
  mkSplit s.(files_) s.(file_ptr_) s.(fs_pos) s.(offset_curr_) s.(offset_begin_) s.(offset_end_) s.(tmp_chunk_)
    (Nat.max (chunk_size / word_size) s.(buffer_size_)) s.(overflow_).

(** A reader of all the chunks; the bytes of each and what lies behind them in
    memory. *)
Fixpoint chunks (fuel : nat) (s : InputSplitBase) : outcome (list Blob) :=
  match fuel with
  | 0 => Fail OutOfFuel
  | S fuel =>
      '(r, s) ← NextChunk s;
      match r with
      | None => Ok []
      | Some b => bs ← chunks fuel s; Ok (b :: bs)
      end
  end.

Definition blob_bytes (b : Blob) : list byte := take b.(bsize) b.(dptr).

End Split.

(** ** Lines *)

Definition is_eol (c : byte) : bool := Byte.eqb c Byte.x0a || Byte.eqb c Byte.x0d.

(** The two loops of [LineSplitter::SeekRecordBegin], over what is left of the
    stream. *)
Fixpoint skip_eol (nstep : nat) (fi : list byte) : nat :=
  match fi with
  | [] => nstep
  | c :: fi => if is_eol c then skip_eol (nstep + 1) fi else nstep
  end.

Fixpoint seek_line (nstep : nat) (fi : list byte) : nat :=
  match fi with
  | [] => nstep
  | c :: fi => if is_eol c then skip_eol (nstep + 1) fi else seek_line (nstep + 1) fi
  end.

(** [LineSplitter::FindLastRecordBegin], from [p] down to the beginning. *)
Fixpoint find_last_eol (buf : list byte) (p : nat) : outcome nat :=
  match p with
  | 0 => Ok 0
  | S p' => c ← read_at buf p; if is_eol c then Ok (p + 1) else find_last_eol buf p'
  end.

#[export] Instance LineSplitter : Splitter := {|
  SeekRecordBegin fi := Ok (seek_line 0 fi);
  FindLastRecordBegin buf :=
    _ ← check (bool_decide (length buf <> 0));
    find_last_eol buf (length buf - 1)
|}.

(** [LineSplitter::ExtractNextRecord]: the loops find [p], from the beginning of
    the chunk. *)
Fixpoint find_line_end (p : nat) (l : list byte) : nat :=
  match l with
  | [] => p
  | c :: l => if is_eol c then skip_eol (p + 1) l else find_line_end (p + 1) l
  end.

Definition ExtractNextRecord (c : Chunk) : outcome (option (Blob * Chunk)) :=
  if decide (c.(c_begin) = c.(c_end)) then Ok None else
  let p := find_line_end c.(c_begin) (segment c.(c_begin) c.(c_end) c.(data)) in
  data ← copy_to c.(data) (if decide (p = c.(c_end)) then p else p - 1) [Byte.x00];
  Ok (Some (mkBlob (drop c.(c_begin) data) (p - c.(c_begin)), mkChunk p c.(c_end) data)).

Definition NextRecord (got : nat -> nat -> nat -> nat) (s : InputSplitBase) : outcome (option Blob * InputSplitBase) :=
  next_loop (Sp := LineSplitter) got ExtractNextRecord 2 s.

(** ** Reading gives the bytes of the part *)

(** What a kind of records promises: [whole l] says that the bytes [l] are whole
    records, [rec_end l] that they end where a record does, and [align] is what
    the places divide by where a file may be cut. *)
Class SplitterLaws `{Sp : Splitter} := {
  align : nat;
  align_pos : 0 < align;
  whole : list byte -> Prop;
  rec_end : list byte -> Prop;
  whole_nil : whole [];
  whole_app l1 l2 : whole l1 -> whole l2 -> whole (l1 ++ l2);
  whole_cancel l1 l2 : whole (l1 ++ l2) -> whole l1 -> whole l2;
  rec_end_app l1 l2 : rec_end l2 -> rec_end (l1 ++ l2);
  FindLast_ok l rest : length l <> 0 -> length l mod word_size = 0 -> whole (l ++ rest) ->
    exists n, FindLastRecordBegin l = Ok n /\ n <= length l /\ (n <> 0 -> rec_end (take n l) /\ whole (take n l));
  Seek_ok f k : whole f -> k <= length f -> k mod align = 0 ->
    exists n, SeekRecordBegin (drop k f) = Ok n /\ k + n <= length f /\
      (k + n = length f \/ rec_end (take (k + n) f)) /\ whole (take (k + n) f);
  Seek_mono f k k' n m : whole f -> k <= k' <= length f -> k mod align = 0 -> k' mod align = 0 ->
    SeekRecordBegin (drop k f) = Ok n -> SeekRecordBegin (drop k' f) = Ok m -> k + n <= k' + m
}.

(** The bytes of all files, of the part, and those not handed out yet. *)
Definition all_bytes (s : InputSplitBase) : list byte := concat s.(files_).
Definition part_bytes (s : InputSplitBase) : list byte :=
  segment s.(offset_begin_) s.(offset_end_) (all_bytes s).
Definition pending (s : InputSplitBase) : list byte :=
  if decide (s.(offset_begin_) < s.(offset_end_)) then segment s.(offset_curr_) s.(offset_end_) (all_bytes s) else [].
Definition to_come (s : InputSplitBase) : list byte := s.(overflow_) ++ pending s.

(** The open stream is where [offset_curr_] says. *)
Definition cursor_ok (s : InputSplitBase) : Prop :=
  exists f, s.(files_) !! s.(file_ptr_) = Some f /\ s.(fs_pos) <= length f /\
    s.(offset_curr_) = sum_list (map length (take s.(file_ptr_) s.(files_))) + s.(fs_pos).

Record base_ok (s : InputSplitBase) : Prop := {
  so_files : Forall (fun f => length f <> 0) s.(files_);
  so_size : 0 < s.(buffer_size_);
  so_end : s.(offset_end_) <= length (all_bytes s);
  so_curr : s.(offset_begin_) < s.(offset_end_) ->
            s.(offset_begin_) <= s.(offset_curr_) <= s.(offset_end_) /\ cursor_ok s;
  so_none : s.(offset_end_) <= s.(offset_begin_) -> s.(overflow_) = [];
  so_words : length s.(tmp_chunk_).(data) mod word_size = 0
}.

(** A splitter that has handed out all of its chunk. *)
Record split_ok (s : InputSplitBase) : Prop := {
  so_base :> base_ok s;
  so_idle : s.(tmp_chunk_).(c_begin) = s.(tmp_chunk_).(c_end)
}.

(** Two states of the reader of one part. *)
Definition same_part (s s' : InputSplitBase) : Prop :=
  s'.(files_) = s.(files_) /\ s'.(offset_begin_) = s.(offset_begin_) /\ s'.(offset_end_) = s.(offset_end_) /\
  s'.(buffer_size_) = s.(buffer_size_).

Lemma segment_piece (files : list (list byte)) i f pos n :
  files !! i = Some f -> pos + n <= length f ->
  let o := sum_list (map length (take i files)) in
  segment (o + pos) (o + pos + n) (concat files) = take n (drop pos f).
Proof.
  intros Hf Hn o. subst o. rewrite <- (take_drop_middle files i f Hf) at 3.
  rewrite concat_app. simpl. rewrite <- length_concat_sum. unfold segment.
  rewrite <- drop_drop, drop_app_length. rewrite drop_app_le by lia.
  rewrite take_app_le by (rewrite length_drop; lia). f_equal. lia.
Qed.

Lemma sum_take_S (files : list (list byte)) i f :
  files !! i = Some f ->
  sum_list (map length (take (S i) files)) = sum_list (map length (take i files)) + length f.
Proof.
  intros Hf. rewrite (take_S_r _ _ _ Hf), map_app, sum_list_app. simpl. lia.
Qed.

Lemma files_take_le (files : list (list byte)) i :
  sum_list (map length (take i files)) <= length (concat files).
Proof.
  rewrite length_concat_sum. rewrite <- (take_drop i files) at 2. rewrite map_app, sum_list_app. lia.
Qed.

Lemma file_offset_lookup files i : i <= length files ->
  file_offset_ files !! i = Some (sum_list (map length (take i files))).
Proof.
  intros Hi. unfold file_offset_. rewrite psums_lookup by by rewrite length_map. simpl.
  by rewrite <- firstn_map.
Qed.

Section Reading.
Context (got : nat -> nat -> nat -> nat).

(** A stream gives at least one byte, unless it is at its end, and no more than
    asked for. *)
Hypothesis got_ok : forall f pos n, 0 < n -> 0 < got f pos n <= n.

Lemma read_loop_ok fuel : forall s nleft buf,
  cursor_ok s -> 0 < nleft -> s.(offset_curr_) + nleft <= length (all_bytes s) ->
  nleft + (length s.(files_) - s.(file_ptr_)) <= fuel ->
  exists fp pos,
    let s' := set_cursor fp pos (s.(offset_curr_) + nleft) s in
    read_loop got fuel s nleft buf =
      Ok (buf ++ segment s.(offset_curr_) (s.(offset_curr_) + nleft) (all_bytes s), s') /\
    cursor_ok s'.
Proof.
  induction fuel as [|fuel IH]; intros s nleft buf (f & Hf & Hpos & Hc) Hn Ha Hfuel.
  { apply lookup_lt_Some in Hf. lia. }
  cbn [read_loop]. rewrite (proj2 (read_at_Ok _ _ _) Hf). cbn [mbind outcome_bind].
  set (b := take _ (drop (fs_pos s) f)).
  pose proof (got_ok (file_ptr_ s) (fs_pos s) nleft Hn) as Hg.
  assert (length b <= nleft) as Hb by (subst b; rewrite length_take; lia).
  assert (fs_pos s + length b <= length f) as Hbf by (subst b; rewrite length_take, length_drop; lia).
  assert (b = segment (offset_curr_ s) (offset_curr_ s + length b) (all_bytes s)) as Hseg.
  { unfold all_bytes. rewrite Hc, (segment_piece _ _ f) by done. subst b.
    rewrite length_take. by rewrite <- take_take, firstn_all. }
  destruct (decide (nleft - length b = 0)) as [Hz|Hz].
  { exists (file_ptr_ s), (fs_pos s + length b). replace nleft with (length b) by lia. simpl.
    rewrite <- Hseg. split; [done|]. exists f. simpl. split_and!; [done..|lia]. }
  destruct (decide (length b = 0)) as [Hb0|Hb0].
  - assert (fs_pos s = length f) as Hend.
    { subst b. rewrite length_take, length_drop in Hb0. lia. }
    destruct b; [|done]. cbn [length app] in *. cbn [files_ set_cursor file_ptr_ offset_curr_].
    pose proof (lookup_lt_Some _ _ _ Hf) as Hlt.
    rewrite (proj2 (read_at_Ok _ _ _) (file_offset_lookup (files_ s) (file_ptr_ s + 1) ltac:(lia))).
    cbn [mbind outcome_bind].
    rewrite check_true by (apply bool_decide_eq_true; rewrite Nat.add_1_r, (sum_take_S _ _ f Hf); lia).
    cbn [mbind outcome_bind]. case_decide as Hlast.
    { exfalso. unfold all_bytes in Ha. rewrite length_concat_sum in Ha.
      rewrite <- (firstn_all (files_ s)) in Ha. replace (length (files_ s)) with (S (file_ptr_ s)) in Ha by lia.
      rewrite (sum_take_S _ _ f Hf) in Ha. lia. }
    destruct (lookup_lt_is_Some_2 (files_ s) (file_ptr_ s + 1)) as [f' Hf']; [lia|].
    edestruct (IH (set_cursor (file_ptr_ s + 1) 0 (offset_curr_ s + 0)
                (set_cursor (file_ptr_ s) (fs_pos s + 0) (offset_curr_ s + 0) s)) (nleft - 0)
              (buf ++ [])) as (fp & pos & E & Hok); simpl; try lia.
    { exists f'. simpl. split_and!; [done|lia|]. rewrite Nat.add_1_r, (sum_take_S _ _ f Hf). lia. }
    { unfold all_bytes in *. simpl. lia. }
    exists fp, pos. rewrite E. unfold all_bytes, set_cursor in *. simpl in *.
    rewrite app_nil_r, !Nat.add_0_r, Nat.sub_0_r in *. done.
  - edestruct (IH (set_cursor (file_ptr_ s) (fs_pos s + length b) (offset_curr_ s + length b) s)
      (nleft - length b) (buf ++ b)) as (fp & pos & E & Hok); simpl; try lia.
    { exists f. simpl. split_and!; [done..|lia]. }
    { unfold all_bytes in *. simpl. lia. }
    exists fp, pos. rewrite E. unfold all_bytes, set_cursor in *. simpl in *.
    replace (offset_curr_ s + length b + (nleft - length b)) with (offset_curr_ s + nleft) in * by lia.
    split; [|done]. do 2 f_equal. rewrite <- app_assoc. f_equal. rewrite Hseg at 1.
    apply segment_app; lia.
Qed.

(** [Read] takes the next bytes of the part. *)
Lemma Read_ok s size : base_ok s -> s.(overflow_) = [] ->
  exists s', Read got s size = Ok (take size (pending s), s') /\ base_ok s' /\ s'.(overflow_) = [] /\
    same_part s s' /\ s'.(tmp_chunk_) = s.(tmp_chunk_) /\ pending s' = drop size (pending s) /\
    (s'.(offset_curr_) = s.(offset_curr_) + length (take size (pending s)) \/ pending s = []).
Proof.
  intros [Hfs Hsz He Hc Hno Hwd] Hov. unfold Read, pending. cbv zeta.
  destruct (decide (offset_end_ s <= offset_begin_ s)) as [Hle|Hlt].
  { exists s. rewrite decide_False by lia. rewrite take_nil, drop_nil. split_and!; try done. by right. }
  destruct (Hc ltac:(lia)) as [Hr Hcur].
  destruct (decide (offset_begin_ s < offset_end_ s)) as [_|]; [|lia].
  set (n := if decide _ then _ else size).
  set (all := all_bytes s) in *.
  assert (length (segment (offset_curr_ s) (offset_end_ s) all) = offset_end_ s - offset_curr_ s) as Hlen
    by (apply segment_length; lia).
  assert (take size (segment (offset_curr_ s) (offset_end_ s) all) =
          segment (offset_curr_ s) (offset_curr_ s + n) all) as Htk.
  { unfold segment. rewrite take_take. f_equal. subst n. case_decide; lia. }
  assert (n <= offset_end_ s - offset_curr_ s) as Hn by (subst n; case_decide; lia).
  assert (drop size (segment (offset_curr_ s) (offset_end_ s) all) =
          segment (offset_curr_ s + n) (offset_end_ s) all) as Hdr.
  { subst n. case_decide.
    - rewrite drop_ge by lia. unfold segment.
      replace (offset_end_ s - _) with 0 by lia. done.
    - unfold segment. rewrite skipn_firstn_comm, drop_drop. f_equal. lia. }
  assert (length (segment (offset_curr_ s) (offset_curr_ s + n) all) = n) as Hl2.
  { rewrite segment_length; lia. }
  rewrite Htk, Hdr. destruct (decide (n = 0)) as [->|Hn0].
  { exists s. rewrite Nat.add_0_r in *. unfold segment at 1. rewrite Nat.sub_diag.
    rewrite decide_True by lia. split_and!; try done. left. simpl in *. lia. }
  destruct (read_loop_ok (n + length (files_ s) + 1) s n [] Hcur) as (fp & pos & -> & Hcur');
    [lia|subst all; lia|lia|].
  eexists. split; [done|]. unfold all_bytes in *. simpl. rewrite decide_True by lia.
  split_and!; try done; [|left; fold all; lia].
  split; simpl; try done. intros _. split; [lia|done].
Qed.

Context `{SL : SplitterLaws}.

Lemma copy_to_ok buf at_ b : at_ + length b <= length buf -> copy_to buf at_ b = Ok (list_inserts at_ b buf).
Proof. intros. unfold copy_to. by rewrite decide_True. Qed.

(** Both copies into the buffer of a chunk. *)
Lemma take_two_inserts (o b buf : list byte) :
  length o + length b <= length buf ->
  take (length o + length b) (list_inserts (length o) b (list_inserts 0 o buf)) = o ++ b.
Proof.
  intros Hl. rewrite take_list_inserts by (rewrite length_inserts; lia). f_equal.
  apply (take_list_inserts 0 o). lia.
Qed.

Lemma set_overflow_ok s o :
  base_ok s -> (s.(offset_end_) <= s.(offset_begin_) -> o = []) -> base_ok (set_overflow o s).
Proof. intros [] Ho. split; done. Qed.

Lemma ReadChunk_ok s buf max_size :
  base_ok s -> whole (to_come s) -> 0 < max_size <= length buf -> max_size mod word_size = 0 ->
  exists r n buf' s', ReadChunk got s buf max_size = Ok (r, n, buf', s') /\ length buf' = length buf /\
    base_ok s' /\ same_part s s' /\ s'.(tmp_chunk_) = s.(tmp_chunk_) /\
    if r : bool then
      to_come s <> [] /\ to_come s = take n buf' ++ to_come s' /\ n <= max_size /\
      (n <> 0 -> (to_come s' = [] \/ rec_end (take n buf')) /\ whole (take n buf')) /\
      (n = 0 -> max_size <= length (to_come s))
    else to_come s = [] /\ to_come s' = [].
Proof.
  intros Hok Hw [Hm Hbuf] Hms. unfold to_come in Hw. unfold ReadChunk, to_come. case_decide as Hov.
  { exists true, 0, buf, s. rewrite length_app. split_and!; try done; [|lia..].
    destruct (overflow_ s); simpl in *; [lia|done]. }
  rewrite copy_to_ok by lia. cbn [mbind outcome_bind].
  destruct (Read_ok (set_overflow [] s) (max_size - length (overflow_ s)))
    as (s1 & -> & Hok1 & Ho1 & Hp1 & Hc1 & Hpd & Hcur); [by apply set_overflow_ok|done|].
  cbn [mbind outcome_bind]. change (pending (set_overflow [] s)) with (pending s) in *.
  set (b := take _ (pending s)) in *.
  assert (length (overflow_ s) + length b <= max_size) as Hlb by (subst b; rewrite length_take; lia).
  rewrite copy_to_ok by (rewrite length_inserts; lia). cbn [mbind outcome_bind].
  set (buf' := list_inserts _ b _).
  assert (length buf' = length buf) as Hlen by (subst buf'; by rewrite !length_inserts).
  assert (take (length (overflow_ s) + length b) buf' = overflow_ s ++ b) as Htk
    by (apply take_two_inserts; lia).
  assert (same_part s s1) as Hsame by exact Hp1.
  destruct (decide (length b + length (overflow_ s) = 0)) as [Hz|Hz].
  { exists false, max_size, buf', s1. rewrite Ho1, Hpd. destruct (overflow_ s); [|simpl in *; lia].
    assert (pending s = []) as ->.
    { subst b. rewrite length_take in Hz. simpl in *. destruct (pending s); [done|simpl in *; lia]. }
    rewrite drop_nil. split_and!; done. }
  assert (overflow_ s ++ pending s <> []) as Hne.
  { intros E. apply app_eq_nil in E as [E1 E2]. rewrite E1 in Hz. subst b. rewrite E2, take_nil in Hz. done. }
  destruct (decide (length b + length (overflow_ s) <> max_size)) as [Hshort|Hfull].
  - exists true, (length b + length (overflow_ s)), buf', s1. rewrite Ho1, Hpd.
    assert (drop (max_size - length (overflow_ s)) (pending s) = []) as ->.
    { apply drop_ge. subst b. rewrite length_take in Hshort. lia. }
    assert (b = pending s) as Hall.
    { subst b. apply take_ge. rewrite length_take in Hshort. lia. }
    rewrite (Nat.add_comm (length b)), Htk, app_nil_r. rewrite Hall in *. split_and!; try done; try lia. intros _. by split; [left|].
  - apply dec_stable in Hfull.
    destruct (FindLast_ok (take max_size buf') (drop (max_size - length (overflow_ s)) (pending s))) as (n & -> & Hn & Hrec).
    { rewrite length_take. lia. }
    { by rewrite length_take, Nat.min_l by lia. }
    { replace max_size with (length (overflow_ s) + length b) at 1 by lia. rewrite Htk. subst b.
      by rewrite <- app_assoc, take_drop. }
    rewrite length_take in Hn. cbn [mbind outcome_bind].
    exists true, n, buf', (set_overflow (segment n max_size buf') s1).
    rewrite take_take, Nat.min_l in Hrec by lia.
    replace (pending (set_overflow _ s1)) with (pending s1) by done. rewrite Hpd. simpl.
    assert (take n buf' ++ segment n max_size buf' = overflow_ s ++ b) as Hcat.
    { rewrite <- Htk. replace (length (overflow_ s) + length b) with max_size by lia.
      change (take n buf') with (take n (drop 0 buf')). rewrite <- (Nat.sub_0_r n) at 1.
      fold (segment 0 n buf'). rewrite segment_app by lia. unfold segment. by rewrite Nat.sub_0_r. }
    split_and!; try done.
    + apply set_overflow_ok; [done|]. destruct Hsame as (_ & E1 & E2 & _). rewrite E1, E2. intros Hle.
      exfalso. subst b. unfold pending in Hfull. rewrite decide_False, take_nil in Hfull by lia.
      destruct Hok as [_ _ _ _ Hno _]. rewrite Hno in Hfull by done. simpl in *. lia.
    + rewrite app_assoc, Hcat, <- app_assoc. f_equal. subst b. by rewrite take_drop.
    + lia.
    + intros Hn0. destruct (Hrec Hn0). by split; [right|].
    + intros ->. rewrite length_app. subst b. rewrite length_take in Hfull. lia.
Qed.

Lemma to_come_length s :
  base_ok s -> length (to_come s) <= s.(offset_end_) - s.(offset_curr_) + length s.(overflow_).
Proof.
  intros [_ _ He Hc _ _]. unfold to_come, pending. rewrite length_app. case_decide; simpl; [|lia].
  destruct (Hc ltac:(done)). rewrite segment_length by lia. lia.
Qed.

Lemma words_less n : n mod 8 = 0 -> (n - 8) mod 8 = 0.
Proof.
  intros Hn. pose proof (Nat.div_mod_eq n 8). pose proof (Nat.div_mod_eq (n - 8) 8).
  pose proof (Nat.mod_upper_bound (n - 8) 8 ltac:(lia)). lia.
Qed.

Lemma words_twice n : n mod 8 = 0 -> (n * 2) mod 8 = 0.
Proof.
  intros Hn. pose proof (Nat.div_mod_eq n 8). pose proof (Nat.div_mod_eq (n * 2) 8).
  pose proof (Nat.mod_upper_bound (n * 2) 8 ltac:(lia)). lia.
Qed.

(** The buffer is doubled until a record fits, which happens. *)
Lemma load_loop_ok fuel : forall s c,
  base_ok s -> whole (to_come s) -> 2 * word_size <= length c.(data) -> length c.(data) mod word_size = 0 -> 0 < fuel ->
  length (to_come s) + 2 <= fuel + (length c.(data) - word_size) ->
  exists r c' s', load_loop got fuel s c = Ok (r, c', s') /\ base_ok s' /\ same_part s s' /\
    length c'.(data) mod word_size = 0 /\
    if r : bool then
      c'.(c_begin) = 0 /\ 0 < c'.(c_end) < length c'.(data) /\
      to_come s = take c'.(c_end) c'.(data) ++ to_come s' /\ whole (take c'.(c_end) c'.(data)) /\
      (to_come s' = [] \/ rec_end (take c'.(c_end) c'.(data)))
    else to_come s = [] /\ to_come s' = [] /\ c'.(c_begin) = c.(c_begin) /\ c'.(c_end) = c.(c_end).
Proof.
  unfold word_size.
  induction fuel as [|fuel IH]; intros s c Hok Hw Hd Hmod Hf Hfuel; [lia|]. cbn [load_loop]. unfold word_size.
  rewrite copy_to_ok by (rewrite length_replicate; lia). cbn [mbind outcome_bind].
  set (d := list_inserts _ _ _).
  assert (length d = length (data c)) as Hld by (subst d; by rewrite length_inserts).
  destruct (ReadChunk_ok s d (length (data c) - 8) Hok Hw) as (r & n & d' & s1 & -> & Hl & Hok1 & Hs1 & Ht1 & Hr);
    [lia|by apply words_less|]. cbn [mbind outcome_bind].
  destruct r.
  - destruct Hr as (Hne & Heq & Hn & Hrec & Hzero). case_decide as Hn0.
    + subst n. specialize (Hzero eq_refl). rewrite take_0 in Heq. simpl in Heq.
      destruct (IH s1 (mkChunk (c_begin c) (c_end c) (resize (length d' * 2) Byte.x00 d'))) as (r & c' & s' & E & Hok' & Hs' & Hmod' & Hr);
        [done|by rewrite <- Heq|simpl; rewrite length_resize; lia|simpl; rewrite length_resize, Hl, Hld; by apply words_twice|lia|
         simpl; rewrite length_resize; rewrite <- Heq; lia|].
      exists r, c', s'. rewrite Heq. split_and!; try done.
      unfold same_part in *. destruct_and!. split_and!; congruence.
    + exists true, (mkChunk 0 n d'), s1. destruct (Hrec Hn0). cbn [c_begin c_end data]. rewrite Hl, Hld.
      split_and!; try done; lia.
  - exists false, (mkChunk (c_begin c) (c_end c) d'), s1. cbn [c_begin c_end data]. rewrite Hl, Hld. by destruct Hr.
Qed.

Lemma Load_ok s c size :
  base_ok s -> whole (to_come s) -> length c.(data) mod word_size = 0 -> 0 < size ->
  exists r c' s', Load got s c size = Ok (r, c', s') /\ base_ok s' /\ same_part s s' /\
    length c'.(data) mod word_size = 0 /\
    if r : bool then
      c'.(c_begin) = 0 /\ 0 < c'.(c_end) < length c'.(data) /\
      to_come s = take c'.(c_end) c'.(data) ++ to_come s' /\ whole (take c'.(c_end) c'.(data)) /\
      (to_come s' = [] \/ rec_end (take c'.(c_end) c'.(data)))
    else to_come s = [] /\ to_come s' = [] /\ c'.(c_begin) = c.(c_begin) /\ c'.(c_end) = c.(c_end).
Proof.
  intros Hok Hw Hmod Hb. unfold Load. cbv zeta. pose proof (to_come_length s Hok) as Hl.
  unfold word_size. case_decide.
  - destruct (load_loop_ok (offset_end_ s - offset_curr_ s + length (overflow_ s) + 2) s
      (mkChunk (c_begin c) (c_end c) (resize (8 * (size + 1)) Byte.x00 (data c))) Hok Hw)
      as (r & c' & s' & ?); unfold word_size; cbn [data]; rewrite ?length_resize;
      [lia|by rewrite (Nat.mul_comm 8), Nat.Div0.mod_mul|lia..|]. eauto.
  - destruct (load_loop_ok (offset_end_ s - offset_curr_ s + length (overflow_ s) + 2) s c Hok Hw)
      as (r & c' & s' & ?); unfold word_size; [lia|done|lia..|]. eauto.
Qed.

Lemma set_chunk_ok s c :
  base_ok s -> length c.(data) mod word_size = 0 -> base_ok (set_chunk c s).
Proof. intros [] Hm. split; done. Qed.

(** [NextChunk] gives the next bytes, up to the end of a record, while there are
    some. *)
Lemma NextChunk_ok s : split_ok s -> whole (to_come s) ->
  exists r s', NextChunk got s = Ok (r, s') /\ split_ok s' /\ same_part s s' /\
    match r with
    | None => to_come s = [] /\ to_come s' = []
    | Some b => 0 < b.(bsize) < length b.(dptr) /\ to_come s = blob_bytes b ++ to_come s' /\
        whole (blob_bytes b) /\ whole (to_come s') /\ (to_come s' = [] \/ rec_end (blob_bytes b))
    end.
Proof.
  intros Hok Hw. unfold NextChunk. cbn [next_loop mbind outcome_bind].
  unfold ExtractNextChunk at 1. rewrite decide_True by apply Hok.
  destruct (Load_ok s (tmp_chunk_ s) (buffer_size_ s) Hok Hw (so_words s Hok) (so_size s Hok)) as (r & c & s1 & -> & Hok1 & Hs1 & Hmod & Hr). cbn [mbind outcome_bind].
  destruct r.
  - destruct Hr as (Hb & He & Heq & Hwc & Hrec). cbn [tmp_chunk_ set_chunk].
    unfold ExtractNextChunk. rewrite decide_False by lia. cbn [mbind outcome_bind].
    eexists (Some _), _. split; [done|]. rewrite Hb, Nat.sub_0_r, drop_0. unfold blob_bytes. simpl.
    split_and!; try done; try lia; [split; [by apply (set_chunk_ok s1)|done]|]. rewrite Heq in Hw. exact (whole_cancel _ _ Hw Hwc).
  - destruct Hr as (H1 & H2 & H3 & H4). eexists None, _. split; [done|]. split_and!; try done.
    split; [by apply set_chunk_ok|]. simpl. rewrite H3, H4. apply Hok.
Qed.

End Reading.

(** ** The parts tile the files *)

Lemma upper_bound_psums s ls k : s <= k ->
  let i := upper_bound (psums s ls) k - 1 in
  (k < s + sum_list ls -> exists l, ls !! i = Some l /\ s + sum_list (take i ls) <= k < s + sum_list (take i ls) + l) /\
  (s + sum_list ls <= k -> i = length ls).
Proof.
  revert s. induction ls as [|l ls IH]; intros s Hs; cbv zeta; cbn [psums upper_bound].
  { rewrite decide_False by lia. simpl. split; [lia|done]. }
  rewrite decide_False by lia. destruct (decide (k < s + l)) as [Hk|Hk].
  - assert (upper_bound (psums (s + l) ls) k = 0) as ->.
    { destruct ls; cbn [psums upper_bound]; by rewrite decide_True by lia. }
    cbn. split; [intros _; exists l; split; [done|lia]|lia].
  - destruct (IH (s + l)) as [H1 H2]; [lia|]. cbv zeta in *.
    assert (exists u, upper_bound (psums (s + l) ls) k = S u) as [u Hu].
    { destruct ls; cbn [psums upper_bound]; rewrite decide_False by lia; eauto. }
    rewrite Hu in *. replace (S (S u) - 1) with (S (S u - 1)) by lia. cbn [sum_list take lookup list_lookup].
    split.
    + intros Hlt. destruct H1 as (x & Hx & Hr); [cbn in Hlt; lia|]. exists x. split; [done|]. simpl in *. lia.
    + intros Hge. cbn [length]. f_equal. apply H2. cbn in Hge. lia.
Qed.

Lemma file_of_offset files x :
  let fp := upper_bound (file_offset_ files) x - 1 in
  let o := sum_list (map length (take fp files)) in
  x <= length (concat files) ->
  file_offset_ files !! fp = Some o /\
  (x < length (concat files) -> exists f, files !! fp = Some f /\ o <= x < o + length f) /\
  (x = length (concat files) -> fp = length files /\ o = x).
Proof.
  cbv zeta. intros Hx. destruct (upper_bound_psums 0 (map length files) x) as [H1 H2]; [lia|].
  cbv zeta in *. fold (file_offset_ files) in *. set (fp := upper_bound _ x - 1) in *.
  rewrite length_concat_sum in *. rewrite firstn_map in H1.
  assert (fp <= length files) as Hfp.
  { destruct (decide (x < sum_list (map length files))) as [Hlt|].
    - destruct (H1 Hlt) as (l & Hl & _). apply lookup_lt_Some in Hl. rewrite length_map in Hl. lia.
    - rewrite H2 by lia. by rewrite length_map. }
  split; [by apply file_offset_lookup|]. split.
  - intros Hlt. destruct (H1 Hlt) as (l & Hl & Hr). rewrite list_lookup_fmap in Hl.
    destruct (files !! fp) as [f|] eqn:Hf; [|done]. simplify_eq/=. eauto.
  - intros E. rewrite H2 by lia. rewrite length_map, firstn_all. done.
Qed.

Lemma upper_bound_mono l k k' : k <= k' -> upper_bound l k <= upper_bound l k'.
Proof. intros Hk. induction l as [|x l IH]; simpl; [lia|]. repeat case_decide; lia. Qed.

Lemma firstn_sum_mono (files : list (list byte)) i j : i <= j ->
  sum_list (map length (take i files)) <= sum_list (map length (take j files)).
Proof.
  intros Hij. rewrite <- (take_drop i (take j files)), take_take, Nat.min_l by done.
  rewrite map_app, sum_list_app. lia.
Qed.

Section Tiling.
Context `{SL : SplitterLaws}.

(** Files of whole records. *)
Definition files_ok (files : list (list byte)) : Prop := Forall (fun f => whole f /\ length f mod align = 0) files.

Lemma mod_add_0 a b n : a mod n = 0 -> b mod n = 0 -> (a + b) mod n = 0.
Proof. intros Ha Hb. rewrite Nat.Div0.add_mod, Ha, Hb. apply Nat.Div0.mod_0_l. Qed.

Lemma mod_sub_0 a b n : b <= a -> a mod n = 0 -> b mod n = 0 -> (a - b) mod n = 0.
Proof.
  intros Hle Ha Hb. assert (((a - b) + b) mod n = (a - b) mod n) as <-.
  { by rewrite Nat.Div0.add_mod, Hb, Nat.add_0_r, Nat.Div0.mod_mod. }
  by rewrite Nat.sub_add.
Qed.

Lemma files_ok_sum files i : files_ok files -> sum_list (map length (take i files)) mod align = 0.
Proof.
  intros Hf. apply (Forall_take _ i) in Hf. induction Hf as [|f fs [_ Hf] Hfs IH]; simpl; [apply Nat.Div0.mod_0_l|].
  by apply mod_add_0.
Qed.

Lemma files_ok_whole files : files_ok files -> whole (concat files).
Proof. induction 1 as [|f fs [Hf _] Hfs IH]; simpl; [apply whole_nil|by apply whole_app]. Qed.

Lemma take_within (files : list (list byte)) i f k : files !! i = Some f -> k <= length f ->
  take (sum_list (map length (take i files)) + k) (concat files) = concat (take i files) ++ take k f.
Proof.
  intros Hf Hk. rewrite <- (take_drop_middle files i f Hf) at 2. rewrite concat_app, <- length_concat_sum. simpl.
  by rewrite take_app_add, take_app_le.
Qed.

(** A place where a part may begin or end. *)
Definition at_record (files : list (list byte)) (y : nat) : Prop :=
  (y = length (concat files) \/ (exists i, y = sum_list (map length (take i files))) \/
   rec_end (take y (concat files))) /\ whole (take y (concat files)).

Lemma file_start_whole files i : files_ok files -> whole (take (sum_list (map length (take i files))) (concat files)).
Proof.
  intros Hok. rewrite <- (take_drop i files) at 2. rewrite concat_app, <- length_concat_sum, take_app_length.
  apply files_ok_whole. by apply Forall_take.
Qed.

Lemma seek_offset_ok files x : files_ok files -> x <= length (concat files) -> x mod align = 0 ->
  exists y, seek_offset files x = Ok y /\ x <= y <= length (concat files) /\ at_record files y.
Proof.
  intros Hok Hx Hal. pose proof (file_of_offset files x) as Hf. cbv zeta in Hf. specialize (Hf Hx).
  unfold seek_offset. set (fp := upper_bound _ x - 1) in *. destruct Hf as (Ho & Hlt & Heq).
  rewrite (proj2 (read_at_Ok _ _ _) Ho). cbn [mbind outcome_bind].
  case_decide as Hxo.
  { exists x. split_and!; [done|lia|done|]. split; [right; left; by exists fp|]. rewrite Hxo. by apply file_start_whole. }
  destruct (decide (x = length (concat files))) as [E|E]; [destruct (Heq E); congruence|].
  destruct Hlt as (f & Hf & Hr); [lia|]. rewrite check_true by (apply bool_decide_eq_true; lia).
  cbn [mbind outcome_bind]. rewrite Hf. cbn [mbind outcome_bind].
  pose proof (files_ok_sum files fp Hok) as Hos. set (o := sum_list _) in *.
  pose proof (proj1 (Forall_lookup _ _) Hok fp f Hf) as [Hwf _].
  destruct (Seek_ok f (x - o) Hwf) as (n & -> & Hn & Hrec & Hwt); [lia|by apply mod_sub_0; [lia|..]|].
  cbn [mbind outcome_bind]. exists (x + n).
  pose proof (sum_take_S files fp f Hf) as HS. fold o in HS. pose proof (files_take_le files (S fp)).
  assert (take (x + n) (concat files) = concat (take fp files) ++ take (x - o + n) f) as Etk.
  { rewrite <- (take_within files fp f (x - o + n) Hf) by lia. fold o. f_equal. lia. }
  split_and!; [done|lia..|]. split.
  - destruct Hrec as [Hl|Hrec].
    + right; left. exists (S fp). lia.
    + right; right. rewrite Etk. by apply rec_end_app.
  - rewrite Etk. apply whole_app; [|done]. apply files_ok_whole. by apply Forall_take.
Qed.

Lemma seek_offset_mono files x x' y y' :
  files_ok files -> x <= x' -> x' <= length (concat files) -> x mod align = 0 -> x' mod align = 0 ->
  seek_offset files x = Ok y -> seek_offset files x' = Ok y' -> y <= y'.
Proof.
  intros Hok Hxx Hx' Hal Hal' Hy Hy'.
  destruct (seek_offset_ok files x') as (y2 & E & Hy2 & _); [done..|]. rewrite Hy' in E. simplify_eq.
  pose proof (file_of_offset files x) as Hf. cbv zeta in Hf. specialize (Hf ltac:(lia)).
  pose proof (file_of_offset files x') as Hf'. cbv zeta in Hf'. specialize (Hf' ltac:(lia)).
  unfold seek_offset in Hy, Hy'. set (fp := upper_bound _ x - 1) in *. set (fp' := upper_bound _ x' - 1) in *.
  destruct Hf as (Ho & Hlt & Heq). destruct Hf' as (Ho' & Hlt' & Heq').
  rewrite (proj2 (read_at_Ok _ _ _) Ho) in Hy. rewrite (proj2 (read_at_Ok _ _ _) Ho') in Hy'.
  cbn [mbind outcome_bind] in *.
  destruct (decide (x = sum_list (map length (take fp files)))) as [Hxo|Hxo]; [simplify_eq; lia|].
  destruct (decide (x = length (concat files))) as [E|E]; [destruct (Heq E); congruence|].
  destruct Hlt as (f & Hf & Hr); [lia|]. rewrite check_true in Hy by (apply bool_decide_eq_true; lia).
  cbn [mbind outcome_bind] in Hy. rewrite Hf in Hy. cbn [mbind outcome_bind] in Hy.
  pose proof (files_ok_sum files fp Hok) as Hos. set (o := sum_list (map length (take fp files))) in *.
  pose proof (proj1 (Forall_lookup _ _) Hok fp f Hf) as [Hwf _].
  assert ((x - o) mod align = 0) as Hxa by (apply mod_sub_0; [lia|done..]).
  destruct (Seek_ok f (x - o) Hwf ltac:(lia) Hxa) as (n & Hs & Hn & _). rewrite Hs in Hy. simplify_eq/=.
  pose proof (sum_take_S files fp f Hf) as HS. fold o in HS.
  assert (fp <= fp') as Hfp by (subst fp fp'; pose proof (upper_bound_mono (file_offset_ files) x x' Hxx); lia).
  destruct (decide (x' = length (concat files))) as [E'|E'].
  { pose proof (files_take_le files (S fp)). lia. }
  destruct Hlt' as (f' & Hf' & Hr'); [lia|].
  destruct (decide (fp' = fp)) as [Efp|Nfp].
  2: { pose proof (firstn_sum_mono files (S fp) fp' ltac:(lia)). lia. }
  rewrite Efp in *. fold o in Hy', Hr'. rewrite Hf in Hf'. injection Hf' as <-. rewrite decide_False in Hy' by lia.
  rewrite check_true in Hy' by (apply bool_decide_eq_true; lia). cbn [mbind outcome_bind] in Hy'.
  rewrite Hf in Hy'. cbn [mbind outcome_bind] in Hy'.
  assert ((x' - o) mod align = 0) as Hxa' by (apply mod_sub_0; [lia|done..]).
  destruct (Seek_ok f (x' - o) Hwf ltac:(lia) Hxa') as (m & Hs' & Hm & _). rewrite Hs' in Hy'. injection Hy' as <-.
  pose proof (Seek_mono f (x - o) (x' - o) n m Hwf ltac:(lia) Hxa Hxa' Hs Hs'). lia.
Qed.

(** [BeforeFirst] starts the part again. *)
Lemma BeforeFirst_ok s :
  Forall (fun f => length f <> 0) s.(files_) -> 0 < s.(buffer_size_) ->
  s.(offset_end_) <= length (all_bytes s) ->
  length s.(tmp_chunk_).(data) mod word_size = 0 ->
  (s.(offset_end_) <= s.(offset_begin_) ->
   s.(overflow_) = [] /\ s.(tmp_chunk_).(c_begin) = s.(tmp_chunk_).(c_end)) ->
  exists s', BeforeFirst s = Ok s' /\ split_ok s' /\ same_part s s' /\ to_come s' = part_bytes s.
Proof.
  intros Hfs Hsz He Hmod Hno. unfold BeforeFirst. case_decide as Hle.
  { exists s. destruct (Hno Hle) as [Ho Hi]. split_and!; try done; [split; [split; auto with lia|done]|].
    unfold to_come, pending, part_bytes, segment. rewrite Ho, decide_False by lia.
    replace (_ - _) with 0 by lia. done. }
  pose proof (file_of_offset (files_ s) (offset_begin_ s)) as Hf. cbv zeta in *. unfold all_bytes in *.
  specialize (Hf ltac:(lia)). set (fp := upper_bound _ _ - 1) in *. destruct Hf as (Ho & Hlt & _).
  destruct Hlt as (f & Hf & Hr); [lia|].
  rewrite (proj2 (read_at_Ok _ _ _) Ho), (proj2 (read_at_Ok _ _ _) Hf). cbn [mbind outcome_bind].
  eexists. split; [done|]. split_and!; try done.
  - split; [|done]. split; simpl; try done. intros _. split; [lia|]. exists f. simpl. split_and!; [done|lia..].
  - unfold to_come, pending, part_bytes, all_bytes. simpl. by rewrite decide_True by lia.
Qed.

(** The offsets of the parts, before and after they are moved to records. *)
Definition part_step (ntotal nsplit align_bytes : nat) : nat :=
  ((ntotal + nsplit - 1) / nsplit + align_bytes - 1) / align_bytes * align_bytes.
Definition raw_edge (files : list (list byte)) (nsplit align_bytes r : nat) : nat :=
  Nat.min (part_step (length (concat files)) nsplit align_bytes * r) (length (concat files)).
Definition edge (files : list (list byte)) (nsplit align_bytes r : nat) : nat :=
  match seek_offset files (raw_edge files nsplit align_bytes r) with Ok y => y | Fail _ => 0 end.

(** The parts are cut at multiples of what records divide by. *)
Context (al : nat) (Hal : al mod align = 0).

Lemma raw_edge_align files nsplit r : files_ok files -> raw_edge files nsplit al r mod align = 0.
Proof using Hal.
  intros Hok. unfold raw_edge.
  destruct (Nat.min_spec (part_step (length (concat files)) nsplit al * r) (length (concat files))) as [[_ ->]|[_ ->]].
  - unfold part_step. set (x := _ / al). replace (x * al * r) with (x * r * al) by lia.
    by rewrite Nat.Div0.mul_mod, Hal, Nat.mul_0_r, Nat.Div0.mod_0_l.
  - rewrite length_concat_sum, <- (firstn_all files). by apply files_ok_sum.
Qed.

Lemma edge_ok files nsplit r : files_ok files ->
  seek_offset files (raw_edge files nsplit al r) = Ok (edge files nsplit al r) /\
  edge files nsplit al r <= length (concat files) /\ at_record files (edge files nsplit al r).
Proof using Hal.
  intros Hok. unfold edge. destruct (seek_offset_ok files (raw_edge files nsplit al r)) as (y & E & Hy & Hr);
    [done|unfold raw_edge; lia|by apply raw_edge_align|]. rewrite E. split_and!; [done|lia|done].
Qed.

Lemma edge_mono files nsplit r : files_ok files -> edge files nsplit al r <= edge files nsplit al (r + 1).
Proof using Hal.
  intros Hok. destruct (edge_ok files nsplit r Hok) as (E1 & _), (edge_ok files nsplit (r + 1) Hok) as (E2 & _).
  eapply seek_offset_mono; [done| | | | |exact E1|exact E2]; [unfold raw_edge; nia..|by apply raw_edge_align|by apply raw_edge_align].
Qed.

Lemma edge_first files nsplit : edge files nsplit al 0 = 0.
Proof using.
  clear Hal SL.
  unfold edge, raw_edge. rewrite Nat.mul_0_r. simpl. unfold seek_offset.
  pose proof (file_of_offset files 0) as Hf. cbv zeta in Hf. specialize (Hf ltac:(lia)).
  destruct Hf as (Ho & Hlt & Heq). rewrite (proj2 (read_at_Ok _ _ _) Ho). cbn [mbind outcome_bind].
  rewrite decide_True; [done|].
  destruct (decide (0 = length (concat files))) as [E|E]; [by destruct (Heq E)|].
  destruct Hlt as (f & _ & ?); lia.
Qed.

Lemma edge_last files nsplit : files_ok files -> 0 < nsplit -> 0 < al -> edge files nsplit al nsplit = length (concat files).
Proof using Hal.
  intros Hok Hn Ha. destruct (edge_ok files nsplit nsplit Hok) as (E & Hle & _).
  assert (raw_edge files nsplit al nsplit = length (concat files)) as Hraw.
  { unfold raw_edge, part_step. set (t := length _) in *.
    pose proof (Nat.div_mod (t + nsplit - 1) nsplit ltac:(lia)).
    pose proof (Nat.mod_upper_bound (t + nsplit - 1) nsplit ltac:(lia)).
    set (q := (t + nsplit - 1) / nsplit) in *.
    pose proof (Nat.div_mod (q + al - 1) al ltac:(lia)).
    pose proof (Nat.mod_upper_bound (q + al - 1) al ltac:(lia)).
    set (p := (q + al - 1) / al) in *. assert (q <= p * al) by nia.
    assert (t <= q * nsplit) by nia. nia. }
  destruct (seek_offset_ok files (length (concat files))) as (y & E2 & Hy & _);
    [done|lia|rewrite <- Hraw; by apply raw_edge_align|].
  rewrite Hraw in E. rewrite E in E2. simplify_eq. lia.
Qed.

Context (kBufferSize : nat) (got : nat -> nat -> nat -> nat).
Hypothesis (Hbuf : 0 < kBufferSize) (got_ok : forall f pos n, 0 < n -> 0 < got f pos n <= n).

Lemma Init_ok found rank nsplit :
  0 < nsplit -> let files := InitInputFileInfo found in
  Forall (fun f => length f mod al = 0) files -> files_ok files ->
  exists s, Init kBufferSize found rank nsplit al = Ok s /\ split_ok s /\ s.(files_) = files /\
    part_bytes s = to_come s /\
    to_come s = segment (edge files nsplit al rank) (edge files nsplit al (rank + 1)) (concat files).
Proof using Hal Hbuf.
  intros Hn files Hfal Hok. unfold Init. fold files.
  assert (Forall (fun f : list byte => length f <> 0) files) as Hfs.
  { apply Forall_forall. intros f Hf. by apply list_elem_of_filter in Hf as []. }
  rewrite check_true. 2: { apply forallb_forall. intros f Hf. apply bool_decide_eq_true.
    rewrite Forall_forall in Hfal. apply Hfal. by apply list_elem_of_In. }
  cbn [mbind outcome_bind]. rewrite decide_False by lia. rewrite <- length_concat_sum.
  fold (part_step (length (concat files)) nsplit al).
  fold (raw_edge files nsplit al rank). fold (raw_edge files nsplit al (rank + 1)).
  destruct (edge_ok files nsplit rank Hok) as (E1 & H1 & _), (edge_ok files nsplit (rank + 1) Hok) as (E2 & H2 & _).
  assert (forall n, length (replicate (word_size * (n + 1)) Byte.x00) mod word_size = 0) as Hmod.
  { intros n. by rewrite length_replicate, Nat.mul_comm, Nat.Div0.mod_mul. }
  case_decide as Heq.
  - eexists. split; [done|]. rewrite <- Heq in E2. rewrite E1 in E2. injection E2 as <-.
    unfold part_bytes, to_come, pending, segment.
    cbn [files_ tmp_chunk_ c_begin c_end data buffer_size_ offset_begin_ offset_end_ offset_curr_ overflow_].
    rewrite decide_False, Heq, !Nat.sub_diag by lia.
    split_and!; try done. split; [|done]. split; cbn [files_ tmp_chunk_ c_begin c_end data buffer_size_ offset_begin_ offset_end_ offset_curr_ overflow_]; try done;
      [unfold all_bytes; cbn [files_]; unfold raw_edge; lia|lia].
  - rewrite E2. cbn [mbind outcome_bind]. rewrite E1. cbn [mbind outcome_bind].
    match goal with |- context [BeforeFirst ?s0] => destruct (BeforeFirst_ok s0) as (s & -> & Hsok & Hs & Htc) end;
      cbn [files_ tmp_chunk_ c_begin c_end data buffer_size_ offset_begin_ offset_end_ offset_curr_ overflow_]; try done; try lia.
    exists s. destruct Hs as (Hs1 & Hs2 & Hs3 & _). split_and!; try done.
    unfold part_bytes, all_bytes in *. rewrite Htc, Hs1, Hs2, Hs3. done.
Qed.

(** Reading a part to its end: every byte once, in order, in chunks that end
    with a record. *)
Lemma chunks_ok fuel : forall s, split_ok s -> whole (to_come s) -> length (to_come s) < fuel ->
  exists bs, chunks got fuel s = Ok bs /\ concat (map blob_bytes bs) = to_come s /\
    Forall (fun b => 0 < b.(bsize) < length b.(dptr)) bs /\ Forall (fun b => whole (blob_bytes b)) bs /\
    (forall i b, bs !! i = Some b -> S i < length bs -> rec_end (blob_bytes b)).
Proof using got_ok.
  clear Hal Hbuf kBufferSize al.
  induction fuel as [|fuel IH]; intros s Hok Hw Hf; [lia|]. cbn [chunks].
  destruct (NextChunk_ok got got_ok s Hok Hw) as (r & s1 & -> & Hok1 & _ & Hr). cbn [mbind outcome_bind].
  destruct r as [b|]; [|destruct Hr as [-> _]; exists []; by repeat split].
  destruct Hr as (Hb & Heq & Hwb & Hw1 & Hend). assert (length (blob_bytes b) = bsize b) as Hlb.
  { unfold blob_bytes. rewrite length_take. lia. }
  destruct (IH s1 Hok1 Hw1) as (bs & -> & Hc & Hbs & Hbw & Hrec).
  { rewrite Heq, length_app in Hf. lia. }
  cbn [mbind outcome_bind]. exists (b :: bs). simpl. rewrite Hc. split_and!; [done..|by constructor|by constructor|].
  intros [|i] b' Hb' Hi; simplify_eq/=.
  - destruct Hend as [He|]; [|done]. rewrite He in Hc. destruct bs as [|b2 bs]; [simpl in *; lia|].
    inversion Hbs as [|? ? Hb2]; subst. simpl in Hc. apply app_eq_nil in Hc as [Hc _].
    apply (f_equal length) in Hc. unfold blob_bytes in Hc. rewrite length_take in Hc. simpl in Hc. lia.
  - apply (Hrec i); [done|lia].
Qed.

(** One worker reads its part. *)
Definition read_part (found : list (list byte)) (rank nsplit align_bytes : nat) : outcome (list Blob) :=
  s ← Init kBufferSize found rank nsplit align_bytes;
  chunks got (S (sum_list (map length found))) s.

End Tiling.

(** ** Lines are records *)

Definition ends_eol (l : list byte) : Prop := exists l' c, l = l' ++ [c] /\ is_eol c = true.

Lemma ends_eol_app l1 l2 : ends_eol l2 -> ends_eol (l1 ++ l2).
Proof. intros (l & c & -> & Hc). exists (l1 ++ l), c. by rewrite app_assoc. Qed.

Lemma ends_eol_suffix l1 l2 : l2 <> [] -> ends_eol (l1 ++ l2) -> ends_eol l2.
Proof.
  intros Hn (l & c & E & Hc). destruct l2 as [|x l2 _] using rev_ind; [done|].
  rewrite app_assoc in E. apply app_inj_tail in E as [_ ->]. by exists l2, c.
Qed.

Lemma skip_eol_shift n l : skip_eol n l = n + skip_eol 0 l.
Proof.
  revert n. induction l as [|c l IH]; intros n; simpl; [lia|]. destruct (is_eol c); [|lia].
  rewrite (IH (n + 1)), (IH 1). lia.
Qed.

Lemma seek_line_shift n l : seek_line n l = n + seek_line 0 l.
Proof.
  revert n. induction l as [|c l IH]; intros n; simpl; [lia|]. destruct (is_eol c).
  - rewrite (skip_eol_shift (n + 1)), (skip_eol_shift 1). lia.
  - rewrite (IH (n + 1)), (IH 1). lia.
Qed.

Lemma seek_line_cons c l :
  seek_line 0 (c :: l) = S (if is_eol c then skip_eol 0 l else seek_line 0 l).
Proof. simpl. destruct (is_eol c); [by rewrite skip_eol_shift|by rewrite seek_line_shift]. Qed.

Lemma skip_eol_cons c l : skip_eol 0 (c :: l) = if is_eol c then S (skip_eol 0 l) else 0.
Proof. simpl. destruct (is_eol c); [by rewrite skip_eol_shift|done]. Qed.

Lemma skip_eol_ok l c : is_eol c = true ->
  skip_eol 0 l <= length l /\ ends_eol (c :: take (skip_eol 0 l) l).
Proof.
  revert c. induction l as [|d l IH]; intros c Hc; [split; [done|by exists [], c]|].
  rewrite skip_eol_cons. destruct (is_eol d) eqn:Hd; [|split; [simpl; lia|by exists [], c]].
  destruct (IH d Hd) as [H1 H2]. split; [simpl; lia|]. cbn [take]. by apply (ends_eol_app [c]).
Qed.

Lemma seek_line_ok l :
  seek_line 0 l <= length l /\ (seek_line 0 l = length l \/ ends_eol (take (seek_line 0 l) l)).
Proof.
  induction l as [|c l IH]; [split; [done|by left]|]. rewrite seek_line_cons. destruct (is_eol c) eqn:Hc.
  - destruct (skip_eol_ok l c Hc). split; [simpl; lia|by right].
  - destruct IH as [H1 H2]. split; [simpl; lia|]. cbn [take length].
    destruct H2 as [->|H2]; [by left|right]. by apply (ends_eol_app [c]).
Qed.

Lemma skip_eol_le l k : skip_eol 0 l <= k + seek_line 0 (drop k l).
Proof.
  revert k. induction l as [|c l IH]; intros [|k]; simpl drop; try (simpl; lia).
  - rewrite skip_eol_cons, seek_line_cons. destruct (is_eol c); lia.
  - rewrite skip_eol_cons. destruct (is_eol c); [|lia]. specialize (IH k). lia.
Qed.

Lemma seek_line_mono l k : k <= length l -> seek_line 0 l <= k + seek_line 0 (drop k l).
Proof.
  revert k. induction l as [|c l IH]; intros [|k] Hk; simpl drop; try (simpl; lia).
  rewrite seek_line_cons. destruct (is_eol c).
  - pose proof (skip_eol_le l k). lia.
  - simpl in Hk. specialize (IH k ltac:(lia)). lia.
Qed.

Lemma find_last_eol_ok buf p : p < length buf ->
  exists n, find_last_eol buf p = Ok n /\ n <= length buf /\ (n <> 0 -> ends_eol (take n buf)).
Proof.
  induction p as [|p IH]; intros Hp; cbn [find_last_eol]; [exists 0; split_and!; [done|lia|done]|].
  destruct (lookup_lt_is_Some_2 buf (S p)) as [c Hc]; [done|].
  rewrite (proj2 (read_at_Ok _ _ _) Hc). cbn [mbind outcome_bind]. destruct (is_eol c) eqn:E.
  - exists (S p + 1). split_and!; [done|lia|]. intros _. rewrite Nat.add_1_r, (take_S_r _ _ _ Hc). by eexists _, c.
  - apply IH. lia.
Qed.

#[export, program] Instance LineSplitter_laws : SplitterLaws (Sp := LineSplitter) := {|
  align := 1; whole _ := True; rec_end := ends_eol |}.
Next Obligation. lia. Qed.
Next Obligation. done. Qed.
Next Obligation. done. Qed.
Next Obligation. done. Qed.
Next Obligation. intros. by apply ends_eol_app. Qed.
Next Obligation.
  intros l _ Hl _ _. cbn -[find_last_eol]. rewrite check_true by (by apply bool_decide_eq_true). cbn -[find_last_eol].
  destruct (find_last_eol_ok l (length l - 1)) as (n & E & Hn & He); [lia|]. exists n. split_and!; try done. intros Hn0. split; [by apply He|done].
Qed.
Next Obligation.
  intros f k _ Hk _. exists (seek_line 0 (drop k f)). split; [done|]. destruct (seek_line_ok (drop k f)) as [H1 H2].
  rewrite length_drop in *. split_and!; [lia| |done]. destruct H2 as [H2|H2]; [left; lia|right].
  rewrite <- (take_take_drop f k). by apply ends_eol_app.
Qed.
Next Obligation.
  intros f k k' n m _ Hk _ _ E1 E2. simpl in *. simplify_eq.
  pose proof (seek_line_mono (drop k f) (k' - k)) as H. rewrite drop_drop, length_drop in H.
  replace (k + (k' - k)) with k' in H by lia. specialize (H ltac:(lia)). lia.
Qed.

Lemma line_files files : files_ok (SL := LineSplitter_laws) files.
Proof. apply Forall_forall. intros f _. split; [done|apply Nat.mod_1_r]. Qed.

Lemma line_whole l : whole (SplitterLaws := LineSplitter_laws) l.
Proof. exact I. Qed.

Lemma line_align : 1 mod align (SplitterLaws := LineSplitter_laws) = 0.
Proof. apply Nat.mod_1_r. Qed.

(** The lines of a text: its longest runs without an end of line, the empty ones
    left out. *)
Fixpoint lines_from (cur : list byte) (l : list byte) : list (list byte) :=
  match l with
  | [] => match cur with [] => [] | _ => [cur] end
  | c :: l =>
      if is_eol c then match cur with [] => lines_from [] l | _ => cur :: lines_from [] l end
      else lines_from (cur ++ [c]) l
  end.
Definition lines (l : list byte) : list (list byte) := lines_from [] l.

Lemma lines_from_eol cur l1 c l2 : is_eol c = true ->
  lines_from cur (l1 ++ c :: l2) = lines_from cur (l1 ++ [c]) ++ lines l2.
Proof.
  intros Hc. revert cur. induction l1 as [|d l1 IH]; intros cur; simpl.
  - rewrite Hc. by destruct cur.
  - destruct (is_eol d); [|apply IH]. destruct cur; [apply IH|]. simpl. f_equal. apply IH.
Qed.

Lemma lines_app l1 l2 : ends_eol l1 -> lines (l1 ++ l2) = lines l1 ++ lines l2.
Proof.
  intros (l & c & -> & Hc). rewrite <- app_assoc. simpl. by apply lines_from_eol.
Qed.

Lemma lines_concat (bs : list (list byte)) :
  (forall i b, bs !! i = Some b -> S i < length bs -> ends_eol b) ->
  concat (map lines bs) = lines (concat bs).
Proof.
  induction bs as [|b bs IH]; intros Hb; [done|]. simpl. rewrite IH.
  2: { intros i b' Hb' Hi. apply (Hb (S i)); [done|simpl; lia]. }
  destruct bs as [|b2 bs]; [simpl; by rewrite !app_nil_r|].
  symmetry. apply lines_app. apply (Hb 0); [done|simpl; lia].
Qed.

(** The text ends with an end of line before every place where a part begins. *)
Definition files_end_lines (files : list (list byte)) : Prop :=
  forall i f, files !! i = Some f -> S i < length files -> ends_eol f.

Lemma at_record_lines files y : Forall (fun f => length f <> 0) files ->
  files_end_lines files -> at_record files y ->
  y = 0 \/ length (concat files) <= y \/ ends_eol (take y (concat files)).
Proof.
  intros Hne Hf [[->|[(i & ->)|]] _]; [by right; left| |by right; right].
  destruct (decide (length files <= i)) as [Hi|Hi].
  { right; left. rewrite firstn_all2 by done. by rewrite length_concat_sum. }
  destruct i as [|i]; [by left|right; right].
  destruct (lookup_lt_is_Some_2 files i) as [f Hfi]; [lia|].
  rewrite <- length_concat_sum. rewrite <- (take_drop (S i) files) at 2. rewrite concat_app, take_app_length.
  rewrite (take_S_r _ _ _ Hfi), concat_app. simpl. rewrite app_nil_r. apply ends_eol_app.
  apply (Hf i); [done|lia].
Qed.

Lemma length_filter_concat (found : list (list byte)) :
  concat (InitInputFileInfo found) = concat found.
Proof.
  induction found as [|f found IH]; [done|]. unfold InitInputFileInfo in *. rewrite filter_cons.
  case_decide as Hf; simpl; [by rewrite IH|]. destruct f; [done|simpl in *; lia].
Qed.

Lemma parts_lines files nsplit r :
  Forall (fun f => length f <> 0) files -> files_end_lines files ->
  lines (take (edge files nsplit 1 (r + 1)) (concat files)) =
  lines (take (edge files nsplit 1 r) (concat files)) ++
  lines (segment (edge files nsplit 1 r) (edge files nsplit 1 (r + 1)) (concat files)).
Proof.
  intros Hne Hf. pose proof (line_files files) as Hok. destruct (edge_ok 1 line_align files nsplit r Hok) as (_ & H1 & Hr).
  destruct (edge_ok 1 line_align files nsplit (r + 1) Hok) as (_ & H2 & _). pose proof (edge_mono 1 line_align files nsplit r Hok) as Hm.
  assert (take (edge files nsplit 1 (r + 1)) (concat files) =
    take (edge files nsplit 1 r) (concat files) ++
    segment (edge files nsplit 1 r) (edge files nsplit 1 (r + 1)) (concat files)) as ->.
  { unfold segment. rewrite take_take_drop. f_equal. lia. }
  destruct (at_record_lines _ _ Hne Hf Hr) as [->|[Hl|He]]; [done| |by apply lines_app].
  unfold segment. replace (edge files nsplit 1 (r + 1) - edge files nsplit 1 r) with 0 by lia.
  rewrite take_0. by rewrite !app_nil_r.
Qed.

Section Lines.
Context (kBufferSize : nat) (got : nat -> nat -> nat -> nat).
Hypothesis (Hbuf : 0 < kBufferSize) (got_ok : forall f pos n, 0 < n -> 0 < got f pos n <= n).

(** What one worker reads. *)
Lemma read_part_lines found rank nsplit : 0 < nsplit ->
  let files := InitInputFileInfo found in
  exists bs, read_part kBufferSize got found rank nsplit 1 = Ok bs /\
    Forall (fun b => 0 < b.(bsize) < length b.(dptr)) bs /\
    concat (map blob_bytes bs) = segment (edge files nsplit 1 rank) (edge files nsplit 1 (rank + 1)) (concat files) /\
    concat (map (fun b => lines (blob_bytes b)) bs) = lines (concat (map blob_bytes bs)).
Proof.
  intros Hn files. destruct (Init_ok 1 line_align kBufferSize Hbuf found rank nsplit Hn) as (s & E & Hok & Hfs & Hpb & Htc).
  { apply Forall_forall. intros. apply Nat.mod_1_r. }
  { apply line_files. }
  fold files in Hfs, Htc. unfold read_part. rewrite E. cbn [mbind outcome_bind].
  destruct (chunks_ok got got_ok (S (sum_list (map length found))) s Hok (line_whole _)) as (bs & -> & Hc & Hb & _ & Hr).
  { rewrite Htc, <- length_concat_sum, <- (length_filter_concat found). fold files. unfold segment.
    rewrite length_take, length_drop. lia. }
  exists bs. rewrite <- (map_map blob_bytes lines), lines_concat, Hc, Htc; [by split_and!|].
  intros i b Hi Hlt. rewrite length_map in Hlt. rewrite list_lookup_fmap in Hi.
  destruct (bs !! i) as [b'|] eqn:Eb; [|done]. simplify_eq/=. by apply (Hr i).
Qed.

Lemma read_parts found nsplit m : 0 < nsplit -> m <= nsplit ->
  let files := InitInputFileInfo found in
  exists parts,
    Forall2 (fun rank bs => read_part kBufferSize got found rank nsplit 1 = Ok bs) (seq 0 m) parts /\
    Forall (fun b => 0 < b.(bsize) < length b.(dptr)) (concat parts) /\
    concat (map blob_bytes (concat parts)) = take (edge files nsplit 1 m) (concat files) /\
    (files_end_lines files ->
     concat (map (fun b => lines (blob_bytes b)) (concat parts)) = lines (take (edge files nsplit 1 m) (concat files))).
Proof.
  intros Hn Hm files. induction m as [|m IH].
  { exists []. rewrite edge_first. simpl. split_and!; constructor. }
  destruct IH as (parts & Hp & Hb & Hc & Hl); [lia|].
  destruct (read_part_lines found m nsplit Hn) as (bs & E & Hb2 & Hc2 & Hl2). fold files in Hc2.
  exists (parts ++ [bs]). rewrite seq_S, concat_app, !map_app, !concat_app. simpl. rewrite app_nil_r.
  rewrite <- (Nat.add_1_r m). pose proof (edge_mono 1 line_align files nsplit m (line_files files)). split_and!.
  - apply Forall2_app; [done|]. by constructor.
  - by apply Forall_app.
  - rewrite Hc, Hc2. unfold segment. rewrite take_take_drop. f_equal. lia.
  - intros Hf. rewrite Hl, Hl2, Hc2 by done. symmetry. apply parts_lines; [|done].
    apply Forall_forall. intros f Hin. by apply list_elem_of_filter in Hin as [].
Qed.

(** C23: [LineSplitter]: however many workers share the files, whatever the size
    of the buffer and however few bytes the streams give at a time, every worker
    reads its part without failing, in chunks that are followed by at least one
    byte of memory, and the chunks of all the parts put together are the bytes of
    the files: nothing is read twice or left out.  When every file but the last
    ends with an end of line, no line is cut: the lines found in the chunks are
    the lines of the files. *)
Theorem parts_cover_lines found nsplit : 0 < nsplit ->
  exists parts,
    Forall2 (fun rank bs => read_part kBufferSize got found rank nsplit 1 = Ok bs) (seq 0 nsplit) parts /\
    Forall (fun b => 0 < b.(bsize) < length b.(dptr)) (concat parts) /\
    concat (map blob_bytes (concat parts)) = concat found /\
    (files_end_lines (InitInputFileInfo found) ->
     concat (map (fun b => lines (blob_bytes b)) (concat parts)) = lines (concat found)).
Proof.
  intros Hn. destruct (read_parts found nsplit nsplit Hn (le_n _)) as (parts & Hp & Hb & Hc & Hl).
  rewrite (edge_last 1 line_align), firstn_all, length_filter_concat in Hc, Hl by (apply line_files || lia). by exists parts.
Qed.

End Lines.

(** The worker's view of a second pass: [BeforeFirst] at any time gives the
    chunks of the part again. *)
Lemma second_pass kBufferSize got fuel s :
  0 < kBufferSize -> (forall f pos n, 0 < n -> 0 < got f pos n <= n) ->
  split_ok s -> s.(offset_end_) - s.(offset_begin_) < fuel ->
  exists s' bs, BeforeFirst s = Ok s' /\ chunks got fuel s' = Ok bs /\
    concat (map blob_bytes bs) = part_bytes s.
Proof.
  intros Hb Hg Hok Hf. destruct (BeforeFirst_ok s) as (s' & E & Hok' & _ & Htc); try apply Hok.
  { intros. split; [by apply Hok|apply Hok]. }
  destruct (chunks_ok got Hg fuel s' Hok' (line_whole _)) as (bs & Ec & Hc & _).
  { rewrite Htc. unfold part_bytes, segment. rewrite length_take. lia. }
  exists s', bs. by rewrite Hc.
Qed.

Lemma skip_eol_run p l :
  exists e l2, l = e ++ l2 /\ skip_eol p l = p + length e /\ Forall (fun c => is_eol c = true) e /\
    match l2 with [] => True | c :: _ => is_eol c = false end.
Proof.
  revert p. induction l as [|c l IH]; intros p; simpl.
  { exists [], []. simpl. split_and!; try done; lia. }
  destruct (is_eol c) eqn:Hc.
  - destruct (IH (p + 1)) as (e & l2 & -> & -> & He & Hl2). exists (c :: e), l2.
    split_and!; try done; [simpl; lia|by constructor].
  - exists [], (c :: l). simpl. split_and!; try done; lia.
Qed.

Lemma find_line_end_ok p l :
  exists l1 e l2, l = l1 ++ e ++ l2 /\ find_line_end p l = p + length (l1 ++ e) /\
    Forall (fun c => is_eol c = false) l1 /\ Forall (fun c => is_eol c = true) e /\
    match l2 with [] => True | c :: _ => is_eol c = false /\ e <> [] end.
Proof.
  revert p. induction l as [|c l IH]; intros p.
  { exists [], [], []. simpl. split_and!; try done; lia. }
  simpl. destruct (is_eol c) eqn:Hc.
  - destruct (skip_eol_run (p + 1) l) as (e & l2 & -> & -> & He & Hl2). exists [], (c :: e), l2.
    split_and!; try done; [simpl; lia|by constructor|by destruct l2].
  - destruct (IH (p + 1)) as (l1 & e & l2 & -> & -> & H1 & He & Hl2).
    exists (c :: l1), e, l2. split_and!; try done; [simpl; lia|by constructor].
Qed.

Lemma insert_last {A} (x : A) e : 0 < length e -> <[length e - 1 := x]> e = take (length e - 1) e ++ [x].
Proof.
  intros He. destruct e as [|y e _] using rev_ind; [simpl in He; lia|]. rewrite length_app. simpl.
  replace (length e + 1 - 1) with (length e + 0) by lia. rewrite insert_app_r, Nat.add_0_r, take_app_length. done.
Qed.

(** [ExtractNextRecord] takes one line with the ends of line behind it, the last
    of which it overwrites with a zero byte; the rest of the chunk stays. *)
Lemma ExtractNextRecord_ok c : c.(c_begin) < c.(c_end) -> c.(c_end) < length c.(data) ->
  exists b c' l e,
    ExtractNextRecord c = Ok (Some (b, c')) /\ c'.(c_end) = c.(c_end) /\ c.(c_begin) <= c'.(c_begin) <= c.(c_end) /\
    segment c.(c_begin) c'.(c_begin) c.(data) = l ++ e /\
    Forall (fun x => is_eol x = false) l /\ Forall (fun x => is_eol x = true) e /\
    blob_bytes b = (if decide (c'.(c_begin) = c.(c_end)) then l ++ e else l ++ take (length e - 1) e ++ [Byte.x00]) /\
    segment c'.(c_begin) c.(c_end) c'.(data) = segment c'.(c_begin) c.(c_end) c.(data).
Proof.
  intros Hbe Hed. unfold ExtractNextRecord. rewrite decide_False by lia.
  set (b := c_begin c) in *. set (n := c_end c) in *. set (d := data c) in *.
  destruct (find_line_end_ok b (segment b n d)) as (l & e & l2 & El & -> & Hl & He & Hl2).
  assert (length (l ++ e ++ l2) = n - b) as Hlen by (rewrite <- El, segment_length; lia).
  rewrite !length_app in Hlen. set (p := b + length (l ++ e)) in *.
  assert (p <= n) as Hpn by (subst p; rewrite length_app; lia).
  assert (segment b p d = l ++ e) as Hseg.
  { transitivity (take (length (l ++ e)) (segment b n d)).
    - unfold segment. rewrite take_take. f_equal. subst p. lia.
    - by rewrite El, app_assoc, take_app_length. }
  assert (p <> n -> 0 < length e) as Hlen2.
  { intros Hp. destruct l2; [exfalso; subst p; rewrite length_app in *; simpl in *; lia|].
    destruct Hl2 as [_ Hne]. destruct e; [done|simpl; lia]. }
  rewrite copy_to_ok by (simpl; case_decide; lia). cbn [mbind outcome_bind].
  eexists _, _, l, e. split; [done|]. cbn [c_end c_begin data]. unfold blob_bytes. cbn [bsize dptr].
  fold (segment b p (list_inserts (if decide (p = n) then p else p - 1) [Byte.x00] d)). simpl list_inserts.
  split_and!; try done; [subst p; lia| |].
  - case_decide as Hp; [by rewrite segment_insert_out by lia|].
    assert (0 < length e) as Hne by (apply Hlen2; lia).
    rewrite segment_insert_in, Hseg by (subst p; rewrite length_app; lia).
    replace (p - 1 - b) with (length l + (length e - 1)) by (subst p; rewrite length_app; lia).
    rewrite insert_app_r. f_equal. by apply insert_last.
  - apply segment_insert_out. case_decide; [lia|]. assert (0 < length e) by (apply Hlen2; lia).
    subst p. rewrite length_app. lia.
Qed.

(** ** On a small text *)

Definition txt (s : list nat) : list byte := map (fun n => byte.of_Z (Z.of_nat n)) s.

(** Two files, three workers, a buffer of one word, streams that give at most
    three bytes at a time. *)
Definition ex_files : list (list byte) := [txt [49;50;10;51;52;53;54;13;10;55;10]; []; txt [56;57;48;49;50;51;52;53;54;55;56;57;10;49]].
Definition ex_got (f pos n : nat) : nat := Nat.min n 3.

Lemma parts_cover_lines_witness :
  0 < 1 /\ 0 < 3 /\ files_end_lines (InitInputFileInfo ex_files) /\
  exists parts,
    Forall2 (fun rank bs => read_part 1 ex_got ex_files rank 3 1 = Ok bs) (seq 0 3) parts /\
    Forall (fun b => 0 < b.(bsize) < length b.(dptr)) (concat parts) /\
    concat (map blob_bytes (concat parts)) = concat ex_files /\
    (files_end_lines (InitInputFileInfo ex_files) ->
     concat (map (fun b => lines (blob_bytes b)) (concat parts)) = lines (concat ex_files)).
Proof.
  split_and!; [lia|lia| |].
  - intros [|[|i]] f Hf Hi; simpl in *; [|lia..]. injection Hf as <-. eexists (txt [49;50;10;51;52;53;54;13;10;55]), Byte.x0a.
    split; reflexivity.
  - apply (parts_cover_lines 1 ex_got ltac:(lia)); [|lia]. unfold ex_got. lia.
Defined.

(** When a file does not end with an end of line, what its last line is depends
    on the number of workers: one worker reads it as one line with the first line
    of the next file, two workers may not. *)
Example line_across_files :
  let files := [txt [49;50;51]; txt [52;53;10]] in
  (exists bs, read_part 1 ex_got files 0 1 1 = Ok bs /\
     concat (map (fun b => lines (blob_bytes b)) bs) = [txt [49;50;51;52;53]]) /\
  (exists b1 b2, read_part 1 ex_got files 0 2 1 = Ok [b1] /\ read_part 1 ex_got files 1 2 1 = Ok [b2] /\
     lines (blob_bytes b1) = [txt [49;50;51]] /\ lines (blob_bytes b2) = [txt [52;53]]).
Proof.
  split.
  - eexists. split; vm_compute; reflexivity.
  - eexists _, _. split_and!; vm_compute; reflexivity.
Qed.

(** Memory behind a chunk holds what an earlier chunk left there: here a digit
    follows the last line, which has no end of line. *)
Example stale_byte_behind_chunk :
  exists b1 b2, read_part 1 ex_got [txt [49;50;51;52;53;54;55;10;56]] 0 1 1 = Ok [b1; b2] /\
    blob_bytes b2 = txt [56] /\ b2.(dptr) !! 1 = Some Byte.x32.
Proof. eexists _, _. split_and!; vm_compute; reflexivity. Qed.
