(* ===== verification/SingleFile.v ===== *)
(** * Reading standard input

    Models [SingleFileSplit] of src/dmlc-core/src/io/single_file_split.h, which reads
    the lines of one [FILE], such as the standard input: the loops of the splitter of
    [InputSplit] without parts.  [fread] gives all bytes that it is asked for, or
    those that are left. *)
From S2P Require Import Prelude Stream InputSplit.
Module SingleFile.

(** The members; the file is its content with a position, the chunk the bytes of
    [buffer_] from [chunk_begin_] to [chunk_end_]. *)
Record SingleFileSplit := mkSingle {
  content : list byte; fpos : nat; overflow_ : list byte; buffer_ : list byte; buffer_size_ : nat; chunk_begin_ : nat; chunk_end_ : nat }.

Definition new_SingleFileSplit (kBufferSize : nat) (f : list byte) : SingleFileSplit :=
  mkSingle f 0 [] (replicate kBufferSize Byte.x00) kBufferSize 0 0.

Definition BeforeFirst (s : SingleFileSplit) : SingleFileSplit :=
  mkSingle s.(content) 0 s.(overflow_) s.(buffer_) s.(buffer_size_) s.(chunk_begin_) s.(chunk_end_).
Definition HintChunkSize (chunk_size : nat) (s : SingleFileSplit) : SingleFileSplit :=
  mkSingle s.(content) s.(fpos) s.(overflow_) s.(buffer_) (Nat.max chunk_size s.(buffer_size_)) s.(chunk_begin_) s.(chunk_end_).

(** [Read(ptr, size)]: [fread] *)
Definition Read (size : nat) (s : SingleFileSplit) : list byte * SingleFileSplit :=
  let b := take size (drop s.(fpos) s.(content)) in
  (b, mkSingle s.(content) (s.(fpos) + length b) s.(overflow_) s.(buffer_) s.(buffer_size_) s.(chunk_begin_) s.(chunk_end_)).

Definition set_buffer (b : list byte) (s : SingleFileSplit) : SingleFileSplit :=
  mkSingle s.(content) s.(fpos) s.(overflow_) b s.(buffer_size_) s.(chunk_begin_) s.(chunk_end_).
Definition set_overflow (o : list byte) (s : SingleFileSplit) : SingleFileSplit :=
  mkSingle s.(content) s.(fpos) o s.(buffer_) s.(buffer_size_) s.(chunk_begin_) s.(chunk_end_).
Definition set_chunk (b e : nat) (s : SingleFileSplit) : SingleFileSplit :=
  mkSingle s.(content) s.(fpos) s.(overflow_) s.(buffer_) s.(buffer_size_) b e.

(** [FindLastRecordBegin(begin, end)] *)
Definition FindLast (buf : list byte) : outcome nat := if decide (length buf = 0) then Ok 0 else find_last_eol buf (length buf - 1).

(** [ReadChunk(buf, &size)] into [buffer_]: the result and the new size. *)
Definition ReadChunk (max_size : nat) (s : SingleFileSplit) : outcome (bool * nat * SingleFileSplit) :=
  let olen := length s.(overflow_) in
  if decide (max_size <= olen) then Ok (true, 0, s) else
  buf ← copy_to s.(buffer_) 0 s.(overflow_);
  let '(b, s) := Read (max_size - olen) (set_overflow [] s) in
  buf ← copy_to buf olen b;
  let s := set_buffer buf s in
  let nread := length b + olen in
  if decide (nread = 0) then Ok (false, max_size, s) else
  if decide (nread <> max_size) then Ok (true, nread, s) else
  bend ← FindLast (take max_size buf);
  Ok (true, bend, set_overflow (segment bend max_size buf) s).

(** The loop of [LoadChunk]. *)
Fixpoint load_chunk (fuel : nat) (s : SingleFileSplit) : outcome (bool * SingleFileSplit) :=
  match fuel with
  | 0 => Fail OutOfFuel
  | S fuel =>
      '(r, size, s) ← ReadChunk (length s.(buffer_)) s;
      if (r : bool) then
        if decide (size = 0) then load_chunk fuel (set_buffer (resize (length s.(buffer_) * 2) Byte.x00 s.(buffer_)) s)
        else Ok (true, set_chunk 0 size s)
      else Ok (false, s)
  end.
Definition LoadChunk (s : SingleFileSplit) : outcome (bool * SingleFileSplit) :=
  let s := if decide (length s.(buffer_) < s.(buffer_size_)) then set_buffer (resize s.(buffer_size_) Byte.x00 s.(buffer_)) s else s in
  load_chunk (length s.(content) + length s.(overflow_) + 2) s.

(** [NextRecord(out_rec)] and [NextChunk(out_chunk)]: the bytes. *)
Definition next_with (take_from : SingleFileSplit -> list byte * SingleFileSplit) (s : SingleFileSplit) : outcome (option (list byte) * SingleFileSplit) :=
  if decide (s.(chunk_begin_) = s.(chunk_end_)) then
    '(r, s) ← LoadChunk s;
    if (r : bool) then let '(b, s) := take_from s in Ok (Some b, s) else Ok (None, s)
  else let '(b, s) := take_from s in Ok (Some b, s).

Definition take_record (s : SingleFileSplit) : list byte * SingleFileSplit :=
  let next := find_line_end s.(chunk_begin_) (segment s.(chunk_begin_) s.(chunk_end_) s.(buffer_)) in
  (segment s.(chunk_begin_) next s.(buffer_), set_chunk next s.(chunk_end_) s).
Definition take_chunk (s : SingleFileSplit) : list byte * SingleFileSplit :=
  (segment s.(chunk_begin_) s.(chunk_end_) s.(buffer_), set_chunk s.(chunk_end_) s.(chunk_end_) s).
Definition NextRecord := next_with take_record.
Definition NextChunk := next_with take_chunk.

(** A reader of all records or chunks. *)
Fixpoint read_all (next : SingleFileSplit -> outcome (option (list byte) * SingleFileSplit)) (fuel : nat) (s : SingleFileSplit) : outcome (list (list byte)) :=
  match fuel with
  | 0 => Fail OutOfFuel
  | S fuel =>
      '(r, s) ← next s;
      match r with None => Ok [] | Some b => bs ← read_all next fuel s; Ok (b :: bs) end
  end.

(** ** Every byte once *)

(** What is not in the chunk yet, and all that is still to come. *)
Definition to_come (s : SingleFileSplit) : list byte := s.(overflow_) ++ drop s.(fpos) s.(content).
Definition in_chunk (s : SingleFileSplit) : list byte := segment s.(chunk_begin_) s.(chunk_end_) s.(buffer_).
Definition rest_of (s : SingleFileSplit) : list byte := in_chunk s ++ to_come s.

Record single_ok (s : SingleFileSplit) : Prop := {
  sg_buffer : 0 < length s.(buffer_);
  sg_size : 0 < s.(buffer_size_);
  sg_chunk : s.(chunk_begin_) <= s.(chunk_end_) <= length s.(buffer_)
}.

Lemma single_FindLast_ok buf : exists n, FindLast buf = Ok n /\ n <= length buf /\ (n <> 0 -> ends_eol (take n buf)).
Proof.
  unfold FindLast. case_decide; [exists 0; split_and!; [done|lia|done]|]. apply find_last_eol_ok. lia.
Qed.

Lemma single_ReadChunk_ok s : let max_size := length s.(buffer_) in 0 < max_size -> exists r n s', ReadChunk max_size s = Ok (r, n, s') /\
  length s'.(buffer_) = max_size /\ s'.(buffer_size_) = s.(buffer_size_) /\ s'.(content) = s.(content) /\
  s'.(chunk_begin_) = s.(chunk_begin_) /\ s'.(chunk_end_) = s.(chunk_end_) /\
  if r : bool then to_come s = take n s'.(buffer_) ++ to_come s' /\ n <= max_size /\ (n <> 0 -> to_come s' = [] \/ ends_eol (take n s'.(buffer_))) /\
    (n = 0 -> max_size <= length (to_come s))
  else to_come s = [] /\ to_come s' = [].
Proof.
  intros max_size Hm. unfold ReadChunk, to_come. case_decide as Hov.
  { exists true, 0, s. rewrite take_0. split_and!; try done; rewrite ?length_app; lia. }
  rewrite copy_to_ok by (unfold max_size in *; lia). cbn [mbind outcome_bind]. unfold Read. cbn [set_overflow content fpos overflow_ buffer_ buffer_size_ chunk_begin_ chunk_end_].
  set (rest := drop (fpos s) (content s)). set (b := take (max_size - length (overflow_ s)) rest).
  assert (length b = Nat.min (max_size - length (overflow_ s)) (length rest)) as Hlb by (subst b; by rewrite length_take).
  rewrite copy_to_ok by (rewrite length_inserts; unfold max_size in *; lia). cbn [mbind outcome_bind]. set (buf' := list_inserts _ b _).
  assert (length buf' = max_size) as Hlen by (subst buf'; by rewrite !length_inserts).
  assert (take (length (overflow_ s) + length b) buf' = overflow_ s ++ b) as Htk by (apply take_two_inserts; unfold max_size in *; lia).
  assert (drop (fpos s + length b) (content s) = drop (length b) rest) as Hdrop by (subst rest; by rewrite drop_drop).
  assert (rest = b ++ drop (length b) rest) as Hrest.
  { subst b. rewrite length_take. destruct (decide (max_size - length (overflow_ s) <= length rest)); [by rewrite Nat.min_l, take_drop|].
    rewrite Nat.min_r, take_ge, drop_all, app_nil_r by lia. done. }
  case_decide as Hz.
  { eexists false, _, _. split; [done|]. cbn [set_overflow set_buffer content fpos overflow_ buffer_ buffer_size_ chunk_begin_ chunk_end_].
    destruct (overflow_ s); [|simpl in Hz; lia]. rewrite Hdrop. assert (rest = []) as -> by (apply length_zero_iff_nil; simpl in *; lia). rewrite drop_nil. split_and!; done. }
  case_decide as Hshort.
  { eexists true, _, _. split; [done|]. cbn [set_overflow set_buffer content fpos overflow_ buffer_ buffer_size_ chunk_begin_ chunk_end_].
    assert (length b = length rest) as Eb by lia. rewrite Hdrop, Eb, drop_all, app_nil_r, <- Eb. rewrite Hrest at 1. rewrite Eb, drop_all, app_nil_r, <- Eb.
    rewrite (Nat.add_comm (length b)), Htk. split_and!; try done; [lia|by left|lia]. }
  destruct (single_FindLast_ok (take max_size buf')) as (n & -> & Hn & He). cbn [mbind outcome_bind]. rewrite length_take in Hn.
  eexists true, n, _. split; [done|]. cbn [set_overflow set_buffer content fpos overflow_ buffer_ buffer_size_ chunk_begin_ chunk_end_].
  rewrite Hdrop. rewrite take_take, Nat.min_l in He by lia.
  assert (take n buf' ++ segment n max_size buf' = overflow_ s ++ b) as Hcat.
  { rewrite <- Htk. unfold segment. rewrite take_take_drop. f_equal. lia. }
  split_and!; try done.
  - rewrite Hrest at 1. by rewrite app_assoc, <- Hcat, <- app_assoc.
  - lia.
  - intros Hn0. right. by apply He.
  - intros ->. rewrite length_app. lia.
Qed.

Lemma single_load_chunk_ok fuel : forall s, 0 < length s.(buffer_) -> 0 < s.(buffer_size_) -> 0 < fuel -> length (to_come s) + 1 < fuel + length s.(buffer_) ->
  exists r s', load_chunk fuel s = Ok (r, s') /\
    if r : bool then single_ok s' /\ s'.(content) = s.(content) /\ 0 < length (in_chunk s') /\ to_come s = in_chunk s' ++ to_come s' /\ (to_come s' = [] \/ ends_eol (in_chunk s'))
    else to_come s = [] /\ to_come s' = [] /\ s'.(chunk_begin_) = s.(chunk_begin_) /\ s'.(chunk_end_) = s.(chunk_end_).
Proof.
  induction fuel as [|fuel IH]; intros s Hb Hz Hf Hl; [lia|]. cbn [load_chunk].
  destruct (single_ReadChunk_ok s Hb) as (r & n & s1 & -> & L1 & L2 & L3 & L4 & L5 & Hr). cbn [mbind outcome_bind]. destruct r.
  2: { exists false, s1. by destruct Hr. }
  destruct Hr as (Heq & Hn & He & H0). case_decide as Hn0.
  - subst n. rewrite take_0 in Heq. cbn [app] in Heq. set (s2 := set_buffer _ s1).
    assert (to_come s2 = to_come s) as E2 by (by rewrite Heq).
    assert (length (buffer_ s2) = 2 * length (buffer_ s)) as Eb by (unfold s2; cbn [set_buffer buffer_]; rewrite length_resize; lia).
    destruct (IH s2) as (r & s' & E & Hr); [lia|unfold s2; cbn [set_buffer buffer_size_]; lia| |rewrite E2; lia|].
    { specialize (H0 eq_refl). lia. }
    exists r, s'. split; [done|]. rewrite E2 in Hr. destruct r.
    + destruct Hr as (? & Ec & ?). split; [done|]. split; [|done]. rewrite Ec. unfold s2. cbn [set_buffer content]. done.
    + destruct Hr as (? & ? & Eb' & Ee'). unfold s2 in Eb', Ee'. cbn [set_buffer chunk_begin_ chunk_end_] in *. rewrite Eb', Ee', L4, L5. done.
  - exists true, (set_chunk 0 n s1). split; [done|]. unfold in_chunk. cbn [set_chunk chunk_begin_ chunk_end_ buffer_ content].
    assert (segment 0 n (buffer_ s1) = take n (buffer_ s1)) as -> by (unfold segment; by rewrite Nat.sub_0_r, drop_0).
    split_and!; try done; [split; cbn [set_chunk buffer_ buffer_size_ chunk_begin_ chunk_end_]; lia|rewrite length_take; lia|by apply He].
Qed.

(** What the two ways to read take from a chunk. *)
Definition takes_first (take_from : SingleFileSplit -> list byte * SingleFileSplit) : Prop :=
  forall s, single_ok s -> in_chunk s <> [] -> exists b s', take_from s = (b, s') /\ single_ok s' /\ b <> [] /\ rest_of s = b ++ rest_of s' /\
    (length (to_come s') = length (to_come s) /\ s'.(content) = s.(content)).

Lemma take_chunk_first : takes_first take_chunk.
Proof.
  intros s [H1 H2 H3] Hne. eexists _, _. split; [done|]. split; [split; simpl; lia|]. split; [done|]. split; [|done]. unfold rest_of, in_chunk. simpl.
  unfold segment at 3. by rewrite Nat.sub_diag, take_0.
Qed.

Lemma take_record_first : takes_first take_record.
Proof.
  intros s [H1 H2 H3] Hne. unfold take_record. eexists _, _. split; [done|]. fold (in_chunk s).
  destruct (find_line_end_ok (chunk_begin_ s) (in_chunk s)) as (l1 & e & l2 & El & -> & _ & _ & Hl2).
  assert (length (in_chunk s) = chunk_end_ s - chunk_begin_ s) as Hlen by (unfold in_chunk; apply segment_length; lia).
  assert (l1 ++ e <> []) as Hle.
  { intros E. apply app_eq_nil in E as [-> ->]. destruct l2; [by rewrite El in Hne|]. by destruct Hl2. }
  assert (length (l1 ++ e) <= chunk_end_ s - chunk_begin_ s) by (rewrite <- Hlen, El, !length_app; lia).
  set (next := chunk_begin_ s + length (l1 ++ e)). split; [split; cbn [set_chunk buffer_ buffer_size_ chunk_begin_ chunk_end_]; lia|]. split.
  { intros E. apply (f_equal length) in E. rewrite segment_length in E by lia. unfold next in E. destruct (l1 ++ e); [done|]. simpl in E. lia. }
  split; [|done]. unfold rest_of, in_chunk. cbn [set_chunk chunk_begin_ chunk_end_ buffer_]. rewrite app_assoc, segment_app by lia. done.
Qed.

Lemma single_next_ok take_from s : takes_first take_from -> single_ok s -> exists r s', next_with take_from s = Ok (r, s') /\
  match r with Some b => single_ok s' /\ b <> [] /\ rest_of s = b ++ rest_of s' | None => rest_of s = [] end.
Proof.
  intros Ht Hs. unfold next_with. case_decide as Hc.
  - assert (in_chunk s = []) as E0 by (unfold in_chunk; rewrite Hc; unfold segment; by rewrite Nat.sub_diag, take_0).
    unfold LoadChunk. set (s0 := if decide _ then _ else s).
    assert (0 < length (buffer_ s0) /\ 0 < buffer_size_ s0 /\ to_come s0 = to_come s /\ content s0 = content s /\ overflow_ s0 = overflow_ s) as (B1 & B2 & B3 & B4 & B5).
    { destruct Hs as [? ? ?]. unfold s0. case_decide; [|done]. cbn [set_buffer buffer_ buffer_size_ content overflow_]. rewrite length_resize. split_and!; try done; lia. }
    destruct (single_load_chunk_ok (length (content s0) + length (overflow_ s0) + 2) s0) as (r & s' & -> & Hr); [done|done|lia| |].
    { rewrite B3. unfold to_come. rewrite length_app, length_drop. rewrite B4, B5. lia. }
    cbn [mbind outcome_bind]. rewrite B3 in Hr. destruct r.
    + destruct Hr as (Hs' & _ & Hne & Heq & _). destruct (Ht s' Hs') as (b & s2 & -> & Hs2 & Hb & Hrest & _); [intros E; rewrite E in Hne; simpl in Hne; lia|].
      eexists (Some b), s2. split; [done|]. split_and!; try done. rewrite <- Hrest. unfold rest_of at 1 2. by rewrite E0, Heq.
    + eexists None, s'. split; [done|]. unfold rest_of. rewrite E0. by destruct Hr as [-> _].
  - assert (in_chunk s <> []) as Hne.
    { intros E. apply (f_equal length) in E. destruct Hs as [? ? ?]. unfold in_chunk in E. rewrite segment_length in E by lia. simpl in E. lia. }
    destruct (Ht s Hs Hne) as (b & s2 & -> & Hs2 & Hb & Hrest & _). by eexists (Some b), s2.
Qed.

Lemma single_read_all_ok take_from fuel s : takes_first take_from -> single_ok s -> length (rest_of s) < fuel ->
  exists bs, read_all (next_with take_from) fuel s = Ok bs /\ concat bs = rest_of s /\ Forall (fun b => b <> []) bs.
Proof.
  intros Ht. revert s. induction fuel as [|fuel IH]; intros s Hs Hf; [lia|]. cbn [read_all].
  destruct (single_next_ok take_from s Ht Hs) as ([b|] & s' & -> & Hr); cbn [mbind outcome_bind].
  - destruct Hr as (Hs' & Hb & Heq). destruct (IH s' Hs') as (bs & -> & Hc & Hall).
    { rewrite Heq, length_app in Hf. destruct b; [done|]. simpl in Hf. lia. }
    cbn [mbind outcome_bind]. exists (b :: bs). split; [done|]. cbn [concat]. rewrite Hc. split; [done|by constructor].
  - exists []. by rewrite Hr.
Qed.

(** Reading the file to its end gives its bytes, each once, whatever the size of the
    buffer, by records and by chunks. *)
Lemma single_file_reads kBufferSize f : 0 < kBufferSize -> let s := new_SingleFileSplit kBufferSize f in
  (exists bs, read_all NextRecord (S (length f)) s = Ok bs /\ concat bs = f) /\ exists bs, read_all NextChunk (S (length f)) s = Ok bs /\ concat bs = f.
Proof.
  intros Hk s. assert (single_ok s) as Hs by (split; simpl; rewrite ?length_replicate; lia). assert (rest_of s = f) as Hr by done.
  split; [destruct (single_read_all_ok take_record (S (length f)) s take_record_first Hs) as (bs & E & Hc & _)|destruct (single_read_all_ok take_chunk (S (length f)) s take_chunk_first Hs) as (bs & E & Hc & _)];
    rewrite ?Hr in *; try lia; by exists bs.
Qed.

(** [BeforeFirst] leaves the chunk and what is behind it: the next record is not the
    first one. *)
Definition bytes_of (l : list nat) : list byte := map (fun n => byte.of_Z (Z.of_nat n)) l.
Example stale_chunk : let s := new_SingleFileSplit 8 (bytes_of [97; 10; 98; 10]) in
  ('(r, s) ← NextRecord s; '(r', _) ← NextRecord (BeforeFirst s); Ok (r, r')) = Ok (Some (bytes_of [97; 10]), Some (bytes_of [98; 10])).
Proof. vm_compute. reflexivity. Qed.
End SingleFile.
