(* ===== verification/LibSVM.v ===== *)
(** * Reading text in the LibSVM format

    Models src/dmlc-core/src/data/strtonum.h, libsvm_parser.h and the base class
    [ParserImpl] of parser.h: a chunk of text is cut among threads at ends of
    lines, every thread fills a container with the rows of its lines, and the
    blocks of the containers are handed out one after the other. *)
From S2P Require Import Prelude Floats Stream Workload RowBlock InputSplit Minibatch.
From Stdlib Require QArith_base Qreduction Strings.Byte.

(** ** Characters and numbers: strtonum.h

    A [const char*] is the memory from the character it points to on. *)

Definition chr (c : byte) : Z := byte.unsigned c.

Definition isspace (c : byte) : bool :=
  Byte.eqb c Byte.x20 || Byte.eqb c Byte.x09 || Byte.eqb c Byte.x0d || Byte.eqb c Byte.x0a || Byte.eqb c Byte.x0c.
Definition isblank (c : byte) : bool := Byte.eqb c Byte.x20 || Byte.eqb c Byte.x09.
Definition isdigit (c : byte) : bool := (48 <=? chr c)%Z && (chr c <=? 57)%Z.
Definition isdigitchars (c : byte) : bool :=
  isdigit c || Byte.eqb c Byte.x2b || Byte.eqb c Byte.x2d || Byte.eqb c Byte.x2e || Byte.eqb c Byte.x65 ||
  Byte.eqb c Byte.x45.

(** [*p] *)
Definition peek (m : list byte) : outcome byte := read_at m 0.

(** [while (f( *p)) ++p] without a bound. *)
Fixpoint skip_mem (f : byte -> bool) (m : list byte) : outcome (list byte) :=
  match m with
  | [] => Fail OutOfRange
  | c :: m' => if f c then skip_mem f m' else Ok m
  end.

(** [for (; isdigit( *p); ++p) v = f(v, *p - '0')] *)
Fixpoint digits {V} (f : V -> Z -> V) (v : V) (m : list byte) : outcome (V * list byte) :=
  match m with
  | [] => Fail OutOfRange
  | c :: m' => if isdigit c then digits f (f v (chr c - 48)%Z) m' else Ok (v, m)
  end.

(** The optional sign: [false] for a minus. *)
Definition get_sign (m : list byte) : outcome (bool * list byte) :=
  c ← peek m;
  Ok (if Byte.eqb c Byte.x2d then (false, tail m) else if Byte.eqb c Byte.x2b then (true, tail m) else (true, m)).

(** [strtouint<uint64_t>(nptr, endptr, 10)]; [endptr] is not used by the
    callers. *)
Definition strtouint (m : list byte) : outcome Z :=
  m ← skip_mem isspace m;
  '(sign, m) ← get_sign m;
  _ ← check sign;
  '(v, _) ← digits (fun v d => u64 (v * 10 + d)) 0%Z m;
  Ok v.

Section Float_text.
Context {F : Type} `{HF : !Float F}.

(** The fraction: [val2] and [pow10] are [unsigned]. *)
Definition get_fraction (value : F) (m : list byte) : outcome (F * list byte) :=
  c ← peek m;
  if Byte.eqb c Byte.x2e then
    '(vp, m) ← digits (fun '(v, p) d => (u32 (v * 10 + d), u32 (p * 10))%Z) (0, 1)%Z (tail m);
    Ok ((value + fofZ vp.1 / fofZ vp.2)%F, m)
  else Ok (value, m).

(** [scale] for an exponent of at most 38.  The products with the [double]s
    [1E8] and [10.0] are exact before they are rounded to [float], so they are
    the products of [float]s. *)
Definition exp_scale (expon : nat) : F :=
  Nat.iter (expon mod 8) (fun s => s * fofZ 10)%F (Nat.iter (expon / 8) (fun s => s * fofZ 100000000)%F fone).

Definition get_exponent (value : F) (m : list byte) : outcome F :=
  c ← peek m;
  if Byte.eqb c Byte.x65 || Byte.eqb c Byte.x45 then
    '(pos, m) ← get_sign (tail m);
    '(expon, _) ← digits (fun e d => u32 (e * 10 + d)) 0%Z m;
    let expon := if (38 <? expon)%Z then 38%Z else expon in
    let scale := exp_scale (Z.to_nat expon) in
    Ok (if pos : bool then (value * scale)%F else (value / scale)%F)
  else Ok value.

(** [strtof(nptr, endptr)], and [atof] *)
Definition strtof (m : list byte) : outcome F :=
  m ← skip_mem isspace m;
  '(sign, m) ← get_sign m;
  '(value, m) ← digits (fun v d => v * fofZ 10 + fofZ d)%F fzero m;
  '(value, m) ← get_fraction value m;
  value ← get_exponent value m;
  Ok (if sign : bool then value else fneg value).

(** ** Ranges of characters

    [p] with [n] characters left to [end]: the pair of [n] and the memory at
    [p]. *)

(** [while (p != end && f( *p)) ++p] *)
Fixpoint advance (f : byte -> bool) (n : nat) (m : list byte) : outcome (nat * list byte) :=
  match n with
  | 0 => Ok (0, m)
  | S n' =>
      match m with
      | [] => Fail OutOfRange
      | c :: m' => if f c then advance f n' m' else Ok (n, m)
      end
  end.

(** The number of values parsed, with the values. *)
Inductive pair_result (T1 T2 : Type) := Parsed0 | Parsed1 (v1 : T1) | Parsed2 (v1 : T1) (v2 : T2).
Arguments Parsed0 {T1 T2}.
Arguments Parsed1 {T1 T2}.
Arguments Parsed2 {T1 T2}.

(** [ParsePair<T1, T2>(begin, end, endptr, v1, v2)], with [Str2Type] of the two
    types; these look at the beginning of their token only. *)
Definition ParsePair {T1 T2} (get1 : list byte -> outcome T1) (get2 : list byte -> outcome T2) (n : nat) (m : list byte)
  : outcome (pair_result T1 T2 * (nat * list byte)) :=
  '(n, m) ← advance (fun c => negb (isdigitchars c)) n m;
  if decide (n = 0) then Ok (Parsed0, (n, m)) else
  v1 ← get1 m;
  '(n, m) ← advance isdigitchars n m;
  '(n, m) ← advance isblank n m;
  if decide (n = 0) then Ok (Parsed1 v1, (n, m)) else
  c ← peek m;
  if negb (Byte.eqb c Byte.x3a) then Ok (Parsed1 v1, (n, m)) else
  '(n, m) ← advance (fun c => negb (isdigitchars c)) (n - 1) (tail m);
  v2 ← get2 m;
  '(n, m) ← advance isdigitchars n m;
  Ok (Parsed2 v1 v2, (n, m)).

(** ** [LibSVMParser] *)

Definition push_feature (ix : Z) (v : option F) (c : Container F) : Container F :=
  mkCont c.(offset) c.(label) c.(weight) (c.(index) ++ [ix])
    (match v with Some v => c.(value) ++ [v] | None => c.(value) end) c.(max_index).

(** [offset.push_back(index.size())] *)
Definition close_row (c : Container F) : Container F :=
  mkCont (c.(offset) ++ [length c.(index)]) c.(label) c.(weight) c.(index) c.(value) c.(max_index).

(** The loop over the features of a line. *)
Fixpoint parse_features (fuel : nat) (n : nat) (m : list byte) (out : Container F) : outcome (Container F) :=
  match fuel with
  | 0 => Fail OutOfFuel
  | S fuel =>
      if decide (n = 0) then Ok out else
      '(r, (n, m)) ← ParsePair strtouint strtof n m;
      match r with
      | Parsed0 => parse_features fuel n m out
      | Parsed1 ix => parse_features fuel n m (push_feature ix None out)
      | Parsed2 ix v => parse_features fuel n m (push_feature ix (Some v) out)
      end
  end.

(** A new row with its label and weight. *)
Definition open_row (lb : F) (wt : option F) (out : Container F) : Container F :=
  let out := mkCont out.(offset) out.(label)
               (match wt with Some w => out.(weight) ++ [w] | None => out.(weight) end)
               out.(index) out.(value) out.(max_index) in
  let out := if decide (length out.(label) <> 0) then close_row out else out in
  mkCont out.(offset) (out.(label) ++ [lb]) out.(weight) out.(index) out.(value) out.(max_index).

(** The body of the loop over the lines, on the [n] characters of a line. *)
Definition parse_line (n : nat) (m : list byte) (out : Container F) : outcome (Container F) :=
  '(r, (n, m)) ← ParsePair strtof strtof n m;
  match r with
  | Parsed0 => Ok out
  | Parsed1 lb => parse_features (n + 1) n m (open_row lb None out)
  | Parsed2 lb wt => parse_features (n + 1) n m (open_row lb (Some wt) out)
  end.

Fixpoint parse_lines (fuel : nat) (n : nat) (m : list byte) (out : Container F) : outcome (Container F) :=
  match fuel with
  | 0 => Fail OutOfFuel
  | S fuel =>
      if decide (n = 0) then Ok out else
      '(left_, m') ← advance (fun c => negb (is_eol c)) (n - 1) (tail m);
      out ← parse_line (n - left_) m out;
      parse_lines fuel left_ m' out
  end.

(** [ParseBlock(begin, end, out)], with [n = end - begin]. *)
Definition ParseBlock (n : nat) (m : list byte) : outcome (Container F) :=
  out ← parse_lines (n + 1) n m Clear;
  let out := if decide (length out.(label) <> 0) then close_row out else out in
  _ ← check (bool_decide (length out.(label) + 1 = length out.(offset)));
  Ok out.

(** [BackFindEndLine(head + i, head)] *)
Fixpoint BackFindEndLine (head : list byte) (i : nat) : outcome nat :=
  match i with
  | 0 => Ok 0
  | S i' => c ← read_at head i; if is_eol c then Ok i else BackFindEndLine head i'
  end.

(** What thread [tid] of [FillData] does. *)
Definition parse_thread (chunk : Blob) (nthread tid : nat) : outcome (Container F) :=
  let nstep := (chunk.(bsize) + nthread - 1) / nthread in
  let sbegin := Nat.min (tid * nstep) chunk.(bsize) in
  let send := Nat.min ((tid + 1) * nstep) chunk.(bsize) in
  pbegin ← BackFindEndLine chunk.(dptr) sbegin;
  pend ← (if decide (tid + 1 = nthread) then Ok send else BackFindEndLine chunk.(dptr) send);
  if decide (pend < pbegin) then Fail OutOfRange else
  ParseBlock (pend - pbegin) (drop pbegin chunk.(dptr)).

Fixpoint mapO {A B} (f : A -> outcome B) (l : list A) : outcome (list B) :=
  match l with
  | [] => Ok []
  | a :: l => b ← f a; bs ← mapO f l; Ok (b :: bs)
  end.

(** [FillData] on a chunk: a container per thread. *)
Definition FillData (nthread : nat) (chunk : Blob) : outcome (list (Container F)) :=
  _ ← check (bool_decide (chunk.(bsize) <> 0));
  mapO (parse_thread chunk nthread) (seq 0 nthread).

(** The parser: [nthread_], [bytes_read_], [source_] and the members of
    [ParserImpl]. *)
Record LibSVMParser := mkLib {
  nthread_ : nat; bytes_read_ : nat; source_ : InputSplitBase; data_ptr_ : nat; data_end_ : nat;
  data_ : list (Container F) }.

Definition new_LibSVMParser (source : InputSplitBase) (nthread : nat) : LibSVMParser := mkLib nthread 0 source 0 0 [].

Context (got : nat -> nat -> nat -> nat).

(** [ParseNext]: [false] at the end of the source. *)
Definition ParseNext (p : LibSVMParser) : outcome (bool * LibSVMParser) :=
  '(r, src) ← NextChunk got p.(source_);
  match r with
  | None => Ok (false, mkLib p.(nthread_) p.(bytes_read_) src p.(data_ptr_) p.(data_end_) p.(data_))
  | Some chunk =>
      d ← FillData p.(nthread_) chunk;
      Ok (true, mkLib p.(nthread_) (p.(bytes_read_) + chunk.(bsize)) src 0 p.(data_end_) d)
  end.

(** The inner loop of [ParserImpl::Next]: the next container with rows, of the
    [k] that are left. *)
Fixpoint next_container (k : nat) (p : LibSVMParser) : outcome (option (RowBlock F) * LibSVMParser) :=
  match k with
  | 0 => Ok (None, p)
  | S k =>
      c ← read_at p.(data_) p.(data_ptr_);
      let p := mkLib p.(nthread_) p.(bytes_read_) p.(source_) (p.(data_ptr_) + 1) p.(data_end_) p.(data_) in
      if decide (Size c <> 0) then b ← GetBlock c; Ok (Some b, p) else next_container k p
  end.

Fixpoint next_block (fuel : nat) (p : LibSVMParser) : outcome (option (RowBlock F) * LibSVMParser) :=
  match fuel with
  | 0 => Fail OutOfFuel
  | S fuel =>
      '(r, p) ← next_container (p.(data_end_) - p.(data_ptr_)) p;
      match r with
      | Some b => Ok (Some b, p)
      | None =>
          '(more, p) ← ParseNext p;
          if more : bool
          then next_block fuel (mkLib p.(nthread_) p.(bytes_read_) p.(source_) 0 (length p.(data_)) p.(data_))
          else Ok (None, p)
      end
  end.

(** [Next()] with [Value()], and [BeforeFirst()] *)
Definition parser_next (p : LibSVMParser) : outcome (option (RowBlock F) * LibSVMParser) :=
  next_block (p.(source_).(offset_end_) - p.(source_).(offset_curr_) + length p.(source_).(overflow_) + 1) p.

Definition parser_before_first (p : LibSVMParser) : outcome LibSVMParser :=
  src ← InputSplit.BeforeFirst p.(source_);
  Ok (mkLib p.(nthread_) p.(bytes_read_) src p.(data_ptr_) p.(data_end_) p.(data_)).

#[global] Instance LibSVM_source : BlockSource LibSVMParser := {|
  src_next p := '(r, p) ← parser_next p; Ok (Some (r, p));
  src_before_first p := match parser_before_first p with Ok p' => p' | Fail _ => p end
|}.

End Float_text.
Arguments LibSVMParser F : clear implicits.

(** ** Tokens *)

Lemma digit_is_digitchar c : isdigit c = true -> isdigitchars c = true.
Proof. unfold isdigitchars. by intros ->. Qed.

Lemma byte_eqb_eq (c d : byte) : Byte.eqb c d = true -> c = d.
Proof. apply Strings.Byte.byte_dec_bl. Qed.

(** A fact about all bytes that computation settles. *)
Lemma all_bytes_check (P : byte -> bool) :
  forallb (fun n => P (byte.of_Z (Z.of_nat n))) (seq 0 256) = true -> forall c, P c = true.
Proof.
  intros H c. rewrite forallb_forall in H. rewrite <- (byte.of_Z_unsigned c).
  pose proof (byte.unsigned_range c). rewrite <- (Z2Nat.id (byte.unsigned c)) by lia. apply H, in_seq. lia.
Qed.

Lemma digitchar_not c : isdigitchars c = true -> isspace c = false /\ isblank c = false /\ is_eol c = false.
Proof.
  intros H. pose proof (all_bytes_check (fun c => implb (isdigitchars c)
    (negb (isspace c) && negb (isblank c) && negb (is_eol c))) eq_refl c) as Hc. simpl in Hc. rewrite H in Hc.
  simpl in Hc. rewrite !andb_true_iff, !negb_true_iff in Hc. tauto.
Qed.

Lemma eol_not c : is_eol c = true -> isdigitchars c = false /\ isblank c = false /\ c <> Byte.x3a.
Proof.
  intros H. pose proof (all_bytes_check (fun c => implb (is_eol c)
    (negb (isdigitchars c) && negb (isblank c) && negb (Byte.eqb c Byte.x3a))) eq_refl c) as Hc.
  simpl in Hc. rewrite H in Hc. simpl in Hc. rewrite !andb_true_iff, !negb_true_iff in Hc.
  destruct Hc as [[H1 H2] H3]. split_and!; try done. by intros ->.
Qed.

Lemma blank_not c : isblank c = true -> isdigitchars c = false.
Proof.
  intros H. destruct (isdigitchars c) eqn:E; [|done]. destruct (digitchar_not c E) as (_ & H2 & _). congruence.
Qed.

(** What ends a number: a character that cannot be part of one. *)
Lemma stop_not c : isdigitchars c = false ->
  isdigit c = false /\ Byte.eqb c Byte.x2b = false /\ Byte.eqb c Byte.x2d = false /\ Byte.eqb c Byte.x2e = false /\
  Byte.eqb c Byte.x65 = false /\ Byte.eqb c Byte.x45 = false.
Proof. unfold isdigitchars. rewrite !orb_false_iff. tauto. Qed.

Abbreviation digitchars := (Forall (fun c => isdigitchars c = true)).
Definition token (t : list byte) : Prop := t <> [] /\ digitchars t.

Section Tokens.
Context {F : Type} `{HF : !Float F}.

Lemma digits_token {V} (f : V -> Z -> V) t : digitchars t -> forall v,
  exists v' t', digitchars t' /\
    forall c rest, isdigitchars c = false -> digits f v (t ++ c :: rest) = Ok (v', t' ++ c :: rest).
Proof.
  induction 1 as [|x t Hx Ht IH]; intros v.
  { exists v, []. split; [done|]. intros c rest Hc. destruct (stop_not c Hc) as [Hd _]. simpl. by rewrite Hd. }
  destruct (isdigit x) eqn:Ex.
  - destruct (IH (f v (chr x - 48)%Z)) as (v' & t' & Ht' & E). exists v', t'. split; [done|].
    intros c rest Hc. simpl. rewrite Ex. by apply E.
  - exists v, (x :: t). split; [by constructor|]. intros c rest _. simpl. by rewrite Ex.
Qed.

Lemma get_sign_token t : digitchars t ->
  exists b t', digitchars t' /\
    forall c rest, isdigitchars c = false -> get_sign (t ++ c :: rest) = Ok (b, t' ++ c :: rest).
Proof.
  intros Ht. destruct Ht as [|x t Hx Ht].
  - exists true, []. split; [done|]. intros c rest Hc. destruct (stop_not c Hc) as (_ & H1 & H2 & _).
    unfold get_sign. simpl. by rewrite H1, H2.
  - unfold get_sign. simpl. destruct (Byte.eqb x Byte.x2d); [by exists false, t|].
    destruct (Byte.eqb x Byte.x2b); [by exists true, t|]. exists true, (x :: t). split; [by constructor|done].
Qed.

Lemma skip_space_token t c rest : token t -> skip_mem isspace (t ++ c :: rest) = Ok (t ++ c :: rest).
Proof.
  intros [Hn Ht]. destruct Ht as [|x t Hx Ht]; [done|]. simpl. by destruct (digitchar_not x Hx) as [-> _].
Qed.

Lemma strtouint_token t : token t ->
  exists o, forall c rest, isdigitchars c = false -> strtouint (t ++ c :: rest) = o.
Proof.
  intros Ht. destruct (get_sign_token t) as (b & t1 & Ht1 & E1); [apply Ht|].
  destruct (digits_token (fun v d => u64 (v * 10 + d)) t1 Ht1 0%Z) as (v & t2 & _ & E2).
  exists (_ ← check b; Ok v). intros c rest Hc. unfold strtouint. rewrite skip_space_token by done.
  cbn [mbind outcome_bind]. rewrite E1 by done. cbn [mbind outcome_bind].
  destruct b; cbn; [|done]. by rewrite E2.
Qed.

Lemma get_fraction_token t (value : F) : digitchars t ->
  exists v t', digitchars t' /\
    forall c rest, isdigitchars c = false -> get_fraction value (t ++ c :: rest) = Ok (v, t' ++ c :: rest).
Proof.
  intros Ht. destruct Ht as [|x t Hx Ht].
  - exists value, []. split; [done|]. intros c rest Hc. destruct (stop_not c Hc) as (_ & _ & _ & H3 & _).
    unfold get_fraction. simpl. by rewrite H3.
  - unfold get_fraction. cbn [peek read_at app lookup list_lookup mbind outcome_bind tail].
    destruct (Byte.eqb x Byte.x2e); [|exists value, (x :: t); split; [by constructor|done]].
    destruct (digits_token (fun '(v, p) d => (u32 (v * 10 + d), u32 (p * 10))%Z) t Ht (0, 1)%Z) as (vp & t' & Ht' & E).
    exists (value + fofZ vp.1 / fofZ vp.2)%F, t'. split; [done|]. intros c rest Hc. by rewrite E.
Qed.

Lemma get_exponent_token t (value : F) : digitchars t ->
  exists v, forall c rest, isdigitchars c = false -> get_exponent value (t ++ c :: rest) = Ok v.
Proof.
  intros Ht. destruct Ht as [|x t Hx Ht].
  - exists value. intros c rest Hc. destruct (stop_not c Hc) as (_ & _ & _ & _ & H4 & H5).
    unfold get_exponent. simpl. by rewrite H4, H5.
  - unfold get_exponent. cbn [peek read_at app lookup list_lookup mbind outcome_bind tail].
    destruct (Byte.eqb x Byte.x65 || Byte.eqb x Byte.x45); [|by exists value].
    destruct (get_sign_token t Ht) as (pos & t1 & Ht1 & E1).
    destruct (digits_token (fun e d => u32 (e * 10 + d)) t1 Ht1 0%Z) as (e & t2 & _ & E2).
    eexists. intros c rest Hc. rewrite E1 by done. cbn [mbind outcome_bind]. rewrite E2 by done.
    cbn [mbind outcome_bind]. reflexivity.
Qed.

Lemma strtof_token t : token t ->
  exists v, forall c rest, isdigitchars c = false -> strtof (t ++ c :: rest) = Ok v.
Proof.
  intros Ht. destruct (get_sign_token t) as (b & t1 & Ht1 & E1); [apply Ht|].
  destruct (digits_token (fun v d => v * fofZ 10 + fofZ d)%F t1 Ht1 fzero) as (v & t2 & Ht2 & E2).
  destruct (get_fraction_token t2 v Ht2) as (v2 & t3 & Ht3 & E3).
  destruct (get_exponent_token t3 v2 Ht3) as (v3 & E4).
  exists (if b then v3 else fneg v3). intros c rest Hc. unfold strtof. rewrite skip_space_token by done.
  cbn [mbind outcome_bind]. rewrite E1 by done. cbn [mbind outcome_bind]. rewrite E2 by done. cbn [mbind outcome_bind].
  rewrite E3 by done. cbn [mbind outcome_bind]. rewrite E4 by done. done.
Qed.

(** The numbers that tokens stand for. *)
Definition tok_float (t : list byte) : F := match strtof (t ++ [Byte.x00]) with Ok v => v | Fail _ => fzero end.
Definition tok_index (t : list byte) : Z := match strtouint (t ++ [Byte.x00]) with Ok v => v | Fail _ => 0%Z end.
Definition no_minus (t : list byte) : Prop := head t <> Some Byte.x2d.

Lemma strtof_tok t c rest : token t -> isdigitchars c = false -> strtof (t ++ c :: rest) = Ok (tok_float t).
Proof.
  intros Ht Hc. destruct (strtof_token t Ht) as [v E]. unfold tok_float. by rewrite !E.
Qed.

Lemma strtouint_tok t c rest : token t -> no_minus t -> isdigitchars c = false ->
  strtouint (t ++ c :: rest) = Ok (tok_index t).
Proof.
  intros Ht Hm Hc. destruct (strtouint_token t Ht) as [o E].
  assert (exists v, o = Ok v) as [v ->]; [|unfold tok_index; by rewrite !E].
  rewrite <- (E Byte.x00 [] eq_refl). unfold strtouint. rewrite skip_space_token by done. cbn [mbind outcome_bind].
  destruct Ht as [Hn Ht]. destruct Ht as [|x t Hx Ht]; [done|]. unfold get_sign.
  cbn [peek read_at app lookup list_lookup mbind outcome_bind tail].
  destruct (Byte.eqb x Byte.x2d) eqn:Ex; [apply byte_eqb_eq in Ex; subst; by destruct Hm|].
  destruct (Byte.eqb x Byte.x2b).
  - destruct (digits_token (fun v d => u64 (v * 10 + d)) t Ht 0%Z) as (v & t2 & _ & E2).
    exists v. cbn. by rewrite E2.
  - destruct (digits_token (fun v d => u64 (v * 10 + d)) (x :: t) ltac:(by constructor) 0%Z) as (v & t2 & _ & E2).
    exists v. cbn [check mbind outcome_bind]. change (x :: t ++ [Byte.x00]) with ((x :: t) ++ [Byte.x00]).
    by rewrite E2.
Qed.

End Tokens.

(** ** Lines of text

    The grammar the parser is made for: items [key[:value]] with something
    between them that is not part of a number. *)

Record tpair := mkPair { t_key : list byte; t_val : option (list byte * list byte * list byte) }.

(** The value with the blanks before the colon and what is skipped after it. *)
Definition pair_bytes (p : tpair) : list byte :=
  p.(t_key) ++ match p.(t_val) with Some (bl, fl, t) => bl ++ Byte.x3a :: fl ++ t | None => [] end.

Definition skippable (c : byte) : Prop := isdigitchars c = false.
Definition filler (s : list byte) : Prop :=
  Forall (fun c => isdigitchars c = false /\ c <> Byte.x3a /\ is_eol c = false) s.
Definition wf_pair (p : tpair) : Prop :=
  token p.(t_key) /\
  match p.(t_val) with
  | Some (bl, fl, t) =>
      Forall (fun c => isblank c = true) bl /\ Forall (fun c => isdigitchars c = false /\ is_eol c = false) fl /\ token t
  | None => True
  end.

(** A line: what comes before the first item, then the items, each with what
    follows it. *)
Record tline := mkLine { l_lead : list byte; l_items : list (tpair * list byte) }.

Definition items_bytes (its : list (tpair * list byte)) : list byte :=
  concat (map (fun it => pair_bytes it.1 ++ it.2) its).
Definition line_bytes (t : tline) : list byte := t.(l_lead) ++ items_bytes t.(l_items).

Fixpoint wf_items (its : list (tpair * list byte)) : Prop :=
  match its with
  | [] => True
  | it :: its => wf_pair it.1 /\ filler it.2 /\ (its <> [] -> it.2 <> []) /\ wf_items its
  end.
Definition wf_line (t : tline) : Prop :=
  Forall (fun c => isdigitchars c = false /\ is_eol c = false) t.(l_lead) /\ wf_items t.(l_items) /\
  Forall (fun it => no_minus it.1.(t_key)) (tail t.(l_items)).

Lemma advance_ok f a n m :
  Forall (fun c => f c = true) a -> (n = 0 \/ exists c m', m = c :: m' /\ f c = false) ->
  advance f (length a + n) (a ++ m) = Ok (n, m).
Proof.
  intros Ha Hn. induction Ha as [|x a Hx Ha IH]; simpl; [|by rewrite Hx].
  destruct Hn as [->|(c & m' & -> & Hc)]; [done|]. destruct n; simpl; [done|by rewrite Hc].
Qed.

Lemma span_prefix (f : byte -> bool) l :
  exists a b, l = a ++ b /\ Forall (fun c => f c = true) a /\ match b with [] => True | c :: _ => f c = false end.
Proof.
  induction l as [|c l (a & b & -> & Ha & Hb)]; [by exists [], []|]. destruct (f c) eqn:E.
  - exists (c :: a), b. split_and!; [done|by constructor|done].
  - by exists [], (c :: a ++ b).
Qed.

Lemma filler_app s1 s2 : filler (s1 ++ s2) <-> filler s1 /\ filler s2.
Proof. unfold filler. apply Forall_app. Qed.

(** The rest of a line, and the character behind it, end a number. *)
Definition ends_token (sep more : list byte) : Prop :=
  filler sep /\ (sep = [] -> more = []) /\ match more with [] => True | x :: _ => isdigitchars x = true end.

Lemma ends_token_stop sep more c rest : ends_token sep more -> isdigitchars c = false ->
  exists x r, sep ++ more ++ c :: rest = x :: r /\ isdigitchars x = false.
Proof.
  intros (Hs & Hn & _) Hc. destruct sep as [|x s].
  - rewrite Hn by done. eauto.
  - apply Forall_cons in Hs as [[Hx _] _]. simpl. eauto.
Qed.

Section Pairs.
Context {T1 T2 : Type} (get1 : list byte -> outcome T1) (get2 : list byte -> outcome T2).

Definition pair_value (p : tpair) (v1 : T1) (v2 : list byte -> T2) : pair_result T1 T2 :=
  match p.(t_val) with None => Parsed1 _ _ v1 | Some (_, _, t) => Parsed2 _ _ v1 (v2 t) end.

(** One item is read, and the position is behind it, or behind the blanks after
    it. *)
Lemma ParsePair_ok lead p sep more c rest v1 v2 :
  Forall skippable lead -> wf_pair p -> ends_token sep more -> isdigitchars c = false ->
  (forall x r, isdigitchars x = false -> get1 (p.(t_key) ++ x :: r) = Ok v1) ->
  (forall t x r, token t -> isdigitchars x = false -> get2 (t ++ x :: r) = Ok (v2 t)) ->
  exists sep', filler sep' /\ length sep' <= length sep /\
    ParsePair get1 get2 (length (lead ++ pair_bytes p ++ sep ++ more)) (lead ++ pair_bytes p ++ sep ++ more ++ c :: rest) =
    Ok (pair_value p v1 v2, (length (sep' ++ more), sep' ++ more ++ c :: rest)).
Proof.
  intros Hlead [Hkey Hval] Hend Hc G1 G2. destruct (ends_token_stop sep more c rest Hend Hc) as (x & r & Ex & Hx).
  unfold ParsePair, pair_value, pair_bytes in *. destruct p as [key val]. simpl in *.
  destruct Hkey as [Hkn Hkey].
  assert (exists k key', key = k :: key' /\ isdigitchars k = true) as (k & key' & Ek & Hk).
  { destruct Hkey as [|k key' Hk]; [done|eauto]. }
  rewrite (length_app lead), advance_ok.
  2: { eapply Forall_impl; [exact Hlead|]. unfold skippable. by intros ? ->. }
  2: { right. rewrite Ek. eexists k, _. split; [reflexivity|by rewrite Hk]. }
  cbn [mbind outcome_bind]. rewrite decide_False by (rewrite Ek, !length_app; simpl; lia).
  destruct val as [[[bl fl] t]|].
  - destruct Hval as (Hbl & Hfl & Htok). rewrite <- !app_assoc. cbn [app]. rewrite <- !app_assoc.
    assert (exists y s, bl ++ Byte.x3a :: fl ++ t ++ sep ++ more ++ c :: rest = y :: s /\ isdigitchars y = false)
      as (y & s & Ey & Hy).
    { destruct Hbl as [|y bl Hy]; [by eexists _, _|]. eexists _, _. split; [reflexivity|by apply blank_not]. }
    rewrite Ey, (G1 y s Hy), <- Ey. cbn [mbind outcome_bind].
    rewrite (length_app key), (advance_ok _ key); [|done|right; eauto].
    cbn [mbind outcome_bind]. rewrite length_app, advance_ok; [|done|right; eexists _, _; by split].
    cbn [mbind outcome_bind]. rewrite decide_False by (simpl; lia). cbn [peek read_at lookup list_lookup mbind outcome_bind].
    cbn [Byte.eqb negb]. cbn [length tail app]. rewrite Nat.sub_succ, Nat.sub_0_r, length_app, advance_ok.
    2: { eapply Forall_impl; [exact Hfl|]. by intros ? [-> _]. }
    2: { destruct Htok as [Hn Ht]. destruct Ht as [|z t Hz]; [done|]. right. eexists z, _. split; [done|by rewrite Hz]. }
    cbn [mbind outcome_bind]. rewrite Ex, (G2 t x r Htok Hx), <- Ex. cbn [mbind outcome_bind].
    rewrite length_app, advance_ok; [|apply Htok|right; eauto]. cbn [mbind outcome_bind].
    exists sep. split; [apply Hend|]. by split.
  - rewrite app_nil_r. rewrite Ex, (G1 x r Hx), <- Ex. cbn [mbind outcome_bind].
    rewrite (length_app key), (advance_ok _ key); [|done|right; eauto]. cbn [mbind outcome_bind].
    destruct (span_prefix isblank sep) as (bl & sep' & -> & Hbl & Hsep').
    destruct Hend as (Hs & Hn & Hmore). apply filler_app in Hs as [_ Hs'].
    rewrite <- !app_assoc, (length_app bl (sep' ++ more)), advance_ok; [|done|].
    2: { destruct sep' as [|z sep']; [|right; by eexists _, _]. destruct more as [|z more]; [by left|right].
         eexists _, _. split; [reflexivity|]. by apply digitchar_not. }
    cbn [mbind outcome_bind]. exists sep'. split; [done|]. split; [rewrite length_app; lia|]. case_decide as Hz; [done|].
    assert (exists z q, sep' ++ more ++ c :: rest = z :: q /\ Byte.eqb z Byte.x3a = false) as (z & q & Ez & Hcol).
    { destruct sep' as [|z sep'].
      - destruct more as [|z more]; [done|]. eexists _, _. split; [reflexivity|].
        destruct (Byte.eqb z Byte.x3a) eqn:E; [|done]. apply byte_eqb_eq in E as ->. discriminate Hmore.
      - eexists _, _. split; [reflexivity|]. apply Forall_cons in Hs' as [(_ & Hne & _) _].
        destruct (Byte.eqb z Byte.x3a) eqn:E; [|done]. by apply byte_eqb_eq in E. }
    rewrite Ez. cbn [peek read_at lookup list_lookup mbind outcome_bind]. by rewrite Hcol.
Qed.

(** A range without a number. *)
Lemma ParsePair_none lead rest :
  Forall skippable lead -> ParsePair get1 get2 (length lead) (lead ++ rest) = Ok (Parsed0 _ _, (0, rest)).
Proof.
  intros Hl. unfold ParsePair. rewrite <- (Nat.add_0_r (length lead)), advance_ok; [done| |by left].
  eapply Forall_impl; [exact Hl|]. unfold skippable. by intros ? ->.
Qed.

End Pairs.

(** ** Rows of text *)

Section Rows.
Context {F : Type} `{HF : !Float F}.

(** The row a line stands for. *)
Definition pair_float (p : tpair) : list F := match p.(t_val) with Some (_, _, t) => [tok_float t] | None => [] end.
Definition row_of (t : tline) : option (arow (F := F)) :=
  match t.(l_items) with
  | [] => None
  | (p, _) :: fs =>
      Some (mkArow (tok_float p.(t_key)) (pair_float p) (map (fun it => tok_index it.1.(t_key)) fs)
              (concat (map (fun it => pair_float it.1) fs)))
  end.

Definition push_item (out : Container F) (it : tpair * list byte) : Container F :=
  push_feature (tok_index it.1.(t_key)) (head (pair_float it.1)) out.

Lemma items_head its : wf_items its ->
  match items_bytes its with [] => its = [] | x :: _ => isdigitchars x = true end.
Proof.
  destruct its as [|[p sep] its]; [done|]. simpl. intros ([[Hn Hk] _] & _). unfold items_bytes, pair_bytes. simpl.
  destruct Hk as [|x k Hx]; done.
Qed.

Lemma wf_items_ends it its : wf_items (it :: its) -> ends_token it.2 (items_bytes its).
Proof.
  intros (_ & Hf & Hs & Hi). pose proof (items_head its Hi) as Hh. split_and!; [done| |].
  - intros E. destruct its; [done|]. by destruct Hs.
  - by destruct (items_bytes its).
Qed.

Lemma parse_features_ok its : forall lead fuel out c rest,
  Forall skippable lead -> wf_items its -> Forall (fun it => no_minus it.1.(t_key)) its -> isdigitchars c = false ->
  length (lead ++ items_bytes its) < fuel ->
  parse_features fuel (length (lead ++ items_bytes its)) (lead ++ items_bytes its ++ c :: rest) out =
  Ok (foldl push_item out its).
Proof.
  induction its as [|[p sep] its IH]; intros lead fuel out c rest Hl Hwf Hm Hc Hfuel; (destruct fuel as [|fuel]; [lia|]).
  - change (items_bytes []) with (@nil byte) in *. rewrite app_nil_r in *. cbn [parse_features app].
    case_decide; [done|]. rewrite ParsePair_none by done. cbn [mbind outcome_bind].
    destruct fuel; [lia|]. done.
  - cbn [parse_features]. pose proof (wf_items_ends _ _ Hwf) as Hend. simpl in Hend.
    apply Forall_cons in Hm as [Hmp Hm]. simpl in Hmp. destruct Hwf as (Hwp & Hf & _ & Hwi). simpl in Hwp, Hf.
    assert (items_bytes ((p, sep) :: its) = pair_bytes p ++ sep ++ items_bytes its) as Eb.
    { unfold items_bytes. simpl. by rewrite <- app_assoc. }
    rewrite Eb in *. assert (0 < length (pair_bytes p)) as Hpos.
    { destruct Hwp as [[Hn _] _]. unfold pair_bytes. rewrite length_app. destruct (t_key p); [done|simpl; lia]. }
    rewrite decide_False by (rewrite !length_app; lia).
    destruct (ParsePair_ok strtouint strtof lead p sep (items_bytes its) c rest (tok_index (t_key p)) tok_float)
      as (sep' & Hsep' & Hlen & E); try done.
    { intros x r Hx. apply strtouint_tok; [apply Hwp|done|done]. }
    { intros t x r Ht Hx. by apply strtof_tok. }
    rewrite <- !app_assoc. rewrite E. cbn [mbind outcome_bind]. rewrite !length_app in Hfuel. unfold pair_value.
    assert (forall o, parse_features fuel (length (sep' ++ items_bytes its)) (sep' ++ items_bytes its ++ c :: rest) o =
            Ok (foldl push_item o its)) as IH'.
    { intros o. apply IH; try done; [|rewrite length_app; lia].
      eapply Forall_impl; [exact Hsep'|]. by intros ? [? _]. }
    cbn [foldl]. unfold push_item at 2, pair_float. cbn [fst]. destruct (t_val p) as [[[bl fl] t]|]; apply IH'.
Qed.

(** A line, perhaps with the end of the line before it. *)
Lemma parse_line_row pre t r c rest out :
  Forall skippable pre -> wf_line t -> row_of t = Some r -> isdigitchars c = false ->
  exists it fs, t.(l_items) = it :: fs /\
  parse_line (length (pre ++ line_bytes t)) (pre ++ line_bytes t ++ c :: rest) out =
  Ok (foldl push_item (open_row (tok_float it.1.(t_key)) (head (pair_float it.1)) out) fs).
Proof.
  intros Hpre (Hlead & Hwf & Hm) Hr Hc. unfold row_of in Hr. unfold line_bytes.
  destruct (l_items t) as [|[p sep] fs] eqn:Ei; [done|]. exists (p, sep), fs. split; [done|]. cbn [fst].
  pose proof (wf_items_ends _ _ Hwf) as Hend. simpl in Hend.
  destruct Hwf as (Hwp & Hf & _ & Hwi). simpl in Hwp, Hf, Hm.
  assert (items_bytes ((p, sep) :: fs) = pair_bytes p ++ sep ++ items_bytes fs) as ->.
  { unfold items_bytes. simpl. by rewrite <- app_assoc. }
  destruct (ParsePair_ok strtof strtof (pre ++ l_lead t) p sep (items_bytes fs) c rest (tok_float (t_key p)) tok_float)
    as (sep' & Hsep' & Hlen & E); try done.
  { apply Forall_app. split; [done|]. eapply Forall_impl; [exact Hlead|]. by intros ? [? _]. }
  { intros x q Hx. apply strtof_tok; [apply Hwp|done]. }
  { intros tk x q Ht Hx. by apply strtof_tok. }
  unfold parse_line. rewrite <- !app_assoc in *. rewrite E. cbn [mbind outcome_bind]. unfold pair_value.
  assert (forall o, parse_features (length (sep' ++ items_bytes fs) + 1) (length (sep' ++ items_bytes fs))
            (sep' ++ items_bytes fs ++ c :: rest) o = Ok (foldl push_item o fs)) as Hfs.
  { intros o. apply parse_features_ok; try done; [|lia]. eapply Forall_impl; [exact Hsep'|]. by intros ? [? _]. }
  unfold pair_float. destruct (t_val p) as [[[bl fl] tk]|]; apply Hfs.
Qed.

Lemma parse_line_blank pre t rest out :
  Forall skippable pre -> wf_line t -> row_of t = None ->
  parse_line (length (pre ++ line_bytes t)) (pre ++ line_bytes t ++ rest) out = Ok out.
Proof.
  intros Hpre (Hlead & _) Hr. unfold row_of in Hr. unfold line_bytes, parse_line.
  destruct (l_items t) as [|[p sep] fs]; [|done]. change (items_bytes []) with (@nil byte). rewrite app_nil_r, app_assoc.
  rewrite ParsePair_none; [done|]. apply Forall_app. split; [done|]. eapply Forall_impl; [exact Hlead|]. by intros ? [? _].
Qed.

(** A container whose last row is still open. *)
Record open_holds (c : Container F) (rs : list arow) : Prop := {
  oh_offset : c.(offset) = take (Nat.max 1 (length rs)) (psums 0 (map nfeat rs));
  oh_label : c.(label) = map a_label rs;
  oh_weight : c.(weight) = concat (map a_weight rs);
  oh_index : c.(index) = concat (map a_index rs);
  oh_value : c.(value) = concat (map a_value rs)
}.

Lemma open_close c rs : open_holds c rs -> rs <> [] -> holds (close_row c) rs.
Proof.
  intros [Ho Hl Hw Hi Hv] Hn. split; simpl; try done. rewrite Ho, Hi, length_a_index.
  destruct rs as [|r rs]; [done|]. set (l := r :: rs) in *.
  replace (Nat.max 1 (length l)) with (length l) by (simpl; lia).
  pose proof (psums_last 0 (map nfeat l)) as Hp. rewrite length_map, Nat.add_0_l in Hp.
  rewrite <- (take_S_r _ _ _ Hp). rewrite firstn_all2; [done|]. rewrite psums_length, length_map. done.
Qed.

Lemma open_done c rs : open_holds c rs ->
  holds (if decide (length c.(label) <> 0) then close_row c else c) rs.
Proof.
  intros Hc. rewrite (oh_label _ _ Hc), length_map. case_decide as Hd.
  - apply open_close; [done|]. by destruct rs.
  - destruct rs; [|done]. by destruct Hc.
Qed.

Lemma push_items_eq fs out :
  foldl push_item out fs =
  mkCont out.(offset) out.(label) out.(weight) (out.(index) ++ map (fun it => tok_index it.1.(t_key)) fs)
    (out.(value) ++ concat (map (fun it => pair_float it.1) fs)) out.(max_index).
Proof.
  revert out. induction fs as [|it fs IH]; intros out; simpl.
  { rewrite !app_nil_r. by destruct out. }
  rewrite IH. simpl. rewrite <- app_assoc. f_equal. unfold pair_float at 1 3.
  destruct (t_val it.1) as [[[bl fl] t]|]; simpl; [by rewrite <- app_assoc|done].
Qed.

Lemma open_row_holds out rs p fs sep lead r :
  open_holds out rs -> row_of (mkLine lead ((p, sep) :: fs)) = Some r ->
  open_holds (foldl push_item (open_row (tok_float p.(t_key)) (head (pair_float p)) out) fs) (rs ++ [r]).
Proof.
  intros Ho Hr. unfold row_of in Hr. simpl in Hr. injection Hr as <-. rewrite push_items_eq.
  set (r := mkArow _ _ _ _).
  assert (match head (pair_float p) with Some w => weight out ++ [w] | None => weight out end =
          weight out ++ pair_float p) as Ew.
  { unfold pair_float. destruct (t_val p) as [[[bl fl] t]|]; simpl; [done|by rewrite app_nil_r]. }
  unfold open_row. rewrite Ew. cbn [label].
  assert (offset (if decide (length (label out) <> 0) then close_row out else out) =
          take (S (length rs)) (psums 0 (map nfeat (rs ++ [r])))) as Eo.
  { rewrite psums_take by (rewrite length_map, length_app; simpl; lia).
    rewrite map_app, take_app_le, firstn_all2 by (rewrite length_map; lia). apply (h_offset _ _ (open_done _ _ Ho)). }
  destruct Ho as [Ho Hl Hw Hi Hv]. split; simpl.
  - rewrite length_app. simpl. rewrite Nat.max_r, Nat.add_1_r by lia. rewrite <- Eo. by case_decide.
  - rewrite map_app, <- Hl. by case_decide.
  - rewrite map_app, concat_app, <- Hw. simpl. rewrite app_nil_r. by case_decide.
  - rewrite map_app, concat_app, <- Hi. simpl. rewrite app_nil_r. by case_decide.
  - rewrite map_app, concat_app, <- Hv. simpl. rewrite app_nil_r. by case_decide.
Qed.

End Rows.

(** ** Blocks and chunks of text *)

Lemma lines_run cur run s2 : Forall (fun c => is_eol c = false) run ->
  lines_from cur (run ++ s2) = lines_from (cur ++ run) s2.
Proof.
  intros Hr. revert cur. induction Hr as [|x run Hx _ IH]; intros cur; simpl; [by rewrite app_nil_r|].
  rewrite Hx, IH. by rewrite <- app_assoc.
Qed.

Definition eol_first (s : list byte) : Prop := match s with [] => True | c :: _ => is_eol c = true end.

Lemma lines_flush cur s : eol_first s ->
  lines_from cur s = match cur with [] => [] | _ => [cur] end ++ lines s.
Proof.
  destruct s as [|c s]; simpl; [by destruct cur|]. intros Hc. unfold lines. simpl. rewrite Hc. by destruct cur.
Qed.

Lemma lines_from_flush cur l1 l2 : eol_first l2 -> lines_from cur (l1 ++ l2) = lines_from cur l1 ++ lines l2.
Proof.
  intros Hl. revert cur. induction l1 as [|c l1 IH]; intros cur; simpl.
  { rewrite lines_flush by done. done. }
  destruct (is_eol c); [|apply IH]. destruct cur; [apply IH|]. simpl. f_equal. apply IH.
Qed.

Lemma lines_app_eol l1 l2 : eol_first l2 -> lines (l1 ++ l2) = lines l1 ++ lines l2.
Proof. apply lines_from_flush. Qed.

Section Blocks.
Context {F : Type} `{HF : !Float F}.

Definition renders (l : list byte) (t : tline) : Prop := l = line_bytes t /\ wf_line t.

(** What lies behind the text cannot be taken for a part of its last number. *)
Definition safe_end (seg rest : list byte) : Prop :=
  (exists c r, rest = c :: r /\ isdigitchars c = false) \/ seg = [] \/ ends_eol seg.

(** The step of the loop over the lines. *)
Lemma line_step x run s2 rest tls (out : Container F) rs :
  Forall (fun c => is_eol c = false) run -> eol_first s2 -> safe_end (x :: run ++ s2) rest ->
  Forall2 renders (lines (x :: run ++ s2)) tls -> open_holds out rs ->
  exists out' tls1 tls2, parse_line (S (length run)) ((x :: run) ++ s2 ++ rest) out = Ok out' /\
    tls = tls1 ++ tls2 /\ Forall2 renders (lines s2) tls2 /\ open_holds out' (rs ++ omap row_of tls1).
Proof.
  intros Hrun Hs2 Hsafe Hr Hout.
  assert (exists pre body, x :: run = pre ++ body /\ Forall skippable pre /\
            lines (x :: run ++ s2) = match body with [] => [] | _ => [body] end ++ lines s2 /\
            (body <> [] -> ~ ends_eol (x :: run))) as (pre & body & Epb & Hpre & El & Hnot).
  { destruct (is_eol x) eqn:Ex.
    - exists [x], run. split_and!; [done|constructor; [by apply eol_not|done]| |].
      + unfold lines at 1. simpl. rewrite Ex, lines_run by done. by apply lines_flush.
      + intros Hn (l & c & E & Hc). destruct run as [|y run _] using rev_ind; [done|].
        rewrite app_comm_cons in E. apply app_inj_tail in E as [_ <-]. apply Forall_app in Hrun as [_ Hy].
        inversion Hy. congruence.
    - exists [], (x :: run). split_and!; [done|constructor| |].
      + unfold lines at 1. simpl. rewrite Ex, lines_run by done. by apply lines_flush.
      + intros _ (l & c & E & Hc). assert (Forall (fun c => is_eol c = false) (x :: run)) as Hall by by constructor.
        rewrite E in Hall. apply Forall_app in Hall as [_ Hy]. inversion Hy. congruence. }
  rewrite El in Hr. apply Forall2_app_inv_l in Hr as (tls1 & tls2 & Hr1 & Hr2 & ->).
  change (S (length run)) with (length (x :: run)). rewrite Epb, <- app_assoc.
  assert (exists t, renders body t /\ omap row_of tls1 = match row_of (F := F) t with Some r => [r] | None => [] end)
    as (t & [Hb Hwf] & Et).
  { destruct body as [|y body].
    - inversion Hr1. exists (mkLine [] []). by repeat split.
    - inversion Hr1 as [|? t ? ? Ht Hnil]; subst. inversion Hnil; subst. exists t. split; [done|].
      simpl. by destruct (row_of t). }
  rewrite Hb. destruct (row_of t) as [r|] eqn:Er.
  - assert (exists c q, s2 ++ rest = c :: q /\ isdigitchars c = false) as (c & q & -> & Hc).
    { destruct s2 as [|c s2]; [|eexists _, _; split; [reflexivity|by apply eol_not]].
      destruct Hsafe as [Hs|[Hs|Hs]]; [done|done|]. rewrite app_nil_r in Hs. exfalso. apply Hnot; [|done].
      intros ->. unfold row_of in Er. destruct t as [lead [|[p sep] fs]]; [done|].
      destruct Hwf as (_ & Hwi & _). cbn [l_items] in Hwi. pose proof (items_head _ Hwi) as Hh. unfold line_bytes in Hb. simpl in Hb.
      symmetry in Hb. apply app_eq_nil in Hb as [_ Hb]. by rewrite Hb in Hh. }
    destruct (parse_line_row pre t r c q out Hpre Hwf Er Hc) as ([p sep] & fs & Ei & E).
    eexists _, tls1, tls2. split; [exact E|]. split_and!; try done. rewrite Et.
    destruct t as [lead its]. simpl in Ei. subst its. by eapply open_row_holds.
  - exists out, tls1, tls2. rewrite parse_line_blank by done. rewrite Et, app_nil_r. done.
Qed.

Lemma parse_lines_ok fuel : forall seg rest (out : Container F) rs tls,
  length seg < fuel -> Forall2 renders (lines seg) tls -> safe_end seg rest -> open_holds out rs ->
  exists out', parse_lines fuel (length seg) (seg ++ rest) out = Ok out' /\ open_holds out' (rs ++ omap row_of tls).
Proof.
  induction fuel as [|fuel IH]; intros seg rest out rs tls Hf Hr Hsafe Ho; [lia|]. cbn [parse_lines].
  destruct seg as [|x s].
  { exists out. inversion Hr. simpl. by rewrite app_nil_r. }
  rewrite decide_False by done.
  destruct (span_prefix (fun c => negb (is_eol c)) s) as (run & s2 & -> & Hrun & Hs2).
  cbn [length app tail]. rewrite Nat.sub_succ, Nat.sub_0_r, length_app, <- app_assoc, advance_ok; [|done|].
  2: { destruct s2; [by left|right; by eexists _, _]. }
  cbn [mbind outcome_bind]. replace (S (length run + length s2) - length s2) with (S (length run)) by lia.
  assert (eol_first s2) as Hs2' by (destruct s2; [done|by apply negb_false_iff]).
  destruct (line_step x run s2 rest tls out rs) as (out' & tls1 & tls2 & E & -> & Hr2 & Ho'); try done.
  { eapply Forall_impl; [exact Hrun|]. intros c Hc. by apply negb_true_iff. }
  cbn [app] in E. rewrite E. cbn [mbind outcome_bind].
  destruct (IH s2 rest out' (rs ++ omap row_of tls1) tls2) as (out2 & E2 & Ho2); try done.
  { simpl in Hf. rewrite length_app in Hf. lia. }
  { destruct Hsafe as [Hs|[Hs|Hs]]; [by left|done|]. right. destruct s2; [by left|right].
    by apply (ends_eol_suffix (x :: run)). }
  exists out2. rewrite omap_app, app_assoc. done.
Qed.

(** [ParseBlock] holds the rows of the lines of its range. *)
Lemma ParseBlock_ok seg rest tls : Forall2 renders (lines seg) tls -> safe_end seg rest ->
  exists c : Container F, ParseBlock (length seg) (seg ++ rest) = Ok c /\ holds c (omap row_of tls).
Proof.
  intros Hr Hs. unfold ParseBlock.
  destruct (parse_lines_ok (length seg + 1) seg rest Clear [] tls) as (out & -> & Ho); try done; [lia|].
  cbn [mbind outcome_bind]. pose proof (open_done _ _ Ho) as Hh. simpl in Hh. set (c := if decide _ then _ else _) in *.
  destruct (holds_sizes _ _ Hh) as (E1 & E2 & _). rewrite check_true by (apply bool_decide_eq_true; lia).
  by exists c.
Qed.

Lemma BackFind_ok hd i : i < length hd ->
  exists j, BackFindEndLine hd i = Ok j /\ j <= i /\ (j = 0 \/ exists c, hd !! j = Some c /\ is_eol c = true).
Proof.
  induction i as [|i IH]; intros Hi; cbn [BackFindEndLine]; [exists 0; by auto|].
  destruct (lookup_lt_is_Some_2 hd (S i)) as [c Hc]; [done|]. rewrite (proj2 (read_at_Ok _ _ _) Hc).
  cbn [mbind outcome_bind]. destruct (is_eol c) eqn:E; [exists (S i); eauto 10|].
  destruct IH as (j & Ej & Hj & Hr); [lia|]. exists j. auto.
Qed.

Lemma BackFind_mono hd i i' j j' : i <= i' -> i' < length hd ->
  BackFindEndLine hd i = Ok j -> BackFindEndLine hd i' = Ok j' -> j <= j'.
Proof.
  intros Hi Hl Ej. revert j'. induction Hi as [|i' Hi IH]; intros j' Ej'; [rewrite Ej in Ej'; injection Ej' as ->; lia|].
  cbn [BackFindEndLine] in Ej'. destruct (lookup_lt_is_Some_2 hd (S i')) as [c Hc]; [done|].
  rewrite (proj2 (read_at_Ok _ _ _) Hc) in Ej'. cbn [mbind outcome_bind] in Ej'. destruct (is_eol c).
  - injection Ej' as <-. destruct (BackFind_ok hd i) as (j2 & E & H & _); [lia|]. rewrite Ej in E. injection E as <-. lia.
  - apply IH; [lia|done].
Qed.

End Blocks.

(** ** The threads of [FillData] *)

Lemma mapO_app {A B} (f : A -> outcome B) l1 l2 :
  mapO f (l1 ++ l2) = (b1 ← mapO f l1; b2 ← mapO f l2; Ok (b1 ++ b2)).
Proof.
  induction l1 as [|a l1 IH]; simpl.
  { by destruct (mapO f l2). }
  destruct (f a); simpl; [|done]. rewrite IH. destruct (mapO f l1); simpl; [|done]. by destruct (mapO f l2).
Qed.

Section Threads.
Context {F : Type} `{HF : !Float F} (chunk : Blob) (nthread : nat).
Hypothesis (Hnt : 0 < nthread) (Hsize : 0 < chunk.(bsize) < length chunk.(dptr)).
Hypothesis chunk_safe : safe_end (blob_bytes chunk) (drop chunk.(bsize) chunk.(dptr)).

Let nstep := (chunk.(bsize) + nthread - 1) / nthread.

(** Where the range of a thread begins. *)
Definition thread_pos (t : nat) : nat :=
  if decide (t = nthread) then chunk.(bsize)
  else match BackFindEndLine chunk.(dptr) (Nat.min (t * nstep) chunk.(bsize)) with Ok j => j | Fail _ => 0 end.

Lemma thread_pos_ok t : t < nthread ->
  BackFindEndLine chunk.(dptr) (Nat.min (t * nstep) chunk.(bsize)) = Ok (thread_pos t) /\
  thread_pos t <= chunk.(bsize) /\
  (thread_pos t = 0 \/ exists c, chunk.(dptr) !! thread_pos t = Some c /\ is_eol c = true).
Proof.
  intros Ht. unfold thread_pos. rewrite decide_False by lia.
  destruct (BackFind_ok (dptr chunk) (Nat.min (t * nstep) (bsize chunk))) as (j & E & Hj & Hr); [lia|].
  rewrite E. split_and!; [done|lia|done].
Qed.

Lemma thread_pos_mono t : t < nthread -> thread_pos t <= thread_pos (t + 1).
Proof.
  intros Ht. destruct (thread_pos_ok t Ht) as (E & Hle & _). destruct (decide (t + 1 = nthread)) as [->|].
  - unfold thread_pos at 2. by rewrite decide_True.
  - destruct (thread_pos_ok (t + 1)) as (E' & _); [lia|].
    eapply BackFind_mono; [| |exact E|exact E']; nia.
Qed.

Lemma thread_pos_first : thread_pos 0 = 0.
Proof. unfold thread_pos. rewrite decide_False by lia. done. Qed.

Lemma parse_thread_eq t : t < nthread ->
  parse_thread (F := F) chunk nthread t =
  ParseBlock (thread_pos (t + 1) - thread_pos t) (drop (thread_pos t) chunk.(dptr)).
Proof.
  intros Ht. unfold parse_thread. fold nstep. destruct (thread_pos_ok t Ht) as (-> & _). cbn [mbind outcome_bind].
  pose proof (thread_pos_mono t Ht). case_decide as Hl.
  - cbn [mbind outcome_bind].
    assert (Nat.min ((t + 1) * nstep) (bsize chunk) = thread_pos (t + 1)) as ->.
    { unfold thread_pos. rewrite decide_True by done. apply Nat.min_r. rewrite Hl. unfold nstep.
      pose proof (Nat.div_mod (bsize chunk + nthread - 1) nthread ltac:(lia)).
      pose proof (Nat.mod_upper_bound (bsize chunk + nthread - 1) nthread ltac:(lia)). nia. }
    rewrite decide_False by lia. done.
  - destruct (thread_pos_ok (t + 1)) as (-> & _); [lia|]. cbn [mbind outcome_bind]. by rewrite decide_False by lia.
Qed.

Abbreviation thread_seg t := (segment (thread_pos t) (thread_pos (t + 1)) (blob_bytes chunk)).

Lemma thread_pos_le t : t <= nthread -> thread_pos t <= bsize chunk.
Proof.
  intros Ht. destruct (decide (t = nthread)) as [->|].
  - unfold thread_pos. by rewrite decide_True.
  - apply thread_pos_ok. lia.
Qed.

Lemma thread_range t : t < nthread ->
  drop (thread_pos t) chunk.(dptr) = thread_seg t ++ drop (thread_pos (t + 1)) chunk.(dptr) /\
  length (thread_seg t) = thread_pos (t + 1) - thread_pos t.
Proof.
  intros Ht. pose proof (thread_pos_mono t Ht). pose proof (thread_pos_le (t + 1) ltac:(lia)).
  assert (length (blob_bytes chunk) = bsize chunk) as Hl by (unfold blob_bytes; rewrite length_take; lia).
  split; [|rewrite segment_length; lia]. unfold segment, blob_bytes. rewrite skipn_firstn_comm, take_take, Nat.min_l by lia.
  rewrite <- (take_drop (thread_pos (t + 1) - thread_pos t) (drop (thread_pos t) (dptr chunk))) at 1.
  f_equal. rewrite drop_drop. f_equal. lia.
Qed.

(** What lies behind the range of a thread is an end of line, or what lies
    behind the chunk. *)
Lemma thread_safe t : t < nthread -> safe_end (thread_seg t) (drop (thread_pos (t + 1)) chunk.(dptr)).
Proof.
  intros Ht. pose proof (thread_pos_mono t Ht) as Hm. destruct (decide (t + 1 = nthread)) as [E|E].
  - assert (thread_pos (t + 1) = bsize chunk) as Hp by (unfold thread_pos; by rewrite decide_True).
    rewrite Hp in *. destruct chunk_safe as [Hs|[Hs|Hs]]; [by left|right; left..|].
    + apply (f_equal length) in Hs. unfold blob_bytes in Hs. rewrite length_take in Hs. simpl in Hs. lia.
    + right. destruct (decide (segment (thread_pos t) (bsize chunk) (blob_bytes chunk) = [])) as [|Hn]; [by left|right].
      apply (ends_eol_suffix (take (thread_pos t) (blob_bytes chunk))); [done|].
      unfold segment. rewrite take_take_drop. rewrite take_ge; [done|]. unfold blob_bytes. rewrite length_take. lia.
  - destruct (thread_pos_ok (t + 1)) as (_ & _ & [Hz|(c & Hc & He)]); [lia| |].
    + right; left. rewrite Hz in *. unfold segment. by replace (0 - _) with 0 by lia.
    + left. exists c, (drop (S (thread_pos (t + 1))) (dptr chunk)). split; [by rewrite (drop_S _ _ _ Hc)|by apply eol_not].
Qed.

Lemma thread_lines t : t < nthread ->
  lines (take (thread_pos (t + 1)) (blob_bytes chunk)) =
  lines (take (thread_pos t) (blob_bytes chunk)) ++ lines (thread_seg t).
Proof.
  intros Ht. pose proof (thread_pos_mono t Ht) as Hm.
  assert (take (thread_pos (t + 1)) (blob_bytes chunk) = take (thread_pos t) (blob_bytes chunk) ++ thread_seg t) as ->.
  { unfold segment. rewrite take_take_drop. f_equal. lia. }
  destruct (thread_pos_ok t Ht) as (_ & Hle & [->|(c & Hc & He)]); [done|]. apply lines_app_eol.
  destruct (thread_seg t) as [|x s] eqn:Es; [done|]. simpl.
  destruct (thread_range t Ht) as [Hr _]. rewrite Es, (drop_S _ _ _ Hc) in Hr. by injection Hr as ->.
Qed.

(** The containers of the first [m] threads hold the rows of their lines. *)
Lemma threads_hold m tls : m <= nthread ->
  Forall2 renders (lines (take (thread_pos m) (blob_bytes chunk))) tls ->
  exists cs rss, mapO (parse_thread (F := F) chunk nthread) (seq 0 m) = Ok cs /\ Forall2 holds cs rss /\
    concat rss = omap row_of tls.
Proof.
  revert tls. induction m as [|m IH]; intros tls Hm Hr.
  { rewrite thread_pos_first in Hr. inversion Hr. exists [], []. by repeat split. }
  rewrite <- Nat.add_1_r, thread_lines in Hr by lia. apply Forall2_app_inv_l in Hr as (t1 & t2 & Hr1 & Hr2 & ->).
  destruct (IH t1) as (cs & rss & E & Hh & Hc); [lia|done|].
  destruct (ParseBlock_ok (F := F) _ _ _ Hr2 (thread_safe m ltac:(lia))) as (c & Ec & Hhc).
  destruct (thread_range m) as [Hd Hl]; [lia|].
  exists (cs ++ [c]), (rss ++ [omap row_of t2]). rewrite seq_S, mapO_app, E. cbn [mbind outcome_bind mapO plus].
  rewrite parse_thread_eq by lia. rewrite Hd, <- Hl, Ec. cbn [mbind outcome_bind]. split_and!; [done| |].
  - apply Forall2_app; [done|]. by constructor.
  - rewrite concat_app, omap_app, Hc. simpl. by rewrite app_nil_r.
Qed.

(** [FillData]: however many threads there are, they find the rows of the lines
    of the chunk. *)
Lemma FillData_ok tls : Forall2 renders (lines (blob_bytes chunk)) tls ->
  exists cs rss, FillData (F := F) nthread chunk = Ok cs /\ Forall2 holds cs rss /\ concat rss = omap row_of tls.
Proof.
  intros Hr. unfold FillData. rewrite check_true by (apply bool_decide_eq_true; lia). cbn [mbind outcome_bind].
  apply threads_hold; [done|]. unfold thread_pos. rewrite decide_True by done.
  by rewrite take_ge by (unfold blob_bytes; rewrite length_take; lia).
Qed.

End Threads.

(** ** The parser as a source of blocks *)

Lemma uniform_app {F} (rs1 rs2 : list (arow (F := F))) : uniform (rs1 ++ rs2) -> uniform rs1 /\ uniform rs2.
Proof. unfold uniform. rewrite !Forall_app. tauto. Qed.

Section Source.
Context {F : Type} `{HF : !Float F} (got : nat -> nat -> nat -> nat).
Hypothesis got_ok : forall f pos n, 0 < n -> 0 < got f pos n <= n.
Implicit Types (p : LibSVMParser F).

(** The containers left hold [rss], the text to come has the lines [tls] and
    ends with an end of line. *)
Record parser_state p (rss : list (list (arow (F := F)))) (tls : list tline) : Prop := {
  ps_thread : 0 < p.(nthread_);
  ps_source : split_ok p.(source_);
  ps_text : to_come p.(source_) = [] \/ ends_eol (to_come p.(source_));
  ps_lines : Forall2 renders (lines (to_come p.(source_))) tls;
  ps_end : p.(data_end_) = length p.(data_);
  ps_data : Forall2 holds (drop p.(data_ptr_) p.(data_)) rss
}.

Lemma ps_left p rss tls : parser_state p rss tls -> p.(data_end_) - p.(data_ptr_) = length rss.
Proof.
  intros [_ _ _ _ He Hd]. apply Forall2_length in Hd. rewrite length_drop in Hd. lia.
Qed.

Lemma next_container_ok rss : forall p tls,
  parser_state p rss tls -> uniform (concat rss) ->
  exists r p', next_container (length rss) p = Ok (r, p') /\ p'.(source_) = p.(source_) /\ p'.(nthread_) = p.(nthread_) /\
    match r with
    | Some b => exists rs rss', rs <> [] /\ concat rss = rs ++ concat rss' /\ shows 0 0 b rs /\ parser_state p' rss' tls
    | None => concat rss = [] /\ parser_state p' [] tls
    end.
Proof.
  induction rss as [|rs rss IH]; intros p tls Hp Hu; cbn [next_container length].
  { exists None, p. by repeat split; try apply Hp. }
  destruct Hp as [H1 H2 H3 H4 H5 H6]. inversion H6 as [|c ? cs ? Hc Hcs Edrop]; subst.
  assert (data_ p !! data_ptr_ p = Some c) as Hlk.
  { rewrite <- (Nat.add_0_r (data_ptr_ p)), <- lookup_drop, <- Edrop. done. }
  rewrite (proj2 (read_at_Ok _ _ _) Hlk). cbn [mbind outcome_bind].
  set (p1 := mkLib _ _ _ _ _ _).
  assert (parser_state p1 rss tls) as Hp1.
  { split; try done. simpl. rewrite <- drop_drop, <- Edrop. done. }
  simpl in Hu. destruct (uniform_app _ _ Hu) as [Hu1 Hu2]. destruct (holds_sizes _ _ Hc) as (E1 & _).
  unfold Size. rewrite E1. case_decide as Hz.
  - destruct (GetBlock_shows c rs Hc Hu1) as (b & -> & Hb). cbn [mbind outcome_bind].
    exists (Some b), p1. split_and!; try done. exists rs, rss. split_and!; try done. by intros ->.
  - destruct rs; [|simpl in Hz; lia]. destruct (IH p1 tls Hp1 Hu2) as (r & p' & E & Hs & Hn & Hr).
    by exists r, p'.
Qed.

(** [ParseNext] takes a chunk of the text, all of whose lines end in it. *)
Lemma ParseNext_ok p tls : parser_state p [] tls ->
  exists more p', ParseNext got p = Ok (more, p') /\
    if more : bool then
      length (to_come p'.(source_)) < length (to_come p.(source_)) /\
      exists rss' tls1 tls2, tls = tls1 ++ tls2 /\ concat rss' = omap row_of tls1 /\
        parser_state (mkLib p'.(nthread_) p'.(bytes_read_) p'.(source_) 0 (length p'.(data_)) p'.(data_)) rss' tls2
    else tls = [] /\ parser_state p' [] [].
Proof.
  intros [H1 H2 H3 H4 H5 H6]. unfold ParseNext.
  destruct (NextChunk_ok got got_ok (source_ p) H2 (line_whole _)) as (r & src & -> & Hok & Hsame & Hr). cbn [mbind outcome_bind].
  destruct r as [b|].
  - destruct Hr as (Hb & Htc & _ & _ & Hend).
    assert (length (blob_bytes b) = bsize b) as Hlb by (unfold blob_bytes; rewrite length_take; lia).
    assert (ends_eol (blob_bytes b)) as Heol.
    { destruct Hend as [He|]; [|done]. rewrite He, app_nil_r in Htc. rewrite <- Htc.
      destruct H3 as [H3|]; [|done]. rewrite H3 in Htc. rewrite <- Htc in Hlb. simpl in Hlb. lia. }
    rewrite Htc, lines_app in H4 by done. apply Forall2_app_inv_l in H4 as (tls1 & tls2 & Hr1 & Hr2 & ->).
    destruct (FillData_ok (F := F) b (nthread_ p) H1 Hb) with (tls := tls1) as (cs & rss & -> & Hh & Hc);
      [by right; right|done|].
    cbn [mbind outcome_bind]. eexists true, _. split; [done|]. simpl. rewrite Htc, length_app. split; [lia|].
    exists rss, tls1, tls2. split_and!; try done. split; simpl; try done.
    destruct (decide (to_come src = [])) as [|Hn]; [by left|right]. destruct H3 as [H3|H3].
    + rewrite H3 in Htc. symmetry in Htc. apply app_eq_nil in Htc as [_ ?]. done.
    + rewrite Htc in H3. by apply ends_eol_suffix in H3.
  - destruct Hr as [E1 E2]. eexists false, _. split; [done|]. rewrite E1 in H4. inversion H4; subst. split; [done|].
    split; simpl; try done; rewrite E2; [by left|constructor].
Qed.

Lemma next_block_ok fuel : forall p rss tls,
  parser_state p rss tls -> uniform (concat rss ++ omap row_of tls) -> length (to_come p.(source_)) < fuel ->
  exists r p', next_block got fuel p = Ok (r, p') /\
    match r with
    | Some b => exists rs rss' tls', rs <> [] /\ shows 0 0 b rs /\
        concat rss ++ omap row_of tls = rs ++ concat rss' ++ omap row_of tls' /\ parser_state p' rss' tls'
    | None => concat rss ++ omap row_of tls = [] /\ parser_state p' [] []
    end.
Proof.
  induction fuel as [|fuel IH]; intros p rss tls Hp Hu Hf; [lia|]. cbn [next_block].
  rewrite (ps_left _ _ _ Hp). destruct (uniform_app _ _ Hu) as [Hu1 Hu2].
  destruct (next_container_ok rss p tls Hp Hu1) as (r & p1 & -> & Hs & _ & Hr). cbn [mbind outcome_bind].
  destruct r as [b|].
  - destruct Hr as (rs & rss' & Hn & Hc & Hb & Hp1). exists (Some b), p1. split; [done|].
    exists rs, rss', tls. rewrite Hc, <- app_assoc. by split_and!.
  - destruct Hr as [Hc Hp1]. rewrite Hc. simpl. destruct (ParseNext_ok p1 tls Hp1) as (more & p2 & -> & Hm).
    cbn [mbind outcome_bind]. destruct more.
    + destruct Hm as (Hlt & rss' & tls1 & tls2 & -> & Hc' & Hp2). rewrite Hs in Hlt.
      rewrite omap_app, <- Hc' in *. eapply IH; [exact Hp2|done|simpl; lia].
    + destruct Hm as [-> Hp2]. by exists None, p2.
Qed.

Lemma parser_next_ok p rss tls :
  parser_state p rss tls -> uniform (concat rss ++ omap row_of tls) ->
  exists r p', parser_next got p = Ok (r, p') /\
    match r with
    | Some b => exists rs rss' tls', rs <> [] /\ shows 0 0 b rs /\
        concat rss ++ omap row_of tls = rs ++ concat rss' ++ omap row_of tls' /\ parser_state p' rss' tls'
    | None => concat rss ++ omap row_of tls = [] /\ parser_state p' [] []
    end.
Proof.
  intros Hp Hu. apply next_block_ok; [done..|]. pose proof (to_come_length _ (ps_source _ _ _ Hp)). lia.
Qed.

(** The blocks the parser gives show the rows [bs]. *)
Fixpoint parser_rows p (bs : list (list (arow (F := F)))) : Prop :=
  match bs with
  | [] => parser_state p [] [] \/ exists rss tls, parser_state p rss tls /\ concat rss ++ omap row_of tls = []
  | rs :: bs => exists b p', parser_next got p = Ok (Some b, p') /\ shows 0 0 b rs /\ parser_rows p' bs
  end.

Lemma parser_rows_end p : parser_rows p [] -> exists p', parser_next got p = Ok (None, p') /\ parser_rows p' [].
Proof.
  intros Hp. assert (exists rss tls, parser_state p rss tls /\ concat rss ++ omap row_of tls = []) as (rss & tls & Hs & He).
  { destruct Hp as [Hp|]; [|done]. by exists [], []. }
  destruct (parser_next_ok p rss tls Hs) as (r & p' & -> & Hr).
  { rewrite He. repeat constructor. }
  destruct r as [b|].
  - destruct Hr as (rs & rss' & tls' & Hn & _ & Hc & _). rewrite He in Hc. symmetry in Hc.
    by apply app_eq_nil in Hc as [? _].
  - exists p'. split; [done|]. left. by apply Hr.
Qed.

#[program] Definition LibSVM_laws : SourceLaws (F := F) (BlockSource0 := LibSVM_source got) (LibSVMParser F) :=
  {| src_rows := parser_rows |}.
Next Obligation.
  intros p rs bs (b & p' & E & Hb & Hr). exists b, p'. cbn. rewrite E. done.
Qed.
Next Obligation.
  intros p Hp. destruct (parser_rows_end p Hp) as (p' & E & Hp'). exists p'. cbn. rewrite E. done.
Qed.

(** The parser gives all rows in blocks that are not empty. *)
Lemma parser_gives n : forall p rss tls,
  parser_state p rss tls -> uniform (concat rss ++ omap row_of tls) -> length (concat rss ++ omap row_of tls) <= n ->
  exists bs, parser_rows p bs /\ concat bs = concat rss ++ omap row_of tls /\ length bs <= n.
Proof.
  induction n as [|n IH]; intros p rss tls Hp Hu Hn.
  { exists []. assert (concat rss ++ omap row_of tls = []) as -> by (apply nil_length_inv; lia).
    split_and!; [|done|simpl; lia]. right. exists rss, tls. split; [done|]. apply nil_length_inv. lia. }
  destruct (parser_next_ok p rss tls Hp Hu) as (r & p' & E & Hr). destruct r as [b|].
  - destruct Hr as (rs & rss' & tls' & Hne & Hb & Hc & Hp'). rewrite Hc in Hu, Hn |- *.
    rewrite length_app in Hn. destruct (uniform_app _ _ Hu) as [_ Hu'].
    destruct (IH p' rss' tls' Hp' Hu') as (bs & Hbs & Hcb & Hl).
    { destruct rs; [done|simpl in Hn; lia]. }
    exists (rs :: bs). simpl. rewrite Hcb. split_and!; [|done|lia]. by exists b, p'.
  - destruct Hr as [Hz _]. exists []. rewrite Hz. split_and!; [|done|simpl; lia]. right. by exists rss, tls.
Qed.

End Source.

(** ** From files of text to minibatches *)

Lemma digits_range m v v' m' :
  (0 <= v < 2 ^ 64)%Z -> digits (fun v d => u64 (v * 10 + d)) v m = Ok (v', m') -> (0 <= v' < 2 ^ 64)%Z.
Proof.
  revert v. induction m as [|c m IH]; intros v Hv E; simpl in E; [done|].
  destruct (isdigit c); [|by simplify_eq]. eapply IH; [apply u64_range|exact E].
Qed.

Lemma tok_index_range t : (0 <= tok_index t < 2 ^ 64)%Z.
Proof.
  unfold tok_index. destruct (strtouint (t ++ [Byte.x00])) eqn:E; [|lia]. unfold strtouint in E. ok_inv.
  repeat match goal with x : (_ * _)%type |- _ => destruct x end. ok_inv.
  repeat match goal with x : (_ * _)%type |- _ => destruct x end. ok_inv.
  eapply digits_range; [|eassumption]. lia.
Qed.

Section Text.
Context {F : Type} `{HF : !Float F} (kBufferSize : nat) (got : nat -> nat -> nat -> nat).
Context (rand : nat -> Z) (random_shuffle : nat -> list nat -> list nat).
Hypothesis (Hbuf : 0 < kBufferSize) (got_ok : forall f pos n, 0 < n -> 0 < got f pos n <= n).
Hypothesis shuffle_perm : forall n l, random_shuffle n l ≡ₚ l.

(** The largest [uint64_t]. *)
Definition feature_max : Z := 18446744073709551615.

Lemma text_in_range tls : in_range feature_max (omap (row_of (F := F)) tls).
Proof.
  apply Forall_forall. intros r Hr. apply list_elem_of_omap in Hr as (t & _ & Et). unfold row_of in Et.
  destruct (l_items t) as [|[p sep] fs]; [done|]. injection Et as <-. simpl. apply Forall_map, Forall_forall.
  intros it _. pose proof (tok_index_range it.1.(t_key)). unfold feature_max. lia.
Qed.

Lemma uniform_values (rs : list (arow (F := F))) : uniform rs -> values_uniform rs.
Proof. by intros [? _]. Qed.

(** One worker: the minibatches of its part of the text. *)
Definition worker_batches (found : list (list byte)) (rank nsplit nthread mb_size fuel calls : nat) (ns : F)
  : outcome (option (list (RowBlock F))) :=
  s ← Init kBufferSize found rank nsplit 1;
  batches (BlockSource0 := LibSVM_source got) feature_max rand random_shuffle fuel calls
    (new_iter (new_LibSVMParser s nthread) mb_size 0 ns).

Lemma worker_text found rank nsplit nthread mb_size fuel calls ns tls :
  let files := InitInputFileInfo found in
  0 < nsplit -> 0 < nthread -> 0 < mb_size -> (Z.of_nat mb_size + 1 < 2 ^ 32)%Z ->
  let text := segment (edge files nsplit 1 rank) (edge files nsplit 1 (rank + 1)) (concat files) in
  text = [] \/ ends_eol text -> Forall2 renders (lines text) tls -> uniform (omap (row_of (F := F)) tls) ->
  length (omap (row_of (F := F)) tls) + 2 <= fuel -> length (omap (row_of (F := F)) tls) < calls ->
  exists bs outs, worker_batches found rank nsplit nthread mb_size fuel calls ns = Ok (Some bs) /\
    Forall2 (shows 0 0) bs outs /\ Forall2 (reweighted []) (omap (row_of (F := F)) tls) (concat outs) /\ sized mb_size outs.
Proof.
  intros files Hn Ht Hmb Hmb2 text Heol Hr Hu Hf Hc. unfold worker_batches.
  destruct (Init_ok 1 line_align kBufferSize Hbuf found rank nsplit Hn) as (s & -> & Hok & _ & _ & Htc).
  { apply Forall_forall. intros. apply Nat.mod_1_r. }
  { apply line_files. }
  fold files in Htc. fold text in Htc. cbn [mbind outcome_bind].
  destruct (parser_gives got got_ok (length (omap (row_of (F := F)) tls)) (new_LibSVMParser s nthread) [] tls)
    as (bs & Hbs & Hcb & Hl); [|done|done|].
  { split; simpl; try done; by rewrite Htc. }
  simpl in Hcb.
  destruct (pass_over_source feature_max rand random_shuffle shuffle_perm
    (BlockSource0 := LibSVM_source got) (SourceLaws0 := LibSVM_laws got got_ok)
    (new_LibSVMParser s nthread) bs mb_size ns fuel calls) as (blks & outs & E & Hsh & Hrow & Hsz); try done; try lia.
  - rewrite Hcb. apply text_in_range.
  - rewrite Hcb. by apply uniform_values.
  - rewrite Hcb. lia.
  - exists blks, outs. by rewrite <- Hcb.
Qed.

Lemma part_ends files nsplit r :
  Forall (fun f => length f <> 0) files -> Forall ends_eol files ->
  let text := segment (edge files nsplit 1 r) (edge files nsplit 1 (r + 1)) (concat files) in
  text = [] \/ ends_eol text.
Proof.
  intros Hne He text. destruct (decide (text = [])) as [|Hn]; [by left|right].
  destruct (edge_ok 1 line_align files nsplit (r + 1) (line_files files)) as (_ & Hle & Hat).
  pose proof (edge_mono 1 line_align files nsplit r (line_files files)) as Hm.
  assert (take (edge files nsplit 1 (r + 1)) (concat files) = take (edge files nsplit 1 r) (concat files) ++ text) as Et.
  { unfold text, segment. rewrite take_take_drop. f_equal. lia. }
  eapply ends_eol_suffix; [exact Hn|]. rewrite <- Et.
  assert (files_end_lines files) as Hfe.
  { intros i f Hf _. rewrite Forall_forall in He. apply He. by eapply list_elem_of_lookup_2. }
  destruct (at_record_lines files _ Hne Hfe Hat) as [E|[E|E]]; [| |done].
  - rewrite E in Et. simpl in Et. symmetry in Et. by apply app_eq_nil in Et as [_ ?].
  - rewrite take_ge by lia. assert (files <> []) as Hf.
    { intros ->. apply Hn. unfold text, segment. cbn [concat]. by rewrite drop_nil, take_nil. }
    clear -He Hf. destruct files as [|f files _] using rev_ind; [done|].
    rewrite concat_app. simpl. rewrite app_nil_r. apply ends_eol_app. apply Forall_app in He as [_ He]. by inversion He.
Qed.

Lemma workers_text found nsplit nthread mb_size fuel calls ns m : forall tls,
  let files := InitInputFileInfo found in
  0 < nsplit -> 0 < nthread -> 0 < mb_size -> (Z.of_nat mb_size + 1 < 2 ^ 32)%Z -> Forall ends_eol files ->
  Forall2 renders (lines (take (edge files nsplit 1 m) (concat files))) tls -> uniform (omap (row_of (F := F)) tls) ->
  length (omap (row_of (F := F)) tls) + 2 <= fuel -> length (omap (row_of (F := F)) tls) < calls ->
  exists outs,
    Forall2 (fun rank o => exists bs, worker_batches found rank nsplit nthread mb_size fuel calls ns = Ok (Some bs) /\
      Forall2 (shows 0 0) bs o /\ sized mb_size o) (seq 0 m) outs /\
    Forall2 (reweighted []) (omap (row_of (F := F)) tls) (concat (concat outs)).
Proof.
  induction m as [|m IH]; intros tls files Hn Ht Hmb Hmb2 He Hr Hu Hf Hc.
  { exists []. rewrite edge_first in Hr. inversion Hr. split; constructor. }
  assert (Forall (fun f : list byte => length f <> 0) files) as Hne.
  { apply Forall_forall. intros f Hin. by apply list_elem_of_filter in Hin as []. }
  replace (S m) with (m + 1) in Hr by lia. rewrite parts_lines in Hr; [|done|].
  2: { intros i f Hi _. rewrite Forall_forall in He. apply He. by eapply list_elem_of_lookup_2. }
  apply Forall2_app_inv_l in Hr as (t1 & t2 & Hr1 & Hr2 & ->). rewrite omap_app in *.
  destruct (uniform_app _ _ Hu) as [Hu1 Hu2]. rewrite length_app in Hf, Hc.
  destruct (IH t1 Hn Ht Hmb Hmb2 He Hr1 Hu1) as (outs & Houts & Hrows); [lia..|].
  destruct (worker_text found m nsplit nthread mb_size fuel calls ns t2 Hn Ht Hmb Hmb2) as (bs & o & E & Hsh & Hrow & Hsz);
    [by apply part_ends|done|done|lia|lia|].
  exists (outs ++ [o]). rewrite seq_S, !concat_app. simpl. rewrite app_nil_r. split; [|by apply Forall2_app].
  apply Forall2_app; [done|]. constructor; [|constructor]. by exists bs.
Qed.


End Text.

(** ** Feature ids in decimal *)

Definition digit_byte (d : Z) : byte := byte.of_Z (48 + d).

Fixpoint dec_digits (fuel : nat) (z : Z) (acc : list byte) : list byte :=
  match fuel with
  | 0 => acc
  | S fuel =>
      if (z <? 10)%Z then digit_byte z :: acc
      else dec_digits fuel (z / 10) (digit_byte (z mod 10) :: acc)
  end.
Definition print_dec (z : Z) : list byte := dec_digits 20 z [].

Lemma digit_byte_ok d : (0 <= d < 10)%Z -> isdigit (digit_byte d) = true /\ (chr (digit_byte d) - 48 = d)%Z.
Proof.
  intros Hd. unfold isdigit, chr, digit_byte. rewrite byte.unsigned_of_Z. unfold byte.wrap.
  rewrite Z.mod_small by lia. split; [|lia]. apply andb_true_iff. split; apply Z.leb_le; lia.
Qed.

Lemma digits_dec fuel z acc : (0 <= z < 2 ^ 64)%Z -> (z < 10 ^ Z.of_nat fuel)%Z -> 0 < fuel ->
  digits (fun v d => u64 (v * 10 + d)) 0%Z (dec_digits fuel z acc) = digits (fun v d => u64 (v * 10 + d)) z acc.
Proof.
  revert z acc. induction fuel as [|fuel IH]; intros z acc Hz Hf Hpos; [lia|]. cbn [dec_digits].
  destruct (Z.ltb_spec z 10).
  - destruct (digit_byte_ok z) as [H1 H2]; [lia|]. cbn [digits]. rewrite H1, H2. f_equal. apply u64_small. lia.
  - pose proof (Z.div_mod z 10 ltac:(lia)) as Hdm. pose proof (Z.mod_pos_bound z 10 ltac:(lia)) as Hm.
    rewrite Nat2Z.inj_succ, Z.pow_succ_r in Hf by lia.
    assert (z / 10 < 10 ^ Z.of_nat fuel)%Z by (apply Z.div_lt_upper_bound; lia).
    assert (fuel <> 0) by (intros ->; simpl in *; lia).
    rewrite IH by lia. destruct (digit_byte_ok (z mod 10)) as [Hd1 Hd2]; [lia|]. cbn [digits]. rewrite Hd1, Hd2.
    f_equal. rewrite u64_small by lia. lia.
Qed.

Lemma dec_digits_app fuel z acc rest : dec_digits fuel z acc ++ rest = dec_digits fuel z (acc ++ rest).
Proof. revert z acc. induction fuel as [|fuel IH]; intros z acc; simpl; [done|]. by destruct (z <? 10)%Z. Qed.

Lemma dec_digits_first fuel z acc : (0 <= z)%Z -> 0 < fuel ->
  exists x l, dec_digits fuel z acc = x :: l /\ isdigit x = true.
Proof.
  revert z acc. induction fuel as [|fuel IH]; intros z acc Hz Hf; [lia|]. cbn [dec_digits].
  destruct (Z.ltb_spec z 10); [eexists _, _; split; [done|]; apply digit_byte_ok; lia|].
  destruct fuel as [|fuel]; [|apply IH; [apply Z.div_pos; lia|lia]].
  eexists _, _. split; [done|]. apply digit_byte_ok. apply Z.mod_pos_bound. lia.
Qed.

(** A feature id printed in decimal is read back, whatever follows it. *)
Lemma strtouint_print z c rest : (0 <= z < 2 ^ 64)%Z -> isdigit c = false ->
  strtouint (print_dec z ++ c :: rest) = Ok z.
Proof.
  intros Hz Hc. unfold print_dec. rewrite dec_digits_app. cbn [app].
  destruct (dec_digits_first 20 z (c :: rest)) as (x & l & E & Hx); [lia..|].
  pose proof (digits_dec 20 z (c :: rest) Hz ltac:(lia) ltac:(lia)) as Hd. rewrite E in Hd |- *.
  assert (isspace x = false /\ Byte.eqb x Byte.x2d = false /\ Byte.eqb x Byte.x2b = false) as (H1 & H2 & H3).
  { pose proof (all_bytes_check (fun c => implb (isdigit c)
      (negb (isspace c) && negb (Byte.eqb c Byte.x2d) && negb (Byte.eqb c Byte.x2b))) eq_refl x) as Ha.
    simpl in Ha. rewrite Hx in Ha. simpl in Ha. rewrite !andb_true_iff, !negb_true_iff in Ha. tauto. }
  unfold strtouint. cbn [skip_mem]. rewrite H1. cbn [mbind outcome_bind]. unfold get_sign.
  cbn [peek read_at lookup list_lookup mbind outcome_bind]. rewrite H2, H3. cbn [mbind outcome_bind check].
  rewrite Hd. cbn [digits]. by rewrite Hc.
Qed.

(** ** Examples *)

Definition str (s : string) : list byte := String.list_byte_of_string s.
Definition nl : list byte := [Byte.x0a].

(** Two files and two workers; the lines with their grammar. *)
Definition ex_text : list (list byte) := [str "1 3:2 7:1" ++ [Byte.x0d] ++ nl ++ str "0 4:5" ++ nl; str "1 3:1 9:2" ++ nl].
Definition item (k v sep : string) : tpair * list byte := (mkPair (str k) (Some ([], [], str v)), str sep).
Definition ex_lines : list tline :=
  [mkLine [] [(mkPair (str "1") None, str " "); item "3" "2" " "; item "7" "1" ""];
   mkLine [] [(mkPair (str "0") None, str " "); item "4" "5" ""];
   mkLine [] [(mkPair (str "1") None, str " "); item "3" "1" " "; item "9" "2" ""]].

Ltac solve_chars := repeat first [split | constructor | discriminate | reflexivity].

Lemma ex_renders : Forall2 renders (lines (concat ex_text)) ex_lines.
Proof.
  vm_compute lines. unfold ex_lines.
  repeat (constructor; [split; [vm_compute; reflexivity|]|]); try constructor.
  all: unfold wf_line; simpl; unfold wf_pair, token, filler, no_minus; simpl; try solve_chars; try done.
Qed.

Abbreviation Qrow_of := (row_of (HF := Qfloat)).


(** ** Where the text is not read as it stands *)

Abbreviation Qstrtof := (strtof (HF := Qfloat)).

(** More than nine digits after the point overflow the [unsigned] counters:
    0.12345678901 is read as 3.08... *)
Example fraction_overflow :
  exists v, Qstrtof (str "0.12345678901 ") = Ok v /\ QArith_base.Qle (QArith_base.inject_Z 3) v.
Proof. eexists. split; [vm_compute; reflexivity|]. vm_compute. discriminate. Qed.

(** A colon without a value takes the value from the next line. *)
Example value_from_next_line :
  exists c, ParseBlock (HF := Qfloat) 11 (str "1 3:" ++ nl ++ str "5 4:2" ++ nl ++ nl) = Ok c /\
    index c = [3; 4]%Z /\ map (fun v => Qreduction.Qred v) (value c) = [QArith_base.inject_Z 5; QArith_base.inject_Z 2].
Proof. eexists. split_and!; (vm_compute; reflexivity). Qed.

(** A last line without an end of line is read together with what an earlier
    chunk left in memory behind it: the label 8 becomes 8234567. *)
Example stale_memory_parsed :
  exists b1 b2 c, read_part 1 ex_got [str "1234567" ++ nl ++ str "8"] 0 1 1 = Ok [b1; b2] /\
    blob_bytes b2 = str "8" /\ FillData (HF := Qfloat) 1 b2 = Ok [c] /\
    map (fun v => Qreduction.Qred v) (label c) = [QArith_base.inject_Z 8234567].
Proof.
  exists (mkBlob (str "1234567" ++ nl ++ replicate 8 Byte.x00) 8),
    (mkBlob (str "8234567" ++ nl ++ replicate 8 Byte.x00) 1),
    (mkCont [0; 0] [QArith_base.inject_Z 8234567] [] [] [] 0).
  split_and!; vm_compute; reflexivity.
Qed.

(** A line in which some items have values and some have not ends the process. *)
Example mixed_values_abort :
  (s ← Init 4 [str "1 3 4:2" ++ nl] 0 1 1; parser_next (HF := Qfloat) ex_got (new_LibSVMParser s 1)) = Fail CheckFailed.
Proof. vm_compute. reflexivity. Qed.

(** [BeforeFirst] keeps the blocks of the chunk that was parsed last: the second
    pass begins with the rest of the first. *)
Example before_first_keeps_blocks :
  (s ← Init 4 [str "1 3:2" ++ nl ++ str "0 4:2" ++ nl] 0 1 1;
   '(b1, p1) ← parser_next (HF := Qfloat) ex_got (new_LibSVMParser s 2);
   p2 ← parser_before_first p1;
   '(b2, _) ← parser_next (HF := Qfloat) ex_got p2;
   Ok (option_map b_index b1, option_map b_index b2)) = Ok (Some (Some [3]%Z), Some (Some [4]%Z)).
Proof. vm_compute. reflexivity. Qed.
