(* ===== verification/RecordIO.v ===== *)
(** * Records of bytes

    Models src/dmlc-core/src/recordio.cc, include/dmlc/recordio.h and
    io/recordio_split.cc: a format for sequences of byte strings in which the
    beginning of a record can be found from anywhere.  A record is written as
    parts, each a magic number, a word with a flag and a length, and the bytes;
    where the magic number is in the data the record is cut, so that it is found
    at the beginnings of parts only. *)
From S2P Require Import Prelude Stream KVStore InputSplit.

#[local] Instance byte_dec : EqDecision byte := Byte.byte_eq_dec.

(** ** The words *)

(** [RecordIOWriter::kMagic], and how it is in memory. *)
Definition kMagic : Z := 0xced7230a.
Definition magic : list byte := le_split 4 kMagic.

Definition EncodeLRec (cflag length : Z) : Z := Z.lor (u32 (Z.shiftl cflag 29)) length.
Definition DecodeFlag (rec : Z) : Z := Z.land (Z.shiftr rec 29) 7.
Definition DecodeLength (rec : Z) : Z := Z.land rec (Z.shiftl 1 29 - 1).

(** [((len + 3U) >> 2U) << 2U] and [(len >> 2U) << 2U] *)
Definition upper_align (len : nat) : nat := (len + 3) / 4 * 4.
Definition lower_align (len : nat) : nat := len / 4 * 4.

(** [n] bytes of memory from [i] on, and the word there. *)
Definition bytes_at (buf : list byte) (i n : nat) : outcome (list byte) :=
  if decide (i + n <= length buf) then Ok (segment i (i + n) buf) else Fail OutOfRange.
Definition word_at (buf : list byte) (i : nat) : outcome Z :=
  b ← bytes_at buf i 4; Ok (le_combine b).

(** ** [RecordIOWriter] *)

Section Writer.
Context {T : Type} `{!Stream T}.

Record RecordIOWriter := mkWriter { stream_ : T; except_counter_ : nat }.

(** What is written of one part but for the padding. *)
Definition write_part (cflag : Z) (data : list byte) (fo : T) : outcome T :=
  fo ← Write magic fo;
  fo ← Write (le_split 4 (EncodeLRec cflag (Z.of_nat (length data)))) fo;
  if decide (data = []) then Ok fo else Write data fo.

(** One iteration of the loop, at the word [i]; the state is [dptr], the stream
    and the counter. *)
Definition write_step (buf : list byte) (st : nat * T * nat) (i : nat) : outcome (nat * T * nat) :=
  let '(dptr, fo, cnt) := st in
  w ← bytes_at buf i 4;
  if decide (w = magic) then
    fo ← write_part (if decide (dptr = 0) then 1 else 2) (segment dptr i buf) fo;
    Ok (i + 4, fo, cnt + 1)
  else Ok st.

Definition WriteRecord (buf : list byte) (w : RecordIOWriter) : outcome RecordIOWriter :=
  _ ← check (bool_decide (Z.of_nat (length buf) < Z.shiftl 1 29)%Z);
  let len := length buf in
  '(dptr, fo, cnt) ← foldM (write_step buf) (map (fun k => 4 * k) (seq 0 (lower_align len / 4)))
    (0, w.(stream_), w.(except_counter_));
  fo ← write_part (if decide (dptr = 0) then 0 else 3) (segment dptr len buf) fo;
  fo ← (if decide (upper_align len = len) then Ok fo
        else Write (replicate (upper_align len - len) Byte.x00) fo);
  Ok (mkWriter fo cnt).

End Writer.
Arguments RecordIOWriter T : clear implicits.

(** ** [RecordIOReader] *)

Section Reader.
Context {T : Type} `{!Stream T}.

Record RecordIOReader := mkReader { r_stream_ : T; end_of_stream_ : bool }.

(** The loop of [NextRecord]; [out] is [out_rec], of length [size]. *)
Fixpoint next_parts (fuel : nat) (fi : T) (out : list byte) : outcome (option (list byte) * RecordIOReader) :=
  match fuel with
  | 0 => Fail OutOfFuel
  | S fuel =>
      '(header, fi) ← Stream.Read 8 fi;
      if decide (header = []) then Ok (None, mkReader fi true) else
      _ ← check (bool_decide (length header = 8));
      _ ← check (bool_decide (le_combine (take 4 header) = kMagic));
      let cflag := DecodeFlag (le_combine (drop 4 header)) in
      let len := Z.to_nat (DecodeLength (le_combine (drop 4 header))) in
      '(b, fi) ← (if decide (upper_align len = 0) then Ok ([], fi) else
                  '(b, fi) ← Stream.Read (upper_align len) fi;
                  _ ← check (bool_decide (length b = upper_align len));
                  Ok (b, fi));
      let out := out ++ take len b in
      if bool_decide (cflag = 0%Z) || bool_decide (cflag = 3%Z) then Ok (Some out, mkReader fi false)
      else next_parts fuel fi (out ++ magic)
  end.

Definition RNextRecord (fuel : nat) (r : RecordIOReader) : outcome (option (list byte) * RecordIOReader) :=
  if r.(end_of_stream_) then Ok (None, r) else next_parts fuel r.(r_stream_) [].

End Reader.
Arguments RecordIOReader T : clear implicits.

(** ** [RecordIOChunkReader] *)

(** The beginning of a record: the magic number, and a flag of 0 or 1. *)
Definition is_head (buf : list byte) (p : nat) : outcome bool :=
  w0 ← word_at buf p;
  if decide (w0 = kMagic) then
    w1 ← word_at buf (p + 4);
    let cflag := DecodeFlag w1 in Ok (bool_decide (cflag = 0%Z) || bool_decide (cflag = 1%Z))
  else Ok false.

(** [FindNextRecordIOHead(begin, end)], with [n] words to look at; [addr] is
    where the chunk is in memory. *)
Fixpoint find_head (buf : list byte) (n p e : nat) : outcome nat :=
  match n with
  | 0 => Ok e
  | S n => h ← is_head buf p; if (h : bool) then Ok p else find_head buf n (p + 4) e
  end.

Definition FindNextRecordIOHead (addr : nat) (buf : list byte) (b e : nat) : outcome nat :=
  _ ← check (bool_decide ((addr + b) mod 4 = 0));
  _ ← check (bool_decide ((addr + e) mod 4 = 0));
  find_head buf ((e - b) / 4 - 1) b e.

Record RecordIOChunkReader := mkCR { cr_chunk : list byte; temp_ : list byte; pbegin_ : nat; pend_ : nat }.

Definition new_ChunkReader (addr : nat) (chunk : list byte) (part_index num_parts : nat) : outcome RecordIOChunkReader :=
  if decide (num_parts = 0) then Fail DivByZero else
  let size := length chunk in
  let nstep := upper_align ((size + num_parts - 1) / num_parts) in
  let b := Nat.min size (nstep * part_index) in
  let e := Nat.min size (nstep * (part_index + 1)) in
  pb ← FindNextRecordIOHead addr chunk b size;
  pe ← FindNextRecordIOHead addr chunk e size;
  Ok (mkCR chunk [] pb pe).

(** The loop that joins the parts of a record in [temp_]. *)
Fixpoint join_parts (fuel : nat) (buf : list byte) (pbegin pend : nat) (temp : list byte) : outcome (list byte * nat) :=
  match fuel with
  | 0 => Fail OutOfFuel
  | S fuel =>
      _ ← check (bool_decide (pbegin + 8 <= pend));
      w0 ← word_at buf pbegin;
      _ ← check (bool_decide (w0 = kMagic));
      w1 ← word_at buf (pbegin + 4);
      let clen := Z.to_nat (DecodeLength w1) in
      b ← bytes_at buf (pbegin + 8) clen;
      let temp := temp ++ b in
      let pbegin := pbegin + 8 + upper_align clen in
      if decide (DecodeFlag w1 = 3%Z) then Ok (temp, pbegin) else join_parts fuel buf pbegin pend (temp ++ magic)
  end.

(** [RecordIOChunkReader::NextRecord(out_rec)] *)
Definition CNextRecord (r : RecordIOChunkReader) : outcome (option Blob * RecordIOChunkReader) :=
  if decide (r.(pend_) <= r.(pbegin_)) then Ok (None, r) else
  w0 ← word_at r.(cr_chunk) r.(pbegin_);
  _ ← check (bool_decide (w0 = kMagic));
  w1 ← word_at r.(cr_chunk) (r.(pbegin_) + 4);
  let cflag := DecodeFlag w1 in
  let clen := Z.to_nat (DecodeLength w1) in
  if decide (cflag = 0%Z) then
    let p := r.(pbegin_) + 8 + upper_align clen in
    _ ← check (bool_decide (p <= r.(pend_)));
    Ok (Some (mkBlob (drop (r.(pbegin_) + 8) r.(cr_chunk)) clen), mkCR r.(cr_chunk) r.(temp_) p r.(pend_))
  else
    _ ← check (bool_decide (cflag = 1%Z));
    '(temp, p) ← join_parts (length r.(cr_chunk)) r.(cr_chunk) r.(pbegin_) r.(pend_) [];
    Ok (Some (mkBlob temp (length temp)), mkCR r.(cr_chunk) temp p r.(pend_)).

(** A reader of all the records of its part. *)
Fixpoint read_records (fuel : nat) (r : RecordIOChunkReader) : outcome (list (list byte)) :=
  match fuel with
  | 0 => Fail OutOfFuel
  | S fuel =>
      '(b, r) ← CNextRecord r;
      match b with
      | None => Ok []
      | Some b => rs ← read_records fuel r; Ok (blob_bytes b :: rs)
      end
  end.

(** ** [RecordIOSplitter] *)

Section Splitter.
(** What the stack holds where [v] and [lrec] are. *)
Context (junk_v junk_lrec : list byte).

(** A read into a word of memory; a stream gives a word whole, unless it ends. *)
Definition read_word (old fi : list byte) : list byte * list byte :=
  let b := take 4 fi in (b ++ drop (length b) old, drop 4 fi).

(** The loop of [SeekRecordBegin(fi)], on what is left of the stream. *)
Fixpoint seek_head (fuel : nat) (v lrec : list byte) (nstep : nat) (fi : list byte) : outcome nat :=
  match fuel with
  | 0 => Fail OutOfFuel
  | S fuel =>
      if decide (fi = []) then Ok nstep else
      let '(v, fi) := read_word v fi in
      let nstep := nstep + 4 in
      if decide (le_combine v = kMagic) then
        _ ← check (bool_decide (fi <> []));
        let '(lrec, fi) := read_word lrec fi in
        let nstep := nstep + 4 in
        let cflag := DecodeFlag (le_combine lrec) in
        if bool_decide (cflag = 0%Z) || bool_decide (cflag = 1%Z) then Ok (nstep - 8)
        else seek_head fuel v lrec nstep fi
      else seek_head fuel v lrec nstep fi
  end.

(** The loop of [FindLastRecordBegin(begin, end)], down from the word [k]. *)
Fixpoint find_last_head (buf : list byte) (k : nat) : outcome nat :=
  match k with
  | 0 => Ok 0
  | S k' => h ← is_head buf (4 * k); if (h : bool) then Ok (4 * k) else find_last_head buf k'
  end.

Definition RecordIOSplitter : Splitter := {|
  SeekRecordBegin fi := seek_head (S (length fi)) junk_v junk_lrec 0 fi;
  FindLastRecordBegin buf :=
    _ ← check (bool_decide (length buf mod 4 = 0));
    _ ← check (bool_decide (8 <= length buf));
    find_last_head buf (length buf / 4 - 2)
|}.

End Splitter.

(** The loop of [ExtractNextRecord(out_rec, chunk)], which moves the parts of a
    record together in the chunk; [o] and [size] are [out_rec], [b] is
    [chunk->begin]. *)
Fixpoint extract_parts (fuel : nat) (buf : list byte) (b e o size : nat) (cflag : Z) : outcome (nat * nat * list byte) :=
  match fuel with
  | 0 => Fail OutOfFuel
  | S fuel =>
      if decide (cflag = 3%Z) then Ok (size, b, buf) else
      _ ← check (bool_decide (b + 8 <= e));
      w0 ← word_at buf b;
      _ ← check (bool_decide (w0 = kMagic));
      w1 ← word_at buf (b + 4);
      let cflag := DecodeFlag w1 in
      let clen := Z.to_nat (DecodeLength w1) in
      buf ← copy_to buf (o + size) magic;
      let size := size + 4 in
      buf ← (if decide (clen = 0) then Ok buf else d ← bytes_at buf (b + 8) clen; copy_to buf (o + size) d);
      extract_parts fuel buf (b + 8 + upper_align clen) e o (size + clen) cflag
  end.

Definition RExtractNextRecord (c : Chunk) : outcome (option (Blob * Chunk)) :=
  let b := c.(c_begin) in
  let e := c.(c_end) in
  if decide (b = e) then Ok None else
  _ ← check (bool_decide (b + 8 <= e));
  _ ← check (bool_decide (b mod 4 = 0));
  _ ← check (bool_decide (e mod 4 = 0));
  w1 ← word_at c.(data) (b + 4);
  let cflag := DecodeFlag w1 in
  let clen := Z.to_nat (DecodeLength w1) in
  let o := b + 8 in
  let b := b + 8 + upper_align clen in
  _ ← check (bool_decide (b <= e));
  if decide (cflag = 0%Z) then Ok (Some (mkBlob (drop o c.(data)) clen, mkChunk b e c.(data))) else
  _ ← check (bool_decide (cflag = 1%Z));
  '(size, b, buf) ← extract_parts (S (length c.(data))) c.(data) b e o clen cflag;
  Ok (Some (mkBlob (drop o buf) size, mkChunk b e buf)).

(** [NextRecord(out_rec)] of the splitter. *)
Definition SNextRecord (junk_v junk_lrec : list byte) (got : nat -> nat -> nat -> nat) (s : InputSplitBase)
  : outcome (option Blob * InputSplitBase) :=
  next_loop (Sp := RecordIOSplitter junk_v junk_lrec) got RExtractNextRecord 2 s.

(** A reader of all the records of a part. *)
Fixpoint part_records (junk_v junk_lrec : list byte) (got : nat -> nat -> nat -> nat) (fuel : nat) (s : InputSplitBase)
  : outcome (list (list byte)) :=
  match fuel with
  | 0 => Fail OutOfFuel
  | S fuel =>
      '(b, s) ← SNextRecord junk_v junk_lrec got s;
      match b with
      | None => Ok []
      | Some b => rs ← part_records junk_v junk_lrec got fuel s; Ok (blob_bytes b :: rs)
      end
  end.

(** ** The format *)

(** The pieces of a record between the magic numbers at its words. *)
Fixpoint pieces_from (cur l : list byte) : list (list byte) :=
  match l with
  | a :: b :: c :: d :: l' =>
      if decide ([a; b; c; d] = magic) then cur :: pieces_from [] l' else pieces_from (cur ++ [a; b; c; d]) l'
  | _ => [cur ++ l]
  end.
Definition pieces (r : list byte) : list (list byte) := pieces_from [] r.

(** The pieces with their flags. *)
Fixpoint later (ps : list (list byte)) : list (Z * list byte) :=
  match ps with
  | [] => []
  | [p] => [(3%Z, p)]
  | p :: ps => (2%Z, p) :: later ps
  end.
Definition flagged (ps : list (list byte)) : list (Z * list byte) :=
  match ps with
  | [] => []
  | [p] => [(0%Z, p)]
  | p :: ps => (1%Z, p) :: later ps
  end.

(** A part in memory. *)
Definition lrec (t : Z * list byte) : Z := EncodeLRec t.1 (Z.of_nat (length t.2)).
Definition padding (n : nat) : list byte := replicate (upper_align n - n) Byte.x00.
Definition enc_part (t : Z * list byte) : list byte :=
  magic ++ le_split 4 (lrec t) ++ t.2 ++ padding (length t.2).
Definition enc_parts (ts : list (Z * list byte)) : list byte := concat (map enc_part ts).
Definition enc (r : list byte) : list byte := enc_parts (flagged (pieces r)).
Definition enc_all (rs : list (list byte)) : list byte := concat (map enc rs).

(** The bytes between which the magic number is put back. *)
Fixpoint join (ps : list (list byte)) : list byte :=
  match ps with
  | [] => []
  | [p] => p
  | p :: ps => p ++ magic ++ join ps
  end.

Definition small (r : list byte) : Prop := (Z.of_nat (length r) < 2 ^ 29)%Z.

(** *** Words of lists *)

Lemma list4_ind (P : list byte -> Prop) :
  (forall l, length l < 4 -> P l) -> (forall a b c d l, P l -> P (a :: b :: c :: d :: l)) -> forall l, P l.
Proof.
  intros Hs Hc l. remember (length l) as n eqn:Hn. revert l Hn.
  induction n as [n IH] using lt_wf_ind. intros l ->.
  destruct l as [|a [|b [|c [|d l]]]]; try (apply Hs; simpl; lia).
  apply Hc. apply (IH (length l)); simpl; lia.
Qed.

Lemma upper_align_spec n : exists k, upper_align n = n + k /\ k < 4 /\ upper_align n mod 4 = 0.
Proof.
  unfold upper_align. rewrite Nat.Div0.mod_mul.
  pose proof (Nat.div_mod_eq (n + 3) 4). pose proof (Nat.mod_upper_bound (n + 3) 4 ltac:(lia)).
  exists ((n + 3) / 4 * 4 - n). lia.
Qed.

Lemma upper_align_0 n : n mod 4 = 0 -> upper_align n = n.
Proof.
  intros Hn. destruct (upper_align_spec n) as (k & -> & Hk & Hm).
  pose proof (Nat.div_mod_eq n 4). pose proof (Nat.div_mod_eq (n + k) 4). lia.
Qed.

Lemma bytes_at_ok buf i n : i + n <= length buf -> bytes_at buf i n = Ok (segment i (i + n) buf).
Proof. intros Hi. unfold bytes_at. by rewrite decide_True. Qed.

Lemma length_magic : length magic = 4.
Proof. reflexivity. Qed.

Lemma length_padding n : length (padding n) = upper_align n - n.
Proof. apply length_replicate. Qed.

Lemma length_enc_part t : length (enc_part t) = 8 + upper_align (length t.2).
Proof.
  unfold enc_part. rewrite !length_app, length_le_split, length_padding. change (length magic) with 4.
  destruct (upper_align_spec (length t.2)) as (k & -> & _). lia.
Qed.

(** Bits of the second word. *)
Lemma EncodeLRec_sum f n : (0 <= f <= 3)%Z -> (0 <= n < 2 ^ 29)%Z -> EncodeLRec f n = (f * 2 ^ 29 + n)%Z.
Proof.
  intros Hf Hn. unfold EncodeLRec. rewrite Z.shiftl_mul_pow2 by lia. rewrite u32_small by lia.
  rewrite <- Z.lxor_lor, <- Z.add_nocarry_lxor; [done|..];
    (apply Z.bits_inj'; intros i Hi; rewrite Z.land_spec, Z.bits_0;
     destruct (decide (i < 29)%Z); [rewrite Z.mul_pow2_bits_low by lia; done|];
     rewrite (Z.bits_above_log2 n), andb_false_r; [done|lia|];
     destruct (decide (n = 0)%Z) as [->|]; [simpl; lia|]; apply Z.log2_lt_pow2; [lia|];
     eapply Z.lt_le_trans; [apply Hn|]; apply Z.pow_le_mono_r; lia).
Qed.

Lemma Decode_Encode f n : (0 <= f <= 3)%Z -> (0 <= n < 2 ^ 29)%Z ->
  DecodeFlag (EncodeLRec f n) = f /\ DecodeLength (EncodeLRec f n) = n /\ (EncodeLRec f n < 2 ^ 31)%Z /\ (0 <= EncodeLRec f n)%Z.
Proof.
  intros Hf Hn. rewrite EncodeLRec_sum by done. unfold DecodeFlag, DecodeLength.
  rewrite Z.shiftr_div_pow2, Z.div_add_l, (Z.div_small n) by lia.
  change 7%Z with (Z.ones 3). change (Z.shiftl 1 29 - 1)%Z with (Z.ones 29). rewrite !Z.land_ones by lia.
  rewrite (Z.add_comm (f * 2 ^ 29) n), Z.mod_add, (Z.mod_small n), Z.mod_small by lia. lia.
Qed.

(** *** Pieces *)

(** No word of a list, from its beginning on, is the magic number. *)
Fixpoint no_magic (l : list byte) : Prop :=
  match l with
  | a :: b :: c :: d :: l' => [a; b; c; d] <> magic /\ no_magic l'
  | _ => True
  end.

Lemma mod4_step n : (4 + n) mod 4 = n mod 4.
Proof. replace (4 + n) with (n + 1 * 4) by lia. apply Nat.Div0.mod_add. Qed.

Lemma no_magic_app cur l : length cur mod 4 = 0 -> no_magic cur -> no_magic l -> no_magic (cur ++ l).
Proof.
  induction cur as [cur Hs|a b c d cur IH] using list4_ind; intros Hm Hc Hl.
  - rewrite Nat.mod_small in Hm by done. by destruct cur.
  - change (length (a :: b :: c :: d :: cur)) with (4 + length cur) in Hm. rewrite mod4_step in Hm.
    destruct Hc as [H1 H2]. split; [done|]. by apply IH.
Qed.

Lemma no_magic_short l : length l < 4 -> no_magic l.
Proof. destruct l as [|a [|b [|c [|d l]]]]; simpl; try done. lia. Qed.

Definition aligned (p : list byte) : Prop := length p mod 4 = 0.

Lemma aligned_app l1 l2 : aligned l1 -> aligned l2 -> aligned (l1 ++ l2).
Proof. unfold aligned. rewrite length_app. apply mod_add_0. Qed.

Lemma join_snoc ds p : join (ds ++ [p]) = concat (map (fun d => d ++ magic) ds) ++ p.
Proof.
  induction ds as [|d ds IH]; [done|]. cbn [app map concat]. rewrite <- app_assoc, <- IH.
  destruct ds; cbn [app join]; by rewrite <- app_assoc.
Qed.

Lemma pieces_from_ok cur l : aligned cur -> no_magic cur ->
  exists ds p, pieces_from cur l = ds ++ [p] /\ Forall (fun d => aligned d /\ no_magic d) ds /\ no_magic p /\
    join (ds ++ [p]) = cur ++ l.
Proof.
  revert cur. induction l as [l Hs|a b c d l IH] using list4_ind; intros cur Hc Hn.
  - exists [], (cur ++ l). split; [by destruct l as [|? [|? [|? [|? ?]]]]; simpl in *; try done; lia|].
    split; [done|]. split; [|done]. apply no_magic_app; [done..|]. by apply no_magic_short.
  - cbn [pieces_from]. case_decide as Hm.
    + destruct (IH []) as (ds & p & -> & Hds & Hp & Hj); [done..|]. exists (cur :: ds), p.
      split; [done|]. split; [by constructor|]. split; [done|].
      rewrite join_snoc in *. cbn [map concat]. rewrite <- !app_assoc, Hj, <- Hm. done.
    + destruct (IH (cur ++ [a; b; c; d])) as (ds & p & -> & Hds & Hp & Hj).
      * by apply aligned_app.
      * by apply no_magic_app.
      * exists ds, p. split; [done|]. split; [done|]. split; [done|]. by rewrite Hj, <- app_assoc.
Qed.

Lemma join_length ds p q : q ∈ ds ++ [p] -> length q <= length (join (ds ++ [p])).
Proof.
  rewrite join_snoc, length_app. intros [Hq|Hq]%elem_of_app.
  - apply list_elem_of_In, in_split in Hq as (l1 & l2 & ->). rewrite map_app, concat_app. cbn [map concat].
    rewrite !length_app. lia.
  - apply list_elem_of_In in Hq as [<-|[]]. lia.
Qed.

(** The parts of a record. *)
Definition starts (ds : list (list byte)) : list (Z * list byte) :=
  match ds with [] => [] | d :: ds => (1%Z, d) :: map (pair 2%Z) ds end.

Lemma later_snoc ds p : later (ds ++ [p]) = map (pair 2%Z) ds ++ [(3%Z, p)].
Proof. induction ds as [|d ds IH]; [done|]. cbn [app map]. rewrite <- IH. by destruct ds. Qed.

Lemma flagged_snoc ds p : flagged (ds ++ [p]) = starts ds ++ [(if decide (ds = []) then 0 else 3, p)]%Z.
Proof.
  destruct ds as [|d ds]; [done|]. cbn [app starts]. rewrite decide_False by done. rewrite <- later_snoc. by destruct ds.
Qed.

(** A part that [enc_part] can be read back from. *)
Record part_ok (t : Z * list byte) : Prop := {
  po_flag : (0 <= t.1 <= 3)%Z;
  po_small : small t.2;
  po_clean : no_magic t.2
}.

Lemma tokens_ok r : small r ->
  exists t ts, flagged (pieces r) = t :: ts /\ part_ok t /\ Forall part_ok ts /\ (t.1 = 0%Z /\ ts = [] \/ t.1 = 1%Z /\ ts <> []) /\
    Forall (fun t => t.1 = 2 \/ t.1 = 3)%Z ts.
Proof.
  intros Hr. destruct (pieces_from_ok [] r) as (ds & p & Ep & Hds & Hp & Hj); [done..|]. unfold pieces. rewrite Ep.
  assert (forall q, q ∈ ds ++ [p] -> small q) as Hsm.
  { intros q Hq. pose proof (join_length ds p q Hq) as Hl. rewrite Hj in Hl. unfold small in *. simpl in Hl. lia. }
  destruct ds as [|d ds].
  - exists (0%Z, p), []. split; [done|]. split; [|by repeat constructor]. split; simpl; try done. apply Hsm. set_solver.
  - apply Forall_cons in Hds as [[Hd1 Hd2] Hds]. exists (1%Z, d), (later (ds ++ [p])).
    split; [by destruct ds|]. rewrite later_snoc. split; [split; simpl; [done|apply Hsm; set_solver|done]|].
    split_and!.
    + apply Forall_app. split.
      * apply Forall_map, Forall_forall. intros q Hq. rewrite Forall_forall in Hds. destruct (Hds q Hq).
        split; simpl; [done|apply Hsm; set_solver|done].
      * constructor; [|done]. split; simpl; [done|apply Hsm; set_solver|done].
    + right. split; [done|]. by destruct ds.
    + apply Forall_app. split; [|by constructor; [right|]]. apply Forall_map, Forall_forall. intros. by left.
Qed.

(** ** Writing *)

Lemma foldM_map {A B S} (f : S -> B -> outcome S) (g : A -> B) l s : foldM f (map g l) s = foldM (fun s a => f s (g a)) l s.
Proof. revert s. induction l as [|a l IH]; intros s; simpl; [done|]. destruct (f s (g a)); simpl; [apply IH|done]. Qed.

Lemma aligned_part f d : aligned d -> enc_part (f, d) = magic ++ le_split 4 (lrec (f, d)) ++ d.
Proof.
  intros Hd. unfold enc_part, padding. cbn [snd]. rewrite upper_align_0, Nat.sub_diag by done. by rewrite app_nil_r.
Qed.

Lemma pieces_from_nonempty cur l : pieces_from cur l <> [].
Proof.
  revert cur. induction l as [l Hs|a b c d l IH] using list4_ind; intros cur.
  - destruct l as [|? [|? [|? [|? ?]]]]; simpl in *; try done. lia.
  - simpl. case_decide; [done|]. apply IH.
Qed.

Lemma starts_app d ds ds' : starts ((ds ++ [d]) ++ ds') = starts (ds ++ [d]) ++ map (pair 2%Z) ds'.
Proof. destruct ds as [|d0 ds]; [done|]. cbn [app starts]. by rewrite <- map_app. Qed.

Lemma flagged_prefix ds d ps : ps <> [] -> exists ts, flagged (ds ++ d :: ps) = starts (ds ++ [d]) ++ ts.
Proof.
  intros Hp. destruct ps as [|q ps _] using rev_ind; [done|].
  replace (ds ++ d :: ps ++ [q]) with (((ds ++ [d]) ++ ps) ++ [q]) by (rewrite <- !app_assoc; done).
  rewrite flagged_snoc, starts_app, <- app_assoc. eauto.
Qed.

Lemma starts_snoc ds d : starts (ds ++ [d]) = starts ds ++ [(if decide (ds = []) then 1 else 2, d)]%Z.
Proof. destruct ds as [|d0 ds]; [done|]. cbn [app starts]. rewrite decide_False, map_app by done. done. Qed.

Lemma enc_parts_app ts1 ts2 : enc_parts (ts1 ++ ts2) = enc_parts ts1 ++ enc_parts ts2.
Proof. unfold enc_parts. by rewrite map_app, concat_app. Qed.

Lemma enc_parts_one t : enc_parts [t] = enc_part t.
Proof. unfold enc_parts. cbn [map concat]. apply app_nil_r. Qed.

Lemma enc_parts_cons t ts : enc_parts (t :: ts) = enc_part t ++ enc_parts ts.
Proof. done. Qed.

Section Writing.
Context {T : Type} `{SL : StreamLaws T}.

Lemma write_part_ok f d (fo : T) n : sok fo -> room fo (8 + length d + n) ->
  exists fo', write_part f d fo = Ok fo' /\ written fo' = written fo ++ magic ++ le_split 4 (lrec (f, d)) ++ d /\ room fo' n /\ sok fo'.
Proof.
  intros Hs Hr. unfold write_part.
  destruct (Write_append magic fo (4 + length d + n) Hs) as (f1 & -> & W1 & R1 & S1); [exact Hr|]. cbn [mbind outcome_bind].
  destruct (Write_append (le_split 4 (lrec (f, d))) f1 (length d + n) S1) as (f2 & E2 & W2 & R2 & S2).
  { rewrite length_le_split. exact R1. }
  unfold lrec in E2. cbn [fst snd] in E2. rewrite E2. cbn [mbind outcome_bind]. case_decide as Hd.
  - subst d. exists f2. rewrite W2, W1, app_nil_r, app_assoc. done.
  - destruct (Write_append d f2 n S2 R2) as (f3 & -> & W3 & R3 & S3). exists f3. rewrite W3, W2, W1, <- !app_assoc. done.
Qed.

Context (buf : list byte) (w : RecordIOWriter T) (n0 : nat).

(** After [k] words: the pieces written so far, the rest is to come. *)
Definition write_inv (k : nat) (st : nat * T * nat) : Prop :=
  let '(dptr, fo, cnt) := st in
  exists ds m, pieces buf = ds ++ pieces_from (segment dptr (4 * k) buf) (drop (4 * k) buf) /\
    (dptr = 0 <-> ds = []) /\ dptr <= 4 * k /\ dptr mod 4 = 0 /\
    written fo = written w.(stream_) ++ enc_parts (starts ds) /\ sok fo /\ room fo m /\
    length (enc_parts (starts ds)) + m = length (enc buf) + n0 /\ cnt = w.(except_counter_) + length ds.

Lemma four_words k : 4 * k + 4 <= length buf ->
  exists a b c d, drop (4 * k) buf = a :: b :: c :: d :: drop (4 * (k + 1)) buf /\ segment (4 * k) (4 * k + 4) buf = [a; b; c; d].
Proof using.
  intros Hk. assert (exists a b c d l, drop (4 * k) buf = a :: b :: c :: d :: l) as (a & b & c & d & l & E).
  { pose proof (length_drop buf (4 * k)) as Hl. destruct (drop (4 * k) buf) as [|a [|b [|c [|d l]]]]; simpl in Hl; try lia. eauto 10. }
  exists a, b, c, d. unfold segment. replace (4 * k + 4 - 4 * k) with 4 by lia. rewrite E. split; [|done].
  do 4 f_equal. replace (4 * (k + 1)) with (4 * k + 4) by lia. by rewrite <- drop_drop, E.
Qed.

Lemma segment_mod dptr k : dptr <= 4 * k -> 4 * k <= length buf -> dptr mod 4 = 0 -> aligned (segment dptr (4 * k) buf).
Proof using.
  intros H1 H2 H3. unfold aligned. rewrite segment_length by done. apply mod_sub_0; [done| |done].
  rewrite Nat.mul_comm. apply Nat.Div0.mod_mul.
Qed.

Lemma write_step_ok k st : 4 * k + 4 <= length buf -> write_inv k st ->
  exists st', write_step buf st (4 * k) = Ok st' /\ write_inv (k + 1) st'.
Proof.
  intros Hk. destruct st as [[dptr fo] cnt]. intros (ds & m & Hp & Hd & Hle & Hm & Hw & Hs & Hr & Hlen & Hc).
  destruct (four_words k Hk) as (a & b & c & d & Edr & Eseg). rewrite Edr in Hp. cbn [pieces_from] in Hp.
  unfold write_step. rewrite bytes_at_ok, Eseg by lia. cbn [mbind outcome_bind].
  pose proof (segment_mod dptr k Hle ltac:(lia) Hm) as Hal. set (p := segment dptr (4 * k) buf) in *.
  destruct (decide ([a; b; c; d] = magic)) as [Em|Em].
  - destruct (flagged_prefix ds p _ (pieces_from_nonempty [] (drop (4 * (k + 1)) buf))) as (ts & Ets).
    rewrite <- Hp, starts_snoc in Ets. set (f := if decide (ds = []) then 1%Z else 2%Z) in *.
    assert (length (enc_part (f, p)) = 8 + length p) as Hlp.
    { rewrite length_enc_part. cbn [snd]. by rewrite upper_align_0. }
    assert (length (enc buf) = length (enc_parts (starts ds)) + (8 + length p) + length (enc_parts ts)) as Hlb.
    { unfold enc. rewrite Ets, !enc_parts_app, !length_app, enc_parts_one, Hlp. lia. }
    destruct (write_part_ok f p fo (m - (8 + length p)) Hs) as (fo' & E & W & R & S).
    { by replace (8 + length p + (m - (8 + length p))) with m by lia. }
    assert ((if decide (dptr = 0) then 1%Z else 2%Z) = f) as ->.
    { unfold f. destruct (decide (dptr = 0)), (decide (ds = [])); naive_solver. }
    rewrite E. cbn [mbind outcome_bind]. eexists. split; [reflexivity|]. exists (ds ++ [p]), (m - (8 + length p)).
    rewrite starts_snoc. fold f. rewrite enc_parts_app, !length_app, enc_parts_one, Hlp. split_and!; try done.
    + unfold segment at 1. replace (4 * (k + 1) - (4 * k + 4)) with 0 by lia. rewrite take_0, <- app_assoc. done.
    + split; [lia|]. by destruct ds.
    + lia.
    + replace (4 * k + 4) with ((k + 1) * 4) by lia. apply Nat.Div0.mod_mul.
    + rewrite W, Hw, <- app_assoc. by rewrite aligned_part.
    + lia.
    + simpl. lia.
  - eexists. split; [reflexivity|]. exists ds, m. split_and!; try done; [|lia].
    rewrite Hp. do 2 f_equal. rewrite <- Eseg. replace (4 * (k + 1)) with (4 * k + 4) by lia. apply segment_app; lia.
Qed.

Lemma upper_align_shift k n : k mod 4 = 0 -> upper_align (k + n) = k + upper_align n.
Proof using.
  intros Hk. unfold upper_align. rewrite (Nat.div_mod_eq k 4), Hk. set (q := k / 4).
  replace (4 * q + 0 + n + 3) with (n + 3 + q * 4) by lia. rewrite Nat.div_add by lia. lia.
Qed.

Lemma WriteRecord_ok : small buf -> sok w.(stream_) -> room w.(stream_) (length (enc buf) + n0) ->
  exists w', WriteRecord buf w = Ok w' /\ written w'.(stream_) = written w.(stream_) ++ enc buf /\
    room w'.(stream_) n0 /\ sok w'.(stream_) /\ w'.(except_counter_) + 1 = w.(except_counter_) + length (pieces buf).
Proof.
  intros Hsm Hs Hr. unfold WriteRecord. rewrite check_true by (apply bool_decide_eq_true; exact Hsm). cbn [mbind outcome_bind].
  rewrite foldM_map. set (len := length buf). unfold lower_align. rewrite Nat.div_mul by lia. set (q := len / 4).
  pose proof (Nat.div_mod_eq len 4) as Hdm. pose proof (Nat.mod_upper_bound len 4 ltac:(lia)) as Hub. fold q in Hdm.
  destruct (foldM_seq (fun st k => write_step buf st (4 * k)) write_inv 0 q (0, stream_ w, except_counter_ w)) as (st & -> & Hinv).
  - exists [], (length (enc buf) + n0). split_and!; try done; [simpl; by rewrite app_nil_r|simpl; lia..].
  - intros k st Hk Hinv. apply write_step_ok; [fold len; lia|done].
  - destruct st as [[dptr fo] cnt]. cbn [mbind outcome_bind]. rewrite Nat.add_0_l in Hinv.
    destruct Hinv as (ds & m & Hp & Hd & Hle & Hm & Hw & Hs' & Hr' & Hlen & Hc).
    assert (pieces_from (segment dptr (4 * q) buf) (drop (4 * q) buf) = [segment dptr len buf]) as Elast.
    { rewrite <- (segment_app dptr (4 * q) len buf) by lia. 
      assert (segment (4 * q) len buf = drop (4 * q) buf) as -> by (unfold segment; apply take_ge; rewrite length_drop; fold len; lia).
      assert (length (drop (4 * q) buf) < 4) as Hsh by (rewrite length_drop; fold len; lia).
      destruct (drop (4 * q) buf) as [|? [|? [|? [|? ?]]]]; simpl in Hsh; try done. lia. }
    rewrite Elast in Hp. set (p := segment dptr len buf) in *.
    assert (length p = len - dptr) as Hlp by (apply segment_length; fold len; lia).
    set (f := if decide (ds = []) then 0%Z else 3%Z).
    assert (enc buf = enc_parts (starts ds) ++ enc_part (f, p)) as Eb.
    { unfold enc. by rewrite Hp, flagged_snoc, enc_parts_app, enc_parts_one. }
    assert (upper_align len = dptr + upper_align (length p)) as Hup by (rewrite <- upper_align_shift, Hlp by done; f_equal; lia).
    destruct (upper_align_spec (length p)) as (j & Hj & _).
    rewrite Eb, length_app, length_enc_part in Hlen. cbn [snd] in Hlen.
    destruct (write_part_ok f p fo (upper_align (length p) - length p + n0) Hs') as (fo1 & E1 & W1 & R1 & S1).
    { replace (8 + length p + _) with m by lia. done. }
    assert ((if decide (dptr = 0) then 0%Z else 3%Z) = f) as ->.
    { unfold f. destruct (decide (dptr = 0)), (decide (ds = [])); naive_solver. }
    rewrite E1. cbn [mbind outcome_bind].
    assert (exists fo2, (if decide (upper_align len = len) then Ok fo1 else Write (replicate (upper_align len - len) Byte.x00) fo1) = Ok fo2 /\
      written fo2 = written fo1 ++ padding (length p) /\ room fo2 n0 /\ sok fo2) as (fo2 & -> & W2 & R2 & S2).
    { unfold padding. replace (upper_align len - len) with (upper_align (length p) - length p) by lia. case_decide as Hu.
      - exists fo1. replace (upper_align (length p) - length p) with 0 in * by lia. simpl in *. by rewrite app_nil_r.
      - apply Write_append; [done|]. by rewrite length_replicate. }
    cbn [mbind outcome_bind]. eexists. split; [reflexivity|]. cbn [stream_ except_counter_]. split_and!; try done.
    + rewrite W2, W1, Hw, Eb, <- !app_assoc. done.
    + rewrite Hc, Hp, length_app. simpl. lia.
Qed.

End Writing.

(** Any sequence of records. *)
Definition write_all {T} `{Stream T} (rs : list (list byte)) (w : RecordIOWriter T) : outcome (RecordIOWriter T) :=
  foldM (fun w r => WriteRecord r w) rs w.

Lemma write_all_ok {T} `{StreamLaws T} rs : forall (w : RecordIOWriter T) n,
  Forall small rs -> sok w.(stream_) -> room w.(stream_) (length (enc_all rs) + n) ->
  exists w', write_all rs w = Ok w' /\ written w'.(stream_) = written w.(stream_) ++ enc_all rs.
Proof.
  induction rs as [|r rs IH]; intros w n Hsm Hs Hr; [exists w; unfold enc_all; simpl; by rewrite app_nil_r|].
  apply Forall_cons in Hsm as [H1 H2]. unfold enc_all in *. cbn [map concat] in *. rewrite length_app in Hr.
  destruct (WriteRecord_ok r w (length (concat (map enc rs)) + n) H1 Hs) as (w1 & E1 & W1 & R1 & S1 & _).
  { by rewrite Nat.add_assoc. }
  destruct (IH w1 n H2 S1 R1) as (w' & E' & W'). exists w'. unfold write_all. cbn [foldM]. rewrite E1. split; [exact E'|].
  by rewrite W', W1, <- app_assoc.
Qed.

(** ** Reading *)

Lemma magic_word : le_combine magic = kMagic.
Proof. reflexivity. Qed.

Lemma lrec_range t : part_ok t -> (0 <= lrec t < 2 ^ 31)%Z /\ DecodeFlag (lrec t) = t.1 /\ Z.to_nat (DecodeLength (lrec t)) = length t.2.
Proof.
  intros [H1 H2 _]. unfold small in H2. destruct (Decode_Encode t.1 (Z.of_nat (length t.2)) H1 ltac:(lia)) as (E1 & E2 & E3 & E4).
  unfold lrec. rewrite E1, E2. split; [lia|]. split; [done|]. lia.
Qed.

Lemma lrec_word t : part_ok t -> le_combine (le_split 4 (lrec t)) = lrec t.
Proof. intros Ht. rewrite le_combine_split. destruct (lrec_range t Ht). apply Z.mod_small. change (Z.of_nat 4 * 8)%Z with 32%Z. lia. Qed.

Section Reading.
Context {T : Type} `{SL : StreamLaws T}.

(** One round of the loop reads one part. *)
Lemma next_part_ok t rest fuel (fi : T) out :
  part_ok t -> sok fi -> unread fi = enc_part t ++ rest ->
  exists fi', unread fi' = rest /\ sok fi' /\
    next_parts (S fuel) fi out =
      (if decide (t.1 = 0 \/ t.1 = 3)%Z then Ok (Some (out ++ t.2), mkReader fi' false) else next_parts fuel fi' ((out ++ t.2) ++ magic)).
Proof.
  intros Ht Hs Hu. destruct (lrec_range t Ht) as (_ & Hf & Hl). pose proof (lrec_word t Ht) as Hw.
  set (body := t.2 ++ padding (length t.2)).
  assert (length body = upper_align (length t.2)) as Hbody.
  { unfold body. rewrite length_app, length_padding. destruct (upper_align_spec (length t.2)) as (k & -> & _). lia. }
  assert (unread fi = (magic ++ le_split 4 (lrec t)) ++ body ++ rest) as Hu'.
  { rewrite Hu. unfold enc_part, body. by rewrite <- !app_assoc. }
  assert (length (magic ++ le_split 4 (lrec t)) = 8) as H8 by (by rewrite length_app, length_le_split).
  destruct (Read_full 8 fi Hs) as (f1 & E1 & U1 & S1); [rewrite Hu', length_app; lia|].
  rewrite Hu', take_app_le, take_ge in E1 by lia. rewrite Hu', drop_app_ge, H8, Nat.sub_diag, drop_0 in U1 by lia.
  cbn [next_parts]. rewrite E1. cbn [mbind outcome_bind]. rewrite decide_False by (by destruct magic).
  assert (check (bool_decide (length (magic ++ le_split 4 (lrec t)) = 8)) = Ok tt) as -> by (apply check_true, bool_decide_eq_true, H8).
  cbn [mbind outcome_bind].
  assert (check (bool_decide (le_combine (take 4 (magic ++ le_split 4 (lrec t))) = kMagic)) = Ok tt) as -> by reflexivity.
  cbn [mbind outcome_bind].
  rewrite drop_app_ge, length_magic, Nat.sub_diag, drop_0, Hw, Hf, Hl by done.
  assert (exists fi', (if decide (upper_align (length t.2) = 0) then Ok ([], f1) else
      '(b, fi) ← Stream.Read (upper_align (length t.2)) f1;
      _ ← check (bool_decide (length b = upper_align (length t.2))); Ok (b, fi)) = Ok (body, fi') /\ unread fi' = rest /\ sok fi')
    as (fi' & -> & U2 & S2).
  { case_decide as Hz.
    - assert (body = []) as -> by (apply nil_length_inv; lia). exists f1. done.
    - destruct (Read_full (upper_align (length t.2)) f1 S1) as (f2 & E2 & U2 & S2); [rewrite U1, length_app; lia|].
      rewrite U1, take_app_le, take_ge in E2 by lia. rewrite U1, drop_app_ge, Hbody, Nat.sub_diag, drop_0 in U2 by lia.
      rewrite E2. cbn [mbind outcome_bind]. rewrite check_true by by apply bool_decide_eq_true. by exists f2. }
  cbn [mbind outcome_bind]. exists fi'. split; [done|]. split; [done|].
  unfold body. rewrite take_app_le, take_ge by done.
  destruct (decide (t.1 = 0 \/ t.1 = 3)%Z) as [[-> | ->]|Hn]; [done..|].
  rewrite !bool_decide_eq_false_2 by tauto. done.
Qed.

Lemma next_later ps : forall fuel (fi : T) out rest,
  ps <> [] -> Forall part_ok (later ps) -> sok fi -> unread fi = enc_parts (later ps) ++ rest -> length ps <= fuel ->
  exists fi', next_parts fuel fi out = Ok (Some (out ++ join ps), mkReader fi' false) /\ unread fi' = rest /\ sok fi'.
Proof.
  induction ps as [|p ps IH]; intros fuel fi out rest Hne Hok Hs Hu Hf; [done|]. destruct fuel as [|fuel]; [simpl in Hf; lia|].
  destruct ps as [|p2 ps].
  - cbn [later] in *. rewrite enc_parts_one in Hu. apply Forall_cons in Hok as [Hok _].
    destruct (next_part_ok (3%Z, p) rest fuel fi out Hok Hs Hu) as (fi' & U & S & ->). rewrite decide_True by (by right). by exists fi'.
  - change (later (p :: p2 :: ps)) with ((2%Z, p) :: later (p2 :: ps)) in Hok, Hu. apply Forall_cons in Hok as [H1 H2].
    rewrite enc_parts_cons, <- app_assoc in Hu.
    destruct (next_part_ok (2%Z, p) _ fuel fi out H1 Hs Hu) as (f1 & U & S & ->). rewrite decide_False by (cbn [fst]; lia). cbn [snd].
    destruct (IH fuel f1 ((out ++ p) ++ magic) rest ltac:(done) H2 S U) as (f2 & -> & U2 & S2); [simpl in *; lia|].
    exists f2. split; [|done]. cbn [join]. by rewrite <- !app_assoc.
Qed.

Lemma pieces_join r : join (pieces r) = r /\ exists p ps, pieces r = p :: ps.
Proof using.
  destruct (pieces_from_ok [] r) as (ds & p & E & _ & _ & Hj); [done..|]. unfold pieces. rewrite E, Hj. split; [done|].
  destruct ds; simpl; eauto.
Qed.

Lemma flagged_ok r : small r -> Forall part_ok (flagged (pieces r)).
Proof using. intros Hr. destruct (tokens_ok r Hr) as (t & ts & -> & H1 & H2 & _). by constructor. Qed.

(** [NextRecord] reads the record that was written. *)
Lemma next_record_ok r fuel (fi : T) rest :
  small r -> sok fi -> unread fi = enc r ++ rest -> length (pieces r) <= fuel ->
  exists fi', next_parts fuel fi [] = Ok (Some r, mkReader fi' false) /\ unread fi' = rest /\ sok fi'.
Proof.
  intros Hr Hs Hu Hf. destruct (pieces_join r) as (Hj & p & ps & Ep). pose proof (flagged_ok r Hr) as Hok. unfold enc in Hu.
  rewrite Ep in *. destruct fuel as [|fuel]; [simpl in Hf; lia|]. destruct ps as [|p2 ps].
  - cbn [flagged] in *. rewrite enc_parts_one in Hu. apply Forall_cons in Hok as [Hok _].
    destruct (next_part_ok (0%Z, p) rest fuel fi [] Hok Hs Hu) as (fi' & U & S & ->). rewrite decide_True by (by left).
    simpl in Hj. subst p. by exists fi'.
  - change (flagged (p :: p2 :: ps)) with ((1%Z, p) :: later (p2 :: ps)) in Hok, Hu. apply Forall_cons in Hok as [H1 H2].
    rewrite enc_parts_cons, <- app_assoc in Hu.
    destruct (next_part_ok (1%Z, p) _ fuel fi [] H1 Hs Hu) as (f1 & U & S & ->). rewrite decide_False by (cbn [fst]; lia). cbn [snd].
    destruct (next_later (p2 :: ps) fuel f1 (([] ++ p) ++ magic) rest ltac:(done) H2 S U) as (f2 & -> & U2 & S2); [simpl in *; lia|].
    exists f2. split; [|done]. rewrite <- Hj. cbn [join app]. by rewrite <- app_assoc.
Qed.

End Reading.

(** All the records of a stream. *)
Fixpoint read_all_records {T} `{Stream T} (fuel : nat) (r : RecordIOReader T) : outcome (list (list byte)) :=
  match fuel with
  | 0 => Fail OutOfFuel
  | S fuel' =>
      '(b, r) ← RNextRecord fuel r;
      match b with
      | None => Ok []
      | Some b => rs ← read_all_records fuel' r; Ok (b :: rs)
      end
  end.

Lemma enc_length r : small r -> 4 * length (pieces r) <= length (enc r).
Proof.
  intros Hr. unfold enc.
  assert (forall ts : list (Z * list byte), 4 * length ts <= length (enc_parts ts)) as Hts.
  { induction ts as [|t ts IH]; [done|]. rewrite enc_parts_cons, length_app, length_enc_part. simpl. lia. }
  assert (forall qs, length (later qs) = length qs) as Hlat.
  { induction qs as [|q qs IH]; [done|]. destruct qs; [done|]. cbn [later length] in *. by rewrite IH. }
  destruct (pieces r) as [|p ps]; [done|]. etransitivity; [|apply Hts]. destruct ps; [done|]. cbn [flagged length]. rewrite Hlat. done.
Qed.

Lemma read_all_ok {T} `{StreamLaws T} rs : forall fuel (fi : T),
  at_end (T := T) -> Forall small rs -> sok fi -> unread fi = enc_all rs -> length (enc_all rs) < fuel ->
  read_all_records fuel (mkReader fi false) = Ok rs.
Proof.
  induction rs as [|r rs IH]; intros fuel fi He Hsm Hs Hu Hf; (destruct fuel as [|fuel]; [lia|]); cbn [read_all_records]; unfold RNextRecord; cbn [end_of_stream_ r_stream_].
  - destruct (He fi Hs) as (fi' & E); [done|]. cbn [next_parts]. rewrite E. done.
  - apply Forall_cons in Hsm as [H1 H2]. unfold enc_all in *. cbn [map concat] in *. rewrite length_app in Hf.
    pose proof (enc_length r H1).
    assert (0 < length (pieces r)) as Hp by (destruct (pieces_join r) as (_ & p & ps & ->); simpl; lia).
    destruct (next_record_ok r (S fuel) fi _ H1 Hs Hu) as (fi' & -> & U & S); [lia|]. cbn [mbind outcome_bind].
    rewrite (IH fuel fi' He H2 S U) by lia. done.
Qed.

(** C32: records of less than 2^29 bytes, also those that contain the magic
    number, are read back as they were written, by any reader of what any writer
    appended to its stream; a longer record ends the process and leaves nothing
    in the stream. *)
Theorem records_roundtrip {T T'} `{StreamLaws T} `{StreamLaws T'} rs (w : RecordIOWriter T) n :
  at_end (T := T') -> Forall small rs -> sok w.(stream_) -> room w.(stream_) (length (enc_all rs) + n) ->
  exists w' bytes, write_all rs w = Ok w' /\ written w'.(stream_) = written w.(stream_) ++ bytes /\
    (forall fi : T', sok fi -> unread fi = bytes -> read_all_records (S (length bytes)) (mkReader fi false) = Ok rs) /\
    (forall r, ~ small r -> WriteRecord r w' = Fail CheckFailed).
Proof.
  intros He Hsm Hs Hr. destruct (write_all_ok rs w n Hsm Hs Hr) as (w' & E & W). exists w', (enc_all rs).
  split; [done|]. split; [done|]. split.
  - intros fi Hfi Hu. apply read_all_ok; [done..|lia].
  - intros r Hn. unfold WriteRecord. rewrite bool_decide_eq_false_2; [done|]. exact Hn.
Qed.

(** ** Beginnings of records *)

Lemma word_at_app l1 l2 x : word_at (l1 ++ l2) (length l1 + x) = word_at l2 x.
Proof.
  unfold word_at, bytes_at. rewrite length_app. destruct (decide (x + 4 <= length l2)).
  - rewrite decide_True by lia. cbn [mbind outcome_bind]. do 2 f_equal. unfold segment.
    replace (length l1 + x + 4 - (length l1 + x)) with 4 by lia. replace (x + 4 - x) with 4 by lia. f_equal.
    rewrite <- drop_drop, drop_app_length. done.
  - by rewrite decide_False by lia.
Qed.

Lemma word_at_prefix l1 l2 x : x + 4 <= length l1 -> word_at (l1 ++ l2) x = word_at l1 x.
Proof.
  intros Hx. unfold word_at. rewrite !bytes_at_ok by (rewrite ?length_app; lia). cbn [mbind outcome_bind]. do 2 f_equal.
  unfold segment. rewrite drop_app_le by lia. rewrite take_app_le; [done|]. rewrite length_drop. lia.
Qed.

Lemma word_at_segment buf x b : x + 4 <= length buf -> segment x (x + 4) buf = b -> word_at buf x = Ok (le_combine b).
Proof. intros Hx <-. unfold word_at. by rewrite bytes_at_ok. Qed.

(** The words of the data of a part. *)
Lemma body_words p x : no_magic p -> x mod 4 = 0 -> x < upper_align (length p) ->
  exists w, word_at (p ++ padding (length p)) x = Ok w /\ w <> kMagic.
Proof.
  intros Hp. revert x. induction p as [p Hs|a b c d p IH] using list4_ind; intros x Hx Hlt.
  - destruct (upper_align_spec (length p)) as (k & Hk & Hk4 & Hm).
    assert (p <> []) as Hne by (intros ->; change (upper_align (length [])) with 0 in Hlt; lia).
    assert (upper_align (length p) = 4) as H4.
    { destruct p as [|? [|? [|? [|? ?]]]]; try done. simpl in Hs. lia. }
    assert (x = 0) as -> by (rewrite H4 in Hlt; rewrite Nat.mod_small in Hx; lia).
    assert (length (p ++ padding (length p)) = 4) as Hl4 by (rewrite length_app, length_padding; lia).
    erewrite word_at_segment; [|lia|reflexivity]. eexists. split; [reflexivity|].
    unfold segment. rewrite drop_0, take_ge by lia. unfold padding. rewrite H4 in *.
    intros Heq. rewrite <- magic_word in Heq. apply le_combine_inj in Heq; [|rewrite length_app, length_replicate, length_magic; lia].
    apply (f_equal last) in Heq. replace (4 - length p) with (S (3 - length p)) in Heq by lia.
    rewrite replicate_S_end, app_assoc, last_snoc in Heq. done.
  - destruct Hp as [Hm Hp]. change (length (a :: b :: c :: d :: p)) with (4 + length p) in *.
    assert (upper_align (4 + length p) = 4 + upper_align (length p)) as Hup by (apply upper_align_shift; done).
    assert (padding (4 + length p) = padding (length p)) as Hpad by (unfold padding; rewrite Hup; f_equal; lia).
    rewrite Hpad. destruct (decide (x = 0)) as [->|Hx0].
    + exists (le_combine [a; b; c; d]). split; [reflexivity|]. intros Heq. rewrite <- magic_word in Heq.
      apply le_combine_inj in Heq; done.
    + assert (4 <= x) as H4 by (destruct (decide (x < 4)); [rewrite Nat.mod_small in Hx by done; lia|lia]).
      destruct (IH Hp (x - 4)) as (w & Ew & Hw); [apply mod_sub_0; done|lia|]. exists w. split; [|done].
      replace x with (length [a; b; c; d] + (x - 4)) by (simpl; lia).
      change ((a :: b :: c :: d :: p) ++ padding (length p)) with ([a; b; c; d] ++ (p ++ padding (length p))).
      by rewrite word_at_app.
Qed.

(** The words of a part: the magic number is the first one only, and the second
    has the flag. *)
Lemma part_words t rest x : part_ok t -> x mod 4 = 0 -> x < length (enc_part t) ->
  exists w, word_at (enc_part t ++ rest) x = Ok w /\ (w = kMagic <-> x = 0).
Proof.
  intros Ht Hx Hlt. rewrite length_enc_part in Hlt. destruct (lrec_range t Ht) as (Hr & _). unfold enc_part.
  destruct (decide (x = 0)) as [->|Hx0].
  { rewrite <- !app_assoc. rewrite word_at_prefix by (rewrite length_magic; lia). by exists kMagic. }
  assert (4 <= x) as H4 by (destruct (decide (x < 4)); [rewrite Nat.mod_small in Hx by done; lia|lia]).
  replace x with (length magic + (x - 4)) by (rewrite length_magic; lia). rewrite <- !app_assoc, word_at_app.
  destruct (decide (x = 4)) as [->|Hx4].
  { rewrite word_at_prefix by (rewrite length_le_split; lia). exists (lrec t). split; [|rewrite length_magic; unfold kMagic; lia].
    erewrite word_at_segment; [|rewrite length_le_split; lia|reflexivity].
    f_equal. change (segment 0 (0 + 4) (le_split 4 (lrec t))) with (le_split 4 (lrec t)). by apply lrec_word. }
  assert (8 <= x) as H8.
  { destruct (decide (x < 8)); [|lia]. pose proof (Nat.div_mod_eq x 4). lia. }
  replace (x - 4) with (length (le_split 4 (lrec t)) + (x - 8)) by (rewrite length_le_split; lia). rewrite word_at_app.
  destruct (body_words t.2 (x - 8)) as (w & Ew & Hw); [apply Ht|apply mod_sub_0; [done..|reflexivity]|lia|].
  exists w. split; [|rewrite length_magic, length_le_split; lia].
  rewrite app_assoc, word_at_prefix; [done|]. rewrite length_app, length_padding.
  destruct (upper_align_spec (length t.2)) as (k & Hk & _ & Hm). pose proof (Nat.div_mod_eq (x - 8) 4).
  assert ((x - 8) mod 4 = 0) by (apply mod_sub_0; [done..|reflexivity]). pose proof (Nat.div_mod_eq (upper_align (length t.2)) 4). lia.
Qed.

Lemma part_flag t rest : part_ok t -> word_at (enc_part t ++ rest) 4 = Ok (lrec t).
Proof.
  intros Ht. unfold enc_part. change 4 with (length magic + 0) at 2. rewrite <- !app_assoc, word_at_app.
  rewrite word_at_prefix by (rewrite length_le_split; lia). erewrite word_at_segment; [|rewrite length_le_split; lia|reflexivity].
  f_equal. change (segment 0 (0 + 4) (le_split 4 (lrec t))) with (le_split 4 (lrec t)). by apply lrec_word.
Qed.

Lemma enc_part_aligned t : length (enc_part t) mod 4 = 0.
Proof. rewrite length_enc_part. destruct (upper_align_spec (length t.2)) as (k & _ & _ & Hm). by apply (mod_add_0 8). Qed.

(** The words of a sequence of parts. *)
Lemma parts_word ts rest : forall x, Forall part_ok ts -> x mod 4 = 0 -> x < length (enc_parts ts) ->
  exists w, word_at (enc_parts ts ++ rest) x = Ok w /\
    (w = kMagic <-> exists ts1 t ts2, ts = ts1 ++ t :: ts2 /\ x = length (enc_parts ts1)) /\
    (forall ts1 t ts2, ts = ts1 ++ t :: ts2 -> x = length (enc_parts ts1) -> word_at (enc_parts ts ++ rest) (x + 4) = Ok (lrec t)).
Proof.
  induction ts as [|t ts IH]; intros x Hok Hx Hlt; [simpl in Hlt; lia|].
  apply Forall_cons in Hok as [Ht Hts]. rewrite enc_parts_cons, length_app in *. rewrite <- app_assoc.
  destruct (decide (x < length (enc_part t))) as [Hin|Hout].
  - destruct (part_words t (enc_parts ts ++ rest) x Ht Hx Hin) as (w & Ew & Hw). exists w. split; [done|].
    assert (forall ts1 t' ts2, t :: ts = ts1 ++ t' :: ts2 -> x = length (enc_parts ts1) -> ts1 = [] /\ t' = t) as Hfirst.
    { intros [|t1 ts1] t' ts2 E Hl; [by simplify_eq/=|]. injection E as <- E. rewrite enc_parts_cons, length_app in Hl. lia. }
    split.
    + rewrite Hw. split; [intros ->; by exists [], t, ts|]. intros (ts1 & t' & ts2 & E & Hl).
      destruct (Hfirst ts1 t' ts2 E Hl) as [-> _]. done.
    + intros ts1 t' ts2 E Hl. destruct (Hfirst ts1 t' ts2 E Hl) as [-> ->]. subst x. apply part_flag. done.
  - destruct (IH (x - length (enc_part t)) Hts) as (w & Ew & Hw & Hf).
    { apply mod_sub_0; [lia|done|apply enc_part_aligned]. }
    { lia. }
    pose proof (word_at_app (enc_part t) (enc_parts ts ++ rest)) as Hap.
    exists w. split; [rewrite <- Ew, <- Hap; f_equal; lia|]. split.
    + rewrite Hw. split.
      * intros (ts1 & t' & ts2 & -> & Hl). exists (t :: ts1), t', ts2. rewrite enc_parts_cons, length_app. split; [done|lia].
      * intros (ts1 & t' & ts2 & E & Hl). destruct ts1 as [|t1 ts1]; [simpl in Hl; pose proof (length_enc_part t); lia|].
        injection E as <- E. exists ts1, t', ts2. rewrite enc_parts_cons, length_app in *. split; [done|lia].
    + intros ts1 t' ts2 E Hl. destruct ts1 as [|t1 ts1]; [simpl in Hl; pose proof (length_enc_part t); lia|]. injection E as <- E.
      rewrite <- (Hf ts1 t' ts2 E), <- Hap; [f_equal; lia|]. rewrite enc_parts_cons, length_app in *. lia.
Qed.

(** The parts of a sequence of records. *)
Definition tokens (R : list (list byte)) : list (Z * list byte) := concat (map (fun r => flagged (pieces r)) R).

Lemma enc_all_tokens R : enc_all R = enc_parts (tokens R).
Proof.
  induction R as [|r R IH]; [done|]. unfold enc_all, tokens in *. cbn [map concat]. by rewrite enc_parts_app, IH.
Qed.

Lemma enc_all_app R1 R2 : enc_all (R1 ++ R2) = enc_all R1 ++ enc_all R2.
Proof. unfold enc_all. by rewrite map_app, concat_app. Qed.

Lemma tokens_part_ok R : Forall small R -> Forall part_ok (tokens R).
Proof. induction 1 as [|r R Hr HR IH]; [done|]. unfold tokens. cbn [map concat]. apply Forall_app. split; [by apply flagged_ok|done]. Qed.

(** A place between two records. *)
Definition boundary (R : list (list byte)) (x : nat) : Prop := exists R1 R2, R = R1 ++ R2 /\ x = length (enc_all R1).

Lemma token_boundary R : Forall small R -> forall ts1 t ts2, tokens R = ts1 ++ t :: ts2 ->
  ((t.1 = 0 \/ t.1 = 1)%Z <-> boundary R (length (enc_parts ts1))).
Proof.
  induction 1 as [|r R Hr HR IH]; intros ts1 t ts2 E; [by destruct ts1|].
  destruct (tokens_ok r Hr) as (t0 & ts0 & Er & Ht0 & _ & Hfl & Hl). unfold tokens in E. cbn [map concat] in E. rewrite Er in E.
  assert (enc r = enc_parts (t0 :: ts0)) as Eenc by (unfold enc; by rewrite Er).
  destruct ts1 as [|t1 ts1].
  { simplify_eq/=. split; [intros _; by exists [], (r :: R)|]. intros _. destruct Hfl as [[-> _]|[-> _]]; auto. }
  injection E as <- E. fold (tokens R) in E. apply app_eq_app in E as (l & [[E1 E2]|[E1 E2]]).
  - destruct l as [|t' l].
    + rewrite app_nil_r in E1. subst ts1. simpl in E2. rewrite (IH [] t ts2 (eq_sym E2)). change (length (enc_parts [])) with 0. rewrite <- Eenc. split.
      * intros _. exists [r], R. unfold enc_all. simpl. by rewrite app_nil_r.
      * intros _. by exists [], R.
    + simpl in E2. injection E2 as <- ->. subst ts0. apply Forall_app in Hl as [_ Hl]. apply Forall_cons in Hl as [Hl _].
      split; [lia|]. intros (R1 & R2 & E & Hx). exfalso. destruct R1 as [|r1 R1]; [rewrite enc_parts_cons, length_app, length_enc_part in Hx; simpl in Hx; lia|].
      injection E as <- E. unfold enc_all in Hx. cbn [map concat] in Hx. rewrite Eenc in Hx. rewrite length_app, !enc_parts_cons, !length_app in Hx.
      rewrite enc_parts_app, enc_parts_cons, !length_app, length_enc_part in Hx. pose proof (length_enc_part t). lia.
  - subst ts1. rewrite (IH l t ts2 E2). change (t0 :: ts0 ++ l) with ((t0 :: ts0) ++ l). rewrite enc_parts_app, <- Eenc, length_app. split.
    + intros (R1 & R2 & -> & Hx). exists (r :: R1), R2. unfold enc_all. cbn [map concat]. rewrite length_app. fold (enc_all R1). split; [done|lia].
    + intros (R1 & R2 & E & Hx). destruct R1 as [|r1 R1].
      { exfalso. rewrite Eenc, enc_parts_cons, length_app, length_enc_part in Hx. simpl in Hx. lia. }
      injection E as <- E. exists R1, R2. unfold enc_all in Hx. cbn [map concat] in Hx. rewrite length_app in Hx. fold (enc_all R1) in Hx. split; [done|lia].
Qed.

(** What the words of a file of records say. *)
Lemma record_word R x : Forall small R -> x mod 4 = 0 -> x < length (enc_all R) ->
  exists w, word_at (enc_all R) x = Ok w /\ (boundary R x -> w = kMagic) /\
    (w = kMagic -> x + 8 <= length (enc_all R) /\
       exists w1, word_at (enc_all R) (x + 4) = Ok w1 /\ w1 <> kMagic /\ ((DecodeFlag w1 = 0 \/ DecodeFlag w1 = 1)%Z <-> boundary R x)).
Proof.
  intros HR Hx Hlt. rewrite enc_all_tokens in *. pose proof (tokens_part_ok R HR) as Hok.
  destruct (parts_word (tokens R) [] x Hok Hx Hlt) as (w & Ew & Hw & Hf). rewrite app_nil_r in *. exists w. split; [done|]. split.
  - intros (R1 & R2 & E & Hb). apply Hw. destruct R2 as [|r R2].
    { rewrite app_nil_r in E. subst R. rewrite enc_all_tokens in Hb. lia. }
    assert (small r) as Hr by (rewrite E in HR; apply Forall_app in HR as [_ HR]; by apply Forall_cons in HR as [? _]).
    destruct (tokens_ok r Hr) as (t & ts & Er & _). exists (tokens R1), t, (ts ++ tokens R2).
    rewrite Hb, enc_all_tokens. split; [|done]. rewrite E. unfold tokens. rewrite map_app, concat_app. cbn [map concat]. by rewrite Er.
  - intros Hm. apply Hw in Hm as (ts1 & t & ts2 & E & Hl).
    assert (part_ok t) as Ht by (rewrite E in Hok; apply Forall_app in Hok as [_ Hok]; by apply Forall_cons in Hok as [? _]).
    split.
    { rewrite E, enc_parts_app, enc_parts_cons, !length_app, length_enc_part. lia. }
    exists (lrec t). split; [by apply (Hf ts1 t ts2)|]. destruct (lrec_range t Ht) as (Hr & -> & _).
    split; [unfold kMagic; lia|]. rewrite Hl. by apply (token_boundary R HR ts1 t ts2).
Qed.

Lemma is_head_records R x : Forall small R -> x mod 4 = 0 -> x < length (enc_all R) ->
  exists b, is_head (enc_all R) x = Ok b /\ (b = true <-> boundary R x).
Proof.
  intros HR Hx Hlt. destruct (record_word R x HR Hx Hlt) as (w & Ew & H1 & H2). unfold is_head. rewrite Ew. cbn [mbind outcome_bind].
  case_decide as Hm.
  - destruct (H2 Hm) as (_ & w1 & -> & _ & Hb). cbn [mbind outcome_bind]. eexists. split; [reflexivity|].
    rewrite orb_true_iff, !bool_decide_eq_true. done.
  - exists false. split; [done|]. split; [done|]. intros Hb. by apply H1 in Hb.
Qed.

Lemma enc_all_aligned R : length (enc_all R) mod 4 = 0.
Proof.
  rewrite enc_all_tokens. induction (tokens R) as [|t ts IH]; [done|]. rewrite enc_parts_cons, length_app.
  apply mod_add_0; [apply enc_part_aligned|done].
Qed.

Lemma boundary_aligned R x : boundary R x -> x mod 4 = 0 /\ x <= length (enc_all R).
Proof. intros (R1 & R2 & -> & ->). split; [apply enc_all_aligned|]. rewrite enc_all_app, length_app. lia. Qed.

Lemma boundary_end R : boundary R (length (enc_all R)).
Proof. exists R, []. by rewrite app_nil_r. Qed.

Lemma mod4_next x y : x mod 4 = 0 -> y mod 4 = 0 -> x < y -> x + 4 <= y.
Proof. intros Hx Hy Hlt. pose proof (Nat.div_mod_eq x 4). pose proof (Nat.div_mod_eq y 4). lia. Qed.

(** Two records that begin at one place are the same. *)
Lemma enc_unique r1 r2 l1 l2 : small r1 -> small r2 -> enc r1 ++ l1 = enc r2 ++ l2 -> r1 = r2 /\ l1 = l2.
Proof.
  intros H1 H2 E. set (fi := MemoryStringStream.mk (enc r1 ++ l1) 0).
  assert (sok fi) as Hs by (simpl; lia).
  destruct (next_record_ok r1 (length (pieces r1) + length (pieces r2)) fi l1 H1 Hs) as (f1 & E1 & U1 & _); [done|lia|].
  destruct (next_record_ok r2 (length (pieces r1) + length (pieces r2)) fi l2 H2 Hs) as (f2 & E2 & U2 & _); [done|lia|].
  rewrite E1 in E2. injection E2 as -> ->. by rewrite <- U1, <- U2.
Qed.

Lemma enc_nonempty r : small r -> 8 <= length (enc r).
Proof.
  intros Hr. destruct (tokens_ok r Hr) as (t & ts & E & _). unfold enc. rewrite E, enc_parts_cons, length_app, length_enc_part. lia.
Qed.

Lemma enc_all_cancel R1 : forall R l, Forall small R1 -> Forall small R -> enc_all R = enc_all R1 ++ l ->
  exists R2, R = R1 ++ R2 /\ l = enc_all R2.
Proof.
  induction R1 as [|r1 R1 IH]; intros R l H1 HR E; [by exists R|]. apply Forall_cons in H1 as [Hr1 H1].
  unfold enc_all in E. cbn [map concat] in E. destruct R as [|r R].
  { simpl in E. apply (f_equal length) in E. rewrite !length_app in E. pose proof (enc_nonempty r1 Hr1). simpl in E. lia. }
  apply Forall_cons in HR as [Hr HR]. cbn [map concat] in E. rewrite <- app_assoc in E.
  apply enc_unique in E as [-> E]; [|done..]. destruct (IH R l H1 HR E) as (R2 & -> & ->). by exists R2.
Qed.

(** ** The splitter *)

Definition records (l : list byte) : Prop := exists R, Forall small R /\ l = enc_all R.

Lemma boundary_records R x : Forall small R -> boundary R x -> records (take x (enc_all R)).
Proof.
  intros HR (R1 & R2 & -> & ->). rewrite enc_all_app, take_app_length. exists R1. split; [|done]. by apply Forall_app in HR as [? _].
Qed.

(** The first boundary from [p] on. *)
Definition first_from (R : list (list byte)) (p y : nat) : Prop :=
  p <= y <= length (enc_all R) /\ boundary R y /\ forall z, boundary R z -> p <= z -> y <= z.

Lemma first_here R p : boundary R p -> first_from R p p.
Proof. intros Hb. split; [destruct (boundary_aligned R p Hb); lia|]. by split. Qed.

Lemma first_step R p q y : p <= q -> (forall z, boundary R z -> p <= z -> q <= z) -> first_from R q y -> first_from R p y.
Proof. intros Hpq Hn (H1 & H2 & H3). split; [lia|]. split; [done|]. intros z Hz Hle. apply H3; [done|]. by apply Hn. Qed.

Lemma read_word_drop old f p : length old = 4 -> p + 4 <= length f ->
  read_word old (drop p f) = (segment p (p + 4) f, drop (p + 4) f) /\ length (segment p (p + 4) f) = 4.
Proof.
  intros Hold Hp. pose proof (segment_length p (p + 4) f ltac:(lia) ltac:(lia)) as Hl. replace (p + 4 - p) with 4 in Hl by lia.
  split; [|done]. unfold read_word. assert (take 4 (drop p f) = segment p (p + 4) f) as -> by (unfold segment; f_equal; lia).
  by rewrite Hl, <- Hold, drop_all, app_nil_r, drop_drop, Hold.
Qed.

Lemma word_segment f p w : p + 4 <= length f -> word_at f p = Ok w -> le_combine (segment p (p + 4) f) = w.
Proof. intros Hp. unfold word_at. rewrite bytes_at_ok by done. cbn [mbind outcome_bind]. by intros [= ->]. Qed.

Section Seek.
Context (R : list (list byte)) (HR : Forall small R).
Notation f := (enc_all R).

Lemma seek_head_ok fuel : forall p v l nstep, p mod 4 = 0 -> p <= length f -> length f - p < fuel -> length v = 4 -> length l = 4 ->
  exists y, seek_head fuel v l nstep (drop p f) = Ok (nstep + (y - p)) /\ first_from R p y.
Proof using HR.
  induction fuel as [|fuel IH]; intros p v l nstep Hp Hle Hf Hv Hl; [lia|]. cbn [seek_head].
  destruct (decide (p = length f)) as [->|Hne].
  { rewrite drop_all, decide_True by done. exists (length f). split; [f_equal; lia|]. apply first_here, boundary_end. }
  assert (p + 4 <= length f) as Hp4 by (apply mod4_next; [done|apply enc_all_aligned|lia]).
  destruct (record_word R p HR Hp ltac:(lia)) as (w & Ew & Hb & Hw).
  rewrite decide_False by (intros E; apply (f_equal length) in E; rewrite length_drop in E; simpl in E; lia).
  destruct (read_word_drop v f p Hv Hp4) as [-> Hv4]. rewrite (word_segment f p w Hp4 Ew).
  assert (forall z, boundary R z -> p <= z -> z <> p -> p + 4 <= z) as Hnext.
  { intros z Hz Hpz Hzp. destruct (boundary_aligned R z Hz). apply mod4_next; [done..|lia]. }
  case_decide as Hm.
  - destruct (Hw Hm) as (Hp8 & w1 & Ew1 & Hn1 & Hfl).
    rewrite check_true by (apply bool_decide_eq_true; intros E; apply (f_equal length) in E; rewrite length_drop in E; simpl in E; lia).
    cbn [mbind outcome_bind]. destruct (read_word_drop l f (p + 4) Hl ltac:(lia)) as [-> Hl4].
    rewrite (word_segment f (p + 4) w1 ltac:(lia) Ew1).
    destruct (bool_decide (DecodeFlag w1 = 0%Z) || bool_decide (DecodeFlag w1 = 1%Z)) eqn:Ef.
    + exists p. rewrite orb_true_iff, !bool_decide_eq_true in Ef. split; [f_equal; lia|]. apply first_here, Hfl, Ef.
    + rewrite orb_false_iff, !bool_decide_eq_false in Ef.
      destruct (IH (p + 4 + 4) (segment p (p + 4) f) (segment (p + 4) (p + 4 + 4) f) (nstep + 4 + 4)) as (y & Ey & Hy);
        [do 2 (apply mod_add_0; [|done]); done|lia|lia|done|done|].
      exists y. split; [rewrite Ey; f_equal; destruct Hy; lia|]. eapply first_step; [| |exact Hy]; [lia|].
      intros z Hz Hpz. assert (z <> p) as Hzp by (intros ->; apply Hfl in Hz; tauto).
      assert (z <> p + 4) as Hzp4.
      { intros ->. destruct (record_word R (p + 4) HR) as (w' & Ew' & Hb' & _); [by apply mod_add_0|lia|].
        rewrite Ew1 in Ew'. injection Ew' as <-. by apply Hn1, Hb'. }
      pose proof (Hnext z Hz Hpz Hzp). destruct (boundary_aligned R z Hz). apply mod4_next; [by apply mod_add_0|done|lia].
  - destruct (IH (p + 4) (segment p (p + 4) f) l (nstep + 4)) as (y & Ey & Hy); [by apply mod_add_0|lia|lia|done|done|].
    exists y. split; [rewrite Ey; f_equal; destruct Hy; lia|]. eapply first_step; [| |exact Hy]; [lia|].
    intros z Hz Hpz. apply Hnext; [done..|]. intros ->. by apply Hm, Hb.
Qed.

(** The same from a pointer into a chunk. *)
Lemma find_head_ok n : forall p, p mod 4 = 0 -> p + 4 * n <= length f -> length f < p + 4 * n + 8 ->
  exists y, find_head f n p (length f) = Ok y /\ first_from R p y.
Proof using HR.
  assert (forall p, p <= length f -> length f < p + 8 -> p mod 4 = 0 -> ~ boundary R p \/ p = length f) as Hnone.
  { intros p H1 H2 H3. destruct (decide (p = length f)); [by right|left]. intros Hb.
    destruct (record_word R p HR H3 ltac:(lia)) as (w & _ & Hb' & Hw). destruct (Hw (Hb' Hb)). lia. }
  induction n as [|n IH]; intros p Hp H1 H2; cbn [find_head].
  - exists (length f). split; [done|]. split; [lia|]. split; [apply boundary_end|]. intros z Hz Hpz.
    destruct (boundary_aligned R z Hz) as [Hz4 Hzl]. destruct (Hnone z) as [|]; [lia|lia|done|done|lia].
  - destruct (is_head_records R p HR Hp ltac:(lia)) as (b & -> & Hb). cbn [mbind outcome_bind]. destruct b.
    + exists p. split; [done|]. apply first_here, Hb. done.
    + destruct (IH (p + 4)) as (y & -> & Hy); [by apply mod_add_0|lia|lia|]. exists y. split; [done|].
      eapply first_step; [| |exact Hy]; [lia|]. intros z Hz Hpz. destruct (boundary_aligned R z Hz). apply mod4_next; [done..|].
      assert (z <> p) by (intros ->; by apply Hb in Hz). lia.
Qed.

End Seek.

Lemma is_head_prefix l rest p : p + 8 <= length l -> is_head (l ++ rest) p = is_head l p.
Proof. intros Hp. unfold is_head. by rewrite !word_at_prefix by lia. Qed.

Lemma find_last_head_ok R l rest k : Forall small R -> l ++ rest = enc_all R -> 4 * k + 8 <= length l ->
  exists n, find_last_head l k = Ok n /\ n <= length l /\ (n <> 0 -> boundary R n).
Proof.
  intros HR El. induction k as [|k IH]; intros Hk; cbn [find_last_head]; [exists 0; split_and!; [done|lia|done]|].
  rewrite <- (is_head_prefix l rest) by lia. rewrite El.
  destruct (is_head_records R (4 * S k) HR) as (b & -> & Hb).
  { rewrite Nat.mul_comm. apply Nat.Div0.mod_mul. }
  { rewrite <- El, length_app. lia. }
  cbn [mbind outcome_bind]. destruct b; [|apply IH; lia]. exists (4 * S k). split_and!; [done|lia|]. intros _. by apply Hb.
Qed.

Section RecordLaws.
Context (junk_v junk_lrec : list byte) (Hv : length junk_v = 4) (Hl : length junk_lrec = 4).

Lemma Seek_records R k : Forall small R -> k mod 4 = 0 -> k <= length (enc_all R) ->
  exists n, SeekRecordBegin (Splitter := RecordIOSplitter junk_v junk_lrec) (drop k (enc_all R)) = Ok n /\ first_from R k (k + n).
Proof using Hv Hl.
  intros HR Hk Hle. cbn [SeekRecordBegin RecordIOSplitter].
  destruct (seek_head_ok R HR (S (length (drop k (enc_all R)))) k junk_v junk_lrec 0) as (y & E & Hy); [done|done|rewrite length_drop; lia|done..|].
  exists (y - k). split; [exact E|]. replace (k + (y - k)) with y by (destruct Hy; lia). done.
Qed.

#[program] Definition RecordIO_laws : SplitterLaws (Sp := RecordIOSplitter junk_v junk_lrec) := {|
  align := 4; whole := records; rec_end _ := True |}.
Next Obligation. lia. Qed.
Next Obligation. by exists []. Qed.
Next Obligation.
  intros l1 l2 (R1 & H1 & ->) (R2 & H2 & ->). exists (R1 ++ R2). rewrite enc_all_app. split; [by apply Forall_app|done].
Qed.
Next Obligation.
  intros l1 l2 (R & HR & E) (R1 & H1 & ->). destruct (enc_all_cancel R1 R l2 H1 HR (eq_sym E)) as (R2 & -> & ->).
  apply Forall_app in HR as [_ HR]. by exists R2.
Qed.
Next Obligation. done. Qed.
Next Obligation.
  intros l rest Hne Hmod (R & HR & E). cbn -[find_last_head Nat.modulo Nat.div].
  assert (length l mod 4 = 0) as Hm4.
  { pose proof (Nat.div_mod_eq (length l) 8). unfold word_size in Hmod. rewrite Hmod in *.
    replace (length l) with (length l / 8 * 2 * 4) by lia. apply Nat.Div0.mod_mul. }
  assert (8 <= length l) as H8.
  { pose proof (Nat.div_mod_eq (length l) 8). unfold word_size in Hmod. lia. }
  rewrite !check_true by (by apply bool_decide_eq_true). cbn [mbind outcome_bind].
  destruct (find_last_head_ok R l rest (length l / 4 - 2) HR E) as (n & En & Hn & Hb).
  { pose proof (Nat.div_mod_eq (length l) 4). lia. }
  exists n. split; [exact En|]. split; [done|]. intros Hn0. split; [done|].
  rewrite <- (take_app_le l rest n) by done. rewrite E. apply boundary_records; auto.
Qed.
Next Obligation.
  intros f k (R & HR & ->) Hk Hmod. destruct (Seek_records R k HR Hmod Hk) as (n & E & H1 & H2 & _).
  exists n. split; [exact E|]. split; [lia|]. split; [by right|]. by apply boundary_records.
Qed.
Next Obligation.
  intros f k k' n m (R & HR & ->) Hk Hm Hm' E1 E2. destruct (Seek_records R k HR Hm ltac:(lia)) as (n' & E1' & _ & _ & Hmin).
  destruct (Seek_records R k' HR Hm' ltac:(lia)) as (m' & E2' & H1 & H2 & _). rewrite E1 in E1'. rewrite E2 in E2'. simplify_eq.
  apply Hmin; [done|lia].
Qed.

End RecordLaws.

(** ** Extracting records from a chunk *)

Lemma segment_inserts_out {A} i (d l : list A) b e : i + length d <= b -> segment b e (list_inserts i d l) = segment b e l.
Proof.
  intros Hi. apply segment_eq; [done|]. intros j Hj. destruct (decide (b + j < length l)).
  - rewrite list_lookup_inserts_ge; [done|lia].
  - rewrite !lookup_ge_None_2; [done|lia|rewrite length_inserts; lia].
Qed.

Lemma segment_inserts_in {A} o i (d l : list A) : o <= i -> i + length d <= length l ->
  segment o (i + length d) (list_inserts i d l) = segment o i l ++ d.
Proof.
  intros Ho Hl. unfold segment. rewrite take_drop_commute. replace (o + (i + length d - o)) with (i + length d) by lia.
  rewrite take_list_inserts by lia. rewrite drop_app_le by (rewrite length_take; lia). f_equal.
  rewrite take_drop_commute. do 2 f_equal. lia.
Qed.

Lemma segment_word buf b e x : x + 4 <= e - b -> e <= length buf -> word_at buf (b + x) = word_at (segment b e buf) x.
Proof.
  intros Hx He. pose proof (segment_length b e buf ltac:(lia) He) as Hl.
  assert (buf = take b buf ++ segment b e buf ++ drop (e - b) (drop b buf)) as E by (unfold segment; by rewrite !take_drop).
  assert (length (take b buf) = b) as Hb by (rewrite length_take; lia).
  replace (b + x) with (length (take b buf) + x) by lia. rewrite E at 1. rewrite word_at_app. apply word_at_prefix. lia.
Qed.

(** The data of a part and what comes behind it, in a chunk. *)
Lemma part_data buf b e t rest : segment b e buf = enc_part t ++ rest -> b <= e <= length buf ->
  segment (b + 8) (b + 8 + length t.2) buf = t.2.
Proof.
  intros Hseg Hbe. pose proof (f_equal length Hseg) as Hlen. rewrite segment_length, length_app, length_enc_part in Hlen by lia.
  destruct (upper_align_spec (length t.2)) as (k & Hk & _).
  assert (segment (b + 8) (b + 8 + length t.2) buf = segment 8 (8 + length t.2) (segment b e buf)) as ->.
  { apply segment_eq; [lia|]. intros j Hj. rewrite segment_lookup by lia. f_equal. lia. }
  rewrite Hseg. unfold enc_part, segment. replace (8 + length t.2 - 8) with (length t.2) by lia.
  change 8 with (4 + 4). rewrite <- drop_drop, <- !app_assoc. change 4 with (length magic) at 2. rewrite drop_app_length.
  rewrite <- (length_le_split 4 (lrec t)) at 1. rewrite drop_app_length. by rewrite take_app_length.
Qed.

Lemma part_rest (buf : list byte) b e l rest : segment b e buf = l ++ rest -> segment (b + length l) e buf = rest.
Proof.
  intros Hseg. assert (segment (b + length l) e buf = drop (length l) (segment b e buf)) as ->; [|by rewrite Hseg, drop_app_length].
  unfold segment. rewrite skipn_firstn_comm, drop_drop. f_equal. lia.
Qed.

(** One part: the data moves up to what is there of the record. *)
Lemma extract_part_ok fuel buf b e o size cflag t rest :
  part_ok t -> segment b e buf = enc_part t ++ rest -> b <= e <= length buf -> o + size <= b -> cflag <> 3%Z ->
  exists buf', extract_parts (S fuel) buf b e o size cflag =
      extract_parts fuel buf' (b + length (enc_part t)) e o (size + 4 + length t.2) t.1 /\
    length buf' = length buf /\
    segment o (o + (size + 4 + length t.2)) buf' = segment o (o + size) buf ++ magic ++ t.2 /\
    segment (b + length (enc_part t)) e buf' = rest.
Proof.
  intros Ht Hseg Hbe Ho Hc. destruct (lrec_range t Ht) as (_ & Hf & Hl).
  pose proof (f_equal length Hseg) as Hlen. rewrite segment_length, length_app in Hlen by lia.
  pose proof (length_enc_part t) as Hlp. destruct (upper_align_spec (length t.2)) as (k & Hk & _).
  cbn [extract_parts]. rewrite (decide_False (P := cflag = 3%Z)) by done.
  rewrite (check_true (bool_decide (b + 8 <= e))) by (apply bool_decide_eq_true; lia). cbn [mbind outcome_bind].
  assert (word_at buf b = Ok kMagic) as ->.
  { rewrite <- (Nat.add_0_r b) at 1. rewrite (segment_word buf b e 0), Hseg by lia.
    destruct (part_words t rest 0 Ht) as (w & -> & Hw); [done|lia|]. by rewrite (proj2 Hw eq_refl). }
  cbn [mbind outcome_bind]. rewrite bool_decide_eq_true_2 by done. cbn [check mbind outcome_bind].
  rewrite (segment_word buf b e 4), Hseg, part_flag by (done || lia). cbn [mbind outcome_bind]. rewrite Hf, Hl.
  rewrite copy_to_ok by (rewrite length_magic; lia). cbn [mbind outcome_bind]. set (buf1 := list_inserts (o + size) magic buf).
  assert (length buf1 = length buf) as Hl1 by apply length_inserts.
  assert (segment o (o + size + 4) buf1 = segment o (o + size) buf ++ magic) as Hs1.
  { apply (segment_inserts_in o (o + size) magic buf); [lia|rewrite length_magic; lia]. }
  assert (segment (b + 8) (b + 8 + length t.2) buf1 = t.2) as Hd.
  { unfold buf1. rewrite segment_inserts_out by (rewrite length_magic; lia).
    by apply (part_data buf b e t rest). }
  assert (exists buf', (if decide (length t.2 = 0) then Ok buf1 else
      d ← bytes_at buf1 (b + 8) (length t.2); copy_to buf1 (o + (size + 4)) d) = Ok buf' /\ length buf' = length buf /\
    segment o (o + (size + 4 + length t.2)) buf' = segment o (o + size) buf ++ magic ++ t.2 /\
    forall e', segment (b + length (enc_part t)) e' buf' = segment (b + length (enc_part t)) e' buf1) as (buf' & -> & Hl' & Hs' & Hr').
  { case_decide as Hz.
    - exists buf1. assert (t.2 = []) as E0 by (by apply nil_length_inv). rewrite E0, app_nil_r. simpl.
      replace (o + (size + 4 + 0)) with (o + size + 4) by lia. done.
    - rewrite bytes_at_ok, Hd by lia. cbn [mbind outcome_bind]. rewrite copy_to_ok by lia. eexists. split; [reflexivity|].
      split; [by rewrite length_inserts|]. split.
      + replace (o + (size + 4 + length t.2)) with (o + (size + 4) + length t.2) by lia.
        rewrite segment_inserts_in by lia. replace (o + (size + 4)) with (o + size + 4) by lia. by rewrite Hs1, <- app_assoc.
      + intros e'. apply segment_inserts_out. lia. }
  cbn [mbind outcome_bind]. exists buf'. replace (b + 8 + upper_align (length t.2)) with (b + length (enc_part t)) by lia.
  split; [done|]. split; [done|]. split; [done|]. rewrite Hr'. unfold buf1. rewrite segment_inserts_out by (rewrite length_magic; lia).
  by apply part_rest.
Qed.

Lemma extract_later ps : forall fuel buf b e o size cflag rest,
  ps <> [] -> Forall part_ok (later ps) -> segment b e buf = enc_parts (later ps) ++ rest ->
  b <= e <= length buf -> o + size <= b -> cflag <> 3%Z -> length ps < fuel ->
  exists buf' size', extract_parts fuel buf b e o size cflag = Ok (size', b + length (enc_parts (later ps)), buf') /\
    length buf' = length buf /\ segment o (o + size') buf' = segment o (o + size) buf ++ magic ++ join ps /\
    segment (b + length (enc_parts (later ps))) e buf' = rest.
Proof.
  induction ps as [|p ps IH]; intros fuel buf b e o size cflag rest Hne Hok Hseg Hbe Ho Hc Hf; [done|].
  destruct fuel as [|fuel]; [lia|]. pose proof (f_equal length Hseg) as Hlen. rewrite segment_length, length_app in Hlen by lia.
  destruct ps as [|p2 ps].
  - cbn [later] in *. rewrite enc_parts_one in *. apply Forall_cons in Hok as [Hok _].
    destruct (extract_part_ok fuel buf b e o size cflag (3%Z, p) rest Hok Hseg Hbe Ho Hc) as (buf' & -> & Hl & Hs & Hr).
    destruct fuel as [|fuel]; [simpl in Hf; lia|]. cbn [extract_parts fst]. rewrite decide_True by done. by exists buf', (size + 4 + length p).
  - change (later (p :: p2 :: ps)) with ((2%Z, p) :: later (p2 :: ps)) in *. apply Forall_cons in Hok as [H1 H2].
    rewrite enc_parts_cons, <- app_assoc in Hseg. rewrite enc_parts_cons, length_app in *.
    destruct (extract_part_ok fuel buf b e o size cflag (2%Z, p) _ H1 Hseg Hbe Ho Hc) as (buf1 & -> & Hl & Hs & Hr).
    pose proof (length_enc_part (2%Z, p)) as Hlp. cbn [snd] in Hlp. destruct (upper_align_spec (length p)) as (k & Hk & _).
    cbn [snd fst] in *.
    destruct (IH fuel buf1 (b + length (enc_part (2%Z, p))) e o (size + 4 + length p) 2%Z rest) as (buf2 & size2 & E & Hl2 & Hs2 & Hr2);
      [done|done|done|lia|lia|done|simpl in *; lia|].
    exists buf2, size2. rewrite Nat.add_assoc. split; [exact E|]. split; [lia|]. split; [|exact Hr2].
    rewrite Hs2, Hs. cbn [join]. by rewrite <- !app_assoc.
Qed.

(** A chunk that holds whole records from its position on. *)
Record chunk_ok (R : list (list byte)) (c : Chunk) : Prop := {
  co_align : c.(c_begin) mod 4 = 0;
  co_range : c.(c_begin) <= c.(c_end) <= length c.(data);
  co_bytes : segment c.(c_begin) c.(c_end) c.(data) = enc_all R
}.

Lemma chunk_end R c : chunk_ok R c -> c.(c_end) = c.(c_begin) + length (enc_all R).
Proof. intros [_ Hr Hb]. apply (f_equal length) in Hb. rewrite segment_length in Hb by lia. lia. Qed.

Lemma flagged_head r : exists t ts, flagged (pieces r) = t :: ts.
Proof. destruct (pieces_join r) as (_ & p & ps & ->). destruct ps; simpl; eauto. Qed.

Lemma enc_cons_length r R : 8 <= length (enc_all (r :: R)).
Proof.
  unfold enc_all. cbn [map concat]. unfold enc. destruct (flagged_head r) as (t & ts & ->).
  rewrite enc_parts_cons, !length_app, length_enc_part. lia.
Qed.

(** [ExtractNextRecord] takes the first record. *)
Lemma RExtract_ok c r R : small r -> chunk_ok (r :: R) c ->
  exists blob c', RExtractNextRecord c = Ok (Some (blob, c')) /\ blob_bytes blob = r /\ chunk_ok R c' /\
    length c'.(data) = length c.(data).
Proof.
  intros Hr Hc. pose proof (chunk_end _ _ Hc) as He. pose proof (enc_cons_length r R) as H8. destruct Hc as [Hal Hrg Hby].
  pose proof (enc_all_aligned (r :: R)) as Hea. destruct c as [b e buf]. cbn [c_begin c_end data] in *.
  unfold RExtractNextRecord. cbn [c_begin c_end data]. rewrite (decide_False (P := b = e)) by lia.
  rewrite (check_true (bool_decide (b + 8 <= e))) by (apply bool_decide_eq_true; lia). cbn [mbind outcome_bind].
  rewrite (check_true (bool_decide (b mod 4 = 0))) by by apply bool_decide_eq_true. cbn [mbind outcome_bind].
  rewrite (check_true (bool_decide (e mod 4 = 0))) by (apply bool_decide_eq_true; rewrite He; by apply mod_add_0). cbn [mbind outcome_bind].
  destruct (pieces_join r) as (Hj & p & ps & Ep). pose proof (flagged_ok r Hr) as Hok. pose proof (enc_length r Hr) as Hel.
  change (enc_all (r :: R)) with (enc r ++ enc_all R) in Hby, He. unfold enc in Hby, He, Hel. rewrite Ep in *.
  rewrite length_app in He.
  set (f := if decide (ps = []) then 0%Z else 1%Z).
  assert (flagged (p :: ps) = (f, p) :: later ps) as Ef by (unfold f; by destruct ps). rewrite Ef in *.
  rewrite enc_parts_cons, length_app in *. rewrite <- app_assoc in Hby. apply Forall_cons in Hok as [H1 H2].
  destruct (lrec_range (f, p) H1) as (_ & Hf & Hl). cbn [fst snd] in Hf, Hl.
  pose proof (length_enc_part (f, p)) as Hlp. cbn [snd] in Hlp. destruct (upper_align_spec (length p)) as (k & Hk & _).
  rewrite (segment_word buf b e 4), Hby, part_flag by (done || lia). cbn [mbind outcome_bind]. rewrite Hf, Hl.
  replace (b + 8 + upper_align (length p)) with (b + length (enc_part (f, p))) by lia.
  rewrite (check_true (bool_decide (b + length (enc_part (f, p)) <= e))) by (apply bool_decide_eq_true; lia). cbn [mbind outcome_bind].
  pose proof (part_data buf b e (f, p) _ Hby Hrg) as Hd. cbn [snd] in Hd.
  pose proof (part_rest buf b e _ _ Hby) as Hrest.
  pose proof (enc_part_aligned (f, p)) as Hpa.
  destruct ps as [|p2 ps].
  - rewrite (decide_True (P := f = 0%Z)) by done. do 2 eexists. split; [reflexivity|].
    split; [|split; [split; cbn [c_begin c_end data]; [by apply mod_add_0|lia|exact Hrest]|done]].
    unfold blob_bytes. cbn [dptr bsize]. unfold segment in Hd. replace (b + 8 + length p - (b + 8)) with (length p) in Hd by lia.
    rewrite Hd. simpl in Hj. done.
  - rewrite (decide_False (P := f = 0%Z)) by done. cbn [check bool_decide mbind outcome_bind].
    rewrite (check_true (bool_decide (f = 1%Z))) by done. cbn [mbind outcome_bind].
    destruct (extract_later (p2 :: ps) (S (length buf)) buf (b + length (enc_part (f, p))) e (b + 8) (length p) f (enc_all R))
      as (buf' & size' & -> & Hl' & Hs' & Hr'); [done|done|exact Hrest|lia|lia|done|simpl in *; lia|].
    cbn [mbind outcome_bind]. do 2 eexists. split; [reflexivity|].
    assert (length (enc_parts (later (p2 :: ps))) mod 4 = 0) as Hpl.
    { clear. induction (later (p2 :: ps)) as [|t ts IH]; [done|]. rewrite enc_parts_cons, length_app.
      apply mod_add_0; [apply enc_part_aligned|done]. }
    split; [|split; [split; cbn [c_begin c_end data]; [apply mod_add_0; [by apply mod_add_0|done]|lia|exact Hr']|done]].
    unfold blob_bytes. cbn [dptr bsize]. unfold segment in Hs' at 1. replace (b + 8 + size' - (b + 8)) with size' in Hs' by lia.
    rewrite Hs', Hd, <- Hj. done.
Qed.

(** What is left of a chunk when records are taken from it. *)
Definition holds (R : list (list byte)) (c : Chunk) : Prop := R = [] /\ c.(c_begin) = c.(c_end) \/ chunk_ok R c.

Lemma holds_nil c : holds [] c -> RExtractNextRecord c = Ok None.
Proof.
  intros Hc. unfold RExtractNextRecord. rewrite decide_True; [done|]. destruct Hc as [[_ E]|Hc]; [done|].
  apply chunk_end in Hc. simpl in Hc. lia.
Qed.

Section SplitterReading.
Context (junk_v junk_lrec : list byte) (Hv : length junk_v = 4) (Hl : length junk_lrec = 4).
Context (got : nat -> nat -> nat -> nat).
Hypothesis got_ok : forall f pos n, 0 < n -> 0 < got f pos n <= n.

(** [NextRecord] hands out the next record, of the chunk that is there or of the
    next one. *)
Lemma SNextRecord_ok s R1 R2 : base_ok s -> holds R1 s.(tmp_chunk_) -> to_come s = enc_all R2 -> Forall small (R1 ++ R2) ->
  exists r s', SNextRecord junk_v junk_lrec got s = Ok (r, s') /\
    match R1 ++ R2 with
    | [] => r = None
    | x :: R => exists b R1' R2', r = Some b /\ blob_bytes b = x /\ base_ok s' /\ holds R1' s'.(tmp_chunk_) /\
        to_come s' = enc_all R2' /\ R = R1' ++ R2'
    end.
Proof using Hv Hl got_ok.
  intros Hok Hh Htc Hsm. unfold SNextRecord. cbn [next_loop]. destruct R1 as [|x R1].
  2: { destruct Hh as [[? _]|Hc]; [done|]. simpl in Hsm. apply Forall_cons in Hsm as [Hx _].
    destruct (RExtract_ok _ x R1 Hx Hc) as (b & c' & -> & Hb & Hc' & Hlen). cbn [mbind outcome_bind].
    do 2 eexists. split; [reflexivity|]. exists b, R1, R2. split_and!; try done; [|by right].
    apply set_chunk_ok; [done|]. rewrite Hlen. apply Hok. }
  rewrite (holds_nil _ Hh). cbn [mbind outcome_bind]. simpl in Hsm.
  pose (SL := RecordIO_laws junk_v junk_lrec Hv Hl).
  destruct (Load_ok (SL := SL) got got_ok s (tmp_chunk_ s) (buffer_size_ s) Hok) as (r & c & s1 & -> & Hok1 & _ & Hmod & Hr);
    [exists R2; by rewrite Htc|apply Hok|apply Hok|]. cbn [mbind outcome_bind]. destruct r.
  - destruct Hr as (Hb & He & Heq & (R & HR & ER) & _). rewrite Htc, ER in Heq.
    destruct (enc_all_cancel R R2 _ HR Hsm Heq) as (R2' & -> & Htc1).
    assert (chunk_ok R c) as Hc.
    { split; rewrite ?Hb; [done|lia|]. unfold segment. by rewrite Nat.sub_0_r, drop_0. }
    destruct R as [|x R]; [apply chunk_end in Hc; simpl in Hc; lia|]. apply Forall_cons in HR as [Hx HR].
    cbn [tmp_chunk_ set_chunk]. destruct (RExtract_ok c x R Hx Hc) as (b & c' & -> & Hbb & Hc' & Hlen). cbn [mbind outcome_bind].
    do 2 eexists. split; [reflexivity|]. exists b, R, R2'. split_and!; try done; [|by right].
    apply set_chunk_ok; [by apply set_chunk_ok|]. by rewrite Hlen.
  - destruct Hr as (H1 & _). do 2 eexists. split; [reflexivity|]. rewrite Htc in H1. destruct R2 as [|x R2]; [done|].
    pose proof (enc_cons_length x R2) as H8. rewrite H1 in H8. simpl in H8. lia.
Qed.

Lemma part_records_ok fuel : forall s R1 R2, base_ok s -> holds R1 s.(tmp_chunk_) -> to_come s = enc_all R2 ->
  Forall small (R1 ++ R2) -> length (R1 ++ R2) < fuel -> part_records junk_v junk_lrec got fuel s = Ok (R1 ++ R2).
Proof using Hv Hl got_ok.
  induction fuel as [|fuel IH]; intros s R1 R2 Hok Hh Htc Hsm Hf; [lia|]. cbn [part_records].
  destruct (SNextRecord_ok s R1 R2 Hok Hh Htc Hsm) as (r & s' & -> & Hr). cbn [mbind outcome_bind].
  destruct (R1 ++ R2) as [|x R]; [by rewrite Hr|]. destruct Hr as (b & R1' & R2' & -> & <- & Hok' & Hh' & Htc' & ->).
  apply Forall_cons in Hsm as [_ Hsm]. rewrite (IH s' R1' R2' Hok' Hh' Htc' Hsm) by (simpl in Hf; lia). done.
Qed.

(** All that a worker does with its part. *)
Context (kBufferSize : nat) (Hbuf : 0 < kBufferSize).

Definition read_part_records (found : list (list byte)) (rank nsplit : nat) : outcome (list (list byte)) :=
  s ← Init (Sp := RecordIOSplitter junk_v junk_lrec) kBufferSize found rank nsplit 4;
  part_records junk_v junk_lrec got (S (length (concat found))) s.

Lemma records_length R : length R <= length (enc_all R).
Proof using. clear. induction R as [|r R IH]; [done|]. pose proof (enc_cons_length r []) as H8. unfold enc_all in *.
  cbn [map concat length] in *. rewrite app_nil_r in H8. rewrite length_app. lia. Qed.

Lemma enc_all_concat Rs : concat (map enc_all Rs) = enc_all (concat Rs).
Proof using. clear. induction Rs as [|R Rs IH]; [done|]. simpl. by rewrite enc_all_app, IH. Qed.

Lemma enc_all_inj R R' : Forall small R -> Forall small R' -> enc_all R = enc_all R' -> R = R'.
Proof using.
  clear. intros H H' E. destruct (enc_all_cancel R' R [] H' H) as (R2 & -> & E2); [by rewrite app_nil_r|].
  destruct R2 as [|x R2]; [by rewrite app_nil_r|]. pose proof (enc_cons_length x R2) as H8. rewrite <- E2 in H8. simpl in H8. lia.
Qed.

Notation SL := (RecordIO_laws junk_v junk_lrec Hv Hl).

Lemma record_files Rs : Forall (Forall small) Rs -> files_ok (SL := SL) (InitInputFileInfo (map enc_all Rs)).
Proof.
  intros Hsm. apply Forall_forall. intros f [_ Hf]%list_elem_of_filter. apply list_elem_of_In, in_map_iff in Hf as (R & <- & HR).
  rewrite Forall_forall in Hsm. split; [|apply enc_all_aligned]. exists R. split; [|done]. apply Hsm. by apply list_elem_of_In.
Qed.

(** The first [m] parts hold the records up to where the next part begins. *)
Lemma record_parts Rs nsplit m : 0 < nsplit -> Forall (Forall small) Rs ->
  let files := InitInputFileInfo (map enc_all Rs) in
  exists parts, Forall2 (fun rank R => read_part_records (map enc_all Rs) rank nsplit = Ok R) (seq 0 m) parts /\
    Forall small (concat parts) /\ enc_all (concat parts) = take (edge (Sp := RecordIOSplitter junk_v junk_lrec) files nsplit 4 m) (concat files).
Proof using Hv Hl Hbuf got_ok.
  intros Hn Hsm files. pose proof (record_files Rs Hsm) as Hok. fold files in Hok.
  induction m as [|m (parts & Hp & Hps & Hc)].
  { exists []. split; [constructor|]. split; [done|]. by rewrite edge_first. }
  assert (4 mod align (SplitterLaws := SL) = 0) as Hal by done.
  destruct (Init_ok (SL := SL) 4 Hal kBufferSize Hbuf (map enc_all Rs) m nsplit Hn) as (s & Es & Hs & _ & _ & Htc).
  { eapply Forall_impl; [exact Hok|]. by intros f [_ Hf]. }
  { exact Hok. }
  fold files in Htc. rewrite Nat.add_1_r in Htc.
  pose proof (edge_mono (SL := SL) 4 Hal files nsplit m Hok) as Hmono. rewrite Nat.add_1_r in Hmono.
  destruct (edge_ok (SL := SL) 4 Hal files nsplit (S m) Hok) as (_ & Hle & _ & (R & HR & ER)).
  set (e := edge files nsplit 4 (S m)) in *. set (b := edge files nsplit 4 m) in *.
  assert (take e (concat files) = take b (concat files) ++ segment b e (concat files)) as Etk.
  { change (take ?n (concat files)) with (take n (drop 0 (concat files))). rewrite <- (Nat.sub_0_r b), <- (Nat.sub_0_r e) at 1.
    fold (segment 0 b (concat files)) (segment 0 e (concat files)). rewrite segment_app by lia. done. }
  rewrite Etk, <- Hc, <- Htc in ER. symmetry in ER.
  destruct (enc_all_cancel (concat parts) R _ Hps HR ER) as (R2 & -> & E2). apply Forall_app in HR as [_ H2].
  exists (parts ++ [R2]). rewrite seq_S, concat_app. simpl. rewrite app_nil_r. split_and!.
  - apply Forall2_app; [done|]. constructor; [|done]. unfold read_part_records. rewrite Es. cbn [mbind outcome_bind].
    apply (part_records_ok _ s [] R2); [apply Hs|left; split; [done|apply Hs]|done|done|].
    simpl. pose proof (records_length R2) as HlR. rewrite <- E2, Htc in HlR. unfold segment in HlR. rewrite length_take, length_drop in HlR.
    assert (concat files = concat (map enc_all Rs)) as <- by apply length_filter_concat. lia.
  - by apply Forall_app.
  - rewrite Etk, enc_all_app, Hc, <- E2, Htc. done.
Qed.

(** All the parts. *)
Lemma record_parts_all Rs nsplit : 0 < nsplit -> Forall (Forall small) Rs ->
  exists parts, Forall2 (fun rank R => read_part_records (map enc_all Rs) rank nsplit = Ok R) (seq 0 nsplit) parts /\
    concat parts = concat Rs.
Proof using Hv Hl Hbuf got_ok.
  intros Hn Hsm. destruct (record_parts Rs nsplit nsplit Hn Hsm) as (parts & Hp & Hps & Hc).
  exists parts. split; [done|]. apply enc_all_inj; [done|by apply Forall_concat|].
  rewrite (edge_last (SL := SL) 4), firstn_all, length_filter_concat, enc_all_concat in Hc; auto with lia.
  by apply record_files.
Qed.

End SplitterReading.

(** A file that some writer appended the records to. *)
Definition written_file {T} `{StreamLaws T} (R : list (list byte)) (f : list byte) : Prop :=
  exists (w w' : RecordIOWriter T) n, sok w.(stream_) /\ room w.(stream_) (length (enc_all R) + n) /\
    write_all R w = Ok w' /\ written w'.(stream_) = written w.(stream_) ++ f.

Lemma write_all_small {T} `{StreamLaws T} R : forall w w' : RecordIOWriter T, write_all R w = Ok w' -> Forall small R.
Proof.
  induction R as [|r R IH]; intros w w' E; [done|]. unfold write_all in E. cbn [foldM] in E.
  destruct (WriteRecord r w) as [w1|] eqn:E1; [|done]. constructor; [|exact (IH w1 w' E)].
  unfold WriteRecord in E1. destruct (bool_decide _) eqn:Eb; [|done]. by apply bool_decide_eq_true in Eb.
Qed.

Lemma written_file_enc {T} `{StreamLaws T} R f : written_file (T := T) R f -> Forall small R /\ f = enc_all R.
Proof.
  intros (w & w' & n & Hs & Hr & E & W). pose proof (write_all_small R w w' E) as Hsm. split; [done|].
  destruct (write_all_ok R w n Hsm Hs Hr) as (w2 & E2 & W2). rewrite E in E2. injection E2 as <-.
  rewrite W in W2. by apply app_inv_head in W2.
Qed.

Lemma written_files_enc {T} `{StreamLaws T} Rs files : Forall2 (written_file (T := T)) Rs files ->
  Forall (Forall small) Rs /\ files = map enc_all Rs.
Proof.
  induction 1 as [|R f Rs files Hf Hw [IH1 IH2]]; [done|]. destruct (written_file_enc R f Hf) as [H1 ->]. subst files. by split; [constructor|].
Qed.

(** C24: [RecordIOSplitter]: however many workers share files of records that
    [RecordIOWriter] wrote, whatever
    the size of the buffer, however few bytes the streams give at a time and
    whatever is on the stack when a beginning is sought, the workers read their
    parts without failing and the records they are handed, put together in the
    order of the workers, are the records of the files: no record is lost, read
    twice, cut or changed, also when it contains the magic number. *)
Theorem parts_cover_records {T} `{StreamLaws T} junk_v junk_lrec got kBufferSize Rs files nsplit :
  length junk_v = 4 -> length junk_lrec = 4 -> (forall f pos n, 0 < n -> 0 < got f pos n <= n) -> 0 < kBufferSize ->
  0 < nsplit -> Forall2 (written_file (T := T)) Rs files ->
  exists parts,
    Forall2 (fun rank R => read_part_records junk_v junk_lrec got kBufferSize files rank nsplit = Ok R) (seq 0 nsplit) parts /\
    concat parts = concat Rs.
Proof.
  intros Hv Hl Hg Hb Hn Hw. destruct (written_files_enc Rs files Hw) as [Hsm ->]. by apply record_parts_all.
Qed.

(** ** Parts of one chunk *)

Lemma part_magic t rest : part_ok t -> word_at (enc_part t ++ rest) 0 = Ok kMagic.
Proof.
  intros Ht. pose proof (length_enc_part t). destruct (part_words t rest 0 Ht) as (w & -> & Hw); [done|lia|].
  by rewrite (proj2 Hw eq_refl).
Qed.

Lemma join_part fuel buf b e temp t rest : part_ok t -> segment b e buf = enc_part t ++ rest -> b <= e <= length buf ->
  join_parts (S fuel) buf b e temp =
    if decide (t.1 = 3%Z) then Ok (temp ++ t.2, b + length (enc_part t))
    else join_parts fuel buf (b + length (enc_part t)) e ((temp ++ t.2) ++ magic).
Proof.
  intros Ht Hseg Hbe. destruct (lrec_range t Ht) as (_ & Hf & Hl).
  pose proof (f_equal length Hseg) as Hlen. rewrite segment_length, length_app in Hlen by lia.
  pose proof (length_enc_part t) as Hlp. destruct (upper_align_spec (length t.2)) as (k & Hk & _).
  cbn [join_parts]. rewrite (check_true (bool_decide (b + 8 <= e))) by (apply bool_decide_eq_true; lia). cbn [mbind outcome_bind].
  assert (word_at buf b = Ok kMagic) as ->.
  { rewrite <- (Nat.add_0_r b) at 1. by rewrite (segment_word buf b e 0), Hseg, part_magic by (done || lia). }
  cbn [mbind outcome_bind]. rewrite bool_decide_eq_true_2 by done. cbn [check mbind outcome_bind].
  rewrite (segment_word buf b e 4), Hseg, part_flag by (done || lia). cbn [mbind outcome_bind]. rewrite Hf, Hl.
  rewrite bytes_at_ok by lia. cbn [mbind outcome_bind]. rewrite (part_data buf b e t rest Hseg Hbe).
  by replace (b + 8 + upper_align (length t.2)) with (b + length (enc_part t)) by lia.
Qed.

Lemma join_later ps : forall fuel buf b e temp rest,
  ps <> [] -> Forall part_ok (later ps) -> segment b e buf = enc_parts (later ps) ++ rest -> b <= e <= length buf -> length ps <= fuel ->
  join_parts fuel buf b e temp = Ok (temp ++ join ps, b + length (enc_parts (later ps))).
Proof.
  induction ps as [|p ps IH]; intros fuel buf b e temp rest Hne Hok Hseg Hbe Hf; [done|].
  destruct fuel as [|fuel]; [simpl in Hf; lia|]. pose proof (f_equal length Hseg) as Hlen. rewrite segment_length, length_app in Hlen by lia.
  destruct ps as [|p2 ps].
  - cbn [later] in *. rewrite enc_parts_one in *. apply Forall_cons in Hok as [Hok _].
    by rewrite (join_part fuel buf b e temp (3%Z, p) rest Hok Hseg Hbe), decide_True by done.
  - change (later (p :: p2 :: ps)) with ((2%Z, p) :: later (p2 :: ps)) in *. apply Forall_cons in Hok as [H1 H2].
    rewrite enc_parts_cons, <- app_assoc in Hseg. rewrite enc_parts_cons, length_app in *.
    rewrite (join_part fuel buf b e temp (2%Z, p) _ H1 Hseg Hbe), decide_False by done. cbn [snd].
    pose proof (part_rest buf b e _ _ Hseg) as Hrest.
    rewrite (IH fuel buf _ e _ rest ltac:(done) H2 Hrest) by (cbn [length] in Hf |- *; lia).
    cbn [join]. by rewrite <- !app_assoc, Nat.add_assoc.
Qed.

(** A reader with records before it. *)
Record reader_ok (R : list (list byte)) (r : RecordIOChunkReader) : Prop := {
  ro_range : r.(pbegin_) <= r.(pend_) <= length r.(cr_chunk);
  ro_bytes : segment r.(pbegin_) r.(pend_) r.(cr_chunk) = enc_all R
}.

Lemma reader_end R r : reader_ok R r -> r.(pend_) = r.(pbegin_) + length (enc_all R).
Proof. intros [Hr Hb]. apply (f_equal length) in Hb. rewrite segment_length in Hb by lia. lia. Qed.

Lemma CNextRecord_ok x R r : small x -> reader_ok (x :: R) r ->
  exists b r', CNextRecord r = Ok (Some b, r') /\ blob_bytes b = x /\ reader_ok R r'.
Proof.
  intros Hx Hr. pose proof (reader_end _ _ Hr) as He. pose proof (enc_cons_length x R) as H8. destruct Hr as [Hrg Hby].
  destruct r as [buf temp b e]. cbn [cr_chunk temp_ pbegin_ pend_] in *.
  unfold CNextRecord. cbn [cr_chunk temp_ pbegin_ pend_]. rewrite (decide_False (P := e <= b)) by lia.
  destruct (pieces_join x) as (Hj & p & ps & Ep). pose proof (flagged_ok x Hx) as Hok. pose proof (enc_length x Hx) as Hel.
  change (enc_all (x :: R)) with (enc x ++ enc_all R) in Hby, He. unfold enc in Hby, He, Hel. rewrite Ep in *.
  rewrite length_app in He.
  set (f := if decide (ps = []) then 0%Z else 1%Z).
  assert (flagged (p :: ps) = (f, p) :: later ps) as Ef by (unfold f; by destruct ps). rewrite Ef in *.
  rewrite enc_parts_cons, length_app in *. rewrite <- app_assoc in Hby. apply Forall_cons in Hok as [H1 H2].
  destruct (lrec_range (f, p) H1) as (_ & Hf & Hl). cbn [fst snd] in Hf, Hl.
  pose proof (length_enc_part (f, p)) as Hlp. cbn [snd] in Hlp. destruct (upper_align_spec (length p)) as (k & Hk & _).
  assert (word_at buf b = Ok kMagic) as ->.
  { rewrite <- (Nat.add_0_r b) at 1. by rewrite (segment_word buf b e 0), Hby, part_magic by (done || lia). }
  cbn [mbind outcome_bind]. rewrite (bool_decide_eq_true_2 (kMagic = kMagic)) by done. cbn [check mbind outcome_bind].
  rewrite (segment_word buf b e 4), Hby, part_flag by (done || lia). cbn [mbind outcome_bind]. rewrite Hf, Hl.
  replace (b + 8 + upper_align (length p)) with (b + length (enc_part (f, p))) by lia.
  pose proof (part_data buf b e (f, p) _ Hby Hrg) as Hd. cbn [snd] in Hd.
  pose proof (part_rest buf b e _ _ Hby) as Hrest.
  destruct ps as [|p2 ps].
  - rewrite (decide_True (P := f = 0%Z)) by done.
    rewrite (check_true (bool_decide (b + length (enc_part (f, p)) <= e))) by (apply bool_decide_eq_true; lia). cbn [mbind outcome_bind].
    do 2 eexists. split; [reflexivity|]. split; [|split; cbn [cr_chunk pbegin_ pend_]; [lia|exact Hrest]].
    unfold blob_bytes. cbn [dptr bsize]. unfold segment in Hd. replace (b + 8 + length p - (b + 8)) with (length p) in Hd by lia.
    rewrite Hd. simpl in Hj. done.
  - rewrite (decide_False (P := f = 0%Z)) by done. rewrite (check_true (bool_decide (f = 1%Z))) by done. cbn [mbind outcome_bind].
    destruct (length buf) as [|fuel] eqn:Hfuel; [lia|]. rewrite (join_part fuel buf b e [] (f, p) _ H1 Hby) by lia.
    rewrite decide_False by done. cbn [snd app].
    rewrite (join_later (p2 :: ps) fuel buf _ e _ (enc_all R) ltac:(done) H2 Hrest) by (cbn [length] in Hel |- *; lia). cbn [mbind outcome_bind].
    do 2 eexists. split; [reflexivity|]. split.
    + unfold blob_bytes. cbn [dptr bsize]. rewrite firstn_all. rewrite <- Hj. cbn [join]. by rewrite <- app_assoc.
    + split; cbn [cr_chunk pbegin_ pend_]; [lia|]. by apply part_rest.
Qed.

Lemma read_records_ok R : forall fuel r, Forall small R -> reader_ok R r -> length R < fuel -> read_records fuel r = Ok R.
Proof.
  induction R as [|x R IH]; intros fuel r Hsm Hr Hf; (destruct fuel as [|fuel]; [simpl in Hf; lia|]); cbn [read_records].
  - unfold CNextRecord. rewrite decide_True; [done|]. apply reader_end in Hr. simpl in Hr. lia.
  - apply Forall_cons in Hsm as [Hx Hsm]. destruct (CNextRecord_ok x R r Hx Hr) as (b & r' & -> & Hb & Hr'). cbn [mbind outcome_bind].
    rewrite (IH fuel r' Hsm Hr') by (simpl in Hf; lia). cbn [mbind outcome_bind]. by rewrite Hb.
Qed.

(** All that one of the threads that share a chunk does. *)
Definition read_chunk_part (addr : nat) (chunk : list byte) (part_index num_parts : nat) : outcome (list (list byte)) :=
  r ← new_ChunkReader addr chunk part_index num_parts;
  read_records (S (length chunk)) r.

Section ChunkParts.
Context (addr : nat) (R : list (list byte)) (num_parts : nat).
Hypothesis (Haddr : addr mod 4 = 0) (HR : Forall small R) (Hnp : 0 < num_parts).
Notation f := (enc_all R).
Notation step := (upper_align ((length f + num_parts - 1) / num_parts)).
Notation cut m := (Nat.min (length f) (step * m)).

Lemma cut_aligned m : cut m mod 4 = 0.
Proof using.
  clear Haddr HR Hnp addr. destruct (Nat.min_spec (length f) (step * m)) as [[_ ->]|[_ ->]]; [apply enc_all_aligned|].
  unfold upper_align. set (q := _ / 4). replace (q * 4 * m) with (q * m * 4) by lia. apply Nat.Div0.mod_mul.
Qed.

Lemma parts_cut_last : cut num_parts = length f.
Proof using Hnp.
  clear Haddr HR addr. apply Nat.min_l. destruct (upper_align_spec ((length f + num_parts - 1) / num_parts)) as (k & -> & _).
  pose proof (Nat.div_mod_eq (length f + num_parts - 1) num_parts).
  pose proof (Nat.mod_upper_bound (length f + num_parts - 1) num_parts ltac:(lia)).
  set (q := _ / num_parts) in *. nia.
Qed.

(** A thread begins at the first record from its share of the bytes on. *)
Lemma find_cut m : exists y, FindNextRecordIOHead addr f (cut m) (length f) = Ok y /\ first_from R (cut m) y.
Proof using Haddr HR.
  clear Hnp. pose proof (cut_aligned m) as Hc. assert (cut m <= length f) as Hle by lia. set (x := cut m) in *. clearbody x.
  pose proof (enc_all_aligned R) as Hf. unfold FindNextRecordIOHead.
  rewrite !check_true by (apply bool_decide_eq_true; by apply mod_add_0). cbn [mbind outcome_bind].
  pose proof (mod_sub_0 (length f) x 4 Hle Hf Hc) as Hd. pose proof (Nat.div_mod_eq (length f - x) 4) as Hdm.
  apply find_head_ok; [done..|lia|lia].
Qed.

Lemma first_unique p y y' : first_from R p y -> first_from R p y' -> y = y'.
Proof using. clear Haddr HR Hnp addr. intros (H1 & H2 & H3) (H4 & H5 & H6). pose proof (H3 y' H5 ltac:(lia)). pose proof (H6 y H2 ltac:(lia)). lia. Qed.

Lemma first_take p y : first_from R p y -> exists R1 R2, R = R1 ++ R2 /\ take y f = enc_all R1.
Proof using.
  clear Haddr HR Hnp addr. intros (_ & (R1 & R2 & E & ->) & _). exists R1, R2. split; [done|]. rewrite E, enc_all_app. apply take_app_length.
Qed.

Lemma chunk_parts m : exists parts y,
  Forall2 (fun i p => read_chunk_part addr f i num_parts = Ok p) (seq 0 m) parts /\
  first_from R (cut m) y /\ enc_all (concat parts) = take y f /\ Forall small (concat parts).
Proof using Haddr HR Hnp.
  induction m as [|m (parts & y & Hp & Hy & Hc & Hs)].
  { exists [], 0. rewrite Nat.mul_0_r, Nat.min_0_r. split; [constructor|]. split; [|done]. apply first_here. by exists [], R. }
  destruct (find_cut m) as (y1 & E1 & Hy1). pose proof (first_unique _ _ _ Hy Hy1) as <-.
  destruct (find_cut (S m)) as (y2 & E2 & Hy2).
  assert (y <= y2) as Hyy.
  { destruct Hy as (_ & _ & Hmin), Hy2 as (Hr2 & Hb2 & _). apply Hmin; [done|].
    etransitivity; [|apply Hr2]. apply Nat.min_le_compat_l, Nat.mul_le_mono_l. lia. }
  destruct (first_take _ _ Hy2) as (R1 & R1' & EqR & Etk).
  assert (Forall small R1) as HR1 by (pose proof HR as HR'; rewrite EqR in HR'; by apply Forall_app in HR' as []).
  assert (take y2 f = take y f ++ segment y y2 f) as Ets by (unfold segment; rewrite take_take_drop; f_equal; lia).
  rewrite Ets, <- Hc in Etk. symmetry in Etk. destruct (enc_all_cancel _ R1 _ Hs HR1 Etk) as (R2 & -> & Eseg).
  apply Forall_app in HR1 as [_ HR2].
  exists (parts ++ [R2]), y2. rewrite seq_S, concat_app. simpl concat. rewrite app_nil_r.
  split; [|split; [done|split; [by rewrite enc_all_app, Ets, Hc, Eseg|by apply Forall_app]]].
  apply Forall2_app; [done|]. constructor; [|done]. unfold read_chunk_part, new_ChunkReader.
  rewrite decide_False by lia. rewrite Nat.add_0_l, Nat.add_1_r, E1. cbn [mbind outcome_bind]. rewrite E2. cbn [mbind outcome_bind].
  assert (y2 <= length f) as Hl2 by (by destruct Hy2 as [[_ ?] _]).
  apply read_records_ok; [done|by split|]. pose proof (records_length R2) as HlR. rewrite <- Eseg, segment_length in HlR by lia. lia.
Qed.

End ChunkParts.

(** [RecordIOChunkReader]: a chunk of records that [RecordIOWriter] wrote,
    shared by any number of readers, is read by them without failing: a reader
    starts at the first record behind the beginning of its share, stops where the
    next one starts, and the records they hand out, put together in the order of
    the readers, are the records of the chunk. *)
Theorem chunk_readers_cover {T} `{StreamLaws T} addr R chunk num_parts :
  addr mod 4 = 0 -> 0 < num_parts -> written_file (T := T) R chunk ->
  exists parts, Forall2 (fun i p => read_chunk_part addr chunk i num_parts = Ok p) (seq 0 num_parts) parts /\ concat parts = R.
Proof.
  intros Ha Hn Hw. destruct (written_file_enc R chunk Hw) as [HR ->].
  destruct (chunk_parts addr R num_parts Ha HR Hn num_parts) as (parts & y & Hp & Hy & Hc & Hs).
  exists parts. split; [done|]. apply enc_all_inj; [done..|]. rewrite Hc. apply take_ge.
  rewrite (parts_cut_last R num_parts Hn) in Hy. apply Hy.
Qed.

(** ** Examples *)

(** Five records, in three of which the magic number is, once at a place that is
    not a word. *)
Definition ex_records : list (list byte) :=
  [txt [1; 2; 3; 4] ++ magic ++ txt [5]; []; magic ++ magic; txt [1] ++ magic; txt [7; 8; 9; 10]].
Definition ex_stream : MemoryStringStream.t := MemoryStringStream.mk [] 0.
Definition ex_writer : RecordIOWriter MemoryStringStream.t := mkWriter ex_stream 0.
Definition ex_rec_file (R : list (list byte)) : list byte :=
  match write_all R ex_writer with Ok w => written w.(stream_) | Fail _ => [] end.

Example ex_exceptions :
  exists w, write_all ex_records ex_writer = Ok w /\ except_counter_ w = 3 /\ length (written w.(stream_)) = 84.
Proof. eexists. split; [vm_compute; reflexivity|]. split; vm_compute; reflexivity. Qed.

Lemma ex_written R : (exists w, write_all R ex_writer = Ok w) -> written_file (T := MemoryStringStream.t) R (ex_rec_file R).
Proof.
  intros (w & E). exists ex_writer, w, 0. unfold ex_rec_file. rewrite E. split; [simpl; lia|]. by split.
Qed.

Lemma records_roundtrip_witness :
  Forall small ex_records /\
  exists w' bytes, write_all ex_records ex_writer = Ok w' /\ written w'.(stream_) = written ex_stream ++ bytes /\
    (forall fi : MemoryStringStream.t, sok fi -> unread fi = bytes -> read_all_records (S (length bytes)) (mkReader fi false) = Ok ex_records) /\
    (forall r, ~ small r -> WriteRecord r w' = Fail CheckFailed).
Proof.
  assert (Forall small ex_records) as Hs by (repeat constructor).
  split; [exact Hs|]. apply (records_roundtrip ex_records ex_writer 0 MemoryStringStream_at_end Hs); [simpl; lia|exact I].
Defined.

(** Two files, three workers, a buffer of one word, streams that give at most
    three bytes at a time. *)
Lemma parts_cover_records_witness :
  let files := [ex_rec_file ex_records; ex_rec_file (rev ex_records)] in
  exists parts,
    Forall2 (fun rank R => read_part_records magic (txt [0; 0; 0; 0]) ex_got 1 files rank 3 = Ok R) (seq 0 3) parts /\
    concat parts = ex_records ++ rev ex_records.
Proof.
  intros files. destruct (parts_cover_records (T := MemoryStringStream.t) magic (txt [0; 0; 0; 0]) ex_got 1 [ex_records; rev ex_records] files 3
    eq_refl eq_refl) as (parts & Hp & Hc).
  - unfold ex_got. lia.
  - lia.
  - lia.
  - repeat constructor; apply ex_written; eexists; vm_compute; reflexivity.
  - exists parts. split; [exact Hp|exact Hc].
Defined.

Lemma chunk_readers_cover_witness :
  exists parts, Forall2 (fun i p => read_chunk_part 4096 (ex_rec_file ex_records) i 4 = Ok p) (seq 0 4) parts /\ concat parts = ex_records.
Proof.
  apply (chunk_readers_cover (T := MemoryStringStream.t) 4096 ex_records); [reflexivity|lia|].
  apply ex_written. eexists. vm_compute. reflexivity.
Defined.

(** The readers do get different shares. *)
Example ex_shares :
  map (fun i => read_chunk_part 4096 (ex_rec_file ex_records) i 4) (seq 0 4) =
    [Ok (take 1 ex_records); Ok (take 2 (drop 1 ex_records)); Ok (take 1 (drop 3 ex_records)); Ok (drop 4 ex_records)].
Proof. vm_compute. reflexivity. Qed.
