(* ===== verification/CRB.v ===== *)
(** * Compressed blocks of rows

    Models src/src/base/compressed_row_block.h and crb_parser.h: a block of rows
    as a string, in which every array is compressed by LZ4, and the parser that
    reads such strings as the records of files (RecordIO.v).  LZ4 is a library
    the sources only call: its two functions are an interface, with what its
    header promises as laws. *)
From S2P Require Import Prelude Floats Stream Workload InputSplit RecordIO RowBlock.
From Stdlib Require QArith_base.

(** [LZ4_compress_default] into a buffer of [LZ4_compressBound(sourceSize)]
    bytes: what was written, nothing when it returns 0.  [LZ4_decompress_safe]:
    what was written, [None] when it returns a negative number. *)
Class LZ4 := {
  LZ4_compress_default : list byte -> list byte;
  LZ4_decompress_safe : list byte -> Z -> option (list byte)
}.

(** [LZ4_MAX_INPUT_SIZE] *)
Definition max_input : Z := 0x7E000000.

(** lz4.h: with a buffer of that size compression of up to [LZ4_MAX_INPUT_SIZE]
    bytes succeeds, and the number of bytes written is an [int];
    decompression gives the bytes back if there is room. *)
Class LZ4Laws `{LZ4} := {
  compress_succeeds d : (Z.of_nat (length d) <= max_input)%Z ->
    (0 < Z.of_nat (length (LZ4_compress_default d)) < 2 ^ 31)%Z;
  decompress_compress d : (Z.of_nat (length d) <= max_input)%Z ->
    LZ4_decompress_safe (LZ4_compress_default d) (Z.of_nat (length d)) = Some d
}.

(** A conversion to [int]. *)
Definition to_int (z : Z) : Z := pod_of (Pod := pod_int 4) (le_split 4 z).

Definition kMagicNumber : Z := 1196140743.

Section Compressed.
Context {F : Type} `{Float F} (PF : Pod F) (isz : nat) `{LZ4}.

(** [Write(num)] *)
Definition WriteInt (num : Z) (str : list byte) : list byte := str ++ le_split 4 num.

(** [Compress(data, size)] for [n] elements. *)
Definition Compress_array {A} (P : Pod A) (p : ptr A) (n : Z) (str : list byte) : outcome (list byte) :=
  match p with
  | None => Ok (WriteInt 0 str)
  | Some _ =>
      if (n <? 0)%Z then Fail OutOfRange else
      l ← ptr_read p (Z.to_nat n);
      let dst := LZ4_compress_default (pod_memory l) in
      _ ← check (negb (bool_decide (length dst = 0)));
      Ok (WriteInt (Z.of_nat (length dst)) str ++ dst)
  end.

(** The loop over the values, which stops at one that is not 1. *)
Fixpoint all_one (p : ptr F) (js : list nat) : outcome bool :=
  match js with
  | [] => Ok true
  | i :: js => v ← ptr_at p i; if feqb v fone then all_one p js else Ok false
  end.

(** [offset[nrows]] *)
Definition offset_at (off : list nat) (nrows : Z) : outcome nat :=
  if (nrows <? 0)%Z then Fail OutOfRange else read_at off (Z.to_nat nrows).

(** [Compress(blk, str)] *)
Definition Compress (blk : RowBlock F) : outcome (list byte) :=
  let nrows := to_int (Z.of_nat blk.(b_size)) in
  o' ← offset_at blk.(b_offset) nrows;
  o ← read_at blk.(b_offset) 0;
  let nnz := to_int (Z.of_nat o' - Z.of_nat o) in
  bin ← match blk.(b_value) with
        | None => Ok false
        | Some _ => all_one blk.(b_value) (seq 0 (Z.to_nat nnz))
        end;
  let value := if (bin : bool) then None else blk.(b_value) in
  let str := WriteInt nrows (WriteInt (Z.of_nat isz) (WriteInt kMagicNumber [])) in
  str ← Compress_array PF blk.(b_label) nrows str;
  str ← Compress_array (pod_uint 8) (Some (map Z.of_nat blk.(b_offset))) (nrows + 1) str;
  str ← Compress_array (pod_uint isz) blk.(b_index) nnz str;
  str ← Compress_array PF value nnz str;
  Compress_array PF blk.(b_weight) nrows str.

(** [Read()]: [cdata_] is [data], [max_len_] its length. *)
Definition ReadInt (data : list byte) (cur_len_ : nat) : outcome (Z * nat) :=
  _ ← check (bool_decide (cur_len_ + 4 <= length data));
  Ok (pod_of (Pod := pod_int 4) (segment cur_len_ (cur_len_ + 4) data), cur_len_ + 4).

(** [Decompress(dst, len)] *)
Definition Decompress_array {A} (P : Pod A) (data : list byte) (cur_len_ : nat) (dst : list A) (len : Z)
  : outcome (list A * nat) :=
  '(cp_size, cur_len_) ← ReadInt data cur_len_;
  if (cp_size <=? 0)%Z then Ok (dst, cur_len_) else
  let cp := Z.to_nat cp_size in
  _ ← check (bool_decide (cur_len_ + cp <= length data));
  if (len <? 0)%Z then Fail OutOfRange else
  let dst_size := to_int (len * Z.of_nat (pod_size (A := A))) in
  match LZ4_decompress_safe (segment cur_len_ (cur_len_ + cp) data) dst_size with
  | None => Fail CheckFailed
  | Some b =>
      _ ← check (bool_decide (dst_size = Z.of_nat (length b)));
      Ok (pod_elems (Z.to_nat len) (resize (Z.to_nat len * pod_size (A := A)) Byte.x00 b), cur_len_ + cp)
  end.

(** [Decompress(data, size, blk)] *)
Definition Decompress (data : list byte) (blk : Container F) : outcome (Container F) :=
  '(m, cur) ← ReadInt data 0;
  _ ← check (bool_decide (m = kMagicNumber));
  '(sz, cur) ← ReadInt data cur;
  _ ← check (bool_decide (sz = Z.of_nat isz));
  '(nrows, cur) ← ReadInt data cur;
  '(label, cur) ← Decompress_array PF data cur blk.(label) nrows;
  '(offset, cur) ← Decompress_array (pod_uint 8) data cur (map Z.of_nat blk.(offset)) (nrows + 1);
  _ ← check (bool_decide (Z.of_nat (length offset) = nrows + 1)%Z);
  let offset := map Z.to_nat offset in
  o' ← offset_at offset nrows;
  o ← read_at offset 0;
  let nnz := to_int (Z.of_nat o' - Z.of_nat o) in
  '(index, cur) ← Decompress_array (pod_uint isz) data cur blk.(index) nnz;
  '(value, cur) ← Decompress_array PF data cur blk.(value) nnz;
  '(weight, cur) ← Decompress_array PF data cur blk.(weight) nrows;
  Ok (mkCont offset label weight index value blk.(max_index)).

(** ** [CRBParser] *)

Record CRBParser := mkCRB { crb_bytes_read_ : nat; crb_source_ : InputSplitBase }.

(** [ParseNext(data)]: the container that [data] gets, [None] for [false]. *)
Definition CRBParseNext (jv jl : list byte) (got : nat -> nat -> nat -> nat) (p : CRBParser)
  : outcome (option (Container F) * CRBParser) :=
  '(r, src) ← SNextRecord jv jl got p.(crb_source_);
  match r with
  | None => Ok (None, mkCRB p.(crb_bytes_read_) src)
  | Some rec =>
      _ ← check (negb (bool_decide (rec.(bsize) = 0)));
      c ← Decompress (blob_bytes rec) Clear;
      Ok (Some c, mkCRB (p.(crb_bytes_read_) + rec.(bsize)) src)
  end.

(** [BeforeFirst()] *)
Definition CRBBeforeFirst (p : CRBParser) : outcome CRBParser :=
  src ← InputSplit.BeforeFirst p.(crb_source_); Ok (mkCRB p.(crb_bytes_read_) src).

(** The blocks that [ParserImpl::Next] finds: one of each container with rows. *)
Fixpoint crb_blocks (jv jl : list byte) (got : nat -> nat -> nat -> nat) (fuel : nat) (p : CRBParser)
  : outcome (list (RowBlock F) * CRBParser) :=
  match fuel with
  | 0 => Fail OutOfFuel
  | S fuel =>
      '(c, p) ← CRBParseNext jv jl got p;
      match c with
      | None => Ok ([], p)
      | Some c =>
          b ← (if decide (Size c <> 0) then b ← GetBlock c; Ok [b] else Ok []);
          '(bs, p) ← crb_blocks jv jl got fuel p;
          Ok (b ++ bs, p)
      end
  end.

End Compressed.

(** ** What is compressed is decompressed *)

Lemma to_int_small z : (- 2 ^ 31 <= z < 2 ^ 31)%Z -> to_int z = z.
Proof. intros Hz. by apply (pod_int_of_bytes 4 z); [lia|]. Qed.

Section RoundTrip.
Context {F : Type} `{Float F} (PF : Pod F) (HPF : @PodLaws F PF) (isz : nat) `{LZ4Laws}.
#[local] Opaque le_split le_combine.

(** An array in the string. *)
Definition arr_enc {A} (P : Pod A) (p : ptr A) (n : nat) : list byte :=
  match p with
  | None => le_split 4 0
  | Some l => let dst := LZ4_compress_default (pod_memory (take n l)) in le_split 4 (Z.of_nat (length dst)) ++ dst
  end.

(** The elements are there, they are valid and LZ4 can take them. *)
Definition arr_ok {A} (P : Pod A) (p : ptr A) (n : nat) : Prop :=
  match p with
  | None => True
  | Some l => n <= length l /\ Forall pod_valid (take n l) /\ (Z.of_nat (pod_size (A := A) * n) <= max_input)%Z
  end.

Lemma arr_size {A} (P : Pod A) (HP : @PodLaws A P) (l : list A) n : n <= length l ->
  length (pod_memory (take n l)) = pod_size (A := A) * n.
Proof using. intros Hn. rewrite pod_memory_length, length_take, Nat.min_l by done. done. Qed.

Lemma Compress_array_ok {A} (P : Pod A) (HP : @PodLaws A P) (p : ptr A) n z str : arr_ok P p n -> z = Z.of_nat n ->
  Compress_array P p z str = Ok (str ++ arr_enc P p n).
Proof.
  intros Hp ->. unfold Compress_array, WriteInt. destruct p as [l|]; [|done]. destruct Hp as (Hn & _ & Hs).
  destruct (Z.ltb_spec (Z.of_nat n) 0); [lia|]. rewrite Nat2Z.id, (ptr_read_spec _ n (take n l)) by (done || (rewrite length_take; lia)).
  cbn [mbind outcome_bind]. pose proof (compress_succeeds (pod_memory (take n l))) as Hc. rewrite (arr_size P HP) in Hc by done.
  rewrite check_true by (rewrite negb_true_iff, bool_decide_eq_false; lia). cbn [mbind outcome_bind arr_enc].
  by rewrite <- app_assoc.
Qed.

Lemma ReadInt_ok pre z post : (- 2 ^ 31 <= z < 2 ^ 31)%Z ->
  ReadInt (pre ++ le_split 4 z ++ post) (length pre) = Ok (z, length (pre ++ le_split 4 z)).
Proof using.
  intros Hz. unfold ReadInt. rewrite !length_app, length_le_split.
  rewrite check_true by (apply bool_decide_eq_true; lia). cbn [mbind outcome_bind]. do 2 f_equal.
  unfold segment. replace (length pre + 4 - length pre) with 4 by lia. rewrite drop_app_length.
  rewrite (take_app_length' (le_split 4 z)) by by rewrite length_le_split. by apply (pod_int_of_bytes 4 z); [lia|].
Qed.

Lemma Decompress_array_ok {A} (P : Pod A) (HP : @PodLaws A P) (p : ptr A) n z pre post dst : arr_ok P p n -> z = Z.of_nat n ->
  Decompress_array P (pre ++ arr_enc P p n ++ post) (length pre) dst z =
    Ok (match p with None => dst | Some l => take n l end, length (pre ++ arr_enc P p n)).
Proof.
  intros Hp ->. unfold Decompress_array. destruct p as [l|]; cbn [arr_enc].
  2: { rewrite ReadInt_ok by lia. done. }
  destruct Hp as (Hn & Hv & Hs). pose proof (arr_size P HP l n Hn) as Hlen.
  pose proof (compress_succeeds (pod_memory (take n l)) ltac:(by rewrite Hlen)) as Hc.
  pose proof (decompress_compress (pod_memory (take n l)) ltac:(by rewrite Hlen)) as Hd.
  set (d := LZ4_compress_default (pod_memory (take n l))) in *. rewrite <- app_assoc.
  rewrite ReadInt_ok by lia. cbn [mbind outcome_bind].
  destruct (Z.leb_spec (Z.of_nat (length d)) 0); [lia|]. rewrite Nat2Z.id, app_assoc.
  rewrite (length_app _ (d ++ post)), (length_app d post), check_true by (apply bool_decide_eq_true; lia). cbn [mbind outcome_bind].
  destruct (Z.ltb_spec (Z.of_nat n) 0); [lia|]. unfold max_input in Hs. rewrite to_int_small by lia.
  set (q := pre ++ le_split 4 _). unfold segment. replace (length q + length d - length q) with (length d) by lia.
  rewrite drop_app_length, take_app_length. rewrite Nat2Z.id.
  replace (Z.of_nat n * Z.of_nat (pod_size (A := A)))%Z with (Z.of_nat (length (pod_memory (take n l)))) by lia.
  rewrite Hd, check_true by by apply bool_decide_eq_true. cbn [mbind outcome_bind]. do 2 f_equal.
  - rewrite resize_all_alt by lia. rewrite <- (pod_elems_memory (take n l) Hv) at 2. rewrite length_take, Nat.min_l by done. done.
  - unfold q. rewrite !length_app. lia.
Qed.

(** A row without its values, which are then 1; [Compress] leaves them out when
    all values of a block are. *)
Definition no_value (r : arow (F := F)) : arow := mkArow r.(a_label) r.(a_weight) r.(a_index) [].
Definition plain (rs : list (arow (F := F))) : list arow :=
  if forallb (fun v => feqb v fone) (concat (map a_value rs)) then map no_value rs else rs.

(** A block whose row pointers start at 0, with arrays that LZ4 can take. *)
Record crb_ok (b : RowBlock F) (rs : list arow) : Prop := {
  cb_shows : shows 0 0 b rs;
  cb_label : arr_ok PF b.(b_label) (length rs);
  cb_offset : arr_ok (pod_uint 8) (Some (map Z.of_nat b.(b_offset))) (length rs + 1);
  cb_index : arr_ok (pod_uint isz) b.(b_index) (sum_list (map nfeat rs));
  cb_value : arr_ok PF b.(b_value) (sum_list (map nfeat rs));
  cb_weight : arr_ok PF b.(b_weight) (length rs)
}.

Context (Hisz : (0 < Z.of_nat isz < 2 ^ 31)%Z).

Lemma crb_sizes b rs : crb_ok b rs ->
  (Z.of_nat (length rs) + 1 < 2 ^ 31)%Z /\ (Z.of_nat (sum_list (map nfeat rs)) < 2 ^ 31)%Z /\
  b.(b_offset) !! length rs = Some (sum_list (map nfeat rs)) /\ b.(b_offset) !! 0 = Some 0.
Proof using Hisz.
  intros [Hs _ (_ & _ & Ho) Hi _ _]. unfold max_input in *. cbn [pod_size pod_uint] in Ho. destruct Hs as [_ Hoff _ _ Hix _].
  split; [lia|]. split.
  - rewrite drop_0 in Hix. unfold arr_ok in Hi. destruct (b_index b) as [l|].
    + destruct Hi as (_ & _ & Hi). cbn [pod_size pod_uint] in Hi. unfold max_input in Hi. nia.
    + simpl in Hix. rewrite take_nil in Hix. rewrite <- length_a_index, <- Hix. simpl. lia.
  - rewrite <- (lookup_take_lt (b_offset b) (S (length rs)) (length rs)), <- (lookup_take_lt (b_offset b) (S (length rs)) 0), Hoff by lia.
    pose proof (psums_last 0 (map nfeat rs)) as Hl. rewrite length_map in Hl. split; [exact Hl|apply psums_first].
Qed.

Lemma all_one_ok (v : list F) : forall n k, k + n <= length v ->
  all_one (Some v) (seq k n) = Ok (forallb (fun x => feqb x fone) (take n (drop k v))).
Proof using.
  clear Hisz. induction n as [|n IH]; intros k Hk; [done|]. cbn [seq all_one].
  destruct (lookup_lt_is_Some_2 v k) as [x Hx]; [lia|].
  unfold ptr_at. change (default [] (Some v)) with v. rewrite (proj2 (read_at_Ok _ _ _) Hx). cbn [mbind outcome_bind].
  rewrite (drop_S v x k Hx). cbn [take forallb]. destruct (feqb x fone); [|done]. rewrite IH by lia. done.
Qed.

(** The string of a block. *)
Definition crb_value (b : RowBlock F) (rs : list arow) : ptr F :=
  if forallb (fun v => feqb v fone) (concat (map a_value rs)) then None else b.(b_value).
Definition crb_enc (b : RowBlock F) (rs : list arow) : list byte :=
  le_split 4 kMagicNumber ++ le_split 4 (Z.of_nat isz) ++ le_split 4 (Z.of_nat (length rs)) ++
  arr_enc PF b.(b_label) (length rs) ++ arr_enc (pod_uint 8) (Some (map Z.of_nat b.(b_offset))) (length rs + 1) ++
  arr_enc (pod_uint isz) b.(b_index) (sum_list (map nfeat rs)) ++ arr_enc PF (crb_value b rs) (sum_list (map nfeat rs)) ++
  arr_enc PF b.(b_weight) (length rs).

Lemma crb_value_ok b rs : crb_ok b rs -> arr_ok PF (crb_value b rs) (sum_list (map nfeat rs)).
Proof using. intros [_ _ _ _ Hv _]. unfold crb_value. by destruct (forallb _ _). Qed.

Lemma crb_value_bin b rs : crb_ok b rs ->
  exists bin, match b.(b_value) with None => Ok false | Some _ => all_one b.(b_value) (seq 0 (sum_list (map nfeat rs))) end = Ok bin /\
    (if (bin : bool) then None else b.(b_value)) = crb_value b rs.
Proof.
  intros [Hs _ _ _ Hv _]. unfold crb_value. destruct Hs as [_ _ _ _ _ Hval]. destruct (b_value b) as [v|].
  - destruct Hv as (Hn & _), Hval as [_ Hval]. rewrite all_one_ok by lia. rewrite Hval. by eexists.
  - exists false. by destruct (forallb _ _).
Qed.

Lemma Compress_ok b rs : crb_ok b rs -> Compress PF isz b = Ok (crb_enc b rs).
Proof.
  intros Hok. destruct (crb_sizes b rs Hok) as (Hn & Hz & Ho1 & Ho0). destruct (crb_value_bin b rs Hok) as (bin & Eb & Ev).
  pose proof (crb_value_ok b rs Hok) as Hcv. destruct Hok as [[Esz _ _ _ _ _] Ha1 Ha2 Ha3 _ Ha5].
  unfold Compress. rewrite Esz, to_int_small by lia. unfold offset_at.
  destruct (Z.ltb_spec (Z.of_nat (length rs)) 0); [lia|]. rewrite Nat2Z.id, (proj2 (read_at_Ok _ _ _) Ho1). cbn [mbind outcome_bind].
  rewrite (proj2 (read_at_Ok _ _ _) Ho0). cbn [mbind outcome_bind]. rewrite Z.sub_0_r, to_int_small, Nat2Z.id, Eb by lia. cbn [mbind outcome_bind].
  rewrite Ev. unfold WriteInt. cbn [app].
  rewrite (Compress_array_ok PF HPF _ (length rs)) by done. cbn [mbind outcome_bind].
  rewrite (Compress_array_ok (pod_uint 8) _ _ (length rs + 1)) by (done || lia). cbn [mbind outcome_bind].
  rewrite (Compress_array_ok (pod_uint isz) _ _ (sum_list (map nfeat rs))) by done. cbn [mbind outcome_bind].
  rewrite (Compress_array_ok PF HPF _ (sum_list (map nfeat rs))) by done. cbn [mbind outcome_bind].
  rewrite (Compress_array_ok PF HPF _ (length rs)) by done. unfold crb_enc. by rewrite <- !app_assoc.
Qed.

Lemma plain_uniform b rs : shows 0 0 b rs -> uniform (plain rs).
Proof using.
  clear Hisz. intros [_ _ _ Hw _ Hv]. unfold plain, uniform. destruct (forallb _ _).
  - split; [left; by apply Forall_map, Forall_true|]. rewrite !Forall_map. destruct (b_weight b); tauto.
  - destruct (b_weight b), (b_value b); tauto.
Qed.

Lemma plain_fields rs : map nfeat (plain rs) = map nfeat rs /\ map a_label (plain rs) = map a_label rs /\
  map a_weight (plain rs) = map a_weight rs /\ map a_index (plain rs) = map a_index rs.
Proof using. unfold plain. destruct (forallb _ _); [|done]. rewrite !map_map. done. Qed.

(** What [Decompress] finds in an empty container is what the block shows. *)
Lemma decompressed_holds b rs : crb_ok b rs ->
  holds (mkCont (take (length rs + 1) b.(b_offset)) (match b.(b_label) with None => [] | Some l => take (length rs) l end)
    (match b.(b_weight) with None => [] | Some l => take (length rs) l end)
    (match b.(b_index) with None => [] | Some l => take (sum_list (map nfeat rs)) l end)
    (match crb_value b rs with None => [] | Some l => take (sum_list (map nfeat rs)) l end) 0) (plain rs).
Proof using.
  intros [[_ Hoff Hlb Hwt Hix Hvl] _ _ _ _ _]. destruct (plain_fields rs) as (E1 & E2 & E3 & E4). rewrite drop_0 in Hix.
  split; cbn [offset label weight index value]; rewrite ?E1, ?E2, ?E3, ?E4.
  - by rewrite Nat.add_1_r.
  - rewrite <- Hlb. destruct (b_label b); [done|]. simpl. by rewrite take_nil.
  - destruct (b_weight b); [by destruct Hwt|]. symmetry. by apply (concat_nil a_weight).
  - rewrite <- Hix. destruct (b_index b); [done|]. simpl. by rewrite take_nil.
  - unfold crb_value, plain. destruct (forallb _ _).
    + rewrite map_map. symmetry. by apply (concat_nil (fun r => [])), Forall_true.
    + destruct (b_value b) as [v|]; [by destruct Hvl|]. symmetry. by apply (concat_nil a_value).
Qed.

Lemma Decompress_ok b rs : crb_ok b rs ->
  exists c, Decompress PF isz (crb_enc b rs) Clear = Ok c /\ holds c (plain rs) /\ c.(max_index) = 0%Z.
Proof.
  intros Hok. pose proof (decompressed_holds b rs Hok) as Hh. destruct (crb_sizes b rs Hok) as (Hn & Hz & Ho1 & Ho0).
  pose proof (crb_value_ok b rs Hok) as Hcv. destruct Hok as [_ Ha1 Ha2 Ha3 _ Ha5].
  eexists. split; [|split; [exact Hh|done]]. unfold Decompress, crb_enc.
  pose proof (ReadInt_ok [] kMagicNumber) as Hr0. cbn [app length] in Hr0. rewrite Hr0 by (unfold kMagicNumber; lia). clear Hr0.
  cbn [mbind outcome_bind]. rewrite (bool_decide_eq_true_2 (kMagicNumber = kMagicNumber)) by done. cbn [check mbind outcome_bind].
  rewrite ReadInt_ok by lia. cbn [mbind outcome_bind]. rewrite (bool_decide_eq_true_2 (Z.of_nat isz = Z.of_nat isz)) by done.
  cbn [check mbind outcome_bind]. rewrite app_assoc, ReadInt_ok by lia. cbn [mbind outcome_bind].
  rewrite app_assoc, (Decompress_array_ok PF HPF _ (length rs)) by done. cbn [mbind outcome_bind].
  rewrite app_assoc, (Decompress_array_ok (pod_uint 8) _ _ (length rs + 1)) by (done || lia). cbn [mbind outcome_bind].
  assert (length (take (length rs + 1) (map Z.of_nat (b_offset b))) = length rs + 1) as Hl.
  { rewrite length_take. destruct Ha2 as [? _]. lia. }
  rewrite bool_decide_eq_true_2 by (rewrite Hl; lia). cbn [check mbind outcome_bind].
  rewrite firstn_map, map_to_of_nat. unfold offset_at.
  destruct (Z.ltb_spec (Z.of_nat (length rs)) 0); [lia|]. rewrite Nat2Z.id.
  rewrite (proj2 (read_at_Ok _ (length rs) (sum_list (map nfeat rs)))) by (rewrite lookup_take_lt by lia; done). cbn [mbind outcome_bind].
  rewrite (proj2 (read_at_Ok _ 0 0)) by (rewrite lookup_take_lt by lia; done). cbn [mbind outcome_bind].
  rewrite Z.sub_0_r, to_int_small by lia.
  rewrite app_assoc, (Decompress_array_ok (pod_uint isz) _ _ (sum_list (map nfeat rs))) by done. cbn [mbind outcome_bind].
  rewrite app_assoc, (Decompress_array_ok PF HPF _ (sum_list (map nfeat rs))) by done. cbn [mbind outcome_bind].
  rewrite app_assoc. rewrite <- (app_nil_r (_ ++ arr_enc PF (b_weight b) (length rs))), <- app_assoc.
  rewrite (Decompress_array_ok PF HPF _ (length rs)) by done. done.
Qed.

End RoundTrip.

(** ** Reading blocks from files of records *)

Section Reading.
Context {F : Type} `{Float F} (PF : Pod F) (isz : nat) `{LZ4}.
Context (junk_v junk_lrec : list byte) (got : nat -> nat -> nat -> nat).

(** A record that the parser makes a container with these rows of. *)
Definition decodes (str : list byte) (rs : list (arow (F := F))) : Prop :=
  str <> [] /\ exists c, Decompress PF isz str Clear = Ok c /\ holds c rs /\ uniform rs.

Notation with_rows := (filter (fun rs : list (arow (F := F)) => rs <> [])).

(** The parser over the records that the splitter hands out. *)
Lemma crb_blocks_ok fuel : forall s n recs rss,
  part_records junk_v junk_lrec got fuel s = Ok recs -> Forall2 decodes recs rss ->
  exists bs p, crb_blocks PF isz junk_v junk_lrec got fuel (mkCRB n s) = Ok (bs, p) /\ Forall2 (shows 0 0) bs (with_rows rss).
Proof.
  induction fuel as [|fuel IH]; intros s n recs rss E Hd; [done|]. cbn [part_records] in E. cbn [crb_blocks].
  unfold CRBParseNext. cbn [crb_source_ crb_bytes_read_].
  destruct (SNextRecord junk_v junk_lrec got s) as [[[rec|] s']|] eqn:Es; cbn [mbind outcome_bind] in E; [| |done].
  2: { injection E as <-. apply Forall2_nil_inv_l in Hd as ->. cbn [mbind outcome_bind]. do 2 eexists. split; [reflexivity|constructor]. }
  destruct (part_records junk_v junk_lrec got fuel s') as [recs'|] eqn:Er; cbn [mbind outcome_bind] in E; [|done].
  injection E as <-. apply Forall2_cons_inv_l in Hd as (rs & rss' & (Hne & c & Ec & Hh & Hu) & Hd & ->).
  cbn [mbind outcome_bind]. rewrite check_true.
  2: { rewrite negb_true_iff, bool_decide_eq_false. intros E0. apply Hne. unfold blob_bytes. by rewrite E0. }
  cbn [mbind outcome_bind]. rewrite Ec. cbn [mbind outcome_bind].
  destruct (IH s' (n + bsize rec) recs' rss' Er Hd) as (bs & p & E & Hbs).
  destruct (holds_sizes c rs Hh) as (Hl & _). unfold Size. rewrite Hl, filter_cons.
  destruct (decide (rs = [])) as [->|Hrs].
  - rewrite (decide_False (P := S (length []) - 1 <> 0)) by (simpl; lia). cbn [mbind outcome_bind]. rewrite E. cbn [mbind outcome_bind app].
    rewrite decide_False by tauto. by exists bs, p.
  - destruct (GetBlock_shows c rs Hh Hu) as (b & Eb & Hb).
    rewrite (decide_True (P := S (length rs) - 1 <> 0)) by (destruct rs; [done|simpl; lia]). rewrite Eb. cbn [mbind outcome_bind].
    rewrite E. cbn [mbind outcome_bind app]. rewrite decide_True by done. exists (b :: bs), p. split; [done|]. by constructor.
Qed.

(** All that a worker does with its part. *)
Context (kBufferSize : nat).

Definition read_part_crb (found : list (list byte)) (rank nsplit : nat) : outcome (list (RowBlock F)) :=
  s ← Init (Sp := RecordIOSplitter junk_v junk_lrec) kBufferSize found rank nsplit 4;
  '(bs, _) ← crb_blocks PF isz junk_v junk_lrec got (S (length (concat found))) (mkCRB 0 s);
  Ok bs.

Lemma Forall2_concat_inv {A B} (P : A -> B -> Prop) (ls : list (list A)) : forall ys, Forall2 P (concat ls) ys ->
  exists yss, ys = concat yss /\ Forall2 (Forall2 P) ls yss.
Proof using.
  induction ls as [|l ls IH]; intros ys Hf; cbn [concat] in Hf.
  - apply Forall2_nil_inv_l in Hf as ->. by exists [].
  - apply Forall2_app_inv_l in Hf as (y1 & y2 & H1 & H2 & ->). destruct (IH y2 H2) as (yss & -> & Hy). exists (y1 :: yss). by split; [|constructor].
Qed.

Lemma crb_parts_ok found nsplit parts : forall ranks rsss,
  Forall2 (fun rank R => read_part_records junk_v junk_lrec got kBufferSize found rank nsplit = Ok R) ranks parts ->
  Forall2 (Forall2 decodes) parts rsss ->
  exists bss, Forall2 (fun rank bs => read_part_crb found rank nsplit = Ok bs) ranks bss /\
    Forall2 (shows 0 0) (concat bss) (with_rows (concat rsss)).
Proof.
  induction parts as [|R parts IH]; intros ranks rsss Hp Hd.
  - apply Forall2_nil_inv_r in Hp as ->. apply Forall2_nil_inv_l in Hd as ->. exists []. split; constructor.
  - apply Forall2_cons_inv_r in Hp as (rank & ranks' & Hr & Hp & ->). apply Forall2_cons_inv_l in Hd as (rss & rsss' & Hrs & Hd & ->).
    destruct (IH ranks' rsss' Hp Hd) as (bss & H1 & H2). unfold read_part_records in Hr.
    destruct (Init kBufferSize found rank nsplit 4) as [s|] eqn:Es; [|done]. cbn [mbind outcome_bind] in Hr.
    destruct (crb_blocks_ok _ s 0 R rss Hr Hrs) as (bs & p & Eb & Hb). exists (bs :: bss). split.
    + constructor; [|done]. unfold read_part_crb. rewrite Es. cbn [mbind outcome_bind]. rewrite Eb. done.
    + cbn [concat]. rewrite filter_app. by apply Forall2_app.
Qed.

End Reading.

(** A block of rows whose row pointers start at 0 is compressed without
    failing, and [Decompress] of the string into an empty container gives the
    same labels, weights, features and values, but for this: when all values are
    1 they are left out, which readers of rows take for 1.  The largest feature
    is not restored. *)
Theorem crb_roundtrip {F} `{Float F} (PF : Pod F) (HPF : @PodLaws F PF) isz `{LZ4Laws} b rs :
  (0 < Z.of_nat isz < 2 ^ 31)%Z -> crb_ok PF isz b rs ->
  exists str c, Compress PF isz b = Ok str /\ Decompress PF isz str Clear = Ok c /\ holds c (plain rs) /\ c.(max_index) = 0%Z.
Proof.
  intros Hi Hok. destruct (Decompress_ok PF HPF isz Hi b rs Hok) as (c & E & Hh & Hm). exists (crb_enc PF isz b rs), c.
  split; [by apply Compress_ok|done].
Qed.

Lemma crb_decodes {F} `{Float F} (PF : Pod F) (HPF : @PodLaws F PF) isz `{LZ4Laws} b rs str :
  (0 < Z.of_nat isz < 2 ^ 31)%Z -> crb_ok PF isz b rs -> Compress PF isz b = Ok str -> decodes PF isz str (plain rs).
Proof.
  intros Hi Hok E. rewrite (Compress_ok PF HPF isz Hi b rs Hok) in E. injection E as <-. split; [done|].
  destruct (Decompress_ok PF HPF isz Hi b rs Hok) as (c & E & Hh & _). exists c. split; [done|]. split; [done|].
  apply (plain_uniform b). apply Hok.
Qed.

(** Files of records, each a compressed block. *)
Definition crb_file {T} `{StreamLaws T} {F} `{Float F} (PF : Pod F) isz `{LZ4} (bs : list (RowBlock F)) (f : list byte) : Prop :=
  exists strs, Forall2 (fun b str => Compress PF isz b = Ok str) bs strs /\ written_file (T := T) strs f.

Lemma crb_files_decode {T} `{StreamLaws T} {F} `{Float F} (PF : Pod F) (HPF : @PodLaws F PF) isz `{LZ4Laws} bss files :
  (0 < Z.of_nat isz < 2 ^ 31)%Z -> forall rsss, Forall2 (Forall2 (crb_ok PF isz)) bss rsss -> Forall2 (crb_file (T := T) PF isz) bss files ->
  exists strss, Forall2 (written_file (T := T)) strss files /\ Forall2 (decodes PF isz) (concat strss) (map plain (concat rsss)).
Proof.
  intros Hi rsss Hok Hf. revert rsss Hok. induction Hf as [|bs f bss files (strs & Hc & Hw) Hf IH]; intros rsss Hok.
  { apply Forall2_nil_inv_l in Hok as ->. exists []. split; constructor. }
  apply Forall2_cons_inv_l in Hok as (rss & rsss' & Hrs & Hok & ->). destruct (IH rsss' Hok) as (strss & H1' & H2').
  exists (strs :: strss). split; [by constructor|]. cbn [concat]. rewrite map_app. apply Forall2_app; [|done].
  clear Hw Hf IH Hok H1' H2'. revert rss Hrs. induction Hc as [|b str bs strs Hb Hc IH]; intros rss Hrs.
  { apply Forall2_nil_inv_l in Hrs as ->. constructor. }
  apply Forall2_cons_inv_l in Hrs as (rs & rss' & Hr & Hrs & ->). simpl. constructor; [by apply (crb_decodes PF HPF isz b)|]. by apply IH.
Qed.

(** C7: files of compressed blocks, written as records and shared by any number of
    workers: every worker's parser reads its part without failing, and the blocks
    of all workers put together show the rows of the blocks that were written,
    block by block and in order, but for the blocks without rows. *)
Theorem crb_parts_cover {T} `{StreamLaws T} {F} `{Float F} (PF : Pod F) (HPF : @PodLaws F PF) isz `{LZ4Laws}
    junk_v junk_lrec got kBufferSize bss rsss files nsplit :
  (0 < Z.of_nat isz < 2 ^ 31)%Z -> length junk_v = 4 -> length junk_lrec = 4 ->
  (forall f pos n, 0 < n -> 0 < got f pos n <= n) -> 0 < kBufferSize -> 0 < nsplit ->
  Forall2 (Forall2 (crb_ok PF isz)) bss rsss -> Forall2 (crb_file (T := T) PF isz) bss files ->
  exists parts,
    Forall2 (fun rank bs => read_part_crb PF isz junk_v junk_lrec got kBufferSize files rank nsplit = Ok bs) (seq 0 nsplit) parts /\
    Forall2 (shows 0 0) (concat parts) (filter (fun rs => rs <> []) (map plain (concat rsss))).
Proof.
  intros Hi Hv Hl Hg Hb Hn Hok Hf. destruct (crb_files_decode PF HPF isz bss files Hi rsss Hok Hf) as (strss & Hw & Hd).
  destruct (written_files_enc strss files Hw) as [Hsm ->].
  destruct (record_parts_all junk_v junk_lrec Hv Hl got Hg kBufferSize Hb strss nsplit Hn Hsm) as (recs & Hp & Hc).
  rewrite <- Hc in Hd. apply Forall2_concat_inv in Hd as (ysss & -> & Hys). by apply (crb_parts_ok PF isz _ _ _ _ _ _ recs).
Qed.

(** ** Examples *)

(** LZ4 that stores its input behind one byte, and whole numbers for [real_t]. *)
#[local] Instance stored : LZ4 := {|
  LZ4_compress_default d := Byte.x00 :: d;
  LZ4_decompress_safe c n :=
    match c with
    | Byte.x00 :: d => if (Z.of_nat (length d) <=? n)%Z then Some d else None
    | _ => None
    end
|}.

#[local] Instance stored_laws : LZ4Laws.
Proof.
  split; intros d Hd; unfold max_input in Hd; cbn [LZ4_compress_default LZ4_decompress_safe stored length]; [lia|].
  by rewrite Z.leb_refl.
Defined.

#[local] Instance Zfloat : Float Z := {|
  fzero := 0; fone := 1; fadd := Z.add; fsub := Z.sub; fmul := Z.mul; fdiv := Z.div; fneg := Z.opp; fsqrt := Z.sqrt;
  feqb := Z.eqb; fltb := Z.ltb; fleb := Z.leb; fofZ z := z; ftoZ z := z |}%Z.

(** Two rows with values 1, a block without rows, one row with other values and
    a weight. *)
Definition ex_rows1 : list (arow (F := Z)) := [mkArow 1 [] [4; 9] [1; 1]; mkArow 0 [] [7] [1]]%Z.
Definition ex_block1 : RowBlock Z := mkBlock 2 [0; 2; 3] (Some [1; 0]%Z) None (Some [4; 9; 7]%Z) (Some [1; 1; 1]%Z).
Definition ex_block2 : RowBlock Z := mkBlock 0 [0] None None None None.
Definition ex_rows3 : list (arow (F := Z)) := [mkArow 1 [3] [8; 5] [2; 6]]%Z.
Definition ex_block3 : RowBlock Z := mkBlock 1 [0; 2] (Some [1]%Z) (Some [3]%Z) (Some [8; 5]%Z) (Some [2; 6]%Z).

Lemma ex_block1_ok : crb_ok (pod_uint 4) 8 ex_block1 ex_rows1.
Proof. repeat split; repeat constructor; vm_compute; congruence. Qed.
Lemma ex_block2_ok : crb_ok (pod_uint 4) 8 ex_block2 [].
Proof. repeat split; repeat constructor; vm_compute; congruence. Qed.
Lemma ex_block3_ok : crb_ok (pod_uint 4) 8 ex_block3 ex_rows3.
Proof. repeat split; repeat constructor; vm_compute; congruence. Qed.

Lemma crb_roundtrip_witness :
  exists str c, Compress (pod_uint 4) 8 ex_block1 = Ok str /\ Decompress (pod_uint 4) 8 str Clear = Ok c /\
    holds c [mkArow 1 [] [4; 9] []; mkArow 0 [] [7] []]%Z /\ c.(max_index) = 0%Z.
Proof.
  assert (0 < Z.of_nat 8 < 2 ^ 31)%Z as Hi by lia.
  exact (crb_roundtrip (pod_uint 4) _ 8 ex_block1 ex_rows1 Hi ex_block1_ok).
Defined.

Definition ex_crb_file (bs : list (RowBlock Z)) : list byte :=
  ex_rec_file (map (fun b => match Compress (pod_uint 4) 8 b with Ok s => s | Fail _ => [] end) bs).

Lemma crb_parts_cover_witness :
  let files := [ex_crb_file [ex_block1; ex_block2]; ex_crb_file [ex_block3; ex_block1]] in
  exists parts,
    Forall2 (fun rank bs => read_part_crb (pod_uint 4) 8 magic magic ex_got 1 files rank 3 = Ok bs) (seq 0 3) parts /\
    Forall2 (shows 0 0) (concat parts) [map no_value ex_rows1; ex_rows3; map no_value ex_rows1].
Proof.
  intros files. destruct (crb_parts_cover (T := MemoryStringStream.t) (pod_uint 4) _ 8 magic magic ex_got 1
    [[ex_block1; ex_block2]; [ex_block3; ex_block1]] [[ex_rows1; []]; [ex_rows3; ex_rows1]] files 3) as (parts & Hp & Hs).
  - lia.
  - reflexivity.
  - reflexivity.
  - unfold ex_got. lia.
  - lia.
  - lia.
  - pose proof ex_block1_ok. pose proof ex_block2_ok. pose proof ex_block3_ok.
    apply Forall2_cons. split; [by do 2 (apply Forall2_cons; split; [done|])|].
    apply Forall2_cons. split; [by do 2 (apply Forall2_cons; split; [done|])|done].
  - constructor; [|constructor; [|constructor]]; (eexists; split; [|apply ex_written; eexists; vm_compute; reflexivity]; repeat constructor).
  - exists parts. split; [exact Hp|exact Hs].
Defined.

(** A block whose row pointers do not start at 0, as the parts of a block have
    them, is compressed from where its arrays begin and read back as a container
    whose row pointers do not fit its features: [GetBlock] ends the process. *)
Example crb_of_a_part :
  exists str c, Compress (pod_uint 4) 8 (mkBlock 1 [2; 3] (Some [0]%Z) None (Some [4; 9; 7]%Z) None) = Ok str /\
    Decompress (pod_uint 4) 8 str Clear = Ok c /\ c.(index) = [4%Z] /\ GetBlock c = Fail CheckFailed.
Proof. eexists _, _. split; [vm_compute; reflexivity|]. split; [vm_compute; reflexivity|]. split; vm_compute; reflexivity. Qed.
