(* ===== verification/CTR.v ===== *)
(** * Reading click logs

    Models src/src/base/criteo_parser.h and adfea_parser.h: two formats of text
    whose columns are hashed or packed into feature ids, the number of the column
    in the high bits.  The hash, CityHash64, is a library the sources only call
    and a parameter here. *)
From S2P Require Import Prelude Floats Stream Workload RowBlock InputSplit Minibatch LibSVM.
From Stdlib Require QArith_base.

(** A value of the index type, of [isz] bytes. *)
Definition to_index (isz : nat) (z : Z) : Z := (z mod 2 ^ (8 * Z.of_nat isz))%Z.

(** Features without values. *)
Definition push_index (ix : Z) {F} (c : Container F) : Container F :=
  mkCont c.(offset) c.(label) c.(weight) (c.(index) ++ [ix]) c.(value) c.(max_index).
Definition push_label {F} (lb : F) (c : Container F) : Container F :=
  mkCont c.(offset) (c.(label) ++ [lb]) c.(weight) c.(index) c.(value) c.(max_index).

(** ** [CriteoParser]

    Pointers are positions in the memory [mem] the chunk begins; [e] is [end]. *)
Section Criteo.
Context {F : Type} `{HF : !Float F} (isz : nat) (CityHash64 : list byte -> Z).

(** [Find(p, end, c)] *)
Fixpoint Find (fuel : nat) (mem : list byte) (p e : nat) (c : byte) : outcome nat :=
  match fuel with
  | 0 => Fail OutOfFuel
  | S fuel =>
      if decide (p = e) then Ok p else
      x ← read_at mem p;
      if Byte.eqb x c then Ok p else Find fuel mem (p + 1) e c
  end.

(** The end of a run of memory: no search goes on behind it. *)
Definition memory_fuel (mem : list byte) : nat := length mem + 2.

(** [while ( *p == '\r' || *p == '\n') ++p] *)
Fixpoint skip_newlines (fuel : nat) (mem : list byte) (p : nat) : outcome nat :=
  match fuel with
  | 0 => Fail OutOfFuel
  | S fuel => x ← read_at mem p; if is_eol x then skip_newlines fuel mem (p + 1) else Ok p
  end.

(** [(CityHash64(p, len) >> 10) | ((size_t)i << 54)] *)
Definition criteo_index (i : nat) (tok : list byte) : Z :=
  to_index isz (Z.lor (Z.shiftr (CityHash64 tok) 10) (u64 (Z.shiftl (Z.of_nat i) 54))).

(** The loop over the 13 columns of numbers. *)
Definition int_column (mem : list byte) (e : nat) (st : nat * Container F) (i : nat) : outcome (nat * Container F) :=
  let '(p, blk) := st in
  pp ← Find (memory_fuel mem) mem p e Byte.x09;
  Ok (pp + 1, if decide (p < pp) then push_index (criteo_index i (segment p pp mem)) blk else blk).

(** The loop over the 26 columns of categories, [is_] their numbers. *)
Fixpoint cat_columns (is_ : list nat) (mem : list byte) (p e : nat) (blk : Container F) : outcome (nat * Container F) :=
  match is_ with
  | [] => Ok (p, blk)
  | i :: is_ =>
      if decide (p = e) then Ok (p, blk) else
      x ← read_at mem p;
      if isspace x then cat_columns is_ mem (p + 1) e blk else
      let pp := p + 8 in
      y ← read_at mem pp;
      _ ← check (isspace y);
      let blk := push_index (criteo_index (i + 13) (segment p pp mem)) blk in
      if is_eol y then Ok (pp + 1, blk) else cat_columns is_ mem (pp + 1) e blk
  end.

(** The label, with [is_train_]. *)
Definition criteo_label (is_train_ : bool) (mem : list byte) (p e : nat) (blk : Container F) : outcome (nat * Container F) :=
  if is_train_ then
    pp ← Find (memory_fuel mem) mem p e Byte.x09;
    _ ← check (negb (bool_decide (p = pp)));
    lb ← strtof (drop p mem);
    Ok (pp + 1, push_label lb blk)
  else Ok (p, push_label fzero blk).

(** A row, from behind the ends of lines. *)
Definition criteo_row (is_train_ : bool) (mem : list byte) (p e : nat) (blk : Container F) : outcome (nat * Container F) :=
  '(p, blk) ← criteo_label is_train_ mem p e blk;
  '(p, blk) ← foldM (int_column mem e) (seq 0 13) (p, blk);
  '(p, blk) ← cat_columns (seq 0 26) mem p e blk;
  Ok (p, close_row blk).

Fixpoint criteo_loop (fuel : nat) (is_train_ : bool) (mem : list byte) (p e : nat) (blk : Container F) : outcome (Container F) :=
  match fuel with
  | 0 => Fail OutOfFuel
  | S fuel =>
      if decide (p = e) then Ok blk else
      p ← skip_newlines (memory_fuel mem) mem p;
      if decide (p = e) then Ok blk else
      '(p, blk) ← criteo_row is_train_ mem p e blk;
      criteo_loop fuel is_train_ mem p e blk
  end.

(** What [ParseNext] does with a chunk. *)
Definition criteo_chunk (is_train_ : bool) (chunk : Blob) : outcome (Container F) :=
  _ ← check (negb (bool_decide (chunk.(bsize) = 0)));
  criteo_loop (memory_fuel chunk.(dptr)) is_train_ chunk.(dptr) 0 chunk.(bsize) Clear.

Record CriteoParser := mkCriteo { cr_bytes_read_ : nat; cr_source_ : InputSplitBase; is_train_ : bool }.

Definition CriteoParseNext (got : nat -> nat -> nat -> nat) (p : CriteoParser) : outcome (option (Container F) * CriteoParser) :=
  '(r, src) ← NextChunk (Sp := LineSplitter) got p.(cr_source_);
  match r with
  | None => Ok (None, mkCriteo p.(cr_bytes_read_) src p.(is_train_))
  | Some chunk =>
      blk ← criteo_chunk p.(is_train_) chunk;
      Ok (Some blk, mkCriteo (p.(cr_bytes_read_) + chunk.(bsize)) src p.(is_train_))
  end.

Definition CriteoBeforeFirst (p : CriteoParser) : outcome CriteoParser :=
  src ← InputSplit.BeforeFirst p.(cr_source_); Ok (mkCriteo p.(cr_bytes_read_) src p.(is_train_)).

End Criteo.

(** ** [AdfeaParser] *)
Section Adfea.
Context {F : Type} `{HF : !Float F} (isz : nat).

(** [while (f( *p) && p != end) ++p]: the character is looked at first. *)
Fixpoint skip_run (f : byte -> bool) (fuel : nat) (mem : list byte) (p e : nat) : outcome nat :=
  match fuel with
  | 0 => Fail OutOfFuel
  | S fuel => x ← read_at mem p; if f x then if decide (p = e) then Ok p else skip_run f fuel mem (p + 1) e else Ok p
  end.

(** The feature at [head], its group at [p]. *)
Definition adfea_index (mem : list byte) (head p : nat) : outcome Z :=
  idx ← strtouint (drop head mem);
  let idx := to_index isz idx in
  if decide (isz = 8) then
    gid ← strtouint (drop p mem);
    Ok (to_index isz (Z.lor (Z.shiftr idx 10) (u64 (Z.shiftl (to_index isz gid) 54))))
  else Ok idx.

(** [blk.label.push_back( *head == '1')], behind the row before it. *)
Definition adfea_label (x : byte) (blk : Container F) : Container F :=
  push_label (if Byte.eqb x Byte.x31 then fone else fzero)
    (if decide (length blk.(label) <> 0) then close_row blk else blk).

(** The body of the loop: a token; [i] counts those that are not features. *)
Definition adfea_token (mem : list byte) (head e i : nat) (blk : Container F) : outcome (nat * nat * Container F) :=
  p ← skip_run isdigit (memory_fuel mem) mem head e;
  _ ← check (negb (bool_decide (head = p)));
  x ← read_at mem p;
  if Byte.eqb x Byte.x3a then
    let p := p + 1 in
    ix ← adfea_index mem head p;
    p ← skip_run isdigit (memory_fuel mem) mem p e;
    Ok (p, i, push_index ix blk)
  else if decide (i = 2) then
    x ← read_at mem head;
    Ok (p, 0, adfea_label x blk)
  else Ok (p, i + 1, blk).

Fixpoint adfea_loop (fuel : nat) (mem : list byte) (p e i : nat) (blk : Container F) : outcome (Container F) :=
  match fuel with
  | 0 => Fail OutOfFuel
  | S fuel =>
      if decide (p = e) then Ok blk else
      '(p, i, blk) ← adfea_token mem p e i blk;
      p ← skip_run isspace (memory_fuel mem) mem p e;
      adfea_loop fuel mem p e i blk
  end.

(** What [ParseNext] does with a chunk. *)
Definition adfea_chunk (chunk : Blob) : outcome (Container F) :=
  _ ← check (negb (bool_decide (chunk.(bsize) = 0)));
  let mem := chunk.(dptr) in
  let e := chunk.(bsize) in
  p ← skip_run isspace (memory_fuel mem) mem 0 e;
  blk ← adfea_loop (memory_fuel mem) mem p e 0 Clear;
  Ok (if decide (length blk.(label) <> 0) then close_row blk else blk).

Record AdfeaParser := mkAdfea { ad_bytes_read_ : nat; ad_source_ : InputSplitBase }.

Definition AdfeaParseNext (got : nat -> nat -> nat -> nat) (p : AdfeaParser) : outcome (option (Container F) * AdfeaParser) :=
  '(r, src) ← NextChunk (Sp := LineSplitter) got p.(ad_source_);
  match r with
  | None => Ok (None, mkAdfea p.(ad_bytes_read_) src)
  | Some chunk =>
      blk ← adfea_chunk chunk;
      Ok (Some blk, mkAdfea (p.(ad_bytes_read_) + chunk.(bsize)) src)
  end.

Definition AdfeaBeforeFirst (p : AdfeaParser) : outcome AdfeaParser :=
  src ← InputSplit.BeforeFirst p.(ad_source_); Ok (mkAdfea p.(ad_bytes_read_) src).

End Adfea.

(** ** Lines of the Criteo format *)

Notation tab := Byte.x09.

Record cline := mkCline { cl_label : list byte; cl_ints : list (list byte); cl_cats : list (list byte) }.

Fixpoint sep_cats (ts : list (list byte)) : list byte :=
  match ts with
  | [] => []
  | [t] => t
  | t :: ts => t ++ tab :: sep_cats ts
  end.

Definition tabbed (ts : list (list byte)) : list byte := concat (map (fun t => t ++ [tab]) ts).
Definition cline_bytes (train : bool) (l : cline) : list byte :=
  (if train then l.(cl_label) ++ [tab] else []) ++ tabbed l.(cl_ints) ++ sep_cats l.(cl_cats).

(** A column of numbers is any text without a tab; a category has eight
    characters or is missing. *)
Definition wf_int (t : list byte) : Prop := Forall (fun c => c <> tab /\ is_eol c = false) t.
Definition wf_cat (t : list byte) : Prop := t = [] \/ length t = 8 /\ Forall (fun c => isspace c = false) t.
Record wf_cline (train : bool) (l : cline) : Prop := {
  wc_label : train = true -> token l.(cl_label);
  wc_ints : length l.(cl_ints) = 13 /\ Forall wf_int l.(cl_ints);
  wc_cats : length l.(cl_cats) = 26 /\ Forall wf_cat l.(cl_cats)
}.

Section CriteoLines.
Context {F : Type} `{HF : !Float F} (isz : nat) (CityHash64 : list byte -> Z).
Notation cindex := (criteo_index isz CityHash64).

(** The features of the columns from number [k] on, without the empty ones. *)
Fixpoint columns (k : nat) (ts : list (list byte)) : list Z :=
  match ts with
  | [] => []
  | t :: ts => (if decide (t = []) then [] else [cindex k t]) ++ columns (S k) ts
  end.

(** The row of a line. *)
Definition criteo_arow (train : bool) (l : cline) : arow (F := F) :=
  mkArow (if train then tok_float l.(cl_label) else fzero) [] (columns 0 (l.(cl_ints) ++ l.(cl_cats))) [].

Definition push_all (ixs : list Z) (c : Container F) : Container F :=
  mkCont c.(offset) c.(label) c.(weight) (c.(index) ++ ixs) c.(value) c.(max_index).

Lemma push_all_app c l1 l2 : push_all l2 (push_all l1 c) = push_all (l1 ++ l2) c.
Proof. unfold push_all. simpl. by rewrite app_assoc. Qed.

Lemma push_all_nil c : push_all [] c = c.
Proof. unfold push_all. rewrite app_nil_r. by destruct c. Qed.

Lemma columns_app k l1 l2 : columns k (l1 ++ l2) = columns k l1 ++ columns (k + length l1) l2.
Proof.
  revert k. induction l1 as [|t l1 IH]; intros k; simpl; [by rewrite Nat.add_0_r|]. rewrite IH, app_assoc. do 2 f_equal. lia.
Qed.

Lemma read_middle (pre : list byte) c post : read_at (pre ++ c :: post) (length pre) = Ok c.
Proof using. apply read_at_Ok. by rewrite lookup_app_r, Nat.sub_diag by lia. Qed.

Lemma eqb_neq (x c : byte) : x <> c -> Byte.eqb x c = false.
Proof using. intros Hx. destruct (Byte.eqb x c) eqn:E; [|done]. by apply byte_eqb_eq in E. Qed.

Lemma eqb_same (c : byte) : Byte.eqb c c = true.
Proof using. by destruct c. Qed.

Lemma Find_ok t : forall pre c post fuel e, Forall (fun x => x <> c) t -> length (pre ++ t) <= e -> length t < fuel ->
  Find fuel (pre ++ t ++ c :: post) (length pre) e c = Ok (length (pre ++ t)).
Proof using.
  induction t as [|x t IH]; intros pre c post fuel e Ht He Hf; (destruct fuel as [|fuel]; [lia|]); cbn [Find].
  - rewrite app_nil_r. case_decide; [done|]. cbn [app]. rewrite read_middle. cbn [mbind outcome_bind]. by rewrite eqb_same.
  - apply Forall_cons in Ht as [Hx Ht]. rewrite length_app in He. simpl in He. rewrite decide_False by lia. cbn [app].
    rewrite read_middle. cbn [mbind outcome_bind]. rewrite eqb_neq by done.
    specialize (IH (pre ++ [x]) c post fuel e Ht). rewrite <- !app_assoc, length_app in IH. cbn [app length] in IH. rewrite !length_app in *.
    apply IH; simpl in *; lia.
Qed.

Lemma segment_middle (pre t post : list byte) : segment (length pre) (length (pre ++ t)) (pre ++ t ++ post) = t.
Proof using.
  unfold segment. rewrite length_app. replace (_ - _) with (length t) by lia. by rewrite drop_app_length, take_app_length.
Qed.

Lemma int_columns_ok ts : forall k pre post e blk, Forall wf_int ts -> length (pre ++ tabbed ts) <= e ->
  foldM (int_column isz CityHash64 (pre ++ tabbed ts ++ post) e) (seq k (length ts)) (length pre, blk) =
    Ok (length (pre ++ tabbed ts), push_all (columns k ts) blk).
Proof.
  induction ts as [|t ts IH]; intros k pre post e blk Ht He; unfold tabbed in *; cbn [map concat length seq foldM columns] in *.
  { by rewrite app_nil_r, push_all_nil. }
  apply Forall_cons in Ht as [H1 H2]. rewrite <- app_assoc in He |- *. unfold int_column at 2. rewrite <- !app_assoc. cbn [app].
  rewrite (Find_ok t pre tab).
  - cbn [mbind outcome_bind]. rewrite segment_middle.
    assert ((if decide (length pre < length (pre ++ t)) then push_index (cindex k t) blk else blk) =
            push_all (if decide (t = []) then [] else [cindex k t]) blk) as ->.
    { rewrite length_app. destruct (decide (t = [])) as [->|Hn]; [rewrite decide_False by (simpl; lia); by rewrite push_all_nil|].
      rewrite decide_True; [done|]. destruct t; [done|simpl; lia]. }
    specialize (IH (S k) (pre ++ t ++ [tab]) post e (push_all (if decide (t = []) then [] else [cindex k t]) blk) H2).
    rewrite <- !app_assoc in IH. cbn [app] in IH. cbn [app] in He. specialize (IH He).
    replace (length (pre ++ t) + 1) with (length (pre ++ t ++ [tab])) by (rewrite !length_app; simpl; lia).
    rewrite IH. by rewrite push_all_app.
  - eapply Forall_impl; [exact H1|]. by intros c [? _].
  - rewrite !length_app in *. simpl in He. lia.
  - unfold memory_fuel. rewrite !length_app. lia.
Qed.

Lemma eol_isspace c : is_eol c = true -> isspace c = true.
Proof using.
  intros H. pose proof (all_bytes_check (fun c => implb (is_eol c) (isspace c)) eq_refl c) as Hc. simpl in Hc. by rewrite H in Hc.
Qed.

Lemma cat_columns_ok ts : forall k pre c post e blk, ts <> [] -> Forall wf_cat ts -> is_eol c = true ->
  length (pre ++ sep_cats ts) < e ->
  cat_columns isz CityHash64 (seq k (length ts)) (pre ++ sep_cats ts ++ c :: post) (length pre) e blk =
    Ok (length (pre ++ sep_cats ts) + 1, push_all (columns (k + 13) ts) blk).
Proof.
  assert (forall (t pre post : list byte) y, length t = 8 -> read_at (pre ++ t ++ y :: post) (length pre + 8) = Ok y) as Hread8.
  { intros t pre post y H8. rewrite app_assoc. rewrite <- H8, <- length_app. apply read_middle. }
  assert (forall (t pre post : list byte), length t = 8 -> segment (length pre) (length pre + 8) (pre ++ t ++ post) = t) as Hseg8.
  { intros t pre post H8. rewrite <- H8, <- length_app. apply segment_middle. }
  induction ts as [|t ts IH]; intros k pre c post e blk Hne Hwf Hc He; [done|]. apply Forall_cons in Hwf as [Ht Hwf].
  cbn [length seq cat_columns columns]. rewrite length_app in He. rewrite (decide_False (P := length pre = e)) by lia.
  destruct ts as [|t2 ts].
  - cbn [sep_cats length seq columns] in *. destruct Ht as [->|[H8 Ht]].
    + cbn [app]. rewrite read_middle. cbn [mbind outcome_bind]. rewrite (eol_isspace c Hc). cbn [cat_columns].
      by rewrite decide_True, app_nil_r, push_all_nil.
    + destruct t as [|x t0] eqn:Et; [done|]. rewrite <- Et in *. rewrite Et at 1. cbn [app]. rewrite read_middle. cbn [mbind outcome_bind].
      assert (isspace x = false) as -> by (rewrite Et in Ht; by apply Forall_cons in Ht as [? _]).
      rewrite (Hread8 t) by done. cbn [mbind outcome_bind]. rewrite (eol_isspace c Hc). cbn [check mbind outcome_bind]. rewrite Hc.
      rewrite (Hseg8 t) by done. rewrite decide_False by (by rewrite Et). rewrite length_app, H8. done.
  - change (sep_cats (t :: t2 :: ts)) with (t ++ tab :: sep_cats (t2 :: ts)) in *.
    assert (forall q blk', length q = length pre + length t + 1 -> q = pre ++ t ++ [tab] ->
      cat_columns isz CityHash64 (seq (S k) (length (t2 :: ts))) (pre ++ (t ++ tab :: sep_cats (t2 :: ts)) ++ c :: post) (length q) e blk' =
      Ok (length (pre ++ t ++ tab :: sep_cats (t2 :: ts)) + 1, push_all (columns (S k + 13) (t2 :: ts)) blk')) as Hrec.
    { intros q blk' Hq Eq. specialize (IH (S k) q c post e blk' ltac:(done) Hwf Hc).
      rewrite Eq in IH at 1 2 4. rewrite <- !app_assoc in IH. cbn [app] in IH. rewrite <- !app_assoc. cbn [app]. rewrite IH; [done|].
      rewrite !length_app in *. simpl in *. lia. }
    rewrite !length_app in He. cbn [length] in He. destruct Ht as [->|[H8 Ht]].
    + cbn [app]. rewrite read_middle. cbn [mbind outcome_bind].
      change (isspace tab) with true. cbn [app] in Hrec. replace (length pre + 1) with (length (pre ++ [tab])) by (by rewrite length_app).
      rewrite (Hrec (pre ++ [tab])) by (rewrite ?length_app; simpl; done || lia). by rewrite decide_True.
    + destruct t as [|x t0] eqn:Et; [done|]. rewrite <- Et in *. rewrite Et at 1. cbn [app]. rewrite read_middle. cbn [mbind outcome_bind].
      assert (isspace x = false) as -> by (rewrite Et in Ht; by apply Forall_cons in Ht as [? _]).
      rewrite <- (app_assoc t). cbn [app]. rewrite (Hread8 t) by done. cbn [mbind outcome_bind].
      change (isspace tab) with true. change (is_eol tab) with false. cbn [check mbind outcome_bind].
      rewrite (Hseg8 t) by done. rewrite decide_False by (by rewrite Et).
      rewrite <- (app_assoc t) in Hrec. cbn [app] in Hrec.
      replace (length pre + 8 + 1) with (length (pre ++ t ++ [tab])) by (rewrite !length_app; simpl; lia).
      rewrite Hrec by (rewrite ?length_app; simpl; done || lia). by rewrite <- push_all_app.
Qed.

(** A container with one more row. *)
Lemma close_holds c rs lb ixs : holds c rs ->
  holds (close_row (push_all ixs (push_label lb c))) (rs ++ [mkArow lb [] ixs []]).
Proof using.
  intros Hh. pose proof (holds_app_offset c rs [mkArow lb [] ixs []] Hh) as Ho. destruct Hh as [H1 H2 H3 H4 H5].
  split; cbn [close_row push_all push_label offset label weight index value]; rewrite ?map_app, ?concat_app; cbn [map concat a_label a_weight a_index a_value];
    rewrite ?app_nil_r; try congruence.
  rewrite map_app in Ho. cbn [map psums tail] in Ho. rewrite <- Ho. unfold nfeat. cbn [a_index]. by rewrite length_app.
Qed.

Lemma bind_Ok {A B} (m : outcome A) (f : A -> outcome B) a o : m = Ok a -> f a = o -> m ≫= f = o.
Proof using. by intros -> <-. Qed.

Lemma token_not_tab t : token t -> Forall (fun c => c <> tab /\ is_eol c = false) t.
Proof using.
  intros [_ Ht]. eapply Forall_impl; [exact Ht|]. intros c Hc. destruct (digitchar_not c Hc) as (H1 & _ & H3). split; [|done]. by intros ->.
Qed.

Lemma criteo_row_ok train l pre c post e blk rs : wf_cline train l -> is_eol c = true -> holds blk rs ->
  length (pre ++ cline_bytes train l) < e ->
  exists blk', criteo_row isz CityHash64 train (pre ++ cline_bytes train l ++ c :: post) (length pre) e blk =
      Ok (length (pre ++ cline_bytes train l) + 1, blk') /\ holds blk' (rs ++ [criteo_arow train l]).
Proof.
  intros [Hl [Hi1 Hi2] [Hc1 Hc2]] Hc Hh He. unfold criteo_row, cline_bytes in *.
  set (lab := if train then cl_label l ++ [tab] else []) in *.
  set (lb := if train then tok_float (cl_label l) else fzero).
  assert (criteo_label train (pre ++ lab ++ tabbed (cl_ints l) ++ sep_cats (cl_cats l) ++ c :: post) (length pre) e blk =
    Ok (length (pre ++ lab), push_label lb blk)) as E0.
  { unfold criteo_label, lab, lb in *. destruct train; [|by rewrite app_nil_r].
    specialize (Hl eq_refl). rewrite <- !app_assoc in He. rewrite <- !app_assoc. cbn [app] in *. rewrite (Find_ok (cl_label l) pre tab).
    - cbn [mbind outcome_bind]. rewrite check_true.
      2: { rewrite negb_true_iff, bool_decide_eq_false, length_app. destruct Hl as [Hn _]. destruct (cl_label l); [done|simpl; lia]. }
      cbn [mbind outcome_bind]. rewrite drop_app_length, strtof_tok by done. cbn [mbind outcome_bind]. rewrite !length_app. simpl. do 2 f_equal. lia.
    - eapply Forall_impl; [apply (token_not_tab _ Hl)|]. by intros x [? _].
    - rewrite !length_app in *. lia.
    - unfold memory_fuel. rewrite !length_app. lia. }
  rewrite <- !app_assoc.
  pose proof (int_columns_ok (cl_ints l) 0 (pre ++ lab) (sep_cats (cl_cats l) ++ c :: post) e (push_label lb blk) Hi2) as E1.
  rewrite Hi1, <- !app_assoc in E1. specialize (E1 ltac:(rewrite !length_app in *; lia)).
  pose proof (cat_columns_ok (cl_cats l) 0 (pre ++ lab ++ tabbed (cl_ints l)) c post e (push_all (columns 0 (cl_ints l)) (push_label lb blk))) as E2.
  rewrite Hc1, <- !app_assoc in E2. specialize (E2 ltac:(by destruct (cl_cats l)) Hc2 Hc He).
  eexists. split.
  - eapply bind_Ok; [exact E0|]. eapply bind_Ok; [exact E1|]. eapply bind_Ok; [exact E2|]. reflexivity.
  - rewrite push_all_app. unfold criteo_arow. rewrite columns_app, Hi1, Nat.add_0_l. by apply close_holds.
Qed.

Lemma skip_newlines_ok eols : forall pre c post fuel, Forall (fun x => is_eol x = true) eols -> is_eol c = false -> length eols < fuel ->
  skip_newlines fuel (pre ++ eols ++ c :: post) (length pre) = Ok (length (pre ++ eols)).
Proof using.
  induction eols as [|x eols IH]; intros pre c post fuel He Hc Hf; (destruct fuel as [|fuel]; [lia|]); cbn [skip_newlines app].
  - rewrite read_middle. cbn [mbind outcome_bind]. rewrite Hc. by rewrite app_nil_r.
  - apply Forall_cons in He as [Hx He]. rewrite read_middle. cbn [mbind outcome_bind]. rewrite Hx.
    specialize (IH (pre ++ [x]) c post fuel He Hc). rewrite <- !app_assoc, length_app in IH. cbn [app length] in IH.
    apply IH. simpl in Hf. lia.
Qed.

Lemma lines_skip eols s : Forall (fun x => is_eol x = true) eols -> lines (eols ++ s) = lines s.
Proof using. intros He. unfold lines. induction He as [|x eols Hx _ IH]; [done|]. simpl. by rewrite Hx. Qed.

(** The next line of a text. *)
Lemma next_line s : s = [] \/ ends_eol s ->
  exists eols s2, s = eols ++ s2 /\ Forall (fun x => is_eol x = true) eols /\
    (s2 = [] /\ lines s = [] \/
     exists x line c s3, s2 = (x :: line) ++ c :: s3 /\ is_eol x = false /\ is_eol c = true /\ lines s = (x :: line) :: lines s3 /\ (s3 = [] \/ ends_eol s3)).
Proof using.
  intros Hs. destruct (span_prefix is_eol s) as (eols & s2 & -> & He & H2). exists eols, s2. split; [done|]. split; [done|].
  rewrite lines_skip by done. destruct s2 as [|x s2]; [by left|right].
  destruct Hs as [Hs|Hs]; [by apply app_eq_nil in Hs as [_ ?]|]. apply ends_eol_suffix in Hs; [|done].
  destruct (span_prefix (fun c => negb (is_eol c)) (x :: s2)) as (line & rest & E & Hl & Hr).
  assert (Forall (fun c => is_eol c = false) line) as Hl' by (eapply Forall_impl; [exact Hl|]; intros y Hy; by apply negb_true_iff).
  destruct rest as [|c s3].
  { exfalso. destruct Hs as (l & c & E' & Hc). rewrite E', app_nil_r in E. subst line. apply Forall_app in Hl' as [_ Hl'].
    apply Forall_cons in Hl' as [Hl' _]. congruence. }
  apply negb_false_iff in Hr. destruct line as [|y line]; [simpl in E; injection E as -> _; congruence|].
  cbn [app] in E. injection E as <- E. exists x, line, c, s3. split; [by rewrite E|]. split; [done|]. split; [done|]. split.
  - rewrite E. change (x :: line ++ c :: s3) with ((x :: line) ++ c :: s3). unfold lines. rewrite (lines_run [] (x :: line)) by done.
    cbn [app lines_from]. by rewrite Hr.
  - destruct s3 as [|z s3]; [by left|right]. rewrite E in Hs. change (x :: line ++ c :: z :: s3) with ((x :: line) ++ [c] ++ z :: s3) in Hs.
    rewrite app_assoc in Hs. by apply ends_eol_suffix in Hs.
Qed.

Lemma criteo_loop_ok fuel : forall train pre s b0 post blk rs cls, is_eol b0 = false -> (s = [] \/ ends_eol s) ->
  Forall2 (fun l t => l = cline_bytes train t /\ wf_cline train t) (lines s) cls -> holds blk rs -> length s < fuel ->
  exists blk', criteo_loop isz CityHash64 fuel train (pre ++ s ++ b0 :: post) (length pre) (length (pre ++ s)) blk = Ok blk' /\
    holds blk' (rs ++ map (criteo_arow train) cls).
Proof.
  induction fuel as [|fuel IH]; intros train pre s b0 post blk rs cls Hb Hs Hcl Hh Hf; [lia|]. cbn [criteo_loop].
  destruct (next_line s Hs) as (eols & s2 & -> & He & Hcase). rewrite length_app in Hf. rewrite (length_app pre).
  case_decide as Hend.
  { rewrite length_app in Hend. destruct eols; [|simpl in Hend; lia]. destruct s2; [|simpl in Hend; lia]. inversion Hcl.
    exists blk. simpl. by rewrite app_nil_r. }
  destruct Hcase as [[-> Hl]|(x & line & c & s3 & -> & Hx & Hc & Hl & Hs3)].
  - rewrite Hl in Hcl. inversion Hcl. rewrite app_nil_r in *. rewrite skip_newlines_ok; [|done|done|unfold memory_fuel; rewrite !length_app; lia].
    cbn [mbind outcome_bind]. rewrite length_app, decide_True by done. exists blk. simpl. by rewrite app_nil_r.
  - rewrite Hl in Hcl. apply Forall2_cons_inv_l in Hcl as (t & cls' & [El Hwf] & Hcl & ->). rewrite El in *.
    rewrite <- !app_assoc. cbn [app].
    destruct (cline_bytes train t) as [|x' line'] eqn:Ecl; [done|]. injection El as <- <-.
    cbn [app]. rewrite skip_newlines_ok; [|done|done|unfold memory_fuel; rewrite !length_app; lia]. cbn [mbind outcome_bind].
    rewrite decide_False by (rewrite !length_app; simpl; lia). change (x :: line ++ c :: s3 ++ b0 :: post) with ((x :: line) ++ c :: s3 ++ b0 :: post). change (x :: line ++ c :: s3) with ((x :: line) ++ c :: s3).
    rewrite <- Ecl in *. rewrite app_assoc.
    destruct (criteo_row_ok train t (pre ++ eols) c (s3 ++ b0 :: post) (length pre + length (eols ++ cline_bytes train t ++ c :: s3)) blk rs Hwf Hc Hh)
      as (blk1 & -> & Hh1); [rewrite !length_app; simpl; lia|]. cbn [mbind outcome_bind].
    specialize (IH train ((pre ++ eols) ++ cline_bytes train t ++ [c]) s3 b0 post blk1 (rs ++ [criteo_arow train t]) cls' Hb Hs3 Hcl Hh1).
    destruct IH as (blk' & E & Hh'); [rewrite length_app in Hf; simpl in Hf; lia|].
    exists blk'. cbn [map]. rewrite <- app_assoc in Hh'. split; [|exact Hh'].
    rewrite <- !app_assoc in E. cbn [app] in E. rewrite <- !app_assoc.
    replace (length (pre ++ eols ++ cline_bytes train t ++ [c])) with (length ((pre ++ eols) ++ cline_bytes train t) + 1) in E
      by (rewrite !length_app; simpl; lia).
    replace (length (pre ++ eols ++ cline_bytes train t ++ c :: s3)) with (length pre + length (eols ++ cline_bytes train t ++ c :: s3)) in E
      by (rewrite !length_app; simpl; lia).
    rewrite <- !app_assoc in E. exact E.
Qed.

End CriteoLines.

(** The high bits of a feature id are the number of its column. *)
Lemma criteo_index_column CityHash64 i t : (0 <= CityHash64 t < 2 ^ 64)%Z -> i < 64 ->
  Z.shiftr (criteo_index 8 CityHash64 i t) 54 = Z.of_nat i.
Proof.
  intros Hh Hi. unfold criteo_index, to_index. change (8 * Z.of_nat 8)%Z with 64%Z.
  rewrite u64_small by (rewrite Z.shiftl_mul_pow2 by lia; lia).
  assert (0 <= Z.shiftr (CityHash64 t) 10 < 2 ^ 54)%Z as Hs.
  { rewrite Z.shiftr_div_pow2 by lia. split; [apply Z.div_pos; lia|apply Z.div_lt_upper_bound; lia]. }
  set (h := Z.shiftr (CityHash64 t) 10) in *. rewrite <- Z.land_ones by lia. rewrite Z.shiftr_land, Z.shiftr_lor.
  rewrite (Z.shiftr_div_pow2 h) by lia. rewrite Z.div_small by lia. rewrite Z.lor_0_l, Z.shiftr_shiftl_l, Z.sub_diag, Z.shiftl_0_r by lia.
  change (Z.shiftr (Z.ones 64) 54) with (Z.ones 10). rewrite Z.land_ones by lia. apply Z.mod_small. lia.
Qed.

(** C35: A chunk of lines of the Criteo format that ends with an end of line, and
    whose next byte in memory is not one, is parsed without failing and without
    looking at more than that byte: the container holds one row per line, with the
    label (0 when the lines have none) and the features of its columns that are
    not empty; for feature ids of 8 bytes the number of the column is in the high
    bits, so that columns never share a feature. *)
Theorem criteo_chunk_rows {F} `{HF : !Float F} isz CityHash64 train chunk b0 cls :
  0 < chunk.(bsize) -> ends_eol (blob_bytes chunk) -> read_at chunk.(dptr) chunk.(bsize) = Ok b0 -> is_eol b0 = false ->
  (forall t, 0 <= CityHash64 t < 2 ^ 64)%Z ->
  Forall2 (fun l t => l = cline_bytes train t /\ wf_cline train t) (lines (blob_bytes chunk)) cls ->
  (exists blk, criteo_chunk (F := F) isz CityHash64 train chunk = Ok blk /\ holds blk (map (criteo_arow isz CityHash64 train) cls)) /\
  (forall i j t t', isz = 8 -> i < 39 -> j < 39 -> i <> j -> criteo_index isz CityHash64 i t <> criteo_index isz CityHash64 j t').
Proof.
  intros Hs He Hb Hb0 Hh Hcl. split.
  - unfold criteo_chunk. rewrite check_true by (rewrite negb_true_iff, bool_decide_eq_false; lia). cbn [mbind outcome_bind].
    apply read_at_Ok in Hb. pose proof (take_drop_middle _ _ _ Hb) as Em. fold (blob_bytes chunk) in Em.
    pose proof (lookup_lt_Some _ _ _ Hb) as Hlt.
    assert (length (blob_bytes chunk) = bsize chunk) as Hl by (unfold blob_bytes; rewrite length_take; lia).
    destruct (criteo_loop_ok isz CityHash64 (memory_fuel (dptr chunk)) train [] (blob_bytes chunk) b0 (drop (S (bsize chunk)) (dptr chunk)) Clear [] cls
      Hb0 (or_intror He) Hcl (holds_Clear (F := F))) as (blk & E & Hblk).
    { unfold memory_fuel. lia. }
    cbn [app length] in E. rewrite Em, Hl in E. by exists blk.
  - intros i j t t' -> Hi Hj Hij E. apply Hij. apply Nat2Z.inj.
    rewrite <- (criteo_index_column CityHash64 i t), <- (criteo_index_column CityHash64 j t') by (auto || lia). by rewrite E.
Qed.

(** ** Lines of the Adfea format *)

(** A number, or a feature with its group. *)
Inductive atok := ANum (d : list byte) | AFeat (d g : list byte).

Definition atok_bytes (t : atok) : list byte := match t with ANum d => d | AFeat d g => d ++ Byte.x3a :: g end.
Definition number (d : list byte) : Prop := d <> [] /\ Forall (fun c => isdigit c = true) d.
Definition wf_atok (t : atok) : Prop := match t with ANum d => number d | AFeat d g => number d /\ number g end.

(** Tokens with the spaces or ends of lines behind them. *)
Definition atoks_bytes (its : list (atok * list byte)) : list byte := concat (map (fun it => atok_bytes it.1 ++ it.2) its).
Definition wf_item (it : atok * list byte) : Prop :=
  wf_atok it.1 /\ it.2 <> [] /\ Forall (fun c => isspace c = true) it.2.

(** A line: its number, a count, the label, the features. *)
Record aline := mkAline { al_head : list byte * list byte; al_count : list byte * list byte; al_label : list byte * list byte;
  al_feats : list (list byte * list byte * list byte) }.
Definition aline_items (l : aline) : list (atok * list byte) :=
  [(ANum l.(al_head).1, l.(al_head).2); (ANum l.(al_count).1, l.(al_count).2); (ANum l.(al_label).1, l.(al_label).2)] ++
  map (fun f => (AFeat f.1.1 f.1.2, f.2)) l.(al_feats).

Lemma skip_run_ok f t : forall pre c post fuel e, Forall (fun x => f x = true) t -> (f c = false \/ length (pre ++ t) = e) ->
  length (pre ++ t) <= e -> length t < fuel -> skip_run f fuel (pre ++ t ++ c :: post) (length pre) e = Ok (length (pre ++ t)).
Proof.
  induction t as [|x t IH]; intros pre c post fuel e Ht Hc He Hf; (destruct fuel as [|fuel]; [lia|]); cbn [skip_run app].
  - rewrite app_nil_r in *. rewrite read_middle. cbn [mbind outcome_bind]. destruct (f c); [|done].
    destruct Hc as [|Hc]; [done|]. by rewrite decide_True.
  - apply Forall_cons in Ht as [Hx Ht]. rewrite read_middle. cbn [mbind outcome_bind]. rewrite Hx.
    rewrite decide_False by (rewrite length_app in He; simpl in He; lia).
    specialize (IH (pre ++ [x]) c post fuel e Ht). rewrite <- !app_assoc, !length_app in IH. cbn [app length] in IH. rewrite !length_app in *. cbn [length] in *.
    apply IH; [done..|lia].
Qed.

Lemma number_token d : number d -> token d /\ no_minus d.
Proof.
  intros [Hn Hd]. split; [split; [done|]|].
  - eapply Forall_impl; [exact Hd|]. intros c Hc. by apply digit_is_digitchar.
  - destruct d as [|x d]; [done|]. apply Forall_cons in Hd as [Hx _]. intros E. simpl in E. injection E as ->. done.
Qed.

Lemma space_not c : isspace c = true -> isdigitchars c = false /\ isdigit c = false /\ Byte.eqb c Byte.x3a = false.
Proof.
  intros H. pose proof (all_bytes_check (fun c => implb (isspace c) (negb (isdigitchars c) && negb (isdigit c) && negb (Byte.eqb c Byte.x3a))) eq_refl c) as Hc.
  simpl in Hc. rewrite H in Hc. simpl in Hc. rewrite !andb_true_iff, !negb_true_iff in Hc. tauto.
Qed.

(** What comes first of a text, with what is behind it, is no space. *)
Lemma atoks_first its b post : Forall wf_item its ->
  exists c' post', atoks_bytes its ++ b :: post = c' :: post' /\ (isspace c' = false \/ atoks_bytes its = []).
Proof.
  intros Hw. unfold atoks_bytes. destruct its as [|[t2 s2] its]; [by exists b, post; split; [|right]|].
  apply Forall_cons in Hw as [(Ht2 & _) _]. cbn [fst] in Ht2. cbn [map concat fst snd].
  assert (exists x l, atok_bytes t2 = x :: l /\ isdigit x = true) as (x & l & -> & Hx).
  { destruct t2 as [d|d g]; cbn [atok_bytes wf_atok] in *; [destruct Ht2 as [H0 Hd]|destruct Ht2 as [[H0 Hd] _]]; destruct d as [|x d]; try done;
      apply Forall_cons in Hd as [Hx _]; cbn [app]; eauto. }
  eexists x, _. split; [done|left]. destruct (isspace x) eqn:E; [|done]. destruct (space_not x E) as (_ & E2 & _). congruence.
Qed.

Section AdfeaLines.
Context {F : Type} `{HF : !Float F} (isz : nat).

(** What a token does. *)
Definition adfea_ix (d g : list byte) : Z :=
  if decide (isz = 8) then
    to_index isz (Z.lor (Z.shiftr (to_index isz (tok_index d)) 10) (u64 (Z.shiftl (to_index isz (tok_index g)) 54)))
  else to_index isz (tok_index d).
Definition astep (st : nat * Container F) (t : atok) : nat * Container F :=
  match t with
  | AFeat d g => (st.1, push_index (adfea_ix d g) st.2)
  | ANum d => if decide (st.1 = 2) then (0, adfea_label (default Byte.x00 (head d)) st.2) else (st.1 + 1, st.2)
  end.

Lemma adfea_token_ok t pre c post e i (blk : Container F) : wf_atok t -> isspace c = true -> length (pre ++ atok_bytes t) <= e ->
  adfea_token isz (pre ++ atok_bytes t ++ c :: post) (length pre) e i blk =
    Ok (length (pre ++ atok_bytes t), (astep (i, blk) t).1, (astep (i, blk) t).2).
Proof.
  intros Ht Hc He. destruct (space_not c Hc) as (H1 & H2 & H3). unfold adfea_token. destruct t as [d|d g]; cbn [atok_bytes] in *.
  - destruct Ht as [Hn Hd]. rewrite (skip_run_ok isdigit d) by (done || (by left) || (unfold memory_fuel; rewrite !length_app; lia)).
    cbn [mbind outcome_bind]. rewrite check_true.
    2: { rewrite negb_true_iff, bool_decide_eq_false, length_app. destruct d; [done|simpl; lia]. }
    cbn [mbind outcome_bind]. rewrite app_assoc, read_middle. cbn [mbind outcome_bind]. rewrite H3.
    cbn [astep fst snd]. case_decide; [|done]. destruct d as [|x d]; [done|]. rewrite <- app_assoc. cbn [app]. rewrite read_middle. done.
  - destruct Ht as [Hd Hg]. rewrite <- !app_assoc in *. cbn [app] in *. rewrite !length_app in He. cbn [length] in He.
    rewrite (skip_run_ok isdigit d) by (apply Hd || (by left) || (rewrite length_app; lia) || (unfold memory_fuel; rewrite !length_app; lia)).
    cbn [mbind outcome_bind]. rewrite check_true.
    2: { rewrite negb_true_iff, bool_decide_eq_false, length_app. destruct Hd as [Hn _]. destruct d; [done|simpl; lia]. }
    cbn [mbind outcome_bind]. rewrite app_assoc, read_middle. cbn [mbind outcome_bind]. change (Byte.eqb Byte.x3a Byte.x3a) with true. cbv iota.
    replace (length (pre ++ d) + 1) with (length ((pre ++ d) ++ [Byte.x3a])) by (by rewrite (length_app (pre ++ d))).
    replace ((pre ++ d) ++ Byte.x3a :: g ++ c :: post) with (((pre ++ d) ++ [Byte.x3a]) ++ g ++ c :: post) by (by rewrite <- !app_assoc).
    destruct (number_token d Hd) as [Td Md], (number_token g Hg) as [Tg Mg].
    assert (adfea_index isz (((pre ++ d) ++ [Byte.x3a]) ++ g ++ c :: post) (length pre) (length ((pre ++ d) ++ [Byte.x3a])) = Ok (adfea_ix d g)) as ->.
    { unfold adfea_index, adfea_ix. rewrite drop_app_length. rewrite <- !app_assoc, drop_app_length. cbn [app].
      rewrite (strtouint_tok d) by done. cbn [mbind outcome_bind]. case_decide; [|done]. by rewrite (strtouint_tok g). }
    cbn [mbind outcome_bind].
    rewrite (skip_run_ok isdigit g) by (apply Hg || (by left) || (rewrite !length_app; simpl; lia) || (unfold memory_fuel; rewrite !length_app; lia)).
    cbn [mbind outcome_bind astep fst snd]. do 3 f_equal. rewrite !length_app. simpl. lia.
Qed.

Lemma adfea_loop_ok its : forall fuel pre b post i (blk : Container F), Forall wf_item its -> length its < fuel ->
  adfea_loop isz fuel (pre ++ atoks_bytes its ++ b :: post) (length pre) (length (pre ++ atoks_bytes its)) i blk =
    Ok (foldl astep (i, blk) (map fst its)).2.
Proof.
  induction its as [|[t s] its IH]; intros fuel pre b post i blk Hw Hf; (destruct fuel as [|fuel]; [simpl in Hf; lia|]); cbn [adfea_loop].
  - unfold atoks_bytes. cbn [map concat]. rewrite app_nil_r, decide_True by done. done.
  - apply Forall_cons in Hw as [(Ht & Hn & Hs) Hw]. cbn [fst snd] in *. unfold atoks_bytes in *. cbn [map concat fst snd].
    set (more := concat (map (fun it => atok_bytes it.1 ++ it.2) its)) in *.
    assert (0 < length (atok_bytes t)) as Hpos.
    { destruct t as [d|d g]; cbn [atok_bytes wf_atok] in *; [destruct Ht as [H0 _]|destruct Ht as [[H0 _] _]]; destruct d; simpl; (done || lia). }
    rewrite decide_False by (rewrite !length_app; lia). rewrite <- !app_assoc.
    destruct s as [|c s0] eqn:Es; [done|]. rewrite <- Es in *.
    assert (isspace c = true) as Hc by (rewrite Es in Hs; by apply Forall_cons in Hs as [? _]).
    replace (atok_bytes t ++ s ++ more ++ b :: post) with (atok_bytes t ++ c :: s0 ++ more ++ b :: post) by (by rewrite Es).
    rewrite adfea_token_ok; [|done|done|rewrite !length_app; lia]. cbn [mbind outcome_bind].
    replace (pre ++ atok_bytes t ++ c :: s0 ++ more ++ b :: post) with ((pre ++ atok_bytes t) ++ s ++ more ++ b :: post)
      by (rewrite Es, <- !app_assoc; done).
    destruct (atoks_first its b post Hw) as (c' & post' & Em & Hc'). change (atoks_bytes its) with more in Em, Hc'.
    rewrite Em. rewrite (skip_run_ok isspace s).
    + cbn [mbind outcome_bind]. rewrite <- Em.
      specialize (IH fuel ((pre ++ atok_bytes t) ++ s) b post (astep (i, blk) t).1 (astep (i, blk) t).2 Hw ltac:(simpl in Hf; lia)).
      rewrite <- !app_assoc in IH. rewrite <- !app_assoc. rewrite IH. cbn [foldl]. by destruct (astep (i, blk) t).
    + done.
    + destruct Hc' as [|Hm]; [by left|right]. rewrite Hm, app_nil_r. by rewrite !app_assoc.
    + rewrite !length_app. lia.
    + unfold memory_fuel. rewrite !length_app. lia.
Qed.

(** The row of a line. *)
Definition adfea_arow (l : aline) : arow (F := F) :=
  mkArow (if Byte.eqb (default Byte.x00 (head l.(al_label).1)) Byte.x31 then fone else fzero) []
    (map (fun f => adfea_ix f.1.1 f.1.2) l.(al_feats)) [].

Lemma push_feats (fs : list (list byte * list byte * list byte)) : forall i (blk : Container F),
  foldl astep (i, blk) (map fst (map (fun f => (AFeat f.1.1 f.1.2, f.2)) fs)) = (i, push_all (map (fun f => adfea_ix f.1.1 f.1.2) fs) blk).
Proof.
  induction fs as [|f fs IH]; intros i blk; cbn [map foldl fst]; [by rewrite push_all_nil|].
  cbn [astep fst snd]. rewrite IH. change (push_index ?x blk) with (push_all [x] blk). by rewrite push_all_app.
Qed.

Lemma adfea_open x ixs (blk : Container F) rs : open_holds blk rs ->
  open_holds (push_all ixs (adfea_label x blk)) (rs ++ [mkArow (if Byte.eqb x Byte.x31 then fone else fzero) [] ixs []]).
Proof.
  intros Ho. set (lb := if Byte.eqb x Byte.x31 then fone else fzero). set (r := mkArow lb [] ixs []).
  pose proof (h_offset _ _ (open_done _ _ Ho)) as Eo. destruct Ho as [Ho Hl Hw Hi Hv].
  unfold adfea_label. fold lb. split; cbn [push_all push_label offset label weight index value].
  - rewrite length_app. cbn [length]. rewrite Nat.max_r, Nat.add_1_r, psums_take by (rewrite ?length_map, ?length_app; simpl; lia).
    rewrite map_app, take_app_le, firstn_all2 by (rewrite length_map; lia). exact Eo.
  - rewrite map_app, <- Hl. by case_decide.
  - rewrite map_app, concat_app, <- Hw. simpl. rewrite app_nil_r. by case_decide.
  - rewrite map_app, concat_app, <- Hi. simpl. rewrite app_nil_r. by case_decide.
  - rewrite map_app, concat_app, <- Hv. simpl. rewrite app_nil_r. by case_decide.
Qed.

Lemma adfea_rows ls : forall (blk : Container F) rs, open_holds blk rs ->
  exists blk', foldl astep (0, blk) (map fst (concat (map aline_items ls))) = (0, blk') /\ open_holds blk' (rs ++ map adfea_arow ls).
Proof.
  induction ls as [|l ls IH]; intros blk rs Ho; cbn [map concat foldl]; [exists blk; by rewrite app_nil_r|].
  unfold aline_items at 1. rewrite <- app_assoc, map_app, foldl_app. cbn [map foldl fst].
  cbn [astep fst snd]. rewrite (decide_False (P := 0 = 2)), (decide_False (P := 0 + 1 = 2)), (decide_True (P := 0 + 1 + 1 = 2)) by lia.
  rewrite map_app, foldl_app, push_feats.
  destruct (IH (push_all (map (fun f => adfea_ix f.1.1 f.1.2) l.(al_feats)) (adfea_label (default Byte.x00 (head (al_label l).1)) blk))
    (rs ++ [adfea_arow l])) as (blk' & E & Hb); [by apply adfea_open|].
  exists blk'. rewrite <- app_assoc in Hb. by split.
Qed.

End AdfeaLines.

(** A chunk of lines of the Adfea format, with any spaces and ends of lines
    around its tokens and any byte behind it in memory, is parsed without failing:
    the container holds one row per line, with label 1 where the third number
    begins with a 1, and the features of the line; for feature ids of 8 bytes the
    group of a feature is in the high bits. *)
Theorem adfea_chunk_rows {F} `{HF : !Float F} isz chunk lead ls :
  0 < chunk.(bsize) < length chunk.(dptr) -> Forall (fun c => isspace c = true) lead ->
  blob_bytes chunk = lead ++ atoks_bytes (concat (map aline_items ls)) -> Forall wf_item (concat (map aline_items ls)) ->
  exists blk, adfea_chunk (F := F) isz chunk = Ok blk /\ holds blk (map (adfea_arow isz) ls).
Proof.
  intros Hs Hl Hb Hw. unfold adfea_chunk. rewrite check_true by (rewrite negb_true_iff, bool_decide_eq_false; lia). cbn [mbind outcome_bind].
  destruct (lookup_lt_is_Some_2 (dptr chunk) (bsize chunk)) as [b Eb]; [lia|].
  pose proof (take_drop_middle _ _ _ Eb) as Em. fold (blob_bytes chunk) in Em.
  assert (length (blob_bytes chunk) = bsize chunk) as Hlen by (unfold blob_bytes; rewrite length_take; lia).
  set (its := concat (map aline_items ls)) in *. set (post := drop (S (bsize chunk)) (dptr chunk)) in *.
  rewrite Hb in Em, Hlen. rewrite <- Em, <- Hlen, <- app_assoc.
  destruct (atoks_first its b post Hw) as (c & post' & Ec & Hc). rewrite Ec.
  rewrite (skip_run_ok isspace lead [] c post' _ _ Hl).
  - cbn [mbind outcome_bind app]. rewrite <- Ec. rewrite (adfea_loop_ok isz its).
    + cbn [mbind outcome_bind]. destruct (adfea_rows (F := F) isz ls Clear []) as (blk & E & Ho); [by split|].
      fold its in E. rewrite E. cbn [snd]. eexists. split; [done|]. apply (open_done _ _ Ho).
    + done.
    + unfold memory_fuel. rewrite !length_app. assert (length its <= length (atoks_bytes its)); [|lia].
      clear -Hw. induction Hw as [|[t s] its (_ & Hn & _) Hw IH]; [done|]. unfold atoks_bytes in *. cbn [map concat fst snd length] in *.
      rewrite !length_app. destruct s; [done|]. simpl. lia.
  - destruct Hc as [|Hc]; [by left|right]. rewrite Hc, app_nil_r. done.
  - cbn [app]. rewrite length_app. lia.
  - unfold memory_fuel. rewrite length_app. lia.
Qed.

(** ** Examples *)

(** A hash of 64 bits. *)
Definition ex_hash (t : list byte) : Z := (le_combine t mod 2 ^ 64)%Z.

Definition ex_cline (lb : string) : cline :=
  mkCline (str lb) (str "12" :: [] :: repeat (str "-1") 11) (repeat (str "68fd1e64") 24 ++ [[]; str "80e26c9b"]).
Definition ex_cline2 : cline := mkCline (str "0") (repeat [] 13) (repeat (str "0b153874") 25 ++ [[]]).
Definition ex_ctext : list byte :=
  cline_bytes true (ex_cline "1") ++ [Byte.x0d] ++ nl ++ cline_bytes true ex_cline2 ++ nl ++ nl.
Definition ex_chunk : Blob := mkBlob (ex_ctext ++ [Byte.x31; Byte.x09]) (length ex_ctext).

Lemma criteo_chunk_rows_witness :
  exists blk, criteo_chunk (HF := Qfloat) 8 ex_hash true ex_chunk = Ok blk /\
    holds blk (map (criteo_arow (HF := Qfloat) 8 ex_hash true) [ex_cline "1"; ex_cline2]).
Proof.
  apply (criteo_chunk_rows (HF := Qfloat) 8 ex_hash true ex_chunk Byte.x31 [ex_cline "1"; ex_cline2]).
  - vm_compute. lia.
  - exists (cline_bytes true (ex_cline "1") ++ [Byte.x0d] ++ nl ++ cline_bytes true ex_cline2 ++ nl), Byte.x0a. split; vm_compute; reflexivity.
  - vm_compute. reflexivity.
  - reflexivity.
  - intros t. unfold ex_hash. apply Z.mod_pos_bound. lia.
  - assert (lines (blob_bytes ex_chunk) = [cline_bytes true (ex_cline "1"); cline_bytes true ex_cline2]) as -> by (vm_compute; reflexivity).
    apply Forall2_cons. split; [split; [reflexivity|]|apply Forall2_cons; split; [split; [reflexivity|]|done]].
    all: split; [intros _; split; [done|repeat constructor]|split; [reflexivity|repeat constructor; discriminate]|split; [reflexivity|]].
    all: cbn [cl_cats ex_cline ex_cline2 repeat app]; repeat (apply Forall_cons_2; [first [by left|right; split; [reflexivity|repeat constructor]]|]); constructor.
Defined.

(** A last line without an end of line ends the process: the check of the last
    category looks at the byte behind the chunk. *)
Example criteo_last_line :
  criteo_chunk (HF := Qfloat) 8 ex_hash true
    (mkBlob (cline_bytes true (ex_cline "1") ++ [Byte.x00]) (length (cline_bytes true (ex_cline "1")))) = Fail CheckFailed.
Proof. vm_compute. reflexivity. Qed.

(** When a chunk ends with two characters of end of line and the memory behind it
    still holds one, from a longer chunk, the parser walks past the end and goes on
    parsing what is there: here it finds a row that is not in the chunk and then
    leaves the memory. *)
Example criteo_overrun :
  let text := cline_bytes true (ex_cline "1") ++ [Byte.x0d] ++ nl in
  let stale := nl ++ cline_bytes true ex_cline2 ++ nl in
  criteo_chunk (HF := Qfloat) 8 ex_hash true (mkBlob (text ++ stale) (length text)) = Fail OutOfRange /\
  exists blk, criteo_chunk (HF := Qfloat) 8 ex_hash true (mkBlob (text ++ [Byte.x00]) (length text)) = Ok blk /\ Size blk = 1.
Proof. split; [vm_compute; reflexivity|]. eexists. split; [vm_compute; reflexivity|reflexivity]. Qed.

Definition ex_alines : list aline :=
  [mkAline (str "17", str " ") (str "3", str " ") (str "1", str " ") [(str "2049", str "5", str " "); (str "4096", str "1", nl)];
   mkAline (str "18", str " ") (str "1", str " ") (str "0", nl) []].
Definition ex_achunk : Blob :=
  mkBlob (str "  " ++ atoks_bytes (concat (map aline_items ex_alines)) ++ [Byte.x37]) (2 + length (atoks_bytes (concat (map aline_items ex_alines)))).

Lemma adfea_chunk_rows_witness :
  exists blk, adfea_chunk (HF := Qfloat) 8 ex_achunk = Ok blk /\ holds blk
    [mkArow (QArith_base.inject_Z 1) [] [2 + 5 * 2 ^ 54; 4 + 2 ^ 54]%Z []; mkArow (QArith_base.inject_Z 0) [] [] []].
Proof.
  destruct (adfea_chunk_rows (HF := Qfloat) 8 ex_achunk (str "  ") ex_alines) as (blk & E & Hh).
  - vm_compute. lia.
  - repeat constructor.
  - vm_compute. reflexivity.
  - repeat constructor; discriminate.
  - exists blk. split; [exact E|]. vm_compute in Hh |- *. exact Hh.
Defined.
