(* ===== verification/ThreadedIter.v ===== *)
(** * Reading ahead in a thread

    Models [ThreadedIter] of src/dmlc-core/include/dmlc/threadediter.h, which the
    parsers and the splitter read ahead with: a producer thread fills cells and
    puts them in a queue, a consumer takes them and gives them back.  The two
    threads share the members of the class under a mutex and wait on two condition
    variables.  A section under the lock is one step; what is done without it, the
    call of [next] with the store of [produce_end_] and the notifications behind
    an unlock, are steps of their own. *)
From S2P Require Import Prelude.
From stdpp Require Import relations.

(** [enum Signal] *)
Inductive Signal := kProduce | kBeforeFirst | kDestroy.
#[export] Instance Signal_dec : EqDecision Signal.
Proof. solve_decision. Defined.

(** The closures [next] and [beforefirst]: on the state of the producer and what
    the cell holds, whether there was an item, what the cell holds then and the
    new state.  [fresh] is what a new cell holds. *)
Class Producer (P D : Type) := {
  next : P -> D -> outcome (bool * D * P);
  beforefirst : P -> outcome P;
  fresh : P -> D
}.

(** [own] says whether the owner of the iterator holds the cell it was given in a
    pointer of its own, [Next(&tmp_)], or in the member [out_data_], [Next()]; the
    iterator gives back or deletes the cell of its member only. *)
Section Iter.
Context {P D : Type} `{!Producer P D} (max_capacity_ : nat) (own : bool).

(** Where the producer thread is: before it locks, in [producer_cond_.wait],
    notified or not, before [next] with its [cell], before the second lock with
    the cell, before the notification behind it, before the one behind
    [kBeforeFirst], at its end. *)
Inductive ppc := PLock | PSleep (awake : bool) | PNext (cell : option nat) | PPush (cell : nat) | PNotify (notify : bool)
  | PNotifyBF | PDone.

(** Where the consumer is: not in a call, in the [wait] of [Next] or of
    [BeforeFirst], before the notification at the end of a call, joining the
    thread, behind [Destroy]. *)
Inductive cpc := CIdle | CNextSleep (awake : bool) | CBFSleep (awake : bool) | CNotify (notify : bool) | CJoin | CGone.

(** The members of the class; a cell is a position in [heap], and [out_data_] the
    cell that the owner holds, here or in its own pointer.  [log] is what the calls
    of [Next] returned since the producer was last reset, [given] the last item
    that they returned. *)
Record state := mkIter {
  heap : list D; src : P; producer_sig_ : Signal; producer_sig_processed_ : bool; produce_end_ : bool;
  queue_ : list nat; free_cells_ : list nat; nwait_consumer_ : nat; nwait_producer_ : nat; out_data_ : option nat;
  at_p : ppc; at_c : cpc; log : list (option D); given : option D }.

(** [Init(next, beforefirst)] *)
Definition init (p : P) : state := mkIter [] p kProduce false false [] [] 0 0 None PLock CIdle [] None.

(** *** Members that change *)
Definition set_p (pc : ppc) (s : state) : state :=
  mkIter s.(heap) s.(src) s.(producer_sig_) s.(producer_sig_processed_) s.(produce_end_) s.(queue_) s.(free_cells_)
    s.(nwait_consumer_) s.(nwait_producer_) s.(out_data_) pc s.(at_c) s.(log) s.(given).
Definition set_c (pc : cpc) (s : state) : state :=
  mkIter s.(heap) s.(src) s.(producer_sig_) s.(producer_sig_processed_) s.(produce_end_) s.(queue_) s.(free_cells_)
    s.(nwait_consumer_) s.(nwait_producer_) s.(out_data_) s.(at_p) pc s.(log) s.(given).
Definition set_cells (q f : list nat) (o : option nat) (s : state) : state :=
  mkIter s.(heap) s.(src) s.(producer_sig_) s.(producer_sig_processed_) s.(produce_end_) q f
    s.(nwait_consumer_) s.(nwait_producer_) o s.(at_p) s.(at_c) s.(log) s.(given).
Definition set_waiters (nc np : nat) (s : state) : state :=
  mkIter s.(heap) s.(src) s.(producer_sig_) s.(producer_sig_processed_) s.(produce_end_) s.(queue_) s.(free_cells_)
    nc np s.(out_data_) s.(at_p) s.(at_c) s.(log) s.(given).
Definition set_sig (sig : Signal) (processed : bool) (s : state) : state :=
  mkIter s.(heap) s.(src) sig processed s.(produce_end_) s.(queue_) s.(free_cells_)
    s.(nwait_consumer_) s.(nwait_producer_) s.(out_data_) s.(at_p) s.(at_c) s.(log) s.(given).
Definition set_end (e : bool) (s : state) : state :=
  mkIter s.(heap) s.(src) s.(producer_sig_) s.(producer_sig_processed_) e s.(queue_) s.(free_cells_)
    s.(nwait_consumer_) s.(nwait_producer_) s.(out_data_) s.(at_p) s.(at_c) s.(log) s.(given).
Definition set_src (h : list D) (p : P) (s : state) : state :=
  mkIter h p s.(producer_sig_) s.(producer_sig_processed_) s.(produce_end_) s.(queue_) s.(free_cells_)
    s.(nwait_consumer_) s.(nwait_producer_) s.(out_data_) s.(at_p) s.(at_c) s.(log) s.(given).
Definition set_log (l : list (option D)) (g : option D) (s : state) : state :=
  mkIter s.(heap) s.(src) s.(producer_sig_) s.(producer_sig_processed_) s.(produce_end_) s.(queue_) s.(free_cells_)
    s.(nwait_consumer_) s.(nwait_producer_) s.(out_data_) s.(at_p) s.(at_c) l g.

(** *** Notifications: they reach who is waiting *)
Definition wake_p (s : state) : state := match s.(at_p) with PSleep _ => set_p (PSleep true) s | _ => s end.
Definition wake_c (s : state) : state :=
  match s.(at_c) with
  | CNextSleep _ => set_c (CNextSleep true) s
  | CBFSleep _ => set_c (CBFSleep true) s
  | _ => s
  end.

(** *** The producer thread *)

(** The predicate of its [wait]. *)
Definition producer_ready (s : state) : bool :=
  if decide (s.(producer_sig_) = kProduce)
  then negb s.(produce_end_) && (bool_decide (length s.(queue_) < max_capacity_) || bool_decide (length s.(free_cells_) <> 0))
  else true.

(** The rest of the first section under the lock, once the [wait] is over. *)
Definition producer_act (s : state) : outcome state :=
  let s := set_waiters s.(nwait_consumer_) (s.(nwait_producer_) - 1) s in
  match s.(producer_sig_) with
  | kProduce =>
      match s.(free_cells_) with
      | [] => Ok (set_p (PNext None) s)
      | c :: f => Ok (set_p (PNext (Some c)) (set_cells s.(queue_) f s.(out_data_) s))
      end
  | kBeforeFirst =>
      p ← beforefirst s.(src);
      let s := set_src s.(heap) p s in
      let s := set_cells [] (s.(free_cells_) ++ s.(queue_)) s.(out_data_) s in
      Ok (set_p PNotifyBF (set_sig kProduce true (set_log [] s.(given) (set_end false s))))
  | kDestroy => Ok (set_p PDone (wake_c (set_sig kDestroy true (set_end true s))))
  end.

(** The [wait] and what is behind it. *)
Definition producer_wait (s : state) : outcome state := if producer_ready s then producer_act s else Ok (set_p (PSleep false) s).

(** [next(&cell)] and the store of [produce_end_]; both closures make a new cell
    when there is none. *)
Definition producer_next (cell : option nat) (s : state) : outcome state :=
  let '(c, h) := match cell with Some c => (c, s.(heap)) | None => (length s.(heap), s.(heap) ++ [fresh s.(src)]) end in
  old ← read_at h c;
  '(more, d, p) ← next s.(src) old;
  h ← write_at h c d;
  Ok (set_p (PPush c) (set_end (negb more) (set_src h p s))).

(** The second section under the lock. *)
Definition producer_push (c : nat) (s : state) : state :=
  let s := if s.(produce_end_) then set_cells s.(queue_) (s.(free_cells_) ++ [c]) s.(out_data_) s
           else set_cells (s.(queue_) ++ [c]) s.(free_cells_) s.(out_data_) s in
  set_p (PNotify (bool_decide (s.(nwait_consumer_) <> 0))) s.

(** A step of the producer; [None] when it waits or has returned. *)
Definition producer_step (s : state) : outcome (option state) :=
  match s.(at_p) with
  | PLock =>
      s ← producer_wait (set_waiters s.(nwait_consumer_) (s.(nwait_producer_) + 1) s);
      Ok (Some s)
  | PSleep true => s ← producer_wait s; Ok (Some s)
  | PSleep false => Ok None
  | PNext cell => s ← producer_next cell s; Ok (Some s)
  | PPush c => Ok (Some (producer_push c s))
  | PNotify b => Ok (Some (set_p PLock (if b then wake_c s else s)))
  | PNotifyBF => Ok (Some (set_p PLock (wake_c s)))
  | PDone => Ok None
  end.

(** *** The consumer *)

(** The rest of [Next(out_dptr)], once the [wait] is over. *)
Definition next_act (s : state) : outcome state :=
  let s := set_waiters (s.(nwait_consumer_) - 1) s.(nwait_producer_) s in
  match s.(queue_) with
  | c :: q =>
      d ← read_at s.(heap) c;
      let notify := bool_decide (s.(nwait_producer_) <> 0) && negb s.(produce_end_) in
      Ok (set_c (CNotify notify) (set_log (s.(log) ++ [Some d]) (Some d) (set_cells q s.(free_cells_) (Some c) s)))
  | [] =>
      _ ← check s.(produce_end_);
      Ok (set_c CIdle (set_log (s.(log) ++ [None]) s.(given) s))
  end.

Definition next_ready (s : state) : bool := bool_decide (length s.(queue_) <> 0) || s.(produce_end_).

(** The calls: [Next(&out_data_)], [Recycle(&out_data_)], [BeforeFirst()],
    [Destroy()]. *)
Inductive call := Next | Recycle | BeforeFirst | Destroy.

(** [Next(&out_data_)] up to its [wait]; [None] when the owner still holds a cell. *)
Definition start_next (s : state) : outcome (option state) :=
  match s.(out_data_) with
  | Some _ => Ok None
  | None =>
      if decide (s.(producer_sig_) = kDestroy) then Ok (Some s) else
      _ ← check (bool_decide (s.(producer_sig_) = kProduce));
      let s := set_waiters (s.(nwait_consumer_) + 1) s.(nwait_producer_) s in
      if next_ready s then s ← next_act s; Ok (Some s) else Ok (Some (set_c (CNextSleep false) s))
  end.

(** [Recycle(&out_data_)]; [None] when the owner holds no cell. *)
Definition start_recycle (s : state) : outcome (option state) :=
  match s.(out_data_) with
  | None => Ok None
  | Some c =>
      let notify := bool_decide (s.(nwait_producer_) <> 0) && negb s.(produce_end_) in
      Ok (Some (set_c (CNotify notify) (set_cells s.(queue_) (s.(free_cells_) ++ [c]) None s)))
  end.

(** [BeforeFirst()] up to its [wait], whose condition does not hold yet. *)
Definition start_before_first (s : state) : outcome (option state) :=
  let s := match (if own then None else s.(out_data_)) with
           | Some c => set_cells s.(queue_) (s.(free_cells_) ++ [c]) None s
           | None => s
           end in
  if decide (s.(producer_sig_) = kDestroy) then Ok (Some s) else
  let s := set_sig kBeforeFirst s.(producer_sig_processed_) s in
  _ ← check (negb s.(producer_sig_processed_));
  let s := if decide (s.(nwait_producer_) <> 0) then wake_p s else s in
  Ok (Some (set_c (CBFSleep false) s)).

(** [Destroy()] up to the [join]. *)
Definition start_destroy (s : state) : outcome (option state) :=
  let s := set_sig kDestroy s.(producer_sig_processed_) s in
  Ok (Some (set_c CJoin (if decide (s.(nwait_producer_) <> 0) then wake_p s else s))).

(** The first section of a call; [None] for a call that the owner of the iterator
    does not make in this state. *)
Definition start_call (c : call) (s : state) : outcome (option state) :=
  match s.(at_c) with
  | CIdle =>
      match c with
      | Next => start_next s
      | Recycle => start_recycle s
      | BeforeFirst => start_before_first s
      | Destroy => start_destroy s
      end
  | _ => Ok None
  end.

(** The end of [BeforeFirst()], once the request has been processed. *)
Definition before_first_act (s : state) : state :=
  let notify := bool_decide (s.(nwait_producer_) <> 0) && negb s.(produce_end_) in
  set_c (CNotify notify) (set_sig s.(producer_sig_) false s).

(** The end of [Destroy()], once the thread has returned: the cells are deleted. *)
Definition destroy_act (s : state) : state := set_c CGone (set_cells [] [] (if own then s.(out_data_) else None) s).

(** A step inside a call; [None] when it waits. *)
Definition consumer_step (s : state) : outcome (option state) :=
  match s.(at_c) with
  | CIdle | CGone => Ok None
  | CNextSleep true => if next_ready s then s ← next_act s; Ok (Some s) else Ok (Some (set_c (CNextSleep false) s))
  | CBFSleep true =>
      if s.(producer_sig_processed_) then Ok (Some (before_first_act s)) else Ok (Some (set_c (CBFSleep false) s))
  | CNextSleep false | CBFSleep false => Ok None
  | CNotify b => Ok (Some (set_c CIdle (if b then wake_p s else s)))
  | CJoin =>
      match s.(at_p) with
      | PDone => Ok (Some (destroy_act s))
      | _ => Ok None
      end
  end.

(** A step of either thread inside what it is doing. *)
Inductive run : state -> state -> Prop :=
| run_producer s s' : producer_step s = Ok (Some s') -> run s s'
| run_consumer s s' : consumer_step s = Ok (Some s') -> run s s'.

(** Any step: also a call, and a thread that wakes up although it was not
    notified. *)
Inductive step : state -> state -> Prop :=
| step_run s s' : run s s' -> step s s'
| step_call c s s' : start_call c s = Ok (Some s') -> step s s'
| step_spurious_p s : step s (wake_p s)
| step_spurious_c s : step s (wake_c s).

(** States that an execution from [init] reaches. *)
Definition reachable (p : P) (s : state) : Prop := rtc step (init p) s.

(** A [CHECK] that fails, or memory out of range. *)
Definition fails (s : state) : Prop :=
  (exists e, producer_step s = Fail e) \/ (exists e, consumer_step s = Fail e) \/ (exists c e, start_call c s = Fail e).

(** ** Control *)

(** Who waits for what, and that a waiting thread whose condition holds is about
    to be notified. *)
Record control (s : state) : Prop := {
  ct_np : s.(nwait_producer_) = match s.(at_p) with PSleep _ => 1 | _ => 0 end;
  ct_nc : s.(nwait_consumer_) = match s.(at_c) with CNextSleep _ => 1 | _ => 0 end;
  ct_c : match s.(at_c) with
         | CIdle | CNotify _ => s.(producer_sig_) = kProduce /\ s.(producer_sig_processed_) = false
         | CNextSleep _ => s.(producer_sig_) = kProduce /\ s.(producer_sig_processed_) = false /\ s.(out_data_) = None
         | CBFSleep a =>
             (s.(producer_sig_) = kBeforeFirst /\ s.(producer_sig_processed_) = false \/
              s.(producer_sig_) = kProduce /\ s.(producer_sig_processed_) = true /\ (a = false -> s.(at_p) = PNotifyBF))
         | CJoin => s.(producer_sig_) = kDestroy
         | CGone => s.(producer_sig_) = kDestroy /\ s.(at_p) = PDone
         end;
  ct_p : match s.(at_p) with
         | PDone => s.(producer_sig_) = kDestroy
         | PNext _ => s.(produce_end_) = false
         | PSleep false => producer_ready s = true -> s.(at_c) = CNotify true
         | _ => True
         end;
  ct_w : s.(at_c) = CNextSleep false -> next_ready s = true -> s.(at_p) = PNotify true \/ exists c, s.(at_p) = PPush c
}.

Ltac open_state s :=
  destruct s as [h p sig pr pend q f nc np out ap ac lg gv];
  cbn [heap src producer_sig_ producer_sig_processed_ produce_end_ queue_ free_cells_ nwait_consumer_ nwait_producer_ out_data_ at_p at_c log given] in *.
Ltac set_cbn :=
  cbn [set_p set_c set_cells set_waiters set_sig set_end set_src set_log heap src producer_sig_ producer_sig_processed_ produce_end_
       queue_ free_cells_ nwait_consumer_ nwait_producer_ out_data_ at_p at_c log given] in *.

(** The case of a [BeforeFirst] whose request is open or processed; the rest is
    what the producer does next. *)
Ltac bf_case H := destruct H as [|(? & ? & H)]; [by left|]; right; split_and!; try done.

Lemma control_init p : control (init p).
Proof. split; simpl; done. Qed.

Lemma control_wake_p s : control s -> control (wake_p s).
Proof.
  intros [H1 H2 H3 H4 H5]. unfold wake_p. open_state s. destruct ap; try by split. split; set_cbn; try done.
  - destruct ac; try done; [|by destruct H3]. bf_case H3.
    intros E. by apply H3 in E.
  - intros E1 E2. destruct (H5 E1 E2) as [|[]]; done.
Qed.

Lemma control_wake_c s : control s -> control (wake_c s).
Proof.
  intros [H1 H2 H3 H4 H5]. unfold wake_c. open_state s.
  destruct ac as [|a|a|b| |]; try by split.
  - split; set_cbn; try done. destruct ap as [|[]| | | | |]; try done. intros E. by apply H4 in E.
  - split; set_cbn; try done.
    + destruct H3 as [|(? & ? & H3)]; [by left|]. by right.
    + destruct ap as [|[]| | | | |]; try done. intros E. by apply H4 in E.
Qed.

(** The producer at its [wait], which has counted itself. *)
Definition at_wait (s : state) : Prop :=
  (s.(at_p) = PLock \/ s.(at_p) = PSleep true) /\ s.(nwait_producer_) = 1 /\
  control (set_waiters s.(nwait_consumer_) (match s.(at_p) with PLock => 0 | _ => 1 end) s).

Lemma at_wait_c s : at_wait s ->
  match s.(at_c) with
  | CIdle | CNotify _ => s.(producer_sig_) = kProduce /\ s.(producer_sig_processed_) = false
  | CNextSleep _ => s.(producer_sig_) = kProduce /\ s.(producer_sig_processed_) = false /\ s.(out_data_) = None
  | CBFSleep a =>
      (s.(producer_sig_) = kBeforeFirst /\ s.(producer_sig_processed_) = false \/
       s.(producer_sig_) = kProduce /\ s.(producer_sig_processed_) = true /\ a = true)
  | CJoin => s.(producer_sig_) = kDestroy
  | CGone => False
  end /\ (s.(at_c) = CNextSleep false -> next_ready s = false) /\
  s.(nwait_consumer_) = match s.(at_c) with CNextSleep _ => 1 | _ => 0 end.
Proof.
  intros (Hp & _ & [_ H2 H3 _ H5]). open_state s. set_cbn. split_and!; [| |done].
  - destruct ac as [|a|a|b| |]; try done.
    + bf_case H3.
      destruct a; [done|]. specialize (H3 eq_refl). destruct Hp; congruence.
    + destruct H3 as [_ H3]. destruct Hp; congruence.
  - intros E. specialize (H5 E). unfold next_ready in *. set_cbn. destruct (_ || _); [|done].
    destruct (H5 eq_refl) as [|[]]; destruct Hp; congruence.
Qed.

Lemma control_act s s' : at_wait s -> producer_ready s = true -> producer_act s = Ok s' -> control s'.
Proof.
  intros Hw Hr E. destruct (at_wait_c s Hw) as (Hc & Hn & Hnc). destruct Hw as (Hp & Hnp & _).
  unfold producer_act, producer_ready in *. open_state s. set_cbn. subst np. destruct sig.
  - destruct (decide (kProduce = kProduce)) as [_|]; [|done]. apply andb_true_iff in Hr as [Hr _]. apply negb_true_iff in Hr.
    assert (forall f' cell, control (mkIter h p kProduce pr pend q f' nc 0 out (PNext cell) ac lg gv)) as Hall.
    { intros f' cell. split; set_cbn; try done.
      - destruct ac as [|a|a|b| |]; try done. destruct Hc as [[? _]|(? & ? & ->)]; [done|by right].
      - intros E1 E2. specialize (Hn E1). unfold next_ready in *. set_cbn. congruence. }
    destruct f as [|c f]; injection E as <-; apply Hall.
  - destruct (beforefirst p) as [p'|]; [|done]. cbn [mbind outcome_bind] in E. injection E as <-.
    destruct ac as [|a|a|b| |]; try discriminate; try (by destruct Hc). destruct Hc as [[? ?]|[? _]]; [|done].
    split; set_cbn; try done. right. done.
  - injection E as <-. unfold wake_c. set_cbn. destruct ac as [|a|a|b| |]; try discriminate; try (by destruct Hc).
    destruct Hc as [[? _]|[? _]]; done.
Qed.

Lemma control_sleep s : at_wait s -> producer_ready s = false -> control (set_p (PSleep false) s).
Proof.
  intros Hw Hr. destruct (at_wait_c s Hw) as (Hc & Hn & Hnc). destruct Hw as (Hp & Hnp & _). unfold producer_ready in Hr. open_state s. set_cbn.
  split; set_cbn; try done.
  - destruct ac as [|a|a|b| |]; try done. destruct Hc as [|(? & ? & ?)]; [by left|]. right. by subst.
  - unfold producer_ready. set_cbn. rewrite Hr. done.
  - intros E1 E2. specialize (Hn E1). unfold next_ready in *. set_cbn. congruence.
Qed.

Lemma control_wait s s' : at_wait s -> producer_wait s = Ok s' -> control s'.
Proof.
  intros Hw. unfold producer_wait. destruct (producer_ready s) eqn:Er; [by apply control_act|]. intros [= <-]. by apply control_sleep.
Qed.

Lemma control_producer s s' : control s -> producer_step s = Ok (Some s') -> control s'.
Proof.
  intros Hs E. unfold producer_step, producer_push in E. destruct (at_p s) as [|[]|cell|c|b| |] eqn:Ep; try discriminate.
  - destruct (producer_wait _) as [s1|] eqn:Ew; [|done]. injection E as <-. eapply control_wait; [|exact Ew].
    destruct Hs as [H1 H2 H3 H4 H5]. open_state s. set_cbn. subst ap. split; [by left|]. split; [set_cbn; lia|]. set_cbn. by split.
  - destruct (producer_wait s) as [s1|] eqn:Ew; [|done]. injection E as <-. eapply control_wait; [|exact Ew].
    destruct Hs as [H1 H2 H3 H4 H5]. open_state s. subst ap. split; [by right|]. split; [done|]. set_cbn. by split.
  - unfold producer_next in E. destruct Hs as [H1 H2 H3 H4 H5]. open_state s. subst ap.
    destruct (match cell with Some c => (c, h) | None => (length h, h ++ [fresh p]) end) as [c h'].
    destruct (read_at h' c) as [old|]; [|done]. cbn [mbind outcome_bind] in E. destruct (next p old) as [[[more d] p']|]; [|done]. cbn [mbind outcome_bind] in E.
    destruct (write_at h' c d) as [h2|]; [|done]. cbn [mbind outcome_bind] in E. injection E as <-. set_cbn.
    split; set_cbn; try done.
    + destruct ac as [|a|a|b| |]; try done; [bf_case H3|by destruct H3].
      intros ->. by specialize (H3 eq_refl).
    + intros. right. eauto.
  - injection E as <-. destruct Hs as [H1 H2 H3 H4 H5]. open_state s. subst ap.
    assert (forall q' f', control (mkIter h p sig pr pend q' f' nc np out (PNotify (bool_decide (nc <> 0))) ac lg gv)) as Hall.
    { intros q' f'. split; set_cbn; try done.
      - destruct ac as [|a|a|b| |]; try done; [bf_case H3|by destruct H3].
        intros ->. by specialize (H3 eq_refl).
      - intros -> _. left. by subst nc. }
    destruct pend; set_cbn; apply Hall.
  - injection E as <-. destruct b.
    + assert (control (wake_c s)) as Hw by by apply control_wake_c.
      assert (at_p (wake_c s) = PNotify true) as Ep' by (unfold wake_c; destruct (at_c s); done).
      assert (at_c (wake_c s) <> CNextSleep false) as Hns by (unfold wake_c; destruct (at_c s) eqn:Ec; set_cbn; try rewrite Ec; done).
      destruct Hw as [H1 H2 H3 H4 H5]. revert H1 H2 H3 Hns. rewrite Ep'. intros H1 H2 H3 Hns. split; set_cbn; try done.
      destruct (at_c (wake_c s)); try done; [bf_case H3|by destruct H3].
      intros E. by specialize (H3 E).
    + destruct Hs as [H1 H2 H3 H4 H5]. open_state s. subst ap. split; set_cbn; try done.
      * destruct ac as [|a|a|b| |]; try done; [bf_case H3|by destruct H3].
        intros ->. by specialize (H3 eq_refl).
      * intros E1 E2. destruct (H5 E1 E2) as [|[]]; done.
  - injection E as <-. assert (control (wake_c s)) as Hw by by apply control_wake_c.
    assert (at_p (wake_c s) = PNotifyBF) as Ep' by (unfold wake_c; destruct (at_c s); done).
    assert (at_c (wake_c s) <> CNextSleep false /\ at_c (wake_c s) <> CBFSleep false) as [Hns1 Hns2]
      by (unfold wake_c; destruct (at_c s) eqn:Ec; set_cbn; try rewrite Ec; done).
    destruct Hw as [H1 H2 H3 H4 H5]. rewrite Ep' in *. split; set_cbn; try done.
    destruct (at_c (wake_c s)) as [|a|a|b| |]; try done; [bf_case H3|by destruct H3].
    intros ->. done.
Qed.

(** What the consumer does under the lock does not leave a sleeping producer with
    nobody to notify it. *)
Lemma next_act_control s s' : control (set_waiters (match s.(at_c) with CNextSleep _ => 1 | _ => 0 end) s.(nwait_producer_) s) ->
  s.(nwait_consumer_) = 1 -> (s.(at_c) = CIdle /\ s.(out_data_) = None \/ s.(at_c) = CNextSleep true) -> next_act s = Ok s' -> control s'.
Proof.
  intros [H1 H2 H3 H4 H5] Hnc Hc E. unfold next_act in E. open_state s. set_cbn. subst nc.
  assert (sig = kProduce /\ pr = false) as [-> ->] by (destruct Hc as [[-> _]| ->]; naive_solver).
  destruct q as [|c q].
  - destruct pend; [|done]. cbn [check mbind outcome_bind] in E. injection E as <-. split; set_cbn; try done.
    destruct ap as [|[]| | | | |]; try done.
  - destruct (read_at h c) as [d|]; [|done]. cbn [mbind outcome_bind] in E. injection E as <-. split; set_cbn; try done.
    destruct ap as [|[]| | | | |]; try done. unfold producer_ready. set_cbn. intros E. destruct (decide _) as [_|]; [|done].
    apply andb_true_iff in E as [E _]. rewrite H1, E. done.
Qed.

Lemma control_consumer s s' : control s -> consumer_step s = Ok (Some s') -> control s'.
Proof.
  intros Hs E. pose proof Hs as [H1 H2 H3 H4 H5]. unfold consumer_step, before_first_act, destroy_act in E. destruct (at_c s) as [|[]|[]|b| |] eqn:Ec; try discriminate.
  - destruct (next_ready s) eqn:Er.
    + destruct (next_act s) as [s1|] eqn:Ea; [|done]. injection E as <-. eapply next_act_control; [|exact H2|by right|exact Ea].
      rewrite Ec. rewrite <- H2. by destruct s.
    + injection E as <-. unfold next_ready in Er. open_state s. subst ac. split; set_cbn; try done.
      * destruct ap as [|[]| | | | |]; try done. intros E. by apply H4 in E.
      * unfold next_ready. set_cbn. rewrite Er. done.
  - open_state s. subst ac. destruct pr.
    + injection E as <-. destruct H3 as [[_ H3]|(-> & _)]; [done|]. split; set_cbn; try done.
      destruct ap as [|[]| | | | |]; try done. unfold producer_ready in *. set_cbn. intros E. destruct (decide _) as [_|]; [|done].
      apply andb_true_iff in E as [E _]. rewrite H1, E. done.
    + injection E as <-. destruct H3 as [[-> _]|(_ & ? & _)]; [|done]. split; set_cbn; try done.
      * by left.
      * destruct ap as [|[]| | | | |]; try done. intros E. by apply H4 in E.
  - injection E as <-. destruct b.
    + assert (control (wake_p s)) as Hw by by apply control_wake_p.
      assert (at_c (wake_p s) = CNotify true) as Ec' by (unfold wake_p; by destruct (at_p s)).
      assert (at_p (wake_p s) <> PSleep false) as Hns by (unfold wake_p; destruct (at_p s) eqn:Ep; set_cbn; try rewrite Ep; done).
      destruct Hw as [G1 G2 G3 G4 G5]. rewrite Ec' in *. split; set_cbn; try done. by destruct (at_p (wake_p s)) as [|[]| | | | |].
    + open_state s. subst ac. split; set_cbn; try done. destruct ap as [|[]| | | | |]; try done. intros E. by apply H4 in E.
  - destruct (at_p s) eqn:Ep; try discriminate. injection E as <-. open_state s. subst ac ap. split; set_cbn; done.
Qed.

Lemma control_call c s s' : control s -> start_call c s = Ok (Some s') -> control s'.
Proof.
  intros Hs E. pose proof Hs as [H1 H2 H3 H4 H5]. unfold start_call, start_next, start_recycle, start_before_first, start_destroy in E. destruct (at_c s) as [|[]|[]|b| |] eqn:Ec; try discriminate.
  destruct H3 as [Hsig Hpr]. destruct c.
  - destruct (out_data_ s) eqn:Eo; [done|]. rewrite Hsig in E. rewrite decide_False in E by done. cbn [check bool_decide decide mbind outcome_bind] in E.
    rewrite bool_decide_eq_true_2 in E by done. cbn [check mbind outcome_bind] in E.
    set (s0 := set_waiters (nwait_consumer_ s + 1) (nwait_producer_ s) s) in *.
    destruct (next_ready s0) eqn:Er.
    + destruct (next_act s0) as [s1|] eqn:Ea; [|done]. injection E as <-. apply (next_act_control s0); [| | |exact Ea].
      * unfold s0. open_state s. subst ac. set_cbn. by split.
      * unfold s0. open_state s. set_cbn. lia.
      * left. unfold s0. by open_state s.
    + injection E as <-. unfold s0, next_ready in *. open_state s. set_cbn. subst. split; set_cbn; try done.
      * destruct ap as [|[]| | | | |]; try done. intros E. by apply H4 in E.
      * unfold next_ready. set_cbn. rewrite Er. done.
  - open_state s. subst ac sig pr. destruct out as [c|]; [|done]. injection E as <-. split; set_cbn; try done.
    destruct ap as [|[]| | | | |]; try done. unfold producer_ready. set_cbn. intros E. destruct (decide _) as [_|]; [|done].
    apply andb_true_iff in E as [E _]. rewrite H1, E. done.
  - open_state s. subst ac sig pr nc.
    assert (forall f' o', control (set_c (CBFSleep false) (let s1 := mkIter h p kBeforeFirst false pend q f' 0 np o' ap CIdle lg gv in
      if decide (np <> 0) then wake_p s1 else s1))) as Hall.
    { intros f' o'. unfold wake_p. set_cbn. destruct ap as [|a| | | | |]; subst np; (destruct (decide _); [|try done]); set_cbn; try done;
        split; set_cbn; try done; by left. }
    destruct (if own then None else out) as [c|]; set_cbn; rewrite decide_False in E by done; injection E as <-; apply Hall.
  - injection E as <-. open_state s. subst ac sig pr. unfold wake_p. set_cbn.
    destruct ap as [|a| | | | |]; subst np; (destruct (decide _); try lia); set_cbn; split; set_cbn; try done.
Qed.

(** ** Cells and their contents *)

(** A producer with a sequence of units: an item holds some of them, [items] are
    those that are left, [everything] those that there are behind [beforefirst].
    Where the items end may depend on what the cells held before. *)
Class ProducerLaws (U : Type) := {
  content : D -> list U;
  items : P -> list U;
  everything : list U;
  p_ok : P -> Prop;
  d_ok : D -> Prop;
  fresh_ok p : p_ok p -> d_ok (fresh p);
  next_ok p old : p_ok p -> d_ok old -> exists more d p', next p old = Ok (more, d, p') /\ p_ok p' /\ d_ok d /\
    if more then content d <> [] /\ items p = content d ++ items p' else items p = [] /\ items p' = [];
  reset_ok p : p_ok p -> exists p', beforefirst p = Ok p' /\ p_ok p' /\ items p' = everything
}.
Context {U : Type} {LP : ProducerLaws U}.

Definition units (l : list D) : list U := concat (map content l).
Lemma units_app l1 l2 : units (l1 ++ l2) = units l1 ++ units l2.
Proof. unfold units. by rewrite map_app, concat_app. Qed.
Lemma units_one d : units [d] = content d.
Proof. unfold units. simpl. apply app_nil_r. Qed.

Definition cell_of (ap : ppc) : list nat := match ap with PNext (Some c) | PPush c => [c] | _ => [] end.
Definition cells (q f : list nat) (out : option nat) (ap : ppc) : list nat := q ++ f ++ option_list out ++ cell_of ap.
Definition held (h : list D) (q : list nat) : list D := omap (fun c => h !! c) q.

(** Every cell has one owner: the queue, the free list, the consumer or the
    producer; and there are not many cells. *)
Definition owned (h : list D) (q f : list nat) (out : option nat) (ap : ppc) : Prop :=
  cells q f out ap ≡ₚ seq 0 (length h) /\ length h <= max_capacity_ + 1 /\ (ap = PNext None -> length h <= max_capacity_).

(** The item that is on its way to the queue. *)
Definition pushed (h : list D) (pend : bool) (ap : ppc) : list D := match ap with PPush c => if pend then [] else held h [c] | _ => [] end.

(** What was returned, what is in the queue, what is on its way there and what is
    left are everything, in order; the consumer's cell holds what it was given. *)
Definition in_order (h : list D) (p : P) (pend : bool) (q : list nat) (out : option nat) (ap : ppc) (lg : list (option D)) (gv : option D) : Prop :=
  exists l k, lg = map Some l ++ replicate k None /\
    (units (l ++ held h q ++ pushed h pend ap) ++ items p = everything /\ Forall (fun d => content d <> []) (l ++ held h q ++ pushed h pend ap) /\
     p_ok p /\ Forall d_ok h) /\
    (0 < k -> units l = everything) /\ (forall c, out = Some c -> h !! c = gv) /\ (l = [] \/ last l = gv) /\ (pend = true -> items p = [] \/ ap = PDone).

Record inv (s : state) : Prop := {
  iv_control : control s;
  iv_owned : s.(at_c) <> CGone -> owned s.(heap) s.(queue_) s.(free_cells_) s.(out_data_) s.(at_p);
  iv_order : s.(at_c) <> CGone -> in_order s.(heap) s.(src) s.(produce_end_) s.(queue_) s.(out_data_) s.(at_p) s.(log) s.(given)
}.

Lemma held_app h q1 q2 : held h (q1 ++ q2) = held h q1 ++ held h q2.
Proof. apply omap_app. Qed.

Lemma held_insert h c d q : c ∉ q -> held (<[c := d]> h) q = held h q.
Proof.
  intros Hc. unfold held. induction q as [|x q IH]; [done|]. apply not_elem_of_cons in Hc as [Hx Hc]. simpl.
  rewrite list_lookup_insert_ne by done. destruct (h !! x); simpl; [f_equal|]; by apply IH.
Qed.

Lemma held_fresh h x q : Forall (fun c => c < length h) q -> held (h ++ [x]) q = held h q.
Proof.
  intros Hq. unfold held. induction Hq as [|c q Hc Hq IH]; [done|]. simpl. rewrite lookup_app_l by done. destruct (h !! c); simpl; [f_equal|]; apply IH.
Qed.

Lemma held_length h q : Forall (fun c => c < length h) q -> length (held h q) = length q.
Proof.
  intros Hq. unfold held. induction Hq as [|c q Hc Hq IH]; [done|]. simpl.
  destruct (lookup_lt_is_Some_2 h c Hc) as [d ->]. simpl. f_equal. apply IH.
Qed.

Lemma owned_perm h q f out ap q' f' out' ap' :
  cells q' f' out' ap' ≡ₚ cells q f out ap -> (ap' = PNext None -> ap = PNext None) -> owned h q f out ap -> owned h q' f' out' ap'.
Proof. intros Hp Ha (H1 & H2 & H3). split; [by rewrite Hp|]. split; [done|]. intros E. by apply H3, Ha. Qed.

Lemma owned_cells h q f out ap : owned h q f out ap ->
  NoDup (cells q f out ap) /\ Forall (fun c => c < length h) (cells q f out ap) /\ length (cells q f out ap) = length h.
Proof.
  intros (H1 & _). split_and!.
  - rewrite H1. apply NoDup_ListNoDup, seq_NoDup.
  - rewrite H1. apply Forall_forall. intros c Hc. apply elem_of_seq in Hc. lia.
  - by rewrite H1, length_seq.
Qed.

Lemma inv_init p : p_ok p -> items p = everything -> inv (init p).
Proof.
  intros Hok Hp. split; [apply control_init|..].
  - intros _. split; [done|]. split; [simpl; lia|done].
  - intros _. exists [], 0. simpl. split_and!; try done; first [by constructor|lia|by left].
Qed.

Lemma inv_wake_p s : inv s -> inv (wake_p s).
Proof.
  intros [H1 H2 H3]. split; [by apply control_wake_p|..]; unfold wake_p in *; open_state s; destruct ap; set_cbn; try done.
  { intros Hc. eapply owned_perm; [| |by apply H2]; done. }
  intros Hc. destruct (H3 Hc) as (l & k & A & B & C & E & F & G). exists l, k. do 5 (split; [done|]). intros Hp. destruct (G Hp); [by left|done].
Qed.

Lemma inv_wake_c s : inv s -> inv (wake_c s).
Proof.
  intros [H1 H2 H3]. split; [by apply control_wake_c|..]; unfold wake_c in *; open_state s; destruct ac; set_cbn; try done; intros _; by (apply H2 || apply H3).
Qed.

(** The cell that [next] gets, old or new, is the producer's alone. *)
Lemma cell_ready p h q f out cell : owned h q f out (PNext cell) ->
  exists c h', match cell with Some c => (c, h) | None => (length h, h ++ [fresh p]) end = (c, h') /\
    owned h' q f out (PPush c) /\ c ∉ q /\ out <> Some c /\ held h' q = held h q /\ (forall c', out = Some c' -> h' !! c' = h !! c').
Proof.
  intros Hw. destruct (owned_cells _ _ _ _ _ Hw) as (Hn & Hb & _). destruct Hw as (Hperm & Hlen & Hcap). unfold cells in *. destruct cell as [c|].
  - exists c, h. split; [done|]. split; [done|]. cbn [cell_of] in Hn. rewrite !NoDup_app in Hn.
    destruct Hn as (_ & Hq & _ & _ & _ & Ho & _). split_and!; try done.
    + intros Hc. apply (Hq c Hc). rewrite !elem_of_app. right. right. by apply list_elem_of_singleton.
    + intros ->. apply (Ho c); by apply list_elem_of_singleton.
  - exists (length h), (h ++ [fresh p]). split; [done|]. specialize (Hcap eq_refl). cbn [cell_of] in *. rewrite app_nil_r in *. rewrite !app_assoc in *.
    assert (length h ∉ (q ++ f) ++ option_list out) as Hnew.
    { intros Hc. rewrite Forall_forall in Hb. specialize (Hb _ Hc). lia. }
    split; [|split; [|split; [|split]]].
    + split; [|split; [rewrite length_app; simpl; lia|done]]. unfold cells. cbn [cell_of]. rewrite !app_assoc, Hperm, length_app. simpl. by rewrite Nat.add_1_r, seq_S.
    + intros Hc. apply Hnew. rewrite !elem_of_app. by left; left.
    + intros ->. apply Hnew. rewrite !elem_of_app. right. set_solver.
    + apply held_fresh. apply Forall_app in Hb as [Hb _]. by apply Forall_app in Hb as [Hb _].
    + intros c' ->. apply lookup_app_l. rewrite Forall_forall in Hb. apply Hb. rewrite !elem_of_app. right. set_solver.
Qed.

Lemma pushed_idle h pend ap : match ap with PPush _ => False | _ => True end -> pushed h pend ap = [].
Proof. by destruct ap. Qed.

Lemma d_ok_ready p h c (cell : option nat) h' : p_ok p -> Forall d_ok h -> match cell with Some c => (c, h) | None => (length h, h ++ [fresh p]) end = (c, h') -> Forall d_ok h'.
Proof. intros Hp Hh. destruct cell; intros [= <- <-]; [done|]. apply Forall_app. split; [done|]. repeat constructor. by apply fresh_ok. Qed.

Lemma producer_next_ok s cell : inv s -> s.(at_p) = PNext cell ->
  exists s', producer_next cell s = Ok s' /\ owned s'.(heap) s'.(queue_) s'.(free_cells_) s'.(out_data_) s'.(at_p) /\
    in_order s'.(heap) s'.(src) s'.(produce_end_) s'.(queue_) s'.(out_data_) s'.(at_p) s'.(log) s'.(given).
Proof.
  intros [[_ _ Hc _ _] Ho Hi] Ep. unfold producer_next. open_state s. subst ap.
  assert (ac <> CGone) as Hg by (intros ->; by destruct Hc). specialize (Ho Hg). specialize (Hi Hg).
  destruct (cell_ready p h q f out cell Ho) as (c & h' & Eh & Ho' & Hq & Hout & Hheld & Hval). rewrite Eh.
  destruct Hi as (l & k & A & (B & N & Hpok & Hdok) & C & E & F & G). pose proof (d_ok_ready _ _ _ _ _ Hpok Hdok Eh) as Hdok'.
  destruct (owned_cells _ _ _ _ _ Ho') as (_ & Hb & _).
  assert (c < length h') as Hlt.
  { rewrite Forall_forall in Hb. apply Hb. unfold cells. rewrite !elem_of_app. do 3 right. by apply list_elem_of_singleton. }
  destruct (lookup_lt_is_Some_2 h' c Hlt) as [old Hold]. unfold read_at. rewrite Hold. cbn [mbind outcome_bind].
  destruct (next_ok p old Hpok) as (more & d & p' & En & Hp' & Hd' & Hn); [by eapply Forall_lookup_1|]. rewrite En. cbn [mbind outcome_bind].
  rewrite write_at_lt by done. cbn [mbind outcome_bind]. eexists. split; [done|]. set_cbn.
  split; [unfold owned; by rewrite length_insert|]. rewrite (pushed_idle h) in B, N by done. rewrite app_nil_r in B, N.
  exists l, k. rewrite held_insert, Hheld by done.
  split; [done|]. split; [|split; [done|split; [|split; [done|]]]].
  - assert (held (<[c:=d]> h') [c] = [d]) as Hone by (unfold held; simpl; by rewrite list_lookup_insert_eq).
    split; [|split; [|split; [done|by apply Forall_insert]]]; unfold pushed; destruct more; cbn [negb]; rewrite ?Hone, ?app_nil_r; try done.
    + destruct Hn as [_ Hn]. rewrite app_assoc, units_app, units_one, <- app_assoc, <- Hn. done.
    + destruct Hn as [Hn1 Hn2]. rewrite Hn2. by rewrite Hn1 in B.
    + destruct Hn as [Hn _]. rewrite app_assoc, Forall_app. split; [done|]. by repeat constructor.
  - intros c' E'. rewrite list_lookup_insert_ne by congruence. rewrite Hval by done. by apply E.
  - intros Em. left. apply negb_true_iff in Em. subst more. apply Hn.
Qed.

(** The cells and the order only depend on some of the members. *)
Definition contents (s : state) : Prop := s.(at_c) <> CGone ->
  owned s.(heap) s.(queue_) s.(free_cells_) s.(out_data_) s.(at_p) /\
  in_order s.(heap) s.(src) s.(produce_end_) s.(queue_) s.(out_data_) s.(at_p) s.(log) s.(given).

Definition idle_p (ap : ppc) : Prop := match ap with PNext _ | PPush _ | PDone => False | _ => True end.

(** Between two cells the producer's position does not matter. *)
Lemma in_order_idle h p pend q out ap ap' lg gv : idle_p ap -> match ap' with PPush _ => False | _ => True end ->
  in_order h p pend q out ap lg gv -> in_order h p pend q out ap' lg gv.
Proof.
  intros Hi Hi' (l & k & A & B & C & E & F & G). exists l, k. split; [done|]. split; [by destruct ap, ap'|]. do 3 (split; [done|]).
  intros Hp. left. destruct (G Hp) as [|E0]; [done|]. by rewrite E0 in Hi.
Qed.

Lemma contents_act s : at_wait s -> producer_ready s = true -> contents s -> exists s', producer_act s = Ok s' /\ contents s'.
Proof.
  intros Hw Hr Hs. destruct (at_wait_c s Hw) as (Hc & _). destruct Hw as (Hp & _). unfold producer_act, producer_ready, contents in *.
  open_state s. set_cbn. assert (idle_p ap) as Hidle by (by destruct Hp as [->| ->]).
  assert (cell_of ap = []) as Hcell by (by destruct Hp as [->| ->]).
  assert (ac <> CGone) as Hg by (by intros ->). destruct (Hs Hg) as [Ho Hi]. destruct sig.
  - destruct (decide (kProduce = kProduce)) as [_|]; [|done]. apply andb_true_iff in Hr as [_ Hr].
    destruct f as [|c f]; set_cbn; (eexists; split; [done|]); set_cbn; intros _; (split; [|apply (in_order_idle _ _ _ _ _ ap); done]).
    + destruct (owned_cells _ _ _ _ _ Ho) as (_ & _ & Hl). destruct Ho as (Ho1 & Ho2 & _). unfold owned, cells in *. rewrite Hcell in *. cbn [cell_of].
      split; [done|]. split; [done|]. intros _. rewrite !length_app in Hl. simpl in Hl.
      rewrite (bool_decide_eq_false_2 (length [] <> 0)), orb_false_r, bool_decide_eq_true in Hr by (simpl; tauto). destruct out; simpl in Hl; lia.
    + eapply owned_perm; [| |exact Ho]; [|done]. unfold cells. rewrite Hcell. cbn [cell_of].
      rewrite app_nil_r. cbn [app]. rewrite (app_assoc f), <- Permutation_middle. by rewrite app_nil_r.
  - destruct Hi as (l & k & _ & (_ & _ & Hpok & Hdok) & _ & E & _). destruct (reset_ok p Hpok) as (p' & Ep & Hpok' & Hit). rewrite Ep. cbn [mbind outcome_bind].
    eexists. split; [done|]. destruct ac as [|a|a|b| |]; try (by destruct Hc); [|discriminate]. set_cbn. intros _. split.
    + eapply owned_perm; [| |exact Ho]; [|done]. unfold cells. rewrite Hcell. cbn [cell_of app]. rewrite (Permutation_app_comm f q). by rewrite <- app_assoc.
    + exists [], 0. cbn [map replicate app held omap]. split_and!; try done; first [by constructor|lia|by left].
  - eexists. split; [done|]. unfold wake_c. set_cbn. destruct ac as [|a|a|b| |]; try (by destruct Hc); [destruct Hc as [[? _]|[? _]]; done|]. set_cbn. intros _. split.
    + eapply owned_perm; [| |exact Ho]; [|done]. unfold cells. by rewrite Hcell.
    + destruct Hi as (l & k & A & B & C & E & F & _). exists l, k. split; [done|]. split; [|split_and!; try done; by right]. by destruct Hp as [->| ->].
Qed.

Lemma contents_sleep s : at_wait s -> contents s -> contents (set_p (PSleep false) s).
Proof.
  intros (Hp & _) Hs. unfold contents in *. open_state s. set_cbn. intros Hg. destruct (Hs Hg) as [Ho Hi]. split.
  - eapply owned_perm; [| |exact Ho]; [|done]. by destruct Hp as [->| ->].
  - apply (in_order_idle _ _ _ _ _ ap); [by destruct Hp as [->| ->]|done|done].
Qed.

Lemma contents_wait s : at_wait s -> contents s -> exists s', producer_wait s = Ok s' /\ contents s'.
Proof.
  intros Hw Hs. unfold producer_wait. destruct (producer_ready s) eqn:Er; [by apply contents_act|]. eexists. split; [done|]. by apply contents_sleep.
Qed.

(** The producer that is about to lock, or was woken, is at its [wait]. *)
Lemma at_wait_lock s : control s -> s.(at_p) = PLock -> at_wait (set_waiters s.(nwait_consumer_) (s.(nwait_producer_) + 1) s).
Proof.
  intros [H1 H2 H3 H4 H5] Ep. open_state s. set_cbn. subst ap. split; [by left|]. split; [set_cbn; lia|]. set_cbn. by split.
Qed.
Lemma at_wait_awake s : control s -> s.(at_p) = PSleep true -> at_wait s.
Proof. intros [H1 H2 H3 H4 H5] Ep. open_state s. subst ap. split; [by right|]. split; [done|]. set_cbn. by split. Qed.

Lemma inv_contents s : inv s -> contents s.
Proof. intros [_ Ho Hi] Hg. split; auto. Qed.

Lemma contents_producer s s' : inv s -> producer_step s = Ok (Some s') -> contents s'.
Proof.
  intros Hs E. pose proof (inv_contents s Hs) as Hct. pose proof (iv_control s Hs) as [H1 H2 H3 H4 H5]. unfold producer_step, producer_push in E.
  destruct (at_p s) as [|[]|cell|c|b| |] eqn:Ep; try discriminate.
  - destruct (contents_wait _ (at_wait_lock s (iv_control s Hs) Ep) Hct) as (s1 & E1 & Hs1). rewrite E1 in E. by injection E as <-.
  - destruct (contents_wait _ (at_wait_awake s (iv_control s Hs) Ep) Hct) as (s1 & E1 & Hs1). rewrite E1 in E. by injection E as <-.
  - destruct (producer_next_ok s cell Hs Ep) as (s1 & E1 & Ho1 & Hi1). rewrite E1 in E. injection E as <-. intros _. by split.
  - injection E as <-. unfold contents in *. open_state s. subst ap. destruct pend; set_cbn; intros Hg; destruct (Hct Hg) as [Ho (l & k & A & B & C & E & F & G)]; split.
    + eapply owned_perm; [| |exact Ho]; [|done]. unfold cells. cbn [cell_of]. rewrite app_nil_r, <- !app_assoc. do 2 f_equiv. apply Permutation_app_comm.
    + exists l, k. do 5 (split; [done|]). intros _. left. by destruct (G eq_refl).
    + eapply owned_perm; [| |exact Ho]; [|done]. unfold cells. cbn [cell_of]. rewrite app_nil_r, <- !app_assoc. f_equiv.
      rewrite (Permutation_app_comm [c]). by rewrite <- app_assoc.
    + exists l, k. rewrite held_app. cbn [pushed] in *. rewrite app_nil_r. split_and!; try done; apply B.
  - injection E as <-. assert (contents (if b then wake_c s else s)) as Hw.
    { destruct b; [|done]. by apply inv_contents, inv_wake_c. }
    assert (at_p (if b then wake_c s else s) = PNotify b) as Ep' by (destruct b; [unfold wake_c; by destruct (at_c s)|done]).
    unfold contents in *. set_cbn. intros Hg. destruct (Hw Hg) as [Ho Hi]. rewrite Ep' in *. split; [|by apply (in_order_idle _ _ _ _ _ (PNotify b))].
    by eapply owned_perm; [| |exact Ho].
  - injection E as <-. pose proof (inv_contents _ (inv_wake_c s Hs)) as Hw.
    assert (at_p (wake_c s) = PNotifyBF) as Ep' by (unfold wake_c; by destruct (at_c s)).
    unfold contents in *. set_cbn. intros Hg. destruct (Hw Hg) as [Ho Hi]. rewrite Ep' in *. split; [|by apply (in_order_idle _ _ _ _ _ PNotifyBF)].
    by eapply owned_perm; [| |exact Ho].
Qed.

Lemma contents_inv s : control s -> contents s -> inv s.
Proof. intros Hc Hs. split; [done|..]; intros Hg; by destruct (Hs Hg). Qed.

Lemma inv_producer s s' : inv s -> producer_step s = Ok (Some s') -> inv s'.
Proof. intros Hs E. apply contents_inv; [eapply control_producer; [apply Hs|exact E]|by eapply contents_producer]. Qed.

(** [Next] behind its [wait] takes the next item, or finds that there is none. *)
Lemma next_act_ok s : contents s -> s.(at_c) <> CGone -> s.(at_p) <> PDone -> s.(out_data_) = None -> next_ready s = true ->
  exists s', next_act s = Ok s' /\ contents s'.
Proof.
  intros Hs Hg Hp Hout Hr. destruct (Hs Hg) as [Ho (l & k & A & B & C & E & F & G)]. clear Hs. unfold next_act, next_ready, contents in *.
  open_state s. set_cbn. subst out. destruct q as [|c q].
  - rewrite bool_decide_eq_false_2 in Hr by (simpl; tauto). cbn [orb] in Hr. subst pend. cbn [check mbind outcome_bind].
    eexists. split; [done|]. set_cbn. intros _. split; [done|]. destruct (G eq_refl) as [Hit|]; [|done].
    assert (units l = everything) as Hl.
    { destruct B as [<- _]. rewrite Hit. replace (pushed h true ap) with (@nil D) by (by destruct ap). simpl. by rewrite !app_nil_r. }
    exists l, (S k). split; [by rewrite A, <- app_assoc, replicate_S_end|]. done.
  - destruct (owned_cells _ _ _ _ _ Ho) as (_ & Hb & _). apply Forall_cons in Hb as [Hc _].
    destruct (lookup_lt_is_Some_2 h c Hc) as [d Hd]. destruct (read_at_lt h c Hc) as [d' Hd'].
    assert (d' = d) as -> by (unfold read_at in Hd'; rewrite Hd in Hd'; by injection Hd').
    rewrite Hd'. cbn [mbind outcome_bind]. eexists. split; [done|]. set_cbn. intros _. split.
    + eapply owned_perm; [| |exact Ho]; [|done]. unfold cells. cbn [option_list app]. rewrite !Permutation_middle. done.
    + assert (held h (c :: q) = d :: held h q) as Hh by (unfold held; simpl; by rewrite Hd). rewrite Hh in B. cbn [app] in B.
      destruct B as (B & N & B'). pose proof N as (_ & (Hne & _)%Forall_cons)%Forall_app.
      assert (k = 0) as ->.
      { destruct k; [done|]. specialize (C ltac:(lia)). rewrite units_app, C, <- app_assoc in B. apply (f_equal length) in B. rewrite length_app in B.
        destruct (content d) as [|u us] eqn:Ed; [done|]. unfold units in B. simpl in B. rewrite Ed in B. simpl in B. lia. }
      exists (l ++ [d]), 0. rewrite map_app. rewrite <- (app_assoc l [d]). cbn [app]. split; [by rewrite A, !app_nil_r|]. split; [done|]. split_and!; try done.
      * lia.
      * by intros c' [= <-].
      * right. by rewrite last_snoc.
Qed.

Lemma contents_pc s pc : contents s -> s.(at_c) <> CGone -> contents (set_c pc s).
Proof. intros Hs Hg _. apply (Hs Hg). Qed.

Lemma alive_producer s : control s -> s.(producer_sig_) <> kDestroy -> s.(at_p) <> PDone.
Proof. intros [_ _ _ Hp _] Hs E. by rewrite E in Hp. Qed.

Lemma consumer_ok s : inv s -> exists o, consumer_step s = Ok o /\ forall s', o = Some s' -> contents s'.
Proof.
  intros Hs. pose proof (inv_contents s Hs) as Hct. pose proof (iv_control s Hs) as Hc. pose proof Hc as [_ _ H3 _ _]. unfold consumer_step, before_first_act, destroy_act.
  destruct (at_c s) as [|[]|[]|b| |] eqn:Ec; try by (eexists; split; [done|]).
  - destruct (next_ready s) eqn:Er.
    + destruct H3 as (S1 & _ & S2). destruct (next_act_ok s) as (s' & -> & Hs'); try done; [congruence|apply alive_producer; [done|congruence]|].
      eexists. split; [done|]. by intros ? [= <-].
    + eexists. split; [done|]. intros ? [= <-]. apply contents_pc; [done|set_cbn; congruence].
  - destruct (producer_sig_processed_ s); (eexists; split; [done|]); intros ? [= <-]; (apply contents_pc; [done|set_cbn; congruence]).
  - eexists. split; [done|]. intros ? [= <-]. destruct b; [|apply contents_pc; [done|set_cbn; congruence]].
    apply contents_pc; [by apply inv_contents, inv_wake_p|]. unfold wake_p. destruct (at_p s); set_cbn; congruence.
  - destruct (at_p s); (eexists; split; [done|]); try done. intros ? [= <-]. by intros [].
Qed.

(** Giving a cell back keeps the cells and the order. *)
Lemma contents_recycle s c : contents s -> s.(out_data_) = Some c -> contents (set_cells s.(queue_) (s.(free_cells_) ++ [c]) None s).
Proof.
  intros Hs E Hg. destruct (Hs Hg) as [Ho (l & k & A & B & C & _ & F & G)]. clear Hs. open_state s. set_cbn. subst out. split.
  - eapply owned_perm; [| |exact Ho]; [|done]. unfold cells. cbn [option_list app]. by rewrite <- !app_assoc.
  - by exists l, k.
Qed.

Lemma wake_p_c s : at_c (wake_p s) = at_c s.
Proof. unfold wake_p. by destruct (at_p s). Qed.

Lemma contents_wake_p s : contents s -> contents (wake_p s).
Proof.
  intros Hs. unfold wake_p. destruct (at_p s) eqn:Ep; try done. intros Hg. destruct (Hs Hg) as [Ho Hi]. rewrite Ep in *. set_cbn.
  split; [by eapply owned_perm; [| |exact Ho]|by apply (in_order_idle _ _ _ _ _ (PSleep awake))].
Qed.

Lemma call_ok c s : inv s -> exists o, start_call c s = Ok o /\ forall s', o = Some s' -> contents s'.
Proof.
  intros Hs. pose proof (inv_contents s Hs) as Hct. pose proof (iv_control s Hs) as Hc. pose proof Hc as [_ _ H3 _ _]. unfold start_call, start_next, start_recycle, start_before_first, start_destroy.
  destruct (at_c s) as [|[]|[]|b| |] eqn:Ec; try by (eexists; split; [done|]).
  destruct H3 as [Hsig Hpr]. destruct c.
  - destruct (out_data_ s) eqn:Eo; [by eexists|]. rewrite decide_False by congruence. rewrite bool_decide_eq_true_2 by done.
    cbn [check mbind outcome_bind]. set (s0 := set_waiters _ _ s). destruct (next_ready s0) eqn:Er.
    + destruct (next_act_ok s0) as (s' & -> & Hs'); unfold s0 in *; set_cbn; try done; [congruence|apply alive_producer; [done|congruence]|].
      eexists. split; [done|]. by intros ? [= <-].
    + eexists. split; [done|]. intros ? [= <-]. apply contents_pc; [done|]. unfold s0. set_cbn. congruence.
  - destruct (out_data_ s) as [c|] eqn:Eo; [|by eexists]. eexists. split; [done|]. intros ? [= <-].
    apply contents_pc; [by apply contents_recycle|]. set_cbn. congruence.
  - set (s0 := match (if own then None else out_data_ s) with Some c => _ | None => s end).
    assert (contents s0 /\ producer_sig_ s0 = kProduce /\ producer_sig_processed_ s0 = false /\ at_c s0 = CIdle) as (C0 & C1 & C2 & C3).
    { unfold s0. destruct own; [done|]. destruct (out_data_ s) eqn:Eo; [|done]. split; [by apply contents_recycle|done]. }
    rewrite decide_False by congruence. set_cbn. rewrite C2. cbn [negb check mbind outcome_bind]. eexists. split; [done|]. intros ? [= <-].
    set (s1 := set_sig kBeforeFirst false s0). assert (contents s1) as C4 by exact C0.
    destruct (decide _); (apply contents_pc; [|rewrite ?wake_p_c; unfold s1; set_cbn; congruence]); [by apply contents_wake_p|done].
  - eexists. split; [done|]. intros ? [= <-]. set (s1 := set_sig kDestroy (producer_sig_processed_ s) s).
    assert (contents s1) as C4 by exact Hct. assert (at_c s1 = CIdle) by exact Ec.
    destruct (decide _); (apply contents_pc; [|rewrite ?wake_p_c; unfold s1; set_cbn; congruence]); [by apply contents_wake_p|done].
Qed.

Lemma producer_ok s : inv s -> exists o, producer_step s = Ok o.
Proof.
  intros Hs. unfold producer_step, producer_push. destruct (at_p s) as [|[]|cell|c|b| |] eqn:Ep; try by eexists.
  1: destruct (contents_wait _ (at_wait_lock s (iv_control s Hs) Ep) (inv_contents s Hs)) as (s' & -> & _); by eexists.
  1: destruct (contents_wait _ (at_wait_awake s (iv_control s Hs) Ep) (inv_contents s Hs)) as (s' & -> & _); by eexists.
  destruct (producer_next_ok s cell Hs Ep) as (s' & -> & _). by eexists.
Qed.

Lemma inv_not_fails s : inv s -> ~ fails s.
Proof.
  intros Hs [[e E]|[[e E]|(c & e & E)]].
  - destruct (producer_ok s Hs) as [o E']. congruence.
  - destruct (consumer_ok s Hs) as (o & E' & _). congruence.
  - destruct (call_ok c s Hs) as (o & E' & _). congruence.
Qed.

Lemma inv_step s s' : inv s -> step s s' -> inv s'.
Proof.
  intros Hs Hst. destruct Hst as [s1 s2 Hr|c s1 s2 E|s1|s1]; [destruct Hr as [s3 s4 E|s3 s4 E]|..].
  - by eapply inv_producer.
  - destruct (consumer_ok s3 Hs) as (o & E' & Hn). rewrite E in E'. injection E' as <-.
    apply contents_inv; [eapply control_consumer; [apply Hs|exact E]|by apply Hn].
  - destruct (call_ok c s1 Hs) as (o & E' & Hn). rewrite E in E'. injection E' as <-.
    apply contents_inv; [eapply control_call; [apply Hs|exact E]|by apply Hn].
  - by apply inv_wake_p.
  - by apply inv_wake_c.
Qed.

Lemma inv_reachable p s : p_ok p -> items p = everything -> reachable p s -> inv s.
Proof.
  intros Hok Hp Hr. assert (inv (init p)) as Hi by by apply inv_init. induction Hr as [|s1 s2 s3 H12 _ IH]; [done|].
  apply IH. by eapply inv_step.
Qed.

(** ** Calls end *)

(** The steps that are left before both threads wait for a call. *)
Definition prank (ap : ppc) : nat :=
  match ap with PLock | PSleep true => 3 | PSleep false | PNext _ => 2 | PPush _ => 7 | PNotify _ | PNotifyBF => 6 | PDone => 0 end.
Definition crank (ac : cpc) : nat :=
  match ac with CIdle | CGone => 0 | CNextSleep a | CBFSleep a => if a then 5 else 4 | CNotify _ => 3 | CJoin => 1 end.
Definition work (s : state) : nat :=
  8 * (length (items s.(src)) + if s.(produce_end_) then 0 else 1) + prank s.(at_p) + crank s.(at_c) +
  (if decide (s.(producer_sig_) = kBeforeFirst) then 8 * (length everything + 1) + 8 else 0).

Lemma work_wake_p s : work (wake_p s) <= work s + 1.
Proof. unfold wake_p, work. open_state s. destruct ap as [|[]| | | | |]; set_cbn; simpl; lia. Qed.

Lemma work_wake_c s : work (wake_c s) <= work s + 1.
Proof. unfold wake_c, work. open_state s. destruct ac as [|[]|[]| | |]; set_cbn; simpl; lia. Qed.

(** Where the producer goes from the lock it loses some. *)
Lemma work_wait s s' : p_ok s.(src) -> s.(at_p) = PLock \/ s.(at_p) = PSleep true -> s.(at_c) = CJoin \/ s.(producer_sig_) <> kDestroy ->
  producer_wait s = Ok s' -> work s' < work s.
Proof.
  intros Hok Hp Hc E. assert (prank (at_p s) = 3) as Hr by (by destruct Hp as [->| ->]).
  unfold producer_wait in E. destruct (producer_ready s); unfold producer_act, work in *; open_state s; set_cbn; rewrite Hr; [|injection E as <-; simpl; lia]. destruct sig.
  - destruct f; injection E as <-; set_cbn; simpl; lia.
  - destruct (reset_ok p Hok) as (p' & Ep & _ & Hit). rewrite Ep in E. injection E as <-. set_cbn. rewrite Hit. repeat destruct (decide _) as [?|?]; try done. simpl. lia.
  - injection E as <-. destruct Hc as [->|]; [|done]. cbn [wake_c]. set_cbn. simpl. destruct pend; lia.
Qed.

Lemma work_producer s s' : inv s -> producer_step s = Ok (Some s') -> work s' < work s.
Proof.
  intros Hs E. pose proof (iv_control s Hs) as [_ _ H3 H4 _]. unfold producer_step, producer_push in E.
  assert (s.(at_c) = CJoin \/ s.(producer_sig_) <> kDestroy \/ s.(at_p) = PDone) as Hd.
  { destruct (at_c s); try (right; left; naive_solver congruence); [by left|]. right. right. by destruct H3. }
  assert (s.(at_p) <> PDone -> p_ok s.(src) /\ Forall d_ok s.(heap)) as Hok.
  { intros Hp. destruct (iv_order s Hs) as (l & k & _ & (_ & _ & B) & _); [|done]. intros Eg. rewrite Eg in H3. by destruct H3. }
  destruct (at_p s) as [|[]|cell|c|b| |] eqn:Ep; try discriminate.
  - destruct (producer_wait _) as [s1|] eqn:Ew; [|done]. injection E as <-. set (s0 := set_waiters _ _ s) in *. change (work s) with (work s0).
    apply work_wait; [by apply Hok|by left| |done]. destruct Hd as [|[]]; [by left|by right|done].
  - destruct (producer_wait s) as [s1|] eqn:Ew; [|done]. injection E as <-. apply work_wait; [by apply Hok|by right| |done].
    destruct Hd as [|[]]; [by left|by right|done].
  - unfold producer_next, work in *. open_state s. subst ap.
    destruct (match cell with Some c => (c, h) | None => (length h, h ++ [fresh p]) end) as [c h'] eqn:Eh. destruct (Hok ltac:(done)) as [Hp Hd'].
    pose proof (d_ok_ready _ _ _ _ _ Hp Hd' Eh) as Hdok. unfold read_at in E. destruct (h' !! c) as [old|] eqn:Eo; [|done]. cbn [mbind outcome_bind] in E.
    destruct (next_ok p old Hp) as (more & d & p' & En & _ & _ & Hn); [by eapply Forall_lookup_1|]. rewrite En in E. cbn [mbind outcome_bind] in E.
    destruct (write_at h' c d) as [h2|]; [|done]. cbn [mbind outcome_bind] in E. injection E as <-. set_cbn. subst pend. destruct more.
    + destruct Hn as [Hne Hit]. rewrite Hit, length_app. destruct (content d); [done|]. simpl. lia.
    + destruct Hn as [-> ->]. simpl. lia.
  - injection E as <-. unfold work. open_state s. subst ap. destruct pend; set_cbn; simpl; lia.
  - injection E as <-. assert (work (if b then wake_c s else s) <= work s + 1) as Hw by (destruct b; [apply work_wake_c|lia]).
    assert (at_p (if b then wake_c s else s) = PNotify b) as Ep' by (destruct b; [unfold wake_c; by destruct (at_c s)|done]).
    revert Hw. generalize dependent (if b then wake_c s else s). intros s1 Ep'. unfold work at 1 3. set_cbn. rewrite Ep'. simpl. lia.
  - injection E as <-. pose proof (work_wake_c s) as Hw.
    assert (at_p (wake_c s) = PNotifyBF) as Ep' by (unfold wake_c; by destruct (at_c s)).
    revert Hw. generalize dependent (wake_c s). intros s1 Ep'. unfold work at 1 3. set_cbn. rewrite Ep'. simpl. lia.
Qed.

Lemma work_consumer s s' : consumer_step s = Ok (Some s') -> work s' < work s.
Proof.
  intros E. unfold consumer_step, before_first_act, destroy_act in E. destruct (at_c s) as [|[]|[]|b| |] eqn:Ec; try discriminate.
  - destruct (next_ready s).
    + unfold next_act, work in *. open_state s. subst ac. destruct q as [|c q].
      * set_cbn. destruct pend; [|done]. injection E as <-. simpl. lia.
      * set_cbn. destruct (read_at h c); [|done]. injection E as <-. simpl. lia.
    + injection E as <-. unfold work. set_cbn. rewrite Ec. simpl. lia.
  - destruct (producer_sig_processed_ s); injection E as <-; unfold work; set_cbn; rewrite Ec; simpl; lia.
  - injection E as <-. assert (work (if b then wake_p s else s) <= work s + 1) as Hw by (destruct b; [apply work_wake_p|lia]).
    assert (at_c (if b then wake_p s else s) = CNotify b) as Ec' by (destruct b; [by rewrite wake_p_c|done]).
    revert Hw. generalize dependent (if b then wake_p s else s). intros s1 Ec'. unfold work at 1 3. set_cbn. rewrite Ec'. simpl. lia.
  - destruct (at_p s) eqn:Ep; try discriminate. injection E as <-. unfold work. set_cbn. rewrite Ec. simpl. lia.
Qed.

Lemma work_run s s' : inv s -> run s s' -> work s' < work s.
Proof. intros Hs Hr. destruct Hr as [s s' E|s s' E]; [by apply work_producer|by apply work_consumer]. Qed.

(** A thread that sleeps can be woken: the two never wait for each other. *)
Lemma busy_runs s : 0 < max_capacity_ -> inv s -> s.(at_c) <> CIdle -> s.(at_c) <> CGone -> exists s', run s s'.
Proof.
  intros Hcap Hs Hi Hg. pose proof (iv_control s Hs) as [_ _ H3 H4 H5].
  destruct (producer_ok s Hs) as [[s'|] Ep]; [exists s'; by apply run_producer|].
  destruct (consumer_ok s Hs) as ([s'|] & Ec & _); [exists s'; by apply run_consumer|]. exfalso.
  unfold producer_step, consumer_step in Ep, Ec. destruct (at_p s) as [|[]|cell|c|b| |] eqn:Eap; try discriminate;
    [destruct (producer_wait _); discriminate|destruct (producer_wait _); discriminate| |destruct (producer_next cell s); discriminate|].
  - destruct (at_c s) as [|[]|[]|b| |] eqn:Eac; try discriminate; try done.
    + destruct (next_ready s); [|done]. destruct (next_act s); discriminate.
    + destruct H3 as (Hsig & _). specialize (H5 eq_refl). unfold producer_ready, next_ready in *. rewrite Hsig, decide_True in H4 by done.
      destruct (bool_decide (length (queue_ s) <> 0) || produce_end_ s) eqn:En; [by destruct (H5 eq_refl) as [|[]]|].
      apply orb_false_iff in En as [En Ee]. rewrite Ee, bool_decide_eq_true_2 in H4; [by specialize (H4 eq_refl)|].
      apply bool_decide_eq_false in En. lia.
    + destruct (producer_sig_processed_ s); discriminate.
    + destruct H3 as [[Hsig _]|(_ & _ & H3)]; [|by specialize (H3 eq_refl)].
      unfold producer_ready in H4. rewrite Hsig, decide_False in H4 by done. by specialize (H4 eq_refl).
    + unfold producer_ready in H4. rewrite H3, decide_False in H4 by done. by specialize (H4 eq_refl).
  - destruct (at_c s) as [|[]|[]|b| |] eqn:Eac; try discriminate; naive_solver congruence.
Qed.

Lemma run_ends s : inv s -> sn run s.
Proof.
  intros Hs. remember (work s) as n eqn:En. revert s Hs En. induction (lt_wf n) as [n _ IH]. intros s Hs ->. constructor. intros s' Hr.
  apply (IH (work s')); [by apply work_run|by eapply inv_step, step_run|done].
Qed.

Lemma inv_run s s' : inv s -> rtc run s s' -> inv s'.
Proof. intros Hs Hr. induction Hr as [|s1 s2 s3 H12 _ IH]; [done|]. apply IH. by eapply inv_step, step_run. Qed.

(** C26: whatever the two threads do, in any interleaving and with spurious wakeups,
    no [CHECK] of the iterator fails and no cell is used out of range; what the
    calls of [Next] since the last reset returned is made of the first units of what
    the producer makes, in its order and at least one for each item, and [false] is
    returned behind all of it only; every cell that was made is in exactly one
    place, the queue, the free list, the consumer or the producer, there are at most
    [max_capacity_ + 1] of them, and the consumer's cell still holds the item that it
    was returned with, also behind a reset. *)
Theorem threaded_iter_sequence p s : p_ok p -> items p = everything -> reachable p s ->
  ~ fails s /\ (s.(at_c) <> CGone ->
    (exists l k, s.(log) = map Some l ++ replicate k None /\ units l `prefix_of` everything /\ Forall (fun d => content d <> []) l /\
       (0 < k -> units l = everything) /\ (l = [] \/ last l = s.(given))) /\
    (forall c, s.(out_data_) = Some c -> s.(heap) !! c = s.(given) /\ is_Some s.(given)) /\
    cells s.(queue_) s.(free_cells_) s.(out_data_) s.(at_p) ≡ₚ seq 0 (length s.(heap)) /\ length s.(heap) <= max_capacity_ + 1).
Proof.
  intros Hok Hp Hr. pose proof (inv_reachable p s Hok Hp Hr) as Hs. split; [by apply inv_not_fails|]. intros Hg.
  destruct (inv_contents s Hs Hg) as [Ho (l & k & A & (B & N & _) & C & E & F & _)]. destruct (owned_cells _ _ _ _ _ Ho) as (_ & Hb & _).
  apply Forall_app in N as [N _]. rewrite units_app, <- app_assoc in B.
  split; [|split; [|split; apply Ho]]; [exists l, k; split_and!; try done; by eexists|].
  intros c Hc. rewrite <- (E c Hc). split; [done|]. apply lookup_lt_is_Some_2. rewrite Forall_forall in Hb. apply Hb. unfold cells. rewrite Hc, !elem_of_app. right. right. left. by apply list_elem_of_singleton.
Qed.

(** C27: with room for one cell the two threads never wait for each other: from every
    state that is reached every execution ends when no new call is made, and where
    no thread can go on the call has returned. *)
Theorem threaded_iter_calls_return p s : 0 < max_capacity_ -> p_ok p -> items p = everything -> reachable p s ->
  sn run s /\ forall s', rtc run s s' -> nf run s' -> s'.(at_c) = CIdle \/ s'.(at_c) = CGone.
Proof.
  intros Hcap Hok Hp Hr. pose proof (inv_reachable p s Hok Hp Hr) as Hs. split; [by apply run_ends|]. intros s' Hrun Hnf.
  destruct (at_c s') eqn:Ec; first [by left|by right|exfalso; apply Hnf, (busy_runs s' Hcap); [by eapply inv_run|congruence|congruence]].
Qed.

(** ** What a step does to the members of the caller *)

(** A step that is not the start of a call. *)
Inductive quiet : state -> state -> Prop :=
| quiet_run s s' : run s s' -> quiet s s'
| quiet_spurious_p s : quiet s (wake_p s)
| quiet_spurious_c s : quiet s (wake_c s).

Lemma quiet_step s s' : quiet s s' -> step s s'.
Proof. intros []; by constructor. Qed.

Definition same_hand (s s' : state) : Prop := s'.(out_data_) = s.(out_data_) /\ s'.(given) = s.(given).
Definition same_call (ac ac' : cpc) : Prop :=
  match ac with CNextSleep _ => exists a, ac' = CNextSleep a | CBFSleep _ => exists a, ac' = CBFSleep a | _ => ac' = ac end.

(** Reset by the producer. *)
Definition was_reset (s s' : state) : Prop := s.(producer_sig_) = kBeforeFirst /\ s'.(producer_sig_) = kProduce /\ s'.(log) = [].

(** [Next] is over, with an item or without one. *)
Definition took (s s' : state) : Prop :=
  (exists c d b, s'.(at_c) = CNotify b /\ s'.(out_data_) = Some c /\ s'.(given) = Some d /\ s'.(log) = s.(log) ++ [Some d]) \/
  (s'.(at_c) = CIdle /\ same_hand s s' /\ s'.(log) = s.(log) ++ [None]).

Lemma same_call_refl ac : same_call ac ac.
Proof. destruct ac; simpl; eauto. Qed.

Lemma wake_c_frame s : same_hand s (wake_c s) /\ same_call s.(at_c) (wake_c s).(at_c) /\ (wake_c s).(log) = s.(log) /\
  (wake_c s).(producer_sig_) = s.(producer_sig_).
Proof. unfold wake_c, same_hand. destruct (at_c s) eqn:E; set_cbn; rewrite ?E; simpl; split_and!; eauto. Qed.

Lemma wake_p_frame s : same_hand s (wake_p s) /\ (wake_p s).(at_c) = s.(at_c) /\ (wake_p s).(log) = s.(log) /\
  (wake_p s).(producer_sig_) = s.(producer_sig_).
Proof. unfold wake_p, same_hand. by destruct (at_p s). Qed.

Lemma producer_frame s s' : producer_step s = Ok (Some s') -> same_hand s s' /\ same_call s.(at_c) s'.(at_c) /\
  (s'.(log) = s.(log) /\ s'.(producer_sig_) = s.(producer_sig_) \/ was_reset s s').
Proof.
  intros E.
  assert (forall s0 s1, same_hand s s0 -> at_c s0 = at_c s -> log s0 = log s -> producer_sig_ s0 = producer_sig_ s -> producer_wait s0 = Ok s1 ->
    same_hand s s1 /\ same_call s.(at_c) s1.(at_c) /\ (s1.(log) = s.(log) /\ s1.(producer_sig_) = s.(producer_sig_) \/ was_reset s s1)) as Hwait.
  { intros s0 s1 Hh Hc Hl Hs Ew. unfold producer_wait in Ew. destruct (producer_ready s0).
    - unfold producer_act, same_hand, was_reset in *. set_cbn. rewrite <- Hs. destruct (producer_sig_ s0) eqn:Es.
      + destruct (free_cells_ s0); injection Ew as <-; set_cbn; rewrite Hc; auto using same_call_refl.
      + destruct (beforefirst (src s0)); [|done]. injection Ew as <-. set_cbn. rewrite Hc. split; [done|]. split; [apply same_call_refl|]. by right.
      + injection Ew as <-. set (s2 := set_sig _ _ _). destruct (wake_c_frame s2) as ([W1 W2] & W3 & W4 & W5). set_cbn.
        rewrite W1, W2, W4, W5. unfold s2 in *. set_cbn. rewrite <- Hc. auto.
    - injection Ew as <-. unfold same_hand in *. set_cbn. rewrite Hc. auto using same_call_refl. }
  unfold producer_step, producer_push in E. destruct (at_p s) as [|[]|cell|c|b| |] eqn:Ep; try discriminate.
  - destruct (producer_wait _) as [s1|] eqn:Ew; [|done]. injection E as <-. by eapply Hwait; [..|exact Ew].
  - destruct (producer_wait s) as [s1|] eqn:Ew; [|done]. injection E as <-. by eapply Hwait; [..|exact Ew].
  - unfold producer_next in E. destruct (match cell with Some c => (c, heap s) | None => (length (heap s), heap s ++ [fresh (src s)]) end) as [c h'].
    destruct (read_at h' c) as [old|]; [|done]. cbn [mbind outcome_bind] in E. destruct (next (src s) old) as [[[more d] p']|]; [|done]. cbn [mbind outcome_bind] in E.
    destruct (write_at h' c d) as [h2|]; [|done]. injection E as <-. unfold same_hand. set_cbn. auto using same_call_refl.
  - injection E as <-. unfold same_hand. destruct (produce_end_ s); set_cbn; auto using same_call_refl.
  - injection E as <-. destruct (wake_c_frame s) as ([W1 W2] & W3 & W4 & W5). unfold same_hand. destruct b; set_cbn; auto using same_call_refl.
  - injection E as <-. destruct (wake_c_frame s) as ([W1 W2] & W3 & W4 & W5). unfold same_hand. set_cbn. auto.
Qed.

Lemma next_act_took s s' : next_act s = Ok s' -> took s s'.
Proof.
  unfold next_act, took, same_hand. set_cbn. destruct (queue_ s) as [|c q].
  - destruct (produce_end_ s); [|done]. intros [= <-]. set_cbn. auto.
  - destruct (read_at (heap s) c) as [d|]; [|done]. intros [= <-]. set_cbn. left. eauto 10.
Qed.

Lemma consumer_frame s s' : consumer_step s = Ok (Some s') ->
  match s.(at_c) with
  | CNextSleep _ => took s s' \/ (s'.(at_c) = CNextSleep false /\ same_hand s s' /\ s'.(log) = s.(log))
  | CBFSleep _ => same_hand s s' /\ s'.(log) = s.(log) /\ s'.(producer_sig_) = s.(producer_sig_) /\
      (s'.(at_c) = CBFSleep false \/ s.(producer_sig_processed_) = true /\ exists b, s'.(at_c) = CNotify b)
  | CNotify _ => same_hand s s' /\ s'.(log) = s.(log) /\ s'.(at_c) = CIdle
  | _ => s.(at_c) = CJoin
  end.
Proof.
  intros E. unfold consumer_step, before_first_act, destroy_act in E. destruct (at_c s) as [|[]|[]|b| |] eqn:Ec; try discriminate; try done.
  - destruct (next_ready s).
    + destruct (next_act s) as [s1|] eqn:Ea; [|done]. injection E as <-. left. by apply next_act_took.
    + injection E as <-. right. unfold same_hand. set_cbn. auto.
  - unfold same_hand. destruct (producer_sig_processed_ s); injection E as <-; set_cbn; eauto 10.
  - injection E as <-. destruct (wake_p_frame s) as ([W1 W2] & _ & W4 & _). unfold same_hand. destruct b; set_cbn; auto.
Qed.

Lemma consumer_sig s s' : consumer_step s = Ok (Some s') -> s.(at_c) <> CJoin -> s'.(producer_sig_) = s.(producer_sig_).
Proof.
  intros E Hj. unfold consumer_step, before_first_act, destroy_act in E. destruct (at_c s) as [|[]|[]|b| |] eqn:Ec; try discriminate; try done.
  - destruct (next_ready s); [|by injection E as <-]. unfold next_act in E. set_cbn. destruct (queue_ s) as [|c q].
    + destruct (produce_end_ s); [|done]. by injection E as <-.
    + destruct (read_at (heap s) c); [|done]. by injection E as <-.
  - destruct (producer_sig_processed_ s); by injection E as <-.
  - injection E as <-. destruct (wake_p_frame s) as (_ & _ & _ & H4). by destruct b.
Qed.

Lemma quiet_frame s s' : control s -> quiet s s' ->
  (same_hand s s' /\ same_call s.(at_c) s'.(at_c) /\ s'.(log) = s.(log) /\ s'.(producer_sig_) = s.(producer_sig_)) \/
  (same_hand s s' /\ (exists a a', s.(at_c) = CBFSleep a /\ s'.(at_c) = CBFSleep a') /\ was_reset s s') \/
  ((exists a, s.(at_c) = CNextSleep a) /\ took s s') \/
  ((exists a b, s.(at_c) = CBFSleep a /\ s'.(at_c) = CNotify b) /\ same_hand s s' /\ s'.(log) = s.(log) /\ s.(producer_sig_) = kProduce) \/
  ((exists b, s.(at_c) = CNotify b) /\ s'.(at_c) = CIdle /\ same_hand s s' /\ s'.(log) = s.(log)) \/ s.(at_c) = CJoin.
Proof.
  intros [_ _ Hc _ _] Hq. destruct Hq as [s s' Hr|s|s].
  - destruct Hr as [s s' E|s s' E].
    + destruct (producer_frame s s' E) as (H1 & H2 & [[H3 H4]|H3]); [by left|]. destruct (at_c s) eqn:Ec; try (by destruct Hc as [Hc _]; destruct H3; congruence);
        [|by do 5 right]. right. left. destruct H2 as [a' ?]. split; [done|]. split; [by eexists _, a'|done].
    + pose proof (consumer_frame s s' E) as Hf. unfold same_call. destruct (at_c s) eqn:Ec; try done.
      * destruct Hf as [Ht|(H1 & H2 & H3)]; [by right; right; left; eauto|]. destruct Hc as (Hs & _).
        pose proof (consumer_sig s s' E) as Hg. left. split; [done|]. split; [eauto|]. split; [done|]. apply Hg. congruence.
      * destruct Hf as (H1 & H2 & H3 & [H4|[H4 H5]]); [left; eauto 10|]. do 3 right. left. destruct H5 as [b ?]. split; [eauto|].
        split; [done|]. split; [done|]. destruct Hc as [[_ Hc]|[Hc _]]; congruence.
      * destruct Hf as (H1 & H2 & H3). do 4 right. left. eauto.
      * by do 5 right.
  - destruct (wake_p_frame s) as (H1 & H2 & H3 & H4). left. rewrite H2. auto using same_call_refl.
  - destruct (wake_c_frame s) as (H1 & H2 & H3 & H4). by left.
Qed.

(** The items that were returned since the last reset. *)
Definition got (s : state) : list D := omap id s.(log).

Lemma returned_items (l : list D) k : omap id (map Some l ++ replicate k None) = l.
Proof.
  induction l as [|x l IH]; [by induction k|]. cbn [map app omap list_omap id]. by f_equal.
Qed.

Lemma got_facts s : inv s -> s.(at_c) <> CGone ->
  (units (got s) `prefix_of` everything /\ Forall (fun d => content d <> []) (got s)) /\ (None ∈ s.(log) -> units (got s) = everything) /\
  (forall c, s.(out_data_) = Some c -> exists d, s.(heap) !! c = Some d /\ s.(given) = Some d /\ d_ok d).
Proof.
  intros Hs Hg. destruct (inv_contents s Hs Hg) as [Ho (l & k & A & (B & N & _ & Hdok) & C & E & F & _)]. destruct (owned_cells _ _ _ _ _ Ho) as (_ & Hb & _).
  assert (got s = l) as ->.
  { unfold got. by rewrite A, returned_items. }
  apply Forall_app in N as [N _]. rewrite units_app, <- app_assoc in B. split; [split; [by eexists|done]|]. split.
  - rewrite A, elem_of_app. intros [Hin|Hin]; [by apply list_elem_of_fmap in Hin as (? & ? & _)|]. apply elem_of_replicate in Hin as [_ Hk]. apply C. lia.
  - intros c Hc. rewrite <- (E c Hc). destruct (lookup_lt_is_Some_2 s.(heap) c) as [d Hd]; [|exists d; split_and!; try done; by eapply Forall_lookup_1].
    rewrite Forall_forall in Hb. apply Hb. unfold cells. rewrite Hc, !elem_of_app. right. right. left. by apply list_elem_of_singleton.
Qed.

Lemma Next_call s : inv s -> s.(at_c) = CIdle -> s.(out_data_) = None -> exists s', start_call Next s = Ok (Some s') /\
  (took s s' \/ s'.(at_c) = CNextSleep false /\ same_hand s s' /\ s'.(log) = s.(log)).
Proof.
  intros Hs Ec Eo. destruct (call_ok Next s Hs) as (o & E & _). rewrite E. destruct (iv_control s Hs) as [_ _ Hc _ _]. rewrite Ec in Hc. destruct Hc as [Hsig _].
  unfold start_call, start_next, start_recycle, start_before_first, start_destroy in E. rewrite Ec, Eo, decide_False, bool_decide_eq_true_2 in E by congruence. cbn [check mbind outcome_bind] in E.
  destruct (next_ready _).
  - destruct (next_act _) as [s'|] eqn:Ea in E; [|done]. injection E as <-. exists s'. split; [done|]. left. apply next_act_took in Ea. exact Ea.
  - injection E as <-. eexists. split; [done|]. right. done.
Qed.

Lemma Recycle_call s c : s.(at_c) = CIdle -> s.(out_data_) = Some c -> exists s' b, start_call Recycle s = Ok (Some s') /\
  s'.(at_c) = CNotify b /\ s'.(out_data_) = None /\ s'.(given) = s.(given) /\ s'.(log) = s.(log).
Proof. intros Ec Eo. unfold start_call, start_next, start_recycle, start_before_first, start_destroy. rewrite Ec, Eo. by eexists _, _. Qed.

Lemma BeforeFirst_call s : own = true -> inv s -> s.(at_c) = CIdle -> exists s', start_call BeforeFirst s = Ok (Some s') /\
  s'.(at_c) = CBFSleep false /\ same_hand s s' /\ s'.(producer_sig_) = kBeforeFirst.
Proof.
  intros Hown Hs Ec. destruct (iv_control s Hs) as [_ _ Hc _ _]. rewrite Ec in Hc. destruct Hc as [Hsig Hpr].
  unfold start_call, start_next, start_recycle, start_before_first, start_destroy. rewrite Ec, Hown, decide_False by congruence. set_cbn. rewrite Hpr. cbn [negb check mbind outcome_bind]. eexists. split; [done|].
  set (s1 := set_sig _ _ s). destruct (wake_p_frame s1) as (H1 & _ & _ & H4). unfold same_hand in *. destruct (decide _); set_cbn; [by rewrite H4|done].
Qed.

(** What the owner may do besides: write to the cell that it gives back, and change
    the producer's parameters. *)
Definition write_cell (c : nat) (d : D) (s : state) : state := set_src (<[c := d]> s.(heap)) s.(src) s.
Definition change_src (f : P -> P) (s : state) : state := set_src s.(heap) (f s.(src)) s.

Lemma Recycle_written s c d : inv s -> d_ok d -> s.(at_c) = CIdle -> s.(out_data_) = Some c -> exists s' b, start_call Recycle (write_cell c d s) = Ok (Some s') /\
  s'.(at_c) = CNotify b /\ s'.(out_data_) = None /\ s'.(log) = s.(log) /\ inv s' /\ s'.(producer_sig_) = s.(producer_sig_).
Proof.
  intros Hs Hd Ec Eo. unfold start_call, start_recycle. cbn [write_cell set_src at_c out_data_]. rewrite Ec, Eo. eexists _, _. split; [done|]. split; [done|]. split; [done|]. split; [done|].
  split; [|done]. apply contents_inv.
  - assert (control (write_cell c d s)) as Hc by (destruct (iv_control s Hs); by split).
    eapply (control_call Recycle); [exact Hc|]. unfold start_call, start_recycle. cbn [write_cell set_src at_c out_data_]. rewrite Ec, Eo. done.
  - assert (s.(at_c) <> CGone) as Hg by congruence. intros _. destruct (inv_contents s Hs Hg) as [Ho (l & k & A & (B & N & Hp & Hdok) & C & _ & F & G)].
    destruct (owned_cells _ _ _ _ _ Ho) as (Hn & _). unfold write_cell. open_state s. set_cbn. subst out. unfold cells in Hn. rewrite !NoDup_app in Hn.
    destruct Hn as (_ & Hq & _ & _ & _ & Ha & _).
    assert (c ∉ q) as Hcq by (intros Hc; apply (Hq c Hc); rewrite !elem_of_app; right; left; by apply list_elem_of_singleton).
    assert (c ∉ cell_of ap) as Hca by (apply Ha; by apply list_elem_of_singleton). split.
    + assert (owned (<[c:=d]> h) q f (Some c) ap) as Ho' by (unfold owned in *; by rewrite length_insert).
      eapply owned_perm; [| |exact Ho']; [|done]. unfold cells. cbn [option_list app]. by rewrite <- !app_assoc.
    + exists l, k. assert (pushed (<[c:=d]> h) pend ap = pushed h pend ap) as Epu.
      { destruct ap; try done. unfold pushed. destruct pend; [done|]. apply held_insert. intros E%list_elem_of_singleton. subst c. apply Hca. by apply list_elem_of_singleton. }
      rewrite held_insert, Epu by done. split; [done|]. split; [|split_and!; done].
      split; [done|]. split; [done|]. split; [done|]. by apply Forall_insert.
Qed.

Lemma inv_change_src f s : (forall p, p_ok p -> p_ok (f p) /\ items (f p) = items p) -> inv s -> inv (change_src f s).
Proof.
  intros Hf Hs. pose proof Hs as [Hc Ho Hi]. apply contents_inv; [by destruct Hc; split|]. intros Hg. destruct (Hi Hg) as (l & k & A & (B & N & Hp & Hdok) & C & E & F & G).
  destruct (Hf _ Hp) as [Hp' Hit]. split; [by apply Ho|]. exists l, k. unfold change_src. set_cbn. rewrite Hit. split_and!; try done.
Qed.

(** An execution in which the named thread makes each step. *)
Inductive actor := Producing | Consuming | Calling (c : call).
Fixpoint play (turns : list actor) (s : state) : option state :=
  match turns with
  | [] => Some s
  | a :: turns =>
      match match a with Producing => producer_step s | Consuming => consumer_step s | Calling c => start_call c s end with
      | Ok (Some s) => play turns s
      | _ => None
      end
  end.

Lemma play_steps turns s s' : play turns s = Some s' -> rtc step s s'.
Proof.
  induction turns as [|a turns IH] in s |- *; simpl; [by intros [= ->]|]. intros E.
  destruct a as [| |c]; [destruct (producer_step s) as [[s1|]|] eqn:E1|destruct (consumer_step s) as [[s1|]|] eqn:E1
    |destruct (start_call c s) as [[s1|]|] eqn:E1]; try done; (eapply rtc_l; [|by apply IH]).
  - by apply step_run, run_producer.
  - by apply step_run, run_consumer.
  - by eapply step_call.
Qed.

End Iter.

(** ** A producer *)

(** The items of a list, one after the other. *)
Module ListProducer.
Section Items.
Context {D : Type} (d0 : D) (all : list D).

Definition producer : Producer (list D) D := {|
  next p old := match p with [] => Ok (false, old, []) | d :: ds => Ok (true, d, ds) end;
  beforefirst _ := Ok all;
  fresh _ := d0
|}.

Definition laws : @ProducerLaws _ _ producer D.
Proof.
  refine {| content d := [d]; items p := p; everything := all; p_ok _ := True; d_ok _ := True |}.
  - done.
  - intros p old _ _. destruct p as [|d p]; eexists _, _, _; split; done.
  - intros p _. by exists all.
Defined.

End Items.

(** A queue of one cell: the consumer sleeps, is woken with the first item, gives
    the cell back and takes the second, then starts again. *)
Definition turns : list actor :=
  [Calling Next; Producing; Producing; Producing; Producing; Consuming; Consuming; Producing; Producing; Calling Recycle; Consuming; Calling Next;
   Producing; Producing; Consuming; Consuming; Calling BeforeFirst; Producing; Producing; Consuming; Consuming].

Definition all : list nat := [10; 20].

(** As it goes, and from the second start to the end. *)
Definition shown (o : option (@state (list nat) nat)) : option (list (option nat) * list nat * list nat * list nat) :=
  match o with Some s => Some (log s, heap s, queue_ s, free_cells_ s) | None => None end.

Example plays :
  shown (play (Producer0 := producer 0 all) 1 false (take 16 turns) (init all)) = Some ([Some 10; Some 20], [10; 20], [], [0]).
Proof. vm_compute. reflexivity. Qed.

Example ends :
  shown (play (Producer0 := producer 0 all) 1 false (turns ++ [Producing; Producing; Producing; Producing; Calling Next; Consuming; Calling Recycle; Consuming;
    Calling Next; Producing; Producing; Producing; Producing; Consuming; Consuming; Producing; Calling Recycle; Consuming; Producing; Producing;
    Producing; Calling Next; Calling Next]) (init all)) = Some ([Some 10; Some 20; None; None], [10; 20], [], [1; 0]).
Proof. vm_compute. reflexivity. Qed.

(** The limit of the queue does not hold for free cells: with [max_capacity_] one
    and two cells made, both are filled. *)
Example over_capacity :
  shown (play (Producer0 := producer 0 [10; 20; 30]) 1 false [Producing; Producing; Producing; Producing; Calling Next; Consuming; Producing; Producing; Producing;
    Producing; Calling Recycle; Consuming; Producing; Producing; Producing] (init [10; 20; 30])) = Some ([Some 10], [30; 20], [1; 0], []).
Proof. vm_compute. reflexivity. Qed.

(** Three steps into [Next], with the consumer asleep and the item in its cell. *)
Lemma threaded_iter_sequence_witness : exists s, play (Producer0 := producer 0 all) 1 false (take 4 turns) (init all) = Some s /\
  at_c s = CNextSleep false /\ queue_ s = [0] /\ ~ fails (Producer0 := producer 0 all) 1 false s /\ length (heap s) <= 2.
Proof.
  destruct (play (Producer0 := producer 0 all) 1 false (take 4 turns) (init all)) as [s|] eqn:E; [|vm_compute in E; discriminate].
  pose proof (threaded_iter_sequence (LP := laws 0 all) 1 false all s I eq_refl (play_steps 1 false _ _ _ E)) as [Hf Hs].
  vm_compute in E. injection E as <-. eexists. split; [done|]. split; [done|]. split; [done|]. split; [exact Hf|]. apply Hs. discriminate.
Defined.

Lemma threaded_iter_calls_return_witness : exists s, play (Producer0 := producer 0 all) 1 false (take 4 turns) (init all) = Some s /\
  at_c s = CNextSleep false /\ sn (run (Producer0 := producer 0 all) 1 false) s.
Proof.
  destruct (play (Producer0 := producer 0 all) 1 false (take 4 turns) (init all)) as [s|] eqn:E; [|vm_compute in E; discriminate].
  pose proof (threaded_iter_calls_return (LP := laws 0 all) 1 false all s Nat.lt_0_1 I eq_refl (play_steps 1 false _ _ _ E)) as [Hn _].
  vm_compute in E. injection E as <-. eexists. split; [done|]. split; [done|exact Hn].
Defined.

End ListProducer.
