(* ===== verification/ThreadedParser.v ===== *)
(** * Parsing ahead

    Models [ThreadedParser] of src/dmlc-core/src/data/parser.h, which the minibatch
    reader puts around every parser: a [ThreadedIter] whose producer calls
    [ParseNext] of the parser, and whose owner goes through the containers of the
    vector it was given.  The steps of the parser interleave with those of the
    thread of the iterator. *)
From stdpp Require Import relations.
From S2P Require Import Prelude RowBlock ThreadedIter.

(** Where the owner is: not in a call, in the loop over the containers, behind the
    call of [Recycle], behind the call of [Next], in [BeforeFirst]. *)
Inductive tpc := TIdle | TScan | TRecycle | TNext | TRewind.
#[export] Instance tpc_dec : EqDecision tpc.
Proof. solve_decision. Defined.

Section ThreadedParser.
Context {F P : Type} `{!Producer P (list (Container F))} (max_capacity_ : nat).
Abbreviation chunk := (list (Container F)).
Abbreviation iter := (@state P chunk).

(** The members; [tmp_] is the cell that the owner of the iterator holds.  [shown]
    is what the calls of [Next] returned since the last [BeforeFirst], [stale] what
    was left of the vector in [tmp_] at that call. *)
Record tparser := mkTP {
  iter_ : iter; data_ptr_ : nat; data_end_ : nat; at_t : tpc; shown : list (option (RowBlock F)); stale : list (RowBlock F) }.

(** The constructor. *)
Definition new_ThreadedParser (base : P) : tparser := mkTP (init base) 0 0 TIdle [] [].

(** A call of the iterator, one that its owner may make. *)
Definition calling (c : call) (it : iter) : outcome iter :=
  o ← start_call true c it;
  match o with Some it => Ok it | None => Fail CheckFailed end.

(** The blocks of the containers that are not empty. *)
Definition block_of (c : Container F) : option (RowBlock F) :=
  if decide (Size c <> 0) then match GetBlock c with Ok b => Some b | Fail _ => None end else None.
Definition blocks_of (v : chunk) : list (RowBlock F) := omap block_of v.

(** A step inside [Next] or [BeforeFirst] of the parser; [None] when it waits for
    the iterator or is not in a call. *)
Definition parser_step (t : tparser) : outcome (option tparser) :=
  let it := t.(iter_) in
  match t.(at_t) with
  | TIdle => Ok None
  | TScan =>
      if decide (t.(data_ptr_) < t.(data_end_)) then
        match it.(out_data_) with
        | None => Fail OutOfRange
        | Some cell =>
            tmp ← read_at it.(heap) cell;
            c ← read_at tmp t.(data_ptr_);
            if decide (Size c <> 0)
            then block ← GetBlock c;
                 Ok (Some (mkTP it (t.(data_ptr_) + 1) t.(data_end_) TIdle (t.(shown) ++ [Some block]) t.(stale)))
            else Ok (Some (mkTP it (t.(data_ptr_) + 1) t.(data_end_) TScan t.(shown) t.(stale)))
        end
      else
        match it.(out_data_) with
        | Some _ => it ← calling Recycle it; Ok (Some (mkTP it t.(data_ptr_) t.(data_end_) TRecycle t.(shown) t.(stale)))
        | None => it ← calling Next it; Ok (Some (mkTP it t.(data_ptr_) t.(data_end_) TNext t.(shown) t.(stale)))
        end
  | TRecycle =>
      match it.(at_c) with
      | CIdle => it ← calling Next it; Ok (Some (mkTP it t.(data_ptr_) t.(data_end_) TNext t.(shown) t.(stale)))
      | _ => Ok None
      end
  | TNext =>
      match it.(at_c) with
      | CIdle =>
          match it.(out_data_) with
          | Some cell => tmp ← read_at it.(heap) cell; Ok (Some (mkTP it 0 (length tmp) TScan t.(shown) t.(stale)))
          | None => Ok (Some (mkTP it t.(data_ptr_) t.(data_end_) TIdle (t.(shown) ++ [None]) t.(stale)))
          end
      | _ => Ok None
      end
  | TRewind =>
      match it.(at_c) with
      | CIdle => Ok (Some (mkTP it t.(data_ptr_) t.(data_end_) TIdle t.(shown) t.(stale)))
      | _ => Ok None
      end
  end.

(** What is left of the vector in [tmp_]. *)
Definition left_over (t : tparser) : list (RowBlock F) :=
  match t.(iter_).(out_data_) with
  | Some _ => blocks_of (drop t.(data_ptr_) (default [] t.(iter_).(given)))
  | None => []
  end.

(** The start of [Next()] and of [BeforeFirst()], which does not look at [tmp_],
    [data_ptr_] and [data_end_]. *)
Definition parser_call (rewind : bool) (t : tparser) : outcome (option tparser) :=
  match t.(at_t) with
  | TIdle =>
      if rewind
      then it ← calling BeforeFirst t.(iter_); Ok (Some (mkTP it t.(data_ptr_) t.(data_end_) TRewind [] (left_over t)))
      else Ok (Some (mkTP t.(iter_) t.(data_ptr_) t.(data_end_) TScan t.(shown) t.(stale)))
  | _ => Ok None
  end.

Definition with_iter (it : iter) (t : tparser) : tparser :=
  mkTP it t.(data_ptr_) t.(data_end_) t.(at_t) t.(shown) t.(stale).

(** A step inside a call, of the parser or of the iterator. *)
Inductive trun : tparser -> tparser -> Prop :=
| trun_parser t t' : parser_step t = Ok (Some t') -> trun t t'
| trun_iter t it : run max_capacity_ true t.(iter_) it -> trun t (with_iter it t).

(** Any step: also a call, and a thread that wakes up although it was not notified. *)
Inductive tstep : tparser -> tparser -> Prop :=
| tstep_parser t t' : parser_step t = Ok (Some t') -> tstep t t'
| tstep_iter t it : quiet max_capacity_ true t.(iter_) it -> tstep t (with_iter it t)
| tstep_call rewind t t' : parser_call rewind t = Ok (Some t') -> tstep t t'.

Definition treachable (base : P) (t : tparser) : Prop := rtc tstep (new_ThreadedParser base) t.

(** Executions in which the owner rewinds only when nothing of the vector in hand is
    left, as at the start and behind a [Next] that returned [false]. *)
Inductive whole_step : tparser -> tparser -> Prop :=
| whole_parser t t' : parser_step t = Ok (Some t') -> whole_step t t'
| whole_iter t it : quiet max_capacity_ true t.(iter_) it -> whole_step t (with_iter it t)
| whole_call (rewind : bool) t t' : (rewind = true -> left_over t = []) -> parser_call rewind t = Ok (Some t') -> whole_step t t'.

Definition whole_passes (base : P) (t : tparser) : Prop := rtc whole_step (new_ThreadedParser base) t.

Definition tfails (t : tparser) : Prop :=
  fails max_capacity_ true t.(iter_) \/ (exists e, parser_step t = Fail e) \/ (exists rewind e, parser_call rewind t = Fail e).

(** ** What the owner sees *)
Context {LP : ProducerLaws (P := P) (D := chunk) chunk} (one_each : forall v : chunk, content v = [v]).
Abbreviation iter_inv := (inv max_capacity_).

Lemma units_each l : units l = l.
Proof using one_each. unfold units. induction l as [|v l IH]; [done|]. simpl. rewrite one_each, IH. done. Qed.

Lemma got_vectors it : iter_inv it -> it.(at_c) <> CGone -> got it `prefix_of` everything /\ (None ∈ it.(log) -> got it = everything) /\
  (forall c, it.(out_data_) = Some c -> exists d, it.(heap) !! c = Some d /\ it.(given) = Some d).
Proof using one_each.
  intros Hi Hg. destruct (got_facts _ _ Hi Hg) as ([H1 _] & H2 & H3). rewrite units_each in H1, H2. split_and!; try done.
  intros c Hc. destruct (H3 c Hc) as (d & ? & ? & _). by exists d.
Qed.

(** The parser makes containers whose blocks can be taken. *)
Context (blocks_ok : Forall (Forall (fun c : Container F => Size c <> 0 -> exists b, GetBlock c = Ok b)) everything).

Definition all_blocks (vs : list chunk) : list (RowBlock F) := concat (map blocks_of vs).

(** What the vector in [tmp_] still gives; all of it while [Next] of the iterator is
    not over. *)
Definition pending (t : tparser) : list (RowBlock F) :=
  match t.(iter_).(out_data_), t.(at_t) with
  | None, _ => []
  | Some _, TNext => blocks_of (default [] t.(iter_).(given))
  | Some _, _ => blocks_of (drop t.(data_ptr_) (default [] t.(iter_).(given)))
  end.

(** The cases of where the iterator is. *)
Ltac at_cases H :=
  repeat match type of H with
  | _ /\ _ => destruct H as [? H]
  | _ \/ _ => destruct H as [H|H]
  | exists _, _ => destruct H as [? H]
  end; try discriminate; eauto 10.

(** Where the iterator is when the parser is at a point. *)
Definition together (pc : tpc) (it : iter) : Prop :=
  match pc with
  | TIdle | TScan => it.(at_c) = CIdle
  | TRecycle => it.(out_data_) = None /\ (it.(at_c) = CIdle \/ exists b, it.(at_c) = CNotify b)
  | TNext => (it.(out_data_) = None /\ exists a, it.(at_c) = CNextSleep a) \/
             (is_Some it.(out_data_) /\ (it.(at_c) = CIdle \/ exists b, it.(at_c) = CNotify b)) \/
             (it.(out_data_) = None /\ it.(at_c) = CIdle /\ None ∈ it.(log))
  | TRewind => (it.(producer_sig_) = kBeforeFirst /\ exists a, it.(at_c) = CBFSleep a) \/
               (it.(log) = [] /\ (it.(at_c) = CIdle \/ (exists b, it.(at_c) = CNotify b) \/ exists a, it.(at_c) = CBFSleep a))
  end.

Record tinv (t : tparser) : Prop := {
  ti_iter : iter_inv t.(iter_);
  ti_good : forall v, t.(iter_).(given) = Some v -> v ∈ everything;
  ti_at : together t.(at_t) t.(iter_);
  ti_end : match t.(at_t), t.(iter_).(out_data_) with
           | TRecycle, _ | TNext, _ | _, None => t.(data_end_) <= t.(data_ptr_)
           | _, Some _ => t.(data_end_) = length (default [] t.(iter_).(given))
           end;
  ti_seq : exists bl k, t.(shown) = map Some bl ++ replicate k None /\
    (0 < k -> got t.(iter_) = everything /\ t.(iter_).(out_data_) = None) /\
    if decide (t.(at_t) = TRewind) then bl = [] /\ k = 0 /\ pending t = t.(stale)
    else bl ++ pending t = t.(stale) ++ all_blocks (got t.(iter_))
}.

Lemma together_alive t : tinv t -> t.(iter_).(at_c) <> CGone /\ t.(iter_).(at_c) <> CJoin.
Proof. intros [_ _ H _ _]. destruct (at_t t); simpl in H; (split; intros E; rewrite E in H; naive_solver). Qed.

(** When the iterator only changes what the owner does not see, nothing changes. *)
Lemma tinv_same t it : tinv t -> iter_inv it -> same_hand t.(iter_) it -> it.(log) = t.(iter_).(log) -> together t.(at_t) it -> tinv (with_iter it t).
Proof.
  intros [_ H2 _ H4 (bl & k & A & B & C)] Hi [Ho Hg] Hl Ht. split; cbn [with_iter iter_ at_t data_ptr_ data_end_ shown stale]; try done.
  - by rewrite Hg.
  - by rewrite Ho, Hg.
  - exists bl, k. unfold got, pending in *. cbn [with_iter iter_ at_t data_ptr_ data_end_ shown stale]. rewrite Hl, Ho, Hg. done.
Qed.

(** An item that [Next] took is the next one; without one there is none left. *)
Lemma took_item s s' : iter_inv s' -> took s s' ->
  (exists c v, s'.(out_data_) = Some c /\ s'.(given) = Some v /\ got s' = got s ++ [v] /\ v ∈ everything /\ got s <> everything) \/
  (same_hand s s' /\ s'.(at_c) = CIdle /\ got s' = got s /\ None ∈ s'.(log)).
Proof.
  intros Hi [(c & v & b & E1 & E2 & E3 & E4)|(E1 & E2 & E3)].
  - left. exists c, v. destruct (got_vectors s' Hi) as ([r Hpre] & _); [congruence|].
    assert (got s' = got s ++ [v]) as Hg by (unfold got; rewrite E4, omap_app; done). rewrite Hg in Hpre. split_and!; try done.
    + rewrite Hpre, !elem_of_app. left. right. by apply list_elem_of_singleton.
    + intros Hall. apply (f_equal length) in Hpre. rewrite <- Hall, !length_app in Hpre. simpl in Hpre. lia.
  - right. split; [done|]. split; [done|]. unfold got. rewrite E3, omap_app. simpl. rewrite app_nil_r. split; [done|].
    rewrite elem_of_app. right. by apply list_elem_of_singleton.
Qed.

Lemma all_blocks_app vs v : all_blocks (vs ++ [v]) = all_blocks vs ++ blocks_of v.
Proof. unfold all_blocks. rewrite map_app, concat_app. simpl. by rewrite app_nil_r. Qed.

(** [Next] of the iterator, once it has taken something or nothing. *)
Lemma tinv_took t it : tinv t -> t.(at_t) <> TRewind -> t.(data_end_) <= t.(data_ptr_) -> t.(iter_).(out_data_) = None -> iter_inv it -> took t.(iter_) it ->
  tinv (mkTP it t.(data_ptr_) t.(data_end_) TNext t.(shown) t.(stale)).
Proof.
  intros [_ H2 _ H4 (bl & k & A & B & C)] Hpc Hend Hout Hi Ht. rewrite decide_False in C by done.
  assert (bl = stale t ++ all_blocks (got (iter_ t))) as Hbl by (unfold pending in C; rewrite Hout, app_nil_r in C; done).
  destruct (took_item _ _ Hi Ht) as [(c & v & E1 & E2 & E3 & E4 & E5)|([E1 E2] & E3 & E4 & E5)].
  - split; cbn [iter_ at_t data_ptr_ data_end_ shown stale]; try done.
    + by intros v' [= <-]%(eq_trans (eq_sym E2)).
    + right. left. split; [by rewrite E1|]. destruct Ht as [(_ & _ & b & -> & _)|(-> & _)]; [right; eauto|by left].
    + exists bl, k. split; [done|]. split; [intros Hk; by destruct (B Hk)|]. unfold pending. cbn [iter_ at_t data_ptr_ data_end_ shown stale].
      rewrite E1, E2, E3, all_blocks_app, app_assoc. by rewrite <- Hbl.
  - split; cbn [iter_ at_t data_ptr_ data_end_ shown stale]; try done.
    + by rewrite E2.
    + do 2 right. by rewrite E1, Hout.
    + exists bl, k. split; [done|]. rewrite E4, E1. split; [done|]. unfold pending. cbn [iter_ at_t data_ptr_ data_end_ shown stale].
      by rewrite E1, Hout, app_nil_r.
Qed.

Lemma tinv_iter t it : tinv t -> quiet max_capacity_ true t.(iter_) it -> tinv (with_iter it t).
Proof.
  intros Ht Hq. pose proof (ti_iter t Ht) as Hi. pose proof (ti_at t Ht) as Hat. destruct (together_alive t Ht) as [_ Hj].
  assert (iter_inv it) as Hi' by (eapply inv_step; [exact Hi|by apply quiet_step]).
  destruct (quiet_frame _ _ _ _ (iv_control _ _ Hi) Hq) as [(H1 & H2 & H3 & H4)|[(H1 & (a & a' & H2 & H3) & H4)|[([a H1] & H2)|[((a & b & H1 & H2) & H3 & H4 & H5)|[([b H1] & H2 & H3 & H4)|]]]]]; [| | | | |done].
  - apply tinv_same; try done. destruct H1 as [H1 _]. unfold together in *. rewrite H1, H3, H4.
    destruct (at_t t); unfold same_call in H2; destruct (at_c (iter_ t)); naive_solver.
  - assert (at_t t = TRewind) as Epc by (unfold together in Hat; rewrite H2 in Hat; destruct (at_t t); naive_solver).
    destruct H1 as [Ho Hg], H4 as (_ & _ & Hl), Ht as [_ T2 _ T4 (bl & k & A & B & C)]. unfold pending in C. rewrite Epc in C, T4. cbn [decide tpc_dec] in C.
    destruct C as (-> & -> & C). split; cbn [with_iter iter_ at_t data_ptr_ data_end_ shown stale]; rewrite ?Epc; try done.
    + by rewrite Hg.
    + right. split; [done|]. right. right. eauto.
    + by rewrite Ho, Hg.
    + exists [], 0. split; [done|]. split; [lia|]. rewrite decide_True by done. unfold pending. cbn [with_iter iter_ at_t data_ptr_ data_end_ shown stale].
      by rewrite Ho, Hg, Epc.
  - assert (at_t t = TNext /\ out_data_ (iter_ t) = None) as [Epc Eo] by (unfold together in Hat; rewrite H1 in Hat; destruct (at_t t); at_cases Hat).
    pose proof (ti_end t Ht) as He. rewrite Epc in He. unfold with_iter. rewrite Epc. apply tinv_took; try done. congruence.
  - apply tinv_same; try done. unfold together in *. rewrite H1 in Hat. rewrite H2, H4. destruct (at_t t); at_cases Hat; congruence.
  - apply tinv_same; try done. destruct H3 as [H3 _]. unfold together in *. rewrite H1 in Hat. rewrite H2, H3, H4. destruct (at_t t); at_cases Hat.
Qed.

(** The containers of a vector that the parser made can be looked at. *)
Lemma scan_block t v c : tinv t -> t.(iter_).(given) = Some v -> v !! t.(data_ptr_) = Some c ->
  (Size c <> 0 -> exists b, GetBlock c = Ok b) /\
  blocks_of (drop t.(data_ptr_) v) = option_list (block_of c) ++ blocks_of (drop (t.(data_ptr_) + 1) v).
Proof.
  intros Ht Hv Hc. split.
  - pose proof (ti_good t Ht v Hv) as Hin. rewrite Forall_forall in blocks_ok. specialize (blocks_ok v Hin).
    rewrite Forall_forall in blocks_ok. apply blocks_ok. by eapply list_elem_of_lookup_2.
  - rewrite (drop_S _ _ _ Hc), Nat.add_1_r. unfold blocks_of. simpl. by destruct (block_of c).
Qed.

Lemma shown_more (l : list (RowBlock F)) b : map Some l ++ [Some b] = map Some (l ++ [b]).
Proof. by rewrite map_app. Qed.

(** In the loop, at a container. *)
Lemma parser_scan t : tinv t -> t.(at_t) = TScan -> t.(data_ptr_) < t.(data_end_) -> exists t', parser_step t = Ok (Some t') /\ tinv t'.
Proof.
  intros Ht Epc Hlt. pose proof Ht as [T1 T2 T3 T4 (bl & k & A & B & C)]. unfold parser_step. rewrite Epc in *. rewrite decide_True by done. simpl in T3.
  destruct (out_data_ (iter_ t)) as [cell|] eqn:Eo; [|lia].
  destruct (got_vectors _ T1) as (_ & _ & Hh); [congruence|]. destruct (Hh cell Eo) as (v & Hv & Hgv).
  assert (read_at (heap (iter_ t)) cell = Ok v) as -> by (unfold read_at; by rewrite Hv). cbn [mbind outcome_bind]. rewrite Hgv in T4. simpl in T4.
  destruct (lookup_lt_is_Some_2 v (data_ptr_ t)) as [c Hc]; [lia|]. assert (read_at v (data_ptr_ t) = Ok c) as -> by (unfold read_at; by rewrite Hc). cbn [mbind outcome_bind].
  destruct (scan_block t v c Ht Hgv Hc) as [Hb Hdrop].
  assert (k = 0) as -> by (destruct k; [done|destruct (B ltac:(lia)); congruence]). cbn [replicate] in A. rewrite app_nil_r in A.
  rewrite decide_False in C by congruence. unfold pending in C. rewrite Eo, Epc, Hgv in C. cbn [default from_option id] in C. rewrite Hdrop in C. unfold block_of in C.
  destruct (decide (Size c <> 0)) as [Hs|Hs].
  - destruct (Hb Hs) as [b Eb]. rewrite Eb in C |- *. cbn [mbind outcome_bind]. eexists. split; [done|].
    split; cbn [iter_ at_t data_ptr_ data_end_ shown stale]; try done; [by rewrite Eo, Hgv|].
    exists (bl ++ [b]), 0. rewrite A, shown_more. cbn [replicate]. rewrite app_nil_r. split; [done|]. split; [lia|].
    unfold pending. cbn [iter_ at_t data_ptr_ data_end_ shown stale decide tpc_dec]. rewrite Eo, Hgv. simpl. rewrite <- app_assoc. done.
  - eexists. split; [done|]. split; cbn [iter_ at_t data_ptr_ data_end_ shown stale]; try done; [by rewrite Eo, Hgv|].
    exists bl, 0. rewrite A. cbn [replicate]. rewrite app_nil_r. split; [done|]. split; [lia|].
    unfold pending. cbn [iter_ at_t data_ptr_ data_end_ shown stale]. rewrite Eo, Hgv. exact C.
Qed.

Ltac tcbn := cbn [iter_ at_t data_ptr_ data_end_ shown stale].

Lemma called_inv c it it' : iter_inv it -> start_call true c it = Ok (Some it') -> iter_inv it'.
Proof. intros Hi E. eapply (inv_step max_capacity_ true); [exact Hi|]. by eapply step_call. Qed.

(** The call of [Next] of the iterator. *)
Lemma parser_next_call t : tinv t -> t.(at_t) <> TRewind -> t.(iter_).(at_c) = CIdle -> t.(iter_).(out_data_) = None -> t.(data_end_) <= t.(data_ptr_) ->
  exists it, calling Next t.(iter_) = Ok it /\ tinv (mkTP it t.(data_ptr_) t.(data_end_) TNext t.(shown) t.(stale)).
Proof.
  intros Ht Hpc Ec Eo Hend. destruct (Next_call max_capacity_ true _ (ti_iter t Ht) Ec Eo) as (it & E & Hit). exists it. unfold calling. rewrite E. split; [done|].
  assert (iter_inv it) as Hi by (eapply called_inv; [apply Ht|exact E]).
  destruct Hit as [Htook|(H1 & [H2 H2'] & H3)]; [by apply tinv_took|]. destruct Ht as [_ T2 _ _ (bl & k & A & B & C)].
  split; tcbn; try done; [by rewrite H2'|left; rewrite H2; eauto|]. exists bl, k. split; [done|]. rewrite H2. unfold got in *. rewrite H3. split; [done|].
  rewrite decide_False in C by done. unfold pending in *. tcbn. rewrite H2. rewrite Eo in *. done.
Qed.

(** The call of [Recycle], behind the last container. *)
Lemma parser_recycle_call t cell : tinv t -> t.(at_t) = TScan -> t.(iter_).(out_data_) = Some cell -> t.(data_end_) <= t.(data_ptr_) ->
  exists it, calling Recycle t.(iter_) = Ok it /\ tinv (mkTP it t.(data_ptr_) t.(data_end_) TRecycle t.(shown) t.(stale)).
Proof.
  intros Ht Epc Eo Hend. pose proof Ht as [T1 T2 T3 T4 (bl & k & A & B & C)]. rewrite Epc, Eo in T4. rewrite Epc in T3. simpl in T3.
  destruct (Recycle_call true _ _ T3 Eo) as (it & b & E & H1 & H2 & H3 & H4). exists it. unfold calling. rewrite E. split; [done|].
  split; tcbn; try done; [by eapply called_inv|by rewrite H3|simpl; eauto|]. exists bl, k. split; [done|]. unfold got. rewrite H4. split.
  { intros Hk. by destruct (B Hk). }
  rewrite decide_False in C by congruence. unfold pending in *. tcbn. rewrite H2. rewrite Eo, Epc, drop_ge in C by lia. done.
Qed.

(** Behind [Next] of the iterator. *)
Lemma parser_next_back t : tinv t -> t.(at_t) = TNext -> t.(iter_).(at_c) = CIdle -> exists t', parser_step t = Ok (Some t') /\ tinv t'.
Proof.
  intros Ht Epc Ec. pose proof Ht as [T1 T2 T3 T4 (bl & k & A & B & C)]. destruct (got_vectors _ T1) as (_ & Hnone & Hh); [congruence|].
  unfold parser_step. rewrite Epc, Ec in *. rewrite decide_False in C by congruence. unfold pending in C. rewrite Epc in C.
  destruct (out_data_ (iter_ t)) as [cell|] eqn:Eo.
  - destruct (Hh cell eq_refl) as (v & Hv & Hgv). assert (read_at (heap (iter_ t)) cell = Ok v) as -> by (unfold read_at; by rewrite Hv).
    cbn [mbind outcome_bind]. eexists. split; [done|]. split; tcbn; try done; [by rewrite Eo, Hgv|]. exists bl, k. rewrite Eo. split; [done|]. split; [done|].
    unfold pending. tcbn. rewrite Eo. exact C.
  - eexists. split; [done|]. simpl in T3. split; tcbn; try done; [by rewrite Eo|].
    assert (got (iter_ t) = everything) as Hall.
    { apply Hnone. rewrite Ec, Eo in T3. destruct T3 as [(_ & a & ?)|[([? ?] & _)|(_ & _ & ?)]]; done. }
    exists bl, (S k). rewrite A, <- app_assoc, replicate_S_end. split; [done|]. split; [done|]. unfold pending. tcbn. rewrite Eo. exact C.
Qed.

Lemma parser_ok t : tinv t -> exists o, parser_step t = Ok o /\ (forall t', o = Some t' -> tinv t') /\
  (o = None -> t.(at_t) = TIdle \/ t.(iter_).(at_c) <> CIdle).
Proof.
  intros Ht. destruct (at_t t) eqn:Epc.
  - exists None. unfold parser_step. rewrite Epc. split_and!; auto; done.
  - destruct (decide (data_ptr_ t < data_end_ t)) as [Hlt|Hge].
    { destruct (parser_scan t Ht Epc Hlt) as (t' & E & Ht'). exists (Some t'). split_and!; [done|congruence|done]. }
    unfold parser_step. rewrite Epc, decide_False by done. pose proof (ti_at t Ht) as Hat. rewrite Epc in Hat. destruct (out_data_ (iter_ t)) as [cell|] eqn:Eo.
    + destruct (parser_recycle_call t cell Ht Epc Eo) as (it & -> & Ht'); [lia|]. eexists. split; [done|]. split; [congruence|done].
    + destruct (parser_next_call t Ht) as (it & -> & Ht'); [congruence|done|done|lia|]. eexists. split; [done|]. split; [congruence|done].
  - unfold parser_step. rewrite Epc. pose proof (ti_at t Ht) as Hat. pose proof (ti_end t Ht) as He. rewrite Epc in Hat, He. destruct Hat as [Eo _].
    destruct (at_c (iter_ t)) eqn:Ec; try (eexists; split; [done|]; split; [done|]; by right).
    destruct (parser_next_call t Ht) as (it & -> & Ht'); [congruence|done|done|done|]. eexists. split; [done|]. split; [congruence|done].
  - destruct (at_c (iter_ t)) eqn:Ec; try (unfold parser_step; rewrite Epc, Ec; eexists; split; [done|]; split; [done|]; by right).
    destruct (parser_next_back t Ht Epc Ec) as (t' & E & Ht'). exists (Some t'). split_and!; [done|congruence|done].
  - unfold parser_step. rewrite Epc. destruct (at_c (iter_ t)) eqn:Ec; try (eexists; split; [done|]; split; [done|]; by right).
    eexists. split; [done|]. split; [|done]. intros t' [= <-]. pose proof Ht as [T1 T2 T3 T4 (bl & k & A & B & C)]. rewrite Epc in *.
    split; tcbn; try done. rewrite decide_True in C by done. destruct C as (-> & -> & C). exists [], 0. split; [done|]. split; [lia|].
    unfold pending in *. tcbn. rewrite Epc in C. simpl in T3. assert (log (iter_ t) = []) as Hl by (rewrite Ec in T3; destruct T3 as [(_ & a & ?)|[? _]]; done).
    unfold got. rewrite Hl. simpl. by rewrite app_nil_r.
Qed.

Lemma parser_call_ok rewind t : tinv t -> exists o, parser_call rewind t = Ok o /\ forall t', o = Some t' -> tinv t'.
Proof.
  intros Ht. unfold parser_call. destruct (at_t t) eqn:Epc; try by exists None. pose proof Ht as [T1 T2 T3 T4 (bl & k & A & B & C)]. rewrite Epc in *. simpl in T3.
  destruct rewind.
  - destruct (BeforeFirst_call max_capacity_ true (iter_ t)) as (it & E & H1 & [H2 H2'] & H3); [done|done|done|]. unfold calling. rewrite E. cbn [mbind outcome_bind].
    eexists. split; [done|]. intros t' [= <-]. split; tcbn; try done; [by eapply called_inv|by rewrite H2'|left; eauto|by rewrite H2, H2'|].
    exists [], 0. split; [done|]. split; [lia|]. rewrite decide_True by done. split_and!; try done. unfold pending, left_over. tcbn. by rewrite H2, H2'.
  - eexists. split; [done|]. intros t' [= <-]. split; tcbn; try done. exists bl, k. split; [done|]. split; [done|].
    unfold pending in *. tcbn. rewrite Epc in C. done.
Qed.

Lemma tinv_init base : p_ok base -> items base = everything -> tinv (new_ThreadedParser base).
Proof.
  intros Hok Hb. split; simpl; try done; [by apply inv_init|]. exists [], 0. simpl. split_and!; try done. lia.
Qed.

Lemma tinv_step t t' : tinv t -> tstep t t' -> tinv t'.
Proof.
  intros Ht Hs. destruct Hs as [t t' E|t it Hq|rewind t t' E].
  - destruct (parser_ok t Ht) as (o & E' & Hn & _). apply Hn. congruence.
  - by apply tinv_iter.
  - destruct (parser_call_ok rewind t Ht) as (o & E' & Hn). apply Hn. congruence.
Qed.

Lemma tinv_reachable base t : p_ok base -> items base = everything -> treachable base t -> tinv t.
Proof.
  intros Hok Hb Hr. assert (tinv (new_ThreadedParser base)) as Hi by by apply tinv_init. induction Hr as [|t1 t2 t3 H12 _ IH]; [done|].
  apply IH. by eapply tinv_step.
Qed.

Lemma tinv_not_fails t : tinv t -> ~ tfails t.
Proof.
  intros Ht [Hf|[[e E]|(r & e & E)]].
  - by apply (inv_not_fails max_capacity_ true _ (ti_iter t Ht)).
  - destruct (parser_ok t Ht) as (o & E' & _). congruence.
  - destruct (parser_call_ok r t Ht) as (o & E' & _). congruence.
Qed.

(** ** Calls end *)

(** Items that the parser does not have yet; the rest of a call; the rest of the
    iterator's work and of the loop. *)
Definition to_fetch (t : tparser) : nat :=
  match t.(at_t), t.(iter_).(producer_sig_), t.(iter_).(out_data_) with
  | TRewind, kBeforeFirst, _ => length everything + 1
  | TNext, _, Some _ => length everything - length (got t.(iter_)) + 1
  | _, _, _ => length everything - length (got t.(iter_))
  end.
Definition trank (pc : tpc) : nat := match pc with TIdle => 0 | TScan => 3 | TRecycle => 2 | TNext | TRewind => 1 end.
Definition to_do (t : tparser) : nat := work t.(iter_) + (t.(data_end_) - t.(data_ptr_)).

Definition lower (t' t : tparser) : Prop :=
  to_fetch t' < to_fetch t \/ to_fetch t' = to_fetch t /\ (trank t'.(at_t) < trank t.(at_t) \/ trank t'.(at_t) = trank t.(at_t) /\ to_do t' < to_do t).

Lemma lower_wf : well_founded lower.
Proof.
  assert (forall a b c t, to_fetch t = a -> trank (at_t t) = b -> to_do t = c -> Acc lower t) as Hall; [|intros t; by eapply Hall].
  intros a. induction (lt_wf a) as [a _ IHa]. intros b. induction (lt_wf b) as [b _ IHb]. intros c. induction (lt_wf c) as [c _ IHc].
  intros t <- <- <-. constructor. intros t' [H|[E1 [H|[E2 H]]]].
  - by eapply (IHa _ H).
  - by eapply (IHb _ H).
  - by eapply (IHc _ H).
Qed.

Lemma not_before_first t : tinv t -> t.(iter_).(at_c) = CIdle \/ (exists b, t.(iter_).(at_c) = CNotify b) \/ (exists a, t.(iter_).(at_c) = CNextSleep a) ->
  t.(iter_).(producer_sig_) = kProduce.
Proof. intros Ht H. destruct (iv_control _ _ (ti_iter t Ht)) as [_ _ Hc _ _]. destruct H as [E|[[b E]|[a E]]]; rewrite E in Hc; apply Hc. Qed.

(** Taking an item does not change what the parser does not have. *)
Lemma took_fetch s s' : iter_inv s -> iter_inv s' -> took s s' -> s.(out_data_) = None ->
  length everything - length (got s) =
  match s'.(out_data_) with Some _ => length everything - length (got s') + 1 | None => length everything - length (got s') end.
Proof.
  intros Hi Hi' Ht Ho. pose proof (took_item s s' Hi' Ht) as Hitem. destruct Hitem as [(c & v & E1 & _ & E3 & _)|([E1 _] & _ & E3 & _)].
  - destruct (got_vectors s' Hi') as (Hpre & _). { destruct Ht as [(_ & _ & b & -> & _)|(-> & _)]; done. }
    apply prefix_length in Hpre. rewrite E1. rewrite E3, length_app in *. simpl in *. lia.
  - by rewrite E1, Ho, E3.
Qed.

Lemma lower_iter t it : tinv t -> run max_capacity_ true t.(iter_) it -> lower (with_iter it t) t.
Proof.
  intros Ht Hr. pose proof (ti_iter t Ht) as Hi. pose proof (ti_at t Ht) as Hat. destruct (together_alive t Ht) as [_ Hj].
  assert (tinv (with_iter it t)) as Ht' by (by apply tinv_iter, quiet_run).
  assert (to_do (with_iter it t) < to_do t) as Hdo by (unfold to_do; simpl; pose proof (work_run _ _ _ _ Hi Hr); lia).
  assert (to_fetch (with_iter it t) <= to_fetch t) as Hfetch; [|unfold lower; simpl; lia].
  destruct (quiet_frame _ _ _ _ (iv_control _ _ Hi) (quiet_run _ _ _ _ Hr)) as [([H1 _] & H2 & H3 & H4)|[(_ & (a & a' & H2 & H3) & H4)|[([a H1] & H2)|[((a & b & H1 & H2) & [H3 _] & H4 & H5)|[([b H1] & H2 & [H3 _] & H4)|]]]]]; [| | | | |done].
  - unfold to_fetch, got. simpl. by rewrite H1, H3, H4.
  - assert (at_t t = TRewind) as Epc by (unfold together in Hat; rewrite H2 in Hat; destruct (at_t t); at_cases Hat).
    destruct H4 as (S1 & S2 & _). unfold to_fetch. simpl. rewrite Epc, S1, S2. lia.
  - assert (at_t t = TNext /\ out_data_ (iter_ t) = None) as [Epc Eo] by (unfold together in Hat; rewrite H1 in Hat; destruct (at_t t); at_cases Hat).
    pose proof (took_fetch _ _ Hi (ti_iter _ Ht') H2 Eo) as Hf. unfold to_fetch. simpl in *. rewrite Epc, Eo. destruct (out_data_ it); lia.
  - pose proof (not_before_first _ Ht') as Hs. simpl in Hs. unfold to_fetch, got. simpl. rewrite H3, H4, H5, Hs by eauto. done.
  - pose proof (not_before_first _ Ht') as Hs. pose proof (not_before_first _ Ht) as Hs0. simpl in Hs. unfold to_fetch, got. simpl.
    rewrite H3, H4, Hs, Hs0 by eauto. done.
Qed.

(** A call of [Next] of the iterator does not fetch, it only asks. *)
Lemma next_call_fetch t it : tinv t -> t.(at_t) <> TRewind -> t.(iter_).(at_c) = CIdle -> t.(iter_).(out_data_) = None -> calling Next t.(iter_) = Ok it ->
  to_fetch (mkTP it t.(data_ptr_) t.(data_end_) TNext t.(shown) t.(stale)) = to_fetch t.
Proof.
  intros Ht Hpc Ec Eo E. pose proof (ti_iter t Ht) as Hi. destruct (Next_call max_capacity_ true _ Hi Ec Eo) as (it' & E' & Hit).
  unfold calling in E. rewrite E' in E. injection E as <-. pose proof (called_inv _ _ _ Hi E') as Hi'. unfold to_fetch. simpl. rewrite Eo.
  replace (match at_t t with TRewind => _ | _ => _ end) with (length everything - length (got (iter_ t))) by (by destruct (at_t t)).
  destruct Hit as [Htook|(_ & [H2 _] & H3)]; [symmetry; by apply took_fetch|]. rewrite H2, Eo. unfold got. by rewrite H3.
Qed.

Lemma lower_parser t t' : tinv t -> parser_step t = Ok (Some t') -> lower t' t.
Proof.
  intros Ht E. pose proof (ti_iter t Ht) as Hi. pose proof (ti_at t Ht) as Hat. pose proof (not_before_first t Ht) as Hs. pose proof (ti_end t Ht) as He.
  unfold parser_step in E. destruct (at_t t) eqn:Epc; [discriminate|..].
  - simpl in Hat. destruct (decide (data_ptr_ t < data_end_ t)) as [Hlt|Hge]; destruct (out_data_ (iter_ t)) as [cell|] eqn:Eo; try discriminate.
    + destruct (read_at (heap (iter_ t)) cell) as [v|]; [|done]. cbn [mbind outcome_bind] in E. destruct (read_at v (data_ptr_ t)) as [c|]; [|done].
      cbn [mbind outcome_bind] in E. destruct (decide (Size c <> 0)).
      * destruct (GetBlock c); [|done]. injection E as <-. right. unfold to_fetch. simpl. rewrite Epc, ?Eo. simpl. lia.
      * injection E as <-. right. unfold to_fetch, to_do. simpl. rewrite Epc, ?Eo. simpl. lia.
    + destruct (Recycle_call true _ _ Hat Eo) as (it & b & E' & _ & H2 & _ & H4). unfold calling in E. rewrite E' in E. injection E as <-.
      right. unfold to_fetch, got. simpl. rewrite Epc, ?Eo, ?H2, H4. simpl. lia.
    + destruct (calling Next (iter_ t)) as [it|] eqn:En; [|done]. injection E as <-. right. rewrite (next_call_fetch t) by (congruence || done). simpl. rewrite Epc. simpl. lia.
  - destruct (at_c (iter_ t)) eqn:Ec; try discriminate. destruct Hat as [Eo _].
    destruct (calling Next (iter_ t)) as [it|] eqn:En; [|done]. injection E as <-. right. rewrite (next_call_fetch t) by (congruence || done). simpl. rewrite Epc. simpl. lia.
  - destruct (at_c (iter_ t)) eqn:Ec; try discriminate. destruct (out_data_ (iter_ t)) as [cell|] eqn:Eo.
    + destruct (read_at (heap (iter_ t)) cell) as [v|]; [|done]. injection E as <-. left. unfold to_fetch. simpl. rewrite Epc, ?Eo. simpl. lia.
    + injection E as <-. right. unfold to_fetch. simpl. rewrite Epc, ?Eo. simpl. lia.
  - destruct (at_c (iter_ t)) eqn:Ec; try discriminate. injection E as <-. right. unfold to_fetch. simpl. rewrite Epc, Hs by auto. simpl. lia.
Qed.

Lemma trun_step t t' : trun t t' -> tstep t t'.
Proof. intros H. destruct H as [t t' E|t it H]; [by apply tstep_parser|by apply tstep_iter, quiet_run]. Qed.

Lemma trun_ends t : tinv t -> sn trun t.
Proof.
  induction (lower_wf t) as [t _ IH]. intros Ht. constructor. intros t' Hr. apply IH; [|by eapply tinv_step, trun_step].
  destruct Hr as [t t' E|t it H]; [by apply lower_parser|by apply lower_iter].
Qed.

Lemma tinv_run t t' : tinv t -> rtc trun t t' -> tinv t'.
Proof. intros Ht Hr. induction Hr as [|t1 t2 t3 H12 _ IH]; [done|]. apply IH. by eapply tinv_step, trun_step. Qed.

Lemma parser_step_stale t t' : parser_step t = Ok (Some t') -> t'.(stale) = t.(stale).
Proof. unfold parser_step. intros E. repeat (case_match || ok_step || simplify_eq/=); done. Qed.

Lemma whole_stale base t : whole_passes base t -> t.(stale) = [].
Proof.
  unfold whole_passes. intros H. remember (new_ThreadedParser base) as t0 eqn:E. assert (stale t0 = []) as H0 by by subst. clear E.
  induction H as [|t1 t2 t3 H12 _ IH]; [exact H0|]. apply IH. destruct H12 as [t t' E|t it _|[] t t' Hl E];
    [by rewrite (parser_step_stale _ _ E)|exact H0|..].
  - unfold parser_call in E. destruct (at_t t); try done. destruct (calling BeforeFirst (iter_ t)); [|done]. simplify_eq/=. by apply Hl.
  - unfold parser_call in E. by destruct (at_t t); simplify_eq/=.
Qed.

(** C14: whatever the thread of the iterator and the parser do, in any interleaving
    and with [BeforeFirst] called between any two calls, neither fails, every
    execution without a new call ends, and then the call has returned.  In an
    execution that rewinds only when nothing of the vector in hand is left, as it
    is at the start and behind a [Next] that returned [false], the blocks that
    [Next] returned since the last [BeforeFirst] are the first ones, in order, of
    the blocks of the parser inside, those of its containers that are not empty,
    and [false] is returned behind all of them only.  In any other execution the
    rest of the vector that was in hand at the last [BeforeFirst], [stale], comes
    before them. *)
Theorem threaded_parser_blocks base t : 0 < max_capacity_ -> p_ok base -> items base = everything -> treachable base t ->
  ~ tfails t /\
  (exists bl k, t.(shown) = map Some bl ++ replicate k None /\
    (whole_passes base t -> bl `prefix_of` all_blocks everything /\ (0 < k -> bl = all_blocks everything)) /\
    bl `prefix_of` t.(stale) ++ all_blocks everything /\
    (0 < k -> bl = t.(stale) ++ all_blocks everything /\ left_over t = [])) /\
  sn trun t /\ forall t', rtc trun t t' -> nf trun t' -> t'.(at_t) = TIdle.
Proof.
  intros Hcap Hok Hb Hr. pose proof (tinv_reachable base t Hok Hb Hr) as Ht. split; [by apply tinv_not_fails|]. split; [|split; [by apply trun_ends|]].
  - destruct (got_vectors _ (ti_iter t Ht)) as ([r Hpre] & _); [apply (together_alive t Ht)|]. destruct Ht as [_ _ _ _ (bl & k & A & B & C)].
    exists bl, k. split; [done|].
    enough (bl `prefix_of` stale t ++ all_blocks everything /\ (0 < k -> bl = stale t ++ all_blocks everything /\ left_over t = [])) as [H1 H2].
    { split; [|done]. intros Hw. rewrite (whole_stale base t Hw) in H1, H2. split; [done|]. intros Hk. by destruct (H2 Hk). }
    destruct (decide (at_t t = TRewind)).
    + destruct C as (-> & -> & _). split; [apply prefix_nil|lia].
    + split.
      * rewrite Hpre. unfold all_blocks in *. rewrite map_app, concat_app, app_assoc, <- C, <- app_assoc. by eexists.
      * intros Hk. destruct (B Hk) as [Hall Eo]. unfold pending in C. rewrite Eo, app_nil_r in C. unfold left_over. by rewrite Eo, <- Hall.
  - intros t' Hrun Hnf. pose proof (tinv_run t t' Ht Hrun) as Ht'. destruct (parser_ok t' Ht') as ([t''|] & E & _ & Ho).
    + exfalso. apply Hnf. exists t''. by apply trun_parser.
    + destruct (Ho eq_refl) as [|Hc]; [done|]. exfalso. destruct (together_alive t' Ht') as [Hg _].
      destruct (busy_runs max_capacity_ true _ Hcap (ti_iter t' Ht') Hc Hg) as [it ?]. apply Hnf. eexists. by apply trun_iter.
Qed.

(** An execution in which the named part makes each step. *)
Inductive tactor := Parsing | Calling (rewind : bool) | Inside (a : actor).
Fixpoint tplay (turns : list tactor) (t : tparser) : option tparser :=
  match turns with
  | [] => Some t
  | a :: turns =>
      match match a with
            | Parsing => parser_step t
            | Calling rewind => parser_call rewind t
            | Inside Consuming => o ← consumer_step true t.(iter_); Ok (option_map (fun it => with_iter it t) o)
            | Inside _ => o ← producer_step max_capacity_ t.(iter_); Ok (option_map (fun it => with_iter it t) o)
            end with
      | Ok (Some t) => tplay turns t
      | _ => None
      end
  end.

Lemma tplay_steps turns t t' : tplay turns t = Some t' -> rtc tstep t t'.
Proof.
  induction turns as [|a turns IH] in t |- *; [by intros [= ->]|]. cbn [tplay]. intros E.
  destruct a as [|r|a].
  - destruct (parser_step t) as [[t1|]|] eqn:E1; try done. eapply rtc_l; [|by apply IH]. by apply tstep_parser.
  - destruct (parser_call r t) as [[t1|]|] eqn:E1; try done. eapply rtc_l; [|by apply IH]. by eapply tstep_call.
  - destruct a; [destruct (producer_step max_capacity_ (iter_ t)) as [[it|]|] eqn:E1|destruct (consumer_step true (iter_ t)) as [[it|]|] eqn:E1
      |destruct (producer_step max_capacity_ (iter_ t)) as [[it|]|] eqn:E1]; try done;
      cbn [mbind outcome_bind option_map] in E; (eapply rtc_l; [|exact (IH _ E)]); apply tstep_iter, quiet_run.
    + by apply run_producer.
    + by apply run_consumer.
    + by apply run_producer.
Qed.

End ThreadedParser.

(** ** Examples *)
Module ThreadedParserExample.
Definition row (x : nat) : Container nat := mkCont [0; 1] [x] [] [5%Z] [] 5%Z.

(** Two vectors, with an empty container. *)
Definition data : list (list (Container nat)) := [[row 1; row 2]; [Clear; row 3]].
Abbreviation plays := (tplay (Producer0 := ListProducer.producer [] data) 8).
Abbreviation start := (new_ThreadedParser data).

(** The labels of what [Next] returned, and of what [BeforeFirst] left. *)
Definition labels (b : RowBlock nat) : list nat := match b_label b with Some l => l | None => [] end.
Definition seen (o : option (tparser (F := nat) (P := list (list (Container nat))))) : option (list (option (list nat)) * list (list nat)) :=
  match o with Some t => Some (map (option_map labels) t.(shown), map labels t.(stale)) | None => None end.

(** The thread fills a cell. *)
Definition fill : list tactor := replicate 4 (Inside Producing).
(** [Next] that finds a vector in the queue. *)
Definition fetch : list tactor := [Calling false; Parsing; Inside Consuming; Parsing; Parsing].

(** [Next] that gives a vector back and takes another one. *)
Definition exchange : list tactor := [Calling false; Parsing; Inside Consuming; Parsing; Inside Consuming; Parsing; Parsing].
Definition until_two : list tactor := fill ++ fill ++ fetch ++ [Calling false; Parsing].

Example reads :
  seen (plays (until_two ++ exchange ++ [Parsing] ++ replicate 3 (Inside Producing) ++ [Calling false; Parsing; Inside Consuming; Parsing; Parsing]) start) =
  Some ([Some [1]; Some [2]; Some [3]; None], []).
Proof. vm_compute. reflexivity. Qed.

(** [BeforeFirst] between the blocks of a vector: what is left of it comes first,
    and then all blocks. *)
Example rewinds :
  seen (plays (fill ++ fill ++ fetch ++ [Calling true; Inside Producing; Inside Producing; Inside Consuming; Inside Consuming; Parsing] ++
    [Calling false; Parsing] ++ fill ++ exchange) start) = Some ([Some [2]; Some [1]], [[2]]).
Proof. vm_compute. reflexivity. Qed.

Lemma data_blocks_ok : Forall (Forall (fun c : Container nat => Size c <> 0 -> exists b, GetBlock c = Ok b)) data.
Proof. repeat constructor; intros H; try (by destruct H); eexists; reflexivity. Qed.

Lemma threaded_parser_blocks_witness : exists t, plays until_two start = Some t /\ map (option_map labels) t.(shown) = [Some [1]; Some [2]] /\
  ~ tfails (Producer0 := ListProducer.producer [] data) 8 t.
Proof.
  destruct (plays until_two start) as [t|] eqn:E; [|vm_compute in E; discriminate].
  pose proof (threaded_parser_blocks (LP := ListProducer.laws [] data) 8 (fun _ => eq_refl) data_blocks_ok data t ltac:(lia) I eq_refl
    (tplay_steps _ _ _ _ E)) as (Hf & _).
  vm_compute in E. injection E as <-. eexists. split; [done|]. split; [done|exact Hf].
Defined.

End ThreadedParserExample.
