(* ===== verification/ThreadedSplit.v ===== *)
(** * Reading chunks ahead

    Models [ThreadedInputSplit] of src/dmlc-core/src/io/threaded_input_split.h, which
    [InputSplit::Create] puts around every splitter: a [ThreadedIter] whose producer
    loads chunks with the splitter of [InputSplit], and whose owner extracts what it
    returns from the chunk in hand.  Which bytes a chunk holds depends on how far
    earlier long records have made its cell grow, and so on the interleaving; what
    all chunks hold together does not. *)
From stdpp Require Import relations.
From S2P Require Import Prelude Stream InputSplit ThreadedIter.

(** What the bytes between two beginnings of records are made of. *)
Class Pieces `{SL : SplitterLaws} (U : Type) := {
  pieces : list byte -> list U;
  pieces_nil : pieces [] = [];
  pieces_some l : l <> [] -> pieces l <> [];
  pieces_app l1 l2 : whole l1 -> rec_end l1 -> pieces (l1 ++ l2) = pieces l1 ++ pieces l2
}.

(** Where the owner is: not in a call, in the loop of [NextRecord] or [NextChunk],
    behind the call of [Recycle], behind the call of [Next], in [BeforeFirst] behind
    that of the iterator and behind [Recycle]. *)
Inductive spc := SIdle | SExtract | SRecycle | SNext | SRewind | SRewound.
#[export] Instance spc_dec : EqDecision spc.
Proof. solve_decision. Defined.

Section ThreadedSplit.
Context `{SL : SplitterLaws} {U : Type} `{!Pieces (SL := SL) U}.
(** How much a stream gives, as in [InputSplit]; [kBufferSize]; the capacity of the
    iterator, which the constructor sets to 8. *)
Context (got : nat -> nat -> nat -> nat) (kBufferSize max_capacity_ : nat).
(** [ExtractNextRecord] or [ExtractNextChunk] of the splitter. *)
Context (extract : Chunk -> outcome (option (Blob * Chunk))).

(** What the closures of the thread use: the splitter and [buffer_size_]. *)
Record source := mkSource { base_ : InputSplitBase; size_ : nat }.

(** The two closures; a new cell is a [new Chunk(buffer_size_)]. *)
#[export] Instance chunks_ahead : Producer source Chunk := {|
  next p c := '(r, c, s) ← Load got p.(base_) c p.(size_); Ok (r, c, mkSource s p.(size_));
  beforefirst p := s ← InputSplit.BeforeFirst p.(base_); Ok (mkSource s p.(size_));
  fresh p := mkChunk 0 0 (replicate (word_size * (p.(size_) + 1)) Byte.x00)
|}.

(** The members.  [tmp_chunk_] is the cell that the owner of the iterator holds, and
    [now] what it has made of the chunk in it; [shown] is what was returned since
    the last [BeforeFirst]. *)
Record tsplit := mkTS { iter_ : @state source Chunk; now : Chunk; at_s : spc; shown : list (option Blob) }.

(** The constructor. *)
Definition new_ThreadedInputSplit (base : InputSplitBase) : tsplit :=
  mkTS (init (mkSource base kBufferSize)) (mkChunk 0 0 []) SIdle [].

Definition start_of (c : call) (it : @state source Chunk) : outcome (@state source Chunk) :=
  o ← start_call true c it;
  match o with Some it => Ok it | None => Fail CheckFailed end.

(** A step inside a call; [None] when it waits for the iterator or is not in one. *)
Definition split_step (t : tsplit) : outcome (option tsplit) :=
  let it := t.(iter_) in
  match t.(at_s), it.(at_c) with
  | SIdle, _ => Ok None
  | SExtract, _ =>
      match it.(out_data_) with
      | None => it ← start_of Next it; Ok (Some (mkTS it t.(now) SNext t.(shown)))
      | Some cell =>
          r ← extract t.(now);
          match r with
          | Some (blob, c) => Ok (Some (mkTS it c SIdle (t.(shown) ++ [Some blob])))
          | None => it ← start_of Recycle (write_cell cell t.(now) it); Ok (Some (mkTS it t.(now) SRecycle t.(shown)))
          end
      end
  | SRecycle, CIdle => it ← start_of Next it; Ok (Some (mkTS it t.(now) SNext t.(shown)))
  | SNext, CIdle =>
      match it.(out_data_) with
      | Some cell => c ← read_at it.(heap) cell; Ok (Some (mkTS it c SExtract t.(shown)))
      | None => Ok (Some (mkTS it t.(now) SIdle (t.(shown) ++ [None])))
      end
  | SRewind, CIdle =>
      match it.(out_data_) with
      | Some cell => it ← start_of Recycle (write_cell cell t.(now) it); Ok (Some (mkTS it t.(now) SRewound t.(shown)))
      | None => Ok (Some (mkTS it t.(now) SIdle t.(shown)))
      end
  | SRewound, CIdle => Ok (Some (mkTS it t.(now) SIdle t.(shown)))
  | _, _ => Ok None
  end.

(** The start of [NextRecord] or [NextChunk], and of [BeforeFirst]. *)
Definition split_call (rewind : bool) (t : tsplit) : outcome (option tsplit) :=
  match t.(at_s) with
  | SIdle =>
      if rewind then it ← start_of BeforeFirst t.(iter_); Ok (Some (mkTS it t.(now) SRewind []))
      else Ok (Some (mkTS t.(iter_) t.(now) SExtract t.(shown)))
  | _ => Ok None
  end.

Definition with_iter (it : @state source Chunk) (t : tsplit) : tsplit := mkTS it t.(now) t.(at_s) t.(shown).

(** [HintChunkSize(chunk_size)]: a write to the member that the thread reads. *)
Definition split_hint (chunk_size : nat) (t : tsplit) : tsplit :=
  with_iter (change_src (fun p => mkSource p.(base_) (Nat.max (chunk_size / word_size) p.(size_))) t.(iter_)) t.

(** A step inside a call, of the splitter or of the iterator. *)
Inductive srun : tsplit -> tsplit -> Prop :=
| srun_split t t' : split_step t = Ok (Some t') -> srun t t'
| srun_iter t it : run max_capacity_ true t.(iter_) it -> srun t (with_iter it t).

(** Any step: also a call, and a thread that wakes up although it was not notified. *)
Inductive sstep : tsplit -> tsplit -> Prop :=
| sstep_split t t' : split_step t = Ok (Some t') -> sstep t t'
| sstep_iter t it : quiet max_capacity_ true t.(iter_) it -> sstep t (with_iter it t)
| sstep_call rewind t t' : split_call rewind t = Ok (Some t') -> sstep t t'
| sstep_hint n t : t.(at_s) = SIdle -> sstep t (split_hint n t).

Definition sreachable (base : InputSplitBase) (t : tsplit) : Prop := rtc sstep (new_ThreadedInputSplit base) t.

Definition sfails (t : tsplit) : Prop :=
  fails max_capacity_ true t.(iter_) \/ (exists e, split_step t = Fail e) \/ (exists rewind e, split_call rewind t = Fail e).

(** ** The splitter as a producer *)
Hypothesis got_ok : forall f pos n, 0 < n -> 0 < got f pos n <= n.

(** Loading does not touch the chunk of the splitter itself. *)
Lemma read_loop_frame fuel s n buf b s' : read_loop got fuel s n buf = Ok (b, s') -> tmp_chunk_ s' = tmp_chunk_ s.
Proof.
  revert s n buf. induction fuel as [|fuel IH]; intros s n buf E; [done|]. cbn [read_loop] in E.
  destruct (read_at (files_ s) (file_ptr_ s)) as [f|]; [|done]. cbn [mbind outcome_bind] in E.
  case_decide; [by injection E as _ <-|]. case_decide; [|by apply IH in E].
  destruct (read_at _ _) as [o|]; [|done]. cbn [mbind outcome_bind] in E. destruct (check _); [|done]. cbn [mbind outcome_bind] in E.
  case_decide; [by injection E as _ <-|by apply IH in E].
Qed.

Lemma ReadChunk_frame s buf n r m b s' : ReadChunk got s buf n = Ok (r, m, b, s') -> tmp_chunk_ s' = tmp_chunk_ s.
Proof.
  unfold ReadChunk. case_decide; [by intros [= _ _ _ <-]|]. destruct (copy_to _ _ _); [|done]. cbn [mbind outcome_bind]. intros E.
  destruct (Read got _ _) as [[b1 s1]|] eqn:Er; [|done]. cbn [mbind outcome_bind] in E.
  assert (tmp_chunk_ s1 = tmp_chunk_ s) as <-.
  { unfold Read in Er. cbv zeta in Er. repeat case_decide; first [by injection Er as _ <-|by apply read_loop_frame in Er]. }
  destruct (copy_to _ _ _); [|done]. cbn [mbind outcome_bind] in E. case_decide; [by injection E as _ _ _ <-|]. case_decide; [by injection E as _ _ _ <-|].
  destruct (FindLastRecordBegin _); [|done]. cbn [mbind outcome_bind] in E. by injection E as _ _ _ <-.
Qed.

Lemma load_loop_frame fuel s c r c' s' : load_loop got fuel s c = Ok (r, c', s') -> tmp_chunk_ s' = tmp_chunk_ s.
Proof.
  revert s c. induction fuel as [|fuel IH]; intros s c E; [done|]. cbn [load_loop] in E. destruct (copy_to _ _ _); [|done]. cbn [mbind outcome_bind] in E.
  destruct (ReadChunk got _ _ _) as [[[[r1 m1] d1] s1]|] eqn:Er; [|done]. cbn [mbind outcome_bind] in E. apply ReadChunk_frame in Er. rewrite <- Er.
  destruct r1; [|by injection E as _ _ <-]. case_decide; [by apply IH in E|by injection E as _ _ <-].
Qed.

(** The part that is read. *)
Context (part : InputSplitBase) (part_ok : split_ok part) (part_whole : whole (part_bytes part)).

Record source_ok (p : source) : Prop := {
  sr_base : base_ok p.(base_);
  sr_part : same_part part p.(base_);
  sr_whole : whole (to_come p.(base_));
  sr_idle : p.(base_).(tmp_chunk_).(c_begin) = p.(base_).(tmp_chunk_).(c_end);
  sr_size : 0 < p.(size_)
}.

Lemma same_part_trans s1 s2 s3 : same_part s1 s2 -> same_part s2 s3 -> same_part s1 s3.
Proof. unfold same_part. intros. destruct_and!. split_and!; congruence. Qed.

Lemma same_part_bytes s1 s2 : same_part s1 s2 -> part_bytes s2 = part_bytes s1.
Proof. intros (H1 & H2 & H3 & _). unfold part_bytes, all_bytes. by rewrite H1, H2, H3. Qed.

(** The bytes that are left in a chunk, and what they are made of. *)
Definition bytes_in (c : Chunk) : list byte := segment c.(c_begin) c.(c_end) c.(data).
Definition chunk_pieces (c : Chunk) : list U := if decide (c.(c_begin) < c.(c_end) < length c.(data)) then pieces (bytes_in c) else [].

Lemma chunk_pieces_some c : chunk_pieces c <> [] <-> c.(c_begin) < c.(c_end) < length c.(data).
Proof.
  unfold chunk_pieces. case_decide as Hc; [|done]. split; [done|]. intros _. apply pieces_some. intros E. apply (f_equal length) in E.
  unfold bytes_in in E. rewrite segment_length in E by lia. simpl in E. lia.
Qed.

Lemma load_source p c : source_ok p -> length c.(data) mod word_size = 0 -> exists more d p', next p c = Ok (more, d, p') /\ source_ok p' /\ length d.(data) mod word_size = 0 /\
  if more : bool then chunk_pieces d <> [] /\ pieces (to_come p.(base_)) = chunk_pieces d ++ pieces (to_come p'.(base_))
  else pieces (to_come p.(base_)) = [] /\ pieces (to_come p'.(base_)) = [].
Proof using got_ok.
  intros [H1 H2 H3 H4 H5] Hc. destruct (Load_ok got got_ok (base_ p) c (size_ p) H1 H3 Hc H5) as (r & c' & s' & E & Hb & Hp & Hm & Hr).
  assert (tmp_chunk_ s' = tmp_chunk_ (base_ p)) as Ht by (unfold Load in E; by apply load_loop_frame in E).
  exists r, c', (mkSource s' (size_ p)). cbn [next chunks_ahead]. rewrite E. cbn [mbind outcome_bind]. split; [done|].
  assert (whole (to_come s')) as Hw.
  { destruct r; [|destruct Hr as (_ & -> & _); apply whole_nil]. destruct Hr as (_ & _ & Heq & Hwc & _). rewrite Heq in H3. exact (whole_cancel _ _ H3 Hwc). }
  split; [split; cbn [base_ size_]; try done; [by eapply same_part_trans|by rewrite Ht]|]. split; [done|]. cbn [base_]. destruct r.
  - destruct Hr as (Hb0 & He & Heq & Hwc & Hend).
    assert (chunk_pieces c' = pieces (take (c_end c') (data c'))) as Hcp.
    { unfold chunk_pieces. rewrite decide_True by lia. unfold bytes_in, segment. by rewrite Hb0, Nat.sub_0_r, drop_0. }
    split; [apply chunk_pieces_some; lia|]. rewrite Hcp, Heq. destruct Hend as [->|Hend]; [by rewrite !app_nil_r, pieces_nil, app_nil_r|by apply pieces_app].
  - destruct Hr as (-> & -> & _). by rewrite pieces_nil.
Qed.

Lemma reset_source p : source_ok p -> exists p', beforefirst p = Ok p' /\ source_ok p' /\ pieces (to_come p'.(base_)) = pieces (part_bytes part).
Proof using part_whole.
  intros [H1 H2 H3 H4 H5]. destruct (BeforeFirst_ok (base_ p)) as (s' & E & Hok & Hp & Ht); [apply H1..| |].
  { intros Hle. split; [by apply H1|done]. }
  cbn [beforefirst chunks_ahead]. rewrite E. cbn [mbind outcome_bind]. eexists. split; [done|]. rewrite (same_part_bytes _ _ H2) in Ht. cbn [base_ size_].
  split; [|by rewrite Ht]. split; cbn [base_ size_]; try done; [apply Hok|by eapply same_part_trans|by rewrite Ht|apply Hok].
Qed.

Lemma fresh_source p : source_ok p -> length (fresh p).(data) mod word_size = 0.
Proof. intros Hp. cbn [fresh chunks_ahead data]. by rewrite length_replicate, Nat.mul_comm, Nat.Div0.mod_mul. Qed.

#[local] Instance chunks_ahead_laws : ProducerLaws (P := source) (D := Chunk) U := {|
  content := chunk_pieces;
  items p := pieces (to_come p.(base_));
  everything := pieces (part_bytes part);
  p_ok := source_ok;
  d_ok c := length c.(data) mod word_size = 0;
  fresh_ok p := fresh_source p;
  next_ok p c := load_source p c;
  reset_ok p := reset_source p
|}.
Abbreviation iter_inv := (inv max_capacity_).
Abbreviation total := (pieces (part_bytes part)).

(** ** What the owner sees *)

(** What extracting promises: while there are bytes in a chunk it gives some of
    them. *)
Definition hand_ok (c : Chunk) : Prop := length c.(data) mod word_size = 0 /\ c.(c_begin) <= c.(c_end) < length c.(data).
Context (value : Blob -> list U).
Hypothesis extract_ok : forall c, hand_ok c ->
  if decide (c.(c_begin) = c.(c_end)) then extract c = Ok None
  else exists b c', extract c = Ok (Some (b, c')) /\ hand_ok c' /\ chunk_pieces c = value b ++ chunk_pieces c'.

(** What the chunk in hand still gives; all of it while [Next] of the iterator is
    not over. *)
Definition to_extract (t : tsplit) : list U :=
  match t.(iter_).(out_data_), t.(at_s) with
  | None, _ => []
  | Some _, SNext => chunk_pieces (default (mkChunk 0 0 []) t.(iter_).(given))
  | Some _, _ => chunk_pieces t.(now)
  end.

(** Where the iterator is when the owner is at a point. *)
Definition along (pc : spc) (it : @state source Chunk) : Prop :=
  match pc with
  | SIdle | SExtract => it.(at_c) = CIdle
  | SRecycle => it.(out_data_) = None /\ (it.(at_c) = CIdle \/ exists b, it.(at_c) = CNotify b)
  | SNext => (it.(out_data_) = None /\ exists a, it.(at_c) = CNextSleep a) \/
             (is_Some it.(out_data_) /\ (it.(at_c) = CIdle \/ exists b, it.(at_c) = CNotify b)) \/
             (it.(out_data_) = None /\ it.(at_c) = CIdle /\ None ∈ it.(log))
  | SRewind => (it.(producer_sig_) = kBeforeFirst /\ exists a, it.(at_c) = CBFSleep a) \/
               (it.(log) = [] /\ (it.(at_c) = CIdle \/ (exists b, it.(at_c) = CNotify b) \/ exists a, it.(at_c) = CBFSleep a))
  | SRewound => it.(out_data_) = None /\ it.(log) = [] /\ (it.(at_c) = CIdle \/ exists b, it.(at_c) = CNotify b)
  end.

Record sinv (t : tsplit) : Prop := {
  si_iter : iter_inv t.(iter_);
  si_at : along t.(at_s) t.(iter_);
  si_now : is_Some t.(iter_).(out_data_) ->
           if decide (t.(at_s) = SNext) then exists d, t.(iter_).(given) = Some d /\ chunk_pieces d <> [] else hand_ok t.(now);
  si_seq : exists bl k, t.(shown) = map Some bl ++ replicate k None /\
    (0 < k -> units (ThreadedIter.got t.(iter_)) = total /\ t.(iter_).(out_data_) = None) /\
    if decide (t.(at_s) = SRewind) then bl = [] /\ k = 0
    else concat (map value bl) ++ to_extract t = units (ThreadedIter.got t.(iter_))
}.

Ltac along_cases H :=
  repeat match type of H with
  | _ /\ _ => destruct H as [? H]
  | _ \/ _ => destruct H as [H|H]
  | exists _, _ => destruct H as [? H]
  end; try discriminate; eauto 10.
Ltac scbn := cbn [with_iter iter_ now at_s shown].

Lemma along_alive t : sinv t -> t.(iter_).(at_c) <> CGone /\ t.(iter_).(at_c) <> CJoin.
Proof. intros [_ H _ _]. destruct (at_s t); simpl in H; (split; intros E; rewrite E in H; naive_solver). Qed.

(** When the iterator only changes what the owner does not see, nothing changes. *)
Lemma sinv_same t it : sinv t -> iter_inv it -> same_hand t.(iter_) it -> it.(log) = t.(iter_).(log) -> along t.(at_s) it -> sinv (with_iter it t).
Proof.
  intros [_ _ H3 (bl & k & A & B & C)] Hi [Ho Hg] Hl Ht. split; scbn; try done.
  - by rewrite Ho, Hg.
  - exists bl, k. unfold ThreadedIter.got, to_extract in *. scbn. rewrite Hl, Ho, Hg. done.
Qed.

(** An item that [Next] took is the next one; without one there is none left. *)
Lemma took_chunk s s' : iter_inv s' -> took s s' ->
  (exists c v, s'.(out_data_) = Some c /\ s'.(given) = Some v /\ ThreadedIter.got s' = ThreadedIter.got s ++ [v] /\ chunk_pieces v <> []) \/
  (same_hand s s' /\ s'.(at_c) = CIdle /\ ThreadedIter.got s' = ThreadedIter.got s /\ None ∈ s'.(log)).
Proof.
  intros Hi [(c & v & b & E1 & E2 & E3 & E4)|(E1 & E2 & E3)].
  - left. exists c, v. destruct (got_facts _ s' Hi) as ([_ Hne] & _); [congruence|].
    assert (ThreadedIter.got s' = ThreadedIter.got s ++ [v]) as Hg by (unfold ThreadedIter.got; rewrite E4, omap_app; done).
    split_and!; try done. rewrite Hg, Forall_app in Hne. destruct Hne as [_ Hne]. by apply Forall_cons in Hne as [Hne _].
  - right. split; [done|]. split; [done|]. unfold ThreadedIter.got. rewrite E3, omap_app. simpl. rewrite app_nil_r. split; [done|].
    rewrite elem_of_app. right. by apply list_elem_of_singleton.
Qed.

(** [Next] of the iterator, once it has taken something or nothing. *)
Lemma sinv_took t it : sinv t -> t.(at_s) <> SRewind -> t.(iter_).(out_data_) = None -> iter_inv it -> took t.(iter_) it -> sinv (mkTS it t.(now) SNext t.(shown)).
Proof.
  intros [_ _ _ (bl & k & A & B & C)] Hpc Hout Hi Ht. rewrite decide_False in C by done.
  assert (concat (map value bl) = units (ThreadedIter.got (iter_ t))) as Hbl by (unfold to_extract in C; rewrite Hout, app_nil_r in C; done).
  destruct (took_chunk _ _ Hi Ht) as [(c & v & E1 & E2 & E3 & E4)|([E1 E2] & E3 & E4 & E5)].
  - split; scbn; try done.
    + right. left. split; [by rewrite E1|]. destruct Ht as [(_ & _ & b & -> & _)|(-> & _)]; [right; eauto|by left].
    + intros _. rewrite decide_True by done. eauto.
    + assert (0 < k -> False) as Hk.
      { intros Hk. destruct (B Hk) as [Hall _]. destruct (got_facts _ _ Hi) as ([Hpre _] & _). { destruct Ht as [(_ & _ & b & -> & _)|(-> & _)]; done. }
        rewrite E3, units_app, units_one, Hall in Hpre. apply prefix_length in Hpre. rewrite length_app in Hpre. simpl in Hpre. destruct (chunk_pieces v); [done|simpl in *; lia]. }
      exists bl, k. split; [done|]. split; [intros ?; by destruct Hk|]. rewrite decide_False by done. unfold to_extract. scbn. by rewrite E1, E2, E3, units_app, units_one, Hbl.
  - split; scbn; try done.
    + do 2 right. by rewrite E1, Hout.
    + rewrite E1, Hout. by intros [].
    + exists bl, k. split; [done|]. rewrite E4, E1. split; [done|]. rewrite decide_False by done. unfold to_extract. scbn. by rewrite E1, Hout, app_nil_r.
Qed.

Lemma sinv_iter t it : sinv t -> quiet max_capacity_ true t.(iter_) it -> sinv (with_iter it t).
Proof.
  intros Ht Hq. pose proof (si_iter t Ht) as Hi. pose proof (si_at t Ht) as Hat. destruct (along_alive t Ht) as [_ Hj].
  assert (iter_inv it) as Hi' by (eapply inv_step; [exact Hi|by apply quiet_step]).
  destruct (quiet_frame _ _ _ _ (iv_control _ _ Hi) Hq) as [(H1 & H2 & H3 & H4)|[(H1 & (a & a' & H2 & H3) & H4)|[([a H1] & H2)|[((a & b & H1 & H2) & H3 & H4 & H5)|[([b H1] & H2 & H3 & H4)|]]]]]; [| | | | |done].
  - apply sinv_same; try done. destruct H1 as [H1 _]. unfold along in *. rewrite H1, H3, H4.
    destruct (at_s t); unfold same_call in H2; destruct (at_c (iter_ t)); naive_solver.
  - assert (at_s t = SRewind) as Epc by (unfold along in Hat; rewrite H2 in Hat; destruct (at_s t); naive_solver).
    destruct H1 as [Ho Hg], H4 as (_ & _ & Hl), Ht as [_ _ T3 (bl & k & A & B & C)]. rewrite Epc in C, T3. cbn [decide spc_dec] in C.
    destruct C as (-> & ->). split; scbn; rewrite ?Epc; try done.
    + right. split; [done|]. right. right. eauto.
    + by rewrite Ho.
    + exists [], 0. split; [done|]. split; [lia|]. by rewrite decide_True.
  - assert (at_s t = SNext /\ out_data_ (iter_ t) = None) as [Epc Eo] by (unfold along in Hat; rewrite H1 in Hat; destruct (at_s t); along_cases Hat).
    unfold with_iter. rewrite Epc. apply sinv_took; try done. congruence.
  - apply sinv_same; try done. unfold along in *. rewrite H1 in Hat. rewrite H2, H4. destruct (at_s t); along_cases Hat; congruence.
  - apply sinv_same; try done. destruct H3 as [H3 _]. unfold along in *. rewrite H1 in Hat. rewrite H2, H3, H4. destruct (at_s t); along_cases Hat.
Qed.

Lemma started_inv c it it' : iter_inv it -> start_call true c it = Ok (Some it') -> iter_inv it'.
Proof. intros Hi E. eapply (inv_step max_capacity_ true); [exact Hi|]. by eapply step_call. Qed.

(** The call of [Next] of the iterator. *)
Lemma split_next_call t : sinv t -> t.(at_s) <> SRewind -> t.(iter_).(at_c) = CIdle -> t.(iter_).(out_data_) = None ->
  exists it, start_of Next t.(iter_) = Ok it /\ sinv (mkTS it t.(now) SNext t.(shown)).
Proof.
  intros Ht Hpc Ec Eo. destruct (Next_call max_capacity_ true _ (si_iter t Ht) Ec Eo) as (it & E & Hit). exists it. unfold start_of. rewrite E. split; [done|].
  assert (iter_inv it) as Hi by (eapply started_inv; [apply Ht|exact E]).
  destruct Hit as [Htook|(H1 & [H2 H2'] & H3)]; [by apply sinv_took|]. destruct Ht as [_ _ _ (bl & k & A & B & C)].
  split; scbn; try done; try (intros [? ?]; congruence); [left; rewrite H2; eauto|]. exists bl, k. split; [done|]. rewrite H2. unfold ThreadedIter.got in *. rewrite H3. split; [done|].
  rewrite decide_False in C by done. rewrite decide_False by done. unfold to_extract in *. scbn. rewrite H2. rewrite Eo in *. done.
Qed.

(** The call of [Recycle], of a chunk that was looked at. *)
Lemma split_recycle_call t cell : sinv t -> t.(at_s) = SExtract \/ t.(at_s) = SRewind -> t.(iter_).(at_c) = CIdle -> t.(iter_).(out_data_) = Some cell ->
  exists it b, start_of Recycle (write_cell cell t.(now) t.(iter_)) = Ok it /\ iter_inv it /\ it.(at_c) = CNotify b /\ it.(out_data_) = None /\ it.(log) = t.(iter_).(log).
Proof.
  intros [T1 T2 T3 _] Epc Ec Eo. rewrite Eo in T3. specialize (T3 (mk_is_Some _ _ eq_refl)). rewrite decide_False in T3 by (destruct Epc; congruence).
  destruct (Recycle_written max_capacity_ true _ cell (now t) T1) as (it & b & E & H1 & H2 & H3 & H4 & _); [apply T3|done|done|].
  exists it, b. unfold start_of. rewrite E. done.
Qed.

(** In the loop, with a chunk. *)
Lemma split_extract t cell : sinv t -> t.(at_s) = SExtract -> t.(iter_).(out_data_) = Some cell -> exists t', split_step t = Ok (Some t') /\ sinv t'.
Proof.
  intros Ht Epc Eo. pose proof Ht as [T1 T2 T3 (bl & k & A & B & C)]. unfold split_step. rewrite Epc, Eo in *. simpl in T2.
  specialize (T3 (mk_is_Some _ _ eq_refl)). rewrite decide_False in T3 by done. rewrite decide_False in C by done. unfold to_extract in C. rewrite Eo, Epc in C.
  assert (k = 0) as -> by (destruct k; [done|by destruct (B ltac:(lia))]). cbn [replicate] in A. rewrite app_nil_r in A.
  pose proof (extract_ok _ T3) as He. case_decide as Hbe.
  - rewrite He. cbn [mbind outcome_bind]. destruct (split_recycle_call t cell Ht) as (it & b & -> & Hi & H1 & H2 & H3); [by left|done|done|]. cbn [mbind outcome_bind].
    eexists. split; [done|]. split; scbn; try done; try (intros [? ?]; congruence); [split; [done|]; right; eauto|].
    exists bl, 0. rewrite A. cbn [replicate]. rewrite app_nil_r. split; [done|]. split; [lia|]. rewrite decide_False by done. unfold to_extract, ThreadedIter.got in *. scbn. rewrite H2, H3, <- C.
    unfold chunk_pieces. rewrite decide_False by lia. done.
  - destruct He as (b & c' & -> & Hc' & Hv). cbn [mbind outcome_bind]. eexists. split; [done|]. split; scbn; try done.
    exists (bl ++ [b]), 0. rewrite A, !map_app. cbn [replicate]. rewrite app_nil_r. split; [done|]. split; [lia|]. rewrite decide_False by done. unfold to_extract. scbn. rewrite Eo.
    rewrite concat_app. simpl. rewrite app_nil_r, <- app_assoc, <- Hv. done.
Qed.

(** Behind [Next] of the iterator. *)
Lemma split_next_back t : sinv t -> t.(at_s) = SNext -> t.(iter_).(at_c) = CIdle -> exists t', split_step t = Ok (Some t') /\ sinv t'.
Proof.
  intros Ht Epc Ec. pose proof Ht as [T1 T2 T3 (bl & k & A & B & C)]. destruct (got_facts _ _ T1) as (_ & Hnone & Hh); [congruence|].
  unfold split_step. rewrite Epc, Ec in *. rewrite decide_False in C by done. rewrite decide_True in T3 by done. unfold to_extract in C. rewrite Epc in C.
  destruct (out_data_ (iter_ t)) as [cell|] eqn:Eo.
  - destruct (Hh cell eq_refl) as (v & Hv & Hgv & Hdv). destruct (T3 (mk_is_Some _ _ eq_refl)) as (d & Hd & Hne). rewrite Hgv in Hd, C. injection Hd as <-. cbn [default] in C.
    assert (read_at (heap (iter_ t)) cell = Ok v) as -> by (unfold read_at; by rewrite Hv). cbn [mbind outcome_bind].
    apply chunk_pieces_some in Hne. eexists. split; [done|]. split; scbn; try done.
    { intros _. rewrite decide_False by done. split; [done|lia]. }
    exists bl, k. rewrite Eo. split; [done|]. split; [done|]. rewrite decide_False by done. unfold to_extract. scbn. rewrite Eo. exact C.
  - eexists. split; [done|]. simpl in T2. split; scbn; try done; try (intros [? ?]; congruence).
    assert (units (ThreadedIter.got (iter_ t)) = total) as Hall.
    { apply Hnone. rewrite Ec, Eo in T2. destruct T2 as [(_ & a & ?)|[([? ?] & _)|(_ & _ & ?)]]; done. }
    exists bl, (S k). rewrite A, <- app_assoc, replicate_S_end. split; [done|]. split; [done|]. rewrite decide_False by done. unfold to_extract. scbn. rewrite Eo. exact C.
Qed.

(** Behind [BeforeFirst] of the iterator. *)
Lemma split_rewind_back t : sinv t -> t.(at_s) = SRewind -> t.(iter_).(at_c) = CIdle -> exists t', split_step t = Ok (Some t') /\ sinv t'.
Proof.
  intros Ht Epc Ec. pose proof Ht as [T1 T2 T3 (bl & k & A & B & C)]. rewrite Epc, decide_True in C by done. destruct C as [-> ->].
  rewrite Epc in T2. simpl in T2. assert (log (iter_ t) = []) as Hl by (rewrite Ec in T2; destruct T2 as [(_ & a & ?)|[? _]]; done).
  unfold split_step. rewrite Epc, Ec. destruct (out_data_ (iter_ t)) as [cell|] eqn:Eo.
  - destruct (split_recycle_call t cell Ht) as (it & b & -> & Hi & H1 & H2 & H3); [by right|done|done|]. cbn [mbind outcome_bind].
    eexists. split; [done|]. split; scbn; try done; try (intros [? ?]; congruence); [split; [done|]; rewrite H3; split; [done|right; eauto]|].
    exists [], 0. split; [done|]. split; [lia|]. rewrite decide_False by done. unfold to_extract, ThreadedIter.got. scbn. by rewrite H2, H3, Hl.
  - eexists. split; [done|]. split; scbn; try done; try (intros [? ?]; congruence).
    exists [], 0. split; [done|]. split; [lia|]. rewrite decide_False by done. unfold to_extract, ThreadedIter.got. scbn. by rewrite Eo, Hl.
Qed.

Lemma split_ok_step t : sinv t -> exists o, split_step t = Ok o /\ (forall t', o = Some t' -> sinv t') /\ (o = None -> t.(at_s) = SIdle \/ t.(iter_).(at_c) <> CIdle).
Proof.
  intros Ht.
  assert (forall t', split_step t = Ok (Some t') -> sinv t' -> exists o, split_step t = Ok o /\ (forall t', o = Some t' -> sinv t') /\
    (o = None -> t.(at_s) = SIdle \/ t.(iter_).(at_c) <> CIdle)) as Hyes.
  { intros t' E Ht'. exists (Some t'). split_and!; [done|congruence|done]. }
  assert (at_c (iter_ t) <> CIdle -> at_s t <> SExtract -> exists o, split_step t = Ok o /\ (forall t', o = Some t' -> sinv t') /\
    (o = None -> t.(at_s) = SIdle \/ t.(iter_).(at_c) <> CIdle)) as Hwait.
  { intros Hc Hp. exists None. unfold split_step. split_and!; [|done|by right]. destruct (at_s t); try done; by destruct (at_c (iter_ t)). }
  pose proof (si_at t Ht) as Hat. destruct (at_s t) eqn:Epc.
  - exists None. unfold split_step. rewrite Epc. split_and!; auto; done.
  - simpl in Hat. destruct (out_data_ (iter_ t)) as [cell|] eqn:Eo.
    + destruct (split_extract t cell Ht Epc Eo) as (t' & E & Ht'). by apply (Hyes t').
    + destruct (split_next_call t Ht) as (it & E & Ht'); [congruence|done|done|]. eapply Hyes; [|exact Ht']. unfold split_step. by rewrite Epc, Eo, E.
  - destruct (at_c (iter_ t)) eqn:Ec; try (by apply Hwait). destruct Hat as [Eo _].
    destruct (split_next_call t Ht) as (it & E & Ht'); [congruence|done|done|]. eapply Hyes; [|exact Ht']. unfold split_step. by rewrite Epc, Ec, E.
  - destruct (at_c (iter_ t)) eqn:Ec; try (by apply Hwait). destruct (split_next_back t Ht Epc Ec) as (t' & E & Ht'). by apply (Hyes t').
  - destruct (at_c (iter_ t)) eqn:Ec; try (by apply Hwait). destruct (split_rewind_back t Ht Epc Ec) as (t' & E & Ht'). by apply (Hyes t').
  - destruct (at_c (iter_ t)) eqn:Ec; try (by apply Hwait). eapply Hyes; [unfold split_step; by rewrite Epc, Ec|].
    destruct Ht as [T1 T2 T3 (bl & k & A & B & C)]. destruct Hat as (Eo & _). rewrite Epc in *. split; scbn; try done; try (intros [? ?]; congruence).
    exists bl, k. split; [done|]. split; [done|]. unfold to_extract in *. scbn. rewrite Eo in *. done.
Qed.

Lemma split_call_ok rewind t : sinv t -> exists o, split_call rewind t = Ok o /\ forall t', o = Some t' -> sinv t'.
Proof.
  intros Ht. unfold split_call. destruct (at_s t) eqn:Epc; try by exists None. pose proof Ht as [T1 T2 T3 (bl & k & A & B & C)]. rewrite Epc in *. simpl in T2.
  destruct rewind.
  - destruct (BeforeFirst_call max_capacity_ true (iter_ t)) as (it & E & H1 & [H2 H2'] & H3); [done|done|done|]. unfold start_of. rewrite E. cbn [mbind outcome_bind].
    eexists. split; [done|]. intros t' [= <-]. split; scbn; try done; try (intros [? ?]; congruence); [by eapply started_inv|left; eauto|by rewrite H2|].
    exists [], 0. split; [done|]. split; [lia|]. by rewrite decide_True.
  - eexists. split; [done|]. intros t' [= <-]. split; scbn; try done. exists bl, k. split; [done|]. split; [done|]. unfold to_extract in *. scbn. rewrite Epc in C. done.
Qed.

Lemma split_hint_ok n t : sinv t -> sinv (split_hint n t).
Proof.
  intros Ht. apply sinv_same; try done; [|by apply Ht]. apply inv_change_src; [|apply Ht]. intros p [H1 H2 H3 H4 H5]. split; [|done]. split; simpl; try done. lia.
Qed.

Lemma sinv_init : part_bytes part = to_come part -> 0 < kBufferSize -> sinv (new_ThreadedInputSplit part).
Proof.
  intros Hb Hk. split; simpl; try done.
  - apply inv_init; [|simpl; by rewrite Hb]. split; simpl; try done; [apply part_ok|by rewrite <- Hb|apply part_ok].
  - exists [], 0. split; [done|]. split; [lia|]. done.
Qed.

Lemma sinv_step t t' : sinv t -> sstep t t' -> sinv t'.
Proof.
  intros Ht Hs. destruct Hs as [t t' E|t it Hq|rewind t t' E|n t _].
  - destruct (split_ok_step t Ht) as (o & E' & Hn & _). apply Hn. congruence.
  - by apply sinv_iter.
  - destruct (split_call_ok rewind t Ht) as (o & E' & Hn). apply Hn. congruence.
  - by apply split_hint_ok.
Qed.

Lemma sinv_reachable t : part_bytes part = to_come part -> 0 < kBufferSize -> sreachable part t -> sinv t.
Proof.
  intros Hb Hk Hr. assert (sinv (new_ThreadedInputSplit part)) as Hi by by apply sinv_init. induction Hr as [|t1 t2 t3 H12 _ IH]; [done|].
  apply IH. by eapply sinv_step.
Qed.

Lemma sinv_not_fails t : sinv t -> ~ sfails t.
Proof.
  intros Ht [Hf|[[e E]|(r & e & E)]].
  - by apply (inv_not_fails max_capacity_ true _ (si_iter t Ht)).
  - destruct (split_ok_step t Ht) as (o & E' & _). congruence.
  - destruct (split_call_ok r t Ht) as (o & E' & _). congruence.
Qed.

(** ** Calls end *)

(** What the owner does not have yet; the rest of a call; the rest of the iterator's
    work. *)
Definition missing (it : @state source Chunk) : nat := length total - length (units (ThreadedIter.got it)).
Definition to_fetch (t : tsplit) : nat :=
  match t.(at_s), t.(iter_).(producer_sig_), t.(iter_).(out_data_) with
  | SRewind, kBeforeFirst, _ => length total + 1
  | SNext, _, Some _ => missing t.(iter_) + 1
  | _, _, _ => missing t.(iter_)
  end.
Definition srank (pc : spc) : nat := match pc with SIdle => 0 | SExtract => 3 | SRecycle | SRewind => 2 | SNext | SRewound => 1 end.

Definition less (t' t : tsplit) : Prop :=
  to_fetch t' < to_fetch t \/
  to_fetch t' <= to_fetch t /\ (srank t'.(at_s) < srank t.(at_s) \/ srank t'.(at_s) = srank t.(at_s) /\ work t'.(iter_) < work t.(iter_)).

Lemma less_wf : well_founded less.
Proof.
  assert (forall a b c t, to_fetch t = a -> srank (at_s t) = b -> work (iter_ t) = c -> Acc less t) as Hall; [|intros t; by eapply Hall].
  intros a. induction (lt_wf a) as [a _ IHa]. intros b. induction (lt_wf b) as [b _ IHb]. intros c. induction (lt_wf c) as [c _ IHc].
  intros t <- <- <-. constructor. intros t' H. destruct (decide (to_fetch t' < to_fetch t)) as [Hlt|Hge]; [by eapply (IHa _ Hlt)|].
  destruct H as [H|[E1 [H|[E2 H]]]]; [done|by eapply (IHb _ H); [lia|..]|by eapply (IHc _ H); [lia|..]].
Qed.

Lemma producing t : sinv t -> t.(iter_).(at_c) = CIdle \/ (exists b, t.(iter_).(at_c) = CNotify b) \/ (exists a, t.(iter_).(at_c) = CNextSleep a) ->
  t.(iter_).(producer_sig_) = kProduce.
Proof. intros Ht H. destruct (iv_control _ _ (si_iter t Ht)) as [_ _ Hc _ _]. destruct H as [E|[[b E]|[a E]]]; rewrite E in Hc; apply Hc. Qed.

(** Taking an item does not change what the owner does not have. *)
Lemma took_missing s s' : iter_inv s' -> took s s' -> s.(out_data_) = None ->
  match s'.(out_data_) with Some _ => missing s' + 1 | None => missing s' end <= missing s.
Proof.
  intros Hi' Ht Ho. pose proof (took_chunk s s' Hi' Ht) as Hitem. unfold missing. destruct Hitem as [(c & v & E1 & _ & E3 & E4)|([E1 _] & _ & E3 & _)].
  - destruct (got_facts _ s' Hi') as ([Hpre _] & _). { destruct Ht as [(_ & _ & b & -> & _)|(-> & _)]; done. }
    apply prefix_length in Hpre. cbn [everything chunks_ahead_laws] in Hpre. rewrite E1. rewrite E3, units_app, units_one, length_app in *. cbn [content chunks_ahead_laws] in *.
    destruct (chunk_pieces v); [done|]. simpl in *. lia.
  - rewrite E1, Ho, E3. lia.
Qed.

Lemma less_iter t it : sinv t -> run max_capacity_ true t.(iter_) it -> less (with_iter it t) t.
Proof.
  intros Ht Hr. pose proof (si_iter t Ht) as Hi. pose proof (si_at t Ht) as Hat. destruct (along_alive t Ht) as [_ Hj].
  assert (sinv (with_iter it t)) as Ht' by (by apply sinv_iter, quiet_run).
  assert (work it < work (iter_ t)) as Hdo by (by eapply work_run).
  assert (to_fetch (with_iter it t) <= to_fetch t) as Hfetch; [|right; split; [done|]; right; split; done].
  destruct (quiet_frame _ _ _ _ (iv_control _ _ Hi) (quiet_run _ _ _ _ Hr)) as [([H1 _] & H2 & H3 & H4)|[(_ & (a & a' & H2 & H3) & H4)|[([a H1] & H2)|[((a & b & H1 & H2) & [H3 _] & H4 & H5)|[([b H1] & H2 & [H3 _] & H4)|]]]]]; [| | | | |done].
  - unfold to_fetch, missing, ThreadedIter.got. simpl. by rewrite H1, H3, H4.
  - assert (at_s t = SRewind) as Epc by (unfold along in Hat; rewrite H2 in Hat; destruct (at_s t); along_cases Hat).
    destruct H4 as (S1 & S2 & _). unfold to_fetch, missing. simpl. rewrite Epc, S1, S2. lia.
  - assert (at_s t = SNext /\ out_data_ (iter_ t) = None) as [Epc Eo] by (unfold along in Hat; rewrite H1 in Hat; destruct (at_s t); along_cases Hat).
    pose proof (took_missing _ _ (si_iter _ Ht') H2 Eo) as Hf. unfold to_fetch. simpl in *. rewrite Epc, Eo. destruct (out_data_ it); lia.
  - pose proof (producing _ Ht') as Hs. simpl in Hs. unfold to_fetch, missing, ThreadedIter.got. simpl. rewrite H3, H4, H5, Hs by eauto. done.
  - pose proof (producing _ Ht') as Hs. pose proof (producing _ Ht) as Hs0. simpl in Hs. unfold to_fetch, missing, ThreadedIter.got. simpl.
    rewrite H3, H4, Hs, Hs0 by eauto. done.
Qed.

(** A call of [Next] of the iterator does not fetch, it only asks. *)
Lemma next_call_missing t it : sinv t -> t.(at_s) <> SRewind -> t.(iter_).(at_c) = CIdle -> t.(iter_).(out_data_) = None -> start_of Next t.(iter_) = Ok it ->
  to_fetch (mkTS it t.(now) SNext t.(shown)) <= to_fetch t.
Proof.
  intros Ht Hpc Ec Eo E. pose proof (si_iter t Ht) as Hi. destruct (Next_call max_capacity_ true _ Hi Ec Eo) as (it' & E' & Hit).
  unfold start_of in E. rewrite E' in E. injection E as <-. pose proof (started_inv _ _ _ Hi E') as Hi'. unfold to_fetch. simpl. rewrite Eo.
  replace (match at_s t with SRewind => _ | _ => _ end) with (missing (iter_ t)) by (by destruct (at_s t)).
  destruct Hit as [Htook|(_ & [H2 _] & H3)]; [by apply took_missing|]. rewrite H2, Eo. unfold missing, ThreadedIter.got. by rewrite H3.
Qed.

Lemma less_split t t' : sinv t -> split_step t = Ok (Some t') -> less t' t.
Proof.
  intros Ht E. pose proof (si_at t Ht) as Hat. pose proof (producing t Ht) as Hs.
  unfold split_step in E. destruct (at_s t) eqn:Epc; [discriminate|..].
  - simpl in Hat. destruct (out_data_ (iter_ t)) as [cell|] eqn:Eo.
    + destruct (extract (now t)) as [[[b c]|]|]; [| |done]; cbn [mbind outcome_bind] in E.
      * injection E as <-. right. unfold to_fetch. simpl. rewrite Epc. simpl. lia.
      * destruct (split_recycle_call t cell Ht) as (it & b & E' & _ & H1 & H2 & H3); [by left|done|done|]. rewrite E' in E. injection E as <-.
        right. unfold to_fetch, missing, ThreadedIter.got. simpl. rewrite Epc, H3. simpl. lia.
    + destruct (start_of Next (iter_ t)) as [it|] eqn:En; [|done]. injection E as <-. right. split; [apply next_call_missing; congruence || done|]. simpl. rewrite Epc. simpl. lia.
  - destruct (at_c (iter_ t)) eqn:Ec; try discriminate. destruct Hat as [Eo _].
    destruct (start_of Next (iter_ t)) as [it|] eqn:En; [|done]. injection E as <-. right. split; [apply next_call_missing; congruence || done|]. simpl. rewrite Epc. simpl. lia.
  - destruct (at_c (iter_ t)) eqn:Ec; try discriminate. destruct (out_data_ (iter_ t)) as [cell|] eqn:Eo.
    + destruct (read_at (heap (iter_ t)) cell) as [v|]; [|done]. injection E as <-. left. unfold to_fetch. simpl. rewrite Epc, ?Eo. lia.
    + injection E as <-. right. unfold to_fetch. simpl. rewrite Epc, ?Eo. simpl. lia.
  - destruct (at_c (iter_ t)) eqn:Ec; try discriminate. destruct (out_data_ (iter_ t)) as [cell|] eqn:Eo.
    + destruct (split_recycle_call t cell Ht) as (it & b & E' & _ & H1 & H2 & H3); [by right|done|done|]. rewrite E' in E. injection E as <-.
      right. unfold to_fetch, missing, ThreadedIter.got. simpl. rewrite Epc, H3, Hs by auto. simpl. lia.
    + injection E as <-. right. unfold to_fetch. simpl. rewrite Epc, Hs by auto. simpl. lia.
  - destruct (at_c (iter_ t)) eqn:Ec; try discriminate. injection E as <-. right. unfold to_fetch. simpl. rewrite Epc. simpl. lia.
Qed.

Lemma srun_step t t' : srun t t' -> sstep t t'.
Proof. intros H. destruct H as [t t' E|t it H]; [by apply sstep_split|by apply sstep_iter, quiet_run]. Qed.

Lemma srun_ends t : sinv t -> sn srun t.
Proof.
  induction (less_wf t) as [t _ IH]. intros Ht. constructor. intros t' Hr. apply IH; [|by eapply sinv_step, srun_step].
  destruct Hr as [t t' E|t it H]; [by apply less_split|by apply less_iter].
Qed.

Lemma sinv_run t t' : sinv t -> rtc srun t t' -> sinv t'.
Proof. intros Ht Hr. induction Hr as [|t1 t2 t3 H12 _ IH]; [done|]. apply IH. by eapply sinv_step, srun_step. Qed.

(** Any splitter and any way to extract. *)
Lemma threaded_split_pieces t : 0 < max_capacity_ -> 0 < kBufferSize -> part_bytes part = to_come part -> sreachable part t ->
  ~ sfails t /\
  (exists bl k, t.(shown) = map Some bl ++ replicate k None /\ concat (map value bl) `prefix_of` total /\ (0 < k -> concat (map value bl) = total)) /\
  sn srun t /\ forall t', rtc srun t t' -> nf srun t' -> t'.(at_s) = SIdle.
Proof.
  intros Hcap Hk Hb Hr. pose proof (sinv_reachable t Hb Hk Hr) as Ht. split; [by apply sinv_not_fails|]. split; [|split; [by apply srun_ends|]].
  - destruct (got_facts _ _ (si_iter t Ht)) as ([Hpre _] & _); [apply (along_alive t Ht)|]. destruct Ht as [_ _ _ (bl & k & A & B & C)].
    exists bl, k. split; [done|]. destruct (decide (at_s t = SRewind)).
    + destruct C as (-> & ->). split; [apply prefix_nil|lia].
    + split; [eapply prefix_app_l; by rewrite C|]. intros H0. destruct (B H0) as [Hall Eo]. unfold to_extract in C. rewrite Eo, app_nil_r in C. congruence.
  - intros t' Hrun Hnf. pose proof (sinv_run t t' Ht Hrun) as Ht'. destruct (split_ok_step t' Ht') as ([t''|] & E & _ & Ho).
    + exfalso. apply Hnf. exists t''. by apply srun_split.
    + destruct (Ho eq_refl) as [|Hc]; [done|]. exfalso. destruct (along_alive t' Ht') as [Hg _].
      destruct (busy_runs max_capacity_ true _ Hcap (si_iter t' Ht') Hc Hg) as [it ?]. apply Hnf. eexists. by apply srun_iter.
Qed.

(** An execution in which the named part makes each step. *)
Inductive sactor := Splitting | Asking (rewind : bool) | Hinting (chunk_size : nat) | Within (a : actor).
Fixpoint splay (turns : list sactor) (t : tsplit) : option tsplit :=
  match turns with
  | [] => Some t
  | a :: turns =>
      match match a with
            | Splitting => split_step t
            | Asking rewind => split_call rewind t
            | Hinting n => Ok (if decide (t.(at_s) = SIdle) then Some (split_hint n t) else None)
            | Within Consuming => o ← consumer_step true t.(iter_); Ok (option_map (fun it => with_iter it t) o)
            | Within _ => o ← producer_step max_capacity_ t.(iter_); Ok (option_map (fun it => with_iter it t) o)
            end with
      | Ok (Some t) => splay turns t
      | _ => None
      end
  end.

Lemma splay_steps turns t t' : splay turns t = Some t' -> rtc sstep t t'.
Proof.
  induction turns as [|a turns IH] in t |- *; [by intros [= ->]|]. cbn [splay]. intros E. destruct a as [|r|n|a].
  - destruct (split_step t) as [[t1|]|] eqn:E1; try done. eapply rtc_l; [|by apply IH]. by apply sstep_split.
  - destruct (split_call r t) as [[t1|]|] eqn:E1; try done. eapply rtc_l; [|by apply IH]. by eapply sstep_call.
  - case_decide; [|done]. eapply rtc_l; [|by apply IH]. by apply sstep_hint.
  - destruct a; [destruct (producer_step max_capacity_ (iter_ t)) as [[it|]|] eqn:E1|destruct (consumer_step true (iter_ t)) as [[it|]|] eqn:E1
      |destruct (producer_step max_capacity_ (iter_ t)) as [[it|]|] eqn:E1]; try done;
      cbn [mbind outcome_bind option_map] in E; (eapply rtc_l; [|exact (IH _ E)]); apply sstep_iter, quiet_run; first [by apply run_producer|by apply run_consumer].
Qed.
End ThreadedSplit.

(** ** Chunks of lines *)

(** [NextChunk]: what [ExtractNextChunk] promises. *)
Definition next_chunk (c : Chunk) : outcome (option (Blob * Chunk)) := Ok (ExtractNextChunk c).

Lemma next_chunk_ok `{SL : SplitterLaws} {U} `{!Pieces (SL := SL) U} c : hand_ok c ->
  if decide (c.(c_begin) = c.(c_end)) then next_chunk c = Ok None
  else exists b c', next_chunk c = Ok (Some (b, c')) /\ hand_ok c' /\ chunk_pieces c = pieces (blob_bytes b) ++ chunk_pieces c'.
Proof.
  intros [Hm Hc]. unfold next_chunk, ExtractNextChunk. case_decide; [done|]. eexists _, _. split; [done|]. split; [split; simpl; [done|lia]|].
  unfold chunk_pieces. cbn [c_begin c_end data]. rewrite decide_True, decide_False, app_nil_r by lia. done.
Qed.

(** The text up to and with each end of line. *)
Fixpoint cut_lines (cur : list byte) (l : list byte) : list (list byte) :=
  match l with
  | [] => match cur with [] => [] | _ => [cur] end
  | c :: l => if is_eol c then (cur ++ [c]) :: cut_lines [] l else cut_lines (cur ++ [c]) l
  end.
Definition raw_lines (l : list byte) : list (list byte) := cut_lines [] l.

Lemma cut_lines_eol cur l1 c l2 : is_eol c = true -> cut_lines cur (l1 ++ c :: l2) = cut_lines cur (l1 ++ [c]) ++ raw_lines l2.
Proof.
  intros Hc. revert cur. induction l1 as [|d l1 IH]; intros cur; simpl; [by rewrite Hc|]. destruct (is_eol d); [simpl; f_equal|]; apply IH.
Qed.

Lemma cut_lines_some cur l : cur <> [] \/ l <> [] -> cut_lines cur l <> [].
Proof.
  revert cur. induction l as [|c l IH]; intros cur H; simpl; [destruct cur; [by destruct H|done]|].
  destruct (is_eol c); [done|]. apply IH. left. by destruct cur.
Qed.

Lemma cut_lines_concat cur l : concat (cut_lines cur l) = cur ++ l.
Proof.
  revert cur. induction l as [|c l IH]; intros cur; simpl.
  - rewrite app_nil_r. destruct cur; [done|]. simpl. by rewrite app_nil_r.
  - destruct (is_eol c); simpl; rewrite IH; by rewrite <- app_assoc.
Qed.

#[export, program] Instance line_pieces : Pieces (SL := LineSplitter_laws) (list byte) := {| pieces := raw_lines |}.
Next Obligation. done. Qed.
Next Obligation. intros l Hl. apply cut_lines_some. by right. Qed.
Next Obligation. intros l1 l2 _ (l & c & -> & Hc). rewrite <- app_assoc. simpl. by apply cut_lines_eol. Qed.

(** A line without its end, unless it is empty. *)
Definition line_text (r : list byte) : option (list byte) :=
  match filter (fun c => is_eol c = false) r with [] => None | l => Some l end.

Lemma no_eol_filter l : Forall (fun c => is_eol c = false) l -> filter (fun c => is_eol c = false) l = l.
Proof. intros Hl. induction Hl as [|c l Hc Hl IH]; [done|]. rewrite filter_cons_True by done. by rewrite IH. Qed.

Lemma lines_cut cur l : Forall (fun c => is_eol c = false) cur -> lines_from cur l = omap line_text (cut_lines cur l).
Proof.
  revert cur. induction l as [|c l IH]; intros cur Hcur; simpl.
  - destruct cur as [|x cur]; [done|]. simpl. unfold line_text. rewrite no_eol_filter by done. done.
  - destruct (is_eol c) eqn:Ec.
    + simpl. unfold line_text at 1. rewrite filter_app, no_eol_filter by done. rewrite filter_cons_False by congruence. rewrite filter_nil, app_nil_r.
      destruct cur; simpl; rewrite IH by constructor; done.
    + apply IH. apply Forall_app. split; [done|]. by repeat constructor.
Qed.
Lemma lines_raw l : lines l = omap line_text (raw_lines l).
Proof. by apply lines_cut. Qed.

Section LinesAhead.
Context (got : nat -> nat -> nat -> nat) (kBufferSize max_capacity_ : nat).
Hypothesis (Hbuf : 0 < kBufferSize) (Hcap : 0 < max_capacity_) (got_ok : forall f pos n, 0 < n -> 0 < got f pos n <= n).
Abbreviation reached := (sreachable (Sp := LineSplitter) got kBufferSize max_capacity_ next_chunk).

(** The bytes and the lines of blobs that hold pieces of a text. *)
Lemma raw_concat l : concat (raw_lines l) = l.
Proof. apply cut_lines_concat. Qed.

Lemma blobs_concat bl : concat (concat (map (fun b => raw_lines (blob_bytes b)) bl)) = concat (map blob_bytes bl).
Proof. induction bl as [|b bl IH]; [done|]. simpl. by rewrite concat_app, raw_concat, IH. Qed.

Lemma blobs_bytes bl l : concat (map (fun b => raw_lines (blob_bytes b)) bl) `prefix_of` raw_lines l -> concat (map blob_bytes bl) `prefix_of` l.
Proof.
  intros [r Hr]. apply (f_equal (fun x => concat x)) in Hr. rewrite raw_concat, concat_app, blobs_concat in Hr. by exists (concat r).
Qed.

Lemma blobs_lines bl l : concat (map (fun b => raw_lines (blob_bytes b)) bl) = raw_lines l -> concat (map (fun b => lines (blob_bytes b)) bl) = lines l.
Proof.
  intros E. rewrite lines_raw, <- E. clear. induction bl as [|b bl IH]; [done|]. simpl. by rewrite omap_app, IH, lines_raw.
Qed.

(** C13: the splitter that reads ahead, over the text of a part.  For every
    interleaving with its thread, every sequence of calls of [NextChunk],
    [BeforeFirst] and [HintChunkSize], and however few bytes the streams give:
    nothing fails; the chunks returned since the last [BeforeFirst] are the first
    bytes of the part, no line is cut between two of them, and [false] is returned
    behind all of the part only; every call returns. *)
Theorem threaded_split_lines found rank nsplit : 0 < nsplit ->
  let files := InitInputFileInfo found in
  exists part, Init (Sp := LineSplitter) kBufferSize found rank nsplit 1 = Ok part /\
    part_bytes part = segment (edge files nsplit 1 rank) (edge files nsplit 1 (rank + 1)) (concat files) /\
    forall t, reached part t ->
      ~ sfails (Sp := LineSplitter) got max_capacity_ next_chunk t /\
      (exists bl k, t.(shown) = map Some bl ++ replicate k None /\ concat (map blob_bytes bl) `prefix_of` part_bytes part /\
         concat (map (fun b => raw_lines (blob_bytes b)) bl) `prefix_of` raw_lines (part_bytes part) /\
         (0 < k -> concat (map blob_bytes bl) = part_bytes part /\ concat (map (fun b => lines (blob_bytes b)) bl) = lines (part_bytes part))) /\
      sn (srun (Sp := LineSplitter) got max_capacity_ next_chunk) t /\
      forall t', rtc (srun (Sp := LineSplitter) got max_capacity_ next_chunk) t t' -> nf (srun (Sp := LineSplitter) got max_capacity_ next_chunk) t' -> t'.(at_s) = SIdle.
Proof.
  intros Hn files. destruct (Init_ok 1 line_align kBufferSize Hbuf found rank nsplit Hn) as (part & E & Hok & _ & Hpb & Htc).
  { apply Forall_forall. intros. apply Nat.mod_1_r. }
  { apply line_files. }
  exists part. split; [done|]. split; [by rewrite Hpb|]. intros t Hr.
  destruct (threaded_split_pieces (SL := LineSplitter_laws) (Pieces0 := line_pieces) got kBufferSize max_capacity_ next_chunk got_ok part Hok (line_whole _) (fun b => raw_lines (blob_bytes b)) (next_chunk_ok (SL := LineSplitter_laws) (Pieces0 := line_pieces)) t Hcap Hbuf Hpb Hr)
    as (Hf & (bl & k & A & B & C) & Hsn & Hret).
  split; [done|]. split; [|done]. exists bl, k. split; [done|]. split; [by apply blobs_bytes|]. split; [done|]. intros Hk. specialize (C Hk). split; [|by apply blobs_lines].
  apply (f_equal (fun x => concat x)) in C. by rewrite blobs_concat, raw_concat in C.
Qed.
End LinesAhead.

(** ** Examples *)
Module ThreadedSplitExample.
(** A text with a line that does not fit in a buffer of eight bytes. *)
Definition text : list byte := map (fun n => byte.of_Z (Z.of_nat n)) [97;98;10;99;100;101;102;103;104;105;106;107;10;108;10].
Definition few (f pos n : nat) : nat := Nat.min n 3.
Abbreviation plays := (splay (Sp := LineSplitter) few 8 next_chunk).

Definition start : option tsplit := match Init (Sp := LineSplitter) 1 [text] 0 1 1 with Ok s => Some (new_ThreadedInputSplit 1 s) | Fail _ => None end.
Definition seen (o : option tsplit) : option (list (option (list byte))) := match o with Some t => Some (map (option_map blob_bytes) t.(shown)) | None => None end.

(** The thread loads a chunk. *)
Definition load : list sactor := replicate 4 (Within Producing).
(** [NextChunk] with no chunk in hand, and with one that was returned. *)
Definition first : list sactor := [Asking false; Splitting; Within Consuming; Splitting; Splitting].
Definition second : list sactor := [Asking false; Splitting; Within Consuming; Splitting; Within Consuming; Splitting; Splitting].

Definition turns : list sactor := load ++ load ++ first ++ second.

Example split_reads : option_map (fun o => map (option_map (fun b => length b)) o) (seen (start ≫= plays turns)) = Some [Some 3; Some 12].
Proof. vm_compute. reflexivity. Qed.

(** [BeforeFirst] with a chunk in hand: the part begins again. *)
Example split_rewinds : option_map (fun o => map (option_map (fun b => length b)) o)
  (seen (start ≫= plays (turns ++ [Asking true; Within Producing; Within Producing; Within Consuming; Within Consuming; Splitting; Within Consuming; Splitting] ++ load ++ first))) =
  Some [Some 3].
Proof. vm_compute. reflexivity. Qed.

Lemma few_ok f pos n : 0 < n -> 0 < few f pos n <= n.
Proof. unfold few. lia. Qed.

Lemma threaded_split_lines_witness : exists t, start ≫= plays turns = Some t /\ length t.(shown) = 2 /\ ~ sfails (Sp := LineSplitter) few 8 next_chunk t.
Proof.
  destruct (threaded_split_lines few 1 8 Nat.lt_0_1 ltac:(lia) few_ok [text] 0 1 Nat.lt_0_1) as (part & E & _ & Hall).
  assert (start = Some (new_ThreadedInputSplit 1 part)) as Es by (unfold start; by rewrite E).
  assert (is_Some (start ≫= plays turns)) as [t Et] by (vm_compute; eauto). exists t. split; [exact Et|]. split.
  - assert (option_map (fun t => length t.(shown)) (start ≫= plays turns) = Some 2) as El by (vm_compute; reflexivity). rewrite Et in El. by injection El.
  - rewrite Es in Et. apply (Hall t). eapply splay_steps. exact Et.
Defined.
End ThreadedSplitExample.
