(* ===== verification/CachedSplit.v ===== *)
(** * Chunks kept in a file

    Models the two producers of [CachedInputSplit] of
    src/dmlc-core/src/io/cached_input_split.h: the first pass loads chunks with the
    splitter of [InputSplit] and writes them to a file, every later pass reads them
    from it, each behind its own [ThreadedIter]. *)
From S2P Require Import Prelude Stream InputSplit ThreadedIter.

Section CachedSplit.
Context `{SL : SplitterLaws}.
(** How much a stream gives, as in [InputSplit]. *)
Context (got : nat -> nat -> nat -> nat).

(** What the closures use: the splitter, [buffer_size_] and [fo_]. *)
Record preproc := mkPre { base_ : InputSplitBase; size_ : nat; fo_ : StringStream.t }.

(** [p->begin] to [p->end] *)
Definition chunk_bytes (c : Chunk) : list byte := segment c.(c_begin) c.(c_end) c.(data).

(** The closure of [InitPreprocIter]; there is none to start again. *)
Definition preproc_next (p : preproc) (c : Chunk) : outcome (bool * Chunk * preproc) :=
  '(r, c, s) ← Load got p.(base_) c p.(size_);
  if (r : bool) then
    let size := c.(c_end) - c.(c_begin) in
    fo ← Stream.Write (le_split 8 (Z.of_nat size)) p.(fo_);
    fo ← Stream.Write (chunk_bytes c) fo;
    Ok (true, c, mkPre s p.(size_) fo)
  else Ok (false, c, mkPre s p.(size_) p.(fo_)).
Definition InitPreprocIter : Producer preproc Chunk := {|
  next := preproc_next;
  beforefirst _ := Fail CheckFailed;
  fresh p := mkChunk 0 0 (replicate (word_size * (p.(size_) + 1)) Byte.x00)
|}.

(** The closures of [InitCachedIter], on the file that was opened. *)
Definition cached_next (fi : MemoryStringStream.t) (p : Chunk) : outcome (bool * Chunk * MemoryStringStream.t) :=
  '(b, fi) ← Stream.Read 8 fi;
  if decide (length b = 0) then Ok (false, p, fi) else
  _ ← check (bool_decide (length b = 8));
  let size := Z.to_nat (le_combine b) in
  let d := resize (word_size * (size / word_size + 1)) Byte.x00 p.(data) in
  '(b, fi) ← Stream.Read size fi;
  _ ← check (bool_decide (length b = size));
  d ← copy_to d 0 b;
  Ok (true, mkChunk 0 size d, fi).
Definition InitCachedIter (buffer_size_ : nat) : Producer MemoryStringStream.t Chunk := {|
  next := cached_next;
  beforefirst fi := Ok (MemoryStringStream.Seek 0 fi);
  fresh _ := mkChunk 0 0 (replicate (word_size * (buffer_size_ + 1)) Byte.x00)
|}.

(** ** The first pass *)
Hypothesis got_ok : forall f pos n, 0 < n -> 0 < got f pos n <= n.

(** A chunk in the file. *)
Definition entry (b : list byte) : list byte := le_split 8 (Z.of_nat (length b)) ++ b.
Definition entries (bs : list (list byte)) : list byte := concat (map entry bs).

Record pre_ok (p : preproc) (bs : list (list byte)) : Prop := {
  po_base : base_ok p.(base_);
  po_whole : whole (to_come p.(base_));
  po_size : 0 < p.(size_);
  po_file : p.(fo_).(StringStream.buf_) = entries bs
}.

(** Every chunk that is returned is in the file before it is in the queue. *)
Lemma preproc_writes p bs c : pre_ok p bs -> length c.(data) mod word_size = 0 -> exists r c' p', preproc_next p c = Ok (r, c', p') /\ length c'.(data) mod word_size = 0 /\
  if r : bool then chunk_bytes c' <> [] /\ to_come p.(base_) = chunk_bytes c' ++ to_come p'.(base_) /\ pre_ok p' (bs ++ [chunk_bytes c'])
  else to_come p.(base_) = [] /\ pre_ok p' bs.
Proof.
  intros [H1 H2 H3 H4] Hc. destruct (Load_ok got got_ok (base_ p) c (size_ p) H1 H2 Hc H3) as (r & c' & s' & E & Hb & Hp & Hm & Hr).
  unfold preproc_next. rewrite E. cbn [mbind outcome_bind]. destruct r.
  - destruct Hr as (Hb0 & He & Heq & Hw & Hend). eexists true, _, _. split; [done|]. split; [done|].
    assert (chunk_bytes c' = take (c_end c') (data c')) as Ec by (unfold chunk_bytes, segment; by rewrite Hb0, Nat.sub_0_r, drop_0).
    assert (length (chunk_bytes c') = c_end c') as El by (rewrite Ec, length_take; lia). cbn [base_ size_ fo_]. split; [|split; [by rewrite Ec|]].
    { intros E0. rewrite E0 in El. simpl in El. lia. }
    split; cbn [base_ size_ fo_]; try done; [rewrite Heq in H2; exact (whole_cancel _ _ H2 Hw)|].
    cbn [StringStream.Write StringStream.buf_]. rewrite H4, Hb0, Nat.sub_0_r, <- El, <- app_assoc. unfold entries. rewrite map_app, concat_app. cbn [map concat]. by rewrite app_nil_r.
  - destruct Hr as (Hr1 & Hr2 & _). eexists false, _, _. split; [done|]. split; [done|]. split; [done|]. split; cbn [base_ size_ fo_]; try done. rewrite Hr2. apply whole_nil.
Qed.

(** The pass as the owner lets it run to its end, in [BeforeFirst] at the latest;
    the cells may be any. *)
Fixpoint first_pass (fuel : nat) (p : preproc) (c : Chunk) : outcome (list (list byte) * list byte) :=
  match fuel with
  | 0 => Fail OutOfFuel
  | S fuel =>
      '(r, c, p) ← preproc_next p c;
      if (r : bool) then '(bs, f) ← first_pass fuel p c; Ok (chunk_bytes c :: bs, f)
      else Ok ([], StringStream.str p.(fo_))
  end.

Lemma first_pass_file fuel : forall p bs c, pre_ok p bs -> length c.(data) mod word_size = 0 -> length (to_come p.(base_)) < fuel ->
  exists bs', first_pass fuel p c = Ok (bs', entries (bs ++ bs')) /\ concat bs' = to_come p.(base_) /\ Forall (fun b => b <> []) bs'.
Proof.
  induction fuel as [|fuel IH]; intros p bs c Hp Hc Hf; [lia|]. cbn [first_pass].
  destruct (preproc_writes p bs c Hp Hc) as (r & c' & p' & -> & Hc' & Hr). cbn [mbind outcome_bind]. destruct r.
  - destruct Hr as (Hne & Heq & Hp'). destruct (IH p' _ c' Hp' Hc') as (bs' & -> & Hcat & Hall).
    { rewrite Heq, length_app in Hf. destruct (chunk_bytes c'); [done|]. simpl in Hf. lia. }
    cbn [mbind outcome_bind]. exists (chunk_bytes c' :: bs'). rewrite <- app_assoc. cbn [concat app]. rewrite Hcat, Heq. split_and!; try done. by constructor.
  - destruct Hr as (Hr & [_ _ _ Hfile]). exists []. rewrite app_nil_r, Hr. unfold StringStream.str. rewrite Hfile. done.
Qed.

(** ** Later passes *)

Lemma entry_length b : length (entry b) = 8 + length b.
Proof. unfold entry. by rewrite length_app, length_le_split. Qed.

(** The entries behind a position of the file. *)
Fixpoint entries_from (n : nat) (bs : list (list byte)) : list (list byte) :=
  match bs with
  | [] => []
  | b :: rest => if decide (n = 0) then bs else entries_from (n - length (entry b)) rest
  end.
Lemma entries_from_take bs1 bs2 : entries_from (length (entries bs1)) (bs1 ++ bs2) = bs2.
Proof.
  induction bs1 as [|b bs1 IH]; [by destruct bs2|]. unfold entries in *. cbn [app map concat entries_from]. rewrite length_app. pose proof (entry_length b).
  rewrite decide_False by lia. by rewrite Nat.add_comm, Nat.add_sub.
Qed.

Lemma word_resize n (d : list byte) : let d' := resize (word_size * (n / word_size + 1)) Byte.x00 d in length d' mod word_size = 0 /\ n < length d'.
Proof.
  cbv zeta. rewrite length_resize. split; [by rewrite Nat.mul_comm, Nat.Div0.mod_mul|]. pose proof (Nat.div_mod_eq n word_size).
  pose proof (Nat.mod_upper_bound n word_size ltac:(unfold word_size; lia)). lia.
Qed.

Lemma memory_read n f cur : cur + n <= length f -> Stream.Read n (MemoryStringStream.mk f cur) = Ok (take n (drop cur f), MemoryStringStream.mk f (cur + n)).
Proof.
  intros Hn. cbn [Stream.Read MemoryStringStream_Stream]. unfold MemoryStringStream.Read. cbn [MemoryStringStream.curr_ptr_ MemoryStringStream.p_buffer_].
  rewrite bool_decide_eq_true_2 by lia. cbn [check mbind outcome_bind]. by rewrite Nat.min_r by lia.
Qed.

Lemma memory_read_end n f : Stream.Read n (MemoryStringStream.mk f (length f)) = Ok ([], MemoryStringStream.mk f (length f)).
Proof.
  cbn [Stream.Read MemoryStringStream_Stream]. unfold MemoryStringStream.Read. cbn [MemoryStringStream.curr_ptr_ MemoryStringStream.p_buffer_].
  rewrite bool_decide_eq_true_2 by lia. cbn [check mbind outcome_bind]. by rewrite Nat.sub_diag, Nat.min_0_l, take_0, Nat.add_0_r.
Qed.

Section Cached.
Context (bs : list (list byte)) (Hbs : Forall (fun b => b <> [] /\ (Z.of_nat (length b) < 2 ^ 64)%Z) bs) (buffer_size_ : nat).

Definition at_entry (fi : MemoryStringStream.t) : Prop :=
  exists b1 b2, bs = b1 ++ b2 /\ fi = MemoryStringStream.mk (entries bs) (length (entries b1)).

Lemma cached_entry b1 b b2 p : bs = b1 ++ b :: b2 -> exists c, cached_next (MemoryStringStream.mk (entries bs) (length (entries b1))) p =
    Ok (true, c, MemoryStringStream.mk (entries bs) (length (entries (b1 ++ [b])))) /\ chunk_bytes c = b /\ length c.(data) mod word_size = 0.
Proof.
  intros Hb. assert (entries bs = entries b1 ++ le_split 8 (Z.of_nat (length b)) ++ b ++ entries b2) as Ef.
  { rewrite Hb. unfold entries. rewrite map_app, concat_app. cbn [map concat]. unfold entry at 2. by rewrite <- app_assoc. }
  assert (length (entries (b1 ++ [b])) = length (entries b1) + 8 + length b) as El.
  { unfold entries. rewrite map_app, concat_app, length_app. cbn [map concat]. rewrite app_nil_r, entry_length. lia. }
  assert (Z.of_nat (length b) < 2 ^ 64)%Z as Hz by (rewrite Hb, Forall_app, Forall_cons in Hbs; tauto).
  assert (length (entries bs) = length (entries b1) + 8 + length b + length (entries b2)) as Ll by (rewrite Ef, !length_app, length_le_split; lia).
  assert (take 8 (drop (length (entries b1)) (entries bs)) = le_split 8 (Z.of_nat (length b))) as T1.
  { rewrite Ef, drop_app_length. apply take_app_length'. by rewrite length_le_split. }
  assert (take (length b) (drop (length (entries b1) + 8) (entries bs)) = b) as T2.
  { rewrite Ef, <- drop_drop, drop_app_length, drop_app_length' by (by rewrite length_le_split). by rewrite take_app_length. }
  unfold cached_next. rewrite memory_read by lia. cbn [mbind outcome_bind]. rewrite T1, length_le_split, decide_False by lia. rewrite bool_decide_eq_true_2 by done.
  cbn [check mbind outcome_bind]. rewrite le_combine_split, Z.mod_small by (change (Z.of_nat 8 * 8)%Z with 64%Z; lia). rewrite Nat2Z.id.
  rewrite memory_read by lia. cbn [mbind outcome_bind]. rewrite T2, bool_decide_eq_true_2 by done. cbn [check mbind outcome_bind].
  destruct (word_resize (length b) (data p)) as [R1 R2]. rewrite copy_to_ok by lia. cbn [mbind outcome_bind]. rewrite <- Nat.add_assoc in El. eexists.
  split; [by rewrite El, Nat.add_assoc|]. cbn [data]. rewrite length_inserts. split; [|done]. unfold chunk_bytes. cbn [c_begin c_end data]. unfold segment.
  rewrite Nat.sub_0_r, drop_0. apply (take_list_inserts 0 b). lia.
Qed.

Definition chunk_unit (c : Chunk) : list (list byte) := match chunk_bytes c with [] => [] | b => [b] end.

(** The chunks of a later pass are those of the first one: the closures of the
    iterator keep its promise. *)
#[local] Instance cached_pass : Producer MemoryStringStream.t Chunk := InitCachedIter buffer_size_.
#[local] Program Instance cached_laws : @ProducerLaws _ _ cached_pass (list byte) := {|
  content := chunk_unit;
  items fi := entries_from fi.(MemoryStringStream.curr_ptr_) bs;
  everything := bs;
  p_ok := at_entry;
  d_ok c := length c.(data) mod word_size = 0
|}.
Next Obligation.
  intros p Hp. 
  cbn [fresh cached_pass InitCachedIter data]. by rewrite length_replicate, Nat.mul_comm, Nat.Div0.mod_mul.
Qed.
Next Obligation.
  intros fi old (b1 & b2 & Hb & ->) Hold. cbn [next cached_pass InitCachedIter]. destruct b2 as [|b b2].
  - rewrite app_nil_r in Hb. subst b1. unfold cached_next. rewrite memory_read_end. cbn [mbind outcome_bind]. rewrite decide_True by done. eexists false, _, _. split; [done|].
    cbn [MemoryStringStream.curr_ptr_]. split; [exists bs, []; by rewrite app_nil_r|]. split; [done|]. rewrite <- (app_nil_r bs) at 2 4. by rewrite entries_from_take.
  - destruct (cached_entry b1 b b2 old Hb) as (c & -> & Hc & Hd). eexists true, c, _. split; [done|]. cbn [MemoryStringStream.curr_ptr_].
    split; [exists (b1 ++ [b]), b2; by rewrite <- app_assoc|]. split; [done|]. assert (b <> []) as Hne by (rewrite Hb, Forall_app, Forall_cons in Hbs; tauto).
    assert (chunk_unit c = [b]) as -> by (unfold chunk_unit; rewrite Hc; by destruct b). split; [done|]. rewrite Hb at 1. rewrite entries_from_take. cbn [app]. f_equal.
    assert (bs = (b1 ++ [b]) ++ b2) as Hb' by (by rewrite <- app_assoc). rewrite Hb'. by rewrite entries_from_take.
Qed.
Next Obligation.
  intros fi (b1 & b2 & Hb & ->). eexists. split; [done|]. unfold MemoryStringStream.Seek. cbn [MemoryStringStream.curr_ptr_ MemoryStringStream.p_buffer_].
  split; [by exists [], bs|]. apply (entries_from_take [] bs).
Qed.

Lemma later_pass max_capacity_ s : reachable max_capacity_ true (MemoryStringStream.mk (entries bs) 0) s -> s.(at_c) <> CGone ->
  ~ fails max_capacity_ true s /\ map chunk_bytes (ThreadedIter.got s) `prefix_of` bs /\ (None ∈ s.(log) -> map chunk_bytes (ThreadedIter.got s) = bs).
Proof.
  intros Hr Hg. assert (inv (LP := cached_laws) max_capacity_ s) as Hi.
  { eapply inv_reachable; [| |exact Hr]; [by exists [], bs|]. apply (entries_from_take [] bs). }
  split; [by apply (inv_not_fails (LP := cached_laws) max_capacity_ true)|]. destruct (got_facts _ s Hi Hg) as ([Hpre Hne] & Hend & _). cbn [everything cached_laws] in *.
  assert (units (LP := cached_laws) (ThreadedIter.got s) = map chunk_bytes (ThreadedIter.got s)) as Eu.
  { unfold units. clear -Hne. induction Hne as [|c l Hc _ IH]; [done|]. cbn [map concat content cached_laws] in *. rewrite IH. unfold chunk_unit in *. by destruct (chunk_bytes c). }
  by rewrite Eu in Hpre, Hend.
Qed.
End Cached.

(** Both passes: the chunks of the first one are the part, and every later one gives
    the same chunks, whatever its threads do. *)
Lemma cached_passes p c max_capacity_ buffer_size_ fuel : pre_ok p [] -> length c.(data) mod word_size = 0 -> length (to_come p.(base_)) < fuel ->
  (Z.of_nat (length (to_come p.(base_))) < 2 ^ 64)%Z ->
  exists bs f, first_pass fuel p c = Ok (bs, f) /\ concat bs = to_come p.(base_) /\
    forall s, reachable (Producer0 := InitCachedIter buffer_size_) max_capacity_ true (MemoryStringStream.mk f 0) s -> s.(at_c) <> CGone ->
      ~ fails (Producer0 := InitCachedIter buffer_size_) max_capacity_ true s /\
      map chunk_bytes (ThreadedIter.got s) `prefix_of` bs /\ (None ∈ s.(log) -> map chunk_bytes (ThreadedIter.got s) = bs).
Proof.
  intros Hp Hc Hf Hz. destruct (first_pass_file fuel p [] c Hp Hc Hf) as (bs & E & Hcat & Hall). exists bs, (entries bs). split; [done|]. split; [done|].
  intros s. apply later_pass. rewrite Forall_forall in Hall |- *. intros b Hb. split; [by apply Hall|]. apply list_elem_of_split in Hb as (b1 & b2 & ->).
  rewrite <- Hcat, concat_app, length_app in Hz. cbn [concat] in Hz. rewrite length_app in Hz. lia.
Qed.
End CachedSplit.
