(* ===== verification/DiskRows.v ===== *)
(** * Iterators over all rows

    Models [BasicRowIter] of src/dmlc-core/src/data/basic_row_iter.h, which keeps the
    rows of a parser in memory, and [DiskRowIter] of
    src/dmlc-core/src/data/disk_row_iter.h, which writes them to a file in pages and
    reads the pages ahead with a [ThreadedIter].  A parser is the list of the blocks
    that its calls of [Next] return. *)
From stdpp Require Import relations.
From S2P Require Import Prelude Floats Stream RowBlock ThreadedIter.

Section RowIters.
Context {F : Type} `{Float F} (PF : Pod F) (isz kPageSize : nat).

(** The largest value of the index type. *)
Definition imax : Z := (2 ^ (Z.of_nat isz * 8) - 1)%Z.

(** ** [BasicRowIter] *)

Record BasicRowIter := mkBasic { at_head_ : bool; row_ : RowBlock F; data_ : Container F }.

(** [Init(parser)] and the constructor *)
Definition Init (parser : list (RowBlock F)) : outcome (RowBlock F * Container F) :=
  data ← foldM (fun data b => Push_block imax b data) parser Clear;
  row ← GetBlock data;
  Ok (row, data).
Definition new_BasicRowIter (parser : list (RowBlock F)) : outcome BasicRowIter :=
  '(row, data) ← Init parser; Ok (mkBasic true row data).

Definition basic_BeforeFirst (it : BasicRowIter) : BasicRowIter := mkBasic true it.(row_) it.(data_).
Definition basic_Next (it : BasicRowIter) : bool * BasicRowIter :=
  if it.(at_head_) then (true, mkBasic false it.(row_) it.(data_)) else (false, it).
Definition basic_Value (it : BasicRowIter) : RowBlock F := it.(row_).
Definition basic_NumCol (it : BasicRowIter) : Z := (it.(data_).(max_index) + 1)%Z.

(** ** [DiskRowIter] *)

(** The loop of [BuildCache]: the file, the page and [num_col_]. *)
Definition build_step (st : StringStream.t * Container F * Z) (b : RowBlock F) : outcome (StringStream.t * Container F * Z) :=
  let '(fo, data, num_col) := st in
  data ← Push_block imax b data;
  if decide (kPageSize <= ContMemCostBytes isz data) then
    fo ← Save PF isz data fo;
    let data := Clear in
    Ok (fo, data, Z.max num_col (data.(max_index) + 1))
  else Ok (fo, data, num_col).

(** [BuildCache(parser)]: what the file holds then, and [num_col_]. *)
Definition BuildCache (parser : list (RowBlock F)) : outcome (list byte * Z) :=
  '(fo, data, num_col) ← foldM build_step parser (StringStream.empty, Clear, 0%Z);
  fo ← (if decide (Size data <> 0) then Save PF isz data fo else Ok fo);
  Ok (StringStream.str fo, num_col).

(** The closures of the iterator; the file is opened for reading. *)
#[export] Instance pages_ahead : Producer MemoryStringStream.t (Container F) := {|
  next fi page :=
    '(o, fi) ← RowBlock.Load PF isz fi;
    Ok (match o with Some page => (true, page, fi) | None => (false, page, fi) end);
  beforefirst fi := Ok (MemoryStringStream.Seek 0 fi);
  fresh _ := Clear
|}.

(** The members; [num_col_] is [None] when nothing was stored in it.  The row block
    [row_] points into the cell that the iterator holds. *)
Record DiskRowIter := mkDisk { num_col_ : option Z; iter_ : @state MemoryStringStream.t (Container F) }.

(** [TryLoadCache()], on the file if there is one. *)
Definition TryLoadCache (disk : option (list byte)) : option (@state MemoryStringStream.t (Container F)) :=
  (fun f => init (MemoryStringStream.mk f 0)) <$> disk.

(** The constructor: the iterator and the file. *)
Definition new_DiskRowIter (parser : list (RowBlock F)) (disk : option (list byte)) (reuse_cache : bool) : outcome (DiskRowIter * option (list byte)) :=
  match (if reuse_cache then TryLoadCache disk else None) with
  | Some it => Ok (mkDisk None it, disk)
  | None =>
      '(f, num_col) ← BuildCache parser;
      match TryLoadCache (Some f) with
      | Some it => Ok (mkDisk (Some num_col) it, Some f)
      | None => Fail CheckFailed
      end
  end.

(** [iter_.Value().GetBlock()], behind a call of [Next] that returned [true]. *)
Definition disk_Value (s : @state MemoryStringStream.t (Container F)) : outcome (RowBlock F) :=
  match s.(out_data_) with
  | Some c => page ← read_at s.(heap) c; GetBlock page
  | None => Fail CheckFailed
  end.

(** ** The rows that are kept *)
Context (HPF : @PodLaws F PF) (Hpf : 0 < pod_size (A := F)) (Hisz : 0 < isz).

(** Rows that can be stored. *)
Record row_ok (r : arow (F := F)) : Prop := {
  ro_label : pod_valid r.(a_label);
  ro_weight : Forall pod_valid r.(a_weight);
  ro_value : Forall pod_valid r.(a_value);
  ro_index : Forall (fun ix => 0 <= ix <= imax)%Z r.(a_index)
}.

(** What the parser gives: blocks that show rows of one shape, not more of them than
    a vector can hold. *)
Definition few (rs : list (arow (F := F))) : Prop :=
  (Z.of_nat (length rs) + 1 < 2 ^ 61 /\ Z.of_nat (sum_list (map nfeat rs)) < 2 ^ 61)%Z.
Record parses (bs : list (RowBlock F)) (rss : list (list (arow (F := F)))) : Prop := {
  pa_shows : Forall2 (fun b rs => exists o0, shows o0 0 b rs) bs rss;
  pa_ok : Forall row_ok (concat rss);
  pa_uniform : uniform (concat rss);
  pa_few : few (concat rss)
}.

Lemma row_ok_range rs : Forall row_ok rs -> in_range imax rs.
Proof. intros Hr. eapply Forall_impl; [exact Hr|]. intros r [_ _ _ Hi]. eapply Forall_impl; [exact Hi|]. simpl. lia. Qed.

(** The largest index of a container. *)
Definition max_of (rs : list (arow (F := F))) : Z := foldl Z.max 0%Z (concat (map a_index rs)).

Lemma push_rows b c rs rs' o0 : holds c rs -> c.(max_index) = max_of rs -> shows o0 0 b rs' -> Forall row_ok rs' ->
  exists c', Push_block imax b c = Ok c' /\ holds c' (rs ++ rs') /\ c'.(max_index) = max_of (rs ++ rs').
Proof.
  intros Hc Hm Hb Hr. destruct (Push_block_adds imax b c rs rs' o0 Hc Hb (row_ok_range _ Hr)) as (c' & E & Hc' & Hm').
  exists c'. split_and!; try done. rewrite Hm', Hm. unfold max_of. by rewrite map_app, concat_app, foldl_app.
Qed.

Lemma foldl_max_bounds (l : list Z) a m : (a <= m)%Z -> Forall (fun i => 0 <= i <= m)%Z l ->
  (a <= foldl Z.max a l <= m)%Z /\ Forall (fun i => i <= foldl Z.max a l)%Z l.
Proof.
  revert a. induction l as [|i l IH]; intros a Ha Hl; simpl; [split; [lia|done]|]. apply Forall_cons in Hl as [Hi Hl].
  destruct (IH (Z.max a i)) as [H1 H2]; [lia|done|]. split; [lia|]. constructor; [lia|done].
Qed.

Lemma max_of_bounds rs : Forall row_ok rs -> (0 <= max_of rs <= imax)%Z /\ Forall (fun i => i <= max_of rs)%Z (concat (map a_index rs)).
Proof.
  intros Hr. apply foldl_max_bounds; [unfold imax; lia|]. induction Hr as [|r rs [_ _ _ Hi] _ IH]; simpl; [done|]. by apply Forall_app.
Qed.

(** ** In memory *)

Lemma basic_pushed bs rss : Forall2 (fun b rs => exists o0, shows o0 0 b rs) bs rss -> Forall row_ok (concat rss) -> forall c rs, holds c rs -> c.(max_index) = max_of rs ->
  exists c', foldM (fun data b => Push_block imax b data) bs c = Ok c' /\ holds c' (rs ++ concat rss) /\ c'.(max_index) = max_of (rs ++ concat rss).
Proof.
  induction 1 as [|b rs' bs rss [o0 Hb] _ IH]; intros Hok c rs Hc Hm; simpl in *; [exists c; by rewrite app_nil_r|].
  apply Forall_app in Hok as [Hr Hok]. destruct (push_rows b c rs rs' o0 Hc Hm Hb Hr) as (c1 & -> & Hc1 & Hm1). simpl.
  rewrite app_assoc. by apply IH.
Qed.

(** [BasicRowIter] shows all rows in one block, once behind each [BeforeFirst], and
    every feature is less than [NumCol]. *)
Lemma basic_row_iter bs rss : parses bs rss -> exists it, new_BasicRowIter bs = Ok it /\ shows 0 0 (basic_Value it) (concat rss) /\
  Forall (fun i => i < basic_NumCol it)%Z (concat (map a_index (concat rss))) /\
  basic_Next it = (true, mkBasic false it.(row_) it.(data_)) /\ (basic_Next (mkBasic false it.(row_) it.(data_))).1 = false /\
  basic_BeforeFirst (mkBasic false it.(row_) it.(data_)) = it.
Proof.
  intros [Hs Hok Hu _]. destruct (basic_pushed bs rss Hs Hok Clear []) as (c & E & Hc & Hm); [apply holds_Clear|done|]. cbn [app] in *.
  destruct (GetBlock_shows c _ Hc Hu) as (b & Eb & Hb). exists (mkBasic true b c). unfold new_BasicRowIter, Init. rewrite E. cbn [mbind outcome_bind]. rewrite Eb.
  split_and!; try done. unfold basic_NumCol. cbn [data_]. rewrite Hm. destruct (max_of_bounds _ Hok) as [_ Hi]. eapply Forall_impl; [exact Hi|]. simpl. lia.
Qed.

(** ** On the disk *)

Lemma uniform_sub rs1 rs2 rs3 : uniform (rs1 ++ rs2 ++ rs3) -> uniform (F := F) rs2.
Proof.
  unfold uniform. rewrite !Forall_app. naive_solver.
Qed.

Lemma few_sub rs1 rs2 rs3 : few (rs1 ++ rs2 ++ rs3) -> few rs2.
Proof. unfold few. rewrite !length_app, !map_app, !sum_list_app. lia. Qed.

(** A page of such rows can be written and read. *)
Lemma page_fits c rs : holds c rs -> c.(max_index) = max_of rs -> Forall row_ok rs -> uniform rs -> few rs -> fits PF isz c.
Proof.
  intros Hc Hm Hr Hu [Hf1 Hf2]. pose proof (holds_sizes _ _ Hc) as (L1 & L2 & _ & L4). destruct Hc as [E1 E2 E3 E4 E5]. unfold fits.
  assert (Forall (fun o => o <= sum_list (map nfeat rs)) (offset c)) as Hoff.
  { rewrite E1. apply Forall_lookup. intros i o Ho. pose proof (lookup_lt_Some _ _ _ Ho) as Hi. rewrite psums_length, length_map in Hi.
    rewrite psums_lookup in Ho by (rewrite length_map; lia). injection Ho as <-. pose proof (take_drop i (map nfeat rs)) as Hs. apply (f_equal sum_list) in Hs. rewrite sum_list_app in Hs. lia. }
  destruct (max_of_bounds _ Hr) as [Hmx _]. unfold imax in Hmx. rewrite <- Hm in Hmx.
  assert (length (concat (map a_weight rs)) <= length rs) as Hw.
  { destruct Hu as [_ [Hw|Hw]]; [by rewrite concat_nil by done; simpl; lia|by rewrite length_a_weight]. }
  assert (length (concat (map a_value rs)) <= sum_list (map nfeat rs)) as Hv.
  { destruct Hu as [[Hv|Hv] _]; [by rewrite concat_nil by done; simpl; lia|by rewrite length_a_value]. }
  split_and!.
  - eapply Forall_impl; [exact Hoff|]. simpl. lia.
  - rewrite E2. apply Forall_fmap. eapply Forall_impl; [exact Hr|]. by intros r [].
  - rewrite E3. clear -Hr. induction Hr as [|r rs [] _ IH]; simpl; [done|]. by apply Forall_app.
  - rewrite E4. clear -Hr. induction Hr as [|r rs [_ _ _ Hi] _ IH]; simpl; [done|]. apply Forall_app. split; [|done].
    eapply Forall_impl; [exact Hi|]. unfold imax. simpl. lia.
  - rewrite E5. clear -Hr. induction Hr as [|r rs [] _ IH]; simpl; [done|]. by apply Forall_app.
  - lia.
  - lia.
  - lia.
  - lia.
  - rewrite E3. lia.
  - rewrite E4, length_a_index. lia.
  - rewrite E5. lia.
Qed.

(** What the file holds. *)
Definition pages_enc (pages : list (Container F)) : list byte := concat (map (Container_enc PF isz) pages).

(** The pages of some of the rows. *)
Definition paged (pages : list (Container F)) (rs : list (arow (F := F))) : Prop :=
  exists prs, Forall2 (fun c r => holds c r /\ uniform r) pages prs /\ concat prs = rs /\ Forall (fits PF isz) pages.

Lemma paged_add pages rs c r : paged pages rs -> holds c r -> uniform r -> fits PF isz c -> paged (pages ++ [c]) (rs ++ r).
Proof.
  intros (prs & H1 & H2 & H3) Hc Hu Hf. exists (prs ++ [r]). rewrite concat_app, H2. simpl. rewrite app_nil_r. split_and!; try done.
  - apply Forall2_app; [done|]. constructor; [done|constructor].
  - apply Forall_app. split; [done|]. constructor; [done|constructor].
Qed.

Lemma save_page pages c (fo : StringStream.t) : sok fo -> StringStream.str fo = pages_enc pages ->
  exists fo', Save PF isz c fo = Ok fo' /\ sok fo' /\ StringStream.str fo' = pages_enc (pages ++ [c]).
Proof.
  intros Hok Hw. destruct (Save_container_spec PF isz HPF c fo 0 Hok I) as (fo' & E & Hw' & _ & Hok'). exists fo'. split_and!; try done.
  cbn [written StringStream_laws] in Hw'. unfold StringStream.str in *. rewrite Hw', Hw. unfold pages_enc. rewrite map_app, concat_app. simpl. by rewrite app_nil_r.
Qed.

(** In the loop of [BuildCache]. *)
Lemma build_pages all bs rss : Forall2 (fun b rs => exists o0, shows o0 0 b rs) bs rss -> Forall row_ok all -> uniform all -> few all ->
  forall seen fo pages saved data rs num, seen = saved ++ rs -> all = seen ++ concat rss ->
    sok fo -> StringStream.str fo = pages_enc pages -> paged pages saved -> holds data rs -> data.(max_index) = max_of rs -> (0 <= num <= 1)%Z ->
  exists fo' pages' saved' data' rs' num', foldM build_step bs (fo, data, num) = Ok (fo', data', num') /\ all = saved' ++ rs' /\
    sok fo' /\ StringStream.str fo' = pages_enc pages' /\ paged pages' saved' /\ holds data' rs' /\ data'.(max_index) = max_of rs' /\ (0 <= num' <= 1)%Z.
Proof.
  intros Hs Hok Hu Hf. induction Hs as [|b r bs rss [o0 Hb] _ IH]; intros seen fo pages saved data rs num -> Hall Hfo Hw Hp Hd Hm Hn; simpl in *.
  { exists fo, pages, saved, data, rs, num. rewrite app_nil_r in Hall. done. }
  rewrite <- app_assoc in Hall. assert (Forall row_ok (rs ++ r)) as Hr by (rewrite Hall, !Forall_app in Hok; rewrite Forall_app; tauto).
  destruct (push_rows b data rs r o0 Hd Hm Hb) as (c & -> & Hc & Hmc); [apply Forall_app in Hr as [_ Hr]; exact Hr|]. cbn [mbind outcome_bind]. rewrite (app_assoc rs) in Hall.
  case_decide as Hcost.
  - destruct (save_page pages c fo Hfo Hw) as (fo1 & -> & Hfo1 & Hw1). cbn [mbind outcome_bind].
    assert (paged (pages ++ [c]) (saved ++ rs ++ r)) as Hp1.
    { rewrite Hall in Hu, Hf. apply paged_add; [done|done|by eapply uniform_sub|]. apply (page_fits c (rs ++ r)); [done|done|done|by eapply uniform_sub|by eapply few_sub]. }
    apply (IH ((saved ++ rs ++ r) ++ []) fo1 (pages ++ [c]) (saved ++ rs ++ r) Clear []); [done|by rewrite app_nil_r, <- app_assoc|done|done|done|apply holds_Clear|done|simpl; lia].
  - apply (IH (saved ++ rs ++ r) fo pages saved c (rs ++ r)); try done. by rewrite <- app_assoc.
Qed.

Lemma BuildCache_pages bs rss : parses bs rss -> exists pages num, BuildCache bs = Ok (pages_enc pages, num) /\ paged pages (concat rss) /\ (0 <= num <= 1)%Z.
Proof.
  intros [Hs Hok Hu Hf]. destruct (build_pages (concat rss) bs rss Hs Hok Hu Hf [] StringStream.empty [] [] Clear [] 0%Z) as (fo & pages & saved & data & rs & num & E & Hall & Hfo & Hw & Hp & Hd & Hm & Hn);
    [done|done|simpl; lia|done|by exists []; repeat split; constructor|apply holds_Clear|done|lia|].
  unfold BuildCache. rewrite E. cbn [mbind outcome_bind]. case_decide as Hz.
  - destruct (save_page pages data fo Hfo Hw) as (fo1 & -> & Hfo1 & Hw1). cbn [mbind outcome_bind]. exists (pages ++ [data]), num. rewrite Hw1. split_and!; try done; [|lia..].
    rewrite Hall in Hu, Hf, Hok |- *. apply Forall_app in Hok as [_ Hok]. rewrite <- (app_nil_r rs) in Hu, Hf. apply uniform_sub in Hu. apply few_sub in Hf.
    apply paged_add; try done. by apply (page_fits data rs).
  - cbn [mbind outcome_bind]. exists pages, num. rewrite Hw. split_and!; try done; [|lia..]. destruct (holds_sizes _ _ Hd) as (L & _). unfold Size in Hz. destruct rs; [|simpl in *; lia].
    rewrite Hall. by rewrite app_nil_r.
Qed.

(** The pages behind a position of the file. *)
Fixpoint from_pos (n : nat) (pages : list (Container F)) : list (Container F) :=
  match pages with
  | [] => []
  | c :: rest => if decide (n = 0) then pages else from_pos (n - length (Container_enc PF isz c)) rest
  end.

Lemma enc_some c : 0 < length (Container_enc PF isz c).
Proof. unfold Container_enc, vec_enc. rewrite !length_app, len_enc_length. lia. Qed.

#[local] Opaque Container_enc.

Lemma from_pos_take pages1 pages2 : from_pos (length (pages_enc pages1)) (pages1 ++ pages2) = pages2.
Proof.
  induction pages1 as [|c pages1 IH]; [by destruct pages2|]. unfold pages_enc in *. cbn [app map concat from_pos]. rewrite length_app. pose proof (enc_some c).
  rewrite decide_False by lia. by replace (length (Container_enc PF isz c) + length (concat (map (Container_enc PF isz) pages1)) - length (Container_enc PF isz c))
    with (length (concat (map (Container_enc PF isz) pages1))) by lia.
Qed.

(** The end of the file. *)
Lemma load_end f : RowBlock.Load PF isz (MemoryStringStream.mk f (length f)) = Ok (None, MemoryStringStream.mk f (length f)).
Proof.
  unfold RowBlock.Load, vec. cbn [hRead PODVectorHandler Read MemoryStringStream_Stream]. unfold MemoryStringStream.Read. cbn [MemoryStringStream.curr_ptr_ MemoryStringStream.p_buffer_].
  rewrite bool_decide_eq_true_2 by lia. cbn [check mbind outcome_bind]. rewrite Nat.sub_diag, Nat.min_0_l, take_0. rewrite decide_False by done. cbn [mbind outcome_bind].
  by rewrite Nat.add_0_r.
Qed.

(** Reading does not change the file. *)
Lemma read_keeps n fi b fi' : MemoryStringStream.Read n fi = Ok (b, fi') -> fi'.(MemoryStringStream.p_buffer_) = fi.(MemoryStringStream.p_buffer_).
Proof. unfold MemoryStringStream.Read. destruct (bool_decide _); [|done]. by intros [= <- <-]. Qed.

Lemma vec_read_keeps {A} (P : Pod A) (fi : MemoryStringStream.t) o fi' : hRead (Handler := vec P) fi = Ok (o, fi') ->
  fi'.(MemoryStringStream.p_buffer_) = fi.(MemoryStringStream.p_buffer_).
Proof.
  cbn [vec hRead PODVectorHandler Read MemoryStringStream_Stream]. destruct (MemoryStringStream.Read 8 fi) as [[b f1]|] eqn:E1; [|done]. cbn [mbind outcome_bind].
  apply read_keeps in E1. repeat case_decide; try (by intros [= <- <-]).
  destruct (MemoryStringStream.Read _ f1) as [[d f2]|] eqn:E2; [|done]. cbn [mbind outcome_bind]. apply read_keeps in E2. intros [= <- <-]. congruence.
Qed.

Lemma checked_keeps {A} (P : Pod A) (fi : MemoryStringStream.t) a fi' : checked_read (vec P) fi = Ok (a, fi') ->
  fi'.(MemoryStringStream.p_buffer_) = fi.(MemoryStringStream.p_buffer_).
Proof.
  unfold checked_read. destruct (hRead fi) as [[[v|] f]|] eqn:E; try done. cbn [mbind outcome_bind]. intros [= <- <-]. by apply vec_read_keeps in E.
Qed.

Lemma load_keeps (fi : MemoryStringStream.t) o fi' : RowBlock.Load PF isz fi = Ok (o, fi') -> fi'.(MemoryStringStream.p_buffer_) = fi.(MemoryStringStream.p_buffer_).
Proof.
  unfold RowBlock.Load. destruct (hRead fi) as [[[off|] f0]|] eqn:E0; try done; cbn [mbind outcome_bind]; [|intros [= <- <-]; by apply vec_read_keeps in E0].
  destruct (checked_read (vec PF) f0) as [[? f1]|] eqn:E1; [|done]. cbn [mbind outcome_bind].
  destruct (checked_read (vec PF) f1) as [[? f2]|] eqn:E2; [|done]. cbn [mbind outcome_bind].
  destruct (checked_read (vec (pod_uint isz)) f2) as [[? f3]|] eqn:E3; [|done]. cbn [mbind outcome_bind].
  destruct (checked_read (vec PF) f3) as [[? f4]|] eqn:E4; [|done]. cbn [mbind outcome_bind].
  cbn [Read MemoryStringStream_Stream]. destruct (MemoryStringStream.Read isz f4) as [[b f5]|] eqn:E5; [|done]. cbn [mbind outcome_bind].
  destruct (negb _); [|done]. cbn [check mbind outcome_bind]. case_decide; [|done]. intros [= <- <-].
  apply vec_read_keeps in E0. apply checked_keeps in E1, E2, E3, E4. apply read_keeps in E5. congruence.
Qed.

Section Reading.
Context (pages : list (Container F)) (Hfits : Forall (fits PF isz) pages).

(** The file between two pages. *)
Definition between (fi : MemoryStringStream.t) : Prop :=
  exists p1 p2, pages = p1 ++ p2 /\ fi = MemoryStringStream.mk (pages_enc pages) (length (pages_enc p1)).

Lemma between_next p1 c p2 : pages = p1 ++ c :: p2 ->
  RowBlock.Load PF isz (MemoryStringStream.mk (pages_enc pages) (length (pages_enc p1))) = Ok (Some c, MemoryStringStream.mk (pages_enc pages) (length (pages_enc (p1 ++ [c])))).
Proof.
  intros Hp. assert (pages_enc pages = pages_enc p1 ++ Container_enc PF isz c ++ pages_enc p2) as Ef by (rewrite Hp; unfold pages_enc; by rewrite map_app, concat_app).
  assert (fits PF isz c) as Hc by (rewrite Hp, Forall_app, Forall_cons in Hfits; tauto).
  destruct (Load_container_spec PF isz HPF Hpf Hisz c (MemoryStringStream.mk (pages_enc pages) (length (pages_enc p1))) (pages_enc p2) Hc) as (fi & E & Hu & Hok).
  { simpl. rewrite Ef, length_app. lia. }
  { simpl. by rewrite Ef, drop_app_length. }
  rewrite E. pose proof (load_keeps _ _ _ E) as Hb. destruct fi as [buf cur]. simpl in *. subst buf. do 3 f_equal.
  apply (f_equal length) in Hu, Ef. rewrite length_drop in Hu. rewrite !length_app in Ef. unfold pages_enc in *. rewrite map_app, concat_app, length_app. simpl. rewrite app_nil_r. lia.
Qed.

(** The closures keep the promise of a producer: the pages, in order. *)
#[export] Program Instance pages_laws : @ProducerLaws _ _ pages_ahead (Container F) := {|
  content page := [page];
  items fi := from_pos fi.(MemoryStringStream.curr_ptr_) pages;
  everything := pages;
  p_ok := between;
  d_ok _ := True
|}.
Next Obligation. done. Qed.
Next Obligation.
  intros fi old (p1 & p2 & Hp & ->) _. cbn [next pages_ahead]. destruct p2 as [|c p2].
  - rewrite app_nil_r in Hp. subst p1. rewrite load_end. cbn [mbind outcome_bind]. eexists false, _, _. split; [done|]. cbn [MemoryStringStream.curr_ptr_].
    split; [exists pages, []; by rewrite app_nil_r|]. split; [done|]. rewrite <- (app_nil_r pages) at 2 4. by rewrite from_pos_take.
  - rewrite (between_next p1 c p2 Hp). cbn [mbind outcome_bind]. eexists true, _, _. split; [done|]. cbn [MemoryStringStream.curr_ptr_].
    split; [exists (p1 ++ [c]), p2; by rewrite <- app_assoc|]. split; [done|]. split; [done|]. rewrite Hp at 1. rewrite from_pos_take. simpl. f_equal.
    assert (pages = (p1 ++ [c]) ++ p2) as Hp' by (by rewrite <- app_assoc). rewrite Hp'. by rewrite from_pos_take.
Qed.
Next Obligation.
  intros fi (p1 & p2 & Hp & ->). eexists. split; [done|]. unfold MemoryStringStream.Seek. cbn [MemoryStringStream.curr_ptr_ MemoryStringStream.p_buffer_].
  split; [by exists [], pages|]. apply (from_pos_take [] pages).
Qed.

Context (max_capacity_ : nat) (prs : list (list (arow (F := F)))) (Hprs : Forall2 (fun c r => holds c r /\ uniform r) pages prs).

Lemma page_shows c rs n : pages !! n = Some c -> prs !! n = Some rs -> exists b, GetBlock c = Ok b /\ shows 0 0 b rs.
Proof. intros Hc Hr. destruct (Forall2_lookup_lr _ _ _ _ _ _ Hprs Hc Hr) as [H1 H2]. by apply GetBlock_shows. Qed.

(** What happens until the destructor: steps of the threads, and the calls that
    [Next] and [BeforeFirst] make. *)
Inductive dstep : @state MemoryStringStream.t (Container F) -> @state MemoryStringStream.t (Container F) -> Prop :=
| dstep_quiet s s' : quiet max_capacity_ false s s' -> dstep s s'
| dstep_call c s s' : c <> Destroy -> start_call false c s = Ok (Some s') -> dstep s s'.

(** The owner of [Next()] holds a cell only behind an item that was returned since
    the last reset. *)
Record hand_ok (s : @state MemoryStringStream.t (Container F)) : Prop := {
  ho_inv : inv max_capacity_ s;
  ho_alive : s.(at_c) <> CGone /\ s.(at_c) <> CJoin;
  ho_hand : forall c, s.(out_data_) = Some c -> got s <> [] /\ forall a, s.(at_c) <> CBFSleep a
}.

Lemma hand_same s s' : hand_ok s -> inv max_capacity_ s' -> s'.(at_c) <> CGone /\ s'.(at_c) <> CJoin -> s'.(out_data_) = s.(out_data_) -> s'.(log) = s.(log) ->
  (forall a, s'.(at_c) = CBFSleep a -> exists a', s.(at_c) = CBFSleep a') -> hand_ok s'.
Proof.
  intros [_ _ Hs] Hi Ha Ho Hl Hb. split; [done|done|]. intros c Hc. rewrite Ho in Hc. destruct (Hs c Hc) as [H1 H2]. unfold got in *. rewrite Hl. split; [done|].
  intros a E. destruct (Hb a E) as [a' E']. by apply (H2 a').
Qed.

Lemma hand_took s s' : hand_ok s -> inv max_capacity_ s' -> took s s' -> hand_ok s'.
Proof.
  intros [_ _ Hs] Hi [(c & d & b & E1 & E2 & E3 & E4)|(E1 & [E2 _] & E3)]; (split; [done|by rewrite E1|]); intros c' Hc'; unfold got.
  - rewrite E4, omap_app, E1. split; [|done]. simpl. by destruct (omap _ _).
  - rewrite E3, omap_app, E1. rewrite E2 in Hc'. destruct (Hs c' Hc') as [H1 _]. split; [|done]. simpl. by rewrite app_nil_r.
Qed.

Lemma hand_quiet s s' : hand_ok s -> inv max_capacity_ s' -> quiet max_capacity_ false s s' -> hand_ok s'.
Proof.
  intros Hs Hi' Hq. pose proof Hs as [Hi [Ha1 Ha2] Hh]. pose proof (iv_control _ _ Hi) as Hc.
  destruct (quiet_frame _ _ _ _ Hc Hq) as [([H1 _] & H2 & H3 & _)|[([H1 _] & (a & a' & H2 & H3) & _)|[(_ & H1)|[((a & b & H1 & H2) & [H3 _] & H4 & _)|[(_ & H2 & [H3 _] & H4)|H1]]]]].
  - apply (hand_same s); try done; unfold same_call in H2; destruct (at_c s); match type of H2 with ex _ => destruct H2 as [? H2] | _ => idtac end; rewrite H2; (try done); eauto.
  - split; [done|by rewrite H3|]. intros c Ho. rewrite H1 in Ho. destruct (Hh c Ho) as [_ Hb]. by destruct (Hb a).
  - by apply (hand_took s).
  - apply (hand_same s); try done; by rewrite H2.
  - apply (hand_same s); try done; by rewrite H2.
  - done.
Qed.

Lemma hand_call c s s' : c <> Destroy -> hand_ok s -> inv max_capacity_ s' -> start_call false c s = Ok (Some s') -> hand_ok s'.
Proof.
  intros Hd Hs Hi' E. pose proof Hs as [Hi [Ha1 Ha2] Hh]. unfold start_call in E. destruct (at_c s) eqn:Ec; try done. destruct c; [| | |done].
  - destruct (out_data_ s) as [c|] eqn:Eo; [unfold start_next in E; by rewrite Eo in E|].
    destruct (Next_call max_capacity_ false s Hi Ec Eo) as (s1 & E1 & Ht). assert (s1 = s') as -> by (unfold start_call in E1; rewrite Ec in E1; congruence).
    destruct Ht as [Ht|(H1 & [H2 _] & H3)]; [by apply (hand_took s)|]. apply (hand_same s); try done; by rewrite H1.
  - unfold start_recycle in E. destruct (out_data_ s) as [c|]; [|done]. injection E as <-. split; [done|done|done].
  - unfold start_before_first in E.
    set (s2 := match out_data_ s with Some c => _ | None => s end) in E.
    assert (out_data_ s2 = None /\ producer_sig_ s2 = producer_sig_ s) as [Ho2 Es] by (subst s2; by destruct (out_data_ s) eqn:Eo).
    pose proof (iv_control _ _ Hi) as [_ _ Hc _ _]. rewrite Ec in Hc. rewrite decide_False in E by (destruct Hc; congruence).
    destruct (check _) as [[]|]; [|done]. cbn [mbind outcome_bind] in E. injection E as <-. split; [done|done|].
    cbn [set_c out_data_]. intros c. destruct (decide _); [|cbn [set_sig out_data_]; by rewrite Ho2]. destruct (wake_p_frame (set_sig kBeforeFirst (producer_sig_processed_ s2) s2)) as ([-> _] & _).
    cbn [set_sig out_data_]. by rewrite Ho2.
Qed.

Lemma dstep_step s s' : dstep s s' -> step max_capacity_ false s s'.
Proof. intros [? ? Hq|c ? ? _ E]; [by apply quiet_step|by apply (step_call _ _ c)]. Qed.

Lemma hand_reached s : rtc dstep (init (MemoryStringStream.mk (pages_enc pages) 0)) s -> hand_ok s.
Proof.
  intros Hr. assert (hand_ok (init (MemoryStringStream.mk (pages_enc pages) 0))) as Hi.
  { split; [|done|done]. apply inv_init; [by exists [], pages|]. apply (from_pos_take [] pages). }
  induction Hr as [|s1 s2 s3 H12 _ IH]; [done|]. apply IH.
  assert (inv max_capacity_ s2) as Hi2 by (eapply inv_step; [apply Hi|by apply dstep_step]).
  destruct H12 as [s1 s2 Hq|c s1 s2 Hc E]; [by apply (hand_quiet s1)|by apply (hand_call c s1)].
Qed.

Lemma units_pages (l : list (Container F)) : units l = l.
Proof. unfold units. induction l as [|c l IH]; [done|]. simpl. by f_equal. Qed.

(** The file is read as it was written: the calls of [Next] return the pages in
    order, and [false] behind all of them; the block of the page in hand shows the
    rows of the page that was returned last. *)
Lemma disk_read s : rtc dstep (init (MemoryStringStream.mk (pages_enc pages) 0)) s ->
  ~ fails max_capacity_ false s /\ got s = take (length (got s)) pages /\ (None ∈ s.(log) -> length (got s) = length pages) /\
  (forall c, s.(out_data_) = Some c -> exists b rs, disk_Value s = Ok b /\ shows 0 0 b rs /\ prs !! (length (got s) - 1) = Some rs).
Proof.
  intros Hr. pose proof (hand_reached s Hr) as [Hi [Hg _] Hh]. split; [by apply (inv_not_fails (LP := pages_laws) max_capacity_ false)|].
  destruct (got_facts _ _ Hi Hg) as ([Hpre _] & Hend & Hc). rewrite units_pages in Hpre, Hend. cbn [everything pages_laws] in *.
  split; [destruct Hpre as [r Er]; by rewrite Er, take_app_length|]. split; [intros Hn; by rewrite (Hend Hn)|].
  intros c Ho. destruct (Hc c Ho) as (d & Hd & Hgv & _). destruct (Hh c Ho) as [Hne _].
  destruct (inv_contents _ _ Hi Hg) as [_ (l & k & A & _ & _ & _ & Hl & _)]. assert (got s = l) as El by (unfold got; rewrite A; apply returned_items). rewrite El in *.
  destruct Hl as [->|Hl]; [done|]. rewrite last_lookup, Hgv in Hl. destruct Hpre as [r Hpre].
  assert (pages !! (length l - 1) = Some d) as Hp.
  { rewrite Hpre, lookup_app_l; [|destruct l; [done|simpl; lia]]. by rewrite <- Hl, Nat.sub_1_r. }
  destruct (Forall2_lookup_l _ _ _ _ _ Hprs Hp) as (rs & Hrs & _). destruct (page_shows d rs _ Hp Hrs) as (b & Eb & Hb).
  exists b, rs. unfold disk_Value. rewrite Ho. unfold read_at. rewrite Hd. cbn [mbind outcome_bind]. by rewrite Eb.
Qed.
End Reading.

(** [DiskRowIter] from a parser: the file holds pages whose rows are those of the
    parser, and the iterator over it, in any interleaving of its threads and of the
    calls of its owner, shows the pages in order, and [false] behind all of them.  A
    second iterator that is allowed to use the file reads the same. *)
Lemma disk_row_iter max_capacity_ bs rss disk reuse : parses bs rss -> reuse = false \/ disk = None ->
  exists f it num prs, new_DiskRowIter bs disk reuse = Ok (mkDisk (Some num) it, Some f) /\ (forall bs', new_DiskRowIter bs' (Some f) true = Ok (mkDisk None it, Some f)) /\
    concat prs = concat rss /\ forall s, rtc (dstep max_capacity_) it s -> ~ fails max_capacity_ false s /\
      (None ∈ s.(log) -> length (got s) = length prs) /\ Forall2 holds (got s) (take (length (got s)) prs) /\
      forall c, s.(out_data_) = Some c -> exists b rs, disk_Value s = Ok b /\ shows 0 0 b rs /\ prs !! (length (got s) - 1) = Some rs.
Proof.
  intros Hp Hd. destruct (BuildCache_pages bs rss Hp) as (pages & num & E & (prs & Hprs & Hc & Hf) & Hn).
  eexists (pages_enc pages), _, num, prs. split; [|split; [done|split; [done|]]].
  - unfold new_DiskRowIter. assert ((if reuse then TryLoadCache disk else None) = None) as -> by (by destruct reuse; [destruct Hd as [?| ->]|]). rewrite E. done.
  - intros s Hr. destruct (disk_read pages Hf max_capacity_ prs Hprs s Hr) as (H1 & H2 & H3 & H4). split; [done|].
    split; [intros Hl; rewrite (H3 Hl); by eapply Forall2_length|]. split; [|done]. rewrite H2 at 1. apply Forall2_take. eapply Forall2_impl; [exact Hprs|]. by intros ? ? [].
Qed.
End RowIters.

(** ** The number of columns *)

(** A row with the feature 9: in memory [NumCol] is 10; on the disk the maximum is
    looked at behind [Clear], and for the last page never, so that it is 0 or 1. *)
Module NumColExample.
Definition rows : list (RowBlock Z) := [mkBlock 1 [0; 1] (Some [1%Z]) None (Some [9%Z]) None].
Example num_col :
  ('(b) ← new_BasicRowIter 4 rows; Ok (basic_NumCol b)) = Ok 10%Z /\
  ('(_, n) ← BuildCache (pod_uint 4) 4 0 rows; Ok n) = Ok 1%Z /\ ('(_, n) ← BuildCache (pod_uint 4) 4 1000 rows; Ok n) = Ok 0%Z.
Proof. vm_compute. done. Qed.
End NumColExample.
