(* ===== verification/Filters.v ===== *)
(** * Filters on messages

    Models the filters of src/ps-lite/src/filter: quantizing floats with random
    rounding (fixing_float.h), projecting floats to an integer type
    (truncate_float.h), delta coding of keys (delta_key.h) and caching of key
    lists on both sides of a connection (key_caching.h). *)
From S2P Require Import Prelude Floats Stream.
From Stdlib Require Import QArith Qabs Qround Lqa.
#[local] Open Scope nat_scope.

(** ** [FixingFloatFilter] *)

Section Fixing.
(** The values, [double], and the conversions of the [float] fields of the
    configuration. *)
Context {V D : Type} `{FV : !Float V} `{FD : !Float D} (to_D : V -> D) (to_V : D -> V) (as_float : D -> D).

(** [Filter::FixedFloatConfig] *)
Record FixedFloatConfig := mkFFC { min_value : option D; max_value : option D }.

(** [static_cast<double>(1 << (nbytes*8)) - 2]; [1] is an [int], whose shift by
    31 bits or more is undefined. *)
Definition ratio_of (nbytes : nat) : outcome D :=
  if decide (nbytes * 8 < 31) then Ok (fofZ (Z.shiftl 1 (Z.of_nat (nbytes * 8))) - fofZ 2)%F else Fail OutOfRange.

(** [if (std::isnan(v)) v = 0], in place. *)
Definition no_nan (v : V) : V := if feqb v v then v else fzero.

(** The range of the values: the loop over them, and what follows it. *)
Definition range_step (st : D * D) (v : V) : D * D :=
  let v := to_D v in
  ((if (v <? st.1)%F then v else st.1), (if (st.2 <? v)%F then v else st.2)).

Definition range_of (vec : list V) : D * D :=
  let big := fofZ (10 ^ 20) in
  let '(min_v, max_v) := foldl range_step (big, fneg big) vec in
  let '(min_v, max_v) :=
    if (min_v * max_v <? fzero)%F then
      let min_v := if (fneg max_v <? min_v)%F then fneg max_v else min_v in
      let max_v := if (max_v <? fneg min_v)%F then fneg min_v else max_v in
      (min_v, max_v)
    else (min_v, max_v) in
  (min_v, if feqb max_v min_v then (min_v + fone / fofZ 1000000)%F else max_v).

(** [boolrand()] with its state [pos_], [rand_] and the calls of [rand()]. *)
Record BoolRand := mkBR { pos_ : Z; rand_ : Z; drawn : nat }.
Definition boolrand (rand : nat -> Z) (b : BoolRand) : bool * BoolRand :=
  let b := if decide (b.(pos_) = 30%Z) then mkBR 0 (rand b.(drawn)) (b.(drawn) + 1) else b in
  (Z.testbit b.(rand_) b.(pos_), mkBR (b.(pos_) + 1) b.(rand_) b.(drawn)).

(** The code of one value. *)
Definition code_of (nbytes : nat) (ratio min_v max_v bin : D) (bit : bool) (v : V) : list byte :=
  let v := to_D v in
  let proj := if (max_v <? v)%F then max_v else if (v <? min_v)%F then min_v else v in
  let tmp := ((proj - min_v) / bin * ratio)%F in
  le_split nbytes (u64 (ftoZ tmp + Z.b2z bit)).

Fixpoint encode_all (rand : nat -> Z) (nbytes : nat) (ratio min_v max_v bin : D) (b : BoolRand) (vec : list V)
  : list byte * BoolRand :=
  match vec with
  | [] => ([], b)
  | v :: vec =>
      let '(bit, b) := boolrand rand b in
      let '(code, b) := encode_all rand nbytes ratio min_v max_v bin b vec in
      (code_of nbytes ratio min_v max_v bin bit v ++ code, b)
  end.

(** [r += static_cast<uint64>( *(code_ptr++)) << 8 * j] *)
Fixpoint code_sum (j : nat) (bs : list byte) (r : D) : D :=
  match bs with
  | [] => r
  | b :: bs => code_sum (S j) bs (r + fofZ (Z.shiftl (byte.unsigned b) (8 * Z.of_nat j)))%F
  end.

Fixpoint decode_all (n nbytes : nat) (ratio min_v bin : D) (code : list byte) : list V :=
  match n with
  | 0 => []
  | S n => to_V (code_sum 0 (take nbytes code) fzero / ratio * bin + min_v)%F :: decode_all n nbytes ratio min_v bin (drop nbytes code)
  end.

(** The range a configuration holds, checked. *)
Definition range_in (conf : FixedFloatConfig) : outcome (D * D * D) :=
  match conf.(min_value), conf.(max_value) with
  | Some min_v, Some max_v =>
      let bin := (max_v - min_v)%F in
      _ ← check (fzero <? bin)%F; Ok (min_v, max_v, bin)
  | _, _ => Fail CheckFailed
  end.

(** [convert(array, true, nbytes, conf)]: the code and the configuration that
    goes with it. *)
Definition fix_encode (rand : nat -> Z) (nbytes : nat) (conf : FixedFloatConfig) (b : BoolRand) (vec : list V)
  : outcome (list byte * FixedFloatConfig * BoolRand) :=
  _ ← check (bool_decide (0 < nbytes));
  _ ← check (bool_decide (nbytes < 8));
  ratio ← ratio_of nbytes;
  let '(conf, vec) :=
    match conf.(min_value), conf.(max_value) with
    | Some _, Some _ => (conf, vec)
    | _, _ =>
        let vec := map no_nan vec in
        let '(min_v, max_v) := range_of vec in (mkFFC (Some (as_float min_v)) (Some (as_float max_v)), vec)
    end in
  '(min_v, max_v, bin) ← range_in conf;
  let '(code, b) := encode_all rand nbytes ratio min_v max_v bin b vec in
  Ok (code, conf, b).

(** [convert(array, false, nbytes, conf)] *)
Definition fix_decode (nbytes : nat) (conf : FixedFloatConfig) (code : list byte) : outcome (list V) :=
  _ ← check (bool_decide (0 < nbytes));
  _ ← check (bool_decide (nbytes < 8));
  ratio ← ratio_of nbytes;
  '(min_v, max_v, bin) ← range_in conf;
  Ok (decode_all (length code / nbytes) nbytes ratio min_v bin code).

End Fixing.

(** ** [TruncateFloatFilter] *)

Section Truncate.
Context {V : Type} `{FV : !Float V}.

(** The type [Int] that [num_bytes] stands for: its smallest and largest value. *)
Definition int_range (nbytes : Z) : outcome (Z * Z) :=
  if decide (nbytes = 1)%Z then Ok (0, 2 ^ 8 - 1)%Z else
  if decide (nbytes = 2)%Z then Ok (0, 2 ^ 16 - 1)%Z else
  if decide (nbytes = 4)%Z then Ok (0, 2 ^ 32 - 1)%Z else
  if decide (nbytes = -1)%Z then Ok (- 2 ^ 7, 2 ^ 7 - 1)%Z else
  if decide (nbytes = -2)%Z then Ok (- 2 ^ 15, 2 ^ 15 - 1)%Z else
  if decide (nbytes = -4)%Z then Ok (- 2 ^ 31, 2 ^ 31 - 1)%Z else Fail CheckFailed.

(** One value; [static_cast<Int>(proj)] is undefined out of range. *)
Definition truncate (lo hi : Z) (v : V) : outcome Z :=
  let max_v := fofZ hi in
  let min_v := fofZ lo in
  let proj := if (max_v <? v)%F then max_v else if (v <? min_v)%F then min_v else v in
  let z := ftoZ proj in
  if decide (lo <= z <= hi)%Z then Ok z else Fail OutOfRange.

(** [Convert<Real, Int>(array, encode)] *)
Definition trunc_encode (nbytes : Z) (vec : list V) : outcome (list Z) :=
  '(lo, hi) ← int_range nbytes;
  foldM (fun out v => z ← truncate lo hi v; Ok (out ++ [z])) vec [].
Definition trunc_decode (code : list Z) : list V := map fofZ code.

End Truncate.

(** ** [DeltaKeyFilter] *)

(** The type of the keys, as the wrap-around of its operations. *)
Section Delta.
Context (wrap : Z -> Z).

(** [Encode(orig)]: from the last to the second. *)
Definition delta_step (key : list Z) (i : nat) : outcome (list Z) :=
  a ← read_at key (i - 1); b ← read_at key (i - 2); write_at key (i - 1) (wrap (a - b)).
Definition delta_encode (key : list Z) : outcome (list Z) := foldM delta_step (rev (seq 2 (length key - 1))) key.

(** [Decode(key)]: from the second to the last. *)
Definition undelta_step (key : list Z) (i : nat) : outcome (list Z) :=
  a ← read_at key i; b ← read_at key (i - 1); write_at key i (wrap (a + b)).
Definition delta_decode (key : list Z) : outcome (list Z) := foldM undelta_step (seq 1 (length key - 1)) key.

End Delta.

(** ** [KeyCachingFilter] *)

Section KeyCaching.
(** [CityHash64] *)
Context (Hash64 : list byte -> Z).

Definition min_len_ : nat := 64.
Definition max_sig_len_ : nat := 4096.

(** [FastHash(arr)] *)
Definition FastHash (arr : list byte) : Z :=
  if decide (length arr < max_sig_len_) then Hash64 arr else
  Z.lxor (Hash64 (take (max_sig_len_ / 2) arr)) (Hash64 (drop (length arr - max_sig_len_ / 2) arr)).

(** The parts of a message the filter uses: the keys, none if there are none;
    whether the task is done ([IsDone]); and its configuration in the task. *)
Record KMsg := mkKMsg { k_key : option (list byte); k_done : bool; k_clear_cache : bool; k_signature : option Z }.

(** [cache_] *)
Local Notation Cache := (gmap Z (list byte)).

Definition k_bytes (m : KMsg) : list byte := default [] m.(k_key).

(** [Encode(msg)] *)
Definition key_encode (c : Cache) (m : KMsg) : Cache * KMsg :=
  let key := k_bytes m in
  if decide (length key < min_len_) then (c, mkKMsg m.(k_key) m.(k_done) m.(k_clear_cache) None) else
  let sig := FastHash key in
  let clear := m.(k_clear_cache) && m.(k_done) in
  let miss := ((if clear then c else <[sig := key]> c), mkKMsg m.(k_key) m.(k_done) m.(k_clear_cache) (Some sig)) in
  match c !! sig with
  | Some k => if decide (length k = length key)
              then ((if clear then delete sig c else c), mkKMsg None m.(k_done) m.(k_clear_cache) (Some sig)) else miss
  | None => miss
  end.

(** [Decode(msg)] *)
Definition key_decode (c : Cache) (m : KMsg) : outcome (Cache * KMsg) :=
  match m.(k_signature) with
  | None => Ok (c, m)
  | Some sig =>
      let clear := m.(k_clear_cache) && m.(k_done) in
      match m.(k_key) with
      | Some key =>
          _ ← check (bool_decide (FastHash key = sig));
          Ok ((if clear then c else <[sig := key]> c), m)
      | None =>
          match c !! sig with
          | None => Fail CheckFailed
          | Some key => Ok ((if clear then delete sig c else c), mkKMsg (Some key) m.(k_done) m.(k_clear_cache) (Some sig))
          end
      end
  end.

End KeyCaching.

(** ** Quantizing loses at most one step *)

Section FixingProofs.
#[local] Open Scope Q_scope.
#[local] Existing Instance Qfloat.

Lemma Qle_bool_false x y : Qle_bool x y = false -> y < x.
Proof. intros H. apply Qnot_le_lt. intros Hle. apply Qle_bool_iff in Hle. congruence. Qed.

(** Case analysis on the comparisons of a goal. *)
Ltac cases_ltb :=
  cbn [fltb Qfloat];
  repeat match goal with
  | |- context [Qle_bool ?x ?y] =>
      let E := fresh in destruct (Qle_bool x y) eqn:E; [apply Qle_bool_iff in E|apply Qle_bool_false in E]; cbn [negb]
  end.

Lemma range_fold vec : forall mn mx v, v ∈ vec \/ (mn <= v <= mx) ->
  let st := foldl (range_step (FD := Qfloat) id) (mn, mx) vec in st.1 <= v <= st.2.
Proof.
  assert (forall vec mn mx, (foldl (range_step (FD := Qfloat) id) (mn, mx) vec).1 <= mn /\
    mx <= (foldl (range_step (FD := Qfloat) id) (mn, mx) vec).2) as Hmono.
  { clear. induction vec as [|x vec IH]; intros mn mx; [simpl; split; apply Qle_refl|].
    cbn [foldl]. destruct (range_step (FD := Qfloat) id (mn, mx) x) as [mn' mx'] eqn:E.
    destruct (IH mn' mx') as [H1 H2]. unfold range_step in E. cbn [fst snd id] in E.
    injection E as <- <-. revert H1 H2. cases_ltb; intros; split; lra. }
  induction vec as [|x vec IH]; intros mn mx v Hv; cbn [foldl].
  { destruct Hv as [Hv|Hv]; [by apply elem_of_nil in Hv|done]. }
  destruct (range_step (FD := Qfloat) id (mn, mx) x) as [mn' mx'] eqn:E. unfold range_step in E. cbn [fst snd id] in E. injection E as <- <-.
  destruct Hv as [Hv|Hv].
  - apply elem_of_cons in Hv as [->|Hv]; [|apply IH; by left].
    specialize (Hmono vec (if (x <? mn)%F then x else mn) (if (mx <? x)%F then x else mx)) as [H1 H2].
    revert H1 H2. cbn zeta. cases_ltb; intros; split; lra.
  - specialize (Hmono vec (if (x <? mn)%F then x else mn) (if (mx <? x)%F then x else mx)) as [H1 H2].
    revert H1 H2. cbn zeta. cases_ltb; intros; split; lra.
Qed.

(** The range covers the values and is not empty. *)
Lemma range_of_ok vec v0 : v0 ∈ vec ->
  let '(mn, mx) := range_of (FD := Qfloat) id vec in mn < mx /\ forall v, v ∈ vec -> mn <= v <= mx.
Proof.
  intros Hv0. unfold range_of.
  pose proof (fun v (H : v ∈ vec) => range_fold vec (fofZ (10 ^ 20)) (fneg (fofZ (10 ^ 20))) v (or_introl H)) as Hr.
  destruct (foldl _ _ vec) as [mn mx]. cbn [fst snd] in Hr.
  set (st := if (mn * mx <? fzero)%F then _ else _).
  assert (st.1 <= mn /\ mx <= st.2) as [H1 H2].
  { subst st. destruct (mn * mx <? fzero)%F; [|simpl; split; apply Qle_refl]. simpl fneg. cbn [fst snd]. cases_ltb; cbn [fst snd]; split; lra. }
  destruct st as [mn' mx']. cbn [fst snd] in *. pose proof (Hr v0 Hv0) as H0.
  change (fone / fofZ 1000000)%F with (1 / inject_Z 1000000). change fadd with Qplus.
  destruct (feqb mx' mn') eqn:E.
  - apply Qeq_bool_iff in E. split; [unfold Qdiv, Qinv; simpl; lra|]. intros v Hv. specialize (Hr v Hv).
    unfold Qdiv, Qinv; simpl. split; lra.
  - apply Qeq_bool_neq in E. split; [|intros v Hv; specialize (Hr v Hv); split; lra].
    assert (mn' <= mx') as Hle by lra. apply Qle_lteq in Hle as [?|Hle]; [done|]. symmetry in Hle. by apply E in Hle.
Qed.

Lemma le_combine_cons b bs : le_combine (b :: bs) = (byte.unsigned b + 256 * le_combine bs)%Z.
Proof.
  change (le_combine (b :: bs)) with (Z.lor (byte.unsigned b) (Z.shiftl (le_combine bs) 8)). pose proof (byte.unsigned_range b) as Hb. pose proof (Z.add_lor_land (byte.unsigned b) (Z.shiftl (le_combine bs) 8)) as Hadd.
  assert (Z.land (byte.unsigned b) (Z.shiftl (le_combine bs) 8) = 0%Z) as H0.
  { apply Z.bits_inj'. intros n Hn. rewrite Z.land_spec, Z.bits_0, Z.shiftl_spec by lia.
    destruct (decide (n < 8)%Z); [rewrite (Z.testbit_neg_r _ (n - 8)) by lia; apply andb_false_r|].
    destruct (decide (byte.unsigned b = 0%Z)) as [->|]; [by rewrite Z.bits_0|].
    rewrite Z.bits_above_log2; [done|lia|]. assert (Z.log2 (byte.unsigned b) < 8)%Z; [|lia]. apply Z.log2_lt_pow2; lia. }
  rewrite Z.shiftl_mul_pow2 in * by lia. lia.
Qed.

Lemma code_sum_value bs : forall j (r : Q),
  code_sum (FD := Qfloat) j bs r == r + inject_Z (le_combine bs * 256 ^ Z.of_nat j).
Proof.
  induction bs as [|b bs IH]; intros j r; cbn [code_sum].
  { change (le_combine []) with 0%Z. rewrite Z.mul_0_l. change (inject_Z 0) with 0. ring. }
  rewrite IH, le_combine_cons. change fadd with Qplus. change (fofZ (Float := Qfloat)) with inject_Z.
  rewrite Z.shiftl_mul_pow2 by lia. replace (2 ^ (8 * Z.of_nat j))%Z with (256 ^ Z.of_nat j)%Z by (by rewrite Z.pow_mul_r by lia).
  replace (Z.of_nat (S j)) with (Z.of_nat j + 1)%Z by lia. rewrite Z.pow_add_r, Z.pow_1_r by lia.
  rewrite <- Qplus_assoc, <- inject_Z_plus. apply Qplus_comp; [reflexivity|]. match goal with |- inject_Z ?a == inject_Z ?b => replace a with b by ring end. reflexivity.
Qed.

Lemma ratio_ok nbytes : (0 < nbytes <= 3)%nat ->
  exists R, ratio_of (FD := Qfloat) nbytes = Ok (inject_Z R) /\ R = (2 ^ (8 * Z.of_nat nbytes) - 2)%Z /\ (254 <= R)%Z.
Proof.
  intros Hn. exists (2 ^ (8 * Z.of_nat nbytes) - 2)%Z. unfold ratio_of. rewrite decide_True by lia. split; [|split; [done|]].
  - rewrite Z.shiftl_mul_pow2, Z.mul_1_l by lia. replace (Z.of_nat (nbytes * 8)) with (8 * Z.of_nat nbytes)%Z by lia.
    f_equal. change (fofZ (Float := Qfloat)) with inject_Z. destruct nbytes as [|[|[|[|?]]]]; try lia; reflexivity.
  - destruct nbytes as [|[|[|[|?]]]]; try lia; vm_compute; discriminate.
Qed.

Lemma ftoZ_floor q : 0 <= q -> ftoZ (Float := Qfloat) q = Qfloor q.
Proof.
  destruct q as [n d]. unfold Qle. intros H. simpl in *. apply Z.quot_div_nonneg; lia.
Qed.

(** The value of the range that is nearest. *)
Definition nearest (mn mx v : Q) : Q := if (mx <? v)%F then mx else if (v <? mn)%F then mn else v.

Lemma nearest_in mn mx v : mn < mx -> mn <= nearest mn mx v <= mx.
Proof. intros Hlt. unfold nearest. cases_ltb; split; lra. Qed.

Lemma nearest_id mn mx v : mn <= v <= mx -> nearest mn mx v = v.
Proof. intros Hv. unfold nearest. cases_ltb; try done; lra. Qed.

(** One value: its code, read back, is at most a step away. *)
Lemma code_close nbytes R mn mx bin bit v0 :
  (0 < nbytes <= 3)%nat -> R = (2 ^ (8 * Z.of_nat nbytes) - 2)%Z -> (254 <= R)%Z -> bin == mx - mn -> mn < mx ->
  let c := code_of (FD := Qfloat) id nbytes (inject_Z R) mn mx bin bit v0 in
  length c = nbytes /\
  Qabs (code_sum (FD := Qfloat) 0 c 0 / inject_Z R * bin + mn - nearest mn mx v0) <= bin / inject_Z R.
Proof.
  intros Hn HR HR0 Hbin Hlt c. subst c. unfold code_of. cbn [id]. fold (nearest mn mx v0).
  pose proof (nearest_in mn mx v0 Hlt) as Hv. set (v := nearest mn mx v0) in *.
  split; [apply length_le_split|]. change fsub with Qminus. change fdiv with Qdiv. change fmul with Qmult.
  set (t := (v - mn) / bin * inject_Z R).
  assert (0 < bin) as Hb by lra. assert (0 < inject_Z R) as HRq by (unfold Qlt; simpl; lia).
  assert (0 <= t <= inject_Z R) as [Ht0 Ht1].
  { subst t. split.
    - apply Qmult_le_0_compat; [|lra]. apply Qle_shift_div_l; lra.
    - rewrite <- (Qmult_1_l (inject_Z R)) at 2. apply Qmult_le_compat_r; [|lra]. apply Qle_shift_div_r; lra. }
  rewrite (ftoZ_floor t Ht0). set (r := (Qfloor t + Z.b2z bit)%Z).
  pose proof (Qfloor_le t) as F1. pose proof (Qlt_floor t) as F2.
  assert (0 <= Qfloor t <= R)%Z as HF.
  { split; [change 0%Z with (Qfloor 0); by apply Qfloor_resp_le|]. rewrite <- (Qfloor_Z R). by apply Qfloor_resp_le. }
  assert (0 <= r < 2 ^ (8 * Z.of_nat nbytes))%Z as Hr by (subst r; destruct bit; cbn [Z.b2z]; lia).
  assert (code_sum (FD := Qfloat) 0 (le_split nbytes (u64 r)) 0 == inject_Z r) as Hc.
  { rewrite code_sum_value, le_combine_split, u64_small, Z.mul_1_r, Z.mod_small; [ring| |].
    - by rewrite Z.mul_comm.
    - split; [lia|]. etransitivity; [apply Hr|]. apply Z.pow_lt_mono_r; lia. }
  rewrite Hc.
  assert (inject_Z r / inject_Z R * bin + mn - v == (inject_Z r - t) * (bin / inject_Z R)) as Heq.
  { subst t. field. split; lra. }
  rewrite Heq. assert (0 < bin / inject_Z R) as Hbr by (apply Qlt_shift_div_l; lra).
  assert (inject_Z (Qfloor t + 1) == inject_Z (Qfloor t) + 1) as E1 by (rewrite inject_Z_plus; reflexivity). rewrite E1 in F2.
  assert (inject_Z r == inject_Z (Qfloor t) + (if bit then 1 else 0)) as E2 by (subst r; rewrite inject_Z_plus; by destruct bit).
  assert (-1 <= inject_Z r - t <= 1) as [B1 B2] by (rewrite E2; destruct bit; split; lra).
  apply Qabs_Qle_condition. split.
  - apply (Qle_trans _ ((-1) * (bin / inject_Z R))); [apply Qle_lteq; right; ring|]. apply Qmult_le_compat_r; lra.
  - apply (Qle_trans _ (1 * (bin / inject_Z R))); [|apply Qle_lteq; right; ring]. apply Qmult_le_compat_r; lra.
Qed.

Lemma no_nan_Q vec : map (no_nan (FV := Qfloat)) vec = vec.
Proof.
  induction vec as [|v vec IH]; simpl; [done|]. rewrite IH. f_equal. unfold no_nan.
  assert (feqb v v = true) as -> by (apply Qeq_bool_iff; reflexivity). done.
Qed.

Lemma encode_close nbytes R mn mx bin rand :
  (0 < nbytes <= 3)%nat -> R = (2 ^ (8 * Z.of_nat nbytes) - 2)%Z -> (254 <= R)%Z -> bin == mx - mn -> mn < mx ->
  forall vec b, let '(code, b') := encode_all (FD := Qfloat) id rand nbytes (inject_Z R) mn mx bin b vec in
  length code = (length vec * nbytes)%nat /\
  Forall2 (fun v v' => Qabs (v' - nearest mn mx v) <= bin / inject_Z R) vec
    (decode_all (FD := Qfloat) id (length vec) nbytes (inject_Z R) mn bin code).
Proof.
  intros Hn HR HR0 Hbin Hlt. induction vec as [|v vec IH]; intros b; cbn [encode_all]; [by split|].
  destruct (boolrand rand b) as [bit b1]. specialize (IH b1).
  destruct (encode_all _ _ _ _ _ _ _ b1 vec) as [code b2]. destruct IH as [Hl IH].
  destruct (code_close nbytes R mn mx bin bit v Hn HR HR0 Hbin Hlt) as [Hlc Hcl].
  set (c := code_of _ _ _ _ _ _ _ _) in *. cbn [length decode_all]. rewrite length_app, Hlc, Hl. split; [done|].
  assert (take nbytes (c ++ code) = c /\ drop nbytes (c ++ code) = code) as [-> ->].
  { rewrite <- Hlc. split; [apply take_app_length|apply drop_app_length]. }
  constructor; [exact Hcl|exact IH].
Qed.

Lemma decode_all_map (to_V : Q -> Q) n nbytes ratio mn bin : forall code,
  decode_all (FD := Qfloat) to_V n nbytes ratio mn bin code = map to_V (decode_all (FD := Qfloat) id n nbytes ratio mn bin code).
Proof. induction n as [|n IH]; intros code; [done|]. cbn [decode_all map]. by rewrite IH. Qed.

(** A rounding to the [float] fields that keeps the order and the values. *)
Definition rounds (as_float : Q -> Q) (vec : list Q) : Prop :=
  (forall x y, x <= y -> as_float x <= as_float y) /\ forall v, v ∈ vec -> as_float v == v.

(** C37: with one to three bytes per value, over exact arithmetic but for the
    rounding [as_float] to the [float] fields of the configuration and the final
    conversion [to_V]: when the rounded range is empty the process ends on its
    [CHECK_GT(bin, 0)]; otherwise encoding an array and decoding it with the
    configuration that is sent along gives an array of the same length, in which
    every value is converted from a number that is at most the
    [2^(8 * nbytes) - 2]-th part of the range away from the nearest value of the
    range, whatever the random bits; for an array of floats that is the value
    itself. *)
Theorem fixing_float_bound (as_float to_V : Q -> Q) nbytes vec rand b :
  (0 < nbytes <= 3)%nat -> vec <> [] ->
  let mn := as_float (range_of (FD := Qfloat) id vec).1 in
  let mx := as_float (range_of (FD := Qfloat) id vec).2 in
  (mx <= mn -> fix_encode (FV := Qfloat) (FD := Qfloat) id as_float rand nbytes (mkFFC None None) b vec = Fail CheckFailed) /\
  (mn < mx -> exists code b' out,
    fix_encode (FV := Qfloat) (FD := Qfloat) id as_float rand nbytes (mkFFC None None) b vec = Ok (code, mkFFC (Some mn) (Some mx), b') /\
    length code = (nbytes * length vec)%nat /\
    fix_decode (FD := Qfloat) to_V nbytes (mkFFC (Some mn) (Some mx)) code = Ok (map to_V out) /\
    Forall2 (fun v v' => Qabs (v' - nearest mn mx v) <= (mx - mn) / inject_Z (2 ^ (8 * Z.of_nat nbytes) - 2)) vec out) /\
  (rounds as_float vec -> forall v, v ∈ vec -> nearest mn mx v = v).
Proof.
  intros Hn Hne. cbv zeta. destruct vec as [|v0 vec0] eqn:Ev; [done|]. rewrite <- Ev in *. assert (v0 ∈ vec) as Hv0 by (rewrite Ev; apply list_elem_of_here).
  clear Ev Hne. destruct (ratio_ok nbytes Hn) as (R & HRe & HR & HR0). pose proof (range_of_ok vec v0 Hv0) as Hr.
  unfold fix_encode, fix_decode. rewrite !check_true by (apply bool_decide_eq_true; lia). cbn [mbind outcome_bind]. rewrite HRe. cbn [mbind outcome_bind min_value max_value].
  rewrite (no_nan_Q vec). destruct (range_of _ vec) as [mn0 mx0]. destruct Hr as [_ Hin]. cbn [fst snd].
  set (mn := as_float mn0). set (mx := as_float mx0). split_and!.
  - intros Hle. unfold range_in. cbn [min_value max_value]. assert ((fzero <? fsub mx mn)%F = false) as ->; [|done].
    change (fsub mx mn) with (mx - mn). cases_ltb; [done|]. change fzero with 0 in *. lra.
  - intros Hlt. assert (range_in (FD := Qfloat) (mkFFC (Some mn) (Some mx)) = Ok (mn, mx, mx - mn)) as Hri.
    { unfold range_in. cbn [min_value max_value]. rewrite check_true; [done|]. change (fsub mx mn) with (mx - mn). cases_ltb; [|done].
      change fzero with 0 in *. lra. }
    rewrite Hri. cbn [mbind outcome_bind].
    pose proof (encode_close nbytes R mn mx (mx - mn) rand Hn HR HR0 (Qeq_refl _) Hlt vec b) as Hc.
    change (fsub mx mn) with (mx - mn) in *.
    destruct (encode_all _ _ _ _ _ _ _ b vec) as [code b']. destruct Hc as [Hl Hc].
    exists code, b', (decode_all (FD := Qfloat) id (length vec) nbytes (inject_Z R) mn (mx - mn) code).
    split; [done|]. split; [lia|]. split; [|by rewrite <- HR]. cbn [mbind outcome_bind]. rewrite Hl, Nat.div_mul by lia. by rewrite decode_all_map.
  - intros [Hmono Hex] v Hv. apply nearest_id. destruct (Hin v Hv) as [H1 H2]. apply Hmono in H1, H2. rewrite (Hex v Hv) in H1, H2. done.
Qed.

End FixingProofs.

(** Rounding down to multiples of [2^-10]: the range of the first array has room,
    that of the second one, whose values are equal, is empty. *)
Definition coarse (q : Q) : Q := (Qfloor (q * inject_Z 1024) # 1024)%Q.
Lemma fixing_float_bound_witness :
  let vec := [1 # 2; - (5 # 4); 12 # 1]%Q in
  let b := mkBR 0 5 0 in
  (exists code b' out,
    fix_encode (FV := Qfloat) (FD := Qfloat) id coarse (fun _ => 0%Z) 2 (mkFFC None None) b vec = Ok (code, mkFFC (Some (coarse (-12 # 1))) (Some (coarse (12 # 1))), b') /\
    length code = 2 * length vec /\
    fix_decode (FD := Qfloat) coarse 2 (mkFFC (Some (coarse (-12 # 1))) (Some (coarse (12 # 1)))) code = Ok (map coarse out) /\
    Forall2 (fun v v' => Qabs (v' - nearest (coarse (-12 # 1)) (coarse (12 # 1)) v) <= (coarse (12 # 1) - coarse (-12 # 1)) / inject_Z (2 ^ (8 * Z.of_nat 2) - 2))%Q vec out) /\
  fix_encode (FV := Qfloat) (FD := Qfloat) id coarse (fun _ => 0%Z) 2 (mkFFC None None) b [100 # 1; 100 # 1]%Q = Fail CheckFailed.
Proof.
  intros vec b. split.
  - apply (fixing_float_bound coarse coarse 2 vec (fun _ => 0%Z) b); [lia|discriminate|vm_compute; reflexivity].
  - apply (fixing_float_bound coarse coarse 2 [100 # 1; 100 # 1]%Q (fun _ => 0%Z) b); [lia|discriminate|vm_compute; discriminate].
Defined.

(** *** In IEEE arithmetic *)

(** The conversions between [float] and [double]. *)
Definition to_double (x : SpecFloat.spec_float) : SpecFloat.spec_float :=
  match x with
  | SpecFloat.S754_finite sg m e => SpecFloat.binary_normalize 53 1024 (if sg then Zneg m else Zpos m) e sg
  | _ => x
  end.
Definition to_single (x : SpecFloat.spec_float) : SpecFloat.spec_float :=
  match x with
  | SpecFloat.S754_finite sg m e => SpecFloat.binary_normalize 24 128 (if sg then Zneg m else Zpos m) e sg
  | _ => x
  end.

(** An array whose values are all [100.0f] ends the process: [min_v + 1e-6] is
    [min_v] again once it is stored as a [float].  All [1.0f] does not. *)
Example equal_values_abort :
  let convert (z : Z) := fix_encode (FV := binary32) (FD := binary64) to_double (fun d => to_double (to_single d)) (fun _ => 0%Z) 2 (mkFFC None None)
                           (mkBR 0 5 0) [fofZ (Float := binary32) z; fofZ (Float := binary32) z] in
  convert 100%Z = Fail CheckFailed /\ exists r, convert 1%Z = Ok r.
Proof. split; [vm_compute; reflexivity|]. vm_compute. by eexists. Qed.

(** Four bytes and more are accepted by the checks, but the number of steps is
    computed with a shift that is undefined. *)
Example fixing_four_bytes :
  fix_encode (FV := Qfloat) (FD := Qfloat) id id (fun _ => 0%Z) 4 (mkFFC None None) (mkBR 0 5 0) [1%Q; 2%Q] = Fail OutOfRange.
Proof. reflexivity. Qed.

(** ** Truncating projects to the integer type *)

Lemma truncate_value lo hi (v : Q) : (lo <= hi)%Z ->
  exists z, truncate (FV := Qfloat) lo hi v = Ok z /\ (lo <= z <= hi)%Z /\
    ((inject_Z lo <= v <= inject_Z hi)%Q -> (Qabs (inject_Z z - v) < 1)%Q) /\
    ((inject_Z hi < v)%Q -> z = hi) /\ ((v < inject_Z lo)%Q -> z = lo).
Proof.
  intros Hle. unfold truncate. change (fofZ (Float := Qfloat)) with inject_Z.
  assert (inject_Z lo <= inject_Z hi)%Q as Hq by (by rewrite <- Zle_Qle).
  assert (forall z, ftoZ (Float := Qfloat) (inject_Z z) = z) as Hz by (intros z; simpl; apply Z.quot_1_r).
  cbn [fltb Qfloat]. destruct (Qle_bool v (inject_Z hi)) eqn:E1; [apply Qle_bool_iff in E1|apply Qle_bool_false in E1]; cbn [negb].
  2:{ rewrite Hz, decide_True by lia. exists hi. split_and!; try done; try lia; intros; lra. }
  destruct (Qle_bool (inject_Z lo) v) eqn:E2; [apply Qle_bool_iff in E2|apply Qle_bool_false in E2]; cbn [negb].
  2:{ rewrite Hz, decide_True by lia. exists lo. split_and!; try done; try lia; intros; lra. }
  assert (exists z, ftoZ (Float := Qfloat) v = z /\ (lo <= z <= hi)%Z /\ (Qabs (inject_Z z - v) < 1)%Q) as (z & -> & Hr & Ha).
  { exists (ftoZ (Float := Qfloat) v). split; [done|]. destruct v as [n d]. simpl ftoZ. unfold Qle in E1, E2. simpl in E1, E2.
    pose proof (Z.quot_rem' n (Zpos d)) as Hqr. set (z := (n ÷ Zpos d)%Z) in *. set (r := Z.rem n (Zpos d)) in *.
    assert ((0 <= r < Zpos d /\ 0 <= n) \/ (- Zpos d < r <= 0 /\ n <= 0))%Z as Hr.
    { destruct (decide (0 <= n)%Z); [left; pose proof (Z.rem_bound_pos n (Zpos d)); lia|].
      right. pose proof (Z.rem_bound_pos_neg n (Zpos d)). lia. }
    split; [nia|]. apply Qabs_Qlt_condition. unfold Qlt, Qminus, Qplus, Qopp, inject_Z. simpl. split; nia. }
  rewrite decide_True by done. exists z. split_and!; try done; try lia; intros; lra.
Qed.

(** A value that is sent through the truncating filter arrives as an integer
    of the chosen type: less than 1 away from a value in the range of the type,
    and the nearest end of the range for a value out of it. *)
Theorem truncate_float_bound nbytes lo hi vec :
  int_range nbytes = Ok (lo, hi) ->
  exists code, trunc_encode (FV := Qfloat) nbytes vec = Ok code /\ Forall (fun z => lo <= z <= hi)%Z code /\
    Forall2 (fun v v' => ((inject_Z lo <= v <= inject_Z hi -> Qabs (v' - v) < 1) /\
      (inject_Z hi < v -> v' = inject_Z hi) /\ (v < inject_Z lo -> v' = inject_Z lo))%Q) vec (trunc_decode (FV := Qfloat) code).
Proof.
  intros Hr. assert (lo <= hi)%Z as Hle.
  { unfold int_range in Hr. repeat (destruct (decide _); [injection Hr as <- <-; lia|]). done. }
  unfold trunc_encode. rewrite Hr. cbn [mbind outcome_bind].
  enough (forall acc, exists code, foldM (fun out v => z ← truncate (FV := Qfloat) lo hi v; Ok (out ++ [z])) vec acc = Ok (acc ++ code) /\
    Forall (fun z => lo <= z <= hi)%Z code /\
    Forall2 (fun v v' => ((inject_Z lo <= v <= inject_Z hi -> Qabs (v' - v) < 1) /\
      (inject_Z hi < v -> v' = inject_Z hi) /\ (v < inject_Z lo -> v' = inject_Z lo))%Q) vec (trunc_decode (FV := Qfloat) code)) as H
    by apply (H []).
  induction vec as [|v vec IH]; intros acc; [exists []; rewrite app_nil_r; by split_and!|]. cbn [foldM].
  destruct (truncate_value lo hi v Hle) as (z & -> & H1 & H2 & H3 & H4). cbn [mbind outcome_bind].
  destruct (IH (acc ++ [z])) as (code & E & Hc & Hf). exists (z :: code). rewrite E, <- app_assoc. split; [done|].
  split; [by constructor|]. constructor; [|exact Hf]. change (fofZ (Float := Qfloat)) with inject_Z.
  split_and!; [done|intros H; by rewrite (H3 H)|intros H; by rewrite (H4 H)].
Qed.

Lemma truncate_float_bound_witness :
  exists code, trunc_encode (FV := Qfloat) 1 [7 # 2; 300 # 1]%Q = Ok code /\ Forall (fun z => 0 <= z <= 2 ^ 8 - 1)%Z code /\
    Forall2 (fun v v' => ((inject_Z 0 <= v <= inject_Z (2 ^ 8 - 1) -> Qabs (v' - v) < 1) /\
      (inject_Z (2 ^ 8 - 1) < v -> v' = inject_Z (2 ^ 8 - 1)) /\ (v < inject_Z 0 -> v' = inject_Z 0))%Q)
      [7 # 2; 300 # 1]%Q (trunc_decode (FV := Qfloat) code).
Proof. apply (truncate_float_bound 1 0 (2 ^ 8 - 1)). reflexivity. Defined.

(** In [float] arithmetic the largest [uint32] is rounded up to [2^32], which is
    not a [uint32]: the conversion of [2^32] is undefined. *)
Example truncate_uint32 :
  truncate (FV := binary32) 0 (2 ^ 32 - 1) (fofZ (Float := binary32) (2 ^ 32)) = Fail OutOfRange.
Proof. vm_compute. reflexivity. Qed.

(** ** Delta coding *)

Section DeltaProofs.
Context (w : Z).
Notation wrap := (fun z => z mod 2 ^ w)%Z.

(** What the code of [keys] holds at a position. *)
Definition delta_at (keys : list Z) (i : nat) : Z :=
  match i with 0 => default 0%Z (keys !! 0) | S j => wrap (default 0%Z (keys !! i) - default 0%Z (keys !! j))%Z end.

Lemma delta_encode_loop keys n : forall l, S n <= length l -> length l = length keys -> (forall i, i <= n -> l !! i = keys !! i) ->
  exists r, foldM (delta_step wrap) (rev (seq 2 n)) l = Ok r /\ length r = length l /\
    (forall i, 1 <= i <= n -> r !! i = Some (delta_at keys i)) /\ (forall i, i = 0 \/ n < i -> r !! i = l !! i).
Proof.
  induction n as [|n IH]; intros l Hn Hl Hag; [exists l; split_and!; (done || intros; lia)|].
  rewrite seq_S, rev_app_distr. cbn [rev app foldM].
  destruct (lookup_lt_is_Some_2 keys (S n)) as [a Ha]; [lia|]. destruct (lookup_lt_is_Some_2 keys n) as [b Hb]; [lia|].
  assert (delta_step wrap l (2 + n) = Ok (<[S n := wrap (a - b)%Z]> l)) as ->.
  { unfold delta_step, read_at. replace (2 + n - 1) with (S n) by lia. replace (2 + n - 2) with n by lia.
    rewrite !Hag, Ha, Hb by lia. cbn [mbind outcome_bind]. unfold write_at. by rewrite decide_True by lia. }
  cbn [mbind outcome_bind].
  destruct (IH (<[S n := wrap (a - b)%Z]> l)) as (r & E & Hlr & H1 & H2).
  - rewrite length_insert. lia.
  - by rewrite length_insert.
  - intros i Hi. rewrite list_lookup_insert_ne by lia. apply Hag. lia.
  - exists r. rewrite length_insert in Hlr. split; [exact E|]. split; [done|]. split.
    + intros i Hi. destruct (decide (i = S n)) as [->|]; [|apply H1; lia].
      rewrite H2, list_lookup_insert_eq by lia. simpl. by rewrite Ha, Hb.
    + intros i Hi. rewrite H2 by lia. apply list_lookup_insert_ne. lia.
Qed.

Lemma delta_encode_ok keys : exists r, delta_encode wrap keys = Ok r /\ length r = length keys /\
  forall i, i < length keys -> r !! i = Some (delta_at keys i).
Proof.
  unfold delta_encode. destruct keys as [|k keys]; [exists []; split_and!; (done || intros; simpl in *; lia)|].
  destruct (delta_encode_loop (k :: keys) (length (k :: keys) - 1) (k :: keys)) as (r & E & Hl & H1 & H2); [simpl; lia|done..|].
  exists r. split; [exact E|]. split; [done|]. intros i Hi. destruct i as [|i]; [by rewrite H2 by lia|]. apply H1. lia.
Qed.

Lemma delta_decode_ok keys l :
  Forall (fun k => 0 <= k < 2 ^ w)%Z keys -> length l = length keys -> (forall i, i < length keys -> l !! i = Some (delta_at keys i)) ->
  delta_decode wrap l = Ok keys.
Proof.
  intros Hr Hl Hd. unfold delta_decode. destruct keys as [|k0 ks] eqn:Ek; [by apply length_zero_iff_nil in Hl as ->|].
  rewrite <- Ek in *. assert (0 < length keys) as Hpos by (rewrite Ek; simpl; lia). clear Ek k0 ks.
  destruct (foldM_seq (undelta_step wrap) (fun j r => length r = length keys /\ (forall i, i < j -> r !! i = keys !! i) /\
    (forall i, j <= i < length keys -> r !! i = Some (delta_at keys i))) 1 (length l - 1) l) as (r & E & Hlr & H1 & _).
  - split_and!; [done| |intros i Hi; apply Hd; lia]. intros i Hi. replace i with 0 by lia. rewrite Hd by lia. simpl.
    destruct (lookup_lt_is_Some_2 keys 0) as [a Ha]; [lia|]. by rewrite Ha.
  - intros j r Hj (Hlr & H1 & H2). destruct j as [|j]; [lia|].
    destruct (lookup_lt_is_Some_2 keys (S j)) as [a Ha]; [lia|]. destruct (lookup_lt_is_Some_2 keys j) as [b Hb]; [lia|].
    unfold undelta_step, read_at. replace (S j - 1) with j by lia. rewrite (H2 (S j)), (H1 j), Hb by lia.
    cbn [delta_at]. rewrite Ha, Hb. cbn [mbind outcome_bind default from_option id].
    unfold write_at. rewrite decide_True by lia. eexists. split; [done|]. rewrite length_insert. split; [done|]. split.
    + intros i Hi. destruct (decide (i = S j)) as [->|]; [|rewrite list_lookup_insert_ne by lia; apply H1; lia].
      rewrite list_lookup_insert_eq, Ha by lia. f_equal. rewrite Zplus_mod_idemp_l. rewrite Forall_lookup in Hr.
      pose proof (Hr _ _ Ha). replace (a - b + b)%Z with a by lia. by apply Z.mod_small.
    + intros i Hi. rewrite list_lookup_insert_ne by lia. apply H2. lia.
  - rewrite E. f_equal. apply list_eq. intros i. destruct (decide (i < length keys)); [apply H1; lia|].
    rewrite !lookup_ge_None_2 by lia. done.
Qed.

End DeltaProofs.

(** Keys survive delta coding, sorted or not: with [w]-bit keys the decoder
    undoes the in-place subtractions of the encoder, wrap-around included. *)
Theorem delta_key_roundtrip w keys :
  Forall (fun k => 0 <= k < 2 ^ w)%Z keys ->
  exists code, delta_encode (fun z => z mod 2 ^ w)%Z keys = Ok code /\ length code = length keys /\
    delta_decode (fun z => z mod 2 ^ w)%Z code = Ok keys.
Proof.
  intros Hk. destruct (delta_encode_ok w keys) as (r & E & Hl & Hr). exists r. split; [done|]. split; [done|].
  by apply (delta_decode_ok w).
Qed.

Lemma delta_key_roundtrip_witness :
  exists code, delta_encode (fun z => z mod 2 ^ 32)%Z [7; 3; 4294967295]%Z = Ok code /\ length code = 3 /\
    delta_decode (fun z => z mod 2 ^ 32)%Z code = Ok [7; 3; 4294967295]%Z.
Proof. apply (delta_key_roundtrip 32 [7; 3; 4294967295]%Z). repeat (constructor; [lia|]). constructor. Defined.

(** ** Key caching *)

Section KeyCachingProofs.
Local Notation Cache := (gmap Z (list byte)).
Context (Hash64 : list byte -> Z).

(** A message goes from the sender to the receiver: their caches, and the keys
    the receiver ends up with. *)
Definition pass_on (cc : Cache * Cache) (m : KMsg) : outcome (Cache * Cache * option (list byte)) :=
  let '(c1, m') := key_encode Hash64 cc.1 m in
  '(c2, m'') ← key_decode Hash64 cc.2 m';
  Ok (c1, c2, m''.(k_key)).

Definition pass_all (ms : list KMsg) (cc : Cache * Cache) : outcome (Cache * Cache * list (option (list byte))) :=
  foldM (fun st m => '(c1, c2, k) ← pass_on st.1 m; Ok (c1, c2, st.2 ++ [k])) ms (cc, []).

(** The signature tells key lists of the same length apart. *)
Definition tells_apart (keys : list (list byte)) : Prop :=
  forall k1 k2, k1 ∈ keys -> k2 ∈ keys -> length k1 = length k2 -> FastHash Hash64 k1 = FastHash Hash64 k2 -> k1 = k2.

(** Both sides cache the same key lists, each under its signature. *)
Definition synced (keys : list (list byte)) (cc : Cache * Cache) : Prop :=
  cc.1 = cc.2 /\ forall sig k, cc.1 !! sig = Some k -> k ∈ keys /\ FastHash Hash64 k = sig.

Lemma pass_on_ok keys cc m :
  tells_apart keys -> synced keys cc -> k_bytes m ∈ keys -> (forall k, m.(k_key) = Some k -> k <> []) ->
  exists cc', pass_on cc m = Ok (cc', m.(k_key)) /\ synced keys cc'.
Proof using.
  intros Ht [Heq Hc] Hin Hne. destruct cc as [c c']. cbn [fst snd] in *. subst c'. unfold pass_on, key_encode. cbn [fst snd].
  destruct (decide (length (k_bytes m) < min_len_)) as [Hs|Hs].
  { cbn [key_decode k_signature mbind outcome_bind k_key]. exists (c, c). by split. }
  assert (m.(k_key) = Some (k_bytes m)) as Hk.
  { unfold k_bytes in *. destruct (k_key m); [done|]. simpl in Hs. unfold min_len_ in Hs. lia. }
  set (clear := k_clear_cache m && k_done m).
  assert (exists cc', (let '(c1, m') := ((if clear then c else <[FastHash Hash64 (k_bytes m) := k_bytes m]> c),
      mkKMsg (k_key m) (k_done m) (k_clear_cache m) (Some (FastHash Hash64 (k_bytes m)))) in
    '(c2, m'') ← key_decode Hash64 c m'; Ok (c1, c2, m''.(k_key))) = Ok (cc', m.(k_key)) /\ synced keys cc') as Hmiss.
  { unfold key_decode. cbn [k_signature k_key k_clear_cache k_done]. rewrite Hk. rewrite check_true by (by apply bool_decide_eq_true).
    cbn [mbind outcome_bind k_key]. fold clear. eexists (_, _). split; [done|]. split; [done|]. cbn [fst].
    destruct clear; [exact Hc|]. intros sig k Hl. apply lookup_insert_Some in Hl as [[<- <-]|[_ Hl]]; [done|by apply Hc]. }
  destruct (c !! FastHash Hash64 (k_bytes m)) as [k|] eqn:Ek; [|exact Hmiss].
  destruct (decide (length k = length (k_bytes m))) as [Hl|Hl]; [|exact Hmiss].
  destruct (Hc _ _ Ek) as [Hkin Hkh]. assert (k = k_bytes m) as -> by (by apply Ht).
  unfold key_decode. cbn [k_signature k_key k_clear_cache k_done]. rewrite Ek. cbn [mbind outcome_bind k_key]. fold clear.
  eexists (_, _). rewrite Hk. split; [done|]. split; [done|]. cbn [fst]. destruct clear; [|exact Hc].
  intros sig k Hd. apply lookup_delete_Some in Hd as [_ Hd]. by apply Hc.
Qed.

(** Key caching is transparent: if the signature tells the key lists of the
    same length apart, then every message of a connection arrives with the keys
    it was sent with, whether or not they were left out, and the caches of the
    two sides stay equal. *)
Theorem key_caching_transparent keys ms :
  tells_apart keys -> Forall (fun m => k_bytes m ∈ keys /\ forall k, m.(k_key) = Some k -> k <> []) ms ->
  exists c, pass_all ms (∅, ∅) = Ok (c, c, map k_key ms).
Proof.
  intros Ht Hms. unfold pass_all.
  enough (forall cc acc, synced keys cc -> exists cc', foldM (fun st m => '(c1, c2, k) ← pass_on st.1 m; Ok (c1, c2, st.2 ++ [k])) ms (cc, acc) =
    Ok (cc', acc ++ map k_key ms) /\ synced keys cc') as Hall.
  { destruct (Hall (∅, ∅) []) as ([c1 c2] & E & Heq & _); [split; [done|]; intros ? ? H; cbn [fst] in H; by rewrite lookup_empty in H|].
    simpl in Heq. subst c2. by exists c1. }
  induction Hms as [|m ms [Hin Hne] Hms IH]; intros cc acc Hs; cbn [foldM map]; [exists cc; by rewrite app_nil_r|].
  destruct (pass_on_ok keys cc m Ht Hs Hin Hne) as ([c1 c2] & E & Hs'). cbn [fst snd]. rewrite E. cbn [mbind outcome_bind].
  destruct (IH (c1, c2) (acc ++ [k_key m]) Hs') as (cc' & E' & Hs''). exists cc'. rewrite E'. rewrite <- app_assoc. done.
Qed.

(** The signature of a long key list only depends on its first and last
    2048 bytes, for every hash function: two key lists of the same length that
    differ between them are confused, and the second message arrives with the
    keys of the first. *)
Theorem key_caching_confuses pre mid1 mid2 suf :
  length pre = 2048 -> length suf = 2048 -> length mid1 = length mid2 ->
  let msg k := mkKMsg (Some k) false false None in
  let k1 := pre ++ mid1 ++ suf in let k2 := pre ++ mid2 ++ suf in
  exists c, pass_all [msg k1; msg k2] (∅, ∅) = Ok (c, c, [Some k1; Some k1]).
Proof.
  intros Hp Hs Hm msg k1 k2.
  assert (forall mid, FastHash Hash64 (pre ++ mid ++ suf) = Z.lxor (Hash64 pre) (Hash64 suf)) as Hfh.
  { intros mid. unfold FastHash. rewrite decide_False by (rewrite !length_app; unfold max_sig_len_; lia).
    replace (max_sig_len_ / 2) with 2048 by reflexivity. f_equal; f_equal.
    - rewrite <- Hp. apply take_app_length.
    - rewrite app_assoc, !length_app, Hs, Nat.add_sub, <- length_app. apply drop_app_length. }
  assert (length k1 = length k2 /\ min_len_ <= length k1) as [Hl Hmin].
  { subst k1 k2. rewrite !length_app. unfold min_len_. lia. }
  set (sig := Z.lxor (Hash64 pre) (Hash64 suf)) in *.
  assert (pass_on (∅, ∅) (msg k1) = Ok (<[sig := k1]> ∅, <[sig := k1]> ∅, Some k1)) as E1.
  { unfold pass_on, key_encode, key_decode, k_bytes. cbn [fst snd msg k_key default from_option id k_clear_cache k_done andb].
    rewrite decide_False by lia. subst k1. rewrite !Hfh, lookup_empty. cbn [k_signature k_key k_clear_cache k_done andb].
    rewrite check_true by (apply bool_decide_eq_true; apply Hfh). done. }
  assert (pass_on (<[sig := k1]> ∅, <[sig := k1]> ∅) (msg k2) = Ok (<[sig := k1]> ∅, <[sig := k1]> ∅, Some k1)) as E2.
  { unfold pass_on, key_encode, key_decode, k_bytes. cbn [fst snd msg k_key default from_option id k_clear_cache k_done andb].
    rewrite decide_False by lia. assert (FastHash Hash64 k2 = sig) as -> by apply Hfh. rewrite lookup_insert_eq.
    rewrite decide_True by done. cbn [k_signature k_key k_clear_cache k_done andb]. by rewrite lookup_insert_eq. }
  exists (<[sig := k1]> ∅). unfold pass_all. cbn [foldM fst snd]. rewrite E1. cbn [mbind outcome_bind fst snd]. rewrite E2. done.
Qed.

End KeyCachingProofs.

(** Two key lists, sent twice each; the last message clears its cache entry. *)
Lemma key_caching_transparent_witness :
  let a := replicate 64 Byte.x61 in let b := replicate 65 Byte.x62 in
  let msg k clear := mkKMsg (Some k) clear clear None in
  let ms := [msg a false; msg b false; msg a false; msg b true] in
  exists c, pass_all (fun k => Z.of_nat (length k)) ms (∅, ∅) = Ok (c, c, map k_key ms).
Proof.
  intros a b msg ms. apply (key_caching_transparent (fun k => Z.of_nat (length k)) [a; b]).
  - intros k1 k2 H1 H2 Hl _. set_unfold in H1. set_unfold in H2. subst a b.
    destruct H1 as [-> | [-> | []]], H2 as [-> | [-> | []]]; try done; rewrite !length_replicate in Hl; discriminate.
  - subst ms. repeat (apply Forall_cons; split); [..|apply Forall_nil; exact I];
      (split; [set_solver|intros k [= <-]; discriminate]).
Defined.

Lemma key_caching_confuses_witness :
  let p := replicate 2048 Byte.x00 in
  let msg k := mkKMsg (Some k) false false None in
  exists c, pass_all (fun _ => 0%Z) [msg (p ++ [Byte.x01] ++ p); msg (p ++ [Byte.x02] ++ p)] (∅, ∅) =
    Ok (c, c, [Some (p ++ [Byte.x01] ++ p); Some (p ++ [Byte.x01] ++ p)]).
Proof. intros p msg. by apply (key_caching_confuses (fun _ => 0%Z) p [Byte.x01] [Byte.x02] p). Defined.
