(* ===== verification/Message.v ===== *)
(** * Messages and how they are cut up for the servers

    Models the key ranges of src/ps-lite/src/base/range.h, the ranges the
    scheduler gives to the servers (src/ps-lite/src/system/node_assigner.h), the
    groups of nodes of src/ps-lite/src/system/remote_node.cc and the message and
    [SliceMessage] of src/ps-lite/src/system/message.h.  The arrays of a message
    are bytes, as in the source, and are read as arrays of keys or of lengths
    where the source does so. *)
From S2P Require Import Prelude Floats Stream.

(** ** Ranges of keys *)

(** [Range<Key>], with 64-bit keys. *)
Record Range := mkRange { begin_ : Z; end_ : Z }.

#[export] Instance Range_eq_dec : EqDecision Range.
Proof. solve_decision. Defined.

Definition size (r : Range) : Z := u64 (r.(end_) - r.(begin_)).
Definition valid_range (r : Range) : bool := (r.(begin_) <=? r.(end_))%Z.
Definition empty_range (r : Range) : bool := (r.(end_) <=? r.(begin_))%Z.
Definition contains (r : Range) (v : Z) : bool := ((r.(begin_) <=? v) && (v <? r.(end_)))%Z.
Definition InLeft (r other : Range) : bool :=
  ((r.(begin_) <=? other.(begin_)) || ((r.(begin_) =? other.(begin_)) && (r.(end_) <=? other.(end_))))%Z.
Definition Project (r : Range) (v : Z) : Z := Z.max r.(begin_) (Z.min r.(end_) v).
Definition SetIntersection (r dest : Range) : Range :=
  mkRange (Z.max r.(begin_) dest.(begin_)) (Z.min r.(end_) dest.(end_)).
Definition All : Range := mkRange 0 (2 ^ 64 - 1).

(** [long double]: the 80-bit format, with 64 bits of precision. *)
Definition binary80 : Float SpecFloat.spec_float := SF_float 64 16384.

(** [EvenDivide(n, i)] *)
Definition EvenDivide (r : Range) (n i : nat) : outcome Range :=
  let HF := binary80 in
  _ ← check (valid_range r);
  _ ← check (bool_decide (0 < n));
  _ ← check (bool_decide (i < n));
  let itv := (fofZ (u64 (r.(end_) - r.(begin_))) / fofZ (Z.of_nat n))%F in
  let end_tmp := (fofZ r.(begin_) + itv * fofZ (Z.of_nat (i + 1)))%F in
  Ok (mkRange (ftoZ (fofZ r.(begin_) + itv * fofZ (Z.of_nat i))%F)
        (if (fofZ r.(end_) <? end_tmp)%F then r.(end_) else ftoZ end_tmp)).

(** ** The assigner of ranks and ranges *)

Inductive Role := SERVER | WORKER | SCHEDULER | GROUP | UNUSED.

Record Node := mkNode { role : Role; rank : Z; node_key : Range }.

Record NodeAssigner := mkAssigner {
  num_servers_ : nat; server_rank_ : nat; worker_rank_ : nat; key_range_ : Range }.

Definition new_NodeAssigner (num_servers : nat) (key_range : Range) : NodeAssigner :=
  mkAssigner num_servers 0 0 key_range.

(** [Assign(node)] *)
Definition Assign (a : NodeAssigner) (node : Node) : outcome (NodeAssigner * Node) :=
  match node.(role) with
  | SERVER =>
      kr ← EvenDivide a.(key_range_) a.(num_servers_) a.(server_rank_);
      Ok (mkAssigner a.(num_servers_) (a.(server_rank_) + 1) a.(worker_rank_) a.(key_range_),
          mkNode node.(role) (Z.of_nat a.(server_rank_)) kr)
  | WORKER =>
      Ok (mkAssigner a.(num_servers_) a.(server_rank_) (a.(worker_rank_) + 1) a.(key_range_),
          mkNode node.(role) (Z.of_nat a.(worker_rank_)) a.(key_range_))
  | _ => Ok (a, mkNode node.(role) 0 a.(key_range_))
  end.

(** ** Groups of nodes *)

Abbreviation NodeID := string.

(** [group] and [keys] of [struct RemoteNode]; a pointer to a node is its id. *)
Record Group := mkGroup { group : list NodeID; keys : list Range }.

(** The loop that looks for the position of the new node. *)
Fixpoint group_pos (kr : Range) (krs : list Range) : nat :=
  match krs with
  | [] => 0
  | r :: krs => if InLeft kr r then 0 else S (group_pos kr krs)
  end.

(** [v.insert(v.begin() + pos, x)] *)
Definition insert_before {A} (pos : nat) (x : A) (v : list A) : list A := take pos v ++ x :: drop pos v.

(** [AddGroupNode(rnode)] *)
Definition AddGroupNode (id : NodeID) (kr : Range) (g : Group) : Group :=
  let pos := group_pos kr g.(keys) in
  mkGroup (insert_before pos id g.(group)) (insert_before pos kr g.(keys)).

Fixpoint remove_first (id : NodeID) (ids : list NodeID) (krs : list Range) : list NodeID * list Range :=
  match ids, krs with
  | i :: ids, r :: krs =>
      if decide (i = id) then (ids, krs) else let '(a, b) := remove_first id ids krs in (i :: a, r :: b)
  | _, _ => (ids, krs)
  end.

(** [RemoveGroupNode(rnode)] *)
Definition RemoveGroupNode (id : NodeID) (g : Group) : outcome Group :=
  _ ← check (bool_decide (length g.(group) = length g.(keys)));
  let '(a, b) := remove_first id g.(group) g.(keys) in Ok (mkGroup a b).

(** ** Messages *)

Inductive DataType := OTHER | INT8 | INT16 | INT32 | INT64 | UINT8 | UINT16 | UINT32 | UINT64 | FLOAT | DOUBLE | CHAR.

#[export] Instance DataType_eq_dec : EqDecision DataType.
Proof. solve_decision. Defined.

(** What slicing and the cache use of a [Task]. *)
Record Task := mkTask {
  time : option Z; key_range : option Range; key_channel : Z; has_key_ : bool;
  key_type : option DataType; value_type : list DataType; push : bool; dyn_val_size : bool }.

(** [struct Message]; [valid] says whether a piece is to be sent. *)
Record Msg := mkM { task : Task; key : list byte; value : list (list byte); valid : bool }.

(** [Message(task)] *)
Definition new_Message (tk : Task) : Msg := mkM tk [] [] true.

(** The protobuf accessor [key_range()], whose default is an empty range. *)
Definition get_key_range (tk : Task) : Range := default (mkRange 0 0) tk.(key_range).

(** [SArray<T>(arr)]: the bytes read as an array of another type. *)
Definition sarray {A} (pa : Pod A) (b : list byte) : list A :=
  pod_elems (H := pa) (length b / pod_size (Pod := pa)) b.

(** [arr.Segment(start, end)] *)
Definition Segment {A} (start end_ : Z) (l : list A) : outcome (list A) :=
  _ ← check (start <=? end_)%Z;
  _ ← check (end_ <=? Z.of_nat (length l))%Z;
  Ok (segment (Z.to_nat start) (Z.to_nat end_) l).

(** [set_key(key)], where [ty] is the type of the elements of [key]. *)
Definition set_key (ty : DataType) (k : list byte) (m : Msg) : Msg :=
  let t := m.(task) in
  mkM (mkTask t.(time) (Some (default All t.(key_range))) t.(key_channel) true (Some ty) t.(value_type)
         t.(push) t.(dyn_val_size)) k m.(value) m.(valid).

(** [add_value(value)] *)
Definition add_value (ty : DataType) (v : list byte) (m : Msg) : Msg :=
  let t := m.(task) in
  mkM (mkTask t.(time) t.(key_range) t.(key_channel) t.(has_key_) t.(key_type) (t.(value_type) ++ [ty])
         t.(push) t.(dyn_val_size)) m.(key) (m.(value) ++ [v]) m.(valid).

Definition set_valid (b : bool) (m : Msg) : Msg := mkM m.(task) m.(key) m.(value) b.

(** [ret->value.push_back(v)] *)
Definition push_value (v : list byte) (m : Msg) : Msg := mkM m.(task) m.(key) (m.(value) ++ [v]) m.(valid).

(** ** Slicing *)

Notation pod_key := (pod_uint 8).
Notation pod_len := (pod_int 4).

(** The first loop: a piece whose server has no key of the range of the
    message is not sent. *)
Definition mark_valid (mkr kr : Range) (ret : Msg) : Msg := set_valid (negb (empty_range (SetIntersection kr mkr))) ret.

(** One round of the second loop: the positions in [key] of the [i]-th range,
    and the keys of the [i]-th piece. *)
Definition slice_key_step (mkr : Range) (ks : list Z) (krs : list Range)
    (st : list nat * list Msg) (i : nat) : outcome (list nat * list Msg) :=
  let '(pos, rets) := st in
  kr ← read_at krs i;
  pos ← (if decide (i = 0) then write_at pos 0 (lower_bound ks (Project mkr kr.(begin_)))
         else prev ← read_at krs (i - 1); _ ← check (prev.(end_) =? kr.(begin_))%Z; Ok pos);
  pos ← write_at pos (i + 1) (lower_bound ks (Project mkr kr.(end_)));
  ret ← read_at rets i;
  b ← read_at pos i;
  e ← read_at pos (i + 1);
  let ret := if decide (b = e) then set_valid false ret else ret in
  ret ← (if ret.(valid)
         then s ← Segment (Z.of_nat b) (Z.of_nat e) ks; Ok (set_key UINT64 (pod_memory (H := pod_key) s) ret)
         else Ok ret);
  rets ← write_at rets i ret;
  Ok (pos, rets).

(** [ret->value.push_back(...)] on the pieces that are sent. *)
Definition push_pieces (n : nat) (seg : nat -> outcome (list (list byte))) (rets : list Msg) : outcome (list Msg) :=
  foldM (fun rets i =>
    ret ← read_at rets i;
    if ret.(valid) then vs ← seg i; write_at rets i (foldl (fun m v => push_value v m) ret vs)
    else Ok rets) (seq 0 n) rets.

(** One value array whose entries have the same length. *)
Definition slice_value (nkey n : nat) (pos : list nat) (rets : list Msg) (v : list byte) : outcome (list Msg) :=
  let k := length v / nkey in
  _ ← check (bool_decide (nkey * k = length v));
  push_pieces n (fun i =>
    b ← read_at pos i; e ← read_at pos (i + 1);
    s ← Segment (Z.of_nat (b * k)) (Z.of_nat (e * k)) v; Ok [s]) rets.

(** The positions of the pieces in a value array of varying lengths. *)
Definition val_pos_step (pos : list nat) (val_len : list Z) (val_pos : list Z) (i : nat) : outcome (list Z) :=
  p ← read_at val_pos i;
  b ← read_at pos i; e ← read_at pos (i + 1);
  s ← Segment (Z.of_nat b) (Z.of_nat e) val_len;
  write_at val_pos (i + 1) (foldl (fun a k => u64 (a + k)) p s).

(** One value array and its array of lengths. *)
Definition slice_dyn (n : nat) (pos : list nat) (rets : list Msg) (v len : list byte) : outcome (list Msg) :=
  let val_len := sarray pod_len len in
  val_pos ← foldM (val_pos_step pos val_len) (seq 0 n) (replicate (n + 1) 0%Z);
  total ← read_at val_pos n;
  if decide (total = 0%Z) then Fail DivByZero else
  let k := (Z.of_nat (length v) / total)%Z in
  _ ← check (u64 (total * k) =? Z.of_nat (length v))%Z;
  push_pieces n (fun i =>
    vb ← read_at val_pos i; ve ← read_at val_pos (i + 1);
    b ← read_at pos i; e ← read_at pos (i + 1);
    s ← Segment (u64 (vb * k)) (u64 (ve * k)) v;
    l ← Segment (Z.of_nat b) (Z.of_nat e) val_len;
    Ok [s; pod_memory (H := pod_len) l]) rets.

(** The arrays two by two: [for (j = 0; j < msg.value.size(); j += 2)]. *)
Fixpoint slice_pairs (n : nat) (pos : list nat) (vals : list (list byte)) (rets : list Msg) : outcome (list Msg) :=
  match vals with
  | v :: len :: vals => rets ← slice_dyn n pos rets v len; slice_pairs n pos vals rets
  | _ => Ok rets
  end.

(** [SliceMessage(msg, krs, rets, dyn_val)] *)
Definition SliceMessage (msg : Msg) (krs : list Range) (rets : list Msg) (dyn_val : bool) : outcome (list Msg) :=
  _ ← check (bool_decide (length krs = length rets));
  let n := length krs in
  let mkr := get_key_range msg.(task) in
  let rets := zip_with (mark_valid mkr) krs rets in
  let ks := sarray pod_key msg.(key) in
  match ks with
  | [] => Ok rets
  | _ =>
      '(pos, rets) ← foldM (slice_key_step mkr ks krs) (seq 0 n) (replicate (n + 1) 0, rets);
      if dyn_val then
        _ ← check (bool_decide (length msg.(value) `mod` 2 = 0));
        slice_pairs n pos msg.(value) rets
      else foldM (slice_value (length ks) n pos) msg.(value) rets
  end.

(** ** Ranges that follow each other *)

(** [krs] cuts [[b, e)] into consecutive ranges. *)
Fixpoint chain (b : Z) (krs : list Range) (e : Z) : Prop :=
  match krs with
  | [] => b = e
  | r :: krs => r.(begin_) = b /\ (b <= r.(end_))%Z /\ chain r.(end_) krs e
  end.

(** Where the [j]-th range begins; the last one ends at [e]. *)
Definition bound (krs : list Range) (e : Z) (j : nat) : Z :=
  match krs !! j with Some r => r.(begin_) | None => e end.

Lemma chain_le b krs e : chain b krs e -> (b <= e)%Z.
Proof. revert b. induction krs as [|r krs IH]; intros b; simpl; [lia|]. intros (<- & ? & ?%IH). lia. Qed.

Lemma chain_end b krs e j r : chain b krs e -> krs !! j = Some r -> r.(end_) = bound krs e (j + 1).
Proof.
  revert b j. induction krs as [|r0 krs IH]; intros b j Hch Hj; [done|].
  destruct Hch as (? & ? & Hc), j as [|j]; simplify_eq/=.
  - unfold bound. destruct krs as [|r1 krs]; simpl in *; [done|]. by destruct Hc as [-> _].
  - by apply (IH (end_ r0) j).
Qed.

Lemma chain_bound_mono b krs e j : chain b krs e -> (bound krs e j <= bound krs e (j + 1))%Z.
Proof.
  revert b j. induction krs as [|r krs IH]; intros b j; [done|]. intros (Hb & Hle & Hc).
  destruct j as [|j]; [|by apply (IH (end_ r) j)].
  unfold bound. simpl. destruct krs as [|r1 krs]; simpl in *; [lia|]. destruct Hc as [-> _]. lia.
Qed.

Lemma chain_bound_0 b krs e : chain b krs e -> bound krs e 0 = b.
Proof. destruct krs; simpl; unfold bound; simpl; naive_solver. Qed.

Lemma chain_bound_in b krs e j : chain b krs e -> (b <= bound krs e j <= e)%Z.
Proof.
  revert b j. induction krs as [|r krs IH]; intros b j Hc.
  - simpl in Hc. unfold bound. simpl. lia.
  - pose proof (chain_le _ _ _ Hc). destruct Hc as (Hb & Hle & Hc).
    destruct j as [|j]; [unfold bound; simpl; lia|].
    specialize (IH (end_ r) j Hc). unfold bound in *. simpl. lia.
Qed.

Lemma bound_end krs e : bound krs e (length krs) = e.
Proof. unfold bound. by rewrite lookup_ge_None_2. Qed.

(** What a range selects of a list that goes along with the keys. *)
Definition sel {A} (r : Range) (ks : list Z) (xs : list A) : list A :=
  map snd (filter (fun p => contains r p.1 = true) (zip ks xs)).

Lemma segment_zip {A B} b e (l : list A) (k : list B) : segment b e (zip l k) = zip (segment b e l) (segment b e k).
Proof. unfold segment. by rewrite zip_with_drop, zip_with_take. Qed.

(** On sorted keys, a selection is a segment. *)
Lemma segment_sel {A} b e (ks : list Z) (xs : list A) :
  StronglySorted Z.le ks -> length xs = length ks -> (b <= e)%Z ->
  segment (lower_bound ks b) (lower_bound ks e) xs = sel (mkRange b e) ks xs.
Proof.
  intros Hs Hl Hbe. unfold sel.
  pose proof (lower_bound_mono ks b e Hbe) as Hm.
  rewrite (filter_segment _ (lower_bound ks b) (lower_bound ks e)); [|done|].
  2:{ intros i [k x] Hi Hc. simpl in Hc. apply lookup_zip_Some in Hi as [Hk _]. simpl in Hk.
      unfold contains in Hc. simpl in Hc. apply andb_prop in Hc as [H1 H2]. split.
      - destruct (decide (lower_bound ks b <= i)) as [|Hn]; [done|].
        pose proof (lower_bound_lt ks b i k Hk ltac:(lia)). lia.
      - destruct (decide (i < lower_bound ks e)) as [|Hn]; [done|].
        pose proof (lower_bound_ge ks e i k Hs Hk ltac:(lia)). lia. }
  rewrite filter_all.
  - rewrite segment_zip. rewrite <- (snd_zip (segment (lower_bound ks b) (lower_bound ks e) ks)) at 1; [done|].
    unfold segment. rewrite !length_take, !length_drop. lia.
  - apply Forall_lookup. intros i [k x] Hi. simpl.
    assert (i < lower_bound ks e - lower_bound ks b) as Hlt.
    { apply lookup_lt_Some in Hi. unfold segment in Hi. rewrite length_take in Hi. lia. }
    rewrite segment_lookup in Hi by done. apply lookup_zip_Some in Hi as [Hk _]. simpl in Hk.
    unfold contains. simpl. apply andb_true_intro. split.
    + pose proof (lower_bound_ge ks b _ k Hs Hk ltac:(lia)). lia.
    + pose proof (lower_bound_lt ks e _ k Hk ltac:(lia)). lia.
Qed.

(** ** The pieces of a message *)

Section Slicing.
Context (tk : Task) (mkr : Range) (ks : list Z) (krs : list Range) (b e : Z).
Hypothesis Hsorted : StronglySorted Z.le ks.
Hypothesis Hchain : chain b krs e.
Hypothesis Hinside : (mkr.(begin_) <= b /\ e <= mkr.(end_))%Z.

Definition cut (j : nat) : nat := lower_bound ks (bound krs e j).

Lemma Project_bound j : Project mkr (bound krs e j) = bound krs e j.
Proof. pose proof (chain_bound_in b krs e j Hchain). unfold Project. lia. Qed.

Lemma cut_mono j : cut j <= cut (j + 1).
Proof. apply lower_bound_mono. by eapply chain_bound_mono. Qed.

Lemma cut_le j : cut j <= length ks.
Proof. apply lower_bound_le. Qed.

Lemma range_bound j kr : krs !! j = Some kr -> kr = mkRange (bound krs e j) (bound krs e (j + 1)).
Proof.
  intros Hj. rewrite <- (chain_end b krs e j kr Hchain Hj). unfold bound. rewrite Hj. by destruct kr.
Qed.

(** The keys of the [j]-th piece. *)
Lemma segment_cut {A} (xs : list A) j kr :
  length xs = length ks -> krs !! j = Some kr -> segment (cut j) (cut (j + 1)) xs = sel kr ks xs.
Proof.
  intros Hl Hj. rewrite (range_bound j kr Hj). apply segment_sel; [done|done|]. by eapply chain_bound_mono.
Qed.

Lemma sel_count {A} (xs : list A) j kr :
  length xs = length ks -> krs !! j = Some kr -> length (sel kr ks xs) = cut (j + 1) - cut j.
Proof.
  intros Hl Hj. rewrite <- (segment_cut xs j kr) by done.
  apply segment_length; [apply cut_mono|]. rewrite Hl. apply cut_le.
Qed.

(** A piece after the loop over the keys. *)
Definition keyed (kr : Range) : Msg :=
  match sel kr ks ks with
  | [] => set_valid false (new_Message tk)
  | sk => set_key UINT64 (pod_memory (H := pod_key) sk) (new_Message tk)
  end.

Lemma Segment_ok {A} (x y : nat) (l : list A) :
  x <= y -> y <= length l -> Segment (Z.of_nat x) (Z.of_nat y) l = Ok (segment x y l).
Proof.
  intros H1 H2. unfold Segment. rewrite !check_true by lia. simpl. by rewrite !Nat2Z.id.
Qed.

Lemma keyed_step j kr :
  krs !! j = Some kr ->
  (let ret := mark_valid mkr kr (new_Message tk) in
   let ret := if decide (cut j = cut (j + 1)) then set_valid false ret else ret in
   if ret.(valid)
   then s ← Segment (Z.of_nat (cut j)) (Z.of_nat (cut (j + 1))) ks;
        Ok (set_key UINT64 (pod_memory (H := pod_key) s) ret)
   else Ok ret) = Ok (keyed kr).
Proof.
  intros Hj. pose proof (sel_count ks j kr eq_refl Hj) as Hl. unfold keyed. cbv zeta. case_decide as Hd.
  { simpl. destruct (sel kr ks ks); [done|]. simpl in Hl. lia. }
  pose proof (cut_mono j) as Hm.
  destruct (sel kr ks ks) as [|k sk] eqn:Es; [simpl in Hl; lia|].
  assert (k ∈ sel kr ks ks) as Hin by (rewrite Es; left).
  assert (mark_valid mkr kr (new_Message tk) = new_Message tk) as ->.
  { unfold mark_valid, set_valid. simpl. unfold new_Message. f_equal. apply negb_true_iff. unfold sel in Hin. apply list_elem_of_fmap in Hin as ([k' k2] & _ & Hin).
    apply list_elem_of_filter in Hin as [Hc _]. simpl in Hc.
    rewrite (range_bound j kr Hj) in Hc |- *.
    pose proof (chain_bound_in b krs e j Hchain). pose proof (chain_bound_in b krs e (j + 1) Hchain).
    unfold contains, empty_range, SetIntersection in *. simpl in *. lia. }
  simpl. rewrite Segment_ok by (try apply cut_le; lia). simpl.
  by rewrite (segment_cut ks j kr), Es by done.
Qed.

Lemma slice_keys_ok :
  krs <> [] ->
  foldM (slice_key_step mkr ks krs) (seq 0 (length krs))
    (replicate (length krs + 1) 0, map (fun kr => mark_valid mkr kr (new_Message tk)) krs)
  = Ok (map cut (seq 0 (length krs + 1)), map keyed krs).
Proof.
  intros Hne. set (n := length krs).
  destruct (foldM_seq (slice_key_step mkr ks krs)
    (fun i st => length st.1 = n + 1 /\ (0 < i -> forall j, j <= i -> st.1 !! j = Some (cut j)) /\
       st.2 = map keyed (take i krs) ++ map (fun kr => mark_valid mkr kr (new_Message tk)) (drop i krs))
    0 n (replicate (n + 1) 0, map (fun kr => mark_valid mkr kr (new_Message tk)) krs))
    as ([pos rets] & -> & Hlen & Hpos & Hrets).
  { simpl. rewrite length_replicate, drop_0. repeat split; lia. }
  2:{ simpl in *. subst rets. unfold n. rewrite firstn_all, drop_all, app_nil_r. do 2 f_equal.
      assert (0 < n) as Hn by (unfold n; destruct krs; simpl; [done|lia]).
      apply list_eq. intros j. destruct (decide (j <= n)) as [Hj|Hj].
      - rewrite Hpos by done. rewrite list_lookup_fmap, lookup_seq_lt by lia. done.
      - rewrite !lookup_ge_None_2; [done| |lia]. rewrite length_map, length_seq. lia. }
  intros i [pos rets] Hi (Hlen & Hpos & Hrets). simpl in Hlen, Hpos, Hrets. subst rets.
  destruct (lookup_lt_is_Some_2 krs i) as [kr Hkr]; [unfold n in Hi; lia|].
  unfold slice_key_step.
  assert (read_at krs i = Ok kr) as -> by by apply read_at_Ok. simpl.
  assert (exists pos', (if decide (i = 0) then write_at pos 0 (lower_bound ks (Project mkr (begin_ kr)))
          else prev ← read_at krs (i - 1); _ ← check (end_ prev =? begin_ kr)%Z; Ok pos) = Ok pos' /\
       length pos' = n + 1 /\ forall j, j <= i -> pos' !! j = Some (cut j)) as (pos' & -> & Hlen' & Hpos').
  { case_decide as E.
    - subst i. exists (<[0 := cut 0]> pos). split; [|split].
      + rewrite write_at_lt by lia. do 2 f_equal. unfold cut. rewrite <- (Project_bound 0).
        unfold bound. by rewrite Hkr.
      + by rewrite length_insert.
      + intros j Hj. replace j with 0 by lia. apply list_lookup_insert_eq. lia.
    - destruct (lookup_lt_is_Some_2 krs (i - 1)) as [prev Hprev]; [apply lookup_lt_Some in Hkr; lia|].
      assert (read_at krs (i - 1) = Ok prev) as -> by by apply read_at_Ok. simpl.
      rewrite check_true; [by exists pos; split; [|split; [|apply Hpos; lia]]|].
      apply Z.eqb_eq. rewrite (chain_end b krs e _ _ Hchain Hprev).
      replace (i - 1 + 1) with i by lia. unfold bound. by rewrite Hkr. }
  simpl. rewrite write_at_lt by lia. simpl.
  rewrite (chain_end b krs e i kr Hchain Hkr), Project_bound. fold (cut (i + 1)).
  assert (read_at (map keyed (take i krs) ++ map (fun kr => mark_valid mkr kr (new_Message tk)) (drop i krs)) i
          = Ok (mark_valid mkr kr (new_Message tk))) as ->.
  { apply read_at_Ok. apply lookup_lt_Some in Hkr as Hlt.
    rewrite lookup_app_r; rewrite length_map, length_take; [|lia].
    rewrite list_lookup_fmap, lookup_drop. replace (i + (i - i `min` length krs)) with i by lia. by rewrite Hkr. }
  simpl.
  assert (read_at (<[i + 1 := cut (i + 1)]> pos') i = Ok (cut i)) as ->.
  { apply read_at_Ok. rewrite list_lookup_insert_ne by lia. apply Hpos'. lia. }
  simpl.
  assert (read_at (<[i + 1 := cut (i + 1)]> pos') (i + 1) = Ok (cut (i + 1))) as ->.
  { apply read_at_Ok. apply list_lookup_insert_eq. lia. }
  simpl. pose proof (keyed_step i kr Hkr) as Hk. cbv zeta in Hk. setoid_rewrite Hk. simpl.
  apply lookup_lt_Some in Hkr as Hlt.
  rewrite write_at_lt by (rewrite length_app, !length_map, length_take, length_drop; lia). simpl.
  eexists. split; [done|]. simpl. split; [by rewrite length_insert|]. split.
  - intros _ j Hj. destruct (decide (j = i + 1)) as [->|]; [apply list_lookup_insert_eq; lia|].
    rewrite list_lookup_insert_ne by lia. apply Hpos'. lia.
  - rewrite (drop_S krs kr i Hkr). simpl.
    replace i with (length (map keyed (take i krs)) + 0) at 1
      by (rewrite length_map, length_take; lia).
    rewrite insert_app_r. simpl. rewrite Nat.add_1_r, (take_S_r krs i kr Hkr), map_app, <- app_assoc. done.
Qed.

(** ** The values of the pieces *)

Definition with_values (vs : list (list byte)) (m : Msg) : Msg := mkM m.(task) m.(key) (m.(value) ++ vs) m.(valid).

Lemma foldl_push_value vs m : foldl (fun m v => push_value v m) m vs = with_values vs m.
Proof.
  revert m. induction vs as [|v vs IH]; intros [t k val b0]; unfold with_values; simpl; [by rewrite app_nil_r|].
  rewrite IH. unfold with_values. simpl. by rewrite <- app_assoc.
Qed.

(** A piece with its values, [vs kr] those of the range [kr]. *)
Definition piece (vs : Range -> list (list byte)) (kr : Range) : Msg :=
  if (keyed kr).(valid) then with_values (vs kr) (keyed kr) else keyed kr.

Lemma piece_valid vs kr : (piece vs kr).(valid) = (keyed kr).(valid).
Proof. unfold piece. destruct (keyed kr) as [? ? ? []]; done. Qed.

Lemma push_pieces_ok vs seg f :
  (forall i kr, krs !! i = Some kr -> seg i = Ok (f kr)) ->
  push_pieces (length krs) seg (map (piece vs) krs) = Ok (map (piece (fun kr => vs kr ++ f kr)) krs).
Proof.
  intros Hseg. unfold push_pieces.
  match goal with |- foldM ?g _ _ = _ =>
    destruct (foldM_seq g (fun i rets => rets = map (piece (fun kr => vs kr ++ f kr)) (take i krs) ++ map (piece vs) (drop i krs))
      0 (length krs) (map (piece vs) krs)) as (rets & -> & ->) end.
  - done.
  - intros i rets Hi ->. destruct (lookup_lt_is_Some_2 krs i) as [kr Hkr]; [lia|].
    set (p1 := map (piece (fun kr => vs kr ++ f kr)) (take i krs)).
    assert (length p1 = i) as Hp1 by (unfold p1; rewrite length_map, length_take; lia).
    assert (read_at (p1 ++ map (piece vs) (drop i krs)) i = Ok (piece vs kr)) as ->.
    { apply read_at_Ok. rewrite lookup_app_r by lia.
      rewrite list_lookup_fmap, lookup_drop, Hp1. replace (i + (i - i)) with i by lia. by rewrite Hkr. }
    simpl. rewrite piece_valid, (Hseg i kr Hkr). simpl. rewrite foldl_push_value.
    assert (piece (fun kr => vs kr ++ f kr) kr
            = if valid (keyed kr) then with_values (f kr) (piece vs kr) else piece vs kr) as Hp.
    { unfold piece. destruct (valid (keyed kr)); [|done]. unfold with_values. simpl. by rewrite app_assoc. }
    rewrite Nat.add_1_r, (take_S_r krs i kr Hkr), map_app, <- app_assoc. simpl. fold p1. rewrite Hp.
    rewrite (drop_S krs kr i Hkr). simpl.
    destruct (valid (keyed kr)) eqn:Ev; [|by eexists].
    rewrite write_at_lt by (rewrite length_app; simpl; lia). eexists. split; [done|].
    replace i with (length p1 + 0) at 1 by lia. by rewrite insert_app_r.
  - simpl. by rewrite firstn_all, drop_all, app_nil_r.
Qed.

Lemma take_concat {A} x (ls : list (list A)) :
  take (sum_list (map length (take x ls))) (concat ls) = concat (take x ls).
Proof.
  rewrite <- (take_drop x ls) at 2. rewrite concat_app, <- length_concat_sum. apply take_app_length.
Qed.

Lemma segment_blocks {A} x y (ls : list (list A)) :
  x <= y ->
  segment (sum_list (map length (take x ls))) (sum_list (map length (take y ls))) (concat ls) = concat (segment x y ls).
Proof.
  intros Hxy. unfold segment.
  assert (sum_list (map length (take y ls)) = sum_list (map length (take x ls)) + sum_list (map length (take (y - x) (drop x ls)))) as ->.
  { rewrite <- sum_list_app, <- map_app. do 2 f_equal. rewrite take_take_drop. f_equal. lia. }
  rewrite Nat.add_comm, Nat.add_sub. rewrite <- (take_concat (y - x)). f_equal.
  rewrite <- (take_drop x ls) at 2. rewrite concat_app, <- length_concat_sum. apply drop_app_length.
Qed.

Lemma sum_list_uniform k (ls : list nat) : Forall (fun x => x = k) ls -> sum_list ls = length ls * k.
Proof. induction 1; simpl; lia. Qed.

(** An array whose blocks, one per key, all have [k] bytes. *)
Definition uniform (k : nat) (bl : list (list byte)) : Prop :=
  length bl = length ks /\ Forall (fun x => length x = k) bl.

Lemma uniform_sum k bl x : uniform k bl -> x <= length ks -> sum_list (map length (take x bl)) = x * k.
Proof.
  intros [Hl Hk] Hx. rewrite (sum_list_uniform k).
  - rewrite length_map, length_take. f_equal. lia.
  - apply Forall_map, Forall_take, Hk.
Qed.

Lemma slice_value_ok vs k bl :
  ks <> [] -> uniform k bl ->
  slice_value (length ks) (length krs) (map cut (seq 0 (length krs + 1))) (map (piece vs) krs) (concat bl)
  = Ok (map (piece (fun kr => vs kr ++ [concat (sel kr ks bl)])) krs).
Proof.
  intros Hne Hu. pose proof Hu as [Hl Hk]. unfold slice_value.
  assert (length (concat bl) = length ks * k) as Hlen.
  { rewrite length_concat_sum. rewrite <- (uniform_sum k bl (length ks)) by done.
    by rewrite <- Hl, firstn_all. }
  assert (0 < length ks) by (destruct ks; [done|simpl; lia]).
  rewrite Hlen, Nat.mul_comm, Nat.div_mul by lia.
  rewrite check_true by (apply bool_decide_eq_true; lia). simpl.
  apply push_pieces_ok. intros i kr Hkr. apply lookup_lt_Some in Hkr as Hi.
  assert (forall j, j <= length krs -> read_at (map cut (seq 0 (length krs + 1))) j = Ok (cut j)) as Hr.
  { intros j Hj. apply read_at_Ok. rewrite list_lookup_fmap, lookup_seq_lt by lia. done. }
  rewrite !Hr by lia. simpl. pose proof (cut_mono i). pose proof (cut_le (i + 1)).
  rewrite Segment_ok by (rewrite ?Hlen; nia). simpl. do 2 f_equal.
  rewrite <- (uniform_sum k bl (cut i)), <- (uniform_sum k bl (cut (i + 1))) by (done || lia).
  rewrite segment_blocks by done. by rewrite (segment_cut bl i kr).
Qed.

(** ** Values of varying lengths *)

(** An array of blocks and the array of their lengths: block [j] has [lens[j]]
    entries of [es] bytes. *)
Record dynamic (es : nat) (lens : list nat) (bl : list (list byte)) : Prop := {
  dyn_blocks : length bl = length ks;
  dyn_lens : map length bl = map (Nat.mul es) lens;
  dyn_int : Forall (fun l => Z.of_nat l < 2 ^ 31)%Z lens;
  dyn_some : 0 < sum_list lens;
  dyn_small : (Z.of_nat (es * sum_list lens) < 2 ^ 64)%Z;
  dyn_es : 0 < es }.

Lemma sarray_memory {A} (pa : Pod A) `{!@PodLaws A pa} (v : list A) :
  0 < pod_size (Pod := pa) -> Forall (pod_valid (Pod := pa)) v -> sarray pa (pod_memory (H := pa) v) = v.
Proof.
  intros Hp Hv. unfold sarray. rewrite pod_memory_length, Nat.mul_comm, Nat.div_mul by lia.
  by apply pod_elems_memory.
Qed.

Lemma foldl_u64 (ls : list nat) (a : Z) :
  (0 <= a)%Z -> (a + Z.of_nat (sum_list ls) < 2 ^ 64)%Z ->
  foldl (fun a k => u64 (a + k)) a (map Z.of_nat ls) = (a + Z.of_nat (sum_list ls))%Z.
Proof.
  revert a. induction ls as [|l ls IH]; intros a Ha Hs; simpl in *; [lia|].
  rewrite u64_small by lia. rewrite IH by lia. lia.
Qed.

Lemma map_segment {A B} (f : A -> B) x y l : segment x y (map f l) = map f (segment x y l).
Proof. unfold segment. by rewrite skipn_map, firstn_map. Qed.

Lemma sum_segment x y ls : x <= y -> sum_list (take x ls) + sum_list (segment x y ls) = sum_list (take y ls).
Proof.
  intros Hxy. unfold segment. rewrite <- sum_list_app, take_take_drop. do 2 f_equal. lia.
Qed.

Lemma sum_take_le x ls : sum_list (take x ls) <= sum_list ls.
Proof. rewrite <- (take_drop x ls) at 2. rewrite sum_list_app. lia. Qed.

Lemma sum_mul es ls : sum_list (map (Nat.mul es) ls) = es * sum_list ls.
Proof. induction ls as [|l ls IH]; simpl; [lia|]. rewrite IH. lia. Qed.

Lemma dynamic_pos es lens bl x :
  dynamic es lens bl -> sum_list (map length (take x bl)) = es * sum_list (take x lens).
Proof.
  intros Hd. rewrite <- firstn_map, (dyn_lens _ _ _ Hd), firstn_map. apply sum_mul.
Qed.

Lemma dynamic_length es lens bl : dynamic es lens bl -> length lens = length ks.
Proof.
  intros Hd. rewrite <- (dyn_blocks _ _ _ Hd). pose proof (dyn_lens _ _ _ Hd) as E.
  apply (f_equal length) in E. by rewrite !length_map in E.
Qed.

Context (Hcover : Forall (fun k => b <= k < e)%Z ks).

Lemma cut_first : cut 0 = 0.
Proof.
  apply lower_bound_none. rewrite (chain_bound_0 b) by done. eapply Forall_impl; [exact Hcover|]. simpl. lia.
Qed.

Lemma cut_last : cut (length krs) = length ks.
Proof.
  apply lower_bound_all. rewrite bound_end. eapply Forall_impl; [exact Hcover|]. simpl. lia.
Qed.

Lemma read_cut j : j <= length krs -> read_at (map cut (seq 0 (length krs + 1))) j = Ok (cut j).
Proof. intros Hj. apply read_at_Ok. rewrite list_lookup_fmap, lookup_seq_lt by lia. done. Qed.

(** The positions of the pieces in the value array. *)
Definition vpos (lens : list nat) (j : nat) : Z := Z.of_nat (sum_list (take (cut j) lens)).

Lemma val_pos_ok es lens bl :
  dynamic es lens bl ->
  foldM (val_pos_step (map cut (seq 0 (length krs + 1))) (map Z.of_nat lens)) (seq 0 (length krs))
    (replicate (length krs + 1) 0%Z) = Ok (map (vpos lens) (seq 0 (length krs + 1))).
Proof.
  intros Hd. set (n := length krs). pose proof (dynamic_length _ _ _ Hd) as Hl.
  destruct (foldM_seq (val_pos_step (map cut (seq 0 (n + 1))) (map Z.of_nat lens))
    (fun i vp => length vp = n + 1 /\ forall j, j <= i -> vp !! j = Some (vpos lens j)) 0 n (replicate (n + 1) 0%Z))
    as (vp & -> & Hlen & Hvp).
  - rewrite length_replicate. split; [done|]. intros j Hj. replace j with 0 by lia.
    rewrite lookup_replicate_2 by lia. unfold vpos. by rewrite cut_first.
  - intros i vp Hi (Hlen & Hvp). unfold val_pos_step.
    assert (read_at vp i = Ok (vpos lens i)) as -> by (apply read_at_Ok, Hvp; lia). simpl.
    unfold n. rewrite !read_cut by lia. simpl. pose proof (cut_mono i) as Hm. pose proof (cut_le (i + 1)).
    rewrite Segment_ok by (rewrite ?length_map; lia). simpl. rewrite map_segment.
    pose proof (sum_segment _ _ lens Hm) as Hsum. pose proof (sum_take_le (cut (i + 1)) lens).
    destruct Hd as [_ _ _ _ Hsmall Hes].
    rewrite foldl_u64 by (unfold vpos; nia). rewrite write_at_lt by lia.
    eexists. split; [done|]. split; [by rewrite length_insert|]. intros j Hj.
    destruct (decide (j = i + 1)) as [->|].
    + rewrite list_lookup_insert_eq by lia. f_equal. unfold vpos. lia.
    + rewrite list_lookup_insert_ne by lia. apply Hvp. lia.
  - f_equal. simpl in Hvp. apply list_eq. intros j. destruct (decide (j <= n)) as [Hj|Hj].
    + rewrite Hvp by done. rewrite list_lookup_fmap, lookup_seq_lt by lia. done.
    + rewrite !lookup_ge_None_2; [done| |lia]. rewrite length_map, length_seq. lia.
Qed.

Lemma slice_dyn_ok vs es lens bl :
  dynamic es lens bl ->
  slice_dyn (length krs) (map cut (seq 0 (length krs + 1))) (map (piece vs) krs)
    (concat bl) (pod_memory (H := pod_len) (map Z.of_nat lens))
  = Ok (map (piece (fun kr => vs kr ++ [concat (sel kr ks bl); pod_memory (H := pod_len) (sel kr ks (map Z.of_nat lens))])) krs).
Proof.
  intros Hd. pose proof (dynamic_length _ _ _ Hd) as Hl. unfold slice_dyn.
  rewrite sarray_memory; [|apply _|simpl; lia|].
  2:{ apply Forall_map. eapply Forall_impl; [exact (dyn_int _ _ _ Hd)|]. simpl. lia. }
  rewrite (val_pos_ok es lens bl Hd). simpl.
  assert (forall j, j <= length krs -> read_at (map (vpos lens) (seq 0 (length krs + 1))) j = Ok (vpos lens j)) as Hr.
  { intros j Hj. apply read_at_Ok. rewrite list_lookup_fmap, lookup_seq_lt by lia. done. }
  rewrite Hr by lia. simpl.
  assert (vpos lens (length krs) = Z.of_nat (sum_list lens)) as Htot.
  { unfold vpos. by rewrite cut_last, <- Hl, firstn_all. }
  rewrite Htot. pose proof Hd as [Hbl _ _ Hsome Hsmall Hes]. rewrite decide_False by lia.
  assert (length (concat bl) = es * sum_list lens) as Hlen.
  { rewrite length_concat_sum. rewrite <- (firstn_all bl). rewrite (dynamic_pos _ _ _ _ Hd).
    by rewrite Hbl, <- Hl, firstn_all. }
  rewrite Hlen. assert (Z.of_nat (es * sum_list lens) / Z.of_nat (sum_list lens) = Z.of_nat es)%Z as ->.
  { rewrite Nat2Z.inj_mul. apply Z.div_mul. lia. }
  rewrite check_true by (rewrite <- Nat2Z.inj_mul, Nat.mul_comm, u64_small; lia). simpl.
  apply push_pieces_ok. intros i kr Hkr. apply lookup_lt_Some in Hkr as Hi.
  rewrite !Hr, !read_cut by lia. simpl. pose proof (cut_mono i) as Hm. pose proof (cut_le (i + 1)).
  assert (forall j, u64 (vpos lens j * Z.of_nat es) = Z.of_nat (sum_list (map length (take (cut j) bl)))) as Hu.
  { intros j. rewrite (dynamic_pos _ _ _ _ Hd). unfold vpos. pose proof (sum_take_le (cut j) lens).
    rewrite <- Nat2Z.inj_mul, Nat.mul_comm. apply u64_small. nia. }
  rewrite !Hu. rewrite (Segment_ok (sum_list (map length (take (cut i) bl)))).
  2:{ rewrite !(dynamic_pos _ _ _ _ Hd). pose proof (sum_segment _ _ lens Hm). apply Nat.mul_le_mono_l. lia. }
  2:{ rewrite Hlen, (dynamic_pos _ _ _ _ Hd). apply Nat.mul_le_mono_l, sum_take_le. }
  simpl. rewrite segment_blocks by done. rewrite (segment_cut bl i kr) by done.
  rewrite Segment_ok by (rewrite ?length_map; lia). simpl. by rewrite (segment_cut _ i kr) by (done || by rewrite length_map).
Qed.

(** What [msg.value] holds and the values [pieces] of the range [kr]: either
    arrays of blocks of one size, or arrays with their lengths. *)
Inductive values : bool -> list (list byte) -> (Range -> list (list byte)) -> Prop :=
| values_nil d : values d [] (fun _ => [])
| values_static k bl vals vs :
    uniform k bl -> values false vals vs ->
    values false (concat bl :: vals) (fun kr => concat (sel kr ks bl) :: vs kr)
| values_dynamic es lens bl vals vs :
    dynamic es lens bl -> values true vals vs ->
    values true (concat bl :: pod_memory (H := pod_len) (map Z.of_nat lens) :: vals)
      (fun kr => concat (sel kr ks bl) :: pod_memory (H := pod_len) (sel kr ks (map Z.of_nat lens)) :: vs kr).

Lemma piece_ext vs1 vs2 : (forall kr, vs1 kr = vs2 kr) -> map (piece vs1) krs = map (piece vs2) krs.
Proof. intros He. apply map_ext. intros kr. unfold piece. by rewrite He. Qed.

Lemma slice_values_ok d vals vs us :
  ks <> [] -> values d vals vs ->
  (if d then slice_pairs (length krs) (map cut (seq 0 (length krs + 1))) vals (map (piece us) krs)
   else foldM (slice_value (length ks) (length krs) (map cut (seq 0 (length krs + 1)))) vals (map (piece us) krs))
  = Ok (map (piece (fun kr => us kr ++ vs kr)) krs).
Proof.
  intros Hne Hv. revert us. induction Hv as [d|k bl vals vs Hu Hv IH|es lens bl vals vs Hd Hv IH]; intros us.
  - destruct d; simpl; f_equal; apply piece_ext; intros; by rewrite app_nil_r.
  - cbn [foldM]. rewrite (slice_value_ok us k bl) by done. cbn. rewrite IH. f_equal. apply piece_ext.
    intros kr. by rewrite <- app_assoc.
  - cbn [slice_pairs]. rewrite (slice_dyn_ok us es lens bl) by done. cbn. rewrite IH. f_equal. apply piece_ext.
    intros kr. by rewrite <- app_assoc.
Qed.

Lemma values_even d vals vs : values d vals vs -> d = true -> length vals `mod` 2 = 0.
Proof.
  induction 1 as [d|k bl vals vs Hu Hv IH|es lens bl vals vs Hd Hv IH]; intros E; [done|done|].
  cbn [length]. replace (S (S (length vals))) with (length vals + 1 * 2) by lia.
  rewrite Nat.Div0.mod_add. by apply IH.
Qed.

(** What a server with range [kr] gets. *)
Definition spec_piece (vs : Range -> list (list byte)) (kr : Range) : Msg :=
  match sel kr ks ks with
  | [] => mkM tk [] [] false
  | sk => mkM (set_key UINT64 [] (new_Message tk)).(task) (pod_memory (H := pod_key) sk) (vs kr) true
  end.

Lemma piece_spec vs kr : piece vs kr = spec_piece vs kr.
Proof. unfold piece, spec_piece, keyed. by destruct (sel kr ks ks). Qed.

Lemma nonempty_match {A B} (l : list A) (x y : B) : l <> [] -> match l with [] => x | _ :: _ => y end = y.
Proof. by destruct l. Qed.

Lemma SliceMessage_ok vals vs d :
  get_key_range tk = mkr -> ks <> [] -> krs <> [] -> Forall (fun k => 0 <= k < 2 ^ 64)%Z ks -> values d vals vs ->
  SliceMessage (mkM tk (pod_memory (H := pod_key) ks) vals true) krs (replicate (length krs) (new_Message tk)) d
  = Ok (map (spec_piece vs) krs).
Proof.
  intros Hr Hks Hkrs Hk Hv. unfold SliceMessage. simpl task. simpl key. simpl value.
  rewrite length_replicate, (bool_decide_true (length krs = length krs)) by done. cbn [check mbind outcome_bind].
  rewrite sarray_memory; [|apply _|simpl; lia|exact Hk]. rewrite Hr.
  rewrite nonempty_match by done.
  assert (zip_with (mark_valid mkr) krs (replicate (length krs) (new_Message tk))
          = map (fun kr => mark_valid mkr kr (new_Message tk)) krs) as ->.
  { clear. induction krs as [|kr krs' IH]; simpl; [done|]. by rewrite IH. }
  setoid_rewrite (slice_keys_ok Hkrs). cbn [mbind outcome_bind].
  assert (map keyed krs = map (piece (fun _ => [])) krs) as ->.
  { apply map_ext. intros kr. unfold piece, keyed. by destruct (sel kr ks ks). }
  pose proof (slice_values_ok d vals vs (fun _ => []) Hks Hv) as Hsv. simpl in Hsv.
  destruct d.
  - rewrite check_true by (apply bool_decide_eq_true; by eapply values_even). cbn [mbind outcome_bind].
    rewrite Hsv. f_equal. apply map_ext. intros. by rewrite piece_spec.
  - rewrite Hsv. f_equal. apply map_ext. intros. by rewrite piece_spec.
Qed.

(** The pieces together are the keys, in order. *)
Lemma sel_tile {A} (xs : list A) : length xs = length ks -> concat (map (fun kr => sel kr ks xs) krs) = xs.
Proof.
  intros Hl.
  assert (map (fun kr => sel kr ks xs) krs = map (fun t => segment (cut t) (cut (t + 1)) xs) (seq 0 (length krs))) as ->.
  { apply list_eq. intros i. rewrite !list_lookup_fmap. destruct (krs !! i) as [kr|] eqn:Ei; simpl.
    - apply lookup_lt_Some in Ei as Hi. rewrite lookup_seq_lt by done. simpl. by rewrite (segment_cut xs i kr).
    - apply lookup_ge_None in Ei. rewrite lookup_seq_ge by done. done. }
  rewrite segments_tile by (intros; apply cut_mono). rewrite cut_first, cut_last, <- Hl. apply segment_all.
Qed.

End Slicing.

(** ** Every key goes to the server of its range *)

Lemma pod_memory_concat {A} (pa : Pod A) (ls : list (list A)) :
  pod_memory (H := pa) (concat ls) = concat (map (pod_memory (H := pa)) ls).
Proof.
  unfold pod_memory. induction ls as [|l ls IH]; [done|]. cbn [concat map]. by rewrite map_app, concat_app, IH.
Qed.

Lemma values_tile (krs : list Range) ks b e d vals vs i v :
  StronglySorted Z.le ks -> chain b krs e -> Forall (fun k => b <= k < e)%Z ks ->
  values ks d vals vs -> vals !! i = Some v -> concat (map (fun kr => default [] (vs kr !! i)) krs) = v.
Proof.
  intros Hs Hc Hk Hv. revert i.
  assert (forall bl : list (list byte), length bl = length ks -> concat (map (fun kr => concat (sel kr ks bl)) krs) = concat bl) as Hcc.
  { intros bl Hl. transitivity (concat (concat (map (fun kr => sel kr ks bl) krs))); [|by rewrite (sel_tile ks krs b e Hs Hc Hk bl Hl)].
    clear. induction krs as [|kr krs IH]; simpl; [done|]. by rewrite concat_app, IH. }
  induction Hv as [d|k bl vals vs Hu Hv IH|es lens bl vals vs Hd Hv IH]; intros i Hi; [done| |].
  - destruct i as [|i]; simplify_eq/=; [|by apply IH]. apply Hcc, Hu.
  - destruct i as [|[|i]]; simplify_eq/=; [|  |by apply IH].
    + by apply Hcc, (dyn_blocks _ _ _ _ Hd).
    + pose proof (dynamic_length _ _ _ _ Hd) as Hl.
      transitivity (pod_memory (H := pod_len) (concat (map (fun kr => sel kr ks (map Z.of_nat lens)) krs))).
      2:{ rewrite (sel_tile ks krs b e Hs Hc Hk); [done|]. by rewrite length_map. }
      by rewrite pod_memory_concat, map_map.
Qed.

(** Slicing a message with sorted keys over servers whose ranges follow
    each other and contain the keys: the piece of each server holds exactly the
    keys in its range and the blocks of values of these keys, whether the blocks
    have one size or come with an array of lengths; a server with no key of the
    message is not sent anything; and the pieces, in the order of the servers,
    are the message: no key and no value is lost, repeated or moved. *)
Theorem SliceMessage_partition tk ks krs b e vals vs d :
  StronglySorted Z.le ks -> ks <> [] -> krs <> [] -> chain b krs e ->
  tk.(key_range) = Some All -> (0 <= b)%Z -> (e <= 2 ^ 64 - 1)%Z ->
  Forall (fun k => b <= k < e)%Z ks -> values ks d vals vs ->
  exists ps,
    SliceMessage (mkM tk (pod_memory (H := pod_key) ks) vals true) krs (replicate (length krs) (new_Message tk)) d = Ok ps /\
    ps = map (spec_piece tk ks vs) krs /\
    concat (map key ps) = pod_memory (H := pod_key) ks /\
    (forall i v, vals !! i = Some v -> concat (map (fun p => default [] (p.(value) !! i)) ps) = v).
Proof.
  intros Hs Hks Hkrs Hc Htk Hb He Hk Hv.
  exists (map (spec_piece tk ks vs) krs). split.
  { apply (SliceMessage_ok tk All ks krs b e); try done.
    - unfold get_key_range. by rewrite Htk.
    - eapply Forall_impl; [exact Hk|]. simpl. lia. }
  split; [done|]. rewrite !map_map. split.
  - transitivity (pod_memory (H := pod_key) (concat (map (fun kr => sel kr ks ks) krs))).
    2:{ by rewrite (sel_tile ks krs b e Hs Hc Hk ks eq_refl). }
    rewrite pod_memory_concat, map_map. f_equal. apply map_ext. intros kr. unfold spec_piece. by destruct (sel kr ks ks).
  - intros i v Hi. rewrite map_map, <- (values_tile krs ks b e d vals vs i v) by done.
    f_equal. apply map_ext. intros kr. unfold spec_piece. destruct (sel kr ks ks) as [|k sk] eqn:E; [|done].
    simpl.
    assert (forall A (xs : list A), length xs = length ks -> sel kr ks xs = []) as Hn.
    { intros A xs Hl. unfold sel in *. apply map_eq_nil in E. rewrite filter_none; [done|]. apply Forall_lookup.
      intros j [k x] Hj Hkc. apply lookup_zip_Some in Hj as [Hj _]. simpl in *.
      assert ((k, k) ∈ filter (fun p => contains kr p.1 = true) (zip ks ks)) as Hin.
      { apply list_elem_of_filter. split; [done|]. eapply list_elem_of_lookup_2. by apply lookup_zip_Some. }
      rewrite E in Hin. by apply not_elem_of_nil in Hin. }
    clear Hi. revert i. induction Hv as [d|k bl vals vs Hu Hv IH|es lens bl vals vs Hd Hv IH]; intros i; [done| |].
    + destruct i as [|i]; simpl; [|apply IH]. by rewrite Hn by apply Hu.
    + destruct i as [|[|i]]; simpl; [| |apply IH].
      * by rewrite Hn by apply (dyn_blocks _ _ _ _ Hd).
      * rewrite Hn; [done|]. rewrite length_map. by eapply dynamic_length.
Qed.

(** Two servers, three keys, values of one, two and one floats. *)
Definition ex_ranges : list Range := [mkRange 0 100; mkRange 100 200].
Definition ex_keys : list Z := [3; 99; 100]%Z.
Definition ex_task : Task := mkTask None (Some All) 0 true (Some UINT64) [FLOAT; INT32] true true.
Definition ex_block (n : nat) : list byte := replicate (4 * n) Byte.x01.

Lemma SliceMessage_partition_witness :
  exists ps,
    SliceMessage (mkM ex_task (pod_memory (H := pod_key) ex_keys)
      [concat (map ex_block [1; 2; 1]); pod_memory (H := pod_len) [1; 2; 1]%Z] true) ex_ranges
      (replicate 2 (new_Message ex_task)) true = Ok ps /\
    concat (map key ps) = pod_memory (H := pod_key) ex_keys /\ map (fun p => length p.(key)) ps = [16; 8].
Proof.
  destruct (SliceMessage_partition ex_task ex_keys ex_ranges 0 200
    [concat (map ex_block [1; 2; 1]); pod_memory (H := pod_len) (map Z.of_nat [1; 2; 1])]
    (fun kr => [concat (sel kr ex_keys (map ex_block [1; 2; 1]));
                pod_memory (H := pod_len) (sel kr ex_keys (map Z.of_nat [1; 2; 1]))]) true) as (ps & E & Hps & Hk & _).
  - repeat constructor; lia.
  - done.
  - done.
  - repeat split; simpl; lia.
  - done.
  - lia.
  - lia.
  - repeat constructor; simpl; lia.
  - apply (values_dynamic _ 4); [|constructor].
    split; try done; simpl; try lia. repeat constructor; lia.
  - exists ps. split; [exact E|]. split; [exact Hk|]. rewrite Hps. vm_compute. reflexivity.
Defined.

(** ** The group of the servers is in the order of their ranges *)

Definition below (r1 r2 : NodeID * Range) : Prop := (r1.2.(begin_) < r2.2.(begin_))%Z.

#[export] Instance below_antisymm : AntiSymm (=) below.
Proof. intros x y. unfold below. lia. Qed.

(** A group made of the nodes [ps], in this order. *)
Definition group_of (ps : list (NodeID * Range)) : Group := mkGroup (map fst ps) (map snd ps).

Lemma AddGroupNode_of id kr ps :
  exists qs, AddGroupNode id kr (group_of ps) = group_of qs /\ qs = insert_before (group_pos kr (map snd ps)) (id, kr) ps.
Proof.
  eexists. split; [|done]. unfold AddGroupNode, group_of, insert_before. simpl.
  by rewrite !map_app, !firstn_map, !skipn_map.
Qed.

Lemma insert_before_perm {A} pos (x : A) l : insert_before pos x l ≡ₚ x :: l.
Proof. unfold insert_before. rewrite <- Permutation_middle. by rewrite take_drop. Qed.

Lemma insert_before_sorted id kr ps :
  StronglySorted below ps -> Forall (fun p => p.2.(begin_) <> kr.(begin_)) ps ->
  StronglySorted below (insert_before (group_pos kr (map snd ps)) (id, kr) ps).
Proof.
  unfold insert_before. induction 1 as [|p ps Hs IH Hp]; intros Hne; simpl.
  { repeat constructor. }
  apply Forall_cons in Hne as [Hn Hne]. specialize (IH Hne).
  unfold InLeft. destruct (Z.leb_spec (begin_ kr) (begin_ p.2)) as [Hle|Hgt]; simpl.
  - constructor; [by constructor|]. constructor; [unfold below; simpl; lia|].
    eapply Forall_impl; [exact Hp|]. intros q Hq. unfold below in *. simpl in *. lia.
  - replace (_ && _) with false by lia. simpl. constructor; [done|].
    apply Forall_app. split; [by apply Forall_take|]. constructor; [unfold below; simpl; lia|].
    by apply Forall_drop.
Qed.

(** Nodes added to an empty group, in any order. *)
Definition add_nodes (ps : list (NodeID * Range)) : Group :=
  foldl (fun g p => AddGroupNode p.1 p.2 g) (mkGroup [] []) ps.

Lemma add_nodes_sorted ps : NoDup (map (fun p => p.2.(begin_)) ps) ->
  exists qs, add_nodes ps = group_of qs /\ qs ≡ₚ ps /\ StronglySorted below qs.
Proof.
  unfold add_nodes. induction ps as [|p ps IH] using rev_ind; intros Hnd.
  { exists []. split; [done|]. split; [done|]. constructor. }
  rewrite map_app in Hnd. apply NoDup_app in Hnd as (Hnd & Hnot & _).
  destruct (IH Hnd) as (qs & E & Hp & Hs). rewrite foldl_snoc, E.
  destruct (AddGroupNode_of p.1 p.2 qs) as (rs & -> & ->). eexists. split; [done|]. destruct p as [id kr]. simpl.
  split; cbn [fst snd].
  - rewrite insert_before_perm, Hp. by rewrite <- Permutation_cons_append.
  - apply insert_before_sorted; [done|]. apply Forall_forall. intros q Hq Heq. rewrite Hp in Hq.
    apply (Hnot (begin_ kr)); [|simpl; left]. apply list_elem_of_fmap. exists q. done.
Qed.

(** The ranges of [n] servers. *)
Definition server_ranges (n : nat) : outcome (list Range) :=
  foldM (fun rs i => r ← EvenDivide All n i; Ok (rs ++ [r])) (seq 0 n) [].

(** [chain] and strict growth, as a test. *)
Fixpoint chainb (b : Z) (krs : list Range) : option Z :=
  match krs with
  | [] => Some b
  | r :: krs => if (r.(begin_) =? b)%Z && (b <? r.(end_))%Z then chainb r.(end_) krs else None
  end.

Lemma chainb_chain b krs e : chainb b krs = Some e -> chain b krs e /\ StronglySorted (fun r1 r2 => r1.(begin_) < r2.(begin_))%Z krs /\ Forall (fun r => b <= r.(begin_))%Z krs.
Proof.
  revert b. induction krs as [|r krs IH]; intros b; simpl.
  { intros [= ->]. repeat constructor. }
  destruct (Z.eqb_spec (begin_ r) b), (Z.ltb_spec b (end_ r)); simpl; try done.
  intros (Hc & Hs & Hf)%IH. split; [repeat split; [done|lia|done]|]. split.
  - constructor; [done|]. eapply Forall_impl; [exact Hf|]. simpl. lia.
  - constructor; [lia|]. eapply Forall_impl; [exact Hf|]. simpl. lia.
Qed.

(** The test of [server_ranges n]: the ranges follow each other from 0 up to
    [2^64 - 1] or one less. *)
Definition ranges_ok (n : nat) : bool :=
  match server_ranges n with
  | Ok rs => bool_decide (length rs = n) && match chainb 0 rs with Some e => (2 ^ 64 - 2 <=? e)%Z && (e <=? 2 ^ 64 - 1)%Z | None => false end
  | Fail _ => false
  end.

Lemma ranges_ok_upto : forallb ranges_ok (seq 1 32) = true.
Proof. vm_compute. reflexivity. Qed.

(** [Assign] on the nodes in the order in which they register. *)
Definition assign_step (st : NodeAssigner * list Node) (node : Node) : outcome (NodeAssigner * list Node) :=
  '(a, node) ← Assign st.1 node; Ok (a, st.2 ++ [node]).

Definition is_server (n : Node) : bool := match n.(role) with SERVER => true | _ => false end.
Definition servers (l : list Node) : list Node := filter (fun n => is_server n = true) l.

Definition range_at (n i : nat) : Range := match EvenDivide All n i with Ok r => r | Fail _ => mkRange 0 0 end.

Lemma server_ranges_inv n m b acc rs :
  foldM (fun rs i => r ← EvenDivide All n i; Ok (rs ++ [r])) (seq b m) acc = Ok rs ->
  (forall j, b <= j < b + m -> EvenDivide All n j = Ok (range_at n j)) /\ rs = acc ++ map (range_at n) (seq b m).
Proof.
  revert b acc. induction m as [|m IH]; intros b acc; cbn [seq foldM].
  { intros [= ->]. split; [lia|]. by rewrite app_nil_r. }
  destruct (EvenDivide All n b) as [r|] eqn:E; [|done]. cbn [mbind outcome_bind].
  intros (Hall & ->)%IH. split.
  - intros j Hj. destruct (decide (j = b)) as [->|]; [|apply Hall; lia]. unfold range_at. by rewrite E.
  - cbn [map]. unfold range_at at 2. rewrite E. by rewrite <- app_assoc.
Qed.

Lemma assign_all_ok n nodes rk wk out :
  (forall j, rk <= j < rk + length (servers nodes) -> EvenDivide All n j = Ok (range_at n j)) ->
  exists a ns, foldM assign_step nodes (mkAssigner n rk wk All, out) = Ok (a, out ++ ns) /\
    map node_key (servers ns) = map (range_at n) (seq rk (length (servers nodes))).
Proof.
  revert rk wk out. induction nodes as [|[r k kr] nodes IH]; intros rk wk out Hall; cbn [foldM].
  { eexists _, []. by rewrite app_nil_r. }
  assert (forall wk' r' k' kr', is_server (mkNode r' k' kr') = false -> servers (mkNode r k kr :: nodes) = servers nodes ->
    exists a ns, foldM assign_step nodes (mkAssigner n rk wk' All, out ++ [mkNode r' k' kr']) = Ok (a, out ++ ns) /\
      map node_key (servers ns) = map (range_at n) (seq rk (length (servers nodes)))) as Hother.
  { intros wk' r' k' kr' Hr Hn. destruct (IH rk wk' (out ++ [mkNode r' k' kr'])) as (a & ns & E & Hns).
    { intros j Hj. apply Hall. by rewrite Hn. }
    exists a, (mkNode r' k' kr' :: ns). rewrite E, <- app_assoc. split; [done|].
    unfold servers. rewrite filter_cons, decide_False by (rewrite Hr; done). done. }
  destruct r; try (by apply Hother).
  assert (servers (mkNode SERVER k kr :: nodes) = mkNode SERVER k kr :: servers nodes) as Hsv by done.
  rewrite Hsv in Hall |- *. cbn [length] in Hall |- *.
  assert (assign_step (mkAssigner n rk wk All, out) (mkNode SERVER k kr)
    = Ok (mkAssigner n (rk + 1) wk All, out ++ [mkNode SERVER (Z.of_nat rk) (range_at n rk)])) as ->.
  { unfold assign_step, Assign. cbn [fst snd role key_range_ num_servers_ server_rank_ worker_rank_].
    rewrite Hall by lia. done. }
  cbn [mbind outcome_bind].
  destruct (IH (rk + 1) wk (out ++ [mkNode SERVER (Z.of_nat rk) (range_at n rk)])) as (a & ns & E & Hns).
  { intros j Hj. apply Hall. lia. }
  exists a, (mkNode SERVER (Z.of_nat rk) (range_at n rk) :: ns). rewrite E, <- app_assoc. split; [done|].
  unfold servers in *. rewrite filter_cons, decide_True by done. cbn [map node_key seq].
  rewrite Hns. by rewrite Nat.add_1_r.
Qed.

(** With up to 32 servers, whatever other nodes register in between: the
    ranges that the scheduler gives to the servers are not empty, follow each
    other from 0 and end at [2^64 - 1] or one below; and whatever the order in
    which a node learns about the servers, its group of servers is in the order
    of these ranges, which is what slicing requires. *)
Theorem servers_cover n nodes ids :
  1 <= n <= 32 -> length (servers nodes) = n -> length ids = n ->
  exists a nodes' e,
    foldM assign_step nodes (new_NodeAssigner n All, []) = Ok (a, nodes') /\
    let rs := map node_key (servers nodes') in
    length rs = n /\ chain 0 rs e /\ (2 ^ 64 - 2 <= e <= 2 ^ 64 - 1)%Z /\
    forall order, order ≡ₚ zip ids rs -> add_nodes order = mkGroup ids rs.
Proof.
  intros Hn Hnodes Hids.
  assert (ranges_ok n = true) as Hok.
  { pose proof ranges_ok_upto as H. rewrite forallb_forall in H. apply H, in_seq. lia. }
  unfold ranges_ok in Hok. destruct (server_ranges n) as [rs|] eqn:Ers; [|done].
  apply andb_prop in Hok as [Hlen Hch]. apply bool_decide_eq_true in Hlen.
  destruct (chainb 0 rs) as [e|] eqn:Ec; [|done]. apply chainb_chain in Ec as (Hc & Hs & _).
  destruct (server_ranges_inv n n 0 [] rs Ers) as (Hall & Hrs).
  destruct (assign_all_ok n nodes 0 0 []) as (a & ns & E & Hns).
  { intros j Hj. apply Hall. lia. }
  exists a, ns, e. split; [exact E|]. cbv zeta. rewrite Hns, Hnodes. simpl in Hrs. rewrite <- Hrs.
  split; [done|]. split; [done|]. split; [lia|]. intros order Hp.
  assert (map snd (zip ids rs) = rs) as Hsnd by (apply snd_zip; lia).
  assert (StronglySorted below (zip ids rs)) as Hsz.
  { clear -Hs. revert ids. induction Hs as [|r rs Hs IH Hr]; intros [|i ids]; cbn; try constructor; [apply IH|].
    apply Forall_forall. intros [j q] Hq. apply elem_of_zip_r in Hq. rewrite Forall_forall in Hr. by apply Hr. }
  destruct (add_nodes_sorted order) as (qs & -> & Hq & Hqs).
  { rewrite Hp. assert (map (fun p : NodeID * Range => begin_ p.2) (zip ids rs) = map begin_ rs) as ->.
    { rewrite <- Hsnd at 2. by rewrite map_map. }
    apply StronglySorted_lt_NoDup. clear -Hs. induction Hs as [|r rs Hs IH Hr]; constructor; [done|].
    apply Forall_map. done. }
  assert (qs = zip ids rs) as -> by (apply (StronglySorted_unique below); [done|done|by rewrite Hq]).
  unfold group_of. rewrite Hsnd, fst_zip by lia. done.
Qed.

(** Three nodes register, two of them servers, and are met in the other order. *)
Lemma servers_cover_witness :
  exists a nodes' e,
    foldM assign_step [mkNode SERVER 0 All; mkNode WORKER 0 All; mkNode SERVER 0 All] (new_NodeAssigner 2 All, []) = Ok (a, nodes') /\
    let rs := map node_key (servers nodes') in
    length rs = 2 /\ chain 0 rs e /\ (2 ^ 64 - 2 <= e <= 2 ^ 64 - 1)%Z /\
    forall order, order ≡ₚ zip ["S0"; "S1"] rs -> add_nodes order = mkGroup ["S0"; "S1"] rs.
Proof. apply servers_cover; [lia|done|done]. Defined.

(** The largest key is in no range, and with 19 servers neither is the one
    below it. *)
Example last_key_lost : match server_ranges 19 with Ok rs => existsb (fun r => contains r (2 ^ 64 - 2)) rs | Fail _ => true end = false.
Proof. vm_compute. reflexivity. Qed.

(** A key outside the ranges is dropped without a trace. *)
Example lost_key_sent_nowhere :
  (ps ← SliceMessage (mkM ex_task (pod_memory (H := pod_key) [2 ^ 64 - 1]%Z) [] true) [All] [new_Message ex_task] true;
   Ok (map valid ps)) = Ok [false].
Proof. vm_compute. reflexivity. Qed.

(** Lengths that are all zero divide by zero. *)
Example zero_lengths :
  SliceMessage (mkM ex_task (pod_memory (H := pod_key) [1; 2]%Z) [[]; pod_memory (H := pod_len) [0; 0]%Z] true)
    [All] [new_Message ex_task] true = Fail DivByZero.
Proof. vm_compute. reflexivity. Qed.
