(* ===== verification/Transport.v ===== *)
(** * Messages through filters

    Models [RemoteNode::EncodeMessage] and [DecodeMessage] of
    src/ps-lite/src/system/remote_node.cc and the filters of
    src/ps-lite/src/filter as they work on messages: key_caching.h,
    truncate_float.h, fixing_float.h and compressing.h.  A message is encoded by
    its filters in order, sent, and decoded by them in reverse order; what the
    filters need at the other end is sent along in the task. *)
From S2P Require Import Prelude Floats Stream KVStore InputSplit RecordIO CRB Filters Message.
#[local] Open Scope nat_scope.

(** [Filter::Type] with the fields the applications set. *)
Inductive Filter := KEY_CACHING (clear_cache : bool) | TRUNCATE_FLOAT (num_bytes : Z) | FIXING_FLOAT (num_bytes : Z) | COMPRESSING.

(** The memory of an array of floats. *)
Class Memory (F : Type) := { raw : list F -> list byte; view : list byte -> list F }.
Class MemoryLaws (F : Type) `{Memory F} := {
  view_raw v : view (raw v) = v;
  raw_nil : raw [] = [];
  raw_empty v : raw v = [] -> v = []
}.

Section Transport.
Context {F D : Type} `{FF : !Float F} `{FD : !Float D} (to_D : F -> D) (to_V : D -> F) (as_float : D -> D).
Context `{MF : !Memory F} `{LZ : !LZ4} (Hash64 : list byte -> Z) (rand : nat -> Z).

(** [Filter]: the type, and the fields the filters set at run time. *)
Record FilterConf := mkFC {
  f_type : Filter; signature : option Z; fixed_point : list (FixedFloatConfig (D := D)); uncompressed_size : list Z }.
Definition new_conf (f : Filter) : FilterConf := mkFC f None [] [].

(** The filters a [RemoteNode] keeps, one of each type: the cache of the one and
    the random bits of the other; the rest have no state. *)
Record RemoteNode := mkRN { cache_ : gmap Z (list byte); bits_ : BoolRand }.

Definition with_value (vs : list (list byte)) (m : Msg) : Msg := mkM m.(task) m.(key) vs m.(valid).

(** [clear_key()] *)
Definition clear_key (m : Msg) : Msg :=
  let t := m.(task) in
  mkM (mkTask t.(time) t.(key_range) t.(key_channel) false t.(key_type) t.(value_type) t.(push) t.(dyn_val_size)) [] m.(value) m.(valid).

(** The loops of [convert] and [Convert] over the arrays of a message: [f] on
    the arrays of the type [FLOAT] that are not empty.  (The messages of the
    applications have no array of the type [DOUBLE].) *)
Definition convert_step {S} (f : S -> list byte -> outcome (list byte * S)) (skip : S -> S)
    (st : list (list byte) * S) (ta : DataType * list byte) : outcome (list (list byte) * S) :=
  match ta.2 with
  | [] => Ok (st.1 ++ [[]], st.2)
  | _ => if decide (ta.1 = FLOAT) then '(a, s) ← f st.2 ta.2; Ok (st.1 ++ [a], s) else Ok (st.1 ++ [ta.2], skip st.2)
  end.
Definition convert_arrays {S} (f : S -> list byte -> outcome (list byte * S)) (skip : S -> S) (m : Msg) (s : S)
  : outcome (list (list byte) * S) :=
  _ ← check (bool_decide (length m.(value) = length m.(task).(value_type)));
  foldM (convert_step f skip) (zip m.(task).(value_type) m.(value)) ([], s).

(** *** [FixingFloatFilter] on a message *)

(** [if (fixed_point_size() <= k) add_fixed_point()] *)
Definition room_for (k : nat) (fp : list (FixedFloatConfig (D := D))) : list FixedFloatConfig :=
  if decide (length fp <= k) then fp ++ [mkFFC None None] else fp.

(** The state of its loops: [k], the entries [fixed_point], the random bits. *)
Definition FixState : Type := nat * list (FixedFloatConfig (D := D)) * BoolRand.
Definition fix_skip (s : FixState) : FixState := let '(k, fp, b) := s in (k, room_for k fp, b).

Definition fix_encode_array (nbytes : nat) (s : FixState) (arr : list byte) : outcome (list byte * FixState) :=
  let '(k, fp, b) := s in
  let fp := room_for k fp in
  conf ← read_at fp k;
  '(code, conf, b) ← fix_encode (FV := FF) (FD := FD) to_D as_float rand nbytes conf b (view arr);
  fp ← write_at fp k conf;
  Ok (code, (k + 1, fp, b)).

Definition fix_decode_array (nbytes : nat) (s : FixState) (arr : list byte) : outcome (list byte * FixState) :=
  let '(k, fp, b) := s in
  let fp := room_for k fp in
  conf ← read_at fp k;
  v ← fix_decode (FD := FD) to_V nbytes conf arr;
  Ok (raw v, (k + 1, fp, b)).

(** *** [TruncateFloatFilter] on a message *)

(** The type [Int]. *)
Definition int_pod (nbytes : Z) : Pod Z := if (0 <? nbytes)%Z then pod_uint (Z.to_nat nbytes) else pod_int (Z.to_nat (- nbytes)).

Definition trunc_encode_array (nbytes : Z) (_ : unit) (arr : list byte) : outcome (list byte * unit) :=
  out ← trunc_encode (FV := FF) nbytes (view arr);
  Ok (pod_memory (H := int_pod nbytes) out, tt).
Definition trunc_decode_array (nbytes : Z) (_ : unit) (arr : list byte) : outcome (list byte * unit) :=
  _ ← int_range nbytes;
  Ok (raw (trunc_decode (FV := FF) (sarray (int_pod nbytes) arr)), tt).

(** *** [CompressingFilter] on a message *)

(** [Compress(src)]; [LZ4_compressBound] and with it the number of bytes written
    are 0 when [src] is too large. *)
Definition Compress (src : list byte) : outcome (list byte) :=
  let dst := LZ4_compress_default src in
  _ ← check (bool_decide (0 < length dst)); Ok dst.

(** [Decompress(src, orig_size)] *)
Definition Decompress (src : list byte) (orig_size : Z) : outcome (list byte) :=
  match LZ4_decompress_safe src orig_size with
  | Some dst => _ ← check (Z.of_nat (length dst) =? orig_size)%Z; Ok dst
  | None => Fail CheckFailed
  end.

Definition compress_arrays (vs : list (list byte)) : outcome (list (list byte) * list Z) :=
  foldM (fun st v => z ← Compress v; Ok (st.1 ++ [z], st.2 ++ [Z.of_nat (length v)])) vs ([], []).
Definition decompress_arrays (sizes : list Z) (vs : list (list byte)) : outcome (list (list byte)) :=
  _ ← check (bool_decide (length sizes = length vs));
  foldM (fun out zn => v ← Decompress zn.1 zn.2; Ok (out ++ [v])) (zip vs sizes) [].

(** *** Encoding and decoding *)

(** [IsDone(task)], where [request] says whether the message is a request. *)
Definition IsDone (request : bool) (m : Msg) : bool := negb request || m.(task).(push).

(** The keys of a message as [has_key()] sees them. *)
Definition get_key (m : Msg) : option (list byte) := match m.(key) with [] => None | k => Some k end.

(** [Encode(msg)] *)
Definition Encode (request : bool) (f : FilterConf) (n : RemoteNode) (m : Msg) : outcome (FilterConf * RemoteNode * Msg) :=
  match f.(f_type) with
  | KEY_CACHING clear =>
      let '(c, km) := key_encode Hash64 n.(cache_) (mkKMsg (get_key m) (IsDone request m) clear f.(signature)) in
      Ok (mkFC f.(f_type) km.(k_signature) f.(fixed_point) f.(uncompressed_size), mkRN c n.(bits_),
          match get_key m, km.(k_key) with Some _, None => clear_key m | _, _ => m end)
  | TRUNCATE_FLOAT nbytes =>
      if decide (nbytes = 0)%Z then Ok (f, n, m) else
      '(vs, _) ← convert_arrays (trunc_encode_array nbytes) id m tt;
      Ok (f, n, with_value vs m)
  | FIXING_FLOAT nbytes =>
      if decide (nbytes = 0)%Z then Ok (f, n, m) else
      '(vs, (_, fp, b)) ← convert_arrays (fix_encode_array (Z.to_nat nbytes)) fix_skip m (0, f.(fixed_point), n.(bits_));
      Ok (mkFC f.(f_type) f.(signature) fp f.(uncompressed_size), mkRN n.(cache_) b, with_value vs m)
  | COMPRESSING =>
      '(vs, sizes) ← compress_arrays m.(value);
      Ok (mkFC f.(f_type) f.(signature) f.(fixed_point) sizes, n, with_value vs m)
  end.

(** [Decode(msg)] *)
Definition Decode (request : bool) (f : FilterConf) (n : RemoteNode) (m : Msg) : outcome (RemoteNode * Msg) :=
  match f.(f_type) with
  | KEY_CACHING clear =>
      '(c, km) ← key_decode Hash64 n.(cache_) (mkKMsg (get_key m) (IsDone request m) clear f.(signature));
      Ok (mkRN c n.(bits_), match get_key m, km.(k_key) with None, Some k => set_key CHAR k m | _, _ => m end)
  | TRUNCATE_FLOAT nbytes =>
      if decide (nbytes = 0)%Z then Ok (n, m) else
      '(vs, _) ← convert_arrays (trunc_decode_array nbytes) id m tt;
      Ok (n, with_value vs m)
  | FIXING_FLOAT nbytes =>
      if decide (nbytes = 0)%Z then Ok (n, m) else
      '(vs, _) ← convert_arrays (fix_decode_array (Z.to_nat nbytes)) fix_skip m (0, f.(fixed_point), n.(bits_));
      Ok (n, with_value vs m)
  | COMPRESSING =>
      vs ← decompress_arrays f.(uncompressed_size) m.(value);
      Ok (n, with_value vs m)
  end.

(** [EncodeMessage(msg)]: the filters of the task in order. *)
Definition EncodeMessage (request : bool) (fs : list FilterConf) (n : RemoteNode) (m : Msg) : outcome (list FilterConf * RemoteNode * Msg) :=
  foldM (fun st f => let '(fs, n, m) := st in '(f, n, m) ← Encode request f n m; Ok (fs ++ [f], n, m)) fs ([], n, m).

(** [DecodeMessage(msg)]: in reverse order. *)
Definition DecodeMessage (request : bool) (fs : list FilterConf) (n : RemoteNode) (m : Msg) : outcome (RemoteNode * Msg) :=
  foldM (fun st f => Decode request f st.1 st.2) (rev fs) (n, m).

(** From the sender to the receiver. *)
Definition deliver (request : bool) (fs : list FilterConf) (m : Msg) (n1 n2 : RemoteNode) : outcome (Msg * RemoteNode * RemoteNode) :=
  '(fs, n1, m) ← EncodeMessage request fs n1 m;
  '(n2, m) ← DecodeMessage request fs n2 m;
  Ok (m, n1, n2).

(** ** Requests and answers as messages *)

(** The message of a push or a pull, and of an answer: a copy of the pull with
    the values. *)
Definition write_message (push_ : bool) (m : KVStore.Message F) : Msg :=
  let tk := mkTask None None 0 false None [] push_ m.(m_dyn) in
  let w := set_key UINT64 (pod_memory (H := pod_key) m.(m_key)) (new_Message tk) in
  let w := match m.(m_value) with Some v => add_value FLOAT (raw v) w | None => w end in
  match m.(m_size) with Some sz => add_value INT32 (pod_memory (H := pod_len) (map Z.of_nat sz)) w | None => w end.

(** What the other end reads from it. *)
Definition read_message (cmd : Z) (w : Msg) : KVStore.Message F :=
  KVStore.mkMsg cmd (sarray pod_key w.(key)) w.(task).(dyn_val_size)
    (view <$> w.(value) !! 0) ((map Z.to_nat ∘ sarray pod_len) <$> w.(value) !! 1).

(** ** One filter after the other *)

Lemma EncodeMessage_acc request fs : forall acc n m,
  foldM (fun st f => let '(fs, n, m) := st in '(f, n, m) ← Encode request f n m; Ok (fs ++ [f], n, m)) fs (acc, n, m) =
  ('(fs', n, m) ← EncodeMessage request fs n m; Ok (acc ++ fs', n, m)).
Proof.
  unfold EncodeMessage. induction fs as [|f fs IH]; intros acc n m; cbn [foldM mbind outcome_bind]; [by rewrite app_nil_r|].
  destruct (Encode request f n m) as [[[f' n'] m']|]; cbn [mbind outcome_bind]; [|done].
  rewrite IH, (IH ([] ++ [f'])). destruct (foldM _ fs ([], n', m')) as [[[fs' n''] m'']|]; cbn [mbind outcome_bind]; [|done].
  by rewrite <- app_assoc.
Qed.

(** The filters nest: the first one encodes first and decodes last. *)
Lemma deliver_cons request f fs m n1 n2 :
  deliver request (f :: fs) m n1 n2 =
  ('(f, n1, m) ← Encode request f n1 m;
   '(m, n1, n2) ← deliver request fs m n1 n2;
   '(n2, m) ← Decode request f n2 m;
   Ok (m, n1, n2)).
Proof.
  unfold deliver. unfold EncodeMessage at 1. cbn [foldM].
  destruct (Encode request f n1 m) as [[[f' n'] m']|]; cbn [mbind outcome_bind]; [|done].
  rewrite EncodeMessage_acc. destruct (EncodeMessage request fs n' m') as [[[fs' n''] m'']|]; cbn [mbind outcome_bind]; [|done].
  unfold DecodeMessage. rewrite rev_app_distr. cbn [rev app]. rewrite foldM_app.
  destruct (foldM _ (rev fs') (n2, m'')) as [[rcv' m1]|]; cbn [mbind outcome_bind foldM]; [|done].
  cbn [fst snd]. by destruct (Decode request f' rcv' m1) as [[? ?]|].
Qed.

(** ** What the filters keep *)

Context `{ML : !MemoryLaws F} `{LL : !LZ4Laws}.
(** lz4.h: nothing is written for an input that is too large. *)
Hypothesis compress_refuses : forall d, (max_input < Z.of_nat (length d))%Z -> LZ4_compress_default d = [].

Lemma view_nil : view [] = [].
Proof. rewrite <- raw_nil. apply view_raw. Qed.

(** What [convert] made of an array. *)
Definition converted {S} (f : S -> list byte -> outcome (list byte * S)) (ta : DataType * list byte) (a : list byte) : Prop :=
  match ta.2 with
  | [] => a = []
  | _ => if decide (ta.1 = FLOAT) then exists s0 s1, f s0 ta.2 = Ok (a, s1) else a = ta.2
  end.

Lemma convert_arrays_each {S} (f : S -> list byte -> outcome (list byte * S)) skip m s vs s' :
  convert_arrays f skip m s = Ok (vs, s') ->
  length m.(value) = length m.(task).(value_type) /\ Forall2 (converted f) (zip m.(task).(value_type) m.(value)) vs.
Proof.
  unfold convert_arrays. intros E. destruct (bool_decide _) eqn:Hl in E; cbn [check mbind outcome_bind] in E; [|done].
  apply bool_decide_eq_true in Hl. split; [done|].
  enough (forall tas acc s vs s', foldM (convert_step f skip) tas (acc, s) = Ok (vs, s') ->
    exists vs1, vs = acc ++ vs1 /\ Forall2 (converted f) tas vs1) as Hall by (by destruct (Hall _ _ _ _ _ E) as (vs1 & -> & ?)).
  clear. induction tas as [|[ty a] tas IH]; intros acc s vs s' E; cbn [foldM] in E.
  { injection E as <- <-. exists []. rewrite app_nil_r. split; [done|constructor]. }
  assert (exists a1 s1, foldM (convert_step f skip) tas (acc ++ [a1], s1) = Ok (vs, s') /\ converted f (ty, a) a1) as (a1 & s1 & E1 & Ha).
  { unfold convert_step at 2 in E. unfold converted. cbn [fst snd] in *. destruct a as [|b a]; [by exists [], s|]. destruct (decide (ty = FLOAT)).
    - destruct (f s (b :: a)) as [[a1 s1]|] eqn:Ef; [|done]. exists a1, s1. split; [exact E|]. by exists s, s1.
    - by exists (b :: a), (skip s). }
  destruct (IH _ _ _ _ E1) as (vs1 & -> & Hvs). exists (a1 :: vs1). rewrite <- app_assoc. split; [done|]. by constructor.
Qed.

(** Floats before and after, other arrays as they were. *)
Definition carried (R : list F -> list F -> Prop) (ta : DataType * list byte) (a : list byte) : Prop :=
  if decide (ta.1 = FLOAT) then R (view ta.2) (view a) else a = ta.2.

(** Two conversions after each other. *)
Lemma converted_twice {S1 S2} (f1 : S1 -> list byte -> outcome (list byte * S1)) (f2 : S2 -> list byte -> outcome (list byte * S2)) (R : list F -> list F -> Prop) tys : forall as_ cs as',
  R [] [] ->
  (forall a c a' s s1, a <> [] -> f1 s a = Ok (c, s1) -> (c = [] -> a' = []) -> (c <> [] -> exists s2 s3, f2 s2 c = Ok (a', s3)) -> R (view a) (view a')) ->
  length as_ = length tys -> Forall2 (converted f1) (zip tys as_) cs -> Forall2 (converted f2) (zip tys cs) as' ->
  Forall2 (carried R) (zip tys as_) as'.
Proof.
  intros as_ cs as' Hn HR. revert as_ cs as'. induction tys as [|ty tys IH]; intros as_ cs as' Hl H1 H2.
  { destruct as_; [|done]. cbn [zip zip_with] in *. inversion H1; subst. inversion H2; subst. constructor. }
  destruct as_ as [|a as_]; [done|]. cbn [zip zip_with] in *. inversion H1 as [|? c ? cs' Hc Hcs]; subst.
  inversion H2 as [|? a' ? as1 Ha Has]; subst. constructor; [|apply (IH _ cs'); [by injection Hl|done|done]].
  unfold carried, converted in *. cbn [fst snd] in *. destruct (decide (ty = FLOAT)).
  - destruct a as [|b a]; [subst c; subst a'; by rewrite view_nil|]. destruct Hc as (s0 & s1 & Hc). apply (HR (b :: a) c a' s0 s1); [done|done| |].
    + intros ->. done.
    + intros Hne. by destruct c.
  - destruct a as [|b a]; subst c; by subst a'.
Qed.

Lemma encode_all_length nbytes ratio mn mx bin vec : forall b,
  length (encode_all (V := F) (FD := FD) to_D rand nbytes ratio mn mx bin b vec).1 = length vec * nbytes.
Proof using.
  induction vec as [|v vec IH]; intros b; cbn [encode_all]; [done|]. destruct (boolrand rand b) as [bit b1].
  specialize (IH b1). destruct (encode_all _ _ _ _ _ _ _ b1 vec) as [code b2]. cbn [fst length] in *.
  rewrite length_app, IH. unfold code_of. by rewrite length_le_split.
Qed.

Lemma decode_all_length n nbytes ratio mn bin : forall code,
  length (decode_all (V := F) (FD := FD) to_V n nbytes ratio mn bin code) = n.
Proof using. induction n as [|n IH]; intros code; cbn [decode_all length]; [done|]. by rewrite IH. Qed.

Lemma fix_encode_length nbytes conf b vec code conf' b' :
  fix_encode (FV := FF) (FD := FD) to_D as_float rand nbytes conf b vec = Ok (code, conf', b') -> 0 < nbytes /\ length code = length vec * nbytes.
Proof using.
  unfold fix_encode. intros E. destruct (bool_decide (0 < nbytes)) eqn:Hn in E; cbn [check mbind outcome_bind] in E; [|done].
  apply bool_decide_eq_true in Hn. split; [done|]. destruct (bool_decide _) in E; cbn [check mbind outcome_bind] in E; [|done].
  destruct (ratio_of nbytes) as [ratio|]; cbn [mbind outcome_bind] in E; [|done].
  set (cv := match min_value conf with Some _ => _ | None => _ end) in E.
  assert (length cv.2 = length vec) as Hl.
  { subst cv. destruct (range_of to_D (map no_nan vec)) as [mn mx]. destruct (min_value conf), (max_value conf); cbn [snd]; rewrite ?length_map; done. }
  destruct cv as [c vec']. cbn [snd] in Hl. destruct (range_in c) as [[[mn mx] bin]|]; cbn [mbind outcome_bind] in E; [|done].
  pose proof (encode_all_length nbytes ratio mn mx bin vec' b) as He.
  destruct (encode_all _ _ _ _ _ _ _ b vec') as [code1 b1]. cbn [fst] in He. injection E as <- <- <-. by rewrite He, Hl.
Qed.

Lemma fix_decode_length nbytes conf code v :
  fix_decode (FD := FD) to_V nbytes conf code = Ok v -> length v = length code / nbytes.
Proof using.
  unfold fix_decode. intros E. destruct (bool_decide (0 < nbytes)) in E; cbn [check mbind outcome_bind] in E; [|done].
  destruct (bool_decide _) in E; cbn [check mbind outcome_bind] in E; [|done].
  destruct (ratio_of nbytes) as [ratio|]; cbn [mbind outcome_bind] in E; [|done].
  destruct (range_in conf) as [[[mn mx] bin]|]; cbn [mbind outcome_bind] in E; [|done]. injection E as <-. apply decode_all_length.
Qed.

(** Values that went through a filter. *)
Definition changed (f : Filter) (v v' : list F) : Prop :=
  match f with
  | KEY_CACHING _ | COMPRESSING => v' = v
  | FIXING_FLOAT n => length v' = length v /\ (n = 0%Z -> v' = v)
  | TRUNCATE_FLOAT n => length v' = length v /\ (n = 0%Z -> v' = v) /\
      (n <> 0%Z -> Forall (fun x => exists lo hi z, int_range n = Ok (lo, hi) /\ (lo <= z <= hi)%Z /\ x = fofZ z) v')
  end.

Lemma fix_array nbytes a c a' s s1 :
  fix_encode_array nbytes s a = Ok (c, s1) -> (c = [] -> a' = []) ->
  (c <> [] -> exists s2 s3, fix_decode_array nbytes s2 c = Ok (a', s3)) -> length (view a') = length (view a).
Proof.
  unfold fix_encode_array, fix_decode_array. intros E H0 H1. destruct s as [[k fp] b].
  destruct (read_at _ k) as [conf|]; cbn [mbind outcome_bind] in E; [|done].
  destruct (fix_encode _ _ _ _ _ _ _) as [[[code conf'] b']|] eqn:Ef; cbn [mbind outcome_bind] in E; [|done].
  destruct (write_at _ k conf') as [fp'|]; cbn [mbind outcome_bind] in E; [|done]. injection E as <- <-.
  apply fix_encode_length in Ef as [Hn Hl]. rename code into c.
  destruct (decide (c = [])) as [->|Hc].
  { rewrite (H0 eq_refl), view_nil. simpl in Hl. simpl. destruct (view a); [done|]. simpl in Hl. lia. }
  destruct (H1 Hc) as ([[k2 fp2] b2] & s3 & E2). destruct (read_at _ k2) as [conf2|]; cbn [mbind outcome_bind] in E2; [|done].
  destruct (fix_decode _ _ _ _) as [v|] eqn:Ed; cbn [mbind outcome_bind] in E2; [|done]. injection E2 as <- <-.
  rewrite view_raw, (fix_decode_length _ _ _ _ Ed), Hl. apply Nat.div_mul. lia.
Qed.

Lemma int_range_pod n lo hi z : int_range n = Ok (lo, hi) -> (lo <= z <= hi)%Z -> pod_valid (Pod := int_pod n) z.
Proof using.
  unfold int_range. intros E Hz. repeat (destruct (decide _); [subst n; injection E as <- <-; unfold int_pod; simpl; rewrite ?Z2Nat.id by lia; simpl; lia|]). done.
Qed.

Lemma int_range_laws n lo hi : int_range n = Ok (lo, hi) -> @PodLaws Z (int_pod n) /\ 0 < pod_size (Pod := int_pod n).
Proof using.
  unfold int_range. intros E. repeat (destruct (decide _); [subst n; unfold int_pod; simpl; split; [apply _|cbn; lia]|]). done.
Qed.

Lemma trunc_encode_values n v out :
  trunc_encode (FV := FF) n v = Ok out -> exists lo hi, int_range n = Ok (lo, hi) /\ length out = length v /\ Forall (fun z => lo <= z <= hi)%Z out.
Proof using.
  unfold trunc_encode. destruct (int_range n) as [[lo hi]|]; cbn [mbind outcome_bind]; [|done]. intros E. exists lo, hi. split; [done|].
  enough (forall acc out, Forall (fun z => lo <= z <= hi)%Z acc -> foldM (fun out v => z ← truncate (FV := FF) lo hi v; Ok (out ++ [z])) v acc = Ok out ->
    length out = length acc + length v /\ Forall (fun z => lo <= z <= hi)%Z out) as Hall by (by apply (Hall [] out)).
  clear. induction v as [|x v IH]; intros acc out Hacc E; cbn [foldM] in E.
  { injection E as <-. split; [simpl; lia|done]. }
  unfold truncate at 2 in E. destruct (decide _) as [Hz|] in E; cbn [mbind outcome_bind] in E; [|done].
  apply IH in E as [Hl Hf]; [|apply Forall_app; split; [exact Hacc|by constructor]].
  split; [|done]. rewrite Hl, length_app. simpl. lia.
Qed.

Lemma trunc_array n a c a' s s1 :
  n <> 0%Z -> trunc_encode_array n s a = Ok (c, s1) -> (c = [] -> a' = []) ->
  (c <> [] -> exists s2 s3, trunc_decode_array n s2 c = Ok (a', s3)) -> changed (TRUNCATE_FLOAT n) (view a) (view a').
Proof.
  unfold trunc_encode_array, trunc_decode_array. intros Hn E H0 H1.
  destruct (trunc_encode n (view a)) as [out|] eqn:Et; cbn [mbind outcome_bind] in E; [|done]. injection E as <- <-.
  apply trunc_encode_values in Et as (lo & hi & Hr & Hl & Hf).
  destruct (int_range_laws n lo hi Hr) as [HP Hs].
  assert (Forall (pod_valid (Pod := int_pod n)) out) as Hv.
  { eapply Forall_impl; [exact Hf|]. intros z Hz. by apply (int_range_pod n lo hi). }
  destruct (decide (out = [])) as [->|Ho].
  { simpl in Hl. rewrite (H0 eq_refl), view_nil. simpl. split; [lia|]. split; [|by constructor]. done. }
  assert (pod_memory (H := int_pod n) out <> []) as Hne.
  { intros Hm. apply (f_equal length) in Hm. rewrite pod_memory_length in Hm. destruct out; [done|]. simpl in Hm. lia. }
  destruct (H1 Hne) as (s2 & s3 & E2). rewrite Hr in E2. cbn [mbind outcome_bind] in E2. injection E2 as <- <-.
  rewrite sarray_memory by done. rewrite view_raw. unfold trunc_decode. simpl. rewrite length_map. split; [done|].
  split; [done|]. intros _. apply Forall_map. eapply Forall_impl; [exact Hf|]. intros z Hz. by exists lo, hi, z.
Qed.

(** Compressed arrays come back as they were. *)
Lemma compressed_back vs zs sizes :
  compress_arrays vs = Ok (zs, sizes) -> decompress_arrays sizes zs = Ok vs.
Proof using LL compress_refuses.
  intros E. unfold compress_arrays in E.
  assert (forall vs a1 a2 zs sizes,
    foldM (fun st v => z ← Compress v; Ok (st.1 ++ [z], st.2 ++ [Z.of_nat (length v)])) vs (a1, a2) = Ok (zs, sizes) ->
    exists z1 z2, zs = a1 ++ z1 /\ sizes = a2 ++ z2 /\
      Forall2 (fun v zn => Decompress zn.1 zn.2 = Ok v) vs (zip z1 z2) /\ length z1 = length vs /\ length z2 = length vs) as Hall.
  { clear E vs zs sizes. induction vs as [|v vs IH]; intros a1 a2 zs sizes E; cbn [foldM] in E.
    { injection E as <- <-. exists [], []. rewrite !app_nil_r. split_and!; done. }
    destruct (Compress v) as [z|] eqn:Ez; cbn [mbind outcome_bind fst snd] in E; [|done].
    destruct (IH _ _ _ _ E) as (z1 & z2 & -> & -> & Hf & L1 & L2). exists (z :: z1), (Z.of_nat (length v) :: z2).
    rewrite <- !app_assoc. split; [done|]. split; [done|]. split; [|simpl; lia]. constructor; [|exact Hf]. cbn [fst snd].
    unfold Compress in Ez. destruct (bool_decide _) eqn:Hb in Ez; cbn [check mbind outcome_bind] in Ez; [|done]. injection Ez as <-.
    apply bool_decide_eq_true in Hb. destruct (decide (max_input < Z.of_nat (length v))%Z) as [Hbig|Hs].
    { rewrite compress_refuses in Hb by done. simpl in Hb. lia. }
    unfold Decompress. rewrite decompress_compress by lia. by rewrite check_true by (apply Z.eqb_eq; lia). }
  destruct (Hall _ _ _ _ _ E) as (z1 & z2 & -> & -> & Hf & L1 & L2). cbn [app].
  unfold decompress_arrays. rewrite check_true by (apply bool_decide_eq_true; lia). cbn [mbind outcome_bind].
  enough (forall acc, foldM (fun out zn => v ← Decompress zn.1 zn.2; Ok (out ++ [v])) (zip z1 z2) acc = Ok (acc ++ vs)) as H by apply (H []).
  clear -Hf. remember (zip z1 z2) as zz eqn:Ezz. clear Ezz. induction Hf as [|v zn vs zz Hd _ IH]; intros acc; cbn [foldM]; [by rewrite app_nil_r|].
  rewrite Hd. cbn [mbind outcome_bind]. by rewrite IH, <- app_assoc.
Qed.

Lemma compress_arrays_ok vs :
  Forall (fun v => Z.of_nat (length v) <= max_input)%Z vs -> exists zs sizes, compress_arrays vs = Ok (zs, sizes).
Proof using LL.
  intros Hv. unfold compress_arrays.
  enough (forall a1 a2, exists zs sizes, foldM (fun st v => z ← Compress v; Ok (st.1 ++ [z], st.2 ++ [Z.of_nat (length v)])) vs (a1, a2) = Ok (zs, sizes)) as H
    by apply H.
  induction Hv as [|v vs Hv _ IH]; intros a1 a2; cbn [foldM]; [by eexists _, _|].
  pose proof (compress_succeeds v Hv). assert (Compress v = Ok (LZ4_compress_default v)) as ->.
  { unfold Compress. by rewrite check_true by (apply bool_decide_eq_true; lia). }
  cbn [mbind outcome_bind fst snd]. apply IH.
Qed.

(** What a message keeps whatever filters it goes through. *)
Definition keeps (R : DataType * list byte -> list byte -> Prop) (m m' : Msg) : Prop :=
  m'.(key) = m.(key) /\ m'.(task).(push) = m.(task).(push) /\ m'.(task).(dyn_val_size) = m.(task).(dyn_val_size) /\
  m'.(task).(value_type) = m.(task).(value_type) /\ Forall2 R (zip m.(task).(value_type) m.(value)) m'.(value).
Definition same (ta : DataType * list byte) (a : list byte) : Prop := a = ta.2.

Definition typed (m : Msg) : Prop := length m.(value) = length m.(task).(value_type).

Lemma same_values tys : forall vs vs' : list (list byte), length vs = length tys -> Forall2 same (zip tys vs) vs' <-> vs' = vs.
Proof using.
  induction tys as [|ty tys IH]; intros [|v vs] vs' Hl; try done; cbn [zip zip_with].
  - split; [by inversion 1|intros ->; constructor].
  - split.
    + inversion 1 as [|? a ? as_ Ha Has]; subst. unfold same in Ha. simpl in Ha. subst. f_equal. apply IH; [by injection Hl|done].
    + intros ->. constructor; [done|]. apply IH; [by injection Hl|done].
Qed.

(** Filters without key caching do not touch the caches. *)
Definition plain (request : bool) (fs : list FilterConf) (R : DataType * list byte -> list byte -> Prop) : Prop :=
  forall m n1 n2 m' n1' n2', typed m -> deliver request fs m n1 n2 = Ok (m', n1', n2') ->
    keeps R m m' /\ n1'.(cache_) = n1.(cache_) /\ n2'.(cache_) = n2.(cache_).

Lemma plain_nil request : plain request [] same.
Proof using.
  intros m n1 n2 m' n1' n2' Ht E. cbv in E. injection E as <- <- <-. split; [|done]. split_and!; try done. by apply same_values.
Qed.

Lemma plain_compress request fs : plain request fs same -> plain request (new_conf COMPRESSING :: fs) same.
Proof using LL compress_refuses.
  intros Hp m n1 n2 m' n1' n2' Ht. rewrite deliver_cons. cbn [Encode f_type new_conf]. intros E.
  destruct (compress_arrays (value m)) as [[zs sizes]|] eqn:Ec; cbn [mbind outcome_bind] in E; [|done].
  destruct (deliver request fs _ n1 n2) as [[[m1 n1a] n2a]|] eqn:Ed; cbn [mbind outcome_bind] in E; [|done].
  pose proof (compressed_back _ _ _ Ec) as Hb.
  assert (typed (with_value zs m)) as Ht1.
  { unfold typed, with_value in *. cbn [value task]. unfold decompress_arrays in Hb. unfold compress_arrays in Ec.
    clear -Ht Ec. enough (forall vs a1 a2, foldM (fun st v => z ← Compress v; Ok (st.1 ++ [z], st.2 ++ [Z.of_nat (length v)])) vs (a1, a2) = Ok (zs, sizes) ->
      length zs = length a1 + length vs) as H by (rewrite (H _ _ _ Ec); done).
    induction vs as [|v vs IH]; intros a1 a2 E; cbn [foldM] in E; [injection E as <- _; simpl; lia|].
    destruct (Compress v); cbn [mbind outcome_bind fst snd] in E; [|done]. rewrite (IH _ _ E), length_app. simpl. lia. }
  destruct (Hp _ _ _ _ _ _ Ht1 Ed) as [(K1 & K2 & K3 & K4 & K5) [C1 C2]]. apply same_values in K5; [|done].
  cbn [Decode f_type uncompressed_size mbind outcome_bind] in E. rewrite K5 in E. cbn [with_value value] in E. rewrite Hb in E. cbn [mbind outcome_bind] in E. injection E as <- <- <-.
  split; [|done]. unfold keeps. cbn [with_value key task value] in *. rewrite K4. split_and!; try done. by apply same_values.
Qed.

Lemma same_carried (R : list F -> list F -> Prop) tys vs vs' :
  (forall v, R v v) -> length vs = length tys -> Forall2 same (zip tys vs) vs' -> Forall2 (carried R) (zip tys vs) vs'.
Proof using.
  intros HR Hl Hf. eapply Forall2_impl; [exact Hf|]. intros [ty a] a' ->. unfold carried. cbn [fst snd]. by destruct (decide _).
Qed.

Lemma changed_refl f v : (forall n, f = TRUNCATE_FLOAT n -> n = 0%Z) -> changed f v v.
Proof using. destruct f as [|n|n|]; cbn; intros H; try done. by rewrite (H n eq_refl). Qed.

(** What one of the filters that convert floats does to a message at the two
    ends. *)
Lemma converting_ends request f n1 f1 n1' m m1 m1' n2 n2' m' :
  (exists n, f = TRUNCATE_FLOAT n \/ f = FIXING_FLOAT n) -> typed m ->
  Encode request (new_conf f) n1 m = Ok (f1, n1', m1) ->
  (typed m1 -> keeps same m1 m1') -> Decode request f1 n2 m1' = Ok (n2', m') ->
  typed m1 /\ m1.(key) = m.(key) /\ n1'.(cache_) = n1.(cache_) /\ n2'.(cache_) = n2.(cache_) /\ keeps (carried (changed f)) m m'.
Proof using ML.
  intros [n Hf] Ht E Hk E'.
  assert (forall S1 S2 (g1 : S1 -> list byte -> outcome (list byte * S1)) (g2 : S2 -> list byte -> outcome (list byte * S2)) k1 k2 s1 s2 vs vs' s1' s2',
    changed f [] [] ->
    (forall a c a' s s1, a <> [] -> g1 s a = Ok (c, s1) -> (c = [] -> a' = []) -> (c <> [] -> exists s2 s3, g2 s2 c = Ok (a', s3)) -> changed f (view a) (view a')) ->
    convert_arrays g1 k1 m s1 = Ok (vs, s1') -> m1 = with_value vs m -> convert_arrays g2 k2 m1' s2 = Ok (vs', s2') -> m' = with_value vs' m1' ->
    typed m1 /\ m1.(key) = m.(key) /\ keeps (carried (changed f)) m m') as Hgo.
  { intros S1 S2 g1 g2 k1 k2 s1 s2 vs vs' s1' s2' Hn HR C1 -> C2 ->.
    apply convert_arrays_each in C1 as [L1 C1]. apply convert_arrays_each in C2 as [L2 C2].
    assert (typed (with_value vs m)) as Ht1.
    { unfold typed, with_value. cbn [value task]. rewrite <- (Forall2_length _ _ _ C1), length_zip_with. unfold typed in Ht. lia. }
    destruct (Hk Ht1) as (K1 & K2 & K3 & K4 & K5). apply same_values in K5; [|exact Ht1].
    cbn [with_value key task value] in *. split; [exact Ht1|]. split; [done|]. split_and!; try done. cbn [with_value value].
    rewrite K4, K5 in C2. by apply (converted_twice g1 g2 _ _ _ vs). }
  assert (n = 0%Z -> f1 = new_conf f /\ n1' = n1 /\ m1 = m) as Hz1.
  { intros ->. destruct Hf as [-> | ->]; cbn [Encode new_conf f_type] in E; rewrite decide_True in E by done; by injection E as <- <- <-. }
  destruct (decide (n = 0)%Z) as [Hz|Hz].
  - destruct (Hz1 Hz) as (-> & -> & ->). destruct (Hk Ht) as (K1 & K2 & K3 & K4 & K5).
    assert (n2' = n2 /\ m' = m1') as [-> ->].
    { destruct Hf as [-> | ->]; cbn [Decode new_conf f_type] in E'; rewrite decide_True in E' by done; by injection E' as <- <-. }
    split_and!; try done. split_and!; try done. apply same_carried; [|done|done]. intros v. apply changed_refl.
    intros n' ->. by destruct Hf as [[= ->]|].
  - destruct Hf as [-> | ->]; cbn [Encode new_conf f_type] in E; rewrite decide_False in E by done.
    + destruct (convert_arrays _ _ m tt) as [[vs u]|] eqn:C1; cbn [mbind outcome_bind] in E; [|done]. injection E as <- <- <-.
      cbn [Decode new_conf f_type] in E'. rewrite decide_False in E' by done.
      destruct (convert_arrays _ _ m1' tt) as [[vs' u']|] eqn:C2; cbn [mbind outcome_bind] in E'; [|done]. injection E' as <- <-.
      destruct (Hgo _ _ _ _ _ _ _ _ _ _ _ _ ltac:(cbn; split_and!; done || by constructor) (fun a c a' s s1 _ => trunc_array n a c a' s s1 Hz) C1 eq_refl C2 eq_refl)
        as (G1 & G2 & G3). done.
    + destruct (convert_arrays _ _ m _) as [[vs [[k fp] b]]|] eqn:C1; cbn [mbind outcome_bind] in E; [|done]. injection E as <- <- <-.
      cbn [Decode new_conf f_type fixed_point] in E'. rewrite decide_False in E' by done.
      destruct (convert_arrays _ _ m1' _) as [[vs' u']|] eqn:C2; cbn [mbind outcome_bind] in E'; [|done]. injection E' as <- <-.
      destruct (Hgo _ _ _ _ _ _ _ _ _ _ _ _ ltac:(by cbn) (fun a c a' s s1 _ H1 H2 H3 => conj (fix_array _ a c a' s s1 H1 H2 H3) (fun e => False_ind _ (Hz e))) C1 eq_refl C2 eq_refl)
        as (G1 & G2 & G3). done.
Qed.

(** A connection in good order: the signature tells the key lists in use apart,
    and both ends cache the same ones. *)
Definition in_order (ks : list (list byte)) (n1 n2 : RemoteNode) : Prop :=
  tells_apart Hash64 ks /\ synced Hash64 ks (n1.(cache_), n2.(cache_)).

Lemma key_encode_shape c k dn clear sg c' km :
  key_encode Hash64 c (mkKMsg (Some k) dn clear sg) = (c', km) ->
  km = mkKMsg (k_key km) dn clear (k_signature km) /\ (k_key km = Some k \/ k_key km = None).
Proof using.
  unfold key_encode. cbn [k_key k_done k_clear_cache]. intros E. destruct (decide _) in E; [injection E as <- <-; auto|].
  destruct (c !! _) as [k0|] in E; [destruct (decide _) in E|]; injection E as <- <-; auto.
Qed.

(** Key caching puts back the keys it left out. *)
Lemma caching_ends request clear ks m n1 f1 n1' m1 n2 m1' n1a n2a :
  in_order ks n1 n2 -> m.(key) ∈ ks -> m.(key) <> [] ->
  Encode request (new_conf (KEY_CACHING clear)) n1 m = Ok (f1, n1', m1) ->
  m1'.(key) = m1.(key) -> m1'.(task).(push) = m1.(task).(push) -> n1a.(cache_) = n1'.(cache_) -> n2a.(cache_) = n2.(cache_) ->
  exists n2' m', Decode request f1 n2a m1' = Ok (n2', m') /\
  m'.(key) = m.(key) /\ m'.(value) = m1'.(value) /\ m'.(task).(value_type) = m1'.(task).(value_type) /\
  m'.(task).(push) = m1'.(task).(push) /\ m'.(task).(dyn_val_size) = m1'.(task).(dyn_val_size) /\ in_order ks n1a n2' /\
  m1.(value) = m.(value) /\ m1.(task).(value_type) = m.(task).(value_type) /\ m1.(task).(push) = m.(task).(push) /\
  m1.(task).(dyn_val_size) = m.(task).(dyn_val_size).
Proof using.
  intros [Hta Hsy] Hin Hne E Hk Hp Ha Ha2. assert (get_key m = Some (key m)) as Hg by (unfold get_key; by destruct (key m)).
  set (km := mkKMsg (get_key m) (IsDone request m) clear None).
  destruct (pass_on_ok Hash64 ks (cache_ n1, cache_ n2) km Hta Hsy) as ([c1 c2] & Ep & Hs').
  { unfold km, k_bytes. cbn [k_key]. by rewrite Hg. }
  { unfold km. cbn [k_key]. rewrite Hg. by intros k [= <-]. }
  cbn [Encode new_conf f_type signature] in E. fold km in E. unfold pass_on in Ep. cbn [fst snd] in Ep.
  destruct (key_encode Hash64 (cache_ n1) km) as [c1' km1] eqn:Ee.
  assert (km1 = mkKMsg (k_key km1) (IsDone request m) clear (k_signature km1) /\ (k_key km1 = Some (key m) \/ k_key km1 = None)) as [Ekm Hkk].
  { unfold km in Ee. rewrite Hg in Ee. by apply key_encode_shape in Ee. }
  injection E as <- <- <-. cbn [cache_] in Ha.
  destruct (key_decode Hash64 (cache_ n2) km1) as [[c2' km2]|] eqn:Ed; cbn [mbind outcome_bind] in Ep; [|done]. injection Ep as <- <- Ek2.
  rewrite Hg in Hk, Hp |- *.
  assert (forall x, x = k_key km1 -> key (match x with Some _ => m | None => clear_key m end) = default [] x /\
    value (match x with Some _ => m | None => clear_key m end) = value m /\
    value_type (task (match x with Some _ => m | None => clear_key m end)) = value_type (task m) /\
    push (task (match x with Some _ => m | None => clear_key m end)) = push (task m) /\
    dyn_val_size (task (match x with Some _ => m | None => clear_key m end)) = dyn_val_size (task m)) as Hm1.
  { intros x ->. destruct Hkk as [-> | ->]; done. }
  destruct (Hm1 _ eq_refl) as (M1 & M2 & M3 & M4 & M5). rewrite M1 in Hk. rewrite M4 in Hp.
  assert (get_key m1' = k_key km1) as Hg1.
  { unfold get_key. rewrite Hk. destruct Hkk as [-> | ->]; [|done]. simpl. by destruct (key m). }
  eexists _, _. cbn [Decode f_type signature]. rewrite Hg1, Ha2.
  assert (IsDone request m1' = IsDone request m) as Hd by (unfold IsDone; by rewrite Hp). rewrite Hd, <- Ekm, Ed.
  cbn [mbind outcome_bind]. split; [reflexivity|]. unfold km in Ek2. cbn [k_key] in Ek2. rewrite Hg in Ek2.
  assert (in_order ks n1a (mkRN c2' (bits_ n2a))) as Hord by (split; [done|]; cbn [cache_]; by rewrite Ha).
  destruct Hkk as [Hkk|Hkk]; rewrite Hkk in *; rewrite ?Ek2; cbn [set_key key value task value_type push dyn_val_size default from_option id] in *;
    split_and!; try done; rewrite ?Hk; try done; by rewrite Hp.
Qed.

(** Messages go through these filters with their keys, up to [R] in the
    arrays. *)
Definition passes (request : bool) (fs : list FilterConf) (R : DataType * list byte -> list byte -> Prop) : Prop :=
  forall ks m n1 n2 m' n1' n2', typed m -> in_order ks n1 n2 -> m.(key) ∈ ks -> m.(key) <> [] ->
    deliver request fs m n1 n2 = Ok (m', n1', n2') -> keeps R m m' /\ in_order ks n1' n2'.

Lemma passes_plain request fs R : plain request fs R -> passes request fs R.
Proof using.
  intros Hp ks m n1 n2 m' n1' n2' Ht Ho _ _ E. destruct (Hp _ _ _ _ _ _ Ht E) as (Hk & C1 & C2). split; [done|].
  unfold in_order. by rewrite C1, C2.
Qed.

Lemma passes_caching request clear fs R : plain request fs R -> passes request (new_conf (KEY_CACHING clear) :: fs) R.
Proof using.
  intros Hp ks m n1 n2 m' n1' n2' Ht Ho Hin Hne. rewrite deliver_cons. intros E.
  destruct (Encode request _ n1 m) as [[[f1 n1a] m1]|] eqn:Ee; cbn [mbind outcome_bind] in E; [|done].
  destruct (deliver request fs m1 n1a n2) as [[[m1' n1b] n2b]|] eqn:Ed; cbn [mbind outcome_bind] in E; [|done].
  destruct (Decode request f1 n2b m1') as [[n2c m2]|] eqn:Edd; cbn [mbind outcome_bind] in E; [|done]. injection E as <- <- <-.
  assert (typed m1) as Ht1.
  { pose proof Ee as Ee'. cbn [Encode new_conf f_type] in Ee'. destruct (key_encode _ _ _) as [c km]. injection Ee' as _ _ <-.
    by destruct (get_key m), (k_key km). }
  destruct (Hp _ _ _ _ _ _ Ht1 Ed) as ((K1 & K2 & K3 & K4 & K5) & C1 & C2).
  destruct (caching_ends request clear ks m n1 f1 n1a m1 n2 m1' n1b n2b Ho Hin Hne Ee K1 K2 C1 C2)
    as (n2c' & m2' & Edd' & A1 & A2 & A3 & A4 & A5 & A6 & B1 & B2 & B3 & B4). rewrite Edd in Edd'. injection Edd' as <- <-.
  split; [|done]. unfold keeps. rewrite A1, A2, A3, A4, A5, K2, K3, K4, B2, B3, B4. split_and!; try done. by rewrite <- B1, <- B2.
Qed.

Lemma encode_converting request f n1 f1 n1' m m1 :
  (exists n, f = TRUNCATE_FLOAT n \/ f = FIXING_FLOAT n) -> Encode request (new_conf f) n1 m = Ok (f1, n1', m1) ->
  m1.(key) = m.(key) /\ n1'.(cache_) = n1.(cache_).
Proof using.
  intros [n [-> | ->]]; cbn [Encode new_conf f_type]; intros E; (destruct (decide (n = 0)%Z); [by injection E as <- <- <-|]).
  - destruct (convert_arrays _ _ _ _) as [[vs u]|]; cbn [mbind outcome_bind] in E; [by injection E as <- <- <-|done].
  - destruct (convert_arrays _ _ _ _) as [[vs [[k fp] b]]|]; cbn [mbind outcome_bind] in E; [by injection E as <- <- <-|done].
Qed.

Lemma passes_converting request f fs :
  (exists n, f = TRUNCATE_FLOAT n \/ f = FIXING_FLOAT n) -> passes request fs same -> passes request (new_conf f :: fs) (carried (changed f)).
Proof using ML.
  intros Hf Hp ks m n1 n2 m' n1' n2' Ht Ho Hin Hne. rewrite deliver_cons. intros E.
  destruct (Encode request _ n1 m) as [[[f1 n1a] m1]|] eqn:Ee; cbn [mbind outcome_bind] in E; [|done].
  destruct (deliver request fs m1 n1a n2) as [[[m1' n1b] n2b]|] eqn:Ed; cbn [mbind outcome_bind] in E; [|done].
  destruct (Decode request f1 n2b m1') as [[n2c m2]|] eqn:Edd; cbn [mbind outcome_bind] in E; [|done]. injection E as <- <- <-.
  assert (m1.(key) = m.(key) /\ n1a.(cache_) = n1.(cache_)) as [Hk1 Hc1].
  { by apply (encode_converting request f n1 f1). }
  assert (typed m1 -> keeps same m1 m1' /\ in_order ks n1b n2b) as Hmid.
  { intros Ht1. apply (Hp ks m1 n1a n2 m1' n1b n2b Ht1); [|by rewrite Hk1..|done]. unfold in_order. by rewrite Hc1. }
  destruct (converting_ends request f n1 f1 n1a m m1 m1' n2b n2c m2 Hf Ht Ee (fun H => proj1 (Hmid H)) Edd) as (Ht1 & _ & _ & C2 & Hkeep).
  split; [done|]. destruct (Hmid Ht1) as [_ Ho']. unfold in_order in *. by rewrite C2.
Qed.

Lemma plain_converting request f fs :
  (exists n, f = TRUNCATE_FLOAT n \/ f = FIXING_FLOAT n) -> plain request fs same -> plain request (new_conf f :: fs) (carried (changed f)).
Proof using ML.
  intros Hf Hp m n1 n2 m' n1' n2' Ht. rewrite deliver_cons. intros E.
  destruct (Encode request _ n1 m) as [[[f1 n1a] m1]|] eqn:Ee; cbn [mbind outcome_bind] in E; [|done].
  destruct (deliver request fs m1 n1a n2) as [[[m1' n1b] n2b]|] eqn:Ed; cbn [mbind outcome_bind] in E; [|done].
  destruct (Decode request f1 n2b m1') as [[n2c m2]|] eqn:Edd; cbn [mbind outcome_bind] in E; [|done]. injection E as <- <- <-.
  destruct (converting_ends request f n1 f1 n1a m m1 m1' n2b n2c m2 Hf Ht Ee (fun H => proj1 (Hp _ _ _ _ _ _ H Ed)) Edd) as (Ht1 & _ & C1 & C2 & Hkeep).
  destruct (Hp _ _ _ _ _ _ Ht1 Ed) as (_ & D1 & D2). split; [done|]. by rewrite D1, C2, D2, C1.
Qed.

(** ** The lists of filters of the applications *)

(** At most one filter that converts floats, key caching before or behind it,
    compression last. *)
Record usual (before conv after comp : list Filter) : Prop := {
  us_before : before = [] \/ exists b, before = [KEY_CACHING b];
  us_conv : conv = [] \/ exists f n, conv = [f] /\ (f = TRUNCATE_FLOAT n \/ f = FIXING_FLOAT n);
  us_after : after = [] \/ (before = [] /\ exists b, after = [KEY_CACHING b]);
  us_comp : comp = [] \/ comp = [COMPRESSING]
}.
Definition converts (conv : list Filter) (v v' : list F) : Prop := match conv with [] => v' = v | f :: _ => changed f v v' end.

Lemma keeps_impl (R R' : DataType * list byte -> list byte -> Prop) m m' : (forall ta a, R ta a -> R' ta a) -> keeps R m m' -> keeps R' m m'.
Proof using. intros H (K1 & K2 & K3 & K4 & K5). split_and!; try done. by eapply Forall2_impl. Qed.

Lemma usual_passes request before conv after comp :
  usual before conv after comp -> passes request (map new_conf (before ++ conv ++ after ++ comp)) (carried (converts conv)).
Proof using ML LL compress_refuses.
  intros [Hb Hv Ha Hc].
  assert (plain request (map new_conf comp) same) as Pc.
  { destruct Hc as [-> | ->]; [apply plain_nil|]. apply plain_compress, plain_nil. }
  assert (forall fs, passes request fs same -> passes request fs (carried (fun v v' => v' = v))) as Hsame.
  { intros fs Hp ks m n1 n2 m' n1' n2' Ht Ho Hin Hne E. destruct (Hp _ _ _ _ _ _ _ Ht Ho Hin Hne E) as [Hk Ho']. split; [|done].
    eapply keeps_impl; [|exact Hk]. intros [ty a] a' ->. unfold carried. cbn [fst snd]. by destruct (decide _). }
  destruct Ha as [-> |[-> [ca ->]]]; cbn [app].
  - destruct Hv as [-> |(f & n & -> & Hf)]; cbn [app map].
    + destruct Hb as [-> |[b ->]]; cbn [app map]; apply Hsame; [by apply passes_plain|by apply passes_caching].
    + assert (plain request (new_conf f :: map new_conf comp) (carried (changed f))) as Pf by (apply plain_converting; [by exists n|done]).
      destruct Hb as [-> |[b ->]]; cbn [app map]; [by apply passes_plain|by apply passes_caching].
  - assert (passes request (new_conf (KEY_CACHING ca) :: map new_conf comp) same) as Pk by (by apply passes_caching).
    destruct Hv as [-> |(f & n & -> & Hf)]; cbn [app map]; [by apply Hsame|]. apply passes_converting; [by exists n|done].
Qed.

(** A request or an answer as it arrives: over a connection in good order that
    knows its keys. *)
Definition arrives (request push_ : bool) (fs : list Filter) (m m' : KVStore.Message F) : Prop :=
  exists ks n1 n2 w n1' n2', in_order ks n1 n2 /\ pod_memory (H := pod_key) m.(m_key) ∈ ks /\
    deliver request (map new_conf fs) (write_message push_ m) n1 n2 = Ok (w, n1', n2') /\ m' = read_message m.(m_cmd) w.

(** What its fields can hold. *)
Record sendable (m : KVStore.Message F) : Prop := {
  sd_keys : m.(m_key) <> [];
  sd_range : Forall (fun z => 0 <= z < 2 ^ 64)%Z m.(m_key);
  sd_sizes : forall sz, m.(m_size) = Some sz -> Forall (fun n => Z.of_nat n < 2 ^ 31)%Z sz;
  sd_order : m.(m_size) <> None -> m.(m_value) <> None
}.

Lemma read_keys m : sendable m -> sarray pod_key (pod_memory (H := pod_key) m.(m_key)) = m.(m_key).
Proof using. intros Hm. apply (sarray_memory pod_key); [apply Nat.lt_0_succ|]. eapply Forall_impl; [apply (sd_range _ Hm)|]. intros z Hz. exact Hz. Qed.

Lemma read_sizes (sz : list nat) :
  Forall (fun n => Z.of_nat n < 2 ^ 31)%Z sz -> map Z.to_nat (sarray pod_len (pod_memory (H := pod_len) (map Z.of_nat sz))) = sz.
Proof using.
  intros Hs. rewrite (sarray_memory pod_len); [|apply Nat.lt_0_succ|].
  - rewrite map_map. rewrite (map_ext _ id); [apply map_id|]. intros n. apply Nat2Z.id.
  - apply Forall_map. eapply Forall_impl; [exact Hs|]. intros n Hn. cbv beta in Hn. cbn [pod_valid pod_int]. change (Z.of_nat 4 * 8 - 1)%Z with 31%Z. lia.
Qed.

(** The keys, the lengths and the kind of a message of the applications arrive
    as they were sent, and the values do unless a filter converts them. *)
Lemma usual_arrives request push_ before conv after comp m m' :
  usual before conv after comp -> sendable m -> arrives request push_ (before ++ conv ++ after ++ comp) m m' ->
  m'.(m_cmd) = m.(m_cmd) /\ m'.(m_key) = m.(m_key) /\ m'.(m_dyn) = m.(m_dyn) /\ m'.(m_size) = m.(m_size) /\
  match m.(m_value), m'.(m_value) with Some v, Some v' => converts conv v v' | None, None => True | _, _ => False end.
Proof using ML LL compress_refuses.
  intros Hu Hm (ks & n1 & n2 & w & n1' & n2' & Ho & Hin & E & ->). destruct m as [cmd keys dyn val sz]. cbn [m_cmd m_key m_dyn m_value m_size] in *.
  set (m := KVStore.mkMsg cmd keys dyn val sz) in *.
  assert (typed (write_message push_ m) /\ key (write_message push_ m) = pod_memory (H := pod_key) keys /\
    dyn_val_size (task (write_message push_ m)) = dyn) as (Ht & Hk & Hd) by (unfold write_message, m; by destruct val, sz).
  assert (pod_memory (H := pod_key) keys <> []) as Hne.
  { intros Hn. apply (f_equal length) in Hn. rewrite pod_memory_length in Hn. pose proof (sd_keys _ Hm) as Hkk. cbn in Hkk. by destruct keys. }
  destruct (usual_passes request before conv after comp Hu ks _ n1 n2 w n1' n2' Ht Ho) as [(K1 & K2 & K3 & K4 & K5) _]; [by rewrite Hk|by rewrite Hk|done|].
  unfold read_message. cbn [m_cmd m_key m_dyn m_value m_size]. rewrite K1, K3, Hk, Hd. pose proof (read_keys _ Hm) as Hrk. cbn in Hrk.
  pose proof (sd_sizes _ Hm) as Hsz. pose proof (sd_order _ Hm) as Hor. cbn [m m_size m_value] in Hsz, Hor.
  split; [done|]. split; [exact Hrk|]. split; [done|]. unfold write_message, m in K5. cbn [m_value m_size m_dyn m_key] in K5.
  clear -ML K5 Hsz Hor. destruct val as [v|].
  - destruct sz as [sz|]; cbn in K5.
    + inversion K5 as [|? a ? as_ Ha Has Hz Hw]; subst. inversion Has as [|? a2 ? as2 Ha2 Has2]; subst. unfold carried in Ha, Ha2. cbn in Ha, Ha2.
      rewrite view_raw in Ha. cbn [lookup list_lookup fmap option_fmap option_map compose]. rewrite Ha2, read_sizes by (by apply Hsz). by split.
    + inversion K5 as [|? a ? as_ Ha Has Hz Hw]; subst. inversion Has; subst. unfold carried in Ha. cbn in Ha. rewrite view_raw in Ha. cbn. by split.
  - destruct sz as [sz|]; [by destruct Hor|]. cbn in K5. inversion K5; subst. by cbn.
Qed.

(** ** Delivery without conversion does not fail *)

Lemma comp_delivered request comp m n1 n2 :
  comp = [] \/ comp = [COMPRESSING] -> Forall (fun v => Z.of_nat (length v) <= max_input)%Z m.(value) ->
  exists m' n1' n2', deliver request (map new_conf comp) m n1 n2 = Ok (m', n1', n2').
Proof using LL compress_refuses.
  intros [-> | ->] Hv; cbn [map]; [by eexists _, _, _|].
  destruct (compress_arrays_ok _ Hv) as (zs & sizes & Ec). rewrite deliver_cons. cbn [Encode new_conf f_type]. rewrite Ec.
  cbn [mbind outcome_bind]. change (deliver request [] ?m ?a ?b) with (Ok (m, a, b)). cbn [mbind outcome_bind Decode f_type uncompressed_size with_value value].
  rewrite (compressed_back _ _ _ Ec). cbn [mbind outcome_bind]. by eexists _, _, _.
Qed.

Lemma exact_delivered request before after comp ks m n1 n2 :
  usual before [] after comp -> typed m -> in_order ks n1 n2 -> m.(key) ∈ ks -> m.(key) <> [] ->
  Forall (fun v => Z.of_nat (length v) <= max_input)%Z m.(value) ->
  exists m' n1' n2', deliver request (map new_conf (before ++ [] ++ after ++ comp)) m n1 n2 = Ok (m', n1', n2').
Proof using LL compress_refuses.
  intros [Hb _ Ha Hc] Ht Ho Hin Hne Hv.
  assert ((before ++ [] ++ after ++ comp = comp) \/ exists b, before ++ [] ++ after ++ comp = KEY_CACHING b :: comp) as [-> |[b ->]].
  { destruct Ha as [-> |[-> [b ->]]]; [|right; by exists b]. destruct Hb as [-> |[b ->]]; [by left|right; by exists b]. }
  { by apply comp_delivered. }
  cbn [map]. rewrite deliver_cons. destruct (Encode request (new_conf (KEY_CACHING b)) n1 m) as [[[f1 n1a] m1]|] eqn:Ee.
  2:{ cbn [Encode new_conf f_type] in Ee. by destruct (key_encode _ _ _) as [c km]. }
  assert (typed m1 /\ value m1 = value m) as [Ht1 Hv1].
  { pose proof Ee as Ee'. cbn [Encode new_conf f_type] in Ee'. destruct (key_encode _ _ _) as [c km]. injection Ee' as _ _ <-.
    by destruct (get_key m), (k_key km). }
  cbn [mbind outcome_bind]. destruct (comp_delivered request comp m1 n1a n2 Hc) as (m1' & n1b & n2b & Ed); [by rewrite Hv1|].
  rewrite Ed. cbn [mbind outcome_bind].
  assert (plain request (map new_conf comp) same) as Pc.
  { destruct Hc as [-> | ->]; [apply plain_nil|]. apply plain_compress, plain_nil. }
  destruct (Pc _ _ _ _ _ _ Ht1 Ed) as ((K1 & K2 & _) & C1 & C2).
  destruct (caching_ends request b ks m n1 f1 n1a m1 n2 m1' n1b n2b Ho Hin Hne Ee K1 K2 C1 C2) as (n2c & m2 & Edd & _).
  rewrite Edd. by eexists _, _, _.
Qed.

(** A message of the applications goes through its filters: without one that
    converts floats it is delivered, and the same; whenever it is delivered, its
    keys, its lengths and its kind are those that were sent, its values are what
    the converting filter may make of them, and the connection stays in good
    order. *)
Theorem message_through_filters request push_ before conv after comp m ks n1 n2 :
  usual before conv after comp -> sendable m -> in_order ks n1 n2 -> pod_memory (H := pod_key) m.(m_key) ∈ ks ->
  let sent := deliver request (map new_conf (before ++ conv ++ after ++ comp)) (write_message push_ m) n1 n2 in
  (forall w n1' n2', sent = Ok (w, n1', n2') -> in_order ks n1' n2' /\
    exists v', read_message m.(m_cmd) w = KVStore.mkMsg m.(m_cmd) m.(m_key) m.(m_dyn) v' m.(m_size) /\
      match m.(m_value), v' with Some v, Some v' => converts conv v v' | None, None => True | _, _ => False end) /\
  (conv = [] -> Forall (fun a => Z.of_nat (length a) <= max_input)%Z (write_message push_ m).(value) ->
    exists w n1' n2', sent = Ok (w, n1', n2') /\ read_message m.(m_cmd) w = m).
Proof using ML LL compress_refuses.
  intros Hu Hm Ho Hin sent.
  assert (typed (write_message push_ m) /\ key (write_message push_ m) = pod_memory (H := pod_key) (m_key m)) as [Ht Hk]
    by (unfold write_message; destruct m as [? ? ? [|] [|]]; done).
  assert (pod_memory (H := pod_key) (m_key m) <> []) as Hne.
  { intros Hn. apply (f_equal length) in Hn. rewrite pod_memory_length in Hn. pose proof (sd_keys _ Hm) as Hkk. by destruct (m_key m). }
  assert (forall w n1' n2', sent = Ok (w, n1', n2') -> in_order ks n1' n2' /\
    exists v', read_message m.(m_cmd) w = KVStore.mkMsg m.(m_cmd) m.(m_key) m.(m_dyn) v' m.(m_size) /\
      match m.(m_value), v' with Some v, Some v' => converts conv v v' | None, None => True | _, _ => False end) as Hall.
  { intros w n1' n2' E. destruct (usual_passes request before conv after comp Hu ks _ n1 n2 w n1' n2' Ht Ho) as [_ Ho']; [by rewrite Hk|by rewrite Hk|done|].
    split; [done|]. destruct (usual_arrives request push_ before conv after comp m (read_message (m_cmd m) w) Hu Hm) as (A1 & A2 & A3 & A4 & A5).
    { exists ks, n1, n2, w, n1', n2'. done. }
    exists (m_value (read_message (m_cmd m) w)). split; [|done]. destruct (read_message (m_cmd m) w) as [c k d v sz]. cbn in *. by subst. }
  split; [exact Hall|]. intros -> Hv.
  destruct (exact_delivered request before after comp ks (write_message push_ m) n1 n2 Hu Ht Ho) as (w & n1' & n2' & E); [by rewrite Hk|by rewrite Hk|done|].
  exists w, n1', n2'. split; [exact E|]. destruct (Hall w n1' n2' E) as (_ & v' & -> & Hv'). destruct m as [c k d [v|] sz]; cbn in *; destruct v'; by simplify_eq.
Qed.

End Transport.

(** ** A concrete connection *)

From Stdlib Require Import QArith.
#[local] Open Scope nat_scope.

(** Some memory for rationals: the bits of their code, a byte for each. *)
#[local] Instance Q_eq_dec : EqDecision Q.
Proof. solve_decision. Defined.
#[local] Instance Q_countable : Countable Q := inj_countable' (fun q => (Qnum q, Qden q)) (fun p => Qmake p.1 p.2) (fun q => match q with Qmake _ _ => eq_refl end).
Fixpoint pos_bytes (p : positive) : list byte :=
  match p with xH => [Byte.x01] | xO p => Byte.x02 :: pos_bytes p | xI p => Byte.x03 :: pos_bytes p end.
Fixpoint bytes_pos (b : list byte) : positive :=
  match b with
  | Byte.x02 :: b => xO (bytes_pos b)
  | Byte.x03 :: b => xI (bytes_pos b)
  | _ => xH
  end.
Lemma bytes_pos_bytes p : bytes_pos (pos_bytes p) = p.
Proof. induction p as [p IH|p IH|]; simpl; [by rewrite IH|by rewrite IH|done]. Qed.

#[local] Instance Qmemory : Memory Q := {|
  raw v := match v with [] => [] | _ => pos_bytes (encode v) end;
  view b := match b with [] => [] | _ => default [] (decode (bytes_pos b)) end
|}.
Lemma pos_bytes_cons p : exists b bs, pos_bytes p = b :: bs.
Proof. destruct p; simpl; by eexists _, _. Qed.
#[local] Instance Qmemory_laws : MemoryLaws Q.
Proof.
  split; [|done|].
  - intros [|x v]; [done|]. cbn [raw view Qmemory]. destruct (pos_bytes_cons (encode (x :: v))) as (b & bs & E).
    rewrite E, <- E, bytes_pos_bytes, decode_encode. done.
  - intros [|x v]; [done|]. cbn [raw Qmemory]. destruct (pos_bytes_cons (encode (x :: v))) as (b & bs & ->). done.
Defined.

(** LZ4 that stores what it is given behind a byte. *)
#[local] Instance kept : LZ4 := {|
  LZ4_compress_default d := if (Z.of_nat (length d) <=? max_input)%Z then Byte.x00 :: d else [];
  LZ4_decompress_safe z n := if (Z.of_nat (length (tail z)) <=? n)%Z then Some (tail z) else None
|}.
#[local] Instance kept_laws : LZ4Laws.
Proof.
  split; intros d Hd; cbn [LZ4_compress_default LZ4_decompress_safe kept]; rewrite (proj2 (Z.leb_le _ _) Hd).
  - unfold max_input in Hd. cbn [length]. lia.
  - cbn [tail]. by rewrite Z.leb_refl.
Defined.
Lemma kept_refuses d : (max_input < Z.of_nat (length d))%Z -> LZ4_compress_default (LZ4 := kept) d = [].
Proof. intros Hd. cbn [LZ4_compress_default kept]. by rewrite (proj2 (Z.leb_gt _ _)) by lia. Qed.

Definition fresh_node : RemoteNode := mkRN ∅ (mkBR 0 5 0).
Lemma fresh_in_order Hash64 k : in_order Hash64 [k] fresh_node fresh_node.
Proof.
  split; [|split; [done|]].
  - intros k1 k2 H1%list_elem_of_singleton H2%list_elem_of_singleton _ _. congruence.
  - intros sig k0 Hs. cbn in Hs. by rewrite lookup_empty in Hs.
Qed.

(** A message over a new connection, with exact conversions. *)
Definition send (Hash64 : list byte -> Z) (request push_ : bool) (fs : list Filter) (m : KVStore.Message Q) : option (KVStore.Message Q) :=
  match deliver (FF := Qfloat) (FD := Qfloat) id Qred Qred Hash64 (fun _ => 0%Z) request (map new_conf fs) (write_message push_ m) fresh_node fresh_node with
  | Ok (w, _, _) => Some (read_message m.(m_cmd) w)
  | Fail _ => None
  end.
Lemma send_arrives Hash64 request push_ fs m m' :
  send Hash64 request push_ fs m = Some m' -> arrives (FF := Qfloat) (FD := Qfloat) id Qred Qred Hash64 (fun _ => 0%Z) request push_ fs m m'.
Proof.
  unfold send. destruct (deliver _ _ _ _ _ _ _ _ _ _) as [[[w n1] n2]|] eqn:E; [|done]. intros [= <-].
  exists [pod_memory (H := pod_key) (m_key m)], fresh_node, fresh_node, w, n1, n2.
  split; [apply fresh_in_order|]. split; [apply list_elem_of_here|]. by split.
Qed.

(** A gradient for nine keys, so that the keys are long enough to be cached:
    through all the filters, and through those that keep it. *)
Definition ex_push : KVStore.Message Q :=
  KVStore.mkMsg 0 [1; 2; 3; 4; 5; 6; 7; 8; 9]%Z true (Some (map inject_Z [4; -2; 0; 1; 5; 7; 3; 3; 2]%Z)) (Some (replicate 9 1)).
Lemma ex_push_sendable : sendable ex_push.
Proof. split; [done| | |done]; [repeat constructor; lia|]. intros sz [= <-]. repeat constructor; lia. Qed.

Lemma message_through_filters_witness :
  let hash k := Z.of_nat (length k) in
  let send fs := deliver (FF := Qfloat) (FD := Qfloat) id id id hash (fun _ => 0%Z) true (map new_conf fs) (write_message true ex_push) fresh_node fresh_node in
  (exists w n1 n2, send [KEY_CACHING true; COMPRESSING] = Ok (w, n1, n2) /\ read_message 0 w = ex_push) /\
  (exists w n1 n2 v', send [FIXING_FLOAT 2; KEY_CACHING true; COMPRESSING] = Ok (w, n1, n2) /\
    read_message 0 w = KVStore.mkMsg 0 ex_push.(m_key) true (Some v') (Some (replicate 9 1)) /\ length v' = 9).
Proof.
  intros hash send.
  pose proof (message_through_filters (FF := Qfloat) (FD := Qfloat) id id id hash (fun _ => 0%Z) kept_refuses true true) as H.
  split.
  - destruct (H [KEY_CACHING true] [] [] [COMPRESSING] ex_push [pod_memory (H := pod_key) ex_push.(m_key)] fresh_node fresh_node) as [_ Hok].
    + split; [right; by exists true|by left|by left|by right].
    + apply ex_push_sendable.
    + apply fresh_in_order.
    + apply list_elem_of_here.
    + apply Hok; [done|]. repeat apply Forall_cons_2; [vm_compute; discriminate..|constructor].
  - destruct (H [] [FIXING_FLOAT 2] [KEY_CACHING true] [COMPRESSING] ex_push [pod_memory (H := pod_key) ex_push.(m_key)] fresh_node fresh_node) as [Hd _].
    + split; [by left|right; exists (FIXING_FLOAT 2), 2%Z; by auto|right; split; [done|by exists true]|by right].
    + apply ex_push_sendable.
    + apply fresh_in_order.
    + apply list_elem_of_here.
    + cbn [app] in Hd. subst send. cbv beta in *. cbv zeta in Hd.
      match type of Hd with forall _ _ _, ?d = _ -> _ => destruct d as [[[w0 a1] a2]|] eqn:E end; [|vm_compute in E; discriminate].
      clear E. destruct (Hd w0 a1 a2 eq_refl) as (_ & [v'|] & Er & Hv'); [|destruct Hv']. exists w0, a1, a2, v'. split; [reflexivity|]. split; [exact Er|].
      destruct Hv' as [Hv' _]. exact Hv'.
Defined.
