(* ===== verification/DataParallel.v ===== *)
(** * Dispatching data to the workers

    Models src/src/solver/data_parallel.h: the scheduler fills the workload pool
    with the parts of the files, hands a part to every worker that reports that
    it finished the one before, and the worker decodes and processes it.  The
    messages are those that are sent; when they arrive is up to the steps of an
    execution. *)
From S2P Require Import Prelude Floats Stream Workload WorkloadPool.
Import WorkloadPool.

(** [ps::Task], as far as the solver uses it. *)
Record Task := mkMsgTask { t_cmd : Z; t_msg : list byte }.

Definition kServerGroup : string := "all_servers".
Definition kWorkerGroup : string := "all_workers".

Section DataParallel.
Context {D : Type} `{HD : !Float D}.

(** The files that match a pattern, what a new [Workload] holds as type and
    pass, and the order of the pool's table. *)
Context (MatchFile : string -> list string) (junk_type : Workload.Type_) (junk_pass : Z).
Context (order : gmap string WorkloadPool.Task -> list (string * WorkloadPool.Task)).

(** [WorkloadPool::Match(pattern, wl)]: the files of [wl] are replaced. *)
Definition Match (pattern : string) : list Workload.File :=
  map (fun f => Workload.mkFile f (Workload.format Workload.File_default) (Workload.n Workload.File_default)
                  (Workload.k Workload.File_default)) (MatchFile pattern).

(** [class DataParScheduler] *)
Record DataParScheduler := mkSched {
  data_filename_ : string; data_format_ : string; num_parts_per_file_ : nat;
  use_worker_local_data_ : bool; workload_ : Workload.t; pool_ : WorkloadPool.t (D := D) }.

Definition with_pool (s : DataParScheduler) (p : WorkloadPool.t) : DataParScheduler :=
  mkSched s.(data_filename_) s.(data_format_) s.(num_parts_per_file_) s.(use_worker_local_data_) s.(workload_) p.

(** A new [Workload] with some files. *)
Definition new_workload (files : list Workload.File) : Workload.t := Workload.mk junk_type junk_pass files.

(** [SendWorkload(id, wl)]: the request that is submitted. *)
Definition SendWorkload (id : string) (wl : Workload.t) : outcome (Task * string) :=
  ss ← Workload.Save wl StringStream.empty;
  Ok (mkMsgTask (Cmd.set_process 0) (StringStream.str ss), id).

(** What a response finds: [rand()] and the times [GetTime()] returns. *)
Record env := mkEnv { e_rands : nat -> nat; e_nows : nat -> D; e_now : WorkloadPool.Assigned (D := D) -> D }.

(** [ProcessResponse(response)]: the new state and the requests submitted. *)
Definition ProcessResponse (e : env) (sender : string) (response : Task) (s : DataParScheduler)
  : outcome (DataParScheduler * list (Task * string)) :=
  if negb (Cmd.process response.(t_cmd)) then Ok (s, []) else
  if negb (bool_decide (length response.(t_msg) = 0)) then
    _ ← check s.(use_worker_local_data_);
    '(wl, _) ← Workload.Load (new_workload []) (StringStream.of_string response.(t_msg));
    p ← WorkloadPool.Add wl.(Workload.file) s.(num_parts_per_file_) sender s.(pool_);
    Ok (with_pool s p, [])
  else
    p ← WorkloadPool.Finish sender e.(e_now) s.(pool_);
    let '(files, p) := WorkloadPool.Get order sender e.(e_rands) e.(e_nows) p in
    let wl := Workload.mk s.(workload_).(Workload.type) s.(workload_).(Workload.data_pass) files in
    if Workload.Empty wl then Ok (with_pool s p, []) else
    f0 ← read_at files 0;
    let f0 := Workload.mkFile f0.(Workload.filename) s.(data_format_) f0.(Workload.n) f0.(Workload.k) in
    files ← write_at files 0 f0;
    m ← SendWorkload sender (Workload.mk wl.(Workload.type) wl.(Workload.data_pass) files);
    Ok (with_pool s p, [m]).

(** [StartDispatch()]; with local data it waits for the responses [locals] of
    the workers, which are processed meanwhile. *)
Definition StartDispatch (locals : list (env * string * Task)) (s : DataParScheduler)
  : outcome (DataParScheduler * list (Task * string)) :=
  let s := with_pool s (WorkloadPool.Clear s.(pool_)) in
  '(s, out) ←
    (if s.(use_worker_local_data_) then
       let f := Workload.mkFile s.(data_filename_) (Workload.format Workload.File_default) 0
                  (Workload.k Workload.File_default) in
       m ← SendWorkload kWorkerGroup (new_workload [f]);
       '(s, out) ← foldM (fun so (r : env * string * Task) =>
           '(s, o) ← ProcessResponse r.1.1 r.1.2 r.2 so.1; Ok (s, so.2 ++ o)) locals (s, []);
       Ok (s, m :: out)
     else
       p ← WorkloadPool.Add (Match s.(data_filename_)) s.(num_parts_per_file_) "" s.(pool_);
       Ok (with_pool s p, []));
  m ← SendWorkload kWorkerGroup (new_workload []);
  Ok (s, out ++ [m]).

(** [IsFinished()], [StopDispatch()] and the node failure handler. *)
Definition Sched_IsFinished (s : DataParScheduler) : bool := WorkloadPool.IsFinished s.(pool_).
Definition StopDispatch (s : DataParScheduler) : DataParScheduler := with_pool s (WorkloadPool.ClearRemain s.(pool_)).
Definition NodeFailure (e : env) (id : string) (s : DataParScheduler) : outcome DataParScheduler :=
  p ← WorkloadPool.Reset id e.(e_now) s.(pool_); Ok (with_pool s p).

(** [DataParWorker::ProcessRequest(request)]: nothing, a reply, or [Process]. *)
Inductive Worked := Ignored | Replied (msg : list byte) | Processed (wl : Workload.t).

(** The response to a request: the reply takes over the command of the request,
    and a request that was not replied to gets an empty reply. *)
Definition Reply (request : Task) (msg : list byte) : Task := mkMsgTask request.(t_cmd) msg.
Definition response_of (request : Task) (w : Worked) : Task :=
  Reply request (match w with Replied msg => msg | _ => [] end).

Definition ProcessRequest (request : Task) : outcome Worked :=
  if Cmd.process request.(t_cmd) then
    '(wl, _) ← Workload.Load (new_workload []) (StringStream.of_string request.(t_msg));
    if Workload.Empty wl then Ok Ignored else
    f0 ← read_at wl.(Workload.file) 0;
    if bool_decide (length wl.(Workload.file) = 1) && bool_decide (f0.(Workload.n) = 0%Z) then
      ss ← Workload.Save (new_workload (Match f0.(Workload.filename))) StringStream.empty;
      Ok (Replied (StringStream.str ss))
    else Ok (Processed wl)
  else Ok Ignored.

End DataParallel.

(** ** The sizes of the parts *)

Section Tracks.
Context {D : Type} `{HD : !Float D}.
Context (order : gmap string WorkloadPool.Task -> list (string * WorkloadPool.Task)).
Hypothesis order_perm : forall m, order m ≡ₚ map_to_list m.
Implicit Types (p : WorkloadPool.t (D := D)).

(** Every file in the table has [n] parts. *)
Definition tracks (n : nat) (p : WorkloadPool.t (D := D)) : Prop :=
  forall f t, p.(task_) !! f = Some t -> length t.(track) = n.

Lemma Mark_tracks n f k mark p p' : tracks n p -> Mark f k mark p = Ok p' -> tracks n p'.
Proof.
  intros Ht E. unfold Mark in E. destruct (task_ p !! f) as [t|] eqn:Ef; [|by injection E as <-].
  destruct (check _) as [[]|]; [|discriminate]. cbn [mbind outcome_bind] in E.
  destruct (read_at _ _) as [tk|]; [|discriminate]. cbn [mbind outcome_bind] in E. injection E as <-.
  intros g t' Hg. destruct (decide (_ = length _)); simpl in Hg.
  - apply lookup_delete_Some in Hg as [_ Hg]. by apply (Ht g).
  - apply lookup_insert_Some in Hg as [[_ <-]|[_ Hg]]; [|by apply (Ht g)]. simpl. rewrite length_insert. by apply (Ht f).
Qed.

Lemma Set_loop_tracks n id del now it : forall p kept p',
  tracks n p -> Set_loop id del now it p = Ok (kept, p') -> tracks n p'.
Proof.
  induction it as [|a it IH]; intros p kept p' Ht E; simpl in E; [by injection E as _ <-|].
  destruct (decide (a_node a = id)).
  - destruct (if negb del then _ else _) as [p1|] eqn:E1; [|discriminate]. simpl in E. eapply IH; [|exact E].
    destruct del; simpl in E1; eapply Mark_tracks; try exact E1; done.
  - destruct (Set_loop id del now it p) as [[kept1 p1]|] eqn:E1; [|discriminate]. simpl in E. injection E as <- <-.
    by eapply IH.
Qed.

Lemma Set_tracks n id del now p p' : tracks n p -> Set_ id del now p = Ok p' -> tracks n p'.
Proof.
  intros Ht E. unfold Set_ in E. destruct (Set_loop _ _ _ _ _) as [[kept p1]|] eqn:E1; [|discriminate].
  simpl in E. injection E as <-. by eapply Set_loop_tracks in E1.
Qed.

Lemma scan_tasks_elem id pick i its f k t : scan_tasks id pick i its = Some (f, k, t) -> (f, t) ∈ its.
Proof.
  revert i. induction its as [|[g t'] its IH]; intros i E; simpl in E; [done|].
  destruct (skip id t').
  - apply list_elem_of_further. by eapply IH.
  - destruct (scan_track pick i 0 (track t')) as [k'|i'].
    + injection E as -> _ ->. apply list_elem_of_here.
    + apply list_elem_of_further. by eapply IH.
Qed.

Lemma Get_loop_tracks n id rands nows i : forall wl p wl' p',
  tracks n p -> Get_loop order id rands nows i wl p = (wl', p') ->
  Forall (fun f => f.(Workload.n) = Z.of_nat n) wl ->
  tracks n p' /\ Forall (fun f => f.(Workload.n) = Z.of_nat n) wl' /\ length wl' <= length wl + i.
Proof.
  induction i as [|i IH]; intros wl p wl' p' Ht E Hwl; simpl in E; [injection E as <- <-; split_and!; (done || lia)|].
  destruct (GetOne order id (rands i) (nows i) wl p) as [wl1 p1] eqn:E1.
  enough (tracks n p1 /\ Forall (fun f => f.(Workload.n) = Z.of_nat n) wl1 /\ length wl1 <= length wl + 1) as (H1 & H2 & H3).
  { destruct (IH wl1 p1 wl' p' H1 E H2) as (? & ? & ?). split_and!; (done || lia). }
  unfold GetOne in E1. destruct (_ && _); [injection E1 as <- <-; split_and!; (done || lia)|].
  destruct (scan_tasks _ _ _ _) as [[[f k] t]|] eqn:Es; [|injection E1 as <- <-; split_and!; (done || lia)].
  apply scan_tasks_elem in Es. rewrite order_perm in Es. apply elem_of_map_to_list in Es.
  injection E1 as <- <-. split.
  - intros g t' Hg. simpl in Hg. apply lookup_insert_Some in Hg as [[_ <-]|[_ Hg]]; [|by apply (Ht g)].
    simpl. rewrite length_insert. by apply (Ht f).
  - split; [|rewrite length_app; simpl; lia]. apply Forall_app. split; [done|]. apply Forall_singleton. simpl.
    by rewrite (Ht f t Es).
Qed.

Lemma fresh_tracks n ad p : fresh n ad p -> tracks n p.
Proof. intros Hf g t Ht. rewrite (fr_task _ _ _ Hf _ _ Ht). simpl. by rewrite length_replicate. Qed.

End Tracks.

(** ** Delivering a workload *)

Lemma Save_workload wl : exists ss, Workload.Save wl StringStream.empty = Ok ss /\ StringStream.str ss = Workload_enc wl.
Proof.
  destruct (Save_spec wl StringStream.empty 0) as (ss & HS & Hw & _); [simpl; lia|done|]. by exists ss.
Qed.

Lemma Load_workload wl wl0 :
  Workload.wf wl -> Workload.file wl0 = [] ->
  exists fi, Workload.Load wl0 (StringStream.of_string (Workload_enc wl)) = Ok (wl, fi).
Proof.
  intros Hwf H0. destruct (Load_spec wl wl0 (StringStream.of_string (Workload_enc wl)) []) as (fi & HL & _);
    [done|simpl; lia|simpl; by rewrite ?drop_0, app_nil_r|].
  exists fi. rewrite HL, H0. by destruct wl.
Qed.

Section Deliver.
Context (MatchFile : string -> list string) (junk_type : Workload.Type_) (junk_pass : Z).

(** A request a worker works on: it has files, and is not a question about the
    files the worker has. *)
Lemma ProcessRequest_deliver wl id :
  Workload.wf wl -> (forall f, head wl.(Workload.file) = Some f -> f.(Workload.n) <> 0%Z) -> wl.(Workload.file) <> [] ->
  exists t, SendWorkload id wl = Ok (t, id) /\ Cmd.process t.(t_cmd) = true /\
    ProcessRequest MatchFile junk_type junk_pass t = Ok (Processed wl).
Proof.
  intros Hwf Hn Hne. unfold SendWorkload. destruct (Save_workload wl) as (ss & -> & Hs). cbn [mbind outcome_bind].
  eexists. split; [reflexivity|]. split; [done|]. unfold ProcessRequest. simpl t_cmd. simpl t_msg.
  change (Cmd.process (Cmd.set_process 0)) with true. rewrite Hs.
  destruct (Load_workload wl (new_workload junk_type junk_pass []) Hwf eq_refl) as (fi & ->). cbn [mbind outcome_bind].
  unfold Workload.Empty. destruct (Workload.file wl) as [|f fs] eqn:Ef; [done|]. simpl.
  rewrite (bool_decide_eq_false_2 (Workload.n f = 0%Z)) by (by apply Hn). rewrite andb_false_r. done.
Qed.

(** The empty workload that starts a pass is ignored. *)
Lemma ProcessRequest_empty ty pass id :
  Workload.int32 pass ->
  exists t, SendWorkload id (Workload.mk ty pass []) = Ok (t, id) /\
    ProcessRequest MatchFile junk_type junk_pass t = Ok Ignored /\ Cmd.process t.(t_cmd) = true.
Proof.
  intros Hp. unfold SendWorkload. destruct (Save_workload (Workload.mk ty pass [])) as (ss & -> & Hs). cbn [mbind outcome_bind].
  eexists. split; [reflexivity|]. split; [|done]. unfold ProcessRequest. simpl t_cmd. simpl t_msg.
  change (Cmd.process (Cmd.set_process 0)) with true. rewrite Hs.
  destruct (Load_workload (Workload.mk ty pass []) (new_workload junk_type junk_pass []) ltac:(by split) eq_refl) as (fi & ->).
  done.
Qed.

End Deliver.

(** ** A pass over the data *)

Section Pass.
Context {D : Type} `{HD : !Float D} (MatchFile : string -> list string) (junk_type : Workload.Type_) (junk_pass : Z).
Context (order : gmap string WorkloadPool.Task -> list (string * WorkloadPool.Task)).
Hypothesis order_perm : forall m, order m ≡ₚ map_to_list m.

Definition part_of (f : Workload.File) : string * nat := (f.(Workload.filename), Z.to_nat f.(Workload.k)).

(** [t] makes a worker process the parts [ps] as part of the pass of [s]. *)
Definition carries (s : DataParScheduler (D := D)) (t : Task * string) (ps : list (string * nat)) : Prop :=
  exists wl, ProcessRequest MatchFile junk_type junk_pass t.1 = Ok (Processed wl) /\
    map part_of wl.(Workload.file) = ps /\ wl.(Workload.type) = s.(workload_).(Workload.type) /\
    wl.(Workload.data_pass) = s.(workload_).(Workload.data_pass) /\
    exists f, head wl.(Workload.file) = Some f /\ f.(Workload.format) = s.(data_format_).

(** The responses of the workers that finished what they had, one after the
    other. *)
Definition finished (t : Task) : Prop := Cmd.process t.(t_cmd) = true /\ t.(t_msg) = [].

Definition answer (so : DataParScheduler (D := D) * list (Task * string)) (r : env (D := D) * string)
  : outcome (DataParScheduler (D := D) * list (Task * string)) :=
  '(s, o) ← ProcessResponse junk_type junk_pass order r.1 r.2 (mkMsgTask (Cmd.set_process 0) []) so.1;
  Ok (s, so.2 ++ o).

Lemma finish_all_perm fin l : finish_all (D := D) fin l ≡ₚ map part l ++ fin.
Proof.
  unfold finish_all. revert fin. induction l as [|a l IH]; intros fin; simpl; [done|].
  rewrite IH. by rewrite Permutation_middle.
Qed.

Lemma split_node (id : string) (l : list (Assigned (D := D))) :
  map part (filter (fun a => a.(a_node) = id) l) ++ map part (filter (fun a => a.(a_node) <> id) l) ≡ₚ map part l.
Proof.
  induction l as [|a l IH]; [done|]. rewrite !filter_cons. destruct (decide (a_node a = id)) as [E|E].
  - rewrite (decide_False (P := a_node a <> id)) by naive_solver. simpl. by rewrite IH.
  - rewrite (decide_True (P := a_node a <> id)) by done. simpl. by rewrite <- Permutation_middle, IH.
Qed.

Lemma live_assigned cap all fin (p : WorkloadPool.t (D := D)) a : live cap all fin p -> a ∈ assigned_ p -> part a ∈ all.
Proof.
  intros [Hag Hcov _] Ha. destruct (cov_task _ _ _ _ _ Hcov a Ha) as [t Ht].
  by destruct (cov_table _ _ _ _ _ Hcov _ _ _ _ Ht (agree_one _ _ Hag _ _ Ha Ht)) as [? _].
Qed.

Context (npart : nat) (files : list string).

(** The scheduler in a pass over [files], with [sent] the parts handed out and
    [fin] the finished ones. *)
Record passing (s : DataParScheduler (D := D)) (sent fin : list (string * nat)) : Prop := {
  pa_live : live (capable (map (fun f => (f, "")) files)) (parts npart (map (fun f => (f, "")) files)) fin s.(pool_);
  pa_inited : s.(pool_).(inited_) = true;
  pa_tracks : tracks npart s.(pool_);
  pa_num : s.(pool_).(num_file_per_wl_) = 1;
  pa_sent : sent ≡ₚ fin ++ map part s.(pool_).(assigned_);
  pa_npart : 0 < npart /\ (Z.of_nat npart < 2 ^ 31)%Z;
  pa_names : Forall Workload.string_ok files /\ Workload.string_ok s.(data_format_);
  pa_pass : Workload.int32 s.(workload_).(Workload.data_pass)
}.

Lemma all_parts f k : (f, k) ∈ parts npart (map (fun f => (f, "")) files) <-> f ∈ files /\ k < npart.
Proof.
  rewrite elem_of_parts. split; intros [H Hk]; (split; [|done]).
  - destruct H as [id Hid]. apply list_elem_of_In, in_map_iff in Hid as (g & [= <- _] & Hg). by apply list_elem_of_In.
  - exists "". apply list_elem_of_In, in_map_iff. exists f. split; [done|]. by apply list_elem_of_In.
Qed.

Lemma any_node f id : capable (map (fun f => (f, "")) files) f = ∅ \/ id ∈ capable (map (fun f => (f, "")) files) f.
Proof.
  left. unfold capable. rewrite filter_none; [done|]. apply Forall_forall. intros x Hx.
  apply list_elem_of_In, in_map_iff in Hx as (g & <- & _). simpl. naive_solver.
Qed.


(** The parts of the files, and who may work on them: everybody. *)
Notation everybody := (capable (map (fun f => (f, "")) files)).
Notation everything := (parts npart (map (fun f => (f, "")) files)).

Lemma Finish_passing e id s sent fin :
  passing s sent fin ->
  exists p, Finish id e.(e_now) s.(pool_) = Ok p /\
    passing (with_pool s p) sent (finish_all fin (filter (fun a => a.(a_node) = id) s.(pool_).(assigned_))) /\
    p.(assigned_) = filter (fun a => a.(a_node) <> id) s.(pool_).(assigned_).
Proof.
  intros [Hl Hi Ht Hn Hs Hnp Hnm Hp]. destruct (Set_live _ _ _ id true e.(e_now) _ Hl) as (p & E & Hl' & Ha & Hc).
  exists p. unfold Finish. split; [done|]. split; [|done]. destruct Hc as (C1 & _ & C3).
  split; simpl; try done; [congruence|by eapply Set_tracks|congruence|].
  rewrite Hs, Ha, finish_all_perm. rewrite <- (split_node id). rewrite (Permutation_app_comm _ fin). by rewrite app_assoc.
Qed.

Lemma Get_passing e id s sent fin :
  passing s sent fin ->
  exists new p, WorkloadPool.Get order id e.(e_rands) e.(e_nows) s.(pool_) = (map Assigned_Get new, p) /\
    passing (with_pool s p) (sent ++ map part new) fin /\ p.(assigned_) = s.(pool_).(assigned_) ++ new /\
    Forall (fun a => a.(a_node) = id) new /\ length new <= 1 /\ Forall (fun a => a.(a_n) = Z.of_nat npart) new /\
    (forall x, x ∈ everything -> x ∉ fin -> x ∉ map part s.(pool_).(assigned_) -> new <> []).
Proof.
  intros [Hl Hi Ht Hn Hs Hnp Hnm Hp]. unfold WorkloadPool.Get. rewrite Hn.
  destruct (Get_loop_live order order_perm _ _ _ id e.(e_rands) e.(e_nows) 1 [] _ Hl) as (new & p & E & Ha & Hid & _ & Hne & Hl' & Hc).
  destruct (Get_loop_tracks order order_perm npart _ _ _ _ _ _ _ _ Ht E) as (Ht' & Hsz & Hlen); [constructor|].
  exists new, p. split; [exact E|]. destruct Hc as (C1 & _ & C3). simpl in Hlen, Hsz. rewrite length_map in Hlen. split_and!; try done.
  - split; simpl; try done; [congruence..|]. by rewrite Hs, Ha, map_app, app_assoc.
  - apply Forall_forall. intros a Ha'. rewrite Forall_forall in Hsz. apply (Hsz (Assigned_Get a)). apply list_elem_of_In, in_map, list_elem_of_In. done.
  - intros [f k] Hx Hxf Hxa. apply Hne; [lia|]. eapply live_available; try done. apply any_node.
Qed.

(** The part that was handed out reaches the worker. *)
Lemma send_part s sent fin a id :
  passing s sent fin -> a ∈ s.(pool_).(assigned_) -> a.(a_n) = Z.of_nat npart ->
  exists t, SendWorkload id (Workload.mk s.(workload_).(Workload.type) s.(workload_).(Workload.data_pass)
      [Workload.mkFile a.(a_filename) s.(data_format_) a.(a_n) (Z.of_nat a.(a_k))]) = Ok (t, id) /\ carries s (t, id) [part a].
Proof.
  intros [Hl Hi Ht Hn Hs [Hn0 Hn1] [Hnm Hfm] Hp] Ha Han.
  pose proof (live_assigned _ _ _ _ _ Hl Ha) as Hin. apply all_parts in Hin as [Hf Hk]. rewrite Forall_forall in Hnm.
  edestruct (ProcessRequest_deliver MatchFile junk_type junk_pass) as (t & E & _ & Hr); [| | |exists t; split; [exact E|]].
  - split_and!; [done| |simpl; lia]. apply Forall_singleton. split_and!; [by apply Hnm|done|simpl; unfold Workload.int32; lia..].
  - intros f [= <-]. simpl. lia.
  - done.
  - eexists. split; [exact Hr|]. simpl. split_and!; try done; [unfold part_of, part; simpl; by rewrite Nat2Z.id|eauto].
Qed.

Lemma response_step e id s sent fin :
  passing s sent fin ->
  exists s' out new, ProcessResponse junk_type junk_pass order e id (mkMsgTask (Cmd.set_process 0) []) s = Ok (s', out) /\
    passing s' (sent ++ map part new) (finish_all fin (filter (fun a => a.(a_node) = id) s.(pool_).(assigned_))) /\
    Forall2 (carries s) out (map (fun a => [part a]) new) /\ with_pool s' s.(pool_) = s /\
    s'.(pool_).(assigned_) = filter (fun a => a.(a_node) <> id) s.(pool_).(assigned_) ++ new /\
    Forall (fun a => a.(a_node) = id) new /\
    (forall x, x ∈ everything -> x ∉ finish_all fin (filter (fun a => a.(a_node) = id) s.(pool_).(assigned_)) ->
       x ∉ map part (filter (fun a => a.(a_node) <> id) s.(pool_).(assigned_)) -> new <> []).
Proof.
  intros Hpa. destruct (Finish_passing e id s sent fin Hpa) as (p1 & E1 & Hpa1 & Ha1).
  destruct (Get_passing e id _ _ _ Hpa1) as (new & p2 & E2 & Hpa2 & Ha2 & Hid & Hlen & Hsz & Hne). simpl in *.
  unfold ProcessResponse. change (Cmd.process (t_cmd _)) with true. simpl. rewrite E1. simpl. rewrite E2, <- Ha1.
  destruct new as [|a [|? ?]]; [| |simpl in Hlen; lia]; simpl.
  - eexists _, [], []. split; [done|]. rewrite app_nil_r in Ha2. split_and!; try done; try (by destruct s). by rewrite app_nil_r.
  - rewrite Forall_singleton in Hsz. destruct (send_part _ _ _ a id Hpa2) as (t & Et & Hc); [simpl; rewrite Ha2; set_solver|done|].
    simpl in Et. rewrite Et. simpl. eexists _, _, [a]. split; [done|]. split_and!; try done; try (by destruct s).
    constructor; [exact Hc|constructor].
Qed.

Lemma answers_run rs : forall s out sent fin, passing s (concat sent) fin -> Forall2 (carries s) out sent ->
  exists s' out' sent' fin', foldM answer rs (s, out) = Ok (s', out') /\ passing s' (concat sent') fin' /\
    Forall2 (carries s) out' sent' /\ with_pool s' s.(pool_) = s.
Proof.
  induction rs as [|[e id] rs IH]; intros s out sent fin Hpa Hc; cbn [foldM].
  { eexists _, _, _, _. split; [done|]. split; [done|]. split; [done|]. by destruct s. }
  destruct (response_step e id s _ fin Hpa) as (s1 & o & new & E & Hpa1 & Hc1 & Hw & _). 
  assert (answer (s, out) (e, id) = Ok (s1, out ++ o)) as -> by (unfold answer; cbn [fst snd]; by rewrite E).
  cbn [mbind outcome_bind].
  assert (forall t ps, carries s1 t ps <-> carries s t ps) as Hcs.
  { intros t ps. unfold carries. rewrite <- Hw. done. }
  destruct (IH s1 (out ++ o) (sent ++ map (fun a => [part a]) new) (finish_all fin (filter (fun a => a.(a_node) = id) s.(pool_).(assigned_))))
    as (s' & out' & sent' & fin' & E' & Hpa' & Hc' & Hw').
  - rewrite concat_app. replace (concat (map (fun a => [part a]) new)) with (map part new); [done|].
    clear. induction new; simpl; congruence.
  - apply Forall2_app; eapply Forall2_impl; try done; intros; by apply Hcs.
  - exists s', out', sent', fin'. split; [done|]. split; [done|]. split.
    + eapply Forall2_impl; [exact Hc'|]. intros; by apply Hcs.
    + rewrite <- Hw at 2. rewrite <- Hw'. by destruct s'.
Qed.

(** One worker that answers alone: each answer finishes a part, until all are. *)
Lemma answers_one id rs : forall s out sent fin n, Forall (fun r => r.2 = id) rs ->
  passing s sent fin -> Forall (fun a => a.(a_node) = id) s.(pool_).(assigned_) ->
  size everything `min` n <= length sent -> size everything `min` pred n <= length fin ->
  exists s' out' sent' fin', foldM answer rs (s, out) = Ok (s', out') /\ passing s' sent' fin' /\
    size everything `min` pred (n + length rs) <= length fin'.
Proof.
  induction rs as [|[e id'] rs IH]; intros s out sent fin n Hid Hpa Has Hs Hf; cbn [foldM].
  { eexists _, _, _, _. split; [done|]. split; [done|]. simpl. by rewrite Nat.add_0_r. }
  apply Forall_cons in Hid as [Heq Hid]. simpl in Heq. subst id'.
  destruct (response_step e id s _ fin Hpa) as (s1 & o & new & E & Hpa1 & _ & _ & Ha1 & Hnew & Hne).
  assert (answer (s, out) (e, id) = Ok (s1, out ++ o)) as -> by (unfold answer; cbn [fst snd]; by rewrite E).
  cbn [mbind outcome_bind].
  assert (filter (fun a => a.(a_node) <> id) (assigned_ (pool_ s)) = []) as Hnone.
  { apply filter_none. eapply Forall_impl; [exact Has|]. by intros a Ha Hn. }
  rewrite (filter_all (fun a => a.(a_node) = id)) in * by done. rewrite Hnone in *. simpl in Ha1.
  pose proof (pa_sent _ _ _ Hpa) as Hp. apply Permutation_length in Hp. rewrite length_app, length_map in Hp.
  edestruct (IH s1 (out ++ o) _ _ (S n) Hid Hpa1) as (s' & out' & sent' & fin' & E' & Hpa' & Hl).
  - by rewrite Ha1.
  - rewrite length_app, length_map. destruct (decide (size everything <= length sent)); [lia|].
    destruct new; simpl; [|lia]. exfalso.
    pose proof (pa_live _ _ _ Hpa1) as [_ Hcov _].
    destruct (decide (everything ⊆ list_to_set (finish_all fin (assigned_ (pool_ s))))) as [Hsub|Hsub].
    + apply subseteq_size in Hsub. rewrite size_list_to_set, finish_all_length in Hsub by apply Hcov. lia.
    + apply Hsub. intros x Hx. apply elem_of_list_to_set. destruct (decide (x ∈ finish_all fin (assigned_ (pool_ s)))); [done|].
      exfalso. by apply (Hne x Hx n1 ltac:(by intros ?%elem_of_nil)).
  - rewrite finish_all_length. simpl. lia.
  - exists s', out', sent', fin'. split; [done|]. split; [done|]. simpl. by rewrite Nat.add_succ_r.
Qed.

(** A configuration that starts a pass over the files [files]. *)
Record configured (s : DataParScheduler (D := D)) : Prop := {
  co_match : MatchFile s.(data_filename_) = files;
  co_parts : s.(num_parts_per_file_) = npart;
  co_central : s.(use_worker_local_data_) = false;
  co_num : s.(pool_).(num_file_per_wl_) = 1;
  co_npart : 0 < npart /\ (Z.of_nat npart < 2 ^ 31)%Z;
  co_names : Forall Workload.string_ok files /\ Workload.string_ok s.(data_format_);
  co_pass : Workload.int32 s.(workload_).(Workload.data_pass) /\ Workload.int32 junk_pass
}.

Lemma start_passing s :
  configured s ->
  exists s' t, StartDispatch MatchFile junk_type junk_pass order [] s = Ok (s', [(t, kWorkerGroup)]) /\
    ProcessRequest MatchFile junk_type junk_pass t = Ok Ignored /\ response_of t Ignored = mkMsgTask (Cmd.set_process 0) [] /\
    passing s' [] [] /\ s'.(pool_).(assigned_) = [] /\ with_pool s' s.(pool_) = s.
Proof.
  intros [Hm Hnp Hc Hn [Hn0 Hn1] Hnm [Hp Hj]]. unfold StartDispatch.
  cbn [with_pool use_worker_local_data_ data_filename_ num_parts_per_file_ pool_]. rewrite Hc. unfold Match. rewrite Hm, Hnp.
  destruct (Add_fresh order order_perm npart "" (map (fun f => Workload.mkFile f (Workload.format Workload.File_default) (Workload.n Workload.File_default)
    (Workload.k Workload.File_default)) files) [] (Clear s.(pool_)) Hn0) as (p & E & Hf & Hi & Hw).
  { split; simpl; try done. intros f. rewrite lookup_empty. split; [by intros [? ?]|]. intros [id Hid]. by apply elem_of_nil in Hid. }
  rewrite E. cbn [mbind outcome_bind].
  destruct (ProcessRequest_empty MatchFile junk_type junk_pass junk_type junk_pass kWorkerGroup Hj) as (t & Et & Hr & _).
  assert (t_cmd t = Cmd.set_process 0) as Hcmd.
  { unfold SendWorkload in Et. destruct (Workload.Save _ _) as [ss|]; [|done]. by injection Et as <-. }
  unfold new_workload. rewrite Et. cbn [mbind outcome_bind]. eexists _, t. split; [reflexivity|]. split; [done|].
  split; [unfold response_of, Reply; by rewrite Hcmd|].
  simpl in Hf. rewrite map_map in Hf. simpl in Hf. split_and!.
  - split; simpl; try done; [by eapply fresh_live|by eapply fresh_tracks|simpl in Hw; congruence|by rewrite (fr_assigned _ _ _ Hf)].
  - apply Hf.
  - by destruct s.
Qed.

(** What is on the way has not finished. *)
Lemma on_the_way s sent fin a : passing s sent fin -> a ∈ s.(pool_).(assigned_) -> part a ∈ everything /\ part a ∉ fin.
Proof.
  intros Hpa Ha. split; [by eapply live_assigned; [apply Hpa|]|]. destruct (pa_live _ _ _ Hpa) as [Hag Hcov _].
  destruct (cov_task _ _ _ _ _ Hcov a Ha) as [t Ht].
  destruct (cov_table _ _ _ _ _ Hcov _ _ _ _ Ht (agree_one _ _ Hag _ _ Ha Ht)) as [_ Hf2]. intros ?%Hf2. done.
Qed.

Lemma passing_sent s sent fin : passing s sent fin ->
  NoDup sent /\ (forall x, x ∈ sent -> x ∈ everything) /\ (Sched_IsFinished s = true -> sent ≡ₚ elements everything).
Proof.
  intros Hpa. pose proof (pa_live _ _ _ Hpa) as Hl. pose proof Hl as [Hag Hcov _].
  assert (forall x, x ∈ map part (assigned_ (pool_ s)) -> x ∈ everything /\ x ∉ fin) as Hway.
  { intros x Hx. apply list_elem_of_In, in_map_iff in Hx as (a & <- & Hin%list_elem_of_In). by eapply on_the_way. }
  split_and!.
  - rewrite (pa_sent _ _ _ Hpa). apply NoDup_app. split_and!; [apply Hcov| |apply Hag].
    intros x Hx Hw2. by apply Hway in Hw2 as [_ ?].
  - intros x Hx. rewrite (pa_sent _ _ _ Hpa) in Hx. apply elem_of_app in Hx as [Hx|Hx]; [destruct x; by apply Hcov|by apply Hway].
  - intros Hf. eapply live_finished in Hf; [|exact Hl|exact (pa_inited _ _ _ Hpa)]. rewrite (pa_sent _ _ _ Hpa).
    destruct (assigned_ (pool_ s)) as [|a l] eqn:El; [by rewrite app_nil_r|]. exfalso.
    destruct (Hway (part a)) as [Hall Hnf]; [apply list_elem_of_here|]. apply Hnf. rewrite Hf. by apply elem_of_elements.
Qed.

Lemma passing_done s sent fin : passing s sent fin -> size everything <= length fin -> Sched_IsFinished s = true.
Proof.
  intros Hpa Hlen. pose proof (pa_live _ _ _ Hpa) as Hl. destruct Hl as [_ Hcov _].
  eapply live_finished; [exact (pa_live _ _ _ Hpa)|exact (pa_inited _ _ _ Hpa)|].
  apply submseteq_length_Permutation; [|by change (length (elements ?X)) with (size X)].
  apply NoDup_submseteq; [apply Hcov|]. intros [f k] Hin. apply elem_of_elements. by apply Hcov.
Qed.


End Pass.

(** ** A concrete pass: one file in two parts, and two workers *)
Definition pass_demo : DataParScheduler (D := SpecFloat.spec_float) :=
  mkSched "data/part.*" "libsvm" 2 false (Workload.mk Workload.TRAIN 3 []) demo_pool.
Definition pass_env : env (D := SpecFloat.spec_float) :=
  mkEnv (fun _ => 0) (fun _ => SpecFloat.S754_zero false) (fun _ => SpecFloat.S754_zero false).
Definition pass_match (_ : string) : list string := ["data/part-0"].

