(* ===== verification/Solver.v ===== *)
(** * Passes over the data and saved models

    Models src/src/solver/iter_solver.h and the scheduler of
    src/src/solver/minibatch_solver.h: the loop over the passes with its periodic
    and final saves, the poll loop of one pass, and the servers that save and
    load the model under a name made from the iteration and their rank.  What a
    derived scheduler overrides is the record [Hooks]. *)
From S2P Require Import Prelude Floats Stream Workload WorkloadPool DataParallel.
From stdpp Require Import pretty.
From Stdlib Require Import Ascii.
Local Open Scope list_scope.
#[local] Existing Instance Workload.Type_eq_dec.

(** ** [IterScheduler] and [IterServer] *)

(** [LoadModel(filename, iter)] and [SaveModel(filename, iter)] of the
    scheduler: the request that is submitted. *)
Definition LoadModel (filename : string) (iter : Z) : Task * string :=
  (mkMsgTask (Cmd.set_iter iter (Cmd.set_load_model 0)) (String.list_byte_of_string filename), kServerGroup).
Definition SaveModel (filename : string) (iter : Z) : Task * string :=
  (mkMsgTask (Cmd.set_iter iter (Cmd.set_save_model 0)) (String.list_byte_of_string filename), kServerGroup).

(** [std::to_string] *)
Definition to_string (z : Z) : string := pretty z.

(** [ModelName(base, iter)] on the server of rank [rank]. *)
Definition ModelName (rank : nat) (base : string) (iter : Z) : string :=
  let name := if (0 <=? iter)%Z then (base +:+ "_iter-" +:+ to_string iter) else base in
  name +:+ "_part-" +:+ to_string (Z.of_nat rank).

(** What a server implements: the bytes it saves and the state it loads. *)
Class IterServer (M : Type) := {
  save_bytes : M -> outcome (list byte);
  load_bytes : M -> list byte -> outcome M
}.

(** [IterServer::ProcessRequest(request)]; [fs] are the files. *)
Definition Server_ProcessRequest `{IterServer M} (rank : nat) (request : Task) (st : gmap string (list byte) * M)
  : outcome (gmap string (list byte) * M) :=
  let '(fs, s) := st in
  if bool_decide (length request.(t_msg) = 0) then Ok (fs, s) else
  let filename := ModelName rank (String.string_of_list_byte request.(t_msg)) (Cmd.iter request.(t_cmd)) in
  if Cmd.save_model request.(t_cmd) then
    b ← save_bytes s; Ok (<[filename := b]> fs, s)
  else if Cmd.load_model request.(t_cmd) then
    match fs !! filename with
    | None => Fail CheckFailed
    | Some b => s ← load_bytes s b; Ok (fs, s)
    end
  else Ok (fs, s).

(** [in.find_last_of("/\\")] and the rest of the name after it. *)
Definition is_separator (c : Ascii.ascii) : bool := bool_decide (c = "/"%char) || bool_decide (c = "\"%char).
Fixpoint base_name (s : string) : string :=
  match s with
  | EmptyString => EmptyString
  | String c r =>
      if existsb is_separator (String.list_ascii_of_string r) then base_name r
      else if is_separator c then r else s
  end.

(** [PredictStream(filename, wl)] of the worker: the file the predictions are
    appended to; a new name truncates the file. *)
Definition PredictStream (filename : string) (wl : Workload.t) (prev_out_ : string) (fs : gmap string (list byte))
  : outcome (string * gmap string (list byte)) :=
  _ ← check (bool_decide (wl.(Workload.type) = Workload.PRED));
  _ ← check (bool_decide (1 <= length wl.(Workload.file)));
  f0 ← read_at wl.(Workload.file) 0;
  let out := filename +:+ base_name f0.(Workload.filename) +:+ "_part-" +:+ to_string f0.(Workload.k) in
  if bool_decide (out = prev_out_) then Ok (out, fs) else Ok (out, <[out := []]> fs).

(** ** [MinibatchScheduler] *)

Section Scheduler.
Context {D : Type} `{HD : !Float D}.
Context (MatchFile : string -> list string) (junk_type : Workload.Type_) (junk_pass : Z).
Context (order : gmap string WorkloadPool.Task -> list (string * WorkloadPool.Task)).

(** [Progress]: what [monitor_.Get] returns. *)
Definition Progress : Type := list D.

(** The virtual methods, on the state [St] of the derived scheduler: [Stop], and
    the values [ProgString] prints, none for the empty string. *)
Record Hooks (St : Type) := mkHooks { Stop : St -> Progress -> bool -> St * bool; ProgString : St -> Progress -> St * list D }.
Arguments Stop {St}.
Arguments ProgString {St}.

(** [MinibatchScheduler::Stop(prog, train)], when it is not overridden. *)
Definition base_Stop {St} (st : St) (prog : Progress) (train : bool) : St * bool := (st, false).

Context {St : Type} (hooks : Hooks St).

(** [class MinibatchScheduler] *)
Record MinibatchScheduler := mkMS {
  train_data_ : string; val_data_ : string; model_in_ : string; load_iter_ : Z; model_out_ : string; save_iter_ : Z;
  max_data_pass_ : Z; predict_out_ : string; par_ : DataParScheduler (D := D); derived : St }.

Definition with_par (s : MinibatchScheduler) (p : DataParScheduler) : MinibatchScheduler :=
  mkMS s.(train_data_) s.(val_data_) s.(model_in_) s.(load_iter_) s.(model_out_) s.(save_iter_) s.(max_data_pass_)
    s.(predict_out_) p s.(derived).
Definition with_derived (s : MinibatchScheduler) (st : St) : MinibatchScheduler :=
  mkMS s.(train_data_) s.(val_data_) s.(model_in_) s.(load_iter_) s.(model_out_) s.(save_iter_) s.(max_data_pass_)
    s.(predict_out_) s.(par_) st.

(** What happens to the scheduler: messages it submits, and passes it begins. *)
Inductive event := Submitted (m : Task * string) | Began (iter : Z) (type : Workload.Type_).

(** What reaches the scheduler while it waits: responses and node failures. *)
Inductive arrival := Response (e : env (D := D)) (sender : string) (t : Task) | Died (e : env (D := D)) (id : string).

Definition arrive (so : MinibatchScheduler * list event) (a : arrival) : outcome (MinibatchScheduler * list event) :=
  match a with
  | Response e sender t =>
      '(p, out) ← ProcessResponse junk_type junk_pass order e sender t so.1.(par_);
      Ok (with_par so.1 p, so.2 ++ map Submitted out)
  | Died e id => p ← NodeFailure e id so.1.(par_); Ok (with_par so.1 p, so.2)
  end.

(** One turn of the poll loop: what arrives while the scheduler sleeps and looks
    at the progress, the progress, and what arrives after that. *)
Record poll := mkPoll { sleeping : list arrival; progress : Progress; after : list arrival }.

(** What comes from outside in a pass: the responses to the question about local
    files, the polls, and the progress after the last of them. *)
Record pass_input := mkPassInput { locals : list (env (D := D) * string * Task); polls : list poll; final : Progress }.

(** [ShowProgress(is_train)] *)
Definition ShowProgress (is_train : bool) (prog : Progress) (s : MinibatchScheduler) : MinibatchScheduler * bool :=
  let '(st, disp) := ProgString hooks s.(derived) prog in
  if bool_decide (length disp = 0) then (with_derived s st, false) else
  let '(st, stop) := Stop hooks st prog is_train in
  (with_derived s st, stop).

(** The poll loop of [Iterate]; [None] when what is known of the outside ends
    before the pass does. *)
Fixpoint poll_loop (is_train : bool) (ps : list poll) (stop : bool) (s : MinibatchScheduler)
  : outcome (option (bool * MinibatchScheduler * list event)) :=
  if Sched_IsFinished s.(par_) then Ok (Some (stop, s, [])) else
  match ps with
  | [] => Ok None
  | p :: ps =>
      '(s, ev1) ← foldM arrive p.(sleeping) (s, []);
      let '(s, stop) := if is_train then
          let '(s, stop) := ShowProgress is_train p.(progress) s in
          ((if stop then with_par s (StopDispatch s.(par_)) else s), stop)
        else (s, stop) in
      '(s, ev2) ← foldM arrive p.(after) (s, []);
      r ← poll_loop is_train ps stop s;
      Ok (match r with None => None | Some (stop, s, ev3) => Some (stop, s, ev1 ++ ev2 ++ ev3) end)
  end.

(** [Iterate(iter, type)] *)
Definition Iterate (iter : Z) (type : Workload.Type_) (s : MinibatchScheduler) (inputs : list pass_input)
  : outcome (option (bool * MinibatchScheduler * list event * list pass_input)) :=
  let is_train := bool_decide (type = Workload.TRAIN) in
  let data := if is_train then s.(train_data_) else s.(val_data_) in
  let p := s.(par_) in
  let p := mkSched data p.(data_format_) p.(num_parts_per_file_) p.(use_worker_local_data_) p.(workload_) p.(pool_) in
  if bool_decide (type = Workload.VAL) && bool_decide (data = "") then Ok (Some (false, with_par s p, [], inputs)) else
  let w := Workload.mk type iter p.(workload_).(Workload.file) in
  let p := mkSched data p.(data_format_) p.(num_parts_per_file_) p.(use_worker_local_data_) w p.(pool_) in
  match inputs with
  | [] => Ok None
  | i :: inputs =>
      '(p, out) ← StartDispatch MatchFile junk_type junk_pass order i.(locals) p;
      r ← poll_loop is_train i.(polls) false (with_par s p);
      Ok (match r with
          | None => None
          | Some (stop, s, ev) =>
              let '(s, stop) := if is_train then (s, stop) else ShowProgress is_train i.(final) s in
              Some (stop, s, Began iter type :: map Submitted out ++ ev, inputs)
          end)
  end.

(** The loop over the passes of [Run], from pass [cur_iter], of which [n] are
    left. *)
Fixpoint passes (n : nat) (cur_iter : Z) (s : MinibatchScheduler) (inputs : list pass_input)
  : outcome (option (MinibatchScheduler * list event)) :=
  match n with
  | 0 => Ok (Some (s, []))
  | S n =>
      r ← Iterate cur_iter Workload.TRAIN s inputs;
      match r with
      | None => Ok None
      | Some (true, s, ev1, inputs) => Ok (Some (s, ev1))
      | Some (false, s, ev1, inputs) =>
          r ← Iterate cur_iter Workload.VAL s inputs;
          match r with
          | None => Ok None
          | Some (true, s, ev2, inputs) => Ok (Some (s, ev1 ++ ev2))
          | Some (false, s, ev2, inputs) =>
              if (cur_iter =? s.(max_data_pass_) - 1)%Z then Ok (Some (s, ev1 ++ ev2)) else
              let ev3 := if negb (bool_decide (s.(model_out_) = "")) && (0 <? s.(save_iter_))%Z &&
                            (Z.rem (cur_iter + 1) s.(save_iter_) =? 0)%Z
                         then [Submitted (SaveModel s.(model_out_) cur_iter)] else [] in
              r ← passes n (cur_iter + 1) s inputs;
              Ok (match r with None => None | Some (s, ev4) => Some (s, ev1 ++ ev2 ++ ev3 ++ ev4) end)
          end
      end
  end.

(** [Run()] *)
Definition Run (s : MinibatchScheduler) (inputs : list pass_input) : outcome (option (MinibatchScheduler * list event)) :=
  let is_predict := negb (bool_decide (s.(predict_out_) = "")) in
  _ ← (if is_predict then check (negb (bool_decide (s.(model_in_) = ""))) else Ok tt);
  let loading := negb (bool_decide (s.(model_in_) = "")) in
  let load := (if (0 <? s.(load_iter_))%Z then s.(load_iter_) else -1)%Z in
  let cur_iter := (if loading then load + 1 else 0)%Z in
  let ev0 := if loading then [Submitted (LoadModel s.(model_in_) load)] else [] in
  if is_predict then
    r ← Iterate (cur_iter - 1) Workload.PRED s inputs;
    Ok (match r with None => None | Some (_, s, ev, _) => Some (s, ev0 ++ ev) end)
  else
    r ← passes (Z.to_nat (s.(max_data_pass_) - cur_iter)) cur_iter s inputs;
    Ok (match r with
        | None => None
        | Some (s, ev) =>
            Some (s, ev0 ++ ev ++ (if negb (bool_decide (s.(model_out_) = ""))
                                   then [Submitted (SaveModel s.(model_out_) (-1))] else []))
        end).

End Scheduler.

Arguments mkHooks {D St}.
Arguments Stop {D St}.
Arguments ProgString {D St}.

(** ** Names of models *)

Section Names.

Definition is_digit (c : Ascii.ascii) : Prop := Ascii.nat_of_ascii c < 95.

Lemma pretty_N_digits x s :
  Forall is_digit (String.list_ascii_of_string s) -> Forall is_digit (String.list_ascii_of_string (pretty_N_go x s)).
Proof.
  revert s. induction (N.lt_wf_0 x) as [x _ IH]. intros s Hs. destruct (decide (x = 0)%N) as [->|Hx].
  { by rewrite pretty_N_go_0. }
  rewrite pretty_N_go_step by lia. apply IH; [apply N.div_lt; lia|]. simpl. constructor; [|done].
  unfold pretty_N_char, is_digit. repeat case_match; vm_compute; lia.
Qed.

Lemma to_string_digits z : (0 <= z)%Z -> Forall is_digit (String.list_ascii_of_string (to_string z)).
Proof.
  intros Hz. unfold to_string, pretty, pretty_Z. destruct z as [|p|p]; [..|lia].
  - vm_compute. repeat constructor.
  - change (pretty p) with (pretty_N_go (N.pos p) "").
    apply pretty_N_digits. constructor.
Qed.

Lemma append_assoc (a b c : string) : (a +:+ b) +:+ c = a +:+ (b +:+ c).
Proof. induction a as [|x a IH]; [done|]. exact (f_equal (String x) IH). Qed.

(** Digits end where an underscore follows. *)
Lemma split_digits a b r s :
  Forall is_digit (String.list_ascii_of_string a) -> Forall is_digit (String.list_ascii_of_string b) ->
  a +:+ String "_" r = b +:+ String "_" s -> a = b /\ r = s.
Proof.
  revert b. induction a as [|x a IH]; intros [|y b] Ha Hb E; cbn in E.
  - by injection E as ->.
  - injection E as <- _. apply Forall_inv in Hb. unfold is_digit in Hb. vm_compute in Hb. lia.
  - injection E as -> _. apply Forall_inv in Ha. unfold is_digit in Ha. vm_compute in Ha. lia.
  - injection E as -> E. apply Forall_inv_tail in Ha, Hb. by destruct (IH b Ha Hb E) as [-> ->].
Qed.

(** Two models of the same base name have different names. *)
Lemma ModelName_inj base r i r' i' :
  (-1 <= i)%Z -> (-1 <= i')%Z -> ModelName r base i = ModelName r' base i' -> r = r' /\ i = i'.
Proof.
  intros Hi Hi' E. unfold ModelName in E.
  assert (forall z z', to_string z = to_string z' -> z = z') as Hinj by (intros z z' Hz; by apply (inj pretty) in Hz).
  destruct (0 <=? i)%Z eqn:E1, (0 <=? i')%Z eqn:E2; rewrite ?append_assoc in E; apply (inj (String.append base)) in E;
    cbn in E; try (by injection E).
  - injection E as E. apply split_digits in E as [E3 E4]; [|apply to_string_digits; lia..].
    injection E4 as E4. apply Hinj in E3, E4. lia.
  - injection E as E. apply Hinj in E. lia.
Qed.

End Names.

(** ** Saving and loading *)

Section Models.
Context `{IterServer M}.

Lemma string_bytes s : String.string_of_list_byte (String.list_byte_of_string s) = s.
Proof. apply String.string_of_list_byte_of_string. Qed.

Lemma iter_decoded (i : Z) c : c = Cmd.set_save_model 0 \/ c = Cmd.set_load_model 0 ->
  (-1 <= i < 2 ^ 15 - 1)%Z -> Cmd.iter (Cmd.set_iter i c) = i /\
  Cmd.save_model (Cmd.set_iter i c) = Cmd.save_model c /\ Cmd.load_model (Cmd.set_iter i c) = Cmd.load_model c.
Proof.
  intros Hc Hi. unfold Cmd.save_model, Cmd.load_model. rewrite !land_set_iter by lia.
  split; [|done]. by destruct Hc as [-> | ->]; rewrite iter_set_iter by done.
Qed.

Lemma Server_save rank base i fs m b :
  base <> "" -> (-1 <= i < 2 ^ 15 - 1)%Z -> save_bytes m = Ok b ->
  Server_ProcessRequest rank (SaveModel base i).1 (fs, m) = Ok (<[ModelName rank base i := b]> fs, m).
Proof.
  intros Hb Hi Hs. unfold Server_ProcessRequest, SaveModel. cbn [fst t_msg t_cmd].
  rewrite bool_decide_eq_false_2 by by destruct base. rewrite string_bytes.
  destruct (iter_decoded i (Cmd.set_save_model 0)) as (-> & -> & _); [by left|done|].
  change (Cmd.save_model (Cmd.set_save_model 0)) with true. by rewrite Hs.
Qed.

Lemma Server_load rank base i fs m b :
  base <> "" -> (-1 <= i < 2 ^ 15 - 1)%Z -> fs !! ModelName rank base i = Some b ->
  Server_ProcessRequest rank (LoadModel base i).1 (fs, m) = (m' ← load_bytes m b; Ok (fs, m')).
Proof.
  intros Hb Hi Hs. unfold Server_ProcessRequest, LoadModel. cbn [fst t_msg t_cmd].
  rewrite bool_decide_eq_false_2 by by destruct base. rewrite string_bytes.
  destruct (iter_decoded i (Cmd.set_load_model 0)) as (-> & -> & ->); [by right|done|].
  change (Cmd.save_model (Cmd.set_load_model 0)) with false.
  change (Cmd.load_model (Cmd.set_load_model 0)) with true. by rewrite Hs.
Qed.

(** The servers save, one request after the other: rank, iteration and model of
    each. *)
Definition save_all (base : string) (fs : gmap string (list byte)) (reqs : list (nat * Z * M))
  : outcome (gmap string (list byte)) :=
  foldM (fun fs (q : nat * Z * M) =>
    '(fs, _) ← Server_ProcessRequest q.1.1 (SaveModel base q.1.2).1 (fs, q.2); Ok fs) reqs fs.

(** C31: a server that is asked to load the model of an iteration gets the bytes
    that the server of the same rank saved last for that iteration, whatever
    other ranks and iterations were saved under the same base name. *)
Theorem load_what_was_saved base fs before rank i m b later m0 :
  base <> "" -> (-1 <= i < 2 ^ 15 - 1)%Z -> save_bytes m = Ok b ->
  Forall (fun q => (-1 <= q.1.2 < 2 ^ 15 - 1)%Z /\ exists bs, save_bytes q.2 = Ok bs) (before ++ later) ->
  Forall (fun q => q.1 <> (rank, i)) later ->
  exists fs', save_all base fs (before ++ (rank, i, m) :: later) = Ok fs' /\
    Server_ProcessRequest rank (LoadModel base i).1 (fs', m0) = (m' ← load_bytes m0 b; Ok (fs', m')).
Proof.
  intros Hb Hi Hm [Hbef Hlat]%Forall_app Hne. unfold save_all.
  assert (forall l fs, Forall (fun q => (-1 <= q.1.2 < 2 ^ 15 - 1)%Z /\ exists bs, save_bytes q.2 = Ok bs) l ->
    exists fs', save_all base fs l = Ok fs' /\ (Forall (fun q => q.1 <> (rank, i)) l ->
      fs' !! ModelName rank base i = fs !! ModelName rank base i)) as Hsave.
  { clear -Hb Hi. induction l as [|[[r j] q] l IH]; intros fs Hl; [by exists fs|].
    apply Forall_cons in Hl as [[Hj [bs Hbs]] Hl]. cbn [fst snd] in *. unfold save_all. cbn [foldM fst snd].
    rewrite (Server_save r base j fs q bs) by done. cbn [mbind outcome_bind].
    destruct (IH (<[ModelName r base j := bs]> fs) Hl) as (fs' & E & Hsame). exists fs'. split; [exact E|].
    intros [Hn Hl']%Forall_cons. rewrite Hsame by done. apply lookup_insert_ne. intros Hname. apply Hn. cbn.
    apply ModelName_inj in Hname as [-> ->]; [done|lia..]. }
  destruct (Hsave before fs Hbef) as (fs1 & E1 & _). destruct (Hsave later (<[ModelName rank base i := b]> fs1) Hlat) as (fs2 & E2 & H2).
  exists fs2. rewrite foldM_app. unfold save_all in E1, E2. rewrite E1. cbn [mbind outcome_bind foldM fst snd].
  rewrite (Server_save rank base i fs1 m b) by done. split; [exact E2|]. apply Server_load; [done..|].
  by rewrite H2, lookup_insert_eq by done.
Qed.

End Models.

(** ** The schedule of a run *)

Section Schedule.
Context {D : Type} `{HD : !Float D}.
Context (MatchFile : string -> list string) (junk_type : Workload.Type_) (junk_pass : Z).
Context (order : gmap string WorkloadPool.Task -> list (string * WorkloadPool.Task)).
Context {St : Type} (hooks : Hooks (D := D) St).
Implicit Types (s : MinibatchScheduler (D := D) (St := St)).

(** The events but for the messages that carry workloads. *)
Definition control (e : event) : Prop :=
  match e with Submitted m => Cmd.process m.1.(t_cmd) = false | Began _ _ => True end.

#[global] Instance control_dec e : Decision (control e).
Proof. destruct e; simpl; apply _. Defined.

Lemma SendWorkload_process id wl m : SendWorkload id wl = Ok m -> ~ control (Submitted m).
Proof.
  unfold SendWorkload. destruct (Workload.Save _ _) as [ss|]; [|done]. intros E. injection E as <-. simpl. done.
Qed.

Lemma ProcessResponse_control e sender t p p' out :
  ProcessResponse junk_type junk_pass order e sender t p = Ok (p', out) -> filter control (map Submitted out) = [].
Proof.
  unfold ProcessResponse. intros E. destruct (negb _); [by injection E as <- <-|].
  destruct (negb _).
  - destruct (check _) as [[]|]; [|done]. simpl in E. destruct (Workload.Load _ _) as [[wl ?]|]; [|done]. simpl in E.
    destruct (WorkloadPool.Add _ _ _ _); [|done]. by injection E as <- <-.
  - destruct (WorkloadPool.Finish _ _ _) as [p1|]; [|done]. cbn [mbind outcome_bind] in E. destruct (WorkloadPool.Get _ _ _ _ _) as [files p2].
    destruct (Workload.Empty _); [by injection E as <- <-|].
    destruct (read_at _ _); [|done]. cbn [mbind outcome_bind] in E. destruct (write_at _ _ _) as [fs|]; [|done]. cbn [mbind outcome_bind] in E.
    destruct (SendWorkload _ _) as [m|] eqn:Em; [|done]. cbn [mbind outcome_bind] in E. injection E as <- <-.
    apply SendWorkload_process in Em. cbn [map]. by rewrite filter_cons_False, filter_nil.
Qed.

Lemma StartDispatch_control locals p p' out :
  StartDispatch MatchFile junk_type junk_pass order locals p = Ok (p', out) -> filter control (map Submitted out) = [].
Proof.
  unfold StartDispatch. intros E.
  destruct (if use_worker_local_data_ _ then _ else _) as [[p1 out1]|] eqn:E1; [|done]. cbn [mbind outcome_bind] in E.
  destruct (SendWorkload kWorkerGroup (new_workload junk_type junk_pass [])) as [m|] eqn:Em; [|done]. cbn [mbind outcome_bind] in E. injection E as <- <-.
  apply SendWorkload_process in Em. rewrite map_app, filter_app. cbn [map]. rewrite filter_cons_False, filter_nil, app_nil_r by done.
  clear m Em. destruct (use_worker_local_data_ _).
  - destruct (SendWorkload _ _) as [m|] eqn:Em; [|done]. cbn [mbind outcome_bind] in E1. apply SendWorkload_process in Em.
    destruct (foldM _ _ _) as [[p2 out2]|] eqn:E2; [|done]. cbn [mbind outcome_bind] in E1. injection E1 as _ <-.
    cbn [map]. rewrite filter_cons_False by done.
    eapply (foldM_inv _ (fun so : DataParScheduler * list (Task * string) => filter control (map Submitted so.2) = []))
      in E2; [exact E2|done|].
    intros [p3 o3] [[e sd] t] [p4 o4] Hx _ E3. cbn [fst snd] in *.
    destruct (ProcessResponse _ _ _ _ _ _ _) as [[p5 o5]|] eqn:E5; [|done]. cbn [mbind outcome_bind] in E3. injection E3 as <- <-.
    apply ProcessResponse_control in E5. by rewrite map_app, filter_app, Hx, E5.
  - destruct (WorkloadPool.Add _ _ _ _); [|done]. cbn [mbind outcome_bind] in E1. by injection E1 as _ <-.
Qed.

(** The settings, which a run does not change. *)
Definition settings s : string * string * string * Z * string * Z * Z * string :=
  (s.(train_data_), s.(val_data_), s.(model_in_), s.(load_iter_), s.(model_out_), s.(save_iter_), s.(max_data_pass_), s.(predict_out_)).

Lemma arrive_control l : forall s s' ev ev',
  foldM (arrive junk_type junk_pass order) l (s, ev) = Ok (s', ev') ->
  settings s' = settings s /\ filter control ev' = filter control ev.
Proof.
  induction l as [|a l IH]; intros s s' ev ev' E; cbn [foldM] in E; [by injection E as <- <-|].
  destruct (arrive _ _ _ (s, ev) a) as [[s1 ev1]|] eqn:E1; [|done]. cbn [mbind outcome_bind] in E. apply IH in E as [-> ->].
  destruct a as [e sd t|e id]; cbn [arrive fst snd] in E1.
  - destruct (ProcessResponse _ _ _ _ _ _ _) as [[p out]|] eqn:E2; [|done]. cbn [mbind outcome_bind] in E1. injection E1 as <- <-.
    apply ProcessResponse_control in E2. by rewrite filter_app, E2, app_nil_r.
  - destruct (NodeFailure _ _ _); [|done]. cbn [mbind outcome_bind] in E1. by injection E1 as <- <-.
Qed.

Hypothesis never_stops : forall st prog train, (Stop hooks st prog train).2 = false.

Lemma ShowProgress_goes_on b prog s : settings (ShowProgress hooks b prog s).1 = settings s /\ (ShowProgress hooks b prog s).2 = false.
Proof.
  unfold ShowProgress. destruct (ProgString hooks _ _) as [st disp]. destruct (bool_decide _); [done|].
  pose proof (never_stops st prog b) as Hs. destruct (Stop hooks st prog b) as [st' stop]. simpl in *. by subst.
Qed.

Lemma poll_loop_control b ps : forall s s' stop' ev,
  poll_loop junk_type junk_pass order hooks b ps false s = Ok (Some (stop', s', ev)) ->
  settings s' = settings s /\ stop' = false /\ filter control ev = [].
Proof.
  induction ps as [|p ps IH]; intros s s' stop' ev E; cbn [poll_loop] in E;
    (destruct (Sched_IsFinished _); [by injection E as <- <- <-|]); [done|].
  destruct (foldM _ _ _) as [[s1 ev1]|] eqn:E1; [|done]. cbn [mbind outcome_bind] in E. apply arrive_control in E1 as [S1 C1].
  set (r := if b then _ else _) in E. destruct r as [s2 stop2] eqn:Er.
  assert (settings s2 = settings s1 /\ stop2 = false) as [S2 ->].
  { subst r. destruct b; [|by injection Er as <- <-]. pose proof (ShowProgress_goes_on true (progress p) s1) as [H1 H2].
    destruct (ShowProgress _ _ _ _) as [s3 stop3]. simpl in H1, H2. subst stop3. injection Er as <- <-. done. }
  destruct (foldM _ (after p) _) as [[s3 ev3]|] eqn:E3; [|done]. cbn [mbind outcome_bind] in E. apply arrive_control in E3 as [S3 C3].
  destruct (poll_loop _ _ _ _ _ _ _ _) as [[[[stop4 s4] ev4]|]|] eqn:E4; try done. cbn [mbind outcome_bind] in E.
  injection E as <- <- <-. apply IH in E4 as (S4 & -> & C4). rewrite !filter_app, C1, C3, C4. split; [congruence|done].
Qed.

Lemma Iterate_control i ty s inputs stop s' ev inputs' :
  Iterate MatchFile junk_type junk_pass order hooks i ty s inputs = Ok (Some (stop, s', ev, inputs')) ->
  settings s' = settings s /\ stop = false /\
  filter control ev = if bool_decide (ty = Workload.VAL) && bool_decide (s.(val_data_) = "") then [] else [Began i ty].
Proof.
  unfold Iterate. intros E.
  assert (bool_decide (ty = Workload.VAL) && bool_decide ((if bool_decide (ty = Workload.TRAIN) then train_data_ s else val_data_ s) = "") =
    bool_decide (ty = Workload.VAL) && bool_decide (s.(val_data_) = "")) as Heq by by destruct ty.
  rewrite Heq in E. destruct (_ && _); [by injection E as <- <- <- <-|].
  destruct inputs as [|inp inputs]; [done|]. destruct (StartDispatch _ _ _ _ _ _) as [[p out]|] eqn:E1; [|done].
  cbn [mbind outcome_bind] in E. apply StartDispatch_control in E1.
  destruct (poll_loop _ _ _ _ _ _ _ _) as [[[[stop1 s1] ev1]|]|] eqn:E2; try done. cbn [mbind outcome_bind] in E.
  apply poll_loop_control in E2 as (S2 & -> & C2).
  assert (filter control (Began i ty :: map Submitted out ++ ev1) = [Began i ty]) as HC
    by by rewrite filter_cons_True, filter_app, E1, C2.
  destruct (bool_decide (ty = Workload.TRAIN)).
  - by injection E as <- <- <- <-.
  - pose proof (ShowProgress_goes_on false (final inp) s1) as [H1 H2]. destruct (ShowProgress _ _ _ _) as [s2 stop2].
    simpl in H1, H2. subst stop2. injection E as <- <- <- <-. split; [by rewrite H1, S2|done].
Qed.

(** What pass [i] does: it trains, validates if there is data for it, and saves
    if a save is due and it is not the last pass. *)
Definition pass_events s (i : Z) : list event :=
  [Began i Workload.TRAIN] ++ (if decide (s.(val_data_) = "") then [] else [Began i Workload.VAL]) ++
  (if decide (s.(model_out_) <> "" /\ (0 < s.(save_iter_))%Z /\ Z.rem (i + 1) s.(save_iter_) = 0%Z /\ (i < s.(max_data_pass_) - 1)%Z)
   then [Submitted (SaveModel s.(model_out_) i)] else []).

Lemma pass_events_settings s s' i : settings s = settings s' -> pass_events s i = pass_events s' i.
Proof. unfold settings, pass_events. intros [= _ -> _ _ -> -> -> _]. done. Qed.

Lemma SaveModel_control base i : control (Submitted (SaveModel base i)).
Proof. simpl. unfold Cmd.process. change 1%Z with (Z.shiftl 1 0). by rewrite land_set_iter by lia. Qed.

Lemma LoadModel_control base i : control (Submitted (LoadModel base i)).
Proof. simpl. unfold Cmd.process. change 1%Z with (Z.shiftl 1 0). by rewrite land_set_iter by lia. Qed.

Lemma settings_fields s s' : settings s = settings s' ->
  s.(val_data_) = s'.(val_data_) /\ s.(model_out_) = s'.(model_out_) /\ s.(save_iter_) = s'.(save_iter_) /\
  s.(max_data_pass_) = s'.(max_data_pass_).
Proof. unfold settings. by intros [= _ -> _ _ -> -> -> _]. Qed.

Lemma passes_schedule n : forall cur s inputs s' ev,
  n = Z.to_nat (s.(max_data_pass_) - cur) ->
  passes MatchFile junk_type junk_pass order hooks n cur s inputs = Ok (Some (s', ev)) ->
  settings s' = settings s /\ filter control ev = concat (map (pass_events s) (seqZ cur (s.(max_data_pass_) - cur))).
Proof.
  induction n as [|n IH]; intros cur s inputs s' ev Hn E; cbn [passes] in E.
  { injection E as <- <-. by rewrite seqZ_nil by lia. }
  destruct (Iterate _ _ _ _ _ _ _ _ _) as [[[[[stop1 s1] ev1] in1]|]|] eqn:E1; try done. cbn [mbind outcome_bind] in E.
  apply Iterate_control in E1 as (S1 & -> & C1). rewrite (bool_decide_eq_false_2 (_ = Workload.VAL)) in C1 by done.
  destruct (Iterate _ _ _ _ _ _ _ s1 _) as [[[[[stop2 s2] ev2] in2]|]|] eqn:E2; try done. cbn [mbind outcome_bind] in E.
  apply Iterate_control in E2 as (S2 & -> & C2). rewrite (bool_decide_eq_true_2 (_ = Workload.VAL)) in C2 by done. simpl in C1, C2.
  assert (settings s2 = settings s) as S by congruence. destruct (settings_fields _ _ S1) as (V1 & _).
  destruct (settings_fields _ _ S) as (_ & V2 & V3 & V4). rewrite V1 in C2. rewrite V2, V3, V4 in E.
  rewrite seqZ_cons by lia. cbn [map concat]. unfold pass_events at 1.
  assert (forall l : list event, l ++ [] = l) as Hnil by apply app_nil_r.
  destruct (Z.eqb_spec cur (max_data_pass_ s - 1)) as [Hl|Hl].
  - injection E as <- <-. split; [done|]. rewrite filter_app, C1, C2, seqZ_nil, !Hnil by lia.
    rewrite (decide_False (P := _ /\ _)), Hnil by lia. simpl. repeat case_decide; repeat case_bool_decide; done.
  - destruct (passes _ _ _ _ _ _ _ _ _) as [[[s3 ev3]|]|] eqn:E3; try done. cbn [mbind outcome_bind] in E. injection E as <- <-.
    apply IH in E3 as [S3 C3]; [|rewrite V4; lia]. split; [congruence|]. rewrite !filter_app, C1, C2, C3, V4.
    replace (Z.succ cur) with (cur + 1)%Z by lia. replace (Z.pred (max_data_pass_ s - cur)) with (max_data_pass_ s - (cur + 1))%Z by lia.
    rewrite (map_ext (pass_events s2) (pass_events s)) by (intros; by apply pass_events_settings).
    rewrite <- !app_assoc. f_equal. f_equal; [by repeat case_decide; repeat case_bool_decide|]. f_equal.
    destruct (decide _) as [(H1 & H2 & H3 & H4)|H1].
    + rewrite bool_decide_eq_false_2 by done. apply Z.ltb_lt in H2. rewrite H2, H3. simpl.
      rewrite filter_cons_True by apply SaveModel_control. done.
    + destruct (negb _ && _ && _) eqn:Eb; [|done]. exfalso. apply H1. apply andb_true_iff in Eb as [[Eb1 Eb2]%andb_true_iff Eb3].
      apply negb_true_iff, bool_decide_eq_false in Eb1. split_and!; [done|lia..].
Qed.

(** C25: a training run under schedulers that do not stop early loads the model
    it is given, then makes the passes from the one after the loaded iteration
    to the last in order; each trains and, if there is validation data,
    validates; the model is saved under the number of the pass after every
    [save_iter_] passes except the last, and at the end as the final model. *)
Theorem Run_schedule s inputs s' ev :
  s.(predict_out_) = "" -> Run MatchFile junk_type junk_pass order hooks s inputs = Ok (Some (s', ev)) ->
  let first := if decide (s.(model_in_) = "") then 0%Z else if decide (0 < s.(load_iter_))%Z then (s.(load_iter_) + 1)%Z else 0%Z in
  filter control ev =
    (if decide (s.(model_in_) = "") then []
     else [Submitted (LoadModel s.(model_in_) (if decide (0 < s.(load_iter_))%Z then s.(load_iter_) else -1))]) ++
    concat (map (pass_events s) (seqZ first (s.(max_data_pass_) - first))) ++
    (if decide (s.(model_out_) = "") then [] else [Submitted (SaveModel s.(model_out_) (-1))]).
Proof.
  intros Hp E first. unfold Run in E. rewrite Hp in E. cbn [bool_decide negb decide] in E. simpl in E.
  set (cur := if negb (bool_decide (model_in_ s = "")) then _ else 0%Z) in E.
  assert (cur = first) as ->.
  { subst cur first. case_bool_decide; destruct (decide (model_in_ s = "")); try done; simpl.
    destruct (decide (0 < load_iter_ s)%Z), (Z.ltb_spec 0 (load_iter_ s)); lia. }
  destruct (passes _ _ _ _ _ _ _ _ _) as [[[s1 ev1]|]|] eqn:E1; try done. cbn [mbind outcome_bind] in E. injection E as <- <-.
  apply passes_schedule in E1 as [S1 C1]; [|done]. destruct (settings_fields _ _ S1) as (_ & V2 & _). rewrite V2, !filter_app, C1.
  f_equal; [|f_equal].
  - case_bool_decide; destruct (decide (model_in_ s = "")); try done. simpl negb. cbn match.
    rewrite filter_cons_True by apply LoadModel_control. rewrite filter_nil.
    by destruct (decide (0 < load_iter_ s)%Z), (Z.ltb_spec 0 (load_iter_ s)); try lia.
  - case_bool_decide; destruct (decide (model_out_ s = "")); try done.
Qed.

End Schedule.

(** ** A run that completes *)

Section Completes.
Context {D : Type} `{HD : !Float D}.
Context (MatchFile : string -> list string) (junk_type : Workload.Type_) (junk_pass : Z).
Context (order : gmap string WorkloadPool.Task -> list (string * WorkloadPool.Task)).
Hypothesis order_perm : forall m, order m ≡ₚ map_to_list m.
Context {St : Type} (hooks : Hooks (D := D) St).
Hypothesis never_stops : forall st prog train, (Stop hooks st prog train).2 = false.
Implicit Types (s : MinibatchScheduler (D := D) (St := St)).

(** The answer of a worker that finished what it had. *)
Definition finished_task : Task := mkMsgTask (Cmd.set_process 0) [].

Lemma arrive_answers s rs : forall p p' out out' ev,
  foldM (answer junk_type junk_pass order) rs (p, out) = Ok (p', out') ->
  foldM (arrive junk_type junk_pass order) (map (fun r => Response r.1 r.2 finished_task) rs) (with_par s p, ev ++ map Submitted out) =
    Ok (with_par s p', ev ++ map Submitted out').
Proof.
  induction rs as [|[e id] rs IH]; intros p p' out out' ev E; cbn [foldM map] in *; [by injection E as <- <-|].
  destruct (answer _ _ _ (p, out) (e, id)) as [[p1 o1]|] eqn:E1; [|done]. cbn [mbind outcome_bind] in E.
  unfold answer in E1. cbn [fst snd] in E1.
  destruct (ProcessResponse _ _ _ _ _ _ _) as [[p2 o2]|] eqn:E2; [|done]. cbn [mbind outcome_bind] in E1. injection E1 as <- <-.
  cbn [fst snd]. assert (arrive junk_type junk_pass order (with_par s p, ev ++ map Submitted out) (Response e id finished_task) =
    Ok (with_par s p2, ev ++ map Submitted (out ++ o2))) as ->.
  { cbn [arrive fst snd par_ with_par]. unfold finished_task. rewrite E2. cbn [mbind outcome_bind]. by rewrite map_app, app_assoc. }
  cbn [mbind outcome_bind]. by apply IH.
Qed.

(** A pass that one worker makes alone. *)
Definition alone (id : string) (n : nat) (i : pass_input (D := D)) : Prop :=
  exists es prog fin, i = mkPassInput [] [mkPoll (map (fun e => Response e id finished_task) es) prog []] fin /\ n < length es.

(** Settings under which the files of both data sets can be dispatched. *)
Record ready (npart : nat) (train val : list string) s : Prop := {
  re_train : MatchFile s.(train_data_) = train;
  re_val : MatchFile s.(val_data_) = val;
  re_parts : s.(par_).(num_parts_per_file_) = npart;
  re_central : s.(par_).(use_worker_local_data_) = false;
  re_num : s.(par_).(pool_).(WorkloadPool.num_file_per_wl_) = 1;
  re_npart : 0 < npart /\ (Z.of_nat npart < 2 ^ 31)%Z;
  re_names : Forall Workload.string_ok train /\ Forall Workload.string_ok val /\ Workload.string_ok s.(par_).(data_format_);
  re_pass : (s.(max_data_pass_) < 2 ^ 31)%Z /\ Workload.int32 junk_pass
}.

Notation all_of files npart := (WorkloadPool.parts npart (map (fun f => (f, "")) files)).

Lemma answers_alone id npart files es p :
  size (all_of files npart) < length es ->
  passing (D := D) npart files p [] [] -> p.(pool_).(WorkloadPool.assigned_) = [] ->
  exists p' out, foldM (answer junk_type junk_pass order) (map (fun e => (e, id)) es) (p, []) = Ok (p', out) /\
    Sched_IsFinished p' = true /\ with_pool p' p.(pool_) = p /\ p'.(pool_).(WorkloadPool.num_file_per_wl_) = 1.
Proof.
  intros Hlen Hpa Ha. set (rs := map (fun e => (e, id)) es).
  destruct (answers_run MatchFile junk_type junk_pass order order_perm npart files rs p [] [] [] Hpa)
    as (p' & out & sent & fin & E & Hpa' & _ & Hw); [constructor|].
  destruct (answers_one MatchFile junk_type junk_pass order order_perm npart files id rs p [] [] [] 0)
    as (p2 & out2 & sent2 & fin2 & E2 & Hpa2 & Hl); try done.
  - apply Forall_forall. intros r Hr. subst rs. apply list_elem_of_In, in_map_iff in Hr as (e & <- & _). done.
  - by rewrite Ha.
  - simpl. lia.
  - simpl. lia.
  - rewrite E in E2. injection E2 as <- <-. exists p', out. split_and!; [done| |done|apply Hpa'].
    eapply passing_done; [exact Hpa2|]. subst rs. rewrite length_map in Hl. simpl in Hl. lia.
Qed.

(** Only what the dispatch works on changes. *)
Definition with_data (p : DataParScheduler (D := D)) (data : string) (w : Workload.t) : DataParScheduler (D := D) :=
  mkSched data p.(data_format_) p.(num_parts_per_file_) p.(use_worker_local_data_) w p.(pool_).

Lemma ready_settings npart train val s s' :
  ready npart train val s -> settings s' = settings s ->
  s'.(par_).(num_parts_per_file_) = s.(par_).(num_parts_per_file_) ->
  s'.(par_).(use_worker_local_data_) = s.(par_).(use_worker_local_data_) ->
  s'.(par_).(data_format_) = s.(par_).(data_format_) -> s'.(par_).(pool_).(WorkloadPool.num_file_per_wl_) = 1 ->
  ready npart train val s'.
Proof.
  intros [H1 H2 H3 H4 H5 H6 H7 H8] HS E1 E2 E3 E4. unfold settings in HS. injection HS as ? ? ? ? ? ? ? ?.
  split; try done; try congruence.
Qed.

Lemma ShowProgress_par b prog s : par_ (ShowProgress hooks b prog s).1 = par_ s.
Proof.
  unfold ShowProgress. destruct (ProgString hooks _ _). destruct (bool_decide _); [done|]. by destruct (Stop hooks _ _ _).
Qed.

Lemma poll_loop_alone b id npart files s p inp :
  alone id (size (all_of files npart)) inp ->
  passing (D := D) npart files p [] [] -> p.(pool_).(WorkloadPool.assigned_) = [] ->
  exists s' ev, poll_loop junk_type junk_pass order hooks b inp.(polls) false (with_par s p) = Ok (Some (false, s', ev)) /\
    settings s' = settings s /\ with_pool s'.(par_) p.(pool_) = p /\ s'.(par_).(pool_).(WorkloadPool.num_file_per_wl_) = 1.
Proof.
  intros (es & prog & fin & -> & Hlen) Hpa Ha. cbn [polls poll_loop par_ with_par].
  destruct (Sched_IsFinished p).
  { eexists _, _. split; [done|]. split; [done|]. split; [by destruct p|apply Hpa]. }
  destruct (answers_alone id npart files es p Hlen Hpa Ha) as (p' & out & E & Hfin & Hw & Hnum).
  apply (arrive_answers s _ _ _ _ _ []) in E. rewrite map_map in E. cbn [sleeping after progress fst snd] in *. cbn [app map] in E. rewrite E.
  cbn [mbind outcome_bind]. pose proof (ShowProgress_goes_on hooks never_stops true prog (with_par s p')) as [HS Hgo].
  pose proof (ShowProgress_par true prog (with_par s p')) as Hpar. cbn [par_ with_par] in Hpar.
  destruct b; [destruct (ShowProgress hooks true prog (with_par s p')) as [s2 stop]; simpl in HS, Hgo, Hpar; subst stop|];
    cbn [foldM mbind outcome_bind poll_loop]; rewrite ?Hpar; cbn [par_ with_par]; rewrite Hfin; cbn [mbind outcome_bind].
  - eexists s2, _. split; [done|]. rewrite Hpar. by split.
  - eexists (with_par s p'), _. split; [done|]. by split.
Qed.

Lemma Iterate_alone id npart train val i ty s inp inputs :
  ready npart train val s -> ty <> Workload.PRED -> (0 <= i < s.(max_data_pass_))%Z ->
  alone id (size (all_of train npart) `max` size (all_of val npart)) inp ->
  exists s' ev rest, Iterate MatchFile junk_type junk_pass order hooks i ty s (inp :: inputs) = Ok (Some (false, s', ev, rest)) /\
    ready npart train val s' /\ settings s' = settings s /\ (rest = inputs \/ rest = inp :: inputs).
Proof.
  intros Hr Hty Hi Hal. unfold Iterate. set (data := if bool_decide (ty = Workload.TRAIN) then train_data_ s else val_data_ s).
  destruct (_ && _).
  { eexists _, _, _. split; [done|]. split; [|by split; [|right]]. by eapply ready_settings; try apply Hr. }
  set (files := if bool_decide (ty = Workload.TRAIN) then train else val).
  set (p := mkSched data _ _ _ _ _).
  destruct (start_passing MatchFile junk_type junk_pass order order_perm npart files p) as (p1 & t & E1 & _ & _ & Hpa & Ha & Hw).
  { destruct Hr as [H1 H2 H3 H4 H5 H6 (H7 & H8 & H9) [H10 H11]]. split; subst p; cbn; try done.
    - subst data files. by case_bool_decide.
    - split; [|done]. subst files. by case_bool_decide.
    - split; [|done]. unfold Workload.int32. lia. }
  assert (alone id (size (all_of files npart)) inp) as Hal'.
  { destruct Hal as (es & prog & fin & -> & Hl). exists es, prog, fin. split; [done|]. subst files. case_bool_decide; lia. }
  pose proof Hal' as (es & prog & fin & Hinp & _). assert (locals inp = []) as -> by by rewrite Hinp.
  rewrite E1. cbn [mbind outcome_bind].
  destruct (poll_loop_alone (bool_decide (ty = Workload.TRAIN)) id npart files s p1 inp Hal' Hpa Ha) as (s2 & ev & E2 & HS & Hw2 & Hnum).
  rewrite E2. cbn [mbind outcome_bind].
  pose proof (ShowProgress_goes_on hooks never_stops false (final inp) s2) as [HS2 Hgo].
  pose proof (ShowProgress_par false (final inp) s2) as Hpar.
  assert (forall s', settings s' = settings s2 -> par_ s' = par_ s2 -> ready npart train val s') as Hready.
  { intros s' Hs' Hp'. eapply ready_settings; [exact Hr|congruence|rewrite Hp'..].
    all: (assert (par_ s2 = with_pool p (pool_ (par_ s2))) as -> by (rewrite <- Hw, <- Hw2; by destruct (par_ s2))); try done. }
  destruct (bool_decide (ty = Workload.TRAIN)).
  - eexists _, _, _. split; [done|]. split; [by apply Hready|]. split; [done|by left].
  - destruct (ShowProgress _ _ _ _) as [s3 stop]. simpl in HS2, Hgo, Hpar. subst stop.
    eexists _, _, _. split; [done|]. split; [by apply Hready|]. split; [congruence|by left].
Qed.

Lemma passes_alone id npart train val n : forall cur s inputs,
  ready npart train val s -> (0 <= cur)%Z -> n = Z.to_nat (s.(max_data_pass_) - cur) ->
  Forall (alone id (size (all_of train npart) `max` size (all_of val npart))) inputs -> 2 * n <= length inputs ->
  exists s' ev, passes MatchFile junk_type junk_pass order hooks n cur s inputs = Ok (Some (s', ev)).
Proof.
  induction n as [|n IH]; intros cur s inputs Hr Hcur Hn Hin Hlen; cbn [passes]; [eauto|].
  destruct inputs as [|i1 [|i2 inputs]]; try (simpl in Hlen; lia).
  destruct (Iterate_alone id npart train val cur Workload.TRAIN s i1 (i2 :: inputs)) as (s1 & ev1 & r1 & -> & Hr1 & HS1 & Hrest1);
    [done|done|lia|by apply Forall_inv in Hin|]. cbn [mbind outcome_bind].
  assert (exists i r, r1 = i :: r /\ Forall (alone id (size (all_of train npart) `max` size (all_of val npart))) r1 /\ length inputs <= length r)
    as (i & r & -> & Hin1 & Hl1).
  { destruct Hrest1 as [-> | ->]; eexists _, _; (split; [done|]); split; [by apply Forall_inv_tail in Hin|lia|done|simpl; lia]. }
  destruct (settings_fields _ _ HS1) as (_ & _ & _ & V1).
  destruct (Iterate_alone id npart train val cur Workload.VAL s1 i r) as (s2 & ev2 & r2 & -> & Hr2 & HS2 & Hrest2);
    [done|done|lia|by apply Forall_inv in Hin1|]. cbn [mbind outcome_bind].
  destruct (settings_fields _ _ HS2) as (_ & _ & _ & V2). destruct (_ =? _)%Z; [eauto|].
  destruct (IH (cur + 1)%Z s2 r2) as (s3 & ev3 & ->); [done|lia|lia| | |cbn [mbind outcome_bind]; eauto].
  - destruct Hrest2 as [-> | ->]; [by apply Forall_inv_tail in Hin1|done].
  - simpl in Hlen. destruct Hrest2 as [-> | ->]; simpl; lia.
Qed.

(** C29: a training run completes: if one worker answers whatever it is sent, in
    every pass once more than there are parts, then [Run] returns; it needs two
    phases, training and validation, for each of its passes. *)
Theorem Run_completes id npart train val s inputs :
  ready npart train val s -> s.(predict_out_) = "" ->
  Forall (alone id (size (all_of train npart) `max` size (all_of val npart))) inputs ->
  2 * Z.to_nat s.(max_data_pass_) <= length inputs ->
  exists s' ev, Run MatchFile junk_type junk_pass order hooks s inputs = Ok (Some (s', ev)).
Proof.
  intros Hr Hp Hin Hlen. unfold Run. rewrite Hp. cbn [bool_decide negb decide]. simpl.
  set (cur := if negb (bool_decide (model_in_ s = "")) then _ else 0%Z).
  assert (0 <= cur)%Z.
  { subst cur. destruct (negb _); [|done]. destruct (Z.ltb_spec 0 (load_iter_ s)); lia. }
  destruct (passes_alone id npart train val (Z.to_nat (max_data_pass_ s - cur)) cur s inputs) as (s' & ev & ->);
    [done|done|done|done|lia|]. cbn [mbind outcome_bind]. eauto.
Qed.

End Completes.

(** ** Concrete runs *)

(** A server whose model is its bytes. *)
Definition raw_server : IterServer (list byte) := {| save_bytes m := Ok m; load_bytes _ b := Ok b |}.

Lemma load_what_was_saved_witness :
  let a := [Byte.x61] in let b := [Byte.x62] in let c := [Byte.x63] in
  exists fs', save_all (H := raw_server) "m" ∅ ([(0, 4%Z, a); (1, 4%Z, b)] ++ (0, 4%Z, c) :: [(1, (-1)%Z, a)]) = Ok fs' /\
    Server_ProcessRequest (H := raw_server) 0 (LoadModel "m" 4).1 (fs', []) = Ok (fs', c).
Proof.
  intros a b c. apply (load_what_was_saved (H := raw_server) "m" ∅ [(0, 4%Z, a); (1, 4%Z, b)] 0 4 c c [(1, (-1)%Z, a)] []);
    [done|lia|done| |].
  - repeat apply Forall_cons_2; [..|apply Forall_nil_2]; cbn; (split; [lia|eauto]).
  - by repeat constructor.
Defined.

(** Two files in the training data, one for validation; the model of iteration 1
    is loaded and saved after every second pass. *)
Definition run_match (s : string) : list string :=
  if decide (s = "train/.*") then ["train/0"; "train/1"] else ["val/0"].
Definition quiet : Hooks (D := SpecFloat.spec_float) unit := mkHooks base_Stop (fun st prog => (st, prog)).
Definition run_demo : MinibatchScheduler (D := SpecFloat.spec_float) :=
  mkMS "train/.*" "val/.*" "model" 1 "model" 2 5 "" (mkSched "" "libsvm" 1 false (Workload.mk Workload.TRAIN 0 []) WorkloadPool.demo_pool) tt.
Definition alone_demo (n : nat) : pass_input (D := SpecFloat.spec_float) :=
  mkPassInput [] [mkPoll (map (fun e => Response e "W0" finished_task) (replicate n pass_env)) [] []] [].
Definition run_inputs : list pass_input := replicate 10 (alone_demo 3).

Lemma Run_completes_witness :
  exists s' ev, Run (HD := binary64) run_match Workload.TRAIN 0 map_to_list quiet run_demo run_inputs = Ok (Some (s', ev)).
Proof.
  apply (Run_completes (HD := binary64) run_match Workload.TRAIN 0 map_to_list (fun m => reflexivity _) quiet (fun _ _ _ => eq_refl)
    "W0" 1 ["train/0"; "train/1"] ["val/0"]).
  - split; try done; [cbn; lia|]. unfold Workload.string_ok. cbn.
    split_and!; repeat (apply Forall_cons; split); try apply Forall_nil; done.
  - done.
  - apply Forall_replicate. exists (replicate 3 pass_env), [], []. split; [reflexivity|]. vm_compute. lia.
  - vm_compute. lia.
Defined.

Definition run_result : option (MinibatchScheduler (D := SpecFloat.spec_float) * list event) :=
  match Run (HD := binary64) run_match Workload.TRAIN 0 map_to_list quiet run_demo run_inputs with Ok r => r | Fail _ => None end.
Definition run_events : list event := match run_result with Some (_, ev) => ev | None => [] end.

Lemma Run_schedule_witness :
  filter control run_events =
    [Submitted (LoadModel "model" 1); Began 2 Workload.TRAIN; Began 2 Workload.VAL; Began 3 Workload.TRAIN; Began 3 Workload.VAL;
     Submitted (SaveModel "model" 3); Began 4 Workload.TRAIN; Began 4 Workload.VAL; Submitted (SaveModel "model" (-1))].
Proof.
  apply (Run_schedule (HD := binary64) run_match Workload.TRAIN 0 map_to_list quiet (fun _ _ _ => eq_refl)
    run_demo run_inputs (default run_demo (fst <$> run_result)) run_events); [reflexivity|vm_compute; reflexivity].
Defined.

(** ** A decision to stop is forgotten *)

(** A scheduler that stops as soon as it sees progress. *)
Definition stops : Hooks (D := SpecFloat.spec_float) unit := mkHooks (fun st _ _ => (st, true)) (fun st prog => (st, prog)).
Definition stop_demo : MinibatchScheduler (D := SpecFloat.spec_float) :=
  mkMS "train/.*" "" "" 0 "" 0 2 "" (mkSched "" "libsvm" 1 false (Workload.mk Workload.TRAIN 0 []) WorkloadPool.demo_pool) tt.
Definition answered : arrival (D := SpecFloat.spec_float) := Response pass_env "W0" finished_task.
Definition seen : list SpecFloat.spec_float := [SpecFloat.S754_zero false].

(** [Stop] returns true for the first progress of pass 0 and the scheduler
    stops dispatching; while it waits for the part that is on its way it polls
    again, finds no new progress, and so forgets that it was to stop: pass 1
    begins.  If the part finishes before the next poll the run ends as it
    should. *)
Theorem stop_forgotten :
  let pass := mkPassInput [] [mkPoll [answered] seen []; mkPoll [answered] [] []] [] in
  let quick := mkPassInput [] [mkPoll [answered] seen [answered]] [] in
  (exists s' ev, Run (HD := binary64) run_match Workload.TRAIN 0 map_to_list stops stop_demo [pass; pass] = Ok (Some (s', ev)) /\
    filter control ev = [Began 0 Workload.TRAIN; Began 1 Workload.TRAIN]) /\
  (exists s' ev, Run (HD := binary64) run_match Workload.TRAIN 0 map_to_list stops stop_demo [quick; quick] = Ok (Some (s', ev)) /\
    filter control ev = [Began 0 Workload.TRAIN]).
Proof. split; eexists _, _; (split; [vm_compute; reflexivity|vm_compute; reflexivity]). Qed.

(** Predictions for files of the same name in two directories end up in one
    file, which the second truncates. *)
Example predictions_overwritten :
  let wl d := Workload.mk Workload.PRED 0 [Workload.mkFile (d +:+ "/part-0") "libsvm" 1 0] in
  exists out fs1 fs2, PredictStream "pred_" (wl "monday") "" ∅ = Ok (out, fs1) /\
    PredictStream "pred_" (wl "tuesday") "x" (<[out := [Byte.x61]]> fs1) = Ok (out, fs2) /\ fs2 !! out = Some [].
Proof. eexists _, _, _. split; [reflexivity|]. split; [reflexivity|]. vm_compute. reflexivity. Qed.
