(* ===== verification/Worker.v ===== *)
(** * A worker and its minibatches

    Models [MinibatchWorker] of src/src/solver/minibatch_solver.h.  The thread
    that runs [Process] reads minibatches and hands them to [ProcessMinibatch];
    other threads finish them with [FinishMinibatch].  Both share the counters
    [num_mb_fly_] and [num_mb_done_] under a lock and a condition variable, so an
    execution is a sequence of the sections under the lock, of the notifications
    behind them and of wakeups. *)
From S2P Require Import Prelude Floats Stream Workload RowBlock Minibatch.
From stdpp Require Import relations.
#[local] Existing Instance Workload.Type_eq_dec.

Section Worker.
Context {F : Type} `{HF : !Float F}.

(** The settings of [class MinibatchWorker]. *)
Record MinibatchWorker := mkWorker {
  w_mb_size_ : nat; concurrent_mb_ : nat; shuffle_ : nat; neg_sampling_ : F; val_mb_size_ : nat; val_concurrent_mb_ : nat }.

(** The first lines of [Process(wl)]: how the data is read and how many
    minibatches run at once. *)
Record plan := mkPlan { pl_mb_size : nat; pl_shuffle : nat; pl_neg_sp : F; pl_max_mb : nat }.
Definition plan_of (w : MinibatchWorker) (type : Workload.Type_) : plan :=
  let train := bool_decide (type = Workload.TRAIN) in
  mkPlan (if train then w.(w_mb_size_) else w.(val_mb_size_))
    (if train then w.(w_mb_size_) * w.(shuffle_) else 0)
    (if train then w.(neg_sampling_) else fone)
    (if bool_decide (type = Workload.PRED) then 1 else if train then w.(concurrent_mb_) else w.(val_concurrent_mb_)).

(** The minibatches the reader gives; [open] is the parser of a part of a file. *)
Definition read_all (imax : Z) (rand : nat -> Z) (random_shuffle : nat -> list nat -> list nat) (fuel calls : nat)
    (open : Workload.File -> ParserImpl F) (p : plan) (wl : Workload.t) : outcome (option (list (RowBlock F))) :=
  _ ← check (bool_decide (1 <= length wl.(Workload.file)));
  file ← read_at wl.(Workload.file) 0;
  if decide (p.(pl_shuffle) = 0) then
    batches imax rand random_shuffle fuel calls (BeforeFirst (new_MinibatchIter (open file) p.(pl_mb_size) p.(pl_neg_sp)))
  else
    let _ := Reader_source imax rand random_shuffle fuel in
    it ← new_shuffled (open file) p.(pl_mb_size) p.(pl_shuffle) p.(pl_neg_sp);
    batches imax rand random_shuffle fuel calls (BeforeFirst it).

End Worker.

(** ** The threads *)

Section Threads.
Context {B : Type} (max_mb : nat).

(** Where [Process] is: at [reader.Next()], at the beginning of
    [WaitMinibatch(max_mb)] with a minibatch, inside the [wait] of it, notified or
    not, between [ProcessMinibatch] and [++num_mb_fly_], at the beginning of
    [WaitMinibatch(1)], inside its [wait], or behind it. *)
Inductive pc := Reading | Waiting (mb : B) | Sleeping (mb : B) (awake : bool) | Counting | Draining | DrainSleeping (awake : bool) | Returned.

(** The shared counters, what the reader still has, what was handed to
    [ProcessMinibatch] and is not finished, what is, and how many calls of
    [FinishMinibatch] are behind the lock and have not notified yet. *)
Record state := mkState {
  at_ : pc; unread_mb : list B; num_mb_fly_ : Z; num_mb_done_ : Z; running : list B; over : list B; notifying : nat }.

(** [num_mb_fly_ = num_mb_done_ = 0] *)
Definition start (mbs : list B) : state := mkState Reading mbs 0 0 [] [] 0.

Definition go_to (p : pc) (s : state) : state :=
  mkState p s.(unread_mb) s.(num_mb_fly_) s.(num_mb_done_) s.(running) s.(over) s.(notifying).

(** [WaitMinibatch(num)], at its beginning and whenever its [wait] wakes up: on to
    what is behind it, or to sleep. *)
Definition WaitMinibatch (num : nat) (behind : state -> state) (sleep : pc) (s : state) : state :=
  if (s.(num_mb_fly_) <? Z.of_nat num)%Z then behind s else go_to sleep s.

(** [ProcessMinibatch(reader.Value(), wl)] *)
Definition ProcessMinibatch (mb : B) (s : state) : state :=
  mkState Counting s.(unread_mb) s.(num_mb_fly_) s.(num_mb_done_) (s.(running) ++ [mb]) s.(over) s.(notifying).

(** [FinishMinibatch()] of a minibatch that was running beside [rest]: the section
    under the lock, and [mb_cond_.notify_one()]. *)
Definition FinishMinibatch (mb : B) (rest : list B) (s : state) : state :=
  mkState s.(at_) s.(unread_mb) (s.(num_mb_fly_) - 1) (s.(num_mb_done_) + 1) rest (s.(over) ++ [mb]) (s.(notifying) + 1).
Definition wake (p : pc) : pc :=
  match p with Sleeping mb _ => Sleeping mb true | DrainSleeping _ => DrainSleeping true | _ => p end.
Definition notify_one (s : state) : state :=
  mkState (wake s.(at_)) s.(unread_mb) s.(num_mb_fly_) s.(num_mb_done_) s.(running) s.(over) (s.(notifying) - 1).

(** The next step of the thread of [Process], if it is not asleep. *)
Definition Process_step (s : state) : option state :=
  match s.(at_) with
  | Reading =>
      match s.(unread_mb) with
      | [] => Some (go_to Draining s)
      | mb :: mbs => Some (mkState (Waiting mb) mbs s.(num_mb_fly_) s.(num_mb_done_) s.(running) s.(over) s.(notifying))
      end
  | Waiting mb | Sleeping mb true => Some (WaitMinibatch max_mb (ProcessMinibatch mb) (Sleeping mb false) s)
  | Counting => Some (mkState Reading s.(unread_mb) (s.(num_mb_fly_) + 1) s.(num_mb_done_) s.(running) s.(over) s.(notifying))
  | Draining | DrainSleeping true => Some (WaitMinibatch 1 (go_to Returned) (DrainSleeping false) s)
  | Sleeping _ false | DrainSleeping false | Returned => None
  end.

(** A thread makes a step. *)
Inductive wrun : state -> state -> Prop :=
| run_process s s' : Process_step s = Some s' -> wrun s s'
| run_finish s l1 mb l2 : s.(running) = l1 ++ mb :: l2 -> wrun s (FinishMinibatch mb (l1 ++ l2) s)
| run_notify s : 0 < s.(notifying) -> wrun s (notify_one s).

(** Any step: also a wakeup that nobody asked for. *)
Inductive wstep : state -> state -> Prop :=
| step_run s s' : wrun s s' -> wstep s s'
| step_spurious s : wstep s (go_to (wake s.(at_)) s).

Definition holding (p : pc) : list B := match p with Waiting mb | Sleeping mb _ => [mb] | _ => [] end.

(** The invariant of the threads, for the minibatches [mbs]; a thread that sleeps
    although it need not is about to be notified. *)
Record winv (mbs : list B) (s : state) : Prop := {
  wi_all : s.(over) ++ s.(running) ++ holding s.(at_) ++ s.(unread_mb) ≡ₚ mbs;
  wi_fly : (s.(num_mb_fly_) + (match s.(at_) with Counting => 1 | _ => 0 end) = Z.of_nat (length s.(running)))%Z;
  wi_done : s.(num_mb_done_) = Z.of_nat (length s.(over));
  wi_max : length s.(running) <= max_mb;
  wi_pc : match s.(at_) with
          | Draining | DrainSleeping _ => s.(unread_mb) = []
          | Returned => s.(unread_mb) = [] /\ s.(running) = []
          | _ => True
          end;
  wi_sleep : match s.(at_) with
             | Sleeping _ false => (s.(num_mb_fly_) < Z.of_nat max_mb)%Z -> 0 < s.(notifying)
             | DrainSleeping false => (s.(num_mb_fly_) < 1)%Z -> 0 < s.(notifying)
             | _ => True
             end
}.

Lemma winv_start mbs : winv mbs (start mbs).
Proof. split; simpl; (done || lia). Qed.

Ltac open_worker s := destruct s as [at0 un fly dn run ov nt]; cbn [at_ unread_mb num_mb_fly_ num_mb_done_ running over notifying] in *.
Ltac wcbn := cbn [at_ unread_mb num_mb_fly_ num_mb_done_ running over notifying holding go_to wake notify_one FinishMinibatch ProcessMinibatch] in *.

(** Behind the test of [WaitMinibatch(max_mb)], and of [WaitMinibatch(1)]. *)
Lemma winv_wait mbs mb s : winv mbs s -> s.(at_) = Waiting mb \/ s.(at_) = Sleeping mb true ->
  winv mbs (WaitMinibatch max_mb (ProcessMinibatch mb) (Sleeping mb false) s).
Proof.
  intros [H1 H2 H3 H4 H5 _] Hat. open_worker s. assert (holding at0 = [mb]) as Hh by (by destruct Hat as [->| ->]).
  assert (fly = Z.of_nat (length run)) as -> by (destruct Hat as [->| ->]; simpl in H2; lia). rewrite Hh in H1.
  unfold WaitMinibatch. wcbn. destruct (Z.ltb_spec (Z.of_nat (length run)) (Z.of_nat max_mb)); wcbn; split; wcbn; rewrite ?length_app; cbn [length]; try done; try lia.
  by rewrite <- app_assoc.
Qed.

Lemma winv_drain mbs s : winv mbs s -> s.(at_) = Draining \/ s.(at_) = DrainSleeping true -> winv mbs (WaitMinibatch 1 (go_to Returned) (DrainSleeping false) s).
Proof.
  intros [H1 H2 H3 H4 H5 _] Hat. open_worker s. assert (holding at0 = []) as Hh by (by destruct Hat as [->| ->]).
  assert (un = []) as -> by (by destruct Hat as [->| ->]).
  assert (fly = Z.of_nat (length run)) as -> by (destruct Hat as [->| ->]; simpl in H2; lia). rewrite Hh in H1.
  unfold WaitMinibatch. wcbn. destruct (Z.ltb_spec (Z.of_nat (length run)) (Z.of_nat 1)); wcbn; split; wcbn; try done; try lia.
  split; [done|]. apply length_zero_iff_nil. lia.
Qed.

Lemma winv_process mbs s s' : winv mbs s -> Process_step s = Some s' -> winv mbs s'.
Proof.
  intros Hi E. unfold Process_step in E. destruct (at_ s) as [|mb|mb []| | |[]|] eqn:Hat; try discriminate; injection E as <- || idtac;
    try (apply winv_wait; auto; fail); try (apply winv_drain; auto; fail).
  - pose proof Hi as [H1 H2 H3 H4 H5 _]. open_worker s. subst at0. destruct un as [|mb un]; injection E as <-; split; wcbn; try done; lia.
  - pose proof Hi as [H1 H2 H3 H4 H5 _]. open_worker s. subst at0. split; wcbn; try done; lia.
Qed.

(** A wakeup, by a notification or without one. *)
Lemma winv_wake mbs s n : winv mbs s ->
  winv mbs (mkState (wake s.(at_)) s.(unread_mb) s.(num_mb_fly_) s.(num_mb_done_) s.(running) s.(over) n).
Proof. intros [H1 H2 H3 H4 H5 _]. open_worker s. destruct at0; split; wcbn; done. Qed.

Lemma winv_finish mbs s l1 mb l2 : winv mbs s -> s.(running) = l1 ++ mb :: l2 -> winv mbs (FinishMinibatch mb (l1 ++ l2) s).
Proof.
  intros [H1 H2 H3 H4 H5 H6] Hr. open_worker s. subst run. rewrite length_app in *. simpl in *. split; wcbn; try done.
  - rewrite <- H1, <- !app_assoc. simpl. f_equiv. by rewrite Permutation_middle.
  - rewrite length_app. lia.
  - rewrite length_app. simpl. lia.
  - rewrite length_app. lia.
  - destruct at0; try done. destruct H5 as [? H5]. by destruct l1.
  - destruct at0 as [| |? []| | |[]|]; (done || lia).
Qed.

Lemma winv_run mbs s s' : winv mbs s -> wrun s s' -> winv mbs s'.
Proof.
  intros Hi Hr. destruct Hr as [s s' E|s l1 mb l2 E|s Hn]; [by eapply winv_process|by apply winv_finish|by apply winv_wake].
Qed.

Lemma winv_step mbs s s' : winv mbs s -> wstep s s' -> winv mbs s'.
Proof. intros Hi Hs. destruct Hs as [s s' Hr|s]; [by eapply winv_run|by apply winv_wake]. Qed.

Lemma winv_reachable mbs s : rtc wstep (start mbs) s -> winv mbs s.
Proof.
  intros H. pose proof (winv_start mbs) as Hi. revert H Hi. generalize (start mbs).
  induction 1 as [|x y z Hxy _ IH]; [done|]. intros Hx. apply IH. by eapply winv_step.
Qed.

(** The steps that are left at most: a minibatch takes a call of [Next], a test, a
    count, a finish, a notification and one more test. *)
Definition to_go (s : state) : nat :=
  3 * length s.(running) + 2 * s.(notifying) + 6 * length s.(unread_mb) +
  match s.(at_) with
  | Reading => 2 | Waiting _ => 7 | Sleeping _ a => 6 + Nat.b2n a | Counting => 3 | Draining => 1 | DrainSleeping a => Nat.b2n a | Returned => 0
  end.

Lemma to_go_run s s' : wrun s s' -> to_go s' < to_go s.
Proof.
  intros Hr. destruct Hr as [s s' E|s l1 mb l2 E|s Hn]; open_worker s; unfold to_go.
  - unfold Process_step, WaitMinibatch in E. wcbn. destruct at0 as [|mb|mb []| | |[]|]; try discriminate; wcbn.
    1: destruct un; injection E as <-; wcbn; cbn [length]; lia.
    all: injection E as <-; wcbn; try (destruct (_ <? _)%Z); wcbn; rewrite ?length_app; cbn [length Nat.b2n]; lia.
  - subst run. wcbn. rewrite !length_app. cbn [length]. lia.
  - wcbn. destruct at0 as [| |? []| | |[]|]; cbn [wake Nat.b2n]; lia.
Qed.

(** Nothing waits for ever. *)
Lemma winv_progress mbs s : 0 < max_mb -> winv mbs s -> (exists s', wrun s s') \/ s.(at_) = Returned.
Proof.
  intros Hm [H1 H2 H3 H4 H5 H6]. open_worker s. destruct nt as [|nt]; [|left; eexists; apply run_notify; simpl; lia].
  destruct run as [|mb run]; [|left; eexists; apply (run_finish (mkState _ _ _ _ (mb :: run) _ _) [] mb run); done].
  simpl in H2. destruct at0 as [|mb|mb []| | |[]|]; [left; destruct un|left..|by right]; try (eexists; apply run_process; reflexivity); lia.
Qed.

Lemma nsteps_to_go n s s' : nsteps wrun n s s' -> n + to_go s' <= to_go s.
Proof. induction 1 as [|n x y z Hxy _ IH]; [lia|]. apply to_go_run in Hxy. lia. Qed.

(** C20: in every interleaving of [Process] with the threads that finish
    minibatches, with wakeups that nobody asked for, at most [max_mb] minibatches
    run at once, each minibatch of the reader is in exactly one place,
    [num_mb_fly_] is the number of running minibatches, or one less while
    [Process] is about to count the one it started, and [Process] returns only when
    all minibatches are finished. *)
Theorem Process_concurrency mbs s :
  rtc wstep (start mbs) s ->
  length s.(running) <= max_mb /\
  s.(over) ++ s.(running) ++ holding s.(at_) ++ s.(unread_mb) ≡ₚ mbs /\
  (Z.of_nat (length s.(running)) - 1 <= s.(num_mb_fly_) <= Z.of_nat (length s.(running)))%Z /\
  (s.(at_) = Returned -> s.(over) ≡ₚ mbs /\ s.(num_mb_done_) = Z.of_nat (length mbs) /\ s.(num_mb_fly_) = 0%Z).
Proof.
  intros Hs. destruct (winv_reachable _ _ Hs) as [H1 H2 H3 H4 H5]. split_and!; try done.
  - destruct (at_ s); lia.
  - destruct (at_ s); lia.
  - intros Hr. rewrite Hr in *. destruct H5 as [Hu Hn]. rewrite Hu, Hn in *. simpl in *. rewrite !app_nil_r in H1.
    split; [done|]. rewrite <- H1. lia.
Qed.


End Threads.

(** ** Processing a part of the data *)

Section Part.
Context {F : Type} `{HF : !Float F} (imax : Z) (rand : nat -> Z) (random_shuffle : nat -> list nat -> list nat).
Hypothesis shuffle_perm : forall n l, random_shuffle n l ≡ₚ l.
Context (open : Workload.File -> ParserImpl F).

Lemma Forall2_reorder {A C} (R : A -> C -> Prop) l1 l2 k :
  Forall2 R l1 k -> l2 ≡ₚ l1 -> exists k', Forall2 R l2 k' /\ k' ≡ₚ k.
Proof.
  intros HR Hp. symmetry in Hp. destruct (Permutation_Forall2 Hp HR) as (k' & Hk & H'). exists k'. by split.
Qed.

Lemma concat_perm {A} (l1 l2 : list (list A)) : l1 ≡ₚ l2 -> concat l1 ≡ₚ concat l2.
Proof.
  induction 1; simpl; [done|by f_equiv| |by etransitivity]. rewrite !app_assoc. f_equiv. apply Permutation_app_comm.
Qed.

(** A worker that validates, predicts, or trains without shuffling processes
    every row of the part it was sent: however its minibatches interleave, when
    [Process] returns they have all finished, at most as many as configured ran
    at once, and their rows are those of the part, each once, without the weights. *)
Theorem Process_covers_part w wl f rss fuel calls s :
  head wl.(Workload.file) = Some f -> (wl.(Workload.type) = Workload.TRAIN -> shuffle_ w = 0) ->
  let p := plan_of w wl.(Workload.type) in
  Forall2 (shows 0 0) (p_all (open f)) rss -> in_range imax (concat rss) -> values_uniform (concat rss) ->
  0 < pl_mb_size p -> (Z.of_nat (pl_mb_size p) + 1 < 2 ^ 32)%Z -> length rss + 2 <= fuel -> length (concat rss) < calls ->
  exists mbs, read_all imax rand random_shuffle fuel calls open p wl = Ok (Some mbs) /\
    (rtc (wstep (pl_max_mb p)) (start mbs) s -> length s.(running) <= pl_max_mb p /\ (s.(at_) = Returned ->
     exists outs rows, Forall2 (shows 0 0) s.(over) outs /\ Forall2 (reweighted []) (concat rss) rows /\ concat outs ≡ₚ rows)).
Proof.
  intros Hf Hns p Hrows Hr Hu Hmb Hsm Hfu Hc.
  assert (pl_shuffle p = 0) as Hs0.
  { unfold p, plan_of. simpl. case_bool_decide as Ht; [|done]. rewrite (Hns Ht). lia. }
  unfold read_all. destruct (Workload.file wl) as [|f0 fs]; [done|]. simpl in Hf. injection Hf as ->.
  rewrite check_true by (apply bool_decide_eq_true; simpl; lia). cbn [mbind outcome_bind read_at lookup list_lookup].
  rewrite decide_True by done.
  set (src := mkParser (p_all (open f)) (p_all (open f))).
  change (BeforeFirst _) with (new_MinibatchIter src (pl_mb_size p) (pl_neg_sp p)).
  destruct (pass_in_order imax rand random_shuffle shuffle_perm src rss Hrows Hr Hu (pl_mb_size p) (pl_neg_sp p) fuel calls
    Hmb Hsm Hfu Hc) as (mbs & outs & E & Hsh & Hsame & _).
  exists mbs. split; [exact E|]. intros Hrtc.
  destruct (winv_reachable _ _ _ Hrtc) as [H1 _ _ H4 H5]. split; [done|]. intros Hret. rewrite Hret in *. destruct H5 as [H5 H6]. rewrite H5, H6 in H1.
  simpl in H1. rewrite !app_nil_r in H1.
  destruct (Forall2_reorder _ _ _ _ Hsh H1) as (outs' & Hsh' & Hp). exists outs', (concat outs). split_and!; [done..|].
  by apply concat_perm.
Qed.

End Part.

(** ** Concrete executions *)

(** Executions as lists of choices: a step of [Process], the end of the [i]-th
    running minibatch, or a notification. *)
Inductive choice := Go | Done (i : nat) | Notify.
Definition turn {B} (max_mb : nat) (c : choice) (s : state (B := B)) : option (state (B := B)) :=
  match c with
  | Go => Process_step max_mb s
  | Done i => mb ← s.(running) !! i; Some (FinishMinibatch mb (take i s.(running) ++ drop (S i) s.(running)) s)
  | Notify => if decide (0 < s.(notifying)) then Some (notify_one s) else None
  end.

Fixpoint turns {B} (max_mb : nat) (cs : list choice) (s : state (B := B)) : option (state (B := B)) :=
  match cs with [] => Some s | c :: cs => s ← turn max_mb c s; turns max_mb cs s end.

Lemma turns_steps {B} max_mb cs : forall s s' : state (B := B), turns max_mb cs s = Some s' -> nsteps (wrun max_mb) (length cs) s s'.
Proof.
  induction cs as [|c cs IH]; intros s s' E; simpl in E; [injection E as <-; constructor|].
  destruct (turn max_mb c s) as [s1|] eqn:E1; [|done]. econstructor; [|by apply IH].
  destruct c as [|i|]; simpl in E1; [by apply run_process| |].
  - destruct (running s !! i) as [mb|] eqn:Ei; [|done]. simpl in E1. injection E1 as <-. apply run_finish.
    symmetry. by apply take_drop_middle.
  - case_decide; [|done]. injection E1 as <-. by apply run_notify.
Qed.

Lemma turns_reach {B} max_mb cs (s s' : state (B := B)) : turns max_mb cs s = Some s' -> rtc (wstep max_mb) s s'.
Proof. intros E%turns_steps. induction E as [|n x y z Hxy _ IH]; [done|]. econstructor; [by apply step_run|done]. Qed.

(** Three minibatches, two at a time; [Process] sleeps until the second one
    finishes, and once more behind the last one. *)
Definition demo_choices : list choice :=
  [Go; Go; Go; Go; Go; Go; Go; Go; Done 1; Notify; Go; Go; Go; Go; Done 0; Notify; Go; Done 0; Notify; Go].
Definition demo_end : state := default (start []) (turns 2 demo_choices (start [10; 20; 30])).

Lemma Process_concurrency_witness :
  length demo_end.(running) <= 2 /\
  demo_end.(over) ++ demo_end.(running) ++ holding demo_end.(at_) ++ demo_end.(unread_mb) ≡ₚ [10; 20; 30] /\
  (Z.of_nat (length demo_end.(running)) - 1 <= demo_end.(num_mb_fly_) <= Z.of_nat (length demo_end.(running)))%Z /\
  (demo_end.(at_) = Returned -> demo_end.(over) ≡ₚ [10; 20; 30] /\ demo_end.(num_mb_done_) = 3%Z /\ demo_end.(num_mb_fly_) = 0%Z).
Proof.
  apply (Process_concurrency 2 [10; 20; 30] demo_end). apply (turns_reach 2 demo_choices). vm_compute. reflexivity.
Defined.


Lemma Process_covers_part_witness :
  let f := Workload.mkFile "data/part-0" "libsvm" 2 0 in
  let w := mkWorker 2 2 0 (QArith_base.inject_Z 1) 100 10 in
  let wl := Workload.mk Workload.TRAIN 0 [f] in
  let p := plan_of (HF := Qfloat) w Workload.TRAIN in
  let s := start (B := RowBlock QArith_base.Q) [] in
  exists mbs, read_all (HF := Qfloat) 4294967295 (fun _ => 0%Z) (fun _ l => l) 9 9 (fun _ => ex_parser) p wl = Ok (Some mbs) /\
    (rtc (wstep 2) (start mbs) s -> length s.(running) <= 2 /\ (s.(at_) = Returned ->
     exists outs rows, Forall2 (shows 0 0) s.(over) outs /\ Forall2 (reweighted (HF := Qfloat) []) (concat ex_rss) rows /\ concat outs ≡ₚ rows)).
Proof.
  intros f w wl p s.
  apply (Process_covers_part (HF := Qfloat) 4294967295 (fun _ => 0%Z) (fun _ l => l) (fun _ l => Permutation_refl l) (fun _ => ex_parser)
    w wl f ex_rss 9 9 s); simpl; try lia; try done.
  - exact ex_parser_rows.
  - repeat constructor; discriminate.
  - right. repeat constructor.
Defined.
