(* ===== verification/Async.v ===== *)
(** * The DiFacto application

    Models the scheduler and the worker of src/src/difacto/async_sgd.h and the
    progress of src/src/difacto/progress.h: the parts of the other files put
    together.  A worker localizes a minibatch, pushes the feature counts in the
    first pass, pulls the model of its features, evaluates, and pushes the
    gradient back. *)
From S2P Require Import Prelude Floats Stream Workload WorkloadPool RowBlock Localizer Parallel SpMV KVStore AdaGrad BinClass Loss FM FMGrad.
From S2P Require Import Minibatch CRB Filters Transport DataParallel Solver Worker.
From Stdlib Require Import QArith.
#[local] Existing Instance Workload.Type_eq_dec.
#[local] Open Scope nat_scope.

(** ** The scheduler *)

Section Scheduler.
Context {D : Type} `{HD : !Float D}.

(** [struct Progress] *)
Record DProgress := mkDP { p_data : list D; ttl_ex : D; nnz_w : D; nnz_V : D }.
Definition at_or_zero (l : list D) (i : nat) : D := default fzero (l !! i).
Definition p_objv (d : list D) : D := at_or_zero d 0.
Definition p_auc (d : list D) : D := at_or_zero d 1.
Definition p_objv_w (d : list D) : D := at_or_zero d 2.
Definition p_count (d : list D) : D := at_or_zero d 4.
Definition p_new_ex (d : list D) : D := at_or_zero d 5.
Definition p_new_w (d : list D) : D := at_or_zero d 6.
Definition p_new_V (d : list D) : D := at_or_zero d 7.

(** [PrintStr()]: the values it prints, none when it returns the empty string. *)
Definition PrintStr (p : DProgress) : DProgress * list D :=
  let d := if decide (length p.(p_data) < 8) then p.(p_data) ++ replicate (8 - length p.(p_data)) fzero else p.(p_data) in
  let p := mkDP d (p.(ttl_ex) + p_new_ex d)%F (p.(nnz_w) + p_new_w d)%F (p.(nnz_V) + p_new_V d)%F in
  if feqb (p_new_ex d) fzero then (p, []) else
  (p, [p.(ttl_ex); p_new_ex d; p.(nnz_w); p_objv_w d / p_new_ex d; p.(nnz_V); p_objv d / p_new_ex d; p_auc d / p_count d]%F).

(** [class AsyncScheduler] beside its base. *)
Record AsyncScheduler := mkAS { prog_ : DProgress; sc_conf_ : Config D; pre_val_objv_ : D }.

(** The constructor; [nnz_V] has no initial value. *)
Definition new_AsyncScheduler (junk : D) (conf : Config D) : outcome AsyncScheduler :=
  _ ← (if conf.(early_stop) then check conf.(has_val_data) else Ok tt);
  Ok (mkAS (mkDP (replicate 8 fzero) fzero fzero junk) conf (fofZ 100)).

(** [ProgString(prog)] *)
Definition Async_ProgString (s : AsyncScheduler) (prog : list D) : AsyncScheduler * list D :=
  let '(p, disp) := PrintStr (mkDP prog s.(prog_).(ttl_ex) s.(prog_).(nnz_w) s.(prog_).(nnz_V)) in
  (mkAS p s.(sc_conf_) s.(pre_val_objv_), disp).

(** [AsyncScheduler::Stop(cur, train)]. *)
Definition Async_Stop (s : AsyncScheduler) (cur : list D) (train : bool) : AsyncScheduler * bool :=
  let cur_objv := (p_objv cur / p_new_ex cur)%F in
  if train then
    (s, match s.(sc_conf_).(max_objv) with Some m => (m <? cur_objv)%F | None => false end)
  else
    let diff := (s.(pre_val_objv_) - cur_objv)%F in
    (mkAS s.(prog_) s.(sc_conf_) cur_objv, s.(sc_conf_).(early_stop) && (diff <? s.(sc_conf_).(min_objv_decr))%F).

(** What the solver calls.  [Stop] above takes a [difacto::Progress], the virtual
    method of the solver a [std::vector<double>]: it does not override it. *)
Definition Async_hooks : Hooks (D := D) AsyncScheduler := mkHooks base_Stop Async_ProgString.

(** What it would call if it did. *)
Definition Async_hooks_meant : Hooks (D := D) AsyncScheduler := mkHooks Async_Stop Async_ProgString.

End Scheduler.

(** ** The worker *)

Section AsyncWorker.
Context {F : Type} `{HF : !Float F} {D : Type} `{FD : !Float D} (widen : F -> D) (narrow : D -> F) (dexp dlog : D -> D) (tiny : D).
Context (sort_pairs : list Localizer.Pair -> list Localizer.Pair) (sort : list (F * F) -> list (F * F)) (rand : nat -> Z).
Context (sched : list (list (action F)) -> list (action F)) (shares : list (list nat)) (FLAGS_max_key : Z).

(** [class AsyncWorker], with the settings of its base. *)
Record AsyncWorker := mkAW { w_conf_ : Config F; do_embedding_ : bool; base_ : MinibatchWorker (F := F) }.

(** The constructor. *)
Definition new_AsyncWorker (conf : Config F) (minibatch rand_shuffle max_concurrency : nat) (neg_sampling : F) : AsyncWorker :=
  mkAW conf (existsb (fun e => bool_decide (0 < e.(c_dim))) conf.(embedding))
    (mkWorker minibatch max_concurrency rand_shuffle neg_sampling 10000000 10).

(** [SetFilters(flag, opts)] *)
Definition SetFilters (conf : Config F) (flag : nat) : list Filter :=
  (if conf.(key_cache) then [KEY_CACHING (bool_decide (flag = 2))] else []) ++
  (if decide (0 < conf.(fixed_bytes))%Z then
     if decide (flag = 0) then [TRUNCATE_FLOAT 1] else [FIXING_FLOAT conf.(fixed_bytes)] else []) ++
  (if conf.(msg_compression) then [COMPRESSING] else []).

(** [ProcessMinibatch(mb, wl)] up to the pull: the requests to the servers with
    their filters, in order, and what the callback works on. *)
Definition ProcessMinibatch (w : AsyncWorker) (wl : Workload.t) (mb : RowBlock F)
  : outcome (list (Message F * list Filter) * (Message F * list Filter) * Container F) :=
  '(data, feaid, feacnt) ← Localizer.Localize 8 (2 ^ 64 - 1) FLAGS_max_key w.(w_conf_).(num_threads) sort_pairs false 0 fofZ mb RowBlock.Clear [] [];
  let cnt :=
    if bool_decide (wl.(Workload.type) = Workload.TRAIN) && bool_decide (wl.(Workload.data_pass) = 0%Z) && w.(do_embedding_)
    then [(mkMsg kPushFeaCnt feaid false (Some feacnt) None, SetFilters w.(w_conf_) 0)] else [] in
  Ok (cnt, (mkMsg 0 feaid true None None, SetFilters w.(w_conf_) 1), data).

(** What the callback of the pull leaves: the progress it reports, the
    predictions, and the push of the gradient. *)
Record Pulled := mkPulled { reported : list D; predictions : option (list D); grad_push : option (Message F * list Filter) }.

(** [Progress prog; loss.Evaluate(&prog); prog.data] *)
Definition progress_data (pr : LossProgress (F := F)) : list D :=
  [widen pr.(objv); widen pr.(auc); widen pr.(objv_w); fzero; fone; fofZ (Z.of_nat pr.(new_ex)); fzero; fzero].

(** The callback of the pull, with the values [val] of sizes [val_siz] for the
    keys [feaid]. *)
Definition pull_callback (w : AsyncWorker) (wl : Workload.t) (prob_predict : bool) (lbl wgt : ptr F) (r : nat) (data : Container F)
    (feaid : list Z) (val : list F) (val_siz : list nat) : outcome Pulled :=
  blk ← GetBlock data;
  loss ← new_Loss lbl wgt blk val val_siz w.(w_conf_);
  '(loss, prog) ← Evaluate widen narrow dexp dlog sort sched shares loss;
  pred ← (if bool_decide (wl.(Workload.type) = Workload.PRED)
          then p ← Predict widen dexp sched loss prob_predict; Ok (Some p) else Ok None);
  push ← (if bool_decide (wl.(Workload.type) = Workload.TRAIN)
          then g ← CalcGrad widen narrow dexp tiny rand sched loss r val;
               Ok (Some (mkMsg 0 feaid true (Some g) (Some val_siz), SetFilters w.(w_conf_) 2)) else Ok None);
  Ok (mkPulled (progress_data prog) pred push).

End AsyncWorker.

(** ** A training step *)

Section CountPush.
Context {F : Type} `{HF : !Float F} (junk : F) (rand : nat -> Z).
#[local] Instance hdl : Handle (AdaGradEntry F) F (HState F) := AdaGradHandle junk rand.

Lemma count_steps keys : forall cnt d h,
  store_ok d -> push_count h = true -> length cnt = length keys -> Forall (fun c => 0 <= ftoZ c < 2 ^ 32)%Z cnt ->
  exists d' h' v', foldM (push_step 1) keys (d, h, cnt) = Ok (d', h', v') /\ store_ok d'.
Proof.
  induction keys as [|key keys IH]; intros cnt d h Hd Hh Hl Hc; cbn [foldM]; [by eexists _, _, _|].
  destruct cnt as [|c cnt]; [done|]. apply Forall_cons in Hc as [Hc Hcs].
  destruct (Push_ok junk rand key [c] (KVStore.at_ d key) h) as (e' & h' & Ep & Ht).
  { by apply (at_ok junk rand). }
  { unfold recv_ok. by rewrite Hh. }
  assert (push_step 1 (d, h, c :: cnt) key = Ok (<[ key := e' ]> d, h', cnt)) as ->.
  { unfold push_step. simpl. rewrite take_0, drop_0. by rewrite Ep. }
  cbn [mbind outcome_bind]. destruct Ht as [T1 T2 _ _ (_ & T6 & _)].
  apply IH; [by apply store_ok_insert|by rewrite T6|simpl in Hl; lia|done].
Qed.

(** A push of counts is accepted. *)
Lemma count_push_accepted (s : Store (AdaGradEntry F) (HState F)) keys cnt :
  store_ok s.(data_) -> length cnt = length keys -> Forall (fun c => 0 <= ftoZ c < 2 ^ 32)%Z cnt ->
  exists s', HandlePush s (mkMsg kPushFeaCnt keys false (Some cnt) None) = Ok s' /\ store_ok s'.(data_) /\ s'.(k_) = s.(k_).
Proof.
  intros Hok Hl Hc. unfold HandlePush. cbn [m_dyn m_key m_value m_size m_cmd andb negb].
  rewrite bool_decide_decide. destruct (decide (length keys = 0)) as [H0|H0]; cbn [negb]; [by eexists|].
  assert (length cnt / length keys = 1) as -> by (rewrite Hl; by apply Nat.div_same).
  rewrite check_true by (apply bool_decide_eq_true; lia). cbn [mbind outcome_bind].
  destruct (count_steps keys cnt s.(data_) (Start_ true kPushFeaCnt s.(handle_)) Hok eq_refl Hl Hc) as (d & h & v & E & Hd).
  match goal with |- exists s', mbind _ ?e = _ /\ _ => assert (e = Ok (d, h, v)) as -> by exact E end.
  cbn [mbind outcome_bind]. eexists. split; [done|]. by split.
Qed.

End CountPush.

Section Step.
Context (sched : list (list (action Q)) -> list (action Q)) (shares : list (list nat)).
Context (dexp dlog : Q -> Q) (sort : list (Q * Q) -> list (Q * Q)) (tiny : Q) (rand : nat -> Z).
Context (sort_pairs : list Localizer.Pair -> list Localizer.Pair) (FLAGS_max_key : Z) (junk : Q).
Hypothesis sort_pairs_ok : forall l, sort_pairs l ≡ₚ l /\ StronglySorted (not_after Localizer.pair_lt) (sort_pairs l).
Hypothesis sched_ok : forall ts, interleave ts (sched ts).
Hypothesis max_key_positive : (0 < FLAGS_max_key)%Z.
#[local] Instance qh : Handle (AdaGradEntry Q) Q (HState Q) := AdaGradHandle (Float0 := Qfloat) junk rand.

(** The connection: the conversions of the filter that quantizes, whatever they
    round to, the memory of floats, LZ4, the hash of the key lists and the random
    bits. *)
Context (to_D to_V as_float : Q -> Q) `{MF : !Memory Q} `{ML : !MemoryLaws Q} `{LZ : !LZ4} `{LL : !LZ4Laws} (Hash64 : list byte -> Z) (frand : nat -> Z).
Hypothesis compress_refuses : forall d, (max_input < Z.of_nat (length d))%Z -> LZ4_compress_default d = [].
Notation arrives := (Transport.arrives (FF := Qfloat) (FD := Qfloat) to_D to_V as_float Hash64 frand).

Notation key := (Localizer.key 8 (2 ^ 64 - 1) FLAGS_max_key).

(** The localized rows: feature [j] of a row is the position of its key. *)
Definition localized (keys : list Z) (rs rs' : list (arow (F := Q))) : Prop :=
  Forall2 (fun r r' => r'.(a_label) = r.(a_label) /\ r'.(a_value) = r.(a_value) /\
    Forall2 (fun ix j => (0 <= j)%Z /\ keys !! Z.to_nat j = Some (key ix)) r.(a_index) r'.(a_index)) rs rs'.

Lemma localized_columns keys rs rs' : localized keys rs rs' -> columns_below (length keys) rs'.
Proof.
  intros Hr. apply Forall_lookup. intros i r' Hr'. destruct (Forall2_lookup_r _ _ _ _ _ Hr Hr') as (r & _ & _ & _ & Hj).
  assert (forall j, j ∈ a_index r' -> Z.to_nat j < length keys) as Hlt.
  { intros j Hin. apply list_elem_of_lookup in Hin as [t Ht]. destruct (Forall2_lookup_r _ _ _ _ _ Hj Ht) as (ix & _ & _ & Hk).
    by eapply lookup_lt_Some. }
  apply Forall_forall. intros f Hf. unfold feats in Hf. destruct (a_value r').
  - apply list_elem_of_In, in_map_iff in Hf as (j & <- & Hin%list_elem_of_In). simpl. by apply Hlt.
  - destruct f as [c v]. apply list_elem_of_In, in_combine_l, in_map_iff in Hf as (j & <- & Hin%list_elem_of_In). by apply Hlt.
Qed.

(** What a worker needs: a minibatch with features, and threads. *)
Record trainable (w : AsyncWorker (F := Q)) (mb : RowBlock Q) (rs : list (arow (F := Q))) : Prop := {
  tr_shows : shows 0 0 mb rs;
  tr_features : concat (map a_index rs) <> [];
  tr_size : (Z.of_nat (length (concat (map a_index rs))) < 4294967295)%Z;
  tr_threads : 0 < w.(w_conf_).(num_threads);
  tr_shares : schedule (length rs) shares
}.

(** What was localized can be trained on with any model for its keys. *)
Lemma localized_minibatch w mb rs keys c es :
  trainable w mb rs -> holds c (map (local_row key keys) rs) -> uniform (map (local_row key keys) rs) ->
  localized keys rs (map (local_row key keys) rs) -> length es = length keys -> keys <> [] ->
  (Z.of_nat (length (concat es)) < 2 ^ 32)%Z ->
  exists blk, GetBlock c = Ok blk /\ FM.minibatch sched shares w.(w_conf_) es blk (map (local_row key keys) rs).
Proof.
  intros [T1 T2 T3 T4 T5] Hh Hu Hr Hl Hne Hsm. destruct (GetBlock_shows _ _ Hh Hu) as (blk & E & Hblk).
  exists blk. split; [done|]. split; try done.
  - by rewrite length_map.
  - rewrite Hl. by eapply localized_columns.
  - rewrite length_map. destruct rs; [done|simpl; lia].
  - intros ->. by destruct keys.
Qed.

(** The counts a worker pushes fit the server's type. *)
Lemma counts_fit rs (keys : list Z) :
  (Z.of_nat (length (concat (map (a_index (F := Q)) rs))) < 4294967295)%Z ->
  Forall (fun c => 0 <= ftoZ (Float := Qfloat) c < 2 ^ 32)%Z
    (map (fun z => Localizer.frq_of false 0 inject_Z (occurrences 8 (2 ^ 64 - 1) FLAGS_max_key (concat (map a_index rs)) z)) keys).
Proof using.
  intros Hsz. apply Forall_map, Forall_forall. intros z _. unfold Localizer.frq_of.
  change (ftoZ (inject_Z ?n)) with (Z.quot n 1). rewrite Z.quot_1_r.
  assert (occurrences 8 (2 ^ 64 - 1) FLAGS_max_key (concat (map (a_index (F := Q)) rs)) z <= length (concat (map (a_index (F := Q)) rs)));
    [|lia]. unfold occurrences. etransitivity; [apply length_filter|]. by rewrite ?length_map.
Qed.

(** The keys are 64 bit. *)
Lemma key_in_range ix : (0 <= key ix < 2 ^ 64)%Z.
Proof using max_key_positive.
  unfold Localizer.key. destruct (_ <? _)%Z eqn:E; [|by apply ReverseBytes_range].
  apply Z.ltb_lt in E. pose proof (Z.mod_pos_bound ix FLAGS_max_key max_key_positive). lia.
Qed.

(** The filters of DiFacto: at most one converts floats. *)
Definition conv_of (conf : Config Q) (flag : nat) : list Filter :=
  if decide (0 < conf.(fixed_bytes))%Z then if decide (flag = 0) then [TRUNCATE_FLOAT 1] else [FIXING_FLOAT conf.(fixed_bytes)] else [].

Lemma SetFilters_arrive request push_ conf flag (m m' : Message Q) :
  sendable m -> arrives request push_ (SetFilters conf flag) m m' ->
  exists v', m' = mkMsg m.(m_cmd) m.(m_key) m.(m_dyn) v' m.(m_size) /\
    match m.(m_value), v' with Some v, Some v' => converts (FF := Qfloat) (conv_of conf flag) v v' | None, None => True | _, _ => False end.
Proof using ML LL compress_refuses.
  intros Hm Ha.
  destruct (usual_arrives (FF := Qfloat) (FD := Qfloat) to_D to_V as_float Hash64 frand compress_refuses request push_
    (if conf.(key_cache) then [KEY_CACHING (bool_decide (flag = 2))] else []) (conv_of conf flag) []
    (if conf.(msg_compression) then [COMPRESSING] else []) m m') as (A1 & A2 & A3 & A4 & A5); [|done|exact Ha|].
  - split; [destruct (key_cache conf); eauto| |by left|destruct (msg_compression conf); auto].
    unfold conv_of. repeat case_decide; [right; by eexists _, 1%Z; auto|right; by eexists _, (fixed_bytes conf); auto|by left].
  - exists (m_value m'). split; [|done]. destruct m', m. cbn in *. by subst.
Qed.

Lemma reshaped {A} (es : list (list A)) : forall v : list A, length v = length (concat es) ->
  exists es', concat es' = v /\ map length es' = map length es.
Proof using.
  induction es as [|e es IH]; intros v Hv; simpl in Hv; [destruct v; [by exists []|done]|].
  rewrite length_app in Hv. destruct (IH (drop (length e) v)) as (es' & E1 & E2); [rewrite length_drop; lia|].
  exists (take (length e) v :: es'). simpl. rewrite E1, E2, take_drop, length_take. split; [done|]. f_equal. lia.
Qed.

(** The model a pull brings. *)
Definition pulled_model (s : Store (AdaGradEntry Q) (HState Q)) (keys : list Z) : list (list Q) :=
  map (fun z => sent (Float0 := Qfloat) s.(handle_).(params) (KVStore.at_ s.(data_) z)) keys.

Lemma step_pull (s : Store (AdaGradEntry Q) (HState Q)) keys :
  store_ok s.(data_) -> s.(k_) = 1 ->
  exists s', HandlePull s (mkMsg 0 keys true None None) = Ok (s', concat (pulled_model s keys), Some (map length (pulled_model s keys))).
Proof using.
  intros Hok Hk. destruct (HandlePull_dyn_spec entry_ok s (mkMsg 0 keys true None None)
    (sent (Float0 := Qfloat) (Start_ false 0 s.(handle_)).(params)) eq_refl) as (d & Ep & _).
  { intros z. by apply (at_ok (HF := Qfloat) junk rand). }
  { rewrite Hk. apply (pulls_sent (HF := Qfloat) junk rand). }
  eexists. unfold pulled_model. rewrite map_map. exact Ep.
Qed.

Lemma step_callback w wl mb rs keys c es lbl wgt r prob :
  trainable w mb rs -> wl.(Workload.type) = Workload.TRAIN ->
  holds c (map (local_row key keys) rs) -> uniform (map (local_row key keys) rs) ->
  localized keys rs (map (local_row key keys) rs) -> length es = length keys -> keys <> [] ->
  (Z.of_nat (length (concat es)) < 2 ^ 32)%Z ->
  let rs' := map (local_row key keys) rs in
  exists blk l pr py_w g,
    pull_callback (HF := Qfloat) (FD := Qfloat) id id dexp dlog tiny sort rand sched shares w wl prob lbl wgt r c keys
      (concat es) (map length es) =
      Ok (mkPulled (progress_data (FD := Qfloat) id pr) None (Some (mkMsg 0 keys true (Some g) (Some (map length es)), SetFilters w.(w_conf_) 2))) /\
    evaluates es (conf_dim w.(w_conf_)) shares blk rs' dexp dlog sort l pr py_w /\ length g = length (concat es) /\
    gradient_at tiny rand w.(w_conf_) es rs' r (zip_with (dual_of dexp) (default [] (b_label blk)) (py_ l)) g.
Proof.
  intros Ht Hty Hh Hu Hr Hl Hne Hsm rs'. destruct (localized_minibatch w mb rs keys c es Ht Hh Hu Hr Hl Hne Hsm) as (blk & Eb & Hmb).
  destruct (CalcGrad_ok sched shares dexp dlog sort tiny rand w.(w_conf_) es blk rs' lbl wgt r (concat es) Hmb eq_refl)
    as (l0 & l & pr & g & py_w & E1 & E2 & E3 & Hg & Hgr & Hev).
  exists blk, l, pr, py_w, g. split; [|done].
  unfold pull_callback. rewrite Eb. cbn [mbind outcome_bind]. rewrite E1. cbn [mbind outcome_bind]. rewrite E2. cbn [mbind outcome_bind].
  rewrite Hty. rewrite (bool_decide_eq_false_2 (Workload.TRAIN = Workload.PRED)), (bool_decide_eq_true_2 (Workload.TRAIN = Workload.TRAIN)) by done.
  cbn [mbind outcome_bind]. rewrite E3. done.
Qed.

(** What the pushes of the counts leave on the server. *)
Lemma counts_pushed (conf : Config Q) keys (c c' : list Q) (s : Store (AdaGradEntry Q) (HState Q)) :
  store_ok s.(data_) -> length c = length keys -> Forall (fun c => 0 <= ftoZ (Float := Qfloat) c < 2 ^ 32)%Z c ->
  converts (FF := Qfloat) (conv_of conf 0) c c' ->
  exists s1, HandlePush s (mkMsg kPushFeaCnt keys false (Some c') None) = Ok s1 /\ store_ok s1.(data_) /\ s1.(k_) = s.(k_).
Proof using.
  intros Hok Hl Hc Hv. apply (count_push_accepted (HF := Qfloat) junk rand s keys c' Hok).
  - unfold conv_of in Hv. destruct (decide (0 < fixed_bytes conf)%Z); cbn in Hv; [|by rewrite Hv]. destruct Hv as [-> _]. done.
  - unfold conv_of in Hv. destruct (decide (0 < fixed_bytes conf)%Z); cbn in Hv; [|by rewrite Hv]. destruct Hv as (_ & _ & Hf).
    eapply Forall_impl; [by apply Hf|]. intros x (lo & hi & z & [= <- <-] & Hz & ->). assert (ftoZ (Float := Qfloat) (fofZ (Float := Qfloat) z) = z) as -> by apply Z.quot_1_r. lia.
Qed.

Lemma step_sendable keys dyn (v : option (list Q)) (sz : option (list nat)) cmd :
  keys <> [] -> Forall (fun z => 0 <= z < 2 ^ 64)%Z keys -> (forall l, sz = Some l -> Forall (fun n => Z.of_nat n < 2 ^ 31)%Z l) ->
  (sz <> None -> v <> None) -> sendable (mkMsg cmd keys dyn v sz).
Proof using. intros. by split. Qed.

Lemma lengths_small (es : list (list Q)) : (Z.of_nat (length (concat es)) < 2 ^ 31)%Z -> Forall (fun n => Z.of_nat n < 2 ^ 31)%Z (map length es).
Proof using.
  rewrite length_concat_sum. induction (map length es) as [|n ns IH]; intros Hs; [constructor|]. simpl in Hs. constructor; [lia|]. apply IH. lia.
Qed.

(** C1: one training step between a worker and a server, in exact arithmetic,
    through the filters of the configuration.  The worker localizes its minibatch; in
    the first pass its push of the feature counts is accepted as it arrives; the
    pull brings the model of its features, in the order of their keys.  Whatever
    the filters make of the values on the way back -- the same values when the
    configuration does not quantize them -- the worker computes on the model that
    arrived the factorization machine of every row, reports the objectives and
    AUC, and sends the gradient at that model, clipped, thinned out and
    normalized as configured; however the gradient arrives, the server accepts
    it, whatever it was asked between the pull and the push. *)
Theorem training_step w wl mb rs (s : Store (AdaGradEntry Q) (HState Q)) lbl wgt r prob :
  trainable w mb rs -> wl.(Workload.type) = Workload.TRAIN -> store_ok s.(data_) -> s.(k_) = 1 ->
  exists cnt keys data,
    let pull := mkMsg 0 keys true None None in
    let rs' := map (local_row key keys) rs in
    ProcessMinibatch (HF := Qfloat) sort_pairs FLAGS_max_key w wl mb = Ok (cnt, (pull, SetFilters w.(w_conf_) 1), data) /\
    StronglySorted Z.lt keys /\ (forall z, z ∈ keys <-> z ∈ map key (concat (map a_index rs))) /\ localized keys rs rs' /\
    (wl.(Workload.data_pass) = 0%Z -> w.(do_embedding_) = true -> exists c, map fst cnt = [mkMsg kPushFeaCnt keys false (Some c) None]) /\
    (forall pull', arrives true false (SetFilters w.(w_conf_) 1) pull pull' -> pull' = pull) /\
    forall cnt', Forall2 (fun m m' => arrives true true m.2 m.1 m') cnt cnt' ->
    exists s1 s2 es,
      foldM HandlePush cnt' s = Ok s1 /\
      HandlePull s1 pull = Ok (s2, concat es, Some (map length es)) /\ es = pulled_model s1 keys /\
      ((Z.of_nat (length (concat es)) < 2 ^ 31)%Z ->
       forall answer, arrives false false (SetFilters w.(w_conf_) 1) (mkMsg 0 keys true (Some (concat es)) (Some (map length es))) answer ->
       exists es' res blk l pr py_w g,
         let push := mkMsg 0 keys true (Some g) (Some (map length es')) in
         answer = mkMsg 0 keys true (Some (concat es')) (Some (map length es')) /\ map length es' = map length es /\
         ((w.(w_conf_).(fixed_bytes) <= 0)%Z -> es' = es) /\
         pull_callback (HF := Qfloat) (FD := Qfloat) id id dexp dlog tiny sort rand sched shares w wl prob lbl wgt r data keys
           (concat es') (map length es') = Ok res /\
         evaluates es' (conf_dim w.(w_conf_)) shares blk rs' dexp dlog sort l pr py_w /\
         res = mkPulled (progress_data (FD := Qfloat) id pr) None (Some (push, SetFilters w.(w_conf_) 2)) /\
         gradient_at tiny rand w.(w_conf_) es' rs' r (zip_with (dual_of dexp) (default [] (b_label blk)) (py_ l)) g /\
         forall push', arrives true true (SetFilters w.(w_conf_) 2) push push' ->
         forall reqs n s3 out, serve (fun _ => KVStoreSparseST) reqs s2 = Ok (n, s3, out) ->
           exists s4, HandlePush s3 push' = Ok s4).
Proof.
  intros Ht Hty Hok Hk. pose proof Ht as [T1 T2 T3 T4 T5].
  destruct (Localize_ok (H := Qfloat) 8 (2 ^ 64 - 1) FLAGS_max_key _ sort_pairs false 0 inject_Z mb rs [] [] ltac:(lia) sort_pairs_ok T1 T4 T2 T3)
    as (c & keys & E & Hs & Hin & Hh & Hu & Hr).
  set (frq := map _ keys) in E.
  set (cnt := if bool_decide (Workload.type wl = Workload.TRAIN) && bool_decide (Workload.data_pass wl = 0%Z) && do_embedding_ w
    then [(mkMsg kPushFeaCnt keys false (Some frq) None, SetFilters (w_conf_ w) 0)] else []).
  assert (keys <> []) as Hne.
  { intros ->. destruct (concat (map a_index rs)) as [|x xs]; [done|]. apply (not_elem_of_nil (key x)), Hin. simpl. by left. }
  assert (Forall (fun z => 0 <= z < 2 ^ 64)%Z keys) as Hkr.
  { apply Forall_forall. intros z Hz%Hin. apply list_elem_of_In, in_map_iff in Hz as (ix & <- & _). apply key_in_range. }
  exists cnt, keys, c. cbv zeta. split; [|split; [done|split; [done|split; [done|split; [|split]]]]].
  - unfold ProcessMinibatch. change (fofZ (Float := Qfloat)) with inject_Z. rewrite E. done.
  - intros Hp Hd. exists frq. subst cnt. by rewrite Hty, Hp, Hd.
  - intros pull' Ha. apply SetFilters_arrive in Ha as (v' & -> & Hv); [|by apply step_sendable]. by destruct v'.
  - intros cnt' Hcnt.
    assert (exists s1, foldM HandlePush cnt' s = Ok s1 /\ store_ok s1.(data_) /\ s1.(k_) = 1) as (s1 & E1 & Hok1 & Hk1).
    { subst cnt. destruct (_ && _ && _); [|inversion Hcnt; subst; by exists s].
      inversion Hcnt as [|? m' ? ms' Ha Hn]; subst. inversion Hn; subst. cbn [fst snd] in Ha.
      apply SetFilters_arrive in Ha as (v' & -> & Hv); [|by apply step_sendable]. cbn [m_value m_cmd m_key m_dyn m_size] in *. destruct v' as [v'|]; [|done].
      destruct (counts_pushed (w_conf_ w) keys frq v' s Hok) as (s1 & Es & Ho & Hk1); [subst frq; by rewrite length_map|by apply counts_fit|done|].
      exists s1. cbn [foldM]. rewrite Es. split; [done|]. split; [done|congruence]. }
    destruct (step_pull s1 keys Hok1 Hk1) as (s2 & E2).
    exists s1, s2, (pulled_model s1 keys). split; [done|]. split; [done|]. split; [done|]. intros Hsm answer Ha.
    set (es := pulled_model s1 keys) in *. assert (length es = length keys) as Hles by (unfold es, pulled_model; by rewrite length_map).
    apply SetFilters_arrive in Ha as (v' & -> & Hv); [|apply step_sendable; [done|done| |done]; intros l [= <-]; by apply lengths_small].
    cbn [m_value m_cmd m_key m_dyn m_size] in *. destruct v' as [v'|]; [|done].
    assert (exists es', concat es' = v' /\ map length es' = map length es /\ ((fixed_bytes (w_conf_ w) <= 0)%Z -> es' = es)) as (es' & Ev' & Hl' & Hexact).
    { unfold conv_of in Hv. destruct (decide (0 < fixed_bytes (w_conf_ w))%Z); cbn in Hv; [|by exists es].
      destruct Hv as [Hv _]. destruct (reshaped es v' Hv) as (es' & E3 & E4). exists es'. split_and!; [done|done|lia]. }
    assert (length (concat es') = length (concat es)) as Hlc by (by rewrite !length_concat_sum, Hl').
    destruct (step_callback w wl mb rs keys c es' lbl wgt r prob Ht Hty Hh Hu Hr) as (blk & l & pr & py_w & g & Ec & He & Hg & Hgr);
      [rewrite <- Hles, <- (length_map length es'), Hl'; apply length_map|done|lia|].
    eexists es', _, blk, l, pr, py_w, g. split; [by rewrite Ev', Hl'|]. split; [done|]. split; [done|]. split; [exact Ec|]. split; [done|]. split; [done|]. split; [done|].
    intros push' Hp reqs n s3 out Hserve.
    apply SetFilters_arrive in Hp as (g' & -> & Hg'); [|apply step_sendable; [done|done| |done]; intros sz [= <-]; rewrite Hl'; by apply lengths_small].
    cbn [m_value m_cmd m_key m_dyn m_size] in *. destruct g' as [g'|]; [|done]. rewrite Hl'.
    apply (push_back_accepted (HF := Qfloat) junk rand s1 0 keys s2 (concat es) (map length es) reqs n s3 out 0 g'); try done.
    rewrite <- Hlc, <- Hg. unfold conv_of in Hg'. destruct (decide (0 < fixed_bytes (w_conf_ w))%Z); cbn in Hg'; [by destruct Hg'|by rewrite Hg'].
Qed.

End Step.

(** ** A concrete step: two rows, three features, the first pass on an empty
    server, with all the filters: the counts are truncated to a byte, the model
    and the gradient are quantized to a byte per value *)
#[local] Existing Instance Qmemory.
#[local] Existing Instance Qmemory_laws.
#[local] Existing Instance kept.
#[local] Existing Instance kept_laws.

Definition step_conf : Config Q :=
  mkConfig 0%Q 0%Q 1%Q 1%Q false [mkEmbConf 2 1 0%Q None 1%Q None 0%Q 0%Q 0%Q] 2 false false None 0%Q true true 1.
Definition step_worker : AsyncWorker (F := Q) := new_AsyncWorker step_conf 10 0 2 1%Q.
Definition step_server : Store (AdaGradEntry Q) (HState Q) := AsyncServer (Float0 := Qfloat) step_conf 1.
Definition step_hash (k : list byte) : Z := Z.of_nat (length k).
Abbreviation step_arrives := (arrives (FF := Qfloat) (FD := Qfloat) id Qred Qred step_hash (fun _ => 0%Z)).

Lemma step_trainable : trainable [[1]; [0]] step_worker demo_blk demo_blk_rows.
Proof.
  split; simpl; try lia; [apply demo_blk_shows|discriminate|]. unfold schedule. simpl. apply perm_swap.
Qed.

(** What is sent, and what arrives. *)
Definition step_keys : list Z := [3458764513820540928; 8070450532247928832; 10376293541461622784]%Z.
Definition step_es : list (list Q) := let v := (-2147483647 # 2147483647)%Q in [[0%Q; v; v]; [0%Q; v; v]; [0%Q]].
Definition step_answer : option (Message Q) := Eval vm_compute in
  send step_hash false false [KEY_CACHING false; FIXING_FLOAT 1; COMPRESSING] (mkMsg 0 step_keys true (Some (concat step_es)) (Some [3; 3; 1])).
Lemma step_answer_arrives : exists a, step_answer = Some a /\
  step_arrives false false [KEY_CACHING false; FIXING_FLOAT 1; COMPRESSING] (mkMsg 0 step_keys true (Some (concat step_es)) (Some [3; 3; 1])) a.
Proof. eexists. split; [reflexivity|]. apply send_arrives. vm_compute. reflexivity. Qed.

Lemma training_step_witness :
  let wl := Workload.mk Workload.TRAIN 0 [] in
  let _ := AdaGradHandle (Float0 := Qfloat) 7%Q (fun _ => 0%Z) in
  exists keys data c s1 s2 es es' res g s4,
    let push := mkMsg 0 keys true (Some g) (Some [3; 3; 1]) in
    ProcessMinibatch (HF := Qfloat) demo_sort (2 ^ 64 - 1) step_worker wl demo_blk =
      Ok ([(mkMsg kPushFeaCnt keys false (Some c) None, [KEY_CACHING false; TRUNCATE_FLOAT 1; COMPRESSING])],
          (mkMsg 0 keys true None None, [KEY_CACHING false; FIXING_FLOAT 1; COMPRESSING]), data) /\
    length keys = 3 /\
    HandlePull s1 (mkMsg 0 keys true None None) = Ok (s2, concat es, Some [3; 3; 1]) /\
    step_arrives false false [KEY_CACHING false; FIXING_FLOAT 1; COMPRESSING] (mkMsg 0 keys true (Some (concat es)) (Some [3; 3; 1]))
      (mkMsg 0 keys true (Some (concat es')) (Some [3; 3; 1])) /\
    pull_callback (HF := Qfloat) (FD := Qfloat) id id (fun x => x) (fun x => x) 0%Q ex_sort (fun _ => 0%Z) (@concat _) [[1]; [0]]
      step_worker wl true None None 0 data keys (concat es') [3; 3; 1] = Ok res /\
    res.(grad_push) = Some (push, [KEY_CACHING true; FIXING_FLOAT 1; COMPRESSING]) /\
    exists push', step_arrives true true [KEY_CACHING true; FIXING_FLOAT 1; COMPRESSING] push push' /\ HandlePush s2 push' = Ok s4.
Proof.
  intros wl hd.
  destruct (training_step (@concat _) [[1]; [0]] (fun x => x) (fun x => x) ex_sort 0%Q (fun _ => 0%Z) demo_sort (2 ^ 64 - 1) 7%Q
    demo_sort_ok interleave_concat ltac:(done) id Qred Qred step_hash (fun _ => 0%Z) kept_refuses
    step_worker wl demo_blk demo_blk_rows step_server None None 0 true
    step_trainable eq_refl (map_Forall_empty _) eq_refl)
    as (cnt & keys & data & E1 & _ & _ & _ & _ & _ & Hgo).
  pose proof E1 as E1'. vm_compute in E1'. injection E1' as Hc Hk Hd.
  destruct (Hgo (map fst cnt)) as (s1 & s2 & es & E2 & E3 & Ees & Hgo').
  { subst cnt. repeat constructor. apply send_arrives. vm_compute. reflexivity. }
  clear Hgo.
  assert (keys = step_keys /\ es = step_es) as [Hks Hes].
  { split; [by rewrite <- Hk|]. rewrite Ees. subst cnt keys. vm_compute in E2. injection E2 as <-. vm_compute. reflexivity. }
  destruct step_answer_arrives as (a & Ea & Ha). rewrite Hks, Hes in Hgo'.
  destruct (Hgo' ltac:(done) a Ha) as (es' & res & blk & l & pr & py_w & g & Ea' & Hl & _ & Ec & _ & Er & _ & Hpush). clear Hgo'.
  change (map length step_es) with [3; 3; 1] in *. rewrite Hl in *.
  assert (concat es' = match step_answer with Some a => default [] (m_value a) | None => [] end) as Hv by (rewrite Ea, Ea'; reflexivity).
  pose proof Ec as Ec'. rewrite Hv, <- Hd in Ec'. vm_compute in Ec'. injection Ec' as Eres. pose proof Er as Er'. rewrite <- Eres in Er'.
  injection Er' as _ _ _ _ Hg.
  destruct (send step_hash true true [KEY_CACHING true; FIXING_FLOAT 1; COMPRESSING] (mkMsg 0 keys true (Some g) (Some [3; 3; 1]))) as [push'|] eqn:Ep;
    [|exfalso; clear -Hg Hks Ep; rewrite <- Hg, Hks in Ep; vm_compute in Ep; discriminate].
  apply send_arrives in Ep. destruct (Hpush push' ltac:(rewrite <- Hks; exact Ep) [] 0 s2 [] eq_refl) as [s4 E4].
  rewrite <- Hks in *. exists keys, data, (match cnt with (m, _) :: _ => default [] (m_value m) | [] => [] end), s1, s2, step_es, es', res, g, s4.
  split; [rewrite E1, <- Hc, <- Hk; reflexivity|]. split; [by rewrite <- Hk|]. split; [rewrite Hes in E3; exact E3|].
  split; [rewrite <- Ea'; exact Ha|]. split; [exact Ec|]. split; [rewrite Er; reflexivity|]. exists push'. split; [exact Ep|exact E4].
Defined.

(** ** Early stopping *)

(** A run of two passes over two files, with progress after each part, that is
    to stop when the objective exceeds 1. *)
Definition strict_conf : Config SpecFloat.spec_float :=
  let f := fofZ (Float := binary64) in
  mkConfig (f 0%Z) (f 0%Z) (f 1%Z) (f 1%Z) false [] 1 false false (Some (f 1%Z)) (f 0%Z) false false 0.
Definition strict_run : MinibatchScheduler (D := SpecFloat.spec_float) (St := AsyncScheduler (D := SpecFloat.spec_float)) :=
  let z := SpecFloat.S754_zero false in
  mkMS "train/.*" "" "" 0 "" 0 2 "" (mkSched "" "libsvm" 1 false (Workload.mk Workload.TRAIN 0 []) WorkloadPool.demo_pool)
    (mkAS (mkDP (replicate 8 z) z z z) strict_conf z).
Definition strict_pass : pass_input (D := SpecFloat.spec_float) :=
  let f := fofZ (Float := binary64) in
  let bad := [f 100; f 0; f 100; f 0; f 1; f 1; f 0; f 0]%Z in
  mkPassInput [] [mkPoll [answered; answered] bad [answered]; mkPoll [answered] bad []] [].

(** The option [max_objv] of DiFacto has no effect: on progress whose
    objective is 100 times the limit the run makes all its passes.  The method
    that implements the option would have ended the run in the first one; the
    solver does not call it, because its argument has another type than that of
    the method it is meant to override. *)
Theorem early_stop_ignored :
  let run hooks := Run (HD := binary64) run_match Workload.TRAIN 0 map_to_list hooks strict_run [strict_pass; strict_pass] in
  (exists s' ev, run (Async_hooks (HD := binary64)) = Ok (Some (s', ev)) /\
    filter control ev = [Began 0 Workload.TRAIN; Began 1 Workload.TRAIN]) /\
  (exists s' ev, run (Async_hooks_meant (HD := binary64)) = Ok (Some (s', ev)) /\
    filter control ev = [Began 0 Workload.TRAIN]).
Proof. split; eexists _, _; (split; [vm_compute; reflexivity|vm_compute; reflexivity]). Qed.
