(* ===== verification/LinearWorker.v ===== *)
(** * Linear methods: the losses, the worker and the scheduler

    Models src/src/linear/loss.h, src/src/linear/progress.h and the worker and
    the scheduler of src/src/linear/async_sgd.h, over the same products, metrics
    and localizer as DiFacto and against the servers of [Linear]. *)
From S2P Require Import Prelude Floats Stream Workload WorkloadPool RowBlock Localizer Parallel SpMV KVStore AdaGrad Linear BinClass Loss FM FMGrad.
From S2P Require Import Minibatch CRB Filters Transport DataParallel Solver Worker Async.
From Stdlib Require Import QArith Qminmax Qabs Lqa.
#[local] Existing Instance Workload.Type_eq_dec.
#[local] Open Scope nat_scope.

(** ** The progress *)

Section LProgress.
Context {D : Type} `{HD : !Float D}.

(** [Progress::data]: objv, acc, auc, count, new_ex, new_w. *)
Definition new_LProgress : list D := replicate 6 fzero.
Definition lp_objv (d : list D) : D := at_or_zero d 0.
Definition lp_acc (d : list D) : D := at_or_zero d 1.
Definition lp_auc (d : list D) : D := at_or_zero d 2.
Definition lp_count (d : list D) : D := at_or_zero d 3.
Definition lp_new_ex (d : list D) : D := at_or_zero d 4.
Definition lp_new_w (d : list D) : D := at_or_zero d 5.

(** [struct Progress] *)
Record LProgress := mkLP { lp_data : list D; lp_ttl_ex : D; lp_nnz_w : D }.

(** [PrintStr()]: the values it prints, none when it returns the empty string. *)
Definition LPrintStr (p : LProgress) : LProgress * list D :=
  let d := if decide (length p.(lp_data) < 6) then resize 6 fzero p.(lp_data) else p.(lp_data) in
  let p := mkLP d (p.(lp_ttl_ex) + lp_new_ex d)%F (p.(lp_nnz_w) + lp_new_w d)%F in
  if feqb (lp_new_ex d) fzero then (p, []) else
  (p, [p.(lp_ttl_ex); lp_new_ex d; p.(lp_nnz_w); lp_objv d / lp_new_ex d; lp_acc d / lp_count d; lp_auc d / lp_count d]%F).

(** [class AsgdScheduler] beside its base; [ProgString(prog)] is its only method
    with a state. *)
Definition new_AsgdScheduler : LProgress := mkLP new_LProgress fzero fzero.
Definition Asgd_ProgString (s : LProgress) (prog : list D) : LProgress * list D :=
  LPrintStr (mkLP prog s.(lp_ttl_ex) s.(lp_nnz_w)).
Definition Asgd_hooks : Hooks (D := D) LProgress := mkHooks base_Stop Asgd_ProgString.

End LProgress.
Arguments LProgress D : clear implicits.

(** ** The losses *)

(** [Config::Loss] *)
Inductive LossType := SQUARE | LOGIT | SQUARE_HINGE.

Section ScalarLoss.
Context {F : Type} `{HF : !Float F} {D : Type} `{FD : !Float D} (widen : F -> D) (narrow : D -> F) (dexp dlog : D -> D).
Context (sort : list (F * F) -> list (F * F)) (sched : list (list (action F)) -> list (action F)) (shares : list (list nat)).

(** [class ScalarLoss] and the classes below it; [l_loss] says which class the
    object is of. *)
Record ScalarLoss := mkSL { l_loss : LossType; l_init : bool; l_data : RowBlock F; l_Xw : list F; l_nt : nat }.

(** [CreateLoss(loss)]; the constructor does not set [nt_]. *)
Definition CreateLoss (junk_nt : nat) (loss : LossType) : outcome ScalarLoss :=
  match loss with
  | LOGIT | SQUARE_HINGE => Ok (mkSL loss false no_block [] junk_nt)
  | SQUARE => Fail CheckFailed
  end.

(** [Init(data, w, nt)]: the product runs on the [nt_] of before. *)
Definition LInit (data : RowBlock F) (w : list F) (nt : nat) (l : ScalarLoss) : outcome ScalarLoss :=
  let Xw := resize data.(b_size) fzero l.(l_Xw) in
  Xw ← SpMV_Times (D := D) sched data w Xw l.(l_nt);
  Ok (mkSL l.(l_loss) true data Xw nt).

(** [label > 0 ? 1 : -1] *)
Definition sign_of (lb : F) : F := if (fzero <? lb)%F then fone else fneg fone.

Definition l_eval (l : ScalarLoss) : BinClassEval F := mkEval (default [] l.(l_data).(b_label)) l.(l_Xw) (length l.(l_Xw)).

(** [ScalarLoss::Evaluate(prog)] *)
Definition Scalar_Evaluate (l : ScalarLoss) (prog : list D) : outcome (list D) :=
  _ ← check l.(l_init);
  Ok (<[3 := fone]> (<[4 := fofZ (Z.of_nat l.(l_data).(b_size))]> prog)).

(** [BinClassLoss::Evaluate(prog)] *)
Definition BinClass_Evaluate (l : ScalarLoss) (prog : list D) : outcome (list D) :=
  prog ← Scalar_Evaluate l prog;
  auc ← AUC sort (l_eval l);
  acc ← Accuracy shares (l_eval l) fzero;
  Ok (<[1 := widen acc]> (<[2 := widen auc]> prog)).

(** [LogitLoss::Evaluate(prog)] *)
Definition Logit_Evaluate (l : ScalarLoss) (prog : list D) : outcome (list D) :=
  prog ← BinClass_Evaluate l prog;
  objv ← LogitObjv widen narrow dexp dlog shares (l_eval l);
  Ok (<[0 := widen objv]> prog).

(** One example of [SquareHingeLoss::Evaluate]. *)
Definition hinge_term (l : ScalarLoss) (i : nat) : outcome (option (F -> F)) :=
  lb ← ptr_at l.(l_data).(b_label) i; xw ← read_at l.(l_Xw) i;
  let y := sign_of lb in
  let tmp := fmax (fone - y * xw)%F fzero in
  Ok (Some (fun objv => (objv + tmp * tmp)%F)).

(** [SquareHingeLoss::Evaluate(prog)] *)
Definition SquareHinge_Evaluate (l : ScalarLoss) (prog : list D) : outcome (list D) :=
  prog ← BinClass_Evaluate l prog;
  objv ← reduce (hinge_term l) shares;
  Ok (<[0 := widen objv]> prog).

(** The loops that fill [dual], an element per example. *)
Definition fill_dual (l : ScalarLoss) (f : F -> F -> F) : outcome (list F) :=
  let n := l.(l_data).(b_size) in
  foldM (fun dual i =>
    lb ← ptr_at l.(l_data).(b_label) i; xw ← read_at l.(l_Xw) i;
    write_at dual i (f (sign_of lb) xw)) (seq 0 n) (replicate n fzero).

(** [- y / (1 + exp(y * Xw))] *)
Definition logit_dual (y xw : F) : F := narrow (widen (fneg y) / (fone + dexp (widen (y * xw)%F)))%F.

(** [LogitLoss::CalcGrad(grad)] *)
Definition Logit_CalcGrad (l : ScalarLoss) (grad : list F) : outcome (list F) :=
  _ ← check l.(l_init);
  dual ← fill_dual l logit_dual;
  SpMV_TransTimes (D := D) sched l.(l_data) dual grad l.(l_nt).

(** [y * (y * Xw > 1.0)] *)
Definition hinge_dual (y xw : F) : F := (y * (if fltb fone (widen (y * xw)%F) then fone else fzero))%F.

(** [SquareHingeLoss::CalcGrad(grad)] *)
Definition SquareHinge_CalcGrad (l : ScalarLoss) (grad : list F) : outcome (list F) :=
  _ ← check l.(l_init);
  dual ← fill_dual l hinge_dual;
  grad ← SpMV_TransTimes (D := D) sched l.(l_data) dual grad l.(l_nt);
  Ok (map (fun g => narrow (widen g * fneg (fofZ 2))%F) grad).

(** The virtual methods. *)
Definition LEvaluate (l : ScalarLoss) (prog : list D) : outcome (list D) :=
  match l.(l_loss) with
  | LOGIT => Logit_Evaluate l prog
  | SQUARE_HINGE => SquareHinge_Evaluate l prog
  | SQUARE => Scalar_Evaluate l prog
  end.

Definition LCalcGrad (l : ScalarLoss) (grad : list F) : outcome (list F) :=
  match l.(l_loss) with
  | LOGIT => Logit_CalcGrad l grad
  | SQUARE_HINGE => SquareHinge_CalcGrad l grad
  | SQUARE => Fail CheckFailed
  end.

(** [Predict(fo, prob_out)]: the numbers that are printed. *)
Definition LPredict (l : ScalarLoss) (prob_out : bool) : outcome (list D) :=
  _ ← check l.(l_init);
  Ok (map (fun p => if prob_out then (fone / (fone + dexp (widen (fneg p))))%F else widen p) l.(l_Xw)).

End ScalarLoss.
Arguments ScalarLoss F : clear implicits.

(** ** The worker *)

Section AsgdWorker.
Context {F : Type} `{HF : !Float F} {D : Type} `{FD : !Float D} (widen : F -> D) (narrow : D -> F) (dexp dlog : D -> D).
Context (sort_pairs : list Localizer.Pair -> list Localizer.Pair) (sort : list (F * F) -> list (F * F)).
Context (sched : list (list (action F)) -> list (action F)) (shares : list (list nat)) (FLAGS_max_key : Z).

(** What the worker reads of its configuration. *)
Record LWConf := mkLWConf {
  lw_loss : LossType; lw_prob_predict : bool; lw_fixed_bytes : Z; lw_key_cache : bool; lw_msg_compression : bool;
  lw_minibatch : nat; lw_rand_shuffle : nat; lw_max_concurrency : nat; lw_neg_sampling : F; lw_num_threads : nat }.

Record AsgdWorker := mkAsgd { lw_conf : LWConf; lw_nt : nat; lw_base : MinibatchWorker (F := F) }.

(** The constructor. *)
Definition new_AsgdWorker (conf : LWConf) : AsgdWorker :=
  mkAsgd conf conf.(lw_num_threads)
    (mkWorker conf.(lw_minibatch) conf.(lw_max_concurrency) conf.(lw_rand_shuffle) conf.(lw_neg_sampling) 10000000 10).

(** [SetFilters(push, opts)] *)
Definition LSetFilters (conf : LWConf) (push : bool) : list Filter :=
  (if decide (0 < conf.(lw_fixed_bytes))%Z then [FIXING_FLOAT conf.(lw_fixed_bytes)] else []) ++
  (if conf.(lw_key_cache) then [KEY_CACHING push] else []) ++
  (if conf.(lw_msg_compression) then [COMPRESSING] else []).

(** [ProcessMinibatch(mb, wl)] up to the pull, which has no filters; the number
    of parts of the first file, which is not used, is read. *)
Definition LProcessMinibatch (w : AsgdWorker) (wl : Workload.t) (mb : RowBlock F) : outcome (Message F * Container F) :=
  '(data, feaid, _) ← Localizer.Localize 8 (2 ^ 64 - 1) FLAGS_max_key w.(lw_nt) sort_pairs false 0 (fun z => z) mb RowBlock.Clear [] [];
  _ ← read_at wl.(Workload.file) 0;
  Ok (mkMsg 0 feaid false None None, data).

(** The callback of the pull, with the weights [val] of the keys [feaid];
    [finished] tells that [FinishMinibatch] was called. *)
Record LPulled := mkLPulled {
  l_reported : list D; l_predictions : option (list D); l_grad_push : option (Message F * list Filter); l_finished : bool }.

Definition l_pull_callback (w : AsgdWorker) (wl : Workload.t) (junk_nt : nat) (data : Container F) (feaid : list Z) (val : list F)
  : outcome LPulled :=
  loss ← CreateLoss junk_nt w.(lw_conf).(lw_loss);
  blk ← GetBlock data;
  loss ← LInit (D := D) sched blk val w.(lw_nt) loss;
  prog ← LEvaluate widen narrow dexp dlog sort shares loss new_LProgress;
  pred ← (if bool_decide (wl.(Workload.type) = Workload.PRED)
          then p ← LPredict widen dexp loss w.(lw_conf).(lw_prob_predict); Ok (Some p) else Ok None);
  if bool_decide (wl.(Workload.type) = Workload.TRAIN) then
    g ← LCalcGrad widen narrow dexp sched loss val;
    Ok (mkLPulled prog pred (Some (mkMsg 0 feaid false (Some g) None, LSetFilters w.(lw_conf) true)) false)
  else Ok (mkLPulled prog pred None true).

(** The callback of the push of the gradient is [FinishMinibatch]. *)

End AsgdWorker.
Arguments LWConf F : clear implicits.
Arguments AsgdWorker F : clear implicits.

(** ** The losses over the exact rationals *)

(** A loop that fills a buffer, an element per iteration. *)
Lemma foldM_fill {A} (f : nat -> outcome A) (l init : list A) :
  length init = length l -> (forall i x, l !! i = Some x -> f i = Ok x) ->
  foldM (fun acc i => x ← f i; write_at acc i x) (seq 0 (length l)) init = Ok l.
Proof.
  intros Hl Hf.
  destruct (foldM_seq (fun acc i => x ← f i; write_at acc i x) (fun i acc =>
    length acc = length l /\ take i acc = take i l) 0 (length l) init) as (r & -> & H1 & H2).
  - done.
  - intros i acc Hi [H1 H2]. destruct (lookup_lt_is_Some_2 l i) as [x Hx]; [lia|].
    rewrite (Hf i x Hx). cbn [mbind outcome_bind]. rewrite write_at_lt by lia. eexists. split; [reflexivity|].
    rewrite length_insert. split; [done|]. rewrite Nat.add_1_r, take_S_insert by lia.
    rewrite H2. symmetry. by apply take_S_r.
  - rewrite Nat.add_0_l, !take_ge in H2 by lia. by rewrite H2.
Qed.

(** The sign of a label. *)
Notation qsign := (sign_of (HF := Qfloat)).

(** The loss of an example with label [lb] and prediction [p] ... *)
Definition l_objective (dexp dlog : Q -> Q) (loss : LossType) (labels preds : list Q) (i : nat) : Q :=
  match loss, labels !! i, preds !! i with
  | LOGIT, _, _ => logit dexp dlog labels preds i
  | SQUARE_HINGE, Some lb, Some p => Qmax (1 - qsign lb * p) 0 * Qmax (1 - qsign lb * p) 0
  | _, _, _ => 0
  end%Q.

(** ... and the factor of its features in the gradient. *)
Definition l_slope (dexp : Q -> Q) (loss : LossType) (lb p : Q) : Q :=
  match loss with
  | LOGIT => dual_of dexp lb p
  | SQUARE_HINGE => -2 * (qsign lb * (if Qle_bool (qsign lb * p) 1 then 0 else 1))
  | SQUARE => 0
  end%Q.

Definition singles (ws : list Q) : list (list Q) := map (fun w => [w]) ws.

Lemma singles_weights ws : map (w_entry (Float0 := Qfloat)) (singles ws) = ws.
Proof. unfold singles. rewrite map_map. apply map_id. Qed.

Section Losses.
Context (dexp dlog : Q -> Q) (sort : list (Q * Q) -> list (Q * Q)).
Context (sched : list (list (action Q)) -> list (action Q)) (shares : list (list nat)).
Hypothesis sched_ok : forall ts, interleave ts (sched ts).
Context (data : RowBlock Q) (rs : list (arow (F := Q))) (ws : list Q).
Hypothesis Hsh : shows 0 0 data rs.
Hypothesis Hcols : columns_below (length ws) rs.
Hypothesis shares_ok : schedule (length rs) shares.

(** An initialised loss: its predictions are the inner products of the rows with
    the weights. *)
Record predicts (loss : LossType) (nt : nat) (l : ScalarLoss Q) : Prop := {
  pr_loss : l.(l_loss) = loss;
  pr_init : l.(l_init) = true;
  pr_data : l.(l_data) = data;
  pr_nt : l.(l_nt) = nt;
  pr_length : length l.(l_Xw) = length rs;
  pr_value : forall i r, rs !! i = Some r -> exists p, l.(l_Xw) !! i = Some p /\ (p == FM.linear (singles ws) r)%Q
}.

Lemma LInit_ok loss junk_nt nt :
  0 < junk_nt ->
  exists l, LInit (HF := Qfloat) (FD := Qfloat) sched data ws nt (mkSL loss false no_block [] junk_nt) = Ok l /\ predicts loss nt l.
Proof.
  intros Hj. unfold LInit. cbn [l_Xw l_nt l_loss]. rewrite resize_nil, (s_size _ _ _ _ Hsh).
  destruct (linear_value (singles ws) sched sched_ok data rs Hsh) with (nt := junk_nt) as (py & E & Hl & Hv).
  - unfold singles. by rewrite length_map.
  - done.
  - rewrite singles_weights in E. change (fzero (Float := Qfloat)) with 0%Q. rewrite E. cbn [mbind outcome_bind].
    eexists. split; [reflexivity|]. by split.
Qed.

Context (loss : LossType) (nt : nat) (l : ScalarLoss Q) (Hl : predicts loss nt l).

Notation labels := (default [] (b_label data)).

Lemma l_labels : length rs <= length labels.
Proof using Hsh. apply (labels_length [] data rs Hsh). Qed.

Lemma BinClass_Evaluate_ok :
  exists a c, BinClass_Evaluate (HF := Qfloat) (FD := Qfloat) id sort shares l (new_LProgress (HD := Qfloat)) =
      Ok [0; c; a; 1; q (length rs); 0]%Q /\
    AUC (Float0 := Qfloat) sort (mkEval labels l.(l_Xw) (length rs)) = Ok a /\
    let t := (q (count (correct labels l.(l_Xw) 0%Q) (seq 0 (length rs))) / q (length rs))%Q in (c == Qmax t (1 - t))%Q.
Proof using Hsh shares_ok Hl.
  destruct Hl as [H1 H2 H3 H4 H5 H6]. unfold BinClass_Evaluate, Scalar_Evaluate. rewrite H2. cbn [check mbind outcome_bind].
  unfold l_eval. rewrite H3, H5.
  destruct (AUC_ok [] data rs Hsh sort l.(l_Xw) H5) as (a & Ea). unfold evaluation in Ea. rewrite H5 in Ea.
  rewrite Ea. cbn [mbind outcome_bind].
  destruct (Accuracy_value shares labels l.(l_Xw) (length rs) 0%Q) as (c & Ec & Hc).
  - apply l_labels.
  - by rewrite H5.
  - done.
  - change (fzero (Float := Qfloat)) with 0%Q. rewrite Ec. cbn [mbind outcome_bind]. exists a, c.
    rewrite (s_size _ _ _ _ Hsh). split; [reflexivity|]. split; [done|exact Hc].
Qed.

(** What [Evaluate] reports. *)
Definition l_evaluates (prog : list Q) : Prop :=
  exists o c a, prog = [o; c; a; 1; q (length rs); 0]%Q /\
    (o == Qsum (map (l_objective dexp dlog loss labels l.(l_Xw)) (seq 0 (length rs))))%Q /\
    AUC (Float0 := Qfloat) sort (mkEval labels l.(l_Xw) (length rs)) = Ok a /\
    let t := (q (count (correct labels l.(l_Xw) 0%Q) (seq 0 (length rs))) / q (length rs))%Q in (c == Qmax t (1 - t))%Q.

Lemma fmax_Qmax (a b : Q) : (fmax (H := Qfloat) a b == Qmax a b)%Q.
Proof using.
  unfold fmax. simpl. destruct (Qle_bool b a) eqn:E; simpl.
  - apply Qle_bool_iff in E. by rewrite Q.max_l.
  - assert (~ (b <= a)%Q) as H by (intros H; apply Qle_bool_iff in H; congruence). rewrite Q.max_r; [reflexivity|lra].
Qed.

Lemma LEvaluate_ok : loss <> SQUARE ->
  exists prog, LEvaluate (HF := Qfloat) (FD := Qfloat) id id dexp dlog sort shares l (new_LProgress (HD := Qfloat)) = Ok prog /\ l_evaluates prog.
Proof using Hsh shares_ok Hl.
  intros Hns. destruct BinClass_Evaluate_ok as (a & c & E & Ha & Hc). destruct Hl as [H1 H2 H3 H4 H5 H6].
  unfold LEvaluate, l_evaluates. rewrite H1. destruct loss; [done| |].
  - unfold Logit_Evaluate. rewrite E. cbn [mbind outcome_bind].
    destruct (LogitObjv_sum dexp dlog shares labels l.(l_Xw) (length rs)) as (o & Eo & Ho);
      [apply l_labels|by rewrite H5|done|].
    unfold l_eval. rewrite H3, H5, Eo. cbn [mbind outcome_bind]. eexists. split; [reflexivity|].
    exists o, c, a. split; [reflexivity|]. split; [exact Ho|]. by split.
  - unfold SquareHinge_Evaluate. rewrite E. cbn [mbind outcome_bind].
    destruct (reduce_sum (l_objective dexp dlog SQUARE_HINGE labels l.(l_Xw)) (length rs) shares
      (hinge_term (HF := Qfloat) l)) as (o & Eo & Ho).
    + done.
    + intros i Hi. pose proof l_labels as Hlb. destruct (lookup_lt_is_Some_2 labels i) as [lb El]; [lia|].
      destruct (lookup_lt_is_Some_2 l.(l_Xw) i) as [p Ep]; [lia|].
      unfold hinge_term, ptr_at. rewrite H3, (proj2 (read_at_Ok _ _ _) El). cbn [mbind outcome_bind].
      rewrite (proj2 (read_at_Ok _ _ _) Ep). cbn [mbind outcome_bind]. eexists. split; [reflexivity|].
      intros x. unfold l_objective. rewrite El, Ep. change (fadd (Float := Qfloat)) with Qplus.
      change (fmul (Float := Qfloat)) with Qmult. rewrite fmax_Qmax. reflexivity.
    + rewrite Eo. cbn [mbind outcome_bind]. eexists. split; [reflexivity|]. exists o, c, a. split; [reflexivity|]. split; [exact Ho|]. by split.
Qed.

Lemma fill_dual_ok (f : Q -> Q -> Q) :
  fill_dual (HF := Qfloat) l f = Ok (zip_with (fun lb p => f (qsign lb) p) labels l.(l_Xw)).
Proof using Hsh Hl.
  destruct Hl as [H1 H2 H3 H4 H5 H6]. unfold fill_dual. rewrite H3, (s_size _ _ _ _ Hsh).
  set (ref := zip_with _ _ _). pose proof l_labels as Hlb.
  assert (length ref = length rs) as Hr by (unfold ref; rewrite length_zip_with; lia).
  rewrite <- Hr. etransitivity; [|apply (foldM_fill (fun i => lb ← ptr_at (b_label data) i; xw ← read_at l.(l_Xw) i; Ok (f (qsign lb) xw)) ref (replicate (length ref) 0%Q))].
  - apply foldM_ext. intros acc i _. destruct (ptr_at (b_label data) i); simpl; [|done]. by destruct (read_at (l_Xw l) i).
  - by rewrite length_replicate.
  - intros i x Hx. apply lookup_zip_with_Some in Hx as (lb & p & -> & El & Ep). unfold ptr_at.
    rewrite (proj2 (read_at_Ok _ _ _) El). cbn [mbind outcome_bind]. by rewrite (proj2 (read_at_Ok _ _ _) Ep).
Qed.

(** The gradient: for every feature, the sum over the rows of the factor of the
    row times what the row has of the feature. *)
Definition l_gradient (g : list Q) : Prop :=
  length g = length ws /\
  forall k, k < length ws -> exists v, g !! k = Some v /\
    (v == over_rows rs (zip_with (l_slope dexp loss) labels l.(l_Xw)) (fun r => fm_dw r k))%Q.

Lemma LCalcGrad_ok : loss <> SQUARE -> 0 < nt ->
  exists g, LCalcGrad (HF := Qfloat) (FD := Qfloat) id id dexp sched l ws = Ok g /\ l_gradient g.
Proof using sched_ok Hsh Hcols Hl.
  intros Hns Hnt. pose proof Hl as [H1 H2 H3 H4 H5 H6]. pose proof l_labels as Hlb. unfold LCalcGrad. rewrite H1.
  assert (forall f, SpMV_TransTimes (H := Qfloat) (FD := Qfloat) sched data (zip_with f labels l.(l_Xw)) ws nt =
      Ok (TransTimes_ref (H := Qfloat) rs (zip_with f labels l.(l_Xw)) (length ws))) as HT.
  { intros f. apply (SpMV_TransTimes_spec (H := Qfloat) (FD := Qfloat) sched sched_ok data rs Hsh);
      [done|rewrite length_zip_with; lia|by apply good_cuts_exact]. }
  assert (forall f, length (TransTimes_ref (H := Qfloat) rs (zip_with f labels l.(l_Xw)) (length ws)) = length ws) as HTl.
  { intros f. unfold TransTimes_ref. by rewrite length_map, length_seq. }
  assert (forall f k, k < length ws -> exists v, TransTimes_ref (H := Qfloat) rs (zip_with f labels l.(l_Xw)) (length ws) !! k = Some v /\
      (v == over_rows rs (zip_with f labels l.(l_Xw)) (fun r => fm_dw r k))%Q) as HTv.
  { intros f k Hk. destruct (grad_w_value (singles ws) rs (zip_with f labels l.(l_Xw)) k) as (v & Ev & Hv).
    - unfold singles. by rewrite length_map.
    - unfold singles in Ev. rewrite length_map in Ev. by exists v. }
  pose proof fill_dual_ok as Hfd. unfold l_gradient. destruct loss; [done| |].
  - unfold Logit_CalcGrad. rewrite H2. cbn [check mbind outcome_bind]. rewrite Hfd. cbn [mbind outcome_bind].
    rewrite H3, H4, HT. eexists. split; [reflexivity|]. split; [apply HTl|]. intros k Hk.
    destruct (HTv (l_slope dexp LOGIT) k Hk) as (v & Ev & Hv). by exists v.
  - unfold SquareHinge_CalcGrad. rewrite H2. cbn [check mbind outcome_bind]. rewrite Hfd. cbn [mbind outcome_bind].
    rewrite H3, H4, HT. cbn [mbind outcome_bind]. eexists. split; [reflexivity|]. split; [rewrite length_map; apply HTl|].
    intros k Hk. rewrite list_lookup_fmap. destruct (HTv (fun lb p => hinge_dual (HF := Qfloat) (FD := Qfloat) id (qsign lb) p) k Hk) as (v & -> & Hv).
    eexists. split; [reflexivity|]. simpl. rewrite Hv. unfold over_rows. clear. generalize (l_Xw l). revert rs.
    generalize (default [] (b_label data)). induction l0 as [|lb lbs IH]; intros [|r rs] [|x xs]; try reflexivity.
    cbn [zip_with]. rewrite !Qsum_cons, Qmult_plus_distr_l, IH. apply Qplus_inj_r. unfold hinge_dual, l_slope. simpl.
    destruct (Qle_bool _ 1); simpl; ring.
Qed.

End Losses.

(** *** The square hinge loss *)

Lemma Qsum_const {A} (l : list A) (f : A -> Q) (c : Q) :
  (forall x, x ∈ l -> (f x == c)%Q) -> (Qsum (map f l) == q (length l) * c)%Q.
Proof.
  induction l as [|x l IH]; intros Hf; cbn [map length]; [reflexivity|].
  rewrite Qsum_cons, (Hf x), IH by set_solver. change (S (length l)) with (1 + length l). rewrite <- q_add.
  change (q 1) with 1%Q. ring.
Qed.

Lemma linear_zero ws (r : arow (F := Q)) : Forall (fun w => w == 0)%Q ws -> (FM.linear (singles ws) r == 0)%Q.
Proof.
  intros Hz. unfold FM.linear. apply Qsum_zero. intros f _.
  assert (w_at (singles ws) f.1 == 0)%Q as Hw.
  { unfold w_at, singles. rewrite list_lookup_fmap. destruct (ws !! f.1) as [w|] eqn:E; simpl; [|reflexivity].
    by apply (Forall_lookup_1 _ _ _ _ Hz E). }
  destruct (f.2); simpl; rewrite Hw; ring.
Qed.

(** With the square hinge loss the worker never learns from a new model: at
    weights 0 the objective is the number of examples, each with a loss of 1,
    and yet the gradient [CalcGrad] sends is 0 for every feature. *)
Theorem square_hinge_never_learns (dexp dlog : Q -> Q) sort sched shares data (rs : list (arow (F := Q))) ws junk_nt nt :
  (forall ts, interleave ts (sched ts)) -> shows 0 0 data rs -> columns_below (length ws) rs ->
  schedule (length rs) shares -> 0 < junk_nt -> 0 < nt -> Forall (fun w => w == 0)%Q ws ->
  exists l0 l prog g, CreateLoss junk_nt SQUARE_HINGE = Ok l0 /\
    LInit (HF := Qfloat) (FD := Qfloat) sched data ws nt l0 = Ok l /\
    LEvaluate (HF := Qfloat) (FD := Qfloat) id id dexp dlog sort shares l (new_LProgress (HD := Qfloat)) = Ok prog /\
    (lp_objv (HD := Qfloat) prog == q (length rs))%Q /\
    LCalcGrad (HF := Qfloat) (FD := Qfloat) id id dexp sched l ws = Ok g /\
    length g = length ws /\ Forall (fun v => v == 0)%Q g.
Proof.
  intros Hs Hsh Hc Hshares Hj Hnt Hz.
  destruct (LInit_ok sched Hs data rs ws Hsh Hc SQUARE_HINGE junk_nt nt Hj) as (l & El & Hl).
  destruct (LEvaluate_ok dexp dlog sort shares data rs ws Hsh Hshares SQUARE_HINGE nt l Hl) as (prog & Ep & o & c & a & -> & Ho & _); [done|].
  destruct (LCalcGrad_ok dexp sched Hs data rs ws Hsh Hc SQUARE_HINGE nt l Hl) as (g & Eg & Hgl & Hg); [done..|].
  eexists (mkSL SQUARE_HINGE false no_block [] junk_nt), l, _, g. split; [reflexivity|]. split; [exact El|]. split; [exact Ep|].
  assert (forall i p, l_Xw l !! i = Some p -> (p == 0)%Q) as Hp.
  { intros i p Hi. destruct (lookup_lt_is_Some_2 rs i) as [r Hr]; [rewrite <- (pr_length _ _ _ _ _ _ Hl); by eapply lookup_lt_Some|].
    destruct (pr_value _ _ _ _ _ _ Hl i r Hr) as (p' & E' & Hp'). simplify_eq. by rewrite Hp', linear_zero. }
  split; [|split; [done|split; [done|]]].
  - cbn [lp_objv at_or_zero lookup list_lookup default]. change (o == q (length rs))%Q. rewrite Ho.
    rewrite (Qsum_const _ _ 1%Q), length_seq; [ring|]. intros i Hi%elem_of_seq. unfold l_objective.
    pose proof (l_labels data rs Hsh). destruct (lookup_lt_is_Some_2 (default [] (b_label data)) i) as [lb Elb]; [lia|].
    destruct (lookup_lt_is_Some_2 (l_Xw l) i) as [p E]; [rewrite (pr_length _ _ _ _ _ _ Hl); lia|].
    rewrite Elb, E, (Hp i p E), Qmult_0_r, Q.max_l by lra. reflexivity.
  - apply Forall_lookup. intros k v Hk. destruct (Hg k) as (v' & E & Hv); [rewrite <- Hgl; by eapply lookup_lt_Some|]. simplify_eq.
    rewrite Hv. unfold over_rows. clear -Hp. revert Hp. generalize (default [] (b_label data)), (l_Xw l). intros lbs xs Hp.
    revert rs lbs Hp. induction xs as [|x xs IH]; intros [|r rs] [|lb lbs] Hp; try reflexivity. cbn [zip_with].
    rewrite Qsum_cons, (IH rs lbs (fun i => Hp (S i))). unfold l_slope.
    assert (Qle_bool (qsign lb * x) 1 = true) as ->; [|ring].
    apply Qle_bool_iff. rewrite (Hp 0 x eq_refl), Qmult_0_r. discriminate.
Qed.

Lemma square_hinge_never_learns_witness :
  exists l0 l prog g, CreateLoss (F := Q) 1 SQUARE_HINGE = Ok l0 /\
    LInit (HF := Qfloat) (FD := Qfloat) (@concat _) demo_mat [0; 0; 0]%Q 2 l0 = Ok l /\
    LEvaluate (HF := Qfloat) (FD := Qfloat) id id (fun x => x) (fun x => x) ex_sort [[1]; [0; 2]] l (new_LProgress (HD := Qfloat)) = Ok prog /\
    (lp_objv (HD := Qfloat) prog == 3)%Q /\
    LCalcGrad (HF := Qfloat) (FD := Qfloat) id id (fun x => x) (@concat _) l [0; 0; 0]%Q = Ok g /\ length g = 3 /\ Forall (fun v => v == 0)%Q g.
Proof.
  apply (square_hinge_never_learns (fun x => x) (fun x => x) ex_sort (@concat _) [[1]; [0; 2]] demo_mat demo_mat_rows [0; 0; 0]%Q 1 2).
  - apply interleave_concat.
  - apply demo_mat_shows.
  - repeat constructor.
  - unfold schedule. simpl. apply perm_swap.
  - lia.
  - lia.
  - repeat constructor.
Defined.

(** The objective does fall when the weight of the only feature of a positive
    example moves from 0 to 1; the gradient at 0 does not say so.  At 2, beyond
    the margin, where the loss is constantly 0, the gradient is [-2]. *)
Example square_hinge_slope :
  let blk := mkBlock 1 [0; 1] (Some [1%Q]) None (Some [0%Z]) None in
  let at_ w := l ← LInit (HF := Qfloat) (FD := Qfloat) (@concat _) blk [w] 1 (mkSL SQUARE_HINGE false no_block [] 1);
               p ← LEvaluate (HF := Qfloat) (FD := Qfloat) id id (fun x => x) (fun x => x) ex_sort [[0]] l (new_LProgress (HD := Qfloat));
               g ← LCalcGrad (HF := Qfloat) (FD := Qfloat) id id (fun x => x) (@concat _) l [w];
               Ok (Qred (lp_objv (HD := Qfloat) p), map Qred g) in
  at_ 0%Q = Ok (1, [0])%Q /\ at_ 1%Q = Ok (0, [0])%Q /\ at_ 2%Q = Ok (0, [-2])%Q.
Proof. vm_compute. done. Qed.

(** The loss the configuration calls [SQUARE] ends the process. *)
Example square_loss_aborts : CreateLoss (F := Q) 1 SQUARE = Fail CheckFailed.
Proof. reflexivity. Qed.

(** ** A training step against a server *)

Section LinearServer.
Context {E : Type} `{HH : !Handle E Q (LHandle Q)}.

(** The entry after a push of the gradient [g]. *)
Definition pushed (h : LHandle Q) (key : Z) (g : Q) (e : E) : E :=
  match KVStore.Push key [g] e h with Ok (e', _) => e' | Fail _ => e end.

(** What the worker relies on: a pull sends the weight of an entry; when the
    handle is [ready] a push of one gradient is accepted, and what it makes of an
    entry does not depend on the pushes before it in the same message. *)
Record linear_handle (wt : E -> Q) (ready : LHandle Q -> Prop) : Prop := {
  lh_pull : forall h key e, Pull key e 1 h = Ok (InPlace [wt e]);
  lh_push : forall h key g e, ready h -> exists h', KVStore.Push key [g] e h = Ok (pushed h key g e, h') /\
    ready h' /\ forall key' g' e', pushed h' key' g' e' = pushed h key' g' e'
}.

Context (wt : E -> Q) (ready : LHandle Q -> Prop) (laws : linear_handle wt ready).

(** The loop over the keys of a push. *)
Lemma push_steps keys : forall (d : gmap Z E) h vals,
  ready h -> NoDup keys -> length vals = length keys ->
  exists d' h', foldM (push_step 1) keys (d, h, vals) = Ok (d', h', []) /\
    (forall key, key ∉ keys -> KVStore.at_ d' key = KVStore.at_ d key) /\
    (forall i key g, keys !! i = Some key -> vals !! i = Some g -> KVStore.at_ d' key = pushed h key g (KVStore.at_ d key)).
Proof using laws.
  induction keys as [|key keys IH]; intros d h vals Hh Hnd Hl; [destruct vals; [|done]; by eexists _, _|].
  destruct vals as [|g vals]; [done|]. apply NoDup_cons in Hnd as [Hni Hnd].
  destruct (lh_push _ _ laws h key g (KVStore.at_ d key) Hh) as (h1 & Ep & Hh1 & Hsame).
  destruct (IH (<[key := pushed h key g (KVStore.at_ d key)]> d) h1 vals Hh1 Hnd) as (d' & h' & Ef & Hout & Hin); [by injection Hl|].
  exists d', h'. split; [|split].
  - cbn [foldM]. assert (push_step 1 (d, h, g :: vals) key = Ok (<[key := pushed h key g (KVStore.at_ d key)]> d, h1, vals)) as ->.
    { unfold push_step. simpl. rewrite take_0, drop_0. by rewrite Ep. }
    cbn [mbind outcome_bind]. exact Ef.
  - intros k [H1 H2]%not_elem_of_cons. rewrite Hout by done. unfold KVStore.at_. by rewrite lookup_insert_ne.
  - intros [|i] k g' Hk Hg'; simpl in Hk, Hg'; simplify_eq.
    + rewrite Hout by done. unfold KVStore.at_ at 1. by rewrite lookup_insert_eq.
    + rewrite (Hin i k g' Hk Hg'), Hsame. unfold KVStore.at_ at 1. rewrite lookup_insert_ne; [done|].
      intros ->. apply Hni. by eapply list_elem_of_lookup_2.
Qed.

(** A push updates the entry of each key once, with its own gradient. *)
Lemma gradient_push (s : Store E (LHandle Q)) keys g :
  ready (Start true 0 s.(handle_)) -> NoDup keys -> length g = length keys ->
  exists s', HandlePush s (mkMsg 0 keys false (Some g) None) = Ok s' /\
    (forall key, key ∉ keys -> KVStore.at_ s'.(data_) key = KVStore.at_ s.(data_) key) /\
    (forall i key v, keys !! i = Some key -> g !! i = Some v ->
       KVStore.at_ s'.(data_) key = pushed (Start true 0 s.(handle_)) key v (KVStore.at_ s.(data_) key)).
Proof using laws.
  intros Hr Hnd Hl. unfold HandlePush. cbn [m_dyn m_key m_value m_size m_cmd andb negb].
  rewrite bool_decide_decide. destruct (decide (length keys = 0)) as [H0|H0]; cbn [negb].
  { apply nil_length_inv in H0 as ->. eexists. split; [reflexivity|]. split; [done|]. by intros [|i] ? ?. }
  assert (length g / length keys = 1) as -> by (rewrite Hl; by apply Nat.div_same).
  rewrite check_true by (apply bool_decide_eq_true; lia). cbn [mbind outcome_bind].
  destruct (push_steps keys s.(data_) _ g Hr Hnd Hl) as (d' & h' & -> & Hout & Hin). cbn [mbind outcome_bind].
  eexists. split; [reflexivity|]. by split.
Qed.

Lemma weights_pull (s : Store E (LHandle Q)) keys :
  s.(k_) = 1 ->
  exists s', HandlePull s (mkMsg 0 keys false None None) = Ok (s', map (fun z => wt (KVStore.at_ s.(data_) z)) keys, None).
Proof using laws.
  intros Hk. destruct (HandlePull_static_spec s (mkMsg 0 keys false None None) (fun e => [wt e])) as (d & Ed & _).
  - done.
  - rewrite Hk. split; [|done]. intros key e. exists (InPlace [wt e]). split; [apply (lh_pull _ _ laws)|done].
  - eexists. rewrite Ed. cbn [m_key]. by rewrite map_singleton_concat.
Qed.

End LinearServer.

(** The three servers. *)
Definition sound (h : LHandle Q) : Prop :=
  (0 < l_alpha h)%Q /\ (0 < l_beta h)%Q /\ (0 <= L1L2.lambda1_ (penalty h))%Q /\ (0 <= L1L2.lambda2_ (penalty h))%Q.

Lemma Update_same (c o : Q) (h : LHandle Q) :
  let h' := Update (Float0 := Qfloat) c o h in
  penalty h' = penalty h /\ l_alpha h' = l_alpha h /\ l_beta h' = l_beta h /\ eta h' = eta h.
Proof. unfold Update. cbv zeta. repeat case_match; done. Qed.

Lemma sqrt_nonneg (x : Q) : (0 <= fsqrt (Float := Qfloat) x)%Q.
Proof. unfold Qle. simpl. rewrite Z.mul_1_r. apply Z.sqrt_nonneg. Qed.

Lemma rate_pos (a b s : Q) : (0 < a)%Q -> (0 < b)%Q -> (0 <= s)%Q -> (0 < (s + b) / a)%Q /\ (0 < (b + s) / a)%Q.
Proof. intros Ha Hb Hs. split; apply Qlt_shift_div_l; lra. Qed.

Lemma SGD_linear : linear_handle (HH := SGDHandle (Float0 := Qfloat)) (fun w => w) (fun h => sound h /\ 0 < eta h)%Q.
Proof.
  split; [done|]. intros h key g w [(Ha & Hb & H1 & H2) He]. unfold pushed. cbn [KVStore.Push SGDHandle]. unfold SGDPush.
  cbn [head mbind outcome_bind].
  destruct (Solve_min (penalty h) (eta h * w - g)%Q (eta h) He H1 H2) as (w' & Ew & _).
  assert (L1L2.Solve (Float0 := Qfloat) (penalty h) (fsub (Float := Qfloat) (fmul (Float := Qfloat) (eta h) w) g) (eta h) = Ok w') as -> by exact Ew.
  cbn [mbind outcome_bind]. destruct (Update_same w' w h) as (U1 & U2 & U3 & U4).
  eexists. split; [reflexivity|]. split; [unfold sound; by rewrite U1, U2, U3, U4|].
  intros key' g' e'. cbn [head mbind outcome_bind]. rewrite U1, U4. match goal with |- context [mbind _ ?m] => by destruct m end.
Qed.

Lemma LAda_linear : linear_handle (HH := LAdaGradHandle (Float0 := Qfloat)) a_w sound.
Proof.
  split; [done|]. intros h key g [w sq] Hs. pose proof Hs as (Ha & Hb & H1 & H2). unfold pushed. cbn [KVStore.Push LAdaGradHandle]. unfold LAdaPush.
  cbn [head mbind outcome_bind a_w a_sq_cum_grad].
  set (n := fsqrt _). set (et := fdiv (Float := Qfloat) _ _).
  destruct (rate_pos (l_alpha h) (l_beta h) n Ha Hb (sqrt_nonneg _)) as [R _].
  destruct (Solve_min (penalty h) (et * w - g)%Q et R H1 H2) as (w' & Ew & _).
  assert (L1L2.Solve (Float0 := Qfloat) (penalty h) (fsub (Float := Qfloat) (fmul (Float := Qfloat) et w) g) et = Ok w') as -> by exact Ew.
  cbn [mbind outcome_bind]. destruct (Update_same w' w h) as (U1 & U2 & U3 & U4).
  eexists. split; [reflexivity|]. split; [unfold sound; by rewrite U1, U2, U3|].
  intros key' g' e'. cbn [head mbind outcome_bind]. rewrite U1, U2, U3. match goal with |- context [mbind _ ?m] => by destruct m end.
Qed.

Lemma FTRL_linear : linear_handle (HH := FTRLHandle (Float0 := Qfloat)) f_w sound.
Proof.
  split; [done|]. intros h key g [w z sq] Hs. pose proof Hs as (Ha & Hb & H1 & H2). unfold pushed. cbn [KVStore.Push FTRLHandle]. unfold FTRLPush.
  cbn [head mbind outcome_bind f_w f_z f_sq_cum_grad].
  set (n := fsqrt _). set (et := fdiv (Float := Qfloat) (fadd _ n) _). set (z' := fneg _).
  destruct (rate_pos (l_alpha h) (l_beta h) n Ha Hb (sqrt_nonneg _)) as [_ R].
  destruct (Solve_min (penalty h) z' et R H1 H2) as (w' & Ew & _).
  assert (L1L2.Solve (Float0 := Qfloat) (penalty h) z' et = Ok w') as -> by exact Ew.
  cbn [mbind outcome_bind]. destruct (Update_same w' w h) as (U1 & U2 & U3 & U4).
  eexists. split; [reflexivity|]. split; [unfold sound; by rewrite U1, U2, U3|].
  intros key' g' e'. cbn [head mbind outcome_bind]. rewrite U1, U2, U3. match goal with |- context [mbind _ ?m] => by destruct m end.
Qed.

Lemma SGD_ready (h : LHandle Q) : sound h -> let h' := SGDStart (Float0 := Qfloat) true 0 h in sound h' /\ (0 < eta h')%Q.
Proof.
  intros Hs. pose proof Hs as (Ha & Hb & _). split; [exact Hs|]. simpl.
  apply (rate_pos (l_alpha h) (l_beta h) _ Ha Hb (sqrt_nonneg (inject_Z (t h)))).
Qed.

Section LStep.
Context (sched : list (list (action Q)) -> list (action Q)) (shares : list (list nat)).
Context (dexp dlog : Q -> Q) (sort : list (Q * Q) -> list (Q * Q)).
Context (sort_pairs : list Localizer.Pair -> list Localizer.Pair) (FLAGS_max_key : Z).
Hypothesis sort_pairs_ok : forall l, sort_pairs l ≡ₚ l /\ StronglySorted (not_after Localizer.pair_lt) (sort_pairs l).
Hypothesis sched_ok : forall ts, interleave ts (sched ts).
Context {E : Type} `{HH : !Handle E Q (LHandle Q)} (wt : E -> Q) (ready : LHandle Q -> Prop).
Hypothesis laws : linear_handle wt ready.
Hypothesis max_key_positive : (0 < FLAGS_max_key)%Z.

(** The connection. *)
Context (to_D to_V as_float : Q -> Q) `{MF : !Memory Q} `{ML : !MemoryLaws Q} `{LZ : !LZ4} `{LL : !LZ4Laws} (Hash64 : list byte -> Z) (frand : nat -> Z).
Hypothesis compress_refuses : forall d, (max_input < Z.of_nat (length d))%Z -> LZ4_compress_default d = [].
Notation arrives := (Transport.arrives (FF := Qfloat) (FD := Qfloat) to_D to_V as_float Hash64 frand).

Notation key := (Localizer.key 8 (2 ^ 64 - 1) FLAGS_max_key).

(** What a worker needs: a minibatch with features, and the logistic loss, the
    only one of the three that computes a derivative ([square_hinge_never_learns],
    [square_loss_aborts]). *)
Record l_trainable (w : AsgdWorker Q) (mb : RowBlock Q) (rs : list (arow (F := Q))) : Prop := {
  lt_shows : shows 0 0 mb rs;
  lt_features : concat (map a_index rs) <> [];
  lt_size : (Z.of_nat (length (concat (map a_index rs))) < 4294967295)%Z;
  lt_threads : 0 < w.(lw_nt);
  lt_shares : schedule (length rs) shares;
  lt_loss : w.(lw_conf).(lw_loss) = LOGIT
}.

Lemma l_callback_train w wl junk_nt mb rs keys c ws :
  l_trainable w mb rs -> wl.(Workload.type) = Workload.TRAIN -> 0 < junk_nt ->
  holds c (map (local_row key keys) rs) -> uniform (map (local_row key keys) rs) ->
  localized FLAGS_max_key keys rs (map (local_row key keys) rs) -> length ws = length keys ->
  let rs' := map (local_row key keys) rs in
  exists blk l prog g,
    l_pull_callback (HF := Qfloat) (FD := Qfloat) id id dexp dlog sort sched shares w wl junk_nt c keys ws =
      Ok (mkLPulled prog None (Some (mkMsg 0 keys false (Some g) None, LSetFilters w.(lw_conf) true)) false) /\
    predicts blk rs' ws w.(lw_conf).(lw_loss) w.(lw_nt) l /\
    l_evaluates dexp dlog sort blk rs' w.(lw_conf).(lw_loss) l prog /\ l_gradient dexp blk rs' ws w.(lw_conf).(lw_loss) l g.
Proof using sched_ok.
  intros [T1 T2 T3 T4 T5 T6'] Hty Hj Hh Hu Hr Hl rs'. assert (w.(lw_conf).(lw_loss) <> SQUARE) as T6 by (by rewrite T6'). destruct (GetBlock_shows _ _ Hh Hu) as (blk & Eb & Hblk).
  assert (columns_below (length ws) rs') as Hc by (rewrite Hl; by eapply localized_columns).
  assert (schedule (length rs') shares) as Hs by (unfold rs'; by rewrite length_map).
  destruct (LInit_ok sched sched_ok blk rs' ws Hblk Hc w.(lw_conf).(lw_loss) junk_nt w.(lw_nt) Hj) as (l & El & Hpl).
  destruct (LEvaluate_ok dexp dlog sort shares blk rs' ws Hblk Hs _ _ l Hpl T6) as (prog & Ep & Hp).
  destruct (LCalcGrad_ok dexp sched sched_ok blk rs' ws Hblk Hc _ _ l Hpl T6 T4) as (g & Eg & Hg).
  exists blk, l, prog, g. split; [|done]. unfold l_pull_callback.
  assert (CreateLoss junk_nt w.(lw_conf).(lw_loss) = Ok (mkSL w.(lw_conf).(lw_loss) false (no_block (F := Q)) [] junk_nt)) as ->.
  { by destruct (lw_loss (lw_conf w)). }
  cbn [mbind outcome_bind]. rewrite Eb. cbn [mbind outcome_bind]. rewrite El. cbn [mbind outcome_bind].
  rewrite Ep. cbn [mbind outcome_bind]. rewrite Hty.
  rewrite (bool_decide_eq_false_2 (Workload.TRAIN = Workload.PRED)), (bool_decide_eq_true_2 (Workload.TRAIN = Workload.TRAIN)) by done.
  cbn [mbind outcome_bind]. by rewrite Eg.
Qed.

(** The filters of a push: one converts floats, if any. *)
Lemma LSetFilters_arrive (conf : LWConf Q) keys (g : list Q) push' :
  keys <> [] -> Forall (fun z => 0 <= z < 2 ^ 64)%Z keys ->
  arrives true true (LSetFilters conf true) (mkMsg 0 keys false (Some g) None) push' ->
  exists g', push' = mkMsg 0 keys false (Some g') None /\ length g' = length g /\ ((conf.(lw_fixed_bytes) <= 0)%Z -> g' = g).
Proof using ML LL compress_refuses.
  intros Hne Hk Ha.
  destruct (usual_arrives (FF := Qfloat) (FD := Qfloat) to_D to_V as_float Hash64 frand compress_refuses true true []
    (if decide (0 < conf.(lw_fixed_bytes))%Z then [FIXING_FLOAT conf.(lw_fixed_bytes)] else [])
    (if conf.(lw_key_cache) then [KEY_CACHING true] else []) (if conf.(lw_msg_compression) then [COMPRESSING] else [])
    (mkMsg 0 keys false (Some g) None) push') as (A1 & A2 & A3 & A4 & A5); [|by split|exact Ha|].
  - split; [by left|case_decide; [right; by eexists _, (lw_fixed_bytes conf); auto|by left]| |destruct (lw_msg_compression conf); auto].
    destruct (lw_key_cache conf); [right; split; [done|by exists true]|by left].
  - destruct push' as [c k d v sz]. cbn in *. destruct v as [g'|]; [|done]. exists g'. subst. split; [done|].
    destruct (decide (0 < lw_fixed_bytes conf)%Z); cbn in A5; [|by subst]. destruct A5. split; [done|]. lia.
Qed.


End LStep.

(** ** A concrete step: two rows, three features, a new FTRL server *)

Definition l_demo_worker : AsgdWorker Q := new_AsgdWorker (mkLWConf LOGIT true 2 true false 10 0 2 1%Q 2).
Definition l_demo_server : Store (FTRLEntry Q) (LHandle Q) := mkStore ∅ (mkLH (L1L2.mk 1%Q 0%Q) 1%Q 1%Q true 0 0 1 [] 1 0%Q) 1.

Lemma l_demo_trainable : l_trainable [[1]; [0]] l_demo_worker demo_blk demo_blk_rows.
Proof. split; simpl; try lia; [apply demo_blk_shows|discriminate|unfold schedule; simpl; apply perm_swap|reflexivity]. Qed.

#[local] Existing Instance Qmemory.
#[local] Existing Instance Qmemory_laws.
#[local] Existing Instance kept.
#[local] Existing Instance kept_laws.


(** ** The scheduler *)

(** The totals the scheduler prints are the sums of what was reported. *)
Lemma Asgd_totals (progs : list (list Q)) :
  let s := foldl (fun s p => (Asgd_ProgString (HD := Qfloat) s p).1) (new_AsgdScheduler (HD := Qfloat)) progs in
  (lp_ttl_ex s == Qsum (map (lp_new_ex (HD := Qfloat)) progs))%Q /\ (lp_nnz_w s == Qsum (map (lp_new_w (HD := Qfloat)) progs))%Q.
Proof.
  assert (forall s0 : LProgress Q,
    let s := foldl (fun s p => (Asgd_ProgString (HD := Qfloat) s p).1) s0 progs in
    (lp_ttl_ex s == lp_ttl_ex s0 + Qsum (map (lp_new_ex (HD := Qfloat)) progs))%Q /\
    (lp_nnz_w s == lp_nnz_w s0 + Qsum (map (lp_new_w (HD := Qfloat)) progs))%Q) as Hgen.
  { induction progs as [|p progs IH]; intros s0; cbn [foldl map]; [split; simpl; lra|]. rewrite !Qsum_cons.
    destruct (IH ((Asgd_ProgString (HD := Qfloat) s0 p).1)) as [-> ->].
    assert (forall i, at_or_zero (HD := Qfloat) (if decide (length p < 6) then resize 6 0%Q p else p) i = at_or_zero (HD := Qfloat) p i) as Hz.
    { intros i. unfold at_or_zero. case_decide as Hl; [|done]. destruct (decide (i < length p)).
      - by rewrite lookup_resize by lia.
      - rewrite (lookup_ge_None_2 p i) by lia. destruct (decide (i < 6)).
        + by rewrite lookup_resize_new by lia.
        + by rewrite lookup_ge_None_2 by (rewrite length_resize; lia). }
    unfold Asgd_ProgString, LPrintStr. cbn [lp_data lp_ttl_ex lp_nnz_w]. change (fzero (Float := Qfloat)) with 0%Q.
    cbv zeta. unfold lp_new_ex, lp_new_w. rewrite !Hz.
    destruct (feqb _ _); cbn [fst lp_ttl_ex lp_nnz_w]; change (fadd (Float := Qfloat)) with Qplus; split; ring. }
  destruct (Hgen (new_AsgdScheduler (HD := Qfloat))) as [H1 H2]. cbv zeta in *. rewrite H1, H2. simpl. split; lra.
Qed.
