(* ===== verification/Sketch.v ===== *)
(** * Sketches and bitmaps

    Models the sketches of src/ps-lite/src/base (sketch.h, countmin.h,
    bloom_filter.h, block_bloom_filter.h), the frequency filter built on them
    (src/ps-lite/src/filter/frequency_filter.h) and the bitmap of
    src/ps-lite/src/base/bitmap.h. *)
From S2P Require Import Prelude.

(** ** Hashing: sketch.h *)

(** [Sketch::hash], in 32-bit arithmetic. *)
Definition hash_mix (h w : Z) : Z :=
  let h := u32 (h + w) in
  let h := u32 (h * 0xc6a4a793) in
  Z.lxor h (Z.shiftr h 16).

Definition hash (key : Z) : Z :=
  let h := Z.lxor 0xbc9f1d34 (u32 (8 * 0xc6a4a793)) in
  let h := hash_mix h (u32 key) in
  hash_mix h (u32 (Z.shiftr key 32)).

(** Rotate right by 17 bits. *)
Definition hash_delta (h : Z) : Z := Z.lor (Z.shiftr h 17) (u32 (Z.shiftl h 15)).

(** The values of [h] in the loops [for (j = 0; j < k_; ++j) { ...; h += delta; }]. *)
Fixpoint probes (k : nat) (h delta : Z) : list Z :=
  match k with
  | 0 => []
  | S k => h :: probes k (u32 (h + delta)) delta
  end.
Definition key_probes (k : nat) (key : Z) : list Z := probes k (hash key) (hash_delta (hash key)).

(** [h % n] of 32-bit unsigned numbers. *)
Definition umod (h n : Z) : outcome Z := if (n =? 0)%Z then Fail DivByZero else Ok (h mod n)%Z.

(** ** [CountMin] *)

Module CountMin.

Record t := mk { data_ : list Z; n_ : Z; k_ : nat; v_max_ : Z }.

Definition new : t := mk [] 0 1 0.
Definition empty (s : t) : bool := (s.(n_) =? 0)%Z.
Definition clear (s : t) : t := mk [] 0 s.(k_) s.(v_max_).
Definition resize (n k v_max : Z) : t :=
  let n := Z.max n 64 in
  mk (replicate (Z.to_nat n) 0%Z) n (Z.to_nat (Z.min 30 (Z.max 1 k))) v_max.

Definition insert (key count : Z) (s : t) : outcome t :=
  data ← foldM (fun data h =>
           p ← umod h s.(n_);
           v ← read_at data (Z.to_nat p);
           write_at data (Z.to_nat p) (if (s.(v_max_) - v <? count)%Z then s.(v_max_) else (v + count)%Z))
         (key_probes s.(k_) key) s.(data_);
  Ok (mk data s.(n_) s.(k_) s.(v_max_)).

Definition query (key : Z) (s : t) : outcome Z :=
  foldM (fun res h =>
    p ← umod h s.(n_);
    v ← read_at s.(data_) (Z.to_nat p);
    Ok (Z.min res v)) (key_probes s.(k_) key) s.(v_max_).

End CountMin.

(** ** [FreqencyFilter] *)

Definition FF_Resize (n k : Z) : CountMin.t := CountMin.resize n k 254.

Definition InsertKeys (key count : list Z) (s : CountMin.t) : outcome CountMin.t :=
  _ ← check (bool_decide (length key = length count));
  foldM (fun s kc => CountMin.insert kc.1 kc.2 s) (zip key count) s.

Definition QueryKeys (key : list Z) (freqency : Z) (s : CountMin.t) : outcome (list Z) :=
  _ ← check (freqency <? 255)%Z;
  foldM (fun out k => c ← CountMin.query k s; Ok (if (freqency <? c)%Z then out ++ [k] else out)) key [].

(** ** [BloomIFilter] *)

(** [data[i / 8] & (1 << (i % 8))] and the assignment that sets it. *)
Definition byte_bit (data : list Z) (i : Z) : outcome bool :=
  b ← read_at data (Z.to_nat (i / 8));
  Ok (negb (Z.land b (Z.shiftl 1 (i mod 8)) =? 0)%Z).
Definition set_byte_bit (data : list Z) (i : Z) : outcome (list Z) :=
  b ← read_at data (Z.to_nat (i / 8));
  write_at data (Z.to_nat (i / 8)) (Z.lor b (Z.shiftl 1 (i mod 8))).

(** The loops of [query], which stops at a bit that is not set, and [insert],
    over the positions of the bits. *)
Fixpoint query_bits (data : list Z) (pos : list (outcome Z)) : outcome bool :=
  match pos with
  | [] => Ok true
  | p :: pos => i ← p; b ← byte_bit data i; if (b : bool) then query_bits data pos else Ok false
  end.
Fixpoint insert_bits (data : list Z) (pos : list (outcome Z)) : outcome (list Z) :=
  match pos with
  | [] => Ok data
  | p :: pos => i ← p; data ← set_byte_bit data i; insert_bits data pos
  end.

Module Bloom.

Record t := mk { data_ : list Z; m_ : Z; k_ : nat }.

Definition resize (m k : Z) : t :=
  mk (replicate (Z.to_nat (m / 8 + 1)) 0%Z) m (Z.to_nat (Z.min 64 (Z.max 1 k))).

Definition positions (key : Z) (s : t) : list (outcome Z) :=
  map (fun h => umod h s.(m_)) (key_probes s.(k_) key).
Definition query (key : Z) (s : t) : outcome bool := query_bits s.(data_) (positions key s).
Definition insert (key : Z) (s : t) : outcome t :=
  data ← insert_bits s.(data_) (positions key s); Ok (mk data s.(m_) s.(k_)).

End Bloom.

(** ** [BlockBloomIFilter] *)

Module BlockBloom.

Record t := mk { data_ : list Z; m_ : Z; k_ : nat; num_bin_ : Z }.

Definition bin_size_ : Z := 64.

Definition new : t := mk [] 0 0 0.

(** [resize], with the [memset] of [reset]; memory that is kept is longer than
    what is used of it.  [fresh] is what new memory holds. *)
Definition resize (fresh : list Z) (m k : Z) (s : t) : outcome t :=
  let m := Z.max m 1024 in
  let num_bin := (m / 8 / bin_size_ + 1)%Z in
  let size := Z.to_nat (num_bin * bin_size_) in
  let data := if (s.(m_) <? m)%Z then take size fresh ++ replicate (size - length fresh) 0%Z else s.(data_) in
  if decide (size <= length data) then
    Ok (mk (replicate size 0%Z ++ drop size data) m (Z.to_nat (Z.min 64 (Z.max 1 k))) num_bin)
  else Fail OutOfRange.

(** The positions of the bits, from the beginning of [data_]. *)
Definition positions (key : Z) (s : t) : list (outcome Z) :=
  map (fun h => bin ← umod (hash key) s.(num_bin_); Ok (bin * bin_size_ * 8 + h mod (bin_size_ * 8))%Z)
    (key_probes s.(k_) key).
Definition query (key : Z) (s : t) : outcome bool := query_bits s.(data_) (positions key s).
Definition insert (key : Z) (s : t) : outcome t :=
  data ← insert_bits s.(data_) (positions key s); Ok (mk data s.(m_) s.(k_) s.(num_bin_)).

End BlockBloom.

(** ** [Bitmap] *)

Module Bitmap.

(** [map_] has [map_size_] words of 16 bits. *)
Record t := mk { map_ : list Z; size_ : Z }.

Definition kBitmapShift : Z := 4.
Definition kBitmapMask : Z := 0x0F.

Definition new : t := mk [] 0.
Definition fill (value : bool) (s : t) : t :=
  mk (replicate (length s.(map_)) (if value then 0xFFFF else 0)%Z) s.(size_).
Definition resize (size : Z) (value : bool) (s : t) : outcome t :=
  _ ← check (s.(size_) =? 0)%Z;
  Ok (fill value (mk (replicate (Z.to_nat (Z.shiftr size kBitmapShift + 1)) 0%Z) size)).
Definition clear (s : t) : t := mk [] 0.

Definition upd (f : Z -> Z) (i : Z) (s : t) : outcome t :=
  w ← read_at s.(map_) (Z.to_nat (Z.shiftr i kBitmapShift));
  m ← write_at s.(map_) (Z.to_nat (Z.shiftr i kBitmapShift)) (f w);
  Ok (mk m s.(size_)).
Definition set (i : Z) (s : t) : outcome t :=
  upd (fun w => Z.lor w (u16 (Z.shiftl 1 (Z.land i kBitmapMask)))) i s.
Definition clear_bit (i : Z) (s : t) : outcome t :=
  upd (fun w => Z.land w (u16 (Z.lnot (u16 (Z.shiftl 1 (Z.land i kBitmapMask)))))) i s.
Definition test (i : Z) (s : t) : outcome bool :=
  w ← read_at s.(map_) (Z.to_nat (Z.shiftr i kBitmapShift));
  Ok (negb (Z.land (Z.shiftr w (Z.land i kBitmapMask)) 1 =? 0)%Z).

(** [BITCOUNT_] *)
Definition BX_ (x : Z) : Z :=
  (x - Z.land (Z.shiftr x 1) 0x77777777 - Z.land (Z.shiftr x 2) 0x33333333 - Z.land (Z.shiftr x 3) 0x11111111)%Z.
Definition BITCOUNT_ (x : Z) : Z := (Z.land (BX_ x + Z.shiftr (BX_ x) 4) 0x0F0F0F0F mod 255)%Z.

(** [nnz(start, end)] *)
Definition nnz_range (start n : nat) (s : t) : outcome Z :=
  _ ← check (Z.of_nat (start + n) <=? s.(size_))%Z;
  foldM (fun v i => b ← test (Z.of_nat i) s; Ok (u32 (v + (if (b : bool) then 1 else 0)))) (seq start n) 0%Z.

(** [nnz()], with the table of the numbers of bits. *)
Definition nnz (s : t) : outcome Z :=
  let bn := Z.to_nat (Z.shiftr s.(size_) kBitmapShift) in
  v ← foldM (fun v i => w ← read_at s.(map_) i; Ok (u32 (v + BITCOUNT_ w))) (seq 0 bn) 0%Z;
  let start := Z.to_nat (Z.shiftl (Z.of_nat bn) kBitmapShift) in
  r ← nnz_range start (Z.to_nat s.(size_) - start) s;
  Ok (u32 (v + r)).

End Bitmap.

(** ** What a count-min sketch counts *)

Lemma umod_pos h n : (0 < n)%Z -> umod h n = Ok (h mod n)%Z.
Proof. intros Hn. unfold umod. destruct (Z.eqb_spec n 0); [lia|done]. Qed.

(** How often [p] is among the cells of a key. *)
Definition occ (p : nat) (ps : list nat) : Z := Z.of_nat (length (filter (fun q => q = p) ps)).

Lemma occ_nonneg p ps : (0 <= occ p ps)%Z.
Proof. unfold occ. lia. Qed.

Lemma occ_cons p q ps : occ p (q :: ps) = ((if decide (q = p) then 1 else 0) + occ p ps)%Z.
Proof. unfold occ. rewrite filter_cons. case_decide; simpl; lia. Qed.

Lemma occ_pos p ps : p ∈ ps -> (1 <= occ p ps)%Z.
Proof.
  induction ps as [|q ps IH]; intros Hp; [by apply not_elem_of_nil in Hp|]. rewrite occ_cons.
  pose proof (occ_nonneg p ps). apply elem_of_cons in Hp as [->|Hp]; [rewrite decide_True by done; lia|].
  specialize (IH Hp). case_decide; lia.
Qed.

Section CountMin_laws.
Implicit Types (s : CountMin.t).

(** The cells of a key. *)
Definition cells s (key : Z) : list nat :=
  map (fun h => Z.to_nat (h mod s.(CountMin.n_))) (key_probes s.(CountMin.k_) key).

(** The type of a sketch in use: as many cells as it says, each between zero and
    the largest value. *)
Record cm_ok s : Prop := {
  cm_n : (0 < s.(CountMin.n_))%Z;
  cm_data : Z.of_nat (length s.(CountMin.data_)) = s.(CountMin.n_);
  cm_max : (0 <= s.(CountMin.v_max_))%Z;
  cm_cells : Forall (fun v => 0 <= v <= s.(CountMin.v_max_))%Z s.(CountMin.data_)
}.

Lemma resize_cm_ok n k v_max : (0 <= v_max)%Z -> cm_ok (CountMin.resize n k v_max).
Proof.
  intros Hv. split; simpl; [lia|rewrite length_replicate; lia|done|]. apply Forall_replicate. lia.
Qed.

Lemma cells_range s key : cm_ok s -> Forall (fun p => p < length s.(CountMin.data_)) (cells s key).
Proof.
  intros [Hn Hd _ _]. apply Forall_map, Forall_forall. intros h _.
  pose proof (Z.mod_pos_bound h (CountMin.n_ s) Hn). lia.
Qed.

(** Adding [count] to a cell, up to the largest value. *)
Definition bump (v_max count : Z) (data : list Z) (p : nat) : list Z :=
  alter (fun v => Z.min v_max (v + count)) p data.

Lemma bumps_lookup v_max count ps : forall data p v,
  (0 <= count)%Z -> data !! p = Some v -> (0 <= v <= v_max)%Z ->
  foldl (bump v_max count) data ps !! p = Some (Z.min v_max (v + count * occ p ps)).
Proof.
  induction ps as [|q ps IH]; intros data p v Hc Hp Hv.
  { simpl. rewrite Hp. f_equal. unfold occ. simpl. lia. }
  simpl. rewrite occ_cons. pose proof (occ_nonneg p ps) as Ho. case_decide as Hq.
  - subst q. rewrite (IH _ _ (Z.min v_max (v + count))%Z); [f_equal; nia|done| |lia].
    unfold bump. by rewrite list_lookup_alter_eq, Hp.
  - rewrite (IH _ _ v); [done|done| |done]. unfold bump. by rewrite list_lookup_alter_ne.
Qed.

Lemma bumps_length v_max count ps data : length (foldl (bump v_max count) data ps) = length data.
Proof. revert data. induction ps as [|q ps IH]; intros data; simpl; [done|]. rewrite IH. apply length_alter. Qed.

Lemma insert_eq s key count : cm_ok s ->
  CountMin.insert key count s =
  Ok (CountMin.mk (foldl (bump s.(CountMin.v_max_) count) s.(CountMin.data_) (cells s key))
        s.(CountMin.n_) s.(CountMin.k_) s.(CountMin.v_max_)).
Proof.
  intros Hok. unfold CountMin.insert, cells. destruct Hok as [Hn Hd _ _].
  assert (forall hs data, Z.of_nat (length data) = CountMin.n_ s ->
    foldM (fun data h => p ← umod h (CountMin.n_ s); v ← read_at data (Z.to_nat p);
      write_at data (Z.to_nat p) (if (CountMin.v_max_ s - v <? count)%Z then CountMin.v_max_ s else (v + count)%Z)) hs data =
    Ok (foldl (bump (CountMin.v_max_ s) count) data (map (fun h => Z.to_nat (h mod CountMin.n_ s)) hs))) as Hl.
  { induction hs as [|h hs IH]; intros data Hdata; cbn [foldM]; [done|]. rewrite umod_pos by done. cbn [mbind outcome_bind].
    pose proof (Z.mod_pos_bound h (CountMin.n_ s) Hn) as Hm.
    destruct (lookup_lt_is_Some_2 data (Z.to_nat (h mod CountMin.n_ s))) as [v Hv]; [lia|].
    rewrite (proj2 (read_at_Ok _ _ _) Hv). cbn [mbind outcome_bind]. rewrite write_at_lt by lia. cbn [mbind outcome_bind].
    rewrite IH by (rewrite length_insert; lia). simpl. do 2 f_equal. unfold bump.
    apply list_eq. intros i. destruct (decide (i = Z.to_nat (h mod CountMin.n_ s))) as [->|Hi].
    - rewrite list_lookup_insert_eq, list_lookup_alter_eq, Hv by lia. simpl. f_equal.
      destruct (Z.ltb_spec (CountMin.v_max_ s - v) count); lia.
    - by rewrite list_lookup_insert_ne, list_lookup_alter_ne by done. }
  rewrite Hl by done. done.
Qed.

Lemma insert_cm_ok s key count s' : cm_ok s -> (0 <= count)%Z -> CountMin.insert key count s = Ok s' ->
  cm_ok s' /\ s'.(CountMin.n_) = s.(CountMin.n_) /\ s'.(CountMin.k_) = s.(CountMin.k_) /\
  s'.(CountMin.v_max_) = s.(CountMin.v_max_).
Proof.
  intros Hok Hc E. rewrite insert_eq in E by done. injection E as <-. split; [|done].
  destruct Hok as [Hn Hd Hm Hcells]. split; simpl; [done|by rewrite bumps_length|done|].
  apply Forall_lookup. intros p v Hv.
  destruct (lookup_lt_is_Some_2 (CountMin.data_ s) p) as [v0 Hv0].
  { apply lookup_lt_Some in Hv. by rewrite bumps_length in Hv. }
  rewrite Forall_lookup in Hcells. specialize (Hcells _ _ Hv0).
  rewrite (bumps_lookup _ _ _ _ _ v0) in Hv by done. injection Hv as <-.
  pose proof (occ_nonneg p (cells s key)). nia.
Qed.

(** What has been added to cell [p] by the insertions [ops] of keys with counts. *)
Fixpoint added (s : CountMin.t) (ops : list (Z * Z)) (p : nat) : Z :=
  match ops with
  | [] => 0
  | (key, count) :: ops => count * occ p (cells s key) + added s ops p
  end.

Fixpoint total (ops : list (Z * Z)) (key : Z) : Z :=
  match ops with
  | [] => 0
  | (k, count) :: ops => (if (k =? key)%Z then count else 0) + total ops key
  end.

Lemma added_nonneg s ops p : Forall (fun kc => 0 <= kc.2)%Z ops -> (0 <= added s ops p)%Z.
Proof.
  induction 1 as [|[k c] ops Hc _ IH]; simpl in *; [lia|]. pose proof (occ_nonneg p (cells s k)). nia.
Qed.

Lemma total_added s ops key p : Forall (fun kc => 0 <= kc.2)%Z ops -> p ∈ cells s key ->
  (total ops key <= added s ops p)%Z.
Proof.
  intros Ho Hp. induction Ho as [|[k c] ops Hc _ IH]; simpl in *; [lia|].
  destruct (Z.eqb_spec k key) as [->|].
  - pose proof (occ_pos p _ Hp). nia.
  - pose proof (occ_nonneg p (cells s k)). nia.
Qed.

Definition inserts (ops : list (Z * Z)) (s : CountMin.t) : outcome CountMin.t :=
  foldM (fun s kc => CountMin.insert kc.1 kc.2 s) ops s.

(** The sketch after any insertions: its type is kept, and every cell is its old
    value plus what was added, up to the largest value. *)
Lemma inserts_ok ops : forall s, cm_ok s -> Forall (fun kc => 0 <= kc.2)%Z ops ->
  exists s', inserts ops s = Ok s' /\ cm_ok s' /\ s'.(CountMin.n_) = s.(CountMin.n_) /\
    s'.(CountMin.k_) = s.(CountMin.k_) /\ s'.(CountMin.v_max_) = s.(CountMin.v_max_) /\
    forall p v, s.(CountMin.data_) !! p = Some v ->
      s'.(CountMin.data_) !! p = Some (Z.min s.(CountMin.v_max_) (v + added s ops p)).
Proof.
  unfold inserts. induction ops as [|[key count] ops IH]; intros s Hok Ho; cbn [foldM].
  { exists s. split_and!; try done. intros p v Hp. rewrite Hp. f_equal. simpl. destruct Hok as [_ _ _ Hc].
    rewrite Forall_lookup in Hc. specialize (Hc _ _ Hp). lia. }
  apply Forall_cons in Ho as [Hc Ho]. simpl in Hc. cbn [fst snd].
  pose proof (insert_eq s key count Hok) as E. rewrite E. cbn [mbind outcome_bind].
  destruct (insert_cm_ok _ _ _ _ Hok Hc E) as (Hok1 & En & Ek & Ev). set (s1 := CountMin.mk _ _ _ _) in *.
  destruct (IH s1 Hok1 Ho) as (s' & E' & Hok' & En' & Ek' & Ev' & Hd). exists s'. split_and!; try done.
  intros p v Hp. destruct Hok as [_ _ _ Hcells]. rewrite Forall_lookup in Hcells. specialize (Hcells _ _ Hp).
  rewrite (Hd p (Z.min (CountMin.v_max_ s) (v + count * occ p (cells s key)))).
  2: { subst s1. simpl. by apply bumps_lookup. }
  assert (added s1 ops p = added s ops p) as ->.
  { clear -En Ek. induction ops as [|[k c] ops IHo]; simpl; [done|]. rewrite IHo. unfold cells. by rewrite En, Ek. }
  pose proof (added_nonneg s ops p Ho). f_equal. subst s1. simpl. lia.
Qed.

Lemma query_eq s key : cm_ok s ->
  CountMin.query key s =
  Ok (foldl (fun res p => Z.min res (s.(CountMin.data_) !!! p)) s.(CountMin.v_max_) (cells s key)).
Proof.
  intros [Hn Hd _ _]. unfold CountMin.query, cells. generalize (CountMin.v_max_ s).
  induction (key_probes (CountMin.k_ s) key) as [|h hs IH]; intros res; cbn [foldM]; [done|].
  rewrite umod_pos by done. cbn [mbind outcome_bind].
  pose proof (Z.mod_pos_bound h (CountMin.n_ s) Hn) as Hm.
  destruct (lookup_lt_is_Some_2 (CountMin.data_ s) (Z.to_nat (h mod CountMin.n_ s))) as [v Hv]; [lia|].
  rewrite (proj2 (read_at_Ok _ _ _) Hv). cbn [mbind outcome_bind]. rewrite IH. simpl.
  by rewrite (list_lookup_total_correct _ _ _ Hv).
Qed.

Lemma foldl_min_eq (f g : nat -> Z) ps res : (forall p, p ∈ ps -> f p = g p) ->
  foldl (fun res p => Z.min res (f p)) res ps = foldl (fun res p => Z.min res (g p)) res ps.
Proof.
  revert res. induction ps as [|p ps IH]; intros res H; simpl; [done|]. rewrite H by by left.
  apply IH. intros. apply H. by right.
Qed.

Lemma foldl_min_bounds (f : nat -> Z) ps res lo :
  (lo <= res)%Z -> (forall p, p ∈ ps -> (lo <= f p)%Z) ->
  (lo <= foldl (fun res p => Z.min res (f p)) res ps <= res)%Z.
Proof.
  revert res. induction ps as [|p ps IH]; intros res Hr H; simpl; [lia|].
  assert (lo <= f p)%Z by (apply H; by left).
  specialize (IH (Z.min res (f p)) ltac:(lia)). assert (forall q, q ∈ ps -> (lo <= f q)%Z) as Hq by (intros; apply H; by right).
  specialize (IH Hq). lia.
Qed.

(** The estimate of a key after the insertions [ops]. *)
Definition estimate (s : CountMin.t) (ops : list (Z * Z)) (key : Z) : Z :=
  foldl (fun res p => Z.min res (Z.min s.(CountMin.v_max_) (added s ops p))) s.(CountMin.v_max_) (cells s key).

Lemma estimate_bounds s ops key : (0 <= s.(CountMin.v_max_))%Z -> Forall (fun kc => 0 <= kc.2)%Z ops ->
  (Z.min s.(CountMin.v_max_) (total ops key) <= estimate s ops key <= s.(CountMin.v_max_))%Z.
Proof.
  intros Hv Ho. apply foldl_min_bounds; [lia|]. intros p Hp. pose proof (total_added s ops key p Ho Hp). lia.
Qed.

Lemma query_after_inserts n k v_max ops key :
  (0 <= v_max)%Z -> Forall (fun kc => 0 <= kc.2)%Z ops ->
  let s := CountMin.resize n k v_max in
  exists s', inserts ops s = Ok s' /\ cm_ok s' /\ CountMin.query key s' = Ok (estimate s ops key).
Proof.
  intros Hv Ho s. destruct (inserts_ok ops s (resize_cm_ok n k v_max Hv) Ho) as (s' & E & Hok & En & Ek & Ev & Hd).
  exists s'. split_and!; [done|done|]. rewrite query_eq by done. f_equal. unfold estimate.
  assert (cells s' key = cells s key) as Ec by (unfold cells; by rewrite En, Ek).
  rewrite Ec, Ev. apply foldl_min_eq. intros p Hp.
  pose proof (cells_range s key (resize_cm_ok n k v_max Hv)) as Hr. rewrite Forall_forall in Hr. specialize (Hr _ Hp).
  rewrite (list_lookup_total_correct _ _ (Z.min v_max (0 + added s ops p))%Z); [done|].
  apply (Hd p 0%Z). simpl in *. apply lookup_replicate. split; [done|]. by rewrite length_replicate in Hr.
Qed.

End CountMin_laws.

(** C36: [CountMin] never counts too little, whatever keys were inserted and
    however their cells collide: after any insertions of counts that are not
    negative, the sketch has its type (as many cells as it says, each between 0
    and [v_max]), and a query gives the least of the sums of what was added to
    the cells of the key, at least its total count or [v_max] if that is
    smaller, and never more than [v_max]. *)
Theorem CountMin_type n k v_max ops key :
  (0 <= v_max)%Z -> Forall (fun kc => 0 <= kc.2)%Z ops ->
  exists s, inserts ops (CountMin.resize n k v_max) = Ok s /\ cm_ok s /\
    CountMin.query key s = Ok (estimate (CountMin.resize n k v_max) ops key) /\
    (Z.min v_max (total ops key) <= estimate (CountMin.resize n k v_max) ops key <= v_max)%Z.
Proof.
  intros Hv Ho. destruct (query_after_inserts n k v_max ops key Hv Ho) as (s & E & Hok & Hq).
  exists s. split; [done|]. split; [done|]. split; [done|]. by apply (estimate_bounds (CountMin.resize n k v_max)).
Qed.

Lemma CountMin_type_witness :
  (0 <= 254)%Z /\ Forall (fun kc => 0 <= kc.2)%Z [(7, 200); (9, 3); (7, 100)]%Z /\
  exists s, inserts [(7, 200); (9, 3); (7, 100)]%Z (CountMin.resize 70 3 254) = Ok s /\ cm_ok s /\
    CountMin.query 7 s = Ok (estimate (CountMin.resize 70 3 254) [(7, 200); (9, 3); (7, 100)]%Z 7) /\
    (Z.min 254 (total [(7, 200); (9, 3); (7, 100)] 7) <=
     estimate (CountMin.resize 70 3 254) [(7, 200); (9, 3); (7, 100)]%Z 7 <= 254)%Z.
Proof.
  assert (Forall (fun kc => 0 <= kc.2)%Z [(7, 200); (9, 3); (7, 100)]%Z) as Ho by (repeat constructor; simpl; lia).
  split_and!; [lia|exact Ho|]. apply (CountMin_type 70 3 254 _ 7); [lia|exact Ho].
Defined.

(** ** The frequency filter *)

Lemma QueryKeys_eq (f : Z -> Z) s ks thr : (thr < 255)%Z ->
  (forall k, k ∈ ks -> CountMin.query k s = Ok (f k)) ->
  QueryKeys ks thr s = Ok (filter (fun k => thr < f k)%Z ks).
Proof.
  intros Ht Hq. unfold QueryKeys. rewrite check_true by lia. cbn [mbind outcome_bind].
  enough (forall out, foldM (fun out k => c ← CountMin.query k s; Ok (if (thr <? c)%Z then out ++ [k] else out)) ks out =
    Ok (out ++ filter (fun k => thr < f k)%Z ks)) as H by apply H.
  induction ks as [|k ks IH]; intros out; cbn [foldM]; [by rewrite app_nil_r|].
  rewrite Hq by left. cbn [mbind outcome_bind]. rewrite IH by (intros; apply Hq; by right).
  rewrite filter_cons. f_equal. destruct (Z.ltb_spec thr (f k)); [rewrite decide_True by done|rewrite decide_False by lia; done].
  by rewrite <- app_assoc.
Qed.

(** [FreqencyFilter] loses no frequent key: the keys it keeps are keys of
    the query, in order, and every key whose counts add up to more than the
    threshold is among them, for thresholds below 254. *)
Theorem frequency_filter_keeps n k keys counts ks thr :
  length keys = length counts -> Forall (fun c => 0 <= c)%Z counts -> (thr < 254)%Z ->
  exists s out, InsertKeys keys counts (FF_Resize n k) = Ok s /\ QueryKeys ks thr s = Ok out /\
    sublist out ks /\ (forall key, key ∈ ks -> (thr < total (zip keys counts) key)%Z -> key ∈ out).
Proof.
  intros Hl Hc Ht. set (ops := zip keys counts).
  assert (Forall (fun kc => 0 <= kc.2)%Z ops) as Ho.
  { apply Forall_forall. intros [a b] Hab. apply elem_of_zip_r in Hab. rewrite Forall_forall in Hc. by apply Hc. }
  destruct (inserts_ok ops (FF_Resize n k) (resize_cm_ok n k 254 ltac:(lia)) Ho) as (s & E & _).
  assert (forall key, CountMin.query key s = Ok (estimate (FF_Resize n k) ops key)) as Hq.
  { intros key. destruct (query_after_inserts n k 254 ops key ltac:(lia) Ho) as (s' & E' & _ & Hq).
    unfold FF_Resize in E. rewrite E in E'. injection E' as ->. done. }
  exists s, (filter (fun key => thr < estimate (FF_Resize n k) ops key)%Z ks). split_and!.
  - unfold InsertKeys. rewrite check_true by by apply bool_decide_eq_true. exact E.
  - apply QueryKeys_eq; [lia|done].
  - apply sublist_filter.
  - intros key Hk Hthr. apply list_elem_of_filter. split; [|done].
    destruct (estimate_bounds (FF_Resize n k) ops key) as [Hb _]; [simpl; lia|done|]. simpl in Hb. lia.
Qed.

Lemma frequency_filter_keeps_witness :
  length [5; 6; 5]%Z = length [2; 1; 2]%Z /\
  exists s out, InsertKeys [5; 6; 5]%Z [2; 1; 2]%Z (FF_Resize 100 2) = Ok s /\ QueryKeys [5; 6; 7]%Z 3 s = Ok out /\
    sublist out [5; 6; 7]%Z /\
    (forall key, key ∈ [5; 6; 7]%Z -> (3 < total (zip [5; 6; 5] [2; 1; 2]) key)%Z -> key ∈ out).
Proof.
  split; [done|]. apply (frequency_filter_keeps 100 2 [5; 6; 5]%Z [2; 1; 2]%Z); [done| |lia].
  repeat constructor; lia.
Defined.

(** The check lets the threshold 254 pass, for which no key is kept however
    often it was seen: the counters stop at 254. *)
Example threshold_254_keeps_nothing :
  (s ← InsertKeys [5; 5]%Z [200; 200]%Z (FF_Resize 100 2); QueryKeys [5]%Z 254 s) = Ok [].
Proof. vm_compute. reflexivity. Qed.

(** ** Bits of bytes *)

Lemma land_bit b i : (0 <= i)%Z -> negb (Z.land b (Z.shiftl 1 i) =? 0)%Z = Z.testbit b i.
Proof.
  intros Hi. assert (Z.land b (Z.shiftl 1 i) = if Z.testbit b i then Z.shiftl 1 i else 0)%Z as ->.
  { apply Z.bits_inj'. intros j Hj. rewrite Z.land_spec, Z.shiftl_1_l.
    destruct (Z.eq_dec i j) as [<-|Hij].
    - destruct (Z.testbit b i) eqn:E; rewrite ?Z.pow2_bits_true, ?Z.bits_0 by lia; done.
    - rewrite Z.pow2_bits_false, andb_false_r by lia. destruct (Z.testbit b i); [|by rewrite Z.bits_0].
      by rewrite Z.pow2_bits_false by lia. }
  destruct (Z.testbit b i); [|done]. rewrite Z.shiftl_1_l. destruct (Z.eqb_spec (2 ^ i) 0); [|done].
  pose proof (Z.pow_pos_nonneg 2 i). lia.
Qed.

Definition bit_at (data : list Z) (i : Z) : bool := Z.testbit (data !!! Z.to_nat (i / 8)) (i mod 8).
Definition in_bits (data : list Z) (i : Z) : Prop := (0 <= i < 8 * Z.of_nat (length data))%Z.

Lemma in_bits_index data i : in_bits data i -> Z.to_nat (i / 8) < length data /\ (0 <= i mod 8 < 8)%Z.
Proof.
  unfold in_bits. intros Hi. split; [|apply Z.mod_pos_bound; lia].
  assert (i / 8 < Z.of_nat (length data))%Z by (apply Z.div_lt_upper_bound; lia).
  assert (0 <= i / 8)%Z by (apply Z.div_pos; lia). lia.
Qed.

Lemma byte_bit_ok data i : in_bits data i -> byte_bit data i = Ok (bit_at data i).
Proof.
  intros Hi. destruct (in_bits_index _ _ Hi) as [H1 H2]. unfold byte_bit, bit_at.
  destruct (lookup_lt_is_Some_2 _ _ H1) as [b Hb]. rewrite (proj2 (read_at_Ok _ _ _) Hb). cbn [mbind outcome_bind].
  rewrite (list_lookup_total_correct _ _ _ Hb), land_bit by lia. done.
Qed.

Lemma set_byte_bit_ok data i : in_bits data i ->
  exists data', set_byte_bit data i = Ok data' /\ length data' = length data /\
    forall j, in_bits data j -> bit_at data' j = bit_at data j || bool_decide (j = i).
Proof.
  intros Hi. destruct (in_bits_index _ _ Hi) as [H1 H2]. unfold set_byte_bit.
  destruct (lookup_lt_is_Some_2 _ _ H1) as [b Hb]. rewrite (proj2 (read_at_Ok _ _ _) Hb). cbn [mbind outcome_bind].
  rewrite write_at_lt by done. eexists. split; [done|]. rewrite length_insert. split; [done|].
  intros j Hj. destruct (in_bits_index _ _ Hj) as [H3 H4]. unfold bit_at.
  pose proof (Z.div_mod i 8 ltac:(lia)). pose proof (Z.div_mod j 8 ltac:(lia)).
  destruct (decide (Z.to_nat (j / 8) = Z.to_nat (i / 8))) as [E|E].
  - rewrite E, list_lookup_total_insert_eq, (list_lookup_total_correct _ _ _ Hb) by done.
    assert (0 <= i / 8)%Z by (apply Z.div_pos; unfold in_bits in *; lia).
    assert (0 <= j / 8)%Z by (apply Z.div_pos; unfold in_bits in *; lia).
    rewrite Z.lor_spec, Z.shiftl_1_l. f_equal. destruct (Z.eq_dec (i mod 8) (j mod 8)) as [E2|E2].
    + rewrite <- E2, Z.pow2_bits_true by lia. symmetry. apply bool_decide_eq_true. lia.
    + rewrite Z.pow2_bits_false by lia. symmetry. apply bool_decide_eq_false. intros ->. lia.
  - rewrite list_lookup_total_insert_ne by done. rewrite bool_decide_eq_false_2, orb_false_r by (intros ->; done). done.
Qed.

Lemma insert_bits_ok is_ : forall data, Forall (in_bits data) is_ ->
  exists data', insert_bits data (map Ok is_) = Ok data' /\ length data' = length data /\
    forall j, in_bits data j -> bit_at data' j = bit_at data j || bool_decide (j ∈ is_).
Proof.
  induction is_ as [|i is_ IH]; intros data Hr; cbn [map insert_bits].
  { exists data. split_and!; try done. intros j _. rewrite bool_decide_eq_false_2, orb_false_r; [done|]. apply not_elem_of_nil. }
  apply Forall_cons in Hr as [Hi Hr]. cbn [mbind outcome_bind].
  destruct (set_byte_bit_ok data i Hi) as (d1 & -> & Hl1 & Hb1). cbn [mbind outcome_bind].
  destruct (IH d1) as (d2 & E & Hl2 & Hb2).
  { eapply Forall_impl; [exact Hr|]. unfold in_bits. by rewrite Hl1. }
  exists d2. split_and!; [done|congruence|]. intros j Hj. rewrite Hb2, Hb1 by (unfold in_bits in *; by rewrite ?Hl1).
  rewrite <- orb_assoc. f_equal. rewrite <- bool_decide_or. apply bool_decide_ext. by rewrite elem_of_cons.
Qed.

Lemma query_bits_ok is_ data : Forall (in_bits data) is_ -> query_bits data (map Ok is_) = Ok (forallb (bit_at data) is_).
Proof.
  induction 1 as [|i is_ Hi Hr IH]; [done|]. cbn [map query_bits mbind outcome_bind]. rewrite byte_bit_ok by done.
  cbn [mbind outcome_bind forallb]. by destruct (bit_at data i).
Qed.

(** Any number of insertions, with the positions of each key. *)
Fixpoint insert_all (pos : Z -> list Z) (keys : list Z) (data : list Z) : outcome (list Z) :=
  match keys with
  | [] => Ok data
  | k :: keys => data ← insert_bits data (map Ok (pos k)); insert_all pos keys data
  end.

Lemma insert_all_ok pos keys : forall data, (forall k, Forall (in_bits data) (pos k)) ->
  exists data', insert_all pos keys data = Ok data' /\ length data' = length data /\
    forall j, in_bits data j -> bit_at data' j = bit_at data j || bool_decide (j ∈ concat (map pos keys)).
Proof.
  induction keys as [|k keys IH]; intros data Hp; cbn [insert_all].
  { exists data. split_and!; try done. intros j _. rewrite bool_decide_eq_false_2, orb_false_r; [done|]. apply not_elem_of_nil. }
  destruct (insert_bits_ok (pos k) data (Hp k)) as (d1 & -> & Hl1 & Hb1). cbn [mbind outcome_bind].
  destruct (IH d1) as (d2 & E & Hl2 & Hb2).
  { intros k'. eapply Forall_impl; [apply Hp|]. unfold in_bits. by rewrite Hl1. }
  exists d2. split_and!; [done|congruence|]. intros j Hj. rewrite Hb2, Hb1 by (unfold in_bits in *; by rewrite ?Hl1).
  rewrite <- orb_assoc. f_equal. rewrite <- bool_decide_or. apply bool_decide_ext. simpl. by rewrite elem_of_app.
Qed.

(** ** Bloom filters *)

Lemma replicate_bit n i : in_bits (replicate n 0%Z) i -> bit_at (replicate n 0%Z) i = false.
Proof.
  intros Hi. destruct (in_bits_index _ _ Hi) as [H1 _]. unfold bit_at. rewrite length_replicate in H1.
  rewrite lookup_total_replicate_2 by done. apply Z.bits_0.
Qed.

(** A query after insertions into empty memory: true exactly if every bit of the
    key belongs to a key that was inserted. *)
Lemma query_after_insert_all pos keys key n :
  (forall k, Forall (in_bits (replicate n 0%Z)) (pos k)) ->
  exists data, insert_all pos keys (replicate n 0%Z) = Ok data /\ length data = n /\
    query_bits data (map Ok (pos key)) = Ok (forallb (fun i => bool_decide (i ∈ concat (map pos keys))) (pos key)).
Proof.
  intros Hp. destruct (insert_all_ok pos keys _ Hp) as (data & E & Hl & Hb). rewrite length_replicate in Hl.
  exists data. split_and!; try done. rewrite query_bits_ok.
  2: { eapply Forall_impl; [apply Hp|]. intros i. unfold in_bits. by rewrite length_replicate, Hl. }
  f_equal. specialize (Hp key). induction Hp as [|i is_ Hi _ IH]; [done|]. simpl. rewrite IH, Hb by done.
  by rewrite replicate_bit.
Qed.

Definition bloom_pos (m : Z) (k : nat) (key : Z) : list Z := map (fun h => h mod m)%Z (key_probes k key).
Definition block_pos (num_bin : Z) (k : nat) (key : Z) : list Z :=
  map (fun h => hash key mod num_bin * BlockBloom.bin_size_ * 8 + h mod (BlockBloom.bin_size_ * 8))%Z (key_probes k key).

Lemma bloom_positions key s : (0 < s.(Bloom.m_))%Z ->
  Bloom.positions key s = map Ok (bloom_pos s.(Bloom.m_) s.(Bloom.k_) key).
Proof.
  intros Hm. unfold Bloom.positions, bloom_pos. rewrite map_map. apply map_ext. intros h. by apply umod_pos.
Qed.

Lemma block_positions key s : (0 < s.(BlockBloom.num_bin_))%Z ->
  BlockBloom.positions key s = map Ok (block_pos s.(BlockBloom.num_bin_) s.(BlockBloom.k_) key).
Proof.
  intros Hm. unfold BlockBloom.positions, block_pos. rewrite map_map. apply map_ext. intros h. by rewrite umod_pos.
Qed.

Lemma bloom_pos_range m k key : (0 < m)%Z -> Forall (in_bits (replicate (Z.to_nat (m / 8 + 1)) 0%Z)) (bloom_pos m k key).
Proof.
  intros Hm. apply Forall_map, Forall_forall. intros h _. unfold in_bits. rewrite length_replicate.
  pose proof (Z.mod_pos_bound h m Hm). pose proof (Z.div_mod m 8 ltac:(lia)). pose proof (Z.mod_pos_bound m 8 ltac:(lia)).
  assert (0 <= m / 8)%Z by (apply Z.div_pos; lia). lia.
Qed.

Lemma block_pos_range nb k key n : (0 < nb)%Z -> (nb * 64 <= Z.of_nat n)%Z ->
  Forall (in_bits (replicate n 0%Z)) (block_pos nb k key).
Proof.
  intros Hm Hn. apply Forall_map, Forall_forall. intros h _. unfold in_bits, BlockBloom.bin_size_. rewrite length_replicate.
  pose proof (Z.mod_pos_bound h (64 * 8) ltac:(lia)). pose proof (Z.mod_pos_bound (hash key) nb Hm). nia.
Qed.

Definition bloom_inserts (keys : list Z) (s : Bloom.t) : outcome Bloom.t := foldM (fun s k => Bloom.insert k s) keys s.
Definition block_inserts (keys : list Z) (s : BlockBloom.t) : outcome BlockBloom.t :=
  foldM (fun s k => BlockBloom.insert k s) keys s.

Lemma bloom_insert_eq key data m k : (0 < m)%Z ->
  Bloom.insert key (Bloom.mk data m k) = (d ← insert_bits data (map Ok (bloom_pos m k key)); Ok (Bloom.mk d m k)).
Proof. intros Hm. unfold Bloom.insert. by rewrite bloom_positions. Qed.

Lemma block_insert_eq key data m k nb : (0 < nb)%Z ->
  BlockBloom.insert key (BlockBloom.mk data m k nb) =
  (d ← insert_bits data (map Ok (block_pos nb k key)); Ok (BlockBloom.mk d m k nb)).
Proof. intros Hm. unfold BlockBloom.insert. by rewrite block_positions. Qed.

Lemma bloom_inserts_eq keys : forall data m k data', (0 < m)%Z ->
  insert_all (bloom_pos m k) keys data = Ok data' ->
  bloom_inserts keys (Bloom.mk data m k) = Ok (Bloom.mk data' m k).
Proof.
  unfold bloom_inserts. induction keys as [|key keys IH]; intros data m k data' Hm E; cbn [insert_all foldM] in *.
  { by injection E as ->. }
  rewrite bloom_insert_eq by done. destruct (insert_bits data _) as [d1|]; [|done]. cbn [mbind outcome_bind] in *. by apply IH.
Qed.

Lemma block_inserts_eq keys : forall data m k nb data', (0 < nb)%Z ->
  insert_all (block_pos nb k) keys data = Ok data' ->
  block_inserts keys (BlockBloom.mk data m k nb) = Ok (BlockBloom.mk data' m k nb).
Proof.
  unfold block_inserts. induction keys as [|key keys IH]; intros data m k nb data' Hm E; cbn [insert_all foldM] in *.
  { by injection E as ->. }
  rewrite block_insert_eq by done. destruct (insert_bits data _) as [d1|]; [|done]. cbn [mbind outcome_bind] in *. by apply IH.
Qed.

Lemma forallb_inserted (pos : Z -> list Z) (keys : list Z) key : key ∈ keys ->
  forallb (fun i => bool_decide (i ∈ concat (map pos keys))) (pos key) = true.
Proof.
  intros Hk. apply forallb_forall. intros i Hi. apply bool_decide_eq_true.
  apply list_elem_of_In, in_concat. exists (pos key). split; [|done]. apply in_map. by apply list_elem_of_In.
Qed.

(** The two Bloom filters have no false negatives: after any insertions
    into a filter that was resized to at least one bit, the query of a key that
    was inserted is true; and a query is true only if each of its bits belongs
    to some key that was inserted. *)
Theorem bloom_no_false_negatives m k fresh keys key :
  (0 < m)%Z ->
  (exists s, bloom_inserts keys (Bloom.resize m k) = Ok s /\
     Bloom.query key s = Ok (forallb (fun i => bool_decide (i ∈ concat (map (bloom_pos m s.(Bloom.k_)) keys)))
                               (bloom_pos m s.(Bloom.k_) key)) /\
     (key ∈ keys -> Bloom.query key s = Ok true)) /\
  (exists s0 s, BlockBloom.resize fresh m k BlockBloom.new = Ok s0 /\ block_inserts keys s0 = Ok s /\
     BlockBloom.query key s =
       Ok (forallb (fun i => bool_decide (i ∈ concat (map (block_pos s.(BlockBloom.num_bin_) s.(BlockBloom.k_)) keys)))
             (block_pos s.(BlockBloom.num_bin_) s.(BlockBloom.k_) key)) /\
     (key ∈ keys -> BlockBloom.query key s = Ok true)).
Proof.
  intros Hm. split.
  - unfold Bloom.resize. set (kk := Z.to_nat (Z.min 64 (Z.max 1 k))). set (n := Z.to_nat (m / 8 + 1)).
    destruct (query_after_insert_all (bloom_pos m kk) keys key n) as (data & E & _ & Hq).
    { intros k'. by apply bloom_pos_range. }
    exists (Bloom.mk data m kk). split; [by apply bloom_inserts_eq|]. unfold Bloom.query.
    rewrite bloom_positions by done. simpl. rewrite Hq. split; [done|]. intros Hk. by rewrite forallb_inserted.
  - unfold BlockBloom.resize. set (m' := Z.max m 1024). set (nb := (m' / 8 / BlockBloom.bin_size_ + 1)%Z).
    set (size := Z.to_nat (nb * BlockBloom.bin_size_)). set (kk := Z.to_nat (Z.min 64 (Z.max 1 k))).
    assert (0 < nb)%Z as Hnb.
    { subst nb m'. unfold BlockBloom.bin_size_. assert (0 <= Z.max m 1024 / 8 / 64)%Z; [|lia]. apply Z.div_pos; [|lia].
      apply Z.div_pos; lia. }
    simpl BlockBloom.m_. destruct (Z.ltb_spec 0 m'); [|lia].
    assert (length (take size fresh ++ replicate (size - length fresh) 0%Z) = size) as Hl.
    { rewrite length_app, length_take, length_replicate. lia. }
    rewrite decide_True by lia. rewrite (drop_ge (_ ++ _)) by lia. rewrite app_nil_r.
    destruct (query_after_insert_all (block_pos nb kk) keys key size) as (data & E & _ & Hq).
    { intros k'. apply block_pos_range; [done|]. subst size. unfold BlockBloom.bin_size_. lia. }
    eexists _, (BlockBloom.mk data m' kk nb). split; [done|]. split; [by apply block_inserts_eq|]. unfold BlockBloom.query.
    rewrite block_positions by done. simpl. rewrite Hq. split; [done|]. intros Hk. by rewrite forallb_inserted.
Qed.

Lemma bloom_no_false_negatives_witness :
  (0 < 100)%Z /\
  ((exists s, bloom_inserts [3; 9]%Z (Bloom.resize 100 4) = Ok s /\
     Bloom.query 9 s = Ok (forallb (fun i => bool_decide (i ∈ concat (map (bloom_pos 100 s.(Bloom.k_)) [3; 9]%Z)))
                               (bloom_pos 100 s.(Bloom.k_) 9)) /\
     (9%Z ∈ [3; 9]%Z -> Bloom.query 9 s = Ok true)) /\
  (exists s0 s, BlockBloom.resize [] 100 4 BlockBloom.new = Ok s0 /\ block_inserts [3; 9]%Z s0 = Ok s /\
     BlockBloom.query 9 s =
       Ok (forallb (fun i => bool_decide (i ∈ concat (map (block_pos s.(BlockBloom.num_bin_) s.(BlockBloom.k_)) [3; 9]%Z)))
             (block_pos s.(BlockBloom.num_bin_) s.(BlockBloom.k_) 9)) /\
     (9%Z ∈ [3; 9]%Z -> BlockBloom.query 9 s = Ok true))).
Proof. split; [lia|]. apply (bloom_no_false_negatives 100 4 [] [3; 9]%Z 9). lia. Defined.

(** ** The bitmap is a vector of bits *)

(** [P] of all numbers whose binary form is that of [x] with [n] more digits. *)
Fixpoint all_words (P : Z -> bool) (n : nat) (x : Z) : bool :=
  match n with
  | 0 => P x
  | S n => all_words P n (2 * x) && all_words P n (2 * x + 1)
  end.

Lemma all_words_spec P n : forall x, all_words P n x = true ->
  forall y, (x * 2 ^ Z.of_nat n <= y < (x + 1) * 2 ^ Z.of_nat n)%Z -> P y = true.
Proof.
  induction n as [|n IH]; intros x H y Hy; cbn [all_words] in H.
  { simpl in Hy. by replace y with x by lia. }
  apply andb_true_iff in H as [H1 H2]. rewrite Nat2Z.inj_succ, Z.pow_succ_r in Hy by lia.
  destruct (Z.lt_ge_cases y ((2 * x + 1) * 2 ^ Z.of_nat n)).
  - apply (IH _ H1). lia.
  - apply (IH _ H2). lia.
Qed.

(** The number of positions from [a] to [a + n] at which [f] holds. *)
Definition cnt (f : nat -> bool) (a n : nat) : Z := Z.of_nat (length (filter (fun i => f i = true) (seq a n))).

Lemma cnt_add f a n m : cnt f a (n + m) = (cnt f a n + cnt f (a + n) m)%Z.
Proof. unfold cnt. rewrite seq_app, filter_app, length_app. lia. Qed.

Lemma cnt_one f a : cnt f a 1 = (if f a then 1 else 0)%Z.
Proof. unfold cnt. simpl. rewrite filter_cons. by destruct (f a). Qed.

Lemma cnt_bounds f a n : (0 <= cnt f a n <= Z.of_nat n)%Z.
Proof.
  unfold cnt. pose proof (length_filter (fun i => f i = true) (seq a n)) as Hl. rewrite length_seq in Hl. lia.
Qed.

Lemma cnt_ext f g a b n : (forall i, i < n -> f (a + i) = g (b + i)) -> cnt f a n = cnt g b n.
Proof.
  revert a b. induction n as [|n IH]; intros a b H; [done|]. change (S n) with (1 + n). rewrite !cnt_add, !cnt_one.
  pose proof (H 0 ltac:(lia)) as H0. rewrite !Nat.add_0_r in H0. rewrite H0. f_equal. apply IH. intros i Hi.
  specialize (H (S i) ltac:(lia)). by rewrite <- !Nat.add_assoc.
Qed.

Lemma BITCOUNT_ok w : (0 <= w < 65536)%Z -> Bitmap.BITCOUNT_ w = cnt (fun i => Z.testbit w (Z.of_nat i)) 0 16.
Proof.
  intros Hw. apply Z.eqb_eq.
  apply (all_words_spec (fun w => (Bitmap.BITCOUNT_ w =? cnt (fun i => Z.testbit w (Z.of_nat i)) 0 16)%Z) 16 0);
    [vm_compute; reflexivity|]. simpl. lia.
Qed.

Section Bitmap_laws.
Import Bitmap.
Implicit Types (s : Bitmap.t) (bs : list bool).

(** The bitmap [s] stands for the vector [bs]. *)
Definition bm_bit s (i : nat) : bool := Z.testbit (s.(map_) !!! (i / 16)) (Z.of_nat (i mod 16)).
Record bm_rep s bs : Prop := {
  bm_size : s.(size_) = Z.of_nat (length bs);
  bm_small : (s.(size_) < 2 ^ 32)%Z;
  bm_words : length s.(map_) = length bs / 16 + 1;
  bm_range : Forall (fun w => 0 <= w < 65536)%Z s.(map_);
  bm_bits : forall i, i < length bs -> bm_bit s i = bs !!! i
}.

Lemma word_of i : Z.to_nat (Z.shiftr (Z.of_nat i) kBitmapShift) = i / 16 /\
  Z.land (Z.of_nat i) kBitmapMask = Z.of_nat (i mod 16).
Proof.
  unfold kBitmapShift, kBitmapMask. split.
  - rewrite Z.shiftr_div_pow2 by lia. rewrite <- (Nat2Z.id (i / 16)). f_equal. rewrite Nat2Z.inj_div. done.
  - change 15%Z with (Z.ones 4). rewrite Z.land_ones by lia. rewrite Nat2Z.inj_mod. done.
Qed.

Lemma word_index s bs i : bm_rep s bs -> i < length bs ->
  exists w, s.(map_) !! (i / 16) = Some w /\ (0 <= w < 65536)%Z /\ i mod 16 < 16.
Proof.
  intros [_ _ Hl Hr _] Hi. assert (i / 16 <= length bs / 16) by (apply Nat.Div0.div_le_mono; lia).
  destruct (lookup_lt_is_Some_2 (map_ s) (i / 16)) as [w Hw]; [lia|]. exists w. split; [done|]. split.
  - rewrite Forall_lookup in Hr. by apply (Hr _ _ Hw).
  - apply Nat.mod_upper_bound. lia.
Qed.

Lemma test_ok s bs i : bm_rep s bs -> i < length bs -> test (Z.of_nat i) s = Ok (bs !!! i).
Proof.
  intros Hs Hi. destruct (word_index s bs i Hs Hi) as (w & Hw & Hr & Hm). unfold test. destruct (word_of i) as [-> ->].
  rewrite (proj2 (read_at_Ok _ _ _) Hw). cbn [mbind outcome_bind]. f_equal. rewrite <- (bm_bits _ _ Hs i Hi).
  unfold bm_bit. rewrite (list_lookup_total_correct _ _ _ Hw). change 1%Z with (Z.ones 1) at 1.
  rewrite Z.land_ones, Z.shiftr_div_pow2 by lia.
  destruct (Z.testbit w (Z.of_nat (i mod 16))) eqn:E.
  - apply Z.testbit_true in E; [|lia]. change (2 ^ 1)%Z with 2%Z. by rewrite E.
  - apply Z.testbit_false in E; [|lia]. change (2 ^ 1)%Z with 2%Z. by rewrite E.
Qed.

(** Changing one bit. *)
Lemma upd_ok s bs i f b : bm_rep s bs -> i < length bs ->
  (forall w j, (0 <= w < 65536)%Z -> j < 16 ->
     Z.testbit (f w) (Z.of_nat j) = if decide (j = i mod 16) then b else Z.testbit w (Z.of_nat j)) ->
  (forall w, (0 <= w < 65536)%Z -> (0 <= f w < 65536)%Z) ->
  exists s', upd f (Z.of_nat i) s = Ok s' /\ bm_rep s' (<[i := b]> bs).
Proof.
  intros Hs Hi Hf Hrange. destruct (word_index s bs i Hs Hi) as (w & Hw & Hr & Hm). unfold upd.
  destruct (word_of i) as [-> _]. rewrite (proj2 (read_at_Ok _ _ _) Hw). cbn [mbind outcome_bind].
  assert (i / 16 < length (map_ s)) as Hlt by by eapply lookup_lt_Some.
  rewrite write_at_lt by done. cbn [mbind outcome_bind]. eexists. split; [done|].
  destruct Hs as [H1 H2 H3 H4 H5]. split; cbn [map_ size_]; rewrite ?length_insert; try done.
  { apply Forall_insert; [done|]. by apply Hrange. }
  intros j Hj. unfold bm_bit. cbn [map_ size_ fill]. assert (j mod 16 < 16) by (apply Nat.mod_upper_bound; lia).
  pose proof (Nat.div_mod i 16 ltac:(lia)). pose proof (Nat.div_mod j 16 ltac:(lia)).
  destruct (decide (j / 16 = i / 16)) as [E|E].
  - rewrite E, list_lookup_total_insert_eq, Hf by done. case_decide as Em.
    + assert (j = i) as -> by lia. by rewrite list_lookup_total_insert_eq.
    + rewrite list_lookup_total_insert_ne by (intros ->; lia). rewrite <- (H5 j Hj). unfold bm_bit.
      rewrite E. by rewrite (list_lookup_total_correct _ _ _ Hw).
  - rewrite list_lookup_total_insert_ne by congruence. rewrite list_lookup_total_insert_ne by congruence. by apply H5.
Qed.

Lemma u16_shift k : k < 16 -> u16 (Z.shiftl 1 (Z.of_nat k)) = (2 ^ Z.of_nat k)%Z.
Proof.
  intros Hk. unfold u16. change 65535%Z with (Z.ones 16). rewrite Z.land_ones, Z.shiftl_1_l by lia.
  apply Z.mod_small. split; [lia|]. apply Z.pow_lt_mono_r; lia.
Qed.

Lemma set_ok s bs i : bm_rep s bs -> i < length bs ->
  exists s', set (Z.of_nat i) s = Ok s' /\ bm_rep s' (<[i := true]> bs).
Proof.
  intros Hs Hi. unfold set. destruct (word_of i) as [_ ->]. assert (i mod 16 < 16) by (apply Nat.mod_upper_bound; lia).
  rewrite u16_shift by done. apply upd_ok; try done.
  - intros w j Hw Hj. rewrite Z.lor_spec. case_decide as E.
    + rewrite E, Z.pow2_bits_true by lia. by rewrite orb_true_r.
    + rewrite Z.pow2_bits_false by lia. by rewrite orb_false_r.
  - intros w Hw. change 65536%Z with (2 ^ 16)%Z. apply lor_range; [lia|done|]. split; [lia|]. apply Z.pow_lt_mono_r; lia.
Qed.

Lemma clear_bit_ok s bs i : bm_rep s bs -> i < length bs ->
  exists s', clear_bit (Z.of_nat i) s = Ok s' /\ bm_rep s' (<[i := false]> bs).
Proof.
  intros Hs Hi. unfold clear_bit. destruct (word_of i) as [_ ->].
  assert (i mod 16 < 16) by (apply Nat.mod_upper_bound; lia). rewrite u16_shift by done. apply upd_ok; try done.
  - intros w j Hw Hj. unfold u16. change 65535%Z with (Z.ones 16).
    rewrite !Z.land_spec, Z.lnot_spec, Z.ones_spec_low by lia. rewrite andb_true_r. case_decide as E.
    + rewrite E, Z.pow2_bits_true by lia. by rewrite andb_false_r.
    + rewrite Z.pow2_bits_false by lia. by rewrite andb_true_r.
  - intros w Hw. unfold u16. change 65535%Z with (Z.ones 16). rewrite Z.land_assoc.
    rewrite Z.land_ones by lia. apply Z.mod_pos_bound. lia.
Qed.

Lemma fill_ok s bs v : bm_rep s bs -> bm_rep (fill v s) (replicate (length bs) v).
Proof.
  intros [H1 H2 H3 H4 H5]. split; cbn [map_ size_ fill]; rewrite ?length_replicate; try done.
  { apply Forall_replicate. destruct v; lia. }
  intros i Hi. unfold bm_bit. cbn [map_ size_ fill]. assert (i / 16 < length (map_ s)).
  { rewrite H3. assert (i / 16 <= length bs / 16) by (apply Nat.Div0.div_le_mono; lia). lia. }
  rewrite !lookup_total_replicate_2 by done. destruct v; [|apply Z.bits_0].
  change 65535%Z with (Z.ones 16). apply Z.ones_spec_low. pose proof (Nat.mod_upper_bound i 16). lia.
Qed.

Lemma resize_ok size v : (Z.of_nat size < 2 ^ 32)%Z ->
  exists s, resize (Z.of_nat size) v new = Ok s /\ bm_rep s (replicate size v).
Proof.
  intros Hs. eexists. split; [done|]. 
  assert (replicate size v = replicate (length (replicate size false)) v) as -> by (by rewrite length_replicate).
  apply fill_ok.
  destruct (word_of size) as [Hw _]. split; cbn [map_ size_ fill]; rewrite ?length_replicate; try done.
  - unfold kBitmapShift in *. rewrite <- Hw. rewrite Z.shiftr_div_pow2 by lia.
    assert (0 <= Z.of_nat size / 2 ^ 4)%Z by (apply Z.div_pos; lia). lia.
  - apply Forall_replicate. lia.
  - intros i Hi. unfold bm_bit. cbn [map_ size_ fill]. rewrite lookup_total_replicate_2, Z.bits_0.
    + by rewrite lookup_total_replicate_2.
    + unfold kBitmapShift. rewrite Z.shiftr_div_pow2 by lia.
      assert (Z.of_nat i / 2 ^ 4 <= Z.of_nat size / 2 ^ 4)%Z by (apply Z.div_le_mono; lia).
      assert (Z.of_nat (i / 16) = Z.of_nat i / 2 ^ 4)%Z by (rewrite Nat2Z.inj_div; done).
      assert (0 <= Z.of_nat i / 2 ^ 4)%Z by (apply Z.div_pos; lia). lia.
Qed.

Lemma nnz_range_ok s bs start n : bm_rep s bs -> start + n = length bs ->
  nnz_range start n s = Ok (cnt (fun i => bs !!! i) start n).
Proof.
  intros Hs Hn. unfold nnz_range. rewrite check_true by (apply Z.leb_le; rewrite (bm_size _ _ Hs), Hn; lia). cbn [mbind outcome_bind].
  pose proof (bm_small _ _ Hs) as Hb. rewrite (bm_size _ _ Hs) in Hb.
  destruct (foldM_seq (fun v i => b ← test (Z.of_nat i) s; Ok (u32 (v + (if (b : bool) then 1 else 0))))
    (fun i v => v = cnt (fun i => bs !!! i) start (i - start)) start n 0%Z) as (v & E & Hv).
  - by rewrite Nat.sub_diag.
  - intros i v Hi ->. rewrite (test_ok _ _ _ Hs) by lia. cbn [mbind outcome_bind]. eexists. split; [done|].
    replace (i + 1 - start) with (i - start + 1) by lia. rewrite cnt_add, cnt_one.
    replace (start + (i - start)) with i by lia. pose proof (cnt_bounds (fun i => bs !!! i) start (i - start)).
    apply u32_small. case_bool; lia.
  - rewrite E, Hv. do 2 f_equal. lia.
Qed.

Lemma nnz_ok s bs : bm_rep s bs -> nnz s = Ok (cnt (fun i => bs !!! i) 0 (length bs)).
Proof.
  intros Hs. unfold nnz. rewrite (bm_size _ _ Hs). destruct (word_of (length bs)) as [-> _]. set (bn := length bs / 16).
  pose proof (bm_small _ _ Hs) as Hb. rewrite (bm_size _ _ Hs) in Hb.
  pose proof (Nat.div_mod (length bs) 16 ltac:(lia)) as Hdm. fold bn in Hdm.
  destruct (foldM_seq (fun v i => w ← read_at (map_ s) i; Ok (u32 (v + BITCOUNT_ w)))
    (fun i v => v = cnt (fun i => bs !!! i) 0 (16 * i)) 0 bn 0%Z) as (v & E & Hv).
  - done.
  - intros i v Hi ->. destruct (lookup_lt_is_Some_2 (map_ s) i) as [w Hw]; [rewrite (bm_words _ _ Hs); fold bn; lia|].
    rewrite (proj2 (read_at_Ok _ _ _) Hw). cbn [mbind outcome_bind]. eexists. split; [done|].
    pose proof (bm_range _ _ Hs) as Hr. rewrite Forall_lookup in Hr. rewrite BITCOUNT_ok by by apply (Hr _ _ Hw).
    rewrite (cnt_ext (fun j => Z.testbit w (Z.of_nat j)) (fun i => bs !!! i) 0 (16 * i) 16).
    2: { intros j Hj. rewrite <- (bm_bits _ _ Hs) by lia. unfold bm_bit.
         replace ((16 * i + j) / 16) with i by (apply (Nat.div_unique _ 16 i j); lia).
         rewrite (list_lookup_total_correct _ _ _ Hw). do 2 f_equal. simpl plus.
         apply (Nat.mod_unique _ 16 i j); lia. }
    rewrite <- (cnt_add (fun i => bs !!! i) 0 (16 * i) 16). replace (16 * i + 16) with (16 * (i + 1)) by lia.
    apply u32_small. pose proof (cnt_bounds (fun i => bs !!! i) 0 (16 * (i + 1))). lia.
  - rewrite E. cbn [mbind outcome_bind]. unfold kBitmapShift. rewrite Z.shiftl_mul_pow2, !Nat2Z.id by lia.
    replace (Z.to_nat (Z.of_nat bn * 2 ^ 4)) with (16 * bn) by lia.
    rewrite (nnz_range_ok s bs) by (done || lia). cbn [mbind outcome_bind]. rewrite Hv. simpl.
    rewrite <- (cnt_add (fun i => bs !!! i) 0 (16 * bn) (length bs - 16 * bn)).
    replace (16 * bn + (length bs - 16 * bn)) with (length bs) by lia. f_equal. apply u32_small.
    pose proof (cnt_bounds (fun i => bs !!! i) 0 (length bs)). lia.
Qed.

End Bitmap_laws.

(** What is done to a bitmap after it was resized. *)
Inductive bitmap_op := OSet (i : nat) | OClear (i : nat) | OFill (v : bool).

Definition bitmap_step (s : Bitmap.t) (o : bitmap_op) : outcome Bitmap.t :=
  match o with
  | OSet i => Bitmap.set (Z.of_nat i) s
  | OClear i => Bitmap.clear_bit (Z.of_nat i) s
  | OFill v => Ok (Bitmap.fill v s)
  end.
Definition vector_step (bs : list bool) (o : bitmap_op) : list bool :=
  match o with
  | OSet i => <[i := true]> bs
  | OClear i => <[i := false]> bs
  | OFill v => replicate (length bs) v
  end.
Definition op_in (n : nat) (o : bitmap_op) : Prop := match o with OSet i | OClear i => i < n | OFill _ => True end.

Lemma vector_step_length bs o : length (vector_step bs o) = length bs.
Proof. destruct o; simpl; by rewrite ?length_insert, ?length_replicate. Qed.

Lemma bitmap_steps_ok ops : forall s bs, bm_rep s bs -> Forall (op_in (length bs)) ops ->
  exists s', foldM bitmap_step ops s = Ok s' /\ bm_rep s' (foldl vector_step bs ops).
Proof.
  induction ops as [|o ops IH]; intros s bs Hs Ho; cbn [foldM foldl]; [by exists s|].
  apply Forall_cons in Ho as [Hin Ho]. rewrite <- (vector_step_length bs o) in Ho.
  assert (exists s1, bitmap_step s o = Ok s1 /\ bm_rep s1 (vector_step bs o)) as (s1 & -> & Hs1).
  { destruct o; simpl in *; [by apply set_ok|by apply clear_bit_ok|]. eexists. split; [done|]. by apply fill_ok. }
  cbn [mbind outcome_bind]. by apply IH.
Qed.

(** [Bitmap] implements a vector of bits: after any sequence of set, clear
    and fill on positions below its size nothing is out of range, [test] gives
    the element of the vector and [nnz] the number of elements that are true,
    whatever the bits behind the last one are. *)
Theorem Bitmap_refines size v ops :
  (Z.of_nat size < 2 ^ 32)%Z -> Forall (op_in size) ops ->
  let bs := foldl vector_step (replicate size v) ops in
  exists s0 s, Bitmap.resize (Z.of_nat size) v Bitmap.new = Ok s0 /\ foldM bitmap_step ops s0 = Ok s /\
    (forall i, i < size -> Bitmap.test (Z.of_nat i) s = Ok (bs !!! i)) /\
    Bitmap.nnz s = Ok (Z.of_nat (length (filter (fun i => bs !!! i = true) (seq 0 size)))).
Proof.
  intros Hs Ho bs. destruct (resize_ok size v Hs) as (s0 & E0 & H0). 
  destruct (bitmap_steps_ok ops s0 (replicate size v) H0) as (s & E & Hr).
  { by rewrite length_replicate. }
  fold bs in Hr. assert (length bs = size) as Hl.
  { rewrite <- (length_replicate size v). subst bs. generalize (replicate size v).
    induction ops as [|o ops IH]; intros l; simpl; [done|]. apply Forall_cons in Ho as [_ Ho].
    clear -ops. revert l o. induction ops as [|o' ops IH]; intros l o; simpl; [apply vector_step_length|].
    rewrite IH. apply vector_step_length. }
  exists s0, s. split_and!; [done|done| |].
  - intros i Hi. apply test_ok; [done|]. by rewrite Hl.
  - rewrite (nnz_ok s bs Hr), Hl. done.
Qed.

Lemma Bitmap_refines_witness :
  (Z.of_nat 37 < 2 ^ 32)%Z /\ Forall (op_in 37) [OFill true; OClear 36; OClear 3; OSet 3] /\
  let bs := foldl vector_step (replicate 37 false) [OFill true; OClear 36; OClear 3; OSet 3] in
  exists s0 s, Bitmap.resize (Z.of_nat 37) false Bitmap.new = Ok s0 /\
    foldM bitmap_step [OFill true; OClear 36; OClear 3; OSet 3] s0 = Ok s /\
    (forall i, i < 37 -> Bitmap.test (Z.of_nat i) s = Ok (bs !!! i)) /\
    Bitmap.nnz s = Ok (Z.of_nat (length (filter (fun i => bs !!! i = true) (seq 0 37)))).
Proof.
  assert (Forall (op_in 37) [OFill true; OClear 36; OClear 3; OSet 3]) as Ho by (repeat constructor; simpl; lia).
  split; [lia|]. split; [exact Ho|]. apply (Bitmap_refines 37 false); [lia|exact Ho].
Defined.
