(* ===== verification/Client.v ===== *)
(** * The worker's side of the key-value store

    Models src/ps-lite/src/base/parallel_ordered_match.h and [KVCache] of
    src/ps-lite/src/kv/kv_cache.h: how a push or a pull becomes a message for
    the servers, and how the answers of the servers are put together in the
    buffers of the caller. *)
From S2P Require Import Prelude Stream Message.

(** ** Matching two sorted lists of keys *)

Section Match.
Context {V : Type} (op : V -> V -> V).

(** [AssignOp(dst_val[i], src_val[i], op)] for [i < k], and the pointers moved
    past the [k] values. *)
Definition assign_k (k : nat) (dv sv : list V) : outcome (list V) :=
  if decide (k <= length dv /\ k <= length sv) then Ok (zip_with op (take k dv) (take k sv)) else Fail OutOfRange.

(** The loop of [ParallelOrderedMatch]: gives the destination values and the
    number of values assigned. *)
Fixpoint match_loop (fuel : nat) (src : list Z) (sv : list V) (dst : list Z) (dv : list V) (k : nat) : outcome (list V * nat) :=
  match fuel with
  | 0 => Ok (dv, 0)
  | S fuel =>
      match dst, src with
      | d :: dst', s :: src' =>
          if (s <? d)%Z then match_loop fuel src' (drop k sv) dst dv k
          else if negb (d <? s)%Z then
            new ← assign_k k dv sv;
            '(rest, n) ← match_loop fuel src' (drop k sv) dst' (drop k dv) k;
            Ok (new ++ rest, k + n)
          else
            '(rest, n) ← match_loop fuel src sv dst' (drop k dv) k;
            Ok (take k dv ++ rest, n)
      | _, _ => Ok (dv, 0)
      end
  end.

(** [ParallelOrderedMatch] on pointers.  The thread gets the first half of the
    destination and this call the second one; they write to different memory. *)
Fixpoint match_split (fuel : nat) (src : list Z) (sv : list V) (dst : list Z) (dv : list V) (k grainsize : nat)
    : outcome (list V * nat) :=
  match fuel with
  | 0 => Ok (dv, 0)
  | S fuel =>
      match dst, src with
      | d :: _, _ :: _ =>
          let p := lower_bound src d in
          let src := drop p src in
          let sv := drop (p * k) sv in
          if decide (length dst <= grainsize) then match_loop (length src + length dst) src sv dst dv k
          else
            let h := length dst / 2 in
            '(dv1, n) ← match_split fuel src sv (take h dst) (take (h * k) dv) k grainsize;
            '(dv2, m) ← match_split fuel src sv (drop h dst) (drop (h * k) dv) k grainsize;
            Ok (dv1 ++ dv2, n + m)
      | _, _ => Ok (dv, 0)
      end
  end.

(** [SArray::range()] *)
Definition key_range_of (ks : list Z) : Range :=
  match ks with
  | [] => mkRange 0 0
  | k :: _ => mkRange k (u64 (List.last ks k + 1))
  end.

(** [SArray::FindRange(bound)] *)
Definition FindRange (ks : list Z) (bd : Range) : outcome (nat * nat) :=
  match ks with
  | [] => Ok (0, 0)
  | _ => _ ← check (valid_range bd); Ok (lower_bound ks bd.(begin_), lower_bound ks bd.(end_))
  end.

(** How many destination keys one thread takes. *)
Definition grainsize (len k num_threads : nat) : nat := Nat.max (len * k / num_threads + 5) (1024 * 1024).

(** [ParallelOrderedMatch] on arrays: the new [*dst_val] and the result. *)
Definition ParallelOrderedMatch (zero : V) (src : list Z) (sv : list V) (dst : list Z) (dv : list V) (k num_threads : nat)
    : outcome (list V * nat) :=
  match dst with
  | [] => Ok (dv, 0)
  | _ =>
      _ ← check (bool_decide (0 < num_threads));
      _ ← check (bool_decide (length src * k = length sv));
      dv ← (match dv with
            | [] => Ok (replicate (length dst * k) zero)
            | _ => _ ← check (bool_decide (length dv = length dst * k)); Ok dv
            end);
      '(b, e) ← FindRange dst (key_range_of src);
      '(new, n) ← match_split (length dst) src sv (segment b e dst) (segment (b * k) (e * k) dv) k (grainsize (e - b) k num_threads);
      Ok (take (b * k) dv ++ new ++ drop (e * k) dv, n)
  end.
End Match.
#[global] Arguments grainsize : simpl never.

(** [AsOp::ASSIGN] *)
Definition ASSIGN {V} (right left : V) : V := left.

(** ** The cache *)

Section Cache.
Context {V : Type} (podV : Pod V) (vzero : V) (vtype : DataType).

(** Where the values of a pull go: a buffer of known length, or a vector. *)
Inductive Dest := Raw (buf : list V) | Vec (vec : list V).

(** [struct KVPair] *)
Record KVPair := mkKV {
  kv_key : list Z; kv_val : Dest; kv_val_size : option (list Z);
  kv_recv : list (Z * list V); kv_matched : nat }.

(** [class KVCache] *)
Record KVCache := mkCache { pull_data_ : gmap Z KVPair; chl_ : Z }.

(** [IsKeysOrderd(keys)]: with no keys, [keys.size() - 1] is the largest
    [size_t] and the loop reads past the array. *)
Fixpoint keys_ordered (ks : list Z) : bool :=
  match ks with
  | a :: ks' => match ks' with b :: _ => negb (b <? a)%Z && keys_ordered ks' | [] => true end
  | [] => true
  end.

Definition IsKeysOrderd (ks : list Z) : outcome bool :=
  match ks with [] => Fail OutOfRange | _ => Ok (keys_ordered ks) end.

(** [param().set_dyn_val_size(true)], [param().set_push(b)],
    [set_key_channel(chl)] *)
Definition set_dyn (m : Msg) : Msg :=
  let t := m.(task) in
  mkM (mkTask t.(time) t.(key_range) t.(key_channel) t.(has_key_) t.(key_type) t.(value_type) t.(push) true) m.(key) m.(value) m.(valid).
Definition set_push (b : bool) (m : Msg) : Msg :=
  let t := m.(task) in
  mkM (mkTask t.(time) t.(key_range) t.(key_channel) t.(has_key_) t.(key_type) t.(value_type) b t.(dyn_val_size)) m.(key) m.(value) m.(valid).
Definition set_channel (c : Z) (m : Msg) : Msg :=
  let t := m.(task) in
  mkM (mkTask t.(time) t.(key_range) c t.(has_key_) t.(key_type) t.(value_type) t.(push) t.(dyn_val_size)) m.(key) m.(value) m.(valid).

(** [Push(req, keys, vals, vals_size, cb)]: the message it submits. *)
Definition Push (req : Task) (ks : list Z) (vals : list V) (vals_size : list Z) : outcome Msg :=
  ord ← IsKeysOrderd ks;
  _ ← check ord;
  let msg := set_key UINT64 (pod_memory (H := pod_key) ks) (new_Message req) in
  let msg := add_value vtype (pod_memory (H := podV) vals) msg in
  msg ← (match vals_size with
         | [] => Ok msg
         | _ =>
             _ ← check (bool_decide (length vals_size = length ks));
             Ok (set_dyn (add_value INT32 (pod_memory (H := pod_len) vals_size) msg))
         end);
  Ok (set_push true msg).

(** [Pull_(req, keys, cb, vals, len_vals, vals_vec, vals_size)]: the message it
    submits and the cache with the place for the answers. *)
Definition Pull_ (req : Task) (ks : list Z) (dest : Dest) (vals_size : option (list Z)) (c : KVCache) : outcome (Msg * KVCache) :=
  ord ← IsKeysOrderd ks;
  _ ← check ord;
  let chl := c.(chl_) in
  let old := default (mkKV [] (Raw []) None [] 0) (c.(pull_data_) !! chl) in
  let kv := mkKV ks dest (match vals_size with Some s => Some s | None => old.(kv_val_size) end) old.(kv_recv) old.(kv_matched) in
  let msg := new_Message req in
  let msg := match vals_size with Some _ => set_dyn msg | None => msg end in
  let msg := set_key UINT64 (pod_memory (H := pod_key) ks) msg in
  let msg := set_push false (set_channel chl msg) in
  Ok (msg, mkCache (<[chl := kv]> c.(pull_data_)) (chl + 1)).

(** [Pull(req, keys, cb, vals, len_vals, vals_size)] *)
Definition Pull_raw (req : Task) (ks : list Z) (vals : list V) (vals_size : option (list Z)) (c : KVCache) : outcome (Msg * KVCache) :=
  Pull_ req ks (Raw vals) vals_size c.

(** [Pull(req, keys, cb, vals, vals_size)] *)
Definition Pull_vec (req : Task) (ks : list Z) (vals : list V) (vals_size : option (list Z)) (c : KVCache) : outcome (Msg * KVCache) :=
  let vals_size := match vals_size with Some [] => Some (replicate (length ks) 0%Z) | s => s end in
  Pull_ req ks (Vec vals) vals_size c.

(** [Slice(request, krs, msgs)] *)
Definition Slice (request : Msg) (krs : list Range) (msgs : list Msg) : outcome (list Msg) :=
  SliceMessage request krs msgs request.(task).(dyn_val_size).

(** [memcpy(ptr, l.second.data(), ...)] for the arrays received, in order. *)
Definition copy_all (recv : list (Z * list V)) : list V := concat (map snd recv).

(** The second half of [ProcessResponse] for values of varying length: the
    arrays are put together when all the keys have been matched; [sort] is
    [std::sort] by the first key of an array. *)
Definition assemble (sort : list (Z * list V) -> list (Z * list V)) (kv : KVPair) : outcome KVPair :=
  if decide (kv.(kv_matched) <> length kv.(kv_key)) then Ok kv else
  let recv := sort kv.(kv_recv) in
  let all := copy_all recv in
  dest ← (match kv.(kv_val) with
          | Vec _ => Ok (Vec all)
          | Raw buf => _ ← check (bool_decide (length buf = length all)); Ok (Raw all)
          end);
  Ok (mkKV kv.(kv_key) dest kv.(kv_val_size) [] kv.(kv_matched)).

(** [ProcessResponse] for values of varying length.  [val_size] is taken for an
    array as long as the keys, whatever its real length is. *)
Definition response_dyn (sort : list (Z * list V) -> list (Z * list V)) (msg : Msg) (kv : KVPair) : outcome KVPair :=
  let recv_key := sarray pod_key msg.(key) in
  kv ← (match recv_key with
        | [] => Ok kv
        | k0 :: _ =>
            _ ← check (bool_decide (length msg.(value) = 2));
            v1 ← read_at msg.(value) 1;
            let recv_size := sarray pod_len v1 in
            val_size ← (match kv.(kv_val_size) with Some s => Ok s | None => Fail CheckFailed end);
            let nk := length kv.(kv_key) in
            _ ← (if decide (length val_size < nk) then Fail OutOfRange else Ok tt);
            '(new_size, n) ← ParallelOrderedMatch ASSIGN 0%Z recv_key recv_size kv.(kv_key) (take nk val_size) 1 2;
            _ ← check (bool_decide (n = length recv_size));
            v0 ← read_at msg.(value) 0;
            Ok (mkKV kv.(kv_key) kv.(kv_val) (Some (new_size ++ drop nk val_size)) (kv.(kv_recv) ++ [(k0, sarray podV v0)]) (kv.(kv_matched) + n))
        end);
  assemble sort kv.

(** [ProcessResponse] for values of one length. *)
Definition response_static (msg : Msg) (kv : KVPair) : outcome KVPair :=
  let recv_key := sarray pod_key msg.(key) in
  match recv_key with
  | [] => Ok kv
  | _ =>
      _ ← check (bool_decide (length msg.(value) = 1));
      v0 ← read_at msg.(value) 0;
      let recv_data := sarray podV v0 in
      let k := length recv_data / length recv_key in
      '(dest, n) ← (match kv.(kv_val) with
                    | Vec vec =>
                        let vec := match vec with [] => replicate (length kv.(kv_key) * k) vzero | _ => vec end in
                        '(v, n) ← ParallelOrderedMatch ASSIGN vzero recv_key recv_data kv.(kv_key) vec k 2; Ok (Vec v, n)
                    | Raw buf =>
                        _ ← check (bool_decide (length kv.(kv_key) * k = length buf));
                        '(v, n) ← ParallelOrderedMatch ASSIGN vzero recv_key recv_data kv.(kv_key) buf k 2; Ok (Raw v, n)
                    end);
      _ ← check (bool_decide (n = length recv_data));
      Ok (mkKV kv.(kv_key) dest kv.(kv_val_size) kv.(kv_recv) kv.(kv_matched))
  end.

(** [ProcessResponse(msg)] *)
Definition ProcessResponse (sort : list (Z * list V) -> list (Z * list V)) (msg : Msg) (c : KVCache) : outcome KVCache :=
  if msg.(task).(push) then Ok c else
  let chl := msg.(task).(key_channel) in
  let kv := default (mkKV [] (Raw []) None [] 0) (c.(pull_data_) !! chl) in
  kv ← (if msg.(task).(dyn_val_size) then response_dyn sort msg kv else response_static msg kv);
  Ok (mkCache (<[chl := kv]> c.(pull_data_)) c.(chl_)).

(** The callback of a pull: what the caller finds in its buffers. *)
Definition sum_len (l : list Z) : Z := foldl (fun len s => u64 (len + s)) 0%Z l.

Definition dest_data (d : Dest) : list V := match d with Raw v | Vec v => v end.

Definition pull_callback (chl : Z) (dyn_val : bool) (c : KVCache) : outcome (list V * option (list Z) * KVCache) :=
  let kv := default (mkKV [] (Raw []) None [] 0) (c.(pull_data_) !! chl) in
  _ ← (if dyn_val then
         s ← (match kv.(kv_val_size) with Some s => Ok s | None => Fail CheckFailed end);
         check (Z.of_nat (length (dest_data kv.(kv_val))) =? sum_len (take (length kv.(kv_key)) s))%Z
       else Ok tt);
  Ok (dest_data kv.(kv_val), kv.(kv_val_size), mkCache (delete chl c.(pull_data_)) c.(chl_)).
End Cache.

(** ** Matching is a lookup *)

Section MatchSpec.
Context {V : Type} (op : V -> V -> V).

(** Every destination chunk whose key is in [m] is updated. *)
Definition matched (m : gmap Z (list V)) (dst : list Z) (dvs : list (list V)) : list (list V) :=
  zip_with (fun d c => match m !! d with Some c' => zip_with op c c' | None => c end) dst dvs.

(** The number of keys that are in [m]. *)
Definition hits (m : gmap Z (list V)) (dst : list Z) : nat := length (filter (fun d => is_Some (m !! d)) dst).

Definition kvmap (src : list Z) (svs : list (list V)) : gmap Z (list V) := list_to_map (zip src svs).

Lemma matched_ext m1 m2 dst dvs : (forall d, d ∈ dst -> m1 !! d = m2 !! d) -> matched m1 dst dvs = matched m2 dst dvs.
Proof.
  revert dvs. induction dst as [|d dst IH]; intros [|c dvs] He; try done. unfold matched in *. simpl.
  rewrite (He d) by left. f_equal. apply IH. intros. apply He. by right.
Qed.

Lemma hits_ext m1 m2 dst : (forall d, d ∈ dst -> m1 !! d = m2 !! d) -> hits m1 dst = hits m2 dst.
Proof.
  unfold hits. induction dst as [|d dst IH]; intros He; [done|]. rewrite !filter_cons.
  rewrite (He d) by left. assert (length (filter (fun d => is_Some (m1 !! d)) dst) = length (filter (fun d => is_Some (m2 !! d)) dst)) as E.
  { apply IH. intros. apply He. by right. }
  case_decide; simpl; by rewrite E.
Qed.

Lemma kvmap_below src svs d : Forall (fun s => d < s)%Z src -> kvmap src svs !! d = None.
Proof.
  intros Hf. apply not_elem_of_list_to_map_1. intros Hin. apply list_elem_of_fmap in Hin as ([s c] & -> & Hin).
  apply elem_of_zip_l in Hin. rewrite Forall_forall in Hf. apply Hf in Hin. simpl in Hin. lia.
Qed.

Lemma kvmap_cons s src c svs d : kvmap (s :: src) (c :: svs) !! d = if decide (s = d) then Some c else kvmap src svs !! d.
Proof. unfold kvmap. simpl. case_decide; simplify_map_eq; done. Qed.

Lemma kvmap_drop src svs p d :
  length svs = length src -> StronglySorted Z.lt src -> Forall (fun s => s < d)%Z (take p src) ->
  kvmap (drop p src) (drop p svs) !! d = kvmap src svs !! d.
Proof.
  revert src svs. induction p as [|p IH]; intros [|s src] [|c svs] Hl Hs Hf; try done.
  simpl in *. apply Forall_cons in Hf as [Hd Hf]. inversion Hs; subst.
  rewrite IH by (done || lia). rewrite kvmap_cons, decide_False by lia. done.
Qed.

Definition chunks (k : nat) (vs : list (list V)) : Prop := Forall (fun c => length c = k) vs.

Lemma chunks_take k vs h : chunks k vs -> take (h * k) (concat vs) = concat (take h vs).
Proof.
  intros Hc. revert h. induction Hc as [|c vs Hk Hc IH]; intros [|h]; simpl; try done.
  { by rewrite take_nil. }
  rewrite take_app, Hk, take_ge by lia. f_equal. rewrite <- IH. f_equal. lia.
Qed.

Lemma chunks_drop k vs h : chunks k vs -> drop (h * k) (concat vs) = concat (drop h vs).
Proof.
  intros Hc. revert h. induction Hc as [|c vs Hk Hc IH]; intros [|h]; simpl; try done.
  { by rewrite drop_nil. }
  rewrite drop_app, Hk, drop_ge by lia. simpl. rewrite <- IH. f_equal. lia.
Qed.

Lemma chunks_length k vs : chunks k vs -> length (concat vs) = length vs * k.
Proof. induction 1 as [|c vs Hk Hc IH]; simpl; [done|]. rewrite length_app, IH. lia. Qed.

Lemma matched_none m dst dvs :
  length dvs = length dst -> (forall d, d ∈ dst -> m !! d = None) -> matched m dst dvs = dvs /\ hits m dst = 0.
Proof.
  revert dvs. unfold matched, hits. induction dst as [|d dst IH]; intros [|c dvs] Hl Hn; simplify_eq/=; [done|].
  destruct (IH dvs) as [E1 E2]; [done|intros; apply Hn; by right|]. rewrite E1.
  rewrite filter_cons. rewrite (Hn d) by left. rewrite decide_False by (intros [? ?]; done). by rewrite E2.
Qed.

Lemma matched_cons m d dst c dvs :
  matched m (d :: dst) (c :: dvs) = (match m !! d with Some c' => zip_with op c c' | None => c end) :: matched m dst dvs.
Proof. done. Qed.

Lemma hits_cons m d dst : hits m (d :: dst) = (if m !! d then 1 else 0) + hits m dst.
Proof. unfold hits. rewrite filter_cons. by destruct (m !! d). Qed.

Lemma sorted_above s src d : StronglySorted Z.lt (s :: src) -> d ∈ src -> (s < d)%Z.
Proof. intros Hs Hd. inversion Hs as [|? ? _ Hf]; subst. rewrite Forall_forall in Hf. by apply Hf. Qed.

Lemma match_loop_ok fuel src svs dst dvs k :
  length src + length dst <= fuel -> StronglySorted Z.lt src -> StronglySorted Z.lt dst ->
  length svs = length src -> length dvs = length dst -> chunks k svs -> chunks k dvs ->
  match_loop op fuel src (concat svs) dst (concat dvs) k
  = Ok (concat (matched (kvmap src svs) dst dvs), k * hits (kvmap src svs) dst).
Proof.
  revert src svs dst dvs. induction fuel as [|fuel IH]; intros src svs dst dvs Hf Hs Hd Hls Hld Hcs Hcd; simpl.
  { destruct dst; [|simpl in Hf; lia]. destruct dvs; [|done]. unfold hits. simpl. by rewrite Nat.mul_0_r. }
  destruct dst as [|d dst]; destruct dvs as [|c dvs]; try done.
  { unfold hits. simpl. by rewrite Nat.mul_0_r. }
  destruct src as [|s src]; destruct svs as [|cs svs]; try done.
  { destruct (matched_none (kvmap [] []) (d :: dst) (c :: dvs) Hld) as [-> ->]; [done|]. by rewrite Nat.mul_0_r. }
  apply Forall_cons in Hcs as [Hk1 Hcs]. apply Forall_cons in Hcd as [Hk2 Hcd].
  pose proof (StronglySorted_inv Hs) as [Hs' Hsf]. pose proof (StronglySorted_inv Hd) as [Hd' Hdf].
  simpl in Hls, Hld, Hf. change (concat (cs :: svs)) with (cs ++ concat svs). change (concat (c :: dvs)) with (c ++ concat dvs).
  rewrite !drop_app_length' by done.
  destruct (Z.ltb_spec s d) as [Hlt|Hge].
  - change (c ++ concat dvs) with (concat (c :: dvs)).
    assert (forall x, x ∈ d :: dst -> kvmap src svs !! x = kvmap (s :: src) (cs :: svs) !! x) as He.
    { intros x Hx. rewrite kvmap_cons, decide_False; [done|]. apply elem_of_cons in Hx as [->|Hx]; [lia|].
      pose proof (sorted_above _ _ _ Hd Hx). lia. }
    rewrite <- (matched_ext _ _ _ _ He), <- (hits_ext _ _ _ He).
    apply IH; try done; simpl; try lia. by constructor.
  - destruct (Z.ltb_spec d s) as [Hlt|Hle]; cbn [negb].
    + change (cs ++ concat svs) with (concat (cs :: svs)).
      rewrite IH; [|simpl; lia|done|done|simpl; lia|lia|by constructor|done]. cbn [mbind outcome_bind].
      rewrite take_app_length' by done.
      assert (kvmap (s :: src) (cs :: svs) !! d = None) as E.
      { apply kvmap_below. constructor; [done|]. eapply Forall_impl; [exact Hsf|]. simpl. lia. }
      by rewrite matched_cons, hits_cons, E.
    + assert (s = d) as -> by lia. unfold assign_k.
      rewrite decide_True by (rewrite !length_app; lia). cbn [mbind outcome_bind]. rewrite !take_app_length' by done.
      rewrite IH by (done || lia). cbn [mbind outcome_bind].
      assert (forall x, x ∈ dst -> kvmap src svs !! x = kvmap (d :: src) (cs :: svs) !! x) as He.
      { intros x Hx. rewrite kvmap_cons, decide_False; [done|]. pose proof (sorted_above _ _ _ Hd Hx). lia. }
      rewrite (matched_ext _ _ _ _ He), (hits_ext _ _ _ He), matched_cons, hits_cons, kvmap_cons, decide_True by done.
      simpl. do 2 f_equal. lia.
Qed.

Lemma matched_app m d1 d2 v1 v2 : length v1 = length d1 -> matched m (d1 ++ d2) (v1 ++ v2) = matched m d1 v1 ++ matched m d2 v2.
Proof. intros. unfold matched. by rewrite zip_with_app. Qed.

Lemma hits_app m d1 d2 : hits m (d1 ++ d2) = hits m d1 + hits m d2.
Proof. unfold hits. by rewrite filter_app, length_app. Qed.

Lemma matched_chunks m k dst dvs :
  map_Forall (fun _ c => length c = k) m -> chunks k dvs -> length dvs = length dst ->
  chunks k (matched m dst dvs) /\ length (matched m dst dvs) = length dst.
Proof.
  intros Hm. revert dvs. induction dst as [|d dst IH]; intros [|c dvs] Hc Hl; simplify_eq/=; [by split|].
  apply Forall_cons in Hc as [Hk Hc]. destruct (IH dvs Hc) as [H1 H2]; [done|]. split; [|simpl; by f_equal].
  constructor; [|done]. destruct (m !! d) as [c'|] eqn:E; [|done]. rewrite length_zip_with, (Hm _ _ E), Hk. lia.
Qed.

Lemma match_split_ok fuel src svs dst dvs k g :
  length dst <= fuel -> 1 <= g -> StronglySorted Z.lt src -> StronglySorted Z.lt dst ->
  length svs = length src -> length dvs = length dst -> chunks k svs -> chunks k dvs ->
  match_split op fuel src (concat svs) dst (concat dvs) k g
  = Ok (concat (matched (kvmap src svs) dst dvs), k * hits (kvmap src svs) dst).
Proof.
  intros Hf Hg. revert src svs dst dvs Hf.
  induction fuel as [|fuel IH]; intros src svs dst dvs Hf Hs Hd Hls Hld Hcs Hcd; cbn [match_split].
  { destruct dst; [|simpl in Hf; lia]. destruct dvs; [|done]. unfold hits. simpl. by rewrite Nat.mul_0_r. }
  destruct dst as [|d dst'] eqn:Ed.
  { destruct dvs; [|done]. unfold hits. simpl. by rewrite Nat.mul_0_r. }
  destruct src as [|s src'] eqn:Es.
  { destruct svs; [|done]. destruct (matched_none (kvmap [] []) (d :: dst') dvs Hld) as [-> ->]; [done|]. by rewrite Nat.mul_0_r. }
  rewrite <- Es in *. rewrite <- Ed in *. cbv zeta. set (p := lower_bound src d).
  assert (forall x, x ∈ d :: dst' -> kvmap (drop p src) (drop p svs) !! x = kvmap src svs !! x) as He.
  { intros x Hx. apply kvmap_drop; [done|done|]. eapply Forall_impl; [apply lower_bound_take|]. simpl. intros y Hy.
    rewrite Ed in Hd. apply elem_of_cons in Hx as [->|Hx]; [done|]. pose proof (sorted_above _ _ _ Hd Hx). lia. }
  rewrite <- Ed in He. rewrite <- (matched_ext _ _ _ _ He), <- (hits_ext _ _ _ He).
  rewrite (chunks_drop k svs p) by done.
  assert (StronglySorted Z.lt (drop p src)) as Hs' by by apply StronglySorted_drop.
  assert (length (drop p svs) = length (drop p src)) as Hls' by (rewrite !length_drop; lia).
  assert (chunks k (drop p svs)) as Hcs' by by apply Forall_drop.
  case_decide as Hlen.
  { by apply match_loop_ok. }
  assert (2 <= length dst) by lia. set (h := length dst / 2).
  assert (1 <= h < length dst) as Hh.
  { unfold h. split; [by apply Nat.div_le_lower_bound|]. apply Nat.div_lt; lia. }
  rewrite (chunks_take k dvs h), (chunks_drop k dvs h) by done.
  rewrite IH by first [done | by apply StronglySorted_drop | by apply Forall_drop | rewrite !length_drop; lia].
  rewrite IH by first [done | by apply StronglySorted_take | by apply Forall_take | rewrite !length_take; lia].
  cbn [mbind outcome_bind].
  rewrite <- concat_app, <- matched_app by (rewrite !length_take; lia).
  by rewrite <- Nat.mul_add_distr_l, <- hits_app, !take_drop.
Qed.

Lemma last_max l dflt : StronglySorted Z.lt l -> Forall (fun x => x <= List.last l dflt)%Z l.
Proof.
  induction 1 as [|a l Hl IH Ha]; [constructor|].
  destruct l as [|b l]; [by repeat constructor|]. change (List.last (a :: b :: l) dflt) with (List.last (b :: l) dflt).
  constructor; [|exact IH]. apply Forall_cons in IH as [IH _]. apply Forall_cons in Ha as [Ha _]. lia.
Qed.

Lemma last_in (l : list Z) dflt : l <> [] -> List.last l dflt ∈ l.
Proof.
  induction l as [|a l IH]; [done|]. intros _. destruct l as [|b l]; [left|].
  change (List.last (a :: b :: l) dflt) with (List.last (b :: l) dflt). right. by apply IH.
Qed.

Lemma key_range_bounds src : Forall (fun s => 0 <= s < 2 ^ 64 - 1)%Z src -> StronglySorted Z.lt src -> src <> [] ->
  valid_range (key_range_of src) = true /\ Forall (fun s => begin_ (key_range_of src) <= s < end_ (key_range_of src))%Z src.
Proof.
  intros Hb Hs Hne. destruct src as [|s src]; [done|]. unfold key_range_of.
  pose proof (last_max (s :: src) s Hs) as Hlast. pose proof (last_in (s :: src) s Hne) as Hin.
  set (L := List.last (s :: src) s) in *. clearbody L.
  pose proof (proj1 (Forall_forall _ _) Hb _ Hin) as Hr. cbn [begin_ end_ valid_range].
  cbv beta in Hr. rewrite u64_small by lia. split.
  { unfold valid_range. simpl. apply Forall_cons in Hlast as [? _]. lia. }
  apply Forall_forall. intros x Hx. simpl. pose proof (proj1 (Forall_forall _ _) Hlast _ Hx). simpl in *.
  apply elem_of_cons in Hx as [->|Hx]; [lia|]. pose proof (sorted_above _ _ _ Hs Hx). lia.
Qed.

Lemma kvmap_out src svs d : d ∉ src -> kvmap src svs !! d = None.
Proof.
  intros Hd. apply not_elem_of_list_to_map_1. intros Hin. apply list_elem_of_fmap in Hin as ([s c] & -> & Hin).
  by apply elem_of_zip_l in Hin.
Qed.

Lemma grainsize_pos len k nt : 1 <= grainsize len k nt.
Proof. unfold grainsize. generalize (1024 * 1024), (len * k / nt). lia. Qed.

(** The segment of the destination that [FindRange] selects holds all the keys
    of the source. *)
Lemma ordered_match_ok zero src svs dst dvs k nt :
  0 < nt -> StronglySorted Z.lt src -> StronglySorted Z.lt dst ->
  Forall (fun s => 0 <= s < 2 ^ 64 - 1)%Z src -> Forall (fun d => 0 <= d)%Z dst ->
  length svs = length src -> length dvs = length dst -> chunks k svs -> chunks k dvs ->
  ParallelOrderedMatch op zero src (concat svs) dst (concat dvs) k nt
  = Ok (concat (matched (kvmap src svs) dst dvs), k * hits (kvmap src svs) dst).
Proof.
  intros Hnt Hs Hd Hb Hd0 Hls Hld Hcs Hcd. destruct (decide (dst = [])) as [->|Hdne].
  { destruct dvs; [|done]. unfold hits. simpl. by rewrite Nat.mul_0_r. }
  unfold ParallelOrderedMatch. rewrite nonempty_match by done.
  rewrite (check_true (bool_decide (0 < nt))) by (by apply bool_decide_eq_true). cbn [mbind outcome_bind].
  rewrite (check_true (bool_decide (length src * k = length (concat svs))))
    by (apply bool_decide_eq_true; rewrite (chunks_length k) by done; lia). cbn [mbind outcome_bind].
  assert ((match concat dvs with
           | [] => Ok (replicate (length dst * k) zero)
           | _ => _ ← check (bool_decide (length (concat dvs) = length dst * k)); Ok (concat dvs)
           end) = Ok (concat dvs)) as ->.
  { pose proof (chunks_length k dvs Hcd) as El. rewrite Hld in El. destruct (concat dvs) as [|v l] eqn:Ec.
    - simpl in El. by rewrite <- El.
    - by rewrite check_true by (by apply bool_decide_eq_true). }
  cbn [mbind outcome_bind].
  destruct (decide (src = [])) as [->|Hsne].
  { destruct svs; [|done]. unfold FindRange. rewrite nonempty_match by done. cbn.
    assert (lower_bound dst 0 = 0) as -> by (by apply lower_bound_none).
    unfold segment. simpl. destruct (matched_none ∅ dst dvs Hld) as [-> ->]; [done|].
    rewrite Nat.mul_0_r. destruct (length dst); done. }
  destruct (key_range_bounds src Hb Hs Hsne) as [Hv Hin]. set (kr := key_range_of src) in *.
  unfold FindRange. rewrite nonempty_match by done. rewrite Hv. cbn [check mbind outcome_bind].
  set (b := lower_bound dst kr.(begin_)). set (e := lower_bound dst kr.(end_)).
  assert (b <= e) as Hbe by (apply lower_bound_mono; unfold valid_range in Hv; lia).
  assert (e <= length dst) as He by apply lower_bound_le.
  pose proof (grainsize_pos (e - b) k nt) as Hg. set (g := grainsize (e - b) k nt) in *. clearbody g.
  assert (forall h, segment (b * k) (h * k) (concat dvs) = concat (segment b h dvs)) as Hseg.
  { intros h. unfold segment. rewrite <- Nat.mul_sub_distr_r, (chunks_drop k) by done. by rewrite (chunks_take k) by by apply Forall_drop. }
  rewrite Hseg. rewrite match_split_ok; try done.
  2:{ rewrite segment_length by done. lia. }
  2:{ unfold segment. by apply StronglySorted_take, StronglySorted_drop. }
  2:{ rewrite !segment_length by (try rewrite Hld; done). done. }
  2:{ unfold segment. by apply Forall_take, Forall_drop. }
  cbn [mbind outcome_bind]. rewrite (chunks_take k), (chunks_drop k) by done. rewrite <- !concat_app.
  assert (dst = take b dst ++ segment b e dst ++ drop e dst) as Edst.
  { unfold segment. rewrite <- (take_drop b dst) at 1. f_equal. rewrite <- (take_drop (e - b) (drop b dst)) at 1.
    f_equal. rewrite drop_drop. f_equal. lia. }
  assert (dvs = take b dvs ++ segment b e dvs ++ drop e dvs) as Edvs.
  { unfold segment. rewrite <- (take_drop b dvs) at 1. f_equal. rewrite <- (take_drop (e - b) (drop b dvs)) at 1.
    f_equal. rewrite drop_drop. f_equal. lia. }
  assert (forall d, d ∈ take b dst -> kvmap src svs !! d = None) as H1.
  { intros d Hdin. apply kvmap_out. intros Hsin. rewrite Forall_forall in Hin. specialize (Hin _ Hsin).
    pose proof (proj1 (Forall_forall _ _) (lower_bound_take dst kr.(begin_)) _ Hdin). simpl in *. lia. }
  assert (forall d, d ∈ drop e dst -> kvmap src svs !! d = None) as H2.
  { intros d Hdin. apply kvmap_out. intros Hsin. rewrite Forall_forall in Hin. specialize (Hin _ Hsin).
    pose proof (StronglySorted_lt_le _ Hd) as Hd'.
    pose proof (proj1 (Forall_forall _ _) (lower_bound_drop dst kr.(end_) Hd') _ Hdin). simpl in *. lia. }
  destruct (matched_none (kvmap src svs) (take b dst) (take b dvs)) as [M1 N1]; [by rewrite !length_take, Hld|done|].
  destruct (matched_none (kvmap src svs) (drop e dst) (drop e dvs)) as [M2 N2]; [by rewrite !length_drop, Hld|done|].
  f_equal. f_equal.
  - pose proof (matched_app (kvmap src svs) (take b dst) (segment b e dst ++ drop e dst) (take b dvs) (segment b e dvs ++ drop e dvs)) as E.
    rewrite <- Edst, <- Edvs in E. rewrite E, M1 by by rewrite !length_take, Hld.
    rewrite matched_app, M2 by by rewrite !segment_length by (try rewrite Hld; done). done.
  - pose proof (hits_app (kvmap src svs) (take b dst) (segment b e dst ++ drop e dst)) as E.
    rewrite <- Edst in E. by rewrite E, hits_app, N1, N2, Nat.add_0_r.
Qed.

End MatchSpec.

(** ** A pull returns what the servers hold *)

Section Pulls.
Context {V : Type} (podV : Pod V) `{HP : !@PodLaws V podV} (vzero : V) (vtype : DataType).
Hypothesis Hsize : 0 < pod_size (Pod := podV).
Context (sort : list (Z * list V) -> list (Z * list V)).
Context (ks : list Z) (krs : list Range) (b e : Z) (f : Z -> list V).
Hypothesis Hsorted : StronglySorted Z.lt ks.
Hypothesis Hne : ks <> [].
Hypothesis Hchain : chain b krs e.
Hypothesis Hbe : (0 <= b /\ e <= 2 ^ 64 - 1)%Z.
Hypothesis Hcover : Forall (fun k => b <= k < e)%Z ks.
Hypothesis Hvalid : forall key, Forall (pod_valid (Pod := podV)) (f key).

(** The keys of a piece. *)
Definition selk (kr : Range) : list Z := filter (fun k => contains kr k = true) ks.

Lemma sel_selk kr : sel kr ks ks = selk kr.
Proof.
  unfold sel, selk. clear. induction ks as [|k l IH]; [done|]. cbn [zip zip_with]. rewrite !filter_cons.
  cbn [fst]. case_decide; cbn [map snd]; by rewrite IH.
Qed.

Lemma selk_tile : concat (map selk krs) = ks.
Proof.
  etransitivity; [|exact (sel_tile ks krs b e (StronglySorted_lt_le _ Hsorted) Hchain Hcover ks eq_refl)].
  f_equal. apply map_ext. intros. by rewrite sel_selk.
Qed.

Lemma selk_sorted kr : StronglySorted Z.lt (selk kr).
Proof. by apply StronglySorted_filter. Qed.

Lemma selk_elem kr key : key ∈ selk kr <-> contains kr key = true /\ key ∈ ks.
Proof. unfold selk. by rewrite list_elem_of_filter. Qed.

Lemma ks_bounds : Forall (fun k => 0 <= k < 2 ^ 64 - 1)%Z ks.
Proof. eapply Forall_impl; [exact Hcover|]. simpl. lia. Qed.

Lemma selk_bounds kr : Forall (fun k => 0 <= k < 2 ^ 64 - 1)%Z (selk kr).
Proof.
  apply Forall_forall. intros k Hk%selk_elem. pose proof (proj1 (Forall_forall _ _) ks_bounds k (proj2 Hk)). done.
Qed.

Lemma sarray_selk kr : sarray pod_key (pod_memory (H := pod_key) (selk kr)) = selk kr.
Proof.
  apply sarray_memory; [apply _|simpl; lia|]. eapply Forall_impl; [apply selk_bounds|]. simpl. lia.
Qed.

Lemma sarray_vals (l : list Z) : sarray podV (pod_memory (H := podV) (concat (map f l))) = concat (map f l).
Proof.
  apply sarray_memory; [apply _|done|]. induction l as [|k l IH]; simpl; [constructor|]. apply Forall_app. done.
Qed.

Lemma kvmap_fun {W} (g : Z -> list W) (l : list Z) key :
  kvmap l (map g l) !! key = if decide (key ∈ l) then Some (g key) else None.
Proof.
  induction l as [|k l IH]; [done|]. cbn [map]. rewrite kvmap_cons, IH.
  destruct (decide (k = key)) as [->|Hn]; [rewrite decide_True by left; done|].
  destruct (decide (key ∈ l)); [rewrite decide_True by (by right); done|].
  rewrite decide_False; [done|]. intros [?|?]%elem_of_cons; [by subst|done].
Qed.

(** The number of keys of a piece that are found: all of them. *)
Lemma hits_selk {W} (g : Z -> list W) kr : hits (kvmap (selk kr) (map g (selk kr))) ks = length (selk kr).
Proof.
  unfold hits. f_equal. unfold selk at 3. apply filter_ext_in. intros key Hkey. rewrite kvmap_fun.
  case_decide as Hd; rewrite selk_elem in Hd.
  - split; [tauto|by eexists].
  - split; [by intros [? ?]|]. tauto.
Qed.

(** The chunks [cs] have the values [g] of the keys that the ranges [done]
    contain. *)
Definition filled {W} (g : Z -> list W) (done : list Range) (cs : list (list W)) : Prop :=
  length cs = length ks /\
  forall j key, ks !! j = Some key -> (exists kr, kr ∈ done /\ contains kr key = true) -> cs !! j = Some (g key).

Lemma zip_ASSIGN {W} (c c' : list W) : length c = length c' -> zip_with ASSIGN c c' = c'.
Proof. revert c'. induction c as [|x c IH]; intros [|y c'] E; simplify_eq/=; [done|]. by rewrite IH. Qed.

Lemma filled_step {W} (g : Z -> list W) done cs kr k :
  (forall key, length (g key) = k) -> chunks k cs -> filled g done cs ->
  let cs' := matched ASSIGN (kvmap (selk kr) (map g (selk kr))) ks cs in
  filled g (done ++ [kr]) cs' /\ chunks k cs'.
Proof.
  intros Hg Hc [Hl Hf] cs'.
  assert (map_Forall (fun _ c => length c = k) (kvmap (selk kr) (map g (selk kr)))) as Hm.
  { intros key c. rewrite kvmap_fun. case_decide; [|done]. intros [= <-]. apply Hg. }
  destruct (matched_chunks ASSIGN _ k ks cs Hm Hc Hl) as [Hc' Hl']. fold cs' in Hc', Hl'.
  split; [|done]. split; [done|]. intros j key Hj Hin. unfold cs', matched.
  rewrite lookup_zip_with, Hj. cbn.
  destruct (lookup_lt_is_Some_2 cs j) as [c Ec]; [rewrite Hl; by eapply lookup_lt_Some|]. rewrite Ec. cbn.
  rewrite kvmap_fun. case_decide as Hd.
  - rewrite zip_ASSIGN; [done|]. rewrite Hg. exact (proj1 (Forall_lookup _ _) Hc j c Ec).
  - destruct Hin as (kr' & Hin & Hk). apply elem_of_app in Hin as [Hin|Hin].
    + rewrite <- Ec. apply (Hf j key Hj). by exists kr'.
    + apply list_elem_of_singleton in Hin as ->. exfalso. apply Hd, selk_elem. split; [done|]. by eapply list_elem_of_lookup_2.
Qed.

(** The ranges of the servers that get a piece. *)
Definition sent : list Range := filter (fun kr => selk kr <> []) krs.

Lemma concat_sent : concat (map selk sent) = ks.
Proof.
  etransitivity; [|exact selk_tile]. unfold sent. clear -krs. induction krs as [|kr l IH]; [done|]. rewrite filter_cons.
  case_decide as Hd; cbn [map concat]; [by rewrite IH|]. by rewrite Hd.
Qed.

Lemma sent_covers key : key ∈ ks -> exists kr, kr ∈ sent /\ contains kr key = true.
Proof.
  intros Hk. rewrite <- concat_sent in Hk. apply list_elem_of_In, in_concat in Hk as (l & Hl & Hin).
  apply in_map_iff in Hl as (kr & <- & Hkr). exists kr. split; [by apply list_elem_of_In|].
  apply list_elem_of_In, selk_elem in Hin. tauto.
Qed.

Lemma filled_all {W} (g : Z -> list W) done cs : done ≡ₚ sent -> filled g done cs -> cs = map g ks.
Proof.
  intros Hp [Hl Hf]. apply list_eq. intros j. rewrite list_lookup_fmap. destruct (ks !! j) as [key|] eqn:Ej; cbn.
  - apply Hf; [done|]. destruct (sent_covers key) as (kr & Hin & Hc); [by eapply list_elem_of_lookup_2|].
    exists kr. split; [by rewrite Hp|done].
  - apply lookup_ge_None in Ej. apply lookup_ge_None. by rewrite Hl.
Qed.

(** What a server that holds [f] answers to the piece [p] of a pull. *)
Definition reply (p : Msg) : Msg :=
  let sk := sarray pod_key p.(key) in
  let m := add_value vtype (pod_memory (H := podV) (concat (map f sk))) p in
  if p.(task).(dyn_val_size)
  then add_value INT32 (pod_memory (H := pod_len) (map (fun key => Z.of_nat (length (f key))) sk)) m
  else m.

Definition request (tk : Task) (kr : Range) : Msg := mkM tk (pod_memory (H := pod_key) (selk kr)) [] true.

Lemma chunk_buffer {W} (n k : nat) (buf : list W) :
  length buf = n * k -> exists cs, concat cs = buf /\ length cs = n /\ chunks k cs.
Proof.
  revert buf. induction n as [|n IH]; intros buf Hl.
  { exists []. destruct buf; [|done]. repeat split. constructor. }
  destruct (IH (drop k buf)) as (cs & E & Hn & Hc); [rewrite length_drop; lia|].
  exists (take k buf :: cs). cbn. rewrite E, take_drop, Hn. split; [done|]. split; [done|].
  constructor; [rewrite length_take; lia|done].
Qed.

Lemma filled_nil {W} (g : Z -> list W) cs : length cs = length ks -> filled g [] cs.
Proof. intros Hl. split; [done|]. intros j key _ (kr & Hin & _). by apply not_elem_of_nil in Hin. Qed.

(** ** Values of one length *)

(** The destination holds [cs], or is a vector that is still empty. *)
Definition dest_is (k : nat) (done : list Range) (d : Dest (V := V)) : Prop :=
  (exists cs, dest_data d = concat cs /\ chunks k cs /\ filled f done cs) \/ (d = Vec [] /\ done = []).

Lemma response_static_ok k done tk kr kv :
  0 < k -> (forall key, length (f key) = k) -> selk kr <> [] -> tk.(dyn_val_size) = false ->
  kv.(kv_key) = ks -> dest_is k done kv.(kv_val) ->
  exists kv', response_static podV vzero (reply (request tk kr)) kv = Ok kv' /\
    kv'.(kv_key) = ks /\ kv'.(kv_val_size) = kv.(kv_val_size) /\ dest_is k (done ++ [kr]) kv'.(kv_val).
Proof.
  intros Hk Hf Hsk Hdyn Hkey Hdest. unfold response_static, reply, request. cbn [task key value]. rewrite Hdyn.
  cbn [add_value key value]. rewrite sarray_selk. rewrite nonempty_match by done.
  assert (chunks k (map f (selk kr))) as Hcf by (apply Forall_map, Forall_forall; intros; apply Hf).
  cbn [app length read_at lookup list_lookup]. rewrite bool_decide_true by done. cbn [check mbind outcome_bind].
  rewrite sarray_vals. rewrite (chunks_length k) by done. rewrite length_map.
  assert (0 < length (selk kr)) by (destruct (selk kr); [done|simpl; lia]).
  rewrite (Nat.mul_comm (length (selk kr))), Nat.div_mul by lia. rewrite Hkey.
  assert (exists buf cs, buf = concat cs /\ chunks k cs /\ filled f done cs /\
     (kv_val kv = Raw buf \/ exists v, kv_val kv = Vec v /\ match v with [] => replicate (length ks * k) vzero | _ => v end = buf))
    as (buf & cs & Hbuf & Hc & Hfill & Hkv).
  { destruct Hdest as [(cs & E & Hc & Hfl)|[E ->]].
    - exists (concat cs), cs. split; [done|]. split; [done|]. split; [done|].
      destruct (kv_val kv) as [v|v]; cbn in E; subst v; [by left|right].
      eexists. split; [done|]. destruct (concat cs) eqn:Ec; [|done].
      pose proof (chunks_length k cs Hc) as Hlen. rewrite Ec in Hlen. destruct Hfl as [Hl _].
      cbn in Hlen. destruct ks; [done|]. cbn in Hl. nia.
    - destruct (chunk_buffer (length ks) k (replicate (length ks * k) vzero)) as (cs & E1 & E2 & E3); [apply length_replicate|].
      exists (replicate (length ks * k) vzero), cs. split; [done|]. split; [done|]. split; [by apply filled_nil|].
      right. by exists []. }
  pose proof (proj1 Hfill) as Hlcs. destruct (filled_step f done cs kr k Hf Hc Hfill) as [Hfill' Hc'].
  assert (ParallelOrderedMatch ASSIGN vzero (selk kr) (concat (map f (selk kr))) ks buf k 2
          = Ok (concat (matched ASSIGN (kvmap (selk kr) (map f (selk kr))) ks cs), k * length (selk kr))) as Hmatch.
  { subst buf. rewrite ordered_match_ok; try done; try lia.
    - by rewrite hits_selk.
    - apply selk_sorted.
    - apply selk_bounds.
    - eapply Forall_impl; [exact ks_bounds|]. simpl. lia.
    - by rewrite length_map. }
  assert (exists dest', (match kv_val kv with
       | Raw buf0 => _ ← check (bool_decide (length ks * k = length buf0));
                     '(v, n) ← ParallelOrderedMatch ASSIGN vzero (selk kr) (concat (map f (selk kr))) ks buf0 k 2; Ok (Raw v, n)
       | Vec vec => '(v, n) ← ParallelOrderedMatch ASSIGN vzero (selk kr) (concat (map f (selk kr))) ks
                       (match vec with [] => replicate (length ks * k) vzero | _ => vec end) k 2; Ok (Vec v, n)
       end) = Ok (dest', k * length (selk kr)) /\
       dest_data dest' = concat (matched ASSIGN (kvmap (selk kr) (map f (selk kr))) ks cs)) as (dest' & Hm & Hd').
  { destruct Hkv as [->|(v & -> & ->)].
    - rewrite bool_decide_true by (subst buf; rewrite (chunks_length k) by done; lia). cbn [check mbind outcome_bind].
      rewrite Hmatch. by eexists.
    - rewrite Hmatch. by eexists. }
  rewrite Hm. cbn [mbind outcome_bind]. rewrite bool_decide_true by done. cbn [check mbind outcome_bind].
  eexists. split; [done|]. cbn. split; [done|]. split; [done|]. left. eexists. split; [exact Hd'|]. done.
Qed.

(** ** The message of a pull and its pieces *)

Definition pull_task (req : Task) (chl : Z) (dyn : bool) : Task :=
  mkTask req.(time) (Some (default All req.(key_range))) chl true (Some UINT64) req.(value_type) false dyn.

Lemma ordered_ks : IsKeysOrderd ks = Ok true.
Proof.
  unfold IsKeysOrderd. rewrite nonempty_match by done. f_equal. clear -Hsorted.
  induction Hsorted as [|a l Hl IH Ha]; [done|]. destruct l as [|c l]; [done|].
  change (keys_ordered (a :: c :: l)) with (negb (c <? a)%Z && keys_ordered (c :: l)). rewrite IH by done. apply Forall_cons in Ha as [Ha _].
  destruct (Z.ltb_spec c a); [lia|done].
Qed.

Lemma pull_message req dest vals_size (c : KVCache (V := V)) :
  c.(pull_data_) !! c.(chl_) = None -> (vals_size = None -> req.(dyn_val_size) = false) ->
  Pull_ req ks dest vals_size c =
  Ok (mkM (pull_task req c.(chl_) (if vals_size then true else false)) (pod_memory (H := pod_key) ks) [] true,
      mkCache (<[c.(chl_) := mkKV ks dest vals_size [] 0]> c.(pull_data_)) (c.(chl_) + 1)).
Proof.
  intros Hc Hd. unfold Pull_. rewrite ordered_ks. cbn [check mbind outcome_bind]. rewrite Hc. cbn [default].
  destruct vals_size; [done|]. specialize (Hd eq_refl). destruct req. cbn in *. by subst.
Qed.

Lemma filter_pieces tk vs :
  tk.(key_range) = Some All -> tk.(has_key_) = true -> tk.(key_type) = Some UINT64 ->
  filter (fun p => valid p = true) (map (spec_piece tk ks vs) krs)
  = map (fun kr => mkM tk (pod_memory (H := pod_key) (selk kr)) (vs kr) true) sent.
Proof.
  intros H1 H2 H3. unfold sent.
  assert (forall kr, spec_piece tk ks vs kr = match selk kr with [] => mkM tk [] [] false | sk => mkM tk (pod_memory (H := pod_key) sk) (vs kr) true end) as Hsp.
  { intros kr. unfold spec_piece. rewrite (sel_selk kr). destruct (selk kr); [done|]. f_equal. destruct tk; cbn in *; by subst. }
  clear -Hsp. induction krs as [|kr l IH]; [done|]. cbn [map]. rewrite !filter_cons, Hsp.
  destruct (selk kr) as [|k sk] eqn:E; cbn [valid].
  - rewrite decide_False by done. by rewrite decide_False by (intros Hn; by apply Hn).
  - rewrite decide_True by done. rewrite decide_True by done. cbn [map]. by rewrite IH, E.
Qed.

Lemma slice_pull tk :
  krs <> [] -> tk.(key_range) = Some All ->
  Slice (mkM tk (pod_memory (H := pod_key) ks) [] true) krs (replicate (length krs) (new_Message tk))
  = Ok (map (spec_piece tk ks (fun _ => [])) krs).
Proof.
  intros Hk Htk. unfold Slice. cbn [task]. apply (SliceMessage_ok tk All ks krs b e); try done.
  - by apply StronglySorted_lt_le.
  - unfold get_key_range. by rewrite Htk.
  - eapply Forall_impl; [exact ks_bounds|]. simpl. lia.
  - constructor.
Qed.

Lemma process_lift tk kr kv kv' (c : KVCache (V := V)) chl :
  tk.(push) = false -> tk.(key_channel) = chl -> c.(pull_data_) !! chl = Some kv ->
  (if tk.(dyn_val_size) then response_dyn podV sort (reply (request tk kr)) kv
   else response_static podV vzero (reply (request tk kr)) kv) = Ok kv' ->
  ProcessResponse podV vzero sort (reply (request tk kr)) c = Ok (mkCache (<[chl := kv']> c.(pull_data_)) c.(chl_)).
Proof.
  intros Hp Hch Hc Hr. unfold ProcessResponse.
  assert (push (task (reply (request tk kr))) = push tk /\ key_channel (task (reply (request tk kr))) = key_channel tk /\
    dyn_val_size (task (reply (request tk kr))) = dyn_val_size tk) as (-> & -> & ->).
  { unfold reply, request. cbn. by destruct (dyn_val_size tk) eqn:E. }
  rewrite Hp, Hch, Hc. cbn [default]. by setoid_rewrite Hr.
Qed.

Lemma static_fold k tk rs done kv (c : KVCache (V := V)) chl :
  0 < k -> (forall key, length (f key) = k) -> tk.(dyn_val_size) = false -> tk.(push) = false -> tk.(key_channel) = chl ->
  Forall (fun kr => selk kr <> []) rs -> c.(pull_data_) !! chl = Some kv -> kv.(kv_key) = ks -> dest_is k done kv.(kv_val) ->
  exists c' kv', foldM (fun c kr => ProcessResponse podV vzero sort (reply (request tk kr)) c) rs c = Ok c' /\
    c'.(pull_data_) !! chl = Some kv' /\ kv'.(kv_key) = ks /\ kv'.(kv_val_size) = kv.(kv_val_size) /\
    dest_is k (done ++ rs) kv'.(kv_val).
Proof.
  intros Hk Hf Hd Hp Hch. revert done kv c. induction rs as [|kr rs IH]; intros done kv c Hrs Hc Hkey Hdest; cbn [foldM].
  { exists c, kv. by rewrite app_nil_r. }
  apply Forall_cons in Hrs as [Hkr Hrs].
  destruct (response_static_ok k done tk kr kv) as (kv1 & E1 & Hk1 & Hs1 & Hd1); try done.
  rewrite (process_lift tk kr kv kv1 c chl) by (try done; rewrite Hd; done). cbn [mbind outcome_bind].
  destruct (IH (done ++ [kr]) kv1 (mkCache (<[chl := kv1]> c.(pull_data_)) c.(chl_))) as (c' & kv' & E & H1 & H2 & H3 & H4);
    [done|by cbn; rewrite lookup_insert_eq|done|done|].
  exists c', kv'. split; [done|]. split; [done|]. split; [done|]. split; [congruence|]. by rewrite <- app_assoc in H4.
Qed.

Lemma sent_nonempty : Forall (fun kr => selk kr <> []) sent.
Proof. apply Forall_forall. intros kr Hk. by apply list_elem_of_filter in Hk as [? _]. Qed.

Lemma sent_some : sent <> [].
Proof. intros E. apply Hne. rewrite <- concat_sent, E. done. Qed.

Lemma pull_static_ok req dest (c : KVCache (V := V)) k :
  krs <> [] -> 0 < k -> (forall key, length (f key) = k) -> default All req.(key_range) = All -> req.(dyn_val_size) = false ->
  c.(pull_data_) !! c.(chl_) = None -> (dest = Vec [] \/ length (dest_data dest) = length ks * k) ->
  exists msg c1 ps, Pull_ req ks dest None c = Ok (msg, c1) /\
    Slice msg krs (replicate (length krs) (new_Message msg.(task))) = Ok ps /\
    forall order, order ≡ₚ filter (fun p => valid p = true) ps ->
    exists c2 c3, foldM (fun c p => ProcessResponse podV vzero sort (reply p) c) order c1 = Ok c2 /\
      pull_callback c.(chl_) false c2 = Ok (concat (map f ks), None, c3).
Proof.
  intros Hk Hk0 Hf Hr Hdyn Hc Hdest.
  set (tk := pull_task req c.(chl_) false).
  assert (tk.(key_range) = Some All) as Htk by (unfold tk, pull_task; cbn; by rewrite Hr).
  eexists _, _, _. split; [by apply pull_message|]. split; [by apply slice_pull|].
  intros order Ho. cbn [task] in Ho. fold tk in Ho. rewrite filter_pieces in Ho by done.
  apply Permutation_map_inv in Ho as (rs & -> & Hrs).
  assert (dest_is k [] dest) as Hd0.
  { destruct Hdest as [->|Hl]; [by right|]. left.
    destruct (chunk_buffer _ _ _ Hl) as (cs & E & Hn & Hcs). exists cs. split; [done|]. split; [done|]. by apply filled_nil. }
  destruct (static_fold k tk rs [] (mkKV ks dest None [] 0) (mkCache (<[c.(chl_) := mkKV ks dest None [] 0]> c.(pull_data_)) (c.(chl_) + 1)) c.(chl_))
    as (c2 & kv & E & Hkv & Hkey & Hsz & Hd); try done.
  { rewrite <- Hrs. apply sent_nonempty. }
  { cbn. by rewrite lookup_insert_eq. }
  assert (dest_data kv.(kv_val) = concat (map f ks)) as Hdata.
  { destruct Hd as [(cs & -> & Hcs & Hfl)|[_ E0]].
    - by rewrite (filled_all f rs cs) by (done || by rewrite <- Hrs).
    - exfalso. cbn in E0. subst rs. apply sent_some. symmetry. by apply Permutation_nil_l. }
  exists c2. eexists. split; [|unfold pull_callback; rewrite Hkv; cbn [default id mbind outcome_bind]; by rewrite Hdata, Hsz].
  rewrite <- E. clear.
  generalize (mkCache (<[chl_ c:=mkKV ks dest None [] 0]> (pull_data_ c)) (chl_ c + 1)).
  induction rs as [|kr rs IH]; intros c0; [done|]. cbn [map foldM]. fold (request tk kr).
  destruct (ProcessResponse podV vzero sort (reply (request tk kr)) c0); [apply IH|done].
Qed.

(** ** Values of varying length *)

Hypothesis Hlens : forall key, (Z.of_nat (length (f key)) < 2 ^ 31)%Z.

Definition len1 (key : Z) : list Z := [Z.of_nat (length (f key))].

(** What the cache keeps of the answer to the piece of [kr]. *)
Definition item (kr : Range) : Z * list V := (hd 0%Z (selk kr), concat (map f (selk kr))).

Record dyn_inv (dest : Dest (V := V)) (extra : list Z) (done : list Range) (kv : KVPair (V := V)) : Prop := {
  di_key : kv.(kv_key) = ks;
  di_val : kv.(kv_val) = dest;
  di_size : exists cs, kv.(kv_val_size) = Some (concat cs ++ extra) /\ chunks 1 cs /\ filled len1 done cs;
  di_recv : kv.(kv_recv) = map item done;
  di_matched : kv.(kv_matched) = length (concat (map selk done)) }.

Lemma concat_len1 l : concat (map len1 l) = map (fun key => Z.of_nat (length (f key))) l.
Proof. induction l; cbn; [done|]. by f_equal. Qed.

Lemma response_dyn_ok dest extra done tk kr kv :
  selk kr <> [] -> tk.(dyn_val_size) = true -> dyn_inv dest extra done kv ->
  exists kv1, response_dyn podV sort (reply (request tk kr)) kv = assemble sort kv1 /\ dyn_inv dest extra (done ++ [kr]) kv1.
Proof.
  intros Hsk Hdyn [Hkey Hval (cs & Hsz & Hc & Hfill) Hrecv Hm]. unfold response_dyn, reply, request. cbn [task key value]. rewrite Hdyn.
  cbn [add_value key value]. rewrite sarray_selk.
  destruct (selk kr) as [|k0 sk] eqn:Esk; [done|]. rewrite <- Esk.
  cbn [app length read_at lookup list_lookup]. rewrite bool_decide_true by done. cbn [check mbind outcome_bind].
  rewrite Hsz. cbn [mbind outcome_bind]. rewrite Hkey. pose proof (proj1 Hfill) as Hlcs.
  pose proof (chunks_length 1 cs Hc) as Hlc. rewrite Nat.mul_1_r, Hlcs in Hlc.
  rewrite decide_False by (rewrite length_app; lia). cbn [mbind outcome_bind].
  rewrite take_app_length', drop_app_length' by done.
  rewrite (sarray_memory pod_len); [|cbn; lia|].
  2:{ apply Forall_map, Forall_forall. intros key _. specialize (Hlens key). cbn. lia. }
  rewrite <- concat_len1. rewrite ordered_match_ok; try done; try lia.
  2:{ apply selk_sorted. }
  2:{ apply selk_bounds. }
  2:{ eapply Forall_impl; [exact ks_bounds|]. cbn. lia. }
  2:{ by rewrite length_map. }
  2:{ apply Forall_map, Forall_forall. done. }
  cbn [mbind outcome_bind]. rewrite hits_selk, Nat.mul_1_l.
  rewrite bool_decide_true by (rewrite concat_len1, length_map; done). cbn [check mbind outcome_bind].
  rewrite sarray_vals. eexists. split; [done|].
  destruct (filled_step len1 done cs kr 1) as [Hf' Hc']; [done|done|done|].
  split; cbn [kv_key kv_val kv_val_size kv_recv kv_matched]; [done|done|by eexists| |].
  - rewrite Hrecv, map_app. cbn [map]. do 2 f_equal. unfold item. by rewrite !Esk.
  - rewrite Hm, map_app, concat_app, length_app. cbn [map concat]. by rewrite app_nil_r.
Qed.

Lemma assemble_waits kv : kv.(kv_matched) <> length kv.(kv_key) -> assemble sort kv = Ok kv.
Proof. intros Hm. unfold assemble. by rewrite decide_True. Qed.

Hypothesis Hsort : forall l, sort l ≡ₚ l /\ StronglySorted (fun x y => x.1 <= y.1)%Z (sort l).

#[local] Instance fst_lt_antisymm : AntiSymm (=) (fun x y : Z * list V => x.1 < y.1)%Z.
Proof. intros x y. lia. Qed.

(** The arrays in the order of the servers are in the order of their first keys. *)
Lemma items_sorted : StronglySorted (fun x y => x.1 < y.1)%Z (map item sent).
Proof.
  pose proof sent_nonempty as Hn. pose proof concat_sent as Hc. pose proof Hsorted as Hs. rewrite <- Hc in Hs. clear Hc.
  induction Hn as [|kr rs Hkr Hn IH]; [constructor|]. cbn [map concat] in *.
  constructor.
  - apply IH. clear -Hs. induction (selk kr) as [|k l IHl]; [done|]. inversion Hs; subst. by apply IHl.
  - apply Forall_map, Forall_forall. intros kr' Hkr'. cbn. unfold item.
    destruct (selk kr) as [|k0 sk]; [done|]. cbn in *. inversion Hs as [|? ? _ Hf]; subst.
    rewrite Forall_forall in Hf. apply Hf. apply elem_of_app. right.
    apply list_elem_of_In, in_concat. exists (selk kr'). split; [by apply in_map, list_elem_of_In|].
    rewrite Forall_forall in Hn. specialize (Hn _ Hkr'). destruct (selk kr'); [done|]. by left.
Qed.

Lemma sort_items rs : rs ≡ₚ sent -> sort (map item rs) = map item sent.
Proof.
  intros Hp. destruct (Hsort (map item rs)) as [Hp1 Hs1].
  assert (sort (map item rs) ≡ₚ map item sent) as Hp2 by (rewrite Hp1; by apply Permutation_map).
  apply (StronglySorted_unique (fun x y => x.1 < y.1)%Z); [|apply items_sorted|done].
  assert (NoDup (map fst (sort (map item rs)))) as Hnd.
  { rewrite Hp2. apply StronglySorted_lt_NoDup. pose proof items_sorted as Hs. clear -Hs.
    induction Hs as [|x l Hl IH Hx]; cbn; constructor; [done|]. by apply Forall_map. }
  clear -Hs1 Hnd. induction Hs1 as [|x l Hl IH Hx]; constructor; cbn in Hnd; apply NoDup_cons in Hnd as [Hni Hnd]; [by apply IH|].
  apply Forall_forall. intros y Hy. rewrite Forall_forall in Hx. specialize (Hx _ Hy).
  assert (x.1 <> y.1); [|lia]. intros E. apply Hni. rewrite E. apply list_elem_of_fmap. by exists y.
Qed.

Lemma copy_items : copy_all (map item sent) = concat (map f ks).
Proof.
  unfold copy_all. rewrite map_map. cbn. rewrite <- concat_sent. generalize sent. intros l.
  induction l as [|kr l IH]; [done|]. cbn [map concat]. rewrite map_app, concat_app. by rewrite IH.
Qed.

(** All but the last answer: the cache waits. *)
Lemma dyn_fold dest extra tk rs done kv (c : KVCache (V := V)) chl :
  tk.(dyn_val_size) = true -> tk.(push) = false -> tk.(key_channel) = chl -> Forall (fun kr => selk kr <> []) rs ->
  length (concat (map selk (done ++ rs))) < length ks ->
  c.(pull_data_) !! chl = Some kv -> dyn_inv dest extra done kv ->
  exists c' kv', foldM (fun c kr => ProcessResponse podV vzero sort (reply (request tk kr)) c) rs c = Ok c' /\
    c'.(pull_data_) !! chl = Some kv' /\ dyn_inv dest extra (done ++ rs) kv'.
Proof.
  intros Hd Hp Hch. revert done kv c. induction rs as [|kr rs IH]; intros done kv c Hrs Hlt Hc Hinv; cbn [foldM].
  { exists c, kv. by rewrite app_nil_r. }
  apply Forall_cons in Hrs as [Hkr Hrs].
  destruct (response_dyn_ok dest extra done tk kr kv Hkr Hd Hinv) as (kv1 & E1 & Hinv1).
  rewrite assemble_waits in E1.
  2:{ rewrite (di_matched _ _ _ _ Hinv1), (di_key _ _ _ _ Hinv1). rewrite cons_middle, app_assoc, map_app, concat_app, length_app in Hlt. lia. }
  rewrite (process_lift tk kr kv kv1 c chl) by (try done; rewrite Hd; done). cbn [mbind outcome_bind].
  destruct (IH (done ++ [kr]) kv1 (mkCache (<[chl := kv1]> c.(pull_data_)) c.(chl_))) as (c' & kv' & E & H1 & H2);
    [done|by rewrite <- app_assoc|by cbn; rewrite lookup_insert_eq|done|].
  exists c', kv'. split; [done|]. split; [done|]. by rewrite <- app_assoc in H2.
Qed.

Lemma selk_total rs : rs ≡ₚ sent -> length (concat (map selk rs)) = length ks.
Proof.
  intros Hp. transitivity (length (concat (map selk sent))); [|by rewrite concat_sent].
  rewrite !length_concat_sum, !map_map.
  assert (map (fun x => length (selk x)) rs ≡ₚ map (fun x => length (selk x)) sent) as Hpm by by apply Permutation_map.
  clear -Hpm. induction Hpm; cbn; lia.
Qed.

Lemma assemble_all dest extra rs kv :
  rs ≡ₚ sent -> dyn_inv dest extra rs kv -> (forall buf, dest = Raw buf -> length buf = length (concat (map f ks))) ->
  exists kv', assemble sort kv = Ok kv' /\ dest_data kv'.(kv_val) = concat (map f ks) /\
    kv'.(kv_val_size) = Some (map (fun key => Z.of_nat (length (f key))) ks ++ extra) /\ kv'.(kv_key) = ks.
Proof.
  intros Hp [Hkey Hval (cs & Hsz & Hc & Hfill) Hrecv Hm] Hraw.
  assert (length (concat (map selk rs)) = length ks) as Hlen.
  { by apply selk_total. }
  assert (cs = map len1 ks) as -> by by apply (filled_all len1 rs).
  rewrite concat_len1 in Hsz. unfold assemble. rewrite decide_False by (rewrite Hm, Hkey, Hlen; lia).
  rewrite Hrecv, sort_items, copy_items by done. rewrite Hval.
  destruct dest as [buf|v]; cbn [mbind outcome_bind].
  - rewrite bool_decide_true by by apply Hraw. cbn [check mbind outcome_bind]. eexists. split; [done|]. done.
  - eexists. split; [done|]. done.
Qed.

Lemma sum_sizes (l : list Z) : (Z.of_nat (length (concat (map f l))) < 2 ^ 64)%Z ->
  sum_len (map (fun key => Z.of_nat (length (f key))) l) = Z.of_nat (length (concat (map f l))).
Proof.
  intros Ht. unfold sum_len.
  assert (sum_list (map (fun key => length (f key)) l) = length (concat (map f l))) as E by (by rewrite length_concat_sum, map_map).
  rewrite <- (map_map (fun key => length (f key)) Z.of_nat), foldl_u64 by lia. lia.
Qed.

Lemma pull_dyn_ok req dest ss (c : KVCache (V := V)) :
  krs <> [] -> default All req.(key_range) = All ->
  c.(pull_data_) !! c.(chl_) = None -> length ks <= length ss ->
  (Z.of_nat (length (concat (map f ks))) < 2 ^ 64)%Z ->
  (forall buf, dest = Raw buf -> length buf = length (concat (map f ks))) ->
  exists msg c1 ps, Pull_ req ks dest (Some ss) c = Ok (msg, c1) /\
    Slice msg krs (replicate (length krs) (new_Message msg.(task))) = Ok ps /\
    forall order, order ≡ₚ filter (fun p => valid p = true) ps ->
    exists c2 c3, foldM (fun c p => ProcessResponse podV vzero sort (reply p) c) order c1 = Ok c2 /\
      pull_callback c.(chl_) true c2 =
      Ok (concat (map f ks), Some (map (fun key => Z.of_nat (length (f key))) ks ++ drop (length ks) ss), c3).
Proof.
  intros Hk Hr Hc Hss Htot Hraw. set (tk := pull_task req c.(chl_) true).
  assert (tk.(key_range) = Some All) as Htk by (unfold tk, pull_task; cbn; by rewrite Hr).
  eexists _, _, _. split; [by apply pull_message|]. split; [by apply slice_pull|].
  intros order Ho. cbn [task] in Ho. fold tk in Ho. rewrite filter_pieces in Ho by done.
  apply Permutation_map_inv in Ho as (rs & -> & Hrs).
  set (kv0 := mkKV ks dest (Some ss) [] 0). set (c1 := mkCache (<[c.(chl_) := kv0]> c.(pull_data_)) (c.(chl_) + 1)).
  assert (dyn_inv dest (drop (length ks) ss) [] kv0) as Hinv0.
  { split; cbn; try done. destruct (chunk_buffer (length ks) 1 (take (length ks) ss)) as (cs & E & Hn & Hcs).
    { rewrite length_take. lia. }
    exists cs. rewrite E, take_drop. split; [done|]. split; [done|]. by apply filled_nil. }
  assert (Forall (fun kr => selk kr <> []) rs) as Hall by (rewrite <- Hrs; apply sent_nonempty).
  assert (length (concat (map selk rs)) = length ks) as Hlen.
  { by apply selk_total. }
  assert (foldM (fun c p => ProcessResponse podV vzero sort (reply p) c) (map (fun kr => mkM tk (pod_memory (H := pod_key) (selk kr)) [] true) rs) c1
    = foldM (fun c kr => ProcessResponse podV vzero sort (reply (request tk kr)) c) rs c1) as ->.
  { generalize c1. clear. induction rs as [|kr rs IH]; intros c0; [done|]. cbn [map foldM]. fold (request tk kr).
    destruct (ProcessResponse podV vzero sort (reply (request tk kr)) c0); [apply IH|done]. }
  destruct rs as [|lst init _] using rev_ind.
  { exfalso. apply sent_some. by apply Permutation_nil_r. }
  apply Forall_app in Hall as [Hinit Hlast]. apply Forall_cons in Hlast as [Hlast _].
  destruct (dyn_fold dest (drop (length ks) ss) tk init [] kv0 c1 c.(chl_)) as (c2 & kv & E & Hkv & Hinv); try done.
  { rewrite map_app, concat_app, length_app in Hlen. cbn [map concat] in Hlen. rewrite app_nil_r in Hlen.
    cbn [app]. destruct (selk lst); [done|]. cbn in Hlen. lia. }
  { unfold c1. cbn. by rewrite lookup_insert_eq. }
  rewrite foldM_app, E. cbn [mbind outcome_bind foldM].
  destruct (response_dyn_ok dest (drop (length ks) ss) init tk lst kv Hlast eq_refl Hinv) as (kv1 & E1 & Hinv1).
  destruct (assemble_all _ _ _ _ (symmetry Hrs) Hinv1 Hraw) as (kv2 & E2 & Hdata & Hsize2 & Hkey2).
  rewrite E2 in E1.
  rewrite (process_lift tk lst kv kv2 c2 c.(chl_)) by done. cbn [mbind outcome_bind].
  eexists _, _. split; [done|]. unfold pull_callback. cbn [pull_data_]. rewrite lookup_insert_eq. cbn [default id mbind outcome_bind].
  rewrite Hsize2. cbn [mbind outcome_bind]. rewrite Hdata, Hkey2.
  rewrite take_app_length' by by rewrite length_map.
  rewrite sum_sizes by done. by rewrite Z.eqb_refl.
Qed.

End Pulls.
