(* ===== verification/Distributed.v ===== *)
(** * One store on many servers

    Puts the worker's side of the key-value store ([Client]) and the stores of
    the servers ([KVStore]) together: a push or a pull is cut into pieces by key
    range, every server handles its piece, the worker puts the answers together.
    Seen from the worker, the servers are one store. *)
From S2P Require Import Prelude Floats Stream Workload AdaGrad Linear KVStore Message Client.

Section Distributed.
Context {E V H : Type} `{HH : !Handle E V H} (podV : Pod V) `{HP : !@PodLaws V podV} (vzero : V) (vtype : DataType).
Hypothesis Hsize : 0 < pod_size (Pod := podV).

(** The request that a piece (of at most two arrays) carries: [msg->key] and [msg->value] of the
    store's [HandlePush] and [HandlePull]. *)
Definition decode (cmd : Z) (p : Msg) : KVStore.Message V :=
  KVStore.mkMsg cmd (sarray pod_key p.(key)) p.(task).(dyn_val_size)
    (sarray podV <$> p.(value) !! 0) ((map Z.to_nat ∘ sarray pod_len) <$> p.(value) !! 1).

(** A server answers a pull: the arrays are added to a copy of the request. *)
Definition answer (cmd : Z) (s : Store E H) (p : Msg) : outcome (Msg * Store E H) :=
  '(s, val, siz) ← HandlePull s (decode cmd p);
  let m := add_value vtype (pod_memory (H := podV) val) p in
  Ok (match siz with
      | Some sizes => add_value INT32 (pod_memory (H := pod_len) (map Z.of_nat sizes)) m
      | None => m
      end, s).

(** A server handles a push. *)
Definition accept (cmd : Z) (s : Store E H) (p : Msg) : outcome (Store E H) := HandlePush s (decode cmd p).

(** The servers with their ranges, in order. *)
Notation servers := (list (Range * Store E H)).

(** The answers of the servers to the pieces that are sent. *)
Definition answers (cmd : Z) (sv : servers) (ps : list Msg) : outcome (list Msg) :=
  foldM (fun acc sp => if sp.2.(valid) then '(m, _) ← answer cmd sp.1.2 sp.2; Ok (acc ++ [m]) else Ok acc) (zip sv ps) [].

(** The servers after the pieces of a push. *)
Definition accept_all (cmd : Z) (sv : servers) (ps : list Msg) : outcome servers :=
  foldM (fun acc sp =>
    s ← (if sp.2.(valid) then accept cmd sp.1.2 sp.2 else Ok sp.1.2); Ok (acc ++ [(sp.1.1, s)])) (zip sv ps) [].

(** What the servers hold for a key: the entry of the first server whose range
    contains it. *)
Fixpoint held (sv : servers) (key : Z) : E :=
  match sv with
  | [] => e_default
  | (r, s) :: sv => if contains r key then at_ s.(data_) key else held sv key
  end.

Lemma chain_contains b krs e key : chain b krs e -> (key < b)%Z -> Forall (fun kr => contains kr key = false) krs.
Proof.
  revert b. induction krs as [|kr krs IH]; intros b Hc Hk; [constructor|]. destruct Hc as (Hb & Hle & Hc).
  constructor; [unfold contains; lia|]. apply (IH (end_ kr)); [done|lia].
Qed.

Lemma held_at b sv e i r s key :
  chain b (map fst sv) e -> sv !! i = Some (r, s) -> contains r key = true -> held sv key = at_ s.(data_) key.
Proof.
  revert b i. induction sv as [|[r0 s0] sv IH]; intros b i Hc Hi Hk; [done|]. destruct Hc as (Hb & Hle & Hc).
  destruct i as [|i]; [cbn in Hi; simplify_eq; cbn; by rewrite Hk|].
  change (sv !! i = Some (r, s)) in Hi. cbn [held].
  destruct (contains r0 key) eqn:E0; [|by apply (IH (end_ r0) i)].
  exfalso. pose proof (chain_contains _ _ _ key Hc) as Hn.
  assert (key < end_ r0)%Z as Hlt by (unfold contains in E0; cbn in E0; lia).
  specialize (Hn Hlt). rewrite Forall_lookup in Hn.
  specialize (Hn i r). rewrite list_lookup_fmap, Hi in Hn. by rewrite (Hn eq_refl) in Hk.
Qed.

(** ** Pulls *)

Section Pull.
Context (good : E -> Prop) (pulled : E -> list V) (cmd : Z) (sv : servers) (ks : list Z) (b e : Z).
Hypothesis Hsorted : StronglySorted Z.lt ks.
Hypothesis Hne : ks <> [].
Hypothesis Hchain : chain b (map fst sv) e.
Hypothesis Hbe : (0 <= b /\ e <= 2 ^ 64 - 1)%Z.
Hypothesis Hcover : Forall (fun k => b <= k < e)%Z ks.

Definition f (key : Z) : list V := pulled (held sv key).

Hypothesis Hvalid : forall key, Forall (pod_valid (Pod := podV)) (f key).

(** An answer is what [Client.reply] says it is. *)
Lemma answer_reply i r s tk :
  sv !! i = Some (r, s) ->
  (if tk.(dyn_val_size) then (forall key, good (at_ s.(data_) key)) /\ pulls good s.(k_) (Start false cmd s.(handle_)) pulled
   else pulls_all s.(k_) (Start false cmd s.(handle_)) pulled) ->
  exists s', answer cmd s (request ks tk r) = Ok (reply podV vtype f (request ks tk r), s').
Proof.
  intros Hi Hs. unfold answer, reply, decode, request. cbn [task key value].
  assert (sarray pod_key (pod_memory (H := pod_key) (selk ks r)) = selk ks r) as Hk.
  { by apply (sarray_selk podV Hsize ks b e). }
  rewrite Hk. cbn [lookup list_lookup fmap option_fmap option_map].
  assert (map (fun key => pulled (at_ s.(data_) key)) (selk ks r) = map f (selk ks r)) as Hf.
  { apply map_ext_in. intros key Hin. apply list_elem_of_In, selk_elem in Hin as [Hc _].
    unfold f. by rewrite (held_at b sv e i r s). }
  destruct (dyn_val_size tk) eqn:Ed.
  - destruct Hs as [Hg Hp].
    destruct (HandlePull_dyn_spec good s (KVStore.mkMsg cmd (selk ks r) true None None) pulled) as (d & -> & _); [done..|].
    cbn [mbind outcome_bind KVStore.m_key]. eexists. rewrite Hf. do 3 f_equal.
    rewrite map_map. f_equal. apply map_ext_in. intros key Hin. apply list_elem_of_In, selk_elem in Hin as [Hc _].
    unfold f. by rewrite (held_at b sv e i r s).
  - destruct (HandlePull_static_spec s (KVStore.mkMsg cmd (selk ks r) false None None) pulled) as (d & -> & _); [done..|].
    cbn [mbind outcome_bind KVStore.m_key]. eexists. by rewrite Hf.
Qed.

Lemma answers_ok tk :
  Forall (fun rs : Range * Store E H =>
    if tk.(dyn_val_size) then (forall key, good (at_ rs.2.(data_) key)) /\ pulls good rs.2.(k_) (Start false cmd rs.2.(handle_)) pulled
    else pulls_all rs.2.(k_) (Start false cmd rs.2.(handle_)) pulled) sv ->
  tk.(key_range) = Some All -> tk.(has_key_) = true -> tk.(key_type) = Some UINT64 ->
  let ps := map (spec_piece tk ks (fun _ => [])) (map fst sv) in
  answers cmd sv ps = Ok (map (reply podV vtype f) (filter (fun p => valid p = true) ps)).
Proof.
  intros Hall H1 H2 H3 ps. unfold answers, ps.
  assert (forall kr, spec_piece tk ks (fun _ => []) kr = match selk ks kr with [] => mkM tk [] [] false | _ => request ks tk kr end) as Hsp.
  { intros kr. unfold spec_piece, request. rewrite sel_selk. destruct (selk ks kr); [done|]. f_equal. destruct tk; cbn in *; by subst. }
  assert (forall l acc, (forall rs, rs ∈ l -> exists i, sv !! i = Some rs) ->
    foldM (fun acc sp => if valid sp.2 then '(m, _) ← answer cmd sp.1.2 sp.2; Ok (acc ++ [m]) else Ok acc)
      (zip l (map (spec_piece tk ks (fun _ => [])) (map fst l))) acc =
    Ok (acc ++ map (reply podV vtype f) (filter (fun p => valid p = true) (map (spec_piece tk ks (fun _ => [])) (map fst l))))) as Hgen.
  { induction l as [|[r s] l IH]; intros acc Hin; cbn [map zip zip_with foldM fst snd].
    { by rewrite app_nil_r. }
    rewrite filter_cons, Hsp. destruct (selk ks r) as [|k0 sk] eqn:Esk.
    - cbn [valid]. rewrite decide_False by done. cbn [mbind outcome_bind]. apply IH. intros rs Hrs. apply Hin. by right.
    - cbn [valid request]. rewrite decide_True by done.
      destruct (Hin (r, s)) as [i Hi]; [left|].
      destruct (answer_reply i r s tk Hi) as (s' & ->); [exact (proj1 (Forall_lookup _ _) Hall i _ Hi)|].
      cbn [mbind outcome_bind map]. setoid_rewrite IH; [|intros rs Hrs; apply Hin; by right].
      by rewrite <- app_assoc. }
  apply (Hgen sv []). intros rs Hrs. by apply list_elem_of_lookup in Hrs.
Qed.

End Pull.

(** A server that can answer a pull of values of varying length. *)
Definition serves (good : E -> Prop) (pulled : E -> list V) (cmd : Z) (rs : Range * Store E H) : Prop :=
  (forall key, good (at_ rs.2.(data_) key)) /\ pulls good rs.2.(k_) (Start false cmd rs.2.(handle_)) pulled.

Lemma perm_map_foldM {A B S} (g : A -> B) (step : S -> B -> outcome S) l order s :
  order ≡ₚ map g l -> exists l', l' ≡ₚ l /\ foldM step order s = foldM (fun s x => step s (g x)) l' s.
Proof.
  intros (l' & -> & Hp)%Permutation_map_inv. exists l'. split; [by rewrite Hp|].
  clear Hp. revert s. induction l' as [|x l' IH]; intros s; [done|]. cbn [map foldM]. destruct (step s (g x)); [apply IH|done].
Qed.

(** C5: A pull over servers whose ranges follow each other, into empty
    vectors: the request is cut into pieces, every server that gets a piece
    answers it from its store, and whatever the order in which the answers
    arrive, the worker ends with the values that the servers hold for the keys,
    in the order of the keys, and with their lengths. *)
Theorem distributed_pull sort good pulled cmd sv ks b e req (c : KVCache (V := V)) :
  (forall l, sort l ≡ₚ l /\ StronglySorted (fun x y => x.1 <= y.1)%Z (sort l)) ->
  StronglySorted Z.lt ks -> ks <> [] -> chain b (map fst sv) e -> (0 <= b /\ e <= 2 ^ 64 - 1)%Z ->
  Forall (fun k => b <= k < e)%Z ks -> Forall (serves good pulled cmd) sv ->
  (forall key, Forall (pod_valid (Pod := podV)) (pulled (held sv key))) ->
  (forall key, (Z.of_nat (length (pulled (held sv key))) < 2 ^ 31)%Z) ->
  (Z.of_nat (length (concat (map (fun key => pulled (held sv key)) ks))) < 2 ^ 64)%Z ->
  default All req.(key_range) = All -> c.(pull_data_) !! c.(chl_) = None ->
  exists msg c1 ps rs,
    Pull_vec req ks [] (Some []) c = Ok (msg, c1) /\
    Slice msg (map fst sv) (replicate (length sv) (new_Message msg.(task))) = Ok ps /\
    answers cmd sv ps = Ok rs /\
    forall order, order ≡ₚ rs ->
    exists c2 c3,
      foldM (fun c m => ProcessResponse podV vzero sort m c) order c1 = Ok c2 /\
      pull_callback c.(chl_) true c2 =
        Ok (concat (map (fun key => pulled (held sv key)) ks),
            Some (map (fun key => Z.of_nat (length (pulled (held sv key)))) ks), c3).
Proof.
  intros Hsort Hs Hne Hc Hbe Hcover Hserves Hval Hlen Htot Hreq Hfree.
  assert (map fst sv <> []) as Hsv.
  { intros En. rewrite En in Hc. cbn in Hc. destruct ks as [|k ks']; [done|]. apply Forall_cons in Hcover as [Hk _]. lia. }
  destruct (pull_dyn_ok podV vzero vtype Hsize sort ks (map fst sv) b e (f pulled sv) Hs Hne Hc Hbe Hcover Hval Hlen Hsort
    req (Vec []) (replicate (length ks) 0%Z) c Hsv Hreq Hfree) as (msg & c1 & ps & Ep & Es & Hord).
  { by rewrite length_replicate. }
  { exact Htot. }
  { done. }
  exists msg, c1, ps, (map (reply podV vtype (f pulled sv)) (filter (fun p => valid p = true) ps)).
  split; [exact Ep|]. split; [by rewrite length_map in Es|].
  rewrite (pull_message ks Hs Hne) in Ep by done. injection Ep as <- <-. cbn [task] in Es.
  rewrite (slice_pull podV Hsize ks (map fst sv) b e) in Es; [|done..|unfold pull_task; cbn; by rewrite Hreq].
  injection Es as <-. split.
  - apply (answers_ok good pulled cmd sv ks b e Hc Hbe Hcover); try done. unfold pull_task. cbn. by rewrite Hreq.
  - intros order Ho. apply (perm_map_foldM _ (fun c m => ProcessResponse podV vzero sort m c) _ _
      (mkCache (<[chl_ c:=mkKV ks (Vec []) (Some (replicate (length ks) 0%Z)) [] 0]> (pull_data_ c)) (chl_ c + 1))) in Ho as (l' & Hl & ->).
    destruct (Hord l' Hl) as (c2 & c3 & E2 & E3). exists c2, c3. split; [exact E2|].
    rewrite E3. rewrite drop_ge by by rewrite length_replicate. by rewrite app_nil_r.
Qed.

(** ** Pushes *)

Section Push.
Context (pf : Z -> list V -> E -> outcome E) (okh : H -> Prop) (cmd : Z).

(** What the servers need of their handle: as long as its state is in [okh],
    which it does not leave, it pushes, or aborts, by a function of the entry. *)
Record pushes : Prop := {
  ps_push key v en h : okh h ->
    match pf key v en with
    | Ok en' => exists h', KVStore.Push key v en h = Ok (en', h') /\ okh h'
    | Fail err => KVStore.Push key v en h = Fail err
    end;
  ps_start p c h : okh h -> okh (Start p c h);
  ps_finish h : okh h -> okh (Finish h) }.

Hypothesis Hpushes : pushes.

(** A block is pushed unless it is empty. *)
Definition push_block (key : Z) (en : E) (v : list V) : outcome E := match v with [] => Ok en | _ => pf key v en end.

(** The pushes of a message to [key], one after the other. *)
Definition pushes_to (key : Z) (l : list (Z * list V)) (en : E) : outcome E := foldM (push_block key) (values_of key l) en.

Definition push_pair (d : gmap Z E) (kv : Z * list V) : outcome (gmap Z E) :=
  match kv.2 with [] => Ok d | _ => en ← pf kv.1 kv.2 (at_ d kv.1); Ok (<[kv.1 := en]> d) end.

Lemma push_pair_eq d k v : push_pair d (k, v) = match v with [] => Ok d | _ => en ← pf k v (at_ d k); Ok (<[k := en]> d) end.
Proof. done. Qed.

Definition push_pairs (d : gmap Z E) (l : list (Z * list V)) : outcome (gmap Z E) := foldM push_pair l d.

Lemma pushes_to_cons key k v l en : pushes_to key ((k, v) :: l) en = if decide (k = key) then en ← push_block key en v; pushes_to key l en else pushes_to key l en.
Proof. unfold pushes_to, values_of. rewrite filter_cons. cbn [fst]. by case_decide. Qed.

Lemma at_push_pairs d l :
  match push_pairs d l with
  | Ok d' => forall key, pushes_to key l (at_ d key) = Ok (at_ d' key)
  | Fail _ => exists key err, key ∈ map fst l /\ pushes_to key l (at_ d key) = Fail err
  end.
Proof.
  unfold push_pairs. revert d. induction l as [|[k v] l IH]; intros d; cbn [foldM]; [done|].
  rewrite push_pair_eq.
  assert (forall d1, push_block k (at_ d k) v = Ok (at_ d1 k) -> (forall key, key <> k -> at_ d1 key = at_ d key) ->
    match foldM push_pair l d1 with
    | Ok d' => forall key, pushes_to key ((k, v) :: l) (at_ d key) = Ok (at_ d' key)
    | Fail _ => exists key err, key ∈ map fst ((k, v) :: l) /\ pushes_to key ((k, v) :: l) (at_ d key) = Fail err
    end) as Hgen.
  { intros d1 H1 H2.
    assert (forall key, pushes_to key ((k, v) :: l) (at_ d key) = pushes_to key l (at_ d1 key)) as Hs.
    { intros key. rewrite pushes_to_cons. case_decide as Hk; [subst|]; [by rewrite H1|]. by rewrite H2. }
    specialize (IH d1). destruct (foldM push_pair l d1).
    - intros key. by rewrite Hs.
    - destruct IH as (key & err & Hin & Hf). exists key, err. rewrite Hs. split; [by right|done]. }
  destruct v as [|x v]; [by apply Hgen|].
  destruct (pf k (x :: v) (at_ d k)) as [en|err] eqn:Ep; cbn [mbind outcome_bind].
  - apply Hgen; [cbn [push_block]; rewrite Ep; unfold at_; by rewrite lookup_insert_eq|]. intros key Hk. unfold at_. by rewrite lookup_insert_ne.
  - exists k, err. split; [by left|]. rewrite pushes_to_cons, decide_True by done. cbn [push_block]. by rewrite Ep.
Qed.

Lemma push_dyn_pairs l d h :
  okh h ->
  let r := foldM push_dyn_step (zip (map fst l) (map (fun kv => length kv.2) l)) (d, h, concat (map snd l)) in
  match push_pairs d l with Ok d' => exists h', r = Ok (d', h', []) /\ okh h' | Fail err => r = Fail err end.
Proof.
  unfold push_pairs. revert d h. induction l as [|[key v] l IH]; intros d h Hh; cbn [map zip zip_with foldM concat fst snd].
  { by exists h. }
  rewrite push_pair_eq. destruct v as [|x v].
  - assert (push_dyn_step (d, h, [] ++ concat (map snd l)) (key, length (@nil V)) = Ok (d, h, concat (map snd l))) as -> by done.
    cbn [mbind outcome_bind]. apply IH. done.
  - pose proof (ps_push Hpushes key (x :: v) (at_ d key) h Hh) as Hp.
    assert (push_dyn_step (d, h, (x :: v) ++ concat (map snd l)) (key, length (x :: v)) =
      '(en, h) ← KVStore.Push key (x :: v) (at_ d key) h; Ok (<[key := en]> d, h, concat (map snd l))) as ->.
    { unfold push_dyn_step. rewrite decide_False by done. by rewrite take_app_length, drop_app_length. }
    destruct (pf key (x :: v) (at_ d key)) as [en|err]; [|by rewrite Hp]. destruct Hp as (h1 & -> & Hh1). cbn [mbind outcome_bind]. by apply IH.
Qed.

Lemma push_static_pairs k l d h :
  0 < k -> Forall (fun kv => length kv.2 = k) l -> okh h ->
  let r := foldM (push_step k) (map fst l) (d, h, concat (map snd l)) in
  match push_pairs d l with Ok d' => exists h', r = Ok (d', h', []) /\ okh h' | Fail err => r = Fail err end.
Proof.
  intros Hk Hl. unfold push_pairs. revert d h. induction Hl as [|[key v] l Hv Hl IH]; intros d h Hh; cbn [map foldM concat fst snd] in *.
  { by exists h. }
  rewrite push_pair_eq. destruct v as [|x v]; [cbn in Hv; lia|].
  pose proof (ps_push Hpushes key (x :: v) (at_ d key) h Hh) as Hp.
  assert (push_step k (d, h, (x :: v) ++ concat (map snd l)) key =
    '(en, h) ← KVStore.Push key (x :: v) (at_ d key) h; Ok (<[key := en]> d, h, concat (map snd l))) as ->.
  { unfold push_step. by rewrite take_app_length', drop_app_length' by done. }
  destruct (pf key (x :: v) (at_ d key)) as [en|err]; [|by rewrite Hp]. destruct Hp as (h1 & -> & Hh1). cbn [mbind outcome_bind]. by apply IH.
Qed.

(** The arrays of a push of the pairs [l]. *)
Definition msg_of (dyn : bool) (l : list (Z * list V)) : KVStore.Message V :=
  KVStore.mkMsg cmd (map fst l) dyn (Some (concat (map snd l))) (if dyn then Some (map (fun kv => length kv.2) l) else None).

(** Without an array of lengths, the values have one length. *)
Definition shaped (dyn : bool) (l : list (Z * list V)) : Prop :=
  dyn = false -> exists k, 0 < k /\ Forall (fun kv => length kv.2 = k) l.

Lemma HandlePush_pairs dyn l (s : Store E H) :
  l <> [] -> shaped dyn l -> okh s.(handle_) ->
  match push_pairs s.(data_) l with
  | Ok d => exists s', HandlePush s (msg_of dyn l) = Ok s' /\ s'.(data_) = d /\ okh s'.(handle_)
  | Fail err => HandlePush s (msg_of dyn l) = Fail err
  end.
Proof.
  intros Hne Hsh Hok. pose proof (ps_start Hpushes true cmd _ Hok) as Hh. unfold HandlePush, msg_of. cbn [m_dyn m_key m_value m_size m_cmd].
  assert (length (map fst l) <> 0) as Hn by (rewrite length_map; destruct l; [done|cbn; lia]).
  rewrite bool_decide_false by done. destruct dyn; cbn [andb negb].
  - rewrite (bool_decide_true (length _ = _)) by by rewrite !length_map. cbn [check mbind outcome_bind].
    rewrite bool_decide_true by by rewrite length_concat_sum, map_map. cbn [check mbind outcome_bind].
    pose proof (push_dyn_pairs l s.(data_) _ Hh) as Hp. cbn zeta in Hp. destruct (push_pairs (data_ s) l); [|by rewrite Hp].
    destruct Hp as (h' & -> & Hh'). cbn [mbind outcome_bind]. eexists. split; [done|]. split; [done|]. by apply (ps_finish Hpushes).
  - destruct (Hsh eq_refl) as (k & Hk & Hl).
    assert (length (concat (map snd l)) = length l * k) as Hlen.
    { rewrite length_concat_sum, map_map. clear -Hl. induction Hl as [|kv l Hv Hl IH]; cbn; lia. }
    rewrite Hlen, length_map. rewrite length_map in Hn. rewrite Nat.mul_comm, Nat.div_mul by done.
    rewrite bool_decide_true by done. cbn [check mbind outcome_bind].
    pose proof (push_static_pairs k l s.(data_) _ Hk Hl Hh) as Hp. cbn zeta in Hp. destruct (push_pairs (data_ s) l); [|by rewrite Hp].
    destruct Hp as (h' & -> & Hh'). cbn [mbind outcome_bind]. eexists. split; [done|]. split; [done|]. by apply (ps_finish Hpushes).
Qed.

Lemma sel_pairs {A} (g : Z * list V -> A) (l : list (Z * list V)) kr :
  sel kr (map fst l) (map g l) = map g (filter (fun p => contains kr p.1 = true) l).
Proof.
  unfold sel. induction l as [|p l IH]; [done|]. cbn [map zip zip_with]. rewrite !filter_cons. cbn [fst].
  case_decide; cbn [map snd]; by rewrite IH.
Qed.

(** *** The message of a push and its pieces *)

Context (l : list (Z * list V)) (dyn : bool) (b e : Z).
Hypothesis Hsorted : StronglySorted Z.lt (map fst l).
Hypothesis Hne : l <> [].
Hypothesis Hbe : (0 <= b /\ e <= 2 ^ 64 - 1)%Z.
Hypothesis Hcover : Forall (fun k => b <= k < e)%Z (map fst l).
Hypothesis Hshaped : shaped dyn l.
Hypothesis Hvalid : Forall (fun kv => Forall (pod_valid (Pod := podV)) kv.2) l.
Hypothesis Hlens : Forall (fun kv => Z.of_nat (length kv.2) < 2 ^ 31)%Z l.
Hypothesis Hsome : 0 < sum_list (map (fun kv => length kv.2) l).
Hypothesis Htotal : (Z.of_nat (pod_size (Pod := podV) * sum_list (map (fun kv => length kv.2) l)) < 2 ^ 64)%Z.

Definition within (kr : Range) : list (Z * list V) := filter (fun p => contains kr p.1 = true) l.

Definition sizes_of (q : list (Z * list V)) : list Z := map (fun kv => Z.of_nat (length kv.2)) q.

(** The arrays of the piece of [kr]. *)
Definition arrays (q : list (Z * list V)) : list (list byte) :=
  pod_memory (H := podV) (concat (map snd q)) :: if dyn then [pod_memory (H := pod_len) (sizes_of q)] else [].

Definition push_task (req : Task) : Task :=
  mkTask req.(time) (Some (default All req.(key_range))) req.(key_channel) true (Some UINT64)
    (req.(value_type) ++ vtype :: if dyn then [INT32] else []) true dyn.

Lemma keys_nonempty : map fst l <> [].
Proof. by destruct l. Qed.

Lemma push_message req :
  (dyn = false -> req.(dyn_val_size) = false) ->
  Client.Push podV vtype req (map fst l) (concat (map snd l)) (if dyn then sizes_of l else [])
  = Ok (mkM (push_task req) (pod_memory (H := pod_key) (map fst l)) (arrays l) true).
Proof.
  intros Hd. unfold Client.Push. rewrite (ordered_ks (map fst l) Hsorted keys_nonempty). cbn [check mbind outcome_bind].
  unfold push_task, arrays. destruct dyn.
  - rewrite nonempty_match by (unfold sizes_of; by destruct l).
    rewrite bool_decide_true by (unfold sizes_of; by rewrite !length_map). cbn [check mbind outcome_bind].
    unfold set_push, set_dyn, add_value, set_key, new_Message. cbn [task time key_range key_channel has_key_ key_type value_type push dyn_val_size key value valid app].
    by rewrite <- app_assoc.
  - cbn [mbind outcome_bind]. unfold set_push, add_value, set_key, new_Message.
    cbn [task time key_range key_channel has_key_ key_type value_type push dyn_val_size key value valid app]. by rewrite (Hd eq_refl).
Qed.

Lemma pod_memory_blocks (q : list (Z * list V)) :
  pod_memory (H := podV) (concat (map snd q)) = concat (map (fun kv => pod_memory (H := podV) kv.2) q).
Proof. by rewrite pod_memory_concat, map_map. Qed.

Lemma push_values : exists vs, values (map fst l) dyn (arrays l) vs /\ forall kr, vs kr = arrays (within kr).
Proof.
  unfold arrays. rewrite pod_memory_blocks. destruct dyn eqn:Ed.
  - exists (fun kr => [concat (sel kr (map fst l) (map (fun kv => pod_memory (H := podV) kv.2) l));
                       pod_memory (H := pod_len) (sel kr (map fst l) (map Z.of_nat (map (fun kv => length kv.2) l)))]).
    split.
    + unfold sizes_of. rewrite <- (map_map (fun kv : Z * list V => length kv.2) Z.of_nat).
      apply (values_dynamic (map fst l) (pod_size (Pod := podV))); [|constructor]. split.
      * by rewrite !length_map.
      * rewrite !map_map. apply map_ext. intros kv. apply pod_memory_length.
      * apply Forall_map. exact Hlens.
      * done.
      * done.
      * done.
    + intros kr. rewrite map_map, !sel_pairs. by rewrite <- pod_memory_blocks.
  - exists (fun kr => [concat (sel kr (map fst l) (map (fun kv => pod_memory (H := podV) kv.2) l))]). split.
    + destruct (Hshaped eq_refl) as (k & Hk & Hl).
      apply (values_static (map fst l) (pod_size (Pod := podV) * k)); [|constructor]. split; [by rewrite !length_map|].
      apply Forall_map. eapply Forall_impl; [exact Hl|]. intros kv Hkv. cbn in *. by rewrite pod_memory_length, Hkv.
    + intros kr. rewrite sel_pairs. by rewrite <- pod_memory_blocks.
Qed.

Lemma decode_piece tk kr :
  tk.(dyn_val_size) = dyn ->
  decode cmd (mkM tk (pod_memory (H := pod_key) (map fst (within kr))) (arrays (within kr)) true) = msg_of dyn (within kr).
Proof.
  intros Hd. unfold decode, msg_of. cbn [task key value]. rewrite Hd.
  assert (Forall (fun kv => kv ∈ l) (within kr)) as Hin.
  { apply Forall_forall. intros kv Hk. by apply list_elem_of_filter in Hk as [_ ?]. }
  rewrite (sarray_memory pod_key); [|cbn; lia|].
  2:{ apply Forall_map. eapply Forall_impl; [exact Hin|]. intros kv Hk. rewrite Forall_map in Hcover.
      pose proof (proj1 (Forall_forall _ _) Hcover kv Hk) as Hb. cbn in Hb |- *. lia. }
  unfold arrays. cbn [lookup list_lookup fmap option_fmap option_map].
  rewrite (sarray_memory podV); [|done|].
  2:{ apply Forall_concat, Forall_map. eapply Forall_impl; [exact Hin|]. intros kv Hk.
      exact (proj1 (Forall_forall _ _) Hvalid kv Hk). }
  destruct dyn; [|done]. cbn [lookup list_lookup fmap option_fmap option_map compose].
  rewrite (sarray_memory pod_len); [|cbn; lia|].
  2:{ unfold sizes_of. apply Forall_map. eapply Forall_impl; [exact Hin|]. intros kv Hk.
      pose proof (proj1 (Forall_forall _ _) Hlens kv Hk) as Hb. cbn in Hb |- *. lia. }
  unfold sizes_of. rewrite map_map. do 2 f_equal. apply map_ext. intros kv. apply Nat2Z.id.
Qed.

Lemma shaped_within kr : shaped dyn (within kr).
Proof.
  intros Hd. destruct (Hshaped Hd) as (k & Hk & Hl). exists k. split; [done|].
  apply Forall_forall. intros kv Hkv. apply list_elem_of_filter in Hkv as [_ Hkv]. exact (proj1 (Forall_forall _ _) Hl kv Hkv).
Qed.

Lemma values_within kr key : contains kr key = true -> values_of key (within kr) = values_of key l.
Proof.
  intros Hk. unfold values_of, within. f_equal. rewrite list_filter_filter. apply filter_ext_in.
  intros kv _. split; [tauto|]. intros <-. done.
Qed.

(** The piece for [kr]. *)
Definition push_piece (tk : Task) (kr : Range) : Msg :=
  match within kr with
  | [] => mkM tk [] [] false
  | _ => mkM tk (pod_memory (H := pod_key) (map fst (within kr))) (arrays (within kr)) true
  end.

Lemma spec_piece_push req vs kr :
  default All req.(key_range) = All -> (forall kr, vs kr = arrays (within kr)) ->
  spec_piece (push_task req) (map fst l) vs kr = push_piece (push_task req) kr.
Proof.
  intros Hr Hvs. unfold spec_piece, push_piece. rewrite (sel_pairs fst). fold (within kr). rewrite Hvs.
  by destruct (within kr) as [|kv q].
Qed.

Lemma pushes_within kr key en : contains kr key = true -> pushes_to key (within kr) en = pushes_to key l en.
Proof. intros Hk. unfold pushes_to. by rewrite values_within. Qed.

(** A server before and after the push. *)
Definition pushed (rs rs' : Range * Store E H) : Prop :=
  rs'.1 = rs.1 /\ forall key, contains rs.1 key = true -> pushes_to key l (at_ rs.2.(data_) key) = Ok (at_ rs'.2.(data_) key).

(** A server that aborts. *)
Definition refused (rs : Range * Store E H) : Prop :=
  exists key err, key ∈ map fst l /\ contains rs.1 key = true /\ pushes_to key l (at_ rs.2.(data_) key) = Fail err.

Definition ready (rs : Range * Store E H) : Prop := okh rs.2.(handle_).

Lemma accept_piece tk r s :
  okh s.(handle_) -> tk.(dyn_val_size) = dyn ->
  let res := if valid (push_piece tk r) then accept cmd s (push_piece tk r) else Ok s in
  (exists s', res = Ok s' /\ pushed (r, s) (r, s') /\ okh s'.(handle_)) \/ (exists err, res = Fail err) /\ refused (r, s).
Proof.
  intros Hs Hd. unfold push_piece. destruct (within r) as [|kv q] eqn:Ew.
  - left. exists s. split; [done|]. split; [|done]. split; [done|].
    intros key Hk. cbn in Hk |- *. by rewrite <- (pushes_within r key) , Ew by done.
  - cbn [valid]. unfold accept. rewrite <- Ew, (decode_piece tk r Hd).
    pose proof (HandlePush_pairs dyn (within r) s ltac:(by rewrite Ew) (shaped_within r) Hs) as Hp.
    pose proof (at_push_pairs (data_ s) (within r)) as Hat. destruct (push_pairs (data_ s) (within r)) as [d|err].
    + left. destruct Hp as (s' & Ep & <- & Hs'). exists s'. split; [exact Ep|]. split; [|done]. split; [done|].
      intros key Hk. cbn in Hk |- *. by rewrite <- (pushes_within r key).
    + right. split; [by exists err|]. destruct Hat as (key & err' & Hin & Hf). exists key, err'.
      apply list_elem_of_fmap in Hin as (kv' & -> & Hin). apply list_elem_of_filter in Hin as [Hc Hin].
      split; [by apply list_elem_of_fmap_2|]. split; [done|]. cbn. by rewrite <- (pushes_within r).
Qed.

Lemma accept_all_ok sv tk :
  Forall ready sv -> tk.(dyn_val_size) = dyn ->
  let res := accept_all cmd sv (map (fun rs => push_piece tk rs.1) sv) in
  (exists sv', res = Ok sv' /\ Forall2 pushed sv sv' /\ Forall ready sv') \/ (exists err, res = Fail err) /\ Exists refused sv.
Proof.
  intros Hall Hd. unfold accept_all. cbn zeta.
  match goal with |- context [foldM ?g _ _] =>
    assert (forall acc acc0, Forall2 pushed acc0 acc -> Forall ready acc ->
      (exists sv', foldM g (zip sv (map (fun rs => push_piece tk rs.1) sv)) acc = Ok sv' /\ Forall2 pushed (acc0 ++ sv) sv' /\ Forall ready sv') \/
      (exists err, foldM g (zip sv (map (fun rs => push_piece tk rs.1) sv)) acc = Fail err) /\ Exists refused sv) as Hgen end.
  { induction Hall as [|[r s] sv' Hs Hall IH]; intros acc acc0 Hacc Hrd; cbn [map zip zip_with foldM fst snd].
    { left. exists acc. by rewrite app_nil_r. }
    destruct (accept_piece tk r s Hs Hd) as [(s' & E1 & Hs' & Hs1)|[[err E1] Hr]]; setoid_rewrite E1; cbn [mbind outcome_bind].
    2:{ right. split; [by exists err|by left]. }
    destruct (IH (acc ++ [(r, s')]) (acc0 ++ [(r, s)])) as [(sv1 & E2 & H2)|[He Hr]].
    { apply Forall2_app; [done|]. constructor; [done|constructor]. }
    { apply Forall_app. split; [done|]. by constructor. }
    - left. exists sv1. split; [exact E2|]. by rewrite <- app_assoc in H2.
    - right. split; [exact He|by right]. }
  apply (Hgen [] []); constructor.
Qed.

Lemma chain_owner krs b0 e0 key : chain b0 krs e0 -> (b0 <= key < e0)%Z -> exists i kr, krs !! i = Some kr /\ contains kr key = true.
Proof.
  revert b0. induction krs as [|kr krs IH]; intros b0 Hc Hk; [cbn in Hc; lia|]. destruct Hc as (Hb & Hle & Hc).
  destruct (decide (key < end_ kr)%Z) as [Hlt|Hge].
  - exists 0, kr. split; [done|]. unfold contains. lia.
  - destruct (IH (end_ kr) Hc) as (i & kr' & Hi & Hk'); [lia|]. by exists (S i), kr'.
Qed.

Lemma distributed_push_ok sv st req :
  chain b (map fst sv) e -> default All req.(key_range) = All -> (dyn = false -> req.(dyn_val_size) = false) ->
  Forall ready sv -> okh st.(handle_) ->
  (forall key, (b <= key < e)%Z -> held sv key = at_ st.(data_) key) ->
  exists msg ps,
    Client.Push podV vtype req (map fst l) (concat (map snd l)) (if dyn then sizes_of l else []) = Ok msg /\
    Slice msg (map fst sv) (replicate (length sv) (new_Message msg.(task))) = Ok ps /\
    match HandlePush st (msg_of dyn l) with
    | Ok st' => exists sv', accept_all cmd sv ps = Ok sv' /\ map fst sv' = map fst sv /\ Forall ready sv' /\ okh st'.(handle_) /\
        forall key, (b <= key < e)%Z -> held sv' key = at_ st'.(data_) key
    | Fail _ => exists err, accept_all cmd sv ps = Fail err
    end.
Proof.
  intros Hc Hr Hdyn Hall Hst Hsim.
  destruct push_values as (vs & Hv & Hvs).
  pose proof (HandlePush_pairs dyn l st Hne Hshaped Hst) as Hp. pose proof (at_push_pairs st.(data_) l) as Hat.
  assert (map fst sv <> []) as Hsv.
  { intros En. rewrite En in Hc. cbn in Hc. destruct l as [|kv l']; [done|]. apply Forall_cons in Hcover as [Hk _]. lia. }
  eexists _, _. split; [by apply push_message|]. split.
  { unfold Slice. cbn [task]. rewrite <- (length_map fst sv).
    apply (SliceMessage_ok (push_task req) All (map fst l) (map fst sv) b e); try done.
    - by apply StronglySorted_lt_le.
    - apply keys_nonempty.
    - eapply Forall_impl; [exact Hcover|]. cbn. lia. }
  rewrite map_map. rewrite (map_ext _ (fun rs : Range * Store E H => push_piece (push_task req) rs.1)) by (intros [r s]; by apply spec_piece_push).
  destruct (accept_all_ok sv (push_task req) Hall eq_refl) as [(sv' & Esv & Hf2 & Hrd)|[[err Esv] Href]]; rewrite Esv.
  - assert (map fst sv' = map fst sv) as Hfst.
    { clear -Hf2. induction Hf2 as [|rs rs' s1 s2 [Hr _] Hf IH]; cbn; [done|]. by rewrite Hr, IH. }
    assert (forall key, (b <= key < e)%Z -> pushes_to key l (at_ st.(data_) key) = Ok (held sv' key)) as Hheld.
    { intros key Hkey. destruct (chain_owner _ _ _ _ Hc Hkey) as (i & kr & Hi & Hk).
      rewrite list_lookup_fmap in Hi. destruct (sv !! i) as [[r s]|] eqn:Ei; [|done]. cbn in Hi. injection Hi as ->.
      destruct (Forall2_lookup_l _ _ _ _ _ Hf2 Ei) as ([r' s'] & Ei' & Hr' & Hs'). cbn in Hr', Hs'. subst r'.
      rewrite (held_at b sv' e i kr s') by (done || by rewrite Hfst).
      by rewrite <- Hs', <- Hsim, (held_at b sv e i kr s) by done. }
    destruct (push_pairs (data_ st) l) as [d|err].
    + destruct Hp as (st' & -> & <- & Hst'). exists sv'. split_and!; try done. intros key Hkey.
      pose proof (Hheld key Hkey) as Hh. rewrite Hat in Hh. congruence.
    + exfalso. destruct Hat as (key & err' & Hin & Hf). rewrite Hheld in Hf; [done|]. exact (proj1 (Forall_forall _ _) Hcover key Hin).
  - destruct (push_pairs (data_ st) l) as [d|err']; [|rewrite Hp; by eexists].
    exfalso. apply Exists_exists in Href as ([r s] & Hin & key & err' & Hkey & Hk & Hf). apply list_elem_of_lookup in Hin as [i Hi].
    pose proof (proj1 (Forall_forall _ _) Hcover key Hkey) as Hb. cbn in Hk, Hf.
    rewrite <- (held_at b sv e i r s), Hsim, Hat in Hf by done. done.
Qed.

End Push.

(** ** Many pushes *)

(** A push of the pairs [pr_pairs], with or without an array of lengths. *)
Record PushReq := mkPush { pr_cmd : Z; pr_dyn : bool; pr_pairs : list (Z * list V) }.

(** The pushes of a worker: sorted keys in the range of the servers, values
    that can be sent. *)
Record push_ok (b e : Z) (r : PushReq) : Prop := {
  po_sorted : StronglySorted Z.lt (map fst r.(pr_pairs));
  po_some_key : r.(pr_pairs) <> [];
  po_cover : Forall (fun k => b <= k < e)%Z (map fst r.(pr_pairs));
  po_shaped : shaped r.(pr_dyn) r.(pr_pairs);
  po_valid : Forall (fun kv => Forall (pod_valid (Pod := podV)) kv.2) r.(pr_pairs);
  po_lens : Forall (fun kv => Z.of_nat (length kv.2) < 2 ^ 31)%Z r.(pr_pairs);
  po_some : 0 < sum_list (map (fun kv => length kv.2) r.(pr_pairs));
  po_total : (Z.of_nat (pod_size (Pod := podV) * sum_list (map (fun kv => length kv.2) r.(pr_pairs))) < 2 ^ 64)%Z }.

(** A push through the cache, the slicing and the servers. *)
Definition push_servers (req : Task) (sv : servers) (r : PushReq) : outcome servers :=
  msg ← Client.Push podV vtype req (map fst r.(pr_pairs)) (concat (map snd r.(pr_pairs)))
          (if r.(pr_dyn) then sizes_of r.(pr_pairs) else []);
  ps ← Slice msg (map fst sv) (replicate (length sv) (new_Message msg.(task)));
  accept_all r.(pr_cmd) sv ps.

(** The same push to a single store. *)
Definition push_single (st : Store E H) (r : PushReq) : outcome (Store E H) := HandlePush st (msg_of r.(pr_cmd) r.(pr_dyn) r.(pr_pairs)).

(** The servers after the pushes are what one store is after them: they accept the
    pushes as it does, and hold, key by key, what it holds. *)
Definition as_one_store (b e : Z) (req : Task) (reqs : list PushReq) (sv : servers) (st : Store E H) : Prop :=
  match foldM push_single reqs st with
  | Ok st' => exists sv', foldM (push_servers req) reqs sv = Ok sv' /\ map fst sv' = map fst sv /\
      forall key, (b <= key < e)%Z -> held sv' key = at_ st'.(data_) key
  | Fail _ => exists err, foldM (push_servers req) reqs sv = Fail err
  end.

Lemma pushes_as_one_store pf okh b e req reqs sv st :
  pushes pf okh -> chain b (map fst sv) e -> (0 <= b /\ e <= 2 ^ 64 - 1)%Z ->
  default All req.(key_range) = All -> req.(dyn_val_size) = false ->
  Forall (push_ok b e) reqs -> Forall (ready okh) sv -> okh st.(handle_) ->
  (forall key, (b <= key < e)%Z -> held sv key = at_ st.(data_) key) ->
  as_one_store b e req reqs sv st.
Proof.
  intros Hp Hc Hbe Hr Hd Hreqs. unfold as_one_store. revert sv st Hc.
  induction Hreqs as [|[cmd dyn l] reqs [Hs Hn Hcov Hsh Hv Hl Hsm Ht] Hreqs IH]; intros sv st Hc Hrd Hst Hsim; cbn [foldM].
  { by exists sv. }
  destruct (distributed_push_ok pf okh cmd Hp l dyn b e Hs Hn Hbe Hcov Hsh Hv Hl Hsm Ht sv st req Hc Hr (fun _ => Hd) Hrd Hst Hsim)
    as (msg & ps & E1 & E2 & E3).
  assert (push_servers req sv (mkPush cmd dyn l) = accept_all cmd sv ps) as ->.
  { unfold push_servers. cbn [pr_pairs pr_dyn pr_cmd]. rewrite E1. cbn [mbind outcome_bind]. by rewrite E2. }
  change (push_single st (mkPush cmd dyn l)) with (HandlePush st (msg_of cmd dyn l)).
  destruct (HandlePush st (msg_of cmd dyn l)) as [st1|]; cbn [mbind outcome_bind].
  2:{ destruct E3 as [err ->]. by exists err. }
  destruct E3 as (sv1 & -> & Hfst & Hrd1 & Hst1 & Hsim1). cbn [mbind outcome_bind].
  specialize (IH sv1 st1). rewrite Hfst in IH. by apply IH.
Qed.

End Distributed.

(** ** The servers of the linear application *)

Section LinearServers.
Context {F : Type} `{HF : !Float F} (podF : Pod F) `{HP : !@PodLaws F podF} (vtype : DataType).

(** The handles of the linear application that keep what the learning rate depends
    on in the entry.  [SGDHandle] counts the pushes of its server instead. *)
Inductive entry_rate : forall E, Handle E F (LHandle F) -> Prop :=
| AdaGrad_rate : entry_rate _ LAdaGradHandle
| FTRL_rate : entry_rate _ FTRLHandle.

(** What the configuration sets in a handle. *)
Definition set_up (h : LHandle F) : L1L2.t F * F * F := (h.(penalty), h.(l_alpha), h.(l_beta)).

(** The entry after a push. *)
Definition pushed_entry {E} (HH : Handle E F (LHandle F)) (h : LHandle F) (key : Z) (v : list F) (en : E) : outcome E :=
  '(en, _) ← KVStore.Push key v en h; Ok en.

Lemma set_up_Update c o (h : LHandle F) : set_up (Update c o h) = set_up h.
Proof. unfold Update. by repeat case_match. Qed.

Lemma set_up_LFinish (h : LHandle F) : set_up (LFinish h) = set_up h.
Proof. unfold LFinish. by case_match. Qed.

Lemma LAdaPush_pushes h : pushes (HH := LAdaGradHandle) (pushed_entry LAdaGradHandle h) (fun h' => set_up h' = set_up h).
Proof.
  split; [|done|intros h' ?; by cbn; rewrite set_up_LFinish]. intros key v en h' Hh. unfold pushed_entry. cbn [KVStore.Push LAdaGradHandle].
  unfold LAdaPush. pose proof Hh as Hc. injection Hc as <- <- <-. destruct (head v); cbn [mbind outcome_bind]; [|done].
  destruct (L1L2.Solve _ _ _); cbn [mbind outcome_bind]; [|done]. eexists. split; [done|]. by rewrite set_up_Update.
Qed.

Lemma FTRLPush_pushes h : pushes (HH := FTRLHandle) (pushed_entry FTRLHandle h) (fun h' => set_up h' = set_up h).
Proof.
  split; [|done|intros h' ?; by cbn; rewrite set_up_LFinish]. intros key v en h' Hh. unfold pushed_entry. cbn [KVStore.Push FTRLHandle].
  unfold FTRLPush. pose proof Hh as Hc. injection Hc as <- <- <-. destruct (head v); cbn [mbind outcome_bind]; [|done].
  destruct (L1L2.Solve _ _ _); cbn [mbind outcome_bind]; [|done]. eexists. split; [done|]. by rewrite set_up_Update.
Qed.


End LinearServers.

(** ** Two servers of one integer per key *)

(** A handle that adds what is pushed and sends one value. *)
#[local] Instance ex_handle : Handle Z Z unit := {|
  e_default := 0%Z; v_default := 0%Z;
  Start _ _ h := h; Finish h := h;
  KVStore.Push _ v en h := Ok (foldl Z.add en v, h);
  KVStore.Pull _ en _ h := Ok (InPlace [en])
|}.

Definition ex_servers : list (Range * Store Z unit) :=
  [(mkRange 0 100, mkStore {[3%Z := 30%Z]} tt 1); (mkRange 100 200, mkStore {[100%Z := 7%Z]} tt 1)].

Definition by_first (x y : Z * list Z) : Prop := (x.1 <= y.1)%Z.
#[local] Instance by_first_dec x y : Decision (by_first x y).
Proof. unfold by_first. apply _. Defined.

Definition ex_sort : list (Z * list Z) -> list (Z * list Z) := merge_sort by_first.

Lemma by_first_sorts l : ex_sort l ≡ₚ l /\ StronglySorted (fun x y => x.1 <= y.1)%Z (ex_sort l).
Proof.
  split; [apply merge_sort_Permutation|].
  assert (Transitive by_first) by (intros x y z; unfold by_first; lia).
  assert (Total by_first) by (intros x y; unfold by_first; lia).
  apply (StronglySorted_merge_sort by_first).
Qed.

Definition ex_req : Task := mkTask None None 0 false None [] false false.

Lemma ex_held_cases key : held ex_servers key = 30%Z \/ held ex_servers key = 7%Z \/ held ex_servers key = 0%Z.
Proof.
  unfold held, ex_servers, contains, at_. cbn [begin_ end_ data_].
  repeat match goal with |- context [if ?b then _ else _] => destruct b end;
    try (rewrite lookup_singleton; case_decide; cbn; tauto); cbn; tauto.
Qed.

Lemma distributed_pull_witness :
  exists msg c1 ps rs,
    Pull_vec ex_req ex_keys [] (Some []) (mkCache ∅ 5) = Ok (msg, c1) /\
    Slice msg (map fst ex_servers) (replicate 2 (new_Message msg.(task))) = Ok ps /\
    answers pod_len INT32 0 ex_servers ps = Ok rs /\
    exists c2 c3,
      foldM (fun c m => ProcessResponse pod_len 0%Z ex_sort m c) (rev rs) c1 = Ok c2 /\
      pull_callback 5 true c2 = Ok ([30; 0; 7]%Z, Some [1; 1; 1]%Z, c3).
Proof.
  destruct (distributed_pull pod_len 0%Z INT32 ltac:(cbn; lia) ex_sort (fun _ => True) (fun en => [en]) 0 ex_servers ex_keys 0 200
    ex_req (mkCache ∅ 5)) as (msg & c1 & ps & rs & E1 & E2 & E3 & Hord).
  - apply by_first_sorts.
  - repeat constructor; lia.
  - done.
  - cbn. lia.
  - lia.
  - repeat constructor; lia.
  - repeat constructor; intros key en len _ Hl; exists (InPlace [en]); done.
  - intros key. destruct (ex_held_cases key) as [->|[->| ->]]; (constructor; [cbn; lia|constructor]).
  - intros key. cbn. lia.
  - vm_compute. done.
  - done.
  - done.
  - exists msg, c1, ps, rs. split; [exact E1|]. split; [exact E2|]. split; [exact E3|].
    destruct (Hord (rev rs)) as (c2 & c3 & E4 & E5); [by rewrite <- Permutation_rev|].
    exists c2, c3. split; [exact E4|]. exact E5.
Defined.

(** Two servers of FTRL weights. *)
Definition ftrl_handle : LHandle Z := mkLH (L1L2.mk 1 1)%Z 1%Z 1%Z false 0 0 2 [] 1 0%Z.

Definition ftrl_servers : list (Range * Store (FTRLEntry Z) (LHandle Z)) :=
  [(mkRange 0 100, mkStore {[3%Z := mkFTRL 4%Z 2%Z 1%Z]} ftrl_handle 1); (mkRange 100 200, mkStore ∅ ftrl_handle 1)].


(** [SGDHandle] on two servers: three pushes to the second one make the learning
    rate of a single store smaller, and leave that of the first server as it was. *)
Example sgd_counts_per_server :
  let _ := Zfloat in
  let h := mkLH (L1L2.mk 0 0)%Z 1%Z 1%Z false 0 0 2 [] 1 0%Z in
  let reqs := replicate 3 (mkPush 0 false [(150, [0])]%Z) ++ [mkPush 0 false [(3, [-12])]%Z] in
  let sv := [(mkRange 0 100, mkStore (∅ : gmap Z Z) h 1); (mkRange 100 200, mkStore ∅ h 1)] in
  match foldM (push_servers (HH := SGDHandle) pod_len INT32 ex_req) reqs sv, foldM (push_single (HH := SGDHandle)) reqs (mkStore ∅ h 1) with
  | Ok sv', Ok st' => held (HH := SGDHandle) sv' 3 = 6%Z /\ at_ (Handle0 := SGDHandle) st'.(data_) 3 = 4%Z
  | _, _ => False
  end.
Proof. vm_compute. done. Qed.
