(* ===== verification/Executor.v ===== *)
(** * The executor of a customer

    Models src/ps-lite/src/system/executor.cc, executor.h and the tracker of
    src/ps-lite/src/system/remote_node.h: requests are numbered by timestamps,
    a request to a group is cut into pieces, the answers of the nodes are
    tracked, and the callback of a request runs when the last answer arrives.
    Filters are in [Filters]; here a message goes through them unchanged. *)
From S2P Require Import Prelude Floats Stream Message.

(** ** Tracking requests *)

(** [RequestTracker::IsFinished(ts)] *)
Definition IsFinished (data_ : list bool) (ts : Z) : bool :=
  (ts <? 0)%Z || default false (data_ !! Z.to_nat ts).

(** [RequestTracker::Finish(ts)] *)
Definition track_finish (data_ : list bool) (ts : Z) : outcome (list bool) :=
  _ ← check (0 <=? ts)%Z;
  _ ← check (ts <? 100000000)%Z;
  let n := Z.to_nat ts in
  let data_ := if decide (length data_ <= n) then resize (n * 2 + 5) false data_ else data_ in
  write_at data_ n true.

(** ** Nodes *)

(** [struct RemoteNode]: the node, its trackers and its group. *)
Record RemoteNode := mkRNode {
  rn_node : Node; alive : bool; sent_req_tracker : list bool; recv_req_tracker : list bool; rn_group : Group }.

Definition new_RemoteNode (n : Node) : RemoteNode := mkRNode n true [] [] (mkGroup [] []).

Definition kServerGroup : NodeID := "all_servers".
Definition kWorkerGroup : NodeID := "all_workers".
Definition kCompGroup : NodeID := "all_comp_nodes".
Definition kReplicaGroup : NodeID := "all_replicas".
Definition kOwnerGroup : NodeID := "all_owners".
Definition kLiveGroup : NodeID := "all_lives".

(** [GroupIDs()] *)
Definition GroupIDs : list NodeID := [kServerGroup; kWorkerGroup; kCompGroup; kReplicaGroup; kOwnerGroup; kLiveGroup].

(** What a node keeps of a request it sent: the receiver, and whether the
    callback is still to be run. *)
Record ReqInfo := mkReq { recver : NodeID; callback : bool }.

(** [class Executor] *)
Record Executor := mkExec {
  nodes_ : gmap string RemoteNode; my_id : NodeID; my_role : Role; num_replicas_ : nat;
  time_ : Z; sent_reqs_ : gmap Z ReqInfo }.

Definition set_nodes (ns : gmap string RemoteNode) (st : Executor) : Executor :=
  mkExec ns st.(my_id) st.(my_role) st.(num_replicas_) st.(time_) st.(sent_reqs_).
Definition set_reqs (rs : gmap Z ReqInfo) (st : Executor) : Executor :=
  mkExec st.(nodes_) st.(my_id) st.(my_role) st.(num_replicas_) st.(time_) rs.

(** [GetRNode(node_id)] *)
Definition GetRNode (st : Executor) (id : NodeID) : outcome RemoteNode :=
  match st.(nodes_) !! id with Some r => Ok r | None => Fail CheckFailed end.

Definition tracker_of (sent : bool) (r : RemoteNode) : list bool := if sent then r.(sent_req_tracker) else r.(recv_req_tracker).

(** [tracker.Finish(ts)] of the node [id]. *)
Definition finish_node (sent : bool) (id : NodeID) (ts : Z) (st : Executor) : outcome Executor :=
  r ← GetRNode st id;
  tr ← track_finish (tracker_of sent r) ts;
  let r := if sent then mkRNode r.(rn_node) r.(alive) tr r.(recv_req_tracker) r.(rn_group)
           else mkRNode r.(rn_node) r.(alive) r.(sent_req_tracker) tr r.(rn_group) in
  Ok (set_nodes (<[id := r]> st.(nodes_)) st).

(** The loop of [CheckFinished] over a group. *)
Fixpoint check_group (sent : bool) (ids : list NodeID) (ts : Z) (st : Executor) : outcome (bool * Executor) :=
  match ids with
  | [] => Ok (true, st)
  | id :: ids =>
      r ← GetRNode st id;
      if r.(alive) && negb (IsFinished (tracker_of sent r) ts) then Ok (false, st)
      else st ← finish_node sent id ts st; check_group sent ids ts st
  end.

(** [CheckFinished(rnode, timestamp, sent)] *)
Definition CheckFinished (id : NodeID) (ts : Z) (sent : bool) (st : Executor) : outcome (bool * Executor) :=
  r ← GetRNode st id;
  if (ts <? 0)%Z then Ok (true, st)
  else if negb r.(alive) || IsFinished (tracker_of sent r) ts then Ok (true, st)
  else match r.(rn_node).(role) with
       | GROUP => check_group sent r.(rn_group).(group) ts st
       | _ => Ok (false, st)
       end.

(** [NumFinished(rnode, timestamp, sent)] *)
Definition NumFinished (id : NodeID) (ts : Z) (sent : bool) (st : Executor) : outcome nat :=
  r ← GetRNode st id;
  if (ts <? 0)%Z || negb r.(alive) then Ok 0
  else match r.(rn_node).(role) with
       | GROUP =>
           foldM (fun fin i =>
             x ← GetRNode st i;
             Ok (if x.(alive) && IsFinished (tracker_of sent x) ts then fin + 1 else fin)) r.(rn_group).(group) 0
       | _ => Ok (if IsFinished (tracker_of sent r) ts then 1 else 0)
       end.

(** The condition [WaitSentReq(timestamp)] waits for. *)
Definition WaitSentReq (ts : Z) (st : Executor) : outcome (bool * Executor) :=
  let to := match st.(sent_reqs_) !! ts with Some r => r.(recver) | None => "" end in
  _ ← check (negb (bool_decide (to = "")));
  CheckFinished to ts true st.

(** [FinishRecvReq(timestamp, sender)] *)
Definition FinishRecvReq (ts : Z) (sender : NodeID) (st : Executor) : outcome Executor :=
  r ← GetRNode st sender;
  st ← finish_node false sender ts st;
  match r.(rn_node).(role) with
  | GROUP => foldM (fun st i => finish_node false i ts st) r.(rn_group).(group) st
  | _ => Ok st
  end.

(** ** Sending a request *)

(** The loop of [Submit] over the pieces: a piece that is not valid is done,
    the others are queued. *)
Fixpoint send_pieces (ts : Z) (ids : list NodeID) (msgs : list Msg) (st : Executor) : outcome (Executor * list (NodeID * Msg)) :=
  match msgs, ids with
  | [], _ => Ok (st, [])
  | m :: msgs, id :: ids =>
      if m.(valid) then
        _ ← GetRNode st id;
        '(st, q) ← send_pieces ts ids msgs st; Ok (st, (id, m) :: q)
      else st ← finish_node true id ts st; send_pieces ts ids msgs st
  | _ :: _, [] => Fail OutOfRange
  end.

(** [Submit(msg)]: [to] is the receiver, [cb] says whether there is a callback,
    [slice] is the customer's [Slice]. *)
Definition Submit (slice : Msg -> list Range -> list Msg -> outcome (list Msg)) (to : NodeID) (cb : bool) (msg : Msg) (st : Executor)
    : outcome (Z * Executor * list (NodeID * Msg)) :=
  _ ← check (negb (bool_decide (to = "")));
  let t := msg.(task) in
  let ts := default st.(time_) t.(time) in
  let tk := mkTask (Some ts) t.(key_range) t.(key_channel) t.(has_key_) t.(key_type) t.(value_type) t.(push) t.(dyn_val_size) in
  let msg := mkM tk msg.(key) msg.(value) msg.(valid) in
  let old := default (mkReq "" false) (st.(sent_reqs_) !! ts) in
  let reqs := <[ts := mkReq to (if cb then true else old.(callback))]> st.(sent_reqs_) in
  let st := mkExec st.(nodes_) st.(my_id) st.(my_role) st.(num_replicas_) (ts + 1) reqs in
  r ← GetRNode st to;
  msgs ← slice msg r.(rn_group).(keys) (replicate (length r.(rn_group).(keys)) (new_Message tk));
  _ ← check (bool_decide (length msgs = length r.(rn_group).(group)));
  '(st, q) ← send_pieces ts r.(rn_group).(group) msgs st;
  Ok (ts, st, q).

(** ** Receiving *)

(** A received message: who sent it, request or response, its timestamp and
    the requests it waits for. *)
Record Recv := mkRecv { r_sender : NodeID; r_request : bool; r_time : Z; r_wait : list Z }.

(** The dependency check on a request: [wait_time] below 0 is no constraint. *)
Definition deps_met (r : RemoteNode) (ws : list Z) : bool :=
  forallb (fun w => (w <=? -1)%Z || IsFinished r.(recv_req_tracker) w) ws.

(** One call of [PickActiveMsg]: the message to process and the others; no
    message; or, when a message comes from a node that is not known yet, a loop
    that does not leave this message. *)
Inductive pick := Picked (m : Recv) (rest : list Recv) | Nothing (rest : list Recv) | Spins.

Fixpoint PickActiveMsg (st : Executor) (skipped msgs : list Recv) : pick :=
  match msgs with
  | [] => Nothing skipped
  | m :: msgs =>
      match st.(nodes_) !! m.(r_sender) with
      | None => Spins
      | Some r =>
          if negb r.(alive) then PickActiveMsg st skipped msgs
          else if IsFinished (tracker_of (negb m.(r_request)) r) m.(r_time) then PickActiveMsg st skipped msgs
          else if m.(r_request) && negb (deps_met r m.(r_wait)) then PickActiveMsg st (skipped ++ [m]) msgs
          else Picked m (skipped ++ msgs)
      end
  end.

(** [ProcessActiveMsg] on a response: the callback runs if [true]. *)
Definition process_response (m : Recv) (st : Executor) : outcome (Executor * bool) :=
  let ts := m.(r_time) in
  st ← finish_node true m.(r_sender) ts st;
  req ← (match st.(sent_reqs_) !! ts with Some q => Ok q | None => Fail CheckFailed end);
  '(go, st) ← (if decide (req.(recver) = m.(r_sender)) then Ok (true, st) else
    o ← GetRNode st req.(recver);
    match o.(rn_node).(role) with
    | GROUP =>
        all ← foldM (fun all i =>
                r ← GetRNode st i;
                Ok (all && negb (r.(alive) && negb (IsFinished r.(sent_req_tracker) ts)))) o.(rn_group).(group) true;
        if all : bool then st ← finish_node true req.(recver) ts st; Ok (true, st) else Ok (false, st)
    | _ => Ok (true, st)
    end);
  if go : bool then Ok (set_reqs (<[ts := mkReq req.(recver) false]> st.(sent_reqs_)) st, req.(callback)) else Ok (st, false).

(** [ProcessActiveMsg] on a request that the customer has processed: [finished]
    and [replied] are the flags it left; the result says whether an empty
    acknowledgement is sent. *)
Definition process_request (m : Recv) (finished replied : bool) (st : Executor) : outcome (Executor * bool) :=
  if finished then st ← FinishRecvReq m.(r_time) m.(r_sender) st; Ok (st, negb replied)
  else Ok (st, false).

(** ** Nodes that come and go *)

Definition with_group (f : Group -> outcome Group) (id : NodeID) (st : Executor) : outcome Executor :=
  let r := default (new_RemoteNode (mkNode SERVER 0 (mkRange 0 0))) (st.(nodes_) !! id) in
  g ← f r.(rn_group);
  Ok (set_nodes (<[id := mkRNode r.(rn_node) r.(alive) r.(sent_req_tracker) r.(recv_req_tracker) g]> st.(nodes_)) st).

Definition remove_everywhere (id : NodeID) (st : Executor) : outcome Executor :=
  foldM (fun st gid => with_group (RemoveGroupNode id) gid st) GroupIDs st.

Definition add_to (ids : list NodeID) (id : NodeID) (kr : Range) (st : Executor) : outcome Executor :=
  foldM (fun st gid => with_group (fun g => Ok (AddGroupNode id kr g)) gid st) ids st.

(** The neighbours of this server: both groups are the servers before it. *)
Definition update_replicas (st : Executor) : Executor :=
  match st.(nodes_) !! kServerGroup with
  | None => st
  | Some sg =>
      match list_find (fun i => i = st.(my_id)) sg.(rn_group).(group) with
      | None => st
      | Some (i, _) =>
          let lo := i - st.(num_replicas_) in
          let g := mkGroup (segment lo i sg.(rn_group).(group)) (segment lo i sg.(rn_group).(keys)) in
          let put st gid :=
            let r := default (new_RemoteNode (mkNode GROUP 0 (mkRange 0 0))) (st.(nodes_) !! gid) in
            set_nodes (<[gid := mkRNode r.(rn_node) r.(alive) r.(sent_req_tracker) r.(recv_req_tracker) g]> st.(nodes_)) st in
          put (put st kReplicaGroup) kOwnerGroup
      end
  end.

(** [AddNode(node)] *)
Definition AddNode (id : NodeID) (n : Node) (st : Executor) : outcome Executor :=
  let st := if decide (id = st.(my_id)) then mkExec st.(nodes_) id n.(role) st.(num_replicas_) st.(time_) st.(sent_reqs_) else st in
  st ← (match st.(nodes_) !! id with
        | Some r =>
            _ ← check r.(alive);
            remove_everywhere id (set_nodes (<[id := mkRNode n r.(alive) r.(sent_req_tracker) r.(recv_req_tracker) r.(rn_group)]> st.(nodes_)) st)
        | None => Ok (set_nodes (<[id := new_RemoteNode n]> st.(nodes_)) st)
        end);
  st ← (match n.(role) with
        | GROUP => Ok st
        | SERVER => add_to [id; kLiveGroup; kServerGroup; kCompGroup] id n.(node_key) st
        | WORKER => add_to [id; kLiveGroup; kWorkerGroup; kCompGroup] id n.(node_key) st
        | _ => add_to [id; kLiveGroup] id n.(node_key) st
        end);
  match n.(role), st.(my_role) with
  | SERVER, SERVER => if decide (st.(num_replicas_) <= 0) then Ok st else Ok (update_replicas st)
  | _, _ => Ok st
  end.

(** [RemoveNode(node)] *)
Definition RemoveNode (id : NodeID) (st : Executor) : outcome Executor :=
  match st.(nodes_) !! id with
  | None => Ok st
  | Some _ =>
      st ← remove_everywhere id st;
      r ← GetRNode st id;
      Ok (set_nodes (<[id := mkRNode r.(rn_node) false r.(sent_req_tracker) r.(recv_req_tracker) r.(rn_group)]> st.(nodes_)) st)
  end.

(** The constructor: the group nodes are added first. *)
Definition new_Executor (my : NodeID) (my_role : Role) : outcome Executor :=
  foldM (fun st gid => AddNode gid (mkNode GROUP 0 (mkRange 0 0)) st) GroupIDs (mkExec ∅ my my_role 0 0 ∅).

(** ** Trackers *)

Lemma track_finish_ok tr ts :
  (0 <= ts < 100000000)%Z ->
  exists tr', track_finish tr ts = Ok tr' /\ forall t, IsFinished tr' t = IsFinished tr t || (t =? ts)%Z.
Proof.
  intros Hts. unfold track_finish. rewrite !check_true by lia. cbn [mbind outcome_bind].
  set (n := Z.to_nat ts). set (d := if decide (length tr <= n) then resize (n * 2 + 5) false tr else tr).
  assert (n < length d) as Hn by (unfold d; case_decide; rewrite ?length_resize; lia).
  rewrite write_at_lt by done. eexists. split; [done|]. intros t. unfold IsFinished.
  destruct (Z.ltb_spec t 0) as [Hneg|Hpos]; [done|]. cbn [orb].
  destruct (Z.eqb_spec t ts) as [->|Hne].
  - rewrite list_lookup_insert_eq by done. by rewrite orb_true_r.
  - rewrite list_lookup_insert_ne by (unfold n; lia). rewrite orb_false_r.
    unfold d. case_decide as Hl; [|done].
    destruct (decide (Z.to_nat t < length tr)) as [Hlt|Hge].
    + rewrite lookup_resize by lia. done.
    + rewrite (lookup_ge_None_2 tr) by lia. destruct (decide (Z.to_nat t < n * 2 + 5)) as [Hr|Hr].
      * by rewrite lookup_resize_new by lia.
      * by rewrite lookup_resize_old by lia.
Qed.

Lemma GetRNode_ok st id r : st.(nodes_) !! id = Some r -> GetRNode st id = Ok r.
Proof. intros E. unfold GetRNode. by rewrite E. Qed.

(** ** A request to a group *)

Section Request.
Context (gid : NodeID) (srv : list NodeID) (krs : list Range) (ts : Z).
Hypothesis Hts : (0 <= ts < 100000000)%Z.
Hypothesis Hgid : gid ∉ srv.

(** The nodes of the group are alive, and those that are done are [done]. *)
Record tracked (done : list NodeID) (st : Executor) : Prop := {
  tk_group : exists g, st.(nodes_) !! gid = Some g /\ g.(rn_node).(role) = GROUP /\ g.(alive) = true /\ g.(rn_group) = mkGroup srv krs /\
               (IsFinished g.(sent_req_tracker) ts = true -> srv ⊆ done);
  tk_nodes : forall id, id ∈ srv -> exists r, st.(nodes_) !! id = Some r /\ r.(alive) = true /\
               (IsFinished r.(sent_req_tracker) ts = true <-> id ∈ done) }.

Lemma finish_tracked done id st :
  id ∈ srv -> tracked done st ->
  exists st', finish_node true id ts st = Ok st' /\ tracked (id :: done) st' /\ st'.(sent_reqs_) = st.(sent_reqs_).
Proof.
  intros Hid [(g & Hg & Hrole & Hal & Hgr & Hgf) Hn]. destruct (Hn id Hid) as (r & Hr & Ha & Hf).
  unfold finish_node, GetRNode. rewrite Hr. cbn [mbind outcome_bind tracker_of].
  destruct (track_finish_ok r.(sent_req_tracker) ts Hts) as (tr & -> & Htr). cbn [mbind outcome_bind].
  eexists. split; [done|]. split; [|done]. split; cbn [nodes_ set_nodes].
  - exists g. rewrite lookup_insert_ne by (intros ->; done). split; [done|]. split; [done|]. split; [done|]. split; [done|].
    intros Hfin. specialize (Hgf Hfin). set_solver.
  - intros id' Hid'. destruct (decide (id' = id)) as [->|Hne].
    + rewrite lookup_insert_eq. eexists. split; [done|]. cbn. split; [done|]. rewrite Htr, Z.eqb_refl, orb_true_r. set_solver.
    + rewrite lookup_insert_ne by done. destruct (Hn id' Hid') as (r' & Hr' & Ha' & Hf'). exists r'. split; [done|]. split; [done|].
      rewrite Hf'. set_solver.
Qed.

Lemma tracked_ext d1 d2 st : (forall id, id ∈ srv -> id ∈ d1 <-> id ∈ d2) -> tracked d1 st -> tracked d2 st.
Proof.
  intros He [(g & Hg & Hrole & Hal & Hgr & Hgf) Hn]. split.
  - exists g. split; [done|]. split; [done|]. split; [done|]. split; [done|].
    intros Hf. specialize (Hgf Hf). intros id Hid. apply He; [done|]. by apply Hgf.
  - intros id Hid. destruct (Hn id Hid) as (r & Hr & Ha & Hf). exists r. split; [done|]. split; [done|]. rewrite Hf. by apply He.
Qed.

(** Sending the pieces marks the ones that are not sent. *)
Lemma send_pieces_ok pieces ids done st :
  Forall (fun id => id ∈ srv) ids -> length pieces = length ids -> tracked done st ->
  exists st', send_pieces ts ids pieces st =
      Ok (st', filter (fun p => valid p.2 = true) (zip ids pieces)) /\
    tracked (done ++ map fst (filter (fun p => valid p.2 = false) (zip ids pieces))) st' /\ st'.(sent_reqs_) = st.(sent_reqs_).
Proof.
  revert ids done st. induction pieces as [|m pieces IH]; intros [|id ids] done st Hids Hl Htr; cbn in Hl; try discriminate Hl.
  { exists st. cbn. rewrite app_nil_r. done. }
  apply Forall_cons in Hids as [Hid Hids]. cbn in Hl. cbn [send_pieces zip zip_with]. rewrite !filter_cons. cbn [snd].
  destruct (valid m) eqn:Ev.
  - destruct (tk_nodes _ _ Htr id Hid) as (r & Hr & _). unfold GetRNode. rewrite Hr. cbn [mbind outcome_bind].
    destruct (IH ids done st Hids) as (st' & -> & H1 & H2); [lia|done|]. cbn [mbind outcome_bind].
    exists st'. rewrite decide_True by done. rewrite decide_False by done. done.
  - destruct (finish_tracked done id st Hid Htr) as (st1 & -> & Htr1 & Hq). cbn [mbind outcome_bind].
    destruct (IH ids (id :: done) st1 Hids) as (st' & E' & H1 & H2); [lia|done|].
    exists st'. rewrite decide_False by done. rewrite decide_True by done. cbn [map fst]. split; [exact E'|]. split; [|congruence].
    eapply tracked_ext; [|exact H1]. intros x _. set_solver.
Qed.

(** The loop over the group: have all answered? *)
Lemma all_finished done ids st b :
  Forall (fun id => id ∈ srv) ids -> tracked done st ->
  foldM (fun all i => r ← GetRNode st i; Ok (all && negb (alive r && negb (IsFinished (sent_req_tracker r) ts)))) ids b
  = Ok (b && forallb (fun id => bool_decide (id ∈ done)) ids).
Proof.
  intros Hids Htr. revert b. induction Hids as [|id ids Hid Hids IH]; intros b; cbn [foldM forallb].
  { by rewrite andb_true_r. }
  destruct (tk_nodes _ _ Htr id Hid) as (r & Hr & Ha & Hf). rewrite (GetRNode_ok st id r Hr). cbn [mbind outcome_bind].
  setoid_rewrite IH. rewrite Ha. cbn [andb]. rewrite negb_involutive, andb_assoc. do 3 f_equal.
  destruct (IsFinished (sent_req_tracker r) ts); symmetry; [apply bool_decide_true, Hf; done|].
  apply bool_decide_false. intros Hin. apply Hf in Hin. done.
Qed.

Lemma forallb_subset done : forallb (fun id => bool_decide (id ∈ done)) srv = bool_decide (srv ⊆ done).
Proof.
  apply eq_true_iff_eq. rewrite forallb_forall, bool_decide_eq_true. split.
  - intros H id Hid. apply list_elem_of_In, H, bool_decide_eq_true in Hid. done.
  - intros H id Hid. apply bool_decide_eq_true, H, list_elem_of_In, Hid.
Qed.

Definition awaited (done : list NodeID) (st : Executor) : Prop :=
  tracked done st /\ st.(sent_reqs_) !! ts = Some (mkReq gid (negb (bool_decide (srv ⊆ done)))).

(** A node that has not answered answers. *)
Lemma response_ok done id st :
  id ∈ srv -> id ∉ done -> awaited done st ->
  exists st', process_response (mkRecv id false ts []) st = Ok (st', bool_decide (srv ⊆ id :: done)) /\ awaited (id :: done) st'.
Proof.
  intros Hid Hnd [Htr Hq]. unfold process_response. cbn [r_time r_sender].
  rewrite (bool_decide_false (srv ⊆ done)) in Hq by (intros H; by apply Hnd, H). cbn [negb] in Hq.
  destruct (finish_tracked done id st Hid Htr) as (st1 & -> & Htr1 & Hq1). cbn [mbind outcome_bind]. rewrite Hq1, Hq. cbn [mbind outcome_bind recver].
  rewrite decide_False by (intros ->; done).
  destruct (tk_group _ _ Htr1) as (g & Hg & Hrole & Hal & Hgr & Hgf). rewrite (GetRNode_ok st1 gid g Hg). cbn [mbind outcome_bind].
  rewrite Hrole, Hgr. cbn [group].
  rewrite (all_finished (id :: done) srv st1 true) by (try done; by apply Forall_forall). cbn [mbind outcome_bind andb].
  rewrite forallb_subset.
  case_bool_decide as Hall; cbn [mbind outcome_bind].
  - unfold finish_node, GetRNode. rewrite Hg. cbn [mbind outcome_bind tracker_of].
    destruct (track_finish_ok g.(sent_req_tracker) ts Hts) as (tr & -> & Ht). cbn [mbind outcome_bind].
    eexists. split; [done|]. split.
    + split; cbn [nodes_ set_nodes set_reqs].
      * eexists. split; [apply lookup_insert_eq|]. cbn. done.
      * intros id' Hid'. rewrite lookup_insert_ne by (intros ->; done). exact (tk_nodes _ _ Htr1 id' Hid').
    + cbn [sent_reqs_ set_reqs]. by rewrite lookup_insert_eq, bool_decide_true by done.
  - eexists. split; [done|]. split; [done|]. by rewrite Hq1, Hq, bool_decide_false by done.
Qed.

(** What arrives from node [id] is picked and processed; a second answer is
    ignored.  The result counts the runs of the callback. *)
Definition receive (st : Executor * nat) (id : NodeID) : outcome (Executor * nat) :=
  match PickActiveMsg st.1 [] [mkRecv id false ts []] with
  | Picked m _ => '(st', cb) ← process_response m st.1; Ok (st', st.2 + if cb : bool then 1 else 0)
  | Nothing _ => Ok st
  | Spins => Fail CheckFailed
  end.

Lemma receive_ok done id st n :
  id ∈ srv -> awaited done st ->
  exists st', receive (st, n) id = Ok (st', n + if decide (id ∈ done) then 0 else if bool_decide (srv ⊆ id :: done) then 1 else 0) /\
    awaited (id :: done) st'.
Proof.
  intros Hid [Htr Hq]. unfold receive. cbn [PickActiveMsg fst snd r_sender r_request r_time negb tracker_of andb].
  destruct (tk_nodes _ _ Htr id Hid) as (r & Hr & Ha & Hf). rewrite Hr, Ha. cbn [negb].
  destruct (decide (id ∈ done)) as [Hd|Hd].
  - rewrite (proj2 Hf Hd). exists st. rewrite Nat.add_0_r. split; [done|]. split.
    + eapply tracked_ext; [|exact Htr]. intros x _. set_solver.
    + rewrite Hq. do 3 f_equal. apply bool_decide_ext. set_solver.
  - rewrite (not_true_is_false (IsFinished (sent_req_tracker r) ts)) by (intros Ef; by apply Hf in Ef).
    destruct (response_ok done id st Hid Hd (conj Htr Hq)) as (st' & -> & Haw). cbn [mbind outcome_bind]. by exists st'.
Qed.

(** How often the callback has run after the answers [resp]. *)
Lemma receive_all resp done st n :
  Forall (fun id => id ∈ srv) resp -> awaited done st ->
  exists st', foldM receive resp (st, n) =
      Ok (st', n + if decide (srv ⊆ done) then 0 else if decide (srv ⊆ resp ++ done) then 1 else 0) /\
    awaited (rev resp ++ done) st'.
Proof.
  revert done st n. induction resp as [|id resp IH]; intros done st n Hr Haw; cbn [foldM rev app].
  { exists st. repeat case_decide; rewrite ?Nat.add_0_r; done. }
  apply Forall_cons in Hr as [Hid Hr].
  destruct (receive_ok done id st n Hid Haw) as (st1 & E1 & Haw1). setoid_rewrite E1. cbn [mbind outcome_bind].
  destruct (IH (id :: done) st1 (n + (if decide (id ∈ done) then 0 else if bool_decide (srv ⊆ id :: done) then 1 else 0)) Hr Haw1)
    as (st2 & E2 & Haw2).
  exists st2. rewrite <- app_assoc. split; [|exact Haw2]. etransitivity; [exact E2|].
  match goal with |- Ok (_, ?x) = Ok (_, ?y) => enough (x = y) as -> by done end.
  change ((id :: resp) ++ done) with (id :: resp ++ done).
  assert (srv ⊆ id :: resp ++ done <-> srv ⊆ resp ++ id :: done) as Hsame by set_solver.
  destruct (decide (id ∈ done)) as [Hd|Hd].
  - assert (srv ⊆ id :: done <-> srv ⊆ done) as Hs2 by set_solver. repeat case_decide; first [lia | exfalso; tauto].
  - rewrite (decide_False (P := srv ⊆ done)) by (intros H; by apply Hd, H).
    assert (srv ⊆ id :: done -> srv ⊆ resp ++ id :: done) as Hmore by set_solver.
    destruct (decide (srv ⊆ id :: done)) as [H1|H1]; [rewrite (bool_decide_true _ H1)|rewrite (bool_decide_false _ H1)];
      repeat case_decide; first [lia | exfalso; tauto].
Qed.

(** What [Wait] sees. *)
Lemma check_group_ok done ids st :
  Forall (fun id => id ∈ srv) ids -> tracked done st ->
  exists st', check_group true ids ts st = Ok (forallb (fun id => bool_decide (id ∈ done)) ids, st').
Proof.
  intros Hids. revert st. induction Hids as [|id ids Hid Hids IH]; intros st Htr; cbn [check_group forallb].
  { by exists st. }
  destruct (tk_nodes _ _ Htr id Hid) as (r & Hr & Ha & Hf). rewrite (GetRNode_ok st id r Hr). cbn [mbind outcome_bind tracker_of].
  rewrite Ha. cbn [andb]. destruct (decide (id ∈ done)) as [Hd|Hd].
  - rewrite (proj2 Hf Hd). cbn [negb]. destruct (finish_tracked done id st Hid Htr) as (st1 & -> & Htr1 & _). cbn [mbind outcome_bind].
    rewrite bool_decide_true by done. cbn [andb]. apply IH. eapply tracked_ext; [|exact Htr1]. intros x _. set_solver.
  - rewrite (not_true_is_false (IsFinished (sent_req_tracker r) ts)) by (intros Ef; by apply Hf in Ef). cbn [negb].
    rewrite bool_decide_false by done. by exists st.
Qed.

Lemma wait_ok done st : gid <> "" -> awaited done st -> exists st', WaitSentReq ts st = Ok (bool_decide (srv ⊆ done), st').
Proof.
  intros Hne [Htr Hq]. unfold WaitSentReq. rewrite Hq. cbn [recver]. rewrite bool_decide_false by done. cbn [negb check mbind outcome_bind].
  destruct (tk_group _ _ Htr) as (g & Hg & Hrole & Hal & Hgr & Hgf). unfold CheckFinished.
  rewrite (GetRNode_ok st gid g Hg). cbn [mbind outcome_bind tracker_of].
  destruct (Z.ltb_spec ts 0); [lia|]. rewrite Hal. cbn [negb orb].
  destruct (IsFinished (sent_req_tracker g) ts) eqn:Ef.
  - exists st. by rewrite bool_decide_true by by apply Hgf.
  - rewrite Hrole, Hgr. cbn [group].
    destruct (check_group_ok done srv st) as (st' & ->); [by apply Forall_forall|done|]. exists st'. by rewrite forallb_subset.
Qed.

End Request.

(** The nodes of the pieces that are sent, and those that are done at once. *)
Lemma sent_and_done (srv : list NodeID) (pieces : list Msg) :
  NoDup srv -> length pieces = length srv ->
  let q := filter (fun p => valid p.2 = true) (zip srv pieces) in
  let done := map fst (filter (fun p => valid p.2 = false) (zip srv pieces)) in
  (forall id, id ∈ map fst q -> id ∈ srv) /\ (forall l, srv ⊆ l ++ done <-> map fst q ⊆ l).
Proof.
  intros Hnd Hlen q done.
  assert (forall id, id ∈ map fst q -> id ∈ srv) as Hqs.
  { intros id Hi. apply list_elem_of_fmap in Hi as ([i p] & -> & Hi). apply list_elem_of_filter in Hi as [_ Hi]. by apply elem_of_zip_l in Hi. }
  split; [done|]. intros l. split.
  - intros H id Hi. destruct (proj1 (elem_of_app _ _ _) (H id (Hqs id Hi))) as [?|Hd]; [done|]. exfalso.
    apply list_elem_of_fmap in Hi as ([i1 p1] & -> & Hi1). apply list_elem_of_fmap in Hd as ([i2 p2] & E2 & Hi2).
    cbn in E2. subst i2. apply list_elem_of_filter in Hi1 as [Hv1 Hi1]. apply list_elem_of_filter in Hi2 as [Hv2 Hi2].
    apply list_elem_of_lookup in Hi1 as [j1 H1]. apply list_elem_of_lookup in Hi2 as [j2 H2].
    apply lookup_zip_Some in H1 as [H1 H1']. apply lookup_zip_Some in H2 as [H2 H2']. cbn in *.
    assert (j1 = j2) as <- by by eapply NoDup_lookup. rewrite H1' in H2'. congruence.
  - intros H id [i Hi]%list_elem_of_lookup. apply elem_of_app. destruct (lookup_lt_is_Some_2 pieces i) as [p Hp].
    { rewrite Hlen. by eapply lookup_lt_Some. }
    assert ((id, p) ∈ zip srv pieces) as Hin by (eapply list_elem_of_lookup_2; by apply lookup_zip_Some).
    destruct (valid p) eqn:Ev; [left; apply H|right]; apply list_elem_of_fmap; exists (id, p); (split; [done|]);
      apply list_elem_of_filter; done.
Qed.

Lemma some_sent (srv : list NodeID) (pieces : list Msg) :
  length pieces = length srv -> Exists (fun p => valid p = true) pieces ->
  exists x, x ∈ map fst (filter (fun p => valid p.2 = true) (zip srv pieces)).
Proof.
  intros Hlen (p & Hp & Hv)%Exists_exists. apply list_elem_of_lookup in Hp as [i Hi].
  destruct (lookup_lt_is_Some_2 srv i) as [id Hid]; [rewrite <- Hlen; by eapply lookup_lt_Some|].
  exists id. apply list_elem_of_fmap. exists (id, p). split; [done|]. apply list_elem_of_filter. split; [done|].
  eapply list_elem_of_lookup_2. by apply lookup_zip_Some.
Qed.

(** C18: A request with a callback to a group of nodes, at a timestamp that is
    new to them: the pieces to be sent are queued for their nodes; whatever
    answers of these nodes arrive, in whatever order and however often each, the
    callback runs once if all of them have answered and not at all otherwise,
    and [Wait] goes on exactly when all have answered. *)
Theorem callback_runs_once slice gid srv krs msg pieces st :
  let ts := default st.(time_) msg.(task).(time) in
  let tk := mkTask (Some ts) msg.(task).(key_range) msg.(task).(key_channel) msg.(task).(has_key_) msg.(task).(key_type)
              msg.(task).(value_type) msg.(task).(push) msg.(task).(dyn_val_size) in
  (0 <= ts < 100000000)%Z -> gid ∉ srv -> gid <> "" -> NoDup srv -> tracked gid srv krs ts [] st ->
  slice (mkM tk msg.(key) msg.(value) msg.(valid)) krs (replicate (length krs) (new_Message tk)) = Ok pieces ->
  length pieces = length srv -> Exists (fun p => valid p = true) pieces ->
  exists st1 q, Submit slice gid true msg st = Ok (ts, st1, q) /\
    q = filter (fun p => valid p.2 = true) (zip srv pieces) /\
    forall resp, Forall (fun id => id ∈ map fst q) resp ->
      exists st2 st3, foldM (receive ts) resp (st1, 0) = Ok (st2, if decide (map fst q ⊆ resp) then 1 else 0) /\
        WaitSentReq ts st2 = Ok (bool_decide (map fst q ⊆ resp), st3).
Proof.
  intros ts tk Hts Hgid Hg0 Hnd Htr Hslice Hlen Hex.
  unfold Submit. fold ts. rewrite bool_decide_false by done. cbn [negb check mbind outcome_bind]. fold tk.
  set (st0 := mkExec _ _ _ _ _ _).
  assert (tracked gid srv krs ts [] st0) as Htr0 by (destruct Htr; split; done).
  destruct (tk_group _ _ _ _ _ _ Htr0) as (g & Hg & _ & _ & Hgr & _).
  rewrite (GetRNode_ok st0 gid g Hg). cbn [mbind outcome_bind]. rewrite Hgr. cbn [keys group]. rewrite Hslice. cbn [mbind outcome_bind].
  rewrite bool_decide_true by done. cbn [check mbind outcome_bind].
  destruct (send_pieces_ok gid srv krs ts Hts Hgid pieces srv [] st0) as (st1 & -> & Htr1 & Hq1); [by apply Forall_forall|done|done|].
  cbn [mbind outcome_bind app] in *. eexists _, _. split; [done|]. split; [done|].
  pose proof (sent_and_done srv pieces Hnd Hlen) as [Hqs Hsub].
  set (q := filter (fun p => valid p.2 = true) (zip srv pieces)) in *.
  set (done := map fst (filter (fun p => valid p.2 = false) (zip srv pieces))) in *.
  assert (~ srv ⊆ done) as Hnot.
  { intros H. specialize (proj1 (Hsub []) H). intros Hq. destruct (some_sent srv pieces Hlen Hex) as [x Hx].
    specialize (Hq x Hx). by apply not_elem_of_nil in Hq. }
  intros resp Hresp.
  destruct (receive_all gid srv krs ts Hts Hgid resp done st1 0) as (st2 & E2 & Haw2).
  { eapply Forall_impl; [exact Hresp|]. exact Hqs. }
  { split; [done|]. rewrite Hq1. unfold st0. cbn [sent_reqs_]. rewrite lookup_insert_eq, bool_decide_false by done. done. }
  destruct (wait_ok gid srv krs ts Hts Hgid _ st2 Hg0 Haw2) as (st3 & E3).
  exists st2, st3. split.
  - rewrite E2. do 2 f_equal. rewrite decide_False by done. rewrite Nat.add_0_l.
    pose proof (Hsub resp). repeat case_decide; tauto.
  - rewrite E3. do 2 f_equal. apply bool_decide_ext. rewrite <- Hsub.
    assert (forall id, id ∈ rev resp ++ done <-> id ∈ resp ++ done) as Hrev.
    { intros id. rewrite !elem_of_app, !list_elem_of_In, <- in_rev. done. }
    split; intros H id Hi; apply Hrev, H, Hi.
Qed.

(** A worker that knows two servers. *)
Definition ex_executor : outcome Executor :=
  st ← new_Executor "W0" WORKER;
  st ← AddNode "S1" (mkNode SERVER 1 (mkRange 100 200)) st;
  AddNode "S0" (mkNode SERVER 0 (mkRange 0 100)) st.

Definition ex_slice (m : Msg) (krs : list Range) (rets : list Msg) : outcome (list Msg) :=
  SliceMessage m krs rets m.(task).(dyn_val_size).

Definition ex_pull : Msg :=
  mkM (mkTask None (Some All) 0 true (Some UINT64) [] false false) (pod_memory (H := pod_key) [3; 150]%Z) [] true.

Definition request_piece (k : Z) : Msg :=
  mkM (mkTask (Some 0%Z) (Some All) 0 true (Some UINT64) [] false false) (pod_memory (H := pod_key) [k]) [] true.

(** The two servers answer, one of them twice. *)
Lemma callback_runs_once_witness :
  exists st st1 st2 st3 q, ex_executor = Ok st /\
    Submit ex_slice kServerGroup true ex_pull st = Ok (0%Z, st1, q) /\ map fst q = ["S0"; "S1"] /\
    foldM (receive 0) ["S1"; "S1"; "S0"] (st1, 0) = Ok (st2, 1) /\ WaitSentReq 0 st2 = Ok (true, st3).
Proof.
  assert (["S0"; "S1"] ⊆ ["S1"; "S1"; "S0"]) as Hsub by set_solver.
  destruct ex_executor as [st|] eqn:Est; [|vm_compute in Est; discriminate].
  vm_compute in Est. injection Est as <-.
  match goal with |- context [@Ok Executor ?s] => set (st := s) end.
  destruct (callback_runs_once ex_slice kServerGroup ["S0"; "S1"] ex_ranges ex_pull
    [request_piece 3; request_piece 150] st) as (st1 & q & E1 & Hq & Hresp).
  - cbn. lia.
  - intros Hin. set_solver.
  - done.
  - repeat constructor; set_solver.
  - split.
    + eexists. split; [reflexivity|]. repeat split. cbn. done.
    + intros id Hid. repeat (apply elem_of_cons in Hid as [->|Hid]; [eexists; split; [reflexivity|]; split; [done|]; cbn; set_solver|]).
      by apply not_elem_of_nil in Hid.
  - vm_compute. reflexivity.
  - done.
  - by left.
  - assert (map fst q = ["S0"; "S1"]) as Hids by (subst q; reflexivity). rewrite Hids in Hresp. clear Hq.
    exists st. exists st1. destruct (Hresp ["S1"; "S1"; "S0"]) as (st2 & st3 & E2 & E3).
    { repeat constructor; set_solver. }
    exists st2, st3, q. split; [done|]. split; [exact E1|]. split; [done|].
    rewrite decide_True in E2 by exact Hsub. rewrite bool_decide_true in E3 by exact Hsub. done.
Defined.

(** If no piece is to be sent, nobody answers: the callback is never run, while
    [Wait] goes on at once. *)
Example no_piece_no_callback :
  (st ← ex_executor;
   '(ts, st, q) ← Submit ex_slice kServerGroup true (mkM (task ex_pull) (pod_memory (H := pod_key) [500]%Z) [] true) st;
   '(w, st) ← WaitSentReq ts st;
   Ok (q, w, callback <$> sent_reqs_ st !! ts)) = Ok ([], true, Some true).
Proof. vm_compute. reflexivity. Qed.

(** A node that is added again is twice in its own group, and a request to it
    with a key is refused. *)
Example node_added_twice :
  (st ← ex_executor;
   st ← AddNode "S0" (mkNode SERVER 0 (mkRange 0 100)) st;
   r ← GetRNode st "S0"; Ok (group (rn_group r))) = Ok ["S0"; "S0"] /\
  (st ← ex_executor;
   st ← AddNode "S0" (mkNode SERVER 0 (mkRange 0 100)) st;
   '(_, _, q) ← Submit ex_slice "S0" true ex_pull st; Ok q) = Fail CheckFailed.
Proof. vm_compute. done. Qed.
