(* ===== verification/Manager.v ===== *)
(** * Starting and stopping the system

    Models [Manager] of src/ps-lite/src/system/manager.cc and manager.h on every
    node, the queue and the receiving loop of postoffice.cc between them: nodes
    register with the scheduler, which gives them ranks and key ranges and tells
    everybody of everybody; when all nodes know each other the applications run,
    and when all have finished the scheduler stops them.  A message is delivered
    at any time after it was sent, in any order. *)
From stdpp Require Import relations.
From S2P Require Import Prelude Message Executor.

(** ** Maps that are ordered by their keys *)
Section OrderedMap.
Context {K A : Type} `{!EqDecision K} (leb : K -> K -> bool).

Fixpoint find (k : K) (l : list (K * A)) : option A :=
  match l with
  | [] => None
  | (k', a) :: l => if decide (k = k') then Some a else find k l
  end.

(** [map[k] = a] *)
Fixpoint put (k : K) (a : A) (l : list (K * A)) : list (K * A) :=
  match l with
  | [] => [(k, a)]
  | (k', a') :: l' =>
      if decide (k = k') then (k, a) :: l'
      else if leb k k' then (k, a) :: l else (k', a') :: put k a l'
  end.

Fixpoint erase (k : K) (l : list (K * A)) : list (K * A) :=
  match l with
  | [] => []
  | (k', a) :: l => if decide (k = k') then l else (k', a) :: erase k l
  end.
End OrderedMap.

(** ** Control messages: task.proto *)

Inductive Command := REGISTER_NODE | READY_TO_EXIT | READY_TO_RUN | ADD_NODE | REMOVE_NODE | EXIT.

(** A control task: a request with its command and nodes, or the reply to one. *)
Inductive Control := Request (cmd : Command) (node : list (NodeID * Node)) | Reply.

Record CMsg := mkCMsg { c_sender : NodeID; c_recver : NodeID; c_time : Z; c_ctrl : Control }.

#[export] Instance Role_dec : EqDecision Role.
Proof. solve_decision. Defined.

(** ** The manager of a node *)

(** The members; the executor of a customer stands for the customer, [None] is a
    pointer that was set to [NULL].  [nodes_mu_] says whether the mutex is locked.
    [queue_] is what was put into the queue of the post office, [failures] the
    arguments of the calls of [node_failure_handlers_], [killed] whether the process
    was killed by [ForceExit]. *)
Record Manager := mkManager {
  my_id : NodeID; my_node : Node; nodes_ : list (NodeID * Node); num_workers_ : Z; num_servers_ : Z;
  active_nodes_ : gset NodeID; alive_nodes_ : gset NodeID; unknown_dead_nodes_ : Z; inited_ : bool;
  node_assigner_ : option NodeAssigner; customers_ : list (Z * (option Executor * bool));
  done_ : bool; in_exit_ : bool; time_ : Z; nodes_mu_ : bool; queue_ : list CMsg; failures : list NodeID; killed : bool }.

(** *** Members that change *)
Definition set_table (ns : list (NodeID * Node)) (nw nsv : Z) (me : Node) (m : Manager) : Manager :=
  mkManager m.(my_id) me ns nw nsv m.(active_nodes_) m.(alive_nodes_) m.(unknown_dead_nodes_) m.(inited_) m.(node_assigner_) m.(customers_)
    m.(done_) m.(in_exit_) m.(time_) m.(nodes_mu_) m.(queue_) m.(failures) m.(killed).
Definition set_live (active alive : gset NodeID) (dead : Z) (m : Manager) : Manager :=
  mkManager m.(my_id) m.(my_node) m.(nodes_) m.(num_workers_) m.(num_servers_) active alive dead m.(inited_) m.(node_assigner_) m.(customers_)
    m.(done_) m.(in_exit_) m.(time_) m.(nodes_mu_) m.(queue_) m.(failures) m.(killed).
Definition set_flags (init dn ex : bool) (m : Manager) : Manager :=
  mkManager m.(my_id) m.(my_node) m.(nodes_) m.(num_workers_) m.(num_servers_) m.(active_nodes_) m.(alive_nodes_) m.(unknown_dead_nodes_) init
    m.(node_assigner_) m.(customers_) dn ex m.(time_) m.(nodes_mu_) m.(queue_) m.(failures) m.(killed).
Definition set_assigner (a : option NodeAssigner) (m : Manager) : Manager :=
  mkManager m.(my_id) m.(my_node) m.(nodes_) m.(num_workers_) m.(num_servers_) m.(active_nodes_) m.(alive_nodes_) m.(unknown_dead_nodes_) m.(inited_)
    a m.(customers_) m.(done_) m.(in_exit_) m.(time_) m.(nodes_mu_) m.(queue_) m.(failures) m.(killed).
Definition set_customers (cs : list (Z * (option Executor * bool))) (m : Manager) : Manager :=
  mkManager m.(my_id) m.(my_node) m.(nodes_) m.(num_workers_) m.(num_servers_) m.(active_nodes_) m.(alive_nodes_) m.(unknown_dead_nodes_) m.(inited_)
    m.(node_assigner_) cs m.(done_) m.(in_exit_) m.(time_) m.(nodes_mu_) m.(queue_) m.(failures) m.(killed).
Definition set_queue (t : Z) (q : list CMsg) (m : Manager) : Manager :=
  mkManager m.(my_id) m.(my_node) m.(nodes_) m.(num_workers_) m.(num_servers_) m.(active_nodes_) m.(alive_nodes_) m.(unknown_dead_nodes_) m.(inited_)
    m.(node_assigner_) m.(customers_) m.(done_) m.(in_exit_) t m.(nodes_mu_) q m.(failures) m.(killed).
Definition set_mutex (held : bool) (m : Manager) : Manager :=
  mkManager m.(my_id) m.(my_node) m.(nodes_) m.(num_workers_) m.(num_servers_) m.(active_nodes_) m.(alive_nodes_) m.(unknown_dead_nodes_) m.(inited_)
    m.(node_assigner_) m.(customers_) m.(done_) m.(in_exit_) m.(time_) held m.(queue_) m.(failures) m.(killed).
Definition set_fate (fs : list NodeID) (k : bool) (m : Manager) : Manager :=
  mkManager m.(my_id) m.(my_node) m.(nodes_) m.(num_workers_) m.(num_servers_) m.(active_nodes_) m.(alive_nodes_) m.(unknown_dead_nodes_) m.(inited_)
    m.(node_assigner_) m.(customers_) m.(done_) m.(in_exit_) m.(time_) m.(nodes_mu_) m.(queue_) fs k.

(** The constructor, on a node that the environment describes. *)
Definition new_Manager (id : NodeID) (n : Node) : Manager :=
  mkManager id n [] 0 0 ∅ ∅ 0 false None [] false false 0 false [] [] false.

Definition IsScheduler (m : Manager) : bool := bool_decide (m.(my_node).(role) = SCHEDULER).

(** *** Sending *)

(** [NewControlTask(cmd)] *)
Definition NewControlTask (cmd : Command) (ns : list (NodeID * Node)) (m : Manager) : Z * Control * Manager :=
  (if IsScheduler m then m.(time_) * 2 else m.(time_) * 2 + 1, Request cmd ns, set_queue (m.(time_) + 1) m.(queue_) m)%Z.

Definition is_comp (n : Node) : bool := match n.(role) with WORKER | SERVER => true | _ => false end.

(** [SendTask(recver, task)] *)
Definition SendTask (recver : NodeID) (t : Z) (c : Control) (m : Manager) : Manager :=
  let to := if decide (recver = kCompGroup) then map fst (filter (fun p => is_comp p.2 = true) m.(nodes_)) else [recver] in
  set_queue m.(time_) (m.(queue_) ++ map (fun id => mkCMsg m.(my_id) id t c) to) m.

Definition send_new (recver : NodeID) (cmd : Command) (ns : list (NodeID * Node)) (m : Manager) : Manager :=
  let '(t, c, m) := NewControlTask cmd ns m in SendTask recver t c m.

(** *** Order *)

Section Keys.
Context {A : Type}.
Implicit Types l : list (string * A).

Definition before (a b : string) : Prop := String.leb b a = false.
Definition in_order l : Prop := StronglySorted (fun p q => before p.1 q.1) l.

Lemma leb_le a b : String.leb a b = true <-> String.le a b.
Proof. unfold String.le. destruct (String.leb a b); split; done. Qed.

Lemma before_ne a b : before a b -> a <> b.
Proof. unfold before. intros E ->. assert (String.leb b b = true) by (by apply leb_le). congruence. Qed.

Lemma before_le a b : before a b -> String.le a b.
Proof. unfold before. intros E. destruct (total String.le a b) as [|H]; [done|]. apply leb_le in H. congruence. Qed.

Lemma before_trans a b c : before a b -> before b c -> before a c.
Proof.
  intros H1 H2. unfold before. destruct (String.leb c a) eqn:E; [|done]. apply leb_le in E.
  assert (b = c) as ->; [|by apply before_ne in H2].
  apply (anti_symm String.le); [by apply before_le|]. transitivity a; [done|by apply before_le].
Qed.

Lemma not_leb_before a b : a <> b -> String.leb a b = true -> before a b.
Proof.
  intros Hn E. unfold before. destruct (String.leb b a) eqn:E'; [|done]. destruct Hn. by apply (anti_symm String.le); apply leb_le.
Qed.

Lemma find_None k l : find k l = None <-> k ∉ map fst l.
Proof.
  induction l as [|[k' a] l IH]; simpl; [split; [intros _; apply not_elem_of_nil|done]|]. rewrite not_elem_of_cons.
  destruct (decide (k = k')) as [->|]; naive_solver.
Qed.

Lemma put_new k a l : find k l = None -> put String.leb k a l ≡ₚ (k, a) :: l.
Proof.
  induction l as [|[k' a'] l IH]; [done|]. simpl. destruct (decide (k = k')) as [|Hk]; [done|]. intros Hf.
  destruct (String.leb k k'); [done|]. rewrite IH by done. constructor.
Qed.

Lemma put_behind k a l : Forall (fun p => before p.1 k) l -> put String.leb k a l = l ++ [(k, a)].
Proof.
  induction 1 as [|[k' a'] l Hk Hl IH]; [done|]. simpl in *. rewrite decide_False by (apply not_eq_sym; by apply before_ne).
  rewrite Hk. by rewrite IH.
Qed.

Lemma put_in_order k a l : in_order l -> find k l = None -> in_order (put String.leb k a l).
Proof.
  intros Hs. induction Hs as [|[k' a'] l Hs IH Hl]; intros Hf; [repeat constructor|]. simpl in *.
  destruct (decide (k = k')) as [|Hk]; [done|]. destruct (String.leb k k') eqn:E.
  - pose proof (not_leb_before _ _ Hk E) as Hb. constructor; [by constructor|]. constructor; [done|].
    eapply Forall_impl; [exact Hl|]. intros p Hp. by eapply before_trans.
  - constructor; [by apply IH|]. rewrite put_new by done. by constructor.
Qed.

Lemma put_first k a h x l : before h k -> put String.leb k a ((h, x) :: l) = (h, x) :: put String.leb k a l.
Proof. intros Hb. simpl. rewrite decide_False by (apply not_eq_sym; by apply before_ne). by rewrite Hb. Qed.
End Keys.

(** ** Executors take every node *)

Definition balanced (r : RemoteNode) : Prop := r.(alive) = true /\ length r.(rn_group).(group) = length r.(rn_group).(keys).
Definition ready (e : Executor) : Prop := map_Forall (fun _ => balanced) e.(Executor.nodes_).

Lemma ready_insert e id r : ready e -> balanced r -> ready (Executor.set_nodes (<[id := r]> e.(Executor.nodes_)) e).
Proof. intros He Hr. by apply map_Forall_insert_2. Qed.

Lemma ready_default e id n : ready e -> balanced (default (new_RemoteNode n) (e.(Executor.nodes_) !! id)).
Proof. intros He. destruct (_ !! id) as [r|] eqn:E; simpl; [by eapply He|done]. Qed.

Lemma with_group_ready f id e : ready e -> (forall g, length g.(group) = length g.(keys) -> exists g', f g = Ok g' /\ length g'.(group) = length g'.(keys)) ->
  exists e', with_group f id e = Ok e' /\ ready e'.
Proof.
  intros He Hf. unfold with_group. destruct (ready_default e id (mkNode SERVER 0 (mkRange 0 0)) He) as [Ha Hl].
  destruct (Hf _ Hl) as (g' & -> & Hl'). eexists. split; [done|]. apply ready_insert; [done|]. by split.
Qed.

Lemma groups_ready f ids e : ready e -> (forall g, length g.(group) = length g.(keys) -> exists g', f g = Ok g' /\ length g'.(group) = length g'.(keys)) ->
  exists e', foldM (fun e gid => with_group f gid e) ids e = Ok e' /\ ready e'.
Proof.
  intros He Hf. revert e He. induction ids as [|gid ids IH]; intros e He; [by exists e|]. cbn [foldM].
  destruct (with_group_ready f gid e He Hf) as (e1 & -> & He1). cbn [mbind outcome_bind]. by apply IH.
Qed.

Lemma remove_first_length id ids krs : length ids = length krs -> length (remove_first id ids krs).1 = length (remove_first id ids krs).2.
Proof.
  revert krs. induction ids as [|i ids IH]; intros [|r krs] Hl; try done. simpl in *. destruct (decide (i = id)); [simpl; lia|].
  specialize (IH krs ltac:(lia)). destruct (remove_first id ids krs). simpl in *. lia.
Qed.

Lemma put_group_ready e gid n g : ready e -> length g.(group) = length g.(keys) ->
  ready (let r := default (new_RemoteNode n) (e.(Executor.nodes_) !! gid) in
    Executor.set_nodes (<[gid := mkRNode r.(rn_node) r.(alive) r.(sent_req_tracker) r.(recv_req_tracker) g]> e.(Executor.nodes_)) e).
Proof. intros He Hg. apply ready_insert; [done|]. split; [by apply (ready_default e gid n He)|done]. Qed.

Lemma update_replicas_ready e : ready e -> ready (update_replicas e).
Proof.
  intros He. unfold update_replicas. destruct (Executor.nodes_ e !! kServerGroup) as [sg|] eqn:E; [|done]. destruct (list_find _ _) as [[i x]|]; [|done].
  destruct (He _ _ E) as [_ Hl].
  assert (forall lo hi, length (segment lo hi (group (rn_group sg))) = length (segment lo hi (keys (rn_group sg)))) as Hseg.
  { intros lo hi. unfold segment. rewrite !length_take, !length_drop. lia. }
  apply put_group_ready; [apply put_group_ready; [done|]|]; apply Hseg.
Qed.

Lemma Executor_AddNode_ready id n e : ready e -> exists e', Executor.AddNode id n e = Ok e' /\ ready e'.
Proof.
  intros He. unfold Executor.AddNode. set (e0 := if decide _ then _ else e). assert (ready e0) as He0 by (unfold e0; by destruct (decide _)).
  assert (exists e1, match Executor.nodes_ e0 !! id with
    | Some r => _ ← check r.(alive); remove_everywhere id (Executor.set_nodes (<[id := mkRNode n r.(alive) r.(sent_req_tracker) r.(recv_req_tracker) r.(rn_group)]> e0.(Executor.nodes_)) e0)
    | None => Ok (Executor.set_nodes (<[id := new_RemoteNode n]> e0.(Executor.nodes_)) e0) end = Ok e1 /\ ready e1) as (e1 & -> & He1).
  { destruct (Executor.nodes_ e0 !! id) as [r|] eqn:E.
    - destruct (He0 _ _ E) as [Ha Hl]. rewrite Ha. cbn [check mbind outcome_bind]. apply groups_ready; [apply ready_insert; [done|by split]|].
      intros g Hg. unfold RemoveGroupNode. rewrite bool_decide_eq_true_2 by done. cbn [check mbind outcome_bind].
      pose proof (remove_first_length id _ _ Hg) as Hr. destruct (remove_first id (group g) (keys g)). by eexists.
    - eexists. split; [done|]. by apply ready_insert. }
  cbn [mbind outcome_bind].
  assert (forall ids, exists e2, add_to ids id n.(node_key) e1 = Ok e2 /\ ready e2) as Hadd.
  { intros ids. apply groups_ready; [done|]. intros g Hg. eexists. split; [done|]. unfold AddGroupNode, insert_before. cbn [group keys].
    rewrite !length_app. simpl. rewrite !length_take, !length_drop. lia. }
  assert (exists e2, match n.(role) with
    | GROUP => Ok e1
    | SERVER => add_to [id; kLiveGroup; kServerGroup; kCompGroup] id n.(node_key) e1
    | WORKER => add_to [id; kLiveGroup; kWorkerGroup; kCompGroup] id n.(node_key) e1
    | _ => add_to [id; kLiveGroup] id n.(node_key) e1 end = Ok e2 /\ ready e2) as (e2 & -> & He2) by (destruct (role n); try apply Hadd; by eexists).
  cbn [mbind outcome_bind]. destruct (role n); try (by eexists). destruct (Executor.my_role e2); try (by eexists).
  destruct (decide (num_replicas_ e2 <= 0)); eexists; (split; [reflexivity|]); [done|by apply update_replicas_ready].
Qed.

Lemma Executor_AddNodes_ready ns e : ready e -> exists e', foldM (fun e p => Executor.AddNode p.1 p.2 e) ns e = Ok e' /\ ready e'.
Proof.
  revert e. induction ns as [|p ns IH]; intros e He; [by exists e|]. cbn [foldM]. destruct (Executor_AddNode_ready p.1 p.2 e He) as (e1 & -> & He1).
  cbn [mbind outcome_bind]. by apply IH.
Qed.

Lemma new_Executor_ready id r e : new_Executor id r = Ok e -> ready e.
Proof.
  unfold new_Executor. intros E.
  assert (forall ids e0, ready e0 -> foldM (fun st gid => Executor.AddNode gid (mkNode GROUP 0 (mkRange 0 0)) st) ids e0 = Ok e -> ready e) as Hall.
  { induction ids as [|g ids IH]; intros e0 He0 E0; cbn [foldM] in E0; [by injection E0 as <-|].
    destruct (Executor_AddNode_ready g (mkNode GROUP 0 (mkRange 0 0)) e0 He0) as (e1 & E1 & He1). rewrite E1 in E0. by apply (IH e1). }
  eapply Hall; [|exact E]. apply map_Forall_empty.
Qed.

Section Managers.
(** The flags, the id of the scheduler, and whether ZeroMQ connects. *)
Context (FLAGS_num_workers FLAGS_num_servers : nat) (max_key : Range) (scheduler : NodeID) (connects : NodeID -> NodeID -> Node -> bool).

(** *** Nodes *)

(** A function on the executors of all customers. *)
Definition each_customer (f : Executor -> outcome Executor) (cs : list (Z * (option Executor * bool))) :
    outcome (list (Z * (option Executor * bool))) :=
  foldM (fun out c =>
    match c with
    | (id, (Some e, d)) => e ← f e; Ok (out ++ [(id, (Some e, d))])
    | (_, (None, _)) => Fail OutOfRange
    end) cs [].

Definition count_role (r : Role) (n : Node) : Z := if decide (n.(role) = r) then 1 else 0.

(** [AddNode(node)]; [None] when it waits for the mutex. *)
Definition AddNode (id : NodeID) (n : Node) (m : Manager) : outcome (option Manager) :=
  if m.(nodes_mu_) then Ok None else
  m ← (match find id m.(nodes_) with
       | None =>
           _ ← check (connects m.(my_id) id n);
           Ok (set_table m.(nodes_) (m.(num_workers_) + count_role WORKER n) (m.(num_servers_) + count_role SERVER n)
                 (if decide (id = m.(my_id)) then n else m.(my_node)) m)
       | Some _ => Ok m
       end);
  let m := set_table (put String.leb id n m.(nodes_)) m.(num_workers_) m.(num_servers_) m.(my_node) m in
  let m := set_live m.(active_nodes_) ({[id]} ∪ m.(alive_nodes_)) m.(unknown_dead_nodes_) m in
  cs ← each_customer (Executor.AddNode id n) m.(customers_);
  let m := set_customers cs m in
  if bool_decide (Z.of_nat FLAGS_num_workers <= m.(num_workers_))%Z && bool_decide (Z.of_nat FLAGS_num_servers <= m.(num_servers_))%Z then
    _ ← check (negb m.(inited_));
    if IsScheduler m then Ok (Some (send_new kCompGroup ADD_NODE m.(nodes_) m))
    else Ok (Some (send_new scheduler READY_TO_RUN [] m))
  else Ok (Some m).

(** [RemoveNode(node_id)]: the mutex stays locked when the node is not known. *)
Definition RemoveNode (id : NodeID) (m : Manager) : outcome (option Manager) :=
  if m.(nodes_mu_) then Ok None else
  match find id m.(nodes_) with
  | None => Ok (Some (set_mutex true m))
  | Some n =>
      let m := set_table (erase id m.(nodes_)) (m.(num_workers_) - count_role WORKER n) (m.(num_servers_) - count_role SERVER n) m.(my_node) m in
      let m := set_live (m.(active_nodes_) ∖ {[id]}) m.(alive_nodes_) m.(unknown_dead_nodes_) m in
      cs ← each_customer (Executor.RemoveNode id) m.(customers_);
      let m := set_customers cs m in
      let m := if IsScheduler m && negb (bool_decide (id = m.(my_id)))
               then foldl (fun m p => if decide (p.1 = m.(my_id) \/ p.1 = id) then m else send_new p.1 REMOVE_NODE [(id, n)] m) m m.(nodes_)
               else m in
      Ok (Some (if negb (IsScheduler m) && bool_decide (n.(role) = SERVER) then set_fate m.(failures) true m else m))
  end.

(** [NodeDisconnected(node_id)], which the monitor of the sockets calls. *)
Definition NodeDisconnected (id : NodeID) (m : Manager) : outcome (option Manager) :=
  if m.(nodes_mu_) then Ok None else
  let m := if decide (id ∈ m.(alive_nodes_)) then set_live m.(active_nodes_) (m.(alive_nodes_) ∖ {[id]}) m.(unknown_dead_nodes_) m
           else set_live m.(active_nodes_) m.(alive_nodes_) (m.(unknown_dead_nodes_) + 1) m in
  if m.(in_exit_) then Ok (Some m) else
  let m := set_fate (m.(failures) ++ [id]) m.(killed) m in
  if IsScheduler m then RemoveNode id m else Ok (Some (set_fate m.(failures) true m)).

(** *** Messages *)

(** The loops over the nodes of a message. *)
Fixpoint over_nodes (f : NodeID -> Node -> Manager -> outcome (option Manager)) (ns : list (NodeID * Node)) (m : Manager) : outcome (option Manager) :=
  match ns with
  | [] => Ok (Some m)
  | (id, n) :: ns =>
      o ← f id n m;
      match o with Some m => over_nodes f ns m | None => Ok None end
  end.

(** [Process(msg)]: also whether the receiving loop goes on. *)
Definition Process (msg : CMsg) (m : Manager) : outcome (option (Manager * bool)) :=
  match msg.(c_ctrl) with
  | Reply => Ok (Some (m, true))
  | Request EXIT _ => Ok (Some (set_flags m.(inited_) true m.(in_exit_) m, false))
  | Request cmd node =>
      o ← (match cmd with
           | REGISTER_NODE =>
               _ ← check (IsScheduler m);
               _ ← check (bool_decide (length node = 1));
               '(id, n) ← read_at node 0;
               match m.(node_assigner_) with
               | None => Fail CheckFailed
               | Some a => '(a, n) ← Assign a n; AddNode id n (set_assigner (Some a) m)
               end
           | READY_TO_RUN =>
               if IsScheduler m then
                 if m.(nodes_mu_) then Ok None else
                 let m := set_live ({[msg.(c_sender)]} ∪ m.(active_nodes_)) m.(alive_nodes_) m.(unknown_dead_nodes_) m in
                 if bool_decide (FLAGS_num_workers + FLAGS_num_servers <= base.size m.(active_nodes_))
                 then let m := send_new kCompGroup READY_TO_RUN [] m in Ok (Some (set_flags true m.(done_) m.(in_exit_) m))
                 else Ok (Some m)
               else Ok (Some (set_flags true m.(done_) m.(in_exit_) m))
           | READY_TO_EXIT =>
               _ ← check (IsScheduler m);
               if m.(nodes_mu_) then Ok None
               else Ok (Some (set_live (m.(active_nodes_) ∖ {[msg.(c_sender)]}) m.(alive_nodes_) m.(unknown_dead_nodes_) m))
           | ADD_NODE => over_nodes AddNode node m
           | REMOVE_NODE => over_nodes (fun id _ => RemoveNode id) node m
           | EXIT => Ok (Some m)
           end);
      Ok (match o with Some m => Some (SendTask msg.(c_sender) msg.(c_time) Reply m, true) | None => None end)
  end.

(** *** Starting and stopping *)

(** [Init(argc, argv)], behind the creation of the application. *)
Definition Init (m : Manager) : outcome (option Manager) :=
  if IsScheduler m then AddNode m.(my_id) m.(my_node) (set_assigner (Some (new_NodeAssigner FLAGS_num_servers max_key)) m)
  else Ok (Some (send_new scheduler REGISTER_NODE [(m.(my_id), m.(my_node))] m)).

(** [Stop()] of a worker or a server, and of the scheduler: [None] while some node
    is active. *)
Definition Stop_node (m : Manager) : Manager := send_new scheduler READY_TO_EXIT [] m.
Definition Stop_scheduler (m : Manager) : option Manager :=
  if m.(nodes_mu_) then None else
  if decide (m.(active_nodes_) = ∅)
  then let m := set_flags m.(inited_) m.(done_) true m in Some (send_new kCompGroup EXIT [] m)
  else None.
(** What the scheduler waits for then, and the message to itself. *)
Definition all_gone (m : Manager) : bool := bool_decide (Z.of_nat (base.size m.(alive_nodes_)) = m.(unknown_dead_nodes_) + 1)%Z.
Definition Stop_self (t : Z) (m : Manager) : Manager := SendTask m.(my_id) t (Request EXIT []) m.

(** A 32-bit [int], which wraps around. *)
Definition i32 (x : Z) : Z := ((x + 2 ^ 31) mod 2 ^ 32 - 2 ^ 31)%Z.

(** [Timeout(sec, pred)], where [pred] is what the condition gives at each check. *)
Fixpoint timeout_loop (i : nat) (pred : nat -> bool) (k : nat) : bool :=
  match i with
  | O => negb (pred k)
  | S i => if pred k then false else timeout_loop i pred (k + 1)
  end.
Definition Timeout (sec : Z) (pred : nat -> bool) : bool :=
  let i := Z.quot (i32 (sec * 1000000)) 10000 in
  if (i <? 0)%Z then false else timeout_loop (Z.to_nat i) pred 0.

(** *** Customers *)

(** [customer(id)] *)
Definition customer (id : Z) (m : Manager) : outcome (option Executor) :=
  match find id m.(customers_) with Some (e, _) => Ok e | None => Fail CheckFailed end.

(** [AddCustomer(obj)]; [None] when it waits for the mutex. *)
Definition AddCustomer (id : Z) (e : Executor) (m : Manager) : outcome (option Manager) :=
  _ ← check (bool_decide (find id m.(customers_) = None));
  if m.(nodes_mu_) then Ok None else
  e ← foldM (fun e p => Executor.AddNode p.1 p.2 e) m.(nodes_) e;
  Ok (Some (set_customers (put Z.leb id (Some e, false) m.(customers_)) m)).

(** [TransferCustomer(obj)] *)
Definition TransferCustomer (id : Z) (m : Manager) : outcome Manager :=
  match find id m.(customers_) with
  | None => Fail CheckFailed
  | Some (e, _) => Ok (set_customers (put Z.leb id (e, true) m.(customers_)) m)
  end.

(** [RemoveCustomer(id)] *)
Definition RemoveCustomer (id : Z) (m : Manager) : Manager :=
  match find id m.(customers_) with
  | None => m
  | Some (_, d) => set_customers (put Z.leb id (None, d) m.(customers_)) m
  end.

(** [NextCustomerID()] *)
Definition NextCustomerID (m : Manager) : outcome Z :=
  id ← foldM (fun id c => match c with (i, (Some _, _)) => Ok (Z.min id i) | (_, (None, _)) => Fail OutOfRange end) m.(customers_) 0%Z;
  Ok (id - 1)%Z.

(** ** The system *)

(** The managers of all nodes, the messages on their way, the nodes that called
    [Stop], and whether the scheduler sent itself the last message. *)
Record System := mkSystem { mgrs : gmap NodeID Manager; net : list CMsg; stopped : gset NodeID; leaving : bool }.

(** The sending thread: what a manager queued goes on its way. *)
Definition update (id : NodeID) (m : Manager) (s : System) : System :=
  mkSystem (<[id := set_queue m.(time_) [] m]> s.(mgrs)) (s.(net) ++ m.(queue_)) s.(stopped) s.(leaving).
Definition set_net (ms : list CMsg) (s : System) : System := mkSystem s.(mgrs) ms s.(stopped) s.(leaving).
Definition set_stopped (id : NodeID) (s : System) : System := mkSystem s.(mgrs) s.(net) ({[id]} ∪ s.(stopped)) s.(leaving).
Definition set_leaving (s : System) : System := mkSystem s.(mgrs) s.(net) s.(stopped) true.

(** A step of the protocol: a message is received by a node whose receiving loop
    runs; a worker, a server or the scheduler, whose application ran, calls [Stop];
    the scheduler, in [Stop], has waited enough for the others. *)
Inductive sys_step : System -> System -> Prop :=
| sys_receive s n1 msg n2 m m' go : s.(net) = n1 ++ msg :: n2 -> s.(mgrs) !! msg.(c_recver) = Some m -> m.(done_) = false ->
    Process msg m = Ok (Some (m', go)) -> sys_step s (update msg.(c_recver) m' (set_net (n1 ++ n2) s))
| sys_stop s id m : s.(mgrs) !! id = Some m -> IsScheduler m = false -> m.(inited_) = true -> id ∉ s.(stopped) ->
    sys_step s (set_stopped id (update id (Stop_node m) s))
| sys_stop_scheduler s m m' : s.(mgrs) !! scheduler = Some m -> m.(inited_) = true -> scheduler ∉ s.(stopped) -> Stop_scheduler m = Some m' ->
    sys_step s (set_stopped scheduler (update scheduler m' s))
| sys_stop_self s m t : s.(mgrs) !! scheduler = Some m -> scheduler ∈ s.(stopped) -> s.(leaving) = false ->
    sys_step s (set_leaving (update scheduler (Stop_self t m) s)).

(** The application of a node makes a customer. *)
Inductive app_step : System -> System -> Prop :=
| app_customer s id m cid r e m' : s.(mgrs) !! id = Some m -> new_Executor id r = Ok e -> AddCustomer cid e m = Ok (Some m') ->
    app_step s (update id m' s).

(** The processes start: every manager is made and initialized. *)
Definition start_node (s : System) (p : NodeID * Node) : outcome System :=
  o ← Init (new_Manager p.1 p.2);
  match o with Some m => Ok (update p.1 m s) | None => Fail CheckFailed end.
Definition start (sched : Node) (comps : list (NodeID * Node)) : outcome System :=
  foldM start_node ((scheduler, sched) :: comps) (mkSystem ∅ [] ∅ false).

Definition any_step (s s' : System) : Prop := sys_step s s' \/ app_step s s'.

(** A message that a node cannot process: a [CHECK] fails, or it waits for a mutex
    that nobody unlocks. *)
Definition sys_fails (s : System) : Prop :=
  exists msg, msg ∈ s.(net) /\
    match s.(mgrs) !! msg.(c_recver) with
    | Some m => m.(done_) = false /\ forall m' go, Process msg m <> Ok (Some (m', go))
    | None => True
    end.

(** ** Adding a node *)
Hypothesis Hconnects : forall a b n, connects a b n = true.

Definition customers_ok (cs : list (Z * (option Executor * bool))) : Prop :=
  Forall (fun c => match c.2.1 with Some e => ready e | None => False end) cs.

Lemma each_customer_ok f cs : customers_ok cs -> (forall e, ready e -> exists e', f e = Ok e' /\ ready e') ->
  exists cs', each_customer f cs = Ok cs' /\ customers_ok cs'.
Proof.
  intros Hcs Hf. unfold each_customer.
  assert (forall out, customers_ok out -> exists cs', foldM (fun out c => match c with
    | (id, (Some e, d)) => e ← f e; Ok (out ++ [(id, (Some e, d))])
    | (_, (None, _)) => Fail OutOfRange end) cs out = Ok cs' /\ customers_ok cs') as Hall; [|by apply Hall; constructor].
  induction Hcs as [|[id [[e|] d]] cs He Hcs IH]; intros out Hout; [by exists out| |done]. cbn [foldM]. destruct (Hf e He) as (e' & -> & He').
  cbn [mbind outcome_bind]. apply IH. apply Forall_app. split; [done|]. constructor; [exact He'|constructor].
Qed.

Definition full (m : Manager) : bool :=
  bool_decide (Z.of_nat FLAGS_num_workers <= m.(num_workers_))%Z && bool_decide (Z.of_nat FLAGS_num_servers <= m.(num_servers_))%Z.
Definition added (id : NodeID) (n : Node) (cs : list (Z * (option Executor * bool))) (m : Manager) : Manager :=
  set_customers cs (set_live m.(active_nodes_) ({[id]} ∪ m.(alive_nodes_)) m.(unknown_dead_nodes_)
    (set_table (put String.leb id n m.(nodes_)) (m.(num_workers_) + count_role WORKER n) (m.(num_servers_) + count_role SERVER n)
       (if decide (id = m.(my_id)) then n else m.(my_node)) m)).
Definition announce (m : Manager) : Manager :=
  if full m then if IsScheduler m then send_new kCompGroup ADD_NODE m.(nodes_) m else send_new scheduler READY_TO_RUN [] m else m.

Lemma AddNode_new id n m : m.(nodes_mu_) = false -> find id m.(nodes_) = None -> customers_ok m.(customers_) -> m.(inited_) = false ->
  exists cs, customers_ok cs /\ AddNode id n m = Ok (Some (announce (added id n cs m))).
Proof.
  intros Hmu Hf Hcs Hi. destruct (each_customer_ok (Executor.AddNode id n) _ Hcs) as (cs & Ecs & Hcs').
  { intros e He. by apply Executor_AddNode_ready. }
  exists cs. split; [done|]. unfold AddNode. rewrite Hmu, Hf, Hconnects. cbn [check mbind outcome_bind].
  change (customers_ _) with (customers_ m). rewrite Ecs. cbn [mbind outcome_bind]. set (m2 := added id n cs m).
  transitivity (if full m2 then _ ← check (negb m2.(inited_));
    if IsScheduler m2 then Ok (Some (send_new kCompGroup ADD_NODE m2.(nodes_) m2)) else Ok (Some (send_new scheduler READY_TO_RUN [] m2))
    else Ok (Some m2)); [reflexivity|].
  unfold announce. destruct (full m2); [|done]. assert (inited_ m2 = false) as -> by exact Hi. cbn [negb check mbind outcome_bind].
  by destruct (IsScheduler m2).
Qed.

(** ** The protocol *)

Definition untimed (msg : CMsg) : NodeID * NodeID * Control := (msg.(c_sender), msg.(c_recver), msg.(c_ctrl)).
Definition sig (p : NodeID * Node) : NodeID * Role := (p.1, p.2.(role)).
Definition count (r : Role) (l : list (NodeID * Node)) : nat := length (filter (fun p => p.2.(role) = r) l).

Lemma role_count_app r l1 l2 : count r (l1 ++ l2) = count r l1 + count r l2.
Proof. unfold count. by rewrite filter_app, length_app. Qed.

Lemma count_one r p : Z.of_nat (count r [p]) = count_role r p.2.
Proof. unfold count, count_role. rewrite filter_cons, filter_nil. by case_decide. Qed.

Lemma count_sig r l l' : map sig l ≡ₚ map sig l' -> count r l = count r l'.
Proof.
  assert (forall l, count r l = length (filter (fun q : NodeID * Role => q.2 = r) (map sig l))) as Hc; [|by rewrite !Hc; intros ->].
  clear. unfold count. induction l as [|[k n] l IH]; [done|]. cbn [map]. rewrite !filter_cons. unfold sig at 1. cbn [fst snd].
  repeat case_decide; try done; cbn [length]; by rewrite IH.
Qed.

Lemma role_count_perm r l l' : l ≡ₚ l' -> count r l = count r l'.
Proof. intros E. apply count_sig. by rewrite E. Qed.

#[local] Instance count_Proper r : Proper (Permutation ==> eq) (count r).
Proof. intros l l' E. by apply role_count_perm. Qed.

Lemma in_order_NoDup (l : list (NodeID * Node)) : in_order l -> NoDup (map fst l).
Proof.
  induction 1 as [|p l Hs IH Hl]; simpl; [constructor|]. constructor; [|done]. intros Hin. apply list_elem_of_fmap in Hin as (q & Eq & Hin).
  rewrite Forall_forall in Hl. specialize (Hl q Hin). apply before_ne in Hl. done.
Qed.

Lemma in_order_behind (P : list (NodeID * Node)) x Q : in_order (P ++ x :: Q) -> Forall (fun p => before p.1 x.1) P.
Proof.
  induction P as [|p P IH]; [constructor|]. intros Hs. inversion Hs as [|? ? Hs' Hp]; subst. constructor; [|by apply IH].
  rewrite Forall_app, Forall_cons in Hp. by destruct Hp as (_ & ? & _).
Qed.

Section Protocol.
Context (sched : Node) (comps : list (NodeID * Node)).
Hypothesis Hsched : sched.(role) = SCHEDULER.
Hypothesis Hids : NoDup (map fst comps).
Hypothesis Hbefore : Forall (fun p => before scheduler p.1) comps.
Hypothesis Hroles : Forall (fun p => is_comp p.2 = true) comps.
Hypothesis Hworkers : count WORKER comps = FLAGS_num_workers.
Hypothesis Hservers : count SERVER comps = FLAGS_num_servers.
Hypothesis Hcomps : comps <> [].
Hypothesis Hkey : valid_range max_key = true.
Hypothesis Hgroup : scheduler <> kCompGroup /\ kCompGroup ∉ map fst comps.

(** A table of all nodes. *)
Definition whole (L : list (NodeID * Node)) : Prop :=
  exists hn R, L = (scheduler, hn) :: R /\ hn.(role) = SCHEDULER /\ map sig R ≡ₚ map sig comps /\ in_order L.

(** The manager of a node that knows the nodes of [P]. *)
Record knows (p : NodeID * Node) (P : list (NodeID * Node)) (m : Manager) : Prop := {
  k_id : m.(my_id) = p.1; k_role : m.(my_node).(role) = p.2.(role); k_nodes : m.(nodes_) = P;
  k_workers : m.(num_workers_) = Z.of_nat (count WORKER P); k_servers : m.(num_servers_) = Z.of_nat (count SERVER P);
  k_mutex : m.(nodes_mu_) = false; k_customers : customers_ok m.(customers_) }.

Lemma comp_not_scheduler p : p ∈ comps -> p.1 <> scheduler /\ p.2.(role) <> SCHEDULER /\ p.1 <> kCompGroup.
Proof.
  intros Hp. rewrite Forall_forall in Hbefore, Hroles. specialize (Hbefore p Hp). specialize (Hroles p Hp). split_and!.
  - apply not_eq_sym. by apply before_ne.
  - unfold is_comp in Hroles. by destruct (role p.2).
  - intros E. apply Hgroup. rewrite <- E. by apply list_elem_of_fmap_2.
Qed.

Lemma sig_role p k n : p ∈ comps -> (k, n) ∈ comps -> k = p.1 -> role n = role p.2.
Proof.
  intros Hp Hk ->. destruct p as [k' n']. simpl in *. apply list_elem_of_lookup_1 in Hp as [i Hi]. apply list_elem_of_lookup_1 in Hk as [j Hj].
  assert (i = j) as ->; [|congruence]. eapply NoDup_lookup; [exact Hids| |]; rewrite list_lookup_fmap; [by rewrite Hi|by rewrite Hj].
Qed.

Lemma whole_in L p k n : whole L -> p ∈ comps -> (k, n) ∈ L -> k = p.1 -> role n = role p.2.
Proof.
  intros (hn & R & -> & _ & Hsig & _) Hp Hin E. apply elem_of_cons in Hin as [Hin|Hin].
  - destruct (comp_not_scheduler p Hp) as [Hn _]. by simplify_eq.
  - assert (sig (k, n) ∈ map sig comps) as Hs by (rewrite <- Hsig; by apply list_elem_of_fmap_2).
    apply list_elem_of_fmap in Hs as ([k' n'] & Es & Hin'). unfold sig in Es. simpl in Es. injection Es as -> ->. by apply (sig_role p k').
Qed.

(** Who knows a part of the table does not know all nodes. *)
Lemma whole_full L P Q : whole L -> P ++ Q = L -> P <> [] ->
  (Q = [] -> count WORKER P = FLAGS_num_workers /\ count SERVER P = FLAGS_num_servers) /\
  (Q <> [] -> count WORKER P < FLAGS_num_workers \/ count SERVER P < FLAGS_num_servers).
Proof.
  intros (hn & R & -> & Hh & Hsig & _) E HP. destruct P as [|h P]; [done|]. injection E as -> E.
  assert (forall r, r <> SCHEDULER -> count r ((scheduler, hn) :: P) + count r Q = count r comps) as Hc.
  { intros r Hr. rewrite <- (count_sig r _ _ Hsig), <- E, role_count_app. unfold count at 1. rewrite filter_cons, decide_False by (simpl; congruence). done. }
  pose proof (Hc WORKER ltac:(done)) as HW. pose proof (Hc SERVER ltac:(done)) as HS. rewrite Hworkers in HW. rewrite Hservers in HS. split.
  - intros ->. unfold count in *. simpl in *. lia.
  - intros HQ. destruct Q as [|q Q]; [done|]. assert (sig q ∈ map sig comps) as Hq.
    { rewrite <- Hsig. apply list_elem_of_fmap_2. rewrite <- E, elem_of_app, elem_of_cons. auto. }
    apply list_elem_of_fmap in Hq as (q' & Eq & Hq). rewrite Forall_forall in Hroles. specialize (Hroles q' Hq).
    assert (role q.2 = role q'.2) as Er by (unfold sig in Eq; by injection Eq). unfold is_comp in Hroles. rewrite <- Er in Hroles.
    assert (forall r, role q.2 = r -> 0 < count r (q :: Q)) as Hpos.
    { intros r Hr. unfold count. rewrite filter_cons, decide_True by done. simpl. lia. }
    destruct (role q.2) eqn:Eq2; try done; [right; specialize (Hpos SERVER eq_refl)|left; specialize (Hpos WORKER eq_refl)]; lia.
Qed.

(** Sending to one node, and to all workers and servers. *)
Lemma send_one to cmd ns m : to <> kCompGroup ->
  exists t, send_new to cmd ns m = set_queue (m.(time_) + 1) (m.(queue_) ++ [mkCMsg m.(my_id) to t (Request cmd ns)]) m.
Proof. intros Hto. unfold send_new, NewControlTask, SendTask. rewrite decide_False by done. by eexists. Qed.

Lemma send_group cmd ns m :
  exists t, send_new kCompGroup cmd ns m =
    set_queue (m.(time_) + 1) (m.(queue_) ++ map (fun id => mkCMsg m.(my_id) id t (Request cmd ns)) (map fst (filter (fun p => is_comp p.2 = true) m.(nodes_)))) m.
Proof. unfold send_new, NewControlTask, SendTask. rewrite decide_True by done. by eexists. Qed.

Lemma count_role_app r P x : Z.of_nat (count r (P ++ [x])) = (Z.of_nat (count r P) + count_role r x.2)%Z.
Proof. rewrite role_count_app, Nat2Z.inj_add. by rewrite count_one. Qed.

(** The first thing that a worker or a server learns is a table, node by node: when
    it knows all it says so, once. *)
Lemma add_step p L P x Q m : whole L -> p ∈ comps -> P ++ x :: Q = L -> knows p P m -> m.(inited_) = false -> m.(queue_) = [] ->
  exists m', AddNode x.1 x.2 m = Ok (Some m') /\ knows p (P ++ [x]) m' /\ m'.(inited_) = false /\ m'.(done_) = m.(done_) /\
    map untimed m'.(queue_) = match Q with [] => [(p.1, scheduler, Request READY_TO_RUN [])] | _ => [] end.
Proof.
  intros HL Hp E [K1 K2 K3 K4 K5 K6 K7] Hi Hq. pose proof HL as (hn & R & HLe & _ & _ & Hord). rewrite <- E in Hord.
  assert (find x.1 (nodes_ m) = None) as Hf.
  { rewrite K3. apply find_None. intros Hin. apply list_elem_of_fmap in Hin as (y & Ey & Hy). pose proof (in_order_behind _ _ _ Hord) as Hb.
    rewrite Forall_forall in Hb. specialize (Hb y Hy). apply before_ne in Hb. congruence. }
  destruct (AddNode_new x.1 x.2 m K6 Hf K7 Hi) as (cs & Hcs & ->). eexists. split; [done|]. destruct (comp_not_scheduler p Hp) as (Hn1 & Hn2 & _).
  assert (knows p (P ++ [x]) (added x.1 x.2 cs m)) as Hk.
  { split; simpl; try done.
    - destruct (decide (x.1 = my_id m)) as [Ex|]; [|done]. apply (whole_in L p x.1 x.2 HL Hp); [|congruence].
      rewrite <- E, elem_of_app, elem_of_cons. destruct x; auto.
    - rewrite K3. rewrite put_behind; [by destruct x|]. by eapply in_order_behind.
    - by rewrite K4, count_role_app.
    - by rewrite K5, count_role_app. }
  assert (P ++ [x] <> []) as HP by (by destruct P).
  assert ((P ++ [x]) ++ Q = L) as E' by (rewrite <- app_assoc; exact E).
  destruct (whole_full L (P ++ [x]) Q HL E' HP) as [Hfull Hnot]. unfold announce.
  assert (full (added x.1 x.2 cs m) = match Q with [] => true | _ => false end) as ->.
  { unfold full. rewrite (k_workers _ _ _ Hk), (k_servers _ _ _ Hk). destruct Q.
    - destruct (Hfull eq_refl) as [-> ->]. by rewrite !bool_decide_eq_true_2.
    - destruct (Hnot ltac:(done)); [rewrite bool_decide_eq_false_2 by lia; done|].
      rewrite (bool_decide_eq_false_2 (Z.of_nat FLAGS_num_servers <= _)%Z) by lia. by rewrite andb_false_r. }
  destruct Q; [|split_and!; try done; simpl; by rewrite Hq].
  assert (IsScheduler (added x.1 x.2 cs m) = false) as ->.
  { unfold IsScheduler. apply bool_decide_eq_false_2. rewrite (k_role _ _ _ Hk). done. }
  destruct (send_one scheduler READY_TO_RUN [] (added x.1 x.2 cs m)) as (t & ->); [apply Hgroup|]. destruct Hk. split_and!; try done.
  simpl. rewrite Hq. unfold untimed. simpl. by rewrite K1.
Qed.

Lemma add_all p L Q : whole L -> p ∈ comps -> forall P m, P ++ Q = L -> Q <> [] -> knows p P m -> m.(inited_) = false -> m.(queue_) = [] ->
  exists m', over_nodes AddNode Q m = Ok (Some m') /\ knows p L m' /\ m'.(inited_) = false /\ m'.(done_) = m.(done_) /\
    map untimed m'.(queue_) = [(p.1, scheduler, Request READY_TO_RUN [])].
Proof.
  intros HL Hp. induction Q as [|x Q IH]; intros P m E HQ Hk Hi Hq; [done|].
  destruct (add_step p L P x Q m HL Hp E Hk Hi Hq) as (m1 & E1 & Hk1 & Hi1 & Hd1 & Hq1). destruct x as [k n]. cbn [over_nodes fst snd] in *.
  rewrite E1. cbn [mbind outcome_bind]. destruct Q as [|y Q].
  - exists m1. rewrite <- E. done.
  - destruct (IH (P ++ [(k, n)]) m1) as (m' & E' & Hk' & Hi' & Hd' & Hq'); try done; [by rewrite <- app_assoc|by apply map_eq_nil in Hq1|].
    exists m'. split_and!; try done. congruence.
Qed.

(** *** How far a node is *)

(** It has to register; waits for the others; its table is on the way; it knows all
    and says so; the scheduler counts it; it may run, as a message on the way says;
    it runs; it has finished and says so; the scheduler knows; it has to exit, as a
    message says; it is done. *)
Inductive status := SReg | SWait | SAdd | SReady | SActive | SGo | SRun | SLeave | SLeft | SExit | SDone.
#[local] Instance status_dec : EqDecision status.
Proof. solve_decision. Defined.

Implicit Types f : NodeID -> status.
Definition upd f (id : NodeID) (st : status) : NodeID -> status := fun i => if decide (i = id) then st else f i.
Definition registered f : list (NodeID * Node) := filter (fun p => f p.1 <> SReg) comps.

Lemma upd_same f id st : upd f id st id = st.
Proof. unfold upd. by rewrite decide_True. Qed.
Lemma upd_other f id st i : i <> id -> upd f id st i = f i.
Proof. intros Hi. unfold upd. by rewrite decide_False. Qed.

Lemma comps_split p : p ∈ comps -> exists cs, comps ≡ₚ p :: cs /\ forall q, q ∈ cs -> q.1 <> p.1 /\ q ∈ comps.
Proof.
  intros Hp. apply elem_of_Permutation in Hp as [cs Hcs]. exists cs. split; [done|]. intros q Hq. split; [|rewrite Hcs; by right].
  pose proof Hids as Hn. rewrite Hcs in Hn. simpl in Hn. apply NoDup_cons in Hn as [Hn _]. intros E. apply Hn. rewrite <- E. by apply list_elem_of_fmap_2.
Qed.

Lemma filter_same {A} (P Q : A -> Prop) `{!forall x, Decision (P x)} `{!forall x, Decision (Q x)} (l : list A) :
  (forall x, x ∈ l -> P x <-> Q x) -> filter P l = filter Q l.
Proof.
  induction l as [|x l IH]; intros Hl; [done|]. rewrite !filter_cons. rewrite IH by (intros; apply Hl; by right).
  assert (P x <-> Q x) as Hx by (apply Hl; left). repeat case_decide; tauto.
Qed.

Lemma registered_upd f p st : p ∈ comps -> f p.1 = SReg -> st <> SReg -> registered (upd f p.1 st) ≡ₚ p :: registered f.
Proof.
  intros Hp Hf Hst. destruct (comps_split p Hp) as (cs & Hcs & Hne). unfold registered. rewrite Hcs, !filter_cons.
  rewrite decide_True by (by rewrite upd_same). rewrite decide_False by (rewrite Hf; tauto). f_equiv.
  rewrite (filter_same (fun q => upd f p.1 st q.1 <> SReg) (fun q => f q.1 <> SReg)); [done|].
  intros q Hq. destruct (Hne q Hq) as [Hq1 _]. by rewrite upd_other.
Qed.

(** The ranks and key ranges of the nodes that registered. *)
Record ranked (R : list (NodeID * Node)) : Prop := {
  rk_workers : map (fun p => p.2.(rank)) (filter (fun p => p.2.(role) = WORKER) R) ≡ₚ map Z.of_nat (seq 0 (count WORKER R));
  rk_servers : map (fun p => p.2.(rank)) (filter (fun p => p.2.(role) = SERVER) R) ≡ₚ map Z.of_nat (seq 0 (count SERVER R));
  rk_keys : Forall (fun p => p.2.(role) = SERVER -> exists i, p.2.(rank) = Z.of_nat i /\ EvenDivide max_key FLAGS_num_servers i = Ok p.2.(node_key)) R }.

Definition table f (L : list (NodeID * Node)) : Prop :=
  exists hn R, L = (scheduler, hn) :: R /\ hn.(role) = SCHEDULER /\ map sig R ≡ₚ map sig (registered f) /\ in_order L /\ ranked R.

Definition assigner (R : list (NodeID * Node)) : NodeAssigner := mkAssigner FLAGS_num_servers (count SERVER R) (count WORKER R) max_key.

Lemma ranked_perm R R' : R ≡ₚ R' -> ranked R -> ranked R'.
Proof. intros E [R1 R2 R3]. split; by rewrite <- E. Qed.

Lemma rank_more r R p : p.2.(role) = r -> p.2.(rank) = Z.of_nat (count r R) ->
  map (fun p => p.2.(rank)) (filter (fun p => p.2.(role) = r) R) ≡ₚ map Z.of_nat (seq 0 (count r R)) ->
  map (fun p => p.2.(rank)) (filter (fun p => p.2.(role) = r) (p :: R)) ≡ₚ map Z.of_nat (seq 0 (count r (p :: R))).
Proof.
  intros Hr Hk Hp. unfold count. rewrite !filter_cons. rewrite !decide_True by done. cbn [map length]. rewrite seq_S, map_app, Hp, Hk.
  simpl. by rewrite Permutation_app_comm.
Qed.

Lemma rank_other r R (p : NodeID * Node) : p.2.(role) <> r -> filter (fun p => p.2.(role) = r) (p :: R) = filter (fun p => p.2.(role) = r) R /\ count r (p :: R) = count r R.
Proof. intros Hr. unfold count. rewrite !filter_cons. by rewrite !decide_False. Qed.

(** The next node that registers gets the next rank of its kind. *)
Lemma Assign_ranked R k n : ranked R -> is_comp n = true -> (n.(role) = SERVER -> count SERVER R < FLAGS_num_servers) ->
  exists n', Assign (assigner R) n = Ok (assigner ((k, n') :: R), n') /\ n'.(role) = n.(role) /\ ranked ((k, n') :: R).
Proof.
  intros [R1 R2 R3] Hc Hn. unfold Assign, assigner. cbn [Message.num_servers_ server_rank_ worker_rank_ key_range_]. unfold is_comp in Hc.
  destruct (role n) eqn:Er; try done.
  - specialize (Hn eq_refl).
    destruct (EvenDivide max_key FLAGS_num_servers (count SERVER R)) as [kr|] eqn:Ek.
    2: { unfold EvenDivide in Ek. rewrite Hkey in Ek. cbn [check mbind outcome_bind] in Ek. rewrite !bool_decide_eq_true_2 in Ek by lia. discriminate. }
    cbn [mbind outcome_bind]. pose (n' := mkNode SERVER (Z.of_nat (count SERVER R)) kr). exists n'.
    assert (count SERVER ((k, n') :: R) = count SERVER R + 1 /\ count WORKER ((k, n') :: R) = count WORKER R) as [C1 C2].
    { unfold count. rewrite !filter_cons, decide_True, decide_False by done. simpl. lia. }
    rewrite C1, C2. split; [done|]. split; [done|]. split.
    + destruct (rank_other WORKER R (k, n')) as [-> ->]; done.
    + by apply rank_more.
    + constructor; [|done]. intros _. by exists (count SERVER R).
  - cbn [mbind outcome_bind]. pose (n' := mkNode WORKER (Z.of_nat (count WORKER R)) max_key). exists n'.
    assert (count WORKER ((k, n') :: R) = count WORKER R + 1 /\ count SERVER ((k, n') :: R) = count SERVER R) as [C1 C2].
    { unfold count. rewrite !filter_cons, decide_True, decide_False by done. simpl. lia. }
    rewrite C1, C2. split; [done|]. split; [done|]. split.
    + by apply rank_more.
    + destruct (rank_other SERVER R (k, n')) as [-> ->]; done.
    + by constructor.
Qed.

(** *** The scheduler registers a node *)

Definition all_registered f : Prop := Forall (fun p => f p.1 <> SReg) comps.
#[local] Instance all_registered_dec f : Decision (all_registered f).
Proof. unfold all_registered. apply _. Defined.

Lemma registered_all f : all_registered f -> registered f = comps.
Proof.
  unfold all_registered, registered. clear. induction 1 as [|p l Hp Hl IH]; [done|]. rewrite filter_cons, decide_True by done. by rewrite IH.
Qed.

Lemma count_registered f r : count r (registered f) + count r (filter (fun p => ~ f p.1 <> SReg) comps) = count r comps.
Proof. rewrite <- role_count_app. unfold registered. by rewrite filter_app_complement. Qed.

Lemma registered_full f :
  bool_decide (FLAGS_num_workers <= count WORKER (registered f)) && bool_decide (FLAGS_num_servers <= count SERVER (registered f)) =
  bool_decide (all_registered f).
Proof.
  destruct (decide (all_registered f)) as [Ha|Ha].
  - rewrite (registered_all f Ha), Hworkers, Hservers, !bool_decide_eq_true_2 by done. done.
  - rewrite (bool_decide_eq_false_2 (all_registered f)) by done. apply not_Forall_Exists in Ha; [|apply _]. apply Exists_exists in Ha as (q & Hq & Hr).
    pose proof (count_registered f WORKER) as HW. pose proof (count_registered f SERVER) as HS. rewrite Hworkers in HW. rewrite Hservers in HS.
    assert (q ∈ filter (fun p => ~ f p.1 <> SReg) comps) as Hin by (by apply list_elem_of_filter).
    assert (forall r, role q.2 = r -> 0 < count r (filter (fun p => ~ f p.1 <> SReg) comps)) as Hpos.
    { intros r Er. apply elem_of_Permutation in Hin as [k Hk]. rewrite Hk. unfold count. rewrite filter_cons, decide_True by done. simpl. lia. }
    rewrite Forall_forall in Hroles. specialize (Hroles q Hq). unfold is_comp in Hroles. destruct (role q.2) eqn:Er; try done.
    + specialize (Hpos SERVER eq_refl). rewrite (bool_decide_eq_false_2 (FLAGS_num_servers <= _)) by lia. apply andb_false_r.
    + specialize (Hpos WORKER eq_refl). rewrite bool_decide_eq_false_2 by lia. done.
Qed.

Lemma count_table f hn R r : hn.(role) = SCHEDULER -> r <> SCHEDULER -> map sig R ≡ₚ map sig (registered f) ->
  count r ((scheduler, hn) :: R) = count r (registered f).
Proof. intros Hh Hr Hs. rewrite <- (count_sig r _ _ Hs). unfold count. by rewrite filter_cons, decide_False by (simpl; congruence). Qed.

Lemma table_whole f L : table f L -> all_registered f -> whole L.
Proof. intros (hn & R & E & Hh & Hs & Ho & _) Ha. rewrite (registered_all f Ha) in Hs. by exists hn, R. Qed.

(** The workers and servers of a whole table. *)
Lemma whole_comps L : whole L -> map fst (filter (fun p => is_comp p.2 = true) L) ≡ₚ map fst comps.
Proof.
  intros (hn & R & -> & Hh & Hs & _). rewrite filter_cons, decide_False by (simpl; unfold is_comp; by rewrite Hh).
  assert (map fst R ≡ₚ map fst comps) as HR.
  { assert (forall l, map fst l = map fst (map sig l)) as Hm by (clear; intros l; by rewrite map_map). by rewrite (Hm R), (Hm comps), Hs. }
  rewrite <- HR. f_equiv. rewrite (filter_same _ (fun _ => True)); [by rewrite filter_all by (by apply Forall_forall)|]. intros q Hq. split; [done|]. intros _.
  assert (sig q ∈ map sig comps) as Hq' by (rewrite <- Hs; by apply list_elem_of_fmap_2). apply list_elem_of_fmap in Hq' as (q' & Eq & Hq').
  rewrite Forall_forall in Hroles. specialize (Hroles q' Hq'). unfold is_comp, sig in *. injection Eq as _ Er. by rewrite Er.
Qed.

Lemma Process_register f L m msg p : table f L -> knows (scheduler, sched) L m -> m.(node_assigner_) = Some (assigner (tail L)) ->
  p ∈ comps -> f p.1 = SReg -> m.(inited_) = false -> m.(queue_) = [] -> untimed msg = (p.1, scheduler, Request REGISTER_NODE [p]) ->
  exists m' L', Process msg m = Ok (Some (m', true)) /\ table (upd f p.1 SWait) L' /\ knows (scheduler, sched) L' m' /\
    m'.(node_assigner_) = Some (assigner (tail L')) /\ m'.(inited_) = false /\ m'.(done_) = m.(done_) /\ m'.(active_nodes_) = m.(active_nodes_) /\
    map untimed m'.(queue_) ≡ₚ (if bool_decide (all_registered (upd f p.1 SWait)) then map (fun q => (scheduler, q.1, Request ADD_NODE L')) comps else []) ++
      [(scheduler, p.1, Reply)].
Proof.
  intros (hn & R & -> & Hh & Hsig & Hord & Hrk) [K1 K2 K3 K4 K5 K6 K7] Ha Hp Hf Hi Hq Hmsg. destruct p as [k n]. cbn [fst snd tail] in *.
  destruct (comp_not_scheduler (k, n) Hp) as (Hk & _ & Hkg). cbn [fst] in *.
  pose proof (registered_upd f (k, n) SWait Hp Hf ltac:(done)) as Hreg. cbn [fst] in Hreg. set (f' := upd f k SWait) in *.
  assert (is_comp n = true) as Hcomp by (rewrite Forall_forall in Hroles; apply (Hroles _ Hp)).
  destruct (Assign_ranked R k n Hrk Hcomp) as (n' & Easg & Hrole & Hrk').
  { intros Er. pose proof (count_registered f' SERVER) as Hc. rewrite Hservers, Hreg in Hc. rewrite (count_sig SERVER _ _ Hsig).
    unfold count at 1 in Hc. rewrite filter_cons, decide_True in Hc by done. simpl in Hc. unfold count. lia. }
  assert (IsScheduler m = true) as Hsm by (unfold IsScheduler; apply bool_decide_eq_true_2; rewrite K2; done).
  unfold Process. unfold untimed in Hmsg. injection Hmsg as Es _ Ec. rewrite Ec, Hsm. cbn [check mbind outcome_bind length].
  rewrite bool_decide_eq_true_2 by done. cbn [check mbind outcome_bind read_at lookup list_lookup]. rewrite Ha, Easg. cbn [mbind outcome_bind].
  set (m0 := set_assigner (Some (assigner ((k, n') :: R))) m).
  assert (find k (nodes_ m0) = None) as Hfind.
  { change (nodes_ m0) with (nodes_ m). rewrite K3. apply find_None. simpl. rewrite not_elem_of_cons. split; [done|].
    assert (forall l, map fst l = map fst (map sig l)) as Hm by (clear; intros l; by rewrite map_map). rewrite Hm, Hsig, <- Hm.
    intros Hin. apply list_elem_of_fmap in Hin as (q & Eq & Hin). apply list_elem_of_filter in Hin as [Hq1 _]. rewrite <- Eq in Hq1. done. }
  destruct (AddNode_new k n' m0 K6 Hfind K7 Hi) as (cs & Hcs & ->). cbn [mbind outcome_bind].
  assert (put String.leb k n' ((scheduler, hn) :: R) = (scheduler, hn) :: put String.leb k n' R) as Eput.
  { apply put_first. rewrite Forall_forall in Hbefore. apply (Hbefore _ Hp). }
  assert (find k R = None) as HfR.
  { change (nodes_ m0) with (nodes_ m) in Hfind. rewrite K3 in Hfind. simpl in Hfind. by rewrite decide_False in Hfind. }
  pose proof (put_new k n' R HfR) as HpR. set (L' := (scheduler, hn) :: put String.leb k n' R) in *.
  assert (table f' L') as HT.
  { exists hn, (put String.leb k n' R). split; [done|]. split; [done|]. split; [|split].
    - rewrite HpR, Hreg. simpl. rewrite Hsig. unfold sig at 1 3. simpl. by rewrite Hrole.
    - rewrite <- Eput. apply put_in_order; [done|]. change (nodes_ m0) with (nodes_ m) in Hfind. by rewrite K3 in Hfind.
    - by eapply ranked_perm. }
  assert (forall r, Z.of_nat (count r L') = (Z.of_nat (count r ((scheduler, hn) :: R)) + count_role r n')%Z) as HcL.
  { intros r. rewrite <- (count_role_app r _ (k, n')). f_equal. unfold L'. rewrite HpR. apply role_count_perm. rewrite Permutation_app_comm. simpl. constructor. }
  assert (knows (scheduler, sched) L' (added k n' cs m0)) as HK.
  { split; simpl; try done.
    - rewrite K1. simpl. rewrite decide_False by done. done.
    - by rewrite K3, Eput.
    - by rewrite K4, HcL.
    - by rewrite K5, HcL. }
  assert (assigner ((k, n') :: R) = assigner (tail L')) as Eas by (unfold assigner, L'; simpl tail; by rewrite HpR).
  assert (full (added k n' cs m0) = bool_decide (all_registered f')) as Hfull.
  { unfold full. rewrite (k_workers _ _ _ HK), (k_servers _ _ _ HK). destruct HT as (hn1 & R1 & E1 & Hh1 & Hs1 & _). rewrite E1.
    rewrite (count_table f' hn1 R1 WORKER), (count_table f' hn1 R1 SERVER) by done. rewrite <- registered_full.
    f_equal; apply bool_decide_ext; lia. }
  unfold announce. rewrite Hfull. assert (IsScheduler (added k n' cs m0) = true) as ->.
  { unfold IsScheduler. apply bool_decide_eq_true_2. rewrite (k_role _ _ _ HK). done. }
  eexists _, L'. split; [done|]. split; [done|].
  assert (nodes_ (added k n' cs m0) = L') as HN by apply HK. rewrite HN.
  destruct (bool_decide (all_registered f')) eqn:Ea.
  - destruct (send_group ADD_NODE L' (added k n' cs m0)) as (t & ->). rewrite HN. unfold SendTask. rewrite Es, decide_False by done.
    apply bool_decide_eq_true in Ea. pose proof (whole_comps L' (table_whole f' L' HT Ea)) as Hcm.
    destruct HK as [G1 G2 G3 G4 G5 G6 G7]. split; [by split|]. split_and!; try done; [by rewrite <- Eas|].
    simpl. rewrite Hq. simpl. rewrite map_app, !map_map. unfold untimed. simpl. rewrite K1. simpl.
    apply Permutation_app_tail. change (fun x => (scheduler, x, Request ADD_NODE L')) with (fun x : NodeID => (scheduler, x, Request ADD_NODE L')).
    rewrite <- (map_map fst (fun x => (scheduler, x, Request ADD_NODE L'))), <- (map_map fst (fun x => (scheduler, x, Request ADD_NODE L')) comps).
    by rewrite Hcm.
  - unfold SendTask. rewrite Es, decide_False by done. destruct HK as [G1 G2 G3 G4 G5 G6 G7]. split; [by split|]. split_and!; try done; [by rewrite <- Eas|].
    simpl. rewrite Hq. unfold untimed. simpl. by rewrite K1.
Qed.

(** *** The invariant *)

(** Nodes register; tables are sent; the applications run; the nodes exit. *)
Inductive phase := PRegister | PTables | PRun | PExit.

Definition allowed (ph : phase) (st : status) : bool :=
  match ph, st with
  | PRegister, (SReg | SWait) | PTables, (SAdd | SReady | SActive) | PRun, (SGo | SRun | SLeave | SLeft) | PExit, (SExit | SDone) => true
  | _, _ => false
  end.
Definition phase_ok (ph : phase) f : Prop :=
  Forall (fun p => allowed ph (f p.1) = true) comps /\
  match ph with
  | PRegister => exists p, p ∈ comps /\ f p.1 = SReg
  | PTables => exists p, p ∈ comps /\ f p.1 <> SActive
  | _ => True
  end.
Definition is_active (st : status) : bool := match st with SActive | SGo | SRun | SLeave => true | _ => false end.
Definition ran (st : status) : bool := match st with SRun | SLeave | SLeft | SExit | SDone => true | _ => false end.
Definition left_ (st : status) : bool := match st with SLeave | SLeft | SExit | SDone => true | _ => false end.

(** The message that a status stands for. *)
Definition msgs (L : list (NodeID * Node)) (p : NodeID * Node) (st : status) : list (NodeID * NodeID * Control) :=
  match st with
  | SReg => [(p.1, scheduler, Request REGISTER_NODE [p])]
  | SAdd => [(scheduler, p.1, Request ADD_NODE L)]
  | SReady => [(p.1, scheduler, Request READY_TO_RUN [])]
  | SGo => [(scheduler, p.1, Request READY_TO_RUN [])]
  | SLeave => [(p.1, scheduler, Request READY_TO_EXIT [])]
  | SExit => [(scheduler, p.1, Request EXIT [])]
  | _ => []
  end.
Definition flow (L : list (NodeID * Node)) f : list (NodeID * NodeID * Control) := concat (map (fun p => msgs L p (f p.1)) comps).

Record comp_ok (L : list (NodeID * Node)) (p : NodeID * Node) (st : status) (m : Manager) : Prop := {
  co_knows : knows p (match st with SReg | SWait | SAdd => [] | _ => L end) m;
  co_inited : m.(inited_) = ran st; co_done : m.(done_) = bool_decide (st = SDone); co_queue : m.(queue_) = [] }.

(** Messages that change nothing: replies, and the last one of the scheduler. *)
Definition idle_msg (leave : bool) (x : NodeID * NodeID * Control) : Prop :=
  x.2 = Reply /\ x.1.2 ∈ scheduler :: map fst comps \/ x = (scheduler, scheduler, Request EXIT []) /\ leave = true.

Record sinv (ph : phase) f (s : System) (ms : Manager) (L : list (NodeID * Node)) (junk : list (NodeID * NodeID * Control)) : Prop := {
  si_phase : phase_ok ph f; si_table : table f L;
  si_mgr : s.(mgrs) !! scheduler = Some ms; si_knows : knows (scheduler, sched) L ms; si_assigner : ms.(node_assigner_) = Some (assigner (tail L));
  si_active : forall id, id ∈ ms.(active_nodes_) <-> id ∈ map fst comps /\ is_active (f id) = true;
  si_inited : ms.(inited_) = match ph with PRun | PExit => true | _ => false end; si_queue : ms.(queue_) = [];
  si_comp : forall p, p ∈ comps -> exists m, s.(mgrs) !! p.1 = Some m /\ comp_ok L p (f p.1) m;
  si_net : map untimed s.(net) ≡ₚ flow L f ++ junk; si_junk : Forall (idle_msg s.(leaving)) junk;
  si_stopped : forall p, p ∈ comps -> p.1 ∈ s.(stopped) <-> left_ (f p.1) = true;
  si_stopped_s : scheduler ∈ s.(stopped) <-> ph = PExit;
  si_leaving : s.(leaving) = true -> ph = PExit; si_done : ms.(done_) = true -> s.(leaving) = true;
  si_exit : s.(leaving) = true -> ms.(done_) = true \/ (scheduler, scheduler, Request EXIT []) ∈ junk;
  si_dom : forall id, is_Some (s.(mgrs) !! id) -> id ∈ scheduler :: map fst comps }.

(** What is still to be done. *)
Definition wt (st : status) : nat :=
  match st with SReg => 10 | SWait => 9 | SAdd => 8 | SReady => 7 | SActive => 6 | SGo => 5 | SRun => 4 | SLeave => 3 | SLeft => 2 | SExit => 1 | SDone => 0 end.
Definition total f : nat := sum_list (map (fun p => wt (f p.1)) comps).
Definition remaining f (s : System) (junk : list (NodeID * NodeID * Control)) : nat := 2 * total f + length junk + (if s.(leaving) then 0 else 2).

Definition holds_with (n : nat) (s : System) : Prop := exists ph f ms L junk, sinv ph f s ms L junk /\ remaining f s junk < n.

Lemma map_upd {A} f p st (cs : list (NodeID * Node)) (g : NodeID * Node -> status -> A) : (forall q, q ∈ cs -> q.1 <> p) ->
  map (fun q => g q (upd f p st q.1)) cs = map (fun q => g q (f q.1)) cs.
Proof. intros Hq. apply map_ext_in. intros q Hin. rewrite upd_other; [done|]. apply Hq. by apply list_elem_of_In. Qed.

(** One node goes on. *)
Lemma advance L f p st : p ∈ comps -> exists rest,
  flow L f ≡ₚ msgs L p (f p.1) ++ rest /\ flow L (upd f p.1 st) ≡ₚ msgs L p st ++ rest /\ total (upd f p.1 st) + wt (f p.1) = total f + wt st.
Proof.
  intros Hp. destruct (comps_split p Hp) as (cs & Hcs & Hne). exists (concat (map (fun q => msgs L q (f q.1)) cs)). unfold flow, total. split_and!.
  - by rewrite Hcs.
  - rewrite Hcs. cbn [map concat]. rewrite upd_same. rewrite (map_upd f p.1 st cs (msgs L)); [done|]. intros q Hq. by apply Hne.
  - assert (forall g : status -> nat, sum_list (map (fun q => g (upd f p.1 st q.1)) comps) = g st + sum_list (map (fun q => g (f q.1)) cs)) as Hu.
    { intros g. rewrite Hcs. cbn [map sum_list]. rewrite upd_same. rewrite (map_upd f p.1 st cs (fun _ => g)); [done|]. intros q Hq. by apply Hne. }
    rewrite Hu. assert (sum_list (map (fun q => wt (f q.1)) comps) = wt (f p.1) + sum_list (map (fun q => wt (f q.1)) cs)) as -> by (by rewrite Hcs). lia.
Qed.

(** Which message was received. *)
Lemma pick ph f s ms L junk n1 msg n2 : sinv ph f s ms L junk -> s.(net) = n1 ++ msg :: n2 ->
  (exists p, p ∈ comps /\ msgs L p (f p.1) = [untimed msg] /\ forall st, map untimed (n1 ++ n2) ++ msgs L p st ≡ₚ flow L (upd f p.1 st) ++ junk) \/
  (exists junk', junk ≡ₚ untimed msg :: junk' /\ map untimed (n1 ++ n2) ≡ₚ flow L f ++ junk').
Proof.
  intros Hs En. pose proof (si_net _ _ _ _ _ _ Hs) as Hn. rewrite En, map_app in Hn. cbn [map] in Hn. rewrite <- Permutation_middle, <- map_app in Hn.
  assert (untimed msg ∈ flow L f ++ junk) as Hin by (rewrite <- Hn; left). apply elem_of_app in Hin as [Hin|Hin].
  - left. unfold flow in Hin. apply list_elem_of_In, in_concat in Hin as (l & Hl & Hx). apply in_map_iff in Hl as (p & <- & Hp). apply list_elem_of_In in Hp.
    exists p. split; [done|]. assert (msgs L p (f p.1) = [untimed msg]) as Em.
    { destruct (f p.1); simpl in Hx; try done; destruct Hx as [<-|[]]; done. }
    split; [done|]. intros st. destruct (advance L f p st Hp) as (rest & H1 & H2 & _). rewrite H1, Em in Hn. cbn [app] in Hn. apply (inj (cons (untimed msg))) in Hn.
    rewrite H2, Hn. by rewrite (Permutation_app_comm _ (msgs L p st)), app_assoc.
  - right. apply elem_of_Permutation in Hin as [junk' Hj]. exists junk'. split; [done|]. rewrite Hj, <- Permutation_middle in Hn. by apply (inj (cons (untimed msg))) in Hn.
Qed.

Lemma total_upd f p st : p ∈ comps -> total (upd f p.1 st) + wt (f p.1) = total f + wt st.
Proof. intros Hp. by destruct (advance [] f p st Hp) as (_ & _ & _ & E). Qed.

Lemma table_same f f' L : (forall p, p ∈ comps -> f p.1 <> SReg <-> f' p.1 <> SReg) -> table f L -> table f' L.
Proof.
  intros Hf (hn & R & E & Hh & Hs & Ho & Hr). exists hn, R. split_and!; try done. rewrite Hs. unfold registered.
  rewrite (filter_same (fun p => f p.1 <> SReg) (fun p => f' p.1 <> SReg)); [done|]. intros p Hp. by apply Hf.
Qed.

Lemma upd_allowed ph f p st : p ∈ comps -> Forall (fun q => allowed ph (f q.1) = true) comps -> allowed ph st = true ->
  Forall (fun q => allowed ph (upd f p.1 st q.1) = true) comps.
Proof.
  intros Hp Hf Hst. rewrite Forall_forall in *. intros q Hq. unfold upd. destruct (decide (q.1 = p.1)); [done|by apply Hf].
Qed.

(** A worker or a server goes on, with what it sends; nothing changes for the others. *)
Lemma comp_move ph f s ms L junk p st m' junk' s' : sinv ph f s ms L junk -> p ∈ comps -> s'.(mgrs) = <[p.1 := m']> s.(mgrs) -> s'.(leaving) = s.(leaving) ->
  comp_ok L p st m' -> map untimed s'.(net) ≡ₚ flow L (upd f p.1 st) ++ junk ++ junk' -> Forall (idle_msg s.(leaving)) junk' ->
  (forall q, q ∈ comps -> q.1 ∈ s'.(stopped) <-> left_ (upd f p.1 st q.1) = true) -> (scheduler ∈ s'.(stopped) <-> scheduler ∈ s.(stopped)) ->
  f p.1 <> SReg -> st <> SReg -> phase_ok ph (upd f p.1 st) -> is_active st = is_active (f p.1) -> length junk' + 2 * wt st < 2 * wt (f p.1) ->
  holds_with (remaining f s junk) s'.
Proof.
  intros Hs Hp Em El Hm Hnet Hjk Hst Hss Hr1 Hr2 Hph Hact Hwt. destruct (comp_not_scheduler p Hp) as (Hn & _).
  exists ph, (upd f p.1 st), ms, L, (junk ++ junk'). destruct Hs as [I1 I2 I3 I4 I5 I6 I7 I8 I9 I10 I11 I12 I13 I14 I15 I16 I17]. split.
  - split; try done; rewrite ?El, ?Hss; try done.
    + eapply table_same; [|exact I2]. intros q Hq. unfold upd. destruct (decide (q.1 = p.1)) as [->|]; naive_solver.
    + by rewrite Em, lookup_insert_ne.
    + intros id. rewrite I6. unfold upd. destruct (decide (id = p.1)) as [->|]; [by rewrite Hact|done].
    + intros q Hq. rewrite Em. destruct (decide (q.1 = p.1)) as [E|Hne].
      * rewrite E, lookup_insert_eq, upd_same. exists m'. split; [done|].
        destruct Hm as [[M1 M2 M3 M4 M5 M6 M7] M8 M9 M10]. split; try done. split; try done; [congruence|]. rewrite M2. symmetry.
        destruct q as [k n]. by apply (sig_role p k n).
      * rewrite lookup_insert_ne by congruence. rewrite upd_other by done. by apply I9.
    + by apply Forall_app.
    + intros Hl. destruct (I16 Hl) as [|Hin]; [by left|]. right. rewrite elem_of_app. by left.
    + intros id Hid. rewrite Em in Hid. apply lookup_insert_is_Some in Hid as [<-|[_ ?]]; [right; by apply list_elem_of_fmap_2|by apply I17].
  - unfold remaining. rewrite El, length_app. pose proof (total_upd f p st Hp). lia.
Qed.

(** The scheduler goes on, and the others with it. *)
Lemma sched_move ph f s ms L junk ph' f' ms' L' junk' s' : sinv ph f s ms L junk ->
  s'.(mgrs) = <[scheduler := ms']> s.(mgrs) -> s'.(leaving) = s.(leaving) -> phase_ok ph' f' -> table f' L' -> knows (scheduler, sched) L' ms' ->
  ms'.(node_assigner_) = Some (assigner (tail L')) ->
  (forall id, id ∈ ms'.(active_nodes_) <-> id ∈ map fst comps /\ is_active (f' id) = true) ->
  ms'.(inited_) = match ph' with PRun | PExit => true | _ => false end -> ms'.(queue_) = [] -> ms'.(done_) = ms.(done_) ->
  (forall q m, q ∈ comps -> comp_ok L q (f q.1) m -> comp_ok L' q (f' q.1) m) ->
  map untimed s'.(net) ≡ₚ flow L' f' ++ junk ++ junk' -> Forall (idle_msg s.(leaving)) junk' ->
  (forall q, q ∈ comps -> q.1 ∈ s'.(stopped) <-> left_ (f' q.1) = true) -> (scheduler ∈ s'.(stopped) <-> ph' = PExit) -> (ph = PExit -> ph' = PExit) ->
  length junk' + 2 * total f' < 2 * total f -> holds_with (remaining f s junk) s'.
Proof.
  intros Hs Em El Hph Ht Hk Ha Hact Hi Hq Hd Hcomp Hnet Hjk Hst Hss Hexit Hwt.
  exists ph', f', ms', L', (junk ++ junk'). destruct Hs as [I1 I2 I3 I4 I5 I6 I7 I8 I9 I10 I11 I12 I13 I14 I15 I16 I17]. split.
  - split; try done; rewrite ?El, ?Hd; try done.
    + by rewrite Em, lookup_insert_eq.
    + intros q Hq'. destruct (comp_not_scheduler q Hq') as (Hn & _). rewrite Em, lookup_insert_ne by done. destruct (I9 q Hq') as (m & E & Hm).
      exists m. split; [done|]. by apply Hcomp.
    + by apply Forall_app.
    + intros Hl. by apply Hexit, I14.
    + intros Hl. destruct (I16 Hl) as [|Hin]; [by left|]. right. rewrite elem_of_app. by left.
    + intros id Hid. rewrite Em in Hid. apply lookup_insert_is_Some in Hid as [<-|[_ ?]]; [left|by apply I17].
  - unfold remaining. rewrite El, length_app. lia.
Qed.

(** A message that changes nothing is received. *)
Lemma idle_move ph f s ms L junk junk' to m m' s' x : sinv ph f s ms L junk -> junk ≡ₚ x :: junk' -> s.(mgrs) !! to = Some m ->
  s'.(mgrs) = <[to := m']> s.(mgrs) -> s'.(leaving) = s.(leaving) -> s'.(stopped) = s.(stopped) -> map untimed s'.(net) ≡ₚ flow L f ++ junk' ->
  (m' = m /\ x.2 = Reply \/ to = scheduler /\ m' = set_flags m.(inited_) true m.(in_exit_) m /\ s.(leaving) = true) -> holds_with (remaining f s junk) s'.
Proof.
  intros Hs Hj Hto Em El Est Hnet Hcase. pose proof Hs as [I1 I2 I3 I4 I5 I6 I7 I8 I9 I10 I11 I12 I13 I14 I15 I16 I17].
  assert (length junk = S (length junk')) as Hlen by (by rewrite Hj). assert (Forall (idle_msg (leaving s)) junk') as Hjk by (rewrite Hj in I11; by inversion I11).
  destruct Hcase as [[-> Hx]|(-> & -> & Hl)].
  - exists ph, f, ms, L, junk'. split; [|unfold remaining; rewrite El; lia]. rewrite insert_id in Em by done.
    split; try done; rewrite ?El, ?Em, ?Est; try done. intros Hl. destruct (I16 Hl) as [|Hin]; [by left|]. right.
    rewrite Hj in Hin. apply elem_of_cons in Hin as [<-|]; done.
  - rewrite I3 in Hto. injection Hto as <-. exists ph, f, (set_flags (inited_ ms) true (in_exit_ ms) ms), L, junk'.
    split; [|unfold remaining; rewrite El; lia]. destruct I4. split; try done; rewrite ?El, ?Est; try done.
    + by rewrite Em, lookup_insert_eq.
    + intros q Hq. destruct (comp_not_scheduler q Hq) as (Hn & _). rewrite Em, lookup_insert_ne by done. by apply I9.
    + intros _. by left.
    + intros id Hid. rewrite Em in Hid. apply lookup_insert_is_Some in Hid as [<-|[_ ?]]; [left|by apply I17].
Qed.

(** *** The messages, one kind after the other *)

(** What receiving a message does to the system. *)
Definition received (n : nat) (n1 n2 : list CMsg) (msg : CMsg) (m : Manager) (s : System) : Prop :=
  exists m' go, Process msg m = Ok (Some (m', go)) /\ holds_with n (update msg.(c_recver) m' (set_net (n1 ++ n2) s)).

Lemma phase_of ph f p st : phase_ok ph f -> p ∈ comps -> f p.1 = st -> allowed ph st = true.
Proof. intros [Ha _] Hp <-. rewrite Forall_forall in Ha. by apply Ha. Qed.

Lemma early_ok L L' q st st' m : comp_ok L q st m -> allowed PRegister st = true -> st' = SReg \/ st' = SWait \/ st' = SAdd -> comp_ok L' q st' m.
Proof. intros [C1 C2 C3 C4] Ha Hst. destruct st; try done; destruct Hst as [->|[->| ->]]; by split. Qed.

Lemma flow_const L st : flow L (fun _ => st) = concat (map (fun p => msgs L p st) comps).
Proof. done. Qed.

Lemma flow_one L st (g : NodeID * Node -> NodeID * NodeID * Control) : (forall p, msgs L p st = [g p]) -> flow L (fun _ => st) = map g comps.
Proof. intros Hg. rewrite flow_const. clear -Hg. induction comps as [|p l IH]; [done|]. cbn [map concat]. by rewrite Hg, IH. Qed.

Lemma flow_early L L' f : Forall (fun p => allowed PRegister (f p.1) = true) comps -> flow L f = flow L' f.
Proof. unfold flow. clear. induction 1 as [|p l Hp Hl IH]; [done|]. cbn [map concat]. rewrite IH. by destruct (f p.1). Qed.

Lemma flow_none L f : Forall (fun p => msgs L p (f p.1) = []) comps -> flow L f = [].
Proof. unfold flow. clear. induction 1 as [|p l Hp Hl IH]; [done|]. cbn [map concat]. by rewrite Hp, IH. Qed.

Lemma total_const f st : Forall (fun p => f p.1 = st) comps -> total f = length comps * wt st.
Proof. unfold total. clear. induction 1 as [|p l Hp Hl IH]; [done|]. cbn [map length]. simpl sum_list. rewrite Hp. cbn [Nat.mul]. by f_equal. Qed.

Lemma net_update s id m n : map untimed (update id m (set_net n s)).(net) = map untimed n ++ map untimed m.(queue_).
Proof. simpl. by rewrite map_app. Qed.

Lemma knows_queue p L m t q : knows p L m -> knows p L (set_queue t q m).
Proof. intros []. by split. Qed.

Lemma receive_register ph f s ms L junk n1 n2 msg p : sinv ph f s ms L junk -> p ∈ comps -> f p.1 = SReg ->
  untimed msg = (p.1, scheduler, Request REGISTER_NODE [p]) -> (forall st, map untimed (n1 ++ n2) ++ msgs L p st ≡ₚ flow L (upd f p.1 st) ++ junk) ->
  received (remaining f s junk) n1 n2 msg ms s.
Proof.
  intros Hs Hp Hf Hmsg Hnet. pose proof Hs as [I1 I2 I3 I4 I5 I6 I7 I8 I9 I10 I11 I12 I13 I14 I15 I16 I17].
  assert (ph = PRegister) as -> by (pose proof (phase_of _ _ _ _ I1 Hp Hf); by destruct ph). destruct I1 as [Hall _].
  destruct (Process_register f L ms msg p I2 I4 I5 Hp Hf I7 I8 Hmsg) as (m' & L' & E & Ht & Hk & Ha & Hi & Hd & Hact & Hq).
  exists m', true. split; [done|]. assert (c_recver msg = scheduler) as -> by (unfold untimed in Hmsg; congruence).
  set (f1 := upd f p.1 SWait) in *. specialize (Hnet SWait). cbn [msgs] in Hnet. rewrite app_nil_r in Hnet. fold f1 in Hnet.
  assert (Forall (fun q => allowed PRegister (f1 q.1) = true) comps) as Hall1 by (by apply upd_allowed).
  pose proof (total_upd f p SWait Hp) as Htot. fold f1 in Htot. rewrite Hf in Htot. cbn [wt] in Htot.
  assert (forall q, q ∈ comps -> is_active (f q.1) = false /\ left_ (f q.1) = false) as Hno.
  { intros q Hq'. rewrite Forall_forall in Hall. specialize (Hall q Hq'). by destruct (f q.1). }
  assert (forall id, id ∉ active_nodes_ m') as Hempty.
  { intros id. rewrite Hact, I6. intros [Hin Hia]. apply list_elem_of_fmap in Hin as (q & -> & Hq'). by destruct (Hno q Hq') as [? _]; congruence. }
  assert (forall st q, q ∈ comps -> st = SReg \/ st = SWait \/ st = SAdd -> q.1 ∈ stopped s <-> left_ st = true) as Hstop.
  { intros st q Hq' Hst. rewrite I12 by done. destruct (Hno q Hq') as [_ ->]. by destruct Hst as [->|[->| ->]]. }
  destruct (bool_decide (all_registered f1)) eqn:Ear.
  - apply bool_decide_eq_true in Ear.
    assert (Forall (fun q => f1 q.1 = SWait) comps) as Hwait.
    { unfold all_registered in Ear. rewrite Forall_forall in *. intros q Hq'. specialize (Hall1 q Hq'). specialize (Ear q Hq'). by destruct (f1 q.1). }
    eapply (sched_move PRegister f s ms L junk PTables (fun _ => SAdd) _ L' [(scheduler, p.1, Reply)]); try done.
    + split; [by apply Forall_forall|]. exists p. done.
    + eapply table_same; [|exact Ht]. intros q Hq'. unfold all_registered in Ear. rewrite Forall_forall in Ear. specialize (Ear q Hq'). naive_solver.
    + by apply knows_queue.
    + intros id. simpl. split; [intros Hin; by apply Hempty in Hin|]. intros [_ Hia]. done.
    + intros q m Hq' Hm. eapply early_ok; [exact Hm| |auto]. rewrite Forall_forall in Hall. by apply Hall.
    + rewrite net_update, Hnet, Hq. rewrite (flow_none L f1), (flow_one L' SAdd (fun q => (scheduler, q.1, Request ADD_NODE L'))); [|done|].
      * cbn [app]. rewrite !app_assoc. by rewrite (Permutation_app_comm junk).
      * eapply Forall_impl; [exact Hwait|]. by intros q ->.
    + constructor; [|constructor]. left. split; [done|]. right. simpl. by apply list_elem_of_fmap_2.
    + intros q Hq'. simpl. apply (Hstop SAdd); auto.
    + simpl. rewrite I13. done.
    + rewrite (total_const (fun _ => SAdd) SAdd) by (by apply Forall_forall). rewrite (total_const f1 SWait Hwait) in Htot. simpl in *. lia.
  - apply bool_decide_eq_false in Ear. eapply (sched_move PRegister f s ms L junk PRegister f1 _ L' [(scheduler, p.1, Reply)]); try done.
    + split; [done|]. apply not_Forall_Exists in Ear; [|apply _]. apply Exists_exists in Ear as (q & Hq' & Hr). exists q. split; [done|].
      destruct (decide (f1 q.1 = SReg)) as [|Hx]; [done|by destruct Hr].
    + by apply knows_queue.
    + intros id. simpl. split; [intros Hin; by apply Hempty in Hin|]. intros [Hin Hia]. apply list_elem_of_fmap in Hin as (q & -> & Hq').
      rewrite Forall_forall in Hall1. specialize (Hall1 q Hq'). by destruct (f1 q.1).
    + intros q m Hq' Hm. rewrite Forall_forall in Hall, Hall1. specialize (Hall1 q Hq'). eapply early_ok; [exact Hm|by apply Hall|].
      destruct (f1 q.1); try done; auto.
    + rewrite net_update, Hnet, Hq. rewrite (flow_early L L' f1) by done. cbn [app]. by rewrite <- app_assoc.
    + constructor; [|constructor]. left. split; [done|]. right. simpl. by apply list_elem_of_fmap_2.
    + intros q Hq'. simpl. apply Hstop; [done|]. rewrite Forall_forall in Hall1. specialize (Hall1 q Hq'). destruct (f1 q.1); try done; auto.
    + simpl. lia.
Qed.

Lemma send_reply to t m : to <> kCompGroup -> SendTask to t Reply m = set_queue m.(time_) (m.(queue_) ++ [mkCMsg m.(my_id) to t Reply]) m.
Proof. intros Hto. unfold SendTask. by rewrite decide_False. Qed.

Lemma whole_phase ph f L : phase_ok ph f -> table f L -> ph <> PRegister -> whole L.
Proof.
  intros [Ha _] Ht Hph. eapply table_whole; [exact Ht|]. unfold all_registered. rewrite Forall_forall in *. intros q Hq. specialize (Ha q Hq).
  destruct ph; try done; intros E; by rewrite E in Ha.
Qed.

Lemma stopped_upd ph f s ms L junk p st q : sinv ph f s ms L junk -> p ∈ comps -> left_ st = left_ (f p.1) -> q ∈ comps ->
  q.1 ∈ s.(stopped) <-> left_ (upd f p.1 st q.1) = true.
Proof.
  intros Hs Hp Hl Hq. rewrite (si_stopped _ _ _ _ _ _ Hs) by done. unfold upd. destruct (decide (q.1 = p.1)) as [->|]; [by rewrite Hl|done].
Qed.

Lemma reply_idle b from p : p ∈ comps -> Forall (idle_msg b) [(from, p.1, Reply)].
Proof. intros Hp. constructor; [|constructor]. left. split; [done|]. right. simpl. by apply list_elem_of_fmap_2. Qed.
Lemma reply_idle_s b from : Forall (idle_msg b) [(from, scheduler, Reply)].
Proof. constructor; [|constructor]. left. split; [done|]. left. Qed.

Lemma receive_add ph f s ms L junk n1 n2 msg p m : sinv ph f s ms L junk -> p ∈ comps -> f p.1 = SAdd -> s.(mgrs) !! p.1 = Some m ->
  untimed msg = (scheduler, p.1, Request ADD_NODE L) -> (forall st, map untimed (n1 ++ n2) ++ msgs L p st ≡ₚ flow L (upd f p.1 st) ++ junk) ->
  received (remaining f s junk) n1 n2 msg m s.
Proof.
  intros Hs Hp Hf Hm Hmsg Hnet. pose proof (si_phase _ _ _ _ _ _ Hs) as I1. pose proof (phase_of _ _ _ _ I1 Hp Hf) as Hal.
  assert (ph = PTables) as -> by (by destruct ph). pose proof (whole_phase _ _ _ I1 (si_table _ _ _ _ _ _ Hs) ltac:(done)) as HL.
  destruct (si_comp _ _ _ _ _ _ Hs p Hp) as (m0 & E0 & [C1 C2 C3 C4]). rewrite Hm in E0. injection E0 as <-. rewrite Hf in *. cbn [ran] in C2.
  assert (L <> []) as HL0 by (by destruct HL as (hn & R & -> & _)).
  destruct (add_all p L L HL Hp [] m eq_refl HL0 C1 C2 C4) as (m1 & E1 & K1 & Hi1 & Hd1 & Hq1).
  unfold untimed in Hmsg. injection Hmsg as Es Er Ec. unfold received, Process. rewrite Ec, E1. cbn [mbind outcome_bind].
  rewrite send_reply by (rewrite Es; apply Hgroup). eexists _, true. split; [done|]. rewrite Er, Es.
  eapply (comp_move PTables f s ms L junk p SReady _ [(p.1, scheduler, Reply)]); try done.
  - split; simpl; [by do 2 apply knows_queue|done| |done]. rewrite Hd1, C3. done.
  - rewrite net_update. cbn [set_queue queue_]. rewrite (map_app untimed (queue_ m1)), Hq1. cbn [map untimed c_sender c_recver c_ctrl]. rewrite (k_id _ _ _ K1).
    specialize (Hnet SReady). cbn [msgs] in Hnet. rewrite app_assoc, Hnet. by rewrite <- app_assoc.
  - apply reply_idle_s.
  - intros q Hq. apply (stopped_upd _ f s ms L junk p _ q Hs Hp); [by rewrite Hf|done].
  - by rewrite Hf.
  - split; [by apply upd_allowed; [|apply I1|]|]. exists p. by rewrite upd_same.
  - by rewrite Hf.
  - rewrite Hf. simpl. lia.
Qed.

Lemma receive_go ph f s ms L junk n1 n2 msg p m : sinv ph f s ms L junk -> p ∈ comps -> f p.1 = SGo -> s.(mgrs) !! p.1 = Some m ->
  untimed msg = (scheduler, p.1, Request READY_TO_RUN []) -> (forall st, map untimed (n1 ++ n2) ++ msgs L p st ≡ₚ flow L (upd f p.1 st) ++ junk) ->
  received (remaining f s junk) n1 n2 msg m s.
Proof.
  intros Hs Hp Hf Hm Hmsg Hnet. pose proof (si_phase _ _ _ _ _ _ Hs) as I1. pose proof (phase_of _ _ _ _ I1 Hp Hf) as Hal.
  assert (ph = PRun) as -> by (by destruct ph).
  destruct (si_comp _ _ _ _ _ _ Hs p Hp) as (m0 & E0 & [C1 C2 C3 C4]). rewrite Hm in E0. injection E0 as <-. rewrite Hf in *.
  unfold untimed in Hmsg. injection Hmsg as Es Er Ec. unfold received, Process. rewrite Ec.
  assert (IsScheduler m = false) as ->.
  { apply bool_decide_eq_false_2. rewrite (k_role _ _ _ C1). by apply comp_not_scheduler. }
  cbn [mbind outcome_bind]. rewrite send_reply by (rewrite Es; apply Hgroup). eexists _, true. split; [done|]. rewrite Er, Es.
  eapply (comp_move PRun f s ms L junk p SRun _ [(p.1, scheduler, Reply)]); try done.
  - split; simpl; try done. destruct C1. by split.
  - rewrite net_update. simpl. rewrite C4. unfold untimed at 2. simpl. rewrite (k_id _ _ _ C1).
    specialize (Hnet SRun). simpl in Hnet. rewrite app_nil_r in Hnet. rewrite Hnet. by rewrite <- app_assoc.
  - apply reply_idle_s.
  - intros q Hq. apply (stopped_upd _ f s ms L junk p _ q Hs Hp); [by rewrite Hf|done].
  - by rewrite Hf.
  - split; [by apply upd_allowed; [|apply I1|]|done].
  - by rewrite Hf.
  - rewrite Hf. simpl. lia.
Qed.

Lemma receive_exit ph f s ms L junk n1 n2 msg p m : sinv ph f s ms L junk -> p ∈ comps -> f p.1 = SExit -> s.(mgrs) !! p.1 = Some m ->
  untimed msg = (scheduler, p.1, Request EXIT []) -> (forall st, map untimed (n1 ++ n2) ++ msgs L p st ≡ₚ flow L (upd f p.1 st) ++ junk) ->
  received (remaining f s junk) n1 n2 msg m s.
Proof.
  intros Hs Hp Hf Hm Hmsg Hnet. pose proof (si_phase _ _ _ _ _ _ Hs) as I1. pose proof (phase_of _ _ _ _ I1 Hp Hf) as Hal.
  assert (ph = PExit) as -> by (by destruct ph).
  destruct (si_comp _ _ _ _ _ _ Hs p Hp) as (m0 & E0 & [C1 C2 C3 C4]). rewrite Hm in E0. injection E0 as <-. rewrite Hf in *.
  unfold untimed in Hmsg. injection Hmsg as Es Er Ec. unfold received, Process. rewrite Ec. eexists _, false. split; [done|]. rewrite Er.
  eapply (comp_move PExit f s ms L junk p SDone _ []); try done.
  - split; simpl; try done. destruct C1. by split.
  - rewrite net_update. simpl. rewrite C4. specialize (Hnet SDone). simpl in Hnet. by rewrite Hnet, app_nil_r.
  - intros q Hq. apply (stopped_upd _ f s ms L junk p _ q Hs Hp); [by rewrite Hf|done].
  - by rewrite Hf.
  - split; [by apply upd_allowed; [|apply I1|]|done].
  - by rewrite Hf.
  - rewrite Hf. simpl. lia.
Qed.

Lemma comps_length : length comps = FLAGS_num_workers + FLAGS_num_servers.
Proof.
  rewrite <- Hworkers, <- Hservers. clear -Hroles. unfold count. induction Hroles as [|p l Hp Hl IH]; [done|].
  rewrite !filter_cons. unfold is_comp in Hp. repeat case_decide; destruct (role p.2); try done; cbn [length]; rewrite (IH Hl); lia.
Qed.

(** The scheduler counts the nodes that are ready. *)
Lemma active_size f (X : gset NodeID) : (forall id, id ∈ X <-> id ∈ map fst comps /\ is_active (f id) = true) ->
  bool_decide (FLAGS_num_workers + FLAGS_num_servers <= base.size X) = bool_decide (Forall (fun q => is_active (f q.1) = true) comps).
Proof.
  intros HX. rewrite <- comps_length, <- (length_map fst comps). set (I := list_to_set (map fst comps) : gset NodeID).
  assert (base.size I = length (map fst comps)) as HI by (apply size_list_to_set, Hids).
  assert (X ⊆ I) as Hsub. { intros id Hin. apply HX in Hin as [Hin _]. by apply elem_of_list_to_set. }
  apply bool_decide_ext. rewrite Forall_forall. split.
  - intros Hle q Hq. assert (X = I) as HXI. { apply leibniz_equiv. apply set_subseteq_size_equiv; [done|]. lia. }
    assert (q.1 ∈ X) as Hin by (rewrite HXI; by apply elem_of_list_to_set, list_elem_of_fmap_2). by apply HX in Hin as [_ Hin].
  - intros Hall. rewrite <- HI. apply subseteq_size. intros id Hin. apply elem_of_list_to_set in Hin. apply HX. split; [done|].
    apply list_elem_of_fmap in Hin as (q & -> & Hq). by apply Hall.
Qed.

Lemma receive_ready ph f s ms L junk n1 n2 msg p : sinv ph f s ms L junk -> p ∈ comps -> f p.1 = SReady ->
  untimed msg = (p.1, scheduler, Request READY_TO_RUN []) -> (forall st, map untimed (n1 ++ n2) ++ msgs L p st ≡ₚ flow L (upd f p.1 st) ++ junk) ->
  received (remaining f s junk) n1 n2 msg ms s.
Proof.
  intros Hs Hp Hf Hmsg Hnet. pose proof Hs as [I1 I2 I3 I4 I5 I6 I7 I8 I9 I10 I11 I12 I13 I14 I15 I16 I17].
  pose proof (phase_of _ _ _ _ I1 Hp Hf) as Hal. assert (ph = PTables) as -> by (by destruct ph).
  pose proof (whole_phase _ _ _ I1 I2 ltac:(done)) as HL. destruct I1 as [Hall _].
  set (f1 := upd f p.1 SActive). specialize (Hnet SActive). cbn [msgs] in Hnet. rewrite app_nil_r in Hnet. fold f1 in Hnet.
  assert (Forall (fun q => allowed PTables (f1 q.1) = true) comps) as Hall1 by (by apply upd_allowed).
  pose proof (total_upd f p SActive Hp) as Htot. fold f1 in Htot. rewrite Hf in Htot. cbn [wt] in Htot.
  destruct (comp_not_scheduler p Hp) as (Hn & _ & Hpg).
  assert (forall id, id ∈ {[p.1]} ∪ active_nodes_ ms <-> id ∈ map fst comps /\ is_active (f1 id) = true) as Hact.
  { intros id. rewrite elem_of_union, elem_of_singleton, I6. unfold f1, upd. destruct (decide (id = p.1)) as [->|]; [|naive_solver].
    split; [|by left]. intros _. split; [by apply list_elem_of_fmap_2|done]. }
  assert (forall st q, q ∈ comps -> allowed PTables st = true \/ st = SGo -> q.1 ∈ stopped s <-> left_ st = true) as Hstop.
  { intros st q Hq Hst. rewrite I12 by done. rewrite Forall_forall in Hall. specialize (Hall q Hq).
    assert (left_ (f q.1) = false) as -> by (by destruct (f q.1)). destruct Hst as [Hst| ->]; [|done]. by destruct st. }
  unfold untimed in Hmsg. injection Hmsg as Es Er Ec. unfold received, Process. rewrite Ec, Er, Es.
  assert (IsScheduler ms = true) as -> by (apply bool_decide_eq_true_2; rewrite (k_role _ _ _ I4); done).
  rewrite (k_mutex _ _ _ I4). set (m1 := set_live ({[p.1]} ∪ active_nodes_ ms) _ _ ms).
  assert (knows (scheduler, sched) L m1) as K1 by (destruct I4; by split).
  rewrite (active_size f1 (active_nodes_ m1) Hact). destruct (bool_decide (Forall (fun q => is_active (f1 q.1) = true) comps)) eqn:Ea.
  - apply bool_decide_eq_true in Ea.
    assert (Forall (fun q => f1 q.1 = SActive) comps) as HA.
    { rewrite Forall_forall in *. intros q Hq. specialize (Hall1 q Hq). specialize (Ea q Hq). by destruct (f1 q.1). }
    destruct (send_group READY_TO_RUN [] m1) as (t & ->). rewrite (k_nodes _ _ _ K1). cbn [mbind outcome_bind].
    rewrite send_reply by done. eexists _, true. split; [done|].
    eapply (sched_move PTables f s ms L junk PRun (fun _ => SGo) _ L [(scheduler, p.1, Reply)]); try done.
    + split; [by apply Forall_forall|done].
    + eapply table_same; [|exact I2]. intros q Hq. rewrite Forall_forall in Hall. specialize (Hall q Hq). split; [done|]. intros _ E. by rewrite E in Hall.
    + destruct K1. by split.
    + intros id. simpl. rewrite Hact. split; [intros [? _]; done|]. intros [Hin _]. split; [done|]. apply list_elem_of_fmap in Hin as (q & -> & Hq).
      rewrite Forall_forall in Ea. by apply Ea.
    + intros q m Hq [C1 C2 C3 C4]. rewrite Forall_forall in HA, Hall. specialize (Hall q Hq). specialize (HA q Hq). unfold f1, upd in HA.
      destruct (I9 q Hq) as (m0 & _ & _). destruct (f q.1) eqn:Efq; try done; [|split; done..]. destruct (decide (q.1 = p.1)) as [Eq|]; [|congruence].
      rewrite Eq in Efq. congruence.
    + rewrite net_update, Hnet. cbn [set_queue set_flags queue_]. change (queue_ m1) with (queue_ ms). rewrite I8. cbn [app].
      rewrite map_app, !map_map. unfold untimed. cbn [c_sender c_recver c_ctrl map set_queue set_flags my_id]. change (my_id m1) with (my_id ms). rewrite (k_id _ _ _ I4).
      rewrite (flow_none L f1) by (eapply Forall_impl; [exact HA|]; by intros q ->).
      rewrite (flow_one L SGo (fun q => (scheduler, q.1, Request READY_TO_RUN []))) by done. cbn [app fst].
      rewrite <- (map_map fst (fun x => (scheduler, x, Request READY_TO_RUN []))), <- (map_map fst (fun x => (scheduler, x, Request READY_TO_RUN [])) comps).
      rewrite (whole_comps L HL). rewrite !app_assoc. by rewrite (Permutation_app_comm junk).
    + by apply reply_idle.
    + intros q Hq. apply (Hstop SGo); auto.
    + simpl. rewrite I13. done.
    + rewrite (total_const (fun _ => SGo) SGo) by (by apply Forall_forall). rewrite (total_const f1 SActive HA) in Htot. simpl in *. lia.
  - apply bool_decide_eq_false in Ea. cbn [mbind outcome_bind]. rewrite send_reply by done. eexists _, true. split; [done|].
    eapply (sched_move PTables f s ms L junk PTables f1 _ L [(scheduler, p.1, Reply)]); try done.
    + split; [done|]. apply not_Forall_Exists in Ea; [|apply _]. apply Exists_exists in Ea as (q & Hq & Hr). exists q. split; [done|].
      intros E. apply Hr. simpl. by rewrite E.
    + eapply table_same; [|exact I2]. intros q Hq. unfold f1, upd. destruct (decide (q.1 = p.1)) as [->|]; [|done]. by rewrite Hf.
    + by do 2 apply knows_queue.
    + intros q m Hq [C1 C2 C3 C4]. unfold f1, upd. destruct (decide (q.1 = p.1)) as [Eq|]; [|by split]. rewrite Eq, Hf in *. by split.
    + rewrite net_update, Hnet. cbn [set_queue queue_]. change (queue_ m1) with (queue_ ms). rewrite I8. cbn [app map untimed c_sender c_recver c_ctrl].
      change (my_id m1) with (my_id ms). rewrite (k_id _ _ _ I4). by rewrite <- app_assoc.
    + by apply reply_idle.
    + intros q Hq. apply Hstop; [done|]. rewrite Forall_forall in Hall1. left. by apply Hall1.
    + simpl. lia.
Qed.

Lemma receive_leave ph f s ms L junk n1 n2 msg p : sinv ph f s ms L junk -> p ∈ comps -> f p.1 = SLeave ->
  untimed msg = (p.1, scheduler, Request READY_TO_EXIT []) -> (forall st, map untimed (n1 ++ n2) ++ msgs L p st ≡ₚ flow L (upd f p.1 st) ++ junk) ->
  received (remaining f s junk) n1 n2 msg ms s.
Proof.
  intros Hs Hp Hf Hmsg Hnet. pose proof Hs as [I1 I2 I3 I4 I5 I6 I7 I8 I9 I10 I11 I12 I13 I14 I15 I16 I17].
  pose proof (phase_of _ _ _ _ I1 Hp Hf) as Hal. assert (ph = PRun) as -> by (by destruct ph). destruct I1 as [Hall _].
  set (f1 := upd f p.1 SLeft). specialize (Hnet SLeft). cbn [msgs] in Hnet. rewrite app_nil_r in Hnet. fold f1 in Hnet.
  pose proof (total_upd f p SLeft Hp) as Htot. fold f1 in Htot. rewrite Hf in Htot. cbn [wt] in Htot.
  destruct (comp_not_scheduler p Hp) as (Hn & _ & Hpg).
  unfold untimed in Hmsg. injection Hmsg as Es Er Ec. unfold received, Process. rewrite Ec, Er, Es.
  assert (IsScheduler ms = true) as -> by (apply bool_decide_eq_true_2; rewrite (k_role _ _ _ I4); done).
  cbn [check mbind outcome_bind]. rewrite (k_mutex _ _ _ I4). cbn [mbind outcome_bind]. set (m1 := set_live (active_nodes_ ms ∖ {[p.1]}) _ _ ms).
  rewrite send_reply by done. eexists _, true. split; [done|].
  eapply (sched_move PRun f s ms L junk PRun f1 _ L [(scheduler, p.1, Reply)]); try done.
  - split; [by apply upd_allowed|done].
  - eapply table_same; [|exact I2]. intros q Hq. unfold f1, upd. destruct (decide (q.1 = p.1)) as [->|]; [|done]. by rewrite Hf.
  - destruct I4. by split.
  - intros id. simpl. rewrite elem_of_difference, elem_of_singleton, I6. unfold f1, upd. destruct (decide (id = p.1)) as [->|]; naive_solver.
  - intros q m Hq [C1 C2 C3 C4]. unfold f1, upd. destruct (decide (q.1 = p.1)) as [Eq|]; [|by split]. rewrite Eq, Hf in *. by split.
  - rewrite net_update, Hnet. cbn [set_queue queue_]. change (queue_ m1) with (queue_ ms). rewrite I8. cbn [app map untimed c_sender c_recver c_ctrl].
    change (my_id m1) with (my_id ms). rewrite (k_id _ _ _ I4). by rewrite <- app_assoc.
  - by apply reply_idle.
  - intros q Hq. simpl. apply (stopped_upd _ f s ms L junk p _ q Hs Hp); [by rewrite Hf|done].
  - simpl. lia.
Qed.

Lemma same_queue m : m.(queue_) = [] -> set_queue m.(time_) [] m = m.
Proof. intros E. destruct m. simpl in *. by subst. Qed.

(** Every message that is on its way can be received, and the invariant holds then. *)
Lemma receive ph f s ms L junk n1 msg n2 m : sinv ph f s ms L junk -> s.(net) = n1 ++ msg :: n2 -> s.(mgrs) !! msg.(c_recver) = Some m ->
  received (remaining f s junk) n1 n2 msg m s.
Proof.
  intros Hs En Hm. destruct (pick _ _ _ _ _ _ _ _ _ Hs En) as [(p & Hp & Emsg & Hnet)|(junk' & Hj & Hnet)].
  - assert (forall to, c_recver msg = to -> s.(mgrs) !! to = Some m) as Hto by (by intros to <-).
    assert (forall x, [x] = [untimed msg] -> untimed msg = x) as Hone by (intros x Ex; congruence).
    destruct (f p.1) eqn:Ef; cbn [msgs] in Emsg; try done; apply Hone in Emsg;
      pose proof (f_equal (fun x => x.1.2) Emsg) as Er; cbn in Er; specialize (Hto _ Er);
      try (rewrite (si_mgr _ _ _ _ _ _ Hs) in Hto; injection Hto as <-).
    + by eapply receive_register.
    + by eapply receive_add.
    + by eapply receive_ready.
    + by eapply receive_go.
    + by eapply receive_leave.
    + by eapply receive_exit.
  - pose proof (si_junk _ _ _ _ _ _ Hs) as Hjk. rewrite Hj in Hjk. apply Forall_cons in Hjk as [[[Hr Hin]|[Hx Hl]] _].
    + cbn in Hr, Hin. assert (queue_ m = []) as Hq.
      { apply elem_of_cons in Hin as [E|Hin].
        - rewrite E, (si_mgr _ _ _ _ _ _ Hs) in Hm. injection Hm as <-. apply Hs.
        - apply list_elem_of_fmap in Hin as (q & E & Hq). destruct (si_comp _ _ _ _ _ _ Hs q Hq) as (m0 & E0 & C). rewrite E, E0 in Hm. injection Hm as <-. apply C. }
      exists m, true. split; [unfold Process; by rewrite Hr|].
      eapply (idle_move ph f s ms L junk junk' (c_recver msg) m m); try done; [|by rewrite net_update, Hq, app_nil_r|by left].
      simpl. by rewrite same_queue.
    + unfold untimed in Hx. injection Hx as Es Er Ec. rewrite Er in Hm. pose proof Hm as Hm0. rewrite (si_mgr _ _ _ _ _ _ Hs) in Hm0. injection Hm0 as <-.
      eexists _, false. split; [unfold Process; by rewrite Ec|]. rewrite Er. pose proof (si_queue _ _ _ _ _ _ Hs) as Hq.
      eapply (idle_move ph f s ms L junk junk' scheduler ms (set_flags (inited_ ms) true (in_exit_ ms) ms)); try done; [| |by right].
      * simpl. f_equal. by apply (same_queue (set_flags _ _ _ ms)).
      * rewrite net_update. simpl. by rewrite Hq, app_nil_r.
Qed.

(** *** The other steps *)

Lemma stop_move ph f s ms L junk id m : sinv ph f s ms L junk -> s.(mgrs) !! id = Some m -> IsScheduler m = false -> m.(inited_) = true -> id ∉ s.(stopped) ->
  holds_with (remaining f s junk) (set_stopped id (update id (Stop_node m) s)).
Proof.
  intros Hs Hm Hsc Hi Hst. assert (exists p, p ∈ comps /\ p.1 = id) as (p & Hp & <-).
  { pose proof (si_dom _ _ _ _ _ _ Hs id ltac:(by eexists)) as Hd. apply elem_of_cons in Hd as [->|Hd].
    - rewrite (si_mgr _ _ _ _ _ _ Hs) in Hm. injection Hm as <-. unfold IsScheduler in Hsc. apply bool_decide_eq_false in Hsc. destruct Hsc.
      rewrite (k_role _ _ _ (si_knows _ _ _ _ _ _ Hs)). done.
    - apply list_elem_of_fmap in Hd as (p & -> & Hp). by exists p. }
  destruct (si_comp _ _ _ _ _ _ Hs p Hp) as (m0 & E0 & C). rewrite Hm in E0. injection E0 as <-. pose proof (si_stopped _ _ _ _ _ _ Hs p Hp) as Hstop.
  pose proof (co_inited _ _ _ _ C) as Hran. rewrite Hi in Hran.
  assert (f p.1 = SRun) as Hf. { destruct (f p.1); try done; exfalso; apply Hst, Hstop; done. }
  pose proof (phase_of _ _ _ _ (si_phase _ _ _ _ _ _ Hs) Hp Hf) as Hal. assert (ph = PRun) as -> by (by destruct ph). rewrite Hf in *.
  destruct C as [C1 C2 C3 C4]. destruct (comp_not_scheduler p Hp) as (Hn & _).
  destruct (send_one scheduler READY_TO_EXIT [] m) as (t & Esend); [apply Hgroup|]. unfold Stop_node. rewrite Esend.
  eapply (comp_move PRun f s ms L junk p SLeave _ []); try done.
  - split; simpl; try done. destruct C1. by split.
  - simpl. rewrite map_app, C4. cbn [app map untimed c_sender c_recver c_ctrl]. rewrite (k_id _ _ _ C1), (si_net _ _ _ _ _ _ Hs), app_nil_r.
    destruct (advance L f p SLeave Hp) as (rest & H1 & H2 & _). rewrite Hf in H1. rewrite H1, H2. cbn [msgs app]. rewrite Permutation_app_comm. done.
  - intros q Hq. simpl. rewrite elem_of_union, elem_of_singleton, (si_stopped _ _ _ _ _ _ Hs q Hq). unfold upd.
    destruct (decide (q.1 = p.1)) as [->|]; naive_solver.
  - simpl. rewrite elem_of_union, elem_of_singleton. naive_solver.
  - by rewrite Hf.
  - split; [by apply upd_allowed; [|apply (si_phase _ _ _ _ _ _ Hs)|]|done].
  - by rewrite Hf.
  - rewrite Hf. simpl. lia.
Qed.

Lemma stop_scheduler_move ph f s ms L junk m' : sinv ph f s ms L junk -> ms.(inited_) = true -> scheduler ∉ s.(stopped) -> Stop_scheduler ms = Some m' ->
  holds_with (remaining f s junk) (set_stopped scheduler (update scheduler m' s)).
Proof.
  intros Hs Hi Hst E. pose proof Hs as [I1 I2 I3 I4 I5 I6 I7 I8 I9 I10 I11 I12 I13 I14 I15 I16 I17].
  assert (ph = PRun) as ->. { rewrite Hi in I7. destruct ph; try done. exfalso. by apply Hst, I13. }
  unfold Stop_scheduler in E. rewrite (k_mutex _ _ _ I4) in E. destruct (decide (active_nodes_ ms = ∅)) as [Hempty|]; [|done]. injection E as <-.
  pose proof (whole_phase _ _ _ I1 I2 ltac:(done)) as HL. destruct I1 as [Hall _].
  assert (Forall (fun q => f q.1 = SLeft) comps) as Hleft.
  { rewrite Forall_forall in *. intros q Hq. specialize (Hall q Hq).
    assert (is_active (f q.1) = false) as Hna.
    { destruct (is_active (f q.1)) eqn:Ea; [|done]. assert (q.1 ∈ active_nodes_ ms) as Hin by (apply I6; split; [by apply list_elem_of_fmap_2|done]).
      rewrite Hempty in Hin. by apply elem_of_empty in Hin. }
    by destruct (f q.1). }
  set (m1 := set_flags _ _ true ms). assert (knows (scheduler, sched) L m1) as K1 by (destruct I4; by split).
  destruct (send_group EXIT [] m1) as (t & ->). rewrite (k_nodes _ _ _ K1).
  eapply (sched_move PRun f s ms L junk PExit (fun _ => SExit) _ L []); try done.
  - split; [by apply Forall_forall|done].
  - eapply table_same; [|exact I2]. intros q Hq. rewrite Forall_forall in Hall. specialize (Hall q Hq). split; [done|]. intros _ E. by rewrite E in Hall.
  - destruct K1. by split.
  - intros id. simpl. rewrite Hempty. split; [by intros ?%elem_of_empty|]. by intros [_ ?].
  - intros q m Hq [C1 C2 C3 C4]. rewrite Forall_forall in Hleft. rewrite (Hleft q Hq) in *. by split.
  - simpl. rewrite map_app, I10, I8. cbn [app]. rewrite map_map. unfold untimed. cbn [c_sender c_recver c_ctrl]. change (my_id m1) with (my_id ms).
    rewrite (k_id _ _ _ I4), app_nil_r. cbn [fst]. rewrite (flow_none L f) by (eapply Forall_impl; [exact Hleft|]; by intros q ->).
    rewrite (flow_one L SExit (fun q => (scheduler, q.1, Request EXIT []))) by done.
    rewrite <- (map_map fst (fun x => (scheduler, x, Request EXIT [])) comps), (whole_comps L HL). cbn [app]. by rewrite Permutation_app_comm.
  - intros q Hq. simpl. rewrite elem_of_union, elem_of_singleton. split; [done|]. intros _. right. apply I12; [done|]. rewrite Forall_forall in Hleft. by rewrite (Hleft q Hq).
  - simpl. rewrite elem_of_union, elem_of_singleton. naive_solver.
  - rewrite (total_const (fun _ => SExit) SExit) by (by apply Forall_forall). rewrite (total_const f SLeft Hleft). simpl.
    assert (0 < length comps) by (destruct comps; [done|simpl; lia]). lia.
Qed.

Lemma stop_self_move ph f s ms L junk t : sinv ph f s ms L junk -> scheduler ∈ s.(stopped) -> s.(leaving) = false ->
  holds_with (remaining f s junk) (set_leaving (update scheduler (Stop_self t ms) s)).
Proof.
  intros Hs Hst Hl. pose proof Hs as [I1 I2 I3 I4 I5 I6 I7 I8 I9 I10 I11 I12 I13 I14 I15 I16 I17]. apply I13 in Hst as ->.
  unfold Stop_self, SendTask. rewrite (k_id _ _ _ I4). cbn [fst]. rewrite decide_False by apply Hgroup.
  exists PExit, f, ms, L, (junk ++ [(scheduler, scheduler, Request EXIT [])]). split.
  - assert (set_queue (time_ ms) [] ms = ms) as Hms by (by apply same_queue).
    split; try done; simpl.
    + rewrite lookup_insert_eq. f_equal. exact Hms.
    + intros q Hq. destruct (comp_not_scheduler q Hq) as (Hn & _). rewrite lookup_insert_ne by done. by apply I9.
    + rewrite map_app, I10, I8. cbn [app map untimed c_sender c_recver c_ctrl]. by rewrite app_assoc.
    + apply Forall_app. split; [|constructor; [by right|constructor]]. eapply Forall_impl; [exact I11|]. intros x [?|[_ ?]]; [by left|congruence].
    + intros _. right. rewrite elem_of_app. right. by apply list_elem_of_singleton.
    + intros id Hid. apply lookup_insert_is_Some in Hid as [<-|[_ ?]]; [left|by apply I17].
  - unfold remaining. simpl. rewrite Hl, length_app. simpl. lia.
Qed.

Lemma step_sim ph f s ms L junk s' : sinv ph f s ms L junk -> sys_step s s' -> holds_with (remaining f s junk) s'.
Proof.
  intros Hs Hstep. destruct Hstep as [s n1 msg n2 m m' go En Hm _ E|s id m Hm Hsc Hi Hst|s m m' Hm Hi Hst E|s m t Hm Hst Hl].
  - destruct (receive _ _ _ _ _ _ _ _ _ _ Hs En Hm) as (m1 & go1 & E1 & H1). rewrite E in E1. by injection E1 as <- <-.
  - by eapply stop_move.
  - rewrite (si_mgr _ _ _ _ _ _ Hs) in Hm. injection Hm as <-. by eapply stop_scheduler_move.
  - rewrite (si_mgr _ _ _ _ _ _ Hs) in Hm. injection Hm as <-. by eapply stop_self_move.
Qed.

Lemma put_Forall {A} (Q : Z * A -> Prop) k a (l : list (Z * A)) : Forall Q l -> Q (k, a) -> Forall Q (put Z.leb k a l).
Proof.
  intros Hl Hk. induction Hl as [|[k' a'] l Hp Hl IH]; simpl; [by constructor|]. destruct (decide (k = k')); [by constructor|].
  destruct (Z.leb k k'); by repeat constructor.
Qed.

Lemma AddCustomer_ok cid e m : ready e -> m.(nodes_mu_) = false -> customers_ok m.(customers_) -> find cid m.(customers_) = None ->
  exists cs, AddCustomer cid e m = Ok (Some (set_customers cs m)) /\ customers_ok cs.
Proof.
  intros He Hmu Hcs Hf. unfold AddCustomer. rewrite bool_decide_eq_true_2 by done. cbn [check mbind outcome_bind]. rewrite Hmu.
  destruct (Executor_AddNodes_ready (nodes_ m) e He) as (e' & -> & He'). cbn [mbind outcome_bind]. eexists. split; [done|]. by apply put_Forall.
Qed.

Lemma app_keeps ph f s ms L junk s' : sinv ph f s ms L junk -> app_step s s' -> exists ms', sinv ph f s' ms' L junk.
Proof.
  intros Hs Hstep. destruct Hstep as [s id m cid r e m' Hm He E]. apply new_Executor_ready in He.
  pose proof Hs as [I1 I2 I3 I4 I5 I6 I7 I8 I9 I10 I11 I12 I13 I14 I15 I16 I17].
  assert (nodes_mu_ m = false /\ customers_ok (customers_ m) /\ queue_ m = []) as (Hmu & Hcs & Hq).
  { pose proof (I17 id ltac:(by eexists)) as Hd. apply elem_of_cons in Hd as [->|Hd].
    - rewrite I3 in Hm. injection Hm as <-. by destruct I4.
    - apply list_elem_of_fmap in Hd as (p & -> & Hp). destruct (I9 p Hp) as (m0 & E0 & [C1 C2 C3 C4]). rewrite Hm in E0. injection E0 as <-. by destruct C1. }
  assert (find cid (customers_ m) = None) as Hfind.
  { unfold AddCustomer in E. destruct (bool_decide (find cid (customers_ m) = None)) eqn:Eb; [|done]. by apply bool_decide_eq_true in Eb. }
  destruct (AddCustomer_ok cid e m He Hmu Hcs Hfind) as (cs & E' & Hcs'). rewrite E in E'. injection E' as ->.
  assert (set_queue (time_ (set_customers cs m)) [] (set_customers cs m) = set_customers cs m) as Hsame by (by apply (same_queue (set_customers cs m))).
  assert (update id (set_customers cs m) s = mkSystem (<[id := set_customers cs m]> (mgrs s)) (net s) (stopped s) (leaving s)) as ->.
  { unfold update. rewrite Hsame. simpl. by rewrite Hq, app_nil_r. }
  assert (forall id', is_Some (<[id := set_customers cs m]> (mgrs s) !! id') -> id' ∈ scheduler :: map fst comps) as Hdom.
  { intros id' Hid. apply lookup_insert_is_Some in Hid as [<-|[_ ?]]; [apply I17; by eexists|by apply I17]. }
  destruct (decide (id = scheduler)) as [->|Hne].
  - rewrite I3 in Hm. injection Hm as <-. exists (set_customers cs ms). destruct I4. split; try done.
    + simpl. by rewrite lookup_insert_eq.
    + intros q Hq'. destruct (comp_not_scheduler q Hq') as (Hn & _). simpl. rewrite lookup_insert_ne by done. by apply I9.
  - exists ms. split; try done; simpl.
    + by rewrite lookup_insert_ne.
    + intros q Hq'. destruct (decide (q.1 = id)) as [<-|Hq1]; [|rewrite lookup_insert_ne by done; by apply I9].
      rewrite lookup_insert_eq. destruct (I9 q Hq') as (m0 & E0 & [C1 C2 C3 C4]). rewrite Hm in E0. injection E0 as <-. eexists. split; [done|].
      split; try done. destruct C1. by split.
Qed.

(** *** The start *)

Lemma Init_comp p : p ∈ comps -> exists m, Init (new_Manager p.1 p.2) = Ok (Some m) /\
  (forall L, comp_ok L p SReg (set_queue m.(time_) [] m)) /\ map untimed m.(queue_) = [(p.1, scheduler, Request REGISTER_NODE [p])].
Proof.
  intros Hp. destruct (comp_not_scheduler p Hp) as (_ & Hr & _). unfold Init.
  assert (IsScheduler (new_Manager p.1 p.2) = false) as -> by (by apply bool_decide_eq_false_2).
  destruct (send_one scheduler REGISTER_NODE [(my_id (new_Manager p.1 p.2), my_node (new_Manager p.1 p.2))] (new_Manager p.1 p.2)) as (t & ->); [apply Hgroup|].
  eexists. split; [done|]. split; [|by destruct p]. intros L. split; simpl; try done. split; simpl; try done. constructor.
Qed.

Lemma start_comps cs : cs ⊆ comps -> NoDup (map fst cs) -> forall s, exists s', foldM start_node cs s = Ok s' /\
  map untimed s'.(net) = map untimed s.(net) ++ map (fun p => (p.1, scheduler, Request REGISTER_NODE [p])) cs /\
  s'.(stopped) = s.(stopped) /\ s'.(leaving) = s.(leaving) /\ (forall id, id ∉ map fst cs -> s'.(mgrs) !! id = s.(mgrs) !! id) /\
  forall p, p ∈ cs -> exists m, s'.(mgrs) !! p.1 = Some m /\ forall L, comp_ok L p SReg m.
Proof.
  induction cs as [|p cs IH]; intros Hsub Hn s.
  { exists s. simpl. rewrite app_nil_r. split_and!; try done. intros p Hp. by apply elem_of_nil in Hp. }
  simpl in Hn. apply NoDup_cons in Hn as [Hn1 Hn2]. assert (p ∈ comps) as Hp by (apply Hsub; left). destruct (Init_comp p Hp) as (m & Em & Hm & Hq).
  cbn [foldM]. assert (start_node s p = Ok (update p.1 m s)) as -> by (unfold start_node; by rewrite Em). cbn [mbind outcome_bind]. set (s1 := update p.1 m s).
  destruct (IH ltac:(intros q Hq'; apply Hsub; by right) Hn2 s1) as (s' & E & N1 & N2 & N3 & N4 & N5). exists s'. split; [done|]. split; [|split_and!; try done].
  - rewrite N1. unfold s1. simpl. rewrite map_app, Hq. by rewrite <- app_assoc.
  - intros id Hid. simpl in Hid. apply not_elem_of_cons in Hid as [H1 H2]. rewrite N4 by done. unfold s1. simpl. by rewrite lookup_insert_ne.
  - intros q Hq'. apply elem_of_cons in Hq' as [->|Hq']; [|by apply N5]. rewrite N4 by done. unfold s1. simpl. rewrite lookup_insert_eq. by eexists.
Qed.

Lemma start_ok : exists s ms L, start sched comps = Ok s /\ sinv PRegister (fun _ => SReg) s ms L [].
Proof.
  set (m0 := set_assigner (Some (new_NodeAssigner FLAGS_num_servers max_key)) (new_Manager scheduler sched)).
  destruct (AddNode_new scheduler sched m0 eq_refl eq_refl ltac:(constructor) eq_refl) as (cs & Hcs & E). set (m1 := added scheduler sched cs m0) in *.
  assert (full m1 = false) as Hfull.
  { unfold full. assert (num_workers_ m1 = 0%Z /\ num_servers_ m1 = 0%Z) as [-> ->].
    { unfold m1, added, count_role. simpl. rewrite Hsched. by rewrite !decide_False. }
    pose proof comps_length as Hl. assert (0 < length comps) by (destruct comps; [done|simpl; lia]).
    apply andb_false_iff. rewrite !bool_decide_eq_false. lia. }
  unfold announce in E. rewrite Hfull in E. set (s1 := update scheduler m1 (mkSystem ∅ [] ∅ false)).
  assert (start_node (mkSystem ∅ [] ∅ false) (scheduler, sched) = Ok s1) as E1.
  { unfold start_node, Init. cbn [fst snd]. assert (IsScheduler (new_Manager scheduler sched) = true) as -> by (by apply bool_decide_eq_true_2).
    change (AddNode _ _ _) with (AddNode scheduler sched m0). by rewrite E. }
  destruct (start_comps comps ltac:(done) Hids s1) as (s & Es & N1 & N2 & N3 & N4 & N5). exists s, m1, [(scheduler, sched)].
  split; [unfold start; cbn [foldM]; rewrite E1; exact Es|].
  assert (scheduler ∉ map fst comps) as Hns.
  { intros Hin. apply list_elem_of_fmap in Hin as (p & Ep & Hp). destruct (comp_not_scheduler p Hp) as (Hn & _). congruence. }
  split; try done.
  - split; [by apply Forall_forall|]. destruct comps as [|p l]; [done|]. exists p. split; [left|done].
  - exists sched, []. split; [done|]. split; [done|]. split; [|split; [repeat constructor|by split]].
    unfold registered. rewrite (filter_same _ (fun _ => False)); [|naive_solver]. clear. by induction comps as [|p l IH]; [|rewrite filter_cons, decide_False by tauto].
  - rewrite N4 by done. unfold s1. simpl. by rewrite lookup_insert_eq.
  - split; try done; unfold m1, added; simpl; rewrite ?decide_True by done; try done; unfold count, count_role; rewrite filter_cons; simpl; rewrite Hsched; by rewrite !decide_False.
  - intros id. split; [by intros ?%elem_of_empty|]. by intros [_ ?].
  - intros p Hp. destruct (N5 p Hp) as (m & Em & Hm). by exists m.
  - rewrite N1. unfold s1. simpl. rewrite app_nil_r. by rewrite (flow_one _ SReg (fun p => (p.1, scheduler, Request REGISTER_NODE [p]))).
  - intros p Hp. rewrite N2. simpl. split; [by intros ?%elem_of_empty|done].
  - rewrite N2. simpl. split; [by intros ?%elem_of_empty|done].
  - rewrite N3. done.
  - rewrite N3. done.
  - intros id Hid. destruct (decide (id ∈ map fst comps)); [by right|]. rewrite N4 in Hid by done. unfold s1 in Hid. simpl in Hid.
    apply lookup_insert_is_Some in Hid as [<-|[_ [? Hx]]]; [left|done].
Qed.

(** *** What holds of every execution *)

Definition safe (s : System) : Prop := exists ph f ms L junk, sinv ph f s ms L junk.

Lemma safe_step s s' : safe s -> any_step s s' -> safe s'.
Proof.
  intros (ph & f & ms & L & junk & Hs) [Hst|Hst].
  - destruct (step_sim _ _ _ _ _ _ _ Hs Hst) as (ph' & f' & ms' & L' & junk' & Hs' & _). by exists ph', f', ms', L', junk'.
  - destruct (app_keeps _ _ _ _ _ _ _ Hs Hst) as (ms' & Hs'). by exists ph, f, ms', L, junk.
Qed.

Lemma safe_steps s s' : safe s -> rtc any_step s s' -> safe s'.
Proof. intros Hs Hr. induction Hr as [|s1 s2 s3 H12 _ IH]; [done|]. apply IH. by eapply safe_step. Qed.

Lemma safe_not_fails s : safe s -> ~ sys_fails s.
Proof.
  intros (ph & f & ms & L & junk & Hs) (msg & Hin & Hbad). apply list_elem_of_split in Hin as (n1 & n2 & En).
  destruct (mgrs s !! c_recver msg) as [m|] eqn:Em.
  - destruct (receive _ _ _ _ _ _ _ _ _ _ Hs En Em) as (m' & go & E & _). by apply (proj2 Hbad m' go).
  - assert (c_recver msg = scheduler \/ exists p, p ∈ comps /\ c_recver msg = p.1) as [E|(p & Hp & E)].
    + destruct (pick _ _ _ _ _ _ _ _ _ Hs En) as [(p & Hp & Emsg & _)|(junk' & Hj & _)].
      * destruct (f p.1); cbn [msgs] in Emsg; try done; apply (f_equal (map (fun x => x.1.2))) in Emsg; injection Emsg as Emsg;
          first [by left|right; by exists p].
      * pose proof (si_junk _ _ _ _ _ _ Hs) as Hjk. rewrite Hj in Hjk. apply Forall_cons in Hjk as [[[_ Hin]|[Hx _]] _].
        -- cbn in Hin. apply elem_of_cons in Hin as [E|Hin]; [by left|]. right. apply list_elem_of_fmap in Hin as (p & E & Hp). by exists p.
        -- left. unfold untimed in Hx. by injection Hx.
    + by rewrite E, (si_mgr _ _ _ _ _ _ Hs) in Em.
    + destruct (si_comp _ _ _ _ _ _ Hs p Hp) as (m & E' & _). congruence.
Qed.

(** Where a manager is, as its status says. *)
Lemma safe_manager ph f s ms L junk id m : sinv ph f s ms L junk -> s.(mgrs) !! id = Some m ->
  id = scheduler /\ m = ms \/ exists p, p ∈ comps /\ id = p.1 /\ comp_ok L p (f p.1) m.
Proof.
  intros Hs Hm. pose proof (si_dom _ _ _ _ _ _ Hs id ltac:(by eexists)) as Hd. apply elem_of_cons in Hd as [->|Hd].
  - left. split; [done|]. rewrite (si_mgr _ _ _ _ _ _ Hs) in Hm. congruence.
  - right. apply list_elem_of_fmap in Hd as (p & -> & Hp). exists p. split_and!; try done.
    destruct (si_comp _ _ _ _ _ _ Hs p Hp) as (m' & E & C). congruence.
Qed.

(** A table of all nodes, with the scheduler's ranks and key ranges. *)
Definition complete (L : list (NodeID * Node)) : Prop := whole L /\ ranked (tail L).

Lemma safe_inited s id m : safe s -> s.(mgrs) !! id = Some m -> m.(inited_) = true ->
  exists L, complete L /\ forall id' m', s.(mgrs) !! id' = Some m' -> m'.(nodes_) = L.
Proof.
  intros (ph & f & ms & L & junk & Hs) Hm Hi. pose proof (si_phase _ _ _ _ _ _ Hs) as Hph.
  assert (ph = PRun \/ ph = PExit) as Hp.
  { destruct (safe_manager _ _ _ _ _ _ _ _ Hs Hm) as [[-> ->]|(p & Hp & -> & [C1 C2 C3 C4])].
    - rewrite (si_inited _ _ _ _ _ _ Hs) in Hi. destruct ph; auto; done.
    - rewrite C2 in Hi. pose proof (phase_of _ _ _ _ Hph Hp eq_refl) as Hal. destruct ph, (f p.1); auto; done. }
  exists L. split.
  - pose proof (si_table _ _ _ _ _ _ Hs) as Ht. split; [eapply whole_phase; [exact Hph|exact Ht|]; by destruct Hp as [->| ->]|].
    by destruct Ht as (hn & R & -> & _ & _ & _ & Hr).
  - intros id' m' Hm'. destruct (safe_manager _ _ _ _ _ _ _ _ Hs Hm') as [[-> ->]|(p & Hp' & -> & [[_ _ K3 _ _ _ _] _ _ _])]; [apply (si_knows _ _ _ _ _ _ Hs)|].
    rewrite K3. pose proof (phase_of _ _ _ _ Hph Hp' eq_refl) as Hal. destruct Hp as [->| ->], (f p.1); done.
Qed.

Lemma safe_done s id m : safe s -> s.(mgrs) !! id = Some m -> m.(done_) = true -> forall p, p ∈ comps -> p.1 ∈ s.(stopped).
Proof.
  intros (ph & f & ms & L & junk & Hs) Hm Hd p Hp. pose proof (si_phase _ _ _ _ _ _ Hs) as Hph.
  assert (ph = PExit) as ->.
  { destruct (safe_manager _ _ _ _ _ _ _ _ Hs Hm) as [[-> ->]|(q & Hq & -> & [C1 C2 C3 C4])].
    - by apply (si_leaving _ _ _ _ _ _ Hs), (si_done _ _ _ _ _ _ Hs).
    - rewrite C3 in Hd. apply bool_decide_eq_true in Hd. pose proof (phase_of _ _ _ _ Hph Hq Hd) as Hal. by destruct ph. }
  apply (si_stopped _ _ _ _ _ _ Hs p Hp). pose proof (phase_of _ _ _ _ Hph Hp eq_refl) as Hal. by destruct (f p.1).
Qed.

Lemma steps_end s : safe s -> sn sys_step s.
Proof.
  intros (ph & f & ms & L & junk & Hs). remember (remaining f s junk) as n eqn:En. revert ph f s ms L junk Hs En.
  induction (lt_wf n) as [n _ IH]. intros ph f s ms L junk Hs ->. constructor. intros s' Hst.
  destruct (step_sim _ _ _ _ _ _ _ Hs Hst) as (ph' & f' & ms' & L' & junk' & Hs' & Hlt). by eapply (IH _ Hlt).
Qed.

(** A message to a node whose receiving loop runs can be received. *)
Lemma can_receive ph f s ms L junk x m : sinv ph f s ms L junk -> x ∈ flow L f ++ junk -> s.(mgrs) !! x.1.2 = Some m -> m.(done_) = false ->
  exists s', sys_step s s'.
Proof.
  intros Hs Hx Hm Hd. rewrite <- (si_net _ _ _ _ _ _ Hs) in Hx. apply list_elem_of_fmap in Hx as (msg & -> & Hin). apply list_elem_of_split in Hin as (n1 & n2 & En).
  cbn in Hm. destruct (receive _ _ _ _ _ _ _ _ _ _ Hs En Hm) as (m' & go & E & _). eexists. by eapply sys_receive.
Qed.

Lemma flow_in L f p x : p ∈ comps -> msgs L p (f p.1) = [x] -> x ∈ flow L f.
Proof.
  intros Hp E. unfold flow. apply list_elem_of_In, in_concat. exists (msgs L p (f p.1)). split; [|rewrite E; by left].
  apply in_map_iff. exists p. split; [done|]. by apply list_elem_of_In.
Qed.

(** Where nothing more can happen every node is done. *)
Lemma stuck_done s : safe s -> nf sys_step s -> forall id, id ∈ scheduler :: map fst comps -> exists m, s.(mgrs) !! id = Some m /\ m.(done_) = true.
Proof.
  intros (ph & f & ms & L & junk & Hs) Hnf. pose proof Hs as [I1 I2 I3 I4 I5 I6 I7 I8 I9 I10 I11 I12 I13 I14 I15 I16 I17].
  assert (forall p, p ∈ comps -> match f p.1 with SWait | SActive | SRun | SLeft | SDone => True | _ => False end) as Hquiet.
  { intros p Hp. pose proof (phase_of _ _ _ _ I1 Hp eq_refl) as Hal. destruct (I9 p Hp) as (m & Em & [C1 C2 C3 C4]).
    assert (forall x, msgs L p (f p.1) = [x] -> s.(mgrs) !! x.1.2 = Some m \/ s.(mgrs) !! x.1.2 = Some ms -> f p.1 <> SDone -> (ph = PExit -> s.(mgrs) !! x.1.2 = Some m) -> False) as Hno.
    { intros x Ex Hto Hnd Hpx. apply Hnf. assert (exists m1, s.(mgrs) !! x.1.2 = Some m1 /\ m1.(done_) = false) as (m1 & E1 & D1).
      { destruct (decide (ms.(done_) = true)) as [Hd|Hd].
        - exists m. split; [|rewrite C3; by apply bool_decide_eq_false_2]. by apply Hpx, I14, I15.
        - destruct Hto as [Hto|Hto]; [exists m; split; [done|]; rewrite C3; by apply bool_decide_eq_false_2|]. exists ms. split; [done|]. by destruct (done_ ms). }
      eapply can_receive; [exact Hs|rewrite elem_of_app; left; by eapply flow_in|exact E1|exact D1]. }
    destruct (f p.1) eqn:Ef; try done; (eapply Hno; [done|cbn; auto|done|cbn; intros ->; done]). }
  assert (ph = PExit) as ->.
  { destruct ph; [| | |done]; exfalso; destruct I1 as [Hall Hex].
    - destruct Hex as (p & Hp & E). specialize (Hquiet p Hp). by rewrite E in Hquiet.
    - destruct Hex as (p & Hp & E). specialize (Hquiet p Hp). rewrite Forall_forall in Hall. specialize (Hall p Hp). by destruct (f p.1).
    - assert (forall p, p ∈ comps -> f p.1 = SLeft) as Hleft.
      { intros p Hp. specialize (Hquiet p Hp). rewrite Forall_forall in Hall. specialize (Hall p Hp). destruct (f p.1) eqn:Ef; try done. exfalso. apply Hnf.
        destruct (I9 p Hp) as (m & Em & [C1 C2 C3 C4]). rewrite Ef in *. eexists. eapply (sys_stop s p.1 m); try done.
        - apply bool_decide_eq_false_2. rewrite (k_role _ _ _ C1). by apply comp_not_scheduler.
        - rewrite (I12 p Hp), Ef. done. }
      apply Hnf. assert (exists m', Stop_scheduler ms = Some m') as [m' Em'].
      { unfold Stop_scheduler. rewrite (k_mutex _ _ _ I4), decide_True; [by eexists|]. apply leibniz_equiv. intros id. rewrite I6. split; [|by intros ?%elem_of_empty].
        intros [Hin Ha]. apply list_elem_of_fmap in Hin as (p & -> & Hp). by rewrite (Hleft p Hp) in Ha. }
      eexists. eapply (sys_stop_scheduler s ms m'); try done. rewrite I13. done. }
  assert (leaving s = true) as Hl.
  { destruct (leaving s) eqn:El; [done|]. exfalso. apply Hnf. eexists. apply (sys_stop_self s ms 0); try done. by apply I13. }
  assert (done_ ms = true) as Hd.
  { destruct (I16 Hl) as [|Hin]; [done|]. destruct (done_ ms) eqn:Ed; [done|]. exfalso. apply Hnf.
    eapply (can_receive _ _ _ _ _ _ _ ms Hs); [rewrite elem_of_app; by right|done|done]. }
  intros id Hid. apply elem_of_cons in Hid as [->|Hid]; [by exists ms|]. apply list_elem_of_fmap in Hid as (p & -> & Hp).
  destruct (I9 p Hp) as (m & Em & [C1 C2 C3 C4]). exists m. split; [done|]. rewrite C3. apply bool_decide_eq_true_2.
  specialize (Hquiet p Hp). pose proof (phase_of _ _ _ _ I1 Hp eq_refl) as Hal. by destruct (f p.1).
Qed.

(** C17: the managers start and stop in step.  Whatever the order in which messages
    arrive and nodes finish: no message fails a [CHECK] or waits for ever on a
    mutex; when some node runs its application every node has the same table of all
    nodes, in which the workers and the servers are numbered and each server has its
    part of the keys; and a node is told to exit only when every worker and server
    has called [Stop]. *)
Theorem control_in_step : exists s0, start sched comps = Ok s0 /\ forall s, rtc any_step s0 s ->
  ~ sys_fails s /\
  (forall id m, s.(mgrs) !! id = Some m -> m.(inited_) = true -> exists L, complete L /\ forall id' m', s.(mgrs) !! id' = Some m' -> m'.(nodes_) = L) /\
  (forall id m, s.(mgrs) !! id = Some m -> m.(done_) = true -> forall p, p ∈ comps -> p.1 ∈ s.(stopped)).
Proof.
  destruct start_ok as (s0 & ms & L & E & Hs). exists s0. split; [done|]. intros s Hr.
  assert (safe s) as Hsafe by (eapply safe_steps; [|exact Hr]; by eexists _, _, _, _, _).
  split; [by apply safe_not_fails|]. split; [intros id m; by apply safe_inited|intros id m; by apply safe_done].
Qed.

(** C30: the system ends.  From every state of an execution the messages and the
    calls of [Stop] that are left are finitely many, and where nothing more can
    happen every node, the scheduler included, is done. *)
Theorem control_ends : exists s0, start sched comps = Ok s0 /\ forall s, rtc any_step s0 s ->
  sn sys_step s /\ forall s', rtc sys_step s s' -> nf sys_step s' ->
    forall id, id ∈ scheduler :: map fst comps -> exists m, s'.(mgrs) !! id = Some m /\ m.(done_) = true.
Proof.
  destruct start_ok as (s0 & ms & L & E & Hs). exists s0. split; [done|]. intros s Hr.
  assert (safe s) as Hsafe by (eapply safe_steps; [|exact Hr]; by eexists _, _, _, _, _). split; [by apply steps_end|].
  intros s' Hr' Hnf. apply stuck_done; [|done]. eapply safe_steps; [exact Hsafe|]. eapply rtc_subrel; [|exact Hr']. intros x y Hxy. by left.
Qed.

End Protocol.
(** ** Failures *)

(** C38: a connection that the scheduler does not know and that breaks hangs it:
    [RemoveNode] returns without unlocking [nodes_mu_], and from then on the
    messages by which nodes say that they are ready, join or finish wait for ever,
    and so does [Stop]. *)
Theorem unknown_disconnect_hangs id m : IsScheduler m = true -> m.(nodes_mu_) = false -> m.(in_exit_) = false -> find id m.(nodes_) = None ->
  exists m', NodeDisconnected id m = Ok (Some m') /\ Stop_scheduler m' = None /\
    (forall from t cmd ns, cmd = READY_TO_EXIT \/ cmd = READY_TO_RUN -> Process (mkCMsg from scheduler t (Request cmd ns)) m' = Ok None) /\
    (forall k n, AddNode k n m' = Ok None) /\ forall k, RemoveNode k m' = Ok None.
Proof.
  intros Hsc Hmu Hex Hf. unfold NodeDisconnected. rewrite Hmu.
  set (m1 := if decide _ then _ else _). assert (in_exit_ m1 = false /\ IsScheduler m1 = true /\ nodes_mu_ m1 = false /\ find id (nodes_ m1) = None) as (E1 & E2 & E3 & E4)
    by (unfold m1; by destruct (decide _)).
  rewrite E1. set (m2 := set_fate _ _ m1). assert (IsScheduler m2 = true) as E5 by exact E2. rewrite E5. unfold RemoveNode at 1.
  assert (nodes_mu_ m2 = false) as -> by exact E3. assert (find id (nodes_ m2) = None) as -> by exact E4. eexists. split; [done|].
  split; [done|]. split; [|split; done]. intros from t cmd ns Hcmd. unfold Process. cbn [c_ctrl].
  assert (IsScheduler (set_mutex true m2) = true) as E6 by exact E5. destruct Hcmd as [->| ->]; rewrite E6; done.
Qed.

(** [Timeout] waits as long as it is told, below 2148 seconds. *)
Lemma timeout_loop_false i pred k : timeout_loop i pred k = true <-> forall j, j <= i -> pred (k + j) = false.
Proof.
  induction i as [|i IH] in k |- *; cbn [timeout_loop].
  - rewrite negb_true_iff. split; [intros E j Hj; replace (k + j) with k by lia; done|intros E; specialize (E 0 ltac:(lia)); by rewrite Nat.add_0_r in E].
  - destruct (pred k) eqn:Ep.
    + split; [done|]. intros E. specialize (E 0 ltac:(lia)). rewrite Nat.add_0_r in E. congruence.
    + rewrite IH. split.
      * intros E j Hj. destruct j as [|j]; [by rewrite Nat.add_0_r|]. replace (k + S j) with (k + 1 + j) by lia. apply E. lia.
      * intros E j Hj. replace (k + 1 + j) with (k + (j + 1)) by lia. apply E. lia.
Qed.

Lemma Timeout_waits sec pred : (0 <= sec <= 2147)%Z -> Timeout sec pred = true <-> forall j, (Z.of_nat j <= sec * 100)%Z -> pred j = false.
Proof.
  intros Hs. unfold Timeout, i32. rewrite Z.mod_small by lia.
  replace (sec * 1000000 + 2 ^ 31 - 2 ^ 31)%Z with (sec * 100 * 10000)%Z by lia. rewrite Z.quot_mul by lia.
  destruct (Z.ltb_spec (sec * 100) 0); [lia|]. rewrite timeout_loop_false. split; intros E j Hj; [apply E|simpl; apply E]; lia.
Qed.

(** *** Running it *)

(** The message in front is received. *)
Definition receive_first (s : System) : option System :=
  match s.(net) with
  | [] => None
  | msg :: n =>
      match s.(mgrs) !! msg.(c_recver) with
      | Some m =>
          if m.(done_) then None else
          match Process msg m with Ok (Some (m', _)) => Some (update msg.(c_recver) m' (set_net n s)) | _ => None end
      | None => None
      end
  end.
Fixpoint receive_all (fuel : nat) (s : System) : System :=
  match fuel with
  | O => s
  | S fuel => match receive_first s with Some s => receive_all fuel s | None => s end
  end.
End Managers.

(** ** Examples *)
Module ManagerExample.
Definition node (r : Role) : Node := mkNode r 0 (mkRange 0 0).
Definition nodes : list (NodeID * Node) := [("W0", node WORKER); ("S0", node SERVER); ("S1", node SERVER)].
Abbreviation starts := (start 1 2 All "H" (fun _ _ _ => true) (node SCHEDULER) nodes).
Abbreviation receives := (receive_all 1 2 "H" (fun _ _ _ => true) 100).

Definition flags (s : System) : list (NodeID * (bool * bool * nat)) :=
  map (fun p => (p.1, (p.2.(inited_), p.2.(done_), length p.2.(nodes_)))) (map_to_list s.(mgrs)).
Definition all_flags (b1 b2 : bool) (n : nat) (s : System) : bool :=
  forallb (fun p => bool_decide (p.2 = (b1, b2, n))) (flags s) && bool_decide (length (flags s) = 4).

(** All nodes know each other and run. *)
Example starts_up : match starts with Ok s => all_flags true false 4 (receives s) && bool_decide (net (receives s) = []) | Fail _ => false end = true.
Proof. vm_compute. reflexivity. Qed.

(** The key ranges of the two servers. *)
Example ranges : match starts with
  | Ok s => match mgrs (receives s) !! "W0" with Some m => map (fun p => (p.1, p.2.(rank))) m.(nodes_) | None => [] end
  | Fail _ => [] end = [("H", 0); ("S0", 0); ("S1", 1); ("W0", 0)]%Z.
Proof. vm_compute. reflexivity. Qed.

(** A time of 3000 seconds does not fit in an [int]: there is no wait at all. *)
Example no_wait : Timeout 3000 (fun _ => false) = false.
Proof. vm_compute. reflexivity. Qed.

(** Behind [RemoveCustomer] the next id dereferences a null pointer. *)
Example removed_customer : match new_Executor "W0" WORKER with
  | Ok e => match AddCustomer (-1) e (new_Manager "W0" (node WORKER)) with
            | Ok (Some m) => (NextCustomerID m, NextCustomerID (RemoveCustomer (-1) m))
            | _ => (Ok 0, Ok 0)%Z
            end
  | Fail _ => (Ok 0, Ok 0)%Z end = (Ok (-2)%Z, Fail OutOfRange).
Proof. vm_compute. reflexivity. Qed.

Lemma unknown_disconnect_hangs_witness : exists m m', find "X" (nodes_ m) = None /\ NodeDisconnected "X" m = Ok (Some m') /\ Stop_scheduler m' = None.
Proof.
  exists (new_Manager "H" (node SCHEDULER)).
  destruct (unknown_disconnect_hangs 1 2 "H" (fun _ _ _ => true) "X" (new_Manager "H" (node SCHEDULER)) eq_refl eq_refl eq_refl eq_refl) as (m' & E & E' & _).
  exists m'. split; [done|]. split; [exact E|exact E'].
Defined.

Lemma ids_before : Forall (fun p : NodeID * Node => before "H" p.1) nodes.
Proof. repeat constructor. Qed.
Lemma roles_comp : Forall (fun p : NodeID * Node => is_comp p.2 = true) nodes.
Proof. repeat constructor. Qed.
Lemma ids_nodup : NoDup (map fst nodes).
Proof. by apply (bool_decide_unpack _). Qed.
Lemma ids_group : "H" <> kCompGroup /\ kCompGroup ∉ map fst nodes.
Proof. split; [done|]. by apply (bool_decide_unpack _). Qed.

Lemma control_in_step_witness : exists s0, starts = Ok s0 /\ ~ sys_fails 1 2 "H" (fun _ _ _ => true) s0.
Proof.
  destruct (control_in_step 1 2 All "H" (fun _ _ _ => true) ltac:(done) (node SCHEDULER) nodes eq_refl ids_nodup ids_before roles_comp eq_refl eq_refl
    ltac:(discriminate) eq_refl ids_group) as (s0 & E & Hall). exists s0. split; [exact E|]. apply (Hall s0). apply rtc_refl.
Defined.

Lemma control_ends_witness : exists s0, starts = Ok s0 /\ sn (sys_step 1 2 "H" (fun _ _ _ => true)) s0.
Proof.
  destruct (control_ends 1 2 All "H" (fun _ _ _ => true) ltac:(done) (node SCHEDULER) nodes eq_refl ids_nodup ids_before roles_comp eq_refl eq_refl
    ltac:(discriminate) eq_refl ids_group) as (s0 & E & Hall). exists s0. split; [exact E|]. apply (Hall s0). apply rtc_refl.
Defined.

End ManagerExample.
