(* ===== verification/Dump.v ===== *)
(** * Exporting a saved model

    Models the tools that turn the file a server saved into text:
    src/src/difacto/dump.cc ([Dump::run]), src/src/difacto/push.cc
    ([PushWorker::push]) and src/src/linear/dump.cc ([LoadModel], [DumpModel]).  They
    read the format of [AdaGrad] and [Linear] with copies of the entries of their
    own.  How a float is printed is an argument. *)
From S2P Require Import Prelude Floats Stream Workload KVStore AdaGrad Linear Localizer LibSVM.

Definition tab : byte := Byte.x09.
Definition newline : byte := Byte.x0a.

(** The loop of the tools: while a key can be read, [x.Load(fi)] and what follows. *)
Fixpoint pairs_loop {E S T} `{Stream T} (load : T -> outcome (E * T)) (act : S -> Z * E -> outcome S) (fuel : nat) (fi : T) (s : S) : outcome S :=
  match fuel with
  | 0 => Fail OutOfFuel
  | S fuel =>
      '(b, fi) ← Read (S := T) 8 fi;
      if decide (length b = 8) then
        let key := pod_of (Pod := pod_uint 8) b in
        '(e, fi) ← load fi;
        s ← act s (key, e);
        pairs_loop load act fuel fi s
      else Ok s
  end.

Section Dump.
Context {F : Type} `{HF : !Float F} `{PF : !Pod F}.
(** [std::to_string] of a float, and [os << f]. *)
Context (to_string_f ostream_f : F -> list byte) (need_inverse : bool).

Definition feature_id (key : Z) : Z := if need_inverse then ReverseBytes key else key.

(** ** The tools for DiFacto *)

(** [Load(fi)] of their [AdaGradEntry], which has no count. *)
Definition dump_Load {T} `{Stream T} (fi : T) : outcome (AdaGradEntry F * T) :=
  '(sz, fi) ← read_pod (pod_int 4) fi;
  if decide (sz = 1%Z) then
    '(b1, fi) ← Read (S := T) 8 fi;
    '(b2, fi) ← Read (S := T) 8 fi;
    if decide (length b1 = 8 /\ length b2 = 8) then
      Ok (mkEntry 0 1 (Inline (pod_of (take 4 b1)) (drop 4 b1) (pod_of (take 4 b2)) (pod_of (drop 4 b2))), fi)
    else Fail OutOfRange
  else
    _ ← check (bool_decide (0 <= sz)%Z);
    '(w, fi) ← read_floats (Z.to_nat sz) fi;
    '(cg, fi) ← read_floats (Z.to_nat sz + 1) fi;
    Ok (mkEntry 0 (Z.to_nat sz) (Heap w cg), fi).

(** [w[i]] *)
Definition w_at (e : AdaGradEntry F) (i : nat) : outcome F :=
  match e.(mem) with Heap w _ => read_at w i | _ => Fail OutOfRange end.

(** The loop over [w]. *)
Definition append_w (age : AdaGradEntry F) (write_buffer : list byte) : outcome (list byte) :=
  foldM (fun buf i => w ← w_at age i; Ok (buf ++ tab :: to_string_f w)) (seq 0 age.(size)) write_buffer.

(** The body of the loop of [Dump::run]. *)
Definition dump_pair (st : StringStream.t * nat) (kv : Z * AdaGradEntry F) : outcome (StringStream.t * nat) :=
  let write_buffer := print_dec (feature_id kv.1) in
  write_buffer ← (if decide (kv.2.(size) = 1) then w ← w_0 kv.2; Ok (write_buffer ++ tab :: to_string_f w) else append_w kv.2 write_buffer);
  let write_buffer := write_buffer ++ [newline] in
  fo ← Write write_buffer st.1;
  Ok (fo, st.2 + 1).
(** [Dump::run()]: the file and the number of pairs. *)
Definition run {T} `{Stream T} (fuel : nat) (fi : T) : outcome (list byte * nat) :=
  '(fo, count) ← pairs_loop dump_Load dump_pair fuel fi (StringStream.empty, 0);
  Ok (StringStream.str fo, count).

(** The body of the loop of [PushWorker::push]. *)
Definition push_pair (st : StringStream.t * nat) (kv : Z * AdaGradEntry F) : outcome (StringStream.t * nat) :=
  write_buffer ← (if decide (kv.2.(size) = 1) then w ← w_0 kv.2; Ok (print_dec (feature_id kv.1) ++ [tab] ++ to_string_f w ++ [newline])
                  else buf ← append_w kv.2 ([] ++ print_dec (feature_id kv.1)); Ok (buf ++ [newline]));
  fo ← Write write_buffer st.1;
  Ok (fo, st.2 + 1).
Definition push {T} `{Stream T} (fuel : nat) (fi : T) : outcome (list byte * nat) :=
  '(fo, count) ← pairs_loop dump_Load push_pair fuel fi (StringStream.empty, 0);
  Ok (StringStream.str fo, count).

(** ** The tool for linear methods *)

(** [Load(fi)] of its [FTRLEntry]. *)
Definition FTRL_Load {T} `{Stream T} (fi : T) : outcome (FTRLEntry F * T) :=
  '(w, fi) ← load_float fi; '(z, fi) ← load_float fi; '(sq, fi) ← load_float fi;
  Ok (mkFTRL w z sq, fi).

Definition linear_LoadModel {T} `{Stream T} (fuel : nat) (fi : T) : outcome (gmap Z (FTRLEntry F)) :=
  pairs_loop FTRL_Load (fun data_ kv => Ok (<[ kv.1 := kv.2 ]> data_)) fuel fi ∅.

(** [DumpModel(filename)], [it] the order in which the hash map gives its pairs: the
    text and the number of pairs. *)
Definition linear_DumpModel (it : list (Z * FTRLEntry F)) : list byte * nat :=
  foldl (fun st kv =>
    let e := kv.2 in
    if (e.(f_w) =? fzero)%F then st else
    (st.1 ++ print_dec (feature_id kv.1) ++ [tab] ++ ostream_f e.(f_w) ++ [tab] ++ ostream_f e.(f_z) ++ [tab] ++ ostream_f e.(f_sq_cum_grad) ++ [newline],
     st.2 + 1)) ([], 0) it.

(** ** The lines *)

(** The pairs of a file are read one after the other. *)
Lemma pairs_loop_spec {E S T} `{StreamLaws T} (load : T -> outcome (E * T)) (act : S -> Z * E -> outcome S) (enc : E -> list byte) (ok : E -> Prop) (reload : E -> E) :
  (forall e (fi : T) r, ok e -> sok fi -> unread fi = enc e ++ r -> exists fi', load fi = Ok (reload e, fi') /\ unread fi' = r /\ sok fi') ->
  at_end (T := T) -> forall l fuel fi s, Forall (pair_ok ok) l -> length l < fuel -> sok fi -> unread fi = concat (map (pair_enc enc) l) ->
  pairs_loop load act fuel fi s = foldM act (map (fun kv => (kv.1, reload kv.2)) l) s.
Proof.
  intros Hload Hend l. induction l as [|[key e] l IH]; intros [|fuel] fi s Hl Hf Hs Hu; simpl in Hf; try lia; cbn [pairs_loop].
  { destruct (Hend fi Hs Hu) as (fi' & ->). done. }
  apply Forall_cons in Hl as [[Hk He] Hl]. cbn [map concat] in Hu. unfold pair_enc at 1 in Hu. cbn [fst snd] in *. rewrite <- app_assoc in Hu.
  destruct (Read_prefix (le_split 8 key) _ fi 8 Hs Hu) as (fi1 & -> & Hu1 & Hs1); [by rewrite length_le_split|]. cbn [mbind outcome_bind].
  rewrite length_le_split, decide_True by done.
  assert (pod_of (Pod := pod_uint 8) (le_split 8 key) = key) as -> by (apply (pod_of_bytes (PodLaws := pod_uint_laws 8)); exact Hk).
  destruct (Hload e fi1 _ He Hs1 Hu1) as (fi2 & -> & Hu2 & Hs2). cbn [mbind outcome_bind map foldM fst snd].
  destruct (act s (key, reload e)) as [s'|]; [|done]. cbn [mbind outcome_bind]. apply IH; try done. lia.
Qed.

(** Weight and embedding of an entry, and its line. *)
Definition weights_of (e : AdaGradEntry F) : list F := match e.(mem) with Inline w _ _ _ => [w] | Heap w _ => w | Null => [] end.
Definition line_of (kv : Z * AdaGradEntry F) : list byte :=
  print_dec (feature_id kv.1) ++ concat (map (fun w => tab :: to_string_f w) (weights_of kv.2)) ++ [newline].

Lemma append_w_ok e buf : entry_ok e -> size e <> 1 -> append_w e buf = Ok (buf ++ concat (map (fun w => tab :: to_string_f w) (weights_of e))).
Proof.
  intros He Hs. unfold append_w, weights_of, entry_ok, w_at in *. destruct (mem e) as [w hi cg z|w cg|]; [lia| |done]. destruct He as (_ & <- & _).
  apply (foldM_gather _ (fun w0 => tab :: to_string_f w0) 0 w buf). intros t x acts Hx. simpl. unfold read_at. by rewrite Hx.
Qed.

Lemma entry_ok_size (e : AdaGradEntry F) : entry_ok e -> size e = 1 -> exists w hi cg z, mem e = Inline w hi cg z.
Proof. intros He Hs. unfold entry_ok in He. destruct (mem e); [eauto|lia|done]. Qed.

(** One pair more, by either tool. *)
Lemma dump_pair_ok st kv : entry_ok kv.2 -> dump_pair st kv = Ok (StringStream.mk (st.1.(StringStream.buf_) ++ line_of kv) st.1.(StringStream.pos_), st.2 + 1).
Proof.
  intros He. unfold dump_pair, line_of. case_decide as Hs.
  - destruct (entry_ok_size _ He Hs) as (w & hi & cg & z & Hm). unfold w_0, weights_of. rewrite decide_True, Hm by done. cbn [mbind outcome_bind map concat Write StringStream_Stream].
    unfold StringStream.Write. cbn [mbind outcome_bind]. by rewrite app_nil_r, !app_assoc.
  - rewrite append_w_ok by done. cbn [mbind outcome_bind Write StringStream_Stream]. unfold StringStream.Write. cbn [mbind outcome_bind]. by rewrite !app_assoc.
Qed.

Lemma push_pair_same st kv : push_pair st kv = dump_pair st kv.
Proof.
  unfold push_pair, dump_pair. case_decide.
  - destruct (w_0 kv.2) as [w|]; [|done]. cbn [mbind outcome_bind]. by rewrite <- app_assoc.
  - cbn [app]. by destruct (append_w kv.2 _).
Qed.

Lemma dump_all l fo n : Forall (fun kv => entry_ok kv.2) l ->
  foldM dump_pair l (fo, n) = Ok (StringStream.mk (fo.(StringStream.buf_) ++ concat (map line_of l)) fo.(StringStream.pos_), n + length l).
Proof.
  intros Hl. revert fo n. induction Hl as [|kv l He _ IH]; intros fo n; cbn [foldM map concat length].
  - rewrite app_nil_r, Nat.add_0_r. by destruct fo.
  - rewrite dump_pair_ok by done. cbn [mbind outcome_bind fst snd]. rewrite IH. cbn [StringStream.buf_ StringStream.pos_]. by rewrite <- app_assoc, <- Nat.add_assoc.
Qed.

(** The tools read what the server wrote. *)
Lemma dump_Load_entry {T} `{Stream T} (fi : T) h e h' fi' : entry_Load (new_entry (F := F)) h fi = Ok (e, h', fi') -> dump_Load fi = Ok (e, fi').
Proof.
  unfold entry_Load, dump_Load. destruct (read_pod (pod_int 4) fi) as [[sz f1]|]; [|done]. cbn [mbind outcome_bind]. case_decide.
  - destruct (Read 8 f1) as [[b1 f2]|]; [|done]. cbn [mbind outcome_bind]. destruct (Read 8 f2) as [[b2 f3]|]; [|done]. cbn [mbind outcome_bind]. case_decide; [|done].
    cbn [mbind outcome_bind]. destruct (w_0 _); [|done]. cbn [mbind outcome_bind]. by intros [= <- _ <-].
  - destruct (check _); [|done]. cbn [mbind outcome_bind]. destruct (read_floats _ f1) as [[w f2]|]; [|done]. cbn [mbind outcome_bind].
    destruct (read_floats _ f2) as [[cg f3]|]; [|done]. cbn [mbind outcome_bind]. destruct (w_0 _); [|done]. cbn [mbind outcome_bind]. by intros [= <- _ <-].
Qed.

(** The FTRL entries of a file. *)
Definition FTRL_enc (e : FTRLEntry F) : list byte := pod_bytes e.(f_w) ++ pod_bytes e.(f_z) ++ pod_bytes e.(f_sq_cum_grad).
Definition FTRL_valid (e : FTRLEntry F) : Prop := pod_valid e.(f_w) /\ pod_valid e.(f_z) /\ pod_valid e.(f_sq_cum_grad).

Context `{!PodLaws F}.
Lemma load_float_spec {T} `{StreamLaws T} (x : F) (fi : T) r : pod_valid x -> sok fi -> unread fi = pod_bytes x ++ r ->
  exists fi', load_float fi = Ok (x, fi') /\ unread fi' = r /\ sok fi'.
Proof.
  intros Hx Hs Hu. unfold load_float. destruct (Read_prefix (pod_bytes x) r fi (pod_size (A := F)) Hs Hu) as (fi' & -> & Hu' & Hs'); [symmetry; apply pod_bytes_length|].
  cbn [mbind outcome_bind]. rewrite bool_decide_eq_true_2 by apply pod_bytes_length. cbn [check mbind outcome_bind]. rewrite pod_of_bytes by done. by exists fi'.
Qed.

Lemma FTRL_Load_spec {T} `{StreamLaws T} (e : FTRLEntry F) (fi : T) r : FTRL_valid e -> sok fi -> unread fi = FTRL_enc e ++ r ->
  exists fi', FTRL_Load fi = Ok (e, fi') /\ unread fi' = r /\ sok fi'.
Proof.
  intros (H1 & H2 & H3) Hs Hu. unfold FTRL_Load, FTRL_enc in *. rewrite <- !app_assoc in Hu.
  destruct (load_float_spec _ fi _ H1 Hs Hu) as (f1 & -> & Hu1 & Hs1). cbn [mbind outcome_bind].
  destruct (load_float_spec _ f1 _ H2 Hs1 Hu1) as (f2 & -> & Hu2 & Hs2). cbn [mbind outcome_bind].
  destruct (load_float_spec _ f2 _ H3 Hs2 Hu2) as (f3 & -> & Hu3 & Hs3). cbn [mbind outcome_bind]. exists f3. by destruct e.
Qed.

Lemma map_pair_id {E} (l : list (Z * E)) : map (fun kv => (kv.1, kv.2)) l = l.
Proof. induction l as [|[k e] l IH]; [done|]. simpl. by rewrite IH. Qed.

Lemma foldM_Ok {A S} (f : S -> A -> S) l s : foldM (fun s x => Ok (f s x)) l s = Ok (foldl f s l).
Proof. revert s. induction l as [|x l IH]; intros s; [done|]. apply IH. Qed.

(** A model of FTRL entries is loaded as it is in the file. *)
Lemma linear_loads (l : list (Z * FTRLEntry F)) fuel : Forall (pair_ok FTRL_valid) l -> NoDup l.*1 -> length l < fuel ->
  linear_LoadModel fuel (MemoryStringStream.mk (concat (map (pair_enc FTRL_enc) l)) 0) = Ok (list_to_map l).
Proof.
  intros Hl Hnd Hf. unfold linear_LoadModel.
  rewrite (pairs_loop_spec FTRL_Load _ FTRL_enc FTRL_valid (fun e => e) (fun e fi r => FTRL_Load_spec e fi r) MemoryStringStream_at_end l fuel); [|done|done|simpl; lia|done].
  rewrite map_pair_id, foldM_Ok. f_equal. apply map_eq. intros key.
  rewrite (foldl_insert_lookup (fun e => e) l ∅ key Hnd), lookup_empty. by destruct (list_to_map l !! key).
Qed.
End Dump.

Section Exported.
Context {F : Type} `{HF : !Float F} `{PF : !Pod F} `{!PodLaws F} (Hsz : pod_size (A := F) = 4) (to_string_f : F -> list byte) (need_inverse : bool).

Lemma push_same {T} `{Stream T} fuel (fi : T) : push to_string_f need_inverse fuel fi = run to_string_f need_inverse fuel fi.
Proof.
  unfold push, run. f_equal. generalize (StringStream.empty, 0). revert fi. induction fuel as [|fuel IH]; intros fi st; [done|]. cbn [pairs_loop].
  destruct (Read 8 fi) as [[b f1]|]; [|done]. cbn [mbind outcome_bind]. case_decide; [|done]. destruct (dump_Load f1) as [[e f2]|]; [|done]. cbn [mbind outcome_bind].
  rewrite push_pair_same. destruct (dump_pair _ _ st _); [|done]. apply IH.
Qed.

Lemma dump_Load_spec {T} `{StreamLaws T} (e : AdaGradEntry F) (fi : T) r : entry_fits e -> sok fi -> unread fi = entry_enc e ++ r ->
  exists fi', dump_Load fi = Ok (reloaded e, fi') /\ unread fi' = r /\ sok fi'.
Proof.
  intros He Hs Hu. pose (h := mkH (mkParams fzero fzero fzero fzero (mkEmb 0 0%Z fzero fzero fzero fzero fzero) false false 0) false 0 0 0 [] 0).
  destruct (entry_Load_spec Hsz e h fi r He Hs Hu) as (fi' & E & Hu' & Hs'). exists fi'. split; [|done]. by eapply dump_Load_entry.
Qed.

Lemma run_saved l fuel : Forall (pair_ok entry_fits) l -> length l < fuel ->
  run to_string_f need_inverse fuel (MemoryStringStream.mk (concat (map (pair_enc entry_enc) l)) 0) = Ok (concat (map (line_of to_string_f need_inverse) l), length l).
Proof.
  intros Hl Hf. unfold run.
  rewrite (pairs_loop_spec dump_Load _ entry_enc entry_fits reloaded (fun e fi r => dump_Load_spec e fi r) MemoryStringStream_at_end l fuel); [|done|done|simpl; lia|done].
  rewrite dump_all.
  - cbn [mbind outcome_bind StringStream.str StringStream.buf_ StringStream.empty app]. rewrite length_map, map_map. done.
  - apply Forall_fmap. eapply Forall_impl; [exact Hl|]. intros [k e] [_ [He _]]. exact He.
Qed.

Lemma line_reads key e rest : (0 <= key < 2 ^ 64)%Z -> entry_ok e ->
  strtouint (line_of to_string_f need_inverse (key, e) ++ rest) = Ok (feature_id need_inverse key).
Proof.
  intros Hk He. assert (0 <= feature_id need_inverse key < 2 ^ 64)%Z as Hid by (unfold feature_id; destruct need_inverse; [apply ReverseBytes_range|done]).
  unfold line_of. cbn [fst snd]. rewrite <- app_assoc. destruct (weights_of e) as [|w ws]; cbn [map concat app]; by apply strtouint_print.
Qed.
End Exported.

(** C34: the text that is exported is the model: from the file that a DiFacto server
    saved, [dump] and [push] make the same text, with a line for every entry that is
    not empty, in the order of the file, that holds the feature and all its weights;
    the feature at the beginning of a line can be read back, and with [need_inverse]
    it is the one of the training data, whose key the localizer reversed. *)
Theorem exported_model {F T} `{HF : !Float F} `{PF : !Pod F} `{!PodLaws F} `{StreamLaws T} junk rand to_string_f need_inverse
    (it : list (Z * AdaGradEntry F)) (fo : T) :
  let _ := AdaGradHandle junk rand in
  pod_size (A := F) = 4 -> Forall (pair_ok entry_fits) it -> sok fo -> written fo = [] -> (forall n, room fo n) ->
  exists fo', Save it fo = Ok fo' /\
    (forall fuel, length it < fuel ->
       let fi := MemoryStringStream.mk (written fo') 0 in
       run to_string_f need_inverse fuel fi = Ok (concat (map (line_of to_string_f need_inverse) (saved it)), length (saved it)) /\
       push to_string_f need_inverse fuel fi = run to_string_f need_inverse fuel fi) /\
    forall key e rest, (key, e) ∈ it -> strtouint (line_of to_string_f need_inverse (key, e) ++ rest) = Ok (feature_id need_inverse key) /\
      (need_inverse = true -> forall feature, (0 <= feature < 2 ^ 64)%Z -> key = ReverseBytes feature -> feature_id need_inverse key = feature).
Proof.
  intros hd Hsz Hok Hfo Hw Hr.
  destruct (save_pairs_spec entry_enc entry_fits reloaded counted (AdaGradEntry_laws Hsz junk rand) it fo 0 Hok Hfo (Hr _)) as (fo' & Es & Hw' & _ & _).
  exists fo'. split; [exact Es|]. rewrite Hw in Hw'. cbn [app] in Hw'.
  assert (Forall (pair_ok entry_fits) (saved it)) as Hoks by (apply Forall_forall; intros x [_ Hx]%list_elem_of_filter; by eapply Forall_forall in Hok).
  split.
  - intros fuel Hf. cbv zeta. rewrite Hw'. rewrite run_saved by (try done; pose proof (length_filter (fun kv => eEmpty (EntryIO := AdaGradEntryIO) kv.2 = false) it); unfold saved; lia).
    split; [done|]. rewrite <- (run_saved Hsz to_string_f need_inverse (saved it) fuel); [apply push_same| |]; [done|]. pose proof (length_filter (fun kv => eEmpty (EntryIO := AdaGradEntryIO) kv.2 = false) it). unfold saved. lia.
  - intros key e rest Hin. rewrite Forall_forall in Hok. destruct (Hok _ Hin) as [Hk [He _]]. cbn [fst snd] in *. split; [by apply line_reads|].
    intros -> f Hf ->. unfold feature_id. by apply ReverseBytes_twice.
Qed.

(** A feature with an embedding and one whose weight is zero. *)
Lemma exported_model_witness :
  let _ := Zfloat in let _ := pod_int 4 in let _ := AdaGradHandle 0%Z (fun _ => 0%Z) in
  let it := [(ReverseBytes 70, mkEntry 9 3 (Heap [5; 6; 7] [1; 2; 3; 4])); (4, mkEntry 2 1 (Inline 0 [Byte.x00; Byte.x00; Byte.x00; Byte.x00] 1 1))]%Z in
  exists fo', Save it (MemoryStringStream.mk [] 0) = Ok fo' /\
    run print_dec true 10 (MemoryStringStream.mk (written fo') 0) =
      Ok ([Byte.x37; Byte.x30; tab; Byte.x35; tab; Byte.x36; tab; Byte.x37; newline], 1) /\
    push print_dec true 10 (MemoryStringStream.mk (written fo') 0) = run print_dec true 10 (MemoryStringStream.mk (written fo') 0).
Proof.
  intros HF PF hd it.
  destruct (exported_model (HF := HF) (PF := PF) (T := MemoryStringStream.t) (PodLaws0 := pod_int_laws 3)
    0%Z (fun _ => 0%Z) print_dec true it (MemoryStringStream.mk [] 0)) as (fo' & Es & Hd & _).
  - reflexivity.
  - assert (0 <= ReverseBytes 70 < 2 ^ 64)%Z as Hr by apply ReverseBytes_range.
    apply Forall_cons; split; [split; [exact Hr|]|apply Forall_cons; split; [split; [cbn [fst]; lia|]|by apply Forall_nil]];
      unfold entry_fits, entry_ok; simpl; split_and!; (lia || (repeat (apply Forall_cons; split; [simpl; lia|]); by apply Forall_nil)).
  - simpl. lia.
  - reflexivity.
  - done.
  - exists fo'. split; [exact Es|]. destruct (Hd 10) as [Hrun Hpush]; [simpl; lia|]. rewrite Hpush. split; [|reflexivity]. rewrite Hrun. vm_compute. reflexivity.
Defined.
